(* ===== verification/_CoqProject ===== *)
-Q . S2P
Prelude.v
Text.v
Net.v
Crypto.v
Env.v
Durable.v
Grant.v
GrantReplay.v
Registry.v
PathSel.v
Token.v
TransLog.v
Attest.v
Codec.v
Ledger.v
Nullifier.v
ConnectIp.v
Pool.v
NodeConfig.v
Exit.v
Retry.v
Checksum.v
NodeServer.v
NodeGate.v
NodeRuns.v
RateLimit.v
CoordConfig.v
ClientIp.v
Coordinator.v
ClientPath.v
PortalStore.v
PortalFile.v
Prog.v
Portal.v
PortalRuns.v
PortalSafety.v
PortalAuth.v
PortalLive.v
Vault.v
VaultRuns.v
Interleave.v
Wallet.v
WalletRuns.v
WalletLive.v
World.v
HostNet.v
HostText.v
KillSwitch.v
HostRoutes.v
HostRuns.v
HostHeal.v
HostLive.v
Onion.v
Datapath.v
TunnelRuns.v
Pumps.v
Nested.v
PqExchange.v
Launch.v
Settings.v
Engine.v
EngineRuns.v
EndToEnd.v
