(* ===== verification/Prelude.v ===== *)
(** * NIL VPN: a verification library

    NIL VPN splits trust between parties that each see only a part.  A _portal_ keeps
    accounts without identities, takes payments and blind-signs anonymous tokens.  A
    _coordinator_ redeems a token, once, for a path of relays run by different operators in
    different jurisdictions, and signs one short-lived grant per hop.  A _node_ lets a client
    open one tunnel per grant and forwards its packets to the next hop, or from the last hop
    to the Internet.  A _client_ checks what the coordinator tells it against its own pins, and
    each node's attestation, before it sends a packet, keeps its tokens in a sealed vault, and
    routes its host through the tunnel so that nothing leaves beside it.  This library models the
    Rust code of the three servers, of the client's side of a path, of its vault and wallet, of
    its tunnel, of the host networking under it and the engine above it, and of the formats
    between them, and proves what each promises to the others.

    ** Files and the code they model

    Shared:
    - [Prelude]: bytes ([u8] as [Byte.byte]), wider unsigned integers as [Z] with their range
      written out, a [result] type with its monad, big-endian codecs, slices, UTF-8; the
      tactics [inv_ok], [inv_err], [ok_step] and [reflect_bools].
    - [Text], [Net], [Env]: hexadecimal and decimal text, IP addresses as the standard library
      parses and prints them, trimming and splitting, environment variables
      ([crates/nil-core/src/net.rs]).
    - [Durable] ([nil-core/src/durable.rs]): append-only sets on disk, with torn tails, failed
      writes, compaction and reopening.
    - [ClientIp] ([client_ip.rs] of the coordinator and, word for word, of the portal): who a
      request is from.
    - [Prog]: handlers as programs - trees of actions on shared resources - with the logic
      ([rg], [within]) in which their proofs are written.
    - [Crypto]: SHA-256, Ed25519, AEAD and blind RSA as type classes with the laws the code
      relies on, and the module [Toy] of executable instances that the witnesses run on.

    Grants and tokens:
    - [Grant] ([nil-core/src/grant.rs]): minting, the canonical wire format, parsing, verifier
      key sets, verification.
    - [GrantReplay] ([nil-node/src/grant_replay.rs]): the single-use cache of a node.
    - [Token] ([nil-crypto/src/token.rs], [nil-proto/src/token.rs]): blind-signed tokens.

    The coordinator:
    - [Registry], [PathSel] ([nil-coordinator/src/pathsel.rs]): the node registry and the search
      for a trust-split path.
    - [Ledger], [Nullifier] ([nullifier.rs]): sealed redemption records, their file format, and
      the stores behind the class [NullifierStore].
    - [RateLimit] ([ratelimit.rs] here and in [nil-portal]): fixed-window limiters.
    - [CoordConfig] ([config.rs]): environment, key files, release posture.
    - [Coordinator] ([api.rs]): redemption, from the HTTP request to the
      response, over any [NullifierStore].

    The portal ([crates/nil-portal/src]):
    - [PortalStore] ([store/mod.rs], [store/memory.rs], [account/model.rs]): accounts,
      entitlements, replay results and quotas; the class [PortalStore] with its law
      [backend_refines], that every run of a backend is one the abstract store allows; what
      follows for every such backend.
    - [Codec], [PortalFile] ([store/file.rs]): the file backend, with its sealed snapshot,
      rollback, uncertain durability, kills, power losses and reopening.  It is an instance of
      that class for histories in which no power loss undoes a rename that an earlier, killed
      process left unsynced.
    - [Portal]: every handler and background task ([account/], [mint.rs], [subscription.rs],
      [tokens.rs], [billing.rs], [cards.rs], [monero.rs], the loops of [main.rs]) as a
      program over the resources they share; one action is one critical section.
    - [PortalRuns]: the resources, and histories ([portal_run]) in which any number of requests
      interleave action by action, are abandoned, and crash with the process.
    - [PortalSafety], [PortalAuth]: what holds of every history.  [PortalLive]: an executable
      scheduler and a day of the portal that the witnesses run on.

    The node:
    - [ConnectIp] ([nil-transport/src/connectip.rs]), [Pool] ([pool.rs]), [Retry] ([retry.rs]),
      [Checksum] ([nil-core/src/checksum.rs]), [Exit] ([exit.rs]), [NodeConfig] ([config.rs],
      [attest.rs]).
    - [NodeServer] ([server.rs]): the packet path and the gate.  One [Step] is one arm of the
      select loop or one event polled in it: a UDP packet, the end of a handshake, an HTTP/3
      event, a client datagram, a TUN packet, a reaping.  [run] takes any list of steps, so
      theorems about runs hold for every interleaving.
    - [NodeGate]: the gate alone.  [NodeRuns]: the invariant over runs and what follows.

    Attestation and the client:
    - [TransLog] ([nil-crypto/src/translog.rs]): proofs that a measurement is in a transparency
      log, with the recursive tree of RFC 6962 as the specification.
    - [Attest] ([crates/nil-attest/src]): the evidence format, SEV-SNP and TDX appraisal, the
      gate.  The vendor crates ([SevCrate], [DcapCrate]) are classes.
    - [ClientPath] ([nil-datapath/src/redeem.rs], [nil-transport/src/masque/mod.rs]): from the
      coordinator's answer to endpoints, the CONNECT-IP request and the decision to bring a
      tunnel up.

    - [Vault] ([client/src-tauri/src/securestore.rs], [tokenstore.rs], [authstore.rs]): the
      sealed file that holds the account, the unspent passes and the operations in flight; one
      transaction per operation, with every system call that can fail.  [VaultRuns]: its
      specification - a value that changes at once or not at all - the refinement, and what
      follows over histories with failures and power losses.
    - [Wallet] ([tokens.rs], [tokenrefill.rs], [account.rs], [trust.rs], the credential commands
      of [lib.rs]): buying, refilling, connecting, logging out, as programs over the vault, the
      network and the engine.  [Interleave]: what any number of commands of one process can do
      together.  [WalletRuns]: what holds of every such run.  [WalletLive]: concrete histories.

    The client's tunnel:
    - [World]: programs over a world that their actions change; [always] says what holds of the
      world after each action and at the end.
    - [HostNet] ([nil-datapath/src/linux.rs]): arming and rolling back the routes, the firewall
      and the resolver of a Linux host, one command at a time.  The commands are a class
      ([HostTools]) whose laws say what [ip] and [iptables] are documented to do when they report
      success; any of them may fail.  [HostText]: what they print.
    - [KillSwitch]: the packet filter ([EgressFilter]), which packets may leave, and the rules at
      every moment of arming and disarming.  [HostRoutes]: capturing, pinning and restoring
      routes.  [HostRuns]: the life of a [LinuxNet], armed once and rolled back again and again.
      [HostHeal]: what happens once commands work again.  [HostLive]: runs, and what the
      hypotheses keep out.
    - [Onion] ([nil-transport/src/transport.rs], [path.rs]): the [Transport] trait, its contract
      as a class, and the path of nested hops as an instance.
    - [Datapath] ([nil-datapath/src/lib.rs]): [Tunnel::up] and [Tunnel::down] over any transport
      of that class and over the host.  [TunnelRuns]: runs.  [Pumps]: the two packet pumps with
      the tokens they share.
    - [Nested] ([nil-transport/src/udpip.rs], [masque/mod.rs]): the packets of one hop inside the
      tunnel of another, and how deep a path can be.
    - [PqExchange] ([nil-crypto/src/psk.rs], [nil-transport/src/pqwg.rs], [nil-node/src/pqwg.rs]):
      the post-quantum key exchange over the control stream, at both ends, up to the point where
      WireGuard's own handshake begins.
    - [Launch] ([nil-datapath/src/launch.rs]): from environment, trust roots and path to a
      transport and its configuration.
    - [Settings] ([client/src-tauri]: [trust_bundle.rs], [trust.rs], [config.rs], [netpolicy.rs];
      [nil-core/src/net.rs]): the embedded trust bundle, the settings file and the HTTPS rule.
    - [Engine] ([client/src-tauri/src/engine.rs]): the connect and disconnect commands of a
      release build over [Launch] and [Datapath].  [EngineRuns]: runs.

    - [EndToEnd]: the coordinator, the nodes and the client composed.

    ** How the code is rendered

    A function of the source is a function here, under its own name where that is free; a
    method that mutates its receiver returns the new value; [Result] and [Option] are [result]
    and [option], with one constructor per error the caller can tell apart; a [HashMap] is a
    [gmap].  What the code reads from outside - clocks, entropy, the environment, files, disk
    faults, whether a QUIC call succeeds - is an argument, and the theorems quantify over it.
    Libraries that are not in the repository are classes with laws; a theorem that uses such a
    law, or any hypothesis, is followed by a witness that applies it to concrete values.

    ** What is shown

    - End to end: [client_reaches_every_hop] (a client whose pins agree with the registry accepts
      what a release coordinator first redeems, each hop's node opens the tunnel with leave to
      send exactly to the next hop, and the tunnel comes up exactly when the node's evidence is
      acceptable),
      [release_redemption_proceeds] (a release coordinator never turns a good token away for
      want of a path or grant).
    - The client: [no_unpinned_tunnel]; attestation: [appraise_exact],
      [evidence_not_transferable], [measurement_pins_policy], [accepted_measurement_is_logged];
      the log: [logged_entry_accepted], [accepted_entry_is_logged], [log_proof_codec_exact].
    - The client's credentials: [vault_is_transactional], [pass_leaves_for_a_reason],
      [same_pass_until_completed], [stale_completion_refused], [migration_keeps_credentials];
      [wallet_passes_verify], [retries_are_identical], [pass_spent_only_on_tunnel]; a
      counterexample to a comment, [failed_write_stands].
    - The client's tunnel: [tunnel_fails_closed], [no_leak_window], [rollback_restores],
      [rollback_succeeds], [no_session_outlives_tunnel], [pumps_keep_order_and_tell],
      [down_joins_the_pumps]; counterexamples outside the hypotheses, [retry_reinstates_pin],
      [metric_pin_stays], [sixty_four_defaults_stuck], [rearming_opens_a_window],
      [multipath_refused], [device_failure_leaves_session], [entropy_failure_leaves_hop],
      [path_keeps_configured_address].
    - What is dialled: [release_launch_pinned], [desktop_connect_pinned]; the engine over it:
      [engine_fails_closed], [disconnect_recovers]; settings: [settings_survive_restart].
    - Nested hops and the key exchange: [nested_packet_crosses_relay], [path_depth_bound],
      [handshake_agrees], [same_key_same_exchange].
    - Redemption: [one_token_one_path], [refusal_spends_nothing], [token_spent_once] over the
      file store with its faults and restarts, [memory_token_spent_once],
      [granted_survives_crash], [stores_implement_ledger], [open_store_correct],
      [record_roundtrip]; a counterexample, [dir_sync_failure_reopens_spend].
    - Paths: [select_path_correct], [from_file_exact], [coord_release_posture].
    - Grants: [verify_refines], [mint_verify_roundtrip], [parse_exactly_canonical];
      [consume_refines], [accepted_at_most_once], [restart_replay_window] and
      [restart_window_is_open] for the replay cache.
    - The gate: [authorize_connect_exact], [grant_opens_one_tunnel],
      [minted_grant_opens_tunnel], [relay_packet_exact].
    - The portal: [one_payment_one_token], [token_is_paid_for], [only_the_key_holder],
      [challenge_authorises_once], [subscription_is_paid_for], [mint_within_quota],
      [refund_is_final], [portal_state_well_typed], [requests_terminate]; its stores:
      [file_store_refines], [file_store_crash_safe], [accepted_keys_survive],
      [inserted_at_most_once]; a counterexample outside the hypothesis of the first,
      [killed_process_forgets_signature].
    - Runs of the node: [node_state_invariant], [traffic_is_authorised],
      [replies_reach_owner], [pq_reply_before_handshake].
    - Formats and helpers: [datagram_roundtrip], [decode_datagram_sound], [pool_correct],
      [retry_token_exact], [fix_l4_checksums_correct], [fragments_are_overwritten],
      [egress_by_role], [pool_outgrows_nat], [from_env_posture], [issued_token_verifies],
      [check_refines], [budget_never_exceeded].

    ** Fuel and bounds

    - [extend_path] recurses once per hop and is given the number of hops as fuel; the search
      theorem covers every length.
    - [probe] of the address pool is given the size of the band, the bound of the source's own
      loop.  [fold_carry] has fuel for any 32-bit sum ([fold_carry_u32]).
    - [load_loop] and the text readers get the length of their input, and consume at least one
      byte per turn.
    - [decap_loop] stands for a loop of the source that has no bound of its own: it ends when
      the WireGuard session reports no more work.  Its fuel is a field of [Process]; the
      theorems hold for every value of it.
    - A portal request performs at most [MAX_ACTIONS] actions: sixteen signatures, two queries
      per payment rail and eight more.  [finish] runs a request with that much fuel.
    - Log trees have at most 2^63 entries in the theorems of [TransLog]: beyond that the source
      shifts a 64-bit index by 64 ([shr64] wraps the distance, as a release build does).
    - [decode_loop] of the evidence format has the length of its input as fuel and consumes at
      least four bytes per turn; so have [decode_loop] and [frames] of the key exchange.
    - Counters that can wrap in a release build wrap here ([u32_wrap] in [RateLimit]).
    - The entropy a vault operation may draw is a finite list, after which the source fails
      ([io_draws]); [fresh_reservation_id] recurses on it, as the source's loop draws until an
      identifier differs.
    - [restore_loop] has the 65 turns of the source's loop; [lossy] has the length of its input
      as fuel and consumes at least one byte per turn.

    ** What is not modelled

    QUIC, HTTP/3, TLS, the WireGuard session and the cryptographic primitives are
    parameters (a KEM is taken to be correct; ML-KEM fails with negligible probability), and so are JSON, the wallet's replies and the HSM.  The PostgreSQL stores are
    SQL, and one of them can time out after committing, so [commit_err] of [NullifierStoreLaws]
    is a law of the memory and file stores only.  Socket and TUN writes, timers, logging and process start-up are left out, and so is the
    synthetic attestation backend of test builds.  The mutex that serialises the wallet's
    commands and the generation counter are actions without a modelled effect, so what is
    proved holds also of the interleavings they exclude.  One MASQUE session, once dialled, is an action
    that opens or closes it, and so is its WireGuard wrapper; kernel routing is modelled as far
    as the commands the code runs show and change it.  The client's other transports, the host
    networking of macOS, Windows and Android, the debug-only paths of the launch and the engine,
    the window of the desktop application and the mobile bindings are not modelled. *)

From Stdlib Require Import Strings.Byte NArith ZArith Lia.
From stdpp Require Import prelude gmap strings.

(** ** Bytes and machine integers

    A [u8] is a [Byte.byte]; wider unsigned integers are [Z] with their range
    written out where the code depends on it.  A [usize] that only indexes a slice
    is a [nat]. *)

Abbreviation bytes := (list byte).

#[global] Instance byte_eq_dec : EqDecision byte := Byte.byte_eq_dec.

#[global] Program Instance byte_countable : Countable byte :=
  inj_countable Byte.to_N Byte.of_N Byte.of_to_N.

Definition b2z (b : byte) : Z := Z.of_N (Byte.to_N b).

Definition z2b (z : Z) : byte :=
  match Byte.of_N (Z.to_N (z mod 256)) with
  | Some b => b
  | None => x00
  end.

Lemma b2z_range (b : byte) : (0 ≤ b2z b < 256)%Z.
Proof. unfold b2z. pose proof (Byte.to_N_bounded b). lia. Qed.

Lemma z2b_b2z (b : byte) : z2b (b2z b) = b.
Proof.
  unfold z2b. rewrite Z.mod_small by apply b2z_range.
  unfold b2z. by rewrite N2Z.id, Byte.of_to_N.
Qed.

Lemma b2z_z2b (z : Z) : b2z (z2b z) = (z mod 256)%Z.
Proof.
  unfold z2b, b2z. pose proof (Z.mod_pos_bound z 256 ltac:(lia)) as Hb.
  destruct (Byte.of_N _) as [b|] eqn:E.
  - apply Byte.to_of_N in E. rewrite E. lia.
  - apply Byte.of_N_None_iff in E. lia.
Qed.

Lemma b2z_inj (a b : byte) : b2z a = b2z b → a = b.
Proof. intros H. by rewrite <- (z2b_b2z a), H, z2b_b2z. Qed.

Lemma b2z_z2b_small (z : Z) : (0 ≤ z < 256)%Z → b2z (z2b z) = z.
Proof. intros. rewrite b2z_z2b. by apply Z.mod_small. Qed.

(** A string literal as the bytes Rust's [as_bytes] gives. *)
Definition str (s : string) : bytes := String.list_byte_of_string s.

Definition U16_MAX : Z := 65535.
Definition U32_MAX : Z := 4294967295.
Definition U64_MAX : Z := 18446744073709551615.

Definition u16 (z : Z) : Prop := (0 ≤ z ≤ U16_MAX)%Z.
Definition u32 (z : Z) : Prop := (0 ≤ z ≤ U32_MAX)%Z.
Definition u64 (z : Z) : Prop := (0 ≤ z ≤ U64_MAX)%Z.

#[global] Instance u16_dec z : Decision (u16 z).
Proof. unfold u16. apply _. Defined.
#[global] Instance u32_dec z : Decision (u32 z).
Proof. unfold u32. apply _. Defined.
#[global] Instance u64_dec z : Decision (u64 z).
Proof. unfold u64. apply _. Defined.

Ltac unfold_int := unfold u16, u32, u64, U16_MAX, U32_MAX, U64_MAX in *.

Definition u64_checked_add (a b : Z) : option Z :=
  if (a + b <=? U64_MAX)%Z then Some (a + b)%Z else None.
Definition u64_checked_sub (a b : Z) : option Z :=
  if (b <=? a)%Z then Some (a - b)%Z else None.
Definition u64_saturating_add (a b : Z) : Z := Z.min (a + b) U64_MAX.
Definition u64_saturating_sub (a b : Z) : Z := Z.max 0 (a - b).
Definition u32_checked_add (a b : Z) : option Z :=
  if (a + b <=? U32_MAX)%Z then Some (a + b)%Z else None.
Definition u32_saturating_add (a b : Z) : Z := Z.min (a + b) U32_MAX.
Definition u32_wrap (z : Z) : Z := (z mod 2 ^ 32)%Z.

(** [usize::checked_add] on a 64-bit target. *)
Definition usize_checked_add (a b : nat) : option nat :=
  if (Z.of_nat a + Z.of_nat b <=? U64_MAX)%Z then Some (a + b) else None.

Lemma u64_checked_add_Some a b c :
  u64_checked_add a b = Some c ↔ c = (a + b)%Z ∧ (a + b ≤ U64_MAX)%Z.
Proof.
  unfold u64_checked_add. destruct (Z.leb_spec (a + b) U64_MAX); split.
  all: try (intros [= <-]); naive_solver lia.
Qed.

Lemma u64_checked_sub_Some a b c :
  u64_checked_sub a b = Some c ↔ c = (a - b)%Z ∧ (b ≤ a)%Z.
Proof.
  unfold u64_checked_sub. destruct (Z.leb_spec b a); split.
  all: try (intros [= <-]); naive_solver lia.
Qed.

Lemma usize_checked_add_small a b :
  (Z.of_nat a + Z.of_nat b ≤ U64_MAX)%Z → usize_checked_add a b = Some (a + b).
Proof. intros. unfold usize_checked_add. by rewrite (proj2 (Z.leb_le _ _)). Qed.

(** ** Results

    Rust's [Result<A, E>], with the error type first so that [result E] is the
    monad [?] threads through a function body. *)

Inductive result (E A : Type) : Type :=
  | Ok (a : A)
  | Err (e : E).
Arguments Ok {E A} a.
Arguments Err {E A} e.

#[global] Instance result_ret {E} : MRet (result E) := λ A a, Ok a.
#[global] Instance result_bind {E} : MBind (result E) := λ A B f m,
  match m with Ok a => f a | Err e => Err e end.
#[global] Instance result_fmap {E} : FMap (result E) := λ A B f m,
  match m with Ok a => Ok (f a) | Err e => Err e end.

#[global] Instance result_eq_dec {E A} `{EqDecision E, EqDecision A} :
  EqDecision (result E A).
Proof. solve_decision. Defined.

Definition ok_or {E A} (o : option A) (e : E) : result E A :=
  match o with Some a => Ok a | None => Err e end.
Definition map_err {E F A} (f : E → F) (r : result E A) : result F A :=
  match r with Ok a => Ok a | Err e => Err (f e) end.
Definition ok {E A} (r : result E A) : option A :=
  match r with Ok a => Some a | Err _ => None end.
Definition is_ok {E A} (r : result E A) : bool :=
  match r with Ok _ => true | Err _ => false end.

(** [if !cond { return Err(e) }]. *)
Definition ensure {E} (cond : bool) (e : E) : result E unit :=
  if cond then Ok tt else Err e.

(** [iter.map(f).collect::<Result<Vec<_>, _>>()]. *)
Fixpoint result_mapM {E A B} (f : A → result E B) (l : list A) : result E (list B) :=
  match l with
  | [] => Ok []
  | x :: l => y ← f x; ys ← result_mapM f l; Ok (y :: ys)
  end.

Section result_lemmas.
Context {E : Type}.

Lemma Some_bind {A B} (a : A) (f : A → option B) : (Some a ≫= f) = f a.
Proof. done. Qed.

(** Evaluation steps, as rewrites so that large monadic bodies stay folded. *)
Lemma Ok_bind {A B} (a : A) (f : A → result E B) : (Ok a ≫= f) = f a.
Proof. done. Qed.
Lemma Err_bind {A B} (e : E) (f : A → result E B) : (Err e ≫= f) = Err e.
Proof. done. Qed.
Lemma ok_or_Some {A} (a : A) (e : E) : ok_or (Some a) e = Ok a.
Proof. done. Qed.
Lemma ensure_true (e : E) : ensure true e = Ok tt.
Proof. done. Qed.

Lemma bind_Ok {A B} (m : result E A) (f : A → result E B) b :
  (m ≫= f) = Ok b ↔ ∃ a, m = Ok a ∧ f a = Ok b.
Proof. destruct m; cbn; naive_solver. Qed.

Lemma ok_or_Ok {A} (o : option A) (e : E) a : ok_or o e = Ok a ↔ o = Some a.
Proof. destruct o; cbn; naive_solver. Qed.

Lemma map_err_Ok {A F} (f : E → F) (r : result E A) a : map_err f r = Ok a ↔ r = Ok a.
Proof. destruct r; cbn; naive_solver. Qed.

Lemma ensure_Ok (c : bool) (e : E) u : ensure c e = Ok u ↔ c = true.
Proof. destruct c, u; cbn; naive_solver. Qed.

Lemma bind_Err {A B} (m : result E A) (f : A → result E B) e :
  (m ≫= f) = Err e ↔ m = Err e ∨ ∃ a, m = Ok a ∧ f a = Err e.
Proof. destruct m; cbn; naive_solver. Qed.

Lemma ok_or_Err {A} (o : option A) (e e' : E) : ok_or o e = Err e' ↔ o = None ∧ e' = e.
Proof. destruct o; cbn; naive_solver. Qed.

Lemma ensure_Err (c : bool) (e e' : E) : ensure c e = Err e' ↔ c = false ∧ e' = e.
Proof. destruct c; cbn; naive_solver. Qed.

Lemma result_mapM_Ok {A B} (f : A → result E B) l k :
  result_mapM f l = Ok k ↔ Forall2 (λ x y, f x = Ok y) l k.
Proof.
  revert k. induction l as [|x l IH]; intros k; cbn [result_mapM].
  - split; [by intros [= <-]|]. by inversion 1.
  - rewrite bind_Ok. setoid_rewrite bind_Ok. setoid_rewrite IH. split.
    + intros (y & Hy & ys & Hys & [= <-]). by constructor.
    + inversion 1; subst. eauto 8.
Qed.

End result_lemmas.

(** Elements of lists related point by point have a partner. *)
Lemma Forall2_elem_l {A B} (P : A → B → Prop) l k x :
  Forall2 P l k → x ∈ l → ∃ y, y ∈ k ∧ P x y.
Proof.
  induction 1 as [|a b l k Hab _ IH]; [by intros ?%elem_of_nil|].
  intros [->|Hx]%elem_of_cons; [exists b; split; [by left|done]|].
  destruct (IH Hx) as (y & ? & ?). exists y. split; [by right|done].
Qed.

Lemma Forall2_elem_r {A B} (P : A → B → Prop) l k y :
  Forall2 P l k → y ∈ k → ∃ x, x ∈ l ∧ P x y.
Proof. intros H Hy. apply Forall2_flip in H. by eapply Forall2_elem_l in H. Qed.

Ltac ok_step := repeat first [rewrite Ok_bind | rewrite ok_or_Some | rewrite ensure_true].

(** Destruct every [?] of a successful run, leaving one equation per step. *)
Ltac inv_ok H :=
  repeat first
    [ apply bind_Ok in H; destruct H as (? & ? & H)
    | apply ok_or_Ok in H
    | apply map_err_Ok in H
    | apply ensure_Ok in H ];
  repeat match goal with
    | K : mbind _ _ = Ok _ |- _ => apply bind_Ok in K; destruct K as (? & ? & K)
    | K : ok_or _ _ = Ok _ |- _ => apply ok_or_Ok in K
    | K : map_err _ _ = Ok _ |- _ => apply map_err_Ok in K
    | K : ensure _ _ = Ok _ |- _ => apply ensure_Ok in K
    end.

(** Enumerate the [?] steps at which a run can have failed. *)
Ltac inv_err H :=
  repeat match type of H with
    | mbind _ _ = Err _ =>
        apply bind_Err in H; destruct H as [H|(? & ? & H)]
    | ok_or _ _ = Err _ => apply ok_or_Err in H; destruct H as [? H]
    | ensure _ _ = Err _ => apply ensure_Err in H; destruct H as [? H]
    | Ok _ = Err _ => discriminate H
    end.

(** ** Big-endian integers: [to_be_bytes] and [from_be_bytes] *)

Fixpoint be_bytes (n : nat) (z : Z) : bytes :=
  match n with
  | 0 => []
  | S n' => z2b (Z.shiftr z (8 * Z.of_nat n')) :: be_bytes n' z
  end.

Fixpoint be_value (l : bytes) : Z :=
  match l with
  | [] => 0
  | b :: l' => b2z b * 2 ^ (8 * Z.of_nat (length l')) + be_value l'
  end%Z.

Lemma length_be_bytes n z : length (be_bytes n z) = n.
Proof. induction n; cbn; congruence. Qed.

Lemma be_value_range l : (0 ≤ be_value l < 2 ^ (8 * Z.of_nat (length l)))%Z.
Proof.
  induction l as [|b l IH]; cbn [be_value length]; [lia|].
  pose proof (b2z_range b).
  replace (8 * Z.of_nat (S (length l)))%Z with (8 + 8 * Z.of_nat (length l))%Z by lia.
  rewrite Z.pow_add_r by lia. change (2 ^ 8)%Z with 256%Z. nia.
Qed.

Lemma be_value_be_bytes n z : be_value (be_bytes n z) = (z mod 2 ^ (8 * Z.of_nat n))%Z.
Proof.
  induction n as [|n IH]; cbn [be_value be_bytes].
  - by rewrite Z.mod_1_r.
  - rewrite IH, length_be_bytes, b2z_z2b, Z.shiftr_div_pow2 by lia.
    replace (8 * Z.of_nat (S n))%Z with (8 * Z.of_nat n + 8)%Z by lia.
    rewrite Z.pow_add_r by lia. change (2 ^ 8)%Z with 256%Z.
    set (p := (2 ^ (8 * Z.of_nat n))%Z).
    assert (0 < p)%Z by (apply Z.pow_pos_nonneg; lia).
    rewrite (Z.rem_mul_r z p 256) by lia. lia.
Qed.

Lemma be_value_be_bytes_small n z :
  (0 ≤ z < 2 ^ (8 * Z.of_nat n))%Z → be_value (be_bytes n z) = z.
Proof. intros. rewrite be_value_be_bytes. by apply Z.mod_small. Qed.

Lemma be_bytes_mod n k z :
  (n ≤ k)%nat → be_bytes n (z mod 2 ^ (8 * Z.of_nat k)) = be_bytes n z.
Proof.
  revert k. induction n as [|n IH]; intros k Hk; cbn [be_bytes]; [done|].
  rewrite IH by lia. f_equal. apply b2z_inj. rewrite !b2z_z2b.
  change 256%Z with (2 ^ 8)%Z. apply Z.bits_inj'. intros i Hi.
  destruct (Z.lt_ge_cases i 8).
  - rewrite !Z.mod_pow2_bits_low, !Z.shiftr_spec by lia.
    by rewrite Z.mod_pow2_bits_low by lia.
  - by rewrite !Z.mod_pow2_bits_high by lia.
Qed.

Lemma be_bytes_be_value l : be_bytes (length l) (be_value l) = l.
Proof.
  induction l as [|b l IH]; cbn [length be_bytes be_value]; [done|].
  set (p := (2 ^ (8 * Z.of_nat (length l)))%Z).
  pose proof (be_value_range l) as Hr. fold p in Hr.
  f_equal.
  - rewrite Z.shiftr_div_pow2 by lia. fold p.
    rewrite Z.add_comm, Z.div_add, Z.div_small by lia. apply z2b_b2z.
  - rewrite <- IH at 3. rewrite <- (be_bytes_mod _ (length l)) by lia. fold p.
    f_equal. rewrite Z.add_comm, Z.mod_add by lia. by apply Z.mod_small.
Qed.

Lemma be_bytes_be_value_len n l : length l = n → be_bytes n (be_value l) = l.
Proof. intros <-. apply be_bytes_be_value. Qed.

(** A shifted word and the bits below it. *)
Lemma lor_shift k hi lo :
  (0 ≤ k → 0 ≤ lo < 2 ^ k → Z.lor (Z.shiftl hi k) lo = hi * 2 ^ k + lo)%Z.
Proof.
  intros Hk Hlo. rewrite Z.shiftl_mul_pow2 by lia.
  pose proof (Z.add_lor_land (hi * 2 ^ k) lo).
  enough (Z.land (hi * 2 ^ k) lo = 0)%Z by lia.
  apply Z.bits_inj'. intros i Hi. rewrite Z.land_spec, Z.bits_0.
  destruct (Z.lt_ge_cases i k).
  - by rewrite Z.mul_pow2_bits_low.
  - rewrite <- (Z.mod_small lo (2 ^ k)) by lia.
    rewrite (Z.mod_pow2_bits_high lo) by lia. apply andb_false_r.
Qed.

(** ** Slices *)

(** [slice.get(a..b)]: [None] unless [a <= b <= len]. *)
Definition slice_get {A} (l : list A) (a b : nat) : option (list A) :=
  if decide (a ≤ b ∧ b ≤ length l) then Some (take (b - a) (drop a l)) else None.

Lemma slice_get_Some {A} (l : list A) a b s :
  slice_get l a b = Some s ↔ a ≤ b ∧ b ≤ length l ∧ s = take (b - a) (drop a l).
Proof. unfold slice_get. case_decide; naive_solver. Qed.

Lemma slice_get_length {A} (l : list A) a b s :
  slice_get l a b = Some s → length s = b - a.
Proof.
  intros (?&?&->)%slice_get_Some. rewrite length_take, length_drop. lia.
Qed.

(** Reading the middle of a concatenation. *)
Lemma slice_get_app {A} (pre mid post : list A) a b :
  a = length pre → b = length pre + length mid →
  slice_get (pre ++ mid ++ post) a b = Some mid.
Proof.
  intros -> ->. apply slice_get_Some. rewrite !length_app.
  split; [lia|]. split; [lia|].
  rewrite drop_app_length. replace (_ - _) with (length mid) by lia.
  by rewrite take_app_length.
Qed.

(** Walking over a concatenation chunk by chunk. *)
Lemma slice_get_skip {A} (p l : list A) a b :
  length p ≤ a → a ≤ b →
  slice_get (p ++ l) a b = slice_get l (a - length p) (b - length p).
Proof.
  intros. unfold slice_get. rewrite length_app.
  destruct (decide (a ≤ b ∧ b ≤ length p + length l)).
  - rewrite decide_True by lia. f_equal.
    rewrite drop_app_ge by done. f_equal. lia.
  - rewrite decide_False by lia. done.
Qed.

Lemma slice_get_here {A} (p l : list A) a b :
  a = 0 → b = length p → slice_get (p ++ l) a b = Some p.
Proof. intros -> ->. by apply (slice_get_app [] p l). Qed.

Lemma slice_get_end {A} (p : list A) a b :
  a = 0 → b = length p → slice_get p a b = Some p.
Proof. intros. pose proof (slice_get_here p [] a b) as H1. rewrite app_nil_r in H1. auto. Qed.

(** Consecutive slices rebuild the prefix they cover. *)
Lemma take_slice {A} (l : list A) a b s :
  slice_get l a b = Some s → take b l = take a l ++ s.
Proof.
  intros (?&?&->)%slice_get_Some. replace b with (a + (b - a)) at 1 by lia.
  by rewrite take_take_drop.
Qed.

Lemma slice_get_to_end {A} (l : list A) a s :
  slice_get l a (length l) = Some s → s = drop a l.
Proof.
  intros (?&?&->)%slice_get_Some. rewrite take_ge; [done|]. rewrite length_drop. lia.
Qed.

(** [starts_with]. *)
(** [buf[i]] and the big-endian [u16] at [i], used only inside the buffer. *)
Definition at_ (buf : bytes) (i : nat) : byte := nth i buf x00.

Definition u16_at (buf : bytes) (i : nat) : Z := be_value [at_ buf i; at_ buf (i + 1)].

Definition starts_with (p l : bytes) : bool := bool_decide (take (length p) l = p).

Lemma forallb_Forall_true {A} (f : A → bool) l :
  forallb f l = true ↔ Forall (λ x, f x = true) l.
Proof.
  induction l as [|x l IH]; cbn; [done|].
  by rewrite andb_true_iff, IH, Forall_cons.
Qed.

(** ** Order of byte strings *)

(** [Ord] on byte arrays is lexicographic. *)
Fixpoint bytes_cmp (a b : bytes) : comparison :=
  match a, b with
  | [], [] => Eq
  | [], _ :: _ => Lt
  | _ :: _, [] => Gt
  | x :: a, y :: b =>
      match (b2z x ?= b2z y)%Z with Eq => bytes_cmp a b | c => c end
  end.

(** ** ASCII classes *)

Definition in_range (lo hi : Z) (b : byte) : bool := (lo <=? b2z b)%Z && (b2z b <=? hi)%Z.
Definition is_ascii_lowercase : byte → bool := in_range 97 122.
Definition is_ascii_uppercase : byte → bool := in_range 65 90.
Definition is_ascii_digit : byte → bool := in_range 48 57.
Definition is_lower_hex (b : byte) : bool := is_ascii_digit b || in_range 97 102 b.

(** ** UTF-8: [std::str::from_utf8]

    The well-formed byte sequences of the Unicode standard (table 3-7), which is
    what the standard library's validator accepts. *)
Definition utf8_cont : byte → bool := in_range 128 191.

Fixpoint from_utf8 (fuel : nat) (l : bytes) : bool :=
  match fuel, l with
  | _, [] => true
  | 0, _ :: _ => false
  | S n, a :: l =>
      if in_range 0 127 a then from_utf8 n l
      else if in_range 194 223 a then
        match l with b :: l => utf8_cont b && from_utf8 n l | _ => false end
      else if in_range 224 239 a then
        match l with
        | b :: c :: l =>
            (if (b2z a =? 224)%Z then in_range 160 191 b
             else if (b2z a =? 237)%Z then in_range 128 159 b else utf8_cont b)
            && utf8_cont c && from_utf8 n l
        | _ => false
        end
      else if in_range 240 244 a then
        match l with
        | b :: c :: d :: l =>
            (if (b2z a =? 240)%Z then in_range 144 191 b
             else if (b2z a =? 244)%Z then in_range 128 143 b else utf8_cont b)
            && utf8_cont c && utf8_cont d && from_utf8 n l
        | _ => false
        end
      else false
  end.

(** One unit of fuel per byte is enough: each step consumes at least one. *)
Definition is_utf8 (l : bytes) : bool := from_utf8 (length l) l.

Definition ascii (l : bytes) : Prop := Forall (λ b, in_range 0 127 b = true) l.

Lemma ascii_is_utf8 l : ascii l → is_utf8 l = true.
Proof.
  unfold is_utf8. induction 1 as [|b l Hb _ IH]; cbn [length from_utf8]; [done|].
  by rewrite Hb.
Qed.

(** More fuel than bytes changes nothing, so a valid prefix can be taken off. *)
Lemma from_utf8_app n m a b :
  (length (a ++ b) ≤ n)%nat → (length b ≤ m)%nat → is_utf8 a = true →
  from_utf8 n (a ++ b) = from_utf8 m b.
Proof.
  unfold is_utf8. intros Hn Hm. remember (length a) as f eqn:Hf.
  assert (length a ≤ f)%nat as Hlen by lia. clear Hf. revert a n m Hn Hm Hlen.
  induction f as [f IH] using lt_wf_ind. intros a n m Hn Hm Hlen Ha.
  destruct a as [|x a].
  - clear -Hn Hm. cbn [app] in *. revert m b Hm Hn.
    induction n as [n IH] using lt_wf_ind. intros m b Hm Hn.
    destruct b as [|x b]; [by destruct n, m|].
    destruct n as [|n]; [cbn in Hn; lia|]. destruct m as [|m]; [cbn in Hm; lia|].
    cbn [from_utf8 length] in *.
    assert (IH' : ∀ b, (length b ≤ m)%nat → (length b ≤ n)%nat → from_utf8 n b = from_utf8 m b)
      by (intros; apply IH; lia).
    repeat case_match; try done; cbn [length] in *; rewrite IH' by lia; done.
  - destruct f as [|f]; [cbn in Hlen; lia|]. destruct n as [|n]; [cbn in Hn; lia|].
    cbn [from_utf8 length app] in *.
    destruct (in_range 0 127 x); [by apply (IH f); try lia|].
    destruct (in_range 194 223 x).
    { destruct a as [|y a]; [done|]. apply andb_true_iff in Ha as [Hy Ha]. cbn [app length] in *.
      rewrite Hy. by apply (IH f); try lia. }
    destruct (in_range 224 239 x).
    { destruct a as [|y [|z a]]; [done..|]. rewrite !andb_true_iff in Ha. destruct Ha as [[Hy Hz] Ha].
      cbn [app length] in *. rewrite Hy, Hz. by apply (IH f); try lia. }
    destruct (in_range 240 244 x); [|done].
    destruct a as [|y [|z [|w a]]]; [done..|]. rewrite !andb_true_iff in Ha.
    destruct Ha as [[[Hy Hz] Hw] Ha]. cbn [app length] in *. rewrite Hy, Hz, Hw. by apply (IH f); try lia.
Qed.

Lemma is_utf8_app a b : is_utf8 a = true → is_utf8 (a ++ b) = is_utf8 b.
Proof. intros Ha. by apply from_utf8_app. Qed.

(** ** Automation *)

Create HintDb nil.
Create Rewrite HintDb nil_len.

#[export] Hint Resolve b2z_range length_be_bytes : nil.
#[export] Hint Rewrite length_be_bytes @length_app @length_take @length_drop : nil_len.

Ltac simp_len := autorewrite with nil_len in *; cbn [length] in *.

(** Turn boolean tests of the code into propositions. *)
Ltac reflect_bools :=
  repeat match goal with
    | H : negb _ = true |- _ => apply negb_true_iff in H
    | H : negb _ = false |- _ => apply negb_false_iff in H
    | H : (_ && _)%bool = true |- _ => apply andb_true_iff in H; destruct H
    | H : (_ || _)%bool = false |- _ => apply orb_false_iff in H; destruct H
    | H : (_ <=? _)%Z = true |- _ => apply Z.leb_le in H
    | H : (_ <=? _)%Z = false |- _ => apply Z.leb_gt in H
    | H : (_ <? _)%Z = true |- _ => apply Z.ltb_lt in H
    | H : (_ <? _)%Z = false |- _ => apply Z.ltb_ge in H
    | H : (_ =? _)%Z = true |- _ => apply Z.eqb_eq in H
    | H : (_ =? _)%Z = false |- _ => apply Z.eqb_neq in H
    | H : (_ <=? _)%nat = true |- _ => apply Nat.leb_le in H
    | H : (_ <=? _)%nat = false |- _ => apply Nat.leb_gt in H
    | H : (_ <? _)%nat = true |- _ => apply Nat.ltb_lt in H
    | H : (_ <? _)%nat = false |- _ => apply Nat.ltb_ge in H
    | H : (_ =? _)%nat = true |- _ => apply Nat.eqb_eq in H
    | H : (_ =? _)%nat = false |- _ => apply Nat.eqb_neq in H
    | H : bool_decide _ = true |- _ => apply bool_decide_eq_true in H
    | H : bool_decide _ = false |- _ => apply bool_decide_eq_false in H
    end.
