(* ===== verification/Text.v ===== *)
(** * Text encodings

    The hexadecimal and decimal text the crates put on the wire and on disk: the
    codecs of [nil-core/src/grant.rs], the Portal's and the Coordinator's own copies
    of them, and the integer printing and parsing of the standard library they rely
    on ([to_string], [parse::<u32>], [parse::<u64>]). *)

From S2P Require Import Prelude.
From Stdlib Require Import Strings.Byte ZArith Lia.
From stdpp Require Import prelude gmap strings.

Local Open Scope Z_scope.

(** ** Hexadecimal *)

(** The nibble match shared by [from_hex] and the Portal's decoders. *)
Definition nib (c : byte) : option Z :=
  if in_range 48 57 c then Some (b2z c - 48)
  else if in_range 97 102 c then Some (b2z c - 97 + 10)
  else if in_range 65 70 c then Some (b2z c - 65 + 10)
  else None.

(** The Portal's lowercase-only nibble. *)
Definition lower_nib (c : byte) : option Z :=
  if in_range 48 57 c then Some (b2z c - 48)
  else if in_range 97 102 c then Some (b2z c - 97 + 10)
  else None.

(** [(hi << 4) | lo] on [u8]. *)
Definition join_nibbles (hi lo : Z) : byte := z2b (Z.lor (Z.shiftl hi 4) lo).

(** [for p in h.chunks_exact(2) { out.push((nib(p[0])? << 4) | nib(p[1])?) }]. *)
Fixpoint decode_pairs (f : byte → option Z) (h : bytes) : option bytes :=
  match h with
  | a :: b :: h =>
      hi ← f a; lo ← f b; out ← decode_pairs f h; Some (join_nibbles hi lo :: out)
  | _ => Some []
  end.

Definition from_hex (hex : bytes) : option bytes :=
  if negb (Nat.even (length hex)) then None else decode_pairs nib hex.

Definition HEX : bytes := str "0123456789abcdef".

(** [HEX[i]]; the index is a nibble, so always in bounds. *)
Definition hex_digit (i : Z) : byte := nth (Z.to_nat i) HEX x00.

Fixpoint to_hex (l : bytes) : bytes :=
  match l with
  | [] => []
  | b :: l => hex_digit (Z.shiftr (b2z b) 4) :: hex_digit (Z.land (b2z b) 15) :: to_hex l
  end.

(** The formatter's lowercase hexadecimal digit, and [format!("{x:02x}")] over a
    slice as the Coordinator API and the Portal write it. *)
Definition fmt_hex_digit (d : Z) : byte := if d <? 10 then z2b (48 + d) else z2b (87 + d).

Definition fmt_02x (b : byte) : bytes :=
  [fmt_hex_digit (b2z b / 16); fmt_hex_digit (b2z b mod 16)].

Definition to_hex_fmt (l : bytes) : bytes := l ≫= fmt_02x.

(** [validate_lower_hex]: exactly [n] bytes of lowercase hexadecimal. *)
Definition lower_hex_ok (n : nat) (value : bytes) : bool :=
  (length value =? n * 2)%nat && forallb is_lower_hex value.

(** [hex32] and [unhex32] of the Portal's store. *)
Definition hex32 (b : bytes) : bytes := b ≫= fmt_02x.

Definition unhex32 (s : bytes) : option bytes :=
  if negb (length s =? 64)%nat then None else decode_pairs nib s.

(** ** Decimal *)

(** The digit loop of the unsigned [FromStr]: overflow is an error. *)
Fixpoint parse_digits (max acc : Z) (s : bytes) : option Z :=
  match s with
  | [] => Some acc
  | c :: s =>
      if is_ascii_digit c then
        let v := acc * 10 + (b2z c - 48) in
        if v <=? max then parse_digits max v s else None
      else None
  end.

(** [str::parse::<uN>]: an optional leading plus sign, then at least one digit. *)
Definition parse_uint (max : Z) (s : bytes) : option Z :=
  match s with
  | [] => None
  | c :: s' =>
      if decide (c = x2b) then
        match s' with [] => None | _ => parse_digits max 0 s' end
      else parse_digits max 0 s
  end.

Definition digit (d : Z) : byte := z2b (48 + d).

Fixpoint dec_digits (fuel : nat) (n : Z) (acc : bytes) : bytes :=
  match fuel with
  | 0%nat => acc
  | S f => let acc := digit (n mod 10) :: acc in
           if n <? 10 then acc else dec_digits f (n / 10) acc
  end.

(** [to_string] of an unsigned integer of at most 64 bits: 20 digits suffice. *)
Definition uint_to_string (n : Z) : bytes := dec_digits 20 n [].

(** ** Lemmas *)

Lemma in_range_iff lo hi b : in_range lo hi b = true ↔ lo ≤ b2z b ≤ hi.
Proof. unfold in_range. rewrite andb_true_iff, !Z.leb_le. lia. Qed.

Lemma in_range_false lo hi b : in_range lo hi b = false ↔ ¬ (lo ≤ b2z b ≤ hi).
Proof. rewrite <- in_range_iff. by destruct (in_range lo hi b). Qed.

Ltac case_range :=
  repeat match goal with
    | |- context [in_range ?lo ?hi ?b] =>
        let E := fresh "E" in
        destruct (in_range lo hi b) eqn:E;
        [rewrite in_range_iff in E | rewrite in_range_false in E]
    end.

Lemma nibble_cases (P : Z → Prop) :
  P 0 → P 1 → P 2 → P 3 → P 4 → P 5 → P 6 → P 7 → P 8 → P 9 → P 10 → P 11 → P 12 →
  P 13 → P 14 → P 15 → ∀ d, 0 ≤ d < 16 → P d.
Proof.
  intros. assert (d ∈ [0;1;2;3;4;5;6;7;8;9;10;11;12;13;14;15]) as Hd.
  { rewrite !elem_of_cons. lia. }
  by repeat (apply elem_of_cons in Hd as [->|Hd]; [assumption|]); apply elem_of_nil in Hd.
Qed.

Lemma fmt_hex_digit_eq d : 0 ≤ d < 16 → fmt_hex_digit d = hex_digit d.
Proof. revert d. by apply nibble_cases. Qed.

Lemma nib_hex_digit d : 0 ≤ d < 16 → nib (hex_digit d) = Some d.
Proof. revert d. by apply nibble_cases. Qed.

Lemma lower_nib_hex_digit d : 0 ≤ d < 16 → lower_nib (hex_digit d) = Some d.
Proof. revert d. by apply nibble_cases. Qed.

Lemma is_lower_hex_digit d : 0 ≤ d < 16 → is_lower_hex (hex_digit d) = true.
Proof. revert d. by apply nibble_cases. Qed.

Lemma nib_range c d : nib c = Some d → 0 ≤ d < 16.
Proof. unfold nib. case_range; intros [= <-]; lia. Qed.

Lemma lower_nib_nib c d : lower_nib c = Some d → nib c = Some d.
Proof. unfold lower_nib, nib. case_range; naive_solver lia. Qed.

Lemma hex_digit_lower_nib c d : lower_nib c = Some d → hex_digit d = c.
Proof.
  intros H. apply b2z_inj. revert H. unfold lower_nib.
  case_range; intros [= <-].
  - rewrite <- fmt_hex_digit_eq by lia. unfold fmt_hex_digit.
    rewrite (proj2 (Z.ltb_lt _ _)) by lia. rewrite b2z_z2b_small by lia. lia.
  - rewrite <- fmt_hex_digit_eq by lia. unfold fmt_hex_digit.
    rewrite (proj2 (Z.ltb_ge _ _)) by lia. rewrite b2z_z2b_small by lia. lia.
Qed.

Lemma is_lower_hex_lower_nib c : is_lower_hex c = true ↔ is_Some (lower_nib c).
Proof.
  unfold is_lower_hex, is_ascii_digit, lower_nib. case_range; cbn; split; intros H;
    try done; try (by eexists); by destruct H.
Qed.

Lemma nibbles_of_byte b :
  Z.shiftr (b2z b) 4 = b2z b / 16 ∧ Z.land (b2z b) 15 = b2z b mod 16.
Proof.
  rewrite Z.shiftr_div_pow2 by lia. split; [done|].
  change 15 with (Z.ones 4). by rewrite Z.land_ones by lia.
Qed.

Lemma nibble_ranges b : 0 ≤ b2z b / 16 < 16 ∧ 0 ≤ b2z b mod 16 < 16.
Proof.
  pose proof (b2z_range b). split; [|apply Z.mod_pos_bound; lia].
  split; [apply Z.div_pos | apply Z.div_lt_upper_bound]; lia.
Qed.

Lemma lor_shift4 hi lo : 0 ≤ lo < 16 → Z.lor (Z.shiftl hi 4) lo = hi * 16 + lo.
Proof. apply (lor_shift 4); lia. Qed.

Lemma join_nibbles_split b : join_nibbles (b2z b / 16) (b2z b mod 16) = b.
Proof.
  unfold join_nibbles. pose proof (nibble_ranges b). rewrite lor_shift4 by lia.
  rewrite <- (z2b_b2z b) at 3. f_equal. pose proof (Z.div_mod (b2z b) 16). lia.
Qed.

Lemma split_join_nibbles hi lo :
  0 ≤ hi < 16 → 0 ≤ lo < 16 →
  b2z (join_nibbles hi lo) / 16 = hi ∧ b2z (join_nibbles hi lo) mod 16 = lo.
Proof.
  intros. unfold join_nibbles. rewrite lor_shift4, b2z_z2b_small by lia.
  rewrite Z.add_comm, Z.div_add, Z.div_small, Z.mod_add, Z.mod_small by lia. lia.
Qed.

Lemma to_hex_cons b l :
  to_hex (b :: l) = hex_digit (b2z b / 16) :: hex_digit (b2z b mod 16) :: to_hex l.
Proof. cbn [to_hex]. by destruct (nibbles_of_byte b) as [-> ->]. Qed.

Lemma length_to_hex l : length (to_hex l) = (length l * 2)%nat.
Proof. induction l as [|b l IH]; [done|]. rewrite to_hex_cons. cbn. lia. Qed.

Lemma to_hex_fmt_eq l : to_hex_fmt l = to_hex l.
Proof.
  induction l as [|b l IH]; [done|]. rewrite to_hex_cons.
  change (to_hex_fmt (b :: l)) with (fmt_02x b ++ to_hex_fmt l). rewrite IH.
  unfold fmt_02x. pose proof (nibble_ranges b). by rewrite !fmt_hex_digit_eq by lia.
Qed.

Lemma decode_pairs_to_hex f l :
  (∀ d, 0 ≤ d < 16 → f (hex_digit d) = Some d) → decode_pairs f (to_hex l) = Some l.
Proof.
  intros Hf. induction l as [|b l IH]; [done|]. rewrite to_hex_cons.
  cbn [decode_pairs]. pose proof (nibble_ranges b).
  rewrite !Hf by lia. cbn. rewrite IH. cbn. by rewrite join_nibbles_split.
Qed.

(** Decoding inverts encoding on every byte string. *)
Lemma from_hex_to_hex l : from_hex (to_hex l) = Some l.
Proof.
  unfold from_hex. rewrite length_to_hex.
  rewrite Nat.even_mul. cbn [Nat.even]. rewrite orb_true_r. cbn.
  apply decode_pairs_to_hex, nib_hex_digit.
Qed.

Lemma to_hex_lower l : Forall (λ c, is_lower_hex c = true) (to_hex l).
Proof.
  induction l as [|b l IH]; [done|]. rewrite to_hex_cons.
  pose proof (nibble_ranges b). repeat constructor; auto; apply is_lower_hex_digit; lia.
Qed.

Lemma to_hex_lower_hex_ok l n : length l = n → lower_hex_ok n (to_hex l) = true.
Proof.
  intros <-. unfold lower_hex_ok. rewrite length_to_hex, Nat.eqb_refl. cbn.
  apply forallb_Forall_true, to_hex_lower.
Qed.

Lemma to_hex_inj a b : to_hex a = to_hex b → a = b.
Proof. intros H. apply (f_equal from_hex) in H. rewrite !from_hex_to_hex in H. congruence. Qed.

(** Two-at-a-time induction for [chunks_exact(2)]. *)
Lemma pair_ind {A} (P : list A → Prop) :
  P [] → (∀ a, P [a]) → (∀ a b l, P l → P (a :: b :: l)) → ∀ l, P l.
Proof.
  intros H0 H1 H2 l. enough (P l ∧ ∀ a, P (a :: l)) by tauto.
  induction l as [|x l [IH1 IH2]]; auto.
Qed.

Lemma decode_pairs_length f h out :
  decode_pairs f h = Some out → length out = (length h / 2)%nat.
Proof.
  revert out. induction h as [|a|a b h IH] using pair_ind; intros out; cbn [decode_pairs].
  1,2: by intros [= <-].
  intros H. destruct (f a) as [hi|]; [|done]. destruct (f b) as [lo|]; [|done].
  cbn in H. destruct (decode_pairs f h) as [o|] eqn:E; [|done]. cbn in H.
  injection H as <-. cbn [length]. rewrite (IH o eq_refl).
  replace (S (S (length h))) with (length h + 1 * 2)%nat by lia.
  rewrite Nat.div_add by lia. lia.
Qed.

(** On canonical lowercase input, encoding inverts decoding: one text per value. *)
Lemma to_hex_from_hex h :
  Nat.even (length h) = true → Forall (λ c, is_lower_hex c = true) h →
  ∃ l, from_hex h = Some l ∧ to_hex l = h.
Proof.
  intros He Hl. unfold from_hex. rewrite He. cbn [negb]. revert He Hl.
  induction h as [|a|a b h IH] using pair_ind; intros He Hl; [by exists [] | done |].
  inversion Hl as [|?? Ha Hl']; subst. inversion Hl' as [|?? Hb Hl'']; subst.
  destruct (IH He Hl'') as (l & Hd & Ht).
  apply is_lower_hex_lower_nib in Ha as [hi Ha], Hb as [lo Hb].
  pose proof (lower_nib_nib _ _ Ha) as Ha'. pose proof (lower_nib_nib _ _ Hb) as Hb'.
  exists (join_nibbles hi lo :: l). split.
  { cbn [decode_pairs]. rewrite Ha', Hb'. cbn. by rewrite Hd. }
  rewrite to_hex_cons.
  destruct (split_join_nibbles hi lo) as [-> ->]; [by eapply nib_range..|].
  by rewrite (hex_digit_lower_nib a), (hex_digit_lower_nib b), Ht.
Qed.

Lemma lower_hex_ok_iff n v :
  lower_hex_ok n v = true ↔ length v = (n * 2)%nat ∧ Forall (λ c, is_lower_hex c = true) v.
Proof.
  unfold lower_hex_ok. by rewrite andb_true_iff, Nat.eqb_eq, forallb_Forall_true.
Qed.

Lemma lower_hex_decodes n v :
  lower_hex_ok n v = true → ∃ l, from_hex v = Some l ∧ length l = n ∧ to_hex l = v.
Proof.
  intros [Hlen Hl]%lower_hex_ok_iff.
  destruct (to_hex_from_hex v) as (l & Hd & Ht); [| done |].
  - rewrite Hlen, Nat.even_mul. by rewrite orb_true_r.
  - exists l. repeat split; try done. rewrite <- Ht, length_to_hex in Hlen. lia.
Qed.

(** *** Decimal *)

Lemma digit_value d : 0 ≤ d < 10 → b2z (digit d) = 48 + d.
Proof. intros. unfold digit. apply b2z_z2b_small. lia. Qed.

Lemma digit_is_digit d : 0 ≤ d < 10 → is_ascii_digit (digit d) = true.
Proof. intros. apply in_range_iff. rewrite digit_value; lia. Qed.

Lemma dec_digits_acc f n acc : dec_digits f n acc = dec_digits f n [] ++ acc.
Proof.
  revert n acc. induction f as [|f IH]; intros n acc; cbn [dec_digits]; [done|].
  destruct (n <? 10); [done|]. rewrite IH, (IH _ [_]). by rewrite <- app_assoc.
Qed.

Lemma parse_digits_app max acc s t :
  parse_digits max acc (s ++ t) = (parse_digits max acc s ≫= λ v, parse_digits max v t).
Proof.
  revert acc. induction s as [|c s IH]; intros acc; cbn; [done|].
  destruct (is_ascii_digit c); [|done]. destruct (_ <=? max); [apply IH|done].
Qed.

Lemma parse_dec_digits max f n :
  0 ≤ n < 10 ^ Z.of_nat f → n ≤ max → (0 < f)%nat →
  parse_digits max 0 (dec_digits f n []) = Some n.
Proof.
  revert n. induction f as [|f IH]; intros n Hn Hm Hf; [lia|]. cbn [dec_digits].
  pose proof (Z.mod_pos_bound n 10 ltac:(lia)).
  destruct (Z.ltb_spec n 10).
  - cbn [parse_digits]. rewrite digit_is_digit, digit_value by lia.
    rewrite Z.mod_small by lia.
    rewrite (proj2 (Z.leb_le _ _)) by lia. f_equal. lia.
  - rewrite dec_digits_acc, parse_digits_app.
    replace (Z.of_nat (S f)) with (Z.of_nat f + 1) in Hn by lia.
    rewrite Z.pow_add_r in Hn by lia. change (10 ^ 1) with 10 in Hn.
    assert (n / 10 < 10 ^ Z.of_nat f) by (apply Z.div_lt_upper_bound; lia).
    pose proof (Z.div_mod n 10 ltac:(lia)).
    assert (0 ≤ n / 10) by (apply Z.div_pos; lia).
    rewrite IH; try lia.
    + cbn [mbind option_bind parse_digits].
      rewrite digit_is_digit, digit_value by lia.
      rewrite (proj2 (Z.leb_le _ _)) by lia. f_equal. lia.
    + destruct f; [|lia]. change (10 ^ Z.of_nat 0) with 1 in *. lia.
Qed.

Lemma dec_digits_digits f n : 0 ≤ n → Forall (λ c, is_ascii_digit c = true) (dec_digits f n []).
Proof.
  revert n. induction f as [|f IH]; intros n Hn; cbn [dec_digits]; [constructor|].
  pose proof (Z.mod_pos_bound n 10 ltac:(lia)).
  destruct (n <? 10).
  - repeat constructor. by apply digit_is_digit.
  - rewrite dec_digits_acc. apply Forall_app. split.
    + apply IH. apply Z.div_pos; lia.
    + repeat constructor. by apply digit_is_digit.
Qed.

Lemma uint_to_string_digits n :
  0 ≤ n → Forall (λ c, is_ascii_digit c = true) (uint_to_string n).
Proof. apply dec_digits_digits. Qed.

Lemma dec_digits_nonempty f n : (0 < f)%nat → dec_digits f n [] ≠ [].
Proof.
  destruct f as [|f]; [lia|]. intros _. cbn [dec_digits]. destruct (n <? 10); [done|].
  rewrite dec_digits_acc. intros H%app_eq_nil. by destruct H.
Qed.

(** Parsing a printed integer gives it back, at either width. *)
Lemma parse_uint_to_string max n :
  0 ≤ n ≤ max → n ≤ U64_MAX → parse_uint max (uint_to_string n) = Some n.
Proof.
  intros. unfold uint_to_string, parse_uint.
  pose proof (dec_digits_nonempty 20 n ltac:(lia)).
  pose proof (dec_digits_digits 20 n ltac:(lia)) as Hd.
  pose proof (parse_dec_digits max 20 n) as Hp.
  destruct (dec_digits 20 n []) as [|c s] eqn:E; [done|].
  inversion Hd as [|?? Hc _]; subst. rewrite decide_False.
  - apply Hp; [|lia..]. unfold_int. change (10 ^ Z.of_nat 20) with 100000000000000000000. lia.
  - intros ->. done.
Qed.

Lemma dec_digits_length f k n :
  (0 < k)%nat → 0 ≤ n < 10 ^ Z.of_nat k → (length (dec_digits f n []) ≤ k)%nat.
Proof.
  revert k n. induction f as [|f IH]; intros k n Hk Hn; cbn [dec_digits length]; [lia|].
  destruct (Z.ltb_spec n 10); [cbn; lia|]. rewrite dec_digits_acc, length_app. cbn [length].
  destruct k as [|k]; [lia|].
  replace (Z.of_nat (S k)) with (Z.of_nat k + 1) in Hn by lia.
  rewrite Z.pow_add_r in Hn by lia. change (10 ^ 1) with 10 in Hn.
  assert (n / 10 < 10 ^ Z.of_nat k) by (apply Z.div_lt_upper_bound; lia).
  assert (0 ≤ n / 10) by (apply Z.div_pos; lia).
  assert (k ≠ 0%nat) by (intros ->; change (10 ^ Z.of_nat 0) with 1 in *; lia).
  specialize (IH k (n / 10)). lia.
Qed.

Lemma length_u32_text n : u32 n → (length (uint_to_string n) ≤ 10)%nat.
Proof.
  intros. apply dec_digits_length; [lia|]. unfold_int.
  change (10 ^ Z.of_nat 10) with 10000000000. lia.
Qed.

Lemma length_u64_text n : u64 n → (length (uint_to_string n) ≤ 20)%nat.
Proof.
  intros. apply dec_digits_length; [lia|]. unfold_int.
  change (10 ^ Z.of_nat 20) with 100000000000000000000. lia.
Qed.

Lemma parse_digits_range max acc s v :
  0 ≤ acc ≤ max → parse_digits max acc s = Some v → 0 ≤ v ≤ max.
Proof.
  revert acc. induction s as [|c s IH]; intros acc Ha; cbn; [by intros [= <-]|].
  destruct (is_ascii_digit c) eqn:E; [|done]. apply in_range_iff in E.
  destruct (Z.leb_spec (acc * 10 + (b2z c - 48)) max); [|done]. apply IH. lia.
Qed.

Lemma parse_uint_range max s v : 0 ≤ max → parse_uint max s = Some v → 0 ≤ v ≤ max.
Proof.
  intros Hm. unfold parse_uint. destruct s as [|c s]; [done|].
  case_decide; [destruct s as [|d s]; [done|]|]; apply parse_digits_range; lia.
Qed.
