(* ===== verification/Net.v ===== *)
(** * Network addresses

    The address types of [std::net] and the text forms the crates read and compare:
    the standard library's parser (a cursor with backtracking), its canonical printer,
    and the address classes ([is_loopback], [is_multicast], ...) the guards test. *)

From S2P Require Import Prelude.
From S2P Require Import Text.
From Stdlib Require Import Strings.Byte ZArith Lia.
From stdpp Require Import prelude gmap strings.

Local Open Scope Z_scope.

(** ** Data *)

Inductive Ipv4Addr := Ipv4 (a b c d : byte).

#[global] Instance Ipv4Addr_eq_dec : EqDecision Ipv4Addr.
Proof. solve_decision. Defined.

#[global] Program Instance Ipv4Addr_countable : Countable Ipv4Addr :=
  inj_countable' (λ ip, match ip with Ipv4 a b c d => (a, b, c, d) end)
                 (λ p, match p with (a, b, c, d) => Ipv4 a b c d end) _.
Next Obligation. by intros []. Qed.

Definition octets (ip : Ipv4Addr) : bytes :=
  match ip with Ipv4 a b c d => [a; b; c; d] end.

(** The eight 16-bit segments. *)
Record Ipv6Addr := { segments : list Z }.

#[global] Instance Ipv6Addr_eq_dec : EqDecision Ipv6Addr.
Proof. solve_decision. Defined.

#[global] Program Instance Ipv6Addr_countable : Countable Ipv6Addr :=
  inj_countable' segments Build_Ipv6Addr _.
Next Obligation. by intros []. Qed.

Inductive IpAddr := V4 (ip : Ipv4Addr) | V6 (ip : Ipv6Addr).

#[global] Instance IpAddr_eq_dec : EqDecision IpAddr.
Proof. solve_decision. Defined.

#[global] Program Instance IpAddr_countable : Countable IpAddr :=
  inj_countable' (λ ip, match ip with V4 a => inl a | V6 a => inr a end)
                 (λ s, match s with inl a => V4 a | inr a => V6 a end) _.
Next Obligation. by intros []. Qed.

Record SocketAddrV4 := { sa_ip : Ipv4Addr; sa_port : Z }.

#[global] Instance SocketAddrV4_eq_dec : EqDecision SocketAddrV4.
Proof. solve_decision. Defined.

(** A socket address of either family; the V6 form keeps flow label and scope. *)
Record SocketAddrV6 := { sa6_ip : Ipv6Addr; sa6_port : Z; flowinfo : Z; scope_id : Z }.

#[global] Instance SocketAddrV6_eq_dec : EqDecision SocketAddrV6.
Proof. solve_decision. Defined.

Inductive SocketAddr := SaV4 (a : SocketAddrV4) | SaV6 (a : SocketAddrV6).

#[global] Instance SocketAddr_eq_dec : EqDecision SocketAddr.
Proof. solve_decision. Defined.

Definition sa_ip_addr (a : SocketAddr) : IpAddr :=
  match a with SaV4 a => V4 (sa_ip a) | SaV6 a => V6 (sa6_ip a) end.

Definition sa_port_of (a : SocketAddr) : Z :=
  match a with SaV4 a => sa_port a | SaV6 a => sa6_port a end.

(** ** Address classes *)

Definition v4_is_unspecified (ip : Ipv4Addr) : bool := bool_decide (octets ip = [x00; x00; x00; x00]).
Definition v4_is_loopback (ip : Ipv4Addr) : bool :=
  match ip with Ipv4 a _ _ _ => b2z a =? 127 end.
Definition v4_is_multicast (ip : Ipv4Addr) : bool :=
  match ip with Ipv4 a _ _ _ => in_range 224 239 a end.
Definition v4_BROADCAST : Ipv4Addr := Ipv4 xff xff xff xff.
Definition v6_is_loopback (ip : Ipv6Addr) : bool :=
  bool_decide (segments ip = [0; 0; 0; 0; 0; 0; 0; 1]).
Definition ip_is_loopback (ip : IpAddr) : bool :=
  match ip with V4 a => v4_is_loopback a | V6 a => v6_is_loopback a end.

(** ** The parser

    A cursor over the remaining bytes: a reader returns the value and the rest, or
    nothing and leaves the cursor ([read_atomically]). *)

Definition reader (A : Type) := bytes → option (A * bytes).

Definition to_digit (radix : Z) (c : byte) : option Z :=
  d ← nib c; if d <? radix then Some d else None.

(** The digit loop of [read_number]; [None] on overflow or more than [max_digits]. *)
Fixpoint read_digits (radix limit : Z) (max_digits : nat) (count : nat) (acc : Z) (s : bytes) :
    option (Z * nat * bytes) :=
  match s with
  | c :: s' =>
      match to_digit radix c with
      | Some d =>
          let acc := acc * radix + d in
          if limit <? acc then None
          else if (max_digits <? S count)%nat then None
          else read_digits radix limit max_digits (S count) acc s'
      | None => Some (acc, count, s)
      end
  | [] => Some (acc, count, [])
  end.

Definition read_number (radix limit : Z) (max_digits : nat) (allow_zero_prefix : bool) :
    reader Z := λ s,
  let has_leading_zero := match s with c :: _ => bool_decide (c = x30) | [] => false end in
  '(v, count, rest) ← read_digits radix limit max_digits 0 0 s;
  if (count =? 0)%nat then None
  else if negb allow_zero_prefix && has_leading_zero && (1 <? count)%nat then None
  else Some (v, rest).

Definition read_given_char (c : byte) : reader unit := λ s,
  match s with
  | c' :: s' => if decide (c' = c) then Some (tt, s') else None
  | [] => None
  end.

Definition read_separator {A} (sep : byte) (index : nat) (inner : reader A) : reader A := λ s,
  if (0 <? index)%nat then '(_, s) ← read_given_char sep s; inner s else inner s.

Definition read_octet (i : nat) : reader Z :=
  read_separator x2e i (read_number 10 255 3 false).

Definition read_ipv4_addr : reader Ipv4Addr := λ s,
  '(a, s) ← read_octet 0 s; '(b, s) ← read_octet 1 s;
  '(c, s) ← read_octet 2 s; '(d, s) ← read_octet 3 s;
  Some (Ipv4 (z2b a) (z2b b) (z2b c) (z2b d), s).

(** [read_groups]: from group [i] of at most [i + todo]; the groups read, whether the
    last two came from an embedded IPv4 address, and the rest. *)
Fixpoint read_groups (i todo : nat) (s : bytes) : list Z * bool * bytes :=
  match todo with
  | 0%nat => ([], false, s)
  | S todo' =>
      let embedded :=
        if (1 <? todo)%nat then read_separator x3a i read_ipv4_addr s else None in
      match embedded with
      | Some (Ipv4 a b c d, rest) => ([be_value [a; b]; be_value [c; d]], true, rest)
      | None =>
          match read_separator x3a i (read_number 16 65535 4 true) s with
          | Some (g, rest) =>
              let '(gs, v4, rest) := read_groups (S i) todo' rest in (g :: gs, v4, rest)
          | None => ([], false, s)
          end
      end
  end.

Definition read_ipv6_addr : reader Ipv6Addr := λ s,
  let '(head, head_ipv4, s) := read_groups 0 8 s in
  if (length head =? 8)%nat then Some ({| segments := head |}, s)
  else if head_ipv4 : bool then None
  else
    '(_, s) ← read_given_char x3a s;
    '(_, s) ← read_given_char x3a s;
    let limit := (8 - (length head + 1))%nat in
    let '(tail, _, s) := read_groups 0 limit s in
    let zeros := replicate (8 - length head - length tail) 0 in
    Some ({| segments := head ++ zeros ++ tail |}, s).

Definition read_ip_addr : reader IpAddr := λ s,
  match read_ipv4_addr s with
  | Some (ip, s) => Some (V4 ip, s)
  | None => '(ip, s) ← read_ipv6_addr s; Some (V6 ip, s)
  end.

(** [parse_with]: the whole input must be consumed. *)
Definition parse_with {A} (r : reader A) (s : bytes) : option A :=
  match r s with Some (v, []) => Some v | _ => None end.

Definition parse_ipv4 (s : bytes) : option Ipv4Addr :=
  if (15 <? length s)%nat then None else parse_with read_ipv4_addr s.

Definition parse_ip (s : bytes) : option IpAddr := parse_with read_ip_addr s.

Definition read_port : reader Z := λ s,
  '(_, s) ← read_given_char x3a s; read_number 10 65535 (length s) true s.

Definition read_socket_addr_v4 : reader SocketAddrV4 := λ s,
  '(ip, s) ← read_ipv4_addr s; '(p, s) ← read_port s;
  Some ({| sa_ip := ip; sa_port := p |}, s).

Definition read_socket_addr_v6 : reader SocketAddrV6 := λ s,
  '(_, s) ← read_given_char x5b s;
  '(ip, s) ← read_ipv6_addr s;
  let '(scope, s) := default (0, s)
    ('(_, s) ← read_given_char x25 s; read_number 10 U32_MAX (length s) true s) in
  '(_, s) ← read_given_char x5d s;
  '(p, s) ← read_port s;
  Some ({| sa6_ip := ip; sa6_port := p; flowinfo := 0; scope_id := scope |}, s).

(** [SocketAddr::from_str]. *)
Definition parse_socket_addr (s : bytes) : option SocketAddr :=
  match parse_with read_socket_addr_v4 s with
  | Some a => Some (SaV4 a)
  | None => a ← parse_with read_socket_addr_v6 s; Some (SaV6 a)
  end.

(** ** The printer *)

Definition ipv4_to_string (ip : Ipv4Addr) : bytes :=
  match ip with
  | Ipv4 a b c d =>
      uint_to_string (b2z a) ++ [x2e] ++ uint_to_string (b2z b) ++ [x2e] ++
      uint_to_string (b2z c) ++ [x2e] ++ uint_to_string (b2z d)
  end.

(** [{:x}] of a 16-bit segment: no leading zeros. *)
Fixpoint hex_digits (fuel : nat) (n : Z) (acc : bytes) : bytes :=
  match fuel with
  | 0%nat => acc
  | S f => let acc := fmt_hex_digit (n mod 16) :: acc in
           if n <? 16 then acc else hex_digits f (n / 16) acc
  end.

Definition fmt_x (n : Z) : bytes := hex_digits 4 n [].

Fixpoint fmt_subslice (chunk : list Z) : bytes :=
  match chunk with
  | [] => []
  | [g] => fmt_x g
  | g :: chunk => fmt_x g ++ [x3a] ++ fmt_subslice chunk
  end.

(** The longest run of zero segments, as (start, length); the first one wins. *)
Fixpoint zero_span (i : nat) (longest current : nat * nat) (segs : list Z) : nat * nat :=
  match segs with
  | [] => longest
  | g :: segs =>
      if g =? 0 then
        let current := if (current.2 =? 0)%nat then (i, 1%nat)
                       else (current.1, S current.2) in
        let longest := if (longest.2 <? current.2)%nat then current else longest in
        zero_span (S i) longest current segs
      else zero_span (S i) longest (0%nat, 0%nat) segs
  end.

Definition to_ipv4_mapped (ip : Ipv6Addr) : option Ipv4Addr :=
  match segments ip with
  | [0; 0; 0; 0; 0; 65535; ab; cd] =>
      match be_bytes 2 ab, be_bytes 2 cd with
      | [a; b], [c; d] => Some (Ipv4 a b c d)
      | _, _ => None
      end
  | _ => None
  end.

Definition ipv6_to_string (ip : Ipv6Addr) : bytes :=
  match to_ipv4_mapped ip with
  | Some v4 => str "::ffff:" ++ ipv4_to_string v4
  | None =>
      let segs := segments ip in
      let '(start, len) := zero_span 0 (0%nat, 0%nat) (0%nat, 0%nat) segs in
      if (1 <? len)%nat then
        fmt_subslice (take start segs) ++ str "::" ++ fmt_subslice (drop (start + len) segs)
      else fmt_subslice segs
  end.

Definition ip_to_string (ip : IpAddr) : bytes :=
  match ip with V4 a => ipv4_to_string a | V6 a => ipv6_to_string a end.

(** ** The standard library's documented examples *)

Example parse_ip_examples :
  parse_ip (str "127.0.0.1") = Some (V4 (Ipv4 x7f x00 x00 x01)) ∧
  parse_ip (str "127.0.0.01") = None ∧ parse_ip (str "256.0.0.1") = None ∧
  parse_ip (str "1.2.3") = None ∧ parse_ip (str "1.2.3.4.") = None ∧
  parse_ip (str "::1") = Some (V6 {| segments := [0;0;0;0;0;0;0;1] |}) ∧
  parse_ip (str "2001:db8::8a2e:370:7334") =
    Some (V6 {| segments := [8193; 3512; 0; 0; 0; 35374; 880; 29492] |}) ∧
  parse_ip (str "::ffff:1.2.3.4") = Some (V6 {| segments := [0;0;0;0;0;65535;258;772] |}) ∧
  parse_ip (str "1:2:3:4:5:6:7::8") = None ∧ parse_ip (str "1::2::3") = None ∧
  parse_ip (str "1:2:3:4:5:6:7::") = Some (V6 {| segments := [1;2;3;4;5;6;7;0] |}).
Proof. vm_compute. split_and!; reflexivity. Qed.

Example ip_to_string_examples :
  ip_to_string (V4 (Ipv4 xc0 xa8 x00 x0a)) = str "192.168.0.10" ∧
  ip_to_string (V6 {| segments := [0;0;0;0;0;0;0;0] |}) = str "::" ∧
  ip_to_string (V6 {| segments := [0;0;0;0;0;0;0;1] |}) = str "::1" ∧
  ip_to_string (V6 {| segments := [8193;3512;0;0;1;0;0;0] |}) = str "2001:db8:0:0:1::" ∧
  ip_to_string (V6 {| segments := [0;0;0;0;0;65535;258;772] |}) = str "::ffff:1.2.3.4" ∧
  ip_to_string (V6 {| segments := [1;0;2;3;4;5;6;7] |}) = str "1:0:2:3:4:5:6:7".
Proof. vm_compute. split_and!; reflexivity. Qed.

(** ** The IPv4 text form *)

Lemma byte_cases (P : byte → bool) :
  forallb (λ i, P (z2b (Z.of_nat i))) (seq 0 256) = true → ∀ b, P b = true.
Proof.
  rewrite forallb_forall. intros H b. rewrite <- (z2b_b2z b). pose proof (b2z_range b).
  rewrite <- (Z2Nat.id (b2z b)) by lia. apply H. apply in_seq. lia.
Qed.

(** Printing an octet and reading it back, whatever follows that is not a digit. *)
Definition octet_ok (b : byte) : bool :=
  bool_decide (read_number 10 255 3 false (uint_to_string (b2z b)) = Some (b2z b, []))
  && (length (uint_to_string (b2z b)) <=? 3)%nat.

Lemma octet_ok_all b : octet_ok b = true.
Proof. revert b. apply byte_cases. vm_compute. reflexivity. Qed.

Lemma read_digits_app radix limit md n acc s v k rest t :
  read_digits radix limit md n acc s = Some (v, k, []) →
  match t with c :: _ => to_digit radix c = None | [] => True end →
  rest = t → read_digits radix limit md n acc (s ++ t) = Some (v, k, rest).
Proof.
  intros H Ht ->. revert n acc H. induction s as [|c s IH]; intros n acc; cbn.
  - intros [= <- <-]. destruct t as [|c t]; cbn; [done|]. by rewrite Ht.
  - destruct (to_digit radix c) as [d|]; [|done].
    destruct (limit <? _); [done|]. destruct (md <=? n)%nat; [done|]. apply IH.
Qed.

Lemma read_octet_print b t :
  match t with c :: _ => to_digit 10 c = None | [] => True end →
  read_number 10 255 3 false (uint_to_string (b2z b) ++ t) = Some (b2z b, t).
Proof.
  intros Ht. pose proof (octet_ok_all b) as H. unfold octet_ok in H. reflect_bools.
  unfold read_number in *. destruct (uint_to_string (b2z b)) as [|c s] eqn:E; [done|].
  destruct (read_digits 10 255 3 0 0 (c :: s)) as [[[v k] r]|] eqn:Ed; [|done].
  cbn [mbind option_bind] in H.
  assert (r = []) as ->. { repeat case_match; congruence. }
  rewrite (read_digits_app _ _ _ _ _ _ _ _ t t Ed Ht eq_refl).
  cbn [mbind option_bind app]. repeat case_match; congruence.
Qed.

Lemma length_octet_text b : (length (uint_to_string (b2z b)) ≤ 3)%nat.
Proof. pose proof (octet_ok_all b) as H. unfold octet_ok in H. by reflect_bools. Qed.

Lemma read_given_char_hit c s : read_given_char c (c :: s) = Some (tt, s).
Proof. unfold read_given_char. by rewrite decide_True. Qed.

Lemma read_octet_dot b t :
  read_number 10 255 3 false (uint_to_string (b2z b) ++ x2e :: t) = Some (b2z b, x2e :: t).
Proof. apply read_octet_print. reflexivity. Qed.

Lemma read_octet_last b :
  read_number 10 255 3 false (uint_to_string (b2z b)) = Some (b2z b, []).
Proof. rewrite <- (app_nil_r (uint_to_string _)) at 1. by apply read_octet_print. Qed.

Lemma read_ipv4_print ip : read_ipv4_addr (ipv4_to_string ip) = Some (ip, []).
Proof.
  destruct ip as [a b c d]. unfold read_ipv4_addr, ipv4_to_string, read_octet, read_separator.
  cbn [Nat.ltb Nat.leb app].
  do 3 (rewrite read_octet_dot, Some_bind, read_given_char_hit, Some_bind).
  rewrite read_octet_last, Some_bind. by rewrite !z2b_b2z.
Qed.

(** Parsing a printed IPv4 address gives it back, alone or as an [IpAddr]. *)
Lemma parse_ipv4_to_string ip : parse_ipv4 (ipv4_to_string ip) = Some ip.
Proof.
  unfold parse_ipv4. rewrite (proj2 (Nat.ltb_ge _ _)).
  - unfold parse_with. by rewrite read_ipv4_print.
  - destruct ip as [a b c d]. cbn [ipv4_to_string]. rewrite !length_app. cbn [length].
    pose proof (length_octet_text a). pose proof (length_octet_text b).
    pose proof (length_octet_text c). pose proof (length_octet_text d). lia.
Qed.

Lemma parse_ip_to_string_v4 ip : parse_ip (ipv4_to_string ip) = Some (V4 ip).
Proof. unfold parse_ip, parse_with, read_ip_addr. by rewrite read_ipv4_print. Qed.

Lemma ipv4_to_string_inj a b : ipv4_to_string a = ipv4_to_string b → a = b.
Proof.
  intros H. apply (f_equal parse_ipv4) in H. rewrite !parse_ipv4_to_string in H. congruence.
Qed.
