(* ===== verification/Crypto.v ===== *)
(** * Cryptographic interfaces

    The third-party primitives the crates call ([sha2], [ed25519-dalek], [aes-gcm],
    [blind-rsa-signatures]) are parameters: one class of operations each, and one
    class of the documented laws the code relies on.  No law says a primitive is
    unforgeable or collision free; the theorems that need such a fact state what was
    verified, or exhibit the collision.

    The last section instantiates every class with a small executable function, so
    that the witnesses of the other files can evaluate the code end to end. *)

From S2P Require Import Prelude.
From Stdlib Require Import Strings.Byte ZArith Lia.
From stdpp Require Import prelude gmap strings.

(** ** SHA-256 *)

Class Sha256 := sha256 : bytes → bytes.

Class Sha256Laws `{Sha256} : Prop :=
  sha256_length : ∀ m, length (sha256 m) = 32.

(** Two messages with the same digest. *)
Definition sha256_collision `{Sha256} : Prop := ∃ x y, x ≠ y ∧ sha256 x = sha256 y.

Lemma sha256_eq `{Sha256} x y : sha256 x = sha256 y → x = y ∨ sha256_collision.
Proof. intros Hs. destruct (decide (x = y)); [by left|right; by exists x, y]. Qed.

(** ** Ed25519 as [ed25519-dalek] exposes it *)

Class Ed25519 := {
  SigningKey : Type;
  VerifyingKey : Type;
  Signature : Type;
  sk_from_bytes : bytes → SigningKey;
  verifying_key : SigningKey → VerifyingKey;
  vk_to_bytes : VerifyingKey → bytes;
  vk_from_bytes : bytes → option VerifyingKey;
  vk_is_weak : VerifyingKey → bool;
  ed_sign : SigningKey → bytes → Signature;
  sig_to_bytes : Signature → bytes;
  sig_from_slice : bytes → option Signature;
  verify_strict : VerifyingKey → bytes → Signature → bool;
  vk_verify : VerifyingKey → bytes → Signature → bool;
}.

Class Ed25519Laws `{Ed25519} : Prop := {
  vk_to_bytes_length : ∀ vk, length (vk_to_bytes vk) = 32;
  vk_from_to_bytes : ∀ vk, vk_from_bytes (vk_to_bytes vk) = Some vk;
  vk_to_from_bytes : ∀ b vk, vk_from_bytes b = Some vk → vk_to_bytes vk = b;
  sig_to_bytes_length : ∀ s, length (sig_to_bytes s) = 64;
  sig_from_to_bytes : ∀ s, sig_from_slice (sig_to_bytes s) = Some s;
  sig_to_from_slice : ∀ b s, sig_from_slice b = Some s → sig_to_bytes s = b;
  verify_strict_sign : ∀ sk m,
    vk_is_weak (verifying_key sk) = false →
    verify_strict (verifying_key sk) m (ed_sign sk m) = true;
  vk_verify_sign : ∀ sk m, vk_verify (verifying_key sk) m (ed_sign sk m) = true;
}.

(** ** AES-256-GCM as [aes-gcm] exposes it: key, nonce, associated data, message *)

Class Aead := {
  aead_encrypt : bytes → bytes → bytes → bytes → option bytes;
  aead_decrypt : bytes → bytes → bytes → bytes → option bytes;
}.

Class AeadLaws `{Aead} : Prop := {
  aead_encrypt_length : ∀ k n a m c,
    aead_encrypt k n a m = Some c → length c = length m + 16;
  aead_decrypt_encrypt : ∀ k n a m c,
    aead_encrypt k n a m = Some c → aead_decrypt k n a c = Some m;
}.

(** ** RSA blind signatures as [blind-rsa-signatures] exposes them *)

Record BlindingResult := {
  blind_message : bytes;
  secret : bytes;
  msg_randomizer : option bytes;
}.

Class BlindRsa := {
  RsaPublicKey : Type;
  RsaSecretKey : Type;
  rsa_pk_from_der : bytes → option RsaPublicKey;
  rsa_pk_to_der : RsaPublicKey → option bytes;
  rsa_sk_from_der : bytes → option RsaSecretKey;
  rsa_public_key : RsaSecretKey → option RsaPublicKey;
  rsa_verify : RsaPublicKey → bytes → bytes → bool;
  rsa_blind : RsaPublicKey → bytes → bytes → option BlindingResult;
  rsa_blind_sign : RsaSecretKey → bytes → option bytes;
  rsa_finalize : RsaPublicKey → bytes → BlindingResult → bytes → option bytes;
}.

(** [finalize] checks the unblinded signature before it returns it (RFC 9474, 4.4), and
    the protocol is correct for a key and its public key. *)
Class BlindRsaLaws `{BlindRsa} : Prop := {
  rsa_finalize_verifies : ∀ pk bs st m sig,
    rsa_finalize pk bs st m = Some sig → rsa_verify pk sig m = true;
  rsa_blind_signature : ∀ sk pk rnd m st,
    rsa_public_key sk = Some pk → rsa_blind pk rnd m = Some st →
    ∃ bs sig, rsa_blind_sign sk (blind_message st) = Some bs ∧
              rsa_finalize pk bs st m = Some sig;
}.

(** ** Executable instances *)

Module Toy.

(** Pad or cut to [n] bytes. *)
Definition fit (n : nat) (l : bytes) : bytes := take n (l ++ replicate n x00).

Lemma length_fit n l : length (fit n l) = n.
Proof. unfold fit. rewrite length_take, length_app, length_replicate. lia. Qed.

(** A 32-byte digest: a rolling sum over the whole input. *)
Definition digest (m : bytes) : bytes :=
  be_bytes 32 (foldl (λ acc b, Z.land (acc * 257 + b2z b + 1) (Z.ones 256))%Z 7%Z m).

#[export] Instance toy_sha256 : Sha256 := digest.

#[export] Instance toy_sha256_laws : Sha256Laws.
Proof. intros m. apply length_be_bytes. Qed.

(** A keyed 64-byte tag in place of a signature; the verifying key is the seed. *)
Definition tag (k m : bytes) : bytes := digest (k ++ m) ++ digest (m ++ k).

Record fixed (n : nat) := Fixed { fixed_bytes : bytes; fixed_ok : bool_decide (length fixed_bytes = n) }.
Arguments Fixed {n}.
Arguments fixed_bytes {n}.

Lemma fixed_eq {n} (a b : fixed n) : fixed_bytes a = fixed_bytes b → a = b.
Proof.
  destruct a as [a Ha], b as [b Hb]; cbn. intros ->. f_equal. apply proof_irrel.
Qed.

Lemma fixed_length {n} (a : fixed n) : length (fixed_bytes a) = n.
Proof. destruct a as [a Ha]. cbn. by apply bool_decide_unpack in Ha. Qed.

Definition to_fixed (n : nat) (l : bytes) : option (fixed n) :=
  match decide (length l = n) with
  | left H => Some (Fixed l (bool_decide_pack _ H))
  | right _ => None
  end.

Lemma to_fixed_bytes {n} (a : fixed n) : to_fixed n (fixed_bytes a) = Some a.
Proof.
  unfold to_fixed. destruct (decide _) as [H|H].
  - f_equal. by apply fixed_eq.
  - by destruct H; apply fixed_length.
Qed.

Lemma to_fixed_Some {n} l (a : fixed n) : to_fixed n l = Some a → fixed_bytes a = l.
Proof. unfold to_fixed. destruct (decide _); [|done]. by intros [= <-]. Qed.

Program Definition fix_to (n : nat) (l : bytes) : fixed n := Fixed (fit n l) _.
Next Obligation. intros n l. apply bool_decide_pack, length_fit. Qed.

#[export] Instance toy_ed25519 : Ed25519 := {|
  SigningKey := fixed 32;
  VerifyingKey := fixed 32;
  Signature := fixed 64;
  sk_from_bytes := fix_to 32;
  verifying_key := λ sk, sk;
  vk_to_bytes := fixed_bytes;
  vk_from_bytes := to_fixed 32;
  vk_is_weak := λ _, false;
  ed_sign := λ sk m, fix_to 64 (tag (fixed_bytes sk) m);
  sig_to_bytes := fixed_bytes;
  sig_from_slice := to_fixed 64;
  verify_strict := λ vk m s, bool_decide (fixed_bytes s = fit 64 (tag (fixed_bytes vk) m));
  vk_verify := λ vk m s, bool_decide (fixed_bytes s = fit 64 (tag (fixed_bytes vk) m));
|}.

#[export] Instance toy_ed25519_laws : Ed25519Laws.
Proof.
  split; cbn; intros.
  - apply fixed_length.
  - apply to_fixed_bytes.
  - by apply to_fixed_Some.
  - apply fixed_length.
  - apply to_fixed_bytes.
  - by apply to_fixed_Some.
  - by apply bool_decide_eq_true.
  - by apply bool_decide_eq_true.
Qed.

(** A 16-byte tag over key, nonce, associated data and message, in front of it. *)
Definition mac (k n a m : bytes) : bytes := take 16 (digest (k ++ n ++ a ++ m)).

#[export] Instance toy_aead : Aead := {|
  aead_encrypt := λ k n a m, Some (mac k n a m ++ m);
  aead_decrypt := λ k n a c,
    let m := drop 16 c in
    if decide (take 16 c = mac k n a m) then Some m else None;
|}.

Lemma length_mac k n a m : length (mac k n a m) = 16.
Proof. unfold mac. rewrite length_take. unfold digest. rewrite length_be_bytes. done. Qed.

#[export] Instance toy_aead_laws : AeadLaws.
Proof.
  split; intros k n a m c H;
    (assert (c = mac k n a m ++ m) as -> by (cbv [aead_encrypt toy_aead] in H; congruence));
    cbv [aead_decrypt toy_aead].
  - rewrite length_app, length_mac. lia.
  - rewrite drop_app_length', take_app_length' by (by rewrite length_mac).
    by rewrite decide_True.
Qed.

(** A 256-byte modulus-sized blinding of the message; the token signature is the digest of
    key and message. *)
#[export] Instance toy_blind_rsa : BlindRsa := {|
  RsaPublicKey := bytes;
  RsaSecretKey := bytes;
  rsa_pk_from_der := λ d, Some d;
  rsa_pk_to_der := λ d, Some d;
  rsa_sk_from_der := λ d, Some d;
  rsa_public_key := λ d, Some d;
  rsa_verify := λ pk sig msg, bool_decide (sig = digest (pk ++ msg));
  rsa_blind := λ pk rnd m, Some {| blind_message := fit 256 (digest (rnd ++ m));
                                   secret := fit 256 rnd; msg_randomizer := None |};
  rsa_blind_sign := λ sk bm, Some (digest (sk ++ bm));
  rsa_finalize := λ pk bs st m,
    if decide (bs = digest (pk ++ blind_message st)) then Some (digest (pk ++ m)) else None;
|}.

#[export] Instance toy_blind_rsa_laws : BlindRsaLaws.
Proof.
  split; cbn; intros.
  - case_decide; [|done]. apply bool_decide_eq_true. congruence.
  - simplify_eq. eexists _, _. split; [done|]. by rewrite decide_True.
Qed.

End Toy.
