(* ===== verification/Env.v ===== *)
(** * Text and environment helpers of the standard library

    The [str] functions configuration readers use ([trim], [split], [lines],
    [split_once], [eq_ignore_ascii_case]), [std::env], and the flag readers of
    [crates/nil-core/src/net.rs].  Strings are UTF-8 byte strings. *)

From S2P Require Import Prelude.
From S2P Require Import Text.
From S2P Require Import Net.
From Stdlib Require Import Strings.Byte ZArith Lia.
From stdpp Require Import prelude gmap strings.

Local Open Scope Z_scope.

(** ** [str] *)

(** The UTF-8 encodings of the characters with the Unicode property [White_Space]. *)
Definition whitespace : list bytes :=
  [[x09]; [x0a]; [x0b]; [x0c]; [x0d]; [x20]; [xc2; x85]; [xc2; xa0]; [xe1; x9a; x80];
   [xe2; x80; x80]; [xe2; x80; x81]; [xe2; x80; x82]; [xe2; x80; x83]; [xe2; x80; x84];
   [xe2; x80; x85]; [xe2; x80; x86]; [xe2; x80; x87]; [xe2; x80; x88]; [xe2; x80; x89];
   [xe2; x80; x8a]; [xe2; x80; xa8]; [xe2; x80; xa9]; [xe2; x80; xaf]; [xe2; x81; x9f];
   [xe3; x80; x80]].

(** Remove encodings of [ws] from the front; [fuel] is the length of the text. *)
Fixpoint strip_front (ws : list bytes) (fuel : nat) (s : bytes) : bytes :=
  match fuel with
  | 0%nat => s
  | S fuel =>
      match find (λ w, starts_with w s) ws with
      | Some w => strip_front ws fuel (drop (length w) s)
      | None => s
      end
  end.

Definition trim_start (s : bytes) : bytes := strip_front whitespace (length s) s.

Definition trim_end (s : bytes) : bytes :=
  rev (strip_front (map (@rev byte) whitespace) (length s) (rev s)).

Definition trim (s : bytes) : bytes := trim_end (trim_start s).

(** [split(c)] for a one-byte separator: one more piece than there are separators. *)
Fixpoint split_on (c : byte) (s : bytes) : list bytes :=
  match s with
  | [] => [[]]
  | b :: s =>
      if decide (b = c) then [] :: split_on c s
      else match split_on c s with
           | [] => [[b]]
           | p :: ps => (b :: p) :: ps
           end
  end.

Definition strip_cr (l : bytes) : bytes :=
  match last l with Some b => if decide (b = x0d) then removelast l else l | None => l end.

(** [lines]: a carriage return is dropped only before a line feed, and a final line feed
    does not start another line. *)
Fixpoint lines_of (pieces : list bytes) : list bytes :=
  match pieces with
  | [] => []
  | [p] => if decide (p = []) then [] else [p]
  | p :: ps => strip_cr p :: lines_of ps
  end.

Definition lines (s : bytes) : list bytes := lines_of (split_on x0a s).

Fixpoint split_once (c : byte) (s : bytes) : option (bytes * bytes) :=
  match s with
  | [] => None
  | b :: s =>
      if decide (b = c) then Some ([], s)
      else '(l, r) ← split_once c s; Some (b :: l, r)
  end.

Definition ascii_lower (b : byte) : byte := if is_ascii_uppercase b then z2b (b2z b + 32) else b.

Definition eq_ignore_ascii_case (a b : bytes) : bool :=
  bool_decide (map ascii_lower a = map ascii_lower b).

(** ** The process environment *)

Definition Env := gmap bytes bytes.

Inductive VarResult := Present (v : bytes) | NotPresent | NotUnicode (raw : bytes).

(** [std::env::var]. *)
Definition env_var (env : Env) (name : bytes) : VarResult :=
  match env !! name with
  | Some raw => if is_utf8 raw then Present raw else NotUnicode raw
  | None => NotPresent
  end.

Definition env_var_ok (env : Env) (name : bytes) : option bytes :=
  match env_var env name with Present v => Some v | _ => None end.

(** [std::env::var_os]. *)
Definition env_var_os (env : Env) (name : bytes) : option bytes := env !! name.

Definition env_flag (env : Env) (name : bytes) : bool :=
  match env_var env name with
  | Present v =>
      let v := trim v in bool_decide (v = str "1") || eq_ignore_ascii_case v (str "true")
  | _ => false
  end.

(** [debug] is [cfg!(debug_assertions)]. *)
Definition dev_env_flag (debug : bool) (env : Env) (name : bytes) : bool :=
  if debug then env_flag env name else false.

Definition is_loopback_host (host : bytes) : bool :=
  eq_ignore_ascii_case host (str "localhost") ||
  match parse_ip host with Some ip => ip_is_loopback ip | None => false end.

(** ** Lemmas *)

Lemma split_on_nonempty c s : split_on c s ≠ [].
Proof. destruct s; cbn; [done|]. repeat case_match; done. Qed.

Lemma split_on_none c s : c ∉ s → split_on c s = [s].
Proof.
  induction s as [|b s IH]; intros Hc; cbn; [done|].
  rewrite decide_False by (intros ->; apply Hc; by left).
  rewrite IH; [done|]. intros ?. apply Hc. by right.
Qed.

Lemma split_on_app c p s : c ∉ p → split_on c (p ++ c :: s) = p :: split_on c s.
Proof.
  induction p as [|b p IH]; intros Hc; cbn.
  - by rewrite decide_True.
  - rewrite decide_False by (intros ->; apply Hc; by left).
    rewrite IH; [done|]. intros ?. apply Hc. by right.
Qed.

Lemma split_once_none c s : c ∉ s → split_once c s = None.
Proof.
  induction s as [|b s IH]; intros Hc; cbn; [done|].
  rewrite decide_False by (intros ->; apply Hc; by left).
  rewrite IH; [done|]. intros ?. apply Hc. by right.
Qed.

Lemma split_once_app c p s : c ∉ p → split_once c (p ++ c :: s) = Some (p, s).
Proof.
  induction p as [|b p IH]; intros Hc; cbn.
  - by rewrite decide_True.
  - rewrite decide_False by (intros ->; apply Hc; by left).
    rewrite IH; [done|]. intros ?. apply Hc. by right.
Qed.

(** Text that starts with no white-space encoding is not touched. *)
Lemma strip_front_none ws fuel s :
  Forall (λ w, starts_with w s = false) ws → strip_front ws fuel s = s.
Proof.
  intros Hw. destruct fuel; cbn; [done|].
  replace (find _ ws) with (@None bytes); [done|].
  symmetry. induction Hw as [|w ws E _ IH]; cbn; [done|]. by rewrite E.
Qed.

Lemma starts_with_head w b s :
  starts_with (b :: w) s = true → head s = Some b.
Proof. unfold starts_with. intros H%bool_decide_eq_true. destruct s; by simplify_eq/=. Qed.

Lemma strip_front_ascii ws fuel s :
  Forall (λ w, ∃ b w', w = b :: w' ∧ head s ≠ Some b) ws → strip_front ws fuel s = s.
Proof.
  intros Hw. apply strip_front_none. eapply Forall_impl; [exact Hw|].
  intros w (b & w' & -> & Hb). destruct (starts_with (b :: w') s) eqn:E; [|done].
  by apply starts_with_head in E.
Qed.

(** A printable, non-space ASCII byte. *)
Definition graphic (b : byte) : bool := in_range 33 126 b.

Lemma trim_front_graphic s :
  (∀ b, head s = Some b → graphic b = true) → trim_start s = s.
Proof.
  intros Hs. apply strip_front_ascii. unfold whitespace. repeat constructor;
    (eexists _, _; split; [reflexivity|]; intros Hb; by apply Hs in Hb).
Qed.

Lemma trim_end_graphic s :
  (∀ b, last s = Some b → graphic b = true) → trim_end s = s.
Proof.
  intros Hs. unfold trim_end. rewrite strip_front_ascii; [by rewrite rev_involutive|].
  assert (Hh : ∀ b, head (rev s) = Some b → graphic b = true).
  { intros b. rewrite <- (rev_involutive s) in Hs. intros Hb. apply Hs.
    destruct (rev s) as [|c l]; [done|]. cbn in *. by rewrite last_snoc. }
  unfold whitespace. cbn [map rev app]. repeat constructor;
    (eexists _, _; split; [reflexivity|]; intros Hb; by apply Hh in Hb).
Qed.

Lemma trim_graphic s : Forall (λ b, graphic b = true) s → trim s = s.
Proof.
  intros Hs. rewrite Forall_forall in Hs. unfold trim.
  rewrite trim_front_graphic; [apply trim_end_graphic|].
  - intros b Hb. apply Hs. by apply last_Some_elem_of in Hb.
  - intros b Hb. apply Hs. destruct s; [done|]. injection Hb as <-. by left.
Qed.

(** Trailing spaces go away. *)
Lemma trim_space s :
  Forall (λ b, graphic b = true) s → trim (s ++ [x20]) = s.
Proof.
  intros Hs. destruct (decide (s = [])) as [->|Hne]; [done|]. unfold trim.
  rewrite trim_front_graphic.
  2:{ intros b Hb. rewrite Forall_forall in Hs. destruct s; [done|]. injection Hb as <-.
      apply Hs. by left. }
  unfold trim_end. rewrite length_app, Nat.add_comm, rev_app_distr. cbn [length Nat.add rev app].
  change (rev (strip_front (map (@rev byte) whitespace) (length s) (rev s)) = s).
  apply trim_end_graphic. intros b Hb%last_Some_elem_of. rewrite Forall_forall in Hs. by apply Hs.
Qed.
