(* ===== verification/Durable.v ===== *)
(** * Durable sets of opaque keys ([crates/nil-core/src/durable.rs])

    Three sets mirrored to a line-delimited file: [DurableSet] (a key per line),
    [EpochDurableSet] (an epoch and a key) and [TimedDurableSet] (a key and its insertion
    time).  They share one shape: a record is appended and synced before the key counts as
    present, an uncertain write closes the handle, a compaction rewrites the file under a
    temporary name, and a file that does not parse refuses to open.  The class [LogFormat]
    holds what differs. *)

From S2P Require Import Prelude.
From S2P Require Import Text.
From S2P Require Import Net.
From S2P Require Import Env.
From Stdlib Require Import Strings.Byte ZArith Lia.
From stdpp Require Import prelude gmap strings.

Definition LF : byte := x0a.
Definition SP : byte := x20.

(** [io::Error], by what it reports. *)
Inductive LogError :=
  | InvalidInput            (* the key cannot be stored *)
  | TornRecord              (* the file does not end in a newline *)
  | NotText                 (* the file is not UTF-8 *)
  | InvalidRecord (line : nat)
  | NoHandle                (* the append handle was given up *)
  | IoFailed.

(** ** Faults

    A failed append may leave any prefix of the record in the file, all of it included.  A
    compaction can fail before the new file has the name, or after: then the rename itself
    may or may not survive a crash. *)

Inductive AppendIo := Appended | AppendFailed (written : nat).

Inductive CompactIo := Compacted | FailedBeforeRename | FailedAfterRename (rename_lost : bool).

(** ** The state *)

(** [seen] is the set in memory, [file] whether the append handle is held, [path] whether
    the set has a file at all, [disk] the bytes the path names. *)
Record LogSet (V : Type) := {
  seen : gmap bytes V;
  file : bool;
  path : bool;
  disk : bytes;
}.
Arguments Build_LogSet {V}.
Arguments seen {V}.
Arguments file {V}.
Arguments path {V}.
Arguments disk {V}.

Definition in_memory {V} : LogSet V := {| seen := ∅; file := false; path := false; disk := [] |}.

Definition contains {V} (s : LogSet V) (key : bytes) : bool := bool_decide (is_Some (seen s !! key)).
Definition len {V} (s : LogSet V) : nat := size (seen s).
Definition is_durable {V} (s : LogSet V) : bool := path s.

Class LogFormat (V : Type) := {
  key_ok : bytes → bool;                          (* what an insertion accepts *)
  line_of : bytes → V → bytes;                    (* a record, without its newline *)
  parse_line : bytes → option (bytes * V);
}.

(** ** Reading a file back *)

Definition read_complete_records (contents : bytes) : result LogError (list bytes) :=
  _ ← ensure (is_utf8 contents) NotText;
  if decide (contents = []) then Ok []
  else
    _ ← ensure (bool_decide (last contents = Some LF)) TornRecord;
    Ok (split_on LF (removelast contents)).

Section Log.
Context {V : Type} `{EqDecision V} `{F : !LogFormat V}.

(** The loop of each [open]: a key may be repeated, but not with another value. *)
Fixpoint load_lines (index : nat) (ls : list bytes) (m : gmap bytes V) :
    result LogError (gmap bytes V) :=
  match ls with
  | [] => Ok m
  | l :: ls =>
      kv ← ok_or (parse_line l) (InvalidRecord (index + 1));
      match m !! kv.1 with
      | Some previous =>
          if decide (previous = kv.2) then load_lines (S index) ls (<[kv.1 := kv.2]> m)
          else Err (InvalidRecord (index + 1))
      | None => load_lines (S index) ls (<[kv.1 := kv.2]> m)
      end
  end.

(** [contents] is [None] when the path names no file; [io] is the outcome of the calls that
    create directories, open and sync. *)
Definition log_open (contents : option bytes) (io : bool) : result LogError (LogSet V) :=
  _ ← ensure io IoFailed;
  let image := default [] contents in
  ls ← read_complete_records image;
  m ← load_lines 0 ls ∅;
  Ok {| seen := m; file := true; path := true; disk := image |}.

(** ** Inserting *)

Definition append_record (handle : bool) (image record : bytes) (io : AppendIo) :
    bool * bytes * result LogError unit :=
  if negb handle then (false, image, Err NoHandle)
  else match io with
  | Appended => (true, image ++ record, Ok tt)
  | AppendFailed n => (false, image ++ take n record, Err IoFailed)
  end.

Inductive TimedInsert := Inserted | AlreadyPresent | CapacityReached.

#[global] Instance TimedInsert_eq_dec : EqDecision TimedInsert.
Proof. solve_decision. Defined.

Definition insert_with_capacity (s : LogSet V) (key : bytes) (v : V) (max_entries : option nat)
    (io : AppendIo) : LogSet V * result LogError TimedInsert :=
  if negb (key_ok key) then (s, Err InvalidInput)
  else if decide (is_Some (seen s !! key)) then (s, Ok AlreadyPresent)
  else if match max_entries with Some capacity => (capacity <=? len s)%nat | None => false end
  then (s, Ok CapacityReached)
  else if path s then
    let '(handle, image, r) := append_record (file s) (disk s) (line_of key v ++ [LF]) io in
    match r with
    | Err e => ({| seen := seen s; file := handle; path := true; disk := image |}, Err e)
    | Ok _ => ({| seen := <[key := v]> (seen s); file := handle; path := true; disk := image |},
               Ok Inserted)
    end
  else ({| seen := <[key := v]> (seen s); file := file s; path := false; disk := disk s |},
        Ok Inserted).

(** The unbounded insertion: whether the key is new. *)
Definition log_insert (s : LogSet V) (key : bytes) (v : V) (io : AppendIo) :
    LogSet V * result LogError bool :=
  let '(s, r) := insert_with_capacity s key v None io in
  (s, match r with
      | Ok Inserted => Ok true
      | Ok AlreadyPresent => Ok false
      | Ok CapacityReached => Err IoFailed
      | Err e => Err e
      end).

(** ** Compacting *)

(** The image of a map; the order of the lines is that of the map's iteration. *)
Definition log_image (m : gmap bytes V) : bytes :=
  map_to_list m ≫= λ kv, line_of kv.1 kv.2 ++ [LF].

Definition log_compact (s : LogSet V) (keep : V → bool) (io : CompactIo) :
    LogSet V * result LogError nat :=
  let survivors := filter (λ kv : bytes * V, keep kv.2 = true) (seen s) in
  let to_drop := (size (seen s) - size survivors)%nat in
  if (to_drop =? 0)%nat then (s, Ok 0%nat)
  else if path s then
    match io with
    | Compacted =>
        ({| seen := survivors; file := true; path := true; disk := log_image survivors |}, Ok to_drop)
    | FailedBeforeRename =>
        ({| seen := seen s; file := false; path := true; disk := disk s |}, Err IoFailed)
    | FailedAfterRename lost =>
        ({| seen := seen s; file := false; path := true;
            disk := if lost then disk s else log_image survivors |}, Err IoFailed)
    end
  else ({| seen := survivors; file := file s; path := false; disk := disk s |}, Ok to_drop).

End Log.

(** ** The three sets *)

Definition has_byte (b : byte) (s : bytes) : bool := bool_decide (b ∈ s).

Definition durable_format : LogFormat unit := {|
  key_ok key := negb (bool_decide (key = [])) && negb (has_byte LF key);
  line_of key _ := key;
  parse_line l := if decide (l = []) then None else Some (l, tt);
|}.

Definition durable_insert (s : LogSet unit) (key : bytes) (io : AppendIo) : LogSet unit * result LogError bool :=
  log_insert (F := durable_format) s key tt io.

Abbreviation DurableSet := (LogSet unit).

Definition epoch_format : LogFormat Z := {|
  key_ok key := negb (bool_decide (key = [])) && negb (has_byte LF key) && negb (has_byte SP key);
  line_of key epoch := uint_to_string epoch ++ [SP] ++ key;
  parse_line l :=
    '(epoch_text, key) ← split_once SP l;
    if bool_decide (key = []) || has_byte SP key then None
    else epoch ← parse_uint U32_MAX epoch_text; Some (key, epoch);
|}.

Definition insert_in_epoch (s : LogSet Z) (epoch : Z) (key : bytes) (io : AppendIo) :
    LogSet Z * result LogError bool := log_insert (F := epoch_format) s key epoch io.

Definition drop_epochs (s : LogSet Z) (retained : gset Z) (io : CompactIo) :
    LogSet Z * result LogError nat :=
  if decide (retained = ∅) then (s, Ok 0%nat)
  else log_compact (F := epoch_format) s (λ epoch, bool_decide (epoch ∈ retained)) io.

Definition LEGACY_EPOCH : Z := 0.

(** The legacy keys not yet present, each once, in file order, with the lines appended. *)
Fixpoint fold_legacy (index : nat) (ls : list bytes) (m : gmap bytes Z) :
    result LogError (gmap bytes Z * bytes) :=
  match ls with
  | [] => Ok (m, [])
  | key :: ls =>
      _ ← ensure (negb (bool_decide (key = []) || has_byte SP key)) (InvalidRecord (index + 1));
      if decide (is_Some (m !! key)) then fold_legacy (S index) ls m
      else
        '(m, out) ← fold_legacy (S index) ls (<[key := LEGACY_EPOCH]> m);
        Ok (m, line_of (LogFormat := epoch_format) key LEGACY_EPOCH ++ [LF] ++ out)
  end.

(** [legacy] is the image of an existing legacy file; [fold_io] the outcome of writing and
    syncing what is folded in. *)
Definition epoch_open (contents legacy : option bytes) (io fold_io : bool) :
    result LogError (LogSet Z) :=
  s ← log_open (F := epoch_format) contents io;
  match legacy with
  | None => Ok s
  | Some l =>
      ls ← read_complete_records l;
      '(m, out) ← fold_legacy 0 ls (seen s);
      _ ← ensure (bool_decide (out = []) || fold_io) IoFailed;
      Ok {| seen := m; file := true; path := true; disk := disk s ++ out |}
  end.

Definition timed_format : LogFormat Z := {|
  key_ok key := negb (bool_decide (key = [])) && negb (has_byte LF key) && negb (has_byte SP key);
  line_of key unix := key ++ [SP] ++ uint_to_string unix;
  parse_line l :=
    '(key, timestamp_text) ← split_once SP l;
    if bool_decide (key = []) || has_byte SP timestamp_text then None
    else timestamp ← parse_uint U64_MAX timestamp_text; Some (key, timestamp);
|}.

Definition timed_insert (s : LogSet Z) (key : bytes) (now_unix : Z) (io : AppendIo) :
    LogSet Z * result LogError bool := log_insert (F := timed_format) s key now_unix io.

Definition insert_if_below_capacity (s : LogSet Z) (key : bytes) (now_unix : Z)
    (max_entries : nat) (io : AppendIo) : LogSet Z * result LogError TimedInsert :=
  insert_with_capacity (F := timed_format) s key now_unix (Some max_entries) io.

Definition prune_older_than (s : LogSet Z) (cutoff_unix : Z) (io : CompactIo) :
    LogSet Z * result LogError nat := log_compact (F := timed_format) s (λ t, cutoff_unix <=? t)%Z io.

Abbreviation TimedDurableSet := (LogSet Z).

(** ** The formats are read back as written *)

Class LogFormatLaws {V} (F : LogFormat V) (val_ok : V → Prop) : Prop := {
  parse_line_of : ∀ k v, key_ok k = true → val_ok v → parse_line (line_of k v) = Some (k, v);
  line_of_lf : ∀ k v, key_ok k = true → val_ok v → LF ∉ line_of k v;
  line_of_utf8 : ∀ k v, is_utf8 k = true → val_ok v → is_utf8 (line_of k v) = true;
}.

Lemma has_byte_false b s : has_byte b s = false ↔ b ∉ s.
Proof. unfold has_byte. by rewrite bool_decide_eq_false. Qed.

Lemma uint_no_byte b n : (0 ≤ n)%Z → is_ascii_digit b = false → b ∉ uint_to_string n.
Proof.
  intros Hn Hb Hin. pose proof (uint_to_string_digits n Hn) as H.
  rewrite Forall_forall in H. apply H in Hin. congruence.
Qed.

Lemma uint_utf8 n s : (0 ≤ n)%Z → is_utf8 s = true → is_utf8 (uint_to_string n ++ s) = true.
Proof.
  intros Hn Hs. rewrite is_utf8_app; [done|]. apply ascii_is_utf8.
  eapply Forall_impl; [by apply uint_to_string_digits|].
  unfold is_ascii_digit. intros b Hb%in_range_iff. apply in_range_iff. lia.
Qed.

#[export] Instance durable_format_laws : LogFormatLaws durable_format (λ _, True).
Proof.
  split; cbn; intros k v Hk; reflect_bools; try done.
  - intros _. rewrite decide_False by done. by destruct v.
  - intros _. by apply has_byte_false.
Qed.

#[export] Instance epoch_format_laws : LogFormatLaws epoch_format u32.
Proof.
  split; cbn [key_ok line_of parse_line epoch_format app]; intros k v Hk Hv; reflect_bools.
  - rewrite split_once_app by (by apply uint_no_byte; [unfold_int; lia|]).
    rewrite Some_bind, bool_decide_false by done. rewrite H0. cbn [orb].
    rewrite parse_uint_to_string by (unfold_int; lia). done.
  - rewrite elem_of_app, elem_of_cons. intros [Hin|[Hin|Hin]].
    + revert Hin. by apply uint_no_byte; [unfold_int; lia|].
    + done.
    + by apply has_byte_false in Hin.
  - apply uint_utf8; [unfold_int; lia|]. change (is_utf8 ([SP] ++ k) = true). by rewrite is_utf8_app.
Qed.

#[export] Instance timed_format_laws : LogFormatLaws timed_format u64.
Proof.
  split; cbn [key_ok line_of parse_line timed_format app]; intros k v Hk Hv; reflect_bools.
  - rewrite split_once_app by (by apply has_byte_false).
    rewrite Some_bind, bool_decide_false by done.
    rewrite (proj2 (has_byte_false _ _)) by (by apply uint_no_byte; [unfold_int; lia|]). cbn [orb].
    rewrite parse_uint_to_string by (unfold_int; lia). done.
  - rewrite elem_of_app, elem_of_cons. intros [Hin|[Hin|Hin]].
    + by apply has_byte_false in Hin.
    + done.
    + revert Hin. by apply uint_no_byte; [unfold_int; lia|].
  - rewrite is_utf8_app by done. change (is_utf8 ([SP] ++ uint_to_string v) = true).
    rewrite is_utf8_app by done. rewrite <- (app_nil_r (uint_to_string v)). apply uint_utf8; [unfold_int; lia|done].
Qed.

(** ** Whole files *)

Section Files.
Context {V : Type} `{EqDecision V} {F : LogFormat V} {val_ok : V → Prop} `{FL : !LogFormatLaws F val_ok}.

Definition entry_ok (kv : bytes * V) : Prop :=
  key_ok kv.1 = true ∧ is_utf8 kv.1 = true ∧ val_ok kv.2.

Definition file_of (es : list (bytes * V)) : bytes := es ≫= λ kv, line_of kv.1 kv.2 ++ [LF].

Lemma file_of_app es es' : file_of (es ++ es') = file_of es ++ file_of es'.
Proof. apply bind_app. Qed.

Lemma file_of_utf8 es s :
  Forall entry_ok es → is_utf8 (file_of es ++ s) = is_utf8 s.
Proof.
  induction 1 as [|[k v] es (Hk & Hu & Hv) _ IH]; [done|]. cbn [file_of mbind list_bind fst snd].
  rewrite <- !app_assoc, is_utf8_app by (by apply line_of_utf8).
  change ([LF] ++ ?l) with ([LF] ++ l). rewrite is_utf8_app by done. exact IH.
Qed.

Lemma split_file es s :
  Forall entry_ok es → LF ∉ s →
  split_on LF (file_of es ++ s) = ((λ kv, line_of kv.1 kv.2) <$> es) ++ [s].
Proof.
  intros H Hs. induction H as [|[k v] es (Hk & Hu & Hv) _ IH]; [by apply split_on_none|].
  cbn [file_of mbind list_bind fst snd fmap list_fmap app].
  rewrite <- !app_assoc. cbn [app]. rewrite split_on_app by (by apply line_of_lf).
  f_equal. exact IH.
Qed.

(** A file of complete records: its last line ends the text before the final newline. *)
Lemma read_file es :
  Forall entry_ok es →
  read_complete_records (file_of es) = Ok ((λ kv, line_of kv.1 kv.2) <$> es).
Proof.
  intros H. unfold read_complete_records.
  assert (is_utf8 (file_of es) = true) as ->.
  { rewrite <- (app_nil_r (file_of es)). by rewrite file_of_utf8. }
  rewrite ensure_true, Ok_bind. destruct es as [|kv es _] using rev_ind; [done|].
  apply Forall_app in H as [H H1]. apply Forall_cons in H1 as [(Hk & Hu & Hv) _].
  rewrite file_of_app. cbn [file_of mbind list_bind app]. rewrite app_nil_r.
  rewrite decide_False; [|intros E%app_eq_nil; destruct E as [_ E%app_eq_nil]; by destruct E].
  rewrite app_assoc, last_snoc, bool_decide_true, ensure_true, Ok_bind by done.
  rewrite removelast_last. f_equal. rewrite split_file by (done || by apply line_of_lf).
  by rewrite fmap_app.
Qed.

(** A torn last record is refused, whatever it holds. *)
Lemma read_torn es s :
  s ≠ [] → LF ∉ s → ∃ e, read_complete_records (file_of es ++ s) = Err e.
Proof.
  intros Hs Hlf. unfold read_complete_records.
  destruct (is_utf8 _); [|by eexists]. rewrite ensure_true, Ok_bind.
  rewrite decide_False by (intros [_ ?]%app_eq_nil; done).
  destruct s as [|b s _] using rev_ind; [done|].
  rewrite app_assoc, last_snoc, bool_decide_false; [by eexists|].
  intros [= ->]. apply Hlf. set_solver.
Qed.

Lemma load_file es i m :
  Forall entry_ok es → NoDup es.*1 → (∀ k, k ∈ es.*1 → m !! k = None) →
  load_lines i ((λ kv, line_of kv.1 kv.2) <$> es) m = Ok (list_to_map es ∪ m).
Proof.
  intros H. revert i m. induction H as [|[k v] es (Hk & Hu & Hv) _ IH]; intros i m Hnd Hm.
  - cbn. f_equal. symmetry. apply (left_id_L ∅ (∪)).
  - cbn [fmap list_fmap] in *. apply NoDup_cons in Hnd as [Hnk Hnd].
    cbn [load_lines fst snd]. rewrite parse_line_of by done. rewrite ok_or_Some, Ok_bind. cbn [fst snd].
    rewrite Hm by (by left). rewrite IH; [|done|].
    + f_equal. cbn [list_to_map foldr]. rewrite <- insert_union_l. symmetry. apply insert_union_r.
      by apply not_elem_of_list_to_map.
    + intros k' Hk'. rewrite lookup_insert_ne by (intros ->; done). apply Hm. by right.
Qed.

Lemma open_file es :
  Forall entry_ok es → NoDup es.*1 →
  log_open (Some (file_of es)) true
  = Ok {| seen := list_to_map es; file := true; path := true; disk := file_of es |}.
Proof.
  intros H Hnd. unfold log_open. rewrite ensure_true, Ok_bind. cbn [from_option id].
  rewrite read_file, Ok_bind, load_file, Ok_bind by (done || by intros; rewrite lookup_empty).
  by rewrite (right_id_L ∅ (∪)).
Qed.

Lemma log_image_file m : log_image m = file_of (map_to_list m).
Proof. done. Qed.

(** ** Histories *)

Inductive LogOp :=
  | Insert (key : bytes) (v : V) (max_entries : option nat) (io : AppendIo)
  | Compact (keep : V → bool) (io : CompactIo)
  | Restart (io : bool).

Definition op_ok (op : LogOp) : Prop :=
  match op with Insert key v _ _ => is_utf8 key = true ∧ val_ok v | _ => True end.

(** One operation, with the entry it reported as newly inserted.  [None]: the process did
    not come up again. *)
Definition log_step (s : LogSet V) (op : LogOp) : option (LogSet V) * option (bytes * V) :=
  match op with
  | Insert key v cap io =>
      let '(s, r) := insert_with_capacity s key v cap io in
      (Some s, match r with Ok Inserted => Some (key, v) | _ => None end)
  | Compact keep io => (Some (log_compact s keep io).1, None)
  | Restart io => (ok (log_open (Some (disk s)) io), None)
  end.

(** What a history obliges the set to hold: every entry reported inserted, less those that a
    compaction was asked to drop. *)
Definition oblige (must : gmap bytes V) (op : LogOp) (r : option (bytes * V)) : gmap bytes V :=
  match op with
  | Compact keep _ => filter (λ kv, keep kv.2 = true) must
  | _ => match r with Some (k, v) => <[k := v]> must | None => must end
  end.

Fixpoint log_run (s : LogSet V) (must : gmap bytes V) (accepted : list bytes) (ops : list LogOp) :
    option (LogSet V) * gmap bytes V * list bytes :=
  match ops with
  | [] => (Some s, must, accepted)
  | op :: ops =>
      let '(os, r) := log_step s op in
      let must := oblige must op r in
      let accepted := accepted ++ option_list (fst <$> r) in
      match os with
      | Some s => log_run s must accepted ops
      | None => (None, must, accepted)
      end
  end.

(** The file holds complete records and perhaps the torn start of one more. *)
Record log_inv (must : gmap bytes V) (s : LogSet V) : Prop := {
  li_path : path s = true;
  li_seen : must ⊆ seen s;
  li_ok : Forall entry_ok (map_to_list (seen s));
  li_disk : ∃ es torn, disk s = file_of es ++ torn ∧ LF ∉ torn ∧
    Forall entry_ok es ∧ NoDup es.*1 ∧ must ⊆ list_to_map es ∧
    (file s = true → torn = [] ∧ seen s = list_to_map es);
}.

Lemma map_image_ok (m : gmap bytes V) es :
  Forall entry_ok es → m ⊆ list_to_map es → Forall entry_ok (map_to_list m).
Proof.
  intros Hok Hm. apply Forall_forall. intros [k v] Hin%elem_of_map_to_list.
  eapply lookup_weaken in Hin; [|exact Hm]. apply elem_of_list_to_map_2 in Hin.
  rewrite Forall_forall in Hok. by apply Hok.
Qed.

Lemma open_disk_inv must s io s' :
  log_inv must s → log_open (Some (disk s)) io = Ok s' → log_inv must s' ∧ file s' = true.
Proof.
  intros [_ _ _ (es & torn & Hd & Hlf & Hok & Hnd & Hm & _)] Ho.
  destruct io; [|done]. destruct (decide (torn = [])) as [->|Ht].
  - rewrite app_nil_r in Hd. rewrite Hd, open_file in Ho by done. injection Ho as <-.
    split; [|done]. split; [done|done|by eapply map_image_ok|]. exists es, []. by rewrite app_nil_r.
  - destruct (read_torn es torn Ht Hlf) as [e He]. unfold log_open in Ho. cbn in Ho.
    rewrite Hd, He in Ho. done.
Qed.

(** With the handle held, reopening gives back the very same set. *)
Lemma clean_open must s :
  log_inv must s → file s = true → log_open (Some (disk s)) true = Ok s.
Proof.
  intros [Hp _ _ (es & torn & Hd & Hlf & Hok & Hnd & Hm & Hf)] Hfile.
  destruct (Hf Hfile) as [-> Hs]. rewrite app_nil_r in Hd. rewrite Hd, open_file by done.
  destruct s as [m f p d]. cbn in *. by subst.
Qed.

(** A set whose handle is held has all it shows on disk. *)
Lemma held_inv must s : log_inv must s → file s = true → log_inv (seen s) s.
Proof.
  intros [Hp _ Hall (es & torn & Hd & Hlf & Hok & Hnd & _ & Hf)] Hfile. split; [done|done|done|].
  exists es, torn. split_and!; try done. destruct (Hf Hfile) as [_ ->]. done.
Qed.

Lemma log_insert_inv must s k v cap io s' r :
  log_inv must s → is_utf8 k = true → val_ok v →
  insert_with_capacity s k v cap io = (s', r) →
  log_inv (match r with Ok Inserted => <[k := v]> must | _ => must end) s' ∧
  (r = Ok Inserted → must !! k = None).
Proof.
  intros Hinv Hu Hv. unfold insert_with_capacity.
  destruct (key_ok k) eqn:Hk; cbn [negb]; [|by intros [= <- <-]].
  destruct (decide (is_Some (seen s !! k))) as [|Hn]; [by intros [= <- <-]|].
  destruct (match cap with Some c => _ | None => _ end); [by intros [= <- <-]|].
  apply eq_None_not_Some in Hn.
  destruct Hinv as [Hp Hs Hall (es & torn & Hd & Hlf & Hok & Hnd & Hm & Hf)]. rewrite Hp.
  assert (must !! k = None) as Hmk by (by eapply lookup_weaken_None).
  unfold append_record. destruct (file s) eqn:Hfile; cbn [negb].
  2:{ intros [= <- <-]. split; [|done]. split; cbn; [done..|]. exists es, torn. by split_and!. }
  destruct (Hf eq_refl) as [-> Hseen]. rewrite app_nil_r in Hd.
  assert (Hnew : Forall entry_ok (es ++ [(k, v)]) ∧ NoDup (es ++ [(k, v)]).*1 ∧
    list_to_map (es ++ [(k, v)]) = <[k := v]> (list_to_map es : gmap bytes V) ∧
    file_of (es ++ [(k, v)]) = file_of es ++ line_of k v ++ [LF]).
  { assert (k ∉ es.*1) as Hke by (apply not_elem_of_list_to_map; by rewrite <- Hseen).
    split_and!.
    - apply Forall_app. split; [done|]. by repeat constructor.
    - rewrite fmap_app. apply NoDup_app. cbn. split_and!; [done| |apply NoDup_singleton].
      intros x Hx ->%list_elem_of_singleton. done.
    - apply list_to_map_snoc. done.
    - rewrite file_of_app. cbn. by rewrite app_nil_r. }
  destruct Hnew as (Hok' & Hnd' & Hmap & Hfile').
  destruct io as [|n].
  - intros [= <- <-]. split; [|done]. split; cbn; [done|by apply insert_mono| |].
    { rewrite map_to_list_insert by done. by constructor. }
    exists (es ++ [(k, v)]), []. rewrite Hmap, Hfile', app_nil_r, Hd.
    split_and!; try done; [by apply insert_mono|by rewrite Hseen].
  - intros [= <- <-]. split; [|done]. split; cbn; [done..|].
    destruct (decide (length (line_of k v ++ [LF]) ≤ n)%nat) as [Hle|Hlt].
    + exists (es ++ [(k, v)]), []. rewrite Hmap, Hfile', app_nil_r, Hd, take_ge by done.
      split_and!; try done. etrans; [exact Hm|]. apply insert_subseteq.
      by rewrite <- Hseen.
    + exists es, (take n (line_of k v)). rewrite Hd. split_and!; try done.
      * rewrite take_app_le; [done|]. rewrite length_app in Hlt. cbn in Hlt. lia.
      * intros Hin%elem_of_take. destruct Hin as (i & Hi & _).
        apply list_elem_of_lookup_2 in Hi. by apply (line_of_lf k v Hk Hv).
Qed.

Lemma filter_mono_map (keep : V → bool) (m1 m2 : gmap bytes V) :
  m1 ⊆ m2 → filter (λ kv, keep kv.2 = true) m1 ⊆ filter (λ kv, keep kv.2 = true) m2.
Proof.
  intros H. apply map_subseteq_spec. intros k v. rewrite !map_lookup_filter_Some.
  intros [Hk Hp]. split; [by eapply lookup_weaken|done].
Qed.

Lemma compact_inv must s keep io s' r :
  log_inv must s → log_compact s keep io = (s', r) →
  log_inv (filter (λ kv, keep kv.2 = true) must) s'.
Proof.
  intros [Hp Hs Hall (es & torn & Hd & Hlf & Hok & Hnd & Hm & Hf)]. unfold log_compact. rewrite Hp.
  assert (Hms : filter (λ kv, keep kv.2 = true) must ⊆ must) by apply map_filter_subseteq.
  set (surv := filter (λ kv : bytes * V, keep kv.2 = true) (seen s)).
  assert (Hsurv : filter (λ kv, keep kv.2 = true) must ⊆ surv) by (by apply filter_mono_map).
  assert (Himg : Forall entry_ok (map_to_list surv) ∧ NoDup (map_to_list surv).*1 ∧
    list_to_map (map_to_list surv) = surv).
  { split_and!.
    - apply (map_image_ok _ (map_to_list (seen s))); [done|]. rewrite list_to_map_to_list.
      apply map_filter_subseteq.
    - apply NoDup_fst_map_to_list.
    - apply list_to_map_to_list. }
  destruct Himg as (Hi1 & Hi2 & Hi3).
  assert (Hkept : filter (λ kv, keep kv.2 = true) must ⊆ seen s ∧
                  filter (λ kv, keep kv.2 = true) must ⊆ list_to_map es)
    by (split; (etrans; [exact Hms|done])).
  destruct Hkept as [Hks Hke].
  assert (Hnil : LF ∉ []) by apply not_elem_of_nil.
  assert (Hold : ∃ es torn, disk s = file_of es ++ torn ∧ LF ∉ torn ∧ Forall entry_ok es ∧
    NoDup es.*1 ∧ filter (λ kv, keep kv.2 = true) must ⊆ list_to_map es ∧
    (false = true → torn = [] ∧ seen s = list_to_map es)) by (by exists es, torn).
  assert (Hnew : ∀ b m, (b = true → m = surv) → ∃ es torn, log_image surv = file_of es ++ torn ∧
    LF ∉ torn ∧ Forall entry_ok es ∧ NoDup es.*1 ∧
    filter (λ kv, keep kv.2 = true) must ⊆ list_to_map es ∧
    (b = true → torn = [] ∧ m = list_to_map es)).
  { intros b m Hb. exists (map_to_list surv), []. rewrite app_nil_r, Hi3. split_and!; try done.
    intros ->%Hb. done. }
  destruct (_ =? 0)%nat.
  { intros [= <- <-]. split; try done. by exists es, torn. }
  destruct io as [| |lost]; intros [= <- <-]; split; cbn; try done.
  - by apply Hnew.
  - destruct lost; [done|by apply Hnew].
Qed.

Definition is_compact (op : LogOp) : bool := match op with Compact _ _ => true | _ => false end.

Lemma log_step_inv must s op os r :
  log_inv must s → op_ok op → log_step s op = (os, r) →
  (∀ s', os = Some s' → log_inv (oblige must op r) s') ∧
  (∀ k v, r = Some (k, v) → must !! k = None).
Proof.
  intros Hinv Hop. destruct op as [k v cap io|keep io|io]; cbn [log_step oblige].
  - destruct (insert_with_capacity s k v cap io) as [s1 r1] eqn:E. intros [= <- <-].
    destruct Hop as [Hu Hv]. destruct (log_insert_inv _ _ _ _ _ _ _ _ Hinv Hu Hv E) as [Hi Hn].
    split.
    + intros s' [= <-]. by destruct r1 as [[]|].
    + intros k' v' Hr. destruct r1 as [[]|]; try done. injection Hr as <- <-. by apply Hn.
  - destruct (log_compact s keep io) as [s1 r1] eqn:E. intros [= <- <-]. split; [|done].
    intros s' [= <-]. by eapply compact_inv.
  - destruct (log_open _ _) as [s1|e] eqn:E; intros [= <- <-]; split; try done.
    intros s' [= <-]. by eapply open_disk_inv.
Qed.

Lemma log_run_inv must s acc ops os must' acc' :
  log_inv must s → Forall op_ok ops → log_run s must acc ops = (os, must', acc') →
  (∀ s', os = Some s' → log_inv must' s') ∧
  (Forall (λ op, is_compact op = false) ops → NoDup acc → (∀ k, k ∈ acc → is_Some (must !! k)) →
   NoDup acc').
Proof.
  intros Hinv Hops. revert must s acc Hinv. induction Hops as [|op ops Hop _ IH]; intros must s acc Hinv.
  - intros [= <- <- <-]. split; [by intros ? [= <-]|done].
  - cbn [log_run]. destruct (log_step s op) as [os1 r1] eqn:E.
    destruct (log_step_inv _ _ _ _ _ Hinv Hop E) as [H1 H2].
    assert (Hacc : is_compact op = false → NoDup acc → (∀ k, k ∈ acc → is_Some (must !! k)) →
      NoDup (acc ++ option_list (fst <$> r1)) ∧
      ∀ k, k ∈ acc ++ option_list (fst <$> r1) → is_Some (oblige must op r1 !! k)).
    { intros Hnc Hnd Hin. destruct r1 as [[k v]|]; cbn [fmap option_fmap option_map option_list fst].
      - assert (oblige must op (Some (k, v)) = <[k := v]> must) as -> by (by destruct op).
        specialize (H2 _ _ eq_refl). split.
        + apply NoDup_app. split_and!; [done| |apply NoDup_singleton].
          intros x Hx ->%list_elem_of_singleton. destruct (Hin _ Hx). congruence.
        + intros x [Hx| ->%list_elem_of_singleton]%elem_of_app; [|rewrite lookup_insert_eq; eauto].
          apply lookup_insert_is_Some'. by right; apply Hin.
      - rewrite app_nil_r. assert (oblige must op None = must) as -> by (by destruct op). done. }
    destruct os1 as [s1|].
    + intros Hrun. destruct (IH _ _ _ (H1 _ eq_refl) Hrun) as (Ha & Hc).
      split; [done|]. intros [Hnc Hncs]%Forall_cons Hnd Hin.
      destruct (Hacc Hnc Hnd Hin). by apply Hc.
    + intros [= <- <- <-]. split; [done|]. intros [Hnc _]%Forall_cons Hnd Hin.
      by apply Hacc.
Qed.

Definition fresh : LogSet V := {| seen := ∅; file := true; path := true; disk := [] |}.

Lemma fresh_inv : log_inv ∅ fresh.
Proof.
  split; cbn; [done|done| |].
  - rewrite map_to_list_empty. constructor.
  - exists [], []. split_and!; try done; [apply not_elem_of_nil|constructor..].
Qed.

(** A durable set keeps its word: over any history of insertions, compactions and
    restarts, whatever the disk does, every key reported as inserted - and not dropped by a
    compaction - is present now, and present after a crash at this point if the file opens
    at all.  While no write has failed the file does open, to exactly the set in memory. *)
Theorem accepted_keys_survive ops s must accepted :
  Forall op_ok ops → log_run fresh ∅ [] ops = (Some s, must, accepted) →
  must ⊆ seen s ∧
  (∀ io s', log_open (Some (disk s)) io = Ok s' → must ⊆ seen s') ∧
  (file s = true → log_open (Some (disk s)) true = Ok s).
Proof.
  intros Hops Hrun. destruct (log_run_inv _ _ _ _ _ _ _ fresh_inv Hops Hrun) as (Hi & _).
  specialize (Hi _ eq_refl). split_and!.
  - apply Hi.
  - intros io s' Ho. eapply open_disk_inv in Ho as [Ho _]; [|done]. apply Ho.
  - by eapply clean_open.
Qed.

(** Single use: in a history without compactions no key is ever reported as newly
    inserted twice, across any number of restarts and failed writes. *)
Theorem inserted_at_most_once ops os must accepted :
  Forall op_ok ops → Forall (λ op, is_compact op = false) ops →
  log_run fresh ∅ [] ops = (os, must, accepted) → NoDup accepted.
Proof.
  intros Hops Hnc Hrun. destruct (log_run_inv _ _ _ _ _ _ _ fresh_inv Hops Hrun) as (_ & H).
  apply H; [done|constructor|]. by intros k ?%elem_of_nil.
Qed.

End Files.

(** ** Folding in a legacy file *)

Section Legacy.

Lemma fold_legacy_ok ls i m m' out :
  Forall (λ k, is_utf8 k = true ∧ LF ∉ k) ls →
  fold_legacy i ls m = Ok (m', out) →
  m' = m ∪ gset_to_gmap LEGACY_EPOCH (list_to_set ls) ∧
  ∃ es, out = file_of (F := epoch_format) es ∧
    Forall (entry_ok (F := epoch_format) (val_ok := u32)) es ∧ NoDup es.*1 ∧
    (∀ k, k ∈ es.*1 → m !! k = None) ∧ m' = m ∪ list_to_map es.
Proof.
  intros H. revert i m m' out. induction H as [|k ls [Hu Hlf] _ IH]; intros i m m' out.
  - intros [= <- <-]. split.
    + apply map_eq. intros k. cbn. rewrite lookup_union, (proj2 (lookup_gset_to_gmap_None _ _ _)) by set_solver.
      by destruct (m !! k).
    + exists []. split_and!; try done; [constructor..|by intros k ?%elem_of_nil|].
      cbn. by rewrite (right_id_L ∅ (∪)).
  - cbn [fold_legacy]. intros Hf. apply bind_Ok in Hf as (u1 & Hk & Hf).
    apply ensure_Ok in Hk. apply negb_true_iff, orb_false_iff in Hk as [Hk1 Hk2].
    destruct (decide (is_Some (m !! k))) as [Hin|Hnin].
    + destruct (IH _ _ _ _ Hf) as [Hm' Hes]. split; [|done]. rewrite Hm'. apply map_eq. intros k'.
      rewrite !lookup_union. destruct (m !! k') as [e|] eqn:E; [by rewrite !(union_Some_l e)|].
      f_equal. rewrite !lookup_gset_to_gmap. cbn. destruct (decide (k' = k)) as [->|Hne].
      { destruct Hin. congruence. }
      case_guard; case_guard; set_solver.
    + apply eq_None_not_Some in Hnin. apply bind_Ok in Hf as ([m1 out1] & Hf1 & [= <- <-]).
      destruct (IH _ _ _ _ Hf1) as [Hm' (es & -> & Hok & Hnd & Hfr & Hm2)]. split.
      * rewrite Hm'. apply map_eq. intros k'. cbn.
        destruct (decide (k' = k)) as [->|Hne].
        -- rewrite lookup_union_l', lookup_insert_eq by (rewrite lookup_insert_eq; eauto).
           rewrite lookup_union_r by done. symmetry. apply lookup_gset_to_gmap_Some. set_solver.
        -- rewrite !lookup_union, lookup_insert_ne by done. f_equal. rewrite !lookup_gset_to_gmap.
           case_guard; case_guard; set_solver.
      * exists ((k, LEGACY_EPOCH) :: es). split_and!.
        -- cbn [file_of mbind list_bind fst snd]. by rewrite <- app_assoc.
        -- constructor; [|done]. split_and!; [|done|unfold LEGACY_EPOCH; unfold_int; cbn; lia].
           cbn. rewrite Hk1, Hk2. cbn. rewrite andb_true_r. by apply negb_true_iff, has_byte_false.
        -- cbn. constructor; [|done]. intros Hin%Hfr. by rewrite lookup_insert_eq in Hin.
        -- cbn. intros k' [->|Hin]%elem_of_cons; [done|]. apply Hfr in Hin.
           by apply lookup_insert_None in Hin as [? _].
        -- rewrite Hm2. cbn. rewrite <- insert_union_l, insert_union_r; done.
Qed.

Lemma fold_legacy_again ls i m :
  Forall (λ k, bool_decide (k = []) || has_byte SP k = false) ls →
  (∀ k, k ∈ ls → is_Some (m !! k)) → fold_legacy i ls m = Ok (m, []).
Proof.
  intros H. revert i. induction H as [|k ls Hk _ IH]; intros i Hin; [done|].
  cbn [fold_legacy]. rewrite Hk. cbn [negb]. rewrite ensure_true, Ok_bind.
  rewrite decide_True by (apply Hin; by left). apply IH. intros k' Hk'. apply Hin. by right.
Qed.

Lemma fold_legacy_keys ls i m r :
  fold_legacy i ls m = Ok r →
  Forall (λ k, bool_decide (k = []) || has_byte SP k = false) ls.
Proof.
  revert i m r. induction ls as [|k ls IH]; intros i m r; [constructor|].
  cbn [fold_legacy]. intros Hf. apply bind_Ok in Hf as (u1 & Hk & Hf).
  apply ensure_Ok, negb_true_iff in Hk. constructor; [done|].
  case_decide; [by eapply IH|]. apply bind_Ok in Hf as (r1 & Hf & _). by eapply IH.
Qed.

(** Migration: opening the epoch set beside a legacy file adds every legacy key under
    the reserved epoch and keeps every epoch already recorded; what it leaves on disk opens
    to the same set, and folding the legacy file in again changes nothing. *)
Theorem legacy_folded_in es keys io fold_io s :
  Forall (entry_ok (F := epoch_format) (val_ok := u32)) es → NoDup es.*1 →
  Forall (entry_ok (F := durable_format) (val_ok := λ _, True)) keys →
  epoch_open (Some (file_of (F := epoch_format) es))
    (Some (file_of (F := durable_format) keys)) io fold_io = Ok s →
  seen s = list_to_map es ∪ gset_to_gmap LEGACY_EPOCH (list_to_set keys.*1) ∧
  ∀ fold_io', epoch_open (Some (disk s)) None true fold_io' = Ok s ∧
    epoch_open (Some (disk s)) (Some (file_of (F := durable_format) keys)) true fold_io'
    = Ok s.
Proof.
  intros Hes Hnd Hkeys. unfold epoch_open. destruct io; [|done].
  rewrite open_file by done. rewrite Ok_bind. rewrite read_file, Ok_bind by done.
  cbn [seen disk]. change ((λ kv : bytes * (), line_of kv.1 kv.2) <$> keys) with keys.*1.
  intros Ho. apply bind_Ok in Ho as ([m out] & Hf & Ho). pose proof (fold_legacy_keys _ _ _ _ Hf) as Hk.
  apply fold_legacy_ok in Hf as [Hm (es' & -> & Hok' & Hnd' & Hfr & Hm2)].
  2:{ apply Forall_fmap. eapply Forall_impl; [exact Hkeys|]. intros [k []] (Hk1 & Hk2 & _). split; [done|].
      cbn in Hk1. apply andb_true_iff in Hk1 as [_ Hk1]. by apply negb_true_iff, has_byte_false in Hk1. }
  apply bind_Ok in Ho as (u1 & _ & [= <-]). cbn [seen disk]. split; [done|]. intros fold_io'.
  rewrite <- file_of_app. rewrite open_file.
  2: by apply Forall_app.
  2:{ rewrite fmap_app. apply NoDup_app. split_and!; [done| |done].
      intros k Hin1 Hin2%Hfr. by apply not_elem_of_list_to_map in Hin2. }
  rewrite list_to_map_app, <- Hm2, !Ok_bind. split; [done|]. cbn [seen disk].
  rewrite fold_legacy_again; [|done|].
  - cbn. by rewrite app_nil_r.
  - intros k Hin. rewrite Hm, lookup_union_is_Some. right. eexists.
    apply lookup_gset_to_gmap_Some. split; [|done]. by apply elem_of_list_to_set.
Qed.

End Legacy.

(** ** Witnesses *)

(** A pending reference whose write fails after the whole line reached the disk, a restart
    that recovers it, a compaction that drops the oldest. *)
Definition w_log_ops : list (@LogOp Z) :=
  [Insert (str "aa") 100%Z None Appended; Insert (str "bb") 200%Z None (AppendFailed 99);
   Insert (str "cc") 300%Z None Appended; Restart true; Insert (str "cc") 300%Z (Some 3) Appended;
   Insert (str "dd") 300%Z (Some 3) Appended; Compact (λ t, 150 <=? t)%Z Compacted].

Lemma w_log_ops_ok : Forall (op_ok (val_ok := u64)) w_log_ops.
Proof. repeat constructor; cbn; unfold_int; try done; lia. Qed.

Definition w_set : LogSet Z := {|
  seen := {[str "bb" := 200%Z; str "cc" := 300%Z]}; file := true; path := true;
  disk := log_image (F := timed_format) {[str "bb" := 200%Z; str "cc" := 300%Z]} |}.

Lemma accepted_keys_survive_witness :
  {[str "cc" := 300%Z]} ⊆ seen w_set ∧
  log_open (F := timed_format) (Some (disk w_set)) true = Ok w_set.
Proof.
  assert (H : log_run (F := timed_format) fresh ∅ [] w_log_ops
    = (Some w_set, {[str "cc" := 300%Z]}, [str "aa"; str "cc"]))
    by (vm_cast_no_check (eq_refl (Some w_set, {[str "cc" := 300%Z]} : gmap bytes Z, [str "aa"; str "cc"]))).
  destruct (accepted_keys_survive (F := timed_format) w_log_ops w_set _ _ w_log_ops_ok H) as (H1 & _ & H3).
  split; [exact H1|]. apply H3. reflexivity.
Defined.

Definition w_once : list (@LogOp unit) :=
  [Insert (str "k") tt None Appended; Insert (str "k") tt None Appended; Restart true;
   Insert (str "k") tt None Appended; Insert (str "l") tt None (AppendFailed 1); Restart true].

Lemma inserted_at_most_once_witness :
  NoDup (log_run (F := durable_format) fresh ∅ [] w_once).2.
Proof.
  destruct (log_run (F := durable_format) fresh ∅ [] w_once) as [[os must] acc] eqn:E.
  apply (inserted_at_most_once (F := durable_format) (val_ok := λ _, True) w_once os must acc); [| |exact E].
  - repeat constructor.
  - repeat constructor.
Defined.

Definition w_epoch : LogSet Z := {|
  seen := {[str "aa" := 7%Z; str "bb" := 0%Z]}; file := true; path := true;
  disk := file_of (F := epoch_format) [(str "aa", 7%Z); (str "bb", 0%Z)] |}.

Lemma legacy_folded_in_witness : epoch_open (Some (disk w_epoch)) None true true = Ok w_epoch.
Proof.
  assert (H : epoch_open (Some (file_of (F := epoch_format) [(str "aa", 7%Z)]))
    (Some (file_of (F := durable_format) [(str "aa", tt); (str "bb", tt)])) true true = Ok w_epoch)
    by (vm_cast_no_check (@eq_refl (result LogError (LogSet Z)) (Ok w_epoch))).
  refine (proj1 (proj2 (legacy_folded_in [(str "aa", 7%Z)] [(str "aa", tt); (str "bb", tt)] true true
    w_epoch _ _ _ H) true)).
  - repeat constructor; unfold_int; cbn; lia.
  - repeat constructor. by intros ?%elem_of_nil.
  - by repeat constructor.
Defined.
