(* ===== verification/Grant.v ===== *)
(** * NWG2 node grants ([crates/nil-core/src/grant.rs])

    The Coordinator signs one short-lived, audience-bound grant per selected hop; a
    node verifies it against its own identity.  This file models the identity and
    audience constructors, the key set, [mint], [parse] and both verifiers, and proves
    that the wire format is canonical, that verification accepts exactly the tokens
    that some trusted key signed for this node within their lifetime, and that a
    minted grant is accepted for precisely that long. *)

From S2P Require Import Prelude.
From S2P Require Import Text.
From S2P Require Import Net.
From S2P Require Import Crypto.
From Stdlib Require Import Strings.Byte ZArith Lia.
From stdpp Require Import prelude gmap strings.

(** ** Shared data *)

(** [nil_core::Tee]. *)
Inductive Tee := SevSnp | Tdx.

#[global] Instance Tee_eq_dec : EqDecision Tee.
Proof. solve_decision. Defined.

(** [std::time::Duration]. *)
Record Duration := { as_secs : Z; subsec_nanos : Z }.

(** ** Layout constants *)

Definition MAGIC : bytes := str "NWG2".
Definition LEGACY_MAGIC : bytes := str "NWG1".
Definition KEY_ID_DOMAIN : bytes := str "nilvpn.nwg2.key-id".
Definition KEY_ID_LEN : nat := 32.
Definition NONCE_LEN : nat := 32.
Definition MEASUREMENT_LEN : nat := 48.
Definition TLS_SPKI_SHA256_LEN : nat := 32.
Definition PREVIOUS_HOP_LEN : nat := 1 + 4.
Definition NEXT_HOP_LEN : nat := 1 + 4 + 2.
Definition SIGNATURE_LEN : nat := 64.
Definition KEY_ID_OFFSET : nat := Eval cbv in length MAGIC.
Definition ISSUED_AT_OFFSET : nat := Eval cbv in KEY_ID_OFFSET + KEY_ID_LEN.
Definition EXPIRES_AT_OFFSET : nat := Eval cbv in ISSUED_AT_OFFSET + 8.
Definition NONCE_OFFSET : nat := Eval cbv in EXPIRES_AT_OFFSET + 8.
Definition ROLE_OFFSET : nat := Eval cbv in NONCE_OFFSET + NONCE_LEN.
Definition TRANSPORT_OFFSET : nat := Eval cbv in ROLE_OFFSET + 1.
Definition TEE_OFFSET : nat := Eval cbv in TRANSPORT_OFFSET + 1.
Definition REALM_LEN_OFFSET : nat := Eval cbv in TEE_OFFSET + 1.
Definition NODE_ID_LEN_OFFSET : nat := Eval cbv in REALM_LEN_OFFSET + 2.
Definition IDENTIFIERS_OFFSET : nat := Eval cbv in NODE_ID_LEN_OFFSET + 2.
Definition MIN_TOKEN_LEN : nat := Eval cbv in
  IDENTIFIERS_OFFSET + 2 + MEASUREMENT_LEN + TLS_SPKI_SHA256_LEN
  + PREVIOUS_HOP_LEN + NEXT_HOP_LEN + SIGNATURE_LEN.
Definition MAX_GRANT_IDENTIFIER_LEN : nat := 64.
Definition MAX_GRANT_TOKEN_LEN : nat := Eval cbv in
  IDENTIFIERS_OFFSET + 2 * MAX_GRANT_IDENTIFIER_LEN + MEASUREMENT_LEN
  + TLS_SPKI_SHA256_LEN + PREVIOUS_HOP_LEN + NEXT_HOP_LEN + SIGNATURE_LEN.
Definition MAX_GRANT_TTL_SECS : Z := 600.
Definition MAX_GRANT_CLOCK_SKEW_SECS : Z := 30.

(** ** Roles and transports *)

Inductive GrantRole := Entry | Middle | Exit.

#[global] Instance GrantRole_eq_dec : EqDecision GrantRole.
Proof. solve_decision. Defined.

Definition GrantRole_parse (value : bytes) : option GrantRole :=
  if decide (value = str "entry") then Some Entry
  else if decide (value = str "middle") then Some Middle
  else if decide (value = str "exit") then Some Exit
  else None.

Definition GrantRole_as_str (r : GrantRole) : bytes :=
  match r with Entry => str "entry" | Middle => str "middle" | Exit => str "exit" end.

(** [role as u8]: the enum's [repr(u8)] discriminants. *)
Definition role_to_wire (r : GrantRole) : byte :=
  match r with Entry => x01 | Middle => x02 | Exit => x03 end.

Definition role_from_wire (v : byte) : option GrantRole :=
  match v with x01 => Some Entry | x02 => Some Middle | x03 => Some Exit | _ => None end.

Inductive GrantTransport := Masque | AmneziaWg | Wstunnel | Reality.

#[global] Instance GrantTransport_eq_dec : EqDecision GrantTransport.
Proof. solve_decision. Defined.

Definition GrantTransport_parse (value : bytes) : option GrantTransport :=
  if decide (value = str "masque") then Some Masque
  else if decide (value = str "amnezia-wg") then Some AmneziaWg
  else if decide (value = str "wstunnel") then Some Wstunnel
  else if decide (value = str "reality") then Some Reality
  else None.

Definition GrantTransport_as_str (t : GrantTransport) : bytes :=
  match t with
  | Masque => str "masque" | AmneziaWg => str "amnezia-wg"
  | Wstunnel => str "wstunnel" | Reality => str "reality"
  end.

Definition transport_to_wire (t : GrantTransport) : byte :=
  match t with Masque => x01 | AmneziaWg => x02 | Wstunnel => x03 | Reality => x04 end.

Definition transport_from_wire (v : byte) : option GrantTransport :=
  match v with
  | x01 => Some Masque | x02 => Some AmneziaWg
  | x03 => Some Wstunnel | x04 => Some Reality | _ => None
  end.

Definition tee_to_wire (t : Tee) : byte := match t with SevSnp => x01 | Tdx => x02 end.

Definition tee_from_wire (v : byte) : option Tee :=
  match v with x01 => Some SevSnp | x02 => Some Tdx | _ => None end.

(** ** Errors *)

Inductive GrantError :=
  | InvalidSigningKeyLength
  | InvalidPublicKey
  | NoVerificationKeys
  | KeyIdCollision
  | InvalidIdentifier (name : bytes)
  | InvalidTtl
  | TimeOverflow
  | LegacyGrantRejected
  | UnsupportedVersion
  | Malformed
  | UnknownKey
  | BadSignature
  | InvalidLifetime
  | NotYetValid
  | Expired
  | InvalidNextHopPolicy
  | WrongAudience.

#[global] Instance GrantError_eq_dec : EqDecision GrantError.
Proof. solve_decision. Defined.

(** ** Identifiers *)

Definition is_edge (b : byte) : bool := is_ascii_lowercase b || is_ascii_digit b.

Definition is_inner (b : byte) : bool :=
  is_edge b || bool_decide (b = x2e) || bool_decide (b = x5f)
  || bool_decide (b = x3a) || bool_decide (b = x2d).

Definition validate_named_identifier (name identifier : bytes) : result GrantError unit :=
  if bool_decide (identifier = []) || (MAX_GRANT_IDENTIFIER_LEN <? length identifier)%nat
  then Err (InvalidIdentifier name)
  else
    match head identifier, last identifier with
    | Some first, Some final =>
        if negb (is_edge first) || negb (is_edge final) || negb (forallb is_inner identifier)
        then Err (InvalidIdentifier name)
        else Ok tt
    | _, _ => Err (InvalidIdentifier name)
    end.

Definition validate_identifier (identifier : bytes) : result GrantError unit :=
  validate_named_identifier (str "grant identifier") identifier.

(** ** Node identity and audience *)

Record GrantNodeIdentity := {
  realm : bytes;
  node_id : bytes;
  role : GrantRole;
  transport : GrantTransport;
  tee : Tee;
  measurement : bytes;       (* [u8; 48] *)
  tls_spki_sha256 : bytes;   (* [u8; 32] *)
}.

#[global] Instance GrantNodeIdentity_eq_dec : EqDecision GrantNodeIdentity.
Proof. solve_decision. Defined.

Definition GrantNodeIdentity_new (realm node_id : bytes) (role : GrantRole)
    (transport : GrantTransport) (tee : Tee) (measurement tls_spki_sha256 : bytes) :
    result GrantError GrantNodeIdentity :=
  _ ← validate_named_identifier (str "grant realm") realm;
  _ ← validate_named_identifier (str "grant node_id") node_id;
  Ok {| realm := realm; node_id := node_id; role := role; transport := transport;
        tee := tee; measurement := measurement; tls_spki_sha256 := tls_spki_sha256 |}.

Record GrantAudience := {
  node : GrantNodeIdentity;
  previous_hop : option Ipv4Addr;
  next_hop : option SocketAddrV4;
}.

#[global] Instance GrantAudience_eq_dec : EqDecision GrantAudience.
Proof. solve_decision. Defined.

(** The role/neighbour match of [from_node_identity]. *)
Definition hop_policy (r : GrantRole) (prev : option Ipv4Addr)
    (next : option SocketAddrV4) : bool :=
  match r, prev, next with
  | Entry, None, Some endpoint => negb (sa_port endpoint =? 0)%Z
  | Middle, Some _, Some endpoint => negb (sa_port endpoint =? 0)%Z
  | Exit, _, None => true
  | _, _, _ => false
  end.

Definition from_node_identity (n : GrantNodeIdentity) (prev : option Ipv4Addr)
    (next : option SocketAddrV4) : result GrantError GrantAudience :=
  if hop_policy (role n) prev next
  then Ok {| node := n; previous_hop := prev; next_hop := next |}
  else Err InvalidNextHopPolicy.

Definition GrantAudience_new (realm node_id : bytes) (role : GrantRole)
    (transport : GrantTransport) (tee : Tee) (measurement tls_spki_sha256 : bytes)
    (prev : option Ipv4Addr) (next : option SocketAddrV4) :
    result GrantError GrantAudience :=
  n ← GrantNodeIdentity_new realm node_id role transport tee measurement tls_spki_sha256;
  from_node_identity n prev next.

Record VerifiedGrant := {
  vg_key_id : bytes;
  vg_issued_at : Z;
  vg_expires_at : Z;
  vg_nonce : bytes;
  vg_audience : GrantAudience;
}.

(** [nil_core::Grant]. *)
Record Grant := { g_token : bytes; g_nonce : bytes }.

(** ** Reading fields *)

Definition read_array (N : nat) (token : bytes) (offset : nat) : result GrantError bytes :=
  e ← ok_or (usize_checked_add offset N) Malformed;
  s ← ok_or (slice_get token offset e) Malformed;
  if decide (length s = N) then Ok s else Err Malformed.

Definition read_u16 (token : bytes) (offset : nat) : result GrantError Z :=
  a ← read_array 2 token offset; Ok (be_value a).

Definition read_u64 (token : bytes) (offset : nat) : result GrantError Z :=
  a ← read_array 8 token offset; Ok (be_value a).

(** The two neighbour fields: absent is all zeroes, present starts with a one. *)
Definition decode_previous_hop (w : bytes) : result GrantError (option Ipv4Addr) :=
  if decide (w = replicate PREVIOUS_HOP_LEN x00) then Ok None
  else match w with
       | [t; a; b; c; d] => if decide (t = x01) then Ok (Some (Ipv4 a b c d)) else Err Malformed
       | _ => Err Malformed
       end.

Definition decode_next_hop (w : bytes) : result GrantError (option SocketAddrV4) :=
  if decide (w = replicate NEXT_HOP_LEN x00) then Ok None
  else match w with
       | [t; a; b; c; d; port_hi; port_lo] =>
           if decide (t = x01) then
             let port := be_value [port_hi; port_lo] in
             if (port =? 0)%Z then Err Malformed
             else Ok (Some {| sa_ip := Ipv4 a b c d; sa_port := port |})
           else Err Malformed
       | _ => Err Malformed
       end.

Definition encode_previous_hop (prev : option Ipv4Addr) : bytes :=
  match prev with
  | Some ip => x01 :: octets ip
  | None => replicate PREVIOUS_HOP_LEN x00
  end.

Definition encode_next_hop (next : option SocketAddrV4) : bytes :=
  match next with
  | Some endpoint => x01 :: octets (sa_ip endpoint) ++ be_bytes 2 (sa_port endpoint)
  | None => replicate NEXT_HOP_LEN x00
  end.

(** The signed bytes, field by field as [mint] appends them. *)
Definition payload_bytes (key_id : bytes) (issued_at expires_at : Z) (nonce : bytes)
    (aud : GrantAudience) : bytes :=
  let n := node aud in
  MAGIC ++ key_id ++ be_bytes 8 issued_at ++ be_bytes 8 expires_at ++ nonce ++
  [role_to_wire (role n)] ++ [transport_to_wire (transport n)] ++ [tee_to_wire (tee n)] ++
  be_bytes 2 (Z.of_nat (length (realm n))) ++ be_bytes 2 (Z.of_nat (length (node_id n))) ++
  realm n ++ node_id n ++ measurement n ++ tls_spki_sha256 n ++
  encode_previous_hop (previous_hop aud) ++ encode_next_hop (next_hop aud).

(** ** Keys, minting and verification *)

Section Operations.
Context `{Hsha : Sha256, Hed : Ed25519}.

Definition key_id_for_public_key (public_key : bytes) : bytes :=
  sha256 (KEY_ID_DOMAIN ++ public_key).

Record GrantSigningKey := { signing_key : SigningKey }.

Definition from_seed (seed : bytes) : GrantSigningKey :=
  {| signing_key := sk_from_bytes seed |}.

Definition try_from_slice (seed : bytes) : result GrantError GrantSigningKey :=
  if decide (length seed = 32) then Ok (from_seed seed) else Err InvalidSigningKeyLength.

Definition public_key_bytes (k : GrantSigningKey) : bytes :=
  vk_to_bytes (verifying_key (signing_key k)).

Definition sk_key_id (k : GrantSigningKey) : bytes :=
  key_id_for_public_key (public_key_bytes k).

Record GrantVerifier := { keys : gmap bytes VerifyingKey }.

Definition GrantVerifier_default : GrantVerifier := {| keys := ∅ |}.

Definition add_public_key (v : GrantVerifier) (public_key : bytes) :
    result GrantError (GrantVerifier * bytes) :=
  vk ← ok_or (vk_from_bytes public_key) InvalidPublicKey;
  if vk_is_weak vk then Err InvalidPublicKey
  else
    let key_id := key_id_for_public_key public_key in
    match keys v !! key_id with
    | Some existing =>
        if decide (vk_to_bytes existing = public_key) then Ok (v, key_id)
        else Err KeyIdCollision
    | None => Ok ({| keys := <[key_id := vk]> (keys v) |}, key_id)
    end.

Fixpoint add_public_keys (v : GrantVerifier) (pks : list bytes) :
    result GrantError GrantVerifier :=
  match pks with
  | [] => Ok v
  | pk :: pks => vi ← add_public_key v pk; add_public_keys vi.1 pks
  end.

Definition GrantVerifier_new (pks : list bytes) : result GrantError GrantVerifier :=
  v ← add_public_keys GrantVerifier_default pks;
  if decide (keys v = ∅) then Err NoVerificationKeys else Ok v.

Definition from_public_key (pk : bytes) : result GrantError GrantVerifier :=
  GrantVerifier_new [pk].

Definition contains_key_id (v : GrantVerifier) (kid : bytes) : bool :=
  bool_decide (is_Some (keys v !! kid)).

(** The capacity the minted payload is asserted to have. *)
Definition mint_payload_len (realm node_id : bytes) : option nat :=
  l ← usize_checked_add IDENTIFIERS_OFFSET (length realm);
  l ← usize_checked_add l (length node_id);
  l ← usize_checked_add l MEASUREMENT_LEN;
  l ← usize_checked_add l TLS_SPKI_SHA256_LEN;
  l ← usize_checked_add l PREVIOUS_HOP_LEN;
  usize_checked_add l NEXT_HOP_LEN.

Definition u16_try_from (n : nat) (name : bytes) : result GrantError Z :=
  if (Z.of_nat n <=? U16_MAX)%Z then Ok (Z.of_nat n) else Err (InvalidIdentifier name).

Definition mint (k : GrantSigningKey) (aud : GrantAudience) (nonce : bytes)
    (ttl : Duration) (now : Z) : result GrantError Grant :=
  let n := node aud in
  _ ← validate_named_identifier (str "grant realm") (realm n);
  _ ← validate_named_identifier (str "grant node_id") (node_id n);
  let ttl_secs := as_secs ttl in
  _ ← ensure ((subsec_nanos ttl =? 0)%Z
              && ((1 <=? ttl_secs)%Z && (ttl_secs <=? MAX_GRANT_TTL_SECS)%Z)) InvalidTtl;
  expires_at ← ok_or (u64_checked_add now ttl_secs) TimeOverflow;
  _ ← u16_try_from (length (realm n)) (str "grant realm");
  _ ← u16_try_from (length (node_id n)) (str "grant node_id");
  _ ← ok_or (mint_payload_len (realm n) (node_id n)) Malformed;
  let payload := payload_bytes (sk_key_id k) now expires_at nonce aud in
  let signature := ed_sign (signing_key k) payload in
  Ok {| g_token := payload ++ sig_to_bytes signature; g_nonce := nonce |}.

Record ParsedGrant := {
  pg_key_id : bytes;
  pg_issued_at : Z;
  pg_expires_at : Z;
  pg_nonce : bytes;
  pg_audience : GrantAudience;
  pg_signed_payload : bytes;
  pg_signature : Signature;
}.

Definition into_verified (p : ParsedGrant) : VerifiedGrant :=
  {| vg_key_id := pg_key_id p; vg_issued_at := pg_issued_at p;
     vg_expires_at := pg_expires_at p; vg_nonce := pg_nonce p;
     vg_audience := pg_audience p |}.

Definition parse (token : bytes) : result GrantError ParsedGrant :=
  if starts_with LEGACY_MAGIC token then Err LegacyGrantRejected
  else if (length token <? MIN_TOKEN_LEN)%nat then Err Malformed
  else if negb (bool_decide (slice_get token 0 (length MAGIC) = Some MAGIC))
  then Err UnsupportedVersion
  else
    signature_offset ←
      ok_or (if (SIGNATURE_LEN <=? length token)%nat
             then Some (length token - SIGNATURE_LEN) else None) Malformed;
    realm_len ← read_u16 token REALM_LEN_OFFSET;
    node_id_len ← read_u16 token NODE_ID_LEN_OFFSET;
    let realm_len := Z.to_nat realm_len in
    let node_id_len := Z.to_nat node_id_len in
    _ ← ensure (negb ((realm_len =? 0)%nat || (MAX_GRANT_IDENTIFIER_LEN <? realm_len)%nat
                      || (node_id_len =? 0)%nat
                      || (MAX_GRANT_IDENTIFIER_LEN <? node_id_len)%nat)) Malformed;
    realm_end ← ok_or (usize_checked_add IDENTIFIERS_OFFSET realm_len) Malformed;
    node_id_end ← ok_or (usize_checked_add realm_end node_id_len) Malformed;
    measurement_end ← ok_or (usize_checked_add node_id_end MEASUREMENT_LEN) Malformed;
    tls_end ← ok_or (usize_checked_add measurement_end TLS_SPKI_SHA256_LEN) Malformed;
    previous_hop_end ← ok_or (usize_checked_add tls_end PREVIOUS_HOP_LEN) Malformed;
    next_hop_end ← ok_or (usize_checked_add previous_hop_end NEXT_HOP_LEN) Malformed;
    _ ← ensure (next_hop_end =? signature_offset)%nat Malformed;
    realm ← ok_or (slice_get token IDENTIFIERS_OFFSET realm_end) Malformed;
    _ ← ensure (is_utf8 realm) Malformed;
    node_id ← ok_or (slice_get token realm_end node_id_end) Malformed;
    _ ← ensure (is_utf8 node_id) Malformed;
    role_byte ← ok_or (token !! ROLE_OFFSET) Malformed;
    role ← ok_or (role_from_wire role_byte) Malformed;
    transport_byte ← ok_or (token !! TRANSPORT_OFFSET) Malformed;
    transport ← ok_or (transport_from_wire transport_byte) Malformed;
    tee_byte ← ok_or (token !! TEE_OFFSET) Malformed;
    tee ← ok_or (tee_from_wire tee_byte) Malformed;
    measurement ← ok_or (slice_get token node_id_end measurement_end) Malformed;
    tls_spki_sha256 ← ok_or (slice_get token measurement_end tls_end) Malformed;
    _ ← ensure (length tls_spki_sha256 =? TLS_SPKI_SHA256_LEN)%nat Malformed;
    previous_hop_wire ← ok_or (slice_get token tls_end previous_hop_end) Malformed;
    previous_hop ← decode_previous_hop previous_hop_wire;
    next_hop_wire ← ok_or (slice_get token previous_hop_end next_hop_end) Malformed;
    next_hop ← decode_next_hop next_hop_wire;
    audience ← map_err (λ _, Malformed)
      (GrantAudience_new realm node_id role transport tee measurement tls_spki_sha256
                         previous_hop next_hop);
    signature_bytes ← ok_or (slice_get token signature_offset (length token)) Malformed;
    signature ← ok_or (sig_from_slice signature_bytes) Malformed;
    key_id ← read_array KEY_ID_LEN token KEY_ID_OFFSET;
    issued_at ← read_u64 token ISSUED_AT_OFFSET;
    expires_at ← read_u64 token EXPIRES_AT_OFFSET;
    nonce ← read_array NONCE_LEN token NONCE_OFFSET;
    Ok {| pg_key_id := key_id; pg_issued_at := issued_at; pg_expires_at := expires_at;
          pg_nonce := nonce; pg_audience := audience;
          pg_signed_payload := take signature_offset token; pg_signature := signature |}.

Definition verify_authentic (token : bytes) (v : GrantVerifier) (now : Z) :
    result GrantError ParsedGrant :=
  parsed ← parse token;
  vk ← ok_or (keys v !! pg_key_id parsed) UnknownKey;
  _ ← ensure (verify_strict vk (pg_signed_payload parsed) (pg_signature parsed)) BadSignature;
  lifetime ← ok_or (u64_checked_sub (pg_expires_at parsed) (pg_issued_at parsed)) InvalidLifetime;
  _ ← ensure ((1 <=? lifetime)%Z && (lifetime <=? MAX_GRANT_TTL_SECS)%Z) InvalidLifetime;
  _ ← ensure (negb (pg_expires_at parsed <=? now)%Z) Expired;
  _ ← ensure (negb (MAX_GRANT_CLOCK_SKEW_SECS
                    <? u64_saturating_sub (pg_issued_at parsed) now)%Z) NotYetValid;
  Ok parsed.

Definition verify (token : bytes) (v : GrantVerifier) (expected : GrantAudience) (now : Z) :
    result GrantError VerifiedGrant :=
  parsed ← verify_authentic token v now;
  _ ← ensure (bool_decide (pg_audience parsed = expected)) WrongAudience;
  Ok (into_verified parsed).

Definition verify_for_node (token : bytes) (v : GrantVerifier)
    (expected : GrantNodeIdentity) (now : Z) : result GrantError VerifiedGrant :=
  parsed ← verify_authentic token v now;
  _ ← ensure (bool_decide (node (pg_audience parsed) = expected)) WrongAudience;
  Ok (into_verified parsed).

End Operations.

(** ** Identifiers: the grammar the validator accepts *)

Definition identifier_ok (i : bytes) : Prop :=
  1 ≤ length i ≤ 64 ∧ Forall (λ b, is_inner b = true) i ∧
  (∀ b, head i = Some b → is_edge b = true) ∧ (∀ b, last i = Some b → is_edge b = true).

Lemma validate_named_identifier_ok name i u :
  validate_named_identifier name i = Ok u ↔ identifier_ok i.
Proof.
  unfold validate_named_identifier, identifier_ok, MAX_GRANT_IDENTIFIER_LEN. destruct u.
  destruct i as [|b i]; [cbn; naive_solver lia|].
  rewrite bool_decide_eq_false_2 by done. cbn [orb].
  destruct (Nat.ltb_spec 64 (length (b :: i))); [naive_solver lia|].
  cbn [head]. destruct (last (b :: i)) as [c|] eqn:E.
  2:{ by apply last_None in E. }
  rewrite <- forallb_Forall_true.
  destruct (is_edge b) eqn:E1, (is_edge c) eqn:E2, (forallb is_inner (b :: i)) eqn:E3;
    cbn [negb orb]; split; try done; cbn [length] in *.
  { intros _. repeat split; try lia; congruence. }
  all: intros (_ & HF & Hh & Hl); specialize (Hh _ eq_refl); specialize (Hl _ eq_refl);
    congruence.
Qed.

(** A rejected identifier is reported under the caller's field name. *)
Lemma validate_named_identifier_err name i e :
  validate_named_identifier name i = Err e → e = InvalidIdentifier name.
Proof.
  unfold validate_named_identifier. repeat case_match; congruence.
Qed.

Lemma is_edge_range b :
  is_edge b = true → (48 ≤ b2z b ≤ 57 ∨ 97 ≤ b2z b ≤ 122)%Z.
Proof.
  unfold is_edge, is_ascii_lowercase, is_ascii_digit. case_range; naive_solver lia.
Qed.

Lemma is_inner_ascii b : is_inner b = true → in_range 0 127 b = true.
Proof.
  unfold is_inner. intros H. apply in_range_iff.
  destruct (is_edge b) eqn:E; [apply is_edge_range in E; lia|]. cbn [orb] in H.
  repeat (apply orb_prop in H as [H|H]); apply bool_decide_eq_true in H; subst; by cbv.
Qed.

Lemma identifier_ok_utf8 i : identifier_ok i → is_utf8 i = true.
Proof.
  intros (_ & H & _). apply ascii_is_utf8. eapply Forall_impl; [exact H|].
  apply is_inner_ascii.
Qed.

(** ** Well-formed audiences: what the constructors and the field types guarantee *)

Record audience_ok (a : GrantAudience) : Prop := {
  ao_realm : identifier_ok (realm (node a));
  ao_node_id : identifier_ok (node_id (node a));
  ao_measurement : length (measurement (node a)) = MEASUREMENT_LEN;
  ao_tls : length (tls_spki_sha256 (node a)) = TLS_SPKI_SHA256_LEN;
  ao_port : ∀ s, next_hop a = Some s → u16 (sa_port s);
  ao_policy : hop_policy (role (node a)) (previous_hop a) (next_hop a) = true;
}.

Lemma GrantAudience_new_ok r n ro tr te m t prev next a :
  GrantAudience_new r n ro tr te m t prev next = Ok a ↔
  identifier_ok r ∧ identifier_ok n ∧ hop_policy ro prev next = true ∧
  a = {| node := {| realm := r; node_id := n; role := ro; transport := tr; tee := te;
                    measurement := m; tls_spki_sha256 := t |};
         previous_hop := prev; next_hop := next |}.
Proof.
  unfold GrantAudience_new, GrantNodeIdentity_new, from_node_identity.
  rewrite !bind_Ok. setoid_rewrite bind_Ok. setoid_rewrite bind_Ok. split.
  - intros (nd & (u1 & H1 & u2 & H2 & [= <-]) & H3).
    apply validate_named_identifier_ok in H1, H2. cbn in H3. case_match; naive_solver.
  - intros (H1 & H2 & H3 & ->). eexists. split.
    + exists tt. split; [by apply validate_named_identifier_ok|].
      exists tt. split; [by apply validate_named_identifier_ok|done].
    + cbn. by rewrite H3.
Qed.

(** ** Wire codecs of the small fields *)

Lemma role_wire r : role_from_wire (role_to_wire r) = Some r.
Proof. by destruct r. Qed.
Lemma role_wire_inv b r : role_from_wire b = Some r → role_to_wire r = b.
Proof. destruct b; try done; by intros [= <-]. Qed.
Lemma transport_wire t : transport_from_wire (transport_to_wire t) = Some t.
Proof. by destruct t. Qed.
Lemma transport_wire_inv b t : transport_from_wire b = Some t → transport_to_wire t = b.
Proof. destruct b; try done; by intros [= <-]. Qed.
Lemma tee_wire t : tee_from_wire (tee_to_wire t) = Some t.
Proof. by destruct t. Qed.
Lemma tee_wire_inv b t : tee_from_wire b = Some t → tee_to_wire t = b.
Proof. destruct b; try done; by intros [= <-]. Qed.

Lemma length_encode_previous_hop p : length (encode_previous_hop p) = PREVIOUS_HOP_LEN.
Proof. by destruct p as [[]|]. Qed.

Lemma length_encode_next_hop s : length (encode_next_hop s) = NEXT_HOP_LEN.
Proof. by destruct s as [[[] ?]|]. Qed.

Lemma decode_encode_previous_hop p : decode_previous_hop (encode_previous_hop p) = Ok p.
Proof. destruct p as [[a b c d]|]; [|done]. unfold decode_previous_hop. by rewrite decide_False. Qed.

Lemma encode_decode_previous_hop w p :
  decode_previous_hop w = Ok p → encode_previous_hop p = w.
Proof.
  unfold decode_previous_hop. case_decide as E; [by intros [= <-]|].
  destruct w as [|t [|a [|b [|c [|d [|]]]]]]; try done.
  case_decide; [|done]. intros [= <-]. by subst.
Qed.

Lemma be_value_2_range a b : u16 (be_value [a; b]).
Proof.
  pose proof (be_value_range [a; b]) as H. cbn [length] in H.
  change (2 ^ (8 * Z.of_nat 2))%Z with 65536%Z in H. unfold_int. lia.
Qed.

Lemma decode_encode_next_hop s :
  (∀ e, s = Some e → u16 (sa_port e) ∧ sa_port e ≠ 0%Z) →
  decode_next_hop (encode_next_hop s) = Ok s.
Proof.
  destruct s as [[[a b c d] port]|]; [|done]. intros H.
  destruct (H _ eq_refl) as [Hu Hz]; cbn in Hu, Hz.
  unfold decode_next_hop. rewrite decide_False by done.
  cbn [encode_next_hop sa_ip octets app sa_port].
  pose proof (be_value_be_bytes_small 2 port) as Hb.
  change (2 ^ (8 * Z.of_nat 2))%Z with 65536%Z in Hb.
  change (be_bytes 2 port) with [z2b (Z.shiftr port (8 * 1)); z2b (Z.shiftr port (8 * 0))] in *.
  cbv beta iota. rewrite decide_True by done. cbv zeta. rewrite Hb by (unfold_int; lia).
  by rewrite (proj2 (Z.eqb_neq port 0)).
Qed.

Lemma encode_decode_next_hop w s :
  decode_next_hop w = Ok s →
  encode_next_hop s = w ∧ ∀ e, s = Some e → u16 (sa_port e) ∧ sa_port e ≠ 0%Z.
Proof.
  unfold decode_next_hop. case_decide as E; [by intros [= <-]|].
  destruct w as [|t [|a [|b [|c [|d [|hi [|lo [|]]]]]]]]; try done.
  case_decide; [|done]. destruct (Z.eqb_spec (be_value [hi; lo]) 0); [done|].
  intros Hs.
  assert (s = Some {| sa_ip := Ipv4 a b c d; sa_port := be_value [hi; lo] |}) as -> by congruence.
  subst t. split.
  - cbn [encode_next_hop sa_ip octets app sa_port].
    by rewrite (be_bytes_be_value_len 2 [hi; lo]).
  - intros e' [= <-]. cbn [sa_port]. split; [apply be_value_2_range|done].
Qed.

(** ** The token format is canonical *)

Section Format.
Context `{Hsha : Sha256, Hed : Ed25519, Hlaws : !Ed25519Laws}.

(** What the field types and the audience constructor guarantee of a grant. *)
Record fields_ok (key_id : bytes) (issued_at expires_at : Z) (nonce : bytes)
    (a : GrantAudience) : Prop := {
  fo_key_id : length key_id = KEY_ID_LEN;
  fo_issued : u64 issued_at;
  fo_expires : u64 expires_at;
  fo_nonce : length nonce = NONCE_LEN;
  fo_audience : audience_ok a;
}.

Ltac unfold_layout :=
  unfold KEY_ID_LEN, NONCE_LEN, MEASUREMENT_LEN, TLS_SPKI_SHA256_LEN, PREVIOUS_HOP_LEN,
    NEXT_HOP_LEN, SIGNATURE_LEN, KEY_ID_OFFSET, ISSUED_AT_OFFSET, EXPIRES_AT_OFFSET,
    NONCE_OFFSET, ROLE_OFFSET, TRANSPORT_OFFSET, TEE_OFFSET, REALM_LEN_OFFSET,
    NODE_ID_LEN_OFFSET, IDENTIFIERS_OFFSET, MIN_TOKEN_LEN, MAX_GRANT_TOKEN_LEN,
    MAX_GRANT_IDENTIFIER_LEN in *.

Ltac len :=
  rewrite ?length_app, ?length_be_bytes, ?length_encode_previous_hop,
    ?length_encode_next_hop;
  unfold_layout; change (length MAGIC) with 4 in *; cbn [length]; lia.

(** Read the chunk of a right-nested concatenation that starts at the offset. *)
Ltac walk_slice :=
  repeat rewrite slice_get_skip by len;
  first [apply slice_get_here | apply slice_get_end]; len.

Lemma lookup_here {A} (b : A) l i : i = 0 → ([b] ++ l) !! i = Some b.
Proof. by intros ->. Qed.

Ltac walk_lookup := repeat rewrite lookup_app_r by len; apply lookup_here; len.

Lemma length_payload kid iss exp nonce a :
  fields_ok kid iss exp nonce a →
  length (payload_bytes kid iss exp nonce a)
  = IDENTIFIERS_OFFSET + length (realm (node a)) + length (node_id (node a)) + 92.
Proof.
  intros [? ? ? ? [? ? ? ? _ _]]. unfold payload_bytes. len.
Qed.

Lemma read_array_Some N token off s :
  (Z.of_nat off + Z.of_nat N ≤ U64_MAX)%Z →
  slice_get token off (off + N) = Some s → read_array N token off = Ok s.
Proof.
  intros Hle Hs. unfold read_array. rewrite usize_checked_add_small by done. cbn.
  rewrite Hs. cbn. apply slice_get_length in Hs. rewrite decide_True by lia. done.
Qed.

Lemma read_array_inv N token off s :
  read_array N token off = Ok s → slice_get token off (off + N) = Some s ∧ length s = N.
Proof.
  unfold read_array. intros H. inv_ok H. case_decide; [|done].
  match goal with K : usize_checked_add _ _ = Some _ |- _ =>
    unfold usize_checked_add in K; case_match; [|done]; injection K as <- end.
  naive_solver.
Qed.

Lemma read_u64_payload token off z :
  u64 z → (Z.of_nat off ≤ 1000)%Z →
  slice_get token off (off + 8) = Some (be_bytes 8 z) → read_u64 token off = Ok z.
Proof.
  intros Hz Ho Hs. unfold read_u64. erewrite read_array_Some; [|unfold_int; lia|done].
  cbn [mbind result_bind]. f_equal. apply be_value_be_bytes_small.
  change (2 ^ (8 * Z.of_nat 8))%Z with 18446744073709551616%Z. unfold_int. lia.
Qed.

Lemma read_u16_payload token off z :
  (0 ≤ z ≤ 64)%Z → (Z.of_nat off ≤ 1000)%Z →
  slice_get token off (off + 2) = Some (be_bytes 2 z) → read_u16 token off = Ok z.
Proof.
  intros Hz Ho Hs. unfold read_u16. erewrite read_array_Some; [|unfold_int; lia|done].
  cbn [mbind result_bind]. f_equal. apply be_value_be_bytes_small.
  change (2 ^ (8 * Z.of_nat 2))%Z with 65536%Z. lia.
Qed.

(** A canonical token, and the same bytes as one flat concatenation. *)
Definition token_of kid iss exp nonce a (sg : Signature) : bytes :=
  payload_bytes kid iss exp nonce a ++ sig_to_bytes sg.

Lemma token_flat kid iss exp nonce a sg :
  token_of kid iss exp nonce a sg =
  MAGIC ++ kid ++ be_bytes 8 iss ++ be_bytes 8 exp ++ nonce ++
  [role_to_wire (role (node a))] ++ [transport_to_wire (transport (node a))] ++
  [tee_to_wire (tee (node a))] ++
  be_bytes 2 (Z.of_nat (length (realm (node a)))) ++
  be_bytes 2 (Z.of_nat (length (node_id (node a)))) ++
  realm (node a) ++ node_id (node a) ++ measurement (node a) ++ tls_spki_sha256 (node a) ++
  encode_previous_hop (previous_hop a) ++ encode_next_hop (next_hop a) ++ sig_to_bytes sg.
Proof. unfold token_of, payload_bytes. by rewrite <- !app_assoc. Qed.

(** The fixed-length header, up to the identifiers. *)
Definition header_of (kid : bytes) (iss exp : Z) (nonce : bytes) (a : GrantAudience) : bytes :=
  MAGIC ++ kid ++ be_bytes 8 iss ++ be_bytes 8 exp ++ nonce ++
  [role_to_wire (role (node a))] ++ [transport_to_wire (transport (node a))] ++
  [tee_to_wire (tee (node a))] ++
  be_bytes 2 (Z.of_nat (length (realm (node a)))) ++
  be_bytes 2 (Z.of_nat (length (node_id (node a)))).

Lemma token_header kid iss exp nonce a sg :
  token_of kid iss exp nonce a sg =
  header_of kid iss exp nonce a ++
  realm (node a) ++ node_id (node a) ++ measurement (node a) ++ tls_spki_sha256 (node a) ++
  encode_previous_hop (previous_hop a) ++ encode_next_hop (next_hop a) ++ sig_to_bytes sg.
Proof. rewrite token_flat. unfold header_of. by rewrite <- !app_assoc. Qed.

Lemma length_header kid iss exp nonce a :
  fields_ok kid iss exp nonce a →
  length (header_of kid iss exp nonce a) = IDENTIFIERS_OFFSET.
Proof. intros [? ? ? ? _]. unfold header_of. len. Qed.

Section Reads.
Context (kid : bytes) (iss exp : Z) (nonce : bytes) (a : GrantAudience) (sg : Signature).
Context (Hf : fields_ok kid iss exp nonce a).
Let n := node a.
Let token := token_of kid iss exp nonce a sg.
Let r := length (realm n).
Let i := length (node_id n).

Ltac read :=
  destruct Hf as [? ? ? ? [? ? ? ? ? ?]];
  pose proof (sig_to_bytes_length sg); subst n token r i;
  rewrite token_flat; first [walk_slice | walk_lookup].

Lemma token_length : length token = IDENTIFIERS_OFFSET + r + i + 92 + SIGNATURE_LEN.
Proof.
  subst token. unfold token_of. rewrite length_app, (length_payload _ _ _ _ _ Hf).
  by rewrite sig_to_bytes_length.
Qed.

Lemma token_not_legacy : starts_with LEGACY_MAGIC token = false.
Proof. apply bool_decide_eq_false. subst token. rewrite token_flat. vm_compute. congruence. Qed.

Lemma token_magic : slice_get token 0 (length MAGIC) = Some MAGIC.
Proof. read. Qed.
Lemma token_realm_len : read_u16 token REALM_LEN_OFFSET = Ok (Z.of_nat r).
Proof.
  pose proof (proj1 (ao_realm _ (fo_audience _ _ _ _ _ Hf))).
  apply read_u16_payload; [subst r n; lia | unfold_layout; lia | read].
Qed.
Lemma token_node_id_len : read_u16 token NODE_ID_LEN_OFFSET = Ok (Z.of_nat i).
Proof.
  pose proof (proj1 (ao_node_id _ (fo_audience _ _ _ _ _ Hf))).
  apply read_u16_payload; [subst i n; lia | unfold_layout; lia | read].
Qed.
Lemma token_role : token !! ROLE_OFFSET = Some (role_to_wire (role n)).
Proof. read. Qed.
Lemma token_transport : token !! TRANSPORT_OFFSET = Some (transport_to_wire (transport n)).
Proof. read. Qed.
Lemma token_tee : token !! TEE_OFFSET = Some (tee_to_wire (tee n)).
Proof. read. Qed.
Lemma token_key_id : read_array KEY_ID_LEN token KEY_ID_OFFSET = Ok kid.
Proof. apply read_array_Some; [unfold_layout; unfold_int; lia | read]. Qed.
Lemma token_nonce : read_array NONCE_LEN token NONCE_OFFSET = Ok nonce.
Proof. apply read_array_Some; [unfold_layout; unfold_int; lia | read]. Qed.
Lemma token_issued : read_u64 token ISSUED_AT_OFFSET = Ok iss.
Proof. apply read_u64_payload; [apply Hf | unfold_layout; lia | read]. Qed.
Lemma token_expires : read_u64 token EXPIRES_AT_OFFSET = Ok exp.
Proof. apply read_u64_payload; [apply Hf | unfold_layout; lia | read]. Qed.

(** The variable-length tail, in the order [parse] slices it. *)
Lemma token_tail :
  let e1 := IDENTIFIERS_OFFSET + r in let e2 := e1 + i in
  let e3 := e2 + MEASUREMENT_LEN in let e4 := e3 + TLS_SPKI_SHA256_LEN in
  let e5 := e4 + PREVIOUS_HOP_LEN in let e6 := e5 + NEXT_HOP_LEN in
  slice_get token IDENTIFIERS_OFFSET e1 = Some (realm n) ∧
  slice_get token e1 e2 = Some (node_id n) ∧
  slice_get token e2 e3 = Some (measurement n) ∧
  slice_get token e3 e4 = Some (tls_spki_sha256 n) ∧
  slice_get token e4 e5 = Some (encode_previous_hop (previous_hop a)) ∧
  slice_get token e5 e6 = Some (encode_next_hop (next_hop a)) ∧
  slice_get token e6 (length token) = Some (sig_to_bytes sg).
Proof.
  pose proof (length_header _ _ _ _ _ Hf). destruct Hf as [_ _ _ _ [_ _ ? ? _ _]].
  pose proof (sig_to_bytes_length sg).
  cbv zeta. rewrite token_length. subst n token r i. rewrite token_header.
  repeat split; walk_slice.
Qed.
End Reads.

Lemma hop_policy_port r p s :
  hop_policy r p (Some s) = true → sa_port s ≠ 0%Z.
Proof. destruct r, p; cbn; intros H; try done; by apply negb_true_iff, Z.eqb_neq in H. Qed.

(** Every canonical encoding of well-formed fields parses to those fields. *)
Lemma parse_payload kid iss exp nonce a (sg : Signature) :
  fields_ok kid iss exp nonce a →
  parse (token_of kid iss exp nonce a sg) =
  Ok {| pg_key_id := kid; pg_issued_at := iss; pg_expires_at := exp; pg_nonce := nonce;
        pg_audience := a; pg_signed_payload := payload_bytes kid iss exp nonce a;
        pg_signature := sg |}.
Proof.
  intros Hf. pose proof (token_length _ _ _ _ _ sg Hf) as Hlen.
  pose proof (token_tail _ _ _ _ _ sg Hf) as (H1 & H2 & H3 & H4 & H5 & H6 & H7).
  pose proof (fo_audience _ _ _ _ _ Hf) as [Hre Hni Hme Htl Hpo Hpol].
  pose proof (proj1 Hre). pose proof (proj1 Hni).
  unfold parse. rewrite token_not_legacy, token_realm_len, token_node_id_len by done.
  rewrite (proj2 (Nat.ltb_ge _ _)) by len.
  rewrite bool_decide_eq_true_2 by (by apply token_magic). cbn [negb].
  rewrite (proj2 (Nat.leb_le _ _)) by len. ok_step.
  rewrite !Nat2Z.id.
  rewrite !(proj2 (Nat.eqb_neq _ 0)), !(proj2 (Nat.ltb_ge _ _)) by len.
  cbn [orb negb]; ok_step.
  do 6 (rewrite usize_checked_add_small by (unfold_layout; unfold_int; lia);
        ok_step).
  rewrite (proj2 (Nat.eqb_eq _ _)) by len. ok_step.
  rewrite token_role, token_transport, token_tee, token_key_id, token_nonce, token_issued,
    token_expires, H1, H2, H3, H4, H5, H6 by done.
  replace (length (token_of kid iss exp nonce a sg) - SIGNATURE_LEN)
    with (IDENTIFIERS_OFFSET + length (realm (node a)) + length (node_id (node a))
          + MEASUREMENT_LEN + TLS_SPKI_SHA256_LEN + PREVIOUS_HOP_LEN + NEXT_HOP_LEN) by len.
  ok_step.
  rewrite identifier_ok_utf8 by done. ok_step. rewrite identifier_ok_utf8 by done. ok_step.
  rewrite role_wire. ok_step. rewrite transport_wire. ok_step. rewrite tee_wire. ok_step.
  rewrite (proj2 (Nat.eqb_eq _ _) Htl). ok_step. rewrite decode_encode_previous_hop. ok_step.
  rewrite decode_encode_next_hop
    by (intros e He; split; [by apply Hpo | rewrite He in Hpol; by eapply hop_policy_port]).
  ok_step.
  rewrite (proj2 (GrantAudience_new_ok _ _ _ _ _ _ _ _ _ a)) by (destruct a as [[] ? ?]; done).
  cbn [map_err]; ok_step.
  rewrite H7. ok_step. rewrite sig_from_to_bytes.
  ok_step. f_equal. f_equal.
  apply take_app_length'. rewrite length_payload by done. len.
Qed.

(** The header fields rebuild the first [IDENTIFIERS_OFFSET] bytes. *)
Lemma take_lookup {A} (l : list A) i b : l !! i = Some b → take (S i) l = take i l ++ [b].
Proof. intros. by apply take_S_r. Qed.

Lemma read_u64_inv token off z :
  read_u64 token off = Ok z → u64 z ∧ slice_get token off (off + 8) = Some (be_bytes 8 z).
Proof.
  unfold read_u64. intros H. inv_ok H. injection H as <-.
  match goal with K : read_array _ _ _ = Ok _ |- _ => apply read_array_inv in K as [K L] end.
  pose proof (be_value_range x) as Hr. rewrite L in Hr.
  change (2 ^ (8 * Z.of_nat 8))%Z with 18446744073709551616%Z in Hr.
  split; [unfold_int; lia|]. by rewrite be_bytes_be_value_len.
Qed.

Lemma read_u16_inv token off z :
  read_u16 token off = Ok z → u16 z ∧ slice_get token off (off + 2) = Some (be_bytes 2 z).
Proof.
  unfold read_u16. intros H. inv_ok H. injection H as <-.
  match goal with K : read_array _ _ _ = Ok _ |- _ => apply read_array_inv in K as [K L] end.
  pose proof (be_value_range x) as Hr. rewrite L in Hr.
  change (2 ^ (8 * Z.of_nat 2))%Z with 65536%Z in Hr.
  split; [unfold_int; lia|]. by rewrite be_bytes_be_value_len.
Qed.

Lemma usize_checked_add_Some a b c : usize_checked_add a b = Some c → c = a + b.
Proof. unfold usize_checked_add. case_match; congruence. Qed.

Lemma take_header token kid iss exp nonce rb tb eb rl nl :
  slice_get token 0 (length MAGIC) = Some MAGIC →
  slice_get token KEY_ID_OFFSET (KEY_ID_OFFSET + KEY_ID_LEN) = Some kid →
  slice_get token ISSUED_AT_OFFSET (ISSUED_AT_OFFSET + 8) = Some (be_bytes 8 iss) →
  slice_get token EXPIRES_AT_OFFSET (EXPIRES_AT_OFFSET + 8) = Some (be_bytes 8 exp) →
  slice_get token NONCE_OFFSET (NONCE_OFFSET + NONCE_LEN) = Some nonce →
  token !! ROLE_OFFSET = Some rb → token !! TRANSPORT_OFFSET = Some tb →
  token !! TEE_OFFSET = Some eb →
  slice_get token REALM_LEN_OFFSET (REALM_LEN_OFFSET + 2) = Some (be_bytes 2 rl) →
  slice_get token NODE_ID_LEN_OFFSET (NODE_ID_LEN_OFFSET + 2) = Some (be_bytes 2 nl) →
  take IDENTIFIERS_OFFSET token =
  MAGIC ++ kid ++ be_bytes 8 iss ++ be_bytes 8 exp ++ nonce ++ [rb] ++ [tb] ++ [eb] ++
  be_bytes 2 rl ++ be_bytes 2 nl.
Proof.
  intros H0 H1 H2 H3 H4 H5 H6 H7 H8 H9.
  apply take_slice in H0, H1, H2, H3, H4, H8, H9. apply take_lookup in H5, H6, H7.
  change (take IDENTIFIERS_OFFSET token) with (take (NODE_ID_LEN_OFFSET + 2) token).
  rewrite H9. change NODE_ID_LEN_OFFSET with (REALM_LEN_OFFSET + 2).
  rewrite H8. change REALM_LEN_OFFSET with (S TEE_OFFSET).
  rewrite H7. change TEE_OFFSET with (S TRANSPORT_OFFSET).
  rewrite H6. change TRANSPORT_OFFSET with (S ROLE_OFFSET).
  rewrite H5. change ROLE_OFFSET with (NONCE_OFFSET + NONCE_LEN).
  rewrite H4. change NONCE_OFFSET with (EXPIRES_AT_OFFSET + 8).
  rewrite H3. change EXPIRES_AT_OFFSET with (ISSUED_AT_OFFSET + 8).
  rewrite H2. change ISSUED_AT_OFFSET with (KEY_ID_OFFSET + KEY_ID_LEN).
  rewrite H1. change KEY_ID_OFFSET with (length MAGIC).
  rewrite H0. cbn [take app]. by rewrite <- !app_assoc.
Qed.

(** The tail slices, in order, after the header. *)
Lemma take_tail token e0 e1 e2 e3 e4 e5 e6 (s1 s2 s3 s4 s5 s6 : bytes) :
  slice_get token e0 e1 = Some s1 → slice_get token e1 e2 = Some s2 →
  slice_get token e2 e3 = Some s3 → slice_get token e3 e4 = Some s4 →
  slice_get token e4 e5 = Some s5 → slice_get token e5 e6 = Some s6 →
  take e6 token = take e0 token ++ s1 ++ s2 ++ s3 ++ s4 ++ s5 ++ s6.
Proof.
  intros H1%take_slice H2%take_slice H3%take_slice H4%take_slice H5%take_slice H6%take_slice.
  rewrite H6, H5, H4, H3, H2, H1. by rewrite <- !app_assoc.
Qed.

Lemma slice_len_field (s : bytes) token a (z : Z) :
  slice_get token a (a + Z.to_nat z) = Some s → u16 z → Z.of_nat (length s) = z.
Proof. intros Hs%slice_get_length Hz. unfold_int. lia. Qed.

(** Whatever parses is the canonical encoding of what it parses to. *)
Lemma parse_canonical token p :
  parse token = Ok p →
  fields_ok (pg_key_id p) (pg_issued_at p) (pg_expires_at p) (pg_nonce p) (pg_audience p) ∧
  pg_signed_payload p = payload_bytes (pg_key_id p) (pg_issued_at p) (pg_expires_at p)
                                      (pg_nonce p) (pg_audience p) ∧
  token = token_of (pg_key_id p) (pg_issued_at p) (pg_expires_at p) (pg_nonce p)
                   (pg_audience p) (pg_signature p).
Proof.
  unfold parse. case_match; [done|]. case_match; [done|]. case_match; [done|].
  intros Hp. inv_ok Hp. reflect_bools. injection Hp as <-.
  cbn [pg_key_id pg_issued_at pg_expires_at pg_nonce pg_audience pg_signed_payload pg_signature].
  rename select (GrantAudience_new _ _ _ _ _ _ _ _ _ = Ok _) into Ha.
  apply GrantAudience_new_ok in Ha as (Hri & Hni & Hpol & ->).
  rename select (decode_previous_hop _ = _) into Hph.
  rename select (decode_next_hop _ = _) into Hnh.
  apply encode_decode_previous_hop in Hph. apply encode_decode_next_hop in Hnh as [Hnh Hport].
  case_match; [|done].
  repeat match goal with
    | K : usize_checked_add _ _ = Some _ |- _ => apply usize_checked_add_Some in K
    | K : read_u16 _ _ = Ok _ |- _ => apply read_u16_inv in K as [? K]
    | K : read_u64 _ _ = Ok _ |- _ => apply read_u64_inv in K as [? K]
    | K : read_array _ _ _ = Ok _ |- _ => apply read_array_inv in K as [K ?]
    | K : role_from_wire _ = Some _ |- _ => apply role_wire_inv in K
    | K : transport_from_wire _ = Some _ |- _ => apply transport_wire_inv in K
    | K : tee_from_wire _ = Some _ |- _ => apply tee_wire_inv in K
    | K : sig_from_slice _ = Some _ |- _ => apply sig_to_from_slice in K
    end.
  simplify_eq.
  rename select (slice_get _ IDENTIFIERS_OFFSET _ = Some _) into Hr.
  rename select (slice_get _ (IDENTIFIERS_OFFSET + _) _ = Some _) into Hn.
  pose proof (slice_len_field _ _ _ _ Hr ltac:(eassumption)) as Hrl.
  pose proof (slice_len_field _ _ _ _ Hn ltac:(eassumption)) as Hnl.
  rename select (slice_get _ _ (length token) = Some _) into Hsig.
  rename select (slice_get _ _ (_ + MEASUREMENT_LEN) = Some _) into Hme.
  rename select (slice_get _ _ (_ + TLS_SPKI_SHA256_LEN) = Some _) into Htl.
  pose proof (take_tail token _ _ _ _ _ _ _ _ _ _ _ _ _ Hr Hn Hme Htl
                ltac:(eassumption) ltac:(eassumption)) as Htake.
  erewrite take_header in Htake by eassumption.
  subst x0 x1.
  apply slice_get_to_end in Hsig. split; [|split].
  - apply slice_get_length in Hme. split; [done..|].
    split; cbn; try done; [lia|]. intros e He. by apply Hport.
  - rewrite Htake. unfold payload_bytes. cbn [node realm node_id]. by rewrite <- !app_assoc.
  - erewrite <- (take_drop _ token) at 1. rewrite <- Hsig, Htake.
    rewrite token_flat. cbn [node realm node_id]. by rewrite <- !app_assoc.
Qed.

End Format.

#[global] Arguments payload_bytes : simpl never.
#[global] Arguments token_of : simpl never.

(** ** Clocks

    [SystemTime::now().duration_since(UNIX_EPOCH)] is [None] before 1970. *)
Definition now_unix_secs (clock : option Z) : Z := default 0%Z clock.
Definition now_unix_secs_for_expiry (clock : option Z) : Z := default U64_MAX clock.

(** ** Specification and theorems *)

Section Theorems.
Context `{Hsha : Sha256, HshaL : !Sha256Laws, Hed : Ed25519, Hlaws : !Ed25519Laws}.

(** What a node may rely on once a token is accepted at [now]: a trusted key signed the
    canonical encoding of exactly the returned fields, and the clock is inside the
    grant's lifetime. *)
Record authorizes (v : GrantVerifier) (token : bytes) (now : Z) (g : VerifiedGrant) : Prop := {
  au_fields : fields_ok (vg_key_id g) (vg_issued_at g) (vg_expires_at g) (vg_nonce g)
                        (vg_audience g);
  au_signed : ∃ vk sg,
    keys v !! vg_key_id g = Some vk ∧
    token = token_of (vg_key_id g) (vg_issued_at g) (vg_expires_at g) (vg_nonce g)
                     (vg_audience g) sg ∧
    verify_strict vk (payload_bytes (vg_key_id g) (vg_issued_at g) (vg_expires_at g)
                                    (vg_nonce g) (vg_audience g)) sg = true;
  au_lifetime : (1 ≤ vg_expires_at g - vg_issued_at g ≤ MAX_GRANT_TTL_SECS)%Z;
  au_not_expired : (now < vg_expires_at g)%Z;
  au_not_early : (vg_issued_at g ≤ now + MAX_GRANT_CLOCK_SKEW_SECS)%Z;
}.

Lemma verify_authentic_iff token v now p :
  verify_authentic token v now = Ok p ↔
  parse token = Ok p ∧ authorizes v token now (into_verified p).
Proof.
  unfold verify_authentic. split.
  - intros H. inv_ok H. injection H as ->. split; [done|].
    rename select (parse token = Ok p) into Hp.
    apply parse_canonical in Hp as (Hf & Hs & Ht).
    rename select (u64_checked_sub _ _ = Some _) into Hl.
    apply u64_checked_sub_Some in Hl as [-> Hl]. reflect_bools.
    unfold u64_saturating_sub in *. rewrite Hs in *.
    split; cbn; try done; try lia. eexists _, _. done.
  - intros [Hp [Hf (vk & sg & Hk & Ht & Hv) Hl He Hn]]. cbn in *.
    pose proof Hp as (_ & Hs & Ht')%parse_canonical.
    assert (sg = pg_signature p) as ->.
    { rewrite Ht' in Ht. apply app_inv_head in Ht.
      apply (f_equal sig_from_slice) in Ht. rewrite !sig_from_to_bytes in Ht. congruence. }
    rewrite Hp, Ok_bind, Hk, ok_or_Some, Ok_bind, Hs, Hv, ensure_true, Ok_bind.
    rewrite (proj2 (u64_checked_sub_Some _ _ _)) by (split; [done|lia]).
    rewrite ok_or_Some, Ok_bind.
    rewrite (proj2 (Z.leb_le 1 _)), (proj2 (Z.leb_le _ MAX_GRANT_TTL_SECS)) by lia.
    cbn [andb]. ok_step.
    rewrite (proj2 (Z.leb_gt _ _)) by lia. cbn [negb]. ok_step.
    unfold u64_saturating_sub, MAX_GRANT_CLOCK_SKEW_SECS in *.
    rewrite (proj2 (Z.ltb_ge _ _)) by lia. done.
Qed.

Lemma authorizes_parse v token now g :
  authorizes v token now g → ∃ p, parse token = Ok p ∧ into_verified p = g.
Proof.
  intros [Hf (vk & sg & _ & -> & _) _ _ _]. rewrite parse_payload by done.
  eexists. split; [done|]. by destruct g.
Qed.

Lemma verify_for_node_spec token v n now g :
  verify_for_node token v n now = Ok g ↔
  authorizes v token now g ∧ node (vg_audience g) = n.
Proof.
  unfold verify_for_node. split.
  - intros H. inv_ok H. injection H as <-. reflect_bools.
    rename select (verify_authentic _ _ _ = _) into Ha. by apply verify_authentic_iff in Ha as [_ Ha].
  - intros (Ha & Hn). destruct (authorizes_parse _ _ _ _ Ha) as (p & Hp & <-).
    rewrite (proj2 (verify_authentic_iff _ _ _ p)), Ok_bind by done.
    by rewrite bool_decide_eq_true_2.
Qed.

Lemma verify_spec token v a now g :
  verify token v a now = Ok g ↔ authorizes v token now g ∧ vg_audience g = a.
Proof.
  unfold verify. split.
  - intros H. inv_ok H. injection H as <-. reflect_bools.
    rename select (verify_authentic _ _ _ = _) into Ha. by apply verify_authentic_iff in Ha as [_ Ha].
  - intros (Ha & Hn). destruct (authorizes_parse _ _ _ _ Ha) as (p & Hp & <-).
    rewrite (proj2 (verify_authentic_iff _ _ _ p)), Ok_bind by done.
    by rewrite bool_decide_eq_true_2.
Qed.

Lemma mint_payload_len_Some r n :
  length r ≤ 64 → length n ≤ 64 →
  mint_payload_len r n = Some (IDENTIFIERS_OFFSET + length r + length n + 92).
Proof.
  intros. unfold mint_payload_len.
  do 6 (rewrite usize_checked_add_small
          by (unfold IDENTIFIERS_OFFSET, MEASUREMENT_LEN, TLS_SPKI_SHA256_LEN,
                PREVIOUS_HOP_LEN, NEXT_HOP_LEN; unfold_int; lia);
        rewrite ?Some_bind).
  f_equal. unfold MEASUREMENT_LEN, TLS_SPKI_SHA256_LEN, PREVIOUS_HOP_LEN, NEXT_HOP_LEN. lia.
Qed.

(** The minted grant, on the one successful branch of [mint]. *)
Lemma mint_ok_iff k a nonce ttl now g :
  mint k a nonce ttl now = Ok g ↔
  identifier_ok (realm (node a)) ∧ identifier_ok (node_id (node a)) ∧
  subsec_nanos ttl = 0%Z ∧ (1 ≤ as_secs ttl ≤ MAX_GRANT_TTL_SECS)%Z ∧
  (now + as_secs ttl ≤ U64_MAX)%Z ∧
  g = {| g_token := token_of (sk_key_id k) now (now + as_secs ttl) nonce a
                      (ed_sign (signing_key k)
                         (payload_bytes (sk_key_id k) now (now + as_secs ttl) nonce a));
         g_nonce := nonce |}.
Proof.
  unfold mint. split.
  - intros H. inv_ok H. injection H as <-. reflect_bools.
    repeat match goal with
      | K : validate_named_identifier _ _ = Ok _ |- _ =>
          apply validate_named_identifier_ok in K
      | K : u64_checked_add _ _ = Some _ |- _ => apply u64_checked_add_Some in K as [-> ?]
      end.
    split_and!; try done; lia.
  - intros (Hr & Hn & Hns & Ht & Ho & ->).
    pose proof (proj1 Hr). pose proof (proj1 Hn).
    rewrite (proj2 (validate_named_identifier_ok _ _ tt) Hr), Ok_bind.
    rewrite (proj2 (validate_named_identifier_ok _ _ tt) Hn), Ok_bind.
    rewrite (proj2 (Z.eqb_eq _ _) Hns), !(proj2 (Z.leb_le _ _)) by lia. cbn [andb]. ok_step.
    rewrite (proj2 (u64_checked_add_Some _ _ _)) by done. ok_step.
    unfold u16_try_from. rewrite !(proj2 (Z.leb_le _ _)) by (unfold_int; lia). ok_step.
    rewrite mint_payload_len_Some by lia. ok_step. done.
Qed.

Lemma sk_key_id_length k : length (sk_key_id k) = KEY_ID_LEN.
Proof. apply sha256_length. Qed.

(** The outcome of presenting a minted grant to a node, at any time. *)
Definition minted_outcome (g : VerifiedGrant) (n : GrantNodeIdentity) (now : Z) :
    result GrantError VerifiedGrant :=
  if (vg_expires_at g <=? now)%Z then Err Expired
  else if (MAX_GRANT_CLOCK_SKEW_SECS <? vg_issued_at g - now)%Z then Err NotYetValid
  else if decide (node (vg_audience g) = n) then Ok g else Err WrongAudience.

(** C32.  Verification is sound and complete against the specification: a node accepts a
    token, and returns [g], exactly when a key it trusts signed the canonical encoding of
    [g]'s fields, the lifetime is one to 600 seconds, the clock is before the expiry and at
    most 30 seconds before issuance, and the audience is the expected one (the whole
    audience for [verify], every stable node field for [verify_for_node]). *)
Theorem verify_refines token v now g :
  (∀ a, verify token v a now = Ok g ↔ authorizes v token now g ∧ vg_audience g = a) ∧
  (∀ n, verify_for_node token v n now = Ok g ↔
        authorizes v token now g ∧ node (vg_audience g) = n).
Proof. split; intros; [apply verify_spec | apply verify_for_node_spec]. Qed.

(** The wire format is canonical: [parse] accepts exactly the encodings of
    well-formed fields followed by a signature, and returns those fields, so a grant has
    one byte representation and nothing in a token is left unbound. *)
Theorem parse_exactly_canonical token p :
  parse token = Ok p ↔
  fields_ok (pg_key_id p) (pg_issued_at p) (pg_expires_at p) (pg_nonce p) (pg_audience p) ∧
  pg_signed_payload p = payload_bytes (pg_key_id p) (pg_issued_at p) (pg_expires_at p)
                                      (pg_nonce p) (pg_audience p) ∧
  token = token_of (pg_key_id p) (pg_issued_at p) (pg_expires_at p) (pg_nonce p)
                   (pg_audience p) (pg_signature p).
Proof.
  split; [apply parse_canonical|]. intros (Hf & Hs & ->). rewrite parse_payload by done.
  rewrite <- Hs. by destruct p.
Qed.

Lemma mint_outcome k a nonce ttl now g v n now' :
  mint k a nonce ttl now = Ok g → audience_ok a → length nonce = NONCE_LEN → u64 now →
  keys v !! sk_key_id k = Some (verifying_key (signing_key k)) →
  vk_is_weak (verifying_key (signing_key k)) = false → u64 now' →
  verify_for_node (g_token g) v n now' =
  minted_outcome {| vg_key_id := sk_key_id k; vg_issued_at := now;
                    vg_expires_at := now + as_secs ttl; vg_nonce := nonce;
                    vg_audience := a |} n now'.
Proof.
  intros (_ & _ & _ & Ht & Ho & ->)%mint_ok_iff Ha Hn Hnow Hk Hw Hnow'.
  set (kid := sk_key_id k) in *. set (exp := (now + as_secs ttl)%Z) in *.
  assert (Hf : fields_ok kid now exp nonce a).
  { split; try done; [apply sk_key_id_length|]. subst exp. unfold_int. lia. }
  unfold verify_for_node, verify_authentic, minted_outcome. cbn [g_token].
  rewrite parse_payload by done. rewrite Ok_bind.
  cbn [pg_key_id pg_signed_payload pg_signature pg_expires_at pg_issued_at pg_audience
       vg_expires_at vg_issued_at vg_audience].
  rewrite Hk, ok_or_Some, Ok_bind, verify_strict_sign, ensure_true, Ok_bind by done.
  rewrite (proj2 (u64_checked_sub_Some _ _ _)) by (split; [done|lia]). ok_step.
  rewrite (proj2 (Z.leb_le 1 _)), (proj2 (Z.leb_le _ MAX_GRANT_TTL_SECS)) by lia.
  cbn [andb]. ok_step.
  destruct (exp <=? now')%Z; cbn [negb ensure]; rewrite ?Err_bind; [done|]. ok_step.
  unfold u64_saturating_sub.
  replace (MAX_GRANT_CLOCK_SKEW_SECS <? 0 `max` (now - now'))%Z
    with (MAX_GRANT_CLOCK_SKEW_SECS <? now - now')%Z
    by (unfold MAX_GRANT_CLOCK_SKEW_SECS; destruct (Z.ltb_spec 30 (now - now'));
        symmetry; [apply Z.ltb_lt | apply Z.ltb_ge]; lia).
  destruct (_ <? now - now')%Z; cbn [negb ensure]; rewrite ?Err_bind; [done|]. ok_step.
  case_decide; [by rewrite bool_decide_eq_true_2 | by rewrite bool_decide_eq_false_2].
Qed.

(** C33.  A minted grant round-trips: against a verifier that trusts the issuer's key, any
    node at any time gets precisely [minted_outcome]: expired from the expiry second on,
    not yet valid more than 30 seconds early, the wrong audience at any other node, and
    otherwise the minted fields unchanged. *)
Theorem mint_verify_roundtrip k a nonce ttl now g v n now' :
  mint k a nonce ttl now = Ok g → audience_ok a → length nonce = NONCE_LEN → u64 now →
  keys v !! sk_key_id k = Some (verifying_key (signing_key k)) →
  vk_is_weak (verifying_key (signing_key k)) = false → u64 now' →
  verify_for_node (g_token g) v n now' =
  minted_outcome {| vg_key_id := sk_key_id k; vg_issued_at := now;
                    vg_expires_at := now + as_secs ttl; vg_nonce := nonce;
                    vg_audience := a |} n now'.
Proof. apply mint_outcome. Qed.

(** Every token [parse] accepts, and every token [mint] produces for a well-formed
    audience, fits the public bound header parsers allocate for, and is never shorter than
    the minimum [parse] checks. *)
Theorem token_length_bounds :
  (∀ token p, parse token = Ok p → MIN_TOKEN_LEN ≤ length token ≤ MAX_GRANT_TOKEN_LEN) ∧
  (∀ k a nonce ttl now g, mint k a nonce ttl now = Ok g → audience_ok a →
     length nonce = NONCE_LEN → u64 now →
     MIN_TOKEN_LEN ≤ length (g_token g) ≤ MAX_GRANT_TOKEN_LEN).
Proof.
  assert (Hb : ∀ kid iss exp nonce a sg, fields_ok kid iss exp nonce a →
    MIN_TOKEN_LEN ≤ length (token_of kid iss exp nonce a sg) ≤ MAX_GRANT_TOKEN_LEN).
  { intros * Hf. rewrite (token_length _ _ _ _ _ _ Hf).
    pose proof (proj1 (ao_realm _ (fo_audience _ _ _ _ _ Hf))).
    pose proof (proj1 (ao_node_id _ (fo_audience _ _ _ _ _ Hf))).
    unfold IDENTIFIERS_OFFSET, SIGNATURE_LEN, MIN_TOKEN_LEN, MAX_GRANT_TOKEN_LEN. lia. }
  split.
  - intros token p (Hf & _ & ->)%parse_canonical. by apply Hb.
  - intros k a nonce ttl now g (_ & _ & _ & ? & ? & ->)%mint_ok_iff Ha Hn Hnow.
    apply Hb. split; try done; [apply sk_key_id_length | unfold_int; lia].
Qed.

(** The expiry clock fails closed: when the system clock cannot be read as a time
    after 1970, no token whatsoever is accepted, by any node. *)
Theorem broken_clock_accepts_nothing token v n g :
  verify_for_node token v n (now_unix_secs_for_expiry None) ≠ Ok g.
Proof.
  intros [[Hf _ _ He _] _]%verify_for_node_spec. cbn in He.
  pose proof (fo_expires _ _ _ _ _ Hf). unfold_int. lia.
Qed.

(** *** Key sets *)

(** Every entry is a strong key filed under its own identifier. *)
Definition verifier_wf (v : GrantVerifier) : Prop :=
  ∀ kid vk, keys v !! kid = Some vk →
    kid = key_id_for_public_key (vk_to_bytes vk) ∧ vk_is_weak vk = false.

Lemma add_public_key_ok v pk v' kid :
  verifier_wf v → add_public_key v pk = Ok (v', kid) →
  verifier_wf v' ∧ kid = key_id_for_public_key pk ∧
  dom (keys v') = {[kid]} ∪ dom (keys v) ∧ keys v ⊆ keys v' ∧
  (∃ vk, keys v' !! kid = Some vk ∧ vk_to_bytes vk = pk).
Proof.
  intros Hwf H. unfold add_public_key in H. inv_ok H.
  rename select (vk_from_bytes _ = Some _) into Hvk. apply vk_to_from_bytes in Hvk.
  case_match; [done|]. case_match eqn:E.
  - case_decide; [|done]. injection H as <- <-. split_and!; try done; [|by eauto].
    apply elem_of_dom_2 in E. set_solver.
  - injection H as <- <-. cbn [keys]. split_and!; try done.
    + intros kid' vk'. cbn [keys]. rewrite lookup_insert. case_decide; [|apply Hwf].
      intros [= <-]. subst. done.
    + by rewrite dom_insert_L.
    + by apply insert_subseteq.
    + eexists. rewrite lookup_insert_eq. done.
Qed.

Lemma add_public_key_err v pk e :
  verifier_wf v → add_public_key v pk = Err e →
  (e = InvalidPublicKey ∧ (vk_from_bytes pk = None ∨
                           ∃ vk, vk_from_bytes pk = Some vk ∧ vk_is_weak vk = true)) ∨
  (e = KeyIdCollision ∧ ∃ pk', pk' ≠ pk ∧
     sha256 (KEY_ID_DOMAIN ++ pk') = sha256 (KEY_ID_DOMAIN ++ pk)).
Proof.
  intros Hwf. unfold add_public_key. destruct (vk_from_bytes pk) as [vk|] eqn:Hvk.
  2:{ cbn. intros [= <-]. by eauto. }
  rewrite ok_or_Some, Ok_bind. destruct (vk_is_weak vk) eqn:Hw; [naive_solver|].
  case_match eqn:E; [|done]. case_decide; [done|]. intros [= <-]. right. split; [done|].
  apply Hwf in E as [E _]. eauto.
Qed.

Lemma add_public_keys_ok pks v v' :
  verifier_wf v → add_public_keys v pks = Ok v' →
  verifier_wf v' ∧ dom (keys v') = list_to_set (key_id_for_public_key <$> pks) ∪ dom (keys v).
Proof.
  revert v. induction pks as [|pk pks IH]; intros v Hwf H; cbn [add_public_keys] in H.
  - injection H as <-. split; [done|]. cbn. set_solver.
  - inv_ok H. destruct x as [v1 kid]. cbn in H.
    rename select (add_public_key _ _ = _) into Ha.
    apply add_public_key_ok in Ha as (Hwf1 & -> & Hdom & _); [|done].
    apply IH in H as [? ->]; [|done]. split; [done|]. rewrite Hdom. cbn. set_solver.
Qed.

(** A verifier built from raw public keys holds exactly those keys: at least one, each
    valid and not weak, filed under the identifier derived from it.  Adding a key fails
    only for an invalid or weak key, unless two different keys collide under SHA-256. *)
Theorem verifier_new_holds_exactly pks v :
  GrantVerifier_new pks = Ok v →
  verifier_wf v ∧ pks ≠ [] ∧ dom (keys v) = list_to_set (key_id_for_public_key <$> pks) ∧
  ∀ pk e, add_public_key v pk = Err e →
    (e = InvalidPublicKey ∧ (vk_from_bytes pk = None ∨
                             ∃ vk, vk_from_bytes pk = Some vk ∧ vk_is_weak vk = true)) ∨
    (e = KeyIdCollision ∧ ∃ pk', pk' ≠ pk ∧
       sha256 (KEY_ID_DOMAIN ++ pk') = sha256 (KEY_ID_DOMAIN ++ pk)).
Proof.
  unfold GrantVerifier_new. intros H. inv_ok H.
  rename select (add_public_keys _ _ = _) into Ha.
  apply add_public_keys_ok in Ha as [Hwf Hdom]; [|intros ??; cbn; by rewrite lookup_empty].
  case_decide as Hne; [done|]. injection H as <-. rewrite Hdom. split_and!; [done| |set_solver|].
  - intros ->. cbn in Hdom. apply Hne. apply dom_empty_inv_L. set_solver.
  - intros. by eapply add_public_key_err.
Qed.

End Theorems.

(** ** Witnesses *)

Section Witnesses.
Import Toy.

Definition w_key : GrantSigningKey := from_seed (str "0123456789abcdef0123456789abcdef").
Definition w_node : GrantNodeIdentity :=
  {| realm := str "prod"; node_id := str "entry-us"; role := Entry; transport := Masque;
     tee := SevSnp; measurement := replicate 48 x07; tls_spki_sha256 := replicate 32 x09 |}.
Definition w_audience : GrantAudience :=
  {| node := w_node; previous_hop := None;
     next_hop := Some {| sa_ip := Ipv4 xc6 x33 x64 x14; sa_port := 443 |} |}.
Definition w_nonce : bytes := replicate 32 x05.
Definition w_ttl : Duration := {| as_secs := 300; subsec_nanos := 0 |}.
Definition w_grant : Grant :=
  match mint w_key w_audience w_nonce w_ttl 1000 with
  | Ok g => g
  | Err _ => {| g_token := []; g_nonce := [] |}
  end.
Definition w_verifier : GrantVerifier :=
  {| keys := {[ sk_key_id w_key := verifying_key (signing_key w_key) ]} |}.
Definition w_verified : VerifiedGrant :=
  {| vg_key_id := sk_key_id w_key; vg_issued_at := 1000; vg_expires_at := 1300;
     vg_nonce := w_nonce; vg_audience := w_audience |}.

Lemma w_audience_ok : audience_ok w_audience.
Proof.
  split; try reflexivity.
  - apply (validate_named_identifier_ok [] _ tt). reflexivity.
  - apply (validate_named_identifier_ok [] _ tt). reflexivity.
  - intros s [= <-]. by vm_compute.
Qed.

Lemma w_mint : mint w_key w_audience w_nonce w_ttl 1000 = Ok w_grant.
Proof. vm_compute. reflexivity. Qed.

Lemma mint_verify_roundtrip_witness :
  verify_for_node (g_token w_grant) w_verifier w_node 1299 = Ok w_verified ∧
  verify_for_node (g_token w_grant) w_verifier w_node 1300 = Err Expired.
Proof.
  assert (H : ∀ now', u64 now' →
    verify_for_node (g_token w_grant) w_verifier w_node now' =
    minted_outcome w_verified w_node now').
  { intros now' Hn. refine (mint_verify_roundtrip _ _ _ _ _ _ _ _ _ w_mint _ _ _ _ _ Hn).
    - apply w_audience_ok.
    - reflexivity.
    - by vm_compute.
    - apply lookup_singleton_eq.
    - reflexivity. }
  split; rewrite H; try (by vm_compute); reflexivity.
Defined.

Lemma token_length_bounds_witness : 249 ≤ length (g_token w_grant) ≤ 375.
Proof.
  refine (proj2 token_length_bounds _ _ _ _ _ _ w_mint w_audience_ok _ _).
  - reflexivity.
  - by vm_compute.
Defined.

Lemma verifier_new_holds_exactly_witness :
  dom (keys w_verifier) = {[ sk_key_id w_key ]}.
Proof.
  assert (H : GrantVerifier_new [public_key_bytes w_key] = Ok w_verifier).
  { unfold GrantVerifier_new, add_public_keys, add_public_key, public_key_bytes.
    rewrite vk_from_to_bytes, ok_or_Some, Ok_bind. cbn [vk_is_weak toy_ed25519].
    unfold GrantVerifier_default. cbn [keys]. rewrite lookup_empty, Ok_bind. cbn [fst]. rewrite Ok_bind.
    rewrite decide_False; [done|]. apply insert_non_empty. }
  destruct (verifier_new_holds_exactly _ _ H) as (_ & _ & -> & _).
  cbn [fmap list_fmap list_to_set]. by rewrite right_id_L by apply _.
Defined.

Lemma w_verify_1100 : verify_for_node (g_token w_grant) w_verifier w_node 1100 = Ok w_verified.
Proof.
  rewrite (mint_outcome _ _ _ _ _ _ w_verifier w_node 1100 w_mint w_audience_ok).
  - unfold minted_outcome. cbn [vg_audience node w_audience]. by rewrite decide_True.
  - reflexivity.
  - by vm_compute.
  - apply lookup_singleton_eq.
  - reflexivity.
  - by vm_compute.
Qed.

Lemma verify_refines_witness : authorizes w_verifier (g_token w_grant) 1100 w_verified.
Proof.
  exact (proj1 (proj1 (proj2 (verify_refines (g_token w_grant) w_verifier 1100 w_verified) w_node)
                 w_verify_1100)).
Defined.

Lemma parse_exactly_canonical_witness :
  ∃ p, parse (g_token w_grant) = Ok p ∧
       g_token w_grant = token_of (pg_key_id p) (pg_issued_at p) (pg_expires_at p) (pg_nonce p)
                           (pg_audience p) (pg_signature p).
Proof.
  destruct (proj1 (verify_for_node_spec _ _ _ _ _) w_verify_1100) as [Ha _].
  destruct (authorizes_parse _ _ _ _ Ha) as (p & Hp & _). exists p. split; [exact Hp|].
  exact (proj2 (proj2 (proj1 (parse_exactly_canonical _ p) Hp))).
Defined.

Lemma broken_clock_accepts_nothing_witness :
  verify_for_node (g_token w_grant) w_verifier w_node (now_unix_secs_for_expiry None)
  ≠ Ok w_verified.
Proof. exact (broken_clock_accepts_nothing _ _ _ _). Defined.

End Witnesses.
