(* ===== verification/GrantReplay.v ===== *)
(** * Single use of grants at a node ([crates/nil-node/src/grant_replay.rs])

    A verified grant is a bearer credential, so a node records its anonymous
    [(key id, nonce)] pair until it expires.  The cache keeps a map and a binary heap
    ordered by expiry; the heap is modelled by the sorted list of its elements, whose
    head is what [peek] returns and [pop] removes.  The file proves that the pair of
    structures implements a plain map of unexpired identifiers, and that a grant is
    accepted at most once per process. *)

From S2P Require Import Prelude.
From S2P Require Import Net.
From S2P Require Import Crypto.
From S2P Require Import Grant.
From Stdlib Require Import Strings.Byte ZArith Lia.
From stdpp Require Import prelude gmap strings sorting.

Local Open Scope Z_scope.

(** ** Data *)

Inductive ReplayError := Replayed | PredatesProcess | Capacity | ReplayExpired.

#[global] Instance ReplayError_eq_dec : EqDecision ReplayError.
Proof. solve_decision. Defined.

Record ReplayKey := { rk_key_id : bytes; rk_nonce : bytes }.

#[global] Instance ReplayKey_eq_dec : EqDecision ReplayKey.
Proof. solve_decision. Defined.

#[global] Program Instance ReplayKey_countable : Countable ReplayKey :=
  inj_countable' (λ k, (rk_key_id k, rk_nonce k))
                 (λ p, {| rk_key_id := p.1; rk_nonce := p.2 |}) _.
Next Obligation. by intros []. Qed.

(** ** The heap of [Reverse((expires_at, key))] *)

(** The derived order of [(u64, ReplayKey)]: expiry, then key id, then nonce. *)
Definition expiry_cmp (x y : Z * ReplayKey) : comparison :=
  match x.1 ?= y.1 with
  | Eq => match bytes_cmp (rk_key_id x.2) (rk_key_id y.2) with
          | Eq => bytes_cmp (rk_nonce x.2) (rk_nonce y.2)
          | c => c
          end
  | c => c
  end.

Definition heap := list (Z * ReplayKey).

Fixpoint heap_push (x : Z * ReplayKey) (h : heap) : heap :=
  match h with
  | [] => [x]
  | y :: h' => match expiry_cmp x y with Gt => y :: heap_push x h' | _ => x :: h end
  end.

(** ** The cache *)

Record GrantReplayCache := {
  process_started_at : Z;
  capacity : nat;
  entries : gmap ReplayKey Z;
  expirations : heap;
}.

(** [new] asserts a nonzero capacity. *)
Definition cache_new (started : Z) (cap : nat) : option GrantReplayCache :=
  if decide (0 < cap)%nat then
    Some {| process_started_at := started; capacity := cap;
            entries := ∅; expirations := [] |}
  else None.

(** The [while let Some(Reverse(..)) = peek()] loop: each turn pops one element. *)
Fixpoint prune_loop (now : Z) (h : heap) (m : gmap ReplayKey Z) : heap * gmap ReplayKey Z :=
  match h with
  | [] => ([], m)
  | (expires_at, key) :: h' =>
      if now <? expires_at then (h, m)
      else prune_loop now h'
             (if decide (m !! key = Some expires_at) then delete key m else m)
  end.

Definition prune (c : GrantReplayCache) (now : Z) : GrantReplayCache :=
  let '(h, m) := prune_loop now (expirations c) (entries c) in
  {| process_started_at := process_started_at c; capacity := capacity c;
     entries := m; expirations := h |}.

Definition replay_key (g : VerifiedGrant) : ReplayKey :=
  {| rk_key_id := vg_key_id g; rk_nonce := vg_nonce g |}.

Definition consume (c : GrantReplayCache) (g : VerifiedGrant) (now : Z) :
    GrantReplayCache * result ReplayError unit :=
  let c := prune c now in
  if vg_expires_at g <=? now then (c, Err ReplayExpired)
  else if vg_issued_at g <? process_started_at c then (c, Err PredatesProcess)
  else
    let key := replay_key g in
    if decide (is_Some (entries c !! key)) then (c, Err Replayed)
    else if (capacity c <=? size (entries c))%nat then (c, Err Capacity)
    else
      ({| process_started_at := process_started_at c; capacity := capacity c;
          entries := <[key := vg_expires_at g]> (entries c);
          expirations := heap_push (vg_expires_at g, key) (expirations c) |}, Ok tt).

(** A run of the node: grants presented at given times. *)
Fixpoint consume_all (c : GrantReplayCache) (ops : list (VerifiedGrant * Z)) :
    GrantReplayCache * list (result ReplayError unit) :=
  match ops with
  | [] => (c, [])
  | (g, now) :: ops =>
      let '(c, r) := consume c g now in
      let '(c, rs) := consume_all c ops in (c, r :: rs)
  end.

(** ** Specification: a map of the unexpired identifiers *)

Module Spec.

Definition live (now : Z) (m : gmap ReplayKey Z) : gmap ReplayKey Z :=
  filter (λ kv, now < kv.2) m.

Definition accept_spec (started : Z) (cap : nat) (m : gmap ReplayKey Z) (g : VerifiedGrant)
    (now : Z) : gmap ReplayKey Z * result ReplayError unit :=
  let m := live now m in
  if decide (vg_expires_at g ≤ now) then (m, Err ReplayExpired)
  else if decide (vg_issued_at g < started) then (m, Err PredatesProcess)
  else if decide (is_Some (m !! replay_key g)) then (m, Err Replayed)
  else if decide (cap ≤ size m)%nat then (m, Err Capacity)
  else (<[replay_key g := vg_expires_at g]> m, Ok tt).

End Spec.

(** ** Invariant *)

Record cache_inv (c : GrantReplayCache) : Prop := {
  ci_sorted : StronglySorted (λ x y, x.1 ≤ y.1) (expirations c);
  ci_unique : NoDup (expirations c).*2;
  ci_heap : ∀ k e, entries c !! k = Some e ↔ (e, k) ∈ expirations c;
  ci_capacity : (size (entries c) ≤ capacity c)%nat;
}.

Lemma heap_push_perm x h : heap_push x h ≡ₚ x :: h.
Proof.
  induction h as [|y h IH]; cbn; [done|]. case_match; try done.
  rewrite IH. by apply Permutation_swap.
Qed.

Lemma expiry_cmp_fst x y : match expiry_cmp x y with Gt => y.1 ≤ x.1 | _ => x.1 ≤ y.1 end.
Proof.
  unfold expiry_cmp. destruct (Z.compare_spec x.1 y.1) as [E|E|E]; [|lia|lia].
  repeat case_match; lia.
Qed.

Lemma heap_push_sorted x h :
  StronglySorted (λ x y, x.1 ≤ y.1) h → StronglySorted (λ x y, x.1 ≤ y.1) (heap_push x h).
Proof.
  induction 1 as [|y h Hs IH Hy]; cbn; [repeat constructor|].
  pose proof (expiry_cmp_fst x y) as Hc. destruct (expiry_cmp x y).
  1,2: constructor; [by constructor|]; constructor; [done|];
    eapply Forall_impl; [exact Hy|]; cbn; intros; lia.
  constructor; [done|]. rewrite heap_push_perm. by constructor.
Qed.

Lemma live_lookup now m k e :
  Spec.live now m !! k = Some e ↔ m !! k = Some e ∧ now < e.
Proof. unfold Spec.live. by rewrite map_lookup_filter_Some. Qed.

Lemma live_delete now m k e :
  m !! k = Some e → e ≤ now → Spec.live now (delete k m) = Spec.live now m.
Proof.
  intros Hk He. apply map_eq. intros k'. apply option_eq. intros e'.
  rewrite !live_lookup. destruct (decide (k = k')) as [<-|].
  - rewrite lookup_delete_eq. split; [naive_solver|]. intros [? ?]. simplify_eq. lia.
  - by rewrite lookup_delete_ne.
Qed.

Lemma live_all now m : (∀ k e, m !! k = Some e → now < e) → Spec.live now m = m.
Proof. intros H. apply map_filter_id. cbn. eauto. Qed.

(** Pruning removes exactly what has expired, from both structures. *)
Lemma prune_loop_spec now h m h' m' :
  StronglySorted (λ x y, x.1 ≤ y.1) h → NoDup h.*2 →
  (∀ k e, m !! k = Some e ↔ (e, k) ∈ h) → prune_loop now h m = (h', m') →
  m' = Spec.live now m ∧ StronglySorted (λ x y, x.1 ≤ y.1) h' ∧ NoDup h'.*2 ∧
  (∀ k e, m' !! k = Some e ↔ (e, k) ∈ h').
Proof.
  intros Hs. revert m. induction Hs as [|[e k] h Hs IH Hall]; intros m Hnd Hm Hp; cbn in Hp.
  - injection Hp as <- <-. split_and!; try done; try by constructor.
    symmetry. apply live_all. intros k e He%Hm. by apply elem_of_nil in He.
  - cbn in Hnd. apply NoDup_cons in Hnd as [Hk Hnd].
    destruct (Z.ltb_spec now e).
    + injection Hp as <- <-. split_and!; try done; try by (cbn; constructor).
      symmetry. apply live_all. intros k' e' [[= -> ->]|Hin]%Hm%elem_of_cons; [done|].
      rewrite Forall_forall in Hall. apply Hall in Hin. cbn in Hin. lia.
    + assert (Hke : m !! k = Some e) by (apply Hm; set_solver).
      rewrite decide_True in Hp by done. apply IH in Hp as (-> & ? & ? & ?); try done.
      { split_and!; try done. by apply live_delete with e. }
      intros k' e'. destruct (decide (k = k')) as [<-|].
      * rewrite lookup_delete_eq. split; [done|]. intros Hin.
        destruct Hk. apply list_elem_of_fmap. by exists (e', k).
      * rewrite lookup_delete_ne, Hm, elem_of_cons by done. naive_solver.
Qed.

Lemma prune_spec c now :
  cache_inv c →
  cache_inv (prune c now) ∧ entries (prune c now) = Spec.live now (entries c).
Proof.
  intros [Hs Hu Hh Hc]. unfold prune.
  destruct (prune_loop now (expirations c) (entries c)) as [h m] eqn:E.
  apply prune_loop_spec in E as (-> & ? & ? & ?); try done.
  split; [|done]. split; try done. cbn.
  etrans; [|exact Hc]. apply map_subseteq_size, map_filter_subseteq.
Qed.

(** ** Refinement *)

Lemma prune_fields c now :
  process_started_at (prune c now) = process_started_at c ∧
  capacity (prune c now) = capacity c.
Proof. unfold prune. by destruct (prune_loop _ _ _). Qed.

(** Recording a fresh identifier keeps the two structures in step. *)
Lemma insert_inv c k e :
  cache_inv c → entries c !! k = None → (size (entries c) < capacity c)%nat →
  cache_inv {| process_started_at := process_started_at c; capacity := capacity c;
               entries := <[k := e]> (entries c);
               expirations := heap_push (e, k) (expirations c) |}.
Proof.
  intros [Hs Hu Hh Hc] Hk Hlt. split; cbn.
  - by apply heap_push_sorted.
  - rewrite heap_push_perm. cbn. apply NoDup_cons. split; [|done].
    intros ([e' k'] & -> & Hin)%list_elem_of_fmap. apply Hh in Hin. cbn in *. congruence.
  - intros k' e'. rewrite heap_push_perm, elem_of_cons, lookup_insert_Some, Hh.
    split; [naive_solver|]. intros [[= -> ->]|Hin]; [by left|]. right. split; [|done].
    intros ->. apply Hh in Hin. congruence.
  - rewrite map_size_insert_None by done. lia.
Qed.

Lemma consume_spec c g now c' r :
  cache_inv c → consume c g now = (c', r) →
  (entries c', r) = Spec.accept_spec (process_started_at c) (capacity c) (entries c) g now ∧
  process_started_at c' = process_started_at c ∧ capacity c' = capacity c ∧ cache_inv c'.
Proof.
  intros Hinv. destruct (prune_spec c now Hinv) as [Hinv' He].
  unfold consume, Spec.accept_spec. rewrite <- He.
  destruct (prune_fields c now) as [Hst Hcap]. clear He Hinv.
  set (p := prune c now) in *. rewrite <- Hst, <- Hcap.
  destruct (Z.leb_spec (vg_expires_at g) now).
  { intros [= <- <-]. rewrite (decide_True (P := _ ≤ _)) by done. done. }
  rewrite (decide_False (P := _ ≤ _)) by lia. destruct (Z.ltb_spec (vg_issued_at g) (process_started_at p)).
  { intros [= <- <-]. rewrite (decide_True (P := _ < _)) by done. done. }
  rewrite (decide_False (P := _ < _)) by lia.
  case_decide as Hr.
  { intros [= <- <-]. done. }
  destruct (Nat.leb_spec (capacity p) (size (entries p))).
  { intros [= <- <-]. rewrite decide_True by done. done. }
  intros [= <- <-]. rewrite decide_False by lia. split_and!; try done.
  apply eq_None_not_Some in Hr. by apply insert_inv.
Qed.

(** ** Runs *)

(** Between two presentations of a grant the clock does not go back. *)
Definition times (ops : list (VerifiedGrant * Z)) : list Z := ops.*2.

(** What is known of an identifier once its grant has been accepted. *)
Definition recorded (c : GrantReplayCache) (g : VerifiedGrant) : Prop :=
  entries c !! replay_key g = Some (vg_expires_at g).

Lemma consume_accepts c g now c' :
  cache_inv c → consume c g now = (c', Ok tt) →
  now < vg_expires_at g ∧ process_started_at c ≤ vg_issued_at g ∧ recorded c' g.
Proof.
  intros Hinv (Hs & _)%consume_spec; [|done]. revert Hs. unfold Spec.accept_spec.
  repeat case_decide; intros [= He]; try lia. split_and!; [lia..|].
  unfold recorded. by rewrite He, lookup_insert_eq.
Qed.

(** When a grant is accepted, and what is recorded then. *)
Lemma consume_accepts_iff c g now c' r :
  cache_inv c → consume c g now = (c', r) →
  (r = Ok tt ↔ now < vg_expires_at g ∧ process_started_at c ≤ vg_issued_at g ∧
     (∀ until, entries c !! replay_key g = Some until → until ≤ now) ∧
     (size (filter (λ kv, now < kv.2)%Z (entries c)) < capacity c)%nat) ∧
  (r = Ok tt → entries c' = <[replay_key g := vg_expires_at g]> (filter (λ kv, now < kv.2) (entries c))).
Proof.
  intros Hinv (Hs & _)%consume_spec; [|done]. revert Hs. unfold Spec.accept_spec, Spec.live.
  assert (Hk : is_Some (filter (λ kv : ReplayKey * Z, now < kv.2) (entries c) !! replay_key g) ↔
    ∃ until, entries c !! replay_key g = Some until ∧ now < until).
  { split; [intros [u [Hu ?]%map_lookup_filter_Some]; eauto|intros (u & Hu & Hn); exists u; by apply map_lookup_filter_Some]. }
  case_decide; [intros [= _ ->]; split; [|done]; split; [done|intros; lia]|].
  case_decide; [intros [= _ ->]; split; [|done]; split; [done|intros; lia]|].
  case_decide as Hu.
  { intros [= _ ->]. split; [|done]. split; [done|]. intros (_ & _ & Hn & _). apply Hk in Hu as (u & Hu & Hlt). apply Hn in Hu. lia. }
  case_decide; [intros [= _ ->]; split; [|done]; split; [done|intros; lia]|].
  intros [= -> ->]. split; [|done]. split; [|done]. intros _. split_and!; [lia|lia| |lia].
  intros u Hl. destruct (decide (u ≤ now)); [done|]. destruct Hu. apply Hk. exists u. split; [done|lia].
Qed.

(** A recorded identifier stays recorded until its expiry. *)
Lemma consume_keeps c g g' now c' r :
  cache_inv c → recorded c g → now < vg_expires_at g →
  consume c g' now = (c', r) → recorded c' g.
Proof.
  intros Hinv Hrec Hnow (Hs & _)%consume_spec; [|done]. unfold recorded in *.
  assert (Hl : Spec.live now (entries c) !! replay_key g = Some (vg_expires_at g)).
  { by apply live_lookup. }
  revert Hs. unfold Spec.accept_spec. repeat case_decide; intros [= -> ?]; try done.
  rewrite lookup_insert_ne; [done|]. intros Heq. rewrite Heq in *. naive_solver.
Qed.

Lemma consume_recorded c g now c' r :
  cache_inv c → recorded c g → process_started_at c ≤ vg_issued_at g →
  consume c g now = (c', r) →
  r = Err (if decide (vg_expires_at g ≤ now) then ReplayExpired else Replayed).
Proof.
  intros Hinv Hrec Hst (Hs & _)%consume_spec; [|done]. revert Hs. unfold Spec.accept_spec.
  case_decide; [congruence|]. case_decide; [lia|]. case_decide as Hn; [congruence|].
  destruct Hn. exists (vg_expires_at g). apply live_lookup. split; [done|lia].
Qed.

Lemma consume_all_keeps ops c g c' rs :
  cache_inv c → recorded c g → Forall (λ t, t < vg_expires_at g) (times ops) →
  consume_all c ops = (c', rs) →
  recorded c' g ∧ cache_inv c' ∧ process_started_at c' = process_started_at c.
Proof.
  revert c rs. induction ops as [|[g' t] ops IH]; intros c rs Hinv Hrec Ht H; cbn in H.
  { by injection H as <- <-. }
  inversion Ht as [|?? Ht1 Ht2]; subst; cbn in Ht1.
  destruct (consume c g' t) as [c1 r1] eqn:E1.
  destruct (consume_all c1 ops) as [c2 rs2] eqn:E2. injection H as <- <-.
  pose proof (consume_keeps _ _ _ _ _ _ Hinv Hrec Ht1 E1) as Hrec1.
  apply consume_spec in E1 as (_ & Hst & _ & Hinv1); [|done].
  destruct (IH _ _ Hinv1 Hrec1 Ht2 E2) as (? & ? & ?). by rewrite <- Hst.
Qed.

Lemma consume_all_inv ops c c' rs :
  cache_inv c → consume_all c ops = (c', rs) →
  cache_inv c' ∧ process_started_at c' = process_started_at c ∧ capacity c' = capacity c.
Proof.
  revert c rs. induction ops as [|[g' t] ops IH]; intros c rs Hinv H; cbn in H.
  { by injection H as <- <-. }
  destruct (consume c g' t) as [c1 r1] eqn:E1.
  destruct (consume_all c1 ops) as [c2 rs2] eqn:E2. injection H as <- <-.
  apply consume_spec in E1 as (_ & Hst & Hcap & Hinv1); [|done].
  apply IH in E2 as (? & ? & ?); [|done]. by rewrite <- Hst, <- Hcap.
Qed.

Lemma cache_new_inv started cap c :
  cache_new started cap = Some c →
  cache_inv c ∧ process_started_at c = started ∧ capacity c = cap ∧ entries c = ∅.
Proof.
  unfold cache_new. case_decide; [|done]. intros [= <-]. split_and!; try done.
  split; cbn; try by constructor.
  - intros k e. rewrite lookup_empty. split; [done|]. by intros ?%elem_of_nil.
  - rewrite map_size_empty. lia.
Qed.

(** A fresh process accepts the first live grant it did not precede. *)
Lemma consume_fresh started cap c g now :
  cache_new started cap = Some c → started ≤ vg_issued_at g → now < vg_expires_at g →
  ∃ c', consume c g now = (c', Ok tt) ∧ cache_inv c' ∧
        entries c' = {[ replay_key g := vg_expires_at g ]}.
Proof.
  intros Hn Hi He. assert (0 < cap)%nat by (unfold cache_new in Hn; by case_decide).
  apply cache_new_inv in Hn as (Hinv & <- & <- & Hemp).
  destruct (consume c g now) as [c' r] eqn:E.
  apply consume_spec in E as (Hs & _ & _ & Hinv'); [|done]. exists c'.
  unfold Spec.accept_spec, Spec.live in Hs. rewrite Hemp, map_filter_empty in Hs.
  rewrite !decide_False in Hs; [|rewrite ?map_size_empty; lia
                                |rewrite lookup_empty; by intros [? ?]|lia|lia].
  by injection Hs as -> ->.
Qed.

(** The map-and-heap cache implements the specification: on every branch [consume]
    returns what the plain map of unexpired identifiers would, leaves exactly that map, and
    keeps the invariant (the heap lists the map's entries in expiry order, and the map never
    exceeds the configured capacity). *)
Theorem consume_refines c g now c' r :
  cache_inv c → consume c g now = (c', r) →
  (entries c', r) = Spec.accept_spec (process_started_at c) (capacity c) (entries c) g now ∧
  process_started_at c' = process_started_at c ∧ capacity c' = capacity c ∧ cache_inv c'.
Proof. apply consume_spec. Qed.

(** A grant is accepted at most once by a process: from a fresh cache, whatever else is
    presented before, in between, and at whatever rate, once a grant has been accepted every
    later presentation of the same grant is refused - as a replay before its expiry and as
    expired from then on - provided the clock readings in between are not past the
    presentation (non-decreasing time). *)
Theorem accepted_at_most_once started cap c0 before g t between t' c1 rs1 c2 c3 rs2 c4 r :
  cache_new started cap = Some c0 →
  consume_all c0 before = (c1, rs1) → consume c1 g t = (c2, Ok tt) →
  consume_all c2 between = (c3, rs2) → consume c3 g t' = (c4, r) →
  Forall (λ s, s ≤ t') (times between) →
  r = Err (if decide (vg_expires_at g ≤ t') then ReplayExpired else Replayed).
Proof.
  intros (Hinv0 & _ & _ & _)%cache_new_inv H1 Hg H2 Hg' Ht.
  apply consume_all_inv in H1 as (Hinv1 & _ & _); [|done].
  destruct (consume_accepts _ _ _ _ Hinv1 Hg) as (_ & Hst & Hrec).
  apply consume_spec in Hg as (_ & Hst2 & _ & Hinv2); [|done].
  destruct (decide (vg_expires_at g ≤ t')) as [Hexp|Hexp].
  - apply consume_all_inv in H2 as (Hinv3 & _); [|done].
    apply consume_spec in Hg' as (Hs & _); [|done]. revert Hs. unfold Spec.accept_spec.
    case_decide; [congruence|lia].
  - edestruct (consume_all_keeps between) as (Hrec3 & Hinv3 & Hst3); [exact Hinv2|exact Hrec| |exact H2|].
    { eapply Forall_impl; [exact Ht|]. cbn. lia. }
    eapply consume_recorded in Hg'; [|done..|by rewrite Hst3, Hst2].
    by rewrite decide_False in Hg'.
Qed.

(** A restart does not reopen past grants: a cache created at [started] refuses, at
    every time and in every later state, any grant issued before [started], so a grant
    issued and spent before the restart by a clock in agreement stays spent. *)
Theorem restart_refuses_older started cap c0 ops c rs g now :
  cache_new started cap = Some c0 → consume_all c0 ops = (c, rs) →
  vg_issued_at g < started →
  (consume c g now).2 = Err (if decide (vg_expires_at g ≤ now) then ReplayExpired
                             else PredatesProcess).
Proof.
  intros (Hinv & Hst & _ & _)%cache_new_inv H Hi.
  apply consume_all_inv in H as (Hinv' & Hst' & _); [|done].
  destruct (consume c g now) as [c' r] eqn:E. apply consume_spec in E as (Hs & _); [|done].
  cbn. revert Hs. unfold Spec.accept_spec. case_decide; [congruence|].
  rewrite decide_True by lia. congruence.
Qed.

(** The node's gate: verification against its own identity, then single use. *)
Section Window.
Context `{Hsha : Sha256, Hed : Ed25519, Hshal : !Sha256Laws, Hedl : !Ed25519Laws}.

(** What a restart can reopen: if a token verified at time [t] is accepted after a
    restart at [started], then the restart happened no later than 30 seconds after [t] and
    no later than the issue time on the grant.  The window is the issuer's clock skew
    allowance, not less. *)
Theorem restart_replay_window token v n t g started cap c0 ops c rs t' c' :
  verify_for_node token v n t = Ok g →
  cache_new started cap = Some c0 → consume_all c0 ops = (c, rs) →
  consume c g t' = (c', Ok tt) →
  started ≤ vg_issued_at g ∧ started ≤ t + MAX_GRANT_CLOCK_SKEW_SECS ∧ t' < vg_expires_at g.
Proof.
  intros [Ha _]%verify_for_node_spec (Hinv & Hst & _ & _)%cache_new_inv H Hc.
  apply consume_all_inv in H as (Hinv' & Hst' & _); [|done].
  apply consume_accepts in Hc as (? & ? & _); [|done].
  destruct Ha. lia.
Qed.

End Window.

(** ** Witnesses *)

Section Witnesses.
Import Toy.

Definition w_cache : GrantReplayCache :=
  {| process_started_at := 900; capacity := 2; entries := ∅; expirations := [] |}.

Definition w_other : VerifiedGrant :=
  {| vg_key_id := sk_key_id w_key; vg_issued_at := 950; vg_expires_at := 1100;
     vg_nonce := replicate 32 x06; vg_audience := w_audience |}.

(** The node runs from 900, and restarts at 990 with an empty cache. *)
Definition w_restarted : GrantReplayCache :=
  {| process_started_at := 990; capacity := 2; entries := ∅; expirations := [] |}.

Lemma w_verify_at t :
  u64 t → verify_for_node (g_token w_grant) w_verifier w_node t = minted_outcome w_verified w_node t.
Proof.
  intros Ht. refine (mint_outcome _ _ _ _ _ _ _ _ _ w_mint w_audience_ok _ _ _ _ Ht).
  - reflexivity.
  - by vm_compute.
  - apply lookup_singleton_eq.
  - reflexivity.
Qed.

Lemma w_verify_975 : verify_for_node (g_token w_grant) w_verifier w_node 975 = Ok w_verified.
Proof.
  rewrite w_verify_at by (by vm_compute). unfold minted_outcome.
  cbn [vg_audience node w_verified w_audience]. by rewrite decide_True.
Qed.

(** The restart window is open for the whole clock-skew allowance: a grant issued at 1000 by a
    clock 25 seconds ahead is verified and accepted at 975, the node restarts 15 seconds later,
    and the same token is verified and accepted again. *)
Theorem restart_window_is_open :
  verify_for_node (g_token w_grant) w_verifier w_node 975 = Ok w_verified ∧
  cache_new 900 2 = Some w_cache ∧ (consume w_cache w_verified 975).2 = Ok tt ∧
  cache_new 990 2 = Some w_restarted ∧
  verify_for_node (g_token w_grant) w_verifier w_node 990 = Ok w_verified ∧
  (consume w_restarted w_verified 990).2 = Ok tt.
Proof.
  destruct (consume_fresh 900 2 w_cache w_verified 975) as (c1 & -> & _); [done..|].
  destruct (consume_fresh 990 2 w_restarted w_verified 990) as (c2 & -> & _); [done..|].
  rewrite w_verify_975, w_verify_at by (by vm_compute). unfold minted_outcome.
  cbn [vg_audience node w_verified w_audience].
  rewrite decide_True by done. split_and!; reflexivity.
Qed.

Lemma consume_refines_witness :
  ∃ c, consume w_cache w_verified 1005 = (c, Ok tt) ∧ cache_inv c ∧
       entries c = {[ replay_key w_verified := 1300 ]}.
Proof.
  destruct (consume_fresh 900 2 w_cache w_verified 1005) as (c & E & _ & He); [done..|].
  destruct (consume_refines w_cache w_verified 1005 c (Ok tt)
              (proj1 (cache_new_inv 900 2 w_cache eq_refl)) E) as (_ & _ & _ & Hinv).
  by exists c.
Defined.

Lemma accepted_at_most_once_witness :
  ∃ c, consume w_cache w_verified 1005 = (c, Ok tt) ∧
       (consume (consume c w_other 1007).1 w_verified 1299).2 = Err Replayed.
Proof.
  destruct (consume_fresh 900 2 w_cache w_verified 1005) as (c & E & _); [done..|].
  exists c. split; [exact E|]. destruct (consume c w_other 1007) as [c1 r1] eqn:E1.
  refine (accepted_at_most_once 900 2 w_cache [] w_verified 1005 [(w_other, 1007)] 1299
            w_cache [] c c1 [r1] _ _ eq_refl eq_refl E _ (surjective_pairing _) _).
  - cbn [consume_all]. by rewrite E1.
  - repeat constructor. done.
Defined.

Lemma restart_refuses_older_witness :
  (consume w_restarted w_other 1000).2 = Err PredatesProcess.
Proof.
  refine (restart_refuses_older 990 2 w_restarted [] w_restarted [] w_other 1000
            eq_refl eq_refl _). reflexivity.
Defined.

Lemma restart_replay_window_witness :
  process_started_at w_restarted ≤ 975 + MAX_GRANT_CLOCK_SKEW_SECS.
Proof.
  destruct (consume_fresh 990 2 w_restarted w_verified 990) as (c2 & E & _); [done..|].
  exact (proj1 (proj2 (restart_replay_window (g_token w_grant) w_verifier w_node 975 w_verified
            990 2 w_restarted [] w_restarted [] 990 c2
            w_verify_975 eq_refl eq_refl E))).
Defined.

End Witnesses.
