(* ===== verification/Registry.v ===== *)
(** * The Coordinator's node registry ([crates/nil-coordinator/src/pathsel.rs])

    The registry file lists the nodes the Coordinator may put on a path.  Every entry is
    checked for one canonical spelling before it is admitted, so that operators,
    jurisdictions and grant audiences can be compared as text.  The JSON reader is a
    parameter ([serde_json]); this file starts from the entries it yields. *)

From S2P Require Import Prelude.
From S2P Require Import Text.
From S2P Require Import Net.
From S2P Require Import Env.
From S2P Require Import Crypto.
From S2P Require Import Grant.
From Stdlib Require Import Strings.Byte ZArith Lia.
From stdpp Require Import prelude gmap strings.

(** ** Data *)

Module Role.

Inductive t := Entry | Middle | Exit.

#[global] Instance eq_dec : EqDecision t.
Proof. solve_decision. Defined.

Definition parse (s : bytes) : option t :=
  if decide (s = str "entry") then Some Entry
  else if decide (s = str "middle") then Some Middle
  else if decide (s = str "exit") then Some Exit
  else None.

Definition for_position (i hops : nat) : t :=
  if (i + 1 =? hops)%nat then Exit else if (i =? 0)%nat then Entry else Middle.

End Role.

(** [nil_proto::path]: the wire mirror of the core types. *)
Module Wire.

Inductive Tee := SevSnp | Tdx.

#[global] Instance Tee_eq_dec : EqDecision Tee.
Proof. solve_decision. Defined.

Record SevSnpTcbFloor := {
  fmc : option Z; bootloader : Z; tcb_tee : Z; snp : Z; microcode : Z;
}.

Record TdxPolicy := {
  td_attributes : bytes; xfam : bytes; mr_config_id : bytes; mr_owner : bytes;
  mr_owner_config : bytes; rt_mr0 : bytes; rt_mr1 : bytes; rt_mr2 : bytes; rt_mr3 : bytes;
  mr_service_td : option bytes;
}.

Record Hop := {
  hop_host : bytes;
  hop_port : Z;
  hop_tee : Tee;
  hop_measurement : bytes;
  hop_tls_spki_sha256 : option bytes;
  hop_wg_pub : option bytes;
  hop_min_tcb_sevsnp : option SevSnpTcbFloor;
  hop_tdx_policy : option TdxPolicy;
  hop_transparency_log_key : option bytes;
  hop_grant : option bytes;
  hop_grant_nonce : option bytes;
}.

End Wire.

(** [nil_core::TdxPolicy]: the same fields as fixed-size byte arrays. *)
Module Core.

Record TdxPolicy := {
  td_attributes : bytes; xfam : bytes; mr_config_id : bytes; mr_owner : bytes;
  mr_owner_config : bytes; rt_mr0 : bytes; rt_mr1 : bytes; rt_mr2 : bytes; rt_mr3 : bytes;
  mr_service_td : option bytes;
}.

End Core.

Record RegistryFileNode := {
  file_id : bytes;
  file_host : bytes;
  file_port : Z;
  file_tee : bytes;
  file_measurement : bytes;
  file_tls_spki_sha256 : option bytes;
  file_operator : bytes;
  file_jurisdiction : bytes;
  file_wg_pub : option bytes;
  file_role : bytes;
  file_min_tcb_sevsnp : option Wire.SevSnpTcbFloor;
  file_tdx_policy : option Wire.TdxPolicy;
  file_transparency_log_key : option bytes;
}.

Record RegistryNode := {
  id : bytes;
  host : bytes;
  port : Z;
  reg_tee : Wire.Tee;
  reg_measurement : bytes;
  reg_tls_spki_sha256 : option bytes;
  operator : bytes;
  jurisdiction : bytes;
  wg_pub : option bytes;
  reg_role : Role.t;
  min_tcb_sevsnp : option Wire.SevSnpTcbFloor;
  tdx_policy : option Core.TdxPolicy;
  transparency_log_key : option bytes;
}.

(** One constructor per message the validators stop with. *)
Inductive RegistryError :=
  | BadId (e : GrantError)
  | SlugLength (field : bytes) | SlugStart (field : bytes) | SlugEnd (field : bytes)
  | SlugChars (field : bytes)
  | BadJurisdiction
  | HostLength | HostNotCanonicalIp | HostMalformedIp | HostDotEdge
  | LabelLength | LabelDash | LabelChars
  | ZeroPort | BadTee | BadRole
  | HexLength (field : bytes) | HexChars (field : bytes) | HexInvalid (field : bytes)
  | FloorOnTdx | TdxDebug | TdxRegisterZero (name : bytes)
  | TdxPolicyMissing | TdxPolicyOnSevSnp
  | RegistryRead | RegistryParse | RegistryEmpty
  | EntryInvalid (index : nat) (e : RegistryError)
  | DuplicateId (index : nat) | DuplicateEndpoint (index : nat).

(** ** Field validators *)

Definition validate_slug (field value : bytes) (max_len : nat) : result RegistryError unit :=
  if bool_decide (value = []) || (max_len <? length value)%nat then Err (SlugLength field)
  else if negb (match head value with Some b => is_ascii_lowercase b | None => false end)
          && negb (match head value with Some b => is_ascii_digit b | None => false end)
       then Err (SlugStart field)
  else if negb (match last value with Some b => is_ascii_lowercase b | None => false end)
          && negb (match last value with Some b => is_ascii_digit b | None => false end)
       then Err (SlugEnd field)
  else if negb (forallb (λ b, is_ascii_lowercase b || is_ascii_digit b
                              || bool_decide (b ∈ [x2d; x5f; x2e])) value)
       then Err (SlugChars field)
  else Ok tt.

Definition validate_jurisdiction (value : bytes) : result RegistryError unit :=
  if negb (length value =? 2)%nat || negb (forallb is_ascii_uppercase value)
  then Err BadJurisdiction else Ok tt.

Definition validate_label (label : bytes) : result RegistryError unit :=
  if bool_decide (label = []) || (63 <? length label)%nat then Err LabelLength
  else if bool_decide (head label = Some x2d) || bool_decide (last label = Some x2d)
       then Err LabelDash
  else if negb (forallb (λ b, is_ascii_lowercase b || is_ascii_digit b
                              || bool_decide (b = x2d)) label)
       then Err LabelChars
  else Ok tt.

Definition validate_host (value : bytes) : result RegistryError unit :=
  if bool_decide (value = []) || (253 <? length value)%nat then Err HostLength
  else match parse_ip value with
  | Some ip => if decide (value = ip_to_string ip) then Ok tt else Err HostNotCanonicalIp
  | None =>
      if forallb (λ b, is_ascii_digit b || bool_decide (b = x2e)) value
         || bool_decide (x3a ∈ value) then Err HostMalformedIp
      else if bool_decide (head value = Some x2e) || bool_decide (last value = Some x2e)
           then Err HostDotEdge
      else _ ← result_mapM validate_label (split_on x2e value); Ok tt
  end.

Definition validate_lower_hex (field value : bytes) (n : nat) : result RegistryError unit :=
  if negb (length value =? n * 2)%nat then Err (HexLength field)
  else if negb (forallb is_lower_hex value) then Err (HexChars field)
  else Ok tt.

(** [if let Some(v) = field { validate_lower_hex(..)? }]. *)
Definition validate_opt_hex (field : bytes) (value : option bytes) (n : nat) :
    result RegistryError unit :=
  match value with Some v => validate_lower_hex field v n | None => Ok tt end.

Definition decode_fixed_hex (N : nat) (field value : bytes) : result RegistryError bytes :=
  _ ← validate_lower_hex field value N;
  match from_hex value with
  | Some b => if decide (length b = N) then Ok b else Err (HexInvalid field)
  | None => Err (HexInvalid field)
  end.

Definition encode_lower_hex (b : bytes) : bytes := to_hex b.

(** ** TDX policies *)

Definition all_zero (b : bytes) : bool := forallb (λ x, bool_decide (x = x00)) b.

Definition validate_tdx_policy (dto : Wire.TdxPolicy) : result RegistryError Core.TdxPolicy :=
  td ← decode_fixed_hex 8 (str "tdx_policy.td_attributes") (Wire.td_attributes dto);
  _ ← ensure (match td with b :: _ => Z.land (b2z b) 1 =? 0 | [] => true end)%Z TdxDebug;
  m0 ← decode_fixed_hex 48 (str "tdx_policy.rt_mr0") (Wire.rt_mr0 dto);
  m1 ← decode_fixed_hex 48 (str "tdx_policy.rt_mr1") (Wire.rt_mr1 dto);
  m2 ← decode_fixed_hex 48 (str "tdx_policy.rt_mr2") (Wire.rt_mr2 dto);
  m3 ← decode_fixed_hex 48 (str "tdx_policy.rt_mr3") (Wire.rt_mr3 dto);
  _ ← ensure (negb (all_zero m0)) (TdxRegisterZero (str "rt_mr0"));
  _ ← ensure (negb (all_zero m1)) (TdxRegisterZero (str "rt_mr1"));
  _ ← ensure (negb (all_zero m2)) (TdxRegisterZero (str "rt_mr2"));
  _ ← ensure (negb (all_zero m3)) (TdxRegisterZero (str "rt_mr3"));
  xf ← decode_fixed_hex 8 (str "tdx_policy.xfam") (Wire.xfam dto);
  ci ← decode_fixed_hex 48 (str "tdx_policy.mr_config_id") (Wire.mr_config_id dto);
  ow ← decode_fixed_hex 48 (str "tdx_policy.mr_owner") (Wire.mr_owner dto);
  oc ← decode_fixed_hex 48 (str "tdx_policy.mr_owner_config") (Wire.mr_owner_config dto);
  sv ← match Wire.mr_service_td dto with
       | Some v => s ← decode_fixed_hex 48 (str "tdx_policy.mr_service_td") v; Ok (Some s)
       | None => Ok None
       end;
  Ok {| Core.td_attributes := td; Core.xfam := xf; Core.mr_config_id := ci;
        Core.mr_owner := ow; Core.mr_owner_config := oc; Core.rt_mr0 := m0;
        Core.rt_mr1 := m1; Core.rt_mr2 := m2; Core.rt_mr3 := m3; Core.mr_service_td := sv |}.

Definition tdx_policy_to_wire (p : Core.TdxPolicy) : Wire.TdxPolicy := {|
  Wire.td_attributes := encode_lower_hex (Core.td_attributes p);
  Wire.xfam := encode_lower_hex (Core.xfam p);
  Wire.mr_config_id := encode_lower_hex (Core.mr_config_id p);
  Wire.mr_owner := encode_lower_hex (Core.mr_owner p);
  Wire.mr_owner_config := encode_lower_hex (Core.mr_owner_config p);
  Wire.rt_mr0 := encode_lower_hex (Core.rt_mr0 p);
  Wire.rt_mr1 := encode_lower_hex (Core.rt_mr1 p);
  Wire.rt_mr2 := encode_lower_hex (Core.rt_mr2 p);
  Wire.rt_mr3 := encode_lower_hex (Core.rt_mr3 p);
  Wire.mr_service_td := encode_lower_hex <$> Core.mr_service_td p;
|}.

(** ** Entries *)

Definition parse_tee (s : bytes) : result RegistryError Wire.Tee :=
  if decide (s = str "sev-snp") then Ok Wire.SevSnp
  else if decide (s = str "tdx") then Ok Wire.Tdx
  else Err BadTee.

Definition entry_tdx_policy (t : Wire.Tee) (p : option Wire.TdxPolicy) :
    result RegistryError (option Core.TdxPolicy) :=
  match t, p with
  | Wire.Tdx, Some p => q ← validate_tdx_policy p; Ok (Some q)
  | Wire.Tdx, None => Err TdxPolicyMissing
  | Wire.SevSnp, Some _ => Err TdxPolicyOnSevSnp
  | Wire.SevSnp, None => Ok None
  end.

Definition validate_registry_node (dto : RegistryFileNode) : result RegistryError RegistryNode :=
  _ ← map_err BadId (validate_identifier (file_id dto));
  _ ← validate_slug (str "operator") (file_operator dto) 128;
  _ ← validate_jurisdiction (file_jurisdiction dto);
  _ ← validate_host (file_host dto);
  _ ← ensure (negb (file_port dto =? 0)%Z) ZeroPort;
  tee ← parse_tee (file_tee dto);
  role ← ok_or (Role.parse (file_role dto)) BadRole;
  _ ← validate_lower_hex (str "measurement") (file_measurement dto) 48;
  _ ← validate_opt_hex (str "tls_spki_sha256") (file_tls_spki_sha256 dto) 32;
  _ ← validate_opt_hex (str "wg_pub") (file_wg_pub dto) 32;
  _ ← validate_opt_hex (str "transparency_log_key") (file_transparency_log_key dto) 32;
  _ ← ensure (negb (bool_decide (tee = Wire.Tdx)
                    && bool_decide (is_Some (file_min_tcb_sevsnp dto)))) FloorOnTdx;
  policy ← entry_tdx_policy tee (file_tdx_policy dto);
  Ok {| id := file_id dto; host := file_host dto; port := file_port dto; reg_tee := tee;
        reg_measurement := file_measurement dto;
        reg_tls_spki_sha256 := file_tls_spki_sha256 dto;
        operator := file_operator dto; jurisdiction := file_jurisdiction dto;
        wg_pub := file_wg_pub dto; reg_role := role;
        min_tcb_sevsnp := file_min_tcb_sevsnp dto; tdx_policy := policy;
        transparency_log_key := file_transparency_log_key dto |}.

(** ** The registry *)

Record NodeRegistry := { nodes : list RegistryNode; dead : gset bytes }.

(** The loop of [from_file], with its two [HashSet]s. *)
Fixpoint load_entries (index : nat) (ids : gset bytes) (endpoints : gset (bytes * Z))
    (dtos : list RegistryFileNode) : result RegistryError (list RegistryNode) :=
  match dtos with
  | [] => Ok []
  | dto :: dtos =>
      node ← map_err (EntryInvalid index) (validate_registry_node dto);
      _ ← ensure (negb (bool_decide (id node ∈ ids))) (DuplicateId index);
      _ ← ensure (negb (bool_decide ((host node, port node) ∈ endpoints)))
                 (DuplicateEndpoint index);
      rest ← load_entries (S index) ({[id node]} ∪ ids)
                           ({[(host node, port node)]} ∪ endpoints) dtos;
      Ok (node :: rest)
  end.

Section FromFile.
(** The file system and the JSON reader. *)
Context (read : bytes → option bytes) (from_slice : bytes → option (list RegistryFileNode)).

Definition from_file (path : bytes) : result RegistryError NodeRegistry :=
  content ← ok_or (read path) RegistryRead;
  dtos ← ok_or (from_slice content) RegistryParse;
  if decide (dtos = []) then Err RegistryEmpty
  else ns ← load_entries 0 ∅ ∅ dtos; Ok {| nodes := ns; dead := ∅ |}.

End FromFile.

Definition dev_node (nid nhost op jur : bytes) (r : Role.t) : RegistryNode := {|
  id := nid; host := nhost; port := 443; reg_tee := Wire.SevSnp;
  reg_measurement := str "000102030405060708090a0b0c0d0e0f101112131415161718191a1b1c1d1e1f202122232425262728292a2b2c2d2e2f";
  reg_tls_spki_sha256 := Some (mjoin (replicate 32 (str "00")));
  operator := op; jurisdiction := jur; wg_pub := None; reg_role := r;
  min_tcb_sevsnp := None; tdx_policy := None; transparency_log_key := None |}.

Definition dev_default : NodeRegistry := {|
  nodes := [dev_node (str "entry-us") (str "192.0.2.10") (str "op-anvil") (str "US") Role.Entry;
            dev_node (str "middle-de") (str "198.51.100.20") (str "op-borealis") (str "DE") Role.Middle;
            dev_node (str "exit-ch") (str "203.0.113.30") (str "op-cirrus") (str "CH") Role.Exit;
            dev_node (str "exit-se") (str "203.0.113.31") (str "op-dune") (str "SE") Role.Exit];
  dead := ∅ |}.

Definition mark_down (r : NodeRegistry) (h : bytes) : NodeRegistry :=
  {| nodes := nodes r; dead := {[h]} ∪ dead r |}.

Definition mark_up (r : NodeRegistry) (h : bytes) : NodeRegistry :=
  {| nodes := nodes r; dead := dead r ∖ {[h]} |}.

Definition live_nodes (r : NodeRegistry) : list RegistryNode :=
  filter (λ n, host n ∉ dead r) (nodes r).

(** *** Release posture *)

Definition all_nodes_have_tls_spki (r : NodeRegistry) : bool :=
  forallb (λ n, bool_decide (is_Some (reg_tls_spki_sha256 n))) (nodes r).

Definition all_nodes_have_transparency_key (r : NodeRegistry) : bool :=
  forallb (λ n, bool_decide (is_Some (transparency_log_key n))) (nodes r).

Definition all_sev_nodes_have_min_tcb (r : NodeRegistry) : bool :=
  forallb (λ n, negb (bool_decide (reg_tee n = Wire.SevSnp))
                || bool_decide (is_Some (min_tcb_sevsnp n))) (nodes r).

Definition nested_ipv4_endpoint (n : RegistryNode) : bool :=
  (port n =? 443)%Z
  && match parse_ipv4 (host n) with
     | Some ip => negb (v4_is_unspecified ip) && negb (v4_is_loopback ip)
                  && negb (v4_is_multicast ip) && negb (bool_decide (ip = v4_BROADCAST))
     | None => false
     end.

Definition all_nodes_have_nested_ipv4_endpoints (r : NodeRegistry) : bool :=
  forallb nested_ipv4_endpoint (nodes r).

(** ** What an admitted entry satisfies *)

Definition slug_char (b : byte) : bool :=
  is_ascii_lowercase b || is_ascii_digit b || bool_decide (b ∈ [x2d; x5f; x2e]).

Definition slug_ok (max_len : nat) (v : bytes) : Prop :=
  length v ≤ max_len ∧ Forall (λ b, slug_char b = true) v ∧
  ∃ a z, head v = Some a ∧ last v = Some z ∧ is_edge a = true ∧ is_edge z = true.

Definition jurisdiction_ok (v : bytes) : Prop :=
  length v = 2 ∧ Forall (λ b, is_ascii_uppercase b = true) v.

Definition label_char (b : byte) : bool :=
  is_ascii_lowercase b || is_ascii_digit b || bool_decide (b = x2d).

Definition label_ok (l : bytes) : Prop :=
  1 ≤ length l ≤ 63 ∧ head l ≠ Some x2d ∧ last l ≠ Some x2d ∧
  Forall (λ b, label_char b = true) l.

(** A canonical IP literal, or a lowercase DNS name that does not look like one. *)
Definition host_ok (v : bytes) : Prop :=
  1 ≤ length v ≤ 253 ∧
  match parse_ip v with
  | Some ip => v = ip_to_string ip
  | None => forallb (λ b, is_ascii_digit b || bool_decide (b = x2e)) v = false ∧
            x3a ∉ v ∧ Forall label_ok (split_on x2e v)
  end.

Definition hex_of (n : nat) (v : bytes) : Prop := ∃ b, length b = n ∧ v = to_hex b.

Record policy_ok (p : Core.TdxPolicy) : Prop := {
  po_td : length (Core.td_attributes p) = 8;
  po_debug : ∀ b, head (Core.td_attributes p) = Some b → Z.testbit (b2z b) 0 = false;
  po_xfam : length (Core.xfam p) = 8;
  po_config : length (Core.mr_config_id p) = 48;
  po_owner : length (Core.mr_owner p) = 48;
  po_owner_config : length (Core.mr_owner_config p) = 48;
  po_rt : Forall (λ m, length m = 48 ∧ ∃ b, b ∈ m ∧ b ≠ x00)
            [Core.rt_mr0 p; Core.rt_mr1 p; Core.rt_mr2 p; Core.rt_mr3 p];
  po_service : ∀ m, Core.mr_service_td p = Some m → length m = 48;
}.

Record node_ok (n : RegistryNode) : Prop := {
  no_id : identifier_ok (id n);
  no_operator : slug_ok 128 (operator n);
  no_jurisdiction : jurisdiction_ok (jurisdiction n);
  no_host : host_ok (host n);
  no_port : port n ≠ 0%Z;
  no_measurement : hex_of 48 (reg_measurement n);
  no_spki : ∀ v, reg_tls_spki_sha256 n = Some v → hex_of 32 v;
  no_wg : ∀ v, wg_pub n = Some v → hex_of 32 v;
  no_log_key : ∀ v, transparency_log_key n = Some v → hex_of 32 v;
  no_floor : reg_tee n = Wire.Tdx → min_tcb_sevsnp n = None;
  no_tdx : reg_tee n = Wire.Tdx ↔ is_Some (tdx_policy n);
  no_policy : ∀ p, tdx_policy n = Some p → policy_ok p;
}.

Definition tee_text (t : Wire.Tee) : bytes :=
  match t with Wire.SevSnp => str "sev-snp" | Wire.Tdx => str "tdx" end.

Definition role_text (r : Role.t) : bytes :=
  match r with Role.Entry => str "entry" | Role.Middle => str "middle" | Role.Exit => str "exit" end.

(** The one file entry an admitted node comes from. *)
Definition to_file (n : RegistryNode) : RegistryFileNode := {|
  file_id := id n; file_host := host n; file_port := port n;
  file_tee := tee_text (reg_tee n); file_measurement := reg_measurement n;
  file_tls_spki_sha256 := reg_tls_spki_sha256 n; file_operator := operator n;
  file_jurisdiction := jurisdiction n; file_wg_pub := wg_pub n;
  file_role := role_text (reg_role n); file_min_tcb_sevsnp := min_tcb_sevsnp n;
  file_tdx_policy := tdx_policy_to_wire <$> tdx_policy n;
  file_transparency_log_key := transparency_log_key n |}.

(** ** Each validator decides its predicate *)

Lemma validate_lower_hex_ok field v n u :
  validate_lower_hex field v n = Ok u ↔ hex_of n v.
Proof.
  unfold validate_lower_hex, hex_of. split.
  - destruct (length v =? n * 2)%nat eqn:E; [|done]. cbn [negb].
    destruct (forallb is_lower_hex v) eqn:F; [|done]. intros _.
    destruct (lower_hex_decodes n v) as (b & _ & Hl & Ht).
    { unfold lower_hex_ok. by rewrite E, F. }
    eauto.
  - intros (b & Hb & ->). pose proof (to_hex_lower_hex_ok b n Hb) as H.
    unfold lower_hex_ok in H. apply andb_true_iff in H as [H1 H2]. destruct u.
    by rewrite H1, H2.
Qed.

Lemma validate_opt_hex_ok field v n u :
  validate_opt_hex field v n = Ok u ↔ ∀ w, v = Some w → hex_of n w.
Proof.
  destruct v as [v|]; cbn; destruct u.
  - rewrite validate_lower_hex_ok. naive_solver.
  - naive_solver.
Qed.

(** Decoding accepts exactly the canonical text of [N] bytes. *)
Lemma decode_fixed_hex_ok N field v b :
  decode_fixed_hex N field v = Ok b ↔ length b = N ∧ to_hex b = v.
Proof.
  unfold decode_fixed_hex. split.
  - intros H. inv_ok H. rename select (validate_lower_hex _ _ _ = _) into Hv.
    apply validate_lower_hex_ok in Hv as (b' & Hb' & ->). rewrite from_hex_to_hex in H.
    case_decide; [|done]. assert (b' = b) as -> by congruence. done.
  - intros [Hb <-]. rewrite (proj2 (validate_lower_hex_ok _ _ _ tt)) by (exists b; done).
    by rewrite Ok_bind, from_hex_to_hex, decide_True.
Qed.

Lemma all_zero_false m : all_zero m = false ↔ ∃ b, b ∈ m ∧ b ≠ x00.
Proof.
  unfold all_zero. rewrite <- not_true_iff_false, forallb_Forall_true, <- Exists_Forall_neg.
  - rewrite Exists_exists. by setoid_rewrite bool_decide_eq_true.
  - intros b. rewrite bool_decide_eq_true. destruct (decide (b = x00)); auto.
Qed.

Lemma debug_bit_clear td :
  match td with b :: _ => Z.land (b2z b) 1 =? 0 | [] => true end%Z = true ↔
  ∀ b, head td = Some b → Z.testbit (b2z b) 0 = false.
Proof.
  destruct td as [|b td]; cbn [head hd_error]; [naive_solver|].
  change 1%Z with (Z.ones 1). rewrite Z.land_ones, Z.eqb_eq by lia.
  change (2 ^ 1)%Z with 2%Z. rewrite <- Z.bit0_mod. split.
  - intros H b' [= <-]. by destruct (Z.testbit (b2z b) 0).
  - intros H. by rewrite (H b eq_refl).
Qed.

Lemma validate_tdx_policy_ok dto p :
  validate_tdx_policy dto = Ok p ↔ policy_ok p ∧ dto = tdx_policy_to_wire p.
Proof.
  unfold validate_tdx_policy. split.
  - intros H. inv_ok H. injection H as <-.
    repeat match goal with
      | K : decode_fixed_hex _ _ _ = Ok _ |- _ => apply decode_fixed_hex_ok in K as [? ?]
      | K : negb (all_zero _) = true |- _ => apply negb_true_iff, all_zero_false in K
      end.
    rename select (match Wire.mr_service_td dto with _ => _ end = _) into Hs.
    assert (Hsv : ∃ sv, x13 = sv ∧ Wire.mr_service_td dto = to_hex <$> sv ∧
              ∀ m, sv = Some m → length m = 48).
    { exists x13. split; [done|]. destruct (Wire.mr_service_td dto) as [v|].
      - inv_ok Hs. injection Hs as <-.
        rename select (decode_fixed_hex _ _ _ = Ok _) into Hd.
        apply decode_fixed_hex_ok in Hd as [? <-]. naive_solver.
      - by injection Hs as <-. }
    destruct Hsv as (sv & -> & Hsv & Hl). split.
    + split; cbn; try done; [by apply debug_bit_clear|]. repeat constructor; done.
    + destruct dto. cbn in *. by subst.
  - intros [[Htd Hdbg Hxf Hci How Hoc Hrt Hsv] ->].
    inversion Hrt as [|?? [L0 Z0] Hrt0]; subst. inversion Hrt0 as [|?? [L1 Z1] Hrt1]; subst.
    inversion Hrt1 as [|?? [L2 Z2] Hrt2]; subst. inversion Hrt2 as [|?? [L3 Z3] _]; subst.
    assert (D : ∀ N f b, length b = N → decode_fixed_hex N f (encode_lower_hex b) = Ok b).
    { intros N f b Hb. by apply decode_fixed_hex_ok. }
    destruct p as [td xf ci ow oc m0 m1 m2 m3 sv].
    cbn [tdx_policy_to_wire Wire.td_attributes Wire.xfam Wire.mr_config_id Wire.mr_owner Wire.mr_owner_config Wire.rt_mr0 Wire.rt_mr1 Wire.rt_mr2 Wire.rt_mr3 Wire.mr_service_td
         Core.td_attributes Core.xfam Core.mr_config_id Core.mr_owner Core.mr_owner_config Core.rt_mr0 Core.rt_mr1 Core.rt_mr2 Core.rt_mr3 Core.mr_service_td] in *.
    rewrite !D by done. rewrite Ok_bind, (proj2 (debug_bit_clear td) Hdbg), ensure_true.
    rewrite !Ok_bind, !(proj2 (all_zero_false _)) by done. cbn [negb].
    rewrite !ensure_true, !Ok_bind.
    destruct sv as [sv|]; cbn [fmap option_fmap option_map]; [|done].
    by rewrite D, !Ok_bind by auto.
Qed.

Lemma edge_test b :
  negb (is_ascii_lowercase b) && negb (is_ascii_digit b) = negb (is_edge b).
Proof. unfold is_edge. by rewrite negb_orb. Qed.

Lemma head_last_cons {A} (x : A) l :
  ∃ z, head (x :: l) = Some x ∧ last (x :: l) = Some z.
Proof.
  destruct (last (x :: l)) as [z|] eqn:E; [by exists z|]. by apply last_None in E.
Qed.

Lemma validate_slug_ok field v n u : validate_slug field v n = Ok u ↔ slug_ok n v.
Proof.
  unfold validate_slug, slug_ok. destruct u.
  destruct v as [|x v]; [cbn; naive_solver|].
  destruct (head_last_cons x v) as (z & -> & ->).
  rewrite bool_decide_false by done. rewrite !edge_test. cbn [orb].
  destruct (Nat.ltb_spec n (length (x :: v))); [naive_solver lia|].
  destruct (is_edge x) eqn:Ex, (is_edge z) eqn:Ez; cbn [negb].
  2-4: split; [done|]; intros (_ & _ & ? & ? & [= <-] & [= <-] & ? & ?); congruence.
  change (forallb (λ b, _) (x :: v)) with (forallb slug_char (x :: v)).
  destruct (forallb slug_char (x :: v)) eqn:F; cbn [negb].
  - split; [|done]. intros _. apply forallb_Forall_true in F. eauto 10.
  - split; [done|]. intros (_ & Hf%forallb_Forall_true & _). congruence.
Qed.

Lemma validate_jurisdiction_ok v u : validate_jurisdiction v = Ok u ↔ jurisdiction_ok v.
Proof.
  unfold validate_jurisdiction, jurisdiction_ok. destruct u.
  rewrite <- forallb_Forall_true.
  destruct (Nat.eqb_spec (length v) 2), (forallb is_ascii_uppercase v); cbn; naive_solver.
Qed.

Lemma validate_label_ok l u : validate_label l = Ok u ↔ label_ok l.
Proof.
  unfold validate_label, label_ok. destruct u. rewrite <- forallb_Forall_true.
  destruct l as [|x l]; [cbn; naive_solver lia|]. rewrite bool_decide_false by done.
  cbn [orb]. destruct (Nat.ltb_spec 63 (length (x :: l))); [naive_solver lia|].
  do 2 (case_bool_decide; cbn [orb]; [naive_solver|]).
  change (forallb (λ b, _) (x :: l)) with (forallb label_char (x :: l)).
  destruct (forallb label_char (x :: l)) eqn:F; cbn [negb].
  - split; [|done]. intros _. split_and!; try done. cbn. lia.
  - split; [done|]. intros (_ & _ & _ & Hf). congruence.
Qed.

Lemma split_on_snoc sep s : split_on sep (s ++ [sep]) = split_on sep s ++ [[]].
Proof.
  induction s as [|c s IH]; cbn.
  - by rewrite decide_True.
  - rewrite IH. case_decide; [done|].
    pose proof (split_on_nonempty sep s). by destruct (split_on sep s).
Qed.

(** The test for a leading or trailing dot only names the error: the label test would
    refuse the empty label it leaves. *)
Lemma labels_no_dot_edge v :
  Forall label_ok (split_on x2e v) → head v ≠ Some x2e ∧ last v ≠ Some x2e.
Proof.
  intros Hf. split; intros E.
  - destruct v as [|c v]; [done|]. cbn in E. injection E as ->. cbn in Hf.
    inversion Hf as [|?? [? _]]; subst. cbn in *. lia.
  - apply last_Some in E as [v' ->]. rewrite split_on_snoc in Hf.
    apply Forall_app in Hf as [_ Hf]. inversion Hf as [|?? [? _]]; subst. cbn in *. lia.
Qed.

Lemma validate_host_ok v u : validate_host v = Ok u ↔ host_ok v.
Proof.
  unfold validate_host, host_ok. destruct u.
  destruct v as [|x v]; [cbn; naive_solver lia|]. rewrite bool_decide_false by done. cbn [orb].
  set (w := x :: v). assert (1 ≤ length w) by (cbn; lia).
  destruct (Nat.ltb_spec 253 (length w)); [naive_solver lia|].
  destruct (parse_ip w) as [ip|]; [case_decide; naive_solver|].
  destruct (forallb _ w); cbn [orb]; [naive_solver|].
  case_bool_decide as Hc; [naive_solver|].
  assert (Hm : (∃ ys, result_mapM validate_label (split_on x2e w) = Ok ys) ↔
               Forall label_ok (split_on x2e w)).
  { setoid_rewrite result_mapM_Ok. generalize (split_on x2e w). intros ls. split.
    - intros (ys & Hys). induction Hys; constructor; [by eapply validate_label_ok|done].
    - induction 1 as [|l ls Hl _ [ys Hys]]; [by exists []|].
      exists (tt :: ys). constructor; [by apply validate_label_ok|done]. }
  destruct (bool_decide (head w = _) || bool_decide (last w = _)) eqn:E.
  - split; [done|]. intros (_ & _ & _ & [H1 H2]%labels_no_dot_edge).
    by rewrite !bool_decide_false in E.
  - rewrite bind_Ok, <- Hm. naive_solver.
Qed.

(** ** Entries and registries *)

Lemma parse_tee_ok s t : parse_tee s = Ok t ↔ s = tee_text t.
Proof.
  unfold parse_tee. split.
  - repeat case_decide; intros [= <-]; done.
  - intros ->. by destruct t.
Qed.

Lemma Role_parse_ok s r : Role.parse s = Some r ↔ s = role_text r.
Proof.
  unfold Role.parse. split.
  - repeat case_decide; intros [= <-]; done.
  - intros ->. by destruct r.
Qed.

Lemma entry_tdx_policy_ok t w q :
  entry_tdx_policy t w = Ok q ↔
  (t = Wire.Tdx ↔ is_Some q) ∧ (∀ p, q = Some p → policy_ok p) ∧
  w = (tdx_policy_to_wire <$> q).
Proof.
  assert (Hsome : ∀ p, ¬ (Wire.SevSnp = Wire.Tdx ↔ is_Some (Some p : option Core.TdxPolicy))).
  { intros p [_ H]. by discriminate H. }
  destruct t, w as [w|]; cbn [entry_tdx_policy].
  - split; [done|]. intros (H1 & _ & H3). destruct q as [q|]; [by destruct (Hsome q)|done].
  - split.
    + intros [= <-]. by split_and!.
    + intros (H1 & _ & H3). by destruct q.
  - rewrite bind_Ok. setoid_rewrite validate_tdx_policy_ok. split.
    + intros (p & [Hp ->] & [= <-]). split_and!; try done; naive_solver.
    + intros (_ & Hp & Hw). destruct q as [p|]; [|done]. cbn in Hw. injection Hw as ->.
      exists p. auto.
  - split; [done|]. intros (H1 & _ & H3). destruct q; [done|].
    destruct (proj1 H1 eq_refl). done.
Qed.

Lemma validate_registry_node_ok dto n :
  validate_registry_node dto = Ok n ↔ node_ok n ∧ dto = to_file n.
Proof.
  unfold validate_registry_node. split.
  - intros H. inv_ok H. injection H as <-. reflect_bools.
    repeat match goal with
      | K : validate_identifier _ = Ok _ |- _ => apply validate_named_identifier_ok in K
      | K : validate_slug _ _ _ = Ok _ |- _ => apply validate_slug_ok in K
      | K : validate_jurisdiction _ = Ok _ |- _ => apply validate_jurisdiction_ok in K
      | K : validate_host _ = Ok _ |- _ => apply validate_host_ok in K
      | K : validate_lower_hex _ _ _ = Ok _ |- _ => apply validate_lower_hex_ok in K
      | K : validate_opt_hex _ _ _ = Ok _ |- _ => pose proof (proj1 (validate_opt_hex_ok _ _ _ _) K); clear K
      | K : parse_tee _ = Ok _ |- _ => apply parse_tee_ok in K
      | K : Role.parse _ = Some _ |- _ => apply Role_parse_ok in K
      | K : entry_tdx_policy _ _ = Ok _ |- _ => apply entry_tdx_policy_ok in K as (? & ? & ?)
      | K : (_ && _)%bool = false |- _ => apply andb_false_iff in K
      end.
    split.
    + split; cbn; try done. intros ->.
      rename select (_ ∨ _) into Hf. rewrite bool_decide_true in Hf by done.
      destruct Hf as [|Hf]; [done|]. apply bool_decide_eq_false in Hf.
      by apply eq_None_not_Some.
    + destruct dto. cbn in *. unfold to_file. cbn. by subst.
  - intros [[H1 H2 H3 H4 H5 H6 H7 H8 H9 H10 H11 H12] ->]. destruct n. cbn in *.
    unfold validate_identifier. cbn [to_file file_id file_operator].
    rewrite (proj2 (validate_named_identifier_ok _ _ tt) H1). cbn [map_err]. rewrite Ok_bind.
    rewrite (proj2 (validate_slug_ok _ _ _ tt) H2), Ok_bind. cbn [file_jurisdiction file_host].
    rewrite (proj2 (validate_jurisdiction_ok _ tt) H3), Ok_bind.
    rewrite (proj2 (validate_host_ok _ tt) H4), Ok_bind. cbn [file_port].
    rewrite (proj2 (Z.eqb_neq _ _) H5). cbn [negb]. rewrite ensure_true, Ok_bind. cbn [file_tee].
    rewrite (proj2 (parse_tee_ok _ _) eq_refl), Ok_bind. cbn [file_role].
    rewrite (proj2 (Role_parse_ok _ _) eq_refl), ok_or_Some, Ok_bind. cbn [file_measurement].
    rewrite (proj2 (validate_lower_hex_ok _ _ _ tt) H6), Ok_bind.
    rewrite (proj2 (validate_opt_hex_ok _ _ _ tt) H7), Ok_bind.
    rewrite (proj2 (validate_opt_hex_ok _ _ _ tt) H8), Ok_bind.
    rewrite (proj2 (validate_opt_hex_ok _ _ _ tt) H9), Ok_bind.
    assert (∀ t m, (t = Wire.Tdx → m = None) →
      ensure (negb (bool_decide (t = Wire.Tdx)
                    && bool_decide (is_Some (m : option Wire.SevSnpTcbFloor)))) FloorOnTdx
      = Ok tt) as ->.
    { intros t m Hm. case_bool_decide as E; [|done]. by rewrite (Hm E). }
    2: exact H10.
    rewrite Ok_bind.
    by rewrite (proj2 (entry_tdx_policy_ok _ _ _) (conj H11 (conj H12 eq_refl))), Ok_bind.
Qed.

Definition endpoint (n : RegistryNode) : bytes * Z := (host n, port n).

Lemma load_entries_ok index ids eps dtos ns :
  load_entries index ids eps dtos = Ok ns ↔
  Forall node_ok ns ∧ dtos = to_file <$> ns ∧
  NoDup (id <$> ns) ∧ NoDup (endpoint <$> ns) ∧
  Forall (λ n, id n ∉ ids ∧ endpoint n ∉ eps) ns.
Proof.
  revert index ids eps ns. induction dtos as [|dto dtos IH]; intros index ids eps ns;
    cbn [load_entries].
  { split.
    - intros [= <-]. repeat constructor.
    - intros (_ & H & _). by destruct ns. }
  rewrite bind_Ok. setoid_rewrite map_err_Ok. setoid_rewrite validate_registry_node_ok. split.
  - intros (n & [Hn ->] & H). inv_ok H. injection H as <-. reflect_bools.
    rename select (load_entries _ _ _ _ = _) into Ha.
    apply IH in Ha as (? & -> & Hid & Hep & Hf). rewrite !fmap_cons, !NoDup_cons.
    rewrite Forall_forall in Hf. split_and!; try done.
    + by constructor.
    + intros (m & He & Hm)%list_elem_of_fmap. destruct (Hf m Hm) as [K _].
      apply K, elem_of_union_l, elem_of_singleton. done.
    + intros (m & He & Hm)%list_elem_of_fmap. destruct (Hf m Hm) as [_ K].
      apply K, elem_of_union_l, elem_of_singleton. done.
    + constructor; [done|]. apply Forall_forall. intros m Hm. destruct (Hf m Hm) as [K1 K2].
      split; intros E; [apply K1 | apply K2]; by apply elem_of_union_r.
  - intros (Hok & Hd & Hid & Hep & Hf). destruct ns as [|n ns]; [done|].
    rewrite fmap_cons in Hd. injection Hd as -> ->.
    rewrite !fmap_cons, !NoDup_cons in *. destruct Hid as [Hi Hid], Hep as [He Hep].
    inversion Hok; subst. inversion Hf as [|?? [Hi' He'] Hf']; subst.
    exists n. split; [done|]. fold (endpoint n).
    rewrite !bool_decide_false by done. cbn [negb]. ok_step.
    rewrite (proj2 (IH _ _ _ ns)), Ok_bind; [done|]. split_and!; try done.
    rewrite Forall_forall in Hf'. apply Forall_forall. intros m Hm. destruct (Hf' m Hm).
    split; [|change (host n, port n) with (endpoint n)]; rewrite elem_of_union, elem_of_singleton;
      intros [E|]; try done; [apply Hi | apply He]; apply list_elem_of_fmap; eauto.
Qed.

Lemma from_file_spec (read : bytes → option bytes)
    (from_slice : bytes → option (list RegistryFileNode)) path r :
  from_file read from_slice path = Ok r ↔
  ∃ content, read path = Some content ∧ from_slice content = Some (to_file <$> nodes r) ∧
    nodes r ≠ [] ∧ Forall node_ok (nodes r) ∧ NoDup (id <$> nodes r) ∧
    NoDup (endpoint <$> nodes r) ∧ dead r = ∅.
Proof.
  unfold from_file. split.
  - intros H. inv_ok H. case_decide as Hne; [done|]. inv_ok H. injection H as <-.
    rename select (load_entries _ _ _ _ = _) into Ha.
    apply load_entries_ok in Ha as (? & -> & ? & ? & _). eexists. split_and!; try done.
    by intros E; cbn in E; subst.
  - intros (content & -> & E & Hne & Hok & Hid & Hep & Hd). ok_step. rewrite E. ok_step.
    rewrite decide_False by (by destruct (nodes r)).
    rewrite (proj2 (load_entries_ok _ _ _ _ (nodes r))), Ok_bind.
    + destruct r. cbn in *. by subst.
    + split_and!; try done. apply Forall_forall. set_solver.
Qed.

(** The registry loader is exact: a file is admitted, with exactly the listed nodes in
    order and every host live, if and only if it lists at least one node, no two entries
    share an id or an endpoint, and every entry is the canonical spelling of a well-formed
    node ([node_ok]: identifier, operator, jurisdiction, host, nonzero port, measurement and
    key encodings, a TDX policy exactly on TDX nodes, never in debug mode and with no zero
    runtime register).  The published TDX policy is therefore the text of the file. *)
Theorem from_file_exact (read : bytes → option bytes)
    (from_slice : bytes → option (list RegistryFileNode)) path r :
  from_file read from_slice path = Ok r ↔
  ∃ content, read path = Some content ∧ from_slice content = Some (to_file <$> nodes r) ∧
    nodes r ≠ [] ∧ Forall node_ok (nodes r) ∧ NoDup (id <$> nodes r) ∧
    NoDup (endpoint <$> nodes r) ∧ dead r = ∅.
Proof. apply from_file_spec. Qed.
