(* ===== verification/PathSel.v ===== *)
(** * Trust-split path selection ([crates/nil-coordinator/src/pathsel.rs])

    The Coordinator picks entry, middle and exit nodes run by different operators in
    different jurisdictions.  [select_path] shuffles the live nodes and searches depth
    first, undoing a choice that leads nowhere.  The file proves that the search returns a
    trust-split path of live nodes, and that it returns one whenever one exists. *)

From S2P Require Import Prelude.
From S2P Require Import Text.
From S2P Require Import Net.
From S2P Require Import Crypto.
From S2P Require Import Grant.
From S2P Require Import Registry.
From Stdlib Require Import Strings.Byte ZArith Lia.
From stdpp Require Import prelude gmap strings.

(** ** Operations *)

Definition fills (n : RegistryNode) (pos : Role.t) : bool := bool_decide (reg_role n = pos).

Definition to_hop (n : RegistryNode) : Wire.Hop := {|
  Wire.hop_host := host n; Wire.hop_port := port n; Wire.hop_tee := reg_tee n;
  Wire.hop_measurement := reg_measurement n;
  Wire.hop_tls_spki_sha256 := reg_tls_spki_sha256 n;
  Wire.hop_wg_pub := wg_pub n; Wire.hop_grant := None; Wire.hop_grant_nonce := None;
  Wire.hop_min_tcb_sevsnp := min_tcb_sevsnp n;
  Wire.hop_tdx_policy := tdx_policy_to_wire <$> tdx_policy n;
  Wire.hop_transparency_log_key := transparency_log_key n |}.

Record SelectedHop := { hop : Wire.Hop; sel_node_id : bytes; intended_role : Role.t }.

(** The [any] of the clash test and the duplicate test, per chosen node. *)
Definition clashes (c n : RegistryNode) : bool :=
  bool_decide (operator c = operator n) || bool_decide (jurisdiction c = jurisdiction n).

Definition same_node (c n : RegistryNode) : bool :=
  bool_decide (id c = id n)
  || (bool_decide (host c = host n) && bool_decide (port c = port n)%Z).

(** The depth-first search.  [chosen] is the vector the code pushes to and pops from; it is
    returned with the verdict.  The fuel bounds the depth: the recursion adds one hop per
    level and stops at [hops]. *)
Fixpoint extend_path (fuel : nat) (candidates : list RegistryNode) (hops : nat)
    (chosen : list RegistryNode) : bool * list RegistryNode :=
  if (length chosen =? hops)%nat then (true, chosen)
  else match fuel with
  | 0 => (false, chosen)
  | S fuel =>
      let pos := Role.for_position (length chosen) hops in
      (fix each (rest : list RegistryNode) (chosen : list RegistryNode) :=
         match rest with
         | [] => (false, chosen)
         | node :: rest =>
             if negb (fills node pos) then each rest chosen
             else if existsb (λ c, clashes c node) chosen
                     || existsb (λ c, same_node c node) chosen then each rest chosen
             else
               let '(found, chosen') := extend_path fuel candidates hops (chosen ++ [node]) in
               if found then (true, chosen')
               else each rest (removelast chosen')
         end) candidates chosen
  end.

(** [slice::swap]; both indices are in range wherever the code calls it. *)
Definition swap {A} (l : list A) (i j : nat) : list A :=
  match l !! i, l !! j with
  | Some x, Some y => <[i := y]> (<[j := x]> l)
  | _, _ => l
  end.

Fixpoint le_value (l : bytes) : Z :=
  match l with [] => 0 | b :: l => b2z b + 256 * le_value l end%Z.

(** The loop [for i in (1..len).rev()] over the random buffer. *)
Fixpoint shuffle_loop {A} (buf : bytes) (i : nat) (items : list A) : list A :=
  match i with
  | 0 => items
  | S i' =>
      let r := take 8 (drop (i * 8) buf) in
      let j := Z.to_nat (le_value r mod (Z.of_nat i + 1)) in
      shuffle_loop buf i' (swap items i j)
  end.

(** [entropy n] is the outcome of filling an [n]-byte buffer from the system generator. *)
Definition shuffle {A} (entropy : nat → option bytes) (items : list A) : list A :=
  if (length items <? 2)%nat then items
  else match entropy (length items * 8) with
       | None => items
       | Some buf => shuffle_loop buf (length items - 1) items
       end.

Definition selected (hops index : nat) (n : RegistryNode) : SelectedHop :=
  {| hop := to_hop n; sel_node_id := id n;
     intended_role := Role.for_position index hops |}.

Definition select_path (entropy : nat → option bytes) (r : NodeRegistry) (hops : nat) :
    option (list SelectedHop) :=
  let candidates := shuffle entropy (live_nodes r) in
  let '(found, chosen) := extend_path hops candidates hops [] in
  if found then Some (imap (selected hops) chosen) else None.

(** ** Specification *)

(** Two nodes that may share a path: nothing in common that matters. *)
Definition independent (a b : RegistryNode) : Prop :=
  operator a ≠ operator b ∧ jurisdiction a ≠ jurisdiction b ∧ id a ≠ id b ∧
  endpoint a ≠ endpoint b.

Record trust_split (r : NodeRegistry) (hops : nat) (path : list RegistryNode) : Prop := {
  ts_length : length path = hops;
  ts_live : ∀ n, n ∈ path → n ∈ nodes r ∧ host n ∉ dead r;
  ts_roles : ∀ i n, path !! i = Some n → reg_role n = Role.for_position i hops;
  ts_independent : ∀ i j a b, path !! i = Some a → path !! j = Some b → i < j → independent a b;
}.

(** ** The search *)

Lemma same_node_endpoint c n :
  same_node c n = true ↔ id c = id n ∨ endpoint c = endpoint n.
Proof.
  unfold same_node, endpoint. by rewrite orb_true_iff, andb_true_iff, !bool_decide_eq_true, pair_eq.
Qed.

Lemma existsb_or {A} (f g : A → bool) l :
  existsb (λ x, f x || g x) l = existsb f l || existsb g l.
Proof.
  induction l as [|x l IH]; cbn; [done|]. rewrite IH.
  by destruct (f x), (g x), (existsb f l), (existsb g l).
Qed.

Lemma no_clash_independent chosen n :
  existsb (λ c, clashes c n) chosen || existsb (λ c, same_node c n) chosen = false ↔
  Forall (λ c, independent c n) chosen.
Proof.
  rewrite <- existsb_or, <- not_true_iff_false, existsb_exists, Forall_forall.
  split.
  - intros H c Hc. destruct (clashes c n || same_node c n) eqn:E.
    { destruct H. exists c. by rewrite <- list_elem_of_In. }
    apply orb_false_iff in E as [E1 E2]. unfold clashes in E1. reflect_bools.
    rewrite <- not_true_iff_false, same_node_endpoint in E2. unfold independent. tauto.
  - intros H (c & Hc%list_elem_of_In & E). destruct (H c Hc) as (? & ? & ? & ?).
    apply orb_true_iff in E as [E|E%same_node_endpoint]; [|tauto].
    unfold clashes in E. rewrite !bool_decide_false in E by done. done.
Qed.

(** [ext] completes [chosen] to a full path, drawing from [candidates]. *)
Fixpoint completes (candidates : list RegistryNode) (hops : nat)
    (chosen ext : list RegistryNode) : Prop :=
  match ext with
  | [] => length chosen = hops
  | n :: ext =>
      length chosen < hops ∧ n ∈ candidates ∧
      reg_role n = Role.for_position (length chosen) hops ∧
      Forall (λ c, independent c n) chosen ∧
      completes candidates hops (chosen ++ [n]) ext
  end.

Lemma extend_path_correct fuel candidates hops chosen :
  length chosen + fuel = hops →
  match extend_path fuel candidates hops chosen with
  | (true, chosen') => ∃ ext, chosen' = chosen ++ ext ∧ completes candidates hops chosen ext
  | (false, chosen') => chosen' = chosen ∧ ∀ ext, ¬ completes candidates hops chosen ext
  end.
Proof.
  revert chosen. induction fuel as [|fuel IH]; intros chosen Hlen; cbn [extend_path].
  { rewrite (proj2 (Nat.eqb_eq _ _)) by lia. exists []. rewrite app_nil_r. split; [done|].
    cbn. lia. }
  rewrite (proj2 (Nat.eqb_neq _ _)) by lia.
  (* every extension must start with a candidate not yet tried *)
  match goal with |- match ?f candidates chosen with _ => _ end => set (each := f) end.
  enough (H : ∀ rest, rest ⊆ candidates →
    (∀ n ext, completes candidates hops chosen (n :: ext) → n ∈ rest) →
    match each rest chosen with
    | (true, chosen') => ∃ ext, chosen' = chosen ++ ext ∧ completes candidates hops chosen ext
    | (false, chosen') => chosen' = chosen ∧ ∀ ext, ¬ completes candidates hops chosen ext
    end).
  { apply H; [done|]. by intros n ext (_ & ? & _). }
  induction rest as [|n rest IHrest]; intros Hsub Hall.
  { cbn. split; [done|]. intros [|n ext] He; [cbn in He; lia|].
    by apply Hall in He; apply elem_of_nil in He. }
  assert (Hn : n ∈ candidates) by set_solver.
  assert (Hskip : (∀ ext, ¬ completes candidates hops chosen (n :: ext)) →
    match each rest chosen with
    | (true, chosen') => ∃ ext, chosen' = chosen ++ ext ∧ completes candidates hops chosen ext
    | (false, chosen') => chosen' = chosen ∧ ∀ ext, ¬ completes candidates hops chosen ext
    end).
  { intros Hno. apply IHrest; [set_solver|]. intros m ext He.
    destruct (proj1 (elem_of_cons _ _ _) (Hall m ext He)) as [->|]; [|done].
    by destruct (Hno ext). }
  cbn [each]. fold each. unfold fills at 1. case_bool_decide as Hrole; cbn [negb].
  2:{ apply Hskip. by intros ext (_ & _ & ? & _). }
  destruct (_ || _) eqn:Hclash.
  { apply Hskip. intros ext (_ & _ & _ & Hi & _). apply no_clash_independent in Hi. congruence. }
  apply no_clash_independent in Hclash.
  specialize (IH (chosen ++ [n])). rewrite length_app in IH. cbn [length] in IH.
  specialize (IH ltac:(lia)). destruct (extend_path fuel candidates hops (chosen ++ [n]))
    as [[] chosen'].
  - destruct IH as (ext & -> & He). exists (n :: ext). rewrite <- app_assoc. split; [done|].
    cbn. split_and!; try done. lia.
  - destruct IH as [-> Hno]. rewrite removelast_last. apply Hskip.
    intros ext (_ & _ & _ & _ & He). by destruct (Hno ext).
Qed.

(** Unfolding [completes] over a whole path. *)
Lemma completes_spec candidates hops chosen ext :
  completes candidates hops chosen ext ↔
  length chosen + length ext = hops ∧ (∀ n, n ∈ ext → n ∈ candidates) ∧
  (∀ i n, ext !! i = Some n → reg_role n = Role.for_position (length chosen + i) hops) ∧
  (∀ c n, c ∈ chosen → n ∈ ext → independent c n) ∧
  (∀ i j a b, ext !! i = Some a → ext !! j = Some b → i < j → independent a b).
Proof.
  revert chosen. induction ext as [|n ext IH]; intros chosen; cbn [completes length].
  { rewrite Nat.add_0_r. split; [|naive_solver]. intros ->. split_and!; try done.
    - by intros ? ?%elem_of_nil.
    - by intros ? ? _ ?%elem_of_nil. }
  rewrite IH, length_app. cbn [length]. split.
  - intros (? & ? & Hr & Hi & ? & Hc & Hroles & Hcross & Hpair). split_and!.
    + lia.
    + intros m [->|]%elem_of_cons; auto.
    + intros [|i] m Hm; cbn in Hm; [injection Hm as <-; by rewrite Nat.add_0_r|].
      apply Hroles in Hm. by rewrite <- Nat.add_assoc in Hm.
    + intros c m Hin [->|Hm]%elem_of_cons; [by rewrite Forall_forall in Hi; apply Hi|].
      apply Hcross; [set_solver|done].
    + intros [|i] [|j] a b Ha Hb Hlt; cbn in *; try lia.
      * injection Ha as <-. apply Hcross; [set_solver|]. by eapply list_elem_of_lookup_2.
      * eapply Hpair; [done|done|lia].
  - intros (? & Hc & Hroles & Hcross & Hpair). split_and!; try lia.
    + apply Hc. by left.
    + specialize (Hroles 0 n eq_refl). by rewrite Nat.add_0_r in Hroles.
    + apply Forall_forall. intros c Hin. apply Hcross; [done|by left].
    + intros m Hm. apply Hc. by right.
    + intros i m Hm. rewrite <- Nat.add_assoc. by apply (Hroles (S i)).
    + intros c m [Hin|Hin%list_elem_of_singleton]%elem_of_app Hm; [apply Hcross; [done|by right]|].
      subst. apply list_elem_of_lookup in Hm as [j Hj]. apply (Hpair 0 (S j)); [done|done|lia].
    + intros i j a b Ha Hb Hlt. apply (Hpair (S i) (S j)); [done|done|lia].
Qed.

(** ** The shuffle *)

Lemma swap_perm {A} (l : list A) i j : swap l i j ≡ₚ l.
Proof.
  unfold swap. destruct (l !! i) as [x|] eqn:Hi; [|done].
  destruct (l !! j) as [y|] eqn:Hj; [|done]. by apply Permutation_insert_swap.
Qed.

Lemma shuffle_perm {A} entropy (l : list A) : shuffle entropy l ≡ₚ l.
Proof.
  unfold shuffle. destruct (_ <? _)%nat; [done|]. destruct (entropy _) as [buf|]; [|done].
  generalize (length l - 1). intros i. revert l. induction i as [|i IH]; intros l; cbn; [done|].
  by rewrite IH, swap_perm.
Qed.

Lemma shuffle_live entropy r n :
  n ∈ shuffle entropy (live_nodes r) ↔ n ∈ nodes r ∧ host n ∉ dead r.
Proof.
  rewrite (elem_of_Permutation_proper n _ _ (shuffle_perm entropy _)).
  unfold live_nodes. rewrite list_elem_of_filter. naive_solver.
Qed.

Lemma completes_trust_split entropy r hops path :
  completes (shuffle entropy (live_nodes r)) hops [] path ↔ trust_split r hops path.
Proof.
  rewrite completes_spec. cbn [length Nat.add]. setoid_rewrite shuffle_live. split.
  - intros (? & ? & ? & _ & ?). by split.
  - intros [? ? ? ?]. split_and!; try done. by intros ? ? ?%elem_of_nil.
Qed.

Lemma select_path_spec entropy r hops :
  match select_path entropy r hops with
  | Some sel => ∃ path, trust_split r hops path ∧ sel = imap (selected hops) path
  | None => ∀ path, ¬ trust_split r hops path
  end.
Proof.
  unfold select_path.
  pose proof (extend_path_correct hops (shuffle entropy (live_nodes r)) hops [] eq_refl) as H.
  destruct (extend_path _ _ _ _) as [[] chosen].
  - destruct H as (path & -> & Hc). exists path. split; [|done].
    by apply completes_trust_split in Hc.
  - destruct H as [_ Hno]. intros path Hp. by apply (Hno path), (completes_trust_split entropy).
Qed.

(** C35.  Path selection is sound and complete, whatever the random generator yields: the
    selector returns the hops of a trust-split path - of the requested length, every node
    live and listed, every position held by a node of that role (so the last hop is an exit),
    no two nodes sharing an operator, a jurisdiction, an id or an endpoint - and it returns
    nothing only when no such path exists. *)
Theorem select_path_correct entropy r hops :
  match select_path entropy r hops with
  | Some sel => ∃ path, trust_split r hops path ∧ sel = imap (selected hops) path
  | None => ∀ path, ¬ trust_split r hops path
  end.
Proof. apply select_path_spec. Qed.

(** Randomisation and health: the shuffle only permutes the live nodes, so whether a
    path exists does not depend on the entropy; a node marked down is on no returned path
    until it is marked up again, and marking it up restores exactly what was possible. *)
Theorem selection_follows_health entropy entropy' r h hops sel :
  (is_Some (select_path entropy r hops) ↔ is_Some (select_path entropy' r hops)) ∧
  (select_path entropy (mark_down r h) hops = Some sel →
     Forall (λ s, Wire.hop_host (hop s) ≠ h) sel) ∧
  (h ∉ dead r → mark_up (mark_down r h) h = r).
Proof.
  split_and!.
  - pose proof (select_path_spec entropy r hops) as H1.
    pose proof (select_path_spec entropy' r hops) as H2.
    destruct (select_path entropy r hops), (select_path entropy' r hops); naive_solver.
  - intros E. pose proof (select_path_spec entropy (mark_down r h) hops) as H1. rewrite E in H1.
    destruct H1 as (path & Hp & ->). apply Forall_lookup. intros i s.
    rewrite list_lookup_imap. intros (n & Hn & ->)%fmap_Some. cbn.
    destruct (ts_live _ _ _ Hp n) as [_ Hd]; [by eapply list_elem_of_lookup_2|].
    cbn in Hd. set_solver.
  - intros Hd. destruct r as [ns d]. unfold mark_up, mark_down. cbn in *. f_equal. set_solver.
Qed.

(** ** Witnesses *)

Definition w_entropy : nat → option bytes := λ n, Some (replicate n x03).

Lemma selection_follows_health_witness :
  Forall (λ s, Wire.hop_host (hop s) ≠ str "203.0.113.30")
    (default [] (select_path w_entropy (mark_down dev_default (str "203.0.113.30")) 3)) ∧
  mark_up (mark_down dev_default (str "203.0.113.30")) (str "203.0.113.30") = dev_default.
Proof.
  destruct (select_path w_entropy (mark_down dev_default (str "203.0.113.30")) 3)
    as [sel|] eqn:E; [|by vm_compute in E].
  destruct (selection_follows_health w_entropy w_entropy dev_default (str "203.0.113.30") 3 sel)
    as (_ & H1 & H2).
  split; [exact (H1 E)|]. apply H2, not_elem_of_empty.
Defined.
