(* ===== verification/Token.v ===== *)
(** * Privacy Pass tokens ([crates/nil-crypto/src/token.rs], [crates/nil-proto/src/token.rs])

    Blind-RSA bearer tokens: the client's message batch with its coarse expiry, the
    issuer, the multi-key verifier with its key-derived epochs, the client's blinding
    state and the bounded batches of the mint protocol.  RSA itself is an interface. *)

From S2P Require Import Prelude.
From S2P Require Import Crypto.
From Stdlib Require Import Strings.Byte ZArith Lia.
From stdpp Require Import prelude gmap strings.

Local Open Scope Z_scope.

(** ** Token messages *)

Definition V2_MAGIC : bytes := str "NTV2".
Definition V2_VALIDITY_SECS : Z := 24 * 60 * 60.
Definition V2_EPOCH_SECS : Z := 60 * 60.
Definition TOKEN_MODULUS_BITS : Z := 2048.
Definition LEGACY_EPOCH : Z := 0.

Inductive TokenError := Rsa (msg : bytes).

Definition u64_wrap (z : Z) : Z := z mod 2 ^ 64.

Definition v2_expiry (now : Z) : Z :=
  u64_wrap ((now / V2_EPOCH_SECS + V2_VALIDITY_SECS / V2_EPOCH_SECS) * V2_EPOCH_SECS).

(** One turn of the batch loop; [entropy i] is the [i]-th read of 20 random bytes. *)
Fixpoint v2_messages (entropy : nat → option bytes) (expiry : Z) (i count : nat) :
    result TokenError (list bytes) :=
  match count with
  | 0%nat => Ok []
  | S n =>
      r ← ok_or (entropy i) (Rsa (str "token entropy"));
      ms ← v2_messages entropy expiry (S i) n;
      Ok ((V2_MAGIC ++ be_bytes 8 expiry ++ r) :: ms)
  end.

(** [clock] is [None] when the system time precedes 1970. *)
Definition new_v2_message_batch (clock : option Z) (entropy : nat → option bytes)
    (count : nat) : result TokenError (list bytes) :=
  now ← ok_or clock (Rsa (str "clock"));
  v2_messages entropy (v2_expiry now) 0 count.

Definition new_v2_message (clock : option Z) (entropy : nat → option bytes) :
    result TokenError bytes :=
  ms ← new_v2_message_batch clock entropy 1;
  ok_or (last ms) (Rsa (str "token batch unexpectedly empty")).

Definition is_v2_message (msg : bytes) : bool :=
  (length msg =? 32)%nat && bool_decide (take 4 msg = V2_MAGIC).

Definition v2_message_is_current (msg : bytes) (now : Z) : bool :=
  if negb (is_v2_message msg) then false
  else
    let expiry := be_value (take 8 (drop 4 msg)) in
    (now <=? expiry) && (expiry <=? u64_saturating_add now (V2_VALIDITY_SECS + V2_EPOCH_SECS)).

(** ** Issuer and verifier *)

Section Keys.
Context `{Hsha : Sha256, Hrsa : BlindRsa}.

Definition key_epoch (public_der : bytes) : Z :=
  let id := be_value (take 4 (sha256 public_der)) in
  if id =? LEGACY_EPOCH then 1 else id.

Record Issuer := { issuer_pk : RsaPublicKey; issuer_sk : RsaSecretKey }.

Definition from_secret_der (der : bytes) : result TokenError Issuer :=
  sk ← ok_or (rsa_sk_from_der der) (Rsa []);
  pk ← ok_or (rsa_public_key sk) (Rsa []);
  Ok {| issuer_pk := pk; issuer_sk := sk |}.

Definition public_der (i : Issuer) : result TokenError bytes :=
  ok_or (rsa_pk_to_der (issuer_pk i)) (Rsa []).

Definition blind_sign (i : Issuer) (blind_msg : bytes) : result TokenError bytes :=
  ok_or (rsa_blind_sign (issuer_sk i) blind_msg) (Rsa []).

Record Verifier := { vkeys : list (Z * RsaPublicKey) }.

Definition from_public_der (der : bytes) : result TokenError Verifier :=
  key ← ok_or (rsa_pk_from_der der) (Rsa []);
  Ok {| vkeys := [(key_epoch der, key)] |}.

Definition from_public_ders (ders : list bytes) : result TokenError Verifier :=
  if decide (ders = []) then Err (Rsa (str "verifier needs at least one public key"))
  else
    ks ← result_mapM (λ d, k ← ok_or (rsa_pk_from_der d) (Rsa []); Ok (key_epoch d, k)) ders;
    Ok {| vkeys := ks |}.

Definition verify_with_epoch (v : Verifier) (token_sig msg : bytes) : option Z :=
  fst <$> find (λ ek, rsa_verify ek.2 token_sig msg) (vkeys v).

Definition verify (v : Verifier) (token_sig msg : bytes) : bool :=
  bool_decide (is_Some (verify_with_epoch v token_sig msg)).

Definition epochs (v : Verifier) : gset Z := list_to_set (vkeys v).*1.

Definition key_count (v : Verifier) : nat := length (vkeys v).

(** ** The client's blinding state *)

Record TokenRequest := { req_blind_msg : bytes; req_msg : bytes; req_state : BlindingResult }.

Record PersistedTokenRequest := {
  p_blind_msg : bytes; p_msg : bytes; p_secret : bytes; p_msg_randomizer : option bytes;
}.

Definition export_persisted (r : TokenRequest) : PersistedTokenRequest := {|
  p_blind_msg := req_blind_msg r; p_msg := req_msg r;
  p_secret := secret (req_state r); p_msg_randomizer := msg_randomizer (req_state r) |}.

Definition from_persisted (p : PersistedTokenRequest) : result TokenError TokenRequest :=
  let modulus_bytes := Z.to_nat (TOKEN_MODULUS_BITS / 8) in
  if negb (length (p_blind_msg p) =? modulus_bytes)%nat
     || negb (length (p_secret p) =? modulus_bytes)%nat
     || negb (length (p_msg p) =? 32)%nat
  then Err (Rsa (str "persisted token request has invalid field lengths"))
  else Ok {| req_blind_msg := p_blind_msg p; req_msg := p_msg p;
             req_state := {| blind_message := p_blind_msg p; secret := p_secret p;
                             msg_randomizer := p_msg_randomizer p |} |}.

Definition blind (der rnd msg : bytes) : result TokenError TokenRequest :=
  pk ← ok_or (rsa_pk_from_der der) (Rsa []);
  st ← ok_or (rsa_blind pk rnd msg) (Rsa []);
  Ok {| req_blind_msg := blind_message st; req_msg := msg; req_state := st |}.

Definition finalize (der : bytes) (req : TokenRequest) (blind_sig : bytes) :
    result TokenError bytes :=
  pk ← ok_or (rsa_pk_from_der der) (Rsa []);
  ok_or (rsa_finalize pk blind_sig (req_state req) (req_msg req)) (Rsa []).

End Keys.

(** ** Mint batches *)

Definition MAX_MINT_BATCH_SIZE : nat := 16.
Definition BLIND_TOKEN_HEX_LEN : nat := 512.

Record BatchSizeError := { actual : nat }.

(** [bounded_batch!]: the two batch types share this constructor; the array decoder runs it
    on whatever the request carried. *)
Record Batch := { batch_items : list bytes }.

Definition batch_try_from (values : list bytes) : result BatchSizeError Batch :=
  if bool_decide (values = []) || (MAX_MINT_BATCH_SIZE <? length values)%nat
  then Err {| actual := length values |} else Ok {| batch_items := values |}.

(** ** Properties *)

Lemma v2_messages_ok entropy expiry i count ms :
  v2_messages entropy expiry i count = Ok ms →
  length ms = count ∧
  Forall (λ m, ∃ r, m = V2_MAGIC ++ be_bytes 8 expiry ++ r ∧ ∃ j, entropy j = Some r) ms.
Proof.
  revert i ms. induction count as [|n IH]; intros i ms H; cbn [v2_messages] in H.
  - by injection H as <-.
  - inv_ok H. injection H as <-. rename select (v2_messages _ _ _ _ = _) into Hm.
    apply IH in Hm as [<- Hf]. split; [done|]. constructor; [|done]. eauto.
Qed.

Lemma v2_expiry_eq now :
  0 ≤ now ≤ U64_MAX - 2 * V2_VALIDITY_SECS →
  v2_expiry now = (now / 3600 + 24) * 3600 ∧ now / 3600 * 3600 ≤ now < (now / 3600 + 1) * 3600.
Proof.
  intros Hn. unfold v2_expiry, u64_wrap. unfold_int. unfold V2_VALIDITY_SECS, V2_EPOCH_SECS in *.
  change (24 * 60 * 60 / (60 * 60)) with 24. change (60 * 60) with 3600 in *.
  change (2 ^ 64) with 18446744073709551616.
  pose proof (Z.div_mod now 3600 ltac:(lia)). pose proof (Z.mod_pos_bound now 3600 ltac:(lia)).
  rewrite Z.mod_small by lia. lia.
Qed.

Lemma v2_expiry_bounds now :
  0 ≤ now ≤ U64_MAX - 2 * V2_VALIDITY_SECS →
  now + V2_VALIDITY_SECS - V2_EPOCH_SECS < v2_expiry now ≤ now + V2_VALIDITY_SECS.
Proof.
  intros Hn. destruct (v2_expiry_eq now Hn). unfold V2_VALIDITY_SECS, V2_EPOCH_SECS. lia.
Qed.

Lemma v2_message_fields expiry r :
  0 ≤ expiry ≤ U64_MAX → length r = 20%nat →
  is_v2_message (V2_MAGIC ++ be_bytes 8 expiry ++ r) = true ∧
  be_value (take 8 (drop 4 (V2_MAGIC ++ be_bytes 8 expiry ++ r))) = expiry.
Proof.
  intros He Hr. split.
  - unfold is_v2_message. rewrite !length_app, length_be_bytes, Hr. cbn [length Nat.eqb].
    rewrite take_app_length' by done. by rewrite bool_decide_true.
  - rewrite (drop_app_length' V2_MAGIC) by done.
    rewrite take_app_length' by (by rewrite length_be_bytes).
    apply be_value_be_bytes_small. unfold_int. change (2 ^ (8 * Z.of_nat 8)) with 18446744073709551616. lia.
Qed.

(** A message made by the client is redeemable for at least 23 hours and at most one
    day: for every batch, all messages carry one common expiry on an hour boundary, and the
    redemption check accepts exactly from the moment they are made until that expiry. *)
Theorem v2_batch_lifetime clock now entropy count ms :
  clock = Some now → 0 ≤ now ≤ U64_MAX - 2 * V2_VALIDITY_SECS →
  (∀ i r, entropy i = Some r → length r = 20%nat) →
  new_v2_message_batch clock entropy count = Ok ms →
  length ms = count ∧
  ∃ expiry, now + V2_VALIDITY_SECS - V2_EPOCH_SECS < expiry ≤ now + V2_VALIDITY_SECS ∧
    expiry mod V2_EPOCH_SECS = 0 ∧
    ∀ m t, m ∈ ms → now ≤ t ≤ U64_MAX →
      v2_message_is_current m t = true ↔ t ≤ expiry.
Proof.
  intros -> Hn He H. unfold new_v2_message_batch in H. rewrite ok_or_Some, Ok_bind in H.
  apply v2_messages_ok in H as [Hl Hf]. split; [done|].
  pose proof (v2_expiry_bounds now Hn) as Hb. exists (v2_expiry now). split_and!; try lia.
  { destruct (v2_expiry_eq now Hn) as [-> _]. by apply Z.mod_mul. }
  intros m t Hm Ht. rewrite Forall_forall in Hf. destruct (Hf m Hm) as (r & -> & j & Hj).
  destruct (v2_message_fields (v2_expiry now) r) as [Hv Hx]; [|by eapply He|].
  { unfold V2_VALIDITY_SECS, V2_EPOCH_SECS in *. unfold_int. lia. }
  unfold v2_message_is_current. rewrite Hv, Hx. cbn [negb].
  unfold u64_saturating_add, V2_VALIDITY_SECS, V2_EPOCH_SECS in *. unfold_int.
  rewrite andb_true_iff, !Z.leb_le. lia.
Qed.

Section Laws.
Context `{Hsha : Sha256, Hshal : !Sha256Laws, Hrsa : BlindRsa}.

Lemma key_epoch_range der : 1 ≤ key_epoch der ≤ U32_MAX.
Proof.
  unfold key_epoch, LEGACY_EPOCH.
  pose proof (be_value_range (take 4 (sha256 der))) as Hr.
  rewrite length_take, sha256_length in Hr.
  change (2 ^ (8 * Z.of_nat (4 `min` 32))) with 4294967296 in Hr.
  unfold_int. destruct (Z.eqb_spec (be_value (take 4 (sha256 der))) 0); lia.
Qed.

Lemma verify_with_epoch_Some v sig msg e :
  verify_with_epoch v sig msg = Some e →
  ∃ k, (e, k) ∈ vkeys v ∧ rsa_verify k sig msg = true.
Proof.
  unfold verify_with_epoch. intros ([e' k] & Hf & ->)%fmap_Some.
  apply find_some in Hf as [Hin Hv]. exists k. by rewrite list_elem_of_In.
Qed.

Lemma verify_with_epoch_None v sig msg :
  verify_with_epoch v sig msg = None ↔ ∀ e k, (e, k) ∈ vkeys v → rsa_verify k sig msg = false.
Proof.
  unfold verify_with_epoch. rewrite fmap_None. split.
  - intros Hf e k Hin. apply list_elem_of_In in Hin. exact (find_none _ _ Hf (e, k) Hin).
  - intros H. destruct (find _ _) as [[e k]|] eqn:E; [|done].
    apply find_some in E as [Hin%list_elem_of_In Hv]. cbn in Hv. by rewrite (H _ _ Hin) in Hv.
Qed.

Lemma from_public_ders_keys ders v :
  from_public_ders ders = Ok v →
  ders ≠ [] ∧ Forall2 (λ d ek, ek.1 = key_epoch d ∧ rsa_pk_from_der d = Some ek.2) ders (vkeys v).
Proof.
  unfold from_public_ders. case_decide as Hne; [done|]. intros H. inv_ok H. injection H as <-.
  split; [done|]. rename select (result_mapM _ _ = _) into Hm. apply result_mapM_Ok in Hm.
  eapply Forall2_impl; [exact Hm|]. intros d [e k] Hd. inv_ok Hd.
  injection Hd as <- <-. done.
Qed.

(** Epoch attribution is bound to the key: in a verifier built from public keys, the
    epoch reported for a token is one of the accepted epochs, is derived from a held key
    under which the token verifies, and is never the reserved legacy epoch; a token that
    no held key verifies has no epoch at all. *)
Theorem verified_epoch_is_of_a_held_key ders v sig msg :
  from_public_ders ders = Ok v →
  match verify_with_epoch v sig msg with
  | Some e => e ∈ epochs v ∧ 1 ≤ e ≤ U32_MAX ∧ verify v sig msg = true ∧
      ∃ d k, d ∈ ders ∧ rsa_pk_from_der d = Some k ∧ e = key_epoch d ∧
             rsa_verify k sig msg = true
  | None => verify v sig msg = false ∧
      ∀ d k, d ∈ ders → rsa_pk_from_der d = Some k → rsa_verify k sig msg = false
  end.
Proof.
  intros [_ Hk]%from_public_ders_keys.
  destruct (verify_with_epoch v sig msg) as [e|] eqn:E.
  - unfold verify. rewrite E, bool_decide_true by eauto.
    apply verify_with_epoch_Some in E as (k & Hin & Hv).
    assert (He : e ∈ epochs v).
    { apply elem_of_list_to_set, list_elem_of_fmap. by exists (e, k). }
    apply list_elem_of_lookup in Hin as [i Hi].
    destruct (Forall2_lookup_r _ _ _ _ _ Hk Hi) as (d & Hd & Hed & Hder). cbn in Hed, Hder. subst e.
    pose proof (key_epoch_range d). split_and!; try done; [lia..|].
    exists d, k. split_and!; try done. by eapply list_elem_of_lookup_2.
  - unfold verify. rewrite E, bool_decide_false by (by intros [? ?]). split; [done|].
    intros d k Hd Hder. apply list_elem_of_lookup in Hd as [i Hi].
    destruct (Forall2_lookup_l _ _ _ _ _ Hk Hi) as ([e k'] & Hin & _ & Hder'). cbn in *.
    assert (k' = k) as -> by congruence.
    eapply verify_with_epoch_None; [exact E|]. by eapply list_elem_of_lookup_2.
Qed.

(** A signature under a held key verifies. *)
Lemma verify_held ders v der key sig msg :
  from_public_ders ders = Ok v → der ∈ ders → rsa_pk_from_der der = Some key → rsa_verify key sig msg = true →
  verify v sig msg = true.
Proof.
  intros [_ Hk]%from_public_ders_keys Hin Hder Hv.
  unfold verify. apply bool_decide_eq_true. destruct (verify_with_epoch v sig msg) eqn:E; [done|].
  apply list_elem_of_lookup in Hin as [j Hj].
  destruct (Forall2_lookup_l _ _ _ _ _ Hk Hj) as ([e k'] & Hin' & _ & Hder'). cbn in *.
  rewrite Hder in Hder'. injection Hder' as <-. apply list_elem_of_lookup_2 in Hin'.
  pose proof (proj1 (verify_with_epoch_None _ _ _) E _ _ Hin'). congruence.
Qed.

Context {Hrsal : BlindRsaLaws}.

(** Issue and redeem agree: for an issuer's key held by the verifier, blinding any
    message, having the issuer sign the blinded form and unblinding yields a token the
    verifier accepts for that message. *)
Theorem issued_token_verifies sk_der der i req rnd msg ders v :
  from_secret_der sk_der = Ok i → rsa_pk_from_der der = Some (issuer_pk i) →
  blind der rnd msg = Ok req → der ∈ ders → from_public_ders ders = Ok v →
  ∃ bs sig, blind_sign i (req_blind_msg req) = Ok bs ∧ finalize der req bs = Ok sig ∧
            verify v sig msg = true.
Proof.
  intros Hi Hder Hb Hin Hv. unfold from_secret_der in Hi. inv_ok Hi.
  injection Hi as <-. cbn in Hder. unfold blind in Hb. rewrite Hder in Hb. inv_ok Hb.
  injection Hb as <-. rename select (Some _ = Some _) into E. injection E as <-.
  rename select (rsa_blind _ _ _ = _) into Hbl.
  rename select (rsa_public_key _ = _) into Hpk.
  destruct (rsa_blind_signature _ _ _ _ _ Hpk Hbl) as (bs & sig & Hs & Hf).
  exists bs, sig. unfold blind_sign, finalize.
  cbn [issuer_sk req_blind_msg req_state req_msg]. rewrite Hs, Hder, !ok_or_Some, Ok_bind, Hf.
  split_and!; try done.
  apply rsa_finalize_verifies in Hf.
  by eapply verify_held.
Qed.

End Laws.

(** ** Witnesses *)

Section Witnesses.
Import Toy.

Definition w_entropy20 : nat → option bytes := λ i, Some (replicate 20 (z2b (Z.of_nat i))).

Definition w_ders : list bytes := [str "issuer-old"; str "issuer-new"].

Definition w_token_verifier : Verifier :=
  {| vkeys := [(key_epoch (str "issuer-old"), str "issuer-old");
               (key_epoch (str "issuer-new"), str "issuer-new")] |}.

Definition w_issuer : Issuer := {| issuer_pk := str "issuer-new"; issuer_sk := str "issuer-new" |}.

Lemma v2_batch_lifetime_witness :
  match new_v2_message_batch (Some 1000000) w_entropy20 2 with
  | Ok ms => length ms = 2%nat ∧ Forall (λ m, v2_message_is_current m 1080000 = true) ms
  | Err _ => False
  end.
Proof.
  destruct (new_v2_message_batch (Some 1000000) w_entropy20 2) as [ms|e] eqn:E.
  2:{ vm_compute in E. discriminate E. }
  destruct (v2_batch_lifetime (Some 1000000) 1000000 w_entropy20 2 ms) as (Hl & x & Hx & _ & Hm).
  - reflexivity.
  - by vm_compute.
  - intros i r [= <-]. reflexivity.
  - exact E.
  - split; [exact Hl|]. apply Forall_forall. intros m Hin. apply (Hm m 1080000 Hin).
    + by vm_compute.
    + unfold V2_VALIDITY_SECS, V2_EPOCH_SECS in Hx. lia.
Defined.

Lemma verified_epoch_is_of_a_held_key_witness :
  match verify_with_epoch w_token_verifier (digest (str "issuer-new" ++ str "m")) (str "m") with
  | Some e => e ∈ epochs w_token_verifier
  | None => False
  end.
Proof.
  pose proof (verified_epoch_is_of_a_held_key w_ders w_token_verifier
    (digest (str "issuer-new" ++ str "m")) (str "m") eq_refl) as H.
  destruct (verify_with_epoch _ _ _) eqn:E.
  - exact (proj1 H).
  - vm_compute in E. discriminate E.
Defined.

Lemma issued_token_verifies_witness :
  ∃ req bs sig, blind (str "issuer-new") (str "r") (str "m") = Ok req ∧
    blind_sign w_issuer (req_blind_msg req) = Ok bs ∧
    finalize (str "issuer-new") req bs = Ok sig ∧ verify w_token_verifier sig (str "m") = true.
Proof.
  destruct (blind (str "issuer-new") (str "r") (str "m")) as [req|] eqn:E; [|discriminate E].
  destruct (issued_token_verifies (str "issuer-new") (str "issuer-new") w_issuer req (str "r")
              (str "m") w_ders w_token_verifier) as (bs & sig & H).
  - reflexivity.
  - reflexivity.
  - exact E.
  - right. left.
  - reflexivity.
  - exists req, bs, sig. exact (conj eq_refl H).
Defined.

End Witnesses.
