(* ===== verification/TransLog.v ===== *)
(** * The transparency log ([crates/nil-crypto/src/translog.rs])

    The client's offline check that a measurement is an entry of a signed, append-only log: the
    stapled proof and its wire form, the reconstruction of the Merkle root from an inclusion
    proof, the signed checkpoint.  The reference definitions of RFC 6962 ([mth], [audit]) stand
    beside it; the code computes the same trees from the bits of the index, without recursion
    over the tree. *)

From S2P Require Import Prelude.
From S2P Require Import Text.
From S2P Require Import Crypto.
From Stdlib Require Import Strings.Byte ZArith Lia.
From stdpp Require Import prelude gmap strings.

Local Open Scope Z_scope.

(** The base64 encoder of [data-encoding]. *)
Class Base64 := base64_encode : bytes → bytes.

Class Base64Laws `{Base64} : Prop := {
  base64_inj : ∀ a b, base64_encode a = base64_encode b → a = b;
  base64_line : ∀ a, x0a ∉ base64_encode a;
}.

(** ** Bits of a [u64] *)

Definition leading_zeros (x : Z) : Z := if x =? 0 then 64 else 63 - Z.log2 x.
Definition bit_length (x : Z) : Z := 64 - leading_zeros x.

Fixpoint pos_ones (p : positive) : nat :=
  match p with xH => 1 | xO p => pos_ones p | xI p => S (pos_ones p) end.
Definition count_ones (x : Z) : nat := match x with Zpos p => pos_ones p | _ => 0%nat end.

(** [x >> n] of a release build: the distance is taken modulo 64. *)
Definition shr64 (x n : Z) : Z := Z.shiftr x (n mod 64).

Record LogProof := {
  lp_origin : bytes;
  tree_size : Z;
  leaf_index : Z;
  lp_root : bytes;
  audit_path : list bytes;
  checkpoint_sig : bytes;
}.

Definition lp_encode (p : LogProof) : bytes :=
  be_bytes 2 (Z.of_nat (length (lp_origin p))) ++ lp_origin p ++
  be_bytes 8 (tree_size p) ++ be_bytes 8 (leaf_index p) ++ lp_root p ++
  be_bytes 2 (Z.of_nat (length (audit_path p))) ++ concat (audit_path p) ++
  be_bytes 2 (Z.of_nat (length (checkpoint_sig p))) ++ checkpoint_sig p.

(** [take]: split the first [n] bytes off. *)
Definition take_front (b : bytes) (n : nat) : option (bytes * bytes) :=
  if (length b <? n)%nat then None else Some (take n b, drop n b).

Definition take_u16 (b : bytes) : option (Z * bytes) :=
  '(h, b) ← take_front b 2; Some (be_value h, b).

(** The loop that reads the audit path. *)
Fixpoint take_hashes (n : nat) (b : bytes) : option (list bytes * bytes) :=
  match n with
  | 0%nat => Some ([], b)
  | S n => '(h, b) ← take_front b 32; '(hs, b) ← take_hashes n b; Some (h :: hs, b)
  end.

Definition lp_decode (b : bytes) : option LogProof :=
  '(olen, b) ← take_u16 b;
  '(origin, b) ← take_front b (Z.to_nat olen);
  if negb (is_utf8 origin) then None
  else
    '(size, b) ← take_front b 8;
    '(index, b) ← take_front b 8;
    '(root, b) ← take_front b 32;
    '(plen, b) ← take_u16 b;
    '(path, b) ← take_hashes (Z.to_nat plen) b;
    '(slen, b) ← take_u16 b;
    '(sig, b) ← take_front b (Z.to_nat slen);
    if bool_decide (b = []) then
      Some {| lp_origin := origin; tree_size := be_value size; leaf_index := be_value index;
              lp_root := root; audit_path := path; checkpoint_sig := sig |}
    else None.

Section Hashing.
Context `{Sha256}.

Definition leaf_hash (data : bytes) : bytes := sha256 (x00 :: data).
Definition hash_children (left right : bytes) : bytes := sha256 (x01 :: left ++ right).

(** The loop over [path[..inner]]; [i] is the enumeration index. *)
Fixpoint fold_inner (index i : Z) (seed : bytes) (path : list bytes) : bytes :=
  match path with
  | [] => seed
  | sibling :: path =>
      fold_inner index (i + 1)
        (if Z.land (shr64 index i) 1 =? 0 then hash_children seed sibling
         else hash_children sibling seed) path
  end.

Definition fold_border (seed : bytes) (path : list bytes) : bytes :=
  foldl (λ seed sibling, hash_children sibling seed) seed path.

Definition root_from_inclusion (index size : Z) (leaf : bytes) (path : list bytes) : option bytes :=
  if size <=? index then None
  else
    let inner := bit_length (Z.lxor index (size - 1)) in
    let border := count_ones (shr64 index inner) in
    if negb (length path =? Z.to_nat inner + border)%nat then None
    else Some (fold_border (fold_inner index 0 leaf (take (Z.to_nat inner) path)) (drop (Z.to_nat inner) path)).

Context `{Base64, Ed25519}.

Definition checkpoint_body (origin : bytes) (size : Z) (root : bytes) : bytes :=
  origin ++ [x0a] ++ uint_to_string size ++ [x0a] ++ base64_encode root ++ [x0a].

Definition verify_checkpoint (p : LogProof) (log_key : VerifyingKey) : bool :=
  match sig_from_slice (checkpoint_sig p) with
  | None => false
  | Some sig => vk_verify log_key (checkpoint_body (lp_origin p) (tree_size p) (lp_root p)) sig
  end.

Definition verify_logged (leaf_data : bytes) (p : LogProof) (log_pubkey : bytes) : bool :=
  match vk_from_bytes log_pubkey with
  | None => false
  | Some log_key =>
      if negb (verify_checkpoint p log_key) then false
      else bool_decide (root_from_inclusion (leaf_index p) (tree_size p) (leaf_hash leaf_data)
                          (audit_path p) = Some (lp_root p))
  end.

End Hashing.

(** ** The reference: RFC 6962, section 2.1 *)

Section Reference.
Context `{Sha256}.

(** The largest power of two below the number of entries. *)
Definition split_at (n : nat) : nat := 2 ^ Nat.log2 (n - 1).

Fixpoint mth_fuel (fuel : nat) (D : list bytes) : bytes :=
  match fuel, D with
  | S fuel, _ :: _ :: _ =>
      hash_children (mth_fuel fuel (take (split_at (length D)) D)) (mth_fuel fuel (drop (split_at (length D)) D))
  | _, [d] => leaf_hash d
  | _, _ => sha256 []
  end.

(** The Merkle tree hash of the entries [D]. *)
Definition mth (D : list bytes) : bytes := mth_fuel (length D) D.

Fixpoint audit_fuel (fuel m : nat) (D : list bytes) : list bytes :=
  match fuel, D with
  | S fuel, _ :: _ :: _ =>
      let k := split_at (length D) in
      if (m <? k)%nat then audit_fuel fuel m (take k D) ++ [mth (drop k D)]
      else audit_fuel fuel (m - k) (drop k D) ++ [mth (take k D)]
  | _, _ => []
  end.

(** The audit path of entry [m]. *)
Definition audit (m : nat) (D : list bytes) : list bytes := audit_fuel (length D) m D.

End Reference.

(** ** Bit lemmas *)

Lemma testbit_high j x b : 0 ≤ x < 2 ^ j → 0 ≤ j ≤ b → Z.testbit x b = false.
Proof. intros. rewrite <- (Z.mod_small x (2 ^ j)) by lia. apply Z.mod_pow2_bits_high. lia. Qed.

Lemma land_pow2_small j b : 0 ≤ j → 0 ≤ b < 2 ^ j → Z.land (2 ^ j) b = 0.
Proof.
  intros Hj Hb. apply Z.bits_inj'. intros i Hi. rewrite Z.land_spec, Z.bits_0, Z.pow2_bits_eqb by done.
  destruct (Z.eqb_spec j i) as [<-|]; [|done]. cbn.
  apply (testbit_high j); lia.
Qed.

Lemma add_pow2_lxor j b : 0 ≤ j → 0 ≤ b < 2 ^ j → 2 ^ j + b = Z.lxor (2 ^ j) b.
Proof. intros. by apply Z.add_nocarry_lxor, land_pow2_small. Qed.

Lemma lxor_small j a b : 0 ≤ j → 0 ≤ a < 2 ^ j → 0 ≤ b < 2 ^ j → 0 ≤ Z.lxor a b < 2 ^ j.
Proof.
  intros Hj Ha Hb. assert (Hn : 0 ≤ Z.lxor a b) by (apply Z.lxor_nonneg; lia). split; [done|].
  destruct (decide (Z.lxor a b = 0)) as [->|]; [apply Z.pow_pos_nonneg; lia|].
  destruct (decide (j = 0)) as [->|].
  - cbn in *. assert (a = 0) as -> by lia. assert (b = 0) as -> by lia. done.
  - assert (Hlog : ∀ c, 0 ≤ c < 2 ^ j → Z.log2 c < j).
    { intros c Hc. destruct (decide (c = 0)) as [->|]; [cbn; lia|]. apply Z.log2_lt_pow2; lia. }
    apply Z.log2_lt_pow2; [lia|]. pose proof (Z.log2_lxor a b ltac:(lia) ltac:(lia)).
    pose proof (Hlog a Ha). pose proof (Hlog b Hb). lia.
Qed.

Lemma bit_length_small j c : 0 ≤ j → 0 ≤ c < 2 ^ j → 0 ≤ bit_length c ≤ j ∧ c < 2 ^ bit_length c.
Proof.
  intros Hj Hc. unfold bit_length, leading_zeros. destruct (Z.eqb_spec c 0) as [->|]; [cbn; lia|].
  replace (64 - (63 - Z.log2 c)) with (Z.log2 c + 1) by lia.
  pose proof (Z.log2_nonneg c). assert (Z.log2 c < j) by (apply Z.log2_lt_pow2; lia).
  pose proof (Z.log2_spec c ltac:(lia)). rewrite <- Z.add_1_r in *. lia.
Qed.

Lemma bit_length_top j c : 0 ≤ j → 0 ≤ c < 2 ^ j → bit_length (2 ^ j + c) = j + 1.
Proof.
  intros Hj Hc. unfold bit_length, leading_zeros. destruct (Z.eqb_spec (2 ^ j + c) 0); [lia|].
  rewrite (Z.log2_unique (2 ^ j + c) j); [lia..|]. rewrite Z.pow_succ_r by lia. lia.
Qed.

Lemma count_ones_double y b : 0 ≤ y → 0 ≤ b ≤ 1 → count_ones (2 * y + b) = (count_ones y + Z.to_nat b)%nat.
Proof.
  intros Hy Hb. assert (b = 0 ∨ b = 1) as [-> | ->] by lia; (destruct y as [|p|p]; [done| |lia]);
    [change (pos_ones p = (pos_ones p + 0)%nat)|change (S (pos_ones p) = (pos_ones p + 1)%nat)]; lia.
Qed.

Lemma count_ones_pow2 a x : 0 ≤ x < 2 ^ Z.of_nat a → count_ones (2 ^ Z.of_nat a + x) = S (count_ones x).
Proof.
  revert x. induction a as [|a IH]; intros x Hx; [cbn in *; by assert (x = 0) as -> by lia|].
  rewrite Nat2Z.inj_succ, Z.pow_succ_r in * by lia. rewrite (Z_div_mod_eq_full x 2).
  pose proof (Z.mod_pos_bound x 2 ltac:(lia)).
  assert (0 ≤ x / 2 < 2 ^ Z.of_nat a) by (split; [apply Z.div_pos|apply Z.div_lt_upper_bound]; lia).
  replace (_ + _) with (2 * (2 ^ Z.of_nat a + x / 2) + x mod 2) by lia.
  rewrite !count_ones_double, IH by lia. lia.
Qed.

Lemma count_ones_full a : count_ones (2 ^ Z.of_nat a - 1) = a.
Proof.
  induction a as [|a IH]; [done|]. rewrite Nat2Z.inj_succ, Z.pow_succ_r by lia.
  pose proof (Z.pow_pos_nonneg 2 (Z.of_nat a) ltac:(lia) ltac:(lia)).
  replace (_ - 1) with (2 * (2 ^ Z.of_nat a - 1) + 1) by lia.
  rewrite count_ones_double, IH by lia. lia.
Qed.

Lemma bit_test x i : 0 ≤ i < 64 → (Z.land (shr64 x i) 1 =? 0) = negb (Z.testbit x i).
Proof.
  intros Hi. unfold shr64. rewrite Z.mod_small by lia.
  change 1 with (Z.ones 1). rewrite Z.land_ones by lia. change (2 ^ 1) with 2.
  replace (Z.testbit x i) with (Z.odd (Z.shiftr x i))
    by (rewrite <- Z.bit0_odd, Z.shiftr_spec by lia; f_equal; lia).
  rewrite Zmod_odd. by destruct (Z.odd _).
Qed.

(** ** The recursion hidden in [root_from_inclusion] *)

Section Recursion.
Context `{Sha256}.

Lemma fold_inner_app m i seed p q :
  fold_inner m i seed (p ++ q) = fold_inner m (i + Z.of_nat (length p)) (fold_inner m i seed p) q.
Proof.
  revert i seed. induction p as [|s p IH]; intros i seed; cbn [fold_inner app length].
  - f_equal. lia.
  - rewrite IH. f_equal. lia.
Qed.

Lemma fold_inner_ones m i seed p :
  0 ≤ i → i + Z.of_nat (length p) ≤ 64 →
  (∀ b, i ≤ b < i + Z.of_nat (length p) → Z.testbit m b = true) →
  fold_inner m i seed p = fold_border seed p.
Proof.
  revert i seed. induction p as [|s p IH]; intros i seed Hi Hl Hb; [done|]. cbn [fold_inner length] in *.
  rewrite bit_test, Hb by lia. cbn. apply IH; [lia|lia|]. intros b Hr. apply Hb. lia.
Qed.

Lemma fold_inner_ext m m' i seed p :
  0 ≤ i → i + Z.of_nat (length p) ≤ 64 →
  (∀ b, i ≤ b < i + Z.of_nat (length p) → Z.testbit m b = Z.testbit m' b) →
  fold_inner m i seed p = fold_inner m' i seed p.
Proof.
  revert i seed. induction p as [|s p IH]; intros i seed Hi Hl Hb; [done|]. cbn [fold_inner length] in *.
  rewrite !bit_test, Hb by lia. apply IH; [lia|lia|]. intros b Hr. apply Hb. lia.
Qed.

(** In a full tree the bits of the index give the whole path. *)
Lemma root_full j m leaf p :
  0 ≤ j ≤ 63 → 0 ≤ m < 2 ^ j →
  root_from_inclusion m (2 ^ j) leaf p =
  if (length p =? Z.to_nat j)%nat then Some (fold_inner m 0 leaf p) else None.
Proof.
  intros Hj Hm. unfold root_from_inclusion. destruct (Z.leb_spec (2 ^ j) m); [lia|].
  set (c := Z.lxor m (2 ^ j - 1)).
  assert (Hc : 0 ≤ c < 2 ^ j) by (apply lxor_small; lia).
  pose proof (bit_length_small j c ltac:(lia) Hc) as [Hin Htop].
  set (inner := bit_length c) in *.
  assert (Hhigh : ∀ b, inner ≤ b < j → Z.testbit m b = true).
  { intros b Hb. assert (Z.testbit c b = false) as Hcb.
    { apply (testbit_high inner); lia. }
    unfold c in Hcb. rewrite Z.lxor_spec, Z.sub_1_r, <- Z.ones_equiv, Z.ones_spec_low in Hcb by lia.
    by destruct (Z.testbit m b). }
  assert (Hshr : shr64 m inner = 2 ^ Z.of_nat (Z.to_nat (j - inner)) - 1).
  { unfold shr64. rewrite Z.mod_small by lia. rewrite Z2Nat.id, Z.sub_1_r, <- Z.ones_equiv by lia.
    apply Z.bits_inj'. intros b Hb. rewrite Z.shiftr_spec by lia.
    destruct (decide (b < j - inner)) as [Hlt|Hge].
    - rewrite Z.ones_spec_low, Hhigh by lia. done.
    - rewrite Z.ones_spec_high by lia. apply (testbit_high j); lia. }
  rewrite Hshr, count_ones_full. replace (Z.to_nat inner + Z.to_nat (j - inner))%nat with (Z.to_nat j) by lia.
  destruct (Nat.eqb_spec (length p) (Z.to_nat j)) as [Hlen|]; [|done]. cbn [negb]. f_equal.
  rewrite <- (take_drop (Z.to_nat inner) p) at 3.
  rewrite fold_inner_app. symmetry. apply fold_inner_ones.
  all: rewrite length_take, ?length_drop, ?Nat.min_l by lia; try lia.
  intros b Hb. apply Hhigh. lia.
Qed.

Lemma root_left j m n leaf p :
  0 ≤ j ≤ 62 → 2 ^ j < n ≤ 2 * 2 ^ j → 0 ≤ m < 2 ^ j →
  root_from_inclusion m n leaf p =
  match last p with
  | Some s => r ← root_from_inclusion m (2 ^ j) leaf (take (length p - 1) p); Some (hash_children r s)
  | None => None
  end.
Proof.
  intros Hj Hn Hm. rewrite root_full by lia. unfold root_from_inclusion.
  destruct (Z.leb_spec n m); [lia|].
  assert (Hx : Z.lxor m (n - 1) = 2 ^ j + Z.lxor m (n - 1 - 2 ^ j)).
  { rewrite (add_pow2_lxor j (Z.lxor _ _)) by (try apply lxor_small; lia).
    replace (n - 1) with (2 ^ j + (n - 1 - 2 ^ j)) at 1 by lia.
    rewrite add_pow2_lxor by lia. rewrite <- !Z.lxor_assoc. f_equal. apply Z.lxor_comm. }
  rewrite Hx, bit_length_top by (try apply lxor_small; lia).
  assert (shr64 m (j + 1) = 0) as ->.
  { unfold shr64. rewrite Z.mod_small, Z.shiftr_div_pow2 by lia. apply Z.div_small.
    rewrite Z.pow_add_r by lia. lia. }
  change (count_ones 0) with 0%nat. rewrite Nat.add_0_r.
  destruct p as [|s p _] using rev_ind; [by destruct (Z.to_nat (j + 1)) eqn:?; [lia|]|].
  rewrite last_snoc, length_app. cbn [length]. rewrite Nat.add_sub, take_app_length.
  destruct (Nat.eqb_spec (length p) (Z.to_nat j)) as [Hl|Hl], (Nat.eqb_spec (length p + 1) (Z.to_nat (j + 1)));
    try lia; [|done].
  cbn [negb]. rewrite take_ge, drop_ge by (rewrite length_app; cbn; lia). cbn [fold_border foldl].
  rewrite fold_inner_app. cbn [fold_inner]. rewrite Hl, Z.add_0_l, Z2Nat.id by lia. rewrite bit_test by lia.
  by rewrite (testbit_high j) by lia.
Qed.

Lemma root_right j m n leaf p :
  0 ≤ j ≤ 62 → 2 ^ j < n ≤ 2 * 2 ^ j → 2 ^ j ≤ m < n →
  root_from_inclusion m n leaf p =
  match last p with
  | Some s => r ← root_from_inclusion (m - 2 ^ j) (n - 2 ^ j) leaf (take (length p - 1) p);
              Some (hash_children s r)
  | None => None
  end.
Proof.
  intros Hj Hn Hm. unfold root_from_inclusion.
  destruct (Z.leb_spec n m); [lia|]. destruct (Z.leb_spec (n - 2 ^ j) (m - 2 ^ j)); [lia|].
  set (m' := m - 2 ^ j). set (n' := n - 2 ^ j - 1).
  assert (Hx : Z.lxor m (n - 1) = Z.lxor m' n').
  { replace m with (2 ^ j + m') by lia. replace (n - 1) with (2 ^ j + n') by lia.
    rewrite !add_pow2_lxor by lia. rewrite Z.lxor_assoc, <- (Z.lxor_assoc m'), (Z.lxor_comm m' (2 ^ j)).
    by rewrite !Z.lxor_assoc, <- Z.lxor_assoc, Z.lxor_nilpotent, Z.lxor_0_l. }
  rewrite Hx. assert (Hc : 0 ≤ Z.lxor m' n' < 2 ^ j) by (apply lxor_small; lia).
  pose proof (bit_length_small j _ ltac:(lia) Hc) as [Hin _]. set (inner := bit_length _) in *.
  assert (Hpow : 2 ^ j = 2 ^ (j - inner) * 2 ^ inner) by (rewrite <- Z.pow_add_r by lia; f_equal; lia).
  pose proof (Z.pow_pos_nonneg 2 inner ltac:(lia) ltac:(lia)).
  assert (Hs : shr64 m inner = 2 ^ Z.of_nat (Z.to_nat (j - inner)) + shr64 m' inner).
  { unfold shr64. rewrite Z.mod_small, Z2Nat.id, !Z.shiftr_div_pow2 by lia.
    replace m with (2 ^ (j - inner) * 2 ^ inner + m') by lia. by rewrite Z.div_add_l by lia. }
  rewrite Hs, count_ones_pow2.
  2:{ unfold shr64. rewrite Z.mod_small, Z2Nat.id, Z.shiftr_div_pow2 by lia. split; [apply Z.div_pos; lia|].
      apply Z.div_lt_upper_bound; lia. }
  set (border := count_ones (shr64 m' inner)).
  destruct p as [|s p _] using rev_ind; [by destruct (Z.to_nat inner + S border)%nat eqn:?; [lia|]|].
  rewrite last_snoc, length_app. cbn [length]. rewrite Nat.add_sub, take_app_length.
  destruct (Nat.eqb_spec (length p) (Z.to_nat inner + border)) as [Hl|Hl],
    (Nat.eqb_spec (length p + 1) (Z.to_nat inner + S border)); try lia; [|done].
  cbn [negb]. rewrite take_app_le, drop_app_le by lia. unfold fold_border. rewrite foldl_app. cbn. f_equal. f_equal. f_equal.
  apply fold_inner_ext; rewrite ?length_take, ?Nat.min_l by lia; [lia..|].
  intros b Hb. replace m with (2 ^ j + m') by lia. rewrite add_pow2_lxor, Z.lxor_spec, Z.pow2_bits_false by lia.
  by destruct (Z.testbit m' b).
Qed.

End Recursion.

(** ** Reference trees *)

Lemma split_at_spec n :
  (2 ≤ n)%nat → (0 < split_at n < n)%nat ∧ (n ≤ 2 * split_at n)%nat ∧
  Z.of_nat (split_at n) = 2 ^ Z.of_nat (Nat.log2 (n - 1)).
Proof.
  intros Hn. unfold split_at. pose proof (Nat.log2_spec (n - 1) ltac:(lia)) as [H1 H2].
  rewrite Nat.pow_succ_r' in H2. pose proof (Nat.pow_nonzero 2 (Nat.log2 (n - 1)) ltac:(lia)).
  rewrite Nat2Z.inj_pow. split_and!; lia.
Qed.

Section Trees.
Context `{Sha256}.

Lemma mth_fuel_S f D :
  (2 ≤ length D)%nat →
  mth_fuel (S f) D =
  hash_children (mth_fuel f (take (split_at (length D)) D)) (mth_fuel f (drop (split_at (length D)) D)).
Proof. destruct D as [|d [|d' D]]; cbn [length]; [lia..|done]. Qed.

Lemma audit_fuel_S f m D :
  (2 ≤ length D)%nat →
  audit_fuel (S f) m D =
  if (m <? split_at (length D))%nat
  then audit_fuel f m (take (split_at (length D)) D) ++ [mth (drop (split_at (length D)) D)]
  else audit_fuel f (m - split_at (length D)) (drop (split_at (length D)) D) ++
       [mth (take (split_at (length D)) D)].
Proof. destruct D as [|d [|d' D]]; cbn [length]; [lia..|done]. Qed.

Lemma mth_fuel_irrel f D : (length D ≤ f)%nat → mth_fuel f D = mth D.
Proof.
  unfold mth. enough (Heq : ∀ f g D, (length D ≤ f)%nat → (length D ≤ g)%nat → mth_fuel f D = mth_fuel g D)
    by (intros; by apply Heq). clear.
  intros f. induction f as [|f IH]; intros g D Hf Hg; [destruct D; [by destruct g|cbn in Hf; lia]|].
  destruct (decide (2 ≤ length D)%nat) as [H2|]; [|destruct D as [|d [|d' D]]; [by destruct g..|cbn in *; lia]].
  pose proof (split_at_spec _ H2) as [Hk _]. destruct g as [|g]; [lia|]. rewrite !mth_fuel_S by done.
  by rewrite !(IH g) by (rewrite ?length_take, ?length_drop; lia).
Qed.

Lemma mth_eq D :
  (2 ≤ length D)%nat →
  mth D = hash_children (mth (take (split_at (length D)) D)) (mth (drop (split_at (length D)) D)).
Proof.
  intros Hl. pose proof (split_at_spec _ Hl) as [Hk _].
  rewrite <- (mth_fuel_irrel (S (length D)) D), mth_fuel_S by lia.
  by rewrite !mth_fuel_irrel by (rewrite ?length_take, ?length_drop; lia).
Qed.

Lemma audit_fuel_irrel f m D : (length D ≤ f)%nat → audit_fuel f m D = audit m D.
Proof.
  unfold audit.
  enough (Heq : ∀ f g D, (length D ≤ f)%nat → (length D ≤ g)%nat → ∀ m, audit_fuel f m D = audit_fuel g m D)
    by (intros; by apply Heq). clear.
  intros f. induction f as [|f IH]; intros g D Hf Hg m; [destruct D; [by destruct g|cbn in Hf; lia]|].
  destruct (decide (2 ≤ length D)%nat) as [H2|]; [|destruct D as [|d [|d' D]]; [by destruct g..|cbn in *; lia]].
  pose proof (split_at_spec _ H2) as [Hk _]. destruct g as [|g]; [lia|]. rewrite !audit_fuel_S by done.
  case_match; by rewrite (IH g) by (rewrite ?length_take, ?length_drop; lia).
Qed.

Lemma audit_eq m D :
  (2 ≤ length D)%nat →
  audit m D = if (m <? split_at (length D))%nat
              then audit m (take (split_at (length D)) D) ++ [mth (drop (split_at (length D)) D)]
              else audit (m - split_at (length D)) (drop (split_at (length D)) D) ++
                   [mth (take (split_at (length D)) D)].
Proof.
  intros Hl. pose proof (split_at_spec _ Hl) as [Hk _].
  rewrite <- (audit_fuel_irrel (S (length D)) m D), audit_fuel_S by lia.
  by rewrite !audit_fuel_irrel by (rewrite ?length_take, ?length_drop; lia).
Qed.

Lemma merkle_ind (P : list bytes → Prop) :
  (∀ d, P [d]) →
  (∀ D, (2 ≤ length D)%nat → P (take (split_at (length D)) D) → P (drop (split_at (length D)) D) → P D) →
  ∀ D, D ≠ [] → P D.
Proof.
  intros H1 H2 D. remember (length D) as n eqn:Hn. revert D Hn. induction (lt_wf n) as [n _ IH].
  intros D -> HD. destruct (decide (2 ≤ length D)%nat) as [Hl|];
    [|destruct D as [|d [|d' D]]; [done|apply H1|cbn in *; lia]].
  pose proof (split_at_spec _ Hl) as [Hk _].
  apply H2; [done|..]; (eapply IH; [|done|rewrite <- length_zero_iff_nil]); rewrite ?length_take, ?length_drop; lia.
Qed.

(** One step down the tree, for an index in either half. *)
Lemma root_step (D : list bytes) (m : nat) leaf p :
  (2 ≤ length D)%nat → Z.of_nat (length D) ≤ 2 ^ 63 → (m < length D)%nat →
  let k := split_at (length D) in
  root_from_inclusion (Z.of_nat m) (Z.of_nat (length D)) leaf p =
  match last p with
  | None => None
  | Some s =>
      if (m <? k)%nat
      then r ← root_from_inclusion (Z.of_nat m) (Z.of_nat (length (take k D))) leaf (take (length p - 1) p);
           Some (hash_children r s)
      else r ← root_from_inclusion (Z.of_nat (m - k)) (Z.of_nat (length (drop k D))) leaf (take (length p - 1) p);
           Some (hash_children s r)
  end.
Proof.
  intros Hl Hbig Hm k. pose proof (split_at_spec _ Hl) as (Hk & Hk2 & Hpow). fold k in Hk, Hk2, Hpow.
  set (j := Z.of_nat (Nat.log2 (length D - 1))) in *.
  assert (0 ≤ j ≤ 62).
  { split; [lia|]. assert (2 ^ j < 2 ^ 63) by lia. assert (j < 63) by (apply (Z.pow_lt_mono_r_iff 2); lia). lia. }
  rewrite length_take, length_drop, Nat.min_l by lia.
  destruct (Nat.ltb_spec m k).
  - rewrite (root_left j), <- Hpow by lia. done.
  - rewrite (root_right j), <- Hpow by lia. by rewrite !Nat2Z.inj_sub by lia.
Qed.

(** [root_from_inclusion] accepts the audit path of every entry. *)
Lemma audit_path_root D m d :
  Z.of_nat (length D) ≤ 2 ^ 63 → D !! m = Some d →
  root_from_inclusion (Z.of_nat m) (Z.of_nat (length D)) (leaf_hash d) (audit m D) = Some (mth D).
Proof.
  intros Hbig Hm. assert (HD : D ≠ []) by (by destruct D). revert Hbig m Hm. pattern D.
  apply merkle_ind; [intros d' _ m Hm|clear D HD; intros D Hl IHl IHr Hbig m Hm|done].
  - apply list_lookup_singleton_Some in Hm as [-> ->]. done.
  - pose proof (lookup_lt_Some _ _ _ Hm). pose proof (split_at_spec _ Hl) as (Hk & _).
    rewrite root_step, audit_eq, (mth_eq D) by done.
    destruct (Nat.ltb_spec m (split_at (length D))) as [Hlt|Hge]; rewrite last_snoc, length_app; cbn [length];
      rewrite Nat.add_sub, take_app_length.
    + rewrite IHl; [done|rewrite length_take; lia|by rewrite lookup_take_lt].
    + rewrite IHr; [done|rewrite length_drop; lia|rewrite lookup_drop, <- Hm; f_equal; lia].
Qed.

End Trees.

(** ** What an accepted proof means *)

Section Soundness.
Context `{Hsha : Sha256, HshaL : !Sha256Laws}.

Lemma length_mth D : length (mth D) = 32%nat.
Proof.
  destruct (decide (2 ≤ length D)%nat); [rewrite mth_eq by done; apply sha256_length|].
  destruct D as [|d [|d' D]]; cbn in *; [apply sha256_length..|lia].
Qed.

Lemma hash_children_eq a b c d :
  length a = length c → hash_children a b = hash_children c d → (a = c ∧ b = d) ∨ sha256_collision.
Proof.
  unfold hash_children. intros Hl [[= E]|]%sha256_eq; [left|by right]. by apply app_inj_1 in E.
Qed.

Lemma length_root m n leaf p r :
  length leaf = 32%nat → root_from_inclusion m n leaf p = Some r → length r = 32%nat.
Proof.
  intros Hl. unfold root_from_inclusion. repeat case_match; try done. intros [= <-].
  assert (Hb : ∀ q s, length s = 32%nat → length (fold_border s q) = 32%nat).
  { induction q as [|x q IH]; intros s Hs; [done|]. apply IH, sha256_length. }
  apply Hb. generalize 0 as i. revert leaf Hl.
  induction (take _ p) as [|x q IH]; intros leaf Hl i; [done|]. apply IH. case_match; apply sha256_length.
Qed.

(** A path that leads to the root of [D] starts at the entry the index names. *)
Lemma root_binds_leaf D m leaf p :
  Z.of_nat (length D) ≤ 2 ^ 63 → length leaf = 32%nat → Forall (λ h, length h = 32%nat) p →
  root_from_inclusion (Z.of_nat m) (Z.of_nat (length D)) leaf p = Some (mth D) →
  (∃ d, D !! m = Some d ∧ leaf = leaf_hash d) ∨ sha256_collision.
Proof.
  intros Hbig Hleaf Hp Hr. destruct (decide (m < length D)%nat) as [Hm|].
  2:{ unfold root_from_inclusion in Hr. destruct (Z.leb_spec (Z.of_nat (length D)) (Z.of_nat m)); [done|lia]. }
  assert (HD : D ≠ []) by (destruct D; [cbn in Hm; lia|done]).
  revert Hbig m p Hp Hm Hr. pattern D.
  apply merkle_ind; [intros d' _ m p Hp Hm Hr|clear D HD; intros D Hl IHl IHr Hbig m p Hp Hm Hr|done].
  - cbn in Hm. destruct m; [|lia]. left. exists d'. split; [done|].
    destruct p; [|done]. cbn in Hr. by injection Hr.
  - pose proof (split_at_spec _ Hl) as (Hk & _). rewrite root_step, (mth_eq D) in Hr by done.
    destruct (last p) as [s|] eqn:Hs; [|done]. cbv zeta in Hr.
    assert (Hp' : Forall (λ h, length h = 32%nat) (take (length p - 1) p)) by by apply Forall_take.
    assert (Hs32 : length s = 32%nat).
    { rewrite Forall_forall in Hp. apply Hp. by apply last_Some_elem_of. }
    destruct (Nat.ltb_spec m (split_at (length D))) as [Hlt|Hge];
      (destruct (root_from_inclusion _ _ _ _) as [r|] eqn:Er; [|done]); injection Hr as Hr;
      pose proof (length_root _ _ _ _ _ Hleaf Er); apply hash_children_eq in Hr as [[-> ->]|];
      try (by right); try (by rewrite length_mth).
    + apply IHl in Er as [(d & Hd & ->)|]; try done; [|by right|rewrite length_take; lia..].
      left. exists d. split; [|done]. by rewrite lookup_take_lt in Hd.
    + apply IHr in Er as [(d & Hd & ->)|]; try done; [|by right|rewrite length_drop; lia..].
      left. exists d. split; [|done]. rewrite lookup_drop in Hd. rewrite <- Hd. f_equal. lia.
Qed.

Context `{Hb64 : Base64, Hb64L : !Base64Laws, Hed : Ed25519}.

Lemma no_newline_digits n : 0 ≤ n → x0a ∉ uint_to_string n.
Proof.
  intros Hn Hin. pose proof (uint_to_string_digits n Hn) as Hd. rewrite Forall_forall in Hd.
  by apply Hd in Hin.
Qed.

(** A line that is the last of its text. *)
Lemma last_line_inj a b c d : x0a ∉ b → x0a ∉ d → a ++ x0a :: b = c ++ x0a :: d → a = c ∧ b = d.
Proof.
  revert c. induction a as [|x a IH]; intros [|y c] Hb Hd E; cbn in E.
  - by injection E.
  - injection E as <- ->. exfalso. apply Hb. rewrite elem_of_app. right. by left.
  - injection E as -> <-. exfalso. apply Hd. rewrite elem_of_app. right. by left.
  - injection E as <- E. by apply IH in E as [-> ->].
Qed.

(** The signed text determines what it commits to, whatever the origin contains. *)
Lemma checkpoint_body_inj o n r o' n' r' :
  u64 n → u64 n' → checkpoint_body o n r = checkpoint_body o' n' r' → o = o' ∧ n = n' ∧ r = r'.
Proof.
  intros Hn Hn' E.
  assert (Hform : ∀ o n r, checkpoint_body o n r = ((o ++ x0a :: uint_to_string n) ++ x0a :: base64_encode r) ++ [x0a]).
  { intros. unfold checkpoint_body. by rewrite <- !app_assoc. }
  rewrite !Hform in E. apply app_inj_2 in E as [E _]; [|done].
  apply last_line_inj in E as [E Er]; [|apply base64_line..].
  apply last_line_inj in E as [-> En]; [|apply no_newline_digits; unfold u64 in *; lia..].
  split_and!; [done| |by apply base64_inj].
  assert (Hp : Some n = Some n'); [|by injection Hp].
  rewrite <- (parse_uint_to_string U64_MAX n), <- (parse_uint_to_string U64_MAX n')
    by (unfold u64, U64_MAX in *; lia). by f_equal.
Qed.

End Soundness.

(** ** The wire form *)

Record lp_wf (p : LogProof) : Prop := {
  wf_origin : Z.of_nat (length (lp_origin p)) ≤ U16_MAX;
  wf_utf8 : is_utf8 (lp_origin p) = true;
  wf_size : u64 (tree_size p);
  wf_index : u64 (leaf_index p);
  wf_root : length (lp_root p) = 32%nat;
  wf_path : Z.of_nat (length (audit_path p)) ≤ U16_MAX;
  wf_hashes : Forall (λ h, length h = 32%nat) (audit_path p);
  wf_sig : Z.of_nat (length (checkpoint_sig p)) ≤ U16_MAX;
}.

Lemma take_front_Some b n h t : take_front b n = Some (h, t) ↔ b = h ++ t ∧ length h = n.
Proof.
  unfold take_front. destruct (Nat.ltb_spec (length b) n); split.
  - done.
  - intros [-> <-]. rewrite length_app in *. lia.
  - intros [= <- <-]. rewrite take_drop, length_take. split; [done|lia].
  - intros [-> <-]. by rewrite take_app_length, drop_app_length.
Qed.

Lemma take_u16_Some b v t : take_u16 b = Some (v, t) ↔ b = be_bytes 2 v ++ t ∧ u16 v.
Proof.
  unfold take_u16. split.
  - destruct (take_front b 2) as [[h t']|] eqn:E; [|done]. cbn [mbind option_bind]. intros [= <- <-].
    apply take_front_Some in E as [-> Hl]. rewrite be_bytes_be_value_len by done.
    split; [done|]. pose proof (be_value_range h) as Hr. rewrite Hl in Hr. unfold u16, U16_MAX. cbn in Hr. lia.
  - intros [-> Hv]. rewrite (proj2 (take_front_Some _ 2 (be_bytes 2 v) t)) by (by rewrite length_be_bytes).
    cbn [mbind option_bind]. rewrite be_value_be_bytes_small; [done|]. unfold u16, U16_MAX in Hv. cbn. lia.
Qed.

Lemma take_hashes_Some n b hs t :
  take_hashes n b = Some (hs, t) ↔ b = concat hs ++ t ∧ length hs = n ∧ Forall (λ h, length h = 32%nat) hs.
Proof.
  revert b hs. induction n as [|n IH]; intros b hs; cbn [take_hashes].
  - split; [by intros [= <- <-]|]. by intros (-> & ->%length_zero_iff_nil & _).
  - split.
    + destruct (take_front b 32) as [[h b']|] eqn:E; [|done]. cbn.
      destruct (take_hashes n b') as [[hs' t']|] eqn:E'; [|done]. cbn. intros [= <- <-].
      apply take_front_Some in E as [-> Hl]. apply IH in E' as (-> & <- & HF).
      split_and!; [cbn; by rewrite app_assoc|done|by constructor].
    + intros (-> & Hl & HF). destruct hs as [|h hs]; [done|]. apply Forall_cons in HF as [Hh HF].
      cbn [concat]. rewrite <- app_assoc, (proj2 (take_front_Some _ 32 h (concat hs ++ t))) by done.
      cbn [mbind option_bind]. rewrite (proj2 (IH _ hs)); [done|]. split_and!; [done|by injection Hl|done].
Qed.

Lemma take_front_int b n h t :
  take_front b n = Some (h, t) → b = be_bytes n (be_value h) ++ t ∧ 0 ≤ be_value h < 2 ^ (8 * Z.of_nat n).
Proof.
  intros [-> Hl]%take_front_Some. rewrite (be_bytes_be_value_len n h) by done.
  pose proof (be_value_range h) as Hr. rewrite Hl in Hr. done.
Qed.

Lemma take_front_app n h t : length h = n → take_front (h ++ t) n = Some (h, t).
Proof. intros. by apply take_front_Some. Qed.

Lemma take_u16_app v t : u16 v → take_u16 (be_bytes 2 v ++ t) = Some (v, t).
Proof. intros. by apply take_u16_Some. Qed.

Lemma take_hashes_app n hs t :
  length hs = n → Forall (λ h, length h = 32%nat) hs → take_hashes n (concat hs ++ t) = Some (hs, t).
Proof. intros. by apply take_hashes_Some. Qed.

(** A stapled proof has one encoding: decoding accepts exactly the encodings of proofs
    whose fields fit their widths, and gives the proof back. *)
Theorem log_proof_codec_exact b p : lp_decode b = Some p ↔ lp_wf p ∧ b = lp_encode p.
Proof.
  unfold lp_decode. split.
  - destruct (take_u16 b) as [[olen b1]|] eqn:E1; [|done]. cbn.
    destruct (take_front b1 _) as [[origin b2]|] eqn:E2; [|done]. cbn.
    destruct (is_utf8 origin) eqn:Eu; [|done]. cbn.
    destruct (take_front b2 8) as [[size b3]|] eqn:E3; [|done]. cbn.
    destruct (take_front b3 8) as [[index b4]|] eqn:E4; [|done]. cbn.
    destruct (take_front b4 32) as [[root b5]|] eqn:E5; [|done]. cbn.
    destruct (take_u16 b5) as [[plen b6]|] eqn:E6; [|done]. cbn.
    destruct (take_hashes _ b6) as [[path b7]|] eqn:E7; [|done]. cbn.
    destruct (take_u16 b7) as [[slen b8]|] eqn:E8; [|done]. cbn.
    destruct (take_front b8 _) as [[sig b9]|] eqn:E9; [|done]. cbn.
    case_bool_decide as Hend; [|done]. intros [= <-]. subst b9.
    apply take_u16_Some in E1 as [-> H1], E6 as [-> H6], E8 as [-> H8].
    apply take_front_Some in E2 as [-> H2], E5 as [-> H5], E9 as [-> H9].
    apply take_front_int in E3 as [-> H3], E4 as [-> H4]. apply take_hashes_Some in E7 as (-> & H7 & HF).
    unfold u16 in *. assert (Hlen : ∀ (n : nat) z, n = Z.to_nat z → 0 ≤ z → Z.of_nat n = z) by lia.
    split.
    + constructor; cbn; unfold u64, U64_MAX; try done; try lia.
    + unfold lp_encode. cbn.
      rewrite (Hlen _ _ H2), (Hlen _ _ H7), (Hlen _ _ H9) by lia. by rewrite app_nil_r.
  - intros [[H1 Hu H3 H4 H5 H6 H7 H8] ->]. destruct p as [o n i r path s].
    cbn [lp_origin tree_size leaf_index lp_root audit_path checkpoint_sig] in H1, Hu, H3, H4, H5, H6, H7, H8.
    assert (Hw : ∀ l : nat, Z.of_nat l ≤ U16_MAX → u16 (Z.of_nat l)) by (unfold u16; lia).
    unfold lp_encode. cbn [lp_origin tree_size leaf_index lp_root audit_path checkpoint_sig].
    rewrite take_u16_app, Some_bind by auto. rewrite take_front_app, Some_bind, Hu by lia. cbn [negb].
    do 3 (rewrite take_front_app, Some_bind by (by rewrite ?length_be_bytes)).
    rewrite take_u16_app, Some_bind by auto. rewrite take_hashes_app, Some_bind by (lia || done).
    rewrite take_u16_app, Some_bind by auto.
    rewrite (proj2 (take_front_Some s _ s [])), Some_bind, bool_decide_true
      by first [done | rewrite app_nil_r; split; [done|lia]].
    rewrite !be_value_be_bytes_small by (unfold u64, U64_MAX in *; cbn; lia). done.
Qed.

(** ** The client's check *)

Section Check.
Context `{Hsha : Sha256, HshaL : !Sha256Laws, Hb64 : Base64, Hb64L : !Base64Laws, Hed : Ed25519, HedL : !Ed25519Laws}.

(** The proof an honest log staples for entry [m] of [D]. *)
Definition honest_proof (sk : SigningKey) (origin : bytes) (D : list bytes) (m : nat) : LogProof := {|
  lp_origin := origin; tree_size := Z.of_nat (length D); leaf_index := Z.of_nat m; lp_root := mth D;
  audit_path := audit m D;
  checkpoint_sig := sig_to_bytes (ed_sign sk (checkpoint_body origin (Z.of_nat (length D)) (mth D))) |}.

(** C31.  Every entry of a log can be shown: the audit path RFC 6962 defines for it, with the
    log's signature on the tree it belongs to, passes the client's check. *)
Theorem logged_entry_accepted sk origin D m d :
  Z.of_nat (length D) ≤ 2 ^ 63 → D !! m = Some d →
  verify_logged d (honest_proof sk origin D m) (vk_to_bytes (verifying_key sk)) = true.
Proof.
  intros Hbig Hm. unfold verify_logged. rewrite vk_from_to_bytes. unfold verify_checkpoint.
  cbn [honest_proof checkpoint_sig lp_origin tree_size lp_root leaf_index audit_path].
  rewrite sig_from_to_bytes, vk_verify_sign. cbn [negb]. by rewrite audit_path_root, bool_decide_true.
Qed.

Lemma logged_under data p key D :
  verify_logged data p key = true → lp_wf p → Z.of_nat (length D) ≤ 2 ^ 63 →
  tree_size p = Z.of_nat (length D) → lp_root p = mth D →
  D !! Z.to_nat (leaf_index p) = Some data ∨ sha256_collision.
Proof.
  unfold verify_logged. intros Hv Hwf Hbig Hn Hroot. destruct (vk_from_bytes key); [|done].
  destruct (verify_checkpoint _ _); [|done]. cbn in Hv. apply bool_decide_eq_true in Hv. rewrite Hn, Hroot in Hv.
  pose proof (wf_index _ Hwf). rewrite <- (Z2Nat.id (leaf_index p)) in Hv by (unfold u64 in *; lia).
  destruct (root_binds_leaf D _ _ _ Hbig ltac:(apply sha256_length) (wf_hashes _ Hwf) Hv) as [(d & Hd & Hl)|]; [|by right].
  unfold leaf_hash in Hl. apply sha256_eq in Hl as [[= ->]|]; auto.
Qed.

Lemma verify_logged_signed data p key :
  lp_wf p → verify_logged data p key = true →
  ∃ vk sig body, vk_from_bytes key = Some vk ∧ sig_from_slice (checkpoint_sig p) = Some sig ∧
    vk_verify vk body sig = true ∧
    ∀ origin D, Z.of_nat (length D) ≤ 2 ^ 63 → body = checkpoint_body origin (Z.of_nat (length D)) (mth D) →
      D !! Z.to_nat (leaf_index p) = Some data ∨ sha256_collision.
Proof.
  intros Hwf Hv. pose proof Hv as Hv'. unfold verify_logged, verify_checkpoint in Hv'.
  destruct (vk_from_bytes key) as [vk|] eqn:Ek; [|done].
  destruct (sig_from_slice _) as [sig|] eqn:Es; [|done].
  destruct (vk_verify _ _ _) eqn:Evk; [|done]. exists vk, sig. eexists. split_and!; [done|done|exact Evk|].
  intros origin D Hbig [_ [Hn Hr]]%checkpoint_body_inj; [|apply Hwf|unfold u64, U64_MAX; lia].
  by eapply logged_under.
Qed.

(** What the check accepts is in the log: the pinned key signed a checkpoint, and if that
    checkpoint is the one of a log with the entries [D], then the data is the entry of [D] at
    the proof's index - or SHA-256 has a collision. *)
Theorem accepted_entry_is_logged data p key :
  lp_wf p → verify_logged data p key = true →
  ∃ vk sig body, vk_from_bytes key = Some vk ∧ sig_from_slice (checkpoint_sig p) = Some sig ∧
    vk_verify vk body sig = true ∧
    ∀ origin D, Z.of_nat (length D) ≤ 2 ^ 63 → body = checkpoint_body origin (Z.of_nat (length D)) (mth D) →
      D !! Z.to_nat (leaf_index p) = Some data ∨ sha256_collision.
Proof. apply verify_logged_signed. Qed.

End Check.

(** ** Witnesses *)

Module ToyLog.
Import Toy.

#[export] Instance toy_base64 : Base64 := to_hex.
#[export] Instance toy_base64_laws : Base64Laws.
Proof.
  split; [apply to_hex_inj|]. intros a Hin. pose proof (to_hex_lower a) as Hl.
  rewrite Forall_forall in Hl. by apply Hl in Hin.
Qed.

Definition log_sk : SigningKey := sk_from_bytes (replicate 32 x07).
Definition entries : list bytes := (λ b, replicate 48 b) <$> [x11; x12; x13; x14; x15; x16; x17].
Definition proof5 : LogProof := honest_proof log_sk (str "log.nil.example") entries 5.

Lemma logged_entry_accepted_witness :
  verify_logged (replicate 48 x16) (honest_proof log_sk (str "log.nil.example") entries 5)
    (vk_to_bytes (verifying_key log_sk)) = true.
Proof.
  apply (logged_entry_accepted log_sk (str "log.nil.example") entries 5 (replicate 48 x16)); by vm_compute.
Defined.

Lemma proof5_wf : lp_wf proof5.
Proof. constructor; (by vm_compute) || (vm_compute; repeat constructor). Qed.

Lemma accepted_entry_is_logged_witness :
  ∃ vk sig body, vk_from_bytes (vk_to_bytes (verifying_key log_sk)) = Some vk ∧
    sig_from_slice (checkpoint_sig proof5) = Some sig ∧ vk_verify vk body sig = true ∧
    ∀ origin D, Z.of_nat (length D) ≤ 2 ^ 63 → body = checkpoint_body origin (Z.of_nat (length D)) (mth D) →
      D !! 5%nat = Some (replicate 48 x16) ∨ sha256_collision.
Proof.
  apply (accepted_entry_is_logged (replicate 48 x16) proof5); [apply proof5_wf|by vm_compute].
Defined.

End ToyLog.
