(* ===== verification/Attest.v ===== *)
(** * Attestation ([crates/nil-attest/src])

    What a client demands of a node before any packet flows: the evidence format ([ratls.rs]),
    the two report families ([report/sevsnp.rs], [report/tdx.rs]) and the appraisal that ties a
    verified report to the pinned measurement, the live TLS key, the connection's nonce and the
    transparency log ([lib.rs], [policy.rs]).  The [sev], [dcap-qvl] and hash crates are
    parameters: parsing and signature chains are theirs.  The build is one without the
    [synthetic] feature. *)

From S2P Require Import Prelude.
From S2P Require Import Text.
From S2P Require Import Crypto.
From S2P Require Import TransLog.
From S2P Require Import Grant.
From S2P Require Import Registry.
From Stdlib Require Import Strings.Byte ZArith Lia.
From stdpp Require Import prelude gmap strings.

Local Open Scope Z_scope.

(** ** The crates behind it *)

Class Sha384 := sha384 : bytes → bytes.
Class Sha512 := sha512 : bytes → bytes.

Definition sha384_collision `{Sha384} : Prop := ∃ x y, x ≠ y ∧ sha384 x = sha384 y.

Record TcbVersion := {
  tv_fmc : option Z; tv_bootloader : Z; tv_tee : Z; tv_snp : Z; tv_microcode : Z;
}.

Inductive Generation := Milan | Genoa | Turin.

(** [sev]: AMD reports, certificates and the built-in roots. *)
Class SevCrate := {
  SnpReport : Type;
  SnpCert : Type;
  snp_from_bytes : bytes → option SnpReport;
  snp_cert_from_der : bytes → option SnpCert;
  builtin_ark : Generation → option SnpCert;
  builtin_ask : Generation → option SnpCert;
  snp_chain_verify : SnpCert → SnpCert → SnpCert → SnpReport → bool;
  debug_allowed : SnpReport → bool;
  migrate_ma_allowed : SnpReport → bool;
  current_tcb : SnpReport → TcbVersion;
  committed_tcb : SnpReport → TcbVersion;
  snp_measurement : SnpReport → bytes;
  snp_report_data : SnpReport → bytes;
  tcb_lt : TcbVersion → TcbVersion → bool;
}.

Record TdBody := {
  mr_td : bytes;
  b_td_attributes : bytes;
  b_xfam : bytes;
  b_mr_config_id : bytes;
  b_mr_owner : bytes;
  b_mr_owner_config : bytes;
  b_rt_mr0 : bytes;
  b_rt_mr1 : bytes;
  b_rt_mr2 : bytes;
  b_rt_mr3 : bytes;
  b_report_data : bytes;
}.

Inductive TdReport := TD10 (td : TdBody) | TD15 (base : TdBody) (service_td : bytes) | SgxEnclave.

Record VerifiedReport := { vr_report : TdReport; vr_status : bytes; vr_advisory_ids : list bytes }.

(** [dcap-qvl]: the collateral and the production quote verifier, with [allow_service_td]. *)
Class DcapCrate := {
  Collateral : Type;
  collateral_from_slice : bytes → option Collateral;
  dcap_verify : bytes → Collateral → Z → bool → option VerifiedReport;
}.

Record td_widths (b : TdBody) : Prop := {
  tw_mr_td : length (mr_td b) = 48%nat;
  tw_attributes : length (b_td_attributes b) = 8%nat;
  tw_xfam : length (b_xfam b) = 8%nat;
  tw_config : length (b_mr_config_id b) = 48%nat;
  tw_owner : length (b_mr_owner b) = 48%nat;
  tw_owner_config : length (b_mr_owner_config b) = 48%nat;
  tw_0 : length (b_rt_mr0 b) = 48%nat;
  tw_1 : length (b_rt_mr1 b) = 48%nat;
  tw_2 : length (b_rt_mr2 b) = 48%nat;
  tw_3 : length (b_rt_mr3 b) = 48%nat;
}.

Definition report_widths (r : TdReport) : Prop :=
  match r with
  | TD10 b => td_widths b
  | TD15 b s => td_widths b ∧ length s = 48%nat
  | SgxEnclave => True
  end.

(** Fields are arrays of their width, and the report a verification returns is the one in the
    quote, whatever the collateral and the time. *)
Class DcapLaws `{DcapCrate} : Prop := {
  dcap_widths : ∀ q c t s v, dcap_verify q c t s = Some v → report_widths (vr_report v);
  dcap_report : ∀ q c t s v c' t' s' v',
    dcap_verify q c t s = Some v → dcap_verify q c' t' s' = Some v' → vr_report v = vr_report v';
}.

(** ** Policies and errors *)

Record SevSnpTcbFloor := {
  fl_fmc : option Z; fl_bootloader : Z; fl_tee : Z; fl_snp : Z; fl_microcode : Z;
}.

Definition is_met_by (f : SevSnpTcbFloor) (fmc : option Z) (bootloader tee snp microcode : Z) : bool :=
  (fl_bootloader f <=? bootloader) && (fl_tee f <=? tee) && (fl_snp f <=? snp) &&
  (fl_microcode f <=? microcode) &&
  match fl_fmc f with Some required => required <=? default 0 fmc | None => true end.

Record AppraisalPolicy := {
  ap_tee : Tee;
  expected_measurement : bytes;
  ap_tls_spki_sha256 : option bytes;
  allow_tcb_out_of_date : bool;
  ap_min_tcb_sevsnp : option SevSnpTcbFloor;
  ap_tdx_policy : option Core.TdxPolicy;
  ap_transparency_log_key : option bytes;
}.

Inductive TcbStatus := UpToDate | OutOfDate.

Inductive AttestError :=
  | CertError | Malformed | UnsupportedTee (tag : byte) | TeeMismatch (expected found : Tee)
  | ChainVerification | MeasurementMismatch | TlsSpkiMismatch | ReportDataMismatch
  | TcbNotUpToDate | PolicyViolation | TransparencyNotLogged.

Record Evidence := {
  ev_tee : Tee;
  ev_measurement : bytes;
  ev_report_data : bytes;
  ev_tcb_status : TcbStatus;
}.

Record Verdict := { vd_tee : Tee; vd_measurement : bytes; vd_tcb_status : TcbStatus }.

(** ** Evidence ([ratls.rs]) *)

Definition TAG_SEVSNP : byte := x01.
Definition TAG_TDX : byte := x02.

Definition encode (tag : byte) (parts : list bytes) : bytes :=
  tag :: (parts ≫= λ p, be_bytes 4 (Z.of_nat (length p)) ++ p).

Definition encode_sevsnp (report vcek_der : bytes) : bytes := encode TAG_SEVSNP [report; vcek_der].
Definition encode_tdx (quote collateral_json : bytes) : bytes := encode TAG_TDX [quote; collateral_json].

(** Every turn consumes at least four bytes; the fuel is the length of the input. *)
Fixpoint decode_loop (fuel : nat) (rest : bytes) : result AttestError (list bytes) :=
  match rest with
  | [] => Ok []
  | _ :: _ =>
      match fuel with
      | 0%nat => Err Malformed
      | S fuel =>
          _ ← ensure (negb (length rest <? 4)%nat) Malformed;
          let len := Z.to_nat (be_value (take 4 rest)) in
          let rest := drop 4 rest in
          _ ← ensure (negb (length rest <? len)%nat) Malformed;
          parts ← decode_loop fuel (drop len rest);
          Ok (take len rest :: parts)
      end
  end.

Definition decode_parts (rest : bytes) : result AttestError (list bytes) := decode_loop (length rest) rest.

Section Reports.
Context `{Sha256, Sha384, Sha512, Base64, Ed25519, SevCrate, DcapCrate}.

Definition bind_report_data (spki nonce : bytes) : bytes := sha512 (sha256 spki ++ nonce).

(** ** AMD SEV-SNP ([report/sevsnp.rs]) *)

Definition snp_status (r : SnpReport) (min_tcb : option SevSnpTcbFloor) : TcbStatus :=
  let t := current_tcb r in
  if tcb_lt t (committed_tcb r) then OutOfDate
  else if match min_tcb with
          | Some f => negb (is_met_by f (tv_fmc t) (tv_bootloader t) (tv_tee t) (tv_snp t) (tv_microcode t))
          | None => false
          end then OutOfDate
  else UpToDate.

Definition snp_appraise_report (r : SnpReport) (min_tcb : option SevSnpTcbFloor) :
    result AttestError Evidence :=
  _ ← ensure (negb (debug_allowed r)) PolicyViolation;
  _ ← ensure (negb (migrate_ma_allowed r)) PolicyViolation;
  Ok {| ev_tee := SevSnp; ev_measurement := snp_measurement r; ev_report_data := snp_report_data r;
        ev_tcb_status := snp_status r min_tcb |}.

(** The first built-in generation whose chain verifies the report. *)
Fixpoint first_chain (gens : list Generation) (vek : SnpCert) (r : SnpReport) : option (SnpCert * SnpCert) :=
  match gens with
  | [] => None
  | g :: gens =>
      match builtin_ark g, builtin_ask g with
      | Some ark, Some ask => if snp_chain_verify ark ask vek r then Some (ark, ask) else first_chain gens vek r
      | _, _ => first_chain gens vek r
      end
  end.

Definition verifying_chain (vek : SnpCert) (r : SnpReport) : result AttestError (SnpCert * SnpCert) :=
  ok_or (first_chain [Milan; Genoa; Turin] vek r) ChainVerification.

Definition snp_verify (report_bytes vcek_der : bytes) (min_tcb : option SevSnpTcbFloor) :
    result AttestError Evidence :=
  report ← ok_or (snp_from_bytes report_bytes) Malformed;
  vek ← ok_or (snp_cert_from_der vcek_der) CertError;
  chain ← verifying_chain vek report;
  _ ← ensure (snp_chain_verify chain.1 chain.2 vek report) ChainVerification;
  snp_appraise_report report min_tcb.

(** ** Intel TDX ([report/tdx.rs]) *)

Definition HEADER_BYTE_LEN : nat := 48.
Definition TEE_TYPE_TDX : Z := 129.
Definition TD_REPORT10_BYTE_LEN : nat := 584.
Definition TDX_IDENTITY_DOMAIN : bytes := str "nil/attestation/tdx-identity/v1" ++ [x00].

Definition le_value (l : bytes) : Z := be_value (rev l).

Definition prevalidate_quote (quote : bytes) : result AttestError unit :=
  _ ← ensure (negb (length quote <? HEADER_BYTE_LEN + TD_REPORT10_BYTE_LEN)%nat) Malformed;
  _ ← ensure (bool_decide (le_value (take 2 quote) ∈ [4; 5])) Malformed;
  ensure (le_value (take 4 (drop 4 quote)) =? TEE_TYPE_TDX) Malformed.

Definition require_exact (actual expected : bytes) : result AttestError unit :=
  ensure (bool_decide (length actual = length expected) && bool_decide (actual = expected)) PolicyViolation.

(** [td_attributes[0] & 0x01 != 0] *)
Definition debug_bit (attributes : bytes) : bool := negb (Z.land (b2z (at_ attributes 0)) 1 =? 0).

Definition report_body (r : TdReport) : option (TdBody * option bytes) :=
  match r with TD10 td => Some (td, None) | TD15 base s => Some (base, Some s) | SgxEnclave => None end.

(** What the identity digest hashes. *)
Definition tdx_identity (base : TdBody) (service_td : option bytes) : bytes :=
  TDX_IDENTITY_DOMAIN ++ mr_td base ++ b_td_attributes base ++ b_xfam base ++ b_mr_config_id base ++
  b_mr_owner base ++ b_mr_owner_config base ++ b_rt_mr0 base ++ b_rt_mr1 base ++ b_rt_mr2 base ++
  b_rt_mr3 base ++ match service_td with None => [x00] | Some value => x01 :: value end.

Definition tdx_appraise_report (r : TdReport) (p : Core.TdxPolicy) : result AttestError bytes :=
  match report_body r with
  | None => Err Malformed
  | Some (base, service_td) =>
      _ ← ensure (negb (debug_bit (Core.td_attributes p) || debug_bit (b_td_attributes base))) PolicyViolation;
      _ ← ensure (negb (all_zero (b_rt_mr0 base) || all_zero (Core.rt_mr0 p))) PolicyViolation;
      _ ← ensure (negb (all_zero (b_rt_mr1 base) || all_zero (Core.rt_mr1 p))) PolicyViolation;
      _ ← ensure (negb (all_zero (b_rt_mr2 base) || all_zero (Core.rt_mr2 p))) PolicyViolation;
      _ ← ensure (negb (all_zero (b_rt_mr3 base) || all_zero (Core.rt_mr3 p))) PolicyViolation;
      _ ← require_exact (b_td_attributes base) (Core.td_attributes p);
      _ ← require_exact (b_xfam base) (Core.xfam p);
      _ ← require_exact (b_mr_config_id base) (Core.mr_config_id p);
      _ ← require_exact (b_mr_owner base) (Core.mr_owner p);
      _ ← require_exact (b_mr_owner_config base) (Core.mr_owner_config p);
      _ ← require_exact (b_rt_mr0 base) (Core.rt_mr0 p);
      _ ← require_exact (b_rt_mr1 base) (Core.rt_mr1 p);
      _ ← require_exact (b_rt_mr2 base) (Core.rt_mr2 p);
      _ ← require_exact (b_rt_mr3 base) (Core.rt_mr3 p);
      _ ← match service_td, Core.mr_service_td p with
          | None, None => Ok tt
          | Some actual, Some expected => require_exact actual expected
          | _, _ => Err PolicyViolation
          end;
      Ok (sha384 (tdx_identity base service_td))
  end.

Definition strict_tcb_status (status : bytes) (advisory_ids : list bytes) : TcbStatus :=
  if bool_decide (status = str "UpToDate") && bool_decide (advisory_ids = []) then UpToDate else OutOfDate.

Definition tdx_verify (quote collateral_json : bytes) (now_secs : Z) (p : Core.TdxPolicy) :
    result AttestError Evidence :=
  _ ← prevalidate_quote quote;
  collateral ← ok_or (collateral_from_slice collateral_json) Malformed;
  verified ← ok_or (dcap_verify quote collateral now_secs (bool_decide (is_Some (Core.mr_service_td p))))
               ChainVerification;
  measurement ← tdx_appraise_report (vr_report verified) p;
  body ← ok_or (report_body (vr_report verified)) Malformed;
  Ok {| ev_tee := Tdx; ev_measurement := measurement; ev_report_data := b_report_data body.1;
        ev_tcb_status := strict_tcb_status (vr_status verified) (vr_advisory_ids verified) |}.

Record VerifiedIdentityCandidate := {
  vi_mr_td : bytes; vi_policy : Core.TdxPolicy; vi_measurement : bytes;
}.

(** The policy that pins exactly what a report says. *)
Definition observed_policy (base : TdBody) (service_td : option bytes) : Core.TdxPolicy := {|
  Core.td_attributes := b_td_attributes base; Core.xfam := b_xfam base;
  Core.mr_config_id := b_mr_config_id base; Core.mr_owner := b_mr_owner base;
  Core.mr_owner_config := b_mr_owner_config base; Core.rt_mr0 := b_rt_mr0 base;
  Core.rt_mr1 := b_rt_mr1 base; Core.rt_mr2 := b_rt_mr2 base; Core.rt_mr3 := b_rt_mr3 base;
  Core.mr_service_td := service_td |}.

Definition verified_identity_candidate (quote collateral_json : bytes) (now_secs : Z) :
    result AttestError VerifiedIdentityCandidate :=
  _ ← prevalidate_quote quote;
  collateral ← ok_or (collateral_from_slice collateral_json) Malformed;
  verified ← ok_or (dcap_verify quote collateral now_secs true) ChainVerification;
  _ ← ensure (match strict_tcb_status (vr_status verified) (vr_advisory_ids verified) with
              | UpToDate => true | OutOfDate => false end) PolicyViolation;
  body ← ok_or (report_body (vr_report verified)) Malformed;
  let policy := observed_policy body.1 body.2 in
  measurement ← tdx_appraise_report (vr_report verified) policy;
  Ok {| vi_mr_td := mr_td body.1; vi_policy := policy; vi_measurement := measurement |}.

(** ** The appraisal ([lib.rs]) *)

(** [now_unix]: far in the future when the clock cannot be read. *)
Definition now_unix (clock : option Z) : Z := default (U64_MAX / 2) clock.

Definition split_stapled (base : nat) (parts : list bytes) : result AttestError (list bytes * option bytes) :=
  if (length parts =? base)%nat then Ok (parts, None)
  else if (length parts =? base + 1)%nat then Ok (take base parts, parts !! base)
  else Err Malformed.

Definition verify_report (tag : byte) (parts : list bytes) (policy : AppraisalPolicy) (clock : option Z) :
    result AttestError Evidence :=
  if decide (tag = TAG_SEVSNP) then
    match parts with
    | [report; vcek] => snp_verify report vcek (ap_min_tcb_sevsnp policy)
    | _ => Err Malformed
    end
  else if decide (tag = TAG_TDX) then
    match parts with
    | [quote; collateral] =>
        _ ← ensure (bool_decide (ap_tee policy = Tdx)) (TeeMismatch (ap_tee policy) Tdx);
        _ ← ensure (bool_decide (ap_min_tcb_sevsnp policy = None)) PolicyViolation;
        _ ← ensure (negb (allow_tcb_out_of_date policy)) PolicyViolation;
        tdx_policy ← ok_or (ap_tdx_policy policy) PolicyViolation;
        tdx_verify quote collateral (now_unix clock) tdx_policy
    | _ => Err Malformed
    end
  else Err (UnsupportedTee tag).

Definition transparency_gate (policy : AppraisalPolicy) (measurement : bytes) (stapled : option bytes) :
    result AttestError unit :=
  match ap_transparency_log_key policy with
  | None => Ok tt
  | Some log_key =>
      proof_bytes ← ok_or stapled TransparencyNotLogged;
      proof ← ok_or (lp_decode proof_bytes) TransparencyNotLogged;
      ensure (verify_logged measurement proof log_key) TransparencyNotLogged
  end.

Definition appraise (evidence tls_spki : bytes) (policy : AppraisalPolicy) (nonce : bytes) (clock : option Z) :
    result AttestError Verdict :=
  _ ← match ap_tls_spki_sha256 policy with
      | Some expected => ensure (bool_decide (sha256 tls_spki = expected)) TlsSpkiMismatch
      | None => Ok tt
      end;
  '(tag, rest) ← match evidence with [] => Err Malformed | tag :: rest => Ok (tag, rest) end;
  parts ← decode_parts rest;
  _ ← ensure (bool_decide (tag ∈ [TAG_SEVSNP; TAG_TDX])) (UnsupportedTee tag);
  '(base_parts, stapled) ← split_stapled 2 parts;
  report ← verify_report tag base_parts policy clock;
  _ ← ensure (bool_decide (ev_tee report = ap_tee policy)) (TeeMismatch (ap_tee policy) (ev_tee report));
  _ ← ensure (negb (bool_decide (ev_tee report = SevSnp) && bool_decide (is_Some (ap_tdx_policy policy))))
        PolicyViolation;
  _ ← ensure (bool_decide (ev_report_data report = bind_report_data tls_spki nonce)) ReportDataMismatch;
  _ ← ensure (bool_decide (ev_measurement report = expected_measurement policy)) MeasurementMismatch;
  _ ← ensure (match ev_tcb_status report with UpToDate => true | OutOfDate => allow_tcb_out_of_date policy end)
        TcbNotUpToDate;
  _ ← transparency_gate policy (ev_measurement report) stapled;
  Ok {| vd_tee := ev_tee report; vd_measurement := ev_measurement report; vd_tcb_status := ev_tcb_status report |}.

End Reports.

(** ** Evidence has one encoding *)

Definition frame (p : bytes) : bytes := be_bytes 4 (Z.of_nat (length p)) ++ p.

Lemma be_bytes4_value l : length l = 4%nat → be_bytes 4 (be_value l) = l ∧ 0 ≤ be_value l ≤ U32_MAX.
Proof.
  intros Hl. rewrite be_bytes_be_value_len by done. split; [done|].
  pose proof (be_value_range l) as Hr. rewrite Hl in Hr. unfold U32_MAX. cbn in Hr. lia.
Qed.

Lemma decode_loop_ok fuel b parts :
  (length b ≤ fuel)%nat →
  decode_loop fuel b = Ok parts ↔ Forall (λ p, Z.of_nat (length p) ≤ U32_MAX) parts ∧ b = parts ≫= frame.
Proof.
  revert b parts. induction fuel as [|fuel IH]; intros b parts Hf.
  - destruct b; [|cbn in Hf; lia]. cbn. split; [by intros [= <-]|]. intros [_ Hb]. destruct parts; [done|].
    apply (f_equal length) in Hb. cbn in Hb. lia.
  - destruct b as [|x b]; cbn [decode_loop].
    { split; [by intros [= <-]|]. intros [_ Hb]. destruct parts; [done|]. apply (f_equal length) in Hb. cbn in Hb. lia. }
    remember (x :: b) as rest eqn:Hx. assert (Hpos : (0 < length rest)%nat) by (subst; cbn; lia). clear Hx x b.
    split.
    + intros Hd. inv_ok Hd. reflect_bools.
      destruct (be_bytes4_value (take 4 rest)) as [Hb4 Hr]; [rewrite length_take; lia|].
      injection Hd as <-. rename select (decode_loop _ _ = Ok _) into Hd.
      apply IH in Hd as [HF Hb]; [|rewrite !length_drop; lia].
      rewrite length_drop in *. assert (Hlen : length (take (Z.to_nat (be_value (take 4 rest))) (drop 4 rest)) =
        Z.to_nat (be_value (take 4 rest))) by (rewrite length_take, length_drop; lia).
      split; [apply Forall_cons; split; [rewrite Hlen; lia|done]|]. cbn [mbind list_bind]. unfold frame at 1.
      rewrite Hlen, Z2Nat.id, Hb4 by lia. rewrite <- Hb, <- app_assoc, take_drop. by rewrite take_drop.
    + intros [HF Hb]. destruct parts as [|p parts]; [subst rest; cbn in Hpos; lia|]. apply Forall_cons in HF as [Hp HF].
      cbn [mbind list_bind] in Hb. unfold frame at 1 in Hb. rewrite <- app_assoc in Hb.
      assert (H4 : length (be_bytes 4 (Z.of_nat (length p))) = 4%nat) by apply length_be_bytes.
      assert (Hv : be_value (take 4 rest) = Z.of_nat (length p)).
      { rewrite Hb, <- H4, take_app_length. apply be_value_be_bytes_small. unfold U32_MAX in Hp. cbn. lia. }
      assert (Hd : drop 4 rest = p ++ (parts ≫= frame)) by (rewrite Hb; by rewrite drop_app_length').
      destruct (Nat.ltb_spec (length rest) 4) as [Hlt|_]; [rewrite Hb, length_app in Hlt; lia|].
      cbn [negb]. rewrite ensure_true, Ok_bind, Hv, Hd, Nat2Z.id.
      destruct (Nat.ltb_spec (length (p ++ (parts ≫= frame))) (length p)) as [Hlt|_];
        [rewrite length_app in Hlt; lia|].
      cbn [negb]. rewrite ensure_true, Ok_bind, drop_app_length, take_app_length.
      apply (f_equal length) in Hd. rewrite length_drop, length_app in Hd.
      assert (Hfuel : (length (parts ≫= frame) ≤ fuel)%nat) by lia. by rewrite (proj2 (IH _ parts Hfuel)).
Qed.

(** Evidence has one encoding: its parts are read back exactly, and only from the bytes that
    encode them, as long as each fits its 32-bit length. *)
Theorem evidence_codec_exact b parts :
  decode_parts b = Ok parts ↔ Forall (λ p, Z.of_nat (length p) ≤ U32_MAX) parts ∧ ∀ tag, tag :: b = encode tag parts.
Proof.
  unfold decode_parts. rewrite decode_loop_ok by done. unfold encode. fold frame. split.
  - intros [HF ->]. by split.
  - intros [HF Hb]. split; [done|]. by injection (Hb x00).
Qed.

(** ** What each family accepts *)

Section Accepted.
Context `{Hsha : Sha256, H384 : Sha384, H512 : Sha512, Hb64 : Base64, Hed : Ed25519, Hsev : SevCrate, Hdcap : DcapCrate}.

Lemma require_exact_ok a b u : require_exact a b = Ok u ↔ a = b.
Proof.
  unfold require_exact. rewrite ensure_Ok, andb_true_iff, !bool_decide_eq_true. split; [tauto|]. by intros ->.
Qed.

(** The registers and attributes of a production workload. *)
Record workload_ok (p : Core.TdxPolicy) : Prop := {
  wo_debug : debug_bit (Core.td_attributes p) = false;
  wo_0 : all_zero (Core.rt_mr0 p) = false;
  wo_1 : all_zero (Core.rt_mr1 p) = false;
  wo_2 : all_zero (Core.rt_mr2 p) = false;
  wo_3 : all_zero (Core.rt_mr3 p) = false;
}.

Lemma tdx_appraise_ok r p m :
  tdx_appraise_report r p = Ok m ↔
  ∃ base service_td, report_body r = Some (base, service_td) ∧ p = observed_policy base service_td ∧
    workload_ok p ∧ m = sha384 (tdx_identity base service_td).
Proof.
  unfold tdx_appraise_report. destruct (report_body r) as [[base sv]|]; [|split; [done|by intros (? & ? & ? & _)]].
  split.
  - intros Hok. inv_ok Hok. injection Hok as <-. reflect_bools.
    repeat match goal with K : require_exact _ _ = Ok _ |- _ => apply require_exact_ok in K end.
    exists base, sv. destruct p. cbn in *. subst.
    assert (sv = mr_service_td) as ->.
    { destruct sv, mr_service_td; try done. f_equal.
      match goal with K : require_exact _ _ = Ok _ |- _ => by apply require_exact_ok in K end. }
    split_and!; [done|done| |done]. by constructor.
  - intros (? & ? & [= <- <-] & -> & [Hd H0 H1 H2 H3] & ->).
    cbn [observed_policy Core.td_attributes Core.xfam Core.mr_config_id Core.mr_owner Core.mr_owner_config
      Core.rt_mr0 Core.rt_mr1 Core.rt_mr2 Core.rt_mr3 Core.mr_service_td] in *.
    rewrite Hd, H0, H1, H2, H3. cbn [negb orb]. unfold require_exact.
    rewrite !bool_decide_true by done. cbn [andb]. ok_step. destruct sv; [rewrite !bool_decide_true by done|]; done.
Qed.

Lemma first_chain_Some gens vek r ark ask :
  first_chain gens vek r = Some (ark, ask) →
  ∃ g, g ∈ gens ∧ builtin_ark g = Some ark ∧ builtin_ask g = Some ask ∧ snp_chain_verify ark ask vek r = true.
Proof.
  induction gens as [|g gens IH]; [done|]. cbn.
  destruct (builtin_ark g) as [a|] eqn:Ea, (builtin_ask g) as [s|] eqn:Es; try (by intros (g' & ? & ?)%IH; exists g'; set_solver).
  destruct (snp_chain_verify a s vek r) eqn:Ev.
  - intros [= <- <-]. exists g. set_solver.
  - intros (g' & ? & ?)%IH. exists g'. set_solver.
Qed.

Lemma first_chain_is_Some gens vek r g ark ask :
  g ∈ gens → builtin_ark g = Some ark → builtin_ask g = Some ask → snp_chain_verify ark ask vek r = true →
  is_Some (first_chain gens vek r).
Proof.
  intros Hg Ha Hs Hv. induction gens as [|g' gens IH]; [by apply elem_of_nil in Hg|]. cbn.
  apply elem_of_cons in Hg as [<-|Hg]; [by rewrite Ha, Hs, Hv|].
  specialize (IH Hg). destruct (builtin_ark g'), (builtin_ask g'); try done. case_match; [done|]. done.
Qed.

(** The report is signed by a chip whose key chains to a built-in AMD root. *)
Definition amd_signed (vek : SnpCert) (r : SnpReport) : Prop :=
  ∃ g ark ask, builtin_ark g = Some ark ∧ builtin_ask g = Some ask ∧ snp_chain_verify ark ask vek r = true.

Lemma snp_verify_ok report vcek floor ev :
  snp_verify report vcek floor = Ok ev ↔
  ∃ r vek, snp_from_bytes report = Some r ∧ snp_cert_from_der vcek = Some vek ∧ amd_signed vek r ∧
    debug_allowed r = false ∧ migrate_ma_allowed r = false ∧
    ev = {| ev_tee := SevSnp; ev_measurement := snp_measurement r; ev_report_data := snp_report_data r;
            ev_tcb_status := snp_status r floor |}.
Proof.
  unfold snp_verify, verifying_chain, snp_appraise_report. split.
  - intros Hok. inv_ok Hok. injection Hok as <-. reflect_bools.
    rename select (first_chain _ _ _ = Some _) into Hc. destruct x1 as [ark ask].
    apply first_chain_Some in Hc as (g & _ & Ha & Hs & Hv). eexists _, _. split_and!; try done. by exists g, ark, ask.
  - intros (r & vek & -> & -> & (g & ark & ask & Ha & Hs & Hv) & Hd & Hm & ->). ok_step.
    destruct (first_chain_is_Some [Milan; Genoa; Turin] vek r g ark ask) as [[a s] Hc]; try done.
    { destruct g; set_solver. }
    rewrite Hc. apply first_chain_Some in Hc as (? & _ & _ & _ & Hv'). ok_step. cbn [fst snd]. rewrite Hv', Hd, Hm.
    done.
Qed.

Lemma tdx_verify_ok quote collateral now p ev :
  tdx_verify quote collateral now p = Ok ev ↔
  prevalidate_quote quote = Ok tt ∧
  ∃ c vr base service_td, collateral_from_slice collateral = Some c ∧
    dcap_verify quote c now (bool_decide (is_Some service_td)) = Some vr ∧
    report_body (vr_report vr) = Some (base, service_td) ∧ p = observed_policy base service_td ∧ workload_ok p ∧
    ev = {| ev_tee := Tdx; ev_measurement := sha384 (tdx_identity base service_td);
            ev_report_data := b_report_data base;
            ev_tcb_status := strict_tcb_status (vr_status vr) (vr_advisory_ids vr) |}.
Proof.
  unfold tdx_verify. split.
  - intros Hok. inv_ok Hok. injection Hok as <-.
    rename select (prevalidate_quote _ = _) into Hp. destruct x. split; [done|].
    rename select (tdx_appraise_report _ _ = _) into Ha. apply tdx_appraise_ok in Ha as (base & sv & Hb & -> & Hw & ->).
    rename select (report_body _ = Some x3) into Hb'. rewrite Hb in Hb'. injection Hb' as <-.
    by eexists _, _, base, sv.
  - intros [-> (c & vr & base & sv & -> & Hv & Hb & -> & Hw & ->)]. ok_step. cbn [Core.mr_service_td observed_policy].
    rewrite Hv. ok_step. rewrite (proj2 (tdx_appraise_ok _ _ (sha384 (tdx_identity base sv)))) by (by exists base, sv).
    ok_step. by rewrite Hb.
Qed.

(** ** The appraisal as a specification *)

(** A report of the family the policy names: genuine, of a workload the policy admits, with
    the given measurement and user data, and up to date unless the policy waives it. *)
Definition attests (policy : AppraisalPolicy) (clock : option Z) (part1 part2 measurement report_data : bytes)
    (status : TcbStatus) : Prop :=
  match ap_tee policy with
  | SevSnp =>
      ap_tdx_policy policy = None ∧
      ∃ r vek, snp_from_bytes part1 = Some r ∧ snp_cert_from_der part2 = Some vek ∧ amd_signed vek r ∧
        debug_allowed r = false ∧ migrate_ma_allowed r = false ∧
        measurement = snp_measurement r ∧ report_data = snp_report_data r ∧
        status = snp_status r (ap_min_tcb_sevsnp policy)
  | Tdx =>
      ap_min_tcb_sevsnp policy = None ∧ allow_tcb_out_of_date policy = false ∧ prevalidate_quote part1 = Ok tt ∧
      ∃ c vr base service_td, collateral_from_slice part2 = Some c ∧
        dcap_verify part1 c (now_unix clock) (bool_decide (is_Some service_td)) = Some vr ∧
        report_body (vr_report vr) = Some (base, service_td) ∧
        ap_tdx_policy policy = Some (observed_policy base service_td) ∧ workload_ok (observed_policy base service_td) ∧
        measurement = sha384 (tdx_identity base service_td) ∧ report_data = b_report_data base ∧
        status = strict_tcb_status (vr_status vr) (vr_advisory_ids vr)
  end.

Definition tag_of (t : Tee) : byte := match t with SevSnp => TAG_SEVSNP | Tdx => TAG_TDX end.

(** The pinned log shows the measurement. *)
Definition shown_in_log (policy : AppraisalPolicy) (measurement : bytes) (stapled : list bytes) : Prop :=
  match ap_transparency_log_key policy with
  | None => (length stapled ≤ 1)%nat
  | Some key => ∃ p, stapled = [lp_encode p] ∧ lp_wf p ∧ verify_logged measurement p key = true
  end.

Record acceptable (evidence tls_spki : bytes) (policy : AppraisalPolicy) (nonce : bytes) (clock : option Z)
    (status : TcbStatus) : Prop := Acceptable {
  ac_spki : ∀ pin, ap_tls_spki_sha256 policy = Some pin → sha256 tls_spki = pin;
  ac_report : ∃ part1 part2 stapled,
    Forall (λ p, Z.of_nat (length p) ≤ U32_MAX) (part1 :: part2 :: stapled) ∧
    evidence = encode (tag_of (ap_tee policy)) (part1 :: part2 :: stapled) ∧
    attests policy clock part1 part2 (expected_measurement policy) (sha512 (sha256 tls_spki ++ nonce)) status ∧
    shown_in_log policy (expected_measurement policy) stapled;
  ac_status : status = UpToDate ∨ allow_tcb_out_of_date policy = true;
}.

End Accepted.

Section Gate.
Context `{Hsha : Sha256, H384 : Sha384, H512 : Sha512, Hb64 : Base64, Hed : Ed25519, Hsev : SevCrate, Hdcap : DcapCrate}.

Lemma split_stapled_ok parts base_parts stapled :
  split_stapled 2 parts = Ok (base_parts, stapled) ↔
  ∃ a b, base_parts = [a; b] ∧ parts = a :: b :: option_list stapled.
Proof.
  unfold split_stapled. split.
  - destruct parts as [|a [|b [|c [|d parts]]]]; cbn; try done; intros [= <- <-]; by exists a, b.
  - intros (a & b & -> & ->). by destruct stapled.
Qed.

Lemma transparency_gate_ok policy m stapled u :
  transparency_gate policy m stapled = Ok u ↔ shown_in_log policy m (option_list stapled).
Proof.
  unfold transparency_gate, shown_in_log. destruct (ap_transparency_log_key policy) as [key|].
  - split.
    + intros Hok. inv_ok Hok. subst stapled. rename select (lp_decode _ = _) into Hd.
      apply log_proof_codec_exact in Hd as [Hwf ->]. by exists x0.
    + intros (p & Hs & Hwf & Hv). destruct stapled as [s|]; [|done]. injection Hs as ->.
      rewrite ok_or_Some, Ok_bind, (proj2 (log_proof_codec_exact _ p)) by done. ok_step. rewrite Hv. by destruct u.
  - split; [intros _; destruct stapled; cbn; lia|]. by destruct u.
Qed.

#[local] Opaque tdx_verify snp_verify.

Lemma verify_report_ok policy clock tag a b ev :
  verify_report tag [a; b] policy clock = Ok ev → ev_tee ev = ap_tee policy →
  ¬ (ev_tee ev = SevSnp ∧ is_Some (ap_tdx_policy policy)) →
  tag = tag_of (ap_tee policy) ∧ attests policy clock a b (ev_measurement ev) (ev_report_data ev) (ev_tcb_status ev).
Proof.
  unfold verify_report, attests. destruct (decide (tag = TAG_SEVSNP)) as [->|].
  - intros (r & vek & Hr & Hk & Hs & Hd & Hm & ->)%snp_verify_ok. cbn. intros <- Hn.
    split; [done|]. split; [destruct (ap_tdx_policy policy); naive_solver|]. by exists r, vek.
  - destruct (decide (tag = TAG_TDX)) as [->|]; [|done]. intros Hok. inv_ok Hok. reflect_bools.
    rename select (ap_tdx_policy policy = Some _) into Hp. intros Ht Hn.
    repeat match goal with K : bool_decide _ = true |- _ => apply bool_decide_eq_true in K end.
    rename select (ap_tee policy = Tdx) into Htee. rewrite Htee.
    apply tdx_verify_ok in Hok as [Hq (c & vr & base & sv & Hc & Hv & Hb & -> & Hw & ->)].
    split; [done|]. split_and!; try done. by exists c, vr, base, sv.
Qed.

Lemma verify_report_accepts policy clock a b m rd status :
  attests policy clock a b m rd status →
  verify_report (tag_of (ap_tee policy)) [a; b] policy clock =
    Ok {| ev_tee := ap_tee policy; ev_measurement := m; ev_report_data := rd; ev_tcb_status := status |} ∧
  (ap_tee policy = SevSnp → ap_tdx_policy policy = None).
Proof.
  unfold attests, verify_report. destruct (ap_tee policy) eqn:Ht; cbn [tag_of].
  - intros [Hp (r & vek & Hr & Hk & Hs & Hd & Hm & -> & -> & ->)]. rewrite decide_True by done. split; [|done].
    apply snp_verify_ok. by exists r, vek.
  - intros (Hf & Ha & Hq & c & vr & base & sv & Hc & Hv & Hb & Hp & Hw & -> & -> & ->). split; [|done].
    rewrite decide_False, decide_True by done. rewrite bool_decide_true by done. rewrite Ha, Hp.
    rewrite bool_decide_true by done. cbn [negb]. ok_step.
    apply tdx_verify_ok. split; [done|]. by exists c, vr, base, sv.
Qed.

Lemma shown_in_log_option policy m stapled :
  shown_in_log policy m stapled → ∃ o, stapled = option_list o.
Proof.
  unfold shown_in_log. destruct (ap_transparency_log_key policy).
  - intros (p & -> & _). by exists (Some (lp_encode p)).
  - destruct stapled as [|s [|]]; cbn; [by exists None|by exists (Some s)|lia].
Qed.

#[local] Opaque verify_report decode_parts split_stapled transparency_gate.

Lemma appraise_spec evidence tls_spki policy nonce clock v :
  appraise evidence tls_spki policy nonce clock = Ok v ↔
  acceptable evidence tls_spki policy nonce clock (vd_tcb_status v) ∧
  v = {| vd_tee := ap_tee policy; vd_measurement := expected_measurement policy; vd_tcb_status := vd_tcb_status v |}.
Proof.
  unfold appraise. split.
  - intros Hok. apply bind_Ok in Hok as (u0 & Hspki & Hok).
    destruct evidence as [|tag rest]; [done|]. rewrite Ok_bind in Hok.
    apply bind_Ok in Hok as (parts & Hparts & Hok). apply bind_Ok in Hok as (u1 & _ & Hok).
    apply bind_Ok in Hok as ([bp stapled] & Hsplit & Hok). apply bind_Ok in Hok as (rep & Hrep & Hok).
    inv_ok Hok. injection Hok as <-. reflect_bools. cbn [vd_tcb_status].
    repeat match goal with K : bool_decide _ = true |- _ => apply bool_decide_eq_true in K end.
    apply split_stapled_ok in Hsplit as (a & b & -> & ->). apply evidence_codec_exact in Hparts as [HF Henc].
    rename select (ev_tee rep = _) into Htee. rename select (ev_report_data rep = _) into Hrd.
    rename select (ev_measurement rep = _) into Hmeas.
    rename select (transparency_gate _ _ _ = _) into Hlog. apply transparency_gate_ok in Hlog.
    apply verify_report_ok in Hrep as [-> Hatt]; [|done|].
    2:{ rewrite <- (bool_decide_eq_true (ev_tee rep = SevSnp)), <- (bool_decide_eq_true (is_Some _)).
        rename select (_ && _ = false) into Hn. intros [E1 E2]. by rewrite E1, E2 in Hn. }
    rewrite Hmeas, Hrd in Hatt. rewrite Hmeas in Hlog. split; [|by rewrite Htee, Hmeas].
    constructor.
    + intros pin Hpin. rewrite Hpin in Hspki. by apply ensure_Ok, bool_decide_eq_true in Hspki.
    + exists a, b, (option_list stapled). by rewrite Henc.
    + destruct (ev_tcb_status rep); [by left|by right].
  - intros [[Hspki (a & b & stapled & HF & -> & Hatt & Hlog) Hst] ->]. cbn [vd_tcb_status] in *.
    assert (Hpin : (match ap_tls_spki_sha256 policy with
      | Some expected => ensure (bool_decide (sha256 tls_spki = expected)) TlsSpkiMismatch | None => Ok tt end) = Ok tt).
    { destruct (ap_tls_spki_sha256 policy) as [pin|]; [|done]. by rewrite bool_decide_true by auto. }
    rewrite Hpin, Ok_bind. unfold encode at 1. rewrite Ok_bind.
    rewrite (proj2 (evidence_codec_exact _ (a :: b :: stapled))) by done. rewrite Ok_bind.
    rewrite (bool_decide_true (tag_of (ap_tee policy) ∈ _)) by (rewrite !elem_of_cons; destruct (ap_tee policy); auto).
    ok_step.
    destruct (shown_in_log_option _ _ _ Hlog) as [o ->].
    rewrite (proj2 (split_stapled_ok _ [a; b] o)) by (by exists a, b). rewrite Ok_bind.
    destruct (verify_report_accepts _ _ _ _ _ _ _ Hatt) as [-> Hnone].
    rewrite Ok_bind. cbn [ev_tee ev_measurement ev_report_data ev_tcb_status].
    rewrite bool_decide_true by done. ok_step.
    assert (bool_decide (ap_tee policy = SevSnp) && bool_decide (is_Some (ap_tdx_policy policy)) = false) as ->.
    { destruct (decide (ap_tee policy = SevSnp)) as [E|E]; [|by rewrite bool_decide_false].
      rewrite Hnone by done. apply andb_false_r. }
    cbn [negb]. unfold bind_report_data. rewrite !bool_decide_true by done. ok_step.
    assert ((match vd_tcb_status v with UpToDate => true | OutOfDate => allow_tcb_out_of_date policy end) = true) as ->.
    { destruct Hst as [->|]; [done|]. by destruct (vd_tcb_status v). }
    ok_step. by rewrite (proj2 (transparency_gate_ok _ _ _ tt)).
Qed.

(** C7.  The gate of the client, exactly: a node is accepted when its live key is the pinned one
    and its evidence is the canonical encoding of a genuine report of the policy's family - signed
    down from a built-in AMD root, or verified by DCAP - of a production workload, whose
    measurement is the pinned one, whose user data binds this key and this connection's nonce,
    which is up to date unless that is waived, and which the pinned log shows; and in no other
    case.  A TDX policy that carries an SEV-SNP patch floor accepts nothing. *)
Theorem appraise_exact evidence tls_spki policy nonce clock v :
  appraise evidence tls_spki policy nonce clock = Ok v ↔
  acceptable evidence tls_spki policy nonce clock (vd_tcb_status v) ∧
  v = {| vd_tee := ap_tee policy; vd_measurement := expected_measurement policy; vd_tcb_status := vd_tcb_status v |}.
Proof. apply appraise_spec. Qed.

(** ** What an acceptance is good for *)

Lemma same_parts tag parts tag' parts' :
  Forall (λ p, Z.of_nat (length p) ≤ U32_MAX) parts → Forall (λ p, Z.of_nat (length p) ≤ U32_MAX) parts' →
  encode tag parts = encode tag' parts' → tag = tag' ∧ parts = parts'.
Proof.
  intros H1 H2 E. split; [unfold encode in E; congruence|]. apply (f_equal (drop 1)) in E.
  change ((parts ≫= frame) = (parts' ≫= frame)) in E.
  assert (E1 : decode_parts (parts ≫= frame) = Ok parts) by (by apply evidence_codec_exact).
  assert (E2 : decode_parts (parts' ≫= frame) = Ok parts') by (by apply evidence_codec_exact).
  rewrite E, E2 in E1. congruence.
Qed.

Context `{HshaL : !Sha256Laws, HdcapL : !DcapLaws}.

Lemma attests_report_data policy policy' clock clock' a b m rd st m' rd' st' :
  attests policy clock a b m rd st → attests policy' clock' a b m' rd' st' → ap_tee policy = ap_tee policy' → rd = rd'.
Proof.
  unfold attests. intros H1 H2 Heq. rewrite <- Heq in H2. destruct (ap_tee policy).
  - destruct H1 as [_ (r & vek & Hr & _ & _ & _ & _ & _ & -> & _)].
    destruct H2 as [_ (r' & vek' & Hr' & _ & _ & _ & _ & _ & -> & _)]. congruence.
  - destruct H1 as (_ & _ & _ & c & vr & base & sv & _ & Hv & Hb & _ & _ & _ & -> & _).
    destruct H2 as (_ & _ & _ & c' & vr' & base' & sv' & _ & Hv' & Hb' & _ & _ & _ & -> & _).
    rewrite (dcap_report _ _ _ _ _ _ _ _ _ Hv Hv') in Hb. congruence.
Qed.

(** C30.  Evidence serves one connection: evidence that is accepted for two TLS keys and nonces is
    accepted for the same key and the same nonce - so a report cannot be replayed on a later
    connection or relayed to another node's channel - or else the two keys themselves collide
    under SHA-256, or the two texts the report data are the hash of collide under SHA-512. *)
Theorem evidence_not_transferable evidence spki policy nonce clock v spki' policy' nonce' clock' v' :
  appraise evidence spki policy nonce clock = Ok v → appraise evidence spki' policy' nonce' clock' = Ok v' →
  (spki = spki' ∧ nonce = nonce') ∨
  (spki ≠ spki' ∧ sha256 spki = sha256 spki') ∨
  (sha256 spki ++ nonce ≠ sha256 spki' ++ nonce' ∧ sha512 (sha256 spki ++ nonce) = sha512 (sha256 spki' ++ nonce')).
Proof.
  intros [[_ (a & b & st & HF & He & Ha & _) _] _]%appraise_spec [[_ (a' & b' & st' & HF' & He' & Ha' & _) _] _]%appraise_spec.
  rewrite He in He'. apply same_parts in He' as [Htag [= <- <- <-]]; [|done..].
  assert (Htee : ap_tee policy = ap_tee policy') by (by destruct (ap_tee policy), (ap_tee policy')).
  pose proof (attests_report_data _ _ _ _ _ _ _ _ _ _ _ _ Ha Ha' Htee) as Hrd.
  destruct (decide (sha256 spki ++ nonce = sha256 spki' ++ nonce')) as [E|]; [|by right; right].
  apply app_inj_1 in E as [Es ->]; [|by rewrite !sha256_length].
  destruct (decide (spki = spki')) as [->|]; [by left|by right; left].
Qed.

(** The identity digest covers the whole policy. *)
Lemma tdx_identity_inj b s b' s' :
  td_widths b → td_widths b' → (∀ v, s = Some v → length v = 48%nat) → (∀ v, s' = Some v → length v = 48%nat) →
  tdx_identity b s = tdx_identity b' s' → mr_td b = mr_td b' ∧ observed_policy b s = observed_policy b' s'.
Proof.
  intros [] [] Hs Hs' E. unfold tdx_identity in E. apply app_inv_head in E.
  do 10 (apply app_inj_1 in E as [? E]; [|lia]).
  split; [done|]. unfold observed_policy. f_equal; try done. destruct s, s'; cbn in E; congruence.
Qed.

Lemma report_body_widths r base s :
  report_widths r → report_body r = Some (base, s) → td_widths base ∧ ∀ v, s = Some v → length v = 48%nat.
Proof.
  destruct r; cbn; try done.
  - by intros ? [= <- <-].
  - intros [? ?] [= <- <-]. split; [done|]. by intros ? [= <-].
Qed.

(** A pinned TDX measurement pins the workload: two nodes accepted under the same measurement
    were appraised under the same policy, so whoever supplies the policy cannot widen it without
    changing the measurement the client pinned - or SHA-384 has a collision. *)
Theorem measurement_pins_policy ev spki policy nonce clock v ev' spki' policy' nonce' clock' v' :
  ap_tee policy = Tdx → ap_tee policy' = Tdx → expected_measurement policy = expected_measurement policy' →
  appraise ev spki policy nonce clock = Ok v → appraise ev' spki' policy' nonce' clock' = Ok v' →
  ap_tdx_policy policy = ap_tdx_policy policy' ∨ sha384_collision.
Proof.
  intros Ht Ht' Hm [[_ (a & b & st & _ & _ & Ha & _) _] _]%appraise_spec
    [[_ (a' & b' & st' & _ & _ & Ha' & _) _] _]%appraise_spec.
  unfold attests in Ha, Ha'. rewrite Ht in Ha. rewrite Ht' in Ha'.
  destruct Ha as (_ & _ & _ & c & vr & base & sv & _ & Hv & Hb & -> & _ & Hid & _).
  destruct Ha' as (_ & _ & _ & c' & vr' & base' & sv' & _ & Hv' & Hb' & -> & _ & Hid' & _).
  rewrite Hm, Hid' in Hid.
  destruct (decide (tdx_identity base' sv' = tdx_identity base sv)) as [E|]; [left|right; by eexists _, _].
  destruct (report_body_widths _ _ _ (dcap_widths _ _ _ _ _ Hv) Hb).
  destruct (report_body_widths _ _ _ (dcap_widths _ _ _ _ _ Hv') Hb').
  f_equal. symmetry. by eapply tdx_identity_inj.
Qed.

Context `{Hb64L : !Base64Laws}.

(** A pinned log makes measurements public: the measurement of an accepted node is an entry of
    the log whose checkpoint the pinned key signed - or SHA-256 has a collision. *)
Theorem accepted_measurement_is_logged evidence spki policy nonce clock v key :
  appraise evidence spki policy nonce clock = Ok v → ap_transparency_log_key policy = Some key →
  ∃ vk sig body, vk_from_bytes key = Some vk ∧ vk_verify vk body sig = true ∧
    ∀ origin D, Z.of_nat (length D) ≤ 2 ^ 63 → body = checkpoint_body origin (Z.of_nat (length D)) (mth D) →
      vd_measurement v ∈ D ∨ sha256_collision.
Proof.
  intros [[_ (a & b & st & _ & _ & _ & Hlog) _] Hv]%appraise_spec Hk. unfold shown_in_log in Hlog.
  rewrite Hk in Hlog. destruct Hlog as (p & _ & Hwf & Hver). rewrite Hv. cbn.
  destruct (verify_logged_signed _ _ _ Hwf Hver) as (vk & sig & body & H1 & _ & H2 & H3).
  exists vk, sig, body. split_and!; [done..|]. intros origin D Hbig Hbody.
  destruct (H3 _ _ Hbig Hbody) as [Hin|]; [left|by right]. by eapply list_elem_of_lookup_2.
Qed.

End Gate.

(** ** Witnesses *)

Module ToyAttest.
Import Toy ToyLog.

#[export] Instance toy_sha384 : Sha384 := λ m, digest m ++ take 16 (digest (x01 :: m)).
#[export] Instance toy_sha512 : Sha512 := λ m, digest m ++ digest (x01 :: m).

Definition tcb0 : TcbVersion := {| tv_fmc := None; tv_bootloader := 3; tv_tee := 0; tv_snp := 8; tv_microcode := 115 |}.

(** A report is a measurement and user data; only the chip certificate [[x05]] signs. *)
#[export] Instance toy_sev : SevCrate := {|
  SnpReport := bytes; SnpCert := bytes;
  snp_from_bytes := λ b, if (length b =? 112)%nat then Some b else None;
  snp_cert_from_der := λ d, Some d;
  builtin_ark := λ g, Some (match g with Milan => [x01] | Genoa => [x02] | Turin => [x03] end);
  builtin_ask := λ _, Some [x04];
  snp_chain_verify := λ ark _ vek _, bool_decide (ark = [x02]) && bool_decide (vek = [x05]);
  debug_allowed := λ _, false; migrate_ma_allowed := λ _, false;
  current_tcb := λ _, tcb0; committed_tcb := λ _, tcb0;
  snp_measurement := take 48; snp_report_data := drop 48;
  tcb_lt := λ _ _, false;
|}.

Definition field (off len : nat) (q : bytes) : bytes := fit len (drop off q).

Definition td_of_quote (q : bytes) : TdBody := {|
  mr_td := field 48 48 q; b_td_attributes := field 96 8 q; b_xfam := field 104 8 q;
  b_mr_config_id := field 112 48 q; b_mr_owner := field 160 48 q; b_mr_owner_config := field 208 48 q;
  b_rt_mr0 := field 256 48 q; b_rt_mr1 := field 304 48 q; b_rt_mr2 := field 352 48 q;
  b_rt_mr3 := field 400 48 q; b_report_data := field 448 64 q |}.

#[export] Instance toy_dcap : DcapCrate := {|
  Collateral := unit;
  collateral_from_slice := λ _, Some tt;
  dcap_verify := λ q _ now _, if now <? 2000000000
    then Some {| vr_report := TD10 (td_of_quote q); vr_status := str "UpToDate"; vr_advisory_ids := [] |} else None;
|}.

#[export] Instance toy_dcap_laws : DcapLaws.
Proof.
  split; cbn.
  - intros q c t s v. case_match; [|done]. intros [= <-]. cbn. constructor; cbn; apply length_fit.
  - intros q c t s v c' t' s' v'. repeat case_match; try done. by intros [= <-] [= <-].
Qed.

Definition w_spki : bytes := str "node key".
Definition w_nonce : bytes := replicate 32 x0e.

(** A TDX node whose measurement is entry 5 of a log. *)
Definition quote_head : bytes :=
  [x04; x00; x02; x00; x81; x00; x00; x00] ++ replicate 40 x00 ++ replicate 48 x21 ++
  replicate 8 x10 ++ replicate 8 x03 ++ replicate 144 x00 ++ replicate 192 x31.
Definition w_quote : bytes := quote_head ++ bind_report_data w_spki w_nonce ++ replicate 200 x00.
Definition w_body : TdBody := td_of_quote w_quote.
Definition w_measurement : bytes := sha384 (tdx_identity w_body None).
Definition w_log : list bytes := take 5 entries ++ [w_measurement].

Definition w_policy : AppraisalPolicy := {|
  ap_tee := Tdx; expected_measurement := w_measurement; ap_tls_spki_sha256 := Some (sha256 w_spki);
  allow_tcb_out_of_date := false; ap_min_tcb_sevsnp := None; ap_tdx_policy := Some (observed_policy w_body None);
  ap_transparency_log_key := Some (vk_to_bytes (verifying_key log_sk)) |}.

Definition w_evidence : bytes :=
  encode TAG_TDX [w_quote; str "{}"; lp_encode (honest_proof log_sk (str "log.nil.example") w_log 5)].

Definition w_verdict : Verdict := {| vd_tee := Tdx; vd_measurement := w_measurement; vd_tcb_status := UpToDate |}.

Lemma w_accepted : appraise w_evidence w_spki w_policy w_nonce (Some 1800000000) = Ok w_verdict.
Proof. by vm_compute. Qed.

(** A stale clock, another nonce and an SEV-SNP node. *)
Lemma w_refused :
  appraise w_evidence w_spki w_policy w_nonce None = Err ChainVerification ∧
  appraise w_evidence w_spki w_policy (replicate 32 x0f) (Some 1800000000) = Err ReportDataMismatch ∧
  appraise w_evidence (str "other key") w_policy w_nonce (Some 1800000000) = Err TlsSpkiMismatch.
Proof. by vm_compute. Qed.

Definition w_sev_policy : AppraisalPolicy := {|
  ap_tee := SevSnp; expected_measurement := replicate 48 x21; ap_tls_spki_sha256 := Some (sha256 w_spki);
  allow_tcb_out_of_date := false;
  ap_min_tcb_sevsnp := Some {| fl_fmc := None; fl_bootloader := 3; fl_tee := 0; fl_snp := 8; fl_microcode := 115 |};
  ap_tdx_policy := None; ap_transparency_log_key := None |}.

Lemma w_sev_accepted :
  is_ok (appraise (encode_sevsnp (replicate 48 x21 ++ bind_report_data w_spki w_nonce) [x05]) w_spki w_sev_policy
           w_nonce None) = true.
Proof. by vm_compute. Qed.

Lemma evidence_not_transferable_witness :
  (w_spki = w_spki ∧ w_nonce = w_nonce) ∨ (w_spki ≠ w_spki ∧ sha256 w_spki = sha256 w_spki) ∨
  (sha256 w_spki ++ w_nonce ≠ sha256 w_spki ++ w_nonce ∧ sha512 (sha256 w_spki ++ w_nonce) = sha512 (sha256 w_spki ++ w_nonce)).
Proof.
  apply (evidence_not_transferable w_evidence w_spki w_policy w_nonce (Some 1800000000) w_verdict
           w_spki w_policy w_nonce (Some 1800000000) w_verdict); apply w_accepted.
Defined.

Lemma measurement_pins_policy_witness :
  ap_tdx_policy w_policy = ap_tdx_policy w_policy ∨ sha384_collision.
Proof.
  apply (measurement_pins_policy w_evidence w_spki w_policy w_nonce (Some 1800000000) w_verdict
           w_evidence w_spki w_policy w_nonce (Some 1800000000) w_verdict); [reflexivity..|apply w_accepted|apply w_accepted].
Defined.

End ToyAttest.
