(* ===== verification/Codec.v ===== *)
(** * An executable codec for the witnesses

    The JSON library the services use is a parameter of the models.  This file builds, from the
    types up, one self-delimiting encoding with its round trip, which the witnesses of the
    other files put in its place. *)

From S2P Require Import Prelude.
From Stdlib Require Import Strings.Byte ZArith Lia.
From stdpp Require Import prelude gmap strings.

Module ToyCodec.

Class Codec (A : Type) := {
  put : A → bytes;
  get : bytes → option (A * bytes);
  get_put : ∀ a r, get (put a ++ r) = Some (a, r);
}.

#[export] Program Instance codec_byte : Codec byte :=
  {| put b := [b]; get s := match s with b :: r => Some (b, r) | [] => None end |}.
Next Obligation. done. Qed.

#[export] Program Instance codec_pair {A B} `{Codec A, Codec B} : Codec (A * B) :=
  {| put p := put p.1 ++ put p.2;
     get s := '(a, s) ← get s; '(b, s) ← get s; Some ((a, b), s) |}.
Next Obligation.
  intros A B HA HB [a b] r. cbn. rewrite <- app_assoc, get_put, Some_bind, get_put. done.
Qed.

#[export] Instance codec_option {A} `{Codec A} : Codec (option A).
Proof.
  refine {| put o := match o with Some a => x01 :: put a | None => [x00] end;
            get s := match s with
                     | x00 :: r => Some (None, r)
                     | x01 :: r => '(a, r) ← get r; Some (Some a, r)
                     | _ => None
                     end |}.
  intros [a|] r; cbn; [by rewrite get_put|done].
Defined.

Fixpoint get_list {A} `{Codec A} (fuel : nat) (s : bytes) : option (list A * bytes) :=
  match fuel with
  | 0%nat => None
  | S fuel =>
      match s with
      | x00 :: r => Some ([], r)
      | x01 :: r => '(a, r) ← get r; '(l, r) ← get_list fuel r; Some (a :: l, r)
      | _ => None
      end
  end.

Definition put_list {A} `{Codec A} (l : list A) : bytes := foldr (λ a s, x01 :: put a ++ s) [x00] l.

Lemma get_put_list {A} `{Codec A} (l : list A) fuel r :
  (length l < fuel)%nat → get_list fuel (put_list l ++ r) = Some (l, r).
Proof.
  revert fuel. induction l as [|a l IH]; intros [|fuel] Hf; cbn in *; [lia|done|lia|].
  rewrite <- app_assoc, get_put. cbn. change (foldr _ _ l) with (put_list l).
  by rewrite IH by lia.
Qed.

Lemma length_put_list {A} `{Codec A} (l : list A) : (length l < length (put_list l))%nat.
Proof. induction l as [|a l IH]; cbn; [lia|]. rewrite length_app. unfold put_list in IH. lia. Qed.

#[export] Program Instance codec_list {A} `{Codec A} : Codec (list A) :=
  {| put := put_list; get s := get_list (length s) s |}.
Next Obligation.
  intros A HA l r. cbn. apply get_put_list. rewrite length_app. pose proof (length_put_list l). lia.
Qed.

Fixpoint bits (p : positive) : list byte :=
  match p with xH => [] | xO p => x00 :: bits p | xI p => x01 :: bits p end.

Definition of_bits (l : list byte) : positive :=
  foldr (λ b p, if decide (b = x00) then xO p else xI p) xH l.

Lemma of_bits_bits p : of_bits (bits p) = p.
Proof. induction p as [p IH|p IH|]; cbn; [by f_equal|by f_equal|done]. Qed.

Definition codec_iso {A B} `{Codec B} (f : A → B) (g : B → A) (Hgf : ∀ a, g (f a) = a) : Codec A.
Proof.
  refine {| put a := put (f a); get s := '(b, r) ← get s; Some (g b, r) |}.
  intros a r. rewrite get_put. cbn. by rewrite Hgf.
Defined.

#[export] Instance codec_positive : Codec positive := codec_iso bits of_bits of_bits_bits.

Definition z_code (z : Z) : byte * option positive :=
  match z with Z0 => (x00, None) | Zpos p => (x01, Some p) | Zneg p => (x02, Some p) end.

Definition code_z (bp : byte * option positive) : Z :=
  match bp with (x01, Some p) => Zpos p | (_, Some p) => Zneg p | (_, None) => Z0 end.

Lemma code_z_code z : code_z (z_code z) = z.
Proof. by destruct z. Qed.

#[export] Instance codec_Z : Codec Z := codec_iso z_code code_z code_z_code.

#[export] Instance codec_gmap {A B} `{Countable A, Codec A, Codec B} : Codec (gmap A B) :=
  codec_iso map_to_list list_to_map list_to_map_to_list.

End ToyCodec.
