(* ===== verification/Ledger.v ===== *)
(** * Redemption records and their file format ([crates/nil-coordinator/src/nullifier.rs])

    A redeemed token leaves a permanent spent marker and, while its grants live, the sealed
    first response.  This file models the record, its sealing, the text line it is stored
    as, the bounded file reader and the recovery of a torn final line; [Nullifier.v] builds
    the stores on it. *)

From S2P Require Import Prelude.
From S2P Require Import Text.
From S2P Require Import Net.
From S2P Require Import Crypto.
From S2P Require Import Grant.
From S2P Require Import Token.
From Stdlib Require Import Strings.Byte ZArith Lia.
From stdpp Require Import prelude gmap strings.

(** ** Constants and errors *)

Definition RECORD_VERSION : bytes := str "NR2".
Definition AAD_DOMAIN : bytes := str "nilvpn.redemption-result.v1".
Definition REPLAY_NONCE_LEN : nat := 12.
Definition TAG_LEN : nat := 16.

(** Sizes are compared as [Z], so that nothing counts to 65536 in unary. *)
Definition MAX_REPLAY_RESULT_BYTES : Z := 64 * 1024.
Definition MAX_CIPHERTEXT_BYTES : Z := 12 + MAX_REPLAY_RESULT_BYTES + 16.
Definition MAX_STORED_NULLIFIER_HEX : Z := 16 * 1024.
Definition MAX_RECORD_LINE_BYTES : Z :=
  4 + 1 + 10 + 1 + MAX_STORED_NULLIFIER_HEX + 1 + 20 + 1 + MAX_CIPHERTEXT_BYTES * 2 + 1.

Definition blen (l : bytes) : Z := Z.of_nat (length l).

(** [io::Error], by the message it carries. *)
Inductive IoError :=
  | ReplayResultBound | NonceEntropy | BadReplayKey | EncryptFailed
  | CiphertextLength | CiphertextAuth | PlaintextLength
  | BadNullifier | AlreadyExpired
  | InconsistentRecord | RecordTooLong | LineTooLong | NotUtf8
  | MalformedRecord | BadEpoch | BadExpiry | BadCiphertextEncoding | BadStoredKey
  | TailTooLong | IoFailed
  | Panicked.  (* an [expect] that would abort the request *)

(** ** Sealing *)

Record StoredRecord := {
  epoch : Z;                       (* u32 *)
  replay_until : option Z;         (* u64 *)
  ciphertext : option bytes;
}.

#[global] Instance StoredRecord_eq_dec : EqDecision StoredRecord.
Proof. solve_decision. Defined.

Definition spent_only (e : Z) : StoredRecord :=
  {| epoch := e; replay_until := None; ciphertext := None |}.

Definition live_ciphertext (r : StoredRecord) (now : Z) : option (Z * bytes) :=
  match replay_until r, ciphertext r with
  | Some until, Some c => if (now <? until)%Z then Some (until, c) else None
  | _, _ => None
  end.

Definition aad (e : Z) (key : bytes) (until : Z) : bytes :=
  AAD_DOMAIN ++ be_bytes 4 e ++ be_bytes 8 until ++ key.

Definition result_size_ok (p : bytes) : bool :=
  negb (bool_decide (p = [])) && (blen p <=? MAX_REPLAY_RESULT_BYTES)%Z.

Section Seal.
Context `{Haead : Aead}.

(** [nonce] is the outcome of the 12-byte random read; [k] the 32-byte key, a length the
    cipher always accepts. *)
Definition seal (k : bytes) (nonce : option bytes) (e : Z) (key : bytes) (until : Z)
    (plaintext : bytes) : result IoError bytes :=
  _ ← ensure (result_size_ok plaintext) ReplayResultBound;
  n ← ok_or nonce NonceEntropy;
  encrypted ← ok_or (aead_encrypt k n (aad e key until) plaintext) EncryptFailed;
  Ok (n ++ encrypted).

Definition open (k : bytes) (e : Z) (key : bytes) (until : Z) (stored : bytes) :
    result IoError bytes :=
  _ ← ensure (((12 + 16) <=? blen stored) && (blen stored <=? MAX_CIPHERTEXT_BYTES))%Z
             CiphertextLength;
  let n := take REPLAY_NONCE_LEN stored in
  let c := drop REPLAY_NONCE_LEN stored in
  plaintext ← ok_or (aead_decrypt k n (aad e key until) c) CiphertextAuth;
  _ ← ensure (result_size_ok plaintext) PlaintextLength;
  Ok plaintext.

End Seal.

(** ** Keys and lines *)

Definition validate_commit (key : bytes) (until : Z) (proposed : bytes) (now : Z) :
    result IoError unit :=
  _ ← ensure ((length key =? 64)%nat && forallb is_lower_hex key) BadNullifier;
  _ ← ensure (negb (until <=? now)%Z) AlreadyExpired;
  ensure (result_size_ok proposed) ReplayResultBound.

Definition validate_stored_key (key : bytes) : result IoError unit :=
  ensure (negb (bool_decide (key = [])) && (blen key <=? MAX_STORED_NULLIFIER_HEX)%Z
          && Nat.even (length key) && forallb is_lower_hex key) BadStoredKey.

Definition SP : byte := x20.
Definition LF : byte := x0a.

Definition record_line (e : Z) (key until c : bytes) : bytes :=
  RECORD_VERSION ++ [SP] ++ uint_to_string e ++ [SP] ++ key ++ [SP] ++ until ++ [SP] ++ c ++ [LF].

Definition encode_record (key : bytes) (r : StoredRecord) : result IoError bytes :=
  _ ← validate_stored_key key;
  uc ← match replay_until r, ciphertext r with
       | Some until, Some c => Ok (uint_to_string until, to_hex c)
       | None, None => Ok (str "-", str "-")
       | _, _ => Err InconsistentRecord
       end;
  let line := record_line (epoch r) key uc.1 uc.2 in
  _ ← ensure (blen line <=? MAX_RECORD_LINE_BYTES)%Z RecordTooLong;
  Ok line.

(** ** [str::split_whitespace]

    The length of the white-space character at the head of the text, if any, by its
    UTF-8 encoding: the ASCII ones, U+0085, U+00A0, U+1680, U+2000 to U+200A, U+2028,
    U+2029, U+202F, U+205F and U+3000. *)
Definition ws_len (s : bytes) : option nat :=
  match s with
  | a :: s =>
      if in_range 9 13 a || bool_decide (a = x20) then Some 1
      else match a, s with
      | xc2, b :: _ => if bool_decide (b = x85) || bool_decide (b = xa0) then Some 2 else None
      | xe1, b :: c :: _ => if bool_decide (b = x9a) && bool_decide (c = x80) then Some 3 else None
      | xe2, b :: c :: _ =>
          if (bool_decide (b = x80) && (in_range 128 138 c || bool_decide (c = xa8)
                                        || bool_decide (c = xa9) || bool_decide (c = xaf)))
             || (bool_decide (b = x81) && bool_decide (c = x9f)) then Some 3 else None
      | xe3, b :: c :: _ => if bool_decide (b = x80) && bool_decide (c = x80) then Some 3 else None
      | _, _ => None
      end
  | [] => None
  end.

(** One step per byte: white space ends the current field, anything else extends it.  A
    lead byte is never a continuation byte, so byte-wise scanning agrees with scanning
    by characters. *)
Fixpoint split_ws (fuel : nat) (cur : bytes) (s : bytes) : list bytes :=
  match fuel, s with
  | 0, _ | _, [] => if decide (cur = []) then [] else [cur]
  | S fuel, c :: s' =>
      match ws_len s with
      | Some n => if decide (cur = []) then split_ws fuel [] (drop n s)
                  else cur :: split_ws fuel [] (drop n s)
      | None => split_ws fuel (cur ++ [c]) s'
      end
  end.

Definition split_whitespace (s : bytes) : list bytes := split_ws (length s) [] s.

(** ** Reading records back *)

Definition parse_replay (e : Z) (f3 f4 : bytes) : result IoError StoredRecord :=
  if decide (f3 = str "-" ∧ f4 = str "-") then Ok (spent_only e)
  else
    until ← ok_or (parse_uint U64_MAX f3) BadExpiry;
    _ ← ensure ((blen f4 <=? MAX_CIPHERTEXT_BYTES * 2)%Z && Nat.even (length f4)
                && forallb is_lower_hex f4) BadCiphertextEncoding;
    c ← ok_or (from_hex f4) BadCiphertextEncoding;
    Ok {| epoch := e; replay_until := Some until; ciphertext := Some c |}.

Definition parse_record (line : bytes) : result IoError (bytes * StoredRecord) :=
  match split_whitespace line with
  | v :: fields =>
      if decide (v = RECORD_VERSION) then
        match fields with
        | [f1; key; f3; f4] =>
            e ← ok_or (parse_uint U32_MAX f1) BadEpoch;
            _ ← validate_stored_key key;
            r ← parse_replay e f3 f4;
            Ok (key, r)
        | _ => Err MalformedRecord
        end
      else match fields with
      | [] => _ ← validate_stored_key v; Ok (v, spent_only LEGACY_EPOCH)
      | [key] =>
          e ← ok_or (parse_uint U32_MAX v) BadEpoch;
          _ ← validate_stored_key key;
          Ok (key, spent_only e)
      | _ => Err MalformedRecord
      end
  | [] => Err MalformedRecord
  end.

(** [read_until(b'\n')] on the remaining bytes: the line with its newline, and the rest. *)
Fixpoint read_until (s : bytes) : bytes * bytes :=
  match s with
  | [] => ([], [])
  | c :: s => if decide (c = LF) then ([c], s)
              else let '(line, rest) := read_until s in (c :: line, rest)
  end.

(** A trailing carriage return is dropped with the newline. *)
Definition strip_eol (line : bytes) : bytes :=
  let l := removelast line in
  if decide (last l = Some x0d) then removelast l else l.

(** The loop of [load_records].  The reader takes at most one byte more than the longest
    record, so a longer line is an error whether or not its newline was reached. *)
Fixpoint load_loop (fuel : nat) (content : bytes) (records : gmap bytes StoredRecord) :
    result IoError (gmap bytes StoredRecord) :=
  match fuel with
  | 0 => Ok records
  | S fuel =>
      let '(line, rest) := read_until content in
      if decide (line = []) then Ok records
      else if (MAX_RECORD_LINE_BYTES <? blen line)%Z then Err LineTooLong
      else if negb (bool_decide (last line = Some LF)) then Ok records
      else
        let text := strip_eol line in
        if decide (text = []) then load_loop fuel rest records
        else
          _ ← ensure (is_utf8 text) NotUtf8;
          kr ← parse_record text;
          load_loop fuel rest
            (if decide (is_Some (records !! kr.1)) then records else <[kr.1 := kr.2]> records)
  end.

(** One unit of fuel per byte, and one for the final empty read. *)
Definition load_records (content : bytes) : result IoError (gmap bytes StoredRecord) :=
  load_loop (S (length content)) content ∅.

(** The backward scan from the end of the file, on the reversed content: [scanned] bytes
    have been read without meeting a newline, [position] is the offset of the last one. *)
Fixpoint scan_back (rev_before : bytes) (scanned : Z) : result IoError nat :=
  match rev_before with
  | [] => Ok 0
  | b :: before =>
      if (MAX_RECORD_LINE_BYTES <=? scanned)%Z then Err TailTooLong
      else if decide (b = LF) then Ok (length rev_before)
      else scan_back before (scanned + 1)
  end.

Definition truncate_unterminated_tail (content : bytes) : result IoError bytes :=
  match rev content with
  | [] => Ok content
  | b :: before =>
      if decide (b = LF) then Ok content
      else at_ ← scan_back before 1; Ok (take at_ content)
  end.

(** ** Text lemmas *)

(** Bytes that are neither white space nor part of a multi-byte character. *)
Definition plain (f : bytes) : Prop := Forall (λ b, in_range 33 126 b = true) f.

Lemma ws_len_plain b s : in_range 33 126 b = true → ws_len (b :: s) = None.
Proof.
  intros H. cbn [ws_len].
  assert (in_range 9 13 b || bool_decide (b = x20) = false) as ->.
  { apply in_range_iff in H. apply orb_false_iff. split.
    - apply in_range_false. lia.
    - apply bool_decide_eq_false. intros ->. change (b2z x20) with 32%Z in H. lia. }
  destruct b; try done; vm_compute in H; discriminate H.
Qed.

Lemma split_ws_plain fuel cur f s :
  plain f → split_ws (length f + fuel) cur (f ++ s) = split_ws fuel (cur ++ f) s.
Proof.
  intros Hf. revert cur. induction Hf as [|b f Hb Hf IH]; intros cur; [by rewrite app_nil_r|].
  cbn [length Nat.add app split_ws]. rewrite ws_len_plain by done. rewrite IH.
  by rewrite <- app_assoc.
Qed.

Lemma split_ws_field fuel f s :
  plain f → f ≠ [] →
  split_ws (length f + S fuel) [] (f ++ SP :: s) = f :: split_ws fuel [] s.
Proof.
  intros Hf Hne. rewrite split_ws_plain by done. cbn [app split_ws].
  change (ws_len (SP :: s)) with (Some 1). cbn. by rewrite decide_False.
Qed.

Lemma split_ws_last fuel f :
  plain f → f ≠ [] → split_ws (length f + fuel) [] f = [f].
Proof.
  intros Hf Hne. rewrite <- (app_nil_r f) at 2. rewrite split_ws_plain by done.
  destruct fuel; cbn; by rewrite decide_False.
Qed.

(** Five fields separated by single spaces come back as five fields. *)
Lemma split_five f1 f2 f3 f4 f5 :
  Forall (λ f, plain f ∧ f ≠ []) [f1; f2; f3; f4; f5] →
  split_whitespace (f1 ++ [SP] ++ f2 ++ [SP] ++ f3 ++ [SP] ++ f4 ++ [SP] ++ f5)
  = [f1; f2; f3; f4; f5].
Proof.
  rewrite !Forall_cons. intros H. destruct_and! H. unfold split_whitespace.
  rewrite !length_app. cbn [length].
  replace (_ + _) with (length f1 + S (length f2 + S (length f3 + S (length f4 + S (length f5 + 0)))))
    by lia.
  cbn [app]. do 4 (rewrite split_ws_field by done; f_equal). by apply split_ws_last.
Qed.

Lemma is_lower_hex_plain b : is_lower_hex b = true → in_range 33 126 b = true.
Proof.
  unfold is_lower_hex, is_ascii_digit. intros [H|H]%orb_true_iff; apply in_range_iff in H;
    apply in_range_iff; lia.
Qed.

Lemma digit_plain b : is_ascii_digit b = true → in_range 33 126 b = true.
Proof. unfold is_ascii_digit. intros H%in_range_iff. apply in_range_iff. lia. Qed.

Lemma uint_plain n : (0 ≤ n)%Z → plain (uint_to_string n) ∧ uint_to_string n ≠ [].
Proof.
  intros Hn. split.
  - eapply Forall_impl; [by apply uint_to_string_digits|]. apply digit_plain.
  - apply dec_digits_nonempty. lia.
Qed.

Lemma lower_hex_plain v : forallb is_lower_hex v = true → plain v.
Proof.
  intros H%forallb_Forall_true. eapply Forall_impl; [exact H|]. apply is_lower_hex_plain.
Qed.

Lemma to_hex_plain c : c ≠ [] → plain (to_hex c) ∧ to_hex c ≠ [].
Proof.
  intros Hc. split.
  - eapply Forall_impl; [apply to_hex_lower|]. apply is_lower_hex_plain.
  - intros E. apply (f_equal length) in E. rewrite length_to_hex in E. by destruct c.
Qed.

Lemma validate_stored_key_ok key u :
  validate_stored_key key = Ok u ↔
  key ≠ [] ∧ (blen key ≤ MAX_STORED_NULLIFIER_HEX)%Z ∧ Nat.even (length key) = true ∧
  forallb is_lower_hex key = true.
Proof.
  unfold validate_stored_key. rewrite ensure_Ok, !andb_true_iff, negb_true_iff,
    bool_decide_eq_false, Z.leb_le. tauto.
Qed.

(** ** Records *)

(** What [encode_record] stores faithfully: field widths, and a ciphertext only together
    with its expiry. *)
Record record_wf (r : StoredRecord) : Prop := {
  rw_epoch : u32 (epoch r);
  rw_until : ∀ t, replay_until r = Some t → u64 t;
  rw_paired : is_Some (replay_until r) ↔ is_Some (ciphertext r);
  rw_cipher : ∀ c, ciphertext r = Some c → c ≠ [] ∧ (blen c ≤ MAX_CIPHERTEXT_BYTES)%Z;
}.

Lemma spent_only_wf e : u32 e → record_wf (spent_only e).
Proof. intros He. split; cbn; naive_solver. Qed.

(** The text of a stored line, without its newline. *)
Definition line_text (key : bytes) (r : StoredRecord) : bytes :=
  RECORD_VERSION ++ [SP] ++ uint_to_string (epoch r) ++ [SP] ++ key ++ [SP] ++
  match replay_until r with Some t => uint_to_string t | None => str "-" end ++ [SP] ++
  match ciphertext r with Some c => to_hex c | None => str "-" end.

Lemma encode_record_ok key r line :
  record_wf r → encode_record key r = Ok line →
  line = line_text key r ++ [LF] ∧ (blen line ≤ MAX_RECORD_LINE_BYTES)%Z ∧
  validate_stored_key key = Ok tt.
Proof.
  intros Hwf H. unfold encode_record in H. inv_ok H. reflect_bools.
  assert (line = record_line (epoch r) key x0.1 x0.2) as -> by congruence.
  destruct x. split_and!; try done. unfold line_text, record_line.
  destruct (rw_paired _ Hwf) as [P1 P2].
  destruct (replay_until r) as [t|], (ciphertext r) as [c|]; try done;
    rename select (Ok _ = Ok _) into E;
    [assert (x0 = (uint_to_string t, to_hex c)) as -> by congruence
    |assert (x0 = (str "-", str "-")) as -> by congruence];
    cbn [fst snd]; by rewrite <- !app_assoc.
Qed.

Lemma line_text_parse key r :
  record_wf r → validate_stored_key key = Ok tt → parse_record (line_text key r) = Ok (key, r).
Proof.
  intros [He Hu Hp Hc] Hk. pose proof Hk as (Hk1 & _ & Hk3 & Hk4)%validate_stored_key_ok.
  unfold parse_record, line_text. rewrite split_five.
  2:{ repeat constructor; try (by apply uint_plain; unfold_int; lia); try done;
        try (by apply lower_hex_plain).
      1,2: destruct (replay_until r) as [t|]; [specialize (Hu t eq_refl);
             apply uint_plain; unfold_int; lia|by repeat constructor].
      all: destruct (ciphertext r) as [c|]; [destruct (Hc c eq_refl); by apply to_hex_plain
             |by repeat constructor]. }
  rewrite decide_True by done. unfold_int.
  rewrite parse_uint_to_string, ok_or_Some, Ok_bind, Hk, Ok_bind by (unfold_int; lia).
  destruct r as [e [t|] [c|]]; cbn [replay_until ciphertext Ledger.epoch] in *.
  - specialize (Hu t eq_refl). destruct (Hc c eq_refl) as [Hne Hlen]. unfold parse_replay.
    rewrite decide_False.
    2:{ intros [E _]. pose proof (uint_to_string_digits t) as D. rewrite E in D.
        specialize (D ltac:(lia)). inversion D. done. }
    rewrite parse_uint_to_string, ok_or_Some, Ok_bind by (unfold_int; lia).
    unfold blen in *. rewrite length_to_hex.
    rewrite (proj2 (Z.leb_le _ _)) by lia. rewrite Nat.even_mul, orb_true_r.
    rewrite (proj2 (forallb_Forall_true _ _)) by apply to_hex_lower. cbn [andb].
    rewrite ensure_true, Ok_bind, from_hex_to_hex. done.
  - destruct (proj1 Hp); eauto. done.
  - destruct (proj2 Hp); eauto. done.
  - unfold parse_replay. by rewrite decide_True.
Qed.

(** ** Reading whole files *)

Lemma read_until_line text rest :
  LF ∉ text → read_until (text ++ LF :: rest) = (text ++ [LF], rest).
Proof.
  induction text as [|c text IH]; intros Hn; cbn [app read_until].
  - by rewrite decide_True.
  - rewrite decide_False by (intros ->; apply Hn; by left).
    rewrite IH; [done|]. intros ?. apply Hn. by right.
Qed.

Lemma read_until_tail s : LF ∉ s → read_until s = (s, []).
Proof.
  induction s as [|c s IH]; intros Hn; cbn [read_until]; [done|].
  rewrite decide_False by (intros ->; apply Hn; by left).
  rewrite IH; [done|]. intros ?. apply Hn. by right.
Qed.

(** A text is a first line and a rest, or has no newline. *)
Lemma split_line s : (LF ∉ s) ∨ ∃ text rest, s = text ++ LF :: rest ∧ LF ∉ text.
Proof.
  destruct (decide (LF ∈ s)) as [Hin|]; [right|by left].
  by apply list_elem_of_split_l in Hin.
Qed.

Lemma load_fuel n m s records :
  length s < n → length s < m → load_loop n s records = load_loop m s records.
Proof.
  revert m s records. induction n as [|n IH]; intros [|m] s records Hn Hm; try lia.
  cbn [load_loop].
  destruct (split_line s) as [Hs|(text & rest & -> & Ht)].
  - rewrite (read_until_tail s Hs). case_decide; [done|]. case_match; [done|].
    rewrite bool_decide_false; [done|]. intros E. apply last_Some in E as [l ->].
    apply Hs. apply elem_of_app. right. by left.
  - rewrite read_until_line by done. rewrite length_app in Hn, Hm. cbn [length] in Hn, Hm.
    case_decide; [done|]. case_match; [done|].
    rewrite last_snoc, bool_decide_true by done. cbn [negb].
    case_decide; [apply IH; lia|]. destruct (ensure _ _); [|done]. rewrite !Ok_bind.
    destruct (parse_record _) as [[k r]|]; [|done]. rewrite !Ok_bind. apply IH; lia.
Qed.

Definition load_from (m : gmap bytes StoredRecord) (s : bytes) :
    result IoError (gmap bytes StoredRecord) := load_loop (S (length s)) s m.

(** The first line of a key wins. *)
Definition add_first (m : gmap bytes StoredRecord) (k : bytes) (r : StoredRecord) :
    gmap bytes StoredRecord := if decide (is_Some (m !! k)) then m else <[k := r]> m.

(** What one line does to the records read so far. *)
Definition load_line (m : gmap bytes StoredRecord) (text : bytes) :
    result IoError (gmap bytes StoredRecord) :=
  if (MAX_RECORD_LINE_BYTES <? blen text + 1)%Z then Err LineTooLong
  else
    let text := strip_eol (text ++ [LF]) in
    if decide (text = []) then Ok m
    else _ ← ensure (is_utf8 text) NotUtf8;
         kr ← parse_record text;
         Ok (add_first m kr.1 kr.2).

Lemma load_from_cons m text rest :
  LF ∉ text →
  load_from m (text ++ LF :: rest) = (m' ← load_line m text; load_from m' rest).
Proof.
  intros Ht. unfold load_from. cbn [load_loop]. rewrite read_until_line by done.
  rewrite decide_False by (by destruct text). unfold load_line.
  replace (blen (text ++ [LF])) with (blen text + 1)%Z
    by (unfold blen; rewrite length_app; cbn [length]; lia).
  case_match; [done|]. rewrite last_snoc, bool_decide_true by done. cbn [negb].
  assert (Hf : ∀ m', load_loop (length (text ++ LF :: rest)) rest m' =
                     load_loop (S (length rest)) rest m').
  { intros m'. apply load_fuel; rewrite ?length_app; cbn [length]; lia. }
  rewrite Hf. case_decide; [done|]. destruct (ensure _ _); [|done]. rewrite !Ok_bind.
  destruct (parse_record _) as [[k r]|]; [|done]. rewrite !Ok_bind, Hf. done.
Qed.

Lemma load_from_tail m s :
  LF ∉ s → (blen s ≤ MAX_RECORD_LINE_BYTES)%Z → load_from m s = Ok m.
Proof.
  intros Hs Hl. unfold load_from. cbn [load_loop]. rewrite read_until_tail by done.
  case_decide; [done|]. rewrite (proj2 (Z.ltb_ge _ _)) by lia.
  rewrite bool_decide_false; [done|]. intros E. apply last_Some in E as [l ->].
  apply Hs. apply elem_of_app. right. by left.
Qed.

(** A file image whose last byte, if any, ends a line. *)
Definition complete (s : bytes) : Prop := s = [] ∨ last s = Some LF.

Lemma complete_cons text rest : complete (text ++ LF :: rest) → complete rest.
Proof.
  intros [E|E]; [by destruct text|].
  destruct rest as [|c rest]; [by left|]. right. rewrite last_app, last_cons_cons in E.
  destruct (last (c :: rest)) eqn:El; [done|]. by apply last_None in El.
Qed.

Lemma complete_app s text : complete (s ++ text ++ [LF]).
Proof. right. rewrite app_assoc. apply last_snoc. Qed.

(** Reading a complete image and then more text is reading the text with the records of
    the image. *)
Lemma load_from_app s tail m m' :
  complete s → load_from m s = Ok m' → load_from m (s ++ tail) = load_from m' tail.
Proof.
  remember (length s) as n eqn:Hn. revert s m Hn.
  induction n as [n IH] using lt_wf_ind; intros s m Hn Hc Hl.
  destruct (split_line s) as [Hs|(text & rest & -> & Ht)].
  - destruct Hc as [->|E].
    + cbn in Hl. by injection Hl as ->.
    + apply last_Some in E as [l ->]. destruct Hs. apply elem_of_app. right. by left.
  - rewrite <- app_assoc. cbn [app]. rewrite load_from_cons in * by done.
    apply bind_Ok in Hl as (m1 & -> & Hl). rewrite Ok_bind.
    apply (IH (length rest)); try done.
    + rewrite Hn, length_app. cbn [length]. lia.
    + by apply complete_cons in Hc.
Qed.

(** *** Encoded records in a file *)

Lemma line_text_bytes key r :
  record_wf r → validate_stored_key key = Ok tt →
  Forall (λ b, in_range 32 126 b = true) (line_text key r) ∧ line_text key r ≠ [] ∧
  last (line_text key r) ≠ Some x0d.
Proof.
  intros Hwf (Hk1 & _ & _ & Hk4)%validate_stored_key_ok.
  assert (Hw : ∀ f, plain f → Forall (λ b, in_range 32 126 b = true) f).
  { intros f Hf. eapply Forall_impl; [exact Hf|]. intros b Hb%in_range_iff.
    apply in_range_iff. lia. }
  assert (Hall : Forall (λ b, in_range 32 126 b = true) (line_text key r)).
  { unfold line_text. rewrite !Forall_app. split_and!; try (by repeat constructor); apply Hw.
    - apply uint_plain. destruct (rw_epoch _ Hwf). lia.
    - by apply lower_hex_plain.
    - destruct (replay_until r) as [t|] eqn:E; [|by repeat constructor].
      apply uint_plain. pose proof (rw_until _ Hwf t E). unfold_int. lia.
    - destruct (ciphertext r) as [c|] eqn:E; [|by repeat constructor].
      apply to_hex_plain. by apply (rw_cipher _ Hwf c E). }
  split_and!; try done. intros E. apply last_Some in E as [l E]. rewrite E in Hall.
  apply Forall_app in Hall as [_ Hall]. inversion Hall. done.
Qed.

(** A line [encode_record] wrote is read back as its record. *)
Lemma load_line_encoded m key r line :
  record_wf r → encode_record key r = Ok line →
  ∃ text, line = text ++ [LF] ∧ LF ∉ text ∧ load_line m text = Ok (add_first m key r).
Proof.
  intros Hwf H. apply encode_record_ok in H as (-> & Hlen & Hk); [|done].
  destruct (line_text_bytes key r Hwf Hk) as (Hb & Hne & Hcr).
  exists (line_text key r). split; [done|]. rewrite Forall_forall in Hb. split.
  { intros Hin. by apply Hb in Hin. }
  unfold load_line. unfold blen in *. rewrite length_app in Hlen. cbn [length] in Hlen.
  rewrite (proj2 (Z.ltb_ge _ _)) by lia. unfold strip_eol. rewrite removelast_last.
  rewrite (decide_False (P := last _ = _)), decide_False by done.
  rewrite ascii_is_utf8.
  2:{ apply Forall_forall. intros b Hin%Hb%in_range_iff. apply in_range_iff. lia. }
  rewrite ensure_true, Ok_bind, line_text_parse, Ok_bind by done. done.
Qed.

(** Appending an encoded record to a complete image adds it to what the image loads to. *)
Lemma load_append s m key r line tail :
  complete s → load_from ∅ s = Ok m → record_wf r → encode_record key r = Ok line →
  load_from ∅ (s ++ line ++ tail) = load_from (add_first m key r) tail ∧ complete (s ++ line).
Proof.
  intros Hc Hl Hwf He. destruct (load_line_encoded m key r line Hwf He) as (text & -> & Ht & Hll).
  rewrite (load_from_app _ _ _ _ Hc Hl), <- app_assoc. cbn [app].
  rewrite load_from_cons by done. rewrite Hll, Ok_bind. split; [done|].
  by apply complete_app.
Qed.

(** *** Torn tails *)

Lemma scan_back_spec before scanned at_ :
  scan_back before scanned = Ok at_ →
  at_ ≤ length before ∧ complete (take at_ (rev before)) ∧ LF ∉ drop at_ (rev before).
Proof.
  revert scanned. induction before as [|b before IH]; intros scanned; cbn [scan_back].
  - intros [= <-]. split_and!; try done; [by left|]. by intros ?%elem_of_nil.
  - case_match; [done|]. case_decide as Hb.
    + intros [= <-]. cbn [rev]. split_and!; try done.
      * rewrite take_ge by (rewrite length_app, length_rev; cbn; lia).
        right. rewrite last_snoc. by subst.
      * rewrite drop_ge by (rewrite length_app, length_rev; cbn; lia). by intros ?%elem_of_nil.
    + intros (Hle & Hc & Hn)%IH. cbn [rev length]. split_and!; [lia| |].
      * by rewrite take_app_le by (rewrite length_rev; lia).
      * rewrite drop_app_le by (rewrite length_rev; lia).
        intros [?|?%list_elem_of_singleton]%elem_of_app; congruence.
Qed.

(** Recovery keeps the complete lines and drops a final fragment, whatever the file. *)
Lemma truncate_spec s s' :
  truncate_unterminated_tail s = Ok s' →
  complete s' ∧ ∃ frag, s = s' ++ frag ∧ LF ∉ frag.
Proof.
  unfold truncate_unterminated_tail. destruct (rev s) as [|b before] eqn:E.
  - intros [= <-]. apply (f_equal (@rev byte)) in E. rewrite rev_involutive in E. cbn in E. subst.
    split; [by left|]. exists []. split; [done|]. by intros ?%elem_of_nil.
  - assert (s = rev before ++ [b]) as ->.
    { apply (f_equal (@rev byte)) in E. by rewrite rev_involutive in E. }
    case_decide as Hb.
    + intros [= <-]. split; [right; subst; apply last_snoc|].
      exists []. rewrite app_nil_r. split; [done|]. by intros ?%elem_of_nil.
    + intros H. inv_ok H. injection H as <-.
      rename select (scan_back _ _ = _) into Hs. apply scan_back_spec in Hs as (Hle & Hc & Hn).
      rewrite take_app_le by (rewrite length_rev; lia). split; [done|].
      exists (drop x (rev before) ++ [b]). rewrite app_assoc, take_drop. split; [done|].
      intros [?|?%list_elem_of_singleton]%elem_of_app; congruence.
Qed.

Lemma complete_decompose s1 f1 s2 f2 :
  s1 ++ f1 = s2 ++ f2 → complete s1 → complete s2 → LF ∉ f1 → LF ∉ f2 → s1 = s2.
Proof.
  intros E C1 C2 N1 N2.
  assert (H : ∀ a b f g, a ++ f = b ++ g → complete b → LF ∉ f → length b ≤ length a ).
  { intros a b f g Eab Cb Nf. destruct (Nat.le_gt_cases (length b) (length a)); [done|].
    destruct Cb as [->|Cb]; [cbn in *; lia|]. apply last_Some in Cb as [l ->].
    destruct Nf. rewrite length_app in *. cbn [length] in *.
    apply (f_equal (drop (length a))) in Eab. rewrite drop_app_length in Eab. rewrite Eab.
    rewrite <- app_assoc, drop_app_le by lia. apply elem_of_app. right. by left. }
  assert (length s1 = length s2) as El.
  { apply Nat.le_antisymm; [eapply (H s2 s1)|eapply (H s1 s2)]; eauto. }
  by apply app_inj_1 in E as [-> _].
Qed.

Lemma scan_back_complete before s scanned :
  complete s → LF ∉ before → (scanned + Z.of_nat (length before) < MAX_RECORD_LINE_BYTES)%Z →
  ∃ at_, scan_back (before ++ rev s) scanned = Ok at_.
Proof.
  intros Hc. revert scanned. induction before as [|c before IH]; intros sc Hb Hl; cbn [app].
  - destruct Hc as [->|Hc]; [by exists 0|]. apply last_Some in Hc as [l ->].
    rewrite rev_app_distr. cbn [rev app scan_back length] in *.
    rewrite (proj2 (Z.leb_gt _ _)) by lia. rewrite decide_True by done. eauto.
  - cbn [scan_back length] in *. rewrite (proj2 (Z.leb_gt _ _)) by lia.
    rewrite decide_False by (intros ->; apply Hb; by left).
    apply IH; [|lia]. intros ?. apply Hb. by right.
Qed.

(** A complete image followed by a fragment shorter than the longest record recovers exactly. *)
Lemma truncate_torn s frag :
  complete s → LF ∉ frag → (blen frag < MAX_RECORD_LINE_BYTES)%Z →
  truncate_unterminated_tail (s ++ frag) = Ok s.
Proof.
  intros Hc Hn Hlen. destruct (truncate_unterminated_tail (s ++ frag)) as [s'|e] eqn:E.
  { f_equal. apply truncate_spec in E as (Hc' & frag' & E & Hn').
    symmetry. by eapply complete_decompose. }
  exfalso. revert E. unfold truncate_unterminated_tail. rewrite rev_app_distr.
  destruct (rev frag) as [|b before] eqn:Ef.
  - cbn [app]. destruct Hc as [->|Hc]; [done|]. apply last_Some in Hc as [l ->].
    rewrite rev_app_distr. cbn [rev app]. by rewrite decide_True.
  - assert (frag = rev before ++ [b]) as ->.
    { apply (f_equal (@rev byte)) in Ef. by rewrite rev_involutive in Ef. }
    cbn [app]. case_decide; [done|]. unfold blen in Hlen. rewrite length_app, length_rev in Hlen.
    cbn [length] in Hlen.
    assert (Hb : LF ∉ before).
    { intros Hin. apply Hn, elem_of_app. left. rewrite list_elem_of_In, <- in_rev.
      by rewrite <- list_elem_of_In. }
    destruct (scan_back_complete before s 1 Hc Hb) as [at_ ->]; [lia|]. done.
Qed.

(** *** Whole images *)

(** Every well-formed record fits the line bound the reader enforces. *)
Lemma encode_record_succeeds key r :
  record_wf r → validate_stored_key key = Ok tt →
  encode_record key r = Ok (line_text key r ++ [LF]).
Proof.
  intros Hwf Hk. pose proof Hk as (_ & Hkl & _ & _)%validate_stored_key_ok.
  destruct Hwf as [He Hu Hp Hc]. unfold encode_record. rewrite Hk, Ok_bind.
  pose proof (length_u32_text _ He) as Hel.
  destruct r as [e [u|] [c|]]; cbn [replay_until ciphertext Ledger.epoch] in *.
  - specialize (Hu u eq_refl). destruct (Hc c eq_refl) as [_ Hcl].
    pose proof (length_u64_text _ Hu). rewrite Ok_bind. cbn [fst snd].
    unfold record_line, line_text. cbn [replay_until ciphertext Ledger.epoch].
    rewrite (proj2 (Z.leb_le _ _)), ensure_true, Ok_bind; [by rewrite <- !app_assoc|].
    unfold blen, MAX_RECORD_LINE_BYTES in *. rewrite !length_app, length_to_hex.
    change (length RECORD_VERSION) with 3. cbn [length]. lia.
  - destruct Hp as [Hp _]. destruct Hp; eauto. done.
  - destruct Hp as [_ Hp]. destruct Hp; eauto. done.
  - rewrite Ok_bind. cbn [fst snd].
    unfold record_line, line_text. cbn [replay_until ciphertext Ledger.epoch].
    rewrite (proj2 (Z.leb_le _ _)), ensure_true, Ok_bind; [by rewrite <- !app_assoc|].
    unfold blen, MAX_RECORD_LINE_BYTES, MAX_CIPHERTEXT_BYTES, MAX_REPLAY_RESULT_BYTES in *.
    rewrite !length_app. change (length RECORD_VERSION) with 3. change (length (str "-")) with 1. cbn [length]. lia.
Qed.

Lemma add_first_fold l m :
  NoDup l.*1 → (∀ k, k ∈ l.*1 → m !! k = None) →
  foldl (λ m kr, add_first m kr.1 kr.2) m l = list_to_map l ∪ m.
Proof.
  revert m. induction l as [|[k r] l IH]; intros m Hnd Hm.
  - cbn. by rewrite left_id_L by apply _.
  - cbn in Hnd. apply NoDup_cons in Hnd as [Hk Hnd]. cbn [foldl].
    assert (Hkm : m !! k = None) by (apply Hm; by left).
    unfold add_first at 2. cbn [fst snd].
    rewrite decide_False by (rewrite Hkm; by intros [? ?]).
    rewrite IH; [|done|].
    + cbn [list_to_map foldr fst snd uncurry]. rewrite <- insert_union_r by
        (by apply not_elem_of_list_to_map). by rewrite insert_union_l.
    + intros k' Hk'. rewrite lookup_insert_ne by (intros ->; done). apply Hm. by right.
Qed.

(** Reading the encodings of a list of records, one after the other. *)
Lemma load_encoded_list l lines m :
  Forall (λ kr, record_wf kr.2) l →
  Forall2 (λ kr line, encode_record kr.1 kr.2 = Ok line) l lines →
  load_from m (concat lines) = Ok (foldl (λ m kr, add_first m kr.1 kr.2) m l) ∧
  complete (concat lines).
Proof.
  intros Hwf H. revert m Hwf. induction H as [|[k r] line l lines He _ IH]; intros m Hwf.
  { split; [done|by left]. }
  inversion Hwf as [|?? Hr Hwf']; subst. cbn [fst snd] in *.
  destruct (load_line_encoded m k r line Hr He) as (text & -> & Ht & Hll).
  cbn [concat]. rewrite <- app_assoc. cbn [app]. rewrite load_from_cons, Hll, Ok_bind by done.
  destruct (IH (add_first m k r) Hwf') as [-> Hc]. split; [done|].
  destruct Hc as [->|Hc]; [right; apply last_snoc|]. right.
  rewrite last_app, last_cons. by rewrite Hc.
Qed.

(** *** Whatever loads is well-formed *)

Lemma split_ws_nonempty fuel cur s : Forall (λ f, f ≠ []) (split_ws fuel cur s).
Proof.
  revert cur s. induction fuel as [|fuel IH]; intros cur [|c s]; cbn [split_ws].
  1-3: case_decide; by repeat constructor.
  destruct (ws_len (c :: s)); [case_decide|]; auto.
Qed.

Lemma parse_record_wf line k r :
  parse_record line = Ok (k, r) → record_wf r ∧ validate_stored_key k = Ok tt.
Proof.
  pose proof (split_ws_nonempty (length line) [] line) as Hne. unfold parse_record, split_whitespace.
  assert (U : ∀ x, validate_stored_key k = Ok x → validate_stored_key k = Ok tt).
  { by intros []. }
  assert (P : ∀ f e, parse_uint U32_MAX f = Some e → u32 e).
  { intros f e He. apply parse_uint_range in He; unfold_int; lia. }
  destruct (split_ws _ _ _) as [|v fields]; [done|]. case_decide.
  - destruct fields as [|f1 [|key [|f3 [|f4 [|]]]]]; try done. intros H1. inv_ok H1.
    injection H1 as -> ->. rename select (parse_replay _ _ _ = _) into Hp.
    split; [|by eauto]. unfold parse_replay in Hp. case_decide.
    + assert (r = spent_only x) as -> by congruence. apply spent_only_wf. eauto.
    + rewrite !Forall_cons in Hne. destruct_and! Hne. inv_ok Hp. reflect_bools.
      rename select (from_hex f4 = _) into Hh. unfold from_hex in Hh.
      rename select (Nat.even _ = true) into Hev. rewrite Hev in Hh. cbn [negb] in Hh.
      apply decode_pairs_length in Hh. apply Nat.even_spec in Hev as [n Hn].
      assert (r = {| epoch := x; replay_until := Some x1; ciphertext := Some x3 |}) as ->
        by congruence.
      rename select (parse_uint U64_MAX f3 = _) into Hu. apply parse_uint_range in Hu; [|done].
      rewrite Hn, Nat.mul_comm, Nat.div_mul in Hh by lia.
      split; cbn; [by eauto|intros t [= <-]; unfold_int; lia|naive_solver|].
      intros c [= <-]. unfold blen in *. split; [|lia]. intros ->. cbn in Hh.
      destruct f4; [done|]. cbn in Hn. lia.
  - destruct fields as [|key [|]]; try done; intros H1; inv_ok H1; injection H1 as <- <-.
    + split; [by apply spent_only_wf|by eauto].
    + split; [apply spent_only_wf; eauto|by eauto].
Qed.

Lemma load_line_wf m text m' :
  load_line m text = Ok m' →
  map_Forall (λ k r, record_wf r ∧ validate_stored_key k = Ok tt) m →
  map_Forall (λ k r, record_wf r ∧ validate_stored_key k = Ok tt) m'.
Proof.
  unfold load_line. case_match; [done|]. case_decide; [by intros [= <-]|].
  intros H1 Hm. inv_ok H1. injection H1 as <-. destruct x0 as [k r].
  rename select (parse_record _ = _) into Hp. apply parse_record_wf in Hp.
  unfold add_first. cbn. case_decide; [done|]. by apply map_Forall_insert_2.
Qed.

Lemma load_from_wf s m m' :
  load_from m s = Ok m' →
  map_Forall (λ k r, record_wf r ∧ validate_stored_key k = Ok tt) m →
  map_Forall (λ k r, record_wf r ∧ validate_stored_key k = Ok tt) m'.
Proof.
  remember (length s) as n eqn:Hn. revert s m Hn.
  induction n as [n IH] using lt_wf_ind; intros s m Hn Hl Hm.
  destruct (split_line s) as [Hs|(text & rest & -> & Ht)].
  - unfold load_from in Hl. cbn [load_loop] in Hl. rewrite read_until_tail in Hl by done.
    case_decide; [by injection Hl as <-|]. case_match; [done|].
    rewrite bool_decide_false in Hl; [by injection Hl as <-|].
    intros E. apply last_Some in E as [l ->]. apply Hs, elem_of_app. right. by left.
  - rewrite load_from_cons in Hl by done. apply bind_Ok in Hl as (m1 & Hll & Hl).
    eapply (IH (length rest)); [|done|exact Hl|by eapply load_line_wf].
    rewrite Hn, length_app. cbn [length]. lia.
Qed.

(** ** The file format round-trips *)

(** A record written to the ledger is read back as it was: for every well-formed record
    the encoder produces one newline-terminated line within the reader's bound, a file ending
    with that line loads to the earlier records and this one, and cutting the line anywhere
    short of its newline loses only this record. *)
Theorem record_roundtrip content m key r n :
  complete content → load_records content = Ok m → m !! key = None →
  record_wf r → validate_stored_key key = Ok tt →
  ∃ line, encode_record key r = Ok line ∧ (blen line ≤ MAX_RECORD_LINE_BYTES)%Z ∧
    load_records (content ++ line) = Ok (<[key := r]> m) ∧
    (n < length line → truncate_unterminated_tail (content ++ take n line) = Ok content).
Proof.
  intros Hc Hl Hk Hr Hkey. exists (line_text key r ++ [LF]).
  pose proof (encode_record_succeeds key r Hr Hkey) as He.
  destruct (encode_record_ok _ _ _ Hr He) as (_ & Hlen & _).
  destruct (load_append content m key r _ [] Hc Hl Hr He) as [Happ _].
  rewrite app_nil_r in Happ. split_and!; try done.
  - change (load_records (content ++ line_text key r ++ [LF]))
      with (load_from ∅ (content ++ line_text key r ++ [LF])). rewrite Happ.
    change (load_from (add_first m key r) []) with (@Ok IoError _ (add_first m key r)).
    unfold add_first. by rewrite decide_False by (rewrite Hk; by intros [? ?]).
  - intros Hn. destruct (load_line_encoded m key r _ Hr He) as (text & E & Ht & _).
    apply app_inj_2 in E as [E _]; [|done]. rewrite E in *.
    unfold blen in Hlen. rewrite length_app in Hn, Hlen. cbn [length] in Hn, Hlen.
    rewrite take_app_le by lia. apply truncate_torn; [done| |].
    + intros Hin. apply Ht. by apply (subseteq_take n).
    + unfold blen. rewrite length_take. lia.
Qed.

Definition w_stored_key : bytes := to_hex (replicate 32 x0a).

Lemma record_roundtrip_witness :
  ∃ line, encode_record w_stored_key (spent_only 7) = Ok line ∧
          load_records ([] ++ line) = Ok (<[w_stored_key := spent_only 7]> ∅).
Proof.
  destruct (record_roundtrip [] ∅ w_stored_key (spent_only 7) 0) as (line & H1 & _ & H2 & _).
  - left. reflexivity.
  - reflexivity.
  - reflexivity.
  - apply spent_only_wf. by vm_compute.
  - reflexivity.
  - exists line. exact (conj H1 H2).
Defined.
