(* ===== verification/Nullifier.v ===== *)
(** * Spending a token exactly once ([crates/nil-coordinator/src/nullifier.rs])

    The redemption ledger records each spent token and replays its first response to an
    identical retry while the grants live.  [Spec] is the ledger as a map; the class
    [NullifierStore] is the trait the Coordinator programs against; the volatile store and
    the crash-safe file store are proved to implement it, whatever the entropy source and
    the disk do. *)

From S2P Require Import Prelude.
From S2P Require Import Text.
From S2P Require Import Net.
From S2P Require Import Crypto.
From S2P Require Import Grant.
From S2P Require Import Token.
From S2P Require Import Ledger.
From Stdlib Require Import Strings.Byte ZArith Lia.
From stdpp Require Import prelude gmap strings sorting.

Inductive CommitOutcome :=
  | Granted (response : bytes) (newly_committed : bool)
  | AlreadySpent.

(** ** Specification *)

Module Spec.

(** A spent token, and its first response until the grants in it expire. *)
Record entry := { e_epoch : Z; e_result : option (Z * bytes) }.

Abbreviation ledger := (gmap bytes entry).

Definition clear (e : entry) : entry := {| e_epoch := e_epoch e; e_result := None |}.

Definition expire (now : Z) (e : entry) : entry :=
  match e_result e with
  | Some (until, _) => if (now <? until)%Z then e else clear e
  | None => e
  end.

Definition commit (l : ledger) (ep : Z) (key : bytes) (until : Z) (proposed : bytes) (now : Z) :
    ledger * CommitOutcome :=
  match l !! key with
  | Some e =>
      match e_result (expire now e) with
      | Some (_, p) => (l, Granted p false)
      | None => (<[key := expire now e]> l, AlreadySpent)
      end
  | None => (<[key := {| e_epoch := ep; e_result := Some (until, proposed) |}]> l,
             Granted proposed true)
  end.

Definition prune (now : Z) (l : ledger) : ledger := expire now <$> l.

(** What a failed operation may do: nothing but drop results that have expired. *)
Definition weaker (now : Z) (l' l : ledger) : Prop :=
  ∀ key, l' !! key = l !! key ∨ l' !! key = expire now <$> l !! key.

End Spec.

(** ** Faults

    What the entropy source and the disk do during one operation.  A failed append leaves
    [n] bytes of the line behind unless the rollback succeeds. *)

Inductive AppendIo :=
  | AppendSucceeds
  | MetadataFails
  | AppendFails (n : nat) (rolled_back : bool).

Inductive RewriteIo :=
  | RewriteSucceeds
  | BeforeRenameFails
  | ReopenFails
  | DirSyncFails.

Record Io := {
  io_nonce : option bytes;
  io_append : AppendIo;
  io_rewrite : RewriteIo;
}.

(** A random read fills the whole 12-byte buffer or fails. *)
Definition io_ok (io : Io) : Prop := ∀ n, io_nonce io = Some n → length n = REPLAY_NONCE_LEN.

(** ** The trait *)

Class NullifierStore (S : Type) := {
  commit_or_replay : S → Io → Z → bytes → Z → bytes → Z → S * result IoError CommitOutcome;
  prune_expired_replays : S → Io → Z → S * result IoError nat;
  approx_len : S → option nat;
  store_inv : S → Prop;
  store_ledger : S → Spec.ledger;
}.

(** What a store promises its clients.  [commit_err], that a refused commit spends nothing, is
    more than the trait's documentation asks: it holds of the memory store and of the file store,
    while [PgNullifierStore] can time out after its transaction has committed. *)
Class NullifierStoreLaws (S : Type) `{NullifierStore S} : Prop := {
  commit_ok : ∀ s io ep key until proposed now s' out,
    store_inv s → io_ok io → u32 ep → u64 until →
    commit_or_replay s io ep key until proposed now = (s', Ok out) →
    store_inv s' ∧ (store_ledger s', out) = Spec.commit (store_ledger s) ep key until proposed now;
  commit_err : ∀ s io ep key until proposed now s' e,
    store_inv s → io_ok io → u32 ep → u64 until →
    commit_or_replay s io ep key until proposed now = (s', Err e) →
    store_inv s' ∧ Spec.weaker now (store_ledger s') (store_ledger s) ∧ e ≠ Panicked;
  prune_ok : ∀ s io now s' r,
    store_inv s → prune_expired_replays s io now = (s', r) →
    store_inv s' ∧ Spec.weaker now (store_ledger s') (store_ledger s) ∧
    (is_ok r = true → store_ledger s' = Spec.prune now (store_ledger s));
}.

(** ** Operations shared by the stores *)

Section Stores.
Context `{Haead : Aead}.

Definition live_outcome (k key : bytes) (r : StoredRecord) (now : Z) (newly : bool) :
    option CommitOutcome :=
  '(until, c) ← live_ciphertext r now;
  Some (match Ledger.open k (epoch r) key until c with
        | Ok response => Granted response newly
        | Err _ => AlreadySpent
        end).

Definition cleared (r : StoredRecord) : StoredRecord :=
  {| epoch := epoch r; replay_until := None; ciphertext := None |}.

(** The loop body of both cleanups: the new record and the count it adds. *)
Definition prune_record (now : Z) (r : StoredRecord) : StoredRecord * nat :=
  match replay_until r with
  | Some until =>
      if (until <=? now)%Z
      then ({| epoch := epoch r; replay_until := None; ciphertext := None |},
            if decide (is_Some (ciphertext r)) then 1 else 0)
      else (r, 0)
  | None => (r, 0)
  end.

Definition prune_records (now : Z) (m : gmap bytes StoredRecord) :
    gmap bytes StoredRecord * nat :=
  ((λ r, (prune_record now r).1) <$> m,
   map_fold (λ _ r n, (prune_record now r).2 + n) 0 m).

Definition new_record (ep until : Z) (c : bytes) : StoredRecord :=
  {| epoch := ep; replay_until := Some until; ciphertext := Some c |}.

(** [records.retain(|_, record| retained.contains(&record.epoch))]. *)
Definition retain_epochs (retained : gset Z) (m : gmap bytes StoredRecord) :
    gmap bytes StoredRecord := filter (λ kr, epoch kr.2 ∈ retained) m.

(** ** The volatile store *)

Record MemoryNullifierStore := {
  mem_records : gmap bytes StoredRecord;
  mem_key : bytes;
  mem_partitioned : bool;
}.

Definition with_partitioning (k : bytes) (p : bool) : MemoryNullifierStore :=
  {| mem_records := ∅; mem_key := k; mem_partitioned := p |}.

Definition mem_with (s : MemoryNullifierStore) (m : gmap bytes StoredRecord) :
    MemoryNullifierStore :=
  {| mem_records := m; mem_key := mem_key s; mem_partitioned := mem_partitioned s |}.

Definition mem_commit (s : MemoryNullifierStore) (io : Io) (ep : Z) (key : bytes) (until : Z)
    (proposed : bytes) (now : Z) : MemoryNullifierStore * result IoError CommitOutcome :=
  match validate_commit key until proposed now with
  | Err e => (s, Err e)
  | Ok _ =>
      match mem_records s !! key with
      | Some existing =>
          match live_outcome (mem_key s) key existing now false with
          | Some outcome => (s, Ok outcome)
          | None => (mem_with s (<[key := cleared existing]> (mem_records s)), Ok AlreadySpent)
          end
      | None =>
          match Ledger.seal (mem_key s) (io_nonce io) ep key until proposed with
          | Err e => (s, Err e)
          | Ok c =>
              let record := new_record ep until c in
              (mem_with s (<[key := record]> (mem_records s)),
               ok_or (live_outcome (mem_key s) key record now true) Panicked)
          end
      end
  end.

Definition mem_prune (s : MemoryNullifierStore) (now : Z) :
    MemoryNullifierStore * result IoError nat :=
  let '(m, removed) := prune_records now (mem_records s) in (mem_with s m, Ok removed).

Definition mem_drop_epochs (s : MemoryNullifierStore) (retained : gset Z) :
    MemoryNullifierStore * result IoError nat :=
  if negb (mem_partitioned s) || bool_decide (retained = ∅) then (s, Ok 0)
  else
    let m := retain_epochs retained (mem_records s) in
    (mem_with s m, Ok (size (mem_records s) - size m)).

(** ** The file store *)

Inductive FileMode := Flat | Epoch.

#[global] Instance FileMode_eq_dec : EqDecision FileMode.
Proof. solve_decision. Defined.

(** [fs_content] is the image the path names, [fs_file] whether the append handle is held,
    [fs_prior] the image the directory may still name after a rename whose directory sync
    failed. *)
Record FileNullifierStore := {
  fs_records : gmap bytes StoredRecord;
  fs_content : bytes;
  fs_file : bool;
  fs_prior : option bytes;
  fs_mode : FileMode;
  fs_key : bytes;
}.

Definition fs_with (s : FileNullifierStore) (m : gmap bytes StoredRecord) (content : bytes)
    (file : bool) (prior : option bytes) : FileNullifierStore :=
  {| fs_records := m; fs_content := content; fs_file := file; fs_prior := prior;
     fs_mode := fs_mode s; fs_key := fs_key s |}.

Definition append_and_sync (file : bool) (content line : bytes) (io : AppendIo) :
    bool * bytes * result IoError unit :=
  if negb file then (file, content, Err IoFailed)
  else match io with
  | MetadataFails => (true, content, Err IoFailed)
  | AppendSucceeds => (true, content ++ line, Ok tt)
  | AppendFails n true => (true, content, Err IoFailed)
  | AppendFails n false => (false, content ++ take n line, Err IoFailed)
  end.

Definition key_le (a b : bytes * StoredRecord) : Prop := bytes_cmp a.1 b.1 ≠ Gt.

#[global] Instance key_le_dec : RelDecision key_le.
Proof. unfold key_le. intros a b. apply _. Defined.

(** The new image: every record encoded, in key order. *)
Definition encode_all (m : gmap bytes StoredRecord) : result IoError bytes :=
  lines ← result_mapM (λ kr, encode_record kr.1 kr.2) (merge_sort key_le (map_to_list m));
  Ok (concat lines).

Definition rewrite_locked (s : FileNullifierStore) (m : gmap bytes StoredRecord)
    (io : RewriteIo) : FileNullifierStore * result IoError unit :=
  match encode_all m with
  | Err e => (s, Err e)
  | Ok image =>
      match io with
      | BeforeRenameFails => (s, Err IoFailed)
      | ReopenFails => (fs_with s m image false (Some (fs_content s)), Err IoFailed)
      | DirSyncFails => (fs_with s m image true (Some (fs_content s)), Err IoFailed)
      | RewriteSucceeds => (fs_with s m image true None, Ok tt)
      end
  end.

Definition fs_prune (s : FileNullifierStore) (io : Io) (now : Z) :
    FileNullifierStore * result IoError nat :=
  let '(m, removed) := prune_records now (fs_records s) in
  if (0 <? removed)%nat then
    let '(s', r) := rewrite_locked s m (io_rewrite io) in
    (s', match r with Ok _ => Ok removed | Err e => Err e end)
  else (s, Ok removed).

Definition fs_commit (s : FileNullifierStore) (io : Io) (ep : Z) (key : bytes) (until : Z)
    (proposed : bytes) (now : Z) : FileNullifierStore * result IoError CommitOutcome :=
  match validate_commit key until proposed now with
  | Err e => (s, Err e)
  | Ok _ =>
      match fs_records s !! key with
      | Some existing =>
          match live_outcome (fs_key s) key existing now false with
          | Some outcome => (s, Ok outcome)
          | None =>
              if decide (is_Some (ciphertext existing)) then
                let '(s', r) := rewrite_locked s (<[key := cleared existing]> (fs_records s))
                                  (io_rewrite io) in
                (s', match r with Ok _ => Ok AlreadySpent | Err e => Err e end)
              else (s, Ok AlreadySpent)
          end
      | None =>
          match Ledger.seal (fs_key s) (io_nonce io) ep key until proposed with
          | Err e => (s, Err e)
          | Ok c =>
              let record := new_record ep until c in
              match encode_record key record with
              | Err e => (s, Err e)
              | Ok line =>
                  let '(file, content, r) :=
                    append_and_sync (fs_file s) (fs_content s) line (io_append io) in
                  match r with
                  | Err e => (fs_with s (fs_records s) content file (fs_prior s), Err e)
                  | Ok _ =>
                      (fs_with s (<[key := record]> (fs_records s)) content file (fs_prior s),
                       ok_or (live_outcome (fs_key s) key record now true) Panicked)
                  end
              end
          end
      end
  end.

Definition fs_drop_epochs (s : FileNullifierStore) (retained : gset Z) (io : Io) :
    FileNullifierStore * result IoError nat :=
  if negb (bool_decide (fs_mode s = Epoch)) || bool_decide (retained = ∅) then (s, Ok 0)
  else
    let m := retain_epochs retained (fs_records s) in
    let removed := size (fs_records s) - size m in
    if (0 <? removed)%nat then
      let '(s', r) := rewrite_locked s m (io_rewrite io) in
      (s', match r with Ok _ => Ok removed | Err e => Err e end)
    else (s, Ok removed).

(** [open]: recover the tail, load, fold in a legacy ledger, prune.  [content] is the image
    at the path ([None] when there is no file), [legacy] the image of a distinct, existing
    legacy ledger. *)
Definition open_store (mode : FileMode) (content legacy : option bytes) (k : bytes) (now : Z)
    (io io' : Io) : result IoError FileNullifierStore :=
  image ← truncate_unterminated_tail (default [] content);
  records ← load_records image;
  old ← match mode, legacy with
        | Epoch, Some l => load_records l
        | _, _ => Ok ∅
        end;
  let folded := negb (bool_decide (dom old ⊆ dom records)) in
  let s := {| fs_records := records ∪ old; fs_content := image; fs_file := true;
              fs_prior := None; fs_mode := mode; fs_key := k |} in
  let '(s, r) := fs_prune s io now in
  expired ← r;
  if folded && (expired =? 0)%nat then
    let '(s, r) := rewrite_locked s (fs_records s) (io_rewrite io') in
    _ ← r; Ok s
  else Ok s.

End Stores.

(** ** The ledger a store holds *)

Section Refinement.
Context `{Haead : Aead, Hlaws : !AeadLaws}.

(** A record whose ciphertext does not open is spent without a result. *)
Definition abs (k key : bytes) (r : StoredRecord) : Spec.entry := {|
  Spec.e_epoch := epoch r;
  Spec.e_result :=
    match replay_until r, ciphertext r with
    | Some until, Some c =>
        match Ledger.open k (epoch r) key until c with Ok p => Some (until, p) | Err _ => None end
    | _, _ => None
    end |}.

Definition ledger_of (k : bytes) (m : gmap bytes StoredRecord) : Spec.ledger :=
  map_imap (λ key r, Some (abs k key r)) m.

Arguments ledger_of : simpl never.
Arguments prune_records : simpl never.
Arguments Spec.prune : simpl never.

Lemma ledger_lookup k m key : ledger_of k m !! key = abs k key <$> m !! key.
Proof. unfold ledger_of. rewrite map_lookup_imap. by destruct (m !! key). Qed.

Lemma ledger_insert k m key r : ledger_of k (<[key := r]> m) = <[key := abs k key r]> (ledger_of k m).
Proof. unfold ledger_of. by rewrite map_imap_insert_Some with (y := abs k key r). Qed.

Lemma result_size_ok_iff p :
  result_size_ok p = true ↔ p ≠ [] ∧ (blen p ≤ MAX_REPLAY_RESULT_BYTES)%Z.
Proof.
  unfold result_size_ok. by rewrite andb_true_iff, negb_true_iff, bool_decide_eq_false, Z.leb_le.
Qed.

(** Sealing then opening under the same epoch, key and expiry gives the response back. *)
Lemma seal_open k nonce ep key until p c :
  (∀ n, nonce = Some n → length n = REPLAY_NONCE_LEN) →
  Ledger.seal k nonce ep key until p = Ok c →
  Ledger.open k ep key until c = Ok p ∧ c ≠ [] ∧ (blen c ≤ MAX_CIPHERTEXT_BYTES)%Z.
Proof.
  intros Hn H. unfold Ledger.seal in H. inv_ok H.
  rename select (nonce = Some _) into En. pose proof (Hn _ En) as Hl.
  rename select (aead_encrypt _ _ _ _ = _) into Ee.
  rename select (result_size_ok p = true) into Hs.
  pose proof (proj1 (result_size_ok_iff p) Hs) as [Hp Hb].
  pose proof (aead_encrypt_length _ _ _ _ _ Ee) as Hlen.
  pose proof (aead_decrypt_encrypt _ _ _ _ _ Ee) as Hd.
  assert (c = x0 ++ x1) as -> by congruence.
  assert (0 < length p) by (destruct p; [done|cbn; lia]).
  assert (Hc : blen (x0 ++ x1) = (12 + blen p + 16)%Z).
  { unfold blen. rewrite length_app, Hl, Hlen. unfold REPLAY_NONCE_LEN. lia. }
  split_and!.
  - unfold Ledger.open. rewrite Hc. unfold MAX_CIPHERTEXT_BYTES, blen in *.
    rewrite !(proj2 (Z.leb_le _ _)) by lia. cbn [andb]. rewrite ensure_true, Ok_bind.
    rewrite take_app_length', drop_app_length' by done. rewrite Hd, ok_or_Some, Ok_bind, Hs.
    by rewrite ensure_true, Ok_bind.
  - intros E. apply app_eq_nil in E as [-> _]. done.
  - rewrite Hc. unfold MAX_CIPHERTEXT_BYTES. lia.
Qed.

Lemma live_outcome_spec k key r now newly :
  record_wf r →
  match live_outcome k key r now newly with
  | Some (Granted p b) => b = newly ∧
      ∃ until, Spec.e_result (Spec.expire now (abs k key r)) = Some (until, p)
  | Some AlreadySpent => Spec.expire now (abs k key r) = abs k key r ∧
      Spec.e_result (abs k key r) = None
  | None => Spec.expire now (abs k key r) = abs k key (cleared r) ∧
      (ciphertext r = None → cleared r = r)
  end.
Proof.
  intros [_ _ Hp _]. destruct r as [ep [u|] [c|]]; cbn in Hp.
  - unfold live_outcome, live_ciphertext, abs, Spec.expire. cbn.
    destruct (now <? u)%Z eqn:E; cbn.
    + destruct (Ledger.open k ep key u c) as [p|] eqn:Eo; cbn; rewrite ?E; eauto.
    + destruct (Ledger.open k ep key u c) as [p|] eqn:Eo; cbn; rewrite ?E; by eauto.
  - destruct Hp as [Hp _]. destruct Hp; eauto. done.
  - destruct Hp as [_ Hp]. destruct Hp; eauto. done.
  - done.
Qed.

Lemma new_record_wf ep until k nonce key p c :
  (∀ n, nonce = Some n → length n = REPLAY_NONCE_LEN) → u32 ep → u64 until →
  Ledger.seal k nonce ep key until p = Ok c → record_wf (new_record ep until c).
Proof.
  intros Hn He Hu Hs. apply seal_open in Hs as (_ & ? & ?); [|done].
  split; cbn; try done; naive_solver.
Qed.

Lemma new_record_outcome ep until k nonce key p c now :
  (∀ n, nonce = Some n → length n = REPLAY_NONCE_LEN) → (now < until)%Z →
  Ledger.seal k nonce ep key until p = Ok c →
  live_outcome k key (new_record ep until c) now true = Some (Granted p true) ∧
  abs k key (new_record ep until c) = {| Spec.e_epoch := ep; Spec.e_result := Some (until, p) |}.
Proof.
  intros Hn Hu (Ho & _)%seal_open; [|done]. unfold live_outcome, live_ciphertext, abs. cbn.
  rewrite (proj2 (Z.ltb_lt _ _)) by done. cbn. by rewrite Ho.
Qed.

Lemma validate_commit_ok key until p now u :
  validate_commit key until p now = Ok u →
  validate_stored_key key = Ok tt ∧ length key = 64 ∧ (now < until)%Z.
Proof.
  unfold validate_commit. intros H. inv_ok H. reflect_bools. split_and!; try done.
  apply validate_stored_key_ok. rename select (length key = 64) into Hl. unfold blen.
  rewrite Hl. split_and!; try done. by intros ->.
Qed.

(** Replaying from a record that exists is what the specification does. *)
Lemma existing_commit k m key r ep until proposed now :
  record_wf r → m !! key = Some r →
  match live_outcome k key r now false with
  | Some out => (ledger_of k m, out) = Spec.commit (ledger_of k m) ep key until proposed now
  | None => (ledger_of k (<[key := cleared r]> m), AlreadySpent)
            = Spec.commit (ledger_of k m) ep key until proposed now
  end.
Proof.
  intros Hwf Hr. pose proof (live_outcome_spec k key r now false Hwf) as Hs.
  unfold Spec.commit. rewrite ledger_lookup, Hr. cbn [fmap option_fmap option_map].
  destruct (live_outcome k key r now false) as [[p b|]|].
  - destruct Hs as (-> & u & ->). done.
  - destruct Hs as [-> ->]. rewrite insert_id; [done|]. by rewrite ledger_lookup, Hr.
  - destruct Hs as [Hs _]. rewrite Hs, ledger_insert. done.
Qed.

Lemma fresh_commit k m key c ep until proposed nonce now :
  (∀ n, nonce = Some n → length n = REPLAY_NONCE_LEN) → (now < until)%Z →
  m !! key = None → Ledger.seal k nonce ep key until proposed = Ok c →
  (ledger_of k (<[key := new_record ep until c]> m), Granted proposed true) =
  Spec.commit (ledger_of k m) ep key until proposed now.
Proof.
  intros Hn Hu Hk Hs. destruct (new_record_outcome _ _ _ _ _ _ _ now Hn Hu Hs) as [_ Ha].
  unfold Spec.commit. by rewrite ledger_lookup, Hk, ledger_insert, Ha.
Qed.

Definition records_wf (m : gmap bytes StoredRecord) : Prop :=
  map_Forall (λ key r, record_wf r ∧ validate_stored_key key = Ok tt) m.

Lemma cleared_wf r : record_wf r → record_wf (cleared r).
Proof. intros [He _ _ _]. split; cbn; naive_solver. Qed.

(** *** Pruning *)

Lemma prune_record_abs k key now r :
  record_wf r → abs k key (prune_record now r).1 = Spec.expire now (abs k key r) ∧
  record_wf (prune_record now r).1 ∧
  ((prune_record now r).2 = 0 → (prune_record now r).1 = r).
Proof.
  intros Hwf. pose proof (rw_paired _ Hwf) as Hp.
  destruct r as [ep [u|] [c|]]; cbn in Hp; unfold prune_record; cbn [replay_until].
  - destruct (Z.leb_spec u now); cbn.
    + split_and!; [|by apply (cleared_wf {| epoch := ep; replay_until := Some u;
                                            ciphertext := Some c |})|done].
      unfold abs, Spec.expire. cbn.
      destruct (Ledger.open k ep key u c); cbn; [|done].
      by rewrite (proj2 (Z.ltb_ge _ _)).
    + split_and!; try done. unfold abs, Spec.expire. cbn.
      destruct (Ledger.open k ep key u c); cbn; [|done]. by rewrite (proj2 (Z.ltb_lt _ _)).
  - destruct Hp as [Hp _]. destruct Hp; eauto. done.
  - done.
  - done.
Qed.

Lemma prune_count_zero now m :
  (prune_records now m).2 = 0 → ∀ key r, m !! key = Some r → (prune_record now r).2 = 0.
Proof.
  unfold prune_records. cbn [snd].
  apply (map_fold_weak_ind (λ n m, n = 0 → ∀ key r, m !! key = Some r → (prune_record now r).2 = 0)).
  - intros _ key r. by rewrite lookup_empty.
  - intros i x m' n Hi IH Hz key r. rewrite lookup_insert_Some. intros [[_ <-]|[_ E]]; [lia|].
    apply (IH ltac:(lia) key r E).
Qed.

Lemma prune_records_abs k now m m' removed :
  records_wf m → prune_records now m = (m', removed) →
  ledger_of k m' = Spec.prune now (ledger_of k m) ∧ records_wf m' ∧
  (removed = 0 → m' = m).
Proof.
  intros Hwf [= <- <-]. split_and!.
  - apply map_eq. intros key. unfold Spec.prune. rewrite lookup_fmap, !ledger_lookup, lookup_fmap.
    destruct (m !! key) as [r|] eqn:E; cbn; [|done]. destruct (Hwf _ _ E) as [Hr _].
    f_equal. by apply prune_record_abs.
  - intros key r. rewrite lookup_fmap. intros (r' & E & ->)%fmap_Some.
    destruct (Hwf _ _ E). split; [|done]. by apply (prune_record_abs k key).
  - intros Hz. apply map_eq. intros key. rewrite lookup_fmap.
    destruct (m !! key) as [r|] eqn:E; cbn; [|done]. f_equal. destruct (Hwf _ _ E) as [Hr _].
    apply (prune_record_abs k key now r Hr). by apply (prune_count_zero now m Hz key).
Qed.

Lemma weaker_refl now l : Spec.weaker now l l.
Proof. intros key. by left. Qed.

Lemma weaker_prune now l : Spec.weaker now (Spec.prune now l) l.
Proof. intros key. right. unfold Spec.prune. by rewrite lookup_fmap. Qed.

(** *** The volatile store implements the trait *)

#[global] Instance memory_store : NullifierStore MemoryNullifierStore := {|
  commit_or_replay := mem_commit;
  prune_expired_replays := λ s _ now, mem_prune s now;
  approx_len := λ s, Some (size (mem_records s));
  store_inv := λ s, records_wf (mem_records s);
  store_ledger := λ s, ledger_of (mem_key s) (mem_records s);
|}.

Lemma records_wf_insert m key r :
  records_wf m → record_wf r → validate_stored_key key = Ok tt → records_wf (<[key := r]> m).
Proof. intros. by apply map_Forall_insert_2. Qed.

Lemma validate_commit_total key until p now : validate_commit key until p now ≠ Err Panicked.
Proof. unfold validate_commit. intros H. by inv_err H. Qed.

Lemma seal_total k nonce ep key until p : Ledger.seal k nonce ep key until p ≠ Err Panicked.
Proof. unfold Ledger.seal. intros H. by inv_err H. Qed.

Lemma encode_record_total key r : encode_record key r ≠ Err Panicked.
Proof.
  unfold encode_record, validate_stored_key. intros H. inv_err H; try done.
  by destruct (replay_until r), (ciphertext r).
Qed.

(** Every branch of the volatile commit, against the specification. *)
Lemma mem_commit_spec s io ep key until proposed now s' res :
  records_wf (mem_records s) → io_ok io → u32 ep → u64 until →
  mem_commit s io ep key until proposed now = (s', res) →
  mem_key s' = mem_key s ∧ records_wf (mem_records s') ∧
  match res with
  | Ok out => (ledger_of (mem_key s) (mem_records s'), out) =
              Spec.commit (ledger_of (mem_key s) (mem_records s)) ep key until proposed now
  | Err e => s' = s ∧ e ≠ Panicked
  end.
Proof.
  intros Hwf Hio He Hu. unfold mem_commit.
  destruct (validate_commit key until proposed now) as [u|e] eqn:Ev.
  2:{ intros [= <- <-]. split_and!; try done. intros ->. by eapply validate_commit_total. }
  apply validate_commit_ok in Ev as (Hk & _ & Hn).
  destruct (mem_records s !! key) as [r|] eqn:Er.
  - destruct (Hwf _ _ Er) as [Hr _].
    pose proof (existing_commit (mem_key s) _ _ _ ep until proposed now Hr Er) as Hs.
    destruct (live_outcome _ _ _ _ _) as [out|]; intros [= <- <-]; cbn; split_and!; try done.
    apply records_wf_insert; [done|by apply cleared_wf|done].
  - destruct (Ledger.seal _ _ _ _ _ _) as [c|e] eqn:Es.
    + destruct (new_record_outcome _ _ _ _ _ _ _ now Hio Hn Es) as [-> _].
      intros [= <- <-]. cbn. split_and!; try done.
      * apply records_wf_insert; [done|by eapply new_record_wf|done].
      * by eapply fresh_commit.
    + intros [= <- <-]. split_and!; try done. intros ->. by eapply seal_total.
Qed.

#[global] Instance memory_store_laws : NullifierStoreLaws MemoryNullifierStore.
Proof.
  split; cbn.
  - intros * Hinv Hio He Hu H. destruct (mem_commit_spec _ _ _ _ _ _ _ _ _ Hinv Hio He Hu H)
      as (-> & ? & ?). done.
  - intros * Hinv Hio He Hu H. destruct (mem_commit_spec _ _ _ _ _ _ _ _ _ Hinv Hio He Hu H)
      as (_ & ? & -> & ?). split_and!; try done. apply weaker_refl.
  - intros s io now s' r Hinv H. unfold mem_prune in H.
    destruct (prune_records now (mem_records s)) as [m removed] eqn:E. injection H as <- <-.
    apply (prune_records_abs (mem_key s)) in E as (E & ? & _); [|done].
    cbn. rewrite E. split_and!; try done. apply weaker_prune.
Qed.

(** *** The file store *)

(** The image is complete lines that load to at least the records held in memory, then
    possibly a fragment left by a failed rollback; while the append handle is held there is
    no fragment and the image loads to exactly the records. *)
Definition image_of (m : gmap bytes StoredRecord) (file : bool) (content : bytes) : Prop :=
  ∃ base frag m', content = base ++ frag ∧ complete base ∧ LF ∉ frag ∧
    (blen frag < MAX_RECORD_LINE_BYTES)%Z ∧ load_from ∅ base = Ok m' ∧ m ⊆ m' ∧
    records_wf m' ∧ (file = true → frag = [] ∧ m' = m).

Definition file_inv (s : FileNullifierStore) : Prop :=
  records_wf (fs_records s) ∧ image_of (fs_records s) (fs_file s) (fs_content s).

Lemma image_of_exact m file content :
  records_wf m → complete content → load_from ∅ content = Ok m → image_of m file content.
Proof.
  intros Hwf Hc Hl. exists content, [], m. rewrite app_nil_r. split_and!; try done.
  by intros ?%elem_of_nil.
Qed.

(** A rewritten image loads to exactly the records it was written from. *)
Lemma encode_all_spec m :
  records_wf m →
  ∃ image, encode_all m = Ok image ∧ complete image ∧ load_from ∅ image = Ok m.
Proof.
  intros Hwf. unfold encode_all. set (l := merge_sort key_le (map_to_list m)).
  assert (Hl : l ≡ₚ map_to_list m) by apply merge_sort_Permutation.
  assert (Hall : Forall (λ kr, record_wf kr.2 ∧ validate_stored_key kr.1 = Ok tt) l).
  { rewrite Hl. apply Forall_forall. intros [k r] Hin%elem_of_map_to_list. by apply Hwf. }
  assert (Hm : result_mapM (λ kr, encode_record kr.1 kr.2) l
               = Ok ((λ kr, line_text kr.1 kr.2 ++ [LF]) <$> l)).
  { apply result_mapM_Ok, Forall2_fmap_r, Forall2_same_length_lookup_2; [done|].
    intros i x y Hx Hy. assert (x = y) as <- by congruence.
    destruct (proj1 (Forall_lookup _ _) Hall i x Hx). by apply encode_record_succeeds. }
  rewrite Hm, Ok_bind. eexists. split; [done|].
  apply result_mapM_Ok in Hm. assert (Hw : Forall (λ kr, record_wf kr.2) l).
  { eapply Forall_impl; [exact Hall|]. naive_solver. }
  destruct (load_encoded_list l _ ∅ Hw Hm) as [-> Hc].
  split; [done|]. rewrite add_first_fold.
  - rewrite right_id_L by apply _. f_equal. symmetry. apply list_to_map_flip. by rewrite Hl.
  - rewrite Hl. apply NoDup_fst_map_to_list.
  - intros k _. apply lookup_empty.
Qed.

Lemma rewrite_locked_spec s m io s' res :
  file_inv s → records_wf m → rewrite_locked s m io = (s', res) →
  file_inv s' ∧ fs_key s' = fs_key s ∧ fs_mode s' = fs_mode s ∧
  match res with
  | Ok _ => fs_records s' = m ∧ fs_file s' = true ∧ fs_prior s' = None
  | Err e => e = IoFailed ∧ (s' = s ∨ fs_records s' = m) ∧ io ≠ RewriteSucceeds
  end.
Proof.
  intros Hinv Hm. unfold rewrite_locked.
  destruct (encode_all_spec m Hm) as (image & -> & Hc & Hl).
  assert (Hi : ∀ file prior, file_inv (fs_with s m image file prior)).
  { intros. split; [done|]. by apply image_of_exact. }
  destruct io; intros [= <- <-]; cbn; auto 10.
Qed.

(** Appending to the image: whatever happens, the invariant holds for the records that
    were acknowledged. *)
Lemma append_spec m content key r line io file' content' res :
  image_of m true content → records_wf m → m !! key = None → record_wf r →
  encode_record key r = Ok line →
  append_and_sync true content line io = (file', content', res) →
  match res with
  | Ok _ => file' = true ∧ image_of (<[key := r]> m) true content'
  | Err e => e = IoFailed ∧ image_of m file' content'
  end.
Proof.
  intros (base & frag & m' & -> & Hc & Hn & Hb & Hl & Hsub & Hwf' & Hex) Hwf Hk Hr He.
  destruct (Hex eq_refl) as [-> ->]. rewrite app_nil_r in *.
  pose proof (encode_record_ok _ _ _ Hr He) as (Hline & Hlen & Hkey).
  assert (Hnew : records_wf (<[key := r]> m)) by by apply records_wf_insert.
  assert (Hfull : complete (base ++ line) ∧ load_from ∅ (base ++ line) = Ok (<[key := r]> m)).
  { destruct (load_append base m key r line [] Hc Hl Hr He) as [E Hcc].
    rewrite app_nil_r in E. split; [done|]. rewrite E.
    change (load_from (add_first m key r) []) with (@Ok IoError _ (add_first m key r)).
    unfold add_first. by rewrite decide_False by (rewrite Hk; by intros [? ?]). }
  destruct Hfull as [Hfc Hfl].
  unfold append_and_sync. cbn [negb]. destruct io as [| |n []]; intros [= <- <- <-].
  - split; [done|]. by apply image_of_exact.
  - split; [done|]. by apply image_of_exact.
  - split; [done|]. by apply image_of_exact.
  - split; [done|]. destruct (Nat.le_gt_cases (length line) n) as [Hge|Hlt].
    + rewrite take_ge by done. exists (base ++ line), [], (<[key := r]> m).
      rewrite app_nil_r. split_and!; try done. by apply insert_subseteq.
    + destruct (load_line_encoded m key r line Hr He) as (text & -> & Ht & _).
      exists base, (take n (text ++ [LF])), m. unfold blen in *.
      rewrite length_app in Hlt, Hlen. cbn [length] in Hlt, Hlen.
      rewrite take_app_le by lia. split_and!; try done.
      * intros Hin. apply Ht. by apply (subseteq_take n).
      * rewrite length_take. lia.
Qed.

Definition fs_ledger (s : FileNullifierStore) : Spec.ledger :=
  ledger_of (fs_key s) (fs_records s).

(** Clearing one expired record is within what a failed operation may do. *)
Lemma cleared_weaker k m key r now :
  record_wf r → m !! key = Some r → live_outcome k key r now false = None →
  Spec.weaker now (ledger_of k (<[key := cleared r]> m)) (ledger_of k m).
Proof.
  intros Hwf Hr Hl key'. rewrite ledger_insert.
  destruct (decide (key = key')) as [<-|Hne].
  - right. rewrite lookup_insert_eq, ledger_lookup, Hr. cbn.
    pose proof (live_outcome_spec k key r now false Hwf) as Hs. rewrite Hl in Hs.
    by destruct Hs as [-> _].
  - left. by rewrite lookup_insert_ne.
Qed.

Lemma fs_commit_spec s io ep key until proposed now s' res :
  file_inv s → io_ok io → u32 ep → u64 until →
  fs_commit s io ep key until proposed now = (s', res) →
  fs_key s' = fs_key s ∧ fs_mode s' = fs_mode s ∧ file_inv s' ∧
  match res with
  | Ok out => (fs_ledger s', out) = Spec.commit (fs_ledger s) ep key until proposed now
  | Err e => Spec.weaker now (fs_ledger s') (fs_ledger s) ∧ e ≠ Panicked
  end.
Proof.
  intros Hinv Hio He Hu. unfold fs_commit.
  destruct (validate_commit key until proposed now) as [u|e] eqn:Ev.
  2:{ intros [= <- <-]. split_and!; try done; [apply weaker_refl|].
      intros ->. by eapply validate_commit_total. }
  apply validate_commit_ok in Ev as (Hk & _ & Hn). pose proof Hinv as [Hwf Himg].
  destruct (fs_records s !! key) as [r|] eqn:Er.
  - destruct (Hwf _ _ Er) as [Hr _].
    pose proof (existing_commit (fs_key s) _ _ _ ep until proposed now Hr Er) as Hs.
    destruct (live_outcome _ _ _ _ _) as [out|] eqn:El; [by intros [= <- <-]|].
    case_decide as Hct.
    + destruct (rewrite_locked s _ _) as [s1 r1] eqn:Erw. intros [= <- <-].
      apply rewrite_locked_spec in Erw as (Hinv1 & Hkey & Hmode & Hres); [|done|].
      2:{ apply records_wf_insert; [done|by apply cleared_wf|done]. }
      split_and!; try done. unfold fs_ledger. rewrite Hkey. destruct r1 as [|e].
      * destruct Hres as [-> _]. done.
      * destruct Hres as (-> & [->| ->] & _); split; try done; [apply weaker_refl|].
        by apply cleared_weaker.
    + intros [= <- <-]. split_and!; try done. unfold fs_ledger. rewrite <- Hs.
      pose proof (live_outcome_spec (fs_key s) key r now false Hr) as Hc. rewrite El in Hc.
      rewrite (proj2 Hc) by (by apply eq_None_not_Some). by rewrite insert_id.
  - destruct (Ledger.seal _ _ _ _ _ _) as [c|e] eqn:Es.
    2:{ intros [= <- <-]. split_and!; try done; [apply weaker_refl|].
        intros ->. by eapply seal_total. }
    assert (Hr : record_wf (new_record ep until c)) by by eapply new_record_wf.
    destruct (encode_record key (new_record ep until c)) as [line|e] eqn:Een.
    2:{ by rewrite encode_record_succeeds in Een. }
    destruct (fs_file s) eqn:Ef.
    2:{ intros [= <- <-]. assert (Hsame : fs_with s (fs_records s) (fs_content s) false (fs_prior s) = s).
        { destruct s. cbn in *. by subst. }
        cbn [negb] in *. rewrite Hsame. split_and!; try done. apply weaker_refl. }
    destruct (append_and_sync _ _ _ _) as [[file' content'] ra] eqn:Ea.
    eapply append_spec in Ea; [|done..]. destruct ra as [|e].
    + destruct Ea as [-> Himg'].
      destruct (new_record_outcome _ _ _ _ _ _ _ now Hio Hn Es) as [-> _].
      intros [= <- <-]. split_and!; try done.
      * split; [|done]. by apply records_wf_insert.
      * by eapply fresh_commit.
    + destruct Ea as [-> Himg']. intros [= <- <-]. split_and!; try done. apply weaker_refl.
Qed.

Lemma fs_prune_spec s io now s' res :
  file_inv s → fs_prune s io now = (s', res) →
  fs_key s' = fs_key s ∧ fs_mode s' = fs_mode s ∧ file_inv s' ∧
  Spec.weaker now (fs_ledger s') (fs_ledger s) ∧
  (is_ok res = true → fs_ledger s' = Spec.prune now (fs_ledger s)).
Proof.
  intros Hinv. pose proof Hinv as [Hwf _]. unfold fs_prune.
  destruct (prune_records now (fs_records s)) as [m removed] eqn:Ep.
  apply (prune_records_abs (fs_key s)) in Ep as (Hl & Hwf' & Hz); [|done].
  destruct (Nat.ltb_spec 0 removed).
  - destruct (rewrite_locked s m (io_rewrite io)) as [s1 r1] eqn:Erw. intros [= <- <-].
    apply rewrite_locked_spec in Erw as (Hinv1 & Hkey & Hmode & Hres); [|done..].
    unfold fs_ledger. rewrite Hkey. split_and!; try done; destruct r1 as [|e]; try done.
    + destruct Hres as [-> _]. rewrite Hl. apply weaker_prune.
    + destruct Hres as (_ & [->| ->] & _); [apply weaker_refl|]. rewrite Hl. apply weaker_prune.
    + by destruct Hres as [-> _].
  - intros [= <- <-]. split_and!; try done; [apply weaker_refl|]. intros _.
    unfold fs_ledger. rewrite <- Hl. by rewrite Hz by lia.
Qed.

#[global] Instance file_store : NullifierStore FileNullifierStore := {|
  commit_or_replay := fs_commit;
  prune_expired_replays := fs_prune;
  approx_len := λ s, Some (size (fs_records s));
  store_inv := file_inv;
  store_ledger := fs_ledger;
|}.

#[global] Instance file_store_laws : NullifierStoreLaws FileNullifierStore.
Proof.
  split.
  - intros s io ep key until p now s' out Hinv Hio He Hu H.
    by apply fs_commit_spec in H as (_ & _ & ? & ?).
  - intros s io ep key until p now s' e Hinv Hio He Hu H.
    by apply fs_commit_spec in H as (_ & _ & ? & ? & ?).
  - intros s io now s' r Hinv H. by apply fs_prune_spec in H as (_ & _ & ? & ? & ?).
Qed.

End Refinement.

(** ** Histories over any store *)

Section History.
Context {S : Type} `{Hstore : NullifierStore S, Hslaws : !NullifierStoreLaws S}.

Inductive Op :=
  | Commit (io : Io) (ep : Z) (key : bytes) (until : Z) (proposed : bytes) (now : Z)
  | Prune (io : Io) (now : Z).

Definition op_ok (o : Op) : Prop :=
  match o with
  | Commit io ep _ until _ _ => io_ok io ∧ u32 ep ∧ u64 until
  | Prune _ _ => True
  end.

Definition op_time (o : Op) : Z := match o with Commit _ _ _ _ _ now => now | Prune _ now => now end.

Definition run_op (s : S) (o : Op) : S :=
  match o with
  | Commit io ep key until proposed now => (commit_or_replay s io ep key until proposed now).1
  | Prune io now => (prune_expired_replays s io now).1
  end.

Definition run (s : S) (ops : list Op) : S := foldl run_op s ops.

(** The key is spent, and if a result is still there it is [p]. *)
Definition spent_with (key p : bytes) (l : Spec.ledger) : Prop :=
  ∃ e, l !! key = Some e ∧ ∀ until q, Spec.e_result e = Some (until, q) → q = p.

Lemma expire_result now e until q :
  Spec.e_result (Spec.expire now e) = Some (until, q) → Spec.e_result e = Some (until, q).
Proof.
  unfold Spec.expire. destruct (Spec.e_result e) as [[u p]|] eqn:E; [|congruence].
  case_match; [congruence|done].
Qed.

Lemma expire_live now e until q :
  Spec.e_result e = Some (until, q) → (now < until)%Z → Spec.expire now e = e.
Proof. intros E Hn. unfold Spec.expire. by rewrite E, (proj2 (Z.ltb_lt _ _)). Qed.

Lemma spent_weaker now key p l l' :
  Spec.weaker now l' l → spent_with key p l → spent_with key p l'.
Proof.
  intros Hw (e & He & Hp). destruct (Hw key) as [E|E]; rewrite He in E; [by exists e|].
  exists (Spec.expire now e). split; [done|]. intros u q Hq%expire_result. eauto.
Qed.

(** One commit of any key: what it leaves for a key already spent. *)
Lemma commit_other l ep key key' until q now l' out e :
  Spec.commit l ep key' until q now = (l', out) → l !! key = Some e →
  l' !! key = Some e ∨ l' !! key = Some (Spec.expire now e).
Proof.
  unfold Spec.commit. destruct (decide (key' = key)) as [->|Hne].
  - intros H1 He. rewrite He in H1.
    destruct (Spec.e_result (Spec.expire now e)) as [[]|]; injection H1 as <- <-; [by left|].
    right. apply lookup_insert_eq.
  - intros H1 He. left. repeat case_match; injection H1 as <- <-; try done;
      by rewrite lookup_insert_ne.
Qed.

Lemma run_op_keeps s o key e :
  store_inv s → op_ok o → store_ledger s !! key = Some e →
  store_inv (run_op s o) ∧
  (store_ledger (run_op s o) !! key = Some e ∨
   store_ledger (run_op s o) !! key = Some (Spec.expire (op_time o) e)).
Proof.
  intros Hinv Hop He.
  assert (W : ∀ now l', Spec.weaker now l' (store_ledger s) →
    l' !! key = Some e ∨ l' !! key = Some (Spec.expire now e)).
  { intros now l' Hw. destruct (Hw key) as [E|E]; rewrite He in E; auto. }
  destruct o as [io ep key' until q now|io now]; cbn [run_op op_time].
  - destruct Hop as (Hio & Hep & Hu).
    destruct (commit_or_replay s io ep key' until q now) as [s' [out|err]] eqn:E; cbn.
    + apply commit_ok in E as [Hinv' E]; [|done..]. split; [done|].
      symmetry in E. by eapply commit_other.
    + apply commit_err in E as (Hinv' & Hw & _); [|done..]. auto.
  - destruct (prune_expired_replays s io now) as [s' r] eqn:E; cbn.
    apply prune_ok in E as (Hinv' & Hw & _); [|done]. auto.
Qed.

Lemma run_keeps ops s key p :
  store_inv s → Forall op_ok ops → spent_with key p (store_ledger s) →
  store_inv (run s ops) ∧ spent_with key p (store_ledger (run s ops)).
Proof.
  revert s. induction ops as [|o ops IH]; intros s Hinv Hok Hs; [done|].
  inversion Hok as [|?? Ho Hok']; subst. destruct Hs as (e & He & Hp). cbn [run foldl].
  destruct (run_op_keeps s o key e Hinv Ho He) as [Hinv' [E|E]]; apply IH; try done;
    [by exists e|]. exists (Spec.expire (op_time o) e). split; [done|].
  intros u q Hq%expire_result. eauto.
Qed.

Lemma run_keeps_live ops s key until p e :
  store_inv s → Forall op_ok ops → Forall (λ o, (op_time o < until)%Z) ops →
  store_ledger s !! key = Some e → Spec.e_result e = Some (until, p) →
  store_ledger (run s ops) !! key = Some e.
Proof.
  revert s. induction ops as [|o ops IH]; intros s Hinv Hok Ht He Hp; [done|].
  inversion Hok as [|?? Ho Hok']; inversion Ht as [|?? Ht1 Ht']; subst. cbn [run foldl].
  destruct (run_op_keeps s o key e Hinv Ho He) as [Hinv' E].
  rewrite (expire_live _ _ _ _ Hp Ht1) in E. apply IH; try done. by destruct E.
Qed.

Lemma commit_spent s io ep key until q now s' out p :
  store_inv s → op_ok (Commit io ep key until q now) → spent_with key p (store_ledger s) →
  commit_or_replay s io ep key until q now = (s', Ok out) →
  out = Granted p false ∨ out = AlreadySpent.
Proof.
  intros Hinv (Hio & Hep & Hu) (e & He & Hp) H1.
  apply commit_ok in H1 as [_ H1]; [|done..]. unfold Spec.commit in H1. rewrite He in H1.
  destruct (Spec.e_result (Spec.expire now e)) as [[u r]|] eqn:E; injection H1 as _ ->; [|auto].
  left. by rewrite (Hp u r) by (by apply expire_result in E).
Qed.

Lemma commit_fresh s io ep key until q now s' p :
  store_inv s → op_ok (Commit io ep key until q now) →
  commit_or_replay s io ep key until q now = (s', Ok (Granted p true)) →
  p = q ∧ store_inv s' ∧ store_ledger s !! key = None ∧
  store_ledger s' !! key = Some {| Spec.e_epoch := ep; Spec.e_result := Some (until, p) |}.
Proof.
  intros Hinv (Hio & Hep & Hu) H1. apply commit_ok in H1 as [Hinv' H1]; [|done..].
  unfold Spec.commit in H1. destruct (store_ledger s !! key) as [e|] eqn:E.
  - by destruct (Spec.e_result _) as [[]|].
  - injection H1 as Hl ->. split_and!; try done. rewrite Hl. apply lookup_insert_eq.
Qed.

End History.

(** ** Opening a ledger *)

Section Opening.
Context `{Haead : Aead, Hlaws : !AeadLaws}.

Lemma rewrite_locked_ok s m io s' :
  records_wf m → rewrite_locked s m io = (s', Ok tt) →
  file_inv s' ∧ fs_records s' = m ∧ fs_key s' = fs_key s ∧ fs_mode s' = fs_mode s.
Proof.
  intros Hm. unfold rewrite_locked. destruct (encode_all_spec m Hm) as (image & -> & Hc & Hl).
  destruct io; intros [= <-]. cbn. split_and!; try done. split; [done|].
  by apply image_of_exact.
Qed.

Lemma rewrite_locked_succeeds s m :
  records_wf m → ∃ s', rewrite_locked s m RewriteSucceeds = (s', Ok tt).
Proof.
  intros Hm. unfold rewrite_locked. destruct (encode_all_spec m Hm) as (image & -> & _). eauto.
Qed.

Lemma load_records_wf content m : load_records content = Ok m → records_wf m.
Proof. intros H1. apply (load_from_wf content ∅ m H1), map_Forall_empty. Qed.

(** What an opened ledger holds: the records of the recovered image, then those of the
    legacy ledger that are not in it, with expired results dropped. *)
Lemma open_store_spec mode content legacy k now io io' s :
  open_store mode content legacy k now io io' = Ok s →
  ∃ image records old,
    truncate_unterminated_tail (default [] content) = Ok image ∧
    load_records image = Ok records ∧
    match mode, legacy with Epoch, Some l => load_records l = Ok old | _, _ => old = ∅ end ∧
    file_inv s ∧ fs_key s = k ∧ fs_mode s = mode ∧
    fs_ledger s = Spec.prune now (ledger_of k (records ∪ old)).
Proof.
  unfold open_store. intros H1. apply bind_Ok in H1 as (image & Ht & H1).
  apply bind_Ok in H1 as (records & Hl & H1). apply bind_Ok in H1 as (old & Ho & H1).
  exists image, records, old. split; [done|]. split; [done|].
  assert (Hw : records_wf records) by by eapply load_records_wf.
  assert (Hwo : records_wf old).
  { destruct mode, legacy; try (injection Ho as <-; apply map_Forall_empty).
    by eapply load_records_wf. }
  assert (Hwu : records_wf (records ∪ old)) by by apply map_Forall_union_2.
  split; [destruct mode, legacy; congruence|].
  unfold fs_prune in H1. cbn [fs_records] in H1.
  destruct (prune_records now (records ∪ old)) as [m removed] eqn:Ep.
  apply (prune_records_abs k) in Ep as (Hled & Hwm & Hz); [|done]. rewrite <- Hled.
  destruct (Nat.ltb_spec 0 removed).
  - destruct (rewrite_locked _ m _) as [s1 r1] eqn:Erw. destruct r1 as [[]|]; [|done].
    rewrite Ok_bind, (proj2 (Nat.eqb_neq _ _)), andb_false_r in H1 by lia.
    injection H1 as <-. apply rewrite_locked_ok in Erw as (? & Hr & Hk & ?); [|done].
    unfold fs_ledger. rewrite Hr, Hk. done.
  - rewrite Hz in * by lia. rewrite Ok_bind, (proj2 (Nat.eqb_eq removed 0)), andb_true_r in H1
      by lia.
    case_bool_decide as Hsub; cbn [negb] in H1.
    + injection H1 as <-. assert (records ∪ old = records) as Hu.
      { apply map_eq. intros key. apply option_eq. intros r. rewrite lookup_union_Some_raw.
        split; [|by left]. intros [?|[Hn Hin]]; [done|].
        apply elem_of_dom_2, Hsub, elem_of_dom in Hin. rewrite Hn in Hin. by destruct Hin. }
      rewrite Hu. split_and!; try done. split; [done|]. cbn [fs_records fs_file fs_content].
      apply truncate_spec in Ht as [Hc _]. by apply image_of_exact.
    + destruct (rewrite_locked _ _ _) as [s1 r1] eqn:Erw. destruct r1 as [[]|]; [|done].
      rewrite Ok_bind in H1. injection H1 as <-. cbn [fs_records] in Erw.
      apply rewrite_locked_ok in Erw as (? & Hr & Hk & ?); [|done].
      unfold fs_ledger. rewrite Hr, Hk. done.
Qed.

(** Opening the image a store left behind loses nothing. *)
Lemma reopened_keeps s now io io' s' :
  file_inv s → open_store (fs_mode s) (Some (fs_content s)) None (fs_key s) now io io' = Ok s' →
  file_inv s' ∧ fs_key s' = fs_key s ∧ fs_mode s' = fs_mode s ∧
  ∀ key e, fs_ledger s !! key = Some e → fs_ledger s' !! key = Some (Spec.expire now e).
Proof.
  intros [Hwf (base & frag & m & Hcont & Hc & Hn & Hb & Hl & Hsub & Hwm & _)] Hopen.
  apply open_store_spec in Hopen as (image & records & old & Ht & Hr & Ho & Hinv' & Hk & Hmode & Hled).
  change (default [] (Some (fs_content s))) with (fs_content s) in Ht. rewrite Hcont, truncate_torn in Ht by done.
  assert (image = base) as -> by congruence.
  change (load_records base) with (load_from ∅ base) in Hr. assert (records = m) as -> by congruence.
  assert (old = ∅) as -> by by destruct (fs_mode s). rewrite right_id_L in Hled by apply _.
  split_and!; try done. intros key e. unfold fs_ledger in Hled |- *. rewrite ledger_lookup.
  intros (r & E & ->)%fmap_Some. rewrite Hled. unfold Spec.prune.
  rewrite lookup_fmap, ledger_lookup, (lookup_weaken _ _ _ _ E Hsub). done.
Qed.

(** It succeeds if the disk does. *)
Lemma reopen_spec s now io io' :
  file_inv s → io_rewrite io = RewriteSucceeds → io_rewrite io' = RewriteSucceeds →
  ∃ s', open_store (fs_mode s) (Some (fs_content s)) None (fs_key s) now io io' = Ok s' ∧
    file_inv s' ∧ fs_key s' = fs_key s ∧
    ∀ key e, fs_ledger s !! key = Some e → fs_ledger s' !! key = Some (Spec.expire now e).
Proof.
  intros Hinv Hio Hio'. pose proof Hinv as [Hwf (base & frag & m & Hcont & Hc & Hn & Hb & Hl & Hsub & Hwm & _)].
  assert (Hopen : ∃ s', open_store (fs_mode s) (Some (fs_content s)) None (fs_key s) now io io'
                        = Ok s').
  { unfold open_store. change (default [] (Some (fs_content s))) with (fs_content s).
    rewrite Hcont, truncate_torn, Ok_bind by done.
    change (load_records base) with (load_from ∅ base). rewrite Hl, Ok_bind.
    replace (match fs_mode s with Flat => _ | Epoch => _ end)
      with (@Ok IoError (gmap bytes StoredRecord) ∅) by by destruct (fs_mode s).
    rewrite Ok_bind, dom_empty_L. rewrite bool_decide_true by set_solver. cbn [negb andb].
    unfold fs_prune. cbn [fs_records]. rewrite right_id_L by apply _.
    destruct (prune_records now m) as [m1 removed] eqn:Ep.
    apply (prune_records_abs (fs_key s)) in Ep as (_ & Hw1 & _); [|done].
    destruct (0 <? removed)%nat; [|by eexists]. rewrite Hio.
    match goal with |- context [rewrite_locked ?x m1 _] =>
      destruct (rewrite_locked_succeeds x m1 Hw1) as [s' ->] end. by eexists. }
  destruct Hopen as [s' Hopen]. exists s'. split; [done|].
  destruct (reopened_keeps _ _ _ _ _ Hinv Hopen) as (? & ? & _ & ?). auto.
Qed.

End Opening.

(** ** Theorems *)

Section Theorems.
Context {S : Type} `{Hstore : NullifierStore S, Hslaws : !NullifierStoreLaws S}.

(** In any store that keeps the trait's promises: after a commit granted a response as new, and
    after any history of further commits and cleanups, a commit of the same key replays that
    response or reports the token spent, and replays it while no operation is dated past the
    deadline. *)
Lemma spent_once s io ep key until q now s1 p ops io' ep' until' q' now' s2 out :
  store_inv s → op_ok (Commit io ep key until q now) → Forall op_ok ops →
  op_ok (Commit io' ep' key until' q' now') →
  commit_or_replay s io ep key until q now = (s1, Ok (Granted p true)) →
  commit_or_replay (run s1 ops) io' ep' key until' q' now' = (s2, Ok out) →
  p = q ∧ (out = Granted p false ∨ out = AlreadySpent) ∧
  (Forall (λ o, (op_time o < until)%Z) ops → (now' < until)%Z → out = Granted p false).
Proof.
  intros Hinv Hop Hops Hop' H1 H2.
  destruct (commit_fresh _ _ _ _ _ _ _ _ _ Hinv Hop H1) as (-> & Hinv1 & _ & He).
  assert (Hs : spent_with key q (store_ledger s1)).
  { eexists. split; [exact He|]. cbn. congruence. }
  destruct (run_keeps ops s1 key q Hinv1 Hops Hs) as [Hinv2 Hs2].
  split_and!; [done|by eapply commit_spent|]. intros Ht Hn.
  pose proof (run_keeps_live ops s1 key until q _ Hinv1 Hops Ht He eq_refl) as He2.
  destruct Hop' as (Hio & Hep & Hu). apply commit_ok in H2 as [_ H2]; [|done..].
  unfold Spec.commit in H2. rewrite He2 in H2.
  rewrite (expire_live _ _ until q) in H2 by done. cbn in H2. congruence.
Qed.

End Theorems.

Section FileTheorems.
Context `{Haead : Aead, Hlaws : !AeadLaws}.

Definition no_rename_in_doubt (o : Op) : Prop :=
  match o with
  | Commit io _ _ _ _ _ | Prune io _ =>
      io_rewrite io = RewriteSucceeds ∨ io_rewrite io = BeforeRenameFails
  end.

(** The images the path may name after a crash. *)
Definition crash_images (s : FileNullifierStore) : list bytes :=
  fs_content s :: option_list (fs_prior s).

Lemma rewrite_locked_prior s m io s' r :
  rewrite_locked s m io = (s', r) → fs_prior s = None →
  io = RewriteSucceeds ∨ io = BeforeRenameFails → fs_prior s' = None.
Proof.
  unfold rewrite_locked. destruct (encode_all m); [|by intros [= <- <-]].
  intros H1 Hp [->| ->]; by injection H1 as <- <-.
Qed.

Lemma run_op_prior s o :
  fs_prior s = None → no_rename_in_doubt o → fs_prior (run_op s o) = None.
Proof.
  intros Hp Ho. destruct o as [io ep key until q now|io now]; cbn [run_op commit_or_replay
    prune_expired_replays file_store no_rename_in_doubt] in *.
  - unfold fs_commit. destruct (validate_commit _ _ _ _); [|done].
    destruct (fs_records s !! key) as [r|].
    + destruct (live_outcome _ _ _ _ _); [done|]. case_decide; [|done].
      destruct (rewrite_locked _ _ _) as [s1 r1] eqn:E. by eapply rewrite_locked_prior.
    + destruct (Ledger.seal _ _ _ _ _ _); [|done]. destruct (encode_record _ _); [|done].
      by destruct (append_and_sync _ _ _ _) as [[? ?] []].
  - unfold fs_prune. destruct (prune_records _ _). case_match; [|done].
    destruct (rewrite_locked _ _ _) as [s1 r1] eqn:E. by eapply rewrite_locked_prior.
Qed.

Lemma run_prior ops s :
  fs_prior s = None → Forall no_rename_in_doubt ops → fs_prior (run s ops) = None.
Proof.
  revert s. induction ops as [|o ops IH]; intros s Hp Ho; [done|].
  inversion Ho; subst. cbn [run foldl]. apply IH; [|done]. by apply run_op_prior.
Qed.

(** *** The life of a ledger file

    A step is one operation, with any faults of the entropy source and of the disk, or a restart.
    A restart opens the file the path names: the process was killed, or the power failed and did
    not undo a rename whose directory sync had failed. *)
Inductive LifeStep :=
  | Do (o : Op)
  | Restart (t : Z) (iop iop' : Io).

Definition step_time (x : LifeStep) : Z := match x with Do o => op_time o | Restart t _ _ => t end.

Definition fs_step (s : FileNullifierStore) (x : LifeStep) (s' : FileNullifierStore) : Prop :=
  match x with
  | Do o => op_ok o ∧ s' = run_op s o
  | Restart t iop iop' => open_store (fs_mode s) (Some (fs_content s)) None (fs_key s) t iop iop' = Ok s'
  end.

Inductive fs_life (s : FileNullifierStore) : list LifeStep → FileNullifierStore → Prop :=
  | life_nil : fs_life s [] s
  | life_snoc tr s1 x s2 : fs_life s tr s1 → fs_step s1 x s2 → fs_life s (tr ++ [x]) s2.

Lemma fs_step_inv s x s' : file_inv s → fs_step s x s' → file_inv s'.
Proof.
  intros Hinv. destruct x as [[io ep key until q now|io now]|t iop iop'];
    cbn [fs_step run_op commit_or_replay prune_expired_replays file_store].
  - intros [(Hio & He & Hu) ->]. destruct (fs_commit s io ep key until q now) as [s1 r] eqn:E.
    by apply fs_commit_spec in E as (_ & _ & ? & _).
  - intros [_ ->]. destruct (fs_prune s io now) as [s1 r] eqn:E. by apply fs_prune_spec in E as (_ & _ & ? & _).
  - intros H. by apply reopened_keeps in H as (? & _).
Qed.

Lemma fs_life_inv s tr s' : file_inv s → fs_life s tr s' → file_inv s'.
Proof. intros Hinv. induction 1 as [|tr s1 x s2 _ IH Hst]; [done|]. by eapply fs_step_inv. Qed.

(** What a step leaves of a spent key. *)
Lemma fs_step_keeps s x s' key e :
  file_inv s → fs_step s x s' → fs_ledger s !! key = Some e →
  fs_ledger s' !! key = Some e ∨ fs_ledger s' !! key = Some (Spec.expire (step_time x) e).
Proof.
  intros Hinv. destruct x as [o|t iop iop']; cbn [fs_step step_time].
  - intros [Hop ->] He. exact (proj2 (run_op_keeps (Hstore := file_store) s o key e Hinv Hop He)).
  - intros Ho He. apply reopened_keeps in Ho as (_ & _ & _ & Hk); [|done]. right. by apply Hk.
Qed.

Lemma fs_life_keeps s tr s' key until p ep :
  file_inv s → fs_life s tr s' → fs_ledger s !! key = Some {| Spec.e_epoch := ep; Spec.e_result := Some (until, p) |} →
  spent_with key p (fs_ledger s') ∧
  (Forall (λ x, (step_time x < until)%Z) tr →
   fs_ledger s' !! key = Some {| Spec.e_epoch := ep; Spec.e_result := Some (until, p) |}).
Proof.
  intros Hinv Hlife He. induction Hlife as [|tr s1 x s2 Hlife IH Hst].
  { split; [|done]. eexists. split; [exact He|]. cbn. congruence. }
  pose proof (fs_life_inv _ _ _ Hinv Hlife) as Hinv1. destruct IH as [(e & He1 & Hp) Hlive]. split.
  - destruct (fs_step_keeps _ _ _ _ _ Hinv1 Hst He1) as [E|E]; [by exists e|].
    eexists. split; [exact E|]. intros u r Hr%expire_result. eauto.
  - intros [Htr [Hx _]%Forall_cons]%Forall_app. specialize (Hlive Htr).
    destruct (fs_step_keeps _ _ _ _ _ Hinv1 Hst Hlive) as [E|E]; [done|].
    by rewrite (expire_live _ _ until p) in E.
Qed.

(** C34.  A token is spent once.  Take a redemption ledger file that opens, whatever it holds, and
    any life of it: commits and cleanups with any entropy and disk faults, kills and restarts.
    Once a commit has granted a response as new, no later commit of the same key - after any
    further operations, faults and restarts - grants anything new: it replays the first response
    unchanged or reports the token spent, and while nothing is dated past the replay deadline
    it replays exactly the first response.  A restart finds the file the path names; a power
    loss that undoes a rename whose directory sync failed is not among the restarts
    ([dir_sync_failure_reopens_spend] shows what it does). *)
Theorem token_spent_once mode content legacy k t a b s0 tr1 s io ep key until q now s1 p tr2 s2
    io' ep' until' q' now' s3 out :
  open_store mode content legacy k t a b = Ok s0 → fs_life s0 tr1 s →
  op_ok (Commit io ep key until q now) → fs_commit s io ep key until q now = (s1, Ok (Granted p true)) →
  fs_life s1 tr2 s2 →
  op_ok (Commit io' ep' key until' q' now') → fs_commit s2 io' ep' key until' q' now' = (s3, Ok out) →
  p = q ∧ (out = Granted p false ∨ out = AlreadySpent) ∧
  (Forall (λ x, (step_time x < until)%Z) tr2 → (now' < until)%Z → out = Granted p false).
Proof.
  intros Ho H1 Hop Hc H2 Hop' Hc'. apply open_store_spec in Ho as (_ & _ & _ & _ & _ & _ & Hinv0 & _).
  pose proof (fs_life_inv _ _ _ Hinv0 H1) as Hinv.
  destruct (commit_fresh (Hstore := file_store) s io ep key until q now s1 p Hinv Hop Hc) as (-> & Hinv1 & _ & He).
  pose proof (fs_life_inv _ _ _ Hinv1 H2) as Hinv2.
  destruct (fs_life_keeps _ _ _ _ _ _ _ Hinv1 H2 He) as [Hs Hlive]. split; [done|].
  split; [by eapply (commit_spent (Hstore := file_store) s2)|]. intros Htr Hn. specialize (Hlive Htr).
  destruct Hop' as (Hio & Hep & Hu). apply fs_commit_spec in Hc' as (_ & _ & _ & Hc'); [|done..].
  unfold Spec.commit in Hc'. rewrite Hlive, (expire_live _ _ until q) in Hc' by done. cbn in Hc'. congruence.
Qed.

(** So it is in the memory store, for as long as the process lives. *)
Theorem memory_token_spent_once (s : MemoryNullifierStore) io ep key until q now s1 p ops io' ep' until' q' now' s2 out :
  store_inv s → op_ok (Commit io ep key until q now) → Forall op_ok ops →
  op_ok (Commit io' ep' key until' q' now') →
  mem_commit s io ep key until q now = (s1, Ok (Granted p true)) →
  mem_commit (run s1 ops) io' ep' key until' q' now' = (s2, Ok out) →
  p = q ∧ (out = Granted p false ∨ out = AlreadySpent) ∧
  (Forall (λ o, (op_time o < until)%Z) ops → (now' < until)%Z → out = Granted p false).
Proof. exact (spent_once (Hstore := memory_store) s io ep key until q now s1 p ops io' ep' until' q' now' s2 out). Qed.

(** Both stores implement the trait on every branch: the outcome and the new state of
    a successful commit are those of the ledger as a map; a failed one - whatever entropy,
    append, rollback, rename, reopen or directory sync did - changes nothing except that an
    expired result may be gone, never adds or removes a spent marker, and never reaches the
    [expect]; cleanup drops exactly the expired results.  The file store also keeps its disk
    image in step with its memory. *)
Theorem stores_implement_ledger :
  NullifierStoreLaws MemoryNullifierStore ∧ NullifierStoreLaws FileNullifierStore.
Proof. split; apply _. Qed.

(** Spent tokens survive a crash: from any opened file ledger, if a commit granted [p],
    then after any history of operations with any entropy, append and rollback faults (short
    of a rename whose directory entry is in doubt), reopening any image the path may name
    succeeds and the token is still spent with that response - so a commit after the crash
    never grants anew. *)
Theorem granted_survives_crash s io ep key until q now s1 p ops img t iop iop' :
  file_inv s → fs_prior s = None → op_ok (Commit io ep key until q now) → Forall op_ok ops →
  Forall no_rename_in_doubt (Commit io ep key until q now :: ops) →
  fs_commit s io ep key until q now = (s1, Ok (Granted p true)) →
  img ∈ crash_images (run s1 ops) →
  io_rewrite iop = RewriteSucceeds → io_rewrite iop' = RewriteSucceeds →
  ∃ s3, open_store (fs_mode (run s1 ops)) (Some img) None (fs_key (run s1 ops)) t iop iop' = Ok s3 ∧
    file_inv s3 ∧
    ∀ io' ep' until' q' now' s4 out, op_ok (Commit io' ep' key until' q' now') →
      fs_commit s3 io' ep' key until' q' now' = (s4, Ok out) →
      out = Granted p false ∨ out = AlreadySpent.
Proof.
  intros Hinv Hprior Hop Hops Hren H1 Himg Hio Hio'.
  inversion Hren as [|?? Hren1 Hren2]; subst.
  pose proof (run_op_prior s (Commit io ep key until q now) Hprior Hren1) as Hp1.
  cbn [run_op commit_or_replay file_store] in Hp1. rewrite H1 in Hp1. cbn [fst] in Hp1.
  assert (img = fs_content (run s1 ops)) as ->.
  { unfold crash_images in Himg. rewrite run_prior in Himg by done. cbn in Himg.
    by apply list_elem_of_singleton in Himg. }
  destruct (commit_fresh (Hstore := file_store) s io ep key until q now s1 p Hinv Hop H1)
    as (-> & Hinv1 & _ & He).
  assert (Hs : spent_with key q (store_ledger s1)).
  { eexists. split; [exact He|]. cbn. congruence. }
  destruct (run_keeps (Hstore := file_store) ops s1 key q Hinv1 Hops Hs)
    as [Hinv2 (e & He2 & Hp)].
  destruct (reopen_spec _ t iop iop' Hinv2 Hio Hio') as (s3 & Hopen & Hinv3 & _ & Hled).
  exists s3. split_and!; try done. intros * Hop' H3.
  eapply (commit_spent (Hstore := file_store) s3); [done|exact Hop'| |exact H3].
  exists (Spec.expire t e). split; [by apply Hled|]. intros u r Hr%expire_result. eauto.
Qed.

(** Opening any file either fails or yields a consistent ledger: a torn final line is
    cut off, the records are those of the complete lines (the first line of a key wins), a
    legacy ledger is folded in without replacing a newer record, and everything that has
    expired is dropped while staying spent. *)
Theorem open_store_correct mode content legacy k now io io' s :
  open_store mode content legacy k now io io' = Ok s →
  file_inv s ∧ fs_key s = k ∧ fs_mode s = mode ∧
  ∃ image records old,
    (∃ frag, default [] content = image ++ frag ∧ LF ∉ frag) ∧ complete image ∧
    load_records image = Ok records ∧
    match mode, legacy with Epoch, Some l => load_records l = Ok old | _, _ => old = ∅ end ∧
    fs_ledger s = Spec.prune now (ledger_of k (records ∪ old)).
Proof.
  intros (image & records & old & Ht & Hl & Ho & Hinv & Hk & Hm & Hled)%open_store_spec.
  split_and!; try done. exists image, records, old. apply truncate_spec in Ht as [? ?].
  split_and!; done.
Qed.

End FileTheorems.

(** ** Witnesses and a counterexample *)

Section Witnesses.
Import Toy.

Definition w_key_a : bytes := to_hex (replicate 32 x0a).
Definition w_key_b : bytes := to_hex (replicate 32 x0b).
Definition w_io : Io := {| io_nonce := Some (replicate 12 x01); io_append := AppendSucceeds;
                           io_rewrite := RewriteSucceeds |}.
Definition w_io_torn : Io := {| io_nonce := Some (replicate 12 x02);
                                io_append := AppendFails 40 false;
                                io_rewrite := RewriteSucceeds |}.
Definition w_io_dirsync : Io := {| io_nonce := Some (replicate 12 x03);
                                   io_append := AppendSucceeds; io_rewrite := DirSyncFails |}.
Definition w_cipher_key : bytes := replicate 32 x61.

Definition w_empty_file : FileNullifierStore :=
  {| fs_records := ∅; fs_content := []; fs_file := true; fs_prior := None;
     fs_mode := Flat; fs_key := w_cipher_key |}.

(** The directory-sync gap: a cleanup renames a new image into place, its directory sync
    fails and the caller gets the error, but later commits append to the new image and are
    granted.  If the directory still names the old image after a crash, such a token can be
    spent again. *)
Theorem dir_sync_failure_reopens_spend :
  let '(s1, o1) := fs_commit w_empty_file w_io 7 w_key_a 100 (str "path-a") 50 in
  let '(s2, o2) := fs_prune s1 w_io_dirsync 200 in
  let '(s3, o3) := fs_commit s2 w_io 7 w_key_b 300 (str "path-b") 200 in
  match fs_prior s3 with
  | Some img =>
      match open_store Flat (Some img) None w_cipher_key 200 w_io w_io with
      | Ok s4 => (o1, is_ok o2, o3, (fs_commit s4 w_io 7 w_key_b 300 (str "path-c") 200).2)
                 = (Ok (Granted (str "path-a") true), false, Ok (Granted (str "path-b") true),
                    Ok (Granted (str "path-c") true))
      | Err _ => False
      end
  | None => False
  end.
Proof. vm_compute. reflexivity. Qed.

Lemma w_empty_file_inv : file_inv w_empty_file.
Proof. split; [apply map_Forall_empty|]. apply image_of_exact; [apply map_Forall_empty|by left|done]. Qed.

Lemma w_op_ok io ep key until q now :
  io ∈ [w_io; w_io_torn; w_io_dirsync] → u32 ep → u64 until →
  op_ok (Commit io ep key until q now).
Proof.
  intros Hio He Hu. split_and!; try done. intros n Hn. rewrite !elem_of_cons in Hio.
  destruct Hio as [->|[->|[->|[]%elem_of_nil]]]; by injection Hn as <-.
Qed.

(** A second commit is torn by a crash of the disk and leaves a fragment behind. *)
Definition w_torn_op : Op := Commit w_io_torn 7 w_key_b 300 (str "path-b") 60.

Lemma w_ops_ok : Forall op_ok [w_torn_op].
Proof. constructor; [|done]. apply w_op_ok; [set_solver|by vm_compute..]. Qed.

Lemma w_first_commit :
  ∃ s1, fs_commit w_empty_file w_io 7 w_key_a 100 (str "path-a") 50
        = (s1, Ok (Granted (str "path-a") true)).
Proof.
  assert (H : (fs_commit w_empty_file w_io 7 w_key_a 100 (str "path-a") 50).2
              = Ok (Granted (str "path-a") true)) by (vm_compute; reflexivity).
  destruct (fs_commit _ _ _ _ _ _ _) as [s1 o]. cbn in H. subst. by exists s1.
Qed.

Lemma w_commit_ok key q now : op_ok (Commit w_io 7 key 100 q now).
Proof. apply w_op_ok; [by left|by vm_compute..]. Qed.

(** The first commit, a torn one, a restart that cuts the fragment off, and the same token again. *)
Definition w_granted : FileNullifierStore := (fs_commit w_empty_file w_io 7 w_key_a 100 (str "path-a") 50).1.
Definition w_torn : FileNullifierStore := run_op w_granted w_torn_op.
Definition w_restarted : FileNullifierStore :=
  match open_store Flat (Some (fs_content w_torn)) None w_cipher_key 65 w_io w_io with Ok s => s | Err _ => w_empty_file end.

Lemma token_spent_once_witness :
  fs_file w_torn = false ∧
  ∃ s3 out, fs_commit w_restarted w_io 7 w_key_a 100 (str "other") 70 = (s3, Ok out) ∧ out = Granted (str "path-a") false.
Proof.
  split; [vm_compute; reflexivity|].
  assert (H0 : open_store Flat None None w_cipher_key 40 w_io w_io = Ok w_empty_file) by (vm_compute; reflexivity).
  assert (H1 : fs_commit w_empty_file w_io 7 w_key_a 100 (str "path-a") 50 = (w_granted, Ok (Granted (str "path-a") true)))
    by (vm_compute; reflexivity).
  assert (H2 : fs_life w_granted ([Do w_torn_op] ++ [Restart 65 w_io w_io]) w_restarted).
  { apply (life_snoc _ _ w_torn); [apply (life_snoc _ [] w_granted); [constructor|]|].
    - split; [exact (Forall_inv w_ops_ok)|reflexivity].
    - vm_compute. reflexivity. }
  assert (H3 : ∃ s3 out, fs_commit w_restarted w_io 7 w_key_a 100 (str "other") 70 = (s3, Ok out)).
  { eexists _, _. vm_compute. reflexivity. }
  destruct H3 as (s3 & out & H3). exists s3, out. split; [exact H3|].
  refine (proj2 (proj2 (token_spent_once Flat None None w_cipher_key 40 w_io w_io w_empty_file [] w_empty_file w_io 7 w_key_a 100
    (str "path-a") 50 w_granted (str "path-a") _ w_restarted w_io 7 100 (str "other") 70 s3 out
    H0 (life_nil _) (w_commit_ok _ _ _) H1 H2 (w_commit_ok _ _ _) H3)) _ _).
  - apply Forall_cons. split; [reflexivity|]. apply Forall_singleton. reflexivity.
  - reflexivity.
Defined.

Lemma stores_implement_ledger_witness : NullifierStoreLaws MemoryNullifierStore.
Proof. exact (proj1 stores_implement_ledger). Defined.

Lemma granted_survives_crash_witness :
  ∃ s1 s3, fs_commit w_empty_file w_io 7 w_key_a 100 (str "path-a") 50
           = (s1, Ok (Granted (str "path-a") true)) ∧
    open_store (fs_mode (run s1 [w_torn_op])) (Some (fs_content (run s1 [w_torn_op]))) None
      (fs_key (run s1 [w_torn_op])) 80 w_io w_io = Ok s3.
Proof.
  destruct w_first_commit as [s1 H1]. exists s1.
  destruct (granted_survives_crash w_empty_file w_io 7 w_key_a 100 (str "path-a") 50 s1
    (str "path-a") [w_torn_op] (fs_content (run s1 [w_torn_op])) 80 w_io w_io)
    as (s3 & H3 & _).
  - apply w_empty_file_inv.
  - reflexivity.
  - apply w_commit_ok.
  - apply w_ops_ok.
  - rewrite !Forall_cons. split_and!; [by left|by left|apply Forall_nil; done].
  - exact H1.
  - left.
  - reflexivity.
  - reflexivity.
  - exists s3. exact (conj H1 H3).
Defined.

Definition w_legacy : bytes := w_key_b ++ [LF].
Definition w_torn_image : bytes := str "7 " ++ w_key_a ++ [LF] ++ str "NR2 7 0b0b".

Lemma open_store_correct_witness :
  match open_store Epoch (Some w_torn_image) (Some w_legacy) w_cipher_key 80 w_io w_io with
  | Ok s => file_inv s ∧ fs_mode s = Epoch
  | Err _ => False
  end.
Proof.
  destruct (open_store Epoch (Some w_torn_image) (Some w_legacy) w_cipher_key 80 w_io w_io)
    as [s|e] eqn:E.
  - destruct (open_store_correct _ _ _ _ _ _ _ _ E) as (H1 & _ & H2 & _). exact (conj H1 H2).
  - assert (H : is_ok (open_store Epoch (Some w_torn_image) (Some w_legacy) w_cipher_key 80
                         w_io w_io) = true) by (vm_compute; reflexivity).
    rewrite E in H. discriminate H.
Defined.

End Witnesses.
