(* ===== verification/ConnectIp.v ===== *)
(** * CONNECT-IP datagram framing ([crates/nil-transport/src/connectip.rs])

    The frames client and node exchange on a CONNECT-IP flow: two QUIC variable-length
    integers (flow id and context id) and the inner packet.  The file proves that the two
    ends agree, that padding is never taken for a packet, and that decoding never reads
    past the frame. *)

From S2P Require Import Prelude.
From S2P Require Import Text.
From Stdlib Require Import Strings.Byte ZArith Lia.
From stdpp Require Import prelude strings.

Local Open Scope Z_scope.

(** ** Constants *)

Definition CONTEXT_ID_IP_PACKET : Z := 0.
Definition CONTEXT_ID_PADDING : Z := 1.
Definition ATTEST_NONCE_HEADER : bytes := str "nil-attest-nonce".
Definition ATTEST_REPORT_HEADER : bytes := str "nil-attest-report".
Definition TUNNEL_GRANT_HEADER : bytes := str "nil-tunnel-grant".
Definition ASSIGNED_IP_HEADER : bytes := str "nil-assigned-ip".
Definition MAX_VARINT : Z := Z.shiftl 1 62 - 1.
Definition MAX_FRAMING_OVERHEAD : nat := 8 + 1.

Inductive DatagramPayload := Ip (packet : bytes) | Padding.

(** [Error::InvalidPacket], by its message. *)
Inductive PacketError :=
  | BufferTooSmall (needed have : nat)
  | TruncatedContextId
  | TruncatedFlowId
  | UnsupportedContextId (ctx : Z).

(** ** QUIC variable-length integers *)

Definition varint_len (v : Z) : nat :=
  if v <=? 0x3f then 1
  else if v <=? 0x3fff then 2
  else if v <=? 0x3fffffff then 4
  else 8.

(** The bytes written to the front of the buffer. *)
Definition write_varint (v : Z) : bytes :=
  match varint_len v with
  | 1%nat => [z2b v]
  | 2%nat => be_bytes 2 (Z.lor (v mod 2 ^ 16) 0x4000)
  | 4%nat => be_bytes 4 (Z.lor (v mod 2 ^ 32) 0x80000000)
  | _ => be_bytes 8 (Z.lor v 0xc000000000000000)
  end.

Definition encode_varint (v : Z) (out : bytes) : bytes := out ++ write_varint v.

Definition push_byte (val : Z) (b : byte) : Z := Z.lor (Z.shiftl val 8) (b2z b).

Definition decode_varint (buf : bytes) : option (Z * bytes) :=
  match buf with
  | [] => None
  | fst_ :: _ =>
      let len := Z.to_nat (Z.shiftl 1 (Z.shiftr (b2z fst_) 6)) in
      if (length buf <? len)%nat then None
      else
        let val := Z.land (b2z fst_) 0x3f in
        Some (foldl push_byte val (take (len - 1) (drop 1 buf)), drop len buf)
  end.

(** ** Frames *)

Definition encode (ip : bytes) : bytes := encode_varint CONTEXT_ID_IP_PACKET [] ++ ip.

(** Writes into the caller's buffer; returns the count and the buffer. *)
Definition encode_into (ip dst : bytes) : result PacketError (nat * bytes) :=
  let ctx_len := varint_len CONTEXT_ID_IP_PACKET in
  let needed := (ctx_len + length ip)%nat in
  _ ← ensure (negb (length dst <? needed)%nat) (BufferTooSmall needed (length dst));
  Ok (needed, write_varint CONTEXT_ID_IP_PACKET ++ ip ++ drop needed dst).

Definition decode (payload : bytes) : result PacketError bytes :=
  '(ctx, rest) ← ok_or (decode_varint payload) TruncatedContextId;
  _ ← ensure (ctx =? CONTEXT_ID_IP_PACKET) (UnsupportedContextId ctx);
  Ok rest.

Definition encode_datagram (flow_id : Z) (ip : bytes) : bytes :=
  encode_varint CONTEXT_ID_IP_PACKET (encode_varint flow_id []) ++ ip.

Definition encode_padding_datagram (flow_id : Z) (pad_len : nat) : bytes :=
  encode_varint CONTEXT_ID_PADDING (encode_varint flow_id []) ++ replicate pad_len x00.

Definition decode_datagram (buf : bytes) : result PacketError (Z * DatagramPayload) :=
  '(flow_id, rest) ← ok_or (decode_varint buf) TruncatedFlowId;
  '(ctx, payload) ← ok_or (decode_varint rest) TruncatedContextId;
  if ctx =? CONTEXT_ID_IP_PACKET then Ok (flow_id, Ip payload)
  else if ctx =? CONTEXT_ID_PADDING then Ok (flow_id, Padding)
  else Err (UnsupportedContextId ctx).

(** ** Varint lemmas *)

Lemma push_bytes l val :
  foldl push_byte val l = val * 2 ^ (8 * Z.of_nat (length l)) + be_value l.
Proof.
  revert val. induction l as [|b l IH]; intros val; cbn [foldl be_value length]; [lia|].
  rewrite IH. unfold push_byte. rewrite (lor_shift 8) by (try apply b2z_range; lia).
  replace (8 * Z.of_nat (S (length l))) with (8 + 8 * Z.of_nat (length l)) by lia.
  rewrite Z.pow_add_r by lia. lia.
Qed.

(** A frame whose first byte carries the length tag [t] decodes to the rest of its bits. *)
Lemma decode_tagged (t : Z) (n : nat) (v : Z) rest :
  0 ≤ t < 4 → Z.of_nat (S n) = 2 ^ t → 0 ≤ v < 2 ^ (8 * Z.of_nat n + 6) →
  decode_varint (be_bytes (S n) (t * 2 ^ (8 * Z.of_nat n + 6) + v) ++ rest) = Some (v, rest).
Proof.
  intros Ht Hn Hv. set (p := 2 ^ (8 * Z.of_nat n)).
  assert (Hp : 0 < p) by (apply Z.pow_pos_nonneg; lia).
  assert (Hpow : 2 ^ (8 * Z.of_nat n + 6) = p * 64)
    by (rewrite Z.pow_add_r by lia; reflexivity).
  rewrite Hpow in *. cbn [be_bytes app]. set (w := t * (p * 64) + v).
  assert (Hq : 0 ≤ v / p < 64)
    by (split; [apply Z.div_pos; lia | apply Z.div_lt_upper_bound; lia]).
  assert (Hb : b2z (z2b (Z.shiftr w (8 * Z.of_nat n))) = t * 64 + v / p).
  { rewrite Z.shiftr_div_pow2 by lia. fold p. unfold w.
    replace (t * (p * 64) + v) with (v + (t * 64) * p) by lia.
    rewrite Z.div_add by lia. rewrite b2z_z2b_small; lia. }
  unfold decode_varint. rewrite Hb.
  assert (Hs : Z.shiftr (t * 64 + v / p) 6 = t).
  { rewrite Z.shiftr_div_pow2 by lia. change (2 ^ 6) with 64.
    rewrite Z.add_comm, Z.div_add, Z.div_small by lia. lia. }
  assert (Hl : Z.land (t * 64 + v / p) 63 = v / p).
  { change 63 with (Z.ones 6). rewrite Z.land_ones by lia. change (2 ^ 6) with 64.
    rewrite Z.add_comm, Z.mod_add by lia. apply Z.mod_small. lia. }
  rewrite Hs, Hl, Z.shiftl_1_l, <- Hn, Nat2Z.id. cbn [length app drop].
  rewrite length_app, length_be_bytes.
  destruct (Nat.ltb_spec (S (n + length rest)) (S n)); [lia|].
  replace (S n - 1)%nat with (length (be_bytes n w)) by (rewrite length_be_bytes; lia).
  rewrite skipn_0, take_app_length.
  replace (drop n (be_bytes n w ++ rest)) with rest
    by (rewrite <- (length_be_bytes n w) at 1; by rewrite drop_app_length).
  rewrite push_bytes, length_be_bytes, be_value_be_bytes. fold p.
  replace (w mod p) with (v mod p).
  - do 2 f_equal. pose proof (Z.div_mod v p). lia.
  - unfold w. replace (t * (p * 64) + v) with (v + (t * 64) * p) by lia. by rewrite Z.mod_add by lia.
Qed.

Lemma write_varint_tagged v :
  0 ≤ v ≤ MAX_VARINT →
  ∃ t n, 0 ≤ t < 4 ∧ Z.of_nat (S n) = 2 ^ t ∧ 0 ≤ v < 2 ^ (8 * Z.of_nat n + 6) ∧
    varint_len v = S n ∧ write_varint v = be_bytes (S n) (t * 2 ^ (8 * Z.of_nat n + 6) + v).
Proof.
  unfold MAX_VARINT. change (Z.shiftl 1 62) with (2 ^ 62). intros Hv.
  unfold write_varint, varint_len.
  destruct (Z.leb_spec v 0x3f); [|destruct (Z.leb_spec v 0x3fff);
    [|destruct (Z.leb_spec v 0x3fffffff)]].
  - exists 0, 0%nat. split_and!; try done; cbn; lia.
  - exists 1, 1%nat. split_and!; try done; try (cbn; lia). f_equal.
    rewrite Z.mod_small by lia. rewrite Z.lor_comm.
    change 0x4000 with (Z.shiftl 1 14). rewrite lor_shift by lia. reflexivity.
  - exists 2, 3%nat. split_and!; try done; try (cbn; lia). f_equal.
    rewrite Z.mod_small by lia. rewrite Z.lor_comm.
    change 0x80000000 with (Z.shiftl 2 30). rewrite lor_shift by lia. reflexivity.
  - exists 3, 7%nat. split_and!; try done; try (cbn; lia). f_equal.
    rewrite Z.lor_comm. change 0xc000000000000000 with (Z.shiftl 3 62).
    rewrite lor_shift by lia. reflexivity.
Qed.

Lemma decode_write_varint v rest :
  0 ≤ v ≤ MAX_VARINT → decode_varint (write_varint v ++ rest) = Some (v, rest).
Proof.
  intros (t & n & ? & ? & ? & _ & ->)%write_varint_tagged. by apply decode_tagged.
Qed.

Lemma length_write_varint v : 0 ≤ v ≤ MAX_VARINT → length (write_varint v) = varint_len v.
Proof. intros (t & n & _ & _ & _ & -> & ->)%write_varint_tagged. apply length_be_bytes. Qed.

(** Whatever the bytes: the value fits 62 bits and the remainder is a proper suffix. *)
Lemma decode_varint_inv buf v rest :
  decode_varint buf = Some (v, rest) →
  0 ≤ v ≤ MAX_VARINT ∧ ∃ pre, buf = pre ++ rest ∧ (varint_len v ≤ length pre ≤ 8)%nat.
Proof.
  destruct buf as [|b buf]; [done|]. unfold decode_varint.
  pose proof (b2z_range b) as Hb. set (t := Z.shiftr (b2z b) 6).
  assert (Ht : 0 ≤ t < 4).
  { unfold t. rewrite Z.shiftr_div_pow2 by lia. change (2 ^ 6) with 64.
    split; [apply Z.div_pos | apply Z.div_lt_upper_bound]; lia. }
  rewrite Z.shiftl_1_l, skipn_cons, skipn_0. set (m := Z.land (b2z b) 63).
  assert (Hm : 0 ≤ m < 64).
  { unfold m. change 63 with (Z.ones 6). rewrite Z.land_ones by lia. change (2 ^ 6) with 64.
    apply Z.mod_pos_bound. lia. }
  destruct (Nat.ltb_spec (length (b :: buf)) (Z.to_nat (2 ^ t))) as [|Hlen]; [done|].
  intros [= <- <-]. rewrite push_bytes.
  match goal with |- context [be_value ?x] => set (l := x) end. pose proof (be_value_range l) as Hr.
  assert (Hl : length l = (Z.to_nat (2 ^ t) - 1)%nat)
    by (unfold l; rewrite length_take; cbn in Hlen; lia).
  assert (Hcases : t = 0 ∨ t = 1 ∨ t = 2 ∨ t = 3) by lia.
  rewrite Hl in Hr. rewrite Hl.
  assert (Hval : 0 ≤ m * 2 ^ (8 * Z.of_nat (Z.to_nat (2 ^ t) - 1)) + be_value l
                  < 64 * 2 ^ (8 * Z.of_nat (Z.to_nat (2 ^ t) - 1))) by nia.
  set (val := m * _ + be_value l) in *. clearbody val t. clear Hr Hl l.
  assert (Hlim : val < match t with 0 => 2 ^ 6 | 1 => 2 ^ 14 | 2 => 2 ^ 30 | _ => 2 ^ 62 end).
  { destruct Hcases as [->|[->|[->| ->]]]; apply Hval. }
  assert (Hn : Z.to_nat (2 ^ t) = match t with 0 => 1%nat | 1 => 2%nat | 2 => 4%nat | _ => 8%nat end).
  { by destruct Hcases as [->|[->|[->| ->]]]. }
  rewrite Hn in *. split.
  - unfold MAX_VARINT. change (Z.shiftl 1 62) with (2 ^ 62).
    split; [apply Hval|]. destruct Hcases as [->|[->|[->| ->]]]; cbn in Hlim |- *; lia.
  - exists (take (Z.to_nat (2 ^ t)) (b :: buf)). rewrite Hn. split; [by rewrite take_drop|].
    rewrite length_take_le by done. unfold varint_len.
    destruct Hcases as [->|[->|[->| ->]]]; cbn in Hlim |- *; repeat case_match; reflect_bools; lia.
Qed.

Lemma context_id_fits :
  0 ≤ CONTEXT_ID_IP_PACKET ≤ MAX_VARINT ∧ 0 ≤ CONTEXT_ID_PADDING ≤ MAX_VARINT.
Proof. by vm_compute. Qed.

(** ** The frames agree *)

(** The two ends of a CONNECT-IP flow agree on every frame: an encoded packet decodes
    to the same flow and the same bytes, padding decodes to padding whatever its length,
    the node never sees padding as a packet, and framing adds at most
    [MAX_FRAMING_OVERHEAD] bytes.  The flow id must fit a QUIC varint. *)
Theorem datagram_roundtrip flow_id ip pad_len :
  0 ≤ flow_id ≤ MAX_VARINT →
  decode_datagram (encode_datagram flow_id ip) = Ok (flow_id, Ip ip) ∧
  decode_datagram (encode_padding_datagram flow_id pad_len) = Ok (flow_id, Padding) ∧
  (length (encode_datagram flow_id ip) ≤ length ip + MAX_FRAMING_OVERHEAD)%nat.
Proof.
  intros Hf. unfold encode_datagram, encode_padding_datagram, encode_varint. rewrite !app_nil_l.
  unfold decode_datagram. rewrite <- !app_assoc, !decode_write_varint by done. ok_step.
  rewrite !decode_write_varint by apply context_id_fits. split_and!; try done.
  rewrite !length_app, !length_write_varint by (first [done | apply context_id_fits]).
  change (varint_len CONTEXT_ID_IP_PACKET) with 1%nat.
  unfold MAX_FRAMING_OVERHEAD, varint_len. repeat case_match; lia.
Qed.

(** Decoding arbitrary bytes is safe: a decoded packet is exactly the tail of the
    datagram behind at least two framing bytes, its flow id fits 62 bits, and no datagram
    is both a packet and padding; an unknown context id is an error that names it. *)
Theorem decode_datagram_sound buf :
  match decode_datagram buf with
  | Ok (flow_id, payload) =>
      0 ≤ flow_id ≤ MAX_VARINT ∧
      ∃ rest ctx tail, decode_varint buf = Some (flow_id, rest) ∧
        decode_varint rest = Some (ctx, tail) ∧
        (∃ head, buf = head ++ tail ∧ (2 ≤ length head ≤ 16)%nat) ∧
        match payload with
        | Ip p => ctx = CONTEXT_ID_IP_PACKET ∧ p = tail
        | Padding => ctx = CONTEXT_ID_PADDING
        end
  | Err TruncatedFlowId => decode_varint buf = None
  | Err TruncatedContextId =>
      ∃ flow_id rest, decode_varint buf = Some (flow_id, rest) ∧ decode_varint rest = None
  | Err (UnsupportedContextId ctx) => 1 < ctx ≤ MAX_VARINT
  | Err (BufferTooSmall _ _) => False
  end.
Proof.
  unfold decode_datagram. destruct (decode_varint buf) as [[flow_id rest]|] eqn:E1; [|done].
  ok_step. destruct (decode_varint rest) as [[ctx payload]|] eqn:E2; [|by exists flow_id, rest].
  ok_step. pose proof (decode_varint_inv _ _ _ E1) as (Hf & p1 & Hbuf & H1).
  pose proof (decode_varint_inv _ _ _ E2) as (Hc & p2 & Hrest & H2).
  assert (1 ≤ varint_len flow_id ∧ 1 ≤ varint_len ctx)%nat
    by (unfold varint_len; repeat case_match; lia).
  unfold CONTEXT_ID_IP_PACKET, CONTEXT_ID_PADDING.
  destruct (Z.eqb_spec ctx 0); [|destruct (Z.eqb_spec ctx 1); [|lia]];
    (split; [done|]); exists rest, ctx, payload; split_and!; try done;
    exists (p1 ++ p2); rewrite length_app, <- app_assoc, <- Hrest; (split; [done | lia]).
Qed.

(** The allocation-free encoder writes what the allocating one returns and leaves the
    rest of the caller's buffer alone, or refuses a buffer that is too small; either way a
    decoder recovers the packet. *)
Theorem encode_into_matches_encode ip dst :
  decode (encode ip) = Ok ip ∧
  encode_into ip dst =
    if decide (length dst < length ip + 1)%nat then Err (BufferTooSmall (length ip + 1) (length dst))
    else Ok (length ip + 1, encode ip ++ drop (length ip + 1) dst)%nat.
Proof.
  split.
  - unfold encode, decode, encode_varint. rewrite app_nil_l, decode_write_varint
      by apply context_id_fits. by ok_step.
  - unfold encode_into. change (varint_len CONTEXT_ID_IP_PACKET) with 1%nat.
    replace (1 + length ip)%nat with (length ip + 1)%nat by lia.
    destruct (Nat.ltb_spec (length dst) (length ip + 1)); case_decide; try lia; [done|].
    cbn [negb]. ok_step. unfold encode, encode_varint. by rewrite app_nil_l, <- app_assoc.
Qed.

Lemma datagram_roundtrip_witness :
  decode_datagram (encode_datagram 16384 [x45; x00]) = Ok (16384, Ip [x45; x00]).
Proof. refine (proj1 (datagram_roundtrip 16384 [x45; x00] 0 _)). by vm_compute. Defined.
