(* ===== verification/Pool.v ===== *)
(** * The node's inner address pool ([crates/nil-node/src/pool.rs])

    Each CONNECT-IP client gets an inner IPv4 address of its own while its connection
    lives.  The pool probes from a rotating cursor.  The file proves that live addresses
    are unique, never the reserved ones, and that the pool refuses only when every address
    is taken. *)

From S2P Require Import Prelude.
From S2P Require Import Text.
From S2P Require Import Net.
From Stdlib Require Import Strings.Byte ZArith Lia.
From stdpp Require Import prelude gmap strings.

Local Open Scope Z_scope.

(** ** Integers *)

(** [u32::from(Ipv4Addr)] and back. *)
Definition u32_of_ip (ip : Ipv4Addr) : Z := be_value (octets ip).

Definition ip_of_u32 (n : Z) : Ipv4Addr :=
  match be_bytes 4 n with
  | [a; b; c; d] => Ipv4 a b c d
  | _ => Ipv4 x00 x00 x00 x00
  end.


(** [x << n] on [u32]: the shift amount is taken modulo the width. *)
Definition u32_shl (x n : Z) : Z := u32_wrap (Z.shiftl x (n mod 32)).

Definition u32_not (x : Z) : Z := Z.lxor x U32_MAX.

(** ** The pool *)

Record AddressPool := {
  first : Z;
  last_ : Z;
  cursor : Z;
  in_use : gset Z;
  by_conn : gmap bytes Z;
}.

Definition pool_new (base : Ipv4Addr) (prefix : Z) (gateway : Ipv4Addr) : option AddressPool :=
  if 31 <=? prefix then None
  else
    let host_bits := 32 - prefix in
    let mask := u32_shl (u32_not 0) host_bits in
    let network := Z.land (u32_of_ip base) mask in
    let broadcast := Z.lor network (u32_not mask) in
    let fst_ := u32_wrap (network + 1) in
    let lst := u32_wrap (broadcast - 1) in
    if lst <? fst_ then None
    else
      let gw := u32_of_ip gateway in
      if negb (Z.land gw mask =? network) then None
      else Some {| first := fst_; last_ := lst; cursor := fst_;
                   in_use := if (fst_ <=? gw) && (gw <=? lst) then {[gw]} else ∅;
                   by_conn := ∅ |}.

Definition default_v4 : option AddressPool :=
  pool_new (Ipv4 x0a x4a x00 x00) 16 (Ipv4 x0a x4a x00 x01).

(** The probing loop: at most [tried] more candidates.  Returns the new cursor and the
    free address found. *)
Fixpoint probe (fst_ lst : Z) (used : gset Z) (tried : nat) (cur : Z) : Z * option Z :=
  match tried with
  | 0%nat => (cur, None)
  | S tried =>
      let next := if lst <=? cur then fst_ else cur + 1 in
      if decide (cur ∈ used) then probe fst_ lst used tried next else (next, Some cur)
  end.

Definition assign (p : AddressPool) (conn_key : bytes) : AddressPool * option Ipv4Addr :=
  match by_conn p !! conn_key with
  | Some existing => (p, Some (ip_of_u32 existing))
  | None =>
      let span := last_ p - first p + 1 in
      match probe (first p) (last_ p) (in_use p) (Z.to_nat span) (cursor p) with
      | (cur, Some candidate) =>
          ({| first := first p; last_ := last_ p; cursor := cur;
              in_use := {[candidate]} ∪ in_use p;
              by_conn := <[conn_key := candidate]> (by_conn p) |},
           Some (ip_of_u32 candidate))
      | (cur, None) =>
          ({| first := first p; last_ := last_ p; cursor := cur; in_use := in_use p;
              by_conn := by_conn p |}, None)
      end
  end.

Definition release (p : AddressPool) (conn_key : bytes) : AddressPool :=
  match by_conn p !! conn_key with
  | Some addr => {| first := first p; last_ := last_ p; cursor := cursor p;
                    in_use := in_use p ∖ {[addr]}; by_conn := delete conn_key (by_conn p) |}
  | None => p
  end.

(** ** Invariant *)

(** [reserved] never changes: the gateway, when it is in the band. *)
Record pool_inv (reserved : gset Z) (p : AddressPool) : Prop := {
  pi_range : 0 ≤ first p ≤ last_ p ∧ last_ p ≤ U32_MAX;
  pi_cursor : first p ≤ cursor p ≤ last_ p;
  pi_reserved : ∀ a, a ∈ reserved → first p ≤ a ≤ last_ p;
  pi_used : ∀ a, a ∈ in_use p ↔ a ∈ reserved ∨ ∃ k, by_conn p !! k = Some a;
  pi_held : ∀ k a, by_conn p !! k = Some a → first p ≤ a ≤ last_ p ∧ a ∉ reserved;
  pi_unique : ∀ k k' a, by_conn p !! k = Some a → by_conn p !! k' = Some a → k = k';
}.

Lemma u32_of_ip_of_u32 n : u32 n → u32_of_ip (ip_of_u32 n) = n.
Proof.
  intros Hn. unfold u32_of_ip, ip_of_u32. pose proof (length_be_bytes 4 n) as Hl.
  destruct (be_bytes 4 n) as [|a [|b [|c [|d [|]]]]] eqn:E; try done. cbn [octets].
  rewrite <- E. apply be_value_be_bytes_small. unfold_int.
  change (2 ^ (8 * Z.of_nat 4)) with 4294967296. lia.
Qed.

Lemma ip_of_u32_inj a b : u32 a → u32 b → ip_of_u32 a = ip_of_u32 b → a = b.
Proof. intros Ha Hb E. by rewrite <- (u32_of_ip_of_u32 a), E, u32_of_ip_of_u32. Qed.

Lemma u32_of_ip_range ip : u32 (u32_of_ip ip).
Proof.
  destruct ip as [a b c d]. unfold u32_of_ip. cbn [octets].
  pose proof (be_value_range [a; b; c; d]) as H. cbn [length] in H.
  change (2 ^ (8 * Z.of_nat 4)) with 4294967296 in H. unfold_int. lia.
Qed.

(** *** Probing *)

(** The address [i] places after the cursor, around the band. *)
Definition place (fst_ lst cur i : Z) : Z := fst_ + (cur - fst_ + i) mod (lst - fst_ + 1).

Lemma place_zero fst_ lst cur : fst_ ≤ cur ≤ lst → place fst_ lst cur 0 = cur.
Proof. intros. unfold place. rewrite Z.mod_small by lia. lia. Qed.

Lemma place_next fst_ lst cur i :
  fst_ ≤ cur ≤ lst →
  place fst_ lst (if lst <=? cur then fst_ else cur + 1) i = place fst_ lst cur (i + 1).
Proof.
  intros. unfold place. f_equal. destruct (Z.leb_spec lst cur).
  - assert (cur = lst) as -> by lia.
    replace (lst - fst_ + (i + 1)) with (i + 1 * (lst - fst_ + 1)) by lia.
    rewrite Z.mod_add by lia. f_equal. lia.
  - f_equal. lia.
Qed.

Lemma probe_spec fst_ lst used tried cur cur' res :
  fst_ ≤ cur ≤ lst → probe fst_ lst used tried cur = (cur', res) →
  fst_ ≤ cur' ≤ lst ∧
  match res with
  | Some a => fst_ ≤ a ≤ lst ∧ a ∉ used
  | None => ∀ i, 0 ≤ i < Z.of_nat tried → place fst_ lst cur i ∈ used
  end.
Proof.
  revert cur. induction tried as [|tried IH]; intros cur Hc H; cbn [probe] in H.
  { injection H as <- <-. split; [done|]. lia. }
  set (next := if lst <=? cur then fst_ else cur + 1) in *.
  assert (Hnext : fst_ ≤ next ≤ lst) by (unfold next; destruct (Z.leb_spec lst cur); lia).
  case_decide as Hu.
  - apply IH in H as [Hc' Hres]; [|done]. split; [done|]. destruct res as [a|]; [done|].
    intros i Hi. destruct (decide (i = 0)) as [->|].
    + by rewrite place_zero.
    + replace i with ((i - 1) + 1) by lia. rewrite <- place_next by done. apply Hres. lia.
  - by injection H as <- <-.
Qed.

(** A full round visits the whole band. *)
Lemma place_surjective fst_ lst cur a :
  fst_ ≤ cur ≤ lst → fst_ ≤ a ≤ lst →
  ∃ i, 0 ≤ i < lst - fst_ + 1 ∧ place fst_ lst cur i = a.
Proof.
  intros Hc Ha. set (n := lst - fst_ + 1). exists ((a - cur) mod n).
  assert (0 < n) by (unfold n; lia). split; [by apply Z.mod_pos_bound|].
  unfold place. fold n. rewrite Z.add_mod_idemp_r by lia.
  replace (cur - fst_ + (a - cur)) with (a - fst_) by lia. rewrite Z.mod_small; lia.
Qed.

(** *** Operations *)

Lemma assign_inv reserved p k p' res :
  pool_inv reserved p → assign p k = (p', res) → pool_inv reserved p'.
Proof.
  intros Hinv. destruct Hinv as [Hr Hcur Hres Hused Hheld Huniq]. unfold assign.
  destruct (by_conn p !! k) as [e|] eqn:Ek; [by intros [= <- <-]|].
  destruct (probe _ _ _ _ _) as [cur r] eqn:Ep. apply probe_spec in Ep as [Hc' Hp]; [|done].
  destruct r as [a|]; intros [= <- <-]; [|by split].
  destruct Hp as [Ha Hna]. rewrite Hused in Hna. split; cbn; try done.
  - intros b. rewrite elem_of_union, elem_of_singleton, Hused. split.
    + intros [->|[?|[k' Hk']]]; [right; exists k; apply lookup_insert_eq|by left|].
      right. exists k'. rewrite lookup_insert_ne; [done|]. intros ->. congruence.
    + intros [?|[k' Hk']]; [by right; left|]. apply lookup_insert_Some in Hk' as [[<- <-]|[_ ?]];
        [by left|right; right; eauto].
  - intros k' b [[<- <-]|[_ Hb]]%lookup_insert_Some; [naive_solver|by eapply Hheld].
  - intros k1 k2 b H1 H2. apply lookup_insert_Some in H1 as [[<- <-]|[_ H1]],
      H2 as [[<- E]|[_ H2]]; subst; try done; try (destruct Hna; right; by eauto). by eapply Huniq.
Qed.

Lemma release_inv reserved p k : pool_inv reserved p → pool_inv reserved (release p k).
Proof.
  intros Hinv. unfold release. destruct (by_conn p !! k) as [a|] eqn:Ek; [|done].
  destruct Hinv as [Hr Hcur Hres Hused Hheld Huniq]. split; cbn; try done.
  - intros b. rewrite elem_of_difference, elem_of_singleton, Hused. split.
    + intros [[?|[k' Hk']] Hne]; [by left|]. right. exists k'.
      rewrite lookup_delete_ne; [done|]. intros ->. congruence.
    + intros [Hb|[k' Hk']].
      * split; [by left|]. intros ->. by apply (Hheld k a).
      * apply lookup_delete_Some in Hk' as [Hne Hk']. split; [right; eauto|]. intros ->.
        apply Hne. by eapply Huniq.
  - intros k' b [_ Hb]%lookup_delete_Some. by eapply Hheld.
  - intros k1 k2 b [_ H1]%lookup_delete_Some [_ H2]%lookup_delete_Some. by eapply Huniq.
Qed.

(** ** Runs *)

Inductive PoolOp := Assign (conn_key : bytes) | Release (conn_key : bytes).

Definition pool_step (p : AddressPool) (o : PoolOp) : AddressPool :=
  match o with Assign k => (assign p k).1 | Release k => release p k end.

Definition pool_run (p : AddressPool) (ops : list PoolOp) : AddressPool := foldl pool_step p ops.

Definition reserved_of (p0 : AddressPool) : gset Z := in_use p0.

Lemma pool_new_inv base prefix gateway p :
  pool_new base prefix gateway = Some p →
  pool_inv (reserved_of p) p ∧ (∀ a, a ∈ reserved_of p → a = u32_of_ip gateway) ∧
  (first p ≤ u32_of_ip gateway ≤ last_ p → u32_of_ip gateway ∈ reserved_of p).
Proof.
  unfold pool_new, reserved_of. destruct (31 <=? prefix); [done|].
  set (mask := u32_shl _ _). set (network := Z.land _ mask).
  set (broadcast := Z.lor network _). destruct (Z.ltb_spec (u32_wrap (broadcast - 1))
    (u32_wrap (network + 1))) as [|Hle]; [done|].
  destruct (negb _); [done|]. intros [= <-]. cbn.
  assert (Hw : ∀ z, 0 ≤ u32_wrap z ≤ U32_MAX).
  { intros z. unfold u32_wrap. pose proof (Z.mod_pos_bound z (2 ^ 32) ltac:(lia)).
    unfold_int. change (2 ^ 32) with 4294967296 in *. lia. }
  pose proof (Hw (network + 1)). pose proof (Hw (broadcast - 1)).
  set (gw := u32_of_ip gateway).
  destruct ((u32_wrap (network + 1) <=? gw) && (gw <=? u32_wrap (broadcast - 1))) eqn:E.
  - reflect_bools. split_and!; [|set_solver|set_solver]. split; cbn; try lia.
    + intros a ->%elem_of_singleton. lia.
    + intros a. split; [by left|]. intros [?|[k Hk]]; [done|by rewrite lookup_empty in Hk].
    + intros k a. by rewrite lookup_empty.
    + intros k k' a. by rewrite lookup_empty.
  - apply andb_false_iff in E. rewrite !Z.leb_gt in E.
    split_and!; [|set_solver|intros; lia]. split; cbn; try lia.
    + set_solver.
    + intros a. split; [by left|]. intros [?|[k Hk]]; [done|by rewrite lookup_empty in Hk].
    + intros k a. by rewrite lookup_empty.
    + intros k k' a. by rewrite lookup_empty.
Qed.

Lemma assign_band p k : first (assign p k).1 = first p ∧ last_ (assign p k).1 = last_ p.
Proof.
  unfold assign. destruct (by_conn p !! k); [done|]. by destruct (probe _ _ _ _ _) as [? []].
Qed.

Lemma release_band p k : first (release p k) = first p ∧ last_ (release p k) = last_ p.
Proof. unfold release. by destruct (by_conn p !! k). Qed.

Lemma pool_run_inv reserved ops p :
  pool_inv reserved p →
  pool_inv reserved (pool_run p ops) ∧ first (pool_run p ops) = first p ∧
  last_ (pool_run p ops) = last_ p.
Proof.
  revert p. induction ops as [|[k|k] ops IH]; intros p Hinv; cbn [pool_run foldl pool_step];
    [done| |].
  - destruct (assign_band p k) as [<- <-]. apply IH.
    destruct (assign p k) as [p' r] eqn:E. by eapply assign_inv.
  - destruct (release_band p k) as [<- <-]. by apply IH, release_inv.
Qed.

(** The pool is correct over any sequence of assignments and releases: no two live
    connections hold the same address, every held address is inside the band and is not the
    gateway; an assignment records the returned address for that connection alone and is
    repeated unchanged, and it is refused only when every address of the band is the gateway
    or held by a live connection. *)
Theorem pool_correct base prefix gateway p0 ops k :
  pool_new base prefix gateway = Some p0 →
  let p := pool_run p0 ops in
  (∀ k1 k2 a, by_conn p !! k1 = Some a → by_conn p !! k2 = Some a → k1 = k2) ∧
  (∀ k1 a, by_conn p !! k1 = Some a →
     first p0 ≤ a ≤ last_ p0 ∧ a ≠ u32_of_ip gateway) ∧
  match assign p k with
  | (p', Some ip) => by_conn p' !! k = Some (u32_of_ip ip) ∧
      (∀ k', k' ≠ k → by_conn p' !! k' = by_conn p !! k') ∧ assign p' k = (p', Some ip)
  | (p', None) => ∀ a, first p0 ≤ a ≤ last_ p0 →
      a = u32_of_ip gateway ∨ ∃ k', by_conn p !! k' = Some a
  end.
Proof.
  intros (Hinv0 & Hres & Hgw)%pool_new_inv p.
  destruct (pool_run_inv _ ops p0 Hinv0) as (Hinv & Hf & Hl). fold p in Hinv, Hf, Hl.
  pose proof Hinv as [Hr Hcur _ Hused Hheld Huniq]. split_and!; [done| |].
  { intros k1 a Ha. destruct (Hheld _ _ Ha) as [? Hna]. rewrite <- Hf, <- Hl. split; [done|].
    intros ->. apply Hna, Hgw. by rewrite <- Hf, <- Hl. }
  unfold assign. destruct (by_conn p !! k) as [e|] eqn:Ek.
  { destruct (Hheld _ _ Ek). rewrite u32_of_ip_of_u32 by (unfold_int; lia). by rewrite Ek. }
  destruct (probe _ _ _ _ _) as [cur [a|]] eqn:Ep;
    (apply probe_spec in Ep as [_ Hp]; [|done]); cbn [by_conn].
  - rewrite lookup_insert_eq, u32_of_ip_of_u32 by (unfold_int; lia). split_and!; try done.
    intros k' Hne. by rewrite lookup_insert_ne.
  - intros b Hb. destruct (place_surjective (first p) (last_ p) (cursor p) b) as (i & Hi & <-);
      [done|lia|]. specialize (Hp i ltac:(lia)). apply Hused in Hp as [Hp|Hp]; [|by right].
    left. by apply Hres.
Qed.

(** ** Witness *)

Definition w_pool : AddressPool :=
  default {| first := 0; last_ := 0; cursor := 0; in_use := ∅; by_conn := ∅ |}
          (pool_new (Ipv4 xc0 xa8 x09 x00) 29 (Ipv4 xc0 xa8 x09 x01)).

Definition w_ops : list PoolOp := [Assign [x00]; Assign [x01]; Release [x00]].

Lemma w_held : by_conn (pool_run w_pool w_ops) !! [x01] = Some 3232237827.
Proof. by vm_compute. Qed.

Lemma w_pool_new : pool_new (Ipv4 xc0 xa8 x09 x00) 29 (Ipv4 xc0 xa8 x09 x01) = Some w_pool.
Proof. by vm_compute. Qed.

Lemma pool_correct_witness :
  by_conn (pool_run w_pool w_ops) !! [x01] = Some 3232237827 ∧
  3232237827 ≠ u32_of_ip (Ipv4 xc0 xa8 x09 x01).
Proof.
  split; [exact w_held|].
  destruct (pool_correct _ _ _ _ w_ops [] w_pool_new) as (_ & H & _).
  exact (proj2 (H _ _ w_held)).
Defined.
