(* ===== verification/NodeConfig.v ===== *)
(** * Node configuration ([crates/nil-node/src/config.rs], [attest.rs])

    The node reads its role, its grant identity, the coordinator's public keys and its
    limits from the environment.  The build record stands for the two compile-time
    conditions the reader consults. *)

From S2P Require Import Prelude.
From S2P Require Import Text.
From S2P Require Import Net.
From S2P Require Import Crypto.
From S2P Require Import Env.
From S2P Require Import Grant.
From Stdlib Require Import Strings.Byte ZArith Lia.
From stdpp Require Import prelude gmap strings.

Local Open Scope Z_scope.

Definition DEFAULT_MAX_CONNECTIONS : Z := 1024.
Definition DEFAULT_MAX_CONNECTIONS_PER_IP : Z := 32.
Definition DEFAULT_GRANT_REPLAY_CAPACITY : Z := 65536.

(** [cfg!(debug_assertions)] and [cfg!(feature = "hw-attest")]. *)
Record Build := { debug_assertions : bool; hw_attest : bool }.

Definition strict (b : Build) : bool := hw_attest b || negb (debug_assertions b).

Inductive NodeRole := NEntry | NMiddle | NExit.

#[global] Instance NodeRole_eq_dec : EqDecision NodeRole.
Proof. solve_decision. Defined.

Definition grant_role (r : NodeRole) : GrantRole :=
  match r with NEntry => Entry | NMiddle => Middle | NExit => Exit end.

Record NodeAttest := { na_tee : Tee; na_measurement : bytes }.

(** The reader's refusals, by message. *)
Inductive ConfigError :=
  | BadBind
  | VarError (name : bytes)
  | LegacyGrantKey
  | TwoVerifierSources
  | VerifierFileUnreadable
  | InlineVerifierRefused
  | KeyNotHex
  | KeyNotExact
  | VerifierKeysRefused (e : GrantError)
  | BadIdentifier (name : bytes) (e : GrantError)
  | PartialGrantIdentity
  | StrictNeedsVerifierFile
  | StrictNeedsRealm
  | StrictNeedsNodeId
  | StrictNeedsTlsKey
  | StrictNeedsRole
  | UnknownRole
  | StrictRefusesUngranted
  | NotANumber (name : bytes)
  | NotPositive (name : bytes)
  | PerIpExceedsTotal
  | ReplayCapacityTooSmall
  | TeeWithoutMeasurement
  | MeasurementWithoutTee
  | MeasurementNotHex
  | MeasurementNotExact
  | UnknownTee.

Definition NodeRole_parse (s : bytes) : result ConfigError NodeRole :=
  if decide (s = str "entry") then Ok NEntry
  else if decide (s = str "middle") then Ok NMiddle
  else if decide (s = str "exit") then Ok NExit
  else Err UnknownRole.

Definition parse_attestation (raw tee : bytes) : result ConfigError NodeAttest :=
  measurement ← ok_or (from_hex (trim raw)) MeasurementNotHex;
  _ ← ensure (length measurement =? 48)%nat MeasurementNotExact;
  if decide (tee = str "sev-snp") then
    Ok {| na_tee := SevSnp; na_measurement := measurement |}
  else if decide (tee = str "tdx") then
    Ok {| na_tee := Tdx; na_measurement := measurement |}
  else Err UnknownTee.

Definition NodeAttest_from_env (env : Env) : result ConfigError (option NodeAttest) :=
  match env_var env (str "NW_NODE_MEASUREMENT"), env_var env (str "NW_NODE_TEE") with
  | NotPresent, NotPresent => Ok None
  | Present raw, Present tee => Some <$> parse_attestation raw tee
  | NotPresent, Present _ => Err TeeWithoutMeasurement
  | Present _, NotPresent => Err MeasurementWithoutTee
  | NotPresent, NotUnicode _ | NotUnicode _, _ => Err (VarError (str "NW_NODE_MEASUREMENT"))
  | Present _, NotUnicode _ => Err (VarError (str "NW_NODE_TEE"))
  end.

Definition positive_usize_env (env : Env) (name : bytes) (dflt : Z) : result ConfigError Z :=
  match env_var env name with
  | Present raw =>
      v ← ok_or (parse_uint U64_MAX raw) (NotANumber name);
      if v =? 0 then Err (NotPositive name) else Ok v
  | NotPresent => Ok dflt
  | NotUnicode _ => Err (VarError name)
  end.

Definition reject_legacy_grant_key_env (env : Env) : result ConfigError unit :=
  if existsb (starts_with (str "NW_GRANT_KEY")) (map_to_list env).*1
  then Err LegacyGrantKey else Ok tt.

Definition optional_identifier_env (env : Env) (name : bytes) :
    result ConfigError (option bytes) :=
  match env_var env name with
  | Present value =>
      _ ← map_err (BadIdentifier name) (validate_identifier value); Ok (Some value)
  | NotPresent => Ok None
  | NotUnicode _ => Err (VarError name)
  end.

Definition validate_complete_grant_identity {A B C} (verifier : option A) (realm : option B)
    (node_id : option C) : result ConfigError unit :=
  let configured := [bool_decide (is_Some verifier); bool_decide (is_Some realm);
                     bool_decide (is_Some node_id)] in
  if existsb id configured && negb (forallb id configured)
  then Err PartialGrantIdentity else Ok tt.

Section Config.
Context `{Hsha : Sha256, Hed : Ed25519}.

(** The keys of one line: the part before [#], split at commas, blanks skipped. *)
Definition line_values (line : bytes) : list bytes :=
  let data := match split_once x23 line with Some (data, _) => data | None => line end in
  filter (λ v, v ≠ []) (trim <$> split_on x2c data).

Definition decode_key (encoded : bytes) : result ConfigError bytes :=
  decoded ← ok_or (from_hex encoded) KeyNotHex;
  if (length decoded =? 32)%nat then Ok decoded else Err KeyNotExact.

Definition parse_grant_verifier (raw : bytes) : result ConfigError GrantVerifier :=
  keys ← result_mapM decode_key (lines raw ≫= line_values);
  map_err VerifierKeysRefused (GrantVerifier_new keys).

(** [read_to_string] is a parameter: [None] when the file cannot be read as UTF-8. *)
Definition load_grant_verifier (b : Build) (read_to_string : bytes → option bytes) (env : Env) :
    result ConfigError (option GrantVerifier * bool) :=
  let file := env_var_ok env (str "NW_GRANT_VERIFY_KEYS_FILE") in
  let inline := env_var_ok env (str "NW_GRANT_VERIFY_KEYS") in
  match file, inline with
  | Some _, Some _ => Err TwoVerifierSources
  | Some path, None =>
      raw ← ok_or (read_to_string path) VerifierFileUnreadable;
      v ← parse_grant_verifier raw; Ok (Some v, true)
  | None, Some raw =>
      if negb (debug_assertions b) || hw_attest b then Err InlineVerifierRefused
      else v ← parse_grant_verifier raw; Ok (Some v, false)
  | None, None => Ok (None, false)
  end.

Record NodeConfig := {
  bind : SocketAddr;
  tun_name : bytes;
  node_tun_ip : Ipv4Addr;
  prefix : Z;
  tunnel_cidr : bytes;
  egress : bytes;
  mtu : Z;
  attest : option NodeAttest;
  role : NodeRole;
  grant_verifier : option GrantVerifier;
  grant_realm : option bytes;
  node_id : option bytes;
  tls_key_file : option bytes;
  allow_ungranted : bool;
  max_connections : Z;
  max_connections_per_ip : Z;
  grant_replay_capacity : Z;
}.

Definition read_role (b : Build) (env : Env) : result ConfigError NodeRole :=
  match env_var env (str "NW_NODE_ROLE") with
  | Present value => NodeRole_parse value
  | NotPresent => if negb (strict b) then Ok NExit else Err StrictNeedsRole
  | NotUnicode _ => Err (VarError (str "NW_NODE_ROLE"))
  end.

Definition from_env (b : Build) (read_to_string : bytes → option bytes) (env : Env) :
    result ConfigError NodeConfig :=
  bind_addr ← ok_or (parse_socket_addr (default (str "0.0.0.0:443")
                       (env_var_ok env (str "NW_NODE_BIND")))) BadBind;
  let egress_if := default (str "eth0") (env_var_ok env (str "NW_NODE_EGRESS")) in
  _ ← reject_legacy_grant_key_env env;
  '(verifier, from_file) ← load_grant_verifier b read_to_string env;
  realm ← optional_identifier_env env (str "NW_GRANT_REALM");
  nid ← optional_identifier_env env (str "NW_NODE_ID");
  _ ← validate_complete_grant_identity verifier realm nid;
  _ ← ensure (negb (strict b && (negb from_file || bool_decide (verifier = None))))
        StrictNeedsVerifierFile;
  _ ← ensure (negb (strict b && bool_decide (realm = None))) StrictNeedsRealm;
  _ ← ensure (negb (strict b && bool_decide (nid = None))) StrictNeedsNodeId;
  let tls_key := env_var_os env (str "NW_NODE_TLS_KEY_FILE") in
  _ ← ensure (negb (strict b && bool_decide (tls_key = None))) StrictNeedsTlsKey;
  r ← read_role b env;
  let ungranted := dev_env_flag (debug_assertions b) env (str "NW_ALLOW_UNGRANTED") in
  _ ← ensure (negb (strict b && ungranted)) StrictRefusesUngranted;
  max_conn ← positive_usize_env env (str "NW_NODE_MAX_CONNECTIONS") DEFAULT_MAX_CONNECTIONS;
  per_ip ← positive_usize_env env (str "NW_NODE_MAX_CONNECTIONS_PER_IP")
             (Z.min DEFAULT_MAX_CONNECTIONS_PER_IP max_conn);
  _ ← ensure (negb (max_conn <? per_ip)) PerIpExceedsTotal;
  cap ← positive_usize_env env (str "NW_NODE_GRANT_REPLAY_CAPACITY")
          DEFAULT_GRANT_REPLAY_CAPACITY;
  _ ← ensure (negb (cap <? max_conn)) ReplayCapacityTooSmall;
  att ← NodeAttest_from_env env;
  Ok {| bind := bind_addr;
        tun_name := default (str "nil0") (env_var_ok env (str "NW_NODE_TUN"));
        node_tun_ip := Ipv4 x0a x4a x00 x01; prefix := 24;
        tunnel_cidr := str "10.74.0.0/24"; egress := egress_if; mtu := 1420;
        attest := att; role := r; grant_verifier := verifier; grant_realm := realm;
        node_id := nid; tls_key_file := tls_key; allow_ungranted := ungranted;
        max_connections := max_conn; max_connections_per_ip := per_ip;
        grant_replay_capacity := cap |}.

End Config.

(** ** Properties *)

Lemma positive_usize_env_range env name dflt v :
  1 ≤ dflt ≤ U64_MAX → positive_usize_env env name dflt = Ok v → 1 ≤ v ≤ U64_MAX.
Proof.
  intros Hd. unfold positive_usize_env. destruct (env_var env name); [|congruence|done].
  intros H. inv_ok H. rename select (parse_uint _ _ = _) into Hp.
  apply parse_uint_range in Hp; [|by vm_compute]. revert H.
  destruct (Z.eqb_spec x 0); [done|]. intros [= <-]. lia.
Qed.

Lemma optional_identifier_env_ok env name o :
  optional_identifier_env env name = Ok o →
  o = env_var_ok env name ∧ ∀ i, o = Some i → identifier_ok i.
Proof.
  unfold optional_identifier_env, env_var_ok.
  destruct (env_var env name); [|by intros [= <-]|done].
  intros H. inv_ok H. injection H as <-. split; [done|]. intros i [= <-].
  rename select (validate_identifier _ = _) into Hi. by apply validate_named_identifier_ok in Hi.
Qed.

Lemma validate_complete_ok {A B C} (v : option A) (r : option B) (n : option C) u :
  validate_complete_grant_identity v r n = Ok u →
  (v = None ∧ r = None ∧ n = None) ∨ (is_Some v ∧ is_Some r ∧ is_Some n).
Proof. destruct v, r, n; try done; intros _; [right|left]; eauto. Qed.

Lemma parse_attestation_ok raw tee a :
  parse_attestation raw tee = Ok a → length (na_measurement a) = 48%nat.
Proof.
  unfold parse_attestation. intros H. inv_ok H. reflect_bools.
  repeat case_match; try done; by injection H as <-.
Qed.

Lemma NodeAttest_from_env_ok env a :
  NodeAttest_from_env env = Ok (Some a) → length (na_measurement a) = 48%nat.
Proof.
  unfold NodeAttest_from_env. repeat case_match; try done.
  destruct (parse_attestation _ _) eqn:E; [|done]. intros [= <-]. by eapply parse_attestation_ok.
Qed.

Section Properties.
Context `{Hsha : Sha256, Hed : Ed25519}.

(** What a hardware or release node has before it serves. *)
Record production_posture (rd : bytes → option bytes) (env : Env) (cfg : NodeConfig) : Prop := {
  pp_verifier : ∃ path raw v, env_var_ok env (str "NW_GRANT_VERIFY_KEYS_FILE") = Some path ∧
    rd path = Some raw ∧ parse_grant_verifier raw = Ok v ∧ grant_verifier cfg = Some v;
  pp_realm : is_Some (grant_realm cfg);
  pp_node_id : is_Some (node_id cfg);
  pp_tls_key : is_Some (tls_key_file cfg);
  pp_role : ∃ s, env_var env (str "NW_NODE_ROLE") = Present s ∧ NodeRole_parse s = Ok (role cfg);
  pp_granted : allow_ungranted cfg = false;
}.

Lemma load_grant_verifier_file b rd env v :
  load_grant_verifier b rd env = Ok (Some v, true) →
  ∃ path raw, env_var_ok env (str "NW_GRANT_VERIFY_KEYS_FILE") = Some path ∧
    rd path = Some raw ∧ parse_grant_verifier raw = Ok v.
Proof.
  unfold load_grant_verifier.
  destruct (env_var_ok env (str "NW_GRANT_VERIFY_KEYS_FILE")) as [path|];
    destruct (env_var_ok env (str "NW_GRANT_VERIFY_KEYS")) as [raw|]; try done; intros H.
  - inv_ok H. injection H as <-. eauto.
  - destruct (negb _ || _); [done|]. inv_ok H. done.
Qed.

Lemma read_role_strict b env r :
  strict b = true → read_role b env = Ok r →
  ∃ s, env_var env (str "NW_NODE_ROLE") = Present s ∧ NodeRole_parse s = Ok r.
Proof. unfold read_role. intros ->. case_match; try done. eauto. Qed.

(** A configuration the node starts with is coherent, whatever the environment: the
    limits are positive and nested, the grant identity is complete or absent and well-formed,
    a measurement has 48 bytes, and an optimised build never serves without grants.  A
    hardware or release build moreover has its verification keys from the configured file, a
    realm, a node identifier, a stable TLS key and an explicitly given role. *)
Theorem from_env_posture b rd env cfg :
  from_env b rd env = Ok cfg →
  (1 ≤ max_connections_per_ip cfg ≤ max_connections cfg ∧
   max_connections cfg ≤ grant_replay_capacity cfg ≤ U64_MAX) ∧
  ((grant_verifier cfg = None ∧ grant_realm cfg = None ∧ node_id cfg = None) ∨
   (is_Some (grant_verifier cfg) ∧ is_Some (grant_realm cfg) ∧ is_Some (node_id cfg))) ∧
  (∀ i, grant_realm cfg = Some i ∨ node_id cfg = Some i → identifier_ok i) ∧
  (∀ a, attest cfg = Some a → length (na_measurement a) = 48%nat) ∧
  (debug_assertions b = false → allow_ungranted cfg = false) ∧
  (strict b = true → production_posture rd env cfg).
Proof.
  unfold from_env. intros H. inv_ok H.
  destruct x1 as [verifier from_file]. inv_ok H. injection H as <-.
  repeat match goal with
    | Hn : optional_identifier_env _ _ = Ok _ |- _ => apply optional_identifier_env_ok in Hn
    | Hc : validate_complete_grant_identity _ _ _ = Ok _ |- _ => apply validate_complete_ok in Hc
    end.
  rename select (negb (_ <? _) = true) into Hle1.
  rename select (negb (_ <? _) = true) into Hle2. reflect_bools.
  repeat match goal with
    | Hp : positive_usize_env _ _ _ = Ok _ |- _ =>
        apply positive_usize_env_range in Hp;
        [|unfold DEFAULT_MAX_CONNECTIONS, DEFAULT_MAX_CONNECTIONS_PER_IP,
            DEFAULT_GRANT_REPLAY_CAPACITY, U64_MAX in *; lia]
    end.
  cbn [max_connections max_connections_per_ip grant_replay_capacity grant_verifier
       grant_realm node_id attest allow_ungranted]. split_and!; try lia; try done.
  - intros i [Hi|Hi]; by match goal with K : _ ∧ _ |- _ => apply K in Hi end.
  - intros a ->. by eapply NodeAttest_from_env_ok.
  - by intros ->.
  - intros Hs. rewrite Hs in *. cbn [andb] in *. repeat match goal with
      | Hf : negb _ = true |- _ => apply negb_true_iff in Hf
      | Hf : (_ || _)%bool = false |- _ => apply orb_false_iff in Hf; destruct Hf
      | Hf : bool_decide (_ = None) = false |- _ => apply bool_decide_eq_false in Hf
      | Hf : negb _ = false |- _ => apply negb_false_iff in Hf; subst
      | Hf : _ ≠ None |- _ => apply not_eq_None_Some in Hf
      end. split; cbn [grant_realm node_id tls_key_file role allow_ungranted grant_verifier];
      try done; [|by eapply read_role_strict].
    rename select (is_Some verifier) into Hv. destruct Hv as [v ->].
    rename select (load_grant_verifier _ _ _ = _) into Hl.
    apply load_grant_verifier_file in Hl as (path & raw & ? & ? & ?). by exists path, raw, v.
Qed.

(** The text of a key file: one hex key per line, each with a comment. *)
Definition key_text (kc : bytes * bytes) : bytes := to_hex kc.1 ++ [x20; x23] ++ kc.2.

Definition key_file (entries : list (bytes * bytes)) : bytes := entries ≫= λ kc, key_text kc ++ [x0a].

Lemma to_hex_graphic l : Forall (λ b, graphic b = true) (to_hex l).
Proof.
  eapply Forall_impl; [apply to_hex_lower|]. cbn. intros b Hb.
  unfold is_lower_hex, is_ascii_digit in Hb. unfold graphic.
  apply orb_true_iff in Hb. rewrite !in_range_iff in *. lia.
Qed.

Lemma to_hex_avoids c l : is_lower_hex c = false → c ∉ to_hex l.
Proof.
  intros Hc Hin. pose proof (to_hex_lower l) as Hl. rewrite Forall_forall in Hl.
  specialize (Hl _ Hin). cbn in Hl. congruence.
Qed.

Lemma line_values_key k comment :
  k ≠ [] → line_values (key_text (k, comment)) = [to_hex k].
Proof.
  intros Hk. unfold line_values, key_text. cbn [fst snd].
  change ([x20; x23] ++ comment) with ([x20] ++ x23 :: comment). rewrite app_assoc.
  rewrite split_once_app, split_on_none.
  - cbn [fmap list_fmap]. rewrite trim_space by apply to_hex_graphic.
    rewrite filter_cons_True; [by rewrite filter_nil|]. destruct k; [done|]. by rewrite to_hex_cons.
  - rewrite elem_of_app, list_elem_of_singleton. intros [Hin|]; [|done].
    by apply to_hex_avoids in Hin.
  - rewrite elem_of_app, list_elem_of_singleton. intros [Hin|]; [|done].
    by apply to_hex_avoids in Hin.
Qed.

Lemma last_app_cons {A} (l k : list A) x : last (l ++ x :: k) = last (x :: k).
Proof. rewrite last_app. by destruct (last (x :: k)) eqn:E; [|apply last_None in E]. Qed.

Lemma key_text_line kc :
  x0a ∉ kc.2 → last kc.2 ≠ Some x0d → x0a ∉ key_text kc ∧ strip_cr (key_text kc) = key_text kc.
Proof.
  intros Hn Hr. unfold key_text. split.
  - rewrite !elem_of_app. intros [Hin|[Hin|Hin]]; [by apply to_hex_avoids in Hin| |done].
    set_solver.
  - unfold strip_cr. cbn [app]. rewrite last_app_cons.
    destruct (last (x20 :: x23 :: kc.2)) as [b|] eqn:E; [|done].
    rewrite decide_False; [done|]. intros ->. destruct (kc.2) as [|c l]; [done|].
    apply Hr. by rewrite <- E.
Qed.

Lemma lines_key_file entries :
  Forall (λ kc, x0a ∉ kc.2 ∧ last kc.2 ≠ Some x0d) entries →
  lines (key_file entries) = key_text <$> entries.
Proof.
  unfold lines. induction 1 as [|kc entries [Hc Hcr] _ IH]; [done|].
  destruct (key_text_line kc Hc Hcr) as [Hn Hs].
  cbn [key_file mbind list_bind fmap list_fmap]. rewrite <- app_assoc. cbn [app].
  rewrite split_on_app by done. rewrite <- IH. unfold key_file.
  destruct (split_on x0a _) eqn:E; [by apply split_on_nonempty in E|].
  cbn [lines_of]. by rewrite Hs.
Qed.

Lemma decode_key_hex k : length k = 32%nat → decode_key (to_hex k) = Ok k.
Proof. intros Hk. unfold decode_key. rewrite from_hex_to_hex. ok_step. by rewrite Hk. Qed.

(** A key file lists the verifier's keys and nothing else: a file with one hex key
    and a comment per line is read as exactly those keys, in order, whatever the
    comments say. *)
Theorem verifier_file_roundtrip entries :
  Forall (λ kc, length kc.1 = 32%nat ∧ x0a ∉ kc.2 ∧ last kc.2 ≠ Some x0d) entries →
  parse_grant_verifier (key_file entries) =
    map_err VerifierKeysRefused (GrantVerifier_new entries.*1).
Proof.
  intros Hall. unfold parse_grant_verifier. rewrite lines_key_file.
  2:{ eapply Forall_impl; [exact Hall|]. naive_solver. }
  assert (Hd : result_mapM decode_key ((key_text <$> entries) ≫= line_values) = Ok entries.*1).
  { induction Hall as [|[k c] entries (Hk & _) _ IH]; [done|].
    cbn [fmap list_fmap mbind list_bind fst] in *. rewrite line_values_key by (by destruct k).
    cbn [app result_mapM]. rewrite decode_key_hex, Ok_bind by done. by rewrite IH. }
  by rewrite Hd, Ok_bind.
Qed.

End Properties.

(** ** Witnesses *)

Section Witnesses.
Import Toy.

Definition w_env : Env := list_to_map [
  (str "NW_GRANT_VERIFY_KEYS_FILE", str "/etc/nil/keys");
  (str "NW_GRANT_REALM", str "prod"); (str "NW_NODE_ID", str "exit-1");
  (str "NW_NODE_TLS_KEY_FILE", str "/etc/nil/tls.key"); (str "NW_NODE_ROLE", str "exit");
  (str "NW_NODE_MAX_CONNECTIONS", str "16"); (str "NW_NODE_BIND", str "[::1]:8443");
  (str "NW_NODE_TEE", str "tdx"); (str "NW_NODE_MEASUREMENT", to_hex (replicate 48 x07))].

Definition w_entries : list (bytes * bytes) := [(public_key_bytes w_key, str " active")].

Definition w_release : Build := {| debug_assertions := false; hw_attest := true |}.

Definition w_read : bytes → option bytes := λ _, Some (key_file w_entries).

Lemma w_from_env : (max_connections <$> ok (from_env w_release w_read w_env)) = Some 16.
Proof. by vm_compute. Qed.

Lemma from_env_posture_witness :
  ∃ cfg, from_env w_release w_read w_env = Ok cfg ∧ production_posture w_read w_env cfg ∧
    max_connections_per_ip cfg ≤ 16.
Proof.
  pose proof w_from_env as Hm.
  destruct (from_env w_release w_read w_env) as [cfg|e] eqn:E; [|discriminate Hm].
  exists cfg. injection Hm as Hm.
  destruct (from_env_posture _ _ _ _ E) as ([H1 H2] & _ & _ & _ & _ & H).
  split; [done|]. split; [by apply H|lia].
Defined.

Lemma verifier_file_roundtrip_witness :
  parse_grant_verifier (key_file w_entries) =
    map_err VerifierKeysRefused (GrantVerifier_new w_entries.*1).
Proof.
  apply (verifier_file_roundtrip w_entries). constructor; [|constructor].
  split; [by vm_compute|]. split; [|by vm_compute].
  by apply (bool_decide_unpack (x0a ∉ str " active")).
Defined.

End Witnesses.
