(* ===== verification/Exit.v ===== *)
(** * Egress rules ([crates/nil-node/src/exit.rs])

    The packet-filter rules a node installs, scoped by its role.  The packet filter itself
    is outside the repository: its rule matching is a parameter, with the documented
    meaning of the options the rules use as a law.  The file proves what each role lets out
    of its tunnel, that teardown removes what setup added, and that the address pool hands
    out addresses the rules do not translate. *)

From S2P Require Import Prelude.
From S2P Require Import Text.
From S2P Require Import Net.
From S2P Require Import Crypto.
From S2P Require Import Env.
From S2P Require Import Grant.
From S2P Require Import Pool.
From S2P Require Import NodeConfig.
From Stdlib Require Import Strings.Byte ZArith Lia.
From stdpp Require Import prelude gmap strings.

Local Open Scope Z_scope.

Definition NODE_QUIC_PORT : bytes := str "443".

Definition role_has_open_egress (r : NodeRole) : bool :=
  match r with NExit => true | _ => false end.

Section Rules.
Context `{Hsha : Sha256, Hed : Ed25519}.

(** The arguments of each [iptables] call, in order. *)
Definition nat_rules (cfg : NodeConfig) : list (list bytes) :=
  let tun := tun_name cfg in
  let cidr := tunnel_cidr cfg in
  let eg := egress cfg in
  if role_has_open_egress (role cfg) then
    [ [str "-t"; str "nat"; str "-A"; str "POSTROUTING"; str "-s"; cidr; str "-o"; eg;
       str "-j"; str "MASQUERADE"];
      [str "-A"; str "FORWARD"; str "-i"; tun; str "-j"; str "ACCEPT"];
      [str "-A"; str "FORWARD"; str "-o"; tun; str "-j"; str "ACCEPT"] ]
  else
    [ [str "-t"; str "nat"; str "-A"; str "POSTROUTING"; str "-s"; cidr; str "-o"; eg;
       str "-p"; str "udp"; str "--dport"; NODE_QUIC_PORT; str "-j"; str "MASQUERADE"];
      [str "-A"; str "FORWARD"; str "-o"; tun; str "-j"; str "ACCEPT"];
      [str "-A"; str "FORWARD"; str "-i"; tun; str "-p"; str "udp"; str "--dport";
       NODE_QUIC_PORT; str "-j"; str "ACCEPT"];
      [str "-A"; str "FORWARD"; str "-i"; tun; str "-j"; str "DROP"] ].

(** Teardown: each rule again, with the append flag turned into delete. *)
Definition delete_form (rule : list bytes) : list bytes :=
  (λ tok, if decide (tok = str "-A") then str "-D" else tok) <$> rule.

Definition teardown_rules (cfg : NodeConfig) : list (list bytes) := delete_form <$> nat_rules cfg.

End Rules.

(** ** The packet filter, as documented *)

Record Packet := {
  in_if : bytes;
  out_if : bytes;
  pkt_src : Ipv4Addr;
  is_udp : bool;
  dport : Z;
}.

(** [a.b.c.d/n] contains an address when they agree on the first [n] bits. *)
Definition cidr_contains (cidr : bytes) (ip : Ipv4Addr) : bool :=
  match split_once x2f cidr with
  | Some (net, len) =>
      match parse_ipv4 net, parse_uint 32 len with
      | Some net, Some n =>
          Z.shiftr (u32_of_ip net) (32 - n) =? Z.shiftr (u32_of_ip ip) (32 - n)
      | _, _ => false
      end
  | None => false
  end.

(** Every option of the rules takes one argument. *)
Fixpoint options (rule : list bytes) : list (bytes * bytes) :=
  match rule with
  | flag :: value :: rule => (flag, value) :: options rule
  | _ => []
  end.

Definition option_value (flag : bytes) (rule : list bytes) : option bytes :=
  snd <$> find (λ o, bool_decide (o.1 = flag)) (options rule).

(** The match options; the others ([-t], [-A], [-j]) select table, chain and target. *)
Definition option_holds (p : Packet) (o : bytes * bytes) : bool :=
  let '(flag, value) := o in
  if decide (flag = str "-s") then cidr_contains value (pkt_src p)
  else if decide (flag = str "-i") then bool_decide (in_if p = value)
  else if decide (flag = str "-o") then bool_decide (out_if p = value)
  else if decide (flag = str "-p") then bool_decide (value = str "udp") && is_udp p
  else if decide (flag = str "--dport") then
    match parse_uint 65535 value with Some n => is_udp p && (dport p =? n) | None => false end
  else true.

Definition known_flags : list bytes :=
  [str "-t"; str "-A"; str "-s"; str "-i"; str "-o"; str "-p"; str "--dport"; str "-j"].

Class PacketFilter := rule_matches : list bytes → Packet → bool.

(** A rule made of these options matches exactly the packets for which all hold. *)
Class PacketFilterLaws `{PacketFilter} : Prop :=
  rule_matches_options : ∀ rule p,
    Forall (λ o : bytes * bytes, o.1 ∈ known_flags) (options rule) →
    rule_matches rule p = forallb (option_holds p) (options rule).

(** Rules of a chain are tried in order; the first match decides. *)
Definition verdict `{PacketFilter} (chain : bytes) (rules : list (list bytes)) (p : Packet) :
    option bytes :=
  find (λ r, bool_decide (option_value (str "-A") r = Some chain) && rule_matches r p) rules
    ≫= option_value (str "-j").

(** ** What each role lets through *)

Section Egress.
Context `{Hsha : Sha256, Hed : Ed25519, Hpf : PacketFilter, Hlaws : !PacketFilterLaws}.

Definition to_next_hop (p : Packet) : bool := is_udp p && (dport p =? 443).

Definition forward_spec (cfg : NodeConfig) (p : Packet) : option bytes :=
  if decide (out_if p = tun_name cfg) then Some (str "ACCEPT")
  else if decide (in_if p = tun_name cfg) then
    Some (if role_has_open_egress (role cfg) || to_next_hop p
          then str "ACCEPT" else str "DROP")
  else None.

Definition translate_spec (cfg : NodeConfig) (p : Packet) : option bytes :=
  if cidr_contains (tunnel_cidr cfg) (pkt_src p) && bool_decide (out_if p = egress cfg)
     && (role_has_open_egress (role cfg) || to_next_hop p)
  then Some (str "MASQUERADE") else None.

Lemma nat_rules_known cfg rule :
  rule ∈ nat_rules cfg → Forall (λ o : bytes * bytes, o.1 ∈ known_flags) (options rule).
Proof.
  unfold nat_rules. destruct (role_has_open_egress _); intros Hin;
    repeat (apply elem_of_cons in Hin as [->|Hin]); try (by apply elem_of_nil in Hin);
    cbn [options]; repeat constructor;
    apply (bool_decide_unpack _); by vm_compute.
Qed.

Lemma verdict_options chain cfg p :
  verdict chain (nat_rules cfg) p =
  find (λ r, bool_decide (option_value (str "-A") r = Some chain)
             && forallb (option_holds p) (options r)) (nat_rules cfg)
    ≫= option_value (str "-j").
Proof.
  unfold verdict. f_equal. generalize (nat_rules_known cfg).
  generalize (nat_rules cfg). intros rules Hk. induction rules as [|r rules IH]; cbn; [done|].
  rewrite rule_matches_options by (apply Hk; by left). destruct (_ && _); [done|].
  apply IH. intros r' Hr'. apply Hk. by right.
Qed.

(** One lemma per option. *)
Lemma holds_table p v : option_holds p (str "-t", v) = true.
Proof. reflexivity. Qed.
Lemma holds_chain p v : option_holds p (str "-A", v) = true.
Proof. reflexivity. Qed.
Lemma holds_target p v : option_holds p (str "-j", v) = true.
Proof. reflexivity. Qed.
Lemma holds_source p v : option_holds p (str "-s", v) = cidr_contains v (pkt_src p).
Proof. reflexivity. Qed.
Lemma holds_in p v : option_holds p (str "-i", v) = bool_decide (in_if p = v).
Proof. reflexivity. Qed.
Lemma holds_out p v : option_holds p (str "-o", v) = bool_decide (out_if p = v).
Proof. reflexivity. Qed.
Lemma holds_quic p :
  option_holds p (str "-p", str "udp") && (option_holds p (str "--dport", NODE_QUIC_PORT) && true)
  = to_next_hop p.
Proof.
  change (option_holds p (str "-p", str "udp")) with (is_udp p).
  change (option_holds p (str "--dport", NODE_QUIC_PORT)) with (is_udp p && (dport p =? 443)).
  unfold to_next_hop. by destruct (is_udp p), (dport p =? 443).
Qed.

Ltac eval_rules :=
  cbn [find options forallb];
  rewrite ?holds_table, ?holds_chain, ?holds_target, ?holds_source, ?holds_in, ?holds_out,
    ?holds_quic;
  repeat match goal with
    | |- context [bool_decide (option_value ?a ?r = ?c)] =>
        first [ change (bool_decide (option_value a r = c)) with true
              | change (bool_decide (option_value a r = c)) with false ]
    end; cbn [andb orb].

Lemma egress_verdicts cfg p :
  verdict (str "FORWARD") (nat_rules cfg) p = forward_spec cfg p ∧
  verdict (str "POSTROUTING") (nat_rules cfg) p = translate_spec cfg p.
Proof.
  rewrite !verdict_options. unfold nat_rules, forward_spec, translate_spec.
  destruct (role_has_open_egress (role cfg)); eval_rules;
    rewrite ?andb_true_r; split.
  all: destruct (decide (out_if p = tun_name cfg)), (decide (in_if p = tun_name cfg));
    repeat match goal with
      | H : ?x = ?y |- context [bool_decide (?x = ?y)] => rewrite (bool_decide_true (x = y)) by done
      | H : ?x ≠ ?y |- context [bool_decide (?x = ?y)] => rewrite (bool_decide_false (x = y)) by done
      end; destruct (cidr_contains (tunnel_cidr cfg) (pkt_src p)), (bool_decide (out_if p = egress cfg)),
      (to_next_hop p);
    reflexivity.
Qed.

(** The rules let out of the tunnel exactly what the role allows, for every packet and
    whatever the interface names: an exit forwards and translates everything from its
    tunnel, an entry or middle node forwards from its tunnel towards other interfaces only
    UDP to port 443 and drops the rest, and translates nothing else.  Packets towards the
    tunnel are accepted on every role, also those that come from the tunnel. *)
Theorem egress_by_role cfg p :
  verdict (str "FORWARD") (nat_rules cfg) p = forward_spec cfg p ∧
  verdict (str "POSTROUTING") (nat_rules cfg) p = translate_spec cfg p.
Proof.
  apply egress_verdicts.
Qed.

Lemma options_delete_form rule :
  Forall (λ o : bytes * bytes, o.2 ≠ str "-A") (options rule) →
  options (delete_form rule) = (λ o : bytes * bytes,
    (if decide (o.1 = str "-A") then str "-D" else o.1, o.2)) <$> options rule.
Proof.
  unfold delete_form. induction rule as [| |f v rule IH] using pair_ind; [done..|].
  cbn [options fmap list_fmap]. intros [Hv Hr]%Forall_cons. cbn [fst snd] in *.
  rewrite (decide_False (P := v = str "-A")) by done. f_equal. by apply IH.
Qed.

(** Teardown deletes, one by one and in order, the rules setup appended, unless an interface
    is called like the append flag. *)
Lemma teardown_matches cfg :
  str "-A" ∉ [tun_name cfg; tunnel_cidr cfg; egress cfg] →
  (options <$> teardown_rules cfg) =
    (λ rule, (λ o : bytes * bytes, (if decide (o.1 = str "-A") then str "-D" else o.1, o.2))
               <$> options rule) <$> nat_rules cfg.
Proof.
  rewrite !not_elem_of_cons. intros (H1 & H2 & H3 & _).
  unfold teardown_rules. rewrite <- list_fmap_compose. apply list_fmap_ext.
  intros i rule Hr. apply options_delete_form. apply list_elem_of_lookup_2 in Hr. revert Hr.
  unfold nat_rules. destruct (role_has_open_egress _); intros Hin;
    repeat (apply elem_of_cons in Hin as [->|Hin]); try (by apply elem_of_nil in Hin);
    cbn [options]; repeat constructor; cbn [snd]; try done; apply (bool_decide_unpack _); by vm_compute.
Qed.

(** ** The pool and the rules *)

Definition cycle (i : nat) : list PoolOp := [Assign [z2b (Z.of_nat i)]; Release [z2b (Z.of_nat i)]].

(** [n] clients, one after the other, each gone before the next comes. *)
Definition cycles (n : nat) : list PoolOp := seq 0 n ≫= cycle.

Definition start_pool : AddressPool :=
  default {| first := 0; last_ := 0; cursor := 0; in_use := ∅; by_conn := ∅ |} default_v4.

Lemma address_255 :
  default_v4 = Some start_pool ∧
  (assign (pool_run start_pool (cycles 254)) [x00]).2 = Some (Ipv4 x0a x4a x01 x00).
Proof. by vm_compute. Qed.

Lemma from_env_cidr b rd env cfg : from_env b rd env = Ok cfg → tunnel_cidr cfg = str "10.74.0.0/24".
Proof.
  unfold from_env. intros H. inv_ok H. destruct x1. inv_ok H. by injection H as <-.
Qed.

(** The pool spans a /16 and the rules translate a /24.  However a node is configured,
    once 254 clients have come and gone the next one, alone on the node, is given
    10.74.1.0, and no rule translates a packet from that address. *)
Theorem pool_outgrows_nat b rd env cfg p :
  from_env b rd env = Ok cfg →
  pkt_src p = Ipv4 x0a x4a x01 x00 →
  (assign (pool_run start_pool (cycles 254)) [x00]).2 = Some (pkt_src p) ∧
  verdict (str "POSTROUTING") (nat_rules cfg) p = None.
Proof.
  intros Hc%from_env_cidr Hp. split; [rewrite Hp; apply address_255|].
  destruct (egress_verdicts cfg p) as [_ ->]. unfold translate_spec. by rewrite Hc, Hp.
Qed.

End Egress.

(** ** Witnesses *)

Section Witnesses.
Import Toy.

(** A filter that matches as documented. *)
#[local] Instance filter_by_options : PacketFilter := λ rule p,
  forallb (option_holds p) (options rule).

#[local] Instance filter_by_options_laws : PacketFilterLaws.
Proof. by intros rule p _. Qed.

Definition w_packet : Packet :=
  {| in_if := str "nil0"; out_if := str "eth0"; pkt_src := Ipv4 x0a x4a x01 x00;
     is_udp := true; dport := 443 |}.

Lemma egress_by_role_witness :
  match from_env w_release w_read w_env with
  | Ok cfg => verdict (str "FORWARD") (nat_rules cfg) w_packet = forward_spec cfg w_packet
  | Err _ => False
  end.
Proof.
  pose proof w_from_env as Hm.
  destruct (from_env w_release w_read w_env) as [cfg|e]; [|discriminate Hm].
  exact (proj1 (egress_by_role cfg w_packet)).
Defined.

Lemma pool_outgrows_nat_witness :
  ∃ cfg, from_env w_release w_read w_env = Ok cfg ∧
    verdict (str "POSTROUTING") (nat_rules cfg) w_packet = None.
Proof.
  pose proof w_from_env as Hm.
  destruct (from_env w_release w_read w_env) as [cfg|e] eqn:E; [|discriminate Hm].
  exists cfg. split; [done|]. exact (proj2 (pool_outgrows_nat _ _ _ _ w_packet E eq_refl)).
Defined.

End Witnesses.
