(* ===== verification/Retry.v ===== *)
(** * Stateless source-address validation ([crates/nil-node/src/retry.rs])

    The token a node sends in a QUIC Retry and checks when the client returns it.  SHA-256
    is the parameter of [Crypto]; HMAC, the address encoding and the constant-time comparison
    are the node's own and are written out. *)

From S2P Require Import Prelude.
From S2P Require Import Text.
From S2P Require Import Net.
From S2P Require Import Crypto.
From Stdlib Require Import Strings.Byte ZArith Lia.
From stdpp Require Import prelude strings.

Local Open Scope Z_scope.

Definition TOKEN_TAG : bytes := str "nil-quic-retry-v1".
Definition MAC_LEN : nat := 16.
Definition HMAC_BLOCK : nat := 64.

Definition v6_octets (ip : Ipv6Addr) : bytes := segments ip ≫= be_bytes 2.

Definition addr_bytes (src : SocketAddr) : bytes :=
  match src with
  | SaV4 a => x04 :: octets (sa_ip a)
  | SaV6 a => x06 :: v6_octets (sa6_ip a)
  end ++ be_bytes 2 (sa_port_of src).

Definition xor_byte (a b : byte) : byte := z2b (Z.lxor (b2z a) (b2z b)).

(** The loop of [ct_eq]: [diff |= x ^ y] over the pairs. *)
Definition ct_eq (a b : bytes) : bool :=
  if negb (length a =? length b)%nat then false
  else foldl (λ diff xy, Z.lor diff (Z.lxor (b2z xy.1) (b2z xy.2))) 0 (zip a b) =? 0.

Section Retry.
Context `{Hsha : Sha256}.

Definition hmac_key_block (key : bytes) : bytes :=
  if (HMAC_BLOCK <? length key)%nat
  then sha256 key ++ replicate (HMAC_BLOCK - 32) x00
  else key ++ replicate (HMAC_BLOCK - length key) x00.

Definition hmac_sha256 (key msg : bytes) : bytes :=
  let k0 := hmac_key_block key in
  let ipad := map (xor_byte x36) k0 in
  let opad := map (xor_byte x5c) k0 in
  sha256 (opad ++ sha256 (ipad ++ msg)).

Definition mac_message (src : SocketAddr) (odcid : bytes) : bytes :=
  TOKEN_TAG ++ addr_bytes src ++ odcid.

Definition retry_mac (key : bytes) (src : SocketAddr) (odcid : bytes) : bytes :=
  take MAC_LEN (hmac_sha256 key (mac_message src odcid)).

(** [odcid.len() as u8] keeps the low eight bits. *)
Definition retry_mint (key : bytes) (src : SocketAddr) (odcid : bytes) : bytes :=
  TOKEN_TAG ++ [z2b (Z.of_nat (length odcid))] ++ odcid ++ retry_mac key src odcid.

Definition strip_prefix (p l : bytes) : option bytes :=
  if starts_with p l then Some (drop (length p) l) else None.

Definition retry_validate (key : bytes) (src : SocketAddr) (token : bytes) : option bytes :=
  rest ← strip_prefix TOKEN_TAG token;
  match rest with
  | [] => None
  | odcid_len :: rest =>
      let odcid_len := Z.to_nat (b2z odcid_len) in
      if negb (length rest =? odcid_len + MAC_LEN)%nat then None
      else
        let odcid := take odcid_len rest in
        let mac := drop odcid_len rest in
        if ct_eq mac (retry_mac key src odcid) then Some odcid else None
  end.

End Retry.

(** ** Lemmas *)

Lemma ct_fold_zero l acc :
  0 ≤ acc →
  foldl (λ diff (xy : byte * byte), Z.lor diff (Z.lxor (b2z xy.1) (b2z xy.2))) acc l = 0 ↔
  acc = 0 ∧ Forall (λ xy : byte * byte, xy.1 = xy.2) l.
Proof.
  revert acc. induction l as [|[x y] l IH]; intros acc Hacc; cbn [foldl fst snd].
  - split; [by intros ->|]. by intros [-> _].
  - assert (Hx : 0 ≤ Z.lxor (b2z x) (b2z y)).
    { apply Z.lxor_nonneg. pose proof (b2z_range x). pose proof (b2z_range y). lia. }
    rewrite IH by (apply Z.lor_nonneg; lia).
    rewrite Z.lor_eq_0_iff, Z.lxor_eq_0_iff, Forall_cons. cbn [fst snd]. split.
    + intros [[-> ?%b2z_inj] ?]. done.
    + intros (-> & -> & ?). done.
Qed.

(** The constant-time loop decides equality. *)
Lemma ct_eq_spec a b : ct_eq a b = bool_decide (a = b).
Proof.
  unfold ct_eq. destruct (Nat.eqb_spec (length a) (length b)) as [Hl|Hl]; cbn [negb].
  2:{ symmetry. apply bool_decide_eq_false. by intros ->. }
  apply Bool.eq_iff_eq_true. rewrite Z.eqb_eq, bool_decide_eq_true, ct_fold_zero by lia.
  revert b Hl. induction a as [|x a IH]; intros [|y b] Hl; try done; cbn [zip zip_with].
  rewrite Forall_cons. cbn [fst snd]. injection Hl as Hl. specialize (IH b Hl). split.
  - intros (_ & -> & Hf). f_equal. by apply IH.
  - intros [= -> ->]. split_and!; try done. by apply IH.
Qed.

(** The IP address and port a token is bound to. *)
Definition source_of (src : SocketAddr) : IpAddr * Z := (sa_ip_addr src, sa_port_of src).

Definition addr_ok (src : SocketAddr) : Prop :=
  u16 (sa_port_of src) ∧
  match src with
  | SaV4 _ => True
  | SaV6 a => length (segments (sa6_ip a)) = 8%nat ∧ Forall u16 (segments (sa6_ip a))
  end.

Lemma be_bytes_2_inj a b : u16 a → u16 b → be_bytes 2 a = be_bytes 2 b → a = b.
Proof.
  intros Ha Hb E. unfold_int. rewrite <- (be_value_be_bytes_small 2 a), E.
  - apply be_value_be_bytes_small. change (2 ^ (8 * Z.of_nat 2)) with 65536. lia.
  - change (2 ^ (8 * Z.of_nat 2)) with 65536. lia.
Qed.

Lemma v6_octets_inj s1 s2 l1 l2 :
  length s1 = length s2 → Forall u16 s1 → Forall u16 s2 →
  (s1 ≫= be_bytes 2) ++ l1 = (s2 ≫= be_bytes 2) ++ l2 → s1 = s2 ∧ l1 = l2.
Proof.
  revert s2. induction s1 as [|a s1 IH]; intros [|b s2] Hl H1 H2 E; try done.
  apply Forall_cons in H1 as [Ha H1]. apply Forall_cons in H2 as [Hb H2].
  cbn [mbind list_bind] in E. rewrite <- !app_assoc in E.
  apply app_inj_1 in E as [Eab E]; [|by rewrite !length_be_bytes].
  apply be_bytes_2_inj in Eab as ->; [|done..].
  apply IH in E as [-> ->]; [done|by injection Hl|done..].
Qed.

(** The encoding separates address families and is prefix-free. *)
Lemma addr_bytes_inj a b l1 l2 :
  addr_ok a → addr_ok b → addr_bytes a ++ l1 = addr_bytes b ++ l2 →
  source_of a = source_of b ∧ l1 = l2.
Proof.
  intros [Pa Ha] [Pb Hb]. unfold addr_bytes, source_of.
  destruct a as [[[a1 a2 a3 a4] pa]|[ipa pa fa sa]],
    b as [[[b1 b2 b3 b4] pb]|[ipb pb fb sb]];
    cbn [sa_port_of sa_ip_addr sa_ip sa_port sa6_ip sa6_port octets] in *; intros E;
    rewrite <- ?app_assoc in E; try discriminate E.
  - apply app_inj_1 in E as [Eip E]; [|done]. injection Eip as -> -> -> ->.
    apply app_inj_1 in E as [E ->]; [|by rewrite !length_be_bytes].
    by apply be_bytes_2_inj in E as ->.
  - apply (f_equal tail) in E. cbn [app tail] in E. destruct Ha as [La Ha], Hb as [Lb Hb].
    apply v6_octets_inj in E as [Eseg E]; [|congruence|done..].
    apply app_inj_1 in E as [E ->]; [|by rewrite !length_be_bytes].
    apply be_bytes_2_inj in E as ->; [|done..]. destruct ipa, ipb. cbn in Eseg. by subst.
Qed.

Section Theorems.
Context `{Hsha : Sha256, Hlaws : !Sha256Laws}.

Lemma length_retry_mac key src odcid : length (retry_mac key src odcid) = MAC_LEN.
Proof.
  unfold retry_mac. rewrite length_take. unfold hmac_sha256. rewrite sha256_length.
  reflexivity.
Qed.

Lemma strip_prefix_Some p l r : strip_prefix p l = Some r ↔ l = p ++ r.
Proof.
  unfold strip_prefix, starts_with. case_bool_decide as H; split.
  - intros [= <-]. rewrite <- (take_drop (length p) l) at 1. by rewrite H.
  - intros ->. by rewrite drop_app_length.
  - done.
  - intros ->. by rewrite take_app_length in H.
Qed.

(** A token is accepted exactly when it is the one minted for this source. *)
Lemma retry_validate_iff key src token odcid :
  retry_validate key src token = Some odcid ↔
  token = retry_mint key src odcid ∧ (length odcid < 256)%nat.
Proof.
  unfold retry_validate, retry_mint. split.
  - intros (rest & ->%strip_prefix_Some & H)%bind_Some. destruct rest as [|b rest]; [done|].
    pose proof (b2z_range b). destruct (Nat.eqb_spec (length rest) (Z.to_nat (b2z b) + MAC_LEN))
      as [Hl|]; cbn [negb] in H; [|done]. rewrite ct_eq_spec in H.
    case_bool_decide as Hm; [|done]. injection H as <-.
    rewrite length_take_le by lia. split; [|lia]. rewrite Z2Nat.id, z2b_b2z by lia.
    rewrite <- Hm. cbn [app]. by rewrite take_drop.
  - intros [-> Hl]. apply bind_Some. eexists. split; [by apply strip_prefix_Some|]. cbn [app].
    rewrite b2z_z2b_small, Nat2Z.id by lia. rewrite length_app, length_retry_mac, Nat.eqb_refl.
    cbn [negb]. rewrite take_app_length, drop_app_length, ct_eq_spec.
    by rewrite bool_decide_true.
Qed.

(** Source-address validation is exact: the node recovers the original connection
    identifier from every token it minted (identifiers are under 256 bytes), accepts
    nothing but such a token, and a token it accepts from two sources names the same
    identifier and the same address and port, or else two different messages collide under
    the truncated HMAC. *)
Theorem retry_token_exact key src odcid token :
  ((length odcid < 256)%nat → retry_validate key src (retry_mint key src odcid) = Some odcid) ∧
  (retry_validate key src token = Some odcid → token = retry_mint key src odcid) ∧
  (∀ src' odcid', addr_ok src → addr_ok src' →
     retry_validate key src token = Some odcid → retry_validate key src' token = Some odcid' →
     odcid = odcid' ∧
     (source_of src = source_of src' ∨
      ∃ m m', m ≠ m' ∧ take MAC_LEN (hmac_sha256 key m) = take MAC_LEN (hmac_sha256 key m'))).
Proof.
  split_and!.
  - intros. by apply retry_validate_iff.
  - by intros [-> _]%retry_validate_iff.
  - intros src' odcid' Ha Ha' [-> Hl]%retry_validate_iff [E Hl']%retry_validate_iff.
    unfold retry_mint in E. apply app_inv_head in E. cbn [app] in E. injection E as Elen E.
    assert (Hlen : length odcid = length odcid').
    { apply (f_equal b2z) in Elen. rewrite !b2z_z2b_small in Elen by lia. lia. }
    apply app_inj_1 in E as [<- E]; [|done]. split; [done|].
    destruct (decide (mac_message src odcid = mac_message src' odcid)) as [Em|Hne].
    + left. unfold mac_message in Em. apply app_inv_head in Em.
      by apply addr_bytes_inj in Em as [? _].
    + right. by exists (mac_message src odcid), (mac_message src' odcid).
Qed.

End Theorems.

(** ** Witness *)

Section Witnesses.
Import Toy.

Definition w_src : SocketAddr := SaV4 {| sa_ip := Ipv4 xcb x00 x71 x05; sa_port := 443 |}.
Definition w_retry_key : bytes := replicate 32 x07.

Lemma retry_token_exact_witness :
  retry_validate w_retry_key w_src (retry_mint w_retry_key w_src [x01; x02]) = Some [x01; x02].
Proof. apply (proj1 (retry_token_exact w_retry_key w_src [x01; x02] [])). cbn. lia. Defined.

End Witnesses.
