(* ===== verification/Checksum.v ===== *)
(** * Checksum finalisation ([crates/nil-core/src/checksum.rs])

    Packets read from a TUN may carry unfinished checksums; every datapath completes them
    before relaying.  Buffers are byte lists, in-place writes are updates of two bytes.  The
    file proves that what is written verifies, that nothing else changes and that a second
    run changes nothing, and shows what happens to IPv4 fragments. *)

From S2P Require Import Prelude.
From S2P Require Import Text.
From Stdlib Require Import Strings.Byte ZArith Lia.
From stdpp Require Import prelude strings.

Local Open Scope Z_scope.

(** ** The code *)

(** [buf[i..i + 2].copy_from_slice(&v.to_be_bytes())]. *)
Definition set16 (buf : bytes) (i : nat) (v : Z) : bytes :=
  <[S i := z2b v]> (<[i := z2b (Z.shiftr v 8)]> buf).

(** The sum of the 16-bit words, an odd last byte in the high half. *)
Fixpoint sum_words (data : bytes) : Z :=
  match data with
  | a :: b :: data => be_value [a; b] + sum_words data
  | [a] => Z.shiftl (b2z a) 8
  | [] => 0
  end.

(** The carry loop; on [u32] at most two turns change the sum. *)
Fixpoint fold_carry (fuel : nat) (sum : Z) : Z :=
  match fuel with
  | 0%nat => sum
  | S fuel =>
      if Z.shiftr sum 16 =? 0 then sum
      else fold_carry fuel (Z.land sum 0xffff + Z.shiftr sum 16)
  end.

Definition ones_complement (data : bytes) (initial : Z) : Z :=
  Z.lxor (fold_carry 3 (initial + sum_words data) mod 2 ^ 16) 0xffff.

(** Zero the field, sum the segment over the pseudo-header, write the result. *)
Definition write_l4 (pkt : bytes) (start l4_len csum_off : nat) (pseudo : bytes → Z)
    (never_zero : bool) : bytes :=
  let pkt := set16 pkt (start + csum_off) 0 in
  let sum := pseudo pkt in
  let csum := ones_complement (take l4_len (drop start pkt)) sum in
  let csum := if never_zero && (csum =? 0) then 0xffff else csum in
  set16 pkt (start + csum_off) csum.

Definition pseudo_v4 (proto : Z) (l4_len : nat) (pkt : bytes) : Z :=
  sum_words (take 8 (drop 12 pkt)) + proto + Z.of_nat l4_len.

Definition csum_off_v4 (proto : Z) : option nat :=
  if proto =? 6 then Some 16%nat else if proto =? 17 then Some 6%nat else None.

(** The header length of an IPv4 packet the code touches. *)
Definition v4_ihl (pkt : bytes) : option nat :=
  if (length pkt <? 20)%nat || negb (Z.shiftr (b2z (at_ pkt 0)) 4 =? 4) then None
  else
    let ihl := (Z.to_nat (Z.land (b2z (at_ pkt 0)) 0x0f) * 4)%nat in
    if (ihl <? 20)%nat || (length pkt <? ihl)%nat then None else Some ihl.

(** Length of the segment behind the header, and where its checksum is. *)
Definition v4_segment (pkt : bytes) (ihl : nat) : option (nat * nat) :=
  let proto := b2z (at_ pkt 9) in
  let total_len := Z.to_nat (u16_at pkt 2) in
  let end_ := (total_len `min` length pkt)%nat in
  if (end_ <=? ihl)%nat then None
  else
    csum_off ← csum_off_v4 proto;
    let l4_len := (end_ - ihl)%nat in
    if (l4_len <? csum_off + 2)%nat then None else Some (l4_len, csum_off).

Definition fix_ipv4_checksums (pkt : bytes) : bytes :=
  match v4_ihl pkt with
  | None => pkt
  | Some ihl =>
      let pkt := set16 pkt 10 0 in
      let pkt := set16 pkt 10 (ones_complement (take ihl pkt) 0) in
      match v4_segment pkt ihl with
      | None => pkt
      | Some (l4_len, csum_off) =>
          let proto := b2z (at_ pkt 9) in
          write_l4 pkt ihl l4_len csum_off (pseudo_v4 proto l4_len) (proto =? 17)
      end
  end.

Definition pseudo_v6 (next_header : Z) (l4_len : nat) (pkt : bytes) : Z :=
  sum_words (take 32 (drop 8 pkt)) + Z.shiftr (Z.of_nat l4_len) 16
  + Z.land (Z.of_nat l4_len) 0xffff + next_header.

Definition csum_off_v6 (next_header : Z) : option nat :=
  if next_header =? 6 then Some 16%nat
  else if next_header =? 17 then Some 6%nat
  else if next_header =? 58 then Some 2%nat else None.

Definition v6_segment (pkt : bytes) : option (nat * nat) :=
  if (length pkt <? 40)%nat || negb (Z.shiftr (b2z (at_ pkt 0)) 4 =? 6) then None
  else
    let payload_len := Z.to_nat (u16_at pkt 4) in
    csum_off ← csum_off_v6 (b2z (at_ pkt 6));
    let end_ := ((40 + payload_len) `min` length pkt)%nat in
    if (end_ <=? 40)%nat then None
    else
      let l4_len := (end_ - 40)%nat in
      if (l4_len <? csum_off + 2)%nat then None else Some (l4_len, csum_off).

Definition fix_ipv6_checksums (pkt : bytes) : bytes :=
  match v6_segment pkt with
  | None => pkt
  | Some (l4_len, csum_off) =>
      let next_header := b2z (at_ pkt 6) in
      write_l4 pkt 40 l4_len csum_off (pseudo_v6 next_header l4_len)
        ((next_header =? 17) || (next_header =? 58))
  end.

Definition fix_l4_checksums (pkt : bytes) : bytes :=
  match head pkt with
  | None => pkt
  | Some b =>
      if Z.shiftr (b2z b) 4 =? 4 then fix_ipv4_checksums pkt
      else if Z.shiftr (b2z b) 4 =? 6 then fix_ipv6_checksums pkt
      else pkt
  end.

(** ** The carry loop *)

(** The folded value of a sum: its class modulo 65535, with zero only for zero. *)
Definition folded (s : Z) : Z := if s =? 0 then 0 else (s - 1) mod 65535 + 1.

Lemma folded_range s : 0 ≤ s → 0 ≤ folded s ≤ 65535.
Proof.
  intros. unfold folded. destruct (Z.eqb_spec s 0); [lia|].
  pose proof (Z.mod_pos_bound (s - 1) 65535 ltac:(lia)). lia.
Qed.

Lemma folded_small s : 0 ≤ s ≤ 65535 → folded s = s.
Proof. intros. unfold folded. destruct (Z.eqb_spec s 0); [lia|]. rewrite Z.mod_small; lia. Qed.

Lemma folded_carry s : 0 ≤ s → folded (s mod 65536 + s / 65536) = folded s.
Proof.
  intros Hs. pose proof (Z.div_mod s 65536 ltac:(lia)).
  pose proof (Z.mod_pos_bound s 65536 ltac:(lia)). pose proof (Z.div_pos s 65536 Hs ltac:(lia)).
  set (q := s / 65536) in *. set (r := s mod 65536) in *. unfold folded.
  destruct (Z.eqb_spec (r + q) 0), (Z.eqb_spec s 0); try lia.
  f_equal. replace (s - 1) with (r + q - 1 + q * 65535) by lia. by rewrite Z.mod_add by lia.
Qed.

Lemma carry_step s : 0 ≤ s → Z.land s 0xffff + Z.shiftr s 16 = s mod 65536 + s / 65536.
Proof.
  intros. change 0xffff with (Z.ones 16). rewrite Z.land_ones, Z.shiftr_div_pow2 by lia.
  reflexivity.
Qed.

(** Three turns are enough for any [u32]: the loop ends and its value is the folded sum. *)
Lemma fold_carry_u32 s : 0 ≤ s ≤ U32_MAX → fold_carry 3 s = folded s.
Proof.
  intros Hs. unfold_int.
  assert (Hstep : ∀ fuel s, 0 ≤ s → fold_carry (S fuel) s =
    if decide (s ≤ 65535) then s else fold_carry fuel (s mod 65536 + s / 65536)).
  { intros fuel t Ht. cbn [fold_carry]. rewrite carry_step by lia.
    rewrite Z.shiftr_div_pow2 by lia. change (2 ^ 16) with 65536.
    destruct (decide (t ≤ 65535)) as [Hle|Hgt].
    - rewrite Z.div_small by lia. done.
    - destruct (Z.eqb_spec (t / 65536) 0) as [E|]; [|done].
      apply Z.div_small_iff in E; lia. }
  assert (Hred : ∀ t, 0 ≤ t → 0 ≤ t mod 65536 + t / 65536 ≤ 65535 + t / 65536).
  { intros t Ht. pose proof (Z.mod_pos_bound t 65536 ltac:(lia)).
    pose proof (Z.div_pos t 65536 Ht ltac:(lia)). lia. }
  rewrite Hstep by lia. destruct (decide _) as [Hle|Hgt]; [by rewrite folded_small by lia|].
  rewrite <- (folded_carry s) by lia. pose proof (Hred s ltac:(lia)) as Hb1.
  assert (s / 65536 ≤ 65535) by (apply Z.lt_succ_r, Z.div_lt_upper_bound; lia).
  set (s1 := s mod 65536 + s / 65536) in *. clearbody s1.
  rewrite Hstep by lia. destruct (decide _) as [Hle1|Hgt1]; [by rewrite folded_small by lia|].
  rewrite <- (folded_carry s1) by lia.
  assert (s1 / 65536 = 1) as Hq by (symmetry; apply Z.div_unique with (s1 - 65536); lia).
  assert (s1 mod 65536 = s1 - 65536) as Hr by (rewrite Z.mod_eq by lia; lia).
  rewrite Hq, Hr. set (s2 := s1 - 65536 + 1). rewrite Hstep by lia.
  rewrite decide_True by lia. by rewrite folded_small by lia.
Qed.

Lemma lxor_ones16 a : 0 ≤ a < 65536 → Z.lxor a 0xffff = 65535 - a.
Proof.
  intros Ha. change 0xffff with (Z.ones 16). rewrite Z.lxor_comm.
  pose proof (Z.sub_lxor_2rlandn (Z.ones 16) a) as H.
  rewrite Z.land_comm, <- Z.ldiff_land, Z.ldiff_ones_r in H by lia.
  rewrite Z.shiftr_div_pow2, Z.div_small in H by lia. change (Z.shiftl 0 16) with 0 in H.
  change (Z.ones 16) with 65535 in *. lia.
Qed.

Lemma ones_complement_folded data init :
  0 ≤ init + sum_words data ≤ U32_MAX →
  ones_complement data init = 65535 - folded (init + sum_words data).
Proof.
  intros H. unfold ones_complement. rewrite fold_carry_u32 by done.
  pose proof (folded_range (init + sum_words data) ltac:(lia)) as Hr.
  change (2 ^ 16) with 65536. rewrite Z.mod_small by lia. apply lxor_ones16. lia.
Qed.

(** Completing a sum with its complement makes it fold to all ones. *)
Lemma folded_complete s c :
  0 ≤ s → c = 65535 - folded s ∨ (c = 65535 ∧ folded s = 65535) → folded (s + c) = 65535.
Proof.
  intros Hs Hc. pose proof (folded_range s Hs) as Hr. unfold folded in *.
  destruct (Z.eqb_spec s 0) as [->|Hs0].
  { destruct Hc as [-> |[-> ?]]; [done|lia]. }
  set (m := (s - 1) mod 65535) in *. pose proof (Z.div_mod (s - 1) 65535 ltac:(lia)) as Hd.
  fold m in Hd. set (q := (s - 1) / 65535) in *.
  pose proof (Z.div_pos (s - 1) 65535 ltac:(lia) ltac:(lia)) as Hq. fold q in Hq.
  destruct (Z.eqb_spec (s + c) 0); [lia|].
  assert (∃ k, s + c - 1 = 65534 + k * 65535) as [k ->].
  { destruct Hc as [->|[-> ?]]; [exists q; lia|exists (q + 1); lia]. }
  rewrite Z.mod_add by lia. done.
Qed.

(** ** Words *)

Lemma sum_words_app pre l :
  Nat.Even (length pre) → sum_words (pre ++ l) = sum_words pre + sum_words l.
Proof.
  revert l. induction pre as [|a|a b pre IH] using pair_ind; intros l He;
    cbn [app sum_words length] in *.
  - lia.
  - destruct He as [k Hk]. lia.
  - rewrite IH; [lia|]. destruct He as [k Hk]. exists (k - 1)%nat. lia.
Qed.

Lemma word_range a b : 0 ≤ be_value [a; b] ≤ 65535.
Proof. pose proof (be_value_range [a; b]) as H. cbn [length] in H. change (2 ^ _) with 65536 in H. lia. Qed.

Lemma sum_words_range l : 0 ≤ sum_words l ≤ 65535 * Z.of_nat (length l `div` 2 + 1).
Proof.
  induction l as [|a|a b l IH] using pair_ind; cbn [sum_words length].
  - cbn. lia.
  - pose proof (b2z_range a). rewrite Z.shiftl_mul_pow2 by lia. cbn. lia.
  - pose proof (word_range a b). replace (S (S (length l))) with (length l + 1 * 2)%nat by lia.
    rewrite Nat.div_add by lia. lia.
Qed.

Lemma word_of_set v : 0 ≤ v ≤ 65535 → be_value [z2b (Z.shiftr v 8); z2b v] = v.
Proof.
  intros Hv. change [z2b (Z.shiftr v 8); z2b v] with (be_bytes 2 v).
  apply be_value_be_bytes_small. change (2 ^ (8 * Z.of_nat 2)) with 65536. lia.
Qed.

(** A buffer around a two-byte field. *)
Lemma set16_at (pre post : bytes) a b v :
  set16 (pre ++ a :: b :: post) (length pre) v = pre ++ z2b (Z.shiftr v 8) :: z2b v :: post.
Proof.
  unfold set16. rewrite insert_app_r_alt by lia. rewrite Nat.sub_diag. cbn [insert list_insert].
  rewrite insert_app_r_alt by lia.
  by replace (S (length pre) - length pre)%nat with 1%nat by lia.
Qed.

Lemma split_field (buf : bytes) i :
  (i + 2 ≤ length buf)%nat → ∃ pre a b post, buf = pre ++ a :: b :: post ∧ length pre = i.
Proof.
  intros Hi. pose proof (length_drop buf i) as Hl.
  destruct (drop i buf) as [|a [|b post]] eqn:E; cbn [length] in Hl; try lia.
  exists (take i buf), a, b, post. rewrite <- E, take_drop, length_take_le by lia. done.
Qed.

Lemma length_set16 buf i v : length (set16 buf i v) = length buf.
Proof. unfold set16. by rewrite !length_insert. Qed.

Lemma set16_set16 buf i v w :
  (i + 2 ≤ length buf)%nat → set16 (set16 buf i v) i w = set16 buf i w.
Proof. intros (pre & a & b & post & -> & <-)%split_field. by rewrite !set16_at. Qed.

Lemma set16_lookup buf i v j : j ≠ i → j ≠ S i → set16 buf i v !! j = buf !! j.
Proof. intros. unfold set16. by rewrite !list_lookup_insert_ne. Qed.

Lemma at_lookup buf i : at_ buf i = default x00 (buf !! i).
Proof. unfold at_. apply nth_lookup. Qed.

Lemma set16_at_other buf i v j : j ≠ i → j ≠ S i → at_ (set16 buf i v) j = at_ buf j.
Proof. intros. by rewrite !at_lookup, set16_lookup. Qed.

Lemma set16_u16_other buf i v j :
  (j + 1 < i ∨ S i < j)%nat → u16_at (set16 buf i v) j = u16_at buf j.
Proof. intros. unfold u16_at. by rewrite !set16_at_other by lia. Qed.

Lemma take_drop_set16 buf i v a n :
  (a + n ≤ i ∨ S i < a)%nat → take n (drop a (set16 buf i v)) = take n (drop a buf).
Proof.
  intros H. apply list_eq. intros j. destruct (decide (j < n)%nat).
  - rewrite !lookup_take_lt, !lookup_drop by done. apply set16_lookup; lia.
  - rewrite !lookup_take_ge by lia. done.
Qed.

(** The segment with its checksum field singled out. *)
Lemma segment_sum buf start len off v :
  Nat.Even off → (off + 2 ≤ len)%nat → (start + len ≤ length buf)%nat → 0 ≤ v ≤ 65535 →
  sum_words (take len (drop start (set16 buf (start + off) v))) =
  sum_words (take len (drop start (set16 buf (start + off) 0))) + v.
Proof.
  intros He Hoff Hlen Hv. destruct (split_field buf (start + off)) as (pre & a & b & post & -> & Hp); [lia|].
  rewrite <- Hp, !set16_at. rewrite <- (take_drop start pre).
  set (p0 := take start pre). set (p1 := drop start pre).
  assert (H0 : length p0 = start) by (unfold p0; rewrite length_take_le; lia).
  assert (H1 : length p1 = off) by (unfold p1; rewrite length_drop; lia).
  rewrite <- !app_assoc. rewrite <- H0, !drop_app_length.
  replace len with (length p1 + S (S (len - off - 2)))%nat by lia.
  rewrite !take_app_add. cbn [take].
  rewrite !sum_words_app by (by rewrite H1). cbn [sum_words].
  rewrite (word_of_set v) by lia. rewrite (word_of_set 0) by lia. lia.
Qed.

Lemma write_l4_spec buf start len off pseudo nz :
  Nat.Even off → (off + 2 ≤ len)%nat → (start + len ≤ length buf)%nat → Z.of_nat len ≤ 65535 →
  (∀ v, pseudo (set16 buf (start + off) v) = pseudo buf) → 0 ≤ pseudo buf ≤ 2 ^ 24 →
  ∃ c, write_l4 buf start len off pseudo nz = set16 buf (start + off) c ∧
    ones_complement (take len (drop start (set16 buf (start + off) c)))
      (pseudo (set16 buf (start + off) c)) = 0.
Proof.
  intros He Hoff Hlen Hmax Hps Hpb. unfold write_l4. rewrite Hps.
  set (rest := sum_words (take len (drop start (set16 buf (start + off) 0)))).
  set (c0 := ones_complement _ _).
  assert (Hr : 0 ≤ rest ≤ 65535 * 32768).
  { unfold rest. match goal with |- context [sum_words ?l] => pose proof (sum_words_range l) as Hb;
      assert (Hl : (length l ≤ len)%nat) by (rewrite length_take; lia) end.
    rewrite Nat2Z.inj_add, Nat2Z.inj_div in Hb.
    match type of Hb with context [?x / Z.of_nat 2] =>
      assert (x / Z.of_nat 2 < 32768) by (apply Z.div_lt_upper_bound; lia) end. lia. }
  change (2 ^ 24) with 16777216 in Hpb.
  assert (Hc0 : c0 = 65535 - folded (pseudo buf + rest)).
  { unfold c0. rewrite ones_complement_folded; fold rest; [done|]. unfold_int. lia. }
  pose proof (folded_range (pseudo buf + rest) ltac:(lia)) as Hf.
  eexists. split; [rewrite set16_set16 by lia; reflexivity|].
  set (c := if nz && (c0 =? 0) then 0xffff else c0).
  assert (Hc : c = 65535 - folded (pseudo buf + rest) ∨ (c = 65535 ∧ folded (pseudo buf + rest) = 65535)).
  { unfold c. destruct nz, (Z.eqb_spec c0 0); cbn [andb]; lia. }
  rewrite Hps, ones_complement_folded; rewrite segment_sum by (done || lia); fold rest; [|unfold_int; lia].
  rewrite Z.add_assoc, folded_complete by (done || lia). done.
Qed.

Lemma write_l4_idem buf start len off pseudo nz :
  (start + off + 2 ≤ length buf)%nat →
  write_l4 (write_l4 buf start len off pseudo nz) start len off pseudo nz =
  write_l4 buf start len off pseudo nz.
Proof. intros H. unfold write_l4. rewrite !set16_set16; rewrite ?length_set16; try lia. done. Qed.

(** ** Layout is stable under checksum writes *)

Lemma v4_ihl_stable pkt i v : (10 ≤ i)%nat → v4_ihl (set16 pkt i v) = v4_ihl pkt.
Proof. intros. unfold v4_ihl. rewrite length_set16. by rewrite !set16_at_other by lia. Qed.

Lemma v4_segment_stable pkt ihl i v :
  (10 ≤ i)%nat → v4_segment (set16 pkt i v) ihl = v4_segment pkt ihl.
Proof.
  intros. unfold v4_segment. rewrite length_set16, set16_at_other, set16_u16_other by lia. done.
Qed.

Lemma v6_segment_stable pkt i v : (40 ≤ i)%nat → v6_segment (set16 pkt i v) = v6_segment pkt.
Proof.
  intros. unfold v6_segment. rewrite length_set16. rewrite !set16_at_other by lia.
  by rewrite set16_u16_other by lia.
Qed.

Lemma v4_ihl_range pkt ihl :
  v4_ihl pkt = Some ihl → (20 ≤ ihl ≤ length pkt ∧ ihl ≤ 60)%nat ∧
  Z.shiftr (b2z (at_ pkt 0)) 4 = 4.
Proof.
  unfold v4_ihl. set (i := (Z.to_nat _ * 4)%nat).
  destruct ((_ <? 20)%nat || negb _) eqn:E1; [done|].
  destruct ((i <? 20)%nat || _) eqn:E2; [done|]. intros H. injection H as <-. reflect_bools.
  unfold i in *. clear i.
  assert (0 ≤ Z.land (b2z (at_ pkt 0)) 15 < 16); [|lia].
  change 15 with (Z.ones 4). rewrite Z.land_ones by lia. apply Z.mod_pos_bound. lia.
Qed.

Lemma v4_segment_range pkt ihl len off :
  v4_segment pkt ihl = Some (len, off) →
  Nat.Even off ∧ (off + 2 ≤ len)%nat ∧ (ihl + len ≤ length pkt)%nat ∧ Z.of_nat len ≤ 65535.
Proof.
  unfold v4_segment. pose proof (word_range (at_ pkt 2) (at_ pkt 3)).
  change (be_value _) with (u16_at pkt 2) in *.
  destruct (Nat.leb_spec (Z.to_nat (u16_at pkt 2) `min` length pkt) ihl); [done|].
  intros (o & Ho & Hl)%bind_Some. revert Hl. destruct (Nat.ltb_spec
    (Z.to_nat (u16_at pkt 2) `min` length pkt - ihl) (o + 2)); [done|]. intros [= <- <-].
  split_and!; try lia. unfold csum_off_v4 in Ho. repeat case_match; simplify_eq;
    [by exists 8%nat | by exists 3%nat].
Qed.

Lemma v6_segment_range pkt len off :
  v6_segment pkt = Some (len, off) →
  Nat.Even off ∧ (off + 2 ≤ len)%nat ∧ (40 + len ≤ length pkt)%nat ∧ Z.of_nat len ≤ 65535 ∧
  Z.shiftr (b2z (at_ pkt 0)) 4 = 6.
Proof.
  unfold v6_segment. destruct (_ || _) eqn:E; [done|]. reflect_bools.
  pose proof (word_range (at_ pkt 4) (at_ pkt 5)). change (be_value _) with (u16_at pkt 4) in *.
  intros (o & Ho & Hl)%bind_Some. revert Hl.
  assert (He : ((40 + Z.to_nat (u16_at pkt 4)) `min` length pkt ≤ length pkt)%nat ∧
    Z.of_nat ((40 + Z.to_nat (u16_at pkt 4)) `min` length pkt) ≤ 65575) by lia.
  set (e := ((40 + _) `min` _)%nat) in *. clearbody e.
  destruct (Nat.leb_spec e 40); [done|]. destruct (Nat.ltb_spec (e - 40) (o + 2)); [done|].
  intros [= <- <-]. split_and!; try lia; try done. unfold csum_off_v6 in Ho.
  repeat case_match; simplify_eq; [by exists 8%nat | by exists 3%nat | by exists 1%nat].
Qed.

Lemma sum_words_short l n :
  (length l ≤ n)%nat → (n ≤ 64)%nat → 0 ≤ sum_words l ≤ 2 ^ 23.
Proof.
  intros Hl Hn. pose proof (sum_words_range l) as H. change (2 ^ 23) with 8388608.
  assert (length l `div` 2 < 33)%nat by (apply Nat.Div0.div_lt_upper_bound; lia). lia.
Qed.

Lemma pseudo_v4_ok pkt proto len start off :
  0 ≤ proto < 256 → Z.of_nat len ≤ 65535 → (20 ≤ start)%nat →
  (∀ v, pseudo_v4 proto len (set16 pkt (start + off) v) = pseudo_v4 proto len pkt) ∧
  0 ≤ pseudo_v4 proto len pkt ≤ 2 ^ 24.
Proof.
  intros Hp Hl Hs. unfold pseudo_v4. split; [intros v; by rewrite take_drop_set16 by lia|].
  assert (0 ≤ sum_words (take 8 (drop 12 pkt)) ≤ 2 ^ 23); [|lia].
  apply (sum_words_short _ 8); [rewrite length_take; lia|lia].
Qed.

Lemma pseudo_v6_ok pkt nh len off :
  0 ≤ nh < 256 → Z.of_nat len ≤ 65535 →
  (∀ v, pseudo_v6 nh len (set16 pkt (40 + off) v) = pseudo_v6 nh len pkt) ∧
  0 ≤ pseudo_v6 nh len pkt ≤ 2 ^ 24.
Proof.
  intros Hp Hl. unfold pseudo_v6. split; [intros v; by rewrite take_drop_set16 by lia|].
  assert (0 ≤ sum_words (take 32 (drop 8 pkt)) ≤ 2 ^ 23).
  { apply (sum_words_short _ 32); [rewrite length_take; lia|lia]. }
  change 0xffff with (Z.ones 16). rewrite Z.land_ones, Z.shiftr_div_pow2 by lia.
  rewrite Z.div_small by lia. pose proof (Z.mod_pos_bound (Z.of_nat len) (2 ^ 16) ltac:(lia)).
  lia.
Qed.

(** ** The result *)

(** Every checksum the code is responsible for verifies. *)
Definition checksums_verify (p : bytes) : Prop :=
  (∀ ihl, v4_ihl p = Some ihl →
     ones_complement (take ihl p) 0 = 0 ∧
     ∀ len off, v4_segment p ihl = Some (len, off) →
       ones_complement (take len (drop ihl p)) (pseudo_v4 (b2z (at_ p 9)) len p) = 0) ∧
  (∀ len off, v6_segment p = Some (len, off) →
     ones_complement (take len (drop 40 p)) (pseudo_v6 (b2z (at_ p 6)) len p) = 0).

(** The bytes of the checksum fields. *)
Definition checksum_byte (p : bytes) (i : nat) : Prop :=
  (∃ ihl, v4_ihl p = Some ihl ∧
     (i = 10 ∨ i = 11 ∨ ∃ len off, v4_segment p ihl = Some (len, off) ∧
        (i = ihl + off ∨ i = S (ihl + off)))%nat) ∨
  (∃ len off, v6_segment p = Some (len, off) ∧ (i = 40 + off ∨ i = S (40 + off)))%nat.

Lemma v4_not_v6 p ihl : v4_ihl p = Some ihl → v6_segment p = None.
Proof.
  intros [_ Hv]%v4_ihl_range. destruct (v6_segment p) as [[len off]|] eqn:E; [|done].
  apply v6_segment_range in E as (_ & _ & _ & _ & E). lia.
Qed.

(** The header checksum is written by the same routine. *)
Lemma fix_ipv4_unfold pkt ihl :
  v4_ihl pkt = Some ihl →
  fix_ipv4_checksums pkt =
    let p1 := write_l4 pkt 0 ihl 10 (λ _, 0) false in
    match v4_segment pkt ihl with
    | None => p1
    | Some (len, off) => write_l4 p1 ihl len off (pseudo_v4 (b2z (at_ pkt 9)) len)
                           (b2z (at_ pkt 9) =? 17)
    end.
Proof.
  intros Hihl. unfold fix_ipv4_checksums. rewrite Hihl.
  rewrite !v4_segment_stable by lia. rewrite !set16_at_other by lia. done.
Qed.

Lemma header_spec pkt ihl :
  v4_ihl pkt = Some ihl →
  ∃ c, write_l4 pkt 0 ihl 10 (λ _, 0) false = set16 pkt 10 c ∧
    ones_complement (take ihl (set16 pkt 10 c)) 0 = 0.
Proof.
  intros [[? ?] _]%v4_ihl_range. destruct (write_l4_spec pkt 0 ihl 10 (λ _, 0) false)
    as (c & Hc & Ho); try lia; [by exists 5%nat|].
  cbn [Nat.add] in *. eauto.
Qed.

Lemma fix_ipv4_cases pkt ihl :
  v4_ihl pkt = Some ihl → ∃ c1,
  ones_complement (take ihl (set16 pkt 10 c1)) 0 = 0 ∧
  write_l4 pkt 0 ihl 10 (λ _, 0) false = set16 pkt 10 c1 ∧
  match v4_segment pkt ihl with
  | None => fix_ipv4_checksums pkt = set16 pkt 10 c1
  | Some (len, off) => ∃ c2,
      fix_ipv4_checksums pkt = set16 (set16 pkt 10 c1) (ihl + off) c2 ∧
      ones_complement (take len (drop ihl (fix_ipv4_checksums pkt)))
        (pseudo_v4 (b2z (at_ pkt 9)) len (fix_ipv4_checksums pkt)) = 0
  end.
Proof.
  intros Hihl. destruct (header_spec _ _ Hihl) as (c1 & Hc1 & Ho1). exists c1.
  rewrite (fix_ipv4_unfold _ _ Hihl), Hc1. do 2 (split; [done|]). cbv zeta.
  destruct (v4_segment pkt ihl) as [[len off]|] eqn:Eseg; [|done].
  apply v4_ihl_range in Hihl as [[? ?] _]. apply v4_segment_range in Eseg as (He & ? & ? & ?).
  destruct (pseudo_v4_ok (set16 pkt 10 c1) (b2z (at_ pkt 9)) len ihl off) as [Hps Hpb];
    [apply b2z_range|done|lia|].
  destruct (write_l4_spec (set16 pkt 10 c1) ihl len off (pseudo_v4 (b2z (at_ pkt 9)) len)
    (b2z (at_ pkt 9) =? 17)) as (c2 & -> & Ho2); try done; [by rewrite length_set16|].
  by exists c2.
Qed.

Lemma fix_ipv4_correct pkt ihl :
  v4_ihl pkt = Some ihl →
  let p := fix_ipv4_checksums pkt in
  length p = length pkt ∧ v4_ihl p = Some ihl ∧ v4_segment p ihl = v4_segment pkt ihl ∧
  at_ p 9 = at_ pkt 9 ∧ ones_complement (take ihl p) 0 = 0 ∧
  (∀ len off, v4_segment p ihl = Some (len, off) →
     ones_complement (take len (drop ihl p)) (pseudo_v4 (b2z (at_ p 9)) len p) = 0) ∧
  (∀ i, p !! i ≠ pkt !! i → checksum_byte pkt i).
Proof.
  intros Hihl. destruct (fix_ipv4_cases _ _ Hihl) as (c1 & Ho1 & _ & Hcase).
  pose proof (v4_ihl_range _ _ Hihl) as [[? ?] _].
  destruct (v4_segment pkt ihl) as [[len off]|] eqn:Eseg.
  - destruct Hcase as (c2 & Hp & Ho2). cbv zeta. rewrite Hp in *.
    pose proof (v4_segment_range _ _ _ _ Eseg) as (_ & ? & ? & _).
    rewrite !length_set16, !v4_ihl_stable, !v4_segment_stable, !set16_at_other by lia.
    rewrite Eseg. split_and!; try done.
    + etrans; [|exact Ho1]. f_equal. change (take ihl (set16 (set16 pkt 10 c1) (ihl + off) c2)) with
        (take ihl (drop 0 (set16 (set16 pkt 10 c1) (ihl + off) c2))).
      by rewrite take_drop_set16 by lia.
    + by intros ?? [= <- <-].
    + intros i Hi. left. exists ihl. split; [done|].
      destruct (decide (i = ihl + off ∨ i = S (ihl + off))%nat); [eauto 10|].
      destruct (decide (i = 10 ∨ i = 11)%nat); [naive_solver|].
      destruct Hi. by rewrite !set16_lookup by lia.
  - cbv zeta. rewrite Hcase.
    rewrite !length_set16, !v4_ihl_stable, !v4_segment_stable, !set16_at_other by lia.
    rewrite Eseg. split_and!; try done.
    intros i Hi. left. exists ihl. split; [done|].
    destruct (decide (i = 10 ∨ i = 11)%nat); [naive_solver|].
    destruct Hi. by rewrite !set16_lookup by lia.
Qed.

Lemma set16_comm buf i j v w :
  (S i < j)%nat → set16 (set16 buf i v) j w = set16 (set16 buf j w) i v.
Proof.
  intros. unfold set16.
  rewrite (list_insert_insert_ne _ j (S i)), (list_insert_insert_ne _ j i) by lia.
  by rewrite (list_insert_insert_ne _ (S j) (S i)), (list_insert_insert_ne _ (S j) i) by lia.
Qed.

Lemma take_set16 buf i v n : (n ≤ i)%nat → take n (set16 buf i v) = take n buf.
Proof.
  intros. pose proof (take_drop_set16 buf i v 0 n) as H0. rewrite !drop_0 in H0. apply H0. lia.
Qed.

Lemma write_l4_field buf start len off pseudo nz :
  (start + off + 2 ≤ length buf)%nat →
  ∃ c, write_l4 buf start len off pseudo nz = set16 buf (start + off) c.
Proof. intros. unfold write_l4. rewrite set16_set16 by done. eauto. Qed.

(** Rewriting the header checksum after the segment's changes nothing. *)
Lemma header_again pkt ihl len off pseudo nz :
  (20 ≤ ihl)%nat → (ihl + off + 2 ≤ length pkt)%nat →
  let p1 := write_l4 pkt 0 ihl 10 (λ _, 0) false in
  let p := write_l4 p1 ihl len off pseudo nz in
  write_l4 p 0 ihl 10 (λ _, 0) false = p.
Proof.
  intros Hi Hl. cbv zeta. set (p1 := write_l4 pkt 0 ihl 10 _ _).
  destruct (write_l4_field p1 ihl len off pseudo nz) as [c2 ->].
  { unfold p1, write_l4. rewrite !length_set16. lia. }
  unfold p1, write_l4. cbn [Nat.add andb]. rewrite !drop_0.
  rewrite !set16_set16 by (rewrite ?length_set16; lia).
  rewrite !(set16_comm _ 10 (ihl + off)) by lia. rewrite !set16_set16 by (rewrite ?length_set16; lia).
  do 2 f_equal. rewrite <- (set16_comm _ 10 (ihl + off)) by lia. apply take_set16. lia.
Qed.

(** A second run finds the same layout and writes the same bytes. *)
Lemma fix_ipv4_idem pkt : fix_ipv4_checksums (fix_ipv4_checksums pkt) = fix_ipv4_checksums pkt.
Proof.
  destruct (v4_ihl pkt) as [ihl|] eqn:Hihl.
  2:{ unfold fix_ipv4_checksums at 2 3. rewrite Hihl. unfold fix_ipv4_checksums. by rewrite Hihl. }
  destruct (fix_ipv4_correct _ _ Hihl) as (Hl & Hihl' & Hseg & H9 & Ho & Hol & _).
  pose proof (v4_ihl_range _ _ Hihl) as [[? ?] _].
  rewrite (fix_ipv4_unfold _ _ Hihl'). cbv zeta. rewrite Hseg, H9.
  rewrite (fix_ipv4_unfold _ _ Hihl) in *. cbv zeta in *.
  destruct (v4_segment pkt ihl) as [[len off]|] eqn:Eseg; [|apply write_l4_idem; lia].
  pose proof (v4_segment_range _ _ _ _ Eseg) as (_ & ? & ? & _).
  rewrite header_again by lia. apply write_l4_idem.
  unfold write_l4. rewrite !length_set16. lia.
Qed.

Lemma fix_ipv6_correct pkt len off :
  v6_segment pkt = Some (len, off) →
  let p := fix_ipv6_checksums pkt in
  length p = length pkt ∧ v6_segment p = Some (len, off) ∧
  ones_complement (take len (drop 40 p)) (pseudo_v6 (b2z (at_ p 6)) len p) = 0 ∧
  fix_ipv6_checksums p = p ∧ (∀ i, p !! i ≠ pkt !! i → checksum_byte pkt i).
Proof.
  intros Hseg. pose proof (v6_segment_range _ _ _ Hseg) as (He & ? & ? & ? & _). cbv zeta.
  assert (Hp : fix_ipv6_checksums pkt = write_l4 pkt 40 len off
    (pseudo_v6 (b2z (at_ pkt 6)) len) ((b2z (at_ pkt 6) =? 17) || (b2z (at_ pkt 6) =? 58))).
  { unfold fix_ipv6_checksums. by rewrite Hseg. }
  destruct (pseudo_v6_ok pkt (b2z (at_ pkt 6)) len off) as [Hps Hpb]; [apply b2z_range|done|].
  destruct (write_l4_spec pkt 40 len off (pseudo_v6 (b2z (at_ pkt 6)) len)
    ((b2z (at_ pkt 6) =? 17) || (b2z (at_ pkt 6) =? 58))) as (c & Hc & Ho); try done.
  assert (Hp' := Hp). rewrite Hc in Hp'. rewrite Hp'.
  rewrite length_set16, v6_segment_stable, set16_at_other by lia. split_and!; try done.
  - unfold fix_ipv6_checksums. rewrite v6_segment_stable, Hseg, set16_at_other by lia.
    rewrite <- Hc. apply write_l4_idem. lia.
  - intros i Hi. right. exists len, off. split; [done|].
    destruct (decide (i = 40 + off ∨ i = S (40 + off))%nat); [done|].
    destruct Hi. by rewrite set16_lookup by lia.
Qed.

Lemma head_at (p : bytes) b : head p = Some b → at_ p 0 = b.
Proof. destruct p; [done|]. by intros [= <-]. Qed.

Lemma fix_l4_v4 p ihl : v4_ihl p = Some ihl → fix_l4_checksums p = fix_ipv4_checksums p.
Proof.
  intros [[? ?] Hv]%v4_ihl_range. unfold fix_l4_checksums.
  destruct (head p) as [b|] eqn:E; [|by destruct p; [cbn in *; lia|]].
  apply head_at in E. by rewrite <- E, Hv.
Qed.

Lemma fix_l4_v6 p len off : v6_segment p = Some (len, off) → fix_l4_checksums p = fix_ipv6_checksums p.
Proof.
  intros (_ & ? & ? & _ & Hv)%v6_segment_range. unfold fix_l4_checksums.
  destruct (head p) as [b|] eqn:E; [|by destruct p; [cbn in *; lia|]].
  apply head_at in E. by rewrite <- E, Hv.
Qed.

Lemma fix_l4_other p : v4_ihl p = None → v6_segment p = None → fix_l4_checksums p = p.
Proof.
  intros H4 H6. unfold fix_l4_checksums, fix_ipv4_checksums, fix_ipv6_checksums.
  rewrite H4, H6. by repeat case_match.
Qed.

(** Completing the checksums is correct for every packet: the length is kept, only
    checksum fields change, every checksum then verifies (header and TCP/UDP for IPv4,
    TCP/UDP/ICMPv6 for IPv6, over the pseudo-header and without 32-bit overflow), and doing
    it again changes nothing. *)
Theorem fix_l4_checksums_correct pkt :
  let p := fix_l4_checksums pkt in
  length p = length pkt ∧ checksums_verify p ∧ fix_l4_checksums p = p ∧
  ∀ i, p !! i ≠ pkt !! i → checksum_byte pkt i.
Proof.
  cbv zeta. destruct (v4_ihl pkt) as [ihl|] eqn:H4.
  { rewrite (fix_l4_v4 _ _ H4).
    destruct (fix_ipv4_correct _ _ H4) as (Hl & H4' & Hseg & H9 & Ho & Hol & Hd).
    rewrite (fix_l4_v4 _ _ H4'), fix_ipv4_idem. split_and!; try done. split.
    - intros ihl' Hi. rewrite H4' in Hi. injection Hi as <-. done.
    - intros len off. by rewrite (v4_not_v6 _ _ H4'). }
  destruct (v6_segment pkt) as [[len off]|] eqn:H6.
  { rewrite (fix_l4_v6 _ _ _ H6).
    destruct (fix_ipv6_correct _ _ _ H6) as (Hl & H6' & Ho & Hi & Hd).
    rewrite (fix_l4_v6 _ _ _ H6'). split_and!; try done. split.
    - intros ihl Hv. apply v4_not_v6 in Hv. congruence.
    - intros len' off'. rewrite H6'. by intros [= <- <-]. }
  rewrite !fix_l4_other by (rewrite ?fix_l4_other; done). split_and!; try done.
  split; [intros ihl|intros len off]; congruence.
Qed.

(** ** Fragments *)

(** The second fragment of a UDP datagram: offset 8 bytes, payload [de ad be ef ...]. *)
Definition fragment : bytes :=
  [x45; x00; x00; x1c; x00; x01; x00; x01; x40; x11; x00; x00; x0a; x00; x00; x02; x01; x01; x01; x01;
   xde; xad; xbe; xef; xde; xad; xbe; xef].

(** Fragments are not told apart: a non-first IPv4 fragment, whose first payload bytes
    are not a UDP header, has two payload bytes overwritten by a checksum, although its
    header is already correct. *)
Theorem fragments_are_overwritten :
  let pkt := set16 fragment 10 (ones_complement (take 20 fragment) 0) in
  ones_complement (take 20 pkt) 0 = 0 ∧ Z.land (u16_at pkt 6) 0x1fff = 1 ∧
  drop 20 pkt = [xde; xad; xbe; xef; xde; xad; xbe; xef] ∧
  take 26 (fix_l4_checksums pkt) = take 26 pkt ∧
  drop 26 (fix_l4_checksums pkt) ≠ drop 26 pkt.
Proof. vm_compute. by split_and!. Qed.
