(* ===== verification/NodeServer.v ===== *)
(** * The node's CONNECT-IP server ([crates/nil-node/src/server.rs])

    The accept loop of a node: source-validated connections, one authorised CONNECT-IP
    tunnel per connection, client packets to the TUN and replies back.  A run of the node is
    a sequence of the steps the loop performs; the QUIC library, the random connection
    identifiers and the PQ-WireGuard layer are inputs. *)

From S2P Require Import Prelude.
From S2P Require Import Text.
From S2P Require Import Net.
From S2P Require Import Crypto.
From S2P Require Import Env.
From S2P Require Import Grant.
From S2P Require Import GrantReplay.
From S2P Require Import ConnectIp.
From S2P Require Import Checksum.
From S2P Require Import Pool.
From S2P Require Import NodeConfig.
From S2P Require Import Retry.
From Stdlib Require Import Strings.Byte ZArith Lia.
From stdpp Require Import prelude gmap strings.

Local Open Scope Z_scope.

Definition MAX_LEARNED_ROUTES_PER_CLIENT : nat := 4.

(** ** Packets *)

Definition relay_packet_targets (packet : bytes) (endpoint : SocketAddrV4) : bool :=
  if (length packet <? 28)%nat || negb (Z.shiftr (b2z (at_ packet 0)) 4 =? 4) then false
  else
    let ihl := (Z.to_nat (Z.land (b2z (at_ packet 0)) 0x0f) * 4)%nat in
    if (ihl <? 20)%nat || (length packet <? ihl + 8)%nat then false
    else
      let total_len := u16_at packet 2 in
      if negb (total_len =? Z.of_nat (length packet)) || (total_len <? Z.of_nat (ihl + 8)) then false
      else
        let flags_and_offset := u16_at packet 6 in
        if negb (Z.land flags_and_offset 0xbfff =? 0) || negb (b2z (at_ packet 9) =? 17) then false
        else if negb (bool_decide (take 4 (drop 16 packet) = octets (sa_ip endpoint))) then false
        else
          let udp_len := u16_at packet (ihl + 4) in
          if (udp_len <? 8) || negb (Z.of_nat ihl + udp_len =? total_len) then false
          else u16_at packet (ihl + 2) =? sa_port endpoint.

Inductive PacketPolicy := PolicyExit | PolicyRelay (endpoint : SocketAddrV4).

Definition policy_allows (p : PacketPolicy) (packet : bytes) : bool :=
  match p with
  | PolicyExit => true
  | PolicyRelay endpoint => relay_packet_targets packet endpoint
  end.

(** [Ipv6Addr::from([u8; 16])]. *)
Fixpoint segments_of (octs : bytes) : list Z :=
  match octs with
  | a :: b :: octs => be_value [a; b] :: segments_of octs
  | _ => []
  end.

Definition packet_ip (packet : bytes) (source : bool) : option IpAddr :=
  match packet with
  | [] => None
  | b :: _ =>
      let version := Z.shiftr (b2z b) 4 in
      if (version =? 4) && (20 <=? length packet)%nat then
        let offset := (if source then 12 else 16)%nat in
        Some (V4 (Ipv4 (at_ packet offset) (at_ packet (offset + 1)) (at_ packet (offset + 2))
                       (at_ packet (offset + 3))))
      else if (version =? 6) && (40 <=? length packet)%nat then
        let offset := (if source then 8 else 24)%nat in
        Some (V6 {| segments := segments_of (take 16 (drop offset packet)) |})
      else None
  end.

Definition packet_src_ip (packet : bytes) : option IpAddr := packet_ip packet true.
Definition packet_dst_ip (packet : bytes) : option IpAddr := packet_ip packet false.

(** Whether the packet may enter the TUN, and the routes after learning its source. *)
Definition learn_client_route (routes : gmap IpAddr bytes) (client_id : bytes)
    (assigned : option Ipv4Addr) (packet : bytes) : gmap IpAddr bytes * bool :=
  match packet_src_ip packet with
  | None => (routes, false)
  | Some src =>
      match routes !! src with
      | Some owner => (routes, bool_decide (owner = client_id))
      | None =>
          match assigned with
          | Some ip =>
              if decide (V4 ip = src) then (<[src := client_id]> routes, true)
              else (routes, false)
          | None =>
              let learned := size (filter (λ kv : IpAddr * bytes, kv.2 = client_id) routes) in
              if (MAX_LEARNED_ROUTES_PER_CLIENT <=? learned)%nat then (routes, false)
              else (<[src := client_id]> routes, true)
          end
      end
  end.

Definition accepts_client_datagrams (tunnel_up : bool) (flow_id authorized_flow_id : Z) : bool :=
  tunnel_up && (flow_id =? authorized_flow_id).

Definition connection_capacity_available (total same_source max_total max_per_source : Z) : bool :=
  (total <? max_total) && (same_source <? max_per_source).

(** ** Headers *)

Definition Header : Type := bytes * bytes.

Definition header_value (hdrs : list Header) (name : bytes) : option bytes :=
  snd <$> find (λ h, bool_decide (h.1 = name)) hdrs.

(** The refusals of [authorize_connect], by message. *)
Inductive AuthError :=
  | DuplicateHeader
  | MissingNonce
  | MalformedNonce
  | UngrantedIntermediate
  | NoVerifier
  | NoAttestedIdentity
  | NoRealm
  | NoNodeId
  | InvalidNodeIdentity
  | MissingGrant
  | MalformedGrant
  | InvalidGrant
  | PredecessorMismatch
  | NonceMismatch
  | GrantUsed
  | GrantPredatesProcess
  | ReplayCacheFull.

Definition unique_header_value (hdrs : list Header) (name : bytes) :
    result AuthError (option bytes) :=
  match filter (λ h : Header, h.1 = name) hdrs with
  | [] => Ok None
  | [h] => Ok (Some h.2)
  | _ => Err DuplicateHeader
  end.

Definition all_lower_hex (value : bytes) : bool := forallb is_lower_hex value.

(** The report of [attest.rs]: the evidence provider is the TEE (or, in a test build, the
    synthetic one); without one, or without an identity, there is no report. *)
Definition report_hex (evidence : NodeAttest → bytes → bytes → option bytes) (spki : bytes)
    (att : option NodeAttest) (nonce : bytes) : option bytes :=
  att ← att; e ← evidence att spki nonce; Some (to_hex e).

Definition build_connect_ok_response (evidence : NodeAttest → bytes → bytes → option bytes)
    (request_headers : list Header) (assigned : option Ipv4Addr) (node_spki : bytes)
    (att : option NodeAttest) : list Header :=
  let resp := [(str ":status", str "200"); (str "capsule-protocol", str "?1")]
    ++ match assigned with
       | Some ip => [(ASSIGNED_IP_HEADER, ipv4_to_string ip)]
       | None => []
       end in
  match unique_header_value request_headers ATTEST_NONCE_HEADER with
  | Ok (Some nonce_hex) =>
      if (length nonce_hex =? 64)%nat && all_lower_hex nonce_hex then
        match from_hex nonce_hex with
        | None => resp
        | Some nonce =>
            if (length nonce =? 32)%nat then
              match report_hex evidence node_spki att nonce with
              | Some report => resp ++ [(ATTEST_REPORT_HEADER, report)]
              | None => resp
              end
            else resp
        end
      else resp
  | _ => resp
  end.

(** ** Authorisation *)

Section Server.
Context `{Hsha : Sha256, Hed : Ed25519}.

(** The steps before the single-use check: the grant that authorises the tunnel, or nothing
    for a development exit that needs none. *)
Definition check_connect (b : Build) (headers : list Header) (cfg : NodeConfig)
    (node_spki : bytes) (peer_ip : IpAddr) (now : Z) : result AuthError (option VerifiedGrant) :=
  nonce_opt ← unique_header_value headers ATTEST_NONCE_HEADER;
  nonce_hex ← ok_or nonce_opt MissingNonce;
  _ ← ensure ((length nonce_hex =? 64)%nat && all_lower_hex nonce_hex) MalformedNonce;
  nonce ← ok_or (from_hex nonce_hex) MalformedNonce;
  _ ← ensure (length nonce =? 32)%nat MalformedNonce;
  match grant_verifier cfg with
  | None =>
      if debug_assertions b && allow_ungranted cfg then
        if decide (role cfg = NExit) then Ok None else Err UngrantedIntermediate
      else Err NoVerifier
  | Some verifier =>
      att ← ok_or (attest cfg) NoAttestedIdentity;
      realm ← ok_or (grant_realm cfg) NoRealm;
      nid ← ok_or (node_id cfg) NoNodeId;
      node_identity ← map_err (λ _, InvalidNodeIdentity)
        (GrantNodeIdentity_new realm nid (grant_role (role cfg)) Masque (na_tee att)
           (na_measurement att) (sha256 node_spki));
      grant_opt ← unique_header_value headers TUNNEL_GRANT_HEADER;
      grant_hex ← ok_or grant_opt MissingGrant;
      _ ← ensure (negb (bool_decide (grant_hex = [])
                        || (MAX_GRANT_TOKEN_LEN * 2 <? length grant_hex)%nat
                        || negb (length grant_hex mod 2 =? 0)%nat
                        || negb (all_lower_hex grant_hex))) MalformedGrant;
      grant ← ok_or (from_hex grant_hex) MalformedGrant;
      verified ← map_err (λ _, InvalidGrant) (verify_for_node grant verifier node_identity now);
      _ ← ensure (match previous_hop (vg_audience verified) with
                  | Some expected => bool_decide (peer_ip = V4 expected)
                  | None => true
                  end) PredecessorMismatch;
      _ ← ensure (bool_decide (vg_nonce verified = nonce)) NonceMismatch;
      Ok (Some verified)
  end.

Definition replay_error (e : ReplayError) : AuthError :=
  match e with
  | Replayed => GrantUsed
  | PredatesProcess => GrantPredatesProcess
  | Capacity => ReplayCacheFull
  | ReplayExpired => InvalidGrant
  end.

Definition policy_of (g : VerifiedGrant) : PacketPolicy :=
  match next_hop (vg_audience g) with
  | Some endpoint => PolicyRelay endpoint
  | None => PolicyExit
  end.

Definition authorize_connect (b : Build) (headers : list Header) (cfg : NodeConfig)
    (node_spki : bytes) (peer_ip : IpAddr) (now : Z) (replays : GrantReplayCache) :
    GrantReplayCache * result AuthError PacketPolicy :=
  match check_connect b headers cfg node_spki peer_ip now with
  | Err e => (replays, Err e)
  | Ok None => (replays, Ok PolicyExit)
  | Ok (Some verified) =>
      match consume replays verified now with
      | (replays, Ok _) => (replays, Ok (policy_of verified))
      | (replays, Err e) => (replays, Err (replay_error e))
      end
  end.

(** ** State *)

End Server.

Inductive WgStep := WgIp (ip : bytes) | WgNetwork (b : bytes) | WgDone | WgErr.

(** The PQ-WireGuard layer of a connection, as the server uses it. *)
Class PqWg := {
  ClientPqWg : Type;
  pq_default : ClientPqWg;
  on_control_bytes : ClientPqWg → bytes → ClientPqWg;
  established : ClientPqWg → bool;
  decapsulate : ClientPqWg → bytes → ClientPqWg * WgStep;
  encapsulate : ClientPqWg → bytes → ClientPqWg * option bytes;
}.

Section Loop.
Context `{Hsha : Sha256, Hed : Ed25519, Hpq : PqWg}.

Record Client := {
  peer_ip : IpAddr;
  h3 : bool;
  ci_stream : option Z;
  flow_id : Z;
  tunnel_up : bool;
  packet_policy : option PacketPolicy;
  assigned_ip : option Ipv4Addr;
  pqwg : option ClientPqWg;
}.

Record Node := {
  clients : gmap bytes Client;
  client_routes : gmap IpAddr bytes;
  pool : AddressPool;
  grant_replays : GrantReplayCache;
}.

(** What the process is started with. *)
Record Process := {
  build : Build;
  cfg : NodeConfig;
  node_spki : bytes;
  evidence : NodeAttest → bytes → bytes → option bytes;
  retry_key : bytes;
  pqwg_enabled : bool;
  wg_fuel : nat;
}.

Context (P : Process).

(** What a step lets out: a stateless packet, a packet fed to a connection, a response on a
    stream, a packet for the TUN, a datagram for a client. *)
Inductive Output :=
  | Received (client_id : bytes)
  | VersionNegotiation
  | RetryPacket (token : bytes)
  | Response (client_id : bytes) (stream : Z) (headers : list Header)
  | TunnelUp (client_id : bytes) (policy : PacketPolicy)
  | ToTun (client_id : bytes) (packet : bytes)
  | ToClient (client_id : bytes) (datagram : bytes).

(** *** Inbound UDP *)

(** The fields of the QUIC header the server reads. *)
Record QuicHeader := {
  dcid : bytes;
  is_initial : bool;
  version_supported : bool;
  hdr_token : bytes;
}.

Definition same_source (n : Node) (ip : IpAddr) : nat :=
  size (filter (λ kc : bytes * Client, peer_ip kc.2 = ip) (clients n)).

Definition new_client (ip : IpAddr) : Client :=
  {| peer_ip := ip; h3 := false; ci_stream := None; flow_id := 0; tunnel_up := false;
     packet_policy := None; assigned_ip := None;
     pqwg := if pqwg_enabled P then Some pq_default else None |}.

Definition set_clients (n : Node) (cs : gmap bytes Client) : Node :=
  {| clients := cs; client_routes := client_routes n; pool := pool n;
     grant_replays := grant_replays n |}.

(** [accept_ok]: whether [quiche::accept] succeeds. *)
Definition handle_packet (n : Node) (hdr : QuicHeader) (from : SocketAddr) (accept_ok : bool) :
    Node * list Output :=
  match clients n !! dcid hdr with
  | Some c =>
      if bool_decide (peer_ip c = sa_ip_addr from) then (n, [Received (dcid hdr)]) else (n, [])
  | None =>
      if negb (is_initial hdr) then (n, [])
      else if negb (version_supported hdr) then (n, [VersionNegotiation])
      else if decide (hdr_token hdr = []) then
        (n, [RetryPacket (retry_mint (retry_key P) from (dcid hdr))])
      else
        match retry_validate (retry_key P) from (hdr_token hdr) with
        | None => (n, [])
        | Some _ =>
            let max_per := max_connections_per_ip (cfg P) in
            let same := Z.min (Z.of_nat (same_source n (sa_ip_addr from))) max_per in
            if negb (connection_capacity_available (Z.of_nat (size (clients n))) same
                       (max_connections (cfg P)) max_per) then (n, [])
            else if negb accept_ok then (n, [])
            else (set_clients n (<[dcid hdr := new_client (sa_ip_addr from)]> (clients n)),
                  [Received (dcid hdr)])
        end
  end.

(** *** HTTP/3 *)

(** [Headers] carries whether the 200 could be sent. *)
Inductive H3Event :=
  | Headers (stream_id : Z) (hdrs : list Header) (sent : bool)
  | Data (stream_id : Z) (chunks : list bytes)
  | Finished (stream_id : Z)
  | ResetStream (stream_id : Z)
  | OtherEvent.

Definition status (code : bytes) : list Header := [(str ":status", code)].

Definition is_connect_ip (hdrs : list Header) : bool :=
  bool_decide (header_value hdrs (str ":method") = Some (str "CONNECT")) &&
  bool_decide (header_value hdrs (str ":protocol") = Some (str "connect-ip")).

(** The tunnel comes up: policy and flow of the stream, the assigned address and its route. *)
Definition bring_up (c : Client) (stream_id : Z) (policy : PacketPolicy)
    (assigned : option Ipv4Addr) : Client :=
  {| peer_ip := peer_ip c; h3 := h3 c; ci_stream := Some stream_id; flow_id := stream_id / 4;
     tunnel_up := true; packet_policy := Some policy;
     assigned_ip := match assigned with Some ip => Some ip | None => assigned_ip c end;
     pqwg := pqwg c |}.

Definition add_route (routes : gmap IpAddr bytes) (client_id : bytes)
    (assigned : option Ipv4Addr) : gmap IpAddr bytes :=
  match assigned with Some ip => <[V4 ip := client_id]> routes | None => routes end.

Definition on_headers (n : Node) (client_id : bytes) (c : Client) (stream_id : Z)
    (hdrs : list Header) (sent : bool) (now : Z) : Node * list Output :=
  if negb (is_connect_ip hdrs) then (n, [Response client_id stream_id (status (str "501"))])
  else if decide (is_Some (ci_stream c)) then
    (n, [Response client_id stream_id (status (str "409"))])
  else
    match authorize_connect (build P) hdrs (cfg P) (node_spki P) (peer_ip c) now
            (grant_replays n) with
    | (replays, Err _) =>
        ({| clients := clients n; client_routes := client_routes n; pool := pool n;
            grant_replays := replays |}, [Response client_id stream_id (status (str "403"))])
    | (replays, Ok policy) =>
        let '(pl, assigned) := assign (pool n) client_id in
        let resp := build_connect_ok_response (evidence P) hdrs assigned (node_spki P)
                      (attest (cfg P)) in
        if sent then
          ({| clients := <[client_id := bring_up c stream_id policy assigned]> (clients n);
              client_routes := add_route (client_routes n) client_id assigned;
              pool := pl; grant_replays := replays |},
           [Response client_id stream_id resp; TunnelUp client_id policy])
        else
          ({| clients := clients n; client_routes := client_routes n;
              pool := match assigned with Some _ => release pl client_id | None => pl end;
              grant_replays := replays |}, [])
    end.

Definition bring_down (c : Client) : Client :=
  {| peer_ip := peer_ip c; h3 := h3 c; ci_stream := ci_stream c; flow_id := flow_id c;
     tunnel_up := false; packet_policy := None; assigned_ip := assigned_ip c; pqwg := pqwg c |}.

Definition set_pqwg (c : Client) (pq : option ClientPqWg) : Client :=
  {| peer_ip := peer_ip c; h3 := h3 c; ci_stream := ci_stream c; flow_id := flow_id c;
     tunnel_up := tunnel_up c; packet_policy := packet_policy c; assigned_ip := assigned_ip c;
     pqwg := pq |}.

Definition set_h3 (c : Client) : Client :=
  {| peer_ip := peer_ip c; h3 := true; ci_stream := ci_stream c; flow_id := flow_id c;
     tunnel_up := tunnel_up c; packet_policy := packet_policy c; assigned_ip := assigned_ip c;
     pqwg := pqwg c |}.

Definition on_h3_event (n : Node) (client_id : bytes) (ev : H3Event) (now : Z) :
    Node * list Output :=
  match clients n !! client_id with
  | None => (n, [])
  | Some c =>
      if negb (h3 c) then (n, [])
      else
        match ev with
        | Headers stream_id hdrs sent => on_headers n client_id c stream_id hdrs sent now
        | Data sid chunks =>
            if decide (ci_stream c = Some sid) then
              match pqwg c with
              | Some pq => (set_clients n (<[client_id :=
                              set_pqwg c (Some (foldl on_control_bytes pq chunks))]>
                              (clients n)), [])
              | None => (n, [])
              end
            else (n, [])
        | Finished sid | ResetStream sid =>
            if decide (ci_stream c = Some sid) then
              (set_clients n (<[client_id := bring_down c]> (clients n)), [])
            else (n, [])
        | OtherEvent => (n, [])
        end
  end.

(** [with_transport] once the QUIC handshake is done. *)
Definition start_h3 (n : Node) (client_id : bytes) : Node :=
  match clients n !! client_id with
  | Some c => set_clients n (<[client_id := set_h3 c]> (clients n))
  | None => n
  end.

(** *** Client datagrams *)

(** One decapsulated packet: policy first, then its source. *)
Definition forward_packet (routes : gmap IpAddr bytes) (client_id : bytes) (c : Client)
    (packet : bytes) : gmap IpAddr bytes * list Output :=
  if match packet_policy c with Some p => policy_allows p packet | None => false end then
    match learn_client_route routes client_id (assigned_ip c) packet with
    | (routes, true) => (routes, [ToTun client_id packet])
    | (routes, false) => (routes, [])
    end
  else (routes, []).

(** The WireGuard loop on one datagram. *)
Fixpoint decap_loop (fuel : nat) (routes : gmap IpAddr bytes) (client_id : bytes) (c : Client)
    (pq : ClientPqWg) (input : bytes) : gmap IpAddr bytes * ClientPqWg * list Output :=
  match fuel with
  | 0%nat => (routes, pq, [])
  | S fuel =>
      match decapsulate pq input with
      | (pq, WgIp ip) =>
          let '(routes, out) := forward_packet routes client_id c ip in (routes, pq, out)
      | (pq, WgNetwork b) =>
          let '(routes, pq, out) := decap_loop fuel routes client_id c pq [] in
          (routes, pq, ToClient client_id (encode_datagram (flow_id c) b) :: out)
      | (pq, WgDone) | (pq, WgErr) => (routes, pq, [])
      end
  end.

Definition on_datagram (n : Node) (client_id : bytes) (dg : bytes) : Node * list Output :=
  match clients n !! client_id with
  | None => (n, [])
  | Some c =>
      if negb (h3 c) || negb (tunnel_up c) then (n, [])
      else
        match decode_datagram dg with
        | Ok (fid, Ip payload) =>
            if negb (accepts_client_datagrams (tunnel_up c) fid (flow_id c)) then (n, [])
            else
              match pqwg c with
              | Some pq =>
                  if established pq then
                    let '(routes, pq, out) :=
                      decap_loop (wg_fuel P) (client_routes n) client_id c pq payload in
                    ({| clients := <[client_id := set_pqwg c (Some pq)]> (clients n);
                        client_routes := routes; pool := pool n;
                        grant_replays := grant_replays n |}, out)
                  else (n, [])
              | None =>
                  if pqwg_enabled P then (n, [])
                  else
                    let '(routes, out) := forward_packet (client_routes n) client_id c payload in
                    ({| clients := clients n; client_routes := routes; pool := pool n;
                        grant_replays := grant_replays n |}, out)
              end
        | _ => (n, [])
        end
  end.

(** *** Packets from the TUN *)

Definition on_tun_packet (n : Node) (packet : bytes) : Node * list Output :=
  let packet := fix_l4_checksums packet in
  match packet_dst_ip packet ≫= λ ip, client_routes n !! ip with
  | None => (n, [])
  | Some client_id =>
      match clients n !! client_id with
      | None => (n, [])
      | Some c =>
          if negb (tunnel_up c) then (n, [])
          else
            match pqwg c with
            | Some pq =>
                if established pq then
                  let '(pq, payload) := encapsulate pq packet in
                  (set_clients n (<[client_id := set_pqwg c (Some pq)]> (clients n)),
                   match payload with
                   | Some pl => [ToClient client_id (encode_datagram (flow_id c) pl)]
                   | None => []
                   end)
                else (n, [ToClient client_id (encode_datagram (flow_id c) packet)])
            | None => (n, [ToClient client_id (encode_datagram (flow_id c) packet)])
            end
      end
  end.

(** *** Reaping *)

(** [closed]: the connections QUIC reports closed. *)
Definition reap (n : Node) (closed : gset bytes) : Node :=
  let live := filter (λ kc : bytes * Client, kc.1 ∉ closed) (clients n) in
  {| clients := live;
     client_routes := filter (λ kv : IpAddr * bytes, is_Some (live !! kv.2)) (client_routes n);
     pool := foldl release (pool n) (elements (dom (clients n) ∩ closed));
     grant_replays := grant_replays n |}.

(** ** Runs *)

Inductive Step :=
  | Udp (hdr : QuicHeader) (from : SocketAddr) (accept_ok : bool)
  | StartH3 (client_id : bytes)
  | H3 (client_id : bytes) (ev : H3Event) (now : Z)
  | Datagram (client_id : bytes) (dg : bytes)
  | Tun (packet : bytes)
  | Reap (closed : gset bytes).

Definition step (n : Node) (s : Step) : Node * list Output :=
  match s with
  | Udp hdr from ok => handle_packet n hdr from ok
  | StartH3 id => (start_h3 n id, [])
  | H3 id ev now => on_h3_event n id ev now
  | Datagram id dg => on_datagram n id dg
  | Tun packet => on_tun_packet n packet
  | Reap closed => (reap n closed, [])
  end.

Fixpoint run (n : Node) (steps : list Step) : Node * list Output :=
  match steps with
  | [] => (n, [])
  | s :: steps =>
      let '(n, out) := step n s in
      let '(n, outs) := run n steps in (n, out ++ outs)
  end.

(** [run] of the source before its loop; the pool and the cache constructors cannot fail on
    the built-in range and a configured capacity. *)
Definition start (started : Z) : option Node :=
  pl ← default_v4;
  rc ← cache_new started (Z.to_nat (grant_replay_capacity (cfg P)));
  Some {| clients := ∅; client_routes := ∅; pool := pl; grant_replays := rc |}.

End Loop.
