(* ===== verification/NodeGate.v ===== *)
(** * What the node's gate lets through

    Properties of [NodeServer]'s authorisation and relay boundary: which CONNECT requests
    open a tunnel, that a grant opens at most one, that a minted grant does open one, and
    which packets a relay forwards. *)

From S2P Require Import Prelude.
From S2P Require Import Text.
From S2P Require Import Net.
From S2P Require Import Crypto.
From S2P Require Import Env.
From S2P Require Import Grant.
From S2P Require Import GrantReplay.
From S2P Require Import ConnectIp.
From S2P Require Import Checksum.
From S2P Require Import Pool.
From S2P Require Import NodeConfig.
From S2P Require Import Retry.
From S2P Require Import NodeServer.
From Stdlib Require Import Strings.Byte ZArith Lia.
From stdpp Require Import prelude gmap strings.

Local Open Scope Z_scope.

(** ** Headers *)

(** The request carries this header exactly once, with this value. *)
Definition carries (headers : list Header) (name value : bytes) : Prop :=
  filter (λ h : Header, h.1 = name) headers = [(name, value)].

Lemma unique_header_value_Some headers name v :
  unique_header_value headers name = Ok (Some v) ↔ carries headers name v.
Proof.
  unfold unique_header_value, carries.
  assert (Hn : Forall (λ h : Header, h.1 = name) (filter (λ h : Header, h.1 = name) headers)).
  { apply Forall_forall. intros h Hh. by apply list_elem_of_filter in Hh as [? _]. }
  destruct (filter _ headers) as [|[n x] [|h l]]; [done| |done].
  apply Forall_cons in Hn as [Hn _]. cbn in Hn. subst. naive_solver.
Qed.

Lemma hex_value v l : all_lower_hex v = true ∧ from_hex v = Some l ↔ v = to_hex l.
Proof.
  split.
  - intros [Hl Hd]. unfold all_lower_hex in Hl. apply forallb_Forall_true in Hl.
    assert (He : Nat.even (length v) = true).
    { unfold from_hex in Hd. by destruct (Nat.even (length v)). }
    destruct (to_hex_from_hex v He Hl) as (l' & Hd' & <-). congruence.
  - intros ->. split; [|apply from_hex_to_hex].
    apply forallb_Forall_true, to_hex_lower.
Qed.

Section Gate.
Context `{Hsha : Sha256, HshaL : !Sha256Laws, Hed : Ed25519, Hlaws : !Ed25519Laws}.

(** The identity a grant must name: configured names and role, attested measurement, and
    the hash of the certificate the node serves. *)
Definition node_identity (cfg : NodeConfig) (spki : bytes) : option GrantNodeIdentity :=
  att ← attest cfg; r ← grant_realm cfg; i ← NodeConfig.node_id cfg;
  Some {| Grant.realm := r; Grant.node_id := i; Grant.role := grant_role (role cfg);
          transport := Masque; tee := na_tee att; measurement := na_measurement att;
          tls_spki_sha256 := sha256 spki |}.

(** Everything the node checks before the single-use test. *)
Record gate_passed (headers : list Header) (cfg : NodeConfig) (spki : bytes) (peer : IpAddr)
    (now : Z) (token : bytes) (g : VerifiedGrant) : Prop := {
  gp_token : carries headers TUNNEL_GRANT_HEADER (to_hex token);
  gp_nonce : carries headers ATTEST_NONCE_HEADER (to_hex (vg_nonce g));
  gp_verifies : ∃ v, grant_verifier cfg = Some v ∧ authorizes v token now g;
  gp_identity : node_identity cfg spki = Some (node (vg_audience g));
  gp_peer : ∀ ip, previous_hop (vg_audience g) = Some ip → peer = V4 ip;
}.

Lemma token_length_fits v token now g :
  authorizes v token now g → token ≠ [] ∧ (length token ≤ MAX_GRANT_TOKEN_LEN)%nat.
Proof.
  intros [Hf (vk & sg & _ & -> & _) _ _ _]. pose proof (token_length _ _ _ _ _ sg Hf) as Hl.
  destruct Hf as [_ _ _ _ [[[_ Hr] _] [[_ Hi] _] _ _ _ _]].
  assert (Hb : (length (token_of (vg_key_id g) (vg_issued_at g) (vg_expires_at g) (vg_nonce g)
                  (vg_audience g) sg) ≤ MAX_GRANT_TOKEN_LEN)%nat).
  { rewrite Hl. unfold IDENTIFIERS_OFFSET, SIGNATURE_LEN, MAX_GRANT_TOKEN_LEN. lia. }
  split; [|done]. intros E. rewrite E in Hl. cbn in Hl. unfold IDENTIFIERS_OFFSET in Hl. lia.
Qed.

Lemma node_identity_new cfg spki att r i n :
  attest cfg = Some att → grant_realm cfg = Some r → NodeConfig.node_id cfg = Some i →
  GrantNodeIdentity_new r i (grant_role (role cfg)) Masque (na_tee att) (na_measurement att)
    (sha256 spki) = Ok n ↔
  node_identity cfg spki = Some n ∧ identifier_ok r ∧ identifier_ok i.
Proof.
  intros Ha Hr Hi. unfold node_identity. rewrite Ha, Hr, Hi, !Some_bind.
  unfold GrantNodeIdentity_new. rewrite bind_Ok. setoid_rewrite bind_Ok. split.
  - intros (? & ?%validate_named_identifier_ok & ? & ?%validate_named_identifier_ok & [= <-]).
    done.
  - intros ([= <-] & H1 & H2). exists tt. split; [by apply validate_named_identifier_ok|].
    exists tt. split; [by apply validate_named_identifier_ok|]. done.
Qed.

Lemma ensure_hex_len v l n :
  ((length v =? n * 2)%nat && all_lower_hex v = true) → from_hex v = Some l →
  v = to_hex l ∧ length l = n.
Proof.
  intros [Hl Hx]%andb_true_iff Hd. assert (v = to_hex l) as -> by (by apply hex_value).
  split; [done|]. apply Nat.eqb_eq in Hl. rewrite length_to_hex in Hl. lia.
Qed.

Lemma check_connect_sound b headers cfg spki peer now g :
  check_connect b headers cfg spki peer now = Ok (Some g) →
  ∃ token, gate_passed headers cfg spki peer now token g.
Proof.
  unfold check_connect.
  intros (no & Hn & (nh & ->%ok_or_Ok & (? & Hh%ensure_Ok & (nonce & Hd%ok_or_Ok &
    (? & _ & H)%bind_Ok)%bind_Ok)%bind_Ok)%bind_Ok)%bind_Ok.
  apply unique_header_value_Some in Hn. apply (ensure_hex_len _ _ 32) in Hd as [-> _]; [|done].
  destruct (grant_verifier cfg) as [v|] eqn:Ev.
  2:{ destruct (_ && allow_ungranted cfg); [|done]. by case_decide. }
  apply bind_Ok in H as (att & Ha%ok_or_Ok & (r & Hr%ok_or_Ok & (i & Hi%ok_or_Ok &
    (ident & Hid%map_err_Ok & (go & Hg & (gh & ->%ok_or_Ok & (? & Hok%ensure_Ok & (token & Ht%ok_or_Ok &
    (g' & Hv%map_err_Ok & (? & Hp%ensure_Ok & (? & Hnn%ensure_Ok & H)%bind_Ok)%bind_Ok)%bind_Ok)
    %bind_Ok)%bind_Ok)%bind_Ok)%bind_Ok)%bind_Ok)%bind_Ok)%bind_Ok).
  injection H as <-. apply node_identity_new in Hid as (Hid & _ & _); [|done..].
  apply verify_for_node_spec in Hv as [Hauth Hnode]. apply unique_header_value_Some in Hg.
  apply bool_decide_eq_true in Hnn. subst.
  rewrite !negb_orb, !negb_involutive, !andb_true_iff in Hok. destruct Hok as [[_ _] Hlow].
  assert (gh = to_hex token) as -> by (by apply hex_value).
  exists token. split; try done; [by exists v|]. intros ip Hip. rewrite Hip in Hp.
  by apply bool_decide_eq_true in Hp.
Qed.

Lemma check_connect_complete b headers cfg spki peer now token g :
  gate_passed headers cfg spki peer now token g →
  check_connect b headers cfg spki peer now = Ok (Some g).
Proof.
  intros [Ht Hn (v & Hv & Ha) Hid Hp]. pose proof Ha as [[_ _ _ Hnl [Hr Hi _ _ _ _]] _ _ _ _].
  destruct (token_length_fits _ _ _ _ Ha) as [Hne Hmax].
  unfold check_connect. rewrite (proj2 (unique_header_value_Some _ _ _) Hn). ok_step.
  rewrite length_to_hex, Hnl. change (NONCE_LEN * 2 =? 64)%nat with true.
  rewrite (proj1 (proj2 (hex_value _ (vg_nonce g)) eq_refl)). cbn [andb]. ok_step.
  rewrite from_hex_to_hex. ok_step. rewrite Hnl. change (NONCE_LEN =? 32)%nat with true. ok_step.
  rewrite Hv. pose proof Hid as Hid'. unfold node_identity in Hid'.
  apply bind_Some in Hid' as (att & Eatt & (r & Er & (i & Ei & [= Hnode])%bind_Some)%bind_Some).
  rewrite Eatt, Er, Ei. ok_step.
  rewrite (proj2 (node_identity_new _ _ _ _ _ (node (vg_audience g)) Eatt Er Ei)).
  2:{ rewrite <- Hnode in Hr, Hi. done. }
  cbn [map_err]. ok_step. rewrite (proj2 (unique_header_value_Some _ _ _) Ht). ok_step.
  rewrite bool_decide_eq_false_2.
  2:{ intros E. apply Hne. apply (f_equal length) in E. rewrite length_to_hex in E.
      destruct token; [done|]. cbn in E. lia. }
  rewrite length_to_hex, (proj2 (Nat.ltb_ge _ _)) by lia.
  rewrite (proj1 (proj2 (hex_value _ token) eq_refl)).
  rewrite Nat.Div0.mod_mul. cbn [negb orb Nat.eqb]. ok_step. rewrite from_hex_to_hex. ok_step.
  rewrite (proj2 (verify_for_node_spec _ _ _ _ g)) by done. cbn [map_err]. ok_step.
  replace (match previous_hop _ with Some _ => _ | None => _ end) with true.
  2:{ destruct (previous_hop (vg_audience g)) as [ip|]; [|done]. symmetry.
      apply bool_decide_eq_true. by apply Hp. }
  ok_step. rewrite bool_decide_eq_true_2 by done. by ok_step.
Qed.

(** The grantless case, in development builds only. *)
Definition dev_exit (b : Build) (headers : list Header) (cfg : NodeConfig) : Prop :=
  grant_verifier cfg = None ∧ debug_assertions b = true ∧ allow_ungranted cfg = true ∧
  role cfg = NExit ∧ ∃ nonce, length nonce = 32%nat ∧ carries headers ATTEST_NONCE_HEADER (to_hex nonce).

Lemma check_connect_dev b headers cfg spki peer now :
  check_connect b headers cfg spki peer now = Ok None ↔ dev_exit b headers cfg.
Proof.
  unfold check_connect, dev_exit. split.
  - intros (no & Hn & (nh & ->%ok_or_Ok & (? & Hh%ensure_Ok & (nonce & Hd%ok_or_Ok &
      (? & _ & H)%bind_Ok)%bind_Ok)%bind_Ok)%bind_Ok)%bind_Ok.
    apply unique_header_value_Some in Hn. apply (ensure_hex_len _ _ 32) in Hd as [-> Hl]; [|done].
    destruct (grant_verifier cfg) as [v|]; [by inv_ok H|].
    destruct (debug_assertions b && allow_ungranted cfg) eqn:E; [|done].
    apply andb_true_iff in E as [-> ->]. case_decide; [|done]. eauto 10.
  - intros (Hv & Hb & Ha & Hr & nonce & Hl & Hn).
    rewrite (proj2 (unique_header_value_Some _ _ _) Hn). ok_step.
    rewrite length_to_hex, Hl, (proj1 (proj2 (hex_value _ nonce) eq_refl)).
    change ((32 * 2 =? 64)%nat && true) with true. ok_step.
    rewrite from_hex_to_hex. ok_step. rewrite Hl. change (32 =? 32)%nat with true. ok_step.
    by rewrite Hv, Hb, Ha, decide_True.
Qed.

Lemma authorize_connect_iff b headers cfg spki peer now rc rc' pol :
  authorize_connect b headers cfg spki peer now rc = (rc', Ok pol) ↔
  (∃ token g, gate_passed headers cfg spki peer now token g ∧
     consume rc g now = (rc', Ok tt) ∧ pol = policy_of g) ∨
  (dev_exit b headers cfg ∧ rc' = rc ∧ pol = PolicyExit).
Proof.
  unfold authorize_connect. split.
  - destruct (check_connect b headers cfg spki peer now) as [[g|]|e] eqn:E; [| |done].
    + destruct (consume rc g now) as [c [[]|e]] eqn:Ec; [|done]. intros [= <- <-]. left.
      apply check_connect_sound in E as (token & E). eauto.
    + intros [= <- <-]. right. by apply check_connect_dev in E.
  - intros [(token & g & Hg & Hc & ->)|(Hd & -> & ->)].
    + by rewrite (check_connect_complete _ _ _ _ _ _ _ _ Hg), Hc.
    + by rewrite (proj2 (check_connect_dev _ _ _ _ _ _) Hd).
Qed.

Lemma authorizes_functional v v' token now now' g g' :
  authorizes v token now g → authorizes v' token now' g' → g = g'.
Proof.
  intros (p & Hp & <-)%authorizes_parse (p' & Hp' & <-)%authorizes_parse. congruence.
Qed.

Lemma carries_functional headers name v v' :
  carries headers name v → carries headers name v' → v = v'.
Proof. unfold carries. congruence. Qed.

(** C8.  The gate is exact: a CONNECT request opens a tunnel with policy [pol] precisely
    when it carries, once each, a nonce and a grant token signed by a trusted key, live at
    [now], naming this node's realm, identifier, role, attested measurement and the hash of
    the certificate it serves, the validated peer address as predecessor if it names one,
    and the very nonce of the request; when the grant is not older than the process, is not
    among the unexpired ones already used, and there is room for it; and when [pol] is to relay to
    the grant's next hop, or to exit if it names none.  The only other way is the grantless exit
    of a debug build.  A grant that opened a tunnel is then among the used ones. *)
Theorem authorize_connect_exact b headers cfg spki peer now rc pol :
  cache_inv rc →
  ((authorize_connect b headers cfg spki peer now rc).2 = Ok pol ↔
   (∃ token g, gate_passed headers cfg spki peer now token g ∧
      now < vg_expires_at g ∧ process_started_at rc ≤ vg_issued_at g ∧
      (∀ until, entries rc !! replay_key g = Some until → until ≤ now) ∧
      (size (filter (λ kv, now < kv.2)%Z (entries rc)) < capacity rc)%nat ∧
      match next_hop (vg_audience g) with Some endpoint => pol = PolicyRelay endpoint | None => pol = PolicyExit end) ∨
   (dev_exit b headers cfg ∧ pol = PolicyExit)) ∧
  (∀ token g, gate_passed headers cfg spki peer now token g → (authorize_connect b headers cfg spki peer now rc).2 = Ok pol →
     entries (authorize_connect b headers cfg spki peer now rc).1 =
       <[replay_key g := vg_expires_at g]> (filter (λ kv, now < kv.2) (entries rc))).
Proof.
  intros Hinv. destruct (authorize_connect b headers cfg spki peer now rc) as [rc' r] eqn:E. cbn [fst snd]. split; [split|].
  - intros ->. apply authorize_connect_iff in E as [(token & g & Hg & Hc & ->)|(Hd & _ & ->)]; [left|by right].
    apply consume_accepts_iff in Hc as [[Hc _] _]; [|done]. destruct (Hc eq_refl) as (? & ? & ? & ?).
    exists token, g. split_and!; try done. unfold policy_of. by destruct (next_hop _).
  - intros H. enough (∃ rc1, authorize_connect b headers cfg spki peer now rc = (rc1, Ok pol)) as [rc1 E1] by congruence.
    destruct H as [(token & g & Hg & H1 & H2 & H3 & H4 & Hp)|(Hd & ->)]; [|exists rc; apply authorize_connect_iff; by right].
    destruct (consume rc g now) as [rc1 r1] eqn:Ec. pose proof Ec as Ei. apply consume_accepts_iff in Ei as [Ei _]; [|done].
    exists rc1. apply authorize_connect_iff. left. exists token, g. split_and!; [done| |unfold policy_of; by destruct (next_hop _)].
    rewrite Ec. by rewrite (proj2 Ei).
  - intros token g Hg ->. apply authorize_connect_iff in E as [(token' & g' & Hg' & Hc & _)|([Hv _] & _ & _)].
    + destruct Hg as [Ht _ (v & _ & Ha) _ _], Hg' as [Ht' _ (v' & _ & Ha') _ _].
      assert (token' = token) as -> by (eapply to_hex_inj, carries_functional; done).
      rewrite <- (authorizes_functional _ _ _ _ _ _ _ Ha' Ha) in *. by apply consume_accepts_iff in Hc as [_ Hc]; [apply Hc|].
    + destruct Hg as [_ _ (v & Hv' & _) _ _]. congruence.
Qed.

Lemma authorize_connect_granted b headers cfg spki peer now rc rc' pol :
  is_Some (grant_verifier cfg) →
  authorize_connect b headers cfg spki peer now rc = (rc', Ok pol) →
  ∃ token g, gate_passed headers cfg spki peer now token g ∧
    consume rc g now = (rc', Ok tt) ∧ pol = policy_of g.
Proof. intros [v Hv] [H|[[Hn _] _]]%authorize_connect_iff; [done|congruence]. Qed.

(** C9.  A grant opens at most one tunnel in the life of a process: once a request with a
    token was let through, every later request with the same token is refused, from whatever
    address and with whatever other headers, and however many grants are used in between. *)
Theorem grant_opens_one_tunnel b headers headers' cfg spki peer peer' token now now' rc rc1 rc2 pol
    between rs :
  cache_inv rc → is_Some (grant_verifier cfg) →
  carries headers TUNNEL_GRANT_HEADER (to_hex token) →
  carries headers' TUNNEL_GRANT_HEADER (to_hex token) →
  authorize_connect b headers cfg spki peer now rc = (rc1, Ok pol) →
  consume_all rc1 between = (rc2, rs) → Forall (λ s, s ≤ now') (times between) →
  ∃ e, (authorize_connect b headers' cfg spki peer' now' rc2).2 = Err e.
Proof.
  intros Hinv Hv Hh Hh' Ha Hb Ht.
  destruct (authorize_connect b headers' cfg spki peer' now' rc2) as [rc3 [pol'|e]] eqn:E; [|eauto].
  apply authorize_connect_granted in Ha as (t1 & g1 & [Ht1 _ (v1 & _ & Ha1) _ _] & Hc1 & _); [|done].
  apply authorize_connect_granted in E as (t2 & g2 & [Ht2 _ (v2 & _ & Ha2) _ _] & Hc2 & _); [|done].
  assert (t1 = token) as -> by (eapply to_hex_inj, carries_functional; done).
  assert (t2 = token) as -> by (eapply to_hex_inj, carries_functional; done).
  assert (g2 = g1) as -> by (by eapply authorizes_functional).
  destruct (consume_accepts _ _ _ _ Hinv Hc1) as (_ & Hst & Hrec).
  apply consume_spec in Hc1 as (_ & Hst1 & _ & Hinv1); [|done].
  pose proof (au_not_expired _ _ _ _ Ha2) as Hlive.
  edestruct (consume_all_keeps between) as (Hrec2 & Hinv2 & Hst2); [exact Hinv1|exact Hrec| |exact Hb|].
  { eapply Forall_impl; [exact Ht|]. cbn. lia. }
  eapply consume_recorded in Hc2; [done|done..|by rewrite Hst2, Hst1].
Qed.

Lemma minted_opens b cfg spki k a nonce ttl issued grant v now started cap rc0 peer :
  mint k a nonce ttl issued = Ok grant → audience_ok a → length nonce = NONCE_LEN →
  grant_verifier cfg = Some v → keys v !! sk_key_id k = Some (verifying_key (signing_key k)) →
  vk_is_weak (verifying_key (signing_key k)) = false →
  node_identity cfg spki = Some (node a) → (∀ ip, previous_hop a = Some ip → peer = V4 ip) →
  u64 issued → cache_new started cap = Some rc0 → started ≤ issued →
  issued ≤ now < issued + as_secs ttl → u64 now →
  ∃ rc, authorize_connect b
    [(str ":method", str "CONNECT"); (str ":protocol", str "connect-ip");
     (ATTEST_NONCE_HEADER, to_hex nonce); (TUNNEL_GRANT_HEADER, to_hex (g_token grant))]
    cfg spki peer now rc0 =
    (rc, Ok match next_hop a with Some e => PolicyRelay e | None => PolicyExit end).
Proof.
  intros Hm Ha Hn Hv Hk Hw Hid Hp Hi Hc Hst Hnow Hu.
  set (g := {| vg_key_id := sk_key_id k; vg_issued_at := issued;
               vg_expires_at := issued + as_secs ttl; vg_nonce := nonce; vg_audience := a |}).
  assert (Hver : verify_for_node (g_token grant) v (node a) now = Ok g).
  { rewrite (mint_outcome _ _ _ _ _ _ v (node a) now Hm Ha Hn Hi Hk Hw Hu). unfold minted_outcome.
    cbn [vg_expires_at vg_issued_at vg_audience]. rewrite (proj2 (Z.leb_gt _ _)) by lia.
    rewrite (proj2 (Z.ltb_ge _ _)) by (unfold MAX_GRANT_CLOCK_SKEW_SECS; lia).
    by rewrite decide_True. }
  apply verify_for_node_spec in Hver as [Hau _].
  destruct (consume_fresh started cap rc0 g now) as (rc & Hcons & _); [done|cbn; lia|cbn; lia|].
  exists rc. apply authorize_connect_iff. left. exists (g_token grant), g.
  split_and!; [|done|done]. split; try done. by exists v.
Qed.

(** A grant minted by the coordinator opens the tunnel it was minted for: presented to
    the node it names, by the predecessor it names, with its nonce, between issue and expiry
    and to a process started no later than the issue, it is let through with the policy of
    its next hop. *)
Theorem minted_grant_opens_tunnel b cfg spki k a nonce ttl issued grant v now started cap rc0 peer :
  mint k a nonce ttl issued = Ok grant → audience_ok a → length nonce = NONCE_LEN →
  grant_verifier cfg = Some v → keys v !! sk_key_id k = Some (verifying_key (signing_key k)) →
  vk_is_weak (verifying_key (signing_key k)) = false →
  node_identity cfg spki = Some (node a) → (∀ ip, previous_hop a = Some ip → peer = V4 ip) →
  u64 issued → cache_new started cap = Some rc0 → started ≤ issued →
  issued ≤ now < issued + as_secs ttl → u64 now →
  ∃ rc, authorize_connect b
    [(str ":method", str "CONNECT"); (str ":protocol", str "connect-ip");
     (ATTEST_NONCE_HEADER, to_hex nonce); (TUNNEL_GRANT_HEADER, to_hex (g_token grant))]
    cfg spki peer now rc0 =
    (rc, Ok match next_hop a with Some e => PolicyRelay e | None => PolicyExit end).
Proof. apply minted_opens. Qed.

End Gate.

(** ** The relay boundary *)

(** A complete IPv4 packet holding one UDP datagram, field by field. *)
Record UdpPacket := {
  up_tos : byte; up_id : bytes; up_df : bool; up_ttl : byte; up_hcsum : bytes;
  up_src : bytes; up_dst : SocketAddrV4; up_options : bytes;
  up_sport : bytes; up_ucsum : bytes; up_payload : bytes;
}.

Definition up_total (u : UdpPacket) : nat := 20 + length (up_options u) + 8 + length (up_payload u).

Definition up_encode (u : UdpPacket) : bytes :=
  [z2b (64 + 5 + Z.of_nat (length (up_options u)) / 4); up_tos u] ++ be_bytes 2 (Z.of_nat (up_total u))
  ++ up_id u ++ [if up_df u then x40 else x00; x00; up_ttl u; x11] ++ up_hcsum u ++ up_src u
  ++ octets (sa_ip (up_dst u)) ++ up_options u
  ++ up_sport u ++ be_bytes 2 (sa_port (up_dst u))
  ++ be_bytes 2 (Z.of_nat (8 + length (up_payload u))) ++ up_ucsum u ++ up_payload u.

Record up_ok (u : UdpPacket) : Prop := {
  uo_id : length (up_id u) = 2%nat;
  uo_hcsum : length (up_hcsum u) = 2%nat;
  uo_src : length (up_src u) = 4%nat;
  uo_options : ∃ k, length (up_options u) = (k * 4)%nat ∧ (k ≤ 10)%nat;
  uo_sport : length (up_sport u) = 2%nat;
  uo_ucsum : length (up_ucsum u) = 2%nat;
  uo_port : u16 (sa_port (up_dst u));
  uo_total : u16 (Z.of_nat (up_total u));
}.

Lemma be_bytes_2 z : be_bytes 2 z = [z2b (Z.shiftr z 8); z2b z].
Proof. done. Qed.

Lemma word_bytes z : u16 z → be_value [z2b (Z.shiftr z 8); z2b z] = z.
Proof. intros. apply word_of_set. unfold_int. lia. Qed.

Lemma at_app_here pre b post i : i = length pre → at_ (pre ++ b :: post) i = b.
Proof. intros ->. unfold at_. by rewrite nth_middle. Qed.

Lemma at_skip (l r : bytes) k : at_ (l ++ r) (length l + k) = at_ r k.
Proof. unfold at_. apply app_nth2_plus. Qed.

Lemma version_ihl b k :
  0 ≤ k ≤ 15 → (Z.shiftr (b2z b) 4 = 4 ∧ Z.land (b2z b) 0x0f = k) ↔ b = z2b (64 + k).
Proof.
  intros Hk. pose proof (b2z_range b). change 0x0f with (Z.ones 4).
  rewrite Z.shiftr_div_pow2, Z.land_ones by lia. change (2 ^ 4) with 16. split.
  - intros [Hd Hm]. apply b2z_inj. rewrite b2z_z2b_small by lia.
    pose proof (Z.div_mod (b2z b) 16). lia.
  - intros ->. rewrite b2z_z2b_small by lia. replace (64 + k) with (k + 4 * 16) by lia.
    rewrite Z.div_add, Z.mod_add, Z.div_small, Z.mod_small by lia. done.
Qed.

(** The relay test on a packet cut at its header and UDP boundaries. *)
Lemma relay_core k b1 b2 b3 b4 b5 b6 b7 b8 b9 b10 b11 b12 b13 b14 b15 b16 b17 b18 b19 opts
    p1 p2 d1 d2 l1 l2 c1 c2 payload ep :
  (k ≤ 10)%nat → length opts = (k * 4)%nat →
  relay_packet_targets
    ([z2b (64 + Z.of_nat (5 + k)); b1; b2; b3; b4; b5; b6; b7; b8; b9; b10; b11; b12; b13; b14; b15; b16; b17; b18; b19]
       ++ opts ++ [p1; p2; d1; d2; l1; l2; c1; c2] ++ payload) ep =
  (be_value [b2; b3] =? Z.of_nat (28 + k * 4 + length payload)) &&
  (Z.land (be_value [b6; b7]) 0xbfff =? 0) && (b2z b9 =? 17) &&
  bool_decide ([b16; b17; b18; b19] = octets (sa_ip ep)) &&
  (be_value [l1; l2] =? Z.of_nat (8 + length payload)) && (be_value [d1; d2] =? sa_port ep).
Proof.
  intros Hk Ho. set (H := [z2b (64 + Z.of_nat (5 + k)); b1; b2; b3; b4; b5; b6; b7; b8; b9; b10; b11;
    b12; b13; b14; b15; b16; b17; b18; b19]).
  set (T := [p1; p2; d1; d2; l1; l2; c1; c2] ++ payload).
  assert (Hlen : length (H ++ opts ++ T) = (28 + k * 4 + length payload)%nat).
  { unfold T. rewrite !length_app, Ho. cbn [length H]. lia. }
  assert (Hfront : ∀ i, (i < 20)%nat → at_ (H ++ opts ++ T) i = at_ H i).
  { intros i Hi. unfold at_. apply app_nth1. exact Hi. }
  assert (Hback : ∀ i, at_ (H ++ opts ++ T) (20 + k * 4 + i) = at_ T i).
  { intros i. rewrite app_assoc. replace (20 + k * 4 + i)%nat with (length (H ++ opts) + i)%nat.
    - apply at_skip.
    - rewrite length_app, Ho. reflexivity. }
  destruct (proj2 (version_ihl (z2b (64 + Z.of_nat (5 + k))) (Z.of_nat (5 + k)) ltac:(lia)) eq_refl)
    as [Hver Hihl].
  unfold relay_packet_targets, u16_at. rewrite Hlen, !Hfront by lia.
  change (at_ H 0) with (z2b (64 + Z.of_nat (5 + k))). rewrite Hver, Hihl.
  rewrite Nat2Z.id. replace ((5 + k) * 4)%nat with (20 + k * 4)%nat by lia.
  rewrite <- (Nat.add_assoc (20 + k * 4) 4 1), <- (Nat.add_assoc (20 + k * 4) 2 1), !Hback.
  rewrite (proj2 (Nat.ltb_ge _ 28)), (proj2 (Nat.ltb_ge _ 20)), (proj2 (Nat.ltb_ge _ (_ + 8))) by lia.
  change (4 =? 4) with true. cbn [negb orb].
  change (at_ H 2) with b2. change (at_ H (2 + 1)) with b3. change (at_ H 6) with b6.
  change (at_ H (6 + 1)) with b7. change (at_ H 9) with b9. change (at_ T 4) with l1.
  change (at_ T (4 + 1)) with l2. change (at_ T 2) with d1. change (at_ T (2 + 1)) with d2.
  change (take 4 (drop 16 (H ++ opts ++ T))) with [b16; b17; b18; b19].
  destruct (Z.eqb_spec (be_value [b2; b3]) (Z.of_nat (28 + k * 4 + length payload))) as [->|Hne];
    [|done]. rewrite (proj2 (Z.ltb_ge _ _)) by lia. cbn [negb orb andb].
  destruct (Z.land _ _ =? 0), (b2z b9 =? 17), (bool_decide _); cbn [negb orb andb]; try done.
  replace (Z.of_nat (20 + k * 4) + be_value [l1; l2] =? Z.of_nat (28 + k * 4 + length payload))
    with (be_value [l1; l2] =? Z.of_nat (8 + length payload))
    by (destruct (Z.eqb_spec (be_value [l1; l2]) (Z.of_nat (8 + length payload))); symmetry;
        [apply Z.eqb_eq | apply Z.eqb_neq]; lia).
  destruct (Z.eqb_spec (be_value [l1; l2]) (Z.of_nat (8 + length payload))) as [->|]; cbn [negb orb andb].
  - rewrite (proj2 (Z.ltb_ge _ _)) by lia. done.
  - by rewrite orb_true_r.
Qed.

Definition flags_ok (b6 b7 : byte) : bool :=
  Bool.eqb (Z.land (be_value [b6; b7]) 0xbfff =? 0)
    (bool_decide (b7 = x00) && (bool_decide (b6 = x40) || bool_decide (b6 = x00))).

Lemma flags_ok_all b6 b7 : flags_ok b6 b7 = true.
Proof.
  revert b7. apply byte_cases. revert b6.
  apply (byte_cases (λ b6, forallb (λ i, flags_ok b6 (z2b (Z.of_nat i))) (seq 0 256))).
  by vm_compute.
Qed.

Lemma flags_spec b6 b7 :
  Z.land (be_value [b6; b7]) 0xbfff = 0 ↔ b7 = x00 ∧ ∃ df : bool, b6 = if df then x40 else x00.
Proof.
  pose proof (flags_ok_all b6 b7) as H. unfold flags_ok in H. apply Bool.eqb_prop in H.
  rewrite <- Z.eqb_eq, H, andb_true_iff, orb_true_iff, !bool_decide_eq_true. split.
  - intros [-> [->| ->]]; (split; [done|]); [by exists true | by exists false].
  - intros [-> [[] ->]]; tauto.
Qed.

(** A packet that passes the length and version tests has this shape. *)
Lemma relay_shape packet ep :
  relay_packet_targets packet ep = true →
  ∃ k H opts T, (k ≤ 10)%nat ∧ length H = 19%nat ∧ length opts = (k * 4)%nat ∧ (8 ≤ length T)%nat ∧
    packet = (z2b (64 + Z.of_nat (5 + k)) :: H) ++ opts ++ T.
Proof.
  unfold relay_packet_targets. destruct (_ || _) eqn:E1; [done|].
  set (n := Z.land (b2z (at_ packet 0)) 0x0f).
  destruct ((Z.to_nat n * 4 <? 20)%nat || (length packet <? Z.to_nat n * 4 + 8)%nat) eqn:E2; [done|].
  intros _. reflect_bools.
  assert (Hn : 0 ≤ n < 16).
  { unfold n. change 0x0f with (Z.ones 4). rewrite Z.land_ones by lia. apply Z.mod_pos_bound. lia. }
  assert (Hb0 : at_ packet 0 = z2b (64 + n)) by (apply version_ihl; [lia|done]).
  clearbody n. exists (Z.to_nat n - 5)%nat. destruct packet as [|b0 p]; [cbn in *; lia|]. cbn in Hb0. subst b0.
  cbn [length] in *. exists (take 19 p), (take ((Z.to_nat n - 5) * 4) (drop 19 p)),
    (drop ((Z.to_nat n - 5) * 4) (drop 19 p)).
  rewrite !length_take, !length_drop. split_and!; try lia.
  replace (64 + Z.of_nat (5 + (Z.to_nat n - 5))) with (64 + n) by lia.
  rewrite <- app_comm_cons, !take_drop. done.
Qed.

(** Name the next byte of a list known to have one. *)
Ltac next_byte l := destruct l as [|? l]; [cbn [length] in *; lia|].

Lemma relay_decodes packet ep :
  u16 (sa_port ep) → relay_packet_targets packet ep = true →
  ∃ u, up_ok u ∧ up_dst u = ep ∧ packet = up_encode u.
Proof.
  intros Hport Hr. destruct (relay_shape _ _ Hr) as (k & H & opts & T & Hk & HlH & Hlo & HlT & ->).
  do 19 next_byte H. destruct H; [|cbn [length] in *; lia]. do 8 next_byte T.
  match type of Hr with relay_packet_targets (_ ++ _ ++ ?p1 :: ?p2 :: ?d1 :: ?d2 :: ?l1 :: ?l2 :: ?c1 :: ?c2 :: T) _ = _ =>
    change (p1 :: p2 :: d1 :: d2 :: l1 :: l2 :: c1 :: c2 :: T)
      with ([p1; p2; d1; d2; l1; l2; c1; c2] ++ T) in * end.
  rewrite relay_core in Hr by done. reflect_bools.
  apply flags_spec in H4 as [-> [df ->]].
  assert (b7 = x11) as -> by (by apply b2z_inj).
  exists {| up_tos := b; up_id := [b2; b3]; up_df := df; up_ttl := b6; up_hcsum := [b8; b9];
            up_src := [b10; b11; b12; b13]; up_dst := ep; up_options := opts;
            up_sport := [b18; b19]; up_ucsum := [b24; b25]; up_payload := T |}.
  pose proof (word_range b0 b1). pose proof (word_range b22 b23).
  split_and!; [split; cbn; try done; [by exists k|]|done|].
  { unfold up_total. cbn. unfold_int. lia. }
  unfold up_encode, up_total. cbn [up_tos up_id up_df up_ttl up_hcsum up_src up_dst up_options
    up_sport up_ucsum up_payload].
  rewrite Hlo, Nat2Z.inj_mul, Z.div_mul by lia.
  replace (20 + k * 4 + 8 + length T)%nat with (28 + k * 4 + length T)%nat by lia.
  rewrite <- H, <- H0, <- H1, <- H2, !(be_bytes_be_value_len 2) by done.
  replace (64 + Z.of_nat (5 + k)) with (64 + 5 + Z.of_nat k) by lia. cbn [app]. done.
Qed.

Lemma relay_encodes u : up_ok u → relay_packet_targets (up_encode u) (up_dst u) = true.
Proof.
  intros [Hid Hhc Hsrc (k & Hk & Hk10) Hsp Huc Hport Htot].
  destruct u as [tos id df ttl hc src dst opts sp uc payload].
  unfold up_encode, up_total in *. cbn [up_tos up_id up_df up_ttl up_hcsum up_src up_dst up_options
    up_sport up_ucsum up_payload] in *.
  do 2 next_byte id. destruct id; [|done]. do 2 next_byte hc. destruct hc; [|done].
  do 4 next_byte src. destruct src; [|done]. do 2 next_byte sp. destruct sp; [|done].
  do 2 next_byte uc. destruct uc; [|done]. destruct dst as [[o1 o2 o3 o4] port]. cbn [sa_ip sa_port octets] in *.
  rewrite !be_bytes_2. cbn [app].
  rewrite Hk, Nat2Z.inj_mul, Z.div_mul by lia.
  replace (64 + 5 + Z.of_nat k) with (64 + Z.of_nat (5 + k)) by lia.
  match goal with |- relay_packet_targets (?a0 :: ?a1 :: ?a2 :: ?a3 :: ?a4 :: ?a5 :: ?a6 :: ?a7 :: ?a8 :: ?a9
      :: ?a10 :: ?a11 :: ?a12 :: ?a13 :: ?a14 :: ?a15 :: ?a16 :: ?a17 :: ?a18 :: ?a19 :: opts ++
      ?s1 :: ?s2 :: ?s3 :: ?s4 :: ?s5 :: ?s6 :: ?s7 :: ?s8 :: payload) ?ep = true =>
    etrans; [exact (relay_core k a1 a2 a3 a4 a5 a6 a7 a8 a9 a10 a11 a12 a13 a14 a15 a16 a17 a18 a19 opts
      s1 s2 s3 s4 s5 s6 s7 s8 payload ep Hk10 Hk)|] end.
  rewrite !word_bytes by (unfold_int; lia). rewrite bool_decide_eq_true_2 by done.
  rewrite !andb_true_iff, !Z.eqb_eq. split_and!; try done; try lia.
  apply flags_spec. split; [done|]. by exists df.
Qed.

(** The relay boundary is exact: a packet passes for the signed endpoint precisely when
    it is one complete IPv4 packet holding one complete, unfragmented UDP datagram to that
    address and port - header length, total length, fragment word, protocol, UDP length and
    destination all agree, nothing before or after - whatever its options, addresses,
    checksums and payload. *)
Theorem relay_packet_exact packet ep :
  u16 (sa_port ep) →
  relay_packet_targets packet ep = true ↔
  ∃ u, up_ok u ∧ up_dst u = ep ∧ packet = up_encode u.
Proof.
  intros Hport. split; [by apply relay_decodes|].
  intros (u & Hu & <- & ->). by apply relay_encodes.
Qed.

(** ** Witnesses *)

Section Witnesses.
Import Toy.

Definition w_spki : bytes := str "certificate".

Definition w_gate_audience : GrantAudience :=
  {| node := {| Grant.realm := str "prod"; Grant.node_id := str "middle-1"; Grant.role := Middle;
                transport := Masque; tee := SevSnp; measurement := replicate 48 x07;
                tls_spki_sha256 := sha256 w_spki |};
     previous_hop := Some (Ipv4 xc0 x00 x02 x07);
     next_hop := Some {| sa_ip := Ipv4 xc6 x33 x64 x14; sa_port := 443 |} |}.

Definition w_gate_grant : Grant :=
  match mint w_key w_gate_audience w_nonce w_ttl 1000 with
  | Ok g => g
  | Err _ => {| g_token := []; g_nonce := [] |}
  end.

Definition w_cfg : NodeConfig :=
  {| bind := w_src; tun_name := str "nil0"; node_tun_ip := Ipv4 x0a x4a x00 x01; NodeConfig.prefix := 24;
     tunnel_cidr := str "10.74.0.0/24"; egress := str "eth0"; mtu := 1420;
     attest := Some {| na_tee := SevSnp; na_measurement := replicate 48 x07 |};
     role := NMiddle; grant_verifier := Some w_verifier; grant_realm := Some (str "prod");
     NodeConfig.node_id := Some (str "middle-1"); tls_key_file := None; allow_ungranted := false;
     max_connections := 16; max_connections_per_ip := 4; grant_replay_capacity := 64 |}.

Definition w_headers : list Header :=
  [(str ":method", str "CONNECT"); (str ":protocol", str "connect-ip");
   (ATTEST_NONCE_HEADER, to_hex w_nonce); (TUNNEL_GRANT_HEADER, to_hex (g_token w_gate_grant))].

Definition w_peer : IpAddr := V4 (Ipv4 xc0 x00 x02 x07).
Definition w_gate_build : Build := {| debug_assertions := false; hw_attest := true |}.

Lemma w_gate_mint : mint w_key w_gate_audience w_nonce w_ttl 1000 = Ok w_gate_grant.
Proof. by vm_compute. Qed.

Lemma w_gate_audience_ok : audience_ok w_gate_audience.
Proof.
  split; try reflexivity.
  - apply (validate_named_identifier_ok [] _ tt). reflexivity.
  - apply (validate_named_identifier_ok [] _ tt). reflexivity.
  - intros s [= <-]. by vm_compute.
Qed.

Lemma w_cache_new : cache_new 900 64 = Some (default w_cache (cache_new 900 64)).
Proof. reflexivity. Qed.

Definition w_rc0 : GrantReplayCache := default w_cache (cache_new 900 64).

Lemma minted_grant_opens_tunnel_witness :
  ∃ rc, authorize_connect w_gate_build w_headers w_cfg w_spki w_peer 1100 w_rc0 =
    (rc, Ok (PolicyRelay {| sa_ip := Ipv4 xc6 x33 x64 x14; sa_port := 443 |})).
Proof.
  refine (minted_grant_opens_tunnel w_gate_build w_cfg w_spki w_key w_gate_audience w_nonce w_ttl 1000
    w_gate_grant w_verifier 1100 900 64 w_rc0 w_peer w_gate_mint w_gate_audience_ok eq_refl eq_refl
    _ _ _ _ _ w_cache_new _ _ _).
  - by vm_compute.
  - by vm_compute.
  - by vm_compute.
  - by intros ip [= <-].
  - by vm_compute.
  - done.
  - cbn. lia.
  - by vm_compute.
Defined.

(** The first presentation of the grant is let through. *)
Local Notation w_first :=
  (authorize_connect w_gate_build w_headers w_cfg w_spki w_peer 1100 w_rc0) (only parsing).

Lemma pair_snd {A B} (x : A * B) b : x.2 = b → x = (x.1, b).
Proof. by destruct x as [? ?]; intros <-. Qed.

Lemma w_first_policy : w_first.2 = Ok (PolicyRelay {| sa_ip := Ipv4 xc6 x33 x64 x14; sa_port := 443 |}).
Proof. by vm_compute. Qed.

Lemma w_first_ok :
  authorize_connect w_gate_build w_headers w_cfg w_spki w_peer 1100 w_rc0 =
  (w_first.1, Ok (PolicyRelay {| sa_ip := Ipv4 xc6 x33 x64 x14; sa_port := 443 |})).
Proof. exact (pair_snd w_first _ w_first_policy). Qed.

Lemma w_carries : carries w_headers TUNNEL_GRANT_HEADER (to_hex (g_token w_gate_grant)).
Proof. by vm_compute. Qed.

Lemma w_rc0_inv : cache_inv w_rc0.
Proof. exact (proj1 (cache_new_inv _ _ _ w_cache_new)). Qed.

Lemma grant_opens_one_tunnel_witness :
  ∃ e, (authorize_connect w_gate_build w_headers w_cfg w_spki w_peer 1200 w_first.1).2 = Err e.
Proof.
  refine (grant_opens_one_tunnel w_gate_build w_headers w_headers w_cfg w_spki w_peer w_peer
    (g_token w_gate_grant) 1100 1200 w_rc0 w_first.1 w_first.1 _ [] [] w_rc0_inv _
    w_carries w_carries w_first_ok eq_refl _).
  - by exists w_verifier.
  - constructor.
Defined.

Lemma authorize_connect_exact_witness :
  ∃ token g, gate_passed w_headers w_cfg w_spki w_peer 1100 token g ∧ 1100 < vg_expires_at g ∧
    entries w_first.1 = <[replay_key g := vg_expires_at g]> (filter (λ kv, 1100 < kv.2) (entries w_rc0)).
Proof.
  destruct (authorize_connect_exact w_gate_build w_headers w_cfg w_spki w_peer 1100 w_rc0
    (PolicyRelay {| sa_ip := Ipv4 xc6 x33 x64 x14; sa_port := 443 |}) w_rc0_inv) as [Hi He].
  destruct (proj1 Hi w_first_policy) as [(t & g & Hg & Hlt & _)|[H _]].
  - exists t, g. split_and!; [exact Hg|exact Hlt|exact (He t g Hg w_first_policy)].
  - exfalso. by destruct H as [H _].
Defined.

Definition w_udp : UdpPacket :=
  {| up_tos := x00; up_id := [x00; x01]; up_df := true; up_ttl := x40; up_hcsum := [x00; x00];
     up_src := [x0a; x4a; x00; x02]; up_dst := {| sa_ip := Ipv4 xc6 x33 x64 x14; sa_port := 443 |};
     up_options := []; up_sport := [x12; x34]; up_ucsum := [x00; x00]; up_payload := [xaa; xbb] |}.

Lemma relay_packet_exact_witness : relay_packet_targets (up_encode w_udp) (up_dst w_udp) = true.
Proof.
  apply (relay_packet_exact (up_encode w_udp) (up_dst w_udp)); [by vm_compute|].
  exists w_udp. split; [|done]. split; try reflexivity; try by vm_compute. exists 0%nat. by cbn; lia.
Defined.

End Witnesses.
