(* ===== verification/NodeRuns.v ===== *)
(** * Runs of the node server

    The state invariant of [NodeServer], over any sequence of the loop's steps, and what it
    gives: no traffic without an authorised tunnel, inner addresses that separate clients,
    bounded route tables and connection counts. *)

From S2P Require Import Prelude.
From S2P Require Import Text.
From S2P Require Import Net.
From S2P Require Import Crypto.
From S2P Require Import Env.
From S2P Require Import Grant.
From S2P Require Import GrantReplay.
From S2P Require Import ConnectIp.
From S2P Require Import Checksum.
From S2P Require Import Pool.
From S2P Require Import NodeConfig.
From S2P Require Import Retry.
From S2P Require Import NodeServer.
From S2P Require Import NodeGate.
From Stdlib Require Import Strings.Byte ZArith Lia.
From stdpp Require Import prelude gmap strings.

Local Open Scope Z_scope.

(** ** Routes *)

Definition routes_to (id : bytes) (routes : gmap IpAddr bytes) : nat :=
  size (filter (λ kv : IpAddr * bytes, kv.2 = id) routes).

Lemma routes_to_none id routes : (∀ r, routes !! r ≠ Some id) → routes_to id routes = 0%nat.
Proof.
  intros H. unfold routes_to. rewrite map_empty_filter_2; [by rewrite map_size_empty|].
  intros r id' Hr Heq. cbn in Heq. subst. by apply (H r).
Qed.

Lemma routes_to_insert id routes r :
  routes !! r = None → routes_to id (<[r := id]> routes) = S (routes_to id routes).
Proof.
  intros Hr. unfold routes_to. rewrite map_filter_insert_True by done.
  apply map_size_insert_None. apply map_lookup_filter_None. by left.
Qed.

Lemma routes_to_insert_other id id' routes r :
  id ≠ id' → (routes_to id' (<[r := id]> routes) ≤ routes_to id' routes)%nat.
Proof.
  intros Hne. unfold routes_to. rewrite map_filter_insert_False by (cbn; congruence).
  apply map_subseteq_size, map_filter_subseteq_mono. apply delete_subseteq.
Qed.

Lemma routes_to_filter id (P : IpAddr * bytes → Prop) `{∀ x, Decision (P x)} routes :
  (routes_to id (filter P routes) ≤ routes_to id routes)%nat.
Proof.
  unfold routes_to. apply map_subseteq_size, map_filter_subseteq_mono, map_filter_subseteq.
Qed.

Lemma u32_of_ip_inj a b : u32_of_ip a = u32_of_ip b → a = b.
Proof.
  intros E. destruct a as [a1 a2 a3 a4], b as [b1 b2 b3 b4]. unfold u32_of_ip in E.
  apply (f_equal (be_bytes 4)) in E. rewrite !(be_bytes_be_value_len 4) in E by done.
  by injection E as -> -> -> ->.
Qed.

(** What learning a packet's source can change. *)
Lemma learn_spec routes id assigned packet routes' ok :
  learn_client_route routes id assigned packet = (routes', ok) →
  (ok = true → ∃ src, packet_src_ip packet = Some src ∧ routes' !! src = Some id) ∧
  (routes' = routes ∨ ∃ src, routes !! src = None ∧ routes' = <[src := id]> routes ∧
     match assigned with
     | Some ip => src = V4 ip
     | None => (routes_to id routes < MAX_LEARNED_ROUTES_PER_CLIENT)%nat
     end).
Proof.
  unfold learn_client_route. destruct (packet_src_ip packet) as [src|]; [|intros [= <- <-]; split; [done|by left]].
  destruct (routes !! src) as [owner|] eqn:E.
  { intros [= <- <-]. split; [|by left]. intros ->%bool_decide_eq_true. eauto. }
  destruct assigned as [ip|].
  - case_decide as Hip; intros [= <- <-]; [|split; [done|by left]]. subst.
    split; [intros _; exists (V4 ip); by rewrite lookup_insert_eq|]. right. eauto.
  - case_match eqn:El; intros [= <- <-]; [split; [done|by left]|]. reflect_bools.
    split; [intros _; exists src; by rewrite lookup_insert_eq|]. right. eauto.
Qed.

(** ** The pool under reaping *)

Lemma by_conn_release p k id :
  by_conn (release p k) !! id = if decide (id = k) then None else by_conn p !! id.
Proof.
  unfold release. destruct (by_conn p !! k) as [a|] eqn:E; cbn; case_decide; subst.
  - by rewrite lookup_delete_eq.
  - by rewrite lookup_delete_ne.
  - done.
  - done.
Qed.

Lemma by_conn_releases ks p id :
  by_conn (foldl release p ks) !! id = if decide (id ∈ ks) then None else by_conn p !! id.
Proof.
  revert p. induction ks as [|k ks IH]; intros p; cbn [foldl]; [by rewrite decide_False by apply not_elem_of_nil|].
  rewrite IH, by_conn_release. repeat case_decide; set_solver.
Qed.

Lemma releases_inv R ks p : pool_inv R p → pool_inv R (foldl release p ks).
Proof. revert p. induction ks; intros p Hp; cbn [foldl]; [done|]. auto using release_inv. Qed.

Lemma releases_band ks p :
  first (foldl release p ks) = first p ∧ last_ (foldl release p ks) = last_ p.
Proof.
  revert p. induction ks as [|k ks IH]; intros p; cbn [foldl]; [done|].
  destruct (release_band p k) as [<- <-]. apply IH.
Qed.

(** ** The invariant *)

Section Runs.
Context `{Hsha : Sha256, Hed : Ed25519, Hpq : PqWg}.
Context (P : Process).

Definition peers (cs : gmap bytes Client) : gmap bytes IpAddr := peer_ip <$> cs.

Definition from_ip (ip : IpAddr) (ps : gmap bytes IpAddr) : nat :=
  size (filter (λ kv : bytes * IpAddr, kv.2 = ip) ps).

Lemma same_source_peers n ip : same_source n ip = from_ip ip (peers (clients n)).
Proof. unfold same_source, from_ip, peers. by rewrite map_filter_fmap, map_size_fmap. Qed.

(** One client, in the tables of the node. *)
Record client_ok (routes : gmap IpAddr bytes) (pl : AddressPool) (trace : list Output)
    (id : bytes) (c : Client) : Prop := {
  co_up : tunnel_up c = bool_decide (is_Some (packet_policy c));
  co_stream : is_Some (packet_policy c) →
    h3 c = true ∧ ∃ sid, ci_stream c = Some sid ∧ flow_id c = sid / 4;
  co_fresh : ci_stream c = None → assigned_ip c = None ∧ packet_policy c = None;
  co_assigned : ∀ ip, assigned_ip c = Some ip →
    by_conn pl !! id = Some (u32_of_ip ip) ∧ routes !! V4 ip = Some id;
  co_learned : assigned_ip c = None →
    (routes_to id routes ≤ MAX_LEARNED_ROUTES_PER_CLIENT)%nat;
  co_policy : ∀ p, packet_policy c = Some p → TunnelUp id p ∈ trace;
}.

Record node_inv (R : gset Z) (n : Node) (trace : list Output) : Prop := {
  ni_pool : pool_inv R (pool n);
  ni_held : ∀ id a, by_conn (pool n) !! id = Some a → is_Some (clients n !! id);
  ni_clients : ∀ id c, clients n !! id = Some c →
    client_ok (client_routes n) (pool n) trace id c;
  ni_routes : ∀ r id, client_routes n !! r = Some id →
    ∃ c, clients n !! id = Some c ∧ is_Some (ci_stream c) ∧
      ∀ ip, assigned_ip c = Some ip → r = V4 ip;
  ni_replays : cache_inv (grant_replays n);
  ni_total : Z.of_nat (size (clients n)) ≤ max_connections (cfg P);
  ni_per_ip : ∀ ip, Z.of_nat (from_ip ip (peers (clients n))) ≤ max_connections_per_ip (cfg P);
}.

Lemma client_ok_mono routes pl t t' id c :
  client_ok routes pl t id c → client_ok routes pl (t ++ t') id c.
Proof. intros []. split; try done. intros p Hp. apply elem_of_app. left. eauto. Qed.

Lemma node_inv_mono R n t t' : node_inv R n t → node_inv R n (t ++ t').
Proof. intros []. split; try done. intros id c Hc. apply client_ok_mono. eauto. Qed.

(** Updating one client without touching its identity, stream or address. *)
Lemma update_client R n t id c c' :
  node_inv R n t → clients n !! id = Some c →
  peer_ip c' = peer_ip c → ci_stream c' = ci_stream c → assigned_ip c' = assigned_ip c →
  client_ok (client_routes n) (pool n) t id c' →
  node_inv R (set_clients n (<[id := c']> (clients n))) t.
Proof.
  intros [Hp Hh Hc Hr Hrep Ht Hip] Hid Hpeer Hst Has Hok.
  assert (Hpeers : peers (<[id := c']> (clients n)) = peers (clients n)).
  { unfold peers. rewrite fmap_insert, Hpeer. apply insert_id. by rewrite lookup_fmap, Hid. }
  split; cbn [set_clients clients client_routes pool grant_replays]; try done.
  - intros id' a Ha. destruct (Hh _ _ Ha) as [c1 Hc1].
    destruct (decide (id = id')) as [<-|]; [by rewrite lookup_insert_eq; eauto|].
    rewrite lookup_insert_ne by done. eauto.
  - intros id' c1. rewrite lookup_insert_Some. intros [[<- <-]|[_ ?]]; [done|eauto].
  - intros r id' (c1 & Hc1 & Hs & Ha)%Hr. destruct (decide (id = id')) as [<-|].
    + exists c'. rewrite lookup_insert_eq, Hst, Has. naive_solver.
    + exists c1. rewrite lookup_insert_ne by done. done.
  - rewrite map_size_insert_Some by (by eexists). done.
  - intros ip. by rewrite Hpeers.
Qed.

(** Learning the source of a packet of a client whose tunnel is up. *)
Lemma learn_inv R n t id c packet routes ok :
  node_inv R n t → clients n !! id = Some c → is_Some (packet_policy c) →
  learn_client_route (client_routes n) id (assigned_ip c) packet = (routes, ok) →
  node_inv R {| clients := clients n; client_routes := routes; pool := pool n;
                grant_replays := grant_replays n |} t.
Proof.
  intros [Hp Hh Hc Hr Hrep Ht Hip] Hid Hup (_ & [->|(src & Hsrc & -> & Hcap)])%learn_spec; [by split|].
  pose proof (Hc _ _ Hid) as Hok. destruct (co_stream _ _ _ _ _ Hok Hup) as (_ & sid & Hsid & _).
  split; cbn; try done.
  - intros id' c' Hc'. destruct (Hc _ _ Hc') as [H1 H2 H3 H4 H5 H6]. split; try done.
    + intros ip Hip'. destruct (H4 _ Hip') as [? Hroute]. split; [done|].
      rewrite lookup_insert_ne; [done|]. congruence.
    + intros Hn. destruct (decide (id = id')) as [<-|Hne].
      * assert (c' = c) as -> by congruence. rewrite Hn in Hcap.
        rewrite routes_to_insert by done. lia.
      * etrans; [by apply routes_to_insert_other|]. by apply H5.
  - intros r id' [[<- <-]|[_ Hr']]%lookup_insert_Some; [|by apply Hr].
    exists c. split; [done|]. split; [rewrite Hsid; eauto|]. intros ip Hip'. by rewrite Hip' in Hcap.
Qed.

(** A new connection. *)
Lemma handle_packet_inv R n t hdr from ok :
  node_inv R n t → node_inv R (handle_packet P n hdr from ok).1 t.
Proof.
  intros Hinv. unfold handle_packet.
  destruct (clients n !! dcid hdr) as [?|] eqn:Hnew; [by case_match|].
  destruct (negb (is_initial hdr)); [done|]. destruct (negb (version_supported hdr)); [done|].
  destruct (decide (hdr_token hdr = [])); [done|]. destruct (retry_validate _ _ _); [|done].
  destruct (negb (connection_capacity_available _ _ _ _)) eqn:Ecap; [done|].
  destruct (negb ok); [done|]. cbn [fst]. unfold connection_capacity_available in Ecap. reflect_bools.
  rewrite same_source_peers in *. destruct Hinv as [Hp Hh Hc Hr Hrep Ht Hip].
  assert (Hno : ∀ r, client_routes n !! r ≠ Some (dcid hdr)).
  { intros r (c & Hc' & _)%Hr. congruence. }
  split; cbn [set_clients clients client_routes pool grant_replays]; try done.
  - intros id a (c & Hc')%Hh. rewrite lookup_insert_ne by congruence. eauto.
  - intros id c. rewrite lookup_insert_Some. intros [[<- <-]|[_ ?]]; [|eauto].
    split; cbn; try done. intros _. rewrite routes_to_none by done. lia.
  - intros r id Hrid. destruct (Hr _ _ Hrid) as (c & Hc' & ?). exists c.
    rewrite lookup_insert_ne by congruence. done.
  - rewrite map_size_insert_None by done. lia.
  - intros ip. unfold peers. rewrite fmap_insert. cbn [new_client peer_ip].
    specialize (Hip ip). unfold from_ip in *. fold (peers (clients n)).
    assert (Hn : peers (clients n) !! dcid hdr = None) by (unfold peers; by rewrite lookup_fmap, Hnew).
    destruct (decide (sa_ip_addr from = ip)) as [<-|Hne].
    + rewrite map_filter_insert_True by done. rewrite map_size_insert_None; [lia|].
      apply map_lookup_filter_None. by left.
    + rewrite map_filter_insert_not' by (cbn; congruence). done.
Qed.

(** Reaping closed connections. *)
Lemma reap_inv R n t closed : node_inv R n t → node_inv R (reap n closed) t.
Proof.
  intros [Hp Hh Hc Hr Hrep Ht Hip].
  set (live := filter (λ kc : bytes * Client, kc.1 ∉ closed) (clients n)).
  assert (Hlive : ∀ id c, live !! id = Some c ↔ clients n !! id = Some c ∧ id ∉ closed).
  { intros id c. unfold live. by rewrite map_lookup_filter_Some. }
  assert (Hconn : ∀ id, id ∉ closed →
    by_conn (foldl release (pool n) (elements (dom (clients n) ∩ closed))) !! id = by_conn (pool n) !! id).
  { intros id Hid. rewrite by_conn_releases, decide_False; [done|]. set_solver. }
  split; cbn [reap clients client_routes pool grant_replays]; fold live.
  - by apply releases_inv.
  - intros id a. rewrite by_conn_releases. case_decide as Hin; [done|]. intros Ha.
    destruct (Hh _ _ Ha) as [c Hc']. exists c. apply Hlive. split; [done|]. intros Hcl.
    apply Hin. apply elem_of_elements, elem_of_intersection. split; [|done]. by eapply elem_of_dom_2.
  - intros id c [Hid Hcl]%Hlive. destruct (Hc _ _ Hid) as [H1 H2 H3 H4 H5 H6]. split; try done.
    + intros ip Hip'. destruct (H4 _ Hip') as [Hb Hroute]. rewrite Hconn by done. split; [done|].
      apply map_lookup_filter_Some. split; [done|]. cbn. exists c. by apply Hlive.
    + intros Hn. etrans; [apply routes_to_filter|]. by apply H5.
  - intros r id [Hrid [c' Hl]]%map_lookup_filter_Some. cbn in Hl.
    destruct (Hr _ _ Hrid) as (c & Hc' & ?). apply Hlive in Hl as Hl'. exists c'.
    assert (c' = c) as -> by naive_solver. done.
  - done.
  - etrans; [|exact Ht]. apply Nat2Z.inj_le, map_subseteq_size, map_filter_subseteq.
  - intros ip. etrans; [|apply (Hip ip)]. apply Nat2Z.inj_le, map_subseteq_size, map_filter_subseteq_mono.
    unfold peers. apply map_fmap_mono, map_filter_subseteq.
Qed.

Lemma assign_spec R p id pl a :
  pool_inv R p → assign p id = (pl, a) →
  pool_inv R pl ∧ (∀ id', id' ≠ id → by_conn pl !! id' = by_conn p !! id') ∧
  match a with Some ip => by_conn pl !! id = Some (u32_of_ip ip) | None => by_conn pl = by_conn p end.
Proof.
  intros Hinv H. split; [by eapply assign_inv|]. pose proof Hinv as [Hrange Hcur _ _ Hheld _].
  revert H. unfold assign. destruct (by_conn p !! id) as [e|] eqn:Ek.
  { intros [= <- <-]. split; [done|]. destruct (Hheld _ _ Ek).
    rewrite u32_of_ip_of_u32 by (unfold_int; lia). done. }
  destruct (probe _ _ _ _ _) as [cur [x|]] eqn:Ep; intros [= <- <-]; cbn [by_conn]; [|done].
  apply probe_spec in Ep as [_ [Hx _]]; [|done].
  rewrite lookup_insert_eq, u32_of_ip_of_u32 by (unfold_int; lia). split; [|done].
  intros id' Hne. by rewrite lookup_insert_ne.
Qed.

Lemma authorize_connect_inv b headers spki peer now rc rc' r :
  cache_inv rc → authorize_connect b headers (cfg P) spki peer now rc = (rc', r) → cache_inv rc'.
Proof.
  intros Hrc. unfold authorize_connect. destruct (check_connect _ _ _ _ _ _) as [[g|]|e];
    [|by intros [= <- <-]..].
  destruct (consume rc g now) as [c [u|e]] eqn:Ec; intros [= <- <-];
    by apply consume_spec in Ec as (_ & _ & _ & ?).
Qed.

(** Only the replay cache changed. *)
Lemma replays_inv R n t rc :
  node_inv R n t → cache_inv rc →
  node_inv R {| clients := clients n; client_routes := client_routes n; pool := pool n;
                grant_replays := rc |} t.
Proof. intros [] ?. by split. Qed.

Lemma no_routes_before_stream R n t id c :
  node_inv R n t → clients n !! id = Some c → ci_stream c = None →
  ∀ r, client_routes n !! r ≠ Some id.
Proof.
  intros Hinv Hid Hs r (c' & Hc' & Hsome & _)%(ni_routes _ _ _ Hinv).
  assert (c' = c) as -> by congruence. rewrite Hs in Hsome. by destruct Hsome.
Qed.

(** The tunnel comes up. *)
Lemma bring_up_inv R n t id c sid pol rc pl assigned :
  node_inv R n t → clients n !! id = Some c → ci_stream c = None → h3 c = true →
  cache_inv rc → assign (pool n) id = (pl, assigned) →
  node_inv R {| clients := <[id := bring_up c sid pol assigned]> (clients n);
                client_routes := add_route (client_routes n) id assigned;
                pool := pl; grant_replays := rc |} (t ++ [TunnelUp id pol]).
Proof.
  intros Hinv Hid Hs Hh3 Hrc Ha. pose proof (no_routes_before_stream _ _ _ _ _ Hinv Hid Hs) as Hno.
  destruct Hinv as [Hp Hh Hc Hr _ Ht Hip]. destruct (assign_spec _ _ _ _ _ Hp Ha) as (Hpl & Hother & Hown).
  pose proof (Hc _ _ Hid) as [_ _ Hfresh _ _ _]. destruct (Hfresh Hs) as [Hnone _].
  assert (Hsub : ∀ id' a, id' ≠ id → by_conn pl !! id' = Some a → by_conn (pool n) !! id' = Some a).
  { intros id' a Hne. by rewrite Hother. }
  assert (Hroutes : ∀ r id', id' ≠ id →
    add_route (client_routes n) id assigned !! r = Some id' → client_routes n !! r = Some id').
  { intros r id' Hne. unfold add_route. destruct assigned; [|done]. rewrite lookup_insert_Some.
    intros [[_ ?]|[_ ?]]; congruence. }
  split; cbn [clients client_routes pool grant_replays]; try done.
  - intros id' a Hb. destruct (decide (id' = id)) as [->|Hne]; [rewrite lookup_insert_eq; eauto|].
    rewrite lookup_insert_ne by done. eapply Hh. eauto.
  - intros id' c'. rewrite lookup_insert_Some. intros [[<- <-]|[Hne Hc']].
    + split; cbn [bring_up tunnel_up packet_policy h3 ci_stream flow_id assigned_ip]; try done.
      * intros _. eauto.
      * intros ip Hx. destruct assigned as [ip'|]; [|congruence]. injection Hx as ->.
        split; [done|]. unfold add_route. by rewrite lookup_insert_eq.
      * intros Hx. destruct assigned; [done|]. cbn. rewrite routes_to_none by done. lia.
      * intros p [= <-]. apply elem_of_app. right. by left.
    + apply client_ok_mono. destruct (Hc _ _ Hc') as [H1 H2 H3 H4 H5 H6]. split; try done.
      * intros ip Hx. destruct (H4 _ Hx) as [Hb Hroute]. rewrite Hother by done. split; [done|].
        unfold add_route. destruct assigned as [ip'|]; [|done]. rewrite lookup_insert_ne; [done|].
        intros [= <-]. apply Hne. eapply (pi_unique _ _ Hpl); [done|]. by rewrite Hother.
      * intros Hx. unfold add_route. destruct assigned; [|by apply H5].
        etrans; [by apply routes_to_insert_other|]. by apply H5.
  - intros r id' Hrid. destruct (decide (id' = id)) as [->|Hne].
    + exists (bring_up c sid pol assigned). rewrite lookup_insert_eq. cbn. split; [done|].
      split; [by eauto|]. unfold add_route in Hrid. destruct assigned as [ip|].
      * apply lookup_insert_Some in Hrid as [[<- _]|[_ Hx]]; [by intros ? [= <-]|by apply Hno in Hx].
      * by apply Hno in Hrid.
    + destruct (Hr _ _ (Hroutes _ _ Hne Hrid)) as (c' & ?). exists c'.
      by rewrite lookup_insert_ne.
  - rewrite map_size_insert_Some by (by eexists). done.
  - intros ip. unfold peers. rewrite fmap_insert, insert_id; [apply Hip|].
    by rewrite lookup_fmap, Hid.
Qed.

(** The 200 could not be sent: the address goes back. *)
Lemma unsent_inv R n t id c rc pl assigned :
  node_inv R n t → clients n !! id = Some c → ci_stream c = None →
  cache_inv rc → assign (pool n) id = (pl, assigned) →
  node_inv R {| clients := clients n; client_routes := client_routes n;
                pool := match assigned with Some _ => release pl id | None => pl end;
                grant_replays := rc |} t.
Proof.
  intros [Hp Hh Hc Hr _ Ht Hip] Hid Hs Hrc Ha.
  destruct (assign_spec _ _ _ _ _ Hp Ha) as (Hpl & Hother & Hown).
  set (pl' := match assigned with Some _ => release pl id | None => pl end).
  assert (Hb : ∀ id', id' ≠ id → by_conn pl' !! id' = by_conn (pool n) !! id').
  { intros id' Hne. unfold pl'. destruct assigned; [|by apply Hother].
    rewrite by_conn_release, decide_False by done. by apply Hother. }
  split; cbn [clients client_routes pool grant_replays]; try done.
  - unfold pl'. destruct assigned; [by apply release_inv|done].
  - intros id' a Hx. destruct (decide (id' = id)) as [->|Hne]; [by eexists|].
    rewrite Hb in Hx by done. by eapply Hh.
  - intros id' c' Hc'. destruct (Hc _ _ Hc') as [H1 H2 H3 H4 H5 H6]. split; try done.
    intros ip Hx. destruct (decide (id' = id)) as [->|Hne]; [|rewrite Hb by done; by apply H4].
    assert (c' = c) as -> by congruence. destruct (H3 Hs) as [Hn _]. congruence.
Qed.

Lemma on_headers_inv R n t id c sid hdrs sent now :
  node_inv R n t → clients n !! id = Some c → h3 c = true →
  let '(n', out) := on_headers P n id c sid hdrs sent now in node_inv R n' (t ++ out).
Proof.
  intros Hinv Hid Hh3. unfold on_headers.
  destruct (negb (is_connect_ip hdrs)); [by apply node_inv_mono|].
  destruct (decide (is_Some (ci_stream c))) as [|Hs]; [by apply node_inv_mono|].
  apply eq_None_not_Some in Hs.
  destruct (authorize_connect _ _ _ _ _ _ _) as [rc [pol|e]] eqn:Ea;
    apply authorize_connect_inv in Ea; try apply (ni_replays _ _ _ Hinv).
  2:{ by apply node_inv_mono, replays_inv. }
  destruct (assign (pool n) id) as [pl assigned] eqn:Eas. destruct sent.
  - rewrite cons_middle, app_assoc. apply bring_up_inv; try done. by apply node_inv_mono.
  - rewrite app_nil_r. by eapply unsent_inv.
Qed.

(** ** What comes out *)

(** The justification of an output, given what came out before and the routes after it. *)
Definition sent_ok (trace : list Output) (routes : gmap IpAddr bytes) (o : Output) : Prop :=
  match o with
  | ToTun id p => ∃ pol src, TunnelUp id pol ∈ trace ∧ policy_allows pol p = true ∧
      packet_src_ip p = Some src ∧ routes !! src = Some id
  | ToClient id _ => ∃ pol, TunnelUp id pol ∈ trace
  | _ => True
  end.

Definition step_ok (R : gset Z) (t : list Output) (n : Node) (out : list Output) : Prop :=
  node_inv R n (t ++ out) ∧ Forall (sent_ok t (client_routes n)) out.

Definition with_routes (n : Node) (routes : gmap IpAddr bytes) : Node :=
  {| clients := clients n; client_routes := routes; pool := pool n; grant_replays := grant_replays n |}.

Lemma forward_packet_ok R n t id c packet routes out :
  node_inv R n t → clients n !! id = Some c →
  forward_packet (client_routes n) id c packet = (routes, out) →
  node_inv R (with_routes n routes) t ∧ Forall (sent_ok t routes) out.
Proof.
  intros Hinv Hid. unfold forward_packet, with_routes.
  destruct (packet_policy c) as [pol|] eqn:Epol; [|intros [= <- <-]; split; [by destruct Hinv|done]].
  destruct (policy_allows pol packet) eqn:Eal; [|intros [= <- <-]; split; [by destruct Hinv|done]].
  destruct (learn_client_route _ _ _ _) as [rs ok] eqn:El. intros H.
  assert (routes = rs) as -> by (destruct ok; congruence).
  split; [eapply learn_inv; [done|done|by rewrite Epol|done]|].
  destruct ok; injection H as <-; [|done]. repeat constructor. cbn.
  apply learn_spec in El as [Hsrc _]. destruct (Hsrc eq_refl) as (src & ? & ?).
  exists pol, src. split_and!; try done. by eapply co_policy; [eapply ni_clients|].
Qed.

Lemma decap_loop_ok R fuel n t id c pq input routes pq' out :
  node_inv R n t → clients n !! id = Some c → is_Some (packet_policy c) →
  decap_loop fuel (client_routes n) id c pq input = (routes, pq', out) →
  node_inv R (with_routes n routes) t ∧ Forall (sent_ok t routes) out.
Proof.
  intros Hinv Hid [pol Hpol]. revert pq input routes pq' out.
  induction fuel as [|fuel IH]; intros pq input routes pq' out; cbn [decap_loop].
  { intros [= <- <- <-]. split; [by destruct Hinv|done]. }
  destruct (decapsulate pq input) as [pq1 [ip|b| |]].
  - destruct (forward_packet _ _ _ _) as [rs o] eqn:E. intros [= <- <- <-].
    by eapply forward_packet_ok.
  - destruct (decap_loop _ _ _ _ _ _) as [[rs pq2] o] eqn:E. intros [= <- <- <-].
    apply IH in E as [? ?]. split; [done|]. constructor; [|done].
    exists pol. by eapply co_policy; [eapply ni_clients|].
  - intros [= <- <- <-]. split; [by destruct Hinv|done].
  - intros [= <- <- <-]. split; [by destruct Hinv|done].
Qed.

Lemma client_ok_pqwg routes pl t id c pq :
  client_ok routes pl t id c → client_ok routes pl t id (set_pqwg c pq).
Proof. intros []. by split. Qed.

Lemma step_ok_same R t n : node_inv R n t → step_ok R t n [].
Proof. intros. split; [by rewrite app_nil_r|done]. Qed.

Lemma on_datagram_ok R n t id dg :
  node_inv R n t → let '(n', out) := on_datagram P n id dg in step_ok R t n' out.
Proof.
  intros Hinv. unfold on_datagram. destruct (clients n !! id) as [c|] eqn:Hid; [|by apply step_ok_same].
  destruct (negb (h3 c) || negb (tunnel_up c)) eqn:Eup; [by apply step_ok_same|]. reflect_bools.
  destruct (decode_datagram dg) as [[fid [payload|]]|e]; try by apply step_ok_same.
  destruct (negb _); [by apply step_ok_same|].
  assert (Hpol : is_Some (packet_policy c)).
  { pose proof (ni_clients _ _ _ Hinv _ _ Hid) as Hok. rewrite (co_up _ _ _ _ _ Hok) in *.
    by reflect_bools. }
  destruct (pqwg c) as [pq|] eqn:Epq.
  - destruct (established pq); [|by apply step_ok_same].
    destruct (decap_loop _ _ _ _ _ _) as [[rs pq'] out] eqn:El.
    apply decap_loop_ok with (R := R) (t := t) in El as [Hn Ho]; [|done..].
    split; [|done]. apply node_inv_mono.
    apply (update_client R (with_routes n rs) t id c (set_pqwg c (Some pq'))); try done.
    apply client_ok_pqwg. by apply (ni_clients _ _ _ Hn).
  - destruct (pqwg_enabled P); [by apply step_ok_same|].
    destruct (forward_packet _ _ _ _) as [rs out] eqn:Ef.
    eapply forward_packet_ok in Ef as [Hn Ho]; [|done..]. split; [|done]. by apply node_inv_mono.
Qed.

Lemma on_tun_packet_ok R n t packet :
  node_inv R n t → let '(n', out) := on_tun_packet n packet in step_ok R t n' out.
Proof.
  intros Hinv. unfold on_tun_packet. destruct (_ ≫= _) as [id|]; [|by apply step_ok_same].
  destruct (clients n !! id) as [c|] eqn:Hid; [|by apply step_ok_same].
  destruct (tunnel_up c) eqn:Eup; cbn [negb]; [|by apply step_ok_same].
  pose proof (ni_clients _ _ _ Hinv _ _ Hid) as Hok. rewrite (co_up _ _ _ _ _ Hok) in Eup.
  apply bool_decide_eq_true in Eup as [pol Hpol]. pose proof (co_policy _ _ _ _ _ Hok _ Hpol) as Hin.
  assert (Hsend : ∀ n' dg, node_inv R n' t → step_ok R t n' [ToClient id dg]).
  { intros n' dg Hn. split; [by apply node_inv_mono|]. repeat constructor. by exists pol. }
  destruct (pqwg c) as [pq|]; [|by apply Hsend].
  destruct (established pq); [|by apply Hsend].
  destruct (encapsulate pq _) as [pq' [pl|]].
  - apply Hsend. eapply update_client; try done. by apply client_ok_pqwg.
  - apply step_ok_same. eapply update_client; try done. by apply client_ok_pqwg.
Qed.

Lemma on_h3_event_ok R n t id ev now :
  node_inv R n t → let '(n', out) := on_h3_event P n id ev now in step_ok R t n' out.
Proof.
  intros Hinv. unfold on_h3_event. destruct (clients n !! id) as [c|] eqn:Hid; [|by apply step_ok_same].
  destruct (h3 c) eqn:Hh3; cbn [negb]; [|by apply step_ok_same].
  pose proof (ni_clients _ _ _ Hinv _ _ Hid) as Hok.
  assert (Hdown : node_inv R (set_clients n (<[id := bring_down c]> (clients n))) t).
  { eapply update_client; try done. destruct Hok as [H1 H2 H3 H4 H5 H6].
    split; cbn; try done. intros Hs. by destruct (H3 Hs). }
  destruct ev as [sid hdrs sent|sid chunks|sid|sid|].
  - pose proof (on_headers_inv _ _ _ _ _ sid hdrs sent now Hinv Hid Hh3) as Hn.
    destruct (on_headers _ _ _ _ _ _ _ _) as [n' out] eqn:E. split; [done|].
    clear Hn. revert E. unfold on_headers. repeat case_match; intros [= <- <-]; repeat constructor.
  - case_decide; [|by apply step_ok_same]. destruct (pqwg c); [|by apply step_ok_same].
    apply step_ok_same. eapply update_client; try done. by apply client_ok_pqwg.
  - case_decide; by apply step_ok_same.
  - case_decide; by apply step_ok_same.
  - by apply step_ok_same.
Qed.

Lemma start_h3_inv R n t id : node_inv R n t → node_inv R (start_h3 n id) t.
Proof.
  intros Hinv. unfold start_h3. destruct (clients n !! id) as [c|] eqn:Hid; [|done].
  eapply update_client; try done. destruct (ni_clients _ _ _ Hinv _ _ Hid) as [H1 H2 H3 H4 H5 H6].
  split; cbn; try done. intros Hp. by destruct (H2 Hp) as [_ ?].
Qed.

Lemma step_keeps R n t s : node_inv R n t → step_ok R t (step P n s).1 (step P n s).2.
Proof.
  intros Hinv. destruct s as [hdr from ok|id|id ev now|id dg|packet|closed]; cbn [step].
  - destruct (handle_packet P n hdr from ok) as [n' out] eqn:E.
    pose proof (handle_packet_inv _ _ _ hdr from ok Hinv) as Hn. rewrite E in Hn. cbn [fst snd] in *.
    split; [by apply node_inv_mono|]. clear Hn. revert E. unfold handle_packet.
    repeat case_match; intros [= <- <-]; repeat constructor.
  - by apply step_ok_same, start_h3_inv.
  - pose proof (on_h3_event_ok _ _ _ id ev now Hinv). by destruct (on_h3_event _ _ _ _ _).
  - pose proof (on_datagram_ok _ _ _ id dg Hinv). by destruct (on_datagram _ _ _ _).
  - pose proof (on_tun_packet_ok _ _ _ packet Hinv). by destruct (on_tun_packet _ _).
  - by apply step_ok_same, reap_inv.
Qed.

(** ** Runs *)

(** Configured limits: what [NodeConfig.from_env] guarantees. *)
Definition limits_ok : Prop :=
  1 ≤ max_connections_per_ip (cfg P) ≤ max_connections (cfg P).

Definition reachable (n : Node) (trace : list Output) : Prop :=
  ∃ started n0 steps, start P started = Some n0 ∧ run P n0 steps = (n, trace).

Lemma pool_new_empty base prefix gateway p :
  pool_new base prefix gateway = Some p → by_conn p = ∅.
Proof. unfold pool_new. repeat case_match; congruence || by intros [= <-]. Qed.

Lemma start_inv started n0 :
  limits_ok → start P started = Some n0 → node_inv (reserved_of (pool n0)) n0 [].
Proof.
  intros Hl (pl & Hpl & (rc & Hrc & [= <-])%bind_Some)%bind_Some. unfold limits_ok in Hl.
  apply cache_new_inv in Hrc as (Hrc & _). unfold default_v4 in Hpl.
  pose proof (pool_new_empty _ _ _ _ Hpl) as Hempty.
  apply pool_new_inv in Hpl as (Hpl & _ & _).
  split; cbn [clients client_routes pool grant_replays].
  - done.
  - intros id a. by rewrite Hempty, lookup_empty.
  - intros id c. by rewrite lookup_empty.
  - intros r id. by rewrite lookup_empty.
  - done.
  - rewrite map_size_empty. lia.
  - intros ip. unfold peers, from_ip. rewrite fmap_empty, map_filter_empty, map_size_empty. lia.
Qed.

Lemma run_keeps_inv R n t steps n' out :
  node_inv R n t → run P n steps = (n', out) → node_inv R n' (t ++ out).
Proof.
  revert n t out. induction steps as [|s steps IH]; intros n t out Hinv H; cbn [run] in H.
  { injection H as <- <-. by rewrite app_nil_r. }
  pose proof (step_keeps _ _ _ s Hinv) as [Hn _]. destruct (step P n s) as [n1 o1]. cbn [fst snd] in Hn.
  destruct (run P n1 steps) as [n2 o2] eqn:E. injection H as <- <-.
  rewrite app_assoc. by eapply IH.
Qed.

Lemma reachable_inv n t : limits_ok → reachable n t → ∃ R, node_inv R n t.
Proof.
  intros Hl (started & n0 & steps & Hs & Hr). eexists.
  eapply (run_keeps_inv _ _ [] _ _ _ (start_inv _ _ Hl Hs) Hr).
Qed.

(** C10.  In every state a run of the node can reach, under any interleaving of packets,
    handshakes, stream events, reads and disconnects: connections stay within both
    configured limits; a client that holds an address is the only one to hold it, owns its
    route and no other; a client without one has at most four routes; routes and pool
    entries belong to live clients, and routes only to clients that opened a tunnel; a
    tunnel is up exactly when it has a policy, on the flow of its one stream. *)
Theorem node_state_invariant n t :
  limits_ok → reachable n t →
  (Z.of_nat (size (clients n)) ≤ max_connections (cfg P) ∧
   ∀ ip, Z.of_nat (same_source n ip) ≤ max_connections_per_ip (cfg P)) ∧
  (∀ id1 c1 id2 c2 ip, clients n !! id1 = Some c1 → clients n !! id2 = Some c2 →
     assigned_ip c1 = Some ip → assigned_ip c2 = Some ip → id1 = id2) ∧
  (∀ r id, client_routes n !! r = Some id → ∃ c, clients n !! id = Some c ∧
     is_Some (ci_stream c) ∧ ∀ ip, assigned_ip c = Some ip → r = V4 ip) ∧
  (∀ id c, clients n !! id = Some c →
     (∀ ip, assigned_ip c = Some ip → client_routes n !! V4 ip = Some id) ∧
     (assigned_ip c = None → (routes_to id (client_routes n) ≤ 4)%nat) ∧
     (tunnel_up c = true ↔ is_Some (packet_policy c)) ∧
     (tunnel_up c = true → ∃ sid, ci_stream c = Some sid ∧ flow_id c = sid / 4)) ∧
  (∀ id a, by_conn (pool n) !! id = Some a → is_Some (clients n !! id)).
Proof.
  intros Hl [R Hinv]%reachable_inv; [|done]. split_and!.
  - apply Hinv.
  - intros ip. rewrite same_source_peers. apply Hinv.
  - intros id1 c1 id2 c2 ip H1 H2 Ha1 Ha2.
    destruct (co_assigned _ _ _ _ _ (ni_clients _ _ _ Hinv _ _ H1) _ Ha1) as [Hb1 _].
    destruct (co_assigned _ _ _ _ _ (ni_clients _ _ _ Hinv _ _ H2) _ Ha2) as [Hb2 _].
    by eapply (pi_unique _ _ (ni_pool _ _ _ Hinv)).
  - apply Hinv.
  - intros id c Hc. pose proof (ni_clients _ _ _ Hinv _ _ Hc) as [H1 H2 H3 H4 H5 H6].
    rewrite H1, bool_decide_eq_true. split_and!; try done.
    + intros ip Ha. by apply H4.
    + intros Hp. by destruct (H2 Hp) as [_ ?].
  - apply Hinv.
Qed.

(** C11.  No traffic without authorisation: whatever a step of a reachable node hands to
    the TUN for a client, that client's tunnel was brought up earlier in the run under a
    policy that admits the packet, and the packet's source address is a route of that client
    (its own assigned address, when it has one); whatever is sent to a client goes to one
    whose tunnel was brought up earlier. *)
Theorem traffic_is_authorised n t s o :
  limits_ok → reachable n t → o ∈ (step P n s).2 →
  match o with
  | ToTun id p => ∃ pol src, TunnelUp id pol ∈ t ∧ policy_allows pol p = true ∧
      packet_src_ip p = Some src ∧ client_routes (step P n s).1 !! src = Some id ∧
      ∀ c ip, clients (step P n s).1 !! id = Some c → assigned_ip c = Some ip → src = V4 ip
  | ToClient id _ => ∃ pol, TunnelUp id pol ∈ t
  | _ => True
  end.
Proof.
  intros Hl [R Hinv]%reachable_inv Ho; [|done].
  destruct (step_keeps _ _ _ s Hinv) as [Hn Hs]. rewrite Forall_forall in Hs.
  specialize (Hs _ Ho). destruct o; try done. cbn in Hs.
  destruct Hs as (pol & src & Hup & Hpol & Hsrc & Hr). exists pol, src. split_and!; try done.
  intros c ip Hc Hip. destruct (ni_routes _ _ _ Hn _ _ Hr) as (c' & Hc' & _ & Hown).
  apply Hown. congruence.
Qed.

(** Replies reach their owner only: a packet read from the TUN leaves towards at most
    one client, the live one whose tunnel is up and that holds the route of the packet's
    destination (its own assigned address, when it has one), on that tunnel's flow; without
    an inner tunnel it carries exactly the packet with its checksums completed. *)
Theorem replies_reach_owner n t packet id dg :
  limits_ok → reachable n t → ToClient id dg ∈ (step P n (Tun packet)).2 →
  (step P n (Tun packet)).2 = [ToClient id dg] ∧
  ∃ c dst sid payload, clients n !! id = Some c ∧ tunnel_up c = true ∧
    packet_dst_ip (fix_l4_checksums packet) = Some dst ∧ client_routes n !! dst = Some id ∧
    (∀ ip, assigned_ip c = Some ip → dst = V4 ip) ∧
    ci_stream c = Some sid ∧ dg = encode_datagram (sid / 4) payload ∧
    (pqwg c = None → payload = fix_l4_checksums packet).
Proof.
  intros Hl [R Hinv]%reachable_inv; [|done]. cbn [step]. unfold on_tun_packet.
  destruct (_ ≫= _) as [id'|] eqn:Er; [|by intros ?%elem_of_nil].
  apply bind_Some in Er as (dst & Hdst & Hr).
  destruct (clients n !! id') as [c|] eqn:Hid; [|by intros ?%elem_of_nil].
  destruct (tunnel_up c) eqn:Eup; cbn [negb]; [|by intros ?%elem_of_nil].
  pose proof (ni_clients _ _ _ Hinv _ _ Hid) as Hok.
  assert (Hpol : is_Some (packet_policy c)).
  { rewrite (co_up _ _ _ _ _ Hok) in Eup. by apply bool_decide_eq_true in Eup. }
  destruct (co_stream _ _ _ _ _ Hok Hpol) as (_ & sid & Hsid & Hflow).
  assert (Hown : ∀ ip, assigned_ip c = Some ip → dst = V4 ip).
  { destruct (ni_routes _ _ _ Hinv _ _ Hr) as (c' & Hc' & _ & Hc).
    intros ip Hip. apply Hc. congruence. }
  rewrite Hflow.
  assert (Hend : ∀ pl, (pqwg c = None → pl = fix_l4_checksums packet) →
    ToClient id dg ∈ [ToClient id' (encode_datagram (sid / 4) pl)] →
    [ToClient id' (encode_datagram (sid / 4) pl)] = [ToClient id dg] ∧
    ∃ c dst sid payload, clients n !! id = Some c ∧ tunnel_up c = true ∧
    packet_dst_ip (fix_l4_checksums packet) = Some dst ∧ client_routes n !! dst = Some id ∧
    (∀ ip, assigned_ip c = Some ip → dst = V4 ip) ∧
    ci_stream c = Some sid ∧ dg = encode_datagram (sid / 4) payload ∧
    (pqwg c = None → payload = fix_l4_checksums packet)).
  { intros pl Hpl Hin%list_elem_of_singleton.
    assert (id = id' ∧ dg = encode_datagram (sid / 4) pl) as [-> ->] by (split; congruence).
    split; [done|]. exists c, dst, sid, pl. by split_and!. }
  destruct (pqwg c) as [pq|]; [|by apply Hend].
  destruct (established pq); [|by apply Hend].
  destruct (encapsulate pq _) as [pq' [pl|]]; cbn [snd]; [by apply Hend|by intros ?%elem_of_nil].
Qed.

(** A packet from the TUN whose destination is a route of [id]. *)
Definition routed_to (n : Node) (packet id : bytes) : Prop :=
  ∃ dst, packet_dst_ip (fix_l4_checksums packet) = Some dst ∧ client_routes n !! dst = Some id.

(** The un-encapsulated reply of a post-quantum node: while a client's tunnel is up but
    its inner WireGuard session is not established, the node drops the client's packets but
    sends the replies routed to it in the clear. *)
Theorem pq_reply_before_handshake n id c pq packet dg :
  clients n !! id = Some c → tunnel_up c = true → pqwg c = Some pq → established pq = false →
  routed_to n packet id →
  step P n (Datagram id dg) = (n, []) ∧
  step P n (Tun packet) =
    (n, [ToClient id (encode_datagram (flow_id c) (fix_l4_checksums packet))]).
Proof.
  intros Hid Hup Hlayer Hest (dst & Hdst & Hr).
  cbn [step]. unfold on_datagram, on_tun_packet. rewrite Hdst. cbn. rewrite Hr, Hid, Hup, Hlayer, Hest.
  split; [|done]. repeat case_match; done.
Qed.

End Runs.

(** ** Witnesses *)

Section Witnesses.
Import Toy.

(** An inner tunnel that is established by the first control message and does not encrypt. *)
#[local] Instance toy_pqwg : PqWg := {|
  ClientPqWg := bool;
  pq_default := false;
  on_control_bytes := λ _ _, true;
  established := λ b, b;
  decapsulate := λ b m, (b, WgIp m);
  encapsulate := λ b m, (b, Some m);
|}.

Definition w_process (pq : bool) : Process :=
  {| build := w_gate_build; cfg := w_cfg; node_spki := w_spki; evidence := λ _ _ _, Some [];
     retry_key := w_retry_key; pqwg_enabled := pq; wg_fuel := 4 |}.

Definition w_from : SocketAddr := SaV4 {| sa_ip := Ipv4 xc0 x00 x02 x07; sa_port := 5555 |}.
Definition w_id : bytes := [x09; x09].

Definition w_hdr (token : bytes) : QuicHeader :=
  {| dcid := w_id; is_initial := true; version_supported := true; hdr_token := token |}.

(** Retry, connection, HTTP/3, and the grant presented on stream 4. *)
Definition w_steps : list Step :=
  [Udp (w_hdr []) w_from true; Udp (w_hdr (retry_mint w_retry_key w_from w_id)) w_from true;
   StartH3 w_id; H3 w_id (Headers 4 w_headers true) 1100].

Definition w_node0 (pq : bool) : Node :=
  default {| clients := ∅; client_routes := ∅; pool := w_pool; grant_replays := w_cache |}
    (start (w_process pq) 900).

Local Notation w_run pq := (run (w_process pq) (w_node0 pq) w_steps).

Lemma w_reachable pq : reachable (w_process pq) (w_run pq).1 (w_run pq).2.
Proof.
  exists 900, (w_node0 pq), w_steps. split; [|by destruct (w_run pq)].
  destruct pq; reflexivity.
Qed.

Lemma w_limits pq : limits_ok (w_process pq).
Proof. split; cbn; lia. Qed.

Definition w_policy : PacketPolicy :=
  PolicyRelay {| sa_ip := Ipv4 xc6 x33 x64 x14; sa_port := 443 |}.

Lemma node_state_invariant_witness : Z.of_nat (size (clients (w_run false).1)) ≤ 16.
Proof.
  destruct (node_state_invariant (w_process false) _ _ (w_limits false) (w_reachable false))
    as [[H _] _].
  exact H.
Defined.

Lemma traffic_is_authorised_witness :
  ∃ pol src, TunnelUp w_id pol ∈ (w_run false).2 ∧ policy_allows pol (up_encode w_udp) = true ∧
    packet_src_ip (up_encode w_udp) = Some src.
Proof.
  assert (Ho : ToTun w_id (up_encode w_udp)
    ∈ (step (w_process false) (w_run false).1 (Datagram w_id (encode_datagram 1 (up_encode w_udp)))).2).
  { apply list_elem_of_lookup. exists 0%nat. by vm_compute. }
  destruct (traffic_is_authorised (w_process false) _ _ _ _ (w_limits false) (w_reachable false) Ho)
    as (pol & src & H1 & H2 & H3 & _).
  by exists pol, src.
Defined.

(** A reply to the tunnel's own address, from the next hop. *)
Definition w_reply : UdpPacket :=
  {| up_tos := x00; up_id := [x00; x02]; up_df := true; up_ttl := x40; up_hcsum := [x00; x00];
     up_src := [xc6; x33; x64; x14]; up_dst := {| sa_ip := Ipv4 x0a x4a x00 x02; sa_port := 4660 |};
     up_options := []; up_sport := [x01; xbb]; up_ucsum := [x00; x00]; up_payload := [xcc] |}.

Lemma replies_reach_owner_witness :
  ∃ c, clients (w_run false).1 !! w_id = Some c ∧ tunnel_up c = true.
Proof.
  assert (Ho : ToClient w_id (encode_datagram 1 (fix_l4_checksums (up_encode w_reply)))
    ∈ (step (w_process false) (w_run false).1 (Tun (up_encode w_reply))).2).
  { apply list_elem_of_lookup. exists 0%nat. by vm_compute. }
  destruct (replies_reach_owner (w_process false) _ _ _ _ _ (w_limits false) (w_reachable false) Ho)
    as (_ & c & _ & _ & _ & Hc & Hup & _).
  exists c. exact (conj Hc Hup).
Defined.

Definition w_client : Client :=
  bring_up (set_h3 (new_client (w_process true) w_peer)) 4 w_policy (Some (Ipv4 x0a x4a x00 x02)).

Lemma pq_reply_before_handshake_witness :
  step (w_process true) (w_run true).1 (Datagram w_id []) = ((w_run true).1, []) ∧
  step (w_process true) (w_run true).1 (Tun (up_encode w_reply)) =
    ((w_run true).1,
     [ToClient w_id (encode_datagram (flow_id w_client) (fix_l4_checksums (up_encode w_reply)))]).
Proof.
  refine (pq_reply_before_handshake (w_process true) (w_run true).1 w_id w_client false
    (up_encode w_reply) [] _ _ _ _ (ex_intro _ (V4 (Ipv4 x0a x4a x00 x02)) (conj _ _)));
    vm_compute; exact eq_refl.
Defined.

End Witnesses.
