(* ===== verification/RateLimit.v ===== *)
(** * Fixed-window rate limiters

    [crates/nil-coordinator/src/ratelimit.rs] and [crates/nil-portal/src/ratelimit.rs]: a
    bucket per key with the start of its window and the units used in it.  An [Instant] is a
    [Z] in nanoseconds of the monotonic clock.  The coordinator counts single hits; the
    portal charges costs and can hold a charge as a reservation that is refunded when it is
    dropped uncommitted. *)

From S2P Require Import Prelude.
From Stdlib Require Import Strings.Byte ZArith Lia.
From stdpp Require Import prelude gmap strings.

Local Open Scope Z_scope.

(** ** The buckets *)

Record RateLimiter := {
  max : Z;                                   (* u32 *)
  window : Z;
  buckets : gmap bytes (Z * Z);
}.

Definition limiter_new (max window : Z) : RateLimiter :=
  {| max := max; window := window; buckets := ∅ |}.

Definition set_buckets (l : RateLimiter) (b : gmap bytes (Z * Z)) : RateLimiter :=
  {| max := max l; window := window l; buckets := b |}.

(** [Instant::duration_since] saturates at zero. *)
Definition duration_since (now start : Z) : Z := Z.max 0 (now - start).

(** The map is swept only when it has grown. *)
Definition gc (l : RateLimiter) (now : Z) : gmap bytes (Z * Z) :=
  if (4096 <? size (buckets l))%nat
  then filter (λ kb : bytes * (Z * Z), duration_since now kb.2.1 < window l) (buckets l)
  else buckets l.

(** The bucket of [key] for a charge at [now]: swept, created or restarted. *)
Definition bucket_at (l : RateLimiter) (key : bytes) (now : Z) : Z * Z :=
  let '(start, used) := default (now, 0) (gc l now !! key) in
  if window l <=? duration_since now start then (now, 0) else (start, used).

(** ** The coordinator's limiter *)

(** The counter wraps: release builds have no overflow checks. *)
Definition check (l : RateLimiter) (key : bytes) (now : Z) : RateLimiter * bool :=
  let '(start, used) := bucket_at l key now in
  let used := u32_wrap (used + 1) in
  (set_buckets l (<[key := (start, used)]> (gc l now)), used <=? max l).

Fixpoint check_all (l : RateLimiter) (hits : list (bytes * Z)) : list bool :=
  match hits with
  | [] => []
  | (key, now) :: hits => let '(l, ok) := check l key now in ok :: check_all l hits
  end.

(** ** The portal's limiter *)

Definition charge_n (l : RateLimiter) (key : bytes) (cost now : Z) : RateLimiter * option Z :=
  if cost =? 0 then (l, None)
  else
    let '(start, used) := bucket_at l key now in
    let used := u32_saturating_add used cost in
    (set_buckets l (<[key := (start, used)]> (gc l now)),
     if used <=? max l then Some start else None).

Definition refund (l : RateLimiter) (key : bytes) (window_start cost : Z) : RateLimiter :=
  match buckets l !! key with
  | Some (start, used) =>
      if start =? window_start then
        let used := Z.max 0 (used - cost) in
        if used =? 0 then set_buckets l (delete key (buckets l))
        else set_buckets l (<[key := (start, used)]> (buckets l))
      else l
  | None => l
  end.

Definition check_n (l : RateLimiter) (key : bytes) (cost now : Z) : RateLimiter * bool :=
  let '(l, r) := charge_n l key cost now in (l, bool_decide (is_Some r)).

Record RateLimitReservation := {
  rr_key : bytes;
  rr_window_start : Z;
  rr_cost : Z;
}.

Definition reserve_n (l : RateLimiter) (key : bytes) (cost now : Z) :
    RateLimiter * option RateLimitReservation :=
  let '(l, r) := charge_n l key cost now in
  (l, (λ start, {| rr_key := key; rr_window_start := start; rr_cost := cost |}) <$> r).

(** Dropping an uncommitted reservation. *)
Definition drop_reservation (l : RateLimiter) (r : RateLimitReservation) : RateLimiter :=
  refund l (rr_key r) (rr_window_start r) (rr_cost r).

(** ** Specification: the coordinator's hits, each key on its own *)

Module PerKey.

(** The window a key is in and the hits counted in it. *)
Definition hit (window now : Z) (c : option (Z * Z)) : Z * Z :=
  match c with
  | Some (start, n) =>
      if window <=? duration_since now start then (now, 1) else (start, u32_wrap (n + 1))
  | None => (now, 1)
  end.

(** The state of [key] after [hits], counted from an empty history. *)
Definition counter (window : Z) (key : bytes) (hits : list (bytes * Z)) : option (Z * Z) :=
  foldl (λ c (h : bytes * Z), if decide (h.1 = key) then Some (hit window h.2 c) else c) None hits.

(** Admission of the last hit of a history. *)
Definition admits (max window : Z) (past : list (bytes * Z)) (h : bytes * Z) : bool :=
  match counter window h.1 (past ++ [h]) with
  | Some (_, n) => n <=? max
  | None => false
  end.

End PerKey.

(** The history runs forward in time. *)
Fixpoint forward (from : Z) (times : list Z) : Prop :=
  match times with
  | [] => True
  | t :: ts => from ≤ t ∧ forward t ts
  end.

(** What the sweep may have forgotten: windows that are over. *)
Definition tracks (window now : Z) (b : gmap bytes (Z * Z)) (past : list (bytes * Z)) : Prop :=
  ∀ key, b !! key = PerKey.counter window key past ∨
    (b !! key = None ∧ ∃ start n, PerKey.counter window key past = Some (start, n) ∧
       window ≤ duration_since now start).

Lemma counter_snoc window key past h :
  PerKey.counter window key (past ++ [h]) =
  if decide (h.1 = key) then Some (PerKey.hit window h.2 (PerKey.counter window key past))
  else PerKey.counter window key past.
Proof. unfold PerKey.counter. by rewrite foldl_app. Qed.

Lemma duration_since_mono t now start : t ≤ now → duration_since t start ≤ duration_since now start.
Proof. unfold duration_since. lia. Qed.

Lemma tracks_gc l t now past :
  t ≤ now → tracks (window l) t (buckets l) past → tracks (window l) now (gc l now) past.
Proof.
  intros Ht H key. unfold gc.
  assert (Hlate : ∀ start, window l ≤ duration_since t start → window l ≤ duration_since now start).
  { intros start. pose proof (duration_since_mono t now start Ht). lia. }
  destruct (_ <? _)%nat.
  - destruct (filter _ (buckets l) !! key) as [[st n]|] eqn:E.
    + apply map_lookup_filter_Some in E as [E _]. destruct (H key) as [Hk|[Hk _]]; [|congruence].
      left. by rewrite <- Hk, E.
    + apply map_lookup_filter_None in E as [E|E].
      * destruct (H key) as [Hk|[_ (st & n & Hc & Hw)]].
        -- left. by rewrite <- Hk, E.
        -- right. split; [done|]. exists st, n. auto.
      * destruct (H key) as [Hk|[Hk (st & n & Hc & Hw)]].
        -- destruct (buckets l !! key) as [[st n]|] eqn:Eb; [|by left].
           right. split; [done|]. exists st, n. split; [done|]. specialize (E _ eq_refl). cbn in E. lia.
        -- right. split; [done|]. exists st, n. auto.
  - destruct (H key) as [Hk|[Hk (st & n & Hc & Hw)]]; [by left|].
    right. split; [done|]. exists st, n. auto.
Qed.

(** A charge of one unit sees what the key's own history says. *)
Lemma bucket_at_hit l t now past key start used :
  t ≤ now → tracks (window l) t (buckets l) past → bucket_at l key now = (start, used) →
  PerKey.hit (window l) now (PerKey.counter (window l) key past) = (start, u32_wrap (used + 1)).
Proof.
  intros Ht H. unfold bucket_at. pose proof (tracks_gc _ _ _ _ Ht H key) as Hk.
  destruct Hk as [Hk|[Hk (st & n & Hc & Hw')]]; rewrite Hk.
  - destruct (PerKey.counter _ key past) as [[st n]|]; cbn.
    + destruct (Z.leb_spec (window l) (duration_since now st)); by intros [= <- <-].
    + destruct (_ <=? _); by intros [= <- <-].
  - rewrite Hc. cbn. rewrite (proj2 (Z.leb_le _ _) Hw').
    destruct (_ <=? _); by intros [= <- <-].
Qed.

Lemma check_tracks l t key now past l' ok :
  t ≤ now → tracks (window l) t (buckets l) past → check l key now = (l', ok) →
  max l' = max l ∧ window l' = window l ∧
  tracks (window l') now (buckets l') (past ++ [(key, now)]) ∧
  ok = PerKey.admits (max l) (window l) past (key, now).
Proof.
  intros Ht H. unfold check, PerKey.admits. destruct (bucket_at l key now) as [start used] eqn:E.
  rewrite counter_snoc, decide_True by done. cbn [fst snd].
  rewrite (bucket_at_hit _ _ _ _ _ _ _ Ht H E). intros [= <- <-]. cbn [set_buckets max window buckets].
  split_and!; try done. intros key'. rewrite counter_snoc. cbn [fst snd].
  destruct (decide (key = key')) as [<-|Hne].
  - left. by rewrite lookup_insert_eq, (bucket_at_hit _ _ _ _ _ _ _ Ht H E).
  - rewrite lookup_insert_ne by done. by apply (tracks_gc l t).
Qed.

Lemma check_all_tracks l t past hits i h :
  forward t hits.*2 → tracks (window l) t (buckets l) past → hits !! i = Some h →
  check_all l hits !! i = Some (PerKey.admits (max l) (window l) (past ++ take i hits) h).
Proof.
  revert l t past i. induction hits as [|[key now] hits IH]; intros l t past i; [done|].
  intros [Ht Hf] H Hi. cbn [check_all]. destruct (check l key now) as [l' ok] eqn:E.
  destruct (check_tracks _ _ _ _ _ _ _ Ht H E) as (Hm & Hw & H' & ->).
  destruct i as [|i].
  - injection Hi as <-. cbn [take]. by rewrite app_nil_r.
  - change (check_all l' hits !! i =
      Some (PerKey.admits (max l) (window l) (past ++ (key, now) :: take i hits) h)).
    rewrite (IH _ _ _ _ Hf H' Hi), Hm, Hw. by rewrite <- app_assoc.
Qed.

(** The coordinator's limiter counts every key on its own: over any history of hits in
    the order of the clock, each verdict is that of a counter which sees only the hits of
    that key, in its current window - neither other keys nor the sweep of a grown map ever
    change a verdict. *)
Theorem check_refines max window start hits i h :
  forward start hits.*2 → hits !! i = Some h →
  check_all (limiter_new max window) hits !! i =
  Some (PerKey.admits max window (take i hits) h).
Proof.
  intros Hf Hi. apply (check_all_tracks (limiter_new max window) start []); [done| |done].
  intros key. left. cbn. by rewrite lookup_empty.
Qed.

(** ** The portal's budget *)

(** Histories: a charge kept or reserved, and the fate of the [i]th reservation held. *)
Inductive LimiterOp :=
  | CheckN (key : bytes) (cost now : Z)
  | ReserveN (key : bytes) (cost now : Z)
  | CommitAt (i : nat)
  | DropAt (i : nat).

Record Usage := {
  limiter : RateLimiter;
  held : list RateLimitReservation;       (* reservations not yet committed or dropped *)
  kept : list RateLimitReservation;       (* admitted for good *)
}.

Definition use (u : Usage) (op : LimiterOp) : Usage :=
  match op with
  | CheckN key cost now =>
      let '(l, r) := reserve_n (limiter u) key cost now in
      {| limiter := l; held := held u; kept := option_list r ++ kept u |}
  | ReserveN key cost now =>
      let '(l, r) := reserve_n (limiter u) key cost now in
      {| limiter := l; held := option_list r ++ held u; kept := kept u |}
  | CommitAt i =>
      {| limiter := limiter u; held := delete i (held u); kept := option_list (held u !! i) ++ kept u |}
  | DropAt i =>
      {| limiter := match held u !! i with
                    | Some r => drop_reservation (limiter u) r
                    | None => limiter u
                    end;
         held := delete i (held u); kept := kept u |}
  end.

Definition op_time (op : LimiterOp) : list Z :=
  match op with CheckN _ _ now | ReserveN _ _ now => [now] | _ => [] end.

Definition op_cost_ok (op : LimiterOp) : Prop :=
  match op with CheckN _ cost _ | ReserveN _ cost _ => u32 cost | _ => True end.

(** The units charged to [key] in the window that started at [w]. *)
Fixpoint charged (key : bytes) (w : Z) (rs : list RateLimitReservation) : Z :=
  match rs with
  | [] => 0
  | r :: rs =>
      (if decide (rr_key r = key ∧ rr_window_start r = w) then rr_cost r else 0) + charged key w rs
  end.

Lemma charged_app key w rs rs' : charged key w (rs ++ rs') = charged key w rs + charged key w rs'.
Proof. induction rs as [|r rs IH]; cbn; [done|]. rewrite IH. lia. Qed.

Lemma charged_delete key w rs i :
  charged key w rs = charged key w (option_list (rs !! i)) + charged key w (delete i rs).
Proof.
  revert i. induction rs as [|r rs IH]; intros [|i]; [done|done| |].
  - change (charged key w ([r] ++ rs) = charged key w [r] + charged key w rs). apply charged_app.
  - change (charged key w ([r] ++ rs) =
      charged key w (option_list (rs !! i)) + charged key w ([r] ++ delete i rs)).
    rewrite !charged_app, (IH i). lia.
Qed.

Lemma delete_absent {A} (l : list A) i : l !! i = None → delete i l = l.
Proof. revert i. induction l as [|x l IH]; intros [|i] H; try done. cbn. f_equal. by apply IH. Qed.

Definition total (u : Usage) (key : bytes) (w : Z) : Z :=
  charged key w (held u) + charged key w (kept u).

Record usage_ok (now : Z) (u : Usage) : Prop := {
  uo_costs : Forall (λ r, 0 ≤ rr_cost r) (held u ++ kept u);
  uo_used : ∀ key start used, buckets (limiter u) !! key = Some (start, used) →
    total u key start ≤ used;
  uo_live : ∀ key w, total u key w ≠ 0 →
    (∃ used, buckets (limiter u) !! key = Some (w, used)) ∨ w + window (limiter u) ≤ now;
  uo_budget : ∀ key w, total u key w ≤ max (limiter u);
}.

Lemma charged_nonneg key w rs : Forall (λ r, 0 ≤ rr_cost r) rs → 0 ≤ charged key w rs.
Proof. induction 1; cbn; [done|]. case_decide; lia. Qed.

Lemma total_nonneg now u key w : usage_ok now u → 0 ≤ total u key w.
Proof.
  intros [Hc _ _ _]. unfold total. rewrite <- charged_app. by apply charged_nonneg.
Qed.

Lemma gc_lookup l now key b : gc l now !! key = Some b → buckets l !! key = Some b.
Proof. unfold gc. destruct (_ <? _)%nat; [|done]. by intros [? _]%map_lookup_filter_Some. Qed.

Lemma gc_dropped l now key start used :
  buckets l !! key = Some (start, used) →
  gc l now !! key = Some (start, used) ∨ gc l now !! key = None ∧ window l ≤ duration_since now start.
Proof.
  intros E. unfold gc. destruct (_ <? _)%nat; [|by left].
  destruct (decide (duration_since now start < window l)).
  - left. by apply map_lookup_filter_Some.
  - right. split; [|lia]. apply map_lookup_filter_None. right. intros x Hx.
    rewrite E in Hx. injection Hx as <-. cbn. lia.
Qed.

(** A charge moves no unit between windows: the bucket it goes to is the running one, with
    at least what was charged to it, or a new one that nothing was charged to. *)
Lemma bucket_at_ok t now u key start used :
  0 < window (limiter u) → t ≤ now → usage_ok t u →
  bucket_at (limiter u) key now = (start, used) → total u key start ≤ used.
Proof.
  intros Hw Ht Hu. unfold bucket_at.
  assert (Hnew : (∀ used, buckets (limiter u) !! key = Some (now, used) →
                  window (limiter u) ≤ duration_since now now) → total u key now ≤ 0).
  { intros Hno. destruct (decide (total u key now = 0)) as [->|Hz]; [done|].
    destruct (uo_live _ _ Hu _ _ Hz) as [[n Hn]|]; [|lia].
    apply Hno in Hn. unfold duration_since in Hn. lia. }
  destruct (gc (limiter u) now !! key) as [[st n]|] eqn:E; cbn.
  - destruct (Z.leb_spec (window (limiter u)) (duration_since now st)); intros [= <- <-].
    + apply Hnew. apply gc_lookup in E. intros n' Hn'. congruence.
    + apply gc_lookup in E. by apply (uo_used _ _ Hu).
  - rewrite (proj2 (Z.leb_gt _ _)) by (unfold duration_since; lia). intros [= <- <-].
    apply Hnew. intros n Hn. destruct (gc_dropped _ now _ _ _ Hn) as [?|[_ ?]]; [congruence|done].
Qed.

#[global] Instance charged_perm key w : Proper ((≡ₚ) ==> (=)) (charged key w).
Proof. intros l l' H. induction H; cbn; lia. Qed.

Lemma total_charged u key w : total u key w = charged key w (held u ++ kept u).
Proof. unfold total. by rewrite charged_app. Qed.

(** The window of a key that a charge leaves behind is over. *)
Lemma bucket_at_restart l now key start used w n :
  0 < window l → bucket_at l key now = (start, used) → buckets l !! key = Some (w, n) → w ≠ start →
  w + window l ≤ now.
Proof.
  intros Hw E Hb Hne. unfold bucket_at in E.
  destruct (gc_dropped _ now _ _ _ Hb) as [Hg|[Hg Hd]]; rewrite Hg in E; cbn in E.
  - destruct (Z.leb_spec (window l) (duration_since now w)) as [Hd|]; [|congruence].
    unfold duration_since in Hd. lia.
  - unfold duration_since in Hd. lia.
Qed.

(** The usage after a charge, with what it admitted added to either list. *)
Lemma charge_ok t now u key cost l r u' :
  0 < window (limiter u) → 0 ≤ max (limiter u) < U32_MAX → t ≤ now → u32 cost → usage_ok t u →
  reserve_n (limiter u) key cost now = (l, r) → limiter u' = l →
  held u' ++ kept u' ≡ₚ option_list r ++ held u ++ kept u → usage_ok now u'.
Proof.
  intros Hw Hm Ht [Hcost _] Hu Hr Hl Hp. unfold reserve_n, charge_n in Hr.
  assert (Htot : ∀ k w, total u' k w = charged k w (option_list r) + total u k w).
  { intros k w. by rewrite !total_charged, Hp, charged_app. }
  assert (Hlive : ∀ k w, total u k w ≠ 0 →
    (∃ n, buckets (limiter u) !! k = Some (w, n)) ∨ w + window (limiter u) ≤ now).
  { intros k w Hz. destruct (uo_live _ _ Hu _ _ Hz); [by left|right; lia]. }
  destruct (Z.eqb_spec cost 0) as [->|Hnz].
  { injection Hr as <- <-. split; rewrite ?Hl.
    - rewrite Hp. apply (uo_costs _ _ Hu).
    - intros k st n. rewrite Htot. apply (uo_used _ _ Hu).
    - intros k w. rewrite Htot. apply Hlive.
    - intros k w. rewrite Htot. apply (uo_budget _ _ Hu). }
  destruct (bucket_at (limiter u) key now) as [st used] eqn:E.
  pose proof (bucket_at_ok _ _ _ _ _ _ Hw Ht Hu E) as Hused.
  pose proof (uo_budget _ _ Hu) as Hbud. pose proof (Hbud key st) as Hbst.
  injection Hr as <- Hr. unfold u32_saturating_add in *.
  assert (Hch : ∀ k w, charged k w (option_list r) = 0 ∨
    k = key ∧ w = st ∧ charged k w (option_list r) = cost ∧ used + cost ≤ max (limiter u)).
  { intros k w. destruct (Z.leb_spec (Z.min (used + cost) U32_MAX) (max (limiter u)));
      subst r; cbn; [|by left].
    case_decide as Hd; cbn in Hd; [right; destruct Hd; split_and!; lia || congruence|by left]. }
  split; rewrite ?Hl; cbn [set_buckets buckets window max].
  - rewrite Hp. apply Forall_app. split; [|apply Hu].
    destruct (_ <=? _); subst r; cbn; [by constructor|constructor].
  - intros k s n. rewrite lookup_insert_Some, Htot. destruct (Hch k s) as [->|(-> & -> & -> & ?)].
    + intros [(<- & [= <- <-])|(? & Hn%gc_lookup)]; [lia|by apply (uo_used _ _ Hu)].
    + intros [(_ & [= <-])|(? & _)]; [lia|done].
  - intros k w. rewrite Htot. destruct (Hch k w) as [->|(-> & -> & _)].
    + intros Hz. destruct (decide (k = key)) as [->|Hne].
      * rewrite lookup_insert_eq. destruct (decide (w = st)) as [->|Hws]; [left; by eexists|].
        destruct (Hlive _ _ Hz) as [[n Hn]|?]; [right|by right]. by eapply bucket_at_restart.
      * rewrite lookup_insert_ne by done. destruct (Hlive _ _ Hz) as [[n Hn]|?]; [|by right].
        destruct (gc_dropped _ now _ _ _ Hn) as [?|[_ Hd]]; [left; by eexists|right].
        unfold duration_since in Hd. lia.
    + intros _. left. rewrite lookup_insert_eq. by eexists.
  - intros k w. rewrite Htot. destruct (Hch k w) as [->|(-> & -> & -> & ?)]; [apply Hbud|lia].
Qed.

(** A refund takes from its own window only. *)
Lemma refund_ok t u i r u' :
  usage_ok t u → held u !! i = Some r →
  limiter u' = drop_reservation (limiter u) r → held u' = delete i (held u) → kept u' = kept u →
  usage_ok t u'.
Proof.
  intros Hu Hi Hl Hh Hk.
  assert (Hcosts : Forall (λ r, 0 ≤ rr_cost r) (held u' ++ kept u') ∧ 0 ≤ rr_cost r).
  { pose proof (uo_costs _ _ Hu) as Hc. rewrite Forall_app in Hc. destruct Hc as [Hc1 Hc2].
    rewrite Hh, Hk, Forall_app. split_and!; [by apply Forall_delete|done|].
    exact (Forall_lookup_1 _ _ _ _ Hc1 Hi). }
  destruct Hcosts as [Hcosts Hc].
  assert (Htot : ∀ k w, total u k w = charged k w [r] + total u' k w).
  { intros k w. unfold total. rewrite Hh, Hk, (charged_delete k w (held u) i), Hi. change (option_list (Some r)) with [r]. lia. }
  assert (Hr : ∀ k w, charged k w [r] = 0 ∨
    k = rr_key r ∧ w = rr_window_start r ∧ charged k w [r] = rr_cost r).
  { intros k w. cbn. case_decide as Hd; [right; destruct Hd as [<- <-]; split_and!; lia || done|by left]. }
  assert (Hpos : ∀ k w, 0 ≤ total u' k w).
  { intros k w. rewrite total_charged. by apply charged_nonneg. }
  assert (Hle : ∀ k w, total u' k w ≤ total u k w).
  { intros k w. rewrite Htot. destruct (Hr k w) as [->|(_ & _ & ->)]; lia. }
  assert (Hlive : ∀ k w, total u' k w ≠ 0 →
    (∃ n, buckets (limiter u) !! k = Some (w, n)) ∨ w + window (limiter u) ≤ t).
  { intros k w Hz. apply (uo_live _ _ Hu). specialize (Hle k w). specialize (Hpos k w). lia. }
  assert (Hown : ∀ n, buckets (limiter u) !! rr_key r = Some (rr_window_start r, n) →
    total u' (rr_key r) (rr_window_start r) ≤ n - rr_cost r).
  { intros n Hn%(uo_used _ _ Hu). rewrite Htot in Hn. revert Hn. cbn. rewrite decide_True by done. lia. }
  assert (Hbud : ∀ k w, total u' k w ≤ max (limiter u)).
  { intros k w. pose proof (uo_budget _ _ Hu k w). specialize (Hle k w). lia. }
  assert (Hused : ∀ k st n, buckets (limiter u) !! k = Some (st, n) → total u' k st ≤ n).
  { intros k st n Hn%(uo_used _ _ Hu). specialize (Hle k st). lia. }
  unfold drop_reservation, refund in Hl.
  destruct (buckets (limiter u) !! rr_key r) as [[st n]|] eqn:Eb; [|by split; rewrite ?Hl].
  destruct (Z.eqb_spec st (rr_window_start r)) as [->|]; [|by split; rewrite ?Hl].
  specialize (Hown _ eq_refl). specialize (Hpos (rr_key r) (rr_window_start r)).
  destruct (Z.eqb_spec (Z.max 0 (n - rr_cost r)) 0) as [Hz|Hz];
    split; rewrite ?Hl; cbn [set_buckets buckets window max]; try done.
  - intros k st m (_ & Hm)%lookup_delete_Some. by apply Hused.
  - intros k w Hne. destruct (Hlive _ _ Hne) as [[m Hm]|?]; [|by right]. left. exists m.
    apply lookup_delete_Some. split; [|done]. intros <-. assert (w = rr_window_start r) by congruence.
    subst w. lia.
  - intros k st m. rewrite lookup_insert_Some.
    intros [(<- & [= <- <-])|(_ & Hm)]; [lia|by apply Hused].
  - intros k w Hne. destruct (Hlive _ _ Hne) as [[m Hm]|?]; [|by right]. left.
    destruct (decide (k = rr_key r)) as [->|]; [|exists m; by rewrite lookup_insert_ne].
    rewrite lookup_insert_eq. assert (w = rr_window_start r) as -> by congruence. by eexists.
Qed.

Definition use_all (u : Usage) (ops : list LimiterOp) : Usage := foldl use u ops.

Definition usage_new (max window : Z) : Usage :=
  {| limiter := limiter_new max window; held := []; kept := [] |}.

Lemma reserve_n_config l key cost now l' r :
  reserve_n l key cost now = (l', r) → max l' = max l ∧ window l' = window l.
Proof.
  unfold reserve_n, charge_n. destruct (cost =? 0); [by intros [= <- <-]|].
  destruct (bucket_at _ _ _). by intros [= <- <-].
Qed.

Lemma refund_config l key w cost :
  max (refund l key w cost) = max l ∧ window (refund l key w cost) = window l.
Proof. unfold refund. repeat case_match; done. Qed.

Lemma use_ok t u op :
  0 < window (limiter u) → 0 ≤ max (limiter u) < U32_MAX → op_cost_ok op →
  forward t (op_time op) → usage_ok t u →
  usage_ok (default t (head (op_time op))) (use u op) ∧
  max (limiter (use u op)) = max (limiter u) ∧ window (limiter (use u op)) = window (limiter u).
Proof.
  intros Hw Hm Hc Hf Hu. destruct op as [key cost now|key cost now|i|i]; cbn [use op_time head default] in *.
  - destruct (reserve_n _ _ _ _) as [l r] eqn:E. split; [|by eapply reserve_n_config].
    destruct Hf as [Ht _]. apply (charge_ok t now u key cost l r); try done. cbn. by rewrite Permutation_app_swap_app.
  - destruct (reserve_n _ _ _ _) as [l r] eqn:E. split; [|by eapply reserve_n_config].
    destruct Hf as [Ht _]. apply (charge_ok t now u key cost l r); try done. cbn. by rewrite app_assoc.
  - split; [|done]. destruct (held u !! i) as [r|] eqn:E.
    + assert (Hp : delete i (held u) ++ [r] ++ kept u ≡ₚ held u ++ kept u).
      { rewrite app_assoc. f_equiv. rewrite (Permutation_app_comm _ [r]).
        symmetry. by apply delete_Permutation. }
      split; cbn [held kept limiter option_list].
      * rewrite Hp. apply (uo_costs _ _ Hu).
      * intros k st n. rewrite total_charged. cbn. rewrite Hp, <- total_charged. apply (uo_used _ _ Hu).
      * intros k w. rewrite total_charged. cbn. rewrite Hp, <- total_charged. apply (uo_live _ _ Hu).
      * intros k w. rewrite total_charged. cbn. rewrite Hp, <- total_charged. apply (uo_budget _ _ Hu).
    + rewrite delete_absent by done. by destruct u, Hu.
  - destruct (held u !! i) as [r|] eqn:E.
    + split; [|apply refund_config]. by eapply refund_ok.
    + split; [|done]. rewrite delete_absent by done. by destruct u, Hu.
Qed.

Lemma use_all_ok t u ops :
  0 < window (limiter u) → 0 ≤ max (limiter u) < U32_MAX → Forall op_cost_ok ops →
  forward t (ops ≫= op_time) → usage_ok t u →
  ∃ t', usage_ok t' (use_all u ops) ∧ max (limiter (use_all u ops)) = max (limiter u).
Proof.
  revert t u. induction ops as [|op ops IH]; intros t u Hw Hm Hc Hf Hu; [by exists t|].
  inversion_clear Hc as [|?? Hc1 Hc2]. cbn [use_all foldl].
  assert (Hf' : forward t (op_time op) ∧ forward (default t (head (op_time op))) (ops ≫= op_time)).
  { rewrite bind_cons in Hf. destruct op; cbn in *; tauto. }
  destruct Hf' as [Hf1 Hf2]. destruct (use_ok _ _ _ Hw Hm Hc1 Hf1 Hu) as (Hu' & Em & Ew).
  edestruct IH as (t' & ? & Hmax); [by rewrite Ew|by rewrite Em|done|exact Hf2|done|].
  exists t'. split; [done|]. unfold use_all in *. congruence.
Qed.

(** The portal's budget: over any history of charges, reservations, commits and drops
    in the order of the clock, the units charged to a key in one window - kept, committed
    or still reserved - never exceed the cap, whatever was refunded or swept in between.
    The cap must lie below the value at which the counter saturates. *)
Theorem budget_never_exceeded max window start ops key w :
  0 < window → 0 ≤ max < U32_MAX → Forall op_cost_ok ops → forward start (ops ≫= op_time) →
  total (use_all (usage_new max window) ops) key w ≤ max.
Proof.
  intros Hw Hm Hc Hf.
  destruct (use_all_ok start (usage_new max window) ops) as (t & Hu & Hmax); try done.
  { split; unfold total; cbn; try done. intros k w'. lia. }
  pose proof (uo_budget _ _ Hu key w) as H. by rewrite Hmax in H.
Qed.

(** ** The two limiters agree below the wrap *)

Lemma check_is_check_n l key now :
  0 ≤ (bucket_at l key now).2 < U32_MAX → check l key now = check_n l key 1 now.
Proof.
  unfold check, check_n, charge_n. destruct (bucket_at l key now) as [start used]. cbn [snd Z.eqb].
  intros Hu. unfold u32_wrap, u32_saturating_add, U32_MAX in *. change (2 ^ 32) with 4294967296.
  rewrite Z.mod_small, Z.min_l by lia. f_equal.
  destruct (used + 1 <=? max l); [by rewrite bool_decide_true by by eexists|].
  by rewrite bool_decide_false by by intros [? ?].
Qed.

(** ** Witnesses *)

Definition w_hits : list (bytes * Z) :=
  [(str "a", 0); (str "a", 5); (str "b", 5); (str "a", 9); (str "a", 10)].

Lemma check_refines_witness :
  check_all (limiter_new 2 10) w_hits !! 3%nat = Some false ∧
  check_all (limiter_new 2 10) w_hits !! 4%nat = Some true.
Proof.
  split; (etransitivity; [apply (check_refines 2 10 0); [cbn; lia|reflexivity]|reflexivity]).
Defined.

(** Two units reserved and dropped, then two kept; a third is refused. *)
Lemma budget_never_exceeded_witness :
  total (use_all (usage_new 2 10)
    [ReserveN (str "k") 2 0; DropAt 0; CheckN (str "k") 2 1; CheckN (str "k") 1 2]) (str "k") 1 ≤ 2.
Proof.
  apply (budget_never_exceeded 2 10 0); [lia|unfold U32_MAX; lia| |cbn; lia].
  repeat constructor; unfold U32_MAX; cbn; lia.
Defined.
