(* ===== verification/CoordConfig.v ===== *)
(** * Coordinator configuration ([crates/nil-coordinator/src/config.rs])

    Reading the coordinator's environment and key files, and the posture a build without
    debug assertions insists on.  The file system is a parameter: what opening a path without
    following links shows, and what the registry file holds. *)

From S2P Require Import Prelude.
From S2P Require Import Text.
From S2P Require Import Net.
From S2P Require Import Crypto.
From S2P Require Import Env.
From S2P Require Import Grant.
From S2P Require Import Registry.
From S2P Require Import PathSel.
From S2P Require Import Token.
From Stdlib Require Import Strings.Byte ZArith Lia.
From stdpp Require Import prelude gmap strings.

Local Open Scope Z_scope.

Definition DEFAULT_NULLIFIER_WARN_AT : Z := 1000000.
Definition GRANT_SEED_HEX_LEN : nat := 64.
Definition MAX_GRANT_SEED_FILE_BYTES : nat := GRANT_SEED_HEX_LEN + 1.
Definition REDEMPTION_RESULT_KEY_BYTES : nat := 32.

Inductive CoordConfigError :=
  | BadAddr | BadPathHops | PathHopsRange
  | PubkeyNotHex | PubkeyInvalid (e : TokenError)
  | LegacyGrantKey (name : bytes) | TwoSigners | InlineSignerForbidden
  | SeedLength | SeedNotLowerHex
  | KeyFileOpen | KeyFileNotRegular | KeyFileLength | KeyFileMode | KeyFileRead
  | ResultKeyRequired | ResultKeyVar | ResultKeyEntropy
  | BadRealm (e : GrantError) | RealmRequired
  | BadTtl | TtlRange
  | RegistryUnset | RegistryInvalid (e : RegistryError)
  | HopsExceedNodes | RegistryInfeasible
  | NotTrustSplit | NoVerifier | NoGrantSigner | NoGrantRealm | SignerNotFromFile
  | ResultKeyNotFromFile | RegistryTlsUnpinned | RegistryLogUnpinned | RegistryTcbUnpinned
  | RegistryNotNested.

(** ** Key files *)

(** An opened file: its metadata and the bytes a read yields ([None]: the read fails). *)
Record OpenFile := {
  f_is_file : bool;
  f_len : Z;
  f_mode : Z;
  f_content : option bytes;
}.

Definition group_or_other (mode : Z) : bool := negb (Z.land mode 63 =? 0).

(** [decode_canonical_grant_seed]: the canonical text, with at most one newline after it. *)
Definition decode_canonical_grant_seed (raw : bytes) : result CoordConfigError bytes :=
  hex ← (if (length raw =? GRANT_SEED_HEX_LEN)%nat then Ok raw
         else if (length raw =? MAX_GRANT_SEED_FILE_BYTES)%nat && bool_decide (last raw = Some x0a)
         then Ok (take GRANT_SEED_HEX_LEN raw)
         else Err SeedLength);
  _ ← ensure (forallb is_lower_hex hex) SeedNotLowerHex;
  ok_or (decode_pairs lower_nib hex) SeedNotLowerHex.

Section Config.
Context `{Hsha : Sha256, Hed : Ed25519, Hrsa : BlindRsa}.

(** Opening a path with [O_NOFOLLOW]: [None] when it cannot be opened or inspected. *)
Context (open : bytes → option OpenFile).

(** The registry file and its JSON reader, as in [Registry.from_file]. *)
Context (read : bytes → option bytes) (from_slice : bytes → option (list RegistryFileNode)).

Definition open_grant_signing_key_file (path : bytes) (enforce : bool) :
    result CoordConfigError OpenFile :=
  f ← ok_or (open path) KeyFileOpen;
  _ ← ensure (f_is_file f) KeyFileNotRegular;
  _ ← ensure (negb (Z.of_nat MAX_GRANT_SEED_FILE_BYTES <? f_len f)) KeyFileLength;
  _ ← ensure (negb (enforce && group_or_other (f_mode f))) KeyFileMode;
  Ok f.

Definition load_grant_signing_key_file (path : bytes) (enforce : bool) :
    result CoordConfigError GrantSigningKey :=
  f ← open_grant_signing_key_file path enforce;
  content ← ok_or (f_content f) KeyFileRead;
  let raw := take (MAX_GRANT_SEED_FILE_BYTES + 1) content in
  _ ← ensure (negb (MAX_GRANT_SEED_FILE_BYTES <? length raw)%nat) KeyFileLength;
  seed ← decode_canonical_grant_seed raw;
  Ok (from_seed seed).

Definition load_redemption_result_key_file (path : bytes) (enforce : bool) :
    result CoordConfigError bytes :=
  f ← ok_or (open path) KeyFileOpen;
  _ ← ensure (f_is_file f) KeyFileNotRegular;
  _ ← ensure (f_len f =? Z.of_nat REDEMPTION_RESULT_KEY_BYTES) KeyFileLength;
  _ ← ensure (negb (enforce && group_or_other (f_mode f))) KeyFileMode;
  content ← ok_or (f_content f) KeyFileRead;
  _ ← ensure (REDEMPTION_RESULT_KEY_BYTES <=? length content)%nat KeyFileRead;
  _ ← ensure (length content <=? REDEMPTION_RESULT_KEY_BYTES)%nat KeyFileLength;
  Ok content.

(** The signer and whether it came from a file. *)
Definition load_grant_signer (env : Env) (release_build : bool) :
    result CoordConfigError (option GrantSigningKey * bool) :=
  _ ← ensure (negb (bool_decide (is_Some (env_var_os env (str "NW_GRANT_KEY_FILE")))))
        (LegacyGrantKey (str "NW_GRANT_KEY_FILE"));
  _ ← ensure (negb (bool_decide (is_Some (env_var_os env (str "NW_GRANT_KEY")))))
        (LegacyGrantKey (str "NW_GRANT_KEY"));
  match env_var_ok env (str "NW_GRANT_SIGNING_KEY_FILE"),
        env_var_ok env (str "NW_GRANT_SIGNING_KEY") with
  | Some _, Some _ => Err TwoSigners
  | Some path, None => k ← load_grant_signing_key_file path release_build; Ok (Some k, true)
  | None, Some raw =>
      if release_build then Err InlineSignerForbidden
      else seed ← decode_canonical_grant_seed raw; Ok (Some (from_seed seed), false)
  | None, None => Ok (None, false)
  end.

(** [entropy]: the ephemeral development key, when the system has one to give. *)
Definition load_redemption_result_key (env : Env) (entropy : option bytes) (release_build : bool) :
    result CoordConfigError (bytes * bool) :=
  match env_var env (str "NW_REDEMPTION_RESULT_KEY_FILE") with
  | Present path => k ← load_redemption_result_key_file path release_build; Ok (k, true)
  | NotPresent =>
      if release_build then Err ResultKeyRequired
      else k ← ok_or entropy ResultKeyEntropy; Ok (k, false)
  | NotUnicode _ => Err ResultKeyVar
  end.

(** ** The release posture *)

Record ReleasePosture := {
  rp_path_hops : nat;
  rp_has_verifier : bool;
  rp_has_grant_signer : bool;
  rp_has_grant_realm : bool;
  rp_signer_from_file : bool;
  rp_result_key_from_file : bool;
  rp_registry_tls_pinned : bool;
  rp_registry_transparency_pinned : bool;
  rp_registry_sev_tcb_pinned : bool;
  rp_registry_nested_ipv4_ready : bool;
  rp_release_build : bool;
}.

Definition validate_release_posture (p : ReleasePosture) : result CoordConfigError unit :=
  if negb (rp_release_build p) then Ok tt
  else
    _ ← ensure (negb (rp_path_hops p <? 2)%nat) NotTrustSplit;
    _ ← ensure (rp_has_verifier p) NoVerifier;
    _ ← ensure (rp_has_grant_signer p) NoGrantSigner;
    _ ← ensure (rp_has_grant_realm p) NoGrantRealm;
    _ ← ensure (rp_signer_from_file p) SignerNotFromFile;
    _ ← ensure (rp_result_key_from_file p) ResultKeyNotFromFile;
    _ ← ensure (rp_registry_tls_pinned p) RegistryTlsUnpinned;
    _ ← ensure (rp_registry_transparency_pinned p) RegistryLogUnpinned;
    _ ← ensure (rp_registry_sev_tcb_pinned p) RegistryTcbUnpinned;
    _ ← ensure (rp_registry_nested_ipv4_ready p) RegistryNotNested;
    Ok tt.

Definition validate_registry_feasibility (entropy : nat → option bytes) (r : NodeRegistry)
    (path_hops : nat) : result CoordConfigError unit :=
  ensure (bool_decide (is_Some (select_path entropy r path_hops))) RegistryInfeasible.

(** [NodeRegistry::from_env]. *)
Definition registry_from_env (env : Env) (debug : bool) : result CoordConfigError NodeRegistry :=
  match env_var env (str "NW_NODE_REGISTRY") with
  | Present path => map_err RegistryInvalid (from_file read from_slice path)
  | _ => if dev_env_flag debug env (str "NW_ALLOW_DEV_FALLBACKS") then Ok dev_default
         else Err RegistryUnset
  end.

(** ** The configuration *)

Record CoordConfig := {
  cc_addr : SocketAddr;
  registry : NodeRegistry;
  path_hops : nat;
  cc_verifier : option Verifier;
  nullifier_path : option bytes;
  nullifier_dir : option bytes;
  grant_signer : option GrantSigningKey;
  cc_grant_realm : bytes;
  grant_ttl : Duration;
  redemption_result_key : bytes;
  nullifier_warn_at : Z;
}.

Definition token_verifier (env : Env) : result CoordConfigError (option Verifier) :=
  match env_var_ok env (str "NW_TOKEN_PUBKEY") with
  | Some entries =>
      let texts := filter (λ s, s ≠ []) (trim <$> split_on x2c entries) in
      ders ← result_mapM (λ h, ok_or (from_hex h) PubkeyNotHex) texts;
      if decide (ders = []) then Ok None
      else v ← map_err PubkeyInvalid (from_public_ders ders); Ok (Some v)
  | None => Ok None
  end.

(** The realm, empty when unset. *)
Definition coord_realm (env : Env) (has_signer : bool) : result CoordConfigError bytes :=
  let realm := default [] (env_var_ok env (str "NW_GRANT_REALM")) in
  _ ← (if decide (realm = []) then Ok tt else map_err BadRealm (validate_identifier realm));
  _ ← ensure (negb (has_signer && bool_decide (realm = []))) RealmRequired;
  Ok realm.

Definition coord_ttl (env : Env) : result CoordConfigError Z :=
  secs ← match env_var_ok env (str "NW_GRANT_TTL_SECS") with
         | Some raw => ok_or (parse_uint U64_MAX raw) BadTtl
         | None => Ok 300
         end;
  _ ← ensure ((1 <=? secs) && (secs <=? MAX_GRANT_TTL_SECS)) TtlRange;
  Ok secs.

Definition coord_path_hops (env : Env) : result CoordConfigError Z :=
  hops ← match env_var_ok env (str "NW_PATH_HOPS") with
         | Some raw => ok_or (parse_uint U64_MAX raw) BadPathHops
         | None => Ok 3
         end;
  _ ← ensure ((1 <=? hops) && (hops <=? 8)) PathHopsRange;
  Ok hops.

Definition coord_from_env (env : Env) (debug : bool) (key_entropy : option bytes)
    (entropy : nat → option bytes) : result CoordConfigError CoordConfig :=
  addr ← ok_or (parse_socket_addr
                  (default (str "0.0.0.0:9090") (env_var_ok env (str "NW_COORDINATOR_ADDR"))))
               BadAddr;
  hops ← coord_path_hops env;
  let hops := Z.to_nat hops in
  verifier ← token_verifier env;
  let release_build := negb debug in
  '(signer, signer_from_file) ← load_grant_signer env release_build;
  '(result_key, result_key_from_file) ← load_redemption_result_key env key_entropy release_build;
  realm ← coord_realm env (bool_decide (is_Some signer));
  ttl ← coord_ttl env;
  let warn_at := default DEFAULT_NULLIFIER_WARN_AT
    (env_var_ok env (str "NW_NULLIFIER_WARN_AT") ≫= parse_uint U64_MAX) in
  reg ← registry_from_env env debug;
  _ ← ensure (negb (length (nodes reg) <? hops)%nat) HopsExceedNodes;
  _ ← validate_registry_feasibility entropy reg hops;
  _ ← validate_release_posture {|
        rp_path_hops := hops;
        rp_has_verifier := bool_decide (is_Some verifier);
        rp_has_grant_signer := bool_decide (is_Some signer);
        rp_has_grant_realm := negb (bool_decide (realm = []));
        rp_signer_from_file := signer_from_file;
        rp_result_key_from_file := result_key_from_file;
        rp_registry_tls_pinned := all_nodes_have_tls_spki reg;
        rp_registry_transparency_pinned := all_nodes_have_transparency_key reg;
        rp_registry_sev_tcb_pinned := all_sev_nodes_have_min_tcb reg;
        rp_registry_nested_ipv4_ready := all_nodes_have_nested_ipv4_endpoints reg;
        rp_release_build := release_build |};
  Ok {| cc_addr := addr; registry := reg; path_hops := hops; cc_verifier := verifier;
        nullifier_path := env_var_ok env (str "NW_NULLIFIER_PATH");
        nullifier_dir := env_var_ok env (str "NW_NULLIFIER_DIR");
        grant_signer := signer; cc_grant_realm := realm;
        grant_ttl := {| as_secs := ttl; subsec_nanos := 0 |};
        redemption_result_key := result_key; nullifier_warn_at := warn_at |}.

End Config.

(** ** Key files are read exactly *)

Lemma decode_canonical_grant_seed_ok raw seed :
  decode_canonical_grant_seed raw = Ok seed ↔
  length seed = 32%nat ∧ (raw = to_hex seed ∨ raw = to_hex seed ++ [x0a]).
Proof.
  unfold decode_canonical_grant_seed, MAX_GRANT_SEED_FILE_BYTES, GRANT_SEED_HEX_LEN. split.
  - intros H. inv_ok H. rename x into hex.
    assert (Hhex : length hex = 64%nat ∧ (raw = hex ∨ raw = hex ++ [x0a])).
    { destruct (Nat.eqb_spec (length raw) 64); [assert (raw = hex) by congruence; subst; auto|].
      destruct (Nat.eqb_spec (length raw) (64 + 1)); cbn [andb] in *; [|done].
      case_bool_decide as Hl; [|done]. assert (hex = take 64 raw) as -> by congruence.
      apply last_Some in Hl as [l ->]. rewrite length_app in *. cbn in *.
      rewrite take_app_length' by lia. split; [lia|auto]. }
    destruct Hhex as [Hlen Hraw].
    destruct (lower_hex_decodes 32 hex) as (b & Hb & Hl & Ht).
    { unfold lower_hex_ok. by rewrite Hlen. }
    subst hex. rewrite decode_pairs_to_hex in * by apply lower_nib_hex_digit.
    assert (seed = b) as -> by congruence. done.
  - intros [Hs Hr].
    assert (Hl : length (to_hex seed) = 64%nat) by (rewrite length_to_hex; lia).
    assert (Hf : forallb is_lower_hex (to_hex seed) = true).
    { apply forallb_Forall_true, to_hex_lower. }
    destruct Hr as [-> | ->].
    + rewrite Hl. cbn [Nat.eqb]. rewrite Ok_bind, Hf. ok_step.
      by rewrite decode_pairs_to_hex by apply lower_nib_hex_digit.
    + rewrite length_app, Hl. cbn [length Nat.eqb Nat.add andb].
      rewrite last_snoc, bool_decide_true by done. rewrite Ok_bind, take_app_length' by done.
      rewrite Hf. ok_step. by rewrite decode_pairs_to_hex by apply lower_nib_hex_digit.
Qed.

(** ** The release posture *)

Section Posture.
Context `{Hsha : Sha256, HshaL : !Sha256Laws, Hed : Ed25519, Hrsa : BlindRsa}.
Context (open : bytes → option OpenFile).
Context (read : bytes → option bytes) (from_slice : bytes → option (list RegistryFileNode)).

(** A file holding exactly one signing seed, closed to group and others. *)
Definition private_seed_file (f : OpenFile) (seed : bytes) : Prop :=
  f_is_file f = true ∧ Z.land (f_mode f) 63 = 0 ∧ length seed = 32%nat ∧
  (f_content f = Some (to_hex seed) ∨ f_content f = Some (to_hex seed ++ [x0a])).

(** What redemption can rely on in a build without debug assertions. *)
Record release_ready (c : CoordConfig) : Prop := {
  rr_hops : (2 ≤ path_hops c ≤ 8)%nat;
  rr_verifier : ∃ v, cc_verifier c = Some v ∧ vkeys v ≠ [] ∧
    Forall (λ ek, 1 ≤ ek.1 ≤ U32_MAX) (vkeys v);
  rr_signer : ∃ path f seed, open path = Some f ∧ private_seed_file f seed ∧
    grant_signer c = Some (from_seed seed);
  rr_result_key : length (redemption_result_key c) = 32%nat;
  rr_realm : identifier_ok (cc_grant_realm c);
  rr_ttl : 1 ≤ as_secs (grant_ttl c) ≤ MAX_GRANT_TTL_SECS ∧ subsec_nanos (grant_ttl c) = 0;
  rr_nodes : Forall node_ok (nodes (registry c)) ∧ NoDup (id <$> nodes (registry c)) ∧
    NoDup (endpoint <$> nodes (registry c)) ∧ dead (registry c) = ∅;
  rr_pinned : Forall (λ n, is_Some (reg_tls_spki_sha256 n)) (nodes (registry c));
  rr_nested : Forall (λ n, nested_ipv4_endpoint n = true) (nodes (registry c));
  rr_feasible : ∃ path, trust_split (registry c) (path_hops c) path;
}.

Lemma token_verifier_ok env v :
  token_verifier env = Ok (Some v) →
  vkeys v ≠ [] ∧ Forall (λ ek, 1 ≤ ek.1 ≤ U32_MAX) (vkeys v).
Proof.
  unfold token_verifier. destruct (env_var_ok _ _) as [entries|]; [|done]. intros H.
  inv_ok H. rename x into ders. case_decide; [done|]. inv_ok H. injection H as <-.
  rename select (from_public_ders _ = _) into Hv. apply from_public_ders_keys in Hv as [Hne Hv].
  split.
  - intros E. rewrite E in Hv. by apply Forall2_nil_inv_r in Hv.
  - eapply Forall2_Forall_r; [exact Hv|]. apply Forall_true. intros d ek [-> _].
    apply key_epoch_range.
Qed.

Lemma load_grant_signing_key_file_ok path k :
  load_grant_signing_key_file open path true = Ok k →
  ∃ f seed, open path = Some f ∧ private_seed_file f seed ∧ k = from_seed seed.
Proof.
  unfold load_grant_signing_key_file, open_grant_signing_key_file. intros H. inv_ok H.
  injection H as <-. subst. reflect_bools.
  repeat match goal with K : Ok _ = Ok _ |- _ => injection K as <- end.
  rename select (f_content _ = Some _) into Hc.
  rename select (decode_canonical_grant_seed _ = _) into Hd.
  apply decode_canonical_grant_seed_ok in Hd as [Hl Hraw].
  rename select (open path = Some _) into Ho. eexists _, _. split_and!; [exact Ho| |done].
  split_and!; [done| |exact Hl|].
  - unfold group_or_other in *. cbn [andb] in *. by reflect_bools.
  - rewrite take_ge in Hraw; [rewrite Hc; destruct Hraw as [-> | ->]; auto|].
    rename select (length (take _ _) ≤ _)%nat into Hlen. rewrite length_take in Hlen. lia.
Qed.

Lemma load_grant_signer_release env k from_file :
  load_grant_signer open env true = Ok (Some k, from_file) →
  ∃ path f seed, open path = Some f ∧ private_seed_file f seed ∧ k = from_seed seed.
Proof.
  unfold load_grant_signer. intros H. inv_ok H.
  destruct (env_var_ok _ _) as [path|]; destruct (env_var_ok _ _) as [raw|]; try done.
  inv_ok H. injection H as -> _. exists path. by apply load_grant_signing_key_file_ok.
Qed.

Lemma load_redemption_result_key_release env entropy k from_file :
  load_redemption_result_key open env entropy true = Ok (k, from_file) → length k = 32%nat.
Proof.
  unfold load_redemption_result_key, load_redemption_result_key_file.
  destruct (env_var _ _) as [path| |]; try done. intros H. inv_ok H. injection H as <- _.
  repeat match goal with K : Ok _ = Ok _ |- _ => injection K as <- end. reflect_bools.
  unfold REDEMPTION_RESULT_KEY_BYTES in *. lia.
Qed.

Lemma coord_realm_ok env realm :
  coord_realm env true = Ok realm → identifier_ok realm.
Proof.
  unfold coord_realm. intros (u & H1 & (u' & H2%ensure_Ok & [= <-])%bind_Ok)%bind_Ok.
  cbn [andb] in H2. reflect_bools. rewrite decide_False in H1 by done. apply map_err_Ok in H1.
  by eapply validate_named_identifier_ok.
Qed.

Lemma coord_path_hops_range env hops : coord_path_hops env = Ok hops → 1 ≤ hops ≤ 8.
Proof. unfold coord_path_hops. intros H. inv_ok H. injection H as <-. by reflect_bools. Qed.

Lemma coord_ttl_range env ttl : coord_ttl env = Ok ttl → 1 ≤ ttl ≤ MAX_GRANT_TTL_SECS.
Proof. unfold coord_ttl. intros H. inv_ok H. injection H as <-. by reflect_bools. Qed.

Lemma registry_from_env_release env reg :
  registry_from_env read from_slice env false = Ok reg →
  Forall node_ok (nodes reg) ∧ NoDup (id <$> nodes reg) ∧ NoDup (endpoint <$> nodes reg) ∧
  dead reg = ∅.
Proof.
  unfold registry_from_env. destruct (env_var _ _) as [path| |]; try done.
  intros H%map_err_Ok. apply from_file_spec in H as (_ & _ & _ & _ & H). done.
Qed.

Lemma coord_release_ready env key_entropy entropy c :
  coord_from_env open read from_slice env false key_entropy entropy = Ok c → release_ready c.
Proof.
  unfold coord_from_env. cbn [negb].
  intros (addr & _ & (hops & Hhops & (v & Hv & ([k from_file] & Hk & H)%bind_Ok)%bind_Ok)%bind_Ok)%bind_Ok.
  apply bind_Ok in H as ([rk rk_file] & Hrk & (realm & Hrealm & (ttl & Httl & H)%bind_Ok)%bind_Ok).
  apply bind_Ok in H as (reg & Hreg & (u1 & _ & (u2 & Hfeas & (u3 & Hp & [= <-])%bind_Ok)%bind_Ok)%bind_Ok).
  unfold validate_release_posture in Hp. cbn in Hp. inv_ok Hp. reflect_bools.
  rename select (is_Some k) into Hks. destruct Hks as [k' ->].
  rename select (is_Some v) into Hvs. destruct Hvs as [v' ->].
  rewrite bool_decide_true in Hrealm by by eexists.
  apply coord_path_hops_range in Hhops. apply coord_ttl_range in Httl.
  apply token_verifier_ok in Hv. apply load_grant_signer_release in Hk as (path & f & seed & Ho & Hf & ->).
  apply registry_from_env_release in Hreg as Hreg.
  unfold all_nodes_have_tls_spki, all_nodes_have_nested_ipv4_endpoints in *.
  rewrite !forallb_Forall_true in *.
  split; cbn [path_hops cc_verifier grant_signer redemption_result_key cc_grant_realm grant_ttl registry
              as_secs subsec_nanos]; try done.
  - lia.
  - by exists v'.
  - by exists path, f, seed.
  - by eapply load_redemption_result_key_release.
  - by eapply coord_realm_ok.
  - rename select (Forall (λ n, bool_decide (is_Some (reg_tls_spki_sha256 n)) = true) _) into Htls.
    eapply Forall_impl; [exact Htls|]. intros n. by rewrite bool_decide_eq_true.
  - apply ensure_Ok, bool_decide_eq_true in Hfeas as [sel Hsel].
    pose proof (select_path_spec entropy reg (Z.to_nat hops)) as Hs. rewrite Hsel in Hs.
    destruct Hs as (p & Hp' & _). by exists p.
Qed.

(** The coordinator starts in release only ready to serve: whatever the environment and
    the files, a configuration a build without debug assertions accepts has between two and
    eight hops, issuer keys with nonzero epochs, one signing seed read from a file closed to
    group and others, a 32-byte result key, a valid realm and grant lifetime, and a registry
    of well-formed, distinct nodes, all TLS-pinned, all at a usable IPv4 address on port
    443, from which a trust-split path of that length can be formed. *)
Theorem coord_release_posture env key_entropy entropy c :
  coord_from_env open read from_slice env false key_entropy entropy = Ok c → release_ready c.
Proof. apply coord_release_ready. Qed.

End Posture.

(** ** Witness *)

Section Witnesses.
Import Toy.

Definition w_floor : Wire.SevSnpTcbFloor :=
  {| Wire.fmc := None; Wire.bootloader := 3; Wire.tcb_tee := 0; Wire.snp := 8; Wire.microcode := 72 |}.

Definition w_entry (nid host op jur role : bytes) : RegistryFileNode := {|
  file_id := nid; file_host := host; file_port := 443; file_tee := str "sev-snp";
  file_measurement := to_hex (replicate 48 x07);
  file_tls_spki_sha256 := Some (to_hex (sha256 (str "certificate")));
  file_operator := op; file_jurisdiction := jur; file_wg_pub := None; file_role := role;
  file_min_tcb_sevsnp := Some w_floor; file_tdx_policy := None;
  file_transparency_log_key := Some (to_hex (replicate 32 x0b)) |}.

Definition w_registry_file : list RegistryFileNode :=
  [w_entry (str "entry-1") (str "192.0.2.7") (str "op-a") (str "US") (str "entry");
   w_entry (str "middle-1") (str "203.0.113.9") (str "op-b") (str "DE") (str "middle");
   w_entry (str "exit-1") (str "198.51.100.20") (str "op-c") (str "CH") (str "exit")].

Definition w_open (path : bytes) : option OpenFile :=
  if decide (path = str "/seed") then
    Some {| f_is_file := true; f_len := 65; f_mode := 33152;
            f_content := Some (to_hex (str "0123456789abcdef0123456789abcdef") ++ [x0a]) |}
  else if decide (path = str "/result-key") then
    Some {| f_is_file := true; f_len := 32; f_mode := 33024;
            f_content := Some (replicate 32 x04) |}
  else None.

Definition w_coord_env : Env := list_to_map
  [(str "NW_TOKEN_PUBKEY", to_hex (str "issuer-new") ++ str ", " ++ to_hex (str "issuer-old"));
   (str "NW_GRANT_SIGNING_KEY_FILE", str "/seed");
   (str "NW_REDEMPTION_RESULT_KEY_FILE", str "/result-key");
   (str "NW_GRANT_REALM", str "prod"); (str "NW_NODE_REGISTRY", str "/registry")].

Local Notation w_coord_start :=
  (coord_from_env w_open (λ _, Some []) (λ _, Some w_registry_file) w_coord_env false None w_entropy)
  (only parsing).

Definition w_coord_config : CoordConfig :=
  match w_coord_start with
  | Ok c => c
  | Err _ => {| cc_addr := SaV4 {| sa_ip := Ipv4 x00 x00 x00 x00; sa_port := 0 |};
                registry := dev_default; path_hops := 0; cc_verifier := None;
                nullifier_path := None; nullifier_dir := None; grant_signer := None;
                cc_grant_realm := []; grant_ttl := w_ttl; redemption_result_key := [];
                nullifier_warn_at := 0 |}
  end.

Lemma w_coord_starts : w_coord_start = Ok w_coord_config.
Proof.
  assert (H : is_ok w_coord_start = true) by (vm_compute; reflexivity).
  unfold w_coord_config. by destruct w_coord_start.
Qed.

Lemma w_coord_ready : release_ready w_open w_coord_config.
Proof.
  exact (coord_release_ready w_open (λ _, Some []) (λ _, Some w_registry_file) w_coord_env None
           w_entropy w_coord_config w_coord_starts).
Qed.

Lemma coord_release_posture_witness :
  release_ready w_open w_coord_config ∧ path_hops w_coord_config = 3%nat.
Proof.
  split; [|by vm_compute].
  exact (coord_release_posture w_open (λ _, Some []) (λ _, Some w_registry_file) w_coord_env None
           w_entropy w_coord_config w_coord_starts).
Defined.

End Witnesses.
