(* ===== verification/ClientIp.v ===== *)
(** * Source attribution ([client_ip.rs] of [crates/nil-coordinator] and [crates/nil-portal])

    The address a request is counted against: the socket's peer, or the one a pinned reverse
    proxy reports in a reserved header.  The two services have the same code. *)

From S2P Require Import Prelude.
From S2P Require Import Net.
From S2P Require Import Env.
From Stdlib Require Import Strings.Byte ZArith.
From stdpp Require Import prelude strings.

Local Open Scope Z_scope.

Definition CLIENT_IP_HEADER : bytes := str "x-nil-client-ip".

Definition ClientIpPolicy : Type := option IpAddr.    (* [trusted_proxy] *)

Inductive ClientIpRejection := UntrustedPeer | InvalidHeader | UnexpectedHeader.

Inductive ClientIpError := BadProxyIp | ProxyIpRequired.

Definition parse_canonical_ip (raw : bytes) : option IpAddr :=
  ip ← parse_ip raw;
  if decide (ip_to_string ip = raw) then Some ip else None.

Definition client_ip_from_env (env : Env) (release_build : bool) :
    result ClientIpError ClientIpPolicy :=
  match env_var env (str "NW_TRUSTED_PROXY_IP") with
  | Present raw => ip ← ok_or (parse_canonical_ip raw) BadProxyIp; Ok (Some ip)
  | NotPresent => if release_build then Err ProxyIpRequired else Ok None
  | NotUnicode _ => Err BadProxyIp
  end.

(** [HeaderValue::to_str]: visible ASCII and tabs only. *)
Definition header_to_str (value : bytes) : option bytes :=
  if forallb (λ b, in_range 32 126 b || bool_decide (b = x09)) value then Some value else None.

(** [headers.get_all(CLIENT_IP_HEADER)]; names are lowercase in a [HeaderMap]. *)
Definition client_ip_values (headers : list (bytes * bytes)) : list bytes :=
  (filter (λ h : bytes * bytes, h.1 = CLIENT_IP_HEADER) headers).*2.

Definition resolve (policy : ClientIpPolicy) (peer : IpAddr) (headers : list (bytes * bytes)) :
    result ClientIpRejection IpAddr :=
  match policy with
  | None => if decide (client_ip_values headers = []) then Ok peer else Err UnexpectedHeader
  | Some trusted_proxy =>
      if negb (bool_decide (peer = trusted_proxy)) then Err UntrustedPeer
      else
        match client_ip_values headers with
        | [value] =>
            raw ← ok_or (header_to_str value) InvalidHeader;
            ok_or (parse_canonical_ip raw) InvalidHeader
        | _ => Err InvalidHeader
        end
  end.
