(* ===== verification/Coordinator.v ===== *)
(** * The coordinator's HTTP API ([crates/nil-coordinator/src/api.rs])

    Redeeming a token for a path: source attribution, rate limit, token verification, path
    selection, one grant per hop, and the single-use commit, over any store that implements
    [NullifierStore].  The JSON codec of [PathResponse] is a parameter with its round-trip
    law; clocks, entropy and disk faults are inputs of each request. *)

From S2P Require Import Prelude.
From S2P Require Import Text.
From S2P Require Import Net.
From S2P Require Import Crypto.
From S2P Require Import Env.
From S2P Require Import Grant.
From S2P Require Import Registry.
From S2P Require Import PathSel.
From S2P Require Import Token.
From S2P Require Import Ledger.
From S2P Require Import Nullifier.
From S2P Require Import RateLimit.
From S2P Require Import ClientIp.
From S2P Require Import CoordConfig.
From S2P Require Import Codec.
From Stdlib Require Import Strings.Byte ZArith Lia.
From stdpp Require Import prelude gmap strings.

Local Open Scope Z_scope.

(** ** Grants for a path *)

Inductive AttachError :=
  | PreviousNotIpv4 | NextNotIpv4 | RoleOrder
  | MeasurementNotHex | MeasurementLength | SpkiUnpinned | SpkiNotHex | SpkiLength
  | Audience (e : GrantError) | NonceEntropy | Mint (e : GrantError).

Definition grant_role_of (r : Role.t) : GrantRole :=
  match r with Role.Entry => Entry | Role.Middle => Middle | Role.Exit => Exit end.

Definition core_tee (t : Wire.Tee) : Tee :=
  match t with Wire.SevSnp => SevSnp | Wire.Tdx => Tdx end.

Definition RedeemRequest : Type := bytes * bytes.    (* [msg], [token], as hex text *)

Definition PathResponse : Type := list Wire.Hop.

Definition set_grant (h : Wire.Hop) (grant nonce : bytes) : Wire.Hop := {|
  Wire.hop_host := Wire.hop_host h; Wire.hop_port := Wire.hop_port h;
  Wire.hop_tee := Wire.hop_tee h; Wire.hop_measurement := Wire.hop_measurement h;
  Wire.hop_tls_spki_sha256 := Wire.hop_tls_spki_sha256 h; Wire.hop_wg_pub := Wire.hop_wg_pub h;
  Wire.hop_min_tcb_sevsnp := Wire.hop_min_tcb_sevsnp h;
  Wire.hop_tdx_policy := Wire.hop_tdx_policy h;
  Wire.hop_transparency_log_key := Wire.hop_transparency_log_key h;
  Wire.hop_grant := Some grant; Wire.hop_grant_nonce := Some nonce |}.

(** The neighbours of the hop at [index], checked against its role. *)
Definition path_neighbors (path : list SelectedHop) (index : nat) (s : SelectedHop) :
    result AttachError (option Ipv4Addr * option SocketAddrV4) :=
  previous ← match index with
             | 0%nat => Ok None
             | S i => match path !! i with
                      | Some p => ip ← ok_or (parse_ipv4 (Wire.hop_host (hop p))) PreviousNotIpv4;
                                  Ok (Some ip)
                      | None => Ok None
                      end
             end;
  next ← match path !! S index with
         | Some n => ip ← ok_or (parse_ipv4 (Wire.hop_host (hop n))) NextNotIpv4;
                     Ok (Some {| sa_ip := ip; sa_port := Wire.hop_port (hop n) |})
         | None => Ok None
         end;
  match intended_role s, previous, next with
  | Role.Entry, None, Some next => Ok (None, Some next)
  | Role.Middle, Some previous, Some next => Ok (Some previous, Some next)
  | Role.Exit, previous, None => Ok (previous, None)
  | _, _, _ => Err RoleOrder
  end.

(** A function of the index and the element, over a list, stopping at the first error. *)
Fixpoint mapi {A B E} (f : nat → A → result E B) (i : nat) (l : list A) : result E (list B) :=
  match l with
  | [] => Ok []
  | x :: l => y ← f i x; ys ← mapi f (S i) l; Ok (y :: ys)
  end.

Section Api.
Context `{Hsha : Sha256, Hed : Ed25519, Hrsa : BlindRsa}.

(** One hop of the second loop; [nonce] is what the entropy source gives for it. *)
Definition attach_grant (signer : GrantSigningKey) (realm : bytes) (ttl : Duration) (now : Z)
    (nonce : option bytes) (s : SelectedHop)
    (neighbors : option Ipv4Addr * option SocketAddrV4) : result AttachError SelectedHop :=
  let h := hop s in
  measurement ← ok_or (from_hex (trim (Wire.hop_measurement h))) MeasurementNotHex;
  _ ← ensure (length measurement =? 48)%nat MeasurementLength;
  spki_text ← ok_or (Wire.hop_tls_spki_sha256 h) SpkiUnpinned;
  spki ← ok_or (from_hex spki_text) SpkiNotHex;
  _ ← ensure (length spki =? 32)%nat SpkiLength;
  audience ← map_err Audience
    (GrantAudience_new realm (sel_node_id s) (grant_role_of (intended_role s)) Masque
       (core_tee (Wire.hop_tee h)) measurement spki neighbors.1 neighbors.2);
  nonce ← ok_or nonce NonceEntropy;
  grant ← map_err Mint (mint signer audience nonce ttl now);
  Ok {| hop := set_grant h (to_hex (g_token grant)) (to_hex (g_nonce grant));
        sel_node_id := sel_node_id s; intended_role := intended_role s |}.

Definition attach_grants (path : list SelectedHop) (signer : GrantSigningKey) (realm : bytes)
    (ttl : Duration) (now : Z) (nonces : nat → option bytes) :
    result AttachError (list SelectedHop) :=
  neighbors ← mapi (path_neighbors path) 0 path;
  mapi (λ i sn, attach_grant signer realm ttl now (nonces i) sn.1 sn.2) 0 (zip path neighbors).

(** ** Redemption *)

Inductive RedeemError :=
  | NotConfigured | MalformedRequest | BadToken | AlreadyRedeemed | Unavailable | NoPath.

(** The JSON codec of the response. *)
Class PathJson := {
  json_to_vec : PathResponse → option bytes;
  json_from_slice : bytes → option PathResponse;
}.

Class PathJsonLaws `{PathJson} : Prop :=
  json_roundtrip : ∀ p j, json_to_vec p = Some j → json_from_slice j = Some p.

(** What a request meets: the clock at its two readings, the environment, the entropy for the
    shuffle and the nonces, the disk. *)
Record Ambient := {
  am_clock_expiry : option Z;
  am_clock_grant : option Z;
  am_env : Env;
  am_shuffle : nat → option bytes;
  am_nonces : nat → option bytes;
  am_io : Io;
}.

Definition legacy_token_allowed (env : Env) (now : Z) : bool :=
  match env_var_ok env (str "NW_LEGACY_TOKEN_CUTOFF") ≫= parse_uint U64_MAX with
  | Some cutoff => now <=? cutoff
  | None => false
  end.

(** The shape and age rules, before any signature is checked. *)
Definition message_acceptable (env : Env) (msg : bytes) (now : Z) : bool :=
  if is_v2_message msg then v2_message_is_current msg now
  else (length msg =? 32)%nat && legacy_token_allowed env now.

(** A request that passes: what it is about to commit. *)
Record Proposal := {
  pr_epoch : Z;
  pr_key : bytes;
  pr_until : Z;
  pr_json : bytes;
  pr_now : Z;
}.

Context `{Hjson : PathJson}.

Definition propose (cfg : CoordConfig) (am : Ambient) (req : RedeemRequest) :
    result RedeemError Proposal :=
  v ← ok_or (cc_verifier cfg) NotConfigured;
  msg ← ok_or (from_hex req.1) MalformedRequest;
  token ← ok_or (from_hex req.2) MalformedRequest;
  let now := now_unix_secs_for_expiry (am_clock_expiry am) in
  _ ← ensure (message_acceptable (am_env am) msg now) BadToken;
  epoch ← ok_or (verify_with_epoch v token msg) BadToken;
  path ← ok_or (select_path (am_shuffle am) (registry cfg) (path_hops cfg)) NoPath;
  let grant_now := now_unix_secs (am_clock_grant am) in
  _ ← ensure (negb (grant_now =? 0)) Unavailable;
  until ← ok_or (u64_checked_add grant_now (as_secs (grant_ttl cfg))) Unavailable;
  path ← match grant_signer cfg with
         | Some signer =>
             map_err (λ _, Unavailable)
               (attach_grants path signer (cc_grant_realm cfg) (grant_ttl cfg) grant_now
                  (am_nonces am))
         | None => Ok path
         end;
  json ← ok_or (json_to_vec (hop <$> path)) Unavailable;
  Ok {| pr_epoch := epoch; pr_key := to_hex_fmt msg; pr_until := until; pr_json := json;
        pr_now := grant_now |}.

Context {S : Type} `{Hstore : NullifierStore S}.

Definition outcome_response (out : CommitOutcome) : result RedeemError PathResponse :=
  match out with
  | Granted response _ => ok_or (json_from_slice response) AlreadyRedeemed
  | AlreadySpent => Err AlreadyRedeemed
  end.

Definition redeem_logic (cfg : CoordConfig) (s : S) (am : Ambient) (req : RedeemRequest) :
    S * result RedeemError PathResponse :=
  match propose cfg am req with
  | Err e => (s, Err e)
  | Ok p =>
      match commit_or_replay s (am_io am) (pr_epoch p) (pr_key p) (pr_until p) (pr_json p)
              (pr_now p) with
      | (s, Err _) => (s, Err Unavailable)
      | (s, Ok out) => (s, outcome_response out)
      end
  end.

(** ** The handler *)

Inductive StatusCode :=
  | TooManyRequests | NotImplemented | BadRequest | Unauthorized | Forbidden | Conflict
  | ServiceUnavailable.

Definition REDEEM_RATE_MAX : Z := 30.
Definition REDEEM_RATE_WINDOW : Z := 60 * 1000000000.

Record CoordState := {
  st_nullifiers : S;
  st_limiter : RateLimiter;
}.

Definition state_new (s : S) : CoordState :=
  {| st_nullifiers := s; st_limiter := limiter_new REDEEM_RATE_MAX REDEEM_RATE_WINDOW |}.

Definition rejection_status (r : ClientIpRejection) : StatusCode :=
  match r with UntrustedPeer => Forbidden | InvalidHeader | UnexpectedHeader => BadRequest end.

Definition redeem_status (e : RedeemError) : StatusCode :=
  match e with
  | NotConfigured => NotImplemented
  | MalformedRequest => BadRequest
  | BadToken => Unauthorized
  | AlreadyRedeemed => Conflict
  | Unavailable | NoPath => ServiceUnavailable
  end.

(** An HTTP request on [/v1/redeem], with its body parsed. *)
Record HttpRequest := {
  rq_peer : IpAddr;
  rq_headers : list (bytes * bytes);
  rq_at : Z;                              (* monotonic clock *)
  rq_body : RedeemRequest;
  rq_ambient : Ambient;
}.

Definition redeem (cfg : CoordConfig) (policy : ClientIpPolicy) (st : CoordState)
    (rq : HttpRequest) : CoordState * result StatusCode PathResponse :=
  match resolve policy (rq_peer rq) (rq_headers rq) with
  | Err r => (st, Err (rejection_status r))
  | Ok ip =>
      let '(limiter, admitted) := check (st_limiter st) (ip_to_string ip) (rq_at rq) in
      if negb admitted then
        ({| st_nullifiers := st_nullifiers st; st_limiter := limiter |}, Err TooManyRequests)
      else
        let '(s, r) := redeem_logic cfg (st_nullifiers st) (rq_ambient rq) (rq_body rq) in
        ({| st_nullifiers := s; st_limiter := limiter |}, map_err redeem_status r)
  end.

(** The background sweep of [main]. *)
Inductive CoordOp :=
  | OpRedeem (rq : HttpRequest)
  | OpSweep (io : Io) (clock : option Z).

Definition coord_step (cfg : CoordConfig) (policy : ClientIpPolicy) (st : CoordState) (op : CoordOp) :
    CoordState * option (result StatusCode PathResponse) :=
  match op with
  | OpRedeem rq => let '(st, r) := redeem cfg policy st rq in (st, Some r)
  | OpSweep io clock =>
      ({| st_nullifiers := (prune_expired_replays (st_nullifiers st) io
                              (now_unix_secs_for_expiry clock)).1;
          st_limiter := st_limiter st |}, None)
  end.

Fixpoint coord_run (cfg : CoordConfig) (policy : ClientIpPolicy) (st : CoordState)
    (ops : list CoordOp) : CoordState * list (option (result StatusCode PathResponse)) :=
  match ops with
  | [] => (st, [])
  | op :: ops =>
      let '(st, r) := coord_step cfg policy st op in
      let '(st, rs) := coord_run cfg policy st ops in (st, r :: rs)
  end.

(** ** Published measurements *)

Definition measurements (r : NodeRegistry) : list (Wire.Tee * bytes) :=
  (foldl (λ (acc : gset bytes * list (Wire.Tee * bytes)) n,
            if decide (reg_measurement n ∈ acc.1) then acc
            else ({[reg_measurement n]} ∪ acc.1, acc.2 ++ [(reg_tee n, reg_measurement n)]))
     (∅, []) (nodes r)).2.

End Api.

(** ** One token, one path *)

Section Single.
Context `{Hsha : Sha256, Hed : Ed25519, Hrsa : BlindRsa}.
Context `{Hjson : PathJson, HjsonL : !PathJsonLaws}.
Context {S : Type} `{Hstore : NullifierStore S, Hslaws : !NullifierStoreLaws S}.
Context (cfg : CoordConfig).

(** The machine types of the configuration and of what a request meets. *)
Definition config_ok : Prop :=
  (∀ v, cc_verifier cfg = Some v → Forall (λ ek, u32 ek.1) (vkeys v)) ∧
  0 ≤ as_secs (grant_ttl cfg) ∧ Forall (λ n, u16 (port n)) (nodes (registry cfg)).

Definition ambient_ok (am : Ambient) : Prop :=
  io_ok (am_io am) ∧ (∀ t, am_clock_expiry am = Some t → u64 t) ∧
  (∀ t, am_clock_grant am = Some t → u64 t).

Definition coord_op_ok (op : CoordOp) : Prop :=
  match op with OpRedeem rq => ambient_ok (rq_ambient rq) | OpSweep _ _ => True end.

Definition proposal_op (am : Ambient) (p : Proposal) : Op :=
  Commit (am_io am) (pr_epoch p) (pr_key p) (pr_until p) (pr_json p) (pr_now p).

Lemma propose_key am req p :
  propose cfg am req = Ok p → ∃ msg, from_hex req.1 = Some msg ∧ pr_key p = to_hex_fmt msg.
Proof.
  unfold propose. intros (v & _ & (msg & Hm%ok_or_Ok & H)%bind_Ok)%bind_Ok. exists msg.
  split; [done|]. inv_ok H. by injection H as <-.
Qed.

Lemma propose_json am req p :
  propose cfg am req = Ok p → ∃ path, json_to_vec path = Some (pr_json p).
Proof. unfold propose. intros H. inv_ok H. injection H as <-. by eexists. Qed.

Lemma propose_op_ok am req p :
  config_ok → ambient_ok am → propose cfg am req = Ok p → op_ok (proposal_op am p).
Proof.
  intros (Hv & Httl & _) (Hio & _ & Hclk) H. unfold propose in H. inv_ok H. injection H as <-.
  cbn [proposal_op op_ok pr_epoch pr_until].
  rename select (u64_checked_add _ _ = Some _) into Hu. apply u64_checked_add_Some in Hu as [-> Hu].
  split_and!; [done| |].
  - rename select (verify_with_epoch _ _ _ = _) into He. unfold verify_with_epoch in He.
    apply fmap_Some in He as ([e k] & Hf & ->). apply find_some in Hf as [Hin _].
    apply list_elem_of_In in Hin. rename select (cc_verifier cfg = Some _) into Hcv.
    specialize (Hv _ Hcv). rewrite Forall_forall in Hv. by apply Hv in Hin.
  - unfold now_unix_secs in *. destruct (am_clock_grant am) as [t|]; cbn in *.
    + destruct (Hclk t eq_refl). unfold_int. lia.
    + unfold_int. lia.
Qed.

(** A granted response is the one the key stays spent with. *)
Lemma commit_granted s io ep key until q now s' p newly :
  store_inv s → op_ok (Commit io ep key until q now) →
  commit_or_replay s io ep key until q now = (s', Ok (Granted p newly)) →
  store_inv s' ∧ spent_with key p (store_ledger s').
Proof.
  intros Hinv (Hio & Hep & Hu) H. apply commit_ok in H as [Hinv' H]; [|done..]. split; [done|].
  unfold Spec.commit in H. destruct (store_ledger s !! key) as [e|] eqn:E.
  - destruct (Spec.e_result (Spec.expire now e)) as [[u r]|] eqn:Er; [|discriminate H].
    injection H as -> -> _. exists e. split; [done|]. apply expire_result in Er. intros u' q' Hq. congruence.
  - injection H as -> -> _. eexists. rewrite lookup_insert_eq. split; [done|]. cbn. congruence.
Qed.

(** What a redemption does to the store: nothing, or the one commit. *)
Lemma redeem_store policy st rq st' r :
  config_ok → ambient_ok (rq_ambient rq) → redeem cfg policy st rq = (st', r) →
  (st_nullifiers st' = st_nullifiers st ∧ is_ok r = false) ∨
  ∃ p s' cr, propose cfg (rq_ambient rq) (rq_body rq) = Ok p ∧ op_ok (proposal_op (rq_ambient rq) p) ∧
    commit_or_replay (st_nullifiers st) (am_io (rq_ambient rq)) (pr_epoch p) (pr_key p) (pr_until p)
      (pr_json p) (pr_now p) = (s', cr) ∧ st_nullifiers st' = s' ∧
    r = map_err redeem_status
          match cr with Ok out => outcome_response out | Err _ => Err Unavailable end.
Proof.
  intros Hcfg Ham. unfold redeem. destruct (resolve _ _ _) as [ip|e]; [|intros [= <- <-]; by left].
  destruct (check _ _ _) as [l [|]]; cbn [negb]; [|intros [= <- <-]; by left].
  unfold redeem_logic. destruct (propose cfg _ _) as [p|e] eqn:Ep; [|intros [= <- <-]; by left].
  pose proof (propose_op_ok _ _ _ Hcfg Ham Ep) as Hop.
  destruct (commit_or_replay _ _ _ _ _ _ _) as [s' cr] eqn:Ec. intros H. right.
  exists p, s', cr. destruct cr; injection H as <- <-; by split_and!.
Qed.

(** Every step of the coordinator keeps what is spent. *)
Lemma coord_step_keeps policy st op st' r key q :
  config_ok → coord_op_ok op → store_inv (st_nullifiers st) →
  coord_step cfg policy st op = (st', r) →
  store_inv (st_nullifiers st') ∧
  (spent_with key q (store_ledger (st_nullifiers st)) →
   spent_with key q (store_ledger (st_nullifiers st'))).
Proof.
  intros Hcfg Hop Hinv H. destruct op as [rq|io clock]; cbn [coord_step] in H.
  - destruct (redeem cfg policy st rq) as [st1 r1] eqn:E. injection H as <- <-.
    destruct (redeem_store _ _ _ _ _ Hcfg Hop E) as [[-> _]|(p & s' & cr & Hp & Ho & Hc & -> & _)];
      [done|].
    split.
    + destruct cr as [out|e]; [by eapply commit_ok in Hc; [apply Hc|apply Hinv|apply Ho..]|].
      by eapply commit_err in Hc; [apply Hc|apply Hinv|apply Ho..].
    + intros Hs. destruct (run_keeps [proposal_op (rq_ambient rq) p] _ key q Hinv) as [_ H];
        [by constructor|done|]. cbn in H. by rewrite Hc in H.
  - injection H as <- <-. cbn [st_nullifiers]. split.
    + destruct (prune_expired_replays _ _ _) as [s' pr] eqn:E. by apply prune_ok in E as [? _].
    + intros Hs. destruct (run_keeps [Prune io (now_unix_secs_for_expiry clock)] _ key q Hinv) as [_ H];
        [by constructor|done|done].
Qed.

Lemma coord_run_keeps policy st ops st' rs key q :
  config_ok → Forall coord_op_ok ops → store_inv (st_nullifiers st) →
  coord_run cfg policy st ops = (st', rs) →
  store_inv (st_nullifiers st') ∧
  (spent_with key q (store_ledger (st_nullifiers st)) →
   spent_with key q (store_ledger (st_nullifiers st'))).
Proof.
  intros Hcfg Hops. revert st rs. induction Hops as [|op ops Hop _ IH]; intros st rs Hinv H; cbn in H.
  { by injection H as <- <-. }
  destruct (coord_step cfg policy st op) as [st1 r] eqn:E1.
  destruct (coord_run cfg policy st1 ops) as [st2 rs2] eqn:E2. injection H as <- <-.
  destruct (coord_step_keeps _ _ _ _ _ key q Hcfg Hop Hinv E1) as [Hinv1 H1].
  destruct (IH _ _ Hinv1 E2) as [Hinv2 H2]. auto.
Qed.

(** A served path is stored under the token's key. *)
Lemma redeem_served policy st rq st' p msg :
  config_ok → ambient_ok (rq_ambient rq) → store_inv (st_nullifiers st) →
  redeem cfg policy st rq = (st', Ok p) → from_hex (rq_body rq).1 = Some msg →
  ∃ q, json_from_slice q = Some p ∧
    spent_with (to_hex_fmt msg) q (store_ledger (st_nullifiers st')) ∧
    (∀ q', spent_with (to_hex_fmt msg) q' (store_ledger (st_nullifiers st)) → q' = q).
Proof.
  intros Hcfg Ham Hinv H Hm.
  destruct (redeem_store _ _ _ _ _ Hcfg Ham H) as [[_ ?]|(pr & s' & cr & Hp & Ho & Hc & -> & Hr)]; [done|].
  destruct (propose_key _ _ _ Hp) as (msg' & Hm' & Hkey). assert (msg' = msg) as -> by congruence.
  destruct cr as [[q newly|]|e]; cbn in Hr; try done.
  destruct (json_from_slice q) as [p'|] eqn:Ej; [|done]. cbn in Hr. injection Hr as ->.
  exists q. split; [done|]. rewrite <- Hkey.
  destruct (commit_granted _ _ _ _ _ _ _ _ _ _ Hinv Ho Hc) as [_ Hs]. split; [done|].
  intros q' Hs'. destruct (commit_spent _ _ _ _ _ _ _ _ _ _ Hinv Ho Hs' Hc); congruence.
Qed.

(** The first of two served requests for one message fixes the second's answer. *)
Lemma served_then policy st ops st' rs key q i rq p :
  config_ok → Forall coord_op_ok ops → store_inv (st_nullifiers st) →
  coord_run cfg policy st ops = (st', rs) →
  spent_with key q (store_ledger (st_nullifiers st)) →
  ops !! i = Some (OpRedeem rq) → to_hex_fmt <$> from_hex (rq_body rq).1 = Some key →
  rs !! i = Some (Some (Ok p)) → json_from_slice q = Some p.
Proof.
  intros Hcfg Hops. revert st rs i. induction Hops as [|op ops Hop _ IH]; intros st rs i Hinv H Hs Hi Hk Hr;
    cbn in H; [by destruct i|].
  destruct (coord_step cfg policy st op) as [st1 r] eqn:E1.
  destruct (coord_run cfg policy st1 ops) as [st2 rs2] eqn:E2. injection H as <- <-.
  destruct i as [|i].
  - cbn in Hi, Hr. injection Hi as ->. injection Hr as ->. cbn in E1.
    destruct (redeem cfg policy st rq) as [st3 r3] eqn:E3.
    assert (r3 = Ok p) as -> by congruence. apply fmap_Some in Hk as (msg & Hm & ->).
    destruct (redeem_served _ _ _ _ _ _ Hcfg Hop Hinv E3 Hm) as (q' & Hq & _ & Hu).
    by rewrite (Hu _ Hs).
  - destruct (coord_step_keeps _ _ _ _ _ key q Hcfg Hop Hinv E1) as [Hinv1 H1].
    by apply (IH _ _ i Hinv1 E2 (H1 Hs)).
Qed.

Lemma served_pair policy st ops st' rs i j rq rq' p p' :
  config_ok → Forall coord_op_ok ops → store_inv (st_nullifiers st) →
  coord_run cfg policy st ops = (st', rs) → (i < j)%nat →
  ops !! i = Some (OpRedeem rq) → ops !! j = Some (OpRedeem rq') →
  from_hex (rq_body rq).1 = from_hex (rq_body rq').1 →
  rs !! i = Some (Some (Ok p)) → rs !! j = Some (Some (Ok p')) → p = p'.
Proof.
  intros Hcfg Hops. revert st rs i j. induction Hops as [|op ops Hop Hops IH];
    intros st rs i j Hinv H Hij Hi Hj Hm Hr Hr'; cbn in H; [by destruct i|].
  destruct (coord_step cfg policy st op) as [st1 r] eqn:E1.
  destruct (coord_run cfg policy st1 ops) as [st2 rs2] eqn:E2. injection H as <- <-.
  destruct (coord_step_keeps _ _ _ _ _ [] [] Hcfg Hop Hinv E1) as [Hinv1 _].
  destruct j as [|j]; [lia|]. destruct i as [|i].
  - cbn in Hi, Hr. injection Hi as ->. injection Hr as ->. cbn in E1.
    destruct (redeem cfg policy st rq) as [st3 r3] eqn:E3.
    assert (r3 = Ok p ∧ st3 = st1) as [-> ->] by (split; congruence).
    assert (Hd : ∃ msg, from_hex (rq_body rq).1 = Some msg).
    { destruct (redeem_store _ _ _ _ _ Hcfg Hop E3) as [[_ ?]|(pr & _ & _ & Hp & _)]; [done|].
      destruct (propose_key _ _ _ Hp) as (msg & ? & _). eauto. }
    destruct Hd as [msg Hmsg].
    destruct (redeem_served _ _ _ _ _ _ Hcfg Hop Hinv E3 Hmsg) as (q & Hq & Hs & _).
    pose proof (served_then _ _ _ _ _ _ q j rq' p' Hcfg Hops Hinv1 E2 Hs Hj) as Hlast.
    rewrite <- Hm, Hmsg in Hlast. specialize (Hlast eq_refl Hr'). congruence.
  - apply (IH _ _ i j Hinv1 E2); try done. lia.
Qed.

(** C3.  One token, one path: over any history of redemptions and sweeps, from any sources,
    with any entropy, clocks and disk faults, on any store that keeps the trait's promises,
    every request that is served for the same token message - in whatever hex case - gets
    the same path. *)
Theorem one_token_one_path policy st ops st' rs i j rq rq' p p' :
  config_ok → Forall coord_op_ok ops → store_inv (st_nullifiers st) →
  coord_run cfg policy st ops = (st', rs) →
  ops !! i = Some (OpRedeem rq) → ops !! j = Some (OpRedeem rq') →
  from_hex (rq_body rq).1 = from_hex (rq_body rq').1 →
  rs !! i = Some (Some (Ok p)) → rs !! j = Some (Some (Ok p')) → p = p'.
Proof.
  intros Hcfg Hops Hinv H Hi Hj Hm Hr Hr'. destruct (Nat.lt_trichotomy i j) as [?|[->|?]].
  - by eapply (served_pair _ _ _ _ _ i j).
  - congruence.
  - symmetry. by eapply (served_pair _ _ _ _ _ j i).
Qed.

(** C36.  A refusal spends nothing: whatever a request is refused for - its source, the rate
    limit, the token, the path, the grants, the entropy, the disk - exactly the tokens that
    were spent before are spent after. *)
Theorem refusal_spends_nothing policy st rq st' e :
  config_ok → ambient_ok (rq_ambient rq) → store_inv (st_nullifiers st) →
  redeem cfg policy st rq = (st', Err e) →
  dom (store_ledger (st_nullifiers st')) = dom (store_ledger (st_nullifiers st)).
Proof.
  intros Hcfg Ham Hinv H.
  destruct (redeem_store _ _ _ _ _ Hcfg Ham H) as [[-> _]|(p & s' & cr & Hp & Ho & Hc & -> & Hr)]; [done|].
  destruct cr as [out|err].
  - apply commit_ok in Hc as [_ Hc]; [|apply Hinv|apply Ho..]. unfold Spec.commit in Hc.
    destruct (store_ledger (st_nullifiers st) !! pr_key p) as [en|] eqn:E.
    + destruct (Spec.e_result _) as [[u q]|]; injection Hc as -> _; [done|].
      rewrite dom_insert_L. apply elem_of_dom_2 in E. set_solver.
    + injection Hc as _ ->. destruct (propose_json _ _ _ Hp) as [path Hj%json_roundtrip].
      cbn in Hr. by rewrite Hj in Hr.
  - apply commit_err in Hc as (_ & Hw & _); [|apply Hinv|apply Ho..]. apply set_eq. intros key.
    rewrite !elem_of_dom. destruct (Hw key) as [->| ->]; [done|]. by rewrite fmap_is_Some.
Qed.

End Single.

(** ** An executable codec for the witnesses *)

Module ToyJson.

Import ToyCodec.

#[local] Program Instance codec_tee : Codec Wire.Tee :=
  codec_iso (λ t, match t with Wire.SevSnp => x00 | Wire.Tdx => x01 end)
    (λ b, if decide (b = x00) then Wire.SevSnp else Wire.Tdx) _.
Next Obligation. by intros []. Qed.

#[local] Program Instance codec_floor : Codec Wire.SevSnpTcbFloor :=
  codec_iso (λ f, (Wire.fmc f, Wire.bootloader f, Wire.tcb_tee f, Wire.snp f, Wire.microcode f))
    (λ '(a, b, c, d, e), {| Wire.fmc := a; Wire.bootloader := b; Wire.tcb_tee := c; Wire.snp := d;
                            Wire.microcode := e |}) _.
Next Obligation. by intros []. Qed.

#[local] Program Instance codec_policy : Codec Wire.TdxPolicy :=
  codec_iso (λ p, (Wire.td_attributes p, Wire.xfam p, Wire.mr_config_id p, Wire.mr_owner p,
                   Wire.mr_owner_config p, Wire.rt_mr0 p, Wire.rt_mr1 p, Wire.rt_mr2 p,
                   Wire.rt_mr3 p, Wire.mr_service_td p))
    (λ '(a, b, c, d, e, f, g, h, i, j),
       {| Wire.td_attributes := a; Wire.xfam := b; Wire.mr_config_id := c; Wire.mr_owner := d;
          Wire.mr_owner_config := e; Wire.rt_mr0 := f; Wire.rt_mr1 := g; Wire.rt_mr2 := h;
          Wire.rt_mr3 := i; Wire.mr_service_td := j |}) _.
Next Obligation. by intros []. Qed.

#[local] Program Instance codec_hop : Codec Wire.Hop :=
  codec_iso (λ h, (Wire.hop_host h, Wire.hop_port h, Wire.hop_tee h, Wire.hop_measurement h,
                   Wire.hop_tls_spki_sha256 h, Wire.hop_wg_pub h, Wire.hop_min_tcb_sevsnp h,
                   Wire.hop_tdx_policy h, Wire.hop_transparency_log_key h, Wire.hop_grant h,
                   Wire.hop_grant_nonce h))
    (λ '(a, b, c, d, e, f, g, h, i, j, k),
       {| Wire.hop_host := a; Wire.hop_port := b; Wire.hop_tee := c; Wire.hop_measurement := d;
          Wire.hop_tls_spki_sha256 := e; Wire.hop_wg_pub := f; Wire.hop_min_tcb_sevsnp := g;
          Wire.hop_tdx_policy := h; Wire.hop_transparency_log_key := i; Wire.hop_grant := j;
          Wire.hop_grant_nonce := k |}) _.
Next Obligation. by intros []. Qed.

#[export] Instance toy_json : PathJson :=
  {| json_to_vec p := Some (put (A := list Wire.Hop) p);
     json_from_slice s := fst <$> get (A := list Wire.Hop) s |}.

#[export] Instance toy_json_laws : PathJsonLaws.
Proof.
  intros p j Hj. assert (j = put (A := list Wire.Hop) p) as -> by by injection Hj.
  pose proof (get_put (A := list Wire.Hop) p []) as H. rewrite app_nil_r in H.
  change (fst <$> get (A := list Wire.Hop) (put (A := list Wire.Hop) p) = Some p). by rewrite H.
Qed.

End ToyJson.

(** ** Witnesses *)

Section Witnesses.
Import Toy ToyJson.

Definition w_token_msg : bytes := V2_MAGIC ++ be_bytes 8 (v2_expiry 1000000) ++ replicate 20 x01.
Definition w_token_sig : bytes := digest (str "issuer-new" ++ w_token_msg).

Definition upper (s : bytes) : bytes :=
  (λ b, if in_range 97 122 b then z2b (b2z b - 32) else b) <$> s.

Definition w_ambient : Ambient :=
  {| am_clock_expiry := Some 1000000; am_clock_grant := Some 1000000; am_env := ∅;
     am_shuffle := w_entropy; am_nonces := λ i, Some (replicate 32 (z2b (Z.of_nat i))); am_io := w_io |}.

(** The same token from two sources, the second in upper case, the latter behind the proxy. *)
Definition w_request (at_ : Z) (raw : bytes) (body : RedeemRequest) : HttpRequest :=
  {| rq_peer := V4 (Ipv4 x0a x00 x00 x01); rq_headers := [(CLIENT_IP_HEADER, raw)]; rq_at := at_;
     rq_body := body; rq_ambient := w_ambient |}.

Definition w_body : RedeemRequest := (to_hex w_token_msg, to_hex w_token_sig).
Definition w_body_upper : RedeemRequest := (upper (to_hex w_token_msg), to_hex w_token_sig).

Definition w_state : CoordState := state_new (with_partitioning w_cipher_key false).
Definition w_proxy : ClientIpPolicy := Some (V4 (Ipv4 x0a x00 x00 x01)).

Definition w_coord_ops : list CoordOp :=
  [OpRedeem (w_request 0 (str "198.18.0.1") w_body);
   OpSweep w_io (Some 1000010);
   OpRedeem (w_request 5 (str "198.18.0.2") w_body_upper)].

Local Notation w_coord_run := (coord_run w_coord_config w_proxy w_state w_coord_ops) (only parsing).

Lemma forallb_range {A} (f : A → Z) hi l :
  forallb (λ x, (0 <=? f x) && (f x <=? hi)) l = true → Forall (λ x, 0 ≤ f x ≤ hi) l.
Proof.
  rewrite forallb_Forall_true. intros H. eapply Forall_impl; [exact H|]. intros x Hx. cbn in Hx.
  reflect_bools. lia.
Qed.

Lemma w_config_ok : config_ok w_coord_config.
Proof.
  split_and!.
  - assert (H : match cc_verifier w_coord_config with
                | Some v => forallb (λ ek, (0 <=? ek.1) && (ek.1 <=? U32_MAX)) (vkeys v)
                | None => true
                end = true) by (vm_compute; reflexivity).
    intros v Hv. rewrite Hv in H. by apply forallb_range.
  - apply Z.leb_le. vm_compute. reflexivity.
  - apply forallb_range. vm_compute. reflexivity.
Qed.

Lemma w_ops_ambient : Forall coord_op_ok w_coord_ops.
Proof.
  assert (Ham : ambient_ok w_ambient).
  { split_and!; [by intros n [= <-]| |]; intros t [= <-]; unfold_int; lia. }
  do 3 (apply Forall_cons_2; [done|]). apply Forall_nil_2.
Qed.

Lemma w_store_inv : store_inv (st_nullifiers w_state).
Proof. apply map_Forall_empty. Qed.

Lemma w_served : ∃ p p', w_coord_run.2 = [Some (Ok p); None; Some (Ok p')].
Proof.
  assert (H : match w_coord_run.2 with [Some (Ok _); None; Some (Ok _)] => true | _ => false end = true)
    by (vm_compute; reflexivity).
  destruct w_coord_run.2 as [|[[p|]|] [|[|] [|[[p'|]|] [|]]]]; try discriminate H. by exists p, p'.
Qed.

Lemma one_token_one_path_witness : ∃ p, w_coord_run.2 = [Some (Ok p); None; Some (Ok p)].
Proof.
  destruct w_served as (p & p' & H). exists p.
  destruct w_coord_run as [st' rs] eqn:E. cbn [snd] in *. subst rs.
  assert (p = p') as ->; [|reflexivity].
  refine (one_token_one_path w_coord_config w_proxy w_state w_coord_ops st' _ 0 2 _ _ p p' w_config_ok
    w_ops_ambient w_store_inv E eq_refl eq_refl _ eq_refl eq_refl).
  vm_compute. reflexivity.
Defined.

(** An expired token from an untrusted peer, and one refused at the gate. *)
Definition w_stale : HttpRequest := w_request 9 (str "198.18.0.3") (to_hex (replicate 32 x01), to_hex w_token_sig).

Lemma refusal_spends_nothing_witness :
  ∃ st', redeem w_coord_config w_proxy w_state w_stale = (st', Err Unauthorized) ∧
    dom (store_ledger (st_nullifiers st')) = dom (store_ledger (st_nullifiers w_state)).
Proof.
  assert (H : (redeem w_coord_config w_proxy w_state w_stale).2 = Err Unauthorized)
    by (vm_compute; reflexivity).
  destruct (redeem w_coord_config w_proxy w_state w_stale) as [st' r] eqn:E. cbn [snd] in H. subst r.
  exists st'. split; [reflexivity|].
  refine (refusal_spends_nothing w_coord_config w_proxy w_state w_stale st' Unauthorized w_config_ok _
    w_store_inv E).
  split_and!; [by intros n [= <-]| |]; intros t [= <-]; unfold_int; lia.
Defined.

End Witnesses.
