(* ===== verification/ClientPath.v ===== *)
(** * The client's side of a path ([crates/nil-datapath/src/redeem.rs], [nil-transport/src/masque/mod.rs])

    How a client turns the Coordinator's answer into endpoints, with its own pins held against
    every hop; what it sends to a node to open a tunnel; and the gate that decides whether the
    tunnel comes up.  [release] is [cfg!(not(debug_assertions))]. *)

From S2P Require Import Prelude.
From S2P Require Import Text.
From S2P Require Import Net.
From S2P Require Import Env.
From S2P Require Import Crypto.
From S2P Require Import TransLog.
From S2P Require Import Grant.
From S2P Require Import Registry.
From S2P Require Import PathSel.
From S2P Require Import Attest.
From S2P Require Import ConnectIp.
From S2P Require Import NodeServer.
From S2P Require Import Coordinator.
From Stdlib Require Import Strings.Byte ZArith Lia.
From stdpp Require Import prelude gmap strings.

Local Open Scope Z_scope.

(** ** Endpoints ([nil-core/src/lib.rs]) *)

Inductive TransportKind := Loopback | KMasque | KAmneziaWg | KWstunnel | KReality.

Record AttestExpectation := {
  ae_tee : Tee;
  ae_measurement : bytes;
  ae_tls_spki_sha256 : option bytes;
  ae_min_tcb_sevsnp : option SevSnpTcbFloor;
  ae_tdx_policy : option Core.TdxPolicy;
  ae_transparency_log_key : option bytes;
}.

Record NodeEndpoint := {
  ep_host : bytes;
  ep_port : Z;
  ep_kind : TransportKind;
  ep_wg_pub : option bytes;
  ep_expected : option AttestExpectation;
  ep_grant : option Grant;
}.

(** ** Redemption ([redeem.rs]) *)

Definition MIN_HOPS : nat := 1.
Definition MAX_HOPS : nat := 8.
Definition MAX_BODY : Z := 64 * 1024.

(** One constructor per refusal, with the hop where the code names it. *)
Inductive HopFault :=
  | MeasurementHex | SpkiHex | SpkiWidth | SpkiMissing | WgHex | WgWidth | GrantHex | NonceHex | NonceWidth
  | GrantHalf | FloorForTdx | BadTdxPolicy (field : bytes) | NoTdxPolicy | TdxPolicyForSnp | LogKeyHex
  | LogKeyWidth | NoExpectation | NotPinned | OtherLogKey.

Inductive PathFault :=
  | Rejected (status : Z) | BodyTooLong | BodyUnreadable | EmptyPath | TooManyHops | SingleHop | HopRefused (idx : nat) (why : HopFault).

(** [decode_policy_hex::<N>] *)
Definition decode_policy_hex (n : nat) (field value : bytes) : result HopFault bytes :=
  if negb (length value =? n * 2)%nat || negb (forallb is_lower_hex value) then Err (BadTdxPolicy field)
  else match from_hex value with
       | Some b => if (length b =? n)%nat then Ok b else Err (BadTdxPolicy field)
       | None => Err (BadTdxPolicy field)
       end.

Definition tdx_policy_from_wire (dto : Wire.TdxPolicy) : result HopFault Core.TdxPolicy :=
  td ← decode_policy_hex 8 (str "tdx_policy.td_attributes") (Wire.td_attributes dto);
  _ ← ensure (negb (debug_bit td)) (BadTdxPolicy (str "tdx_policy.td_attributes"));
  m0 ← decode_policy_hex 48 (str "tdx_policy.rt_mr0") (Wire.rt_mr0 dto);
  m1 ← decode_policy_hex 48 (str "tdx_policy.rt_mr1") (Wire.rt_mr1 dto);
  m2 ← decode_policy_hex 48 (str "tdx_policy.rt_mr2") (Wire.rt_mr2 dto);
  m3 ← decode_policy_hex 48 (str "tdx_policy.rt_mr3") (Wire.rt_mr3 dto);
  _ ← ensure (negb (all_zero m0)) (BadTdxPolicy (str "tdx_policy.rt_mr0"));
  _ ← ensure (negb (all_zero m1)) (BadTdxPolicy (str "tdx_policy.rt_mr1"));
  _ ← ensure (negb (all_zero m2)) (BadTdxPolicy (str "tdx_policy.rt_mr2"));
  _ ← ensure (negb (all_zero m3)) (BadTdxPolicy (str "tdx_policy.rt_mr3"));
  xf ← decode_policy_hex 8 (str "tdx_policy.xfam") (Wire.xfam dto);
  ci ← decode_policy_hex 48 (str "tdx_policy.mr_config_id") (Wire.mr_config_id dto);
  ow ← decode_policy_hex 48 (str "tdx_policy.mr_owner") (Wire.mr_owner dto);
  oc ← decode_policy_hex 48 (str "tdx_policy.mr_owner_config") (Wire.mr_owner_config dto);
  sv ← match Wire.mr_service_td dto with
       | Some v => s ← decode_policy_hex 48 (str "tdx_policy.mr_service_td") v; Ok (Some s)
       | None => Ok None
       end;
  Ok {| Core.td_attributes := td; Core.xfam := xf; Core.mr_config_id := ci;
        Core.mr_owner := ow; Core.mr_owner_config := oc; Core.rt_mr0 := m0;
        Core.rt_mr1 := m1; Core.rt_mr2 := m2; Core.rt_mr3 := m3; Core.mr_service_td := sv |}.

(** A 32-byte field as hex text, trimmed. *)
Definition hex_array32 (text : bytes) (not_hex width : HopFault) : result HopFault bytes :=
  b ← ok_or (from_hex (trim text)) not_hex;
  _ ← ensure (length b =? 32)%nat width;
  Ok b.

Definition opt_hex32 (text : option bytes) (not_hex width : HopFault) : result HopFault (option bytes) :=
  match text with Some t => Some <$> hex_array32 t not_hex width | None => Ok None end.

Definition floor_from_wire (f : Wire.SevSnpTcbFloor) : SevSnpTcbFloor := {|
  fl_fmc := Wire.fmc f; fl_bootloader := Wire.bootloader f; fl_tee := Wire.tcb_tee f; fl_snp := Wire.snp f;
  fl_microcode := Wire.microcode f |}.

Definition hop_grant_of (token nonce : option bytes) : result HopFault (option Grant) :=
  match token, nonce with
  | Some token_hex, Some nonce_hex =>
      token ← ok_or (from_hex (trim token_hex)) GrantHex;
      nonce ← hex_array32 nonce_hex NonceHex NonceWidth;
      Ok (Some {| g_token := token; g_nonce := nonce |})
  | None, None => Ok None
  | _, _ => Err GrantHalf
  end.

Definition hop_tdx_policy_of (tee : Tee) (p : option Wire.TdxPolicy) : result HopFault (option Core.TdxPolicy) :=
  match tee, p with
  | Tdx, Some p => Some <$> tdx_policy_from_wire p
  | Tdx, None => Err NoTdxPolicy
  | SevSnp, Some _ => Err TdxPolicyForSnp
  | SevSnp, None => Ok None
  end.

Definition hop_to_endpoint (release : bool) (h : Wire.Hop) : result HopFault NodeEndpoint :=
  measurement ← ok_or (from_hex (trim (Wire.hop_measurement h))) MeasurementHex;
  let tee := core_tee (Wire.hop_tee h) in
  spki ← match Wire.hop_tls_spki_sha256 h with
         | Some t => Some <$> hex_array32 t SpkiHex SpkiWidth
         | None => if release then Err SpkiMissing else Ok None
         end;
  wg ← opt_hex32 (Wire.hop_wg_pub h) WgHex WgWidth;
  grant ← hop_grant_of (Wire.hop_grant h) (Wire.hop_grant_nonce h);
  _ ← ensure (negb (bool_decide (tee = Tdx) && bool_decide (is_Some (Wire.hop_min_tcb_sevsnp h)))) FloorForTdx;
  policy ← hop_tdx_policy_of tee (Wire.hop_tdx_policy h);
  log_key ← opt_hex32 (Wire.hop_transparency_log_key h) LogKeyHex LogKeyWidth;
  Ok {| ep_host := Wire.hop_host h; ep_port := Wire.hop_port h; ep_kind := KMasque; ep_wg_pub := wg;
        ep_expected := Some {| ae_tee := tee; ae_measurement := measurement; ae_tls_spki_sha256 := spki;
          ae_min_tcb_sevsnp := floor_from_wire <$> Wire.hop_min_tcb_sevsnp h; ae_tdx_policy := policy;
          ae_transparency_log_key := log_key |};
        ep_grant := grant |}.

(** One turn of the loop of [cross_check_trust]. *)
Definition cross_check_hop (client_pins : list bytes) (client_log_key : option bytes) (ep : NodeEndpoint) :
    result HopFault unit :=
  e ← ok_or (ep_expected ep) NoExpectation;
  _ ← ensure (bool_decide (client_pins = []) || bool_decide (ae_measurement e ∈ client_pins)) NotPinned;
  match client_log_key with
  | Some key => ensure (bool_decide (ae_transparency_log_key e = Some key)) OtherLogKey
  | None => Ok tt
  end.

Definition cross_check_trust (endpoints : list NodeEndpoint) (client_pins : list bytes)
    (client_log_key : option bytes) : result PathFault unit :=
  _ ← mapi (λ i ep, map_err (HopRefused i) (cross_check_hop client_pins client_log_key ep)) 0 endpoints;
  Ok tt.

Section Response.
Context `{Hjson : PathJson}.

Definition path_from_response_with_trust (release : bool) (body : bytes) (client_pins : list bytes)
    (client_log_key : option bytes) : result PathFault (list NodeEndpoint) :=
  hops ← ok_or (json_from_slice body) BodyUnreadable;
  _ ← ensure (negb (length hops <? MIN_HOPS)%nat) EmptyPath;
  _ ← ensure (negb (MAX_HOPS <? length hops)%nat) TooManyHops;
  _ ← ensure (negb (release && (length hops =? 1)%nat)) SingleHop;
  endpoints ← mapi (λ i h, map_err (HopRefused i) (hop_to_endpoint release h)) 0 hops;
  _ ← cross_check_trust endpoints client_pins client_log_key;
  Ok endpoints.

(** The body as it arrives in chunks, capped. *)
Fixpoint read_body (body : bytes) (chunks : list bytes) : result PathFault bytes :=
  match chunks with
  | [] => Ok body
  | c :: chunks =>
      if MAX_BODY <? Z.of_nat (length body + length c) then Err BodyTooLong else read_body (body ++ c) chunks
  end.

(** What [redeem_path] does with the answer of the Coordinator. *)
Definition redeem_response (release : bool) (status : Z) (chunks : list bytes) (client_pins : list bytes)
    (client_log_key : option bytes) : result PathFault (list NodeEndpoint) :=
  _ ← ensure ((200 <=? status) && (status <? 300)) (Rejected status);
  body ← read_body [] chunks;
  path_from_response_with_trust release body client_pins client_log_key.

End Response.

(** ** Opening a tunnel ([masque/mod.rs]) *)

Definition IP_FULL_TUNNEL_TEMPLATE : bytes := str "/.well-known/masque/ip/*/*/".

Definition connect_ip_headers (authority : bytes) (g : Grant) : list Header :=
  [(str ":method", str "CONNECT"); (str ":protocol", str "connect-ip"); (str ":scheme", str "https");
   (str ":authority", authority); (str ":path", IP_FULL_TUNNEL_TEMPLATE); (str "capsule-protocol", str "?1");
   (ATTEST_NONCE_HEADER, to_hex (g_nonce g))] ++
  (if bool_decide (g_token g = []) then [] else [(TUNNEL_GRANT_HEADER, to_hex (g_token g))]).

Definition policy_for (target : NodeEndpoint) : option AppraisalPolicy :=
  (λ e, {| ap_tee := ae_tee e; expected_measurement := ae_measurement e;
           ap_tls_spki_sha256 := ae_tls_spki_sha256 e; allow_tcb_out_of_date := false;
           ap_min_tcb_sevsnp := ae_min_tcb_sevsnp e; ap_tdx_policy := ae_tdx_policy e;
           ap_transparency_log_key := ae_transparency_log_key e |}) <$> ep_expected target.

Inductive GateError :=
  | Unattested | NoSpkiPin | NoCertificate | BadCertificate | NoReport | BadReportHeader
  | Refused (e : AttestError) | ConnectRefused (code : option Z).

Definition unattested_gate (release allow_unattested : bool) : result GateError unit :=
  if release then Err Unattested else if allow_unattested then Ok tt else Err Unattested.

(** [x509-parser]: the public key of a certificate. *)
Class X509 := spki_of : bytes → option bytes.

Section Gate.
Context `{Sha256, Sha384, Sha512, Base64, Ed25519, SevCrate, DcapCrate, X509}.

Definition attest_peer (release : bool) (peer_cert : option bytes) (headers : list Header)
    (policy : option AppraisalPolicy) (allow_unattested : bool) (nonce : bytes) (clock : option Z) :
    result GateError unit :=
  match policy with
  | None => unattested_gate release allow_unattested
  | Some policy =>
      _ ← ensure (negb (release && bool_decide (ap_tls_spki_sha256 policy = None))) NoSpkiPin;
      cert ← ok_or peer_cert NoCertificate;
      spki ← ok_or (spki_of cert) BadCertificate;
      report_hex ← ok_or (header_value headers ATTEST_REPORT_HEADER) NoReport;
      evidence ← ok_or (from_hex report_hex) BadReportHeader;
      _ ← map_err Refused (appraise evidence spki policy nonce clock);
      Ok tt
  end.

Definition status_of (headers : list Header) : option Z :=
  v ← header_value headers (str ":status"); if is_utf8 v then parse_uint U16_MAX v else None.

Definition assigned_ip_of (headers : list Header) : option Ipv4Addr :=
  v ← header_value headers ASSIGNED_IP_HEADER; if is_utf8 v then parse_ipv4 (trim v) else None.

(** The response headers of the CONNECT-IP stream: the tunnel is ready, with the address the
    node assigned, or the connection is closed. *)
Definition on_connect_response (release : bool) (peer_cert : option bytes) (headers : list Header)
    (policy : option AppraisalPolicy) (allow_unattested : bool) (nonce : bytes) (clock : option Z) :
    result GateError (option Ipv4Addr) :=
  match status_of headers with
  | Some code =>
      if (200 <=? code) && (code <? 300) then
        _ ← attest_peer release peer_cert headers policy allow_unattested nonce clock;
        Ok (assigned_ip_of headers)
      else Err (ConnectRefused (Some code))
  | None => Err (ConnectRefused None)
  end.

End Gate.

(** ** What a client accepts *)

Lemma mapi_Ok {A B E} (f : nat → A → result E B) i l ys :
  mapi f i l = Ok ys →
  length ys = length l ∧
  ∀ k x, l !! k = Some x → ∃ y, ys !! k = Some y ∧ f (i + k)%nat x = Ok y.
Proof.
  revert i ys. induction l as [|a l IH]; intros i ys H; cbn in H.
  - by injection H as <-.
  - apply bind_Ok in H as (y & Hy & (ys' & Hys & H)%bind_Ok). injection H as <-.
    destruct (IH _ _ Hys) as [Hl Hk]. split; [cbn; congruence|].
    intros [|k] x Hx; cbn in Hx; [injection Hx as <-; exists y; by rewrite Nat.add_0_r|].
    destruct (Hk _ _ Hx) as (z & Hz & Hf). exists z. split; [done|]. by rewrite <- Nat.add_succ_comm.
Qed.

Lemma mapi_total {A B E} (f : nat → A → result E B) i l :
  (∀ j x, l !! j = Some x → ∃ y, f (i + j)%nat x = Ok y) → ∃ ys, mapi f i l = Ok ys.
Proof.
  revert i. induction l as [|x l IH]; intros i H; cbn; [by eexists|].
  destruct (H 0%nat x eq_refl) as [y Hy]. rewrite Nat.add_0_r in Hy. rewrite Hy, Ok_bind.
  destruct (IH (S i)) as [ys ->].
  - intros j z Hz. destruct (H (S j) z Hz) as [w Hw]. rewrite Nat.add_succ_r in Hw. eauto.
  - rewrite Ok_bind. by eexists.
Qed.

(** What the client knows of an endpoint it accepts in a release build. *)
Record endpoint_ok (pins : list bytes) (log_key : option bytes) (ep : NodeEndpoint) (e : AttestExpectation) : Prop := {
  eo_expected : ep_expected ep = Some e;
  eo_pinned : pins ≠ [] → ae_measurement e ∈ pins;
  eo_log : ∀ k, log_key = Some k → ae_transparency_log_key e = Some k;
  eo_spki : ∃ pin, ae_tls_spki_sha256 e = Some pin ∧ length pin = 32%nat;
  eo_tdx : ae_tee e = Tdx ↔ is_Some (ae_tdx_policy e);
  eo_workload : ∀ p, ae_tdx_policy e = Some p → workload_ok p;
  eo_grant : ∀ g, ep_grant ep = Some g → length (g_nonce g) = 32%nat;
}.

Lemma tdx_policy_from_wire_ok dto p : tdx_policy_from_wire dto = Ok p → workload_ok p.
Proof. unfold tdx_policy_from_wire. intros H. inv_ok H. injection H as <-. reflect_bools. by constructor. Qed.

Lemma hex_array32_ok t e1 e2 b : hex_array32 t e1 e2 = Ok b ↔ from_hex (trim t) = Some b ∧ length b = 32%nat.
Proof.
  unfold hex_array32. split.
  - intros H. inv_ok H. injection H as <-. by reflect_bools.
  - intros [-> Hl]. cbn. by rewrite Hl.
Qed.

Lemma fmap_Ok {E A B} (f : A → B) (r : result E A) b : f <$> r = Ok b ↔ ∃ a, r = Ok a ∧ b = f a.
Proof. destruct r; cbn; split; [intros [= <-]; eauto|by intros (? & [= <-] & ->)|done|by intros (? & ? & _)]. Qed.

Lemma hop_to_endpoint_release pins log_key h ep :
  hop_to_endpoint true h = Ok ep → cross_check_hop pins log_key ep = Ok tt → ∃ e, endpoint_ok pins log_key ep e.
Proof.
  unfold hop_to_endpoint. intros H Hc. inv_ok H. injection H as <-. unfold cross_check_hop in Hc. inv_ok Hc.
  cbn in *. simplify_eq. eexists. split; cbn.
  - done.
  - intros Hne. rename select (_ || _ = true) into Hp. apply orb_true_iff in Hp as [Hp|Hp];
      by apply bool_decide_eq_true in Hp.
  - intros k ->. by apply ensure_Ok, bool_decide_eq_true in Hc.
  - destruct (Wire.hop_tls_spki_sha256 h); [|done].
    match goal with K : Some <$> hex_array32 _ SpkiHex _ = Ok _ |- _ => apply fmap_Ok in K as (a & [_ Ha]%hex_array32_ok & ->) end.
    eauto.
  - rename select (hop_tdx_policy_of _ _ = _) into Hp. unfold hop_tdx_policy_of in Hp.
    destruct (core_tee _), (Wire.hop_tdx_policy h); try done; [injection Hp as <-; split; [done|by intros []]|].
    apply fmap_Ok in Hp as (? & _ & ->). by split; [eexists|].
  - intros p Hpol. cbn in Hpol. subst x4. rename select (hop_tdx_policy_of _ _ = _) into Hp. unfold hop_tdx_policy_of in Hp.
    destruct (core_tee _), (Wire.hop_tdx_policy h); try done.
    apply fmap_Ok in Hp as (? & Hq & [= ->]). by eapply tdx_policy_from_wire_ok.
  - intros g Hgr. cbn in Hgr. subst x2. rename select (hop_grant_of _ _ = _) into Hg. unfold hop_grant_of in Hg.
    destruct (Wire.hop_grant h), (Wire.hop_grant_nonce h); try done. inv_ok Hg. injection Hg as <-. cbn.
    rename select (hex_array32 _ _ _ = Ok _) into Hn. by apply hex_array32_ok in Hn as [_ ?].
Qed.

Section Trust.
Context `{Hjson : PathJson}.

Lemma read_body_ok body chunks b :
  read_body body chunks = Ok b → b = body ++ concat chunks ∧ (chunks ≠ [] → Z.of_nat (length b) ≤ MAX_BODY).
Proof.
  revert body. induction chunks as [|c chunks IH]; intros body; cbn.
  - intros [= <-]. by rewrite app_nil_r.
  - destruct (Z.ltb_spec MAX_BODY (Z.of_nat (length body + length c))); [done|]. intros [-> Hl]%IH.
    rewrite <- app_assoc. split; [done|]. intros _. destruct chunks; [cbn; rewrite app_nil_r, length_app; lia|].
    rewrite <- app_assoc in Hl. by apply Hl.
Qed.

Lemma redeem_response_ok release status chunks pins log_key eps :
  redeem_response release status chunks pins log_key = Ok eps →
  ∃ hops, json_from_slice (concat chunks) = Some hops ∧ (1 ≤ length hops ≤ MAX_HOPS)%nat ∧
    (release = true → (2 ≤ length hops)%nat) ∧ length eps = length hops ∧
    ∀ i h, hops !! i = Some h → ∃ ep, eps !! i = Some ep ∧
      hop_to_endpoint release h = Ok ep ∧ cross_check_hop pins log_key ep = Ok tt.
Proof.
  unfold redeem_response, path_from_response_with_trust, cross_check_trust. intros H. inv_ok H. reflect_bools.
  injection H as <-. rename select (read_body _ _ = _) into Hb. apply read_body_ok in Hb as [-> _]. cbn [app] in *.
  match goal with K : json_from_slice _ = Some ?hops |- _ => exists hops; split; [exact K|] end. unfold MIN_HOPS in *.
  match goal with K : mapi _ 0 ?l = Ok ?eps, K' : mapi _ 0 ?eps = Ok _ |- _ =>
    apply mapi_Ok in K as [Hlen Hm]; apply mapi_Ok in K' as [_ Hc] end.
  split_and!; [lia|lia| |lia|].
  - intros ->. rename select (true && _ = false) into Hone. apply Nat.eqb_neq in Hone. lia.
  - intros i h Hi. destruct (Hm i h Hi) as (ep & Hep & Hok%map_err_Ok). destruct (Hc i ep Hep) as ([] & _ & Hck%map_err_Ok).
    eauto.
Qed.

Lemma read_body_total body chunks :
  Z.of_nat (length (body ++ concat chunks)) ≤ MAX_BODY → read_body body chunks = Ok (body ++ concat chunks).
Proof.
  revert body. induction chunks as [|c chunks IH]; intros body; cbn.
  - by rewrite app_nil_r.
  - intros Hl. rewrite (proj2 (Z.ltb_ge _ _)) by (rewrite !length_app in Hl; lia).
    rewrite IH, <- app_assoc; [done|]. by rewrite <- app_assoc.
Qed.

(** An answer whose hops all convert and pass the cross-check is accepted. *)
Lemma redeem_response_total status chunks pins log_key hops :
  200 ≤ status < 300 → json_from_slice (concat chunks) = Some hops → Z.of_nat (length (concat chunks)) ≤ MAX_BODY →
  (2 ≤ length hops ≤ MAX_HOPS)%nat →
  (∀ i h, hops !! i = Some h → ∃ ep, hop_to_endpoint true h = Ok ep ∧ cross_check_hop pins log_key ep = Ok tt) →
  ∃ eps, redeem_response true status chunks pins log_key = Ok eps.
Proof.
  intros Hs Hj Hl Hn Hh. unfold redeem_response, path_from_response_with_trust, cross_check_trust.
  rewrite (proj2 (Z.leb_le _ _)), (proj2 (Z.ltb_lt _ _)) by lia. cbn [andb]. ok_step.
  rewrite read_body_total by done. cbn [app]. rewrite Ok_bind, Hj. unfold MIN_HOPS. ok_step.
  rewrite (proj2 (Nat.ltb_ge _ 1)) by lia. cbn [negb]. ok_step. rewrite (proj2 (Nat.ltb_ge _ _)) by lia. cbn [negb]. ok_step.
  rewrite (proj2 (Nat.eqb_neq _ _)) by lia. cbn [negb]. ok_step.
  destruct (mapi_total (λ i h, map_err (HopRefused i) (hop_to_endpoint true h)) 0 hops) as [eps Heps].
  { intros j h Hjh. destruct (Hh j h Hjh) as (ep & -> & _). by exists ep. }
  rewrite Heps, Ok_bind. apply mapi_Ok in Heps as [Hlen Heps].
  destruct (mapi_total (λ i ep, map_err (HopRefused i) (cross_check_hop pins log_key ep)) 0 eps) as [us ->]; [|by eexists].
  intros j ep Hep. destruct (lookup_lt_is_Some_2 hops j) as [h Hjh]; [apply lookup_lt_Some in Hep; lia|].
  destruct (Hh j h Hjh) as (ep' & He & Hc). destruct (Heps j h Hjh) as (ep2 & Hep2 & Hok%map_err_Ok).
  exists tt. assert (ep' = ep) as -> by congruence. by rewrite Hc.
Qed.

End Trust.

Section Tunnel.
Context `{Hsha : Sha256, H384 : Sha384, H512 : Sha512, Hb64 : Base64, Hed : Ed25519, Hsev : SevCrate, Hdcap : DcapCrate,
  Hx509 : X509}.

#[local] Opaque appraise.

(** The gate, exactly: what a release build needs to call a tunnel ready. *)
Lemma on_connect_response_release cert headers policy allow nonce clock a :
  on_connect_response true cert headers policy allow nonce clock = Ok a ↔
  ∃ p pin c spki hex evidence code status,
    policy = Some p ∧ ap_tls_spki_sha256 p = Some pin ∧ cert = Some c ∧ spki_of c = Some spki ∧
    status_of headers = Some code ∧ 200 ≤ code < 300 ∧
    header_value headers ATTEST_REPORT_HEADER = Some hex ∧ from_hex hex = Some evidence ∧
    acceptable evidence spki p nonce clock status ∧ a = assigned_ip_of headers.
Proof.
  unfold on_connect_response, attest_peer, unattested_gate. split.
  - destruct (status_of headers) as [code|] eqn:Es; [|done].
    destruct ((200 <=? code) && (code <? 300)) eqn:Ec; [|done]. intros H.
    destruct policy as [p|]; [|by inv_ok H]. inv_ok H. injection H as <-. reflect_bools.
    rename select (appraise _ _ _ _ _ = _) into Ha. apply appraise_spec in Ha as [Hacc _].
    rename select (true && _ = false) into Hp. apply bool_decide_eq_false in Hp.
    destruct (ap_tls_spki_sha256 p) as [pin|] eqn:Epin; [|done].
    eexists p, pin, _, _, _, _, code, _. by split_and!.
  - intros (p & pin & c & spki & hex & ev & code & st & -> & Hpin & -> & Hspki & -> & Hc & Hh & Hx & Hacc & ->).
    rewrite (proj2 (Z.leb_le _ _)), (proj2 (Z.ltb_lt _ _)) by lia. cbn [andb]. rewrite Hpin.
    rewrite bool_decide_false by done. cbn [negb]. ok_step. rewrite Hspki. ok_step. rewrite Hh. ok_step. rewrite Hx.
    ok_step. rewrite (proj2 (appraise_spec _ _ _ _ _ {| vd_tee := ap_tee p; vd_measurement := expected_measurement p;
      vd_tcb_status := st |})) by done. done.
Qed.

Context `{Hjson : PathJson}.

(** C2.  No tunnel on the Coordinator's word alone: when a release client brings up a tunnel to a
    hop of a redeemed path, the path had two to eight hops, the node's live key hashes to the
    hop's pin, and the node's evidence is acceptable for that key and this connection's nonce on
    an up-to-date platform; its measurement is one of those the client pins, if it pins any, and
    a proof shows it in the log the client pins, if it pins one.  A client without pins takes the
    measurement from the answer. *)
Theorem no_unpinned_tunnel status chunks pins log_key eps ep cert headers allow nonce clock a :
  redeem_response true status chunks pins log_key = Ok eps → ep ∈ eps →
  on_connect_response true cert headers (policy_for ep) allow nonce clock = Ok a →
  (2 ≤ length eps ≤ 8)%nat ∧
  ∃ e policy c spki hex evidence,
    endpoint_ok pins log_key ep e ∧ policy_for ep = Some policy ∧
    (pins ≠ [] → expected_measurement policy ∈ pins) ∧
    (∀ k, log_key = Some k → ap_transparency_log_key policy = Some k) ∧
    cert = Some c ∧ spki_of c = Some spki ∧ ap_tls_spki_sha256 policy = Some (sha256 spki) ∧
    header_value headers ATTEST_REPORT_HEADER = Some hex ∧ from_hex hex = Some evidence ∧
    acceptable evidence spki policy nonce clock UpToDate.
Proof.
  intros Hr Hep Hg. apply redeem_response_ok in Hr as (hops & _ & Hlen & H2 & Hl & Hhop). specialize (H2 eq_refl).
  unfold MAX_HOPS in Hlen. split; [lia|]. apply list_elem_of_lookup in Hep as [i Hi].
  destruct (lookup_lt_is_Some_2 hops i) as [h Hh]; [apply lookup_lt_Some in Hi; lia|].
  destruct (Hhop i h Hh) as (ep' & Hi' & He & Hc). assert (ep' = ep) as -> by congruence.
  destruct (hop_to_endpoint_release _ _ _ _ He Hc) as [e Hok]. pose proof Hok as [Hex Hpin Hlog _ _ _ _].
  apply on_connect_response_release in Hg as (p & pin & c & spki & hex & ev & code & st & Hp & Hsp & -> & Hk & _ & _ & Hhv & Hx & Hacc & _).
  exists e, p, c, spki, hex, ev. unfold policy_for in Hp. rewrite Hex in Hp. injection Hp as <-. cbn in Hsp.
  assert (st = UpToDate) as -> by (by destruct (ac_status _ _ _ _ _ _ Hacc)).
  split_and!; try done.
  - unfold policy_for. by rewrite Hex.
  - cbn. rewrite Hsp. f_equal. symmetry. by apply (ac_spki _ _ _ _ _ _ Hacc).
Qed.

End Tunnel.

(** ** The Coordinator's answer, as the client reads it *)

Lemma hex_trim b : trim (to_hex b) = to_hex b.
Proof.
  apply trim_graphic. eapply Forall_impl; [apply to_hex_lower|]. intros c Hc.
  unfold graphic. unfold is_lower_hex, is_ascii_digit in Hc.
  rewrite orb_true_iff, !in_range_iff in Hc. apply in_range_iff. lia.
Qed.

Lemma hex_array32_hex b e1 e2 : length b = 32%nat → hex_array32 (to_hex b) e1 e2 = Ok b.
Proof. intros Hl. apply hex_array32_ok. by rewrite hex_trim, from_hex_to_hex. Qed.

Lemma decode_policy_hex_hex n f b : length b = n → decode_policy_hex n f (to_hex b) = Ok b.
Proof.
  intros <-. unfold decode_policy_hex. rewrite length_to_hex, Nat.eqb_refl.
  rewrite (proj2 (forallb_Forall_true _ _) (to_hex_lower b)). cbn [negb orb]. by rewrite from_hex_to_hex, Nat.eqb_refl.
Qed.

(** The client reads back the policy the Coordinator validated. *)
Lemma tdx_policy_roundtrip p : policy_ok p → tdx_policy_from_wire (tdx_policy_to_wire p) = Ok p.
Proof.
  intros []. unfold tdx_policy_from_wire, tdx_policy_to_wire, encode_lower_hex. cbn.
  repeat match goal with K : Forall _ (_ :: _) |- _ => apply Forall_cons in K as [[? ?] K] end.
  assert (Hz : ∀ m, (∃ b, b ∈ m ∧ b ≠ x00) → all_zero m = false) by (intros; by apply all_zero_false).
  rewrite !decode_policy_hex_hex by done. cbn.
  assert (debug_bit (Core.td_attributes p) = false) as ->.
  { unfold debug_bit, at_. destruct (Core.td_attributes p) as [|b l]; [done|]. specialize (po_debug b eq_refl).
    cbn. change 1 with (Z.ones 1). rewrite Z.land_ones by lia. change (2 ^ 1) with 2.
    rewrite Zmod_odd, <- Z.bit0_odd, po_debug. done. }
  rewrite !Hz by done. cbn. destruct (Core.mr_service_td p) as [m|] eqn:Em; cbn.
  - rewrite decode_policy_hex_hex by auto. cbn. destruct p. cbn in *. by subst.
  - destruct p. cbn in *. by subst.
Qed.

(** The endpoint says what the registry says of the node, and carries this grant. *)
Record describes (n : RegistryNode) (g : Grant) (ep : NodeEndpoint) : Prop := {
  ds_host : ep_host ep = host n;
  ds_port : ep_port ep = port n;
  ds_wg : to_hex <$> ep_wg_pub ep = wg_pub n;
  ds_grant : ep_grant ep = Some g;
  ds_expected : ∃ e, ep_expected ep = Some e ∧ ae_tee e = core_tee (reg_tee n) ∧
    to_hex (ae_measurement e) = reg_measurement n ∧ to_hex <$> ae_tls_spki_sha256 e = reg_tls_spki_sha256 n ∧
    ae_min_tcb_sevsnp e = floor_from_wire <$> min_tcb_sevsnp n ∧ ae_tdx_policy e = tdx_policy n ∧
    to_hex <$> ae_transparency_log_key e = transparency_log_key n;
}.

Lemma opt_hex32_hex v e1 e2 :
  (∀ t, v = Some t → hex_of 32 t) → ∃ b, opt_hex32 v e1 e2 = Ok b ∧ to_hex <$> b = v.
Proof.
  intros Hv. destruct v as [t|]; [|by exists None]. destruct (Hv t eq_refl) as (b & Hl & ->).
  exists (Some b). cbn. by rewrite hex_array32_hex.
Qed.

Lemma hop_describes n g :
  node_ok n → is_Some (reg_tls_spki_sha256 n) → length (g_nonce g) = 32%nat →
  ∃ ep, hop_to_endpoint true (set_grant (to_hop n) (to_hex (g_token g)) (to_hex (g_nonce g))) = Ok ep ∧
    describes n g ep.
Proof.
  intros Hn [spki Hs] Hg. destruct (no_measurement _ Hn) as (m & Hml & Hm).
  destruct (no_spki _ Hn _ Hs) as (sp & Hsl & ->).
  destruct (opt_hex32_hex (wg_pub n) WgHex WgWidth (no_wg _ Hn)) as (wg & Hwg & Hwg').
  destruct (opt_hex32_hex (transparency_log_key n) LogKeyHex LogKeyWidth (no_log_key _ Hn)) as (lk & Hlk & Hlk').
  assert (Hpol : hop_tdx_policy_of (core_tee (reg_tee n)) (tdx_policy_to_wire <$> tdx_policy n) = Ok (tdx_policy n)).
  { pose proof (no_tdx _ Hn) as Ht. pose proof (no_policy _ Hn) as Hp. destruct (tdx_policy n) as [p|].
    - rewrite (proj2 Ht) by eauto. cbn. by rewrite tdx_policy_roundtrip by auto.
    - destruct (reg_tee n); [done|]. destruct (proj1 Ht eq_refl). done. }
  unfold hop_to_endpoint. cbn [set_grant to_hop Wire.hop_measurement Wire.hop_tee Wire.hop_tls_spki_sha256
    Wire.hop_wg_pub Wire.hop_grant Wire.hop_grant_nonce Wire.hop_min_tcb_sevsnp Wire.hop_tdx_policy
    Wire.hop_transparency_log_key Wire.hop_host Wire.hop_port].
  rewrite Hm, hex_trim, from_hex_to_hex, ok_or_Some, Ok_bind, Hs, hex_array32_hex by done. cbn [fmap result_fmap].
  rewrite Ok_bind, Hwg, Ok_bind. unfold hop_grant_of.
  rewrite hex_trim, from_hex_to_hex, ok_or_Some, Ok_bind, hex_array32_hex, !Ok_bind by done.
  assert (bool_decide (core_tee (reg_tee n) = Tdx) && bool_decide (is_Some (min_tcb_sevsnp n)) = false) as ->.
  { pose proof (no_floor _ Hn) as Hf. destruct (reg_tee n); [done|]. rewrite Hf by done. apply andb_false_r. }
  cbn [negb]. rewrite ensure_true, Ok_bind, Hpol, Ok_bind, Hlk, Ok_bind. eexists. split; [done|].
  constructor; cbn; [done..|by destruct g|]. eexists. split; [done|]. cbn. by rewrite Hs.
Qed.

(** The pins of a client agree with what the registry says of a node. *)
Definition pins_agree (pins : list bytes) (log_key : option bytes) (n : RegistryNode) : Prop :=
  (pins = [] ∨ ∃ m, m ∈ pins ∧ reg_measurement n = to_hex m) ∧
  (∀ k, log_key = Some k → transparency_log_key n = Some (to_hex k)).

Lemma describes_cross_check pins log_key n g ep :
  pins_agree pins log_key n → describes n g ep → cross_check_hop pins log_key ep = Ok tt.
Proof.
  intros [Hp Hk] [_ _ _ _ (e & He & _ & Hm & _ & _ & _ & Hl)]. unfold cross_check_hop. rewrite He. ok_step.
  assert (bool_decide (pins = []) || bool_decide (ae_measurement e ∈ pins) = true) as ->.
  { destruct Hp as [->|(m & Hin & Hm')]; [done|]. rewrite Hm' in Hm. apply to_hex_inj in Hm as ->.
    rewrite (bool_decide_true (m ∈ pins)) by done. apply orb_true_r. }
  ok_step. destruct log_key as [k|]; [|done]. rewrite (Hk k eq_refl) in Hl.
  destruct (ae_transparency_log_key e) as [k'|]; [|done]. injection Hl as ->%to_hex_inj. by rewrite bool_decide_true.
Qed.

(** ** Witnesses *)

Section Witnesses.
Import Toy ToyLog ToyAttest ToyJson.

#[local] Instance toy_x509 : X509 := Some.

Definition w_hop : Wire.Hop := {|
  Wire.hop_host := str "192.0.2.7"; Wire.hop_port := 443; Wire.hop_tee := Wire.Tdx;
  Wire.hop_measurement := to_hex ToyAttest.w_measurement;
  Wire.hop_tls_spki_sha256 := Some (to_hex (sha256 ToyAttest.w_spki)); Wire.hop_wg_pub := None;
  Wire.hop_min_tcb_sevsnp := None;
  Wire.hop_tdx_policy := Some (tdx_policy_to_wire (observed_policy ToyAttest.w_body None));
  Wire.hop_transparency_log_key := Some (to_hex (vk_to_bytes (verifying_key log_sk)));
  Wire.hop_grant := None; Wire.hop_grant_nonce := None |}.

Definition w_chunks : list bytes := match json_to_vec [w_hop; w_hop] with Some b => [b] | None => [] end.
Definition w_client_pins : list bytes := [ToyAttest.w_measurement].
Definition w_eps : list NodeEndpoint :=
  match redeem_response true 200 w_chunks w_client_pins (Some (vk_to_bytes (verifying_key log_sk))) with
  | Ok eps => eps | Err _ => [] end.
Definition w_ep : NodeEndpoint := nth 0 w_eps
  {| ep_host := []; ep_port := 0; ep_kind := KMasque; ep_wg_pub := None; ep_expected := None; ep_grant := None |}.
Definition w_answer_headers : list Header :=
  [(str ":status", str "200"); (ASSIGNED_IP_HEADER, str "10.74.0.2"); (ATTEST_REPORT_HEADER, to_hex w_evidence)].

Lemma no_unpinned_tunnel_witness :
  ∃ policy evidence, policy_for w_ep = Some policy ∧ expected_measurement policy ∈ w_client_pins ∧
    ap_tls_spki_sha256 policy = Some (sha256 ToyAttest.w_spki) ∧
    acceptable evidence ToyAttest.w_spki policy ToyAttest.w_nonce (Some 1800000000) UpToDate.
Proof.
  destruct (no_unpinned_tunnel 200 w_chunks w_client_pins (Some (vk_to_bytes (verifying_key log_sk))) w_eps w_ep
    (Some ToyAttest.w_spki) w_answer_headers false ToyAttest.w_nonce (Some 1800000000)
    (Some (Ipv4 x0a x4a x00 x02)))
    as (_ & e & policy & c & spki & hex & evidence & _ & Hp & Hpin & _ & [= <-] & [= <-] & Hsp & _ & _ & Hacc).
  - vm_compute. reflexivity.
  - apply list_elem_of_lookup. exists 0%nat. vm_compute. reflexivity.
  - vm_compute. reflexivity.
  - exists policy, evidence. split_and!; [exact Hp|by apply Hpin|exact Hsp|exact Hacc].
Defined.

End Witnesses.
