(* ===== verification/PortalStore.v ===== *)
(** * The portal's account store ([crates/nil-portal/src/store/mod.rs], [memory.rs],
      [account/model.rs])

    Accounts, claimed payments, one-shot issuances, batch mints and mint quotas, with the
    encodings shared by the durable backends.  [StoreOp] has one constructor per method of the
    trait [Store]; [mem_op] is the in-memory store.  A backend may also fail, before or after
    the change took effect: [allowed] says what a caller can then observe, and the theorems
    hold for every sequence of operations it allows - the order in which concurrent requests
    reach the store. *)

From S2P Require Import Prelude.
From S2P Require Import Text.
From S2P Require Import Crypto.
From S2P Require Import Token.
From Stdlib Require Import Strings.Byte ZArith Lia.
From stdpp Require Import prelude gmap strings sorting.

Local Open Scope Z_scope.

(** ** Accounts *)

Inductive Entitlement := NoEntitlement | Active (until : Z) | Expired.

#[global] Instance Entitlement_eq_dec : EqDecision Entitlement.
Proof. solve_decision. Defined.

Definition resolved (e : Entitlement) (now : Z) : Entitlement :=
  match e with
  | Active until => if until <=? now then Expired else e
  | _ => e
  end.

Definition active_until (e : Entitlement) (now : Z) : option Z :=
  match resolved e now with Active until => Some until | _ => None end.

Record AccountRecord := {
  account_number : bytes;
  entitlement : Entitlement;
  auth_pubkey : bytes;
}.

Definition set_entitlement (r : AccountRecord) (e : Entitlement) : AccountRecord :=
  {| account_number := account_number r; entitlement := e; auth_pubkey := auth_pubkey r |}.

(** ** The text columns of the durable backends *)

Definition ent_str (e : Entitlement) : bytes :=
  match e with
  | NoEntitlement => str "none"
  | Active until => str "active:" ++ uint_to_string until
  | Expired => str "expired"
  end.

Definition strip_prefix (p s : bytes) : option bytes :=
  if starts_with p s then Some (drop (length p) s) else None.

Definition ent_from (s : bytes) : option Entitlement :=
  if decide (s = str "none") then Some NoEntitlement
  else if decide (s = str "expired") then Some Expired
  else if decide (s = str "active") then Some Expired
  else u ← strip_prefix (str "active:") s; until ← parse_uint U64_MAX u; Some (Active until).

Definition auth_str (pk : bytes) : bytes := hex32 pk.

Definition ZERO32 : bytes := replicate 32 x00.

Definition auth_from (s : bytes) : option bytes :=
  if decide (s = []) then Some ZERO32 else unhex32 s.

(** ** Sealed replay results *)

Inductive StoreError := Duplicate | Backend.

#[global] Instance StoreError_eq_dec : EqDecision StoreError.
Proof. solve_decision. Defined.

Definition RESULT_AAD_DOMAIN : bytes := str "nilvpn.portal-result.v1".
Definition RESULT_NONCE_LEN : nat := 12.
Definition RESULT_TAG_LEN : nat := 16.
Definition RAW_SIGNATURE_BYTES : nat := 256.
Definition MAX_RESULT_PLAINTEXT_BYTES : Z := 1 + Z.of_nat MAX_MINT_BATCH_SIZE * 256.

Inductive ResultKind := OneShot | SubscriptionMint.

Definition kind_byte (k : ResultKind) : byte :=
  match k with OneShot => x01 | SubscriptionMint => x02 end.

Definition result_aad (kind : ResultKind) (operation_key request_hash : bytes) (expires_at : Z) :
    bytes :=
  RESULT_AAD_DOMAIN ++ [kind_byte kind] ++ operation_key ++ request_hash ++ be_bytes 8 expires_at.

Definition plaintext_ok (p : bytes) : bool :=
  negb (bool_decide (p = [])) && (Z.of_nat (length p) <=? MAX_RESULT_PLAINTEXT_BYTES).

Section Cipher.
Context `{Haead : Aead}.

(** [nonce] is the outcome of the random read. *)
Definition result_seal (k : bytes) (kind : ResultKind) (operation_key request_hash : bytes)
    (expires_at : Z) (nonce : option bytes) (plaintext : bytes) : result StoreError bytes :=
  _ ← ensure (plaintext_ok plaintext) Backend;
  n ← ok_or nonce Backend;
  encrypted ← ok_or (aead_encrypt k n (result_aad kind operation_key request_hash expires_at) plaintext)
                    Backend;
  Ok (n ++ encrypted).

Definition result_open (k : bytes) (kind : ResultKind) (operation_key request_hash : bytes)
    (expires_at : Z) (stored : bytes) : result StoreError bytes :=
  _ ← ensure ((Z.of_nat (RESULT_NONCE_LEN + RESULT_TAG_LEN) <=? Z.of_nat (length stored))
              && (Z.of_nat (length stored)
                  <=? Z.of_nat (RESULT_NONCE_LEN + RESULT_TAG_LEN) + MAX_RESULT_PLAINTEXT_BYTES)) Backend;
  plaintext ← ok_or (aead_decrypt k (take RESULT_NONCE_LEN stored)
                       (result_aad kind operation_key request_hash expires_at)
                       (drop RESULT_NONCE_LEN stored)) Backend;
  _ ← ensure (plaintext_ok plaintext) Backend;
  Ok plaintext.

End Cipher.

Definition batch_size_ok (n : nat) : bool :=
  negb (n =? 0)%nat && (n <=? MAX_MINT_BATCH_SIZE)%nat.

Definition encode_mint_payload (signatures : list bytes) : result StoreError bytes :=
  _ ← ensure (batch_size_ok (length signatures)) Backend;
  _ ← ensure (forallb (λ s, length s =? RAW_SIGNATURE_BYTES)%nat signatures) Backend;
  Ok (z2b (Z.of_nat (length signatures)) :: concat signatures).

Fixpoint chunks_exact (n count : nat) (s : bytes) : list bytes :=
  match count with
  | 0%nat => []
  | S count => take n s :: chunks_exact n count (drop n s)
  end.

Definition decode_mint_payload (payload : bytes) : result StoreError (list bytes) :=
  match payload with
  | [] => Err Backend
  | c :: signatures =>
      let count := Z.to_nat (b2z c) in
      _ ← ensure (batch_size_ok count
                  && (Z.of_nat (length signatures) =? Z.of_nat count * Z.of_nat RAW_SIGNATURE_BYTES))
                 Backend;
      Ok (chunks_exact RAW_SIGNATURE_BYTES count signatures)
  end.

(** ** Results and quotas *)

Record MintQuota := {
  quota_key : bytes;
  window_start : Z;
  window_end : Z;
  cost : Z;           (* u32 *)
  max_units : Z;      (* u32 *)
}.

Definition is_well_formed (q : MintQuota) (now : Z) : bool :=
  (window_start q <=? now) && (now <? window_end q)
  && negb (cost q =? 0) && negb (max_units q =? 0).

Inductive SubscriptionActivation := NewlyActivated (until : Z) | ActivationReplay (until : Z).

Definition activation_until (a : SubscriptionActivation) : Z :=
  match a with NewlyActivated u | ActivationReplay u => u end.

Record IssuanceResult := { ir_request_hash : bytes; ir_blind_sig : bytes; ir_replay_until : Z }.
Record MintResult := { mr_request_hash : bytes; mr_blind_sigs : list bytes; mr_expires_at : Z }.

Inductive IssuanceLookup := IssuanceMissing | IssuanceReplay (blind_sig : bytes) | IssuanceConflict.
Inductive IssuanceCommit := IssuanceStored | IssuanceWinner (blind_sig : bytes) | IssuanceClash.
Inductive MintLookup := MintMissing | MintReplay (blind_sigs : list bytes) | MintConflict.
Inductive MintCommit :=
  | MintStored | MintWinner (blind_sigs : list bytes) | MintClash | MintQuotaExceeded.

(** ** The in-memory store *)

Record MemoryState := {
  accounts : gmap bytes AccountRecord;
  activation_results : gmap bytes Z;
  issuance_results : gmap bytes IssuanceResult;
  mint_results : gmap bytes MintResult;
  mint_quotas : gmap (bytes * Z) (Z * Z * Z);
}.

Definition store_empty : MemoryState :=
  {| accounts := ∅; activation_results := ∅; issuance_results := ∅; mint_results := ∅;
     mint_quotas := ∅ |}.

Definition with_accounts (st : MemoryState) a : MemoryState :=
  {| accounts := a; activation_results := activation_results st;
     issuance_results := issuance_results st; mint_results := mint_results st;
     mint_quotas := mint_quotas st |}.
Definition with_activations (st : MemoryState) a : MemoryState :=
  {| accounts := accounts st; activation_results := a;
     issuance_results := issuance_results st; mint_results := mint_results st;
     mint_quotas := mint_quotas st |}.
Definition with_issuances (st : MemoryState) i : MemoryState :=
  {| accounts := accounts st; activation_results := activation_results st;
     issuance_results := i; mint_results := mint_results st; mint_quotas := mint_quotas st |}.
Definition with_mints (st : MemoryState) m : MemoryState :=
  {| accounts := accounts st; activation_results := activation_results st;
     issuance_results := issuance_results st; mint_results := m; mint_quotas := mint_quotas st |}.
Definition with_quotas (st : MemoryState) q : MemoryState :=
  {| accounts := accounts st; activation_results := activation_results st;
     issuance_results := issuance_results st; mint_results := mint_results st; mint_quotas := q |}.

Definition mem_insert (st : MemoryState) (r : AccountRecord) : MemoryState * result StoreError unit :=
  if decide (is_Some (accounts st !! account_number r)) then (st, Err Duplicate)
  else (with_accounts st (<[account_number r := r]> (accounts st)), Ok tt).

Definition mem_get (st : MemoryState) (account : bytes) : option AccountRecord := accounts st !! account.

Definition mem_activate (st : MemoryState) (account activation_key : bytes) (now by_secs : Z) :
    MemoryState * option SubscriptionActivation :=
  match accounts st !! account with
  | None => (st, None)
  | Some rec =>
      match activation_results st !! activation_key with
      | Some until => (st, Some (ActivationReplay until))
      | None =>
          let base := default now (active_until (entitlement rec) now) in
          let until := u64_saturating_add base by_secs in
          (with_activations
             (with_accounts st (<[account := set_entitlement rec (Active until)]> (accounts st)))
             (<[activation_key := until]> (activation_results st)),
           Some (NewlyActivated until))
      end
  end.

Definition issuance_live (r : IssuanceResult) (request_hash : bytes) (now : Z) : bool :=
  bool_decide (ir_request_hash r = request_hash) && (now <? ir_replay_until r)
  && negb (bool_decide (ir_blind_sig r = [])).

Definition mem_lookup_issuance (st : MemoryState) (key request_hash : bytes) (now : Z) :
    IssuanceLookup :=
  match issuance_results st !! key with
  | None => IssuanceMissing
  | Some r =>
      if issuance_live r request_hash now then IssuanceReplay (ir_blind_sig r) else IssuanceConflict
  end.

Definition mem_commit_issuance (st : MemoryState) (key : bytes) (r : IssuanceResult) (now : Z) :
    MemoryState * result StoreError IssuanceCommit :=
  if (ir_replay_until r <=? now) || bool_decide (ir_blind_sig r = []) then (st, Err Backend)
  else match issuance_results st !! key with
  | Some existing =>
      (st, Ok (if issuance_live existing (ir_request_hash r) now
               then IssuanceWinner (ir_blind_sig existing) else IssuanceClash))
  | None => (with_issuances st (<[key := r]> (issuance_results st)), Ok IssuanceStored)
  end.

Definition issuance_due (now : Z) (r : IssuanceResult) : bool :=
  (ir_replay_until r <=? now) && negb (bool_decide (ir_blind_sig r = [])).

Definition scrub_issuance (now : Z) (r : IssuanceResult) : IssuanceResult :=
  if issuance_due now r
  then {| ir_request_hash := ir_request_hash r; ir_blind_sig := []; ir_replay_until := ir_replay_until r |}
  else r.

Definition mem_prune_issuance (st : MemoryState) (now : Z) : MemoryState * nat :=
  (with_issuances st (scrub_issuance now <$> issuance_results st),
   size (filter (λ kr : bytes * IssuanceResult, issuance_due now kr.2 = true) (issuance_results st))).

(** The row of a request, dropped first when it has expired. *)
Definition drop_expired_mint (st : MemoryState) (key : bytes) (now : Z) : MemoryState :=
  match mint_results st !! key with
  | Some r => if mr_expires_at r <=? now then with_mints st (delete key (mint_results st)) else st
  | None => st
  end.

Definition mint_matches (r : MintResult) (request_hash : bytes) : bool :=
  bool_decide (mr_request_hash r = request_hash) && negb (bool_decide (mr_blind_sigs r = [])).

Definition mem_lookup_mint (st : MemoryState) (key request_hash : bytes) (now : Z) :
    MemoryState * MintLookup :=
  let st := drop_expired_mint st key now in
  (st, match mint_results st !! key with
       | None => MintMissing
       | Some r => if mint_matches r request_hash then MintReplay (mr_blind_sigs r) else MintConflict
       end).

(** The charge: the new quota row, a refusal, or a window that conflicts with the stored one. *)
Definition charge_quota (st : MemoryState) (q : MintQuota) (now : Z) :
    result StoreError (option (Z * Z * Z)) :=
  if negb (is_well_formed q now) then Err Backend
  else if max_units q <? cost q then Ok None
  else
    let '(stored_end, used, stored_max) :=
      default (window_end q, 0, max_units q) (mint_quotas st !! (quota_key q, window_start q)) in
    if negb (stored_end =? window_end q) || negb (stored_max =? max_units q) then Err Backend
    else match u32_checked_add used (cost q) with
    | None => Ok None
    | Some next_used => if max_units q <? next_used then Ok None
                        else Ok (Some (window_end q, next_used, max_units q))
    end.

Definition mem_commit_mint (st : MemoryState) (key : bytes) (r : MintResult) (q : MintQuota)
    (now : Z) : MemoryState * result StoreError MintCommit :=
  if mr_expires_at r <=? now then (st, Err Backend)
  else
    let st := drop_expired_mint st key now in
    match mint_results st !! key with
    | Some existing =>
        (st, Ok (if mint_matches existing (mr_request_hash r)
                 then MintWinner (mr_blind_sigs existing) else MintClash))
    | None =>
        match charge_quota st q now with
        | Err e => (st, Err e)
        | Ok None => (st, Ok MintQuotaExceeded)
        | Ok (Some row) =>
            (with_quotas (with_mints st (<[key := r]> (mint_results st)))
               (<[(quota_key q, window_start q) := row]> (mint_quotas st)), Ok MintStored)
        end
    end.

Definition mem_prune_mint (st : MemoryState) (now : Z) : MemoryState * nat :=
  let mints := filter (λ kr : bytes * MintResult, now < mr_expires_at kr.2) (mint_results st) in
  let quotas := filter (λ kq : bytes * Z * (Z * Z * Z), now < kq.2.1.1) (mint_quotas st) in
  (with_quotas (with_mints st mints) quotas,
   ((size (mint_results st) - size mints) + (size (mint_quotas st) - size quotas))%nat).

(** ** The trait *)

Inductive StoreOp : Type → Type :=
  | InsertAccount (r : AccountRecord) : StoreOp unit
  | Get (account : bytes) : StoreOp (option AccountRecord)
  | ActivateSubscription (account activation_key : bytes) (now by_secs : Z) :
      StoreOp (option SubscriptionActivation)
  | LookupIssuance (key request_hash : bytes) (now : Z) : StoreOp IssuanceLookup
  | CommitIssuance (key : bytes) (r : IssuanceResult) (now : Z) : StoreOp IssuanceCommit
  | PruneIssuanceResults (now : Z) : StoreOp nat
  | LookupMint (key request_hash : bytes) (now : Z) : StoreOp MintLookup
  | CommitMint (key : bytes) (r : MintResult) (q : MintQuota) (now : Z) : StoreOp MintCommit
  | PruneMintResults (now : Z) : StoreOp nat.

Definition mem_op {R} (op : StoreOp R) (st : MemoryState) : MemoryState * result StoreError R :=
  match op in StoreOp R return MemoryState * result StoreError R with
  | InsertAccount r => mem_insert st r
  | Get account => (st, Ok (mem_get st account))
  | ActivateSubscription account key now by_secs =>
      let '(st, a) := mem_activate st account key now by_secs in (st, Ok a)
  | LookupIssuance key h now => (st, Ok (mem_lookup_issuance st key h now))
  | CommitIssuance key r now => mem_commit_issuance st key r now
  | PruneIssuanceResults now => let '(st, n) := mem_prune_issuance st now in (st, Ok n)
  | LookupMint key h now => let '(st, l) := mem_lookup_mint st key h now in (st, Ok l)
  | CommitMint key r q now => mem_commit_mint st key r q now
  | PruneMintResults now => let '(st, n) := mem_prune_mint st now in (st, Ok n)
  end.

(** What a caller of any backend may observe: the in-memory behaviour, or a backend failure
    with the change made or not. *)
Definition allowed {R} (op : StoreOp R) (st st' : MemoryState) (r : result StoreError R) : Prop :=
  (st', r) = mem_op op st ∨
  r = Err Backend ∧ (st' = st ∨ st' = (mem_op op st).1).

Class PortalStore (S : Type) := {
  StoreIo : Type;                                            (* what the backend's devices do *)
  store_io_ok : StoreIo → Prop;
  store_op : ∀ {R}, StoreOp R → StoreIo → S → S * result StoreError R;
  store_view : S → MemoryState;
  store_init : S → Prop;                                     (* a first start *)
  store_restart : S → S → Prop;                              (* what may be found after a crash *)
}.

(** ** The encodings are read back as written *)

Definition ent_ok (e : Entitlement) : Prop :=
  match e with Active until => u64 until | _ => True end.

Lemma ent_from_str e : ent_ok e → ent_from (ent_str e) = Some e.
Proof.
  destruct e as [|until|]; [done| |done]. intros Hu. unfold ent_ok in Hu. unfold ent_from, ent_str.
  assert (Hne : ∀ c, (length c ≤ 7)%nat → str "active:" ++ uint_to_string until ≠ c).
  { intros c Hc <-. rewrite length_app in Hc.
    pose proof (dec_digits_nonempty 20 until ltac:(lia)). unfold uint_to_string in Hc. change (length (str "active:")) with 7%nat in Hc.
    destruct (dec_digits 20 until []); [done|]. cbn [length] in Hc. lia. }
  rewrite !decide_False by (by apply Hne, Nat.leb_le). unfold strip_prefix, starts_with.
  rewrite take_app_length, drop_app_length, bool_decide_true by done.
  rewrite Some_bind, parse_uint_to_string by (unfold_int; lia). done.
Qed.

Lemma unhex32_hex32 b : length b = 32%nat → unhex32 (hex32 b) = Some b.
Proof.
  intros Hb. unfold unhex32. assert (hex32 b = to_hex b) as -> by apply to_hex_fmt_eq.
  rewrite length_to_hex, Hb. cbn [Nat.eqb Nat.mul Nat.add negb]. apply decode_pairs_to_hex.
  intros. by apply nib_hex_digit.
Qed.

Lemma auth_from_str pk : length pk = 32%nat → auth_from (auth_str pk) = Some pk.
Proof.
  intros Hp. unfold auth_from, auth_str. rewrite decide_False; [by apply unhex32_hex32|].
  intros E. assert (hex32 pk = to_hex pk) as H by apply to_hex_fmt_eq. rewrite E in H.
  apply (f_equal length) in H. rewrite length_to_hex, Hp in H. done.
Qed.

Definition sigs_ok (l : list bytes) : Prop :=
  batch_size_ok (length l) = true ∧ Forall (λ s, length s = RAW_SIGNATURE_BYTES) l.

Lemma chunks_concat n l : Forall (λ s, length s = n) l → chunks_exact n (length l) (concat l) = l.
Proof.
  induction 1 as [|s l Hs _ IH]; [done|]. cbn [length chunks_exact concat].
  by rewrite take_app_length', drop_app_length', IH.
Qed.

Lemma length_concat_const n (l : list bytes) :
  Forall (λ s, length s = n) l → length (concat l) = (length l * n)%nat.
Proof.
  induction 1 as [|s l Hs _ IH]; [done|]. cbn [concat length]. rewrite length_app, Hs, IH. lia.
Qed.

Lemma batch_size_bound n : batch_size_ok n = true ↔ (0 < n ≤ MAX_MINT_BATCH_SIZE)%nat.
Proof. unfold batch_size_ok. rewrite andb_true_iff, negb_true_iff, Nat.eqb_neq, Nat.leb_le. lia. Qed.

Lemma mint_payload_encodes l :
  sigs_ok l → encode_mint_payload l = Ok (z2b (Z.of_nat (length l)) :: concat l).
Proof.
  intros [Hn Hl]. unfold encode_mint_payload. rewrite Hn, ensure_true, Ok_bind.
  rewrite (proj2 (forallb_Forall_true _ _)); [done|].
  eapply Forall_impl; [exact Hl|]. intros s ->. apply Nat.eqb_refl.
Qed.

Lemma mint_payload_roundtrip l p :
  encode_mint_payload l = Ok p → decode_mint_payload p = Ok l ∧ plaintext_ok p = true.
Proof.
  unfold encode_mint_payload. intros H. inv_ok H. apply batch_size_bound in H0 as Hb.
  apply forallb_Forall_true in H1.
  assert (Hl : Forall (λ s, length s = RAW_SIGNATURE_BYTES) l).
  { eapply Forall_impl; [exact H1|]. intros s. apply Nat.eqb_eq. }
  injection H as <-. pose proof (length_concat_const _ _ Hl) as Hlen.
  unfold MAX_MINT_BATCH_SIZE in Hb. split.
  - unfold decode_mint_payload. rewrite b2z_z2b_small by lia. rewrite Nat2Z.id, H0, Hlen. cbn [andb].
    rewrite Nat2Z.inj_mul, Z.eqb_refl, ensure_true, Ok_bind. by rewrite chunks_concat.
  - unfold plaintext_ok. rewrite bool_decide_false by done. cbn [negb andb length]. apply Z.leb_le.
    rewrite Hlen. unfold MAX_RESULT_PLAINTEXT_BYTES, RAW_SIGNATURE_BYTES, MAX_MINT_BATCH_SIZE. lia.
Qed.

(** The associated data names exactly one purpose, operation, request and expiry. *)
Lemma result_aad_inj k1 k2 o1 o2 h1 h2 e1 e2 :
  length o1 = 32%nat → length o2 = 32%nat → length h1 = 32%nat → length h2 = 32%nat →
  u64 e1 → u64 e2 → result_aad k1 o1 h1 e1 = result_aad k2 o2 h2 e2 →
  k1 = k2 ∧ o1 = o2 ∧ h1 = h2 ∧ e1 = e2.
Proof.
  intros Ho1 Ho2 Hh1 Hh2 He1 He2. unfold result_aad. intros H%app_inv_head.
  apply (app_inj_1 [_] [_]) in H as [Hk H]; [|done].
  apply app_inj_1 in H as [-> H]; [|congruence]. apply app_inj_1 in H as [-> H]; [|congruence].
  split_and!; try done.
  - by destruct k1, k2.
  - apply (f_equal be_value) in H. unfold_int.
    rewrite !be_value_be_bytes_small in H; [done|..]; change (2 ^ (8 * Z.of_nat 8)) with 18446744073709551616; lia.
Qed.

Section CipherLemmas.
Context `{Haead : Aead, HaeadL : !AeadLaws}.

Lemma result_open_seal k kind o h e n p stored :
  (∀ x, n = Some x → length x = RESULT_NONCE_LEN) →
  result_seal k kind o h e n p = Ok stored → result_open k kind o h e stored = Ok p.
Proof.
  intros Hn. unfold result_seal. intros H.
  apply bind_Ok in H as (u1 & Hp & H). apply ensure_Ok in Hp.
  apply bind_Ok in H as (nn & Hnn & H). apply ok_or_Ok in Hnn. specialize (Hn _ Hnn).
  apply bind_Ok in H as (c & Hc & H). apply ok_or_Ok in Hc. injection H as <-.
  pose proof (aead_encrypt_length _ _ _ _ _ Hc) as Hlen. unfold result_open.
  pose proof Hp as Hp'. unfold plaintext_ok in Hp'. reflect_bools.
  rewrite !(proj2 (Z.leb_le _ _))
    by (rewrite length_app, Hn, Hlen; unfold RESULT_TAG_LEN in *; destruct p; [done|]; cbn [length] in *; lia).
  cbn [andb]. rewrite ensure_true, Ok_bind.
  rewrite take_app_length', drop_app_length' by done.
  by rewrite (aead_decrypt_encrypt _ _ _ _ _ Hc), ok_or_Some, Ok_bind, Hp, ensure_true, Ok_bind.
Qed.

End CipherLemmas.

(** ** Widths

    What the Rust types say: keys, hashes and public keys are 32 bytes, expiries are [u64],
    units are [u32]; and what every writer keeps: a signature is an RSA-2048 one or scrubbed. *)

Definition b32 (b : bytes) : Prop := length b = 32%nat.

Definition sig_wf (s : bytes) : Prop := s = [] ∨ length s = RAW_SIGNATURE_BYTES.
Definition sigs_wf (l : list bytes) : Prop := l = [] ∨ sigs_ok l.

Record account_wf (k : bytes) (r : AccountRecord) : Prop := {
  aw_key : account_number r = k;
  aw_len : b32 k;
  aw_auth : b32 (auth_pubkey r);
  aw_ent : ent_ok (entitlement r);
}.

Definition issuance_wf (k : bytes) (r : IssuanceResult) : Prop :=
  b32 k ∧ b32 (ir_request_hash r) ∧ u64 (ir_replay_until r) ∧ sig_wf (ir_blind_sig r).
Definition mint_wf (k : bytes) (r : MintResult) : Prop :=
  b32 k ∧ b32 (mr_request_hash r) ∧ u64 (mr_expires_at r) ∧ sigs_wf (mr_blind_sigs r).
Definition quota_wf (k : bytes * Z) (q : Z * Z * Z) : Prop :=
  b32 k.1 ∧ u64 k.2 ∧ u64 q.1.1 ∧ k.2 < q.1.1 ∧ 0 ≤ q.1.2 ≤ q.2 ∧ u32 q.2.

Record state_wf (st : MemoryState) : Prop := {
  sw_accounts : map_Forall account_wf (accounts st);
  sw_activations : map_Forall (λ k until, b32 k ∧ u64 until) (activation_results st);
  sw_issuances : map_Forall issuance_wf (issuance_results st);
  sw_mints : map_Forall mint_wf (mint_results st);
  sw_quotas : map_Forall quota_wf (mint_quotas st);
}.

Definition op_wf {R} (op : StoreOp R) : Prop :=
  match op with
  | InsertAccount r => account_wf (account_number r) r
  | ActivateSubscription a k now by_secs => b32 k ∧ u64 now ∧ 0 ≤ by_secs
  | CommitIssuance k r _ => issuance_wf k r
  | CommitMint k r q _ =>
      mint_wf k r ∧ b32 (quota_key q) ∧ u64 (window_start q) ∧ u64 (window_end q) ∧
      u32 (cost q) ∧ u32 (max_units q)
  | _ => True
  end.

Lemma drop_expired_mint_wf st key now : state_wf st → state_wf (drop_expired_mint st key now).
Proof.
  intros H. unfold drop_expired_mint. repeat case_match; try done.
  destruct H. split; try done. cbn. by apply map_Forall_delete.
Qed.

Lemma active_until_wf e now u : ent_ok e → active_until e now = Some u → u64 u ∧ now < u.
Proof.
  unfold active_until, resolved. destruct e as [|t|]; try done. destruct (Z.leb_spec t now); try done.
  intros Ht [= <-]. split; [done|lia].
Qed.

Lemma activate_until_wf e now by_secs :
  ent_ok e → u64 now → 0 ≤ by_secs →
  u64 (u64_saturating_add (default now (active_until e now)) by_secs).
Proof.
  intros He Hn Hb. unfold u64_saturating_add. destruct (active_until e now) as [u|] eqn:E; cbn.
  - apply active_until_wf in E as [? ?]; [|done]. unfold_int. lia.
  - unfold_int. lia.
Qed.

Lemma charge_quota_Some st q now row :
  charge_quota st q now = Ok (Some row) →
  is_well_formed q now = true ∧
  ∃ used, default (window_end q, 0, max_units q) (mint_quotas st !! (quota_key q, window_start q))
          = (window_end q, used, max_units q) ∧
    row = (window_end q, used + cost q, max_units q) ∧ used + cost q ≤ max_units q.
Proof.
  unfold charge_quota. destruct (is_well_formed q now); [|done]. cbn [negb].
  destruct (max_units q <? cost q); [done|].
  destruct (default _ _) as [[stored_end used] stored_max].
  destruct (Z.eqb_spec stored_end (window_end q)) as [->|]; [|done].
  destruct (Z.eqb_spec stored_max (max_units q)) as [->|]; [|done]. cbn [negb orb].
  unfold u32_checked_add. destruct (_ <=? U32_MAX); [|done].
  destruct (Z.ltb_spec (max_units q) (used + cost q)); [done|].
  intros [= <-]. split; [done|]. exists used. split_and!; try done; lia.
Qed.

Lemma is_well_formed_iff q now :
  is_well_formed q now = true ↔
  window_start q ≤ now < window_end q ∧ cost q ≠ 0 ∧ max_units q ≠ 0.
Proof.
  unfold is_well_formed. rewrite !andb_true_iff, !negb_true_iff, Z.leb_le, Z.ltb_lt, !Z.eqb_neq. tauto.
Qed.

Lemma mem_commit_mint_wf st k r q now :
  state_wf st → op_wf (CommitMint k r q now) → state_wf (mem_commit_mint st k r q now).1.
Proof.
  intros H (Hm & Hq1 & Hq2 & Hq3 & Hq4 & Hq5). unfold mem_commit_mint.
  destruct (_ <=? now); [done|]. apply (drop_expired_mint_wf _ k now) in H.
  destruct (mint_results _ !! k); [done|].
  destruct (charge_quota _ q now) as [[row|]|] eqn:E; [|done..].
  apply charge_quota_Some in E as [Hw (used & Hd & -> & Hle)]. apply is_well_formed_iff in Hw.
  destruct H as [H1 H2 H3 H4 H5]. split; cbn; try done.
  - by apply map_Forall_insert_2.
  - apply map_Forall_insert_2; [|done]. split_and!; cbn; try done; try lia.
    destruct (mint_quotas _ !! _) as [row|] eqn:E; cbn in Hd.
    + apply H5 in E. subst row. destruct E as (_ & _ & _ & _ & E & _). cbn in E. unfold_int. lia.
    + injection Hd as <-. unfold_int. lia.
Qed.

Lemma mem_op_wf {R} (op : StoreOp R) st : state_wf st → op_wf op → state_wf (mem_op op st).1.
Proof.
  intros H Hop. destruct op; cbn [mem_op]; try done.
  - unfold mem_insert. case_decide; [done|]. destruct H. split; try done. cbn.
    by apply map_Forall_insert_2.
  - unfold mem_activate. destruct Hop as (Hk & Hn & Hb).
    destruct (accounts st !! account) as [rec|] eqn:Ea; [|done].
    destruct (activation_results st !! activation_key); [done|]. cbn.
    pose proof (sw_accounts _ H _ _ Ea) as [Hw1 Hw2 Hw3 Hw4].
    pose proof (activate_until_wf _ _ _ Hw4 Hn Hb).
    destruct H. split; try done; cbn; by apply map_Forall_insert_2.
  - unfold mem_commit_issuance. repeat case_match; try done. cbn. destruct H. split; try done. cbn.
    by apply map_Forall_insert_2.
  - cbn. destruct H as [H1 H2 H3 H4 H5]. split; try done. cbn. intros k r Hr.
    apply lookup_fmap_Some in Hr as (r0 & <- & Hr). apply H3 in Hr as (? & ? & ? & ?).
    unfold scrub_issuance. destruct (issuance_due now r0); [|done]. split_and!; try done. by left.
  - cbn. by apply drop_expired_mint_wf.
  - by apply mem_commit_mint_wf.
  - cbn. destruct H as [H1 H2 H3 H4 H5]. split; try done; cbn.
    + intros k r (Hr & _)%map_lookup_filter_Some. by apply H4.
    + intros k r (Hr & _)%map_lookup_filter_Some. by apply H5.
Qed.

Lemma allowed_wf {R} (op : StoreOp R) st st' r :
  state_wf st → op_wf op → allowed op st st' r → state_wf st'.
Proof.
  intros H Hop. pose proof (mem_op_wf op st H Hop) as H'.
  intros [E|(_ & [->| ->])]; [|done..]. by rewrite <- E in H'.
Qed.

Lemma store_empty_wf : state_wf store_empty.
Proof. split; apply map_Forall_empty. Qed.

(** ** Histories

    The operations of all requests, in the order in which they took the store's lock. *)

Record Event := Ev { ev_res : Type; ev_op : StoreOp ev_res; ev_out : result StoreError ev_res }.
Arguments Ev {ev_res}.

Definition store_step (st : MemoryState) (e : Event) (st' : MemoryState) : Prop :=
  allowed (ev_op e) st st' (ev_out e).

(** What a restart may bring back: rows of mint results that were dropped in memory only. *)
Record revived (st st' : MemoryState) : Prop := {
  rv_accounts : accounts st' = accounts st;
  rv_activations : activation_results st' = activation_results st;
  rv_issuances : issuance_results st' = issuance_results st;
  rv_mints : mint_results st ⊆ mint_results st';
  rv_quotas : mint_quotas st' = mint_quotas st;
}.

(** A history with the states a crash may return to: the present one, and those since the last
    operation that reported success. *)
Inductive store_trace : list Event → list MemoryState → Prop :=
  | trace_start : store_trace [] [store_empty]
  | trace_step tr st vs e st' :
      store_trace tr (st :: vs) → store_step st e st' →
      store_trace (tr ++ [e]) (if is_ok (ev_out e) then [st'] else st' :: st :: vs)
  | trace_crash tr vs v st' :
      store_trace tr vs → v ∈ vs → revived v st' → state_wf st' → store_trace tr [st'].

(** A backend's own histories: operations with any device behaviour, and restarts. *)
Inductive backend_run {S} `{PortalStore S} : list Event → S → Prop :=
  | backend_start s : store_init s → backend_run [] s
  | backend_op tr s R (op : StoreOp R) io s' r :
      backend_run tr s → op_wf op → store_io_ok io → store_op op io s = (s', r) →
      backend_run (tr ++ [Ev op r]) s'
  | backend_restart tr s s' : backend_run tr s → store_restart s s' → backend_run tr s'.

(** What the handlers rely on: a backend's histories are among those specified. *)
Class PortalStoreLaws (S : Type) `{PortalStore S} : Prop :=
  backend_refines : ∀ tr (s : S), backend_run tr s → ∃ vs, store_trace tr (store_view s :: vs).

(** The in-memory store; it does not survive a restart, and is for development only. *)
#[export] Instance memory_store : PortalStore MemoryState := {|
  StoreIo := unit;
  store_io_ok _ := True;
  store_op R op _ st := mem_op op st;
  store_view st := st;
  store_init st := st = store_empty;
  store_restart _ _ := False;
|}.

#[export] Instance memory_store_laws : PortalStoreLaws MemoryState.
Proof.
  intros tr s. induction 1 as [s ->|tr s R op io s' r _ (vs & IH) _ _ E|]; [by exists []; constructor| |done].
  assert (Hs : store_step s (Ev op r) s') by (left; symmetry; exact E).
  pose proof (trace_step _ _ _ _ _ IH Hs) as Ht. cbn in Ht. destruct (is_ok r); eauto.
Qed.

(** Every fact that holds initially and along each in-memory step holds throughout. *)
Lemma allowed_ind {R} (op : StoreOp R) st st' r (P : MemoryState → Prop) :
  allowed op st st' r → P st → P (mem_op op st).1 → P st'.
Proof. intros [E|(_ & [->| ->])] H1 H2; [by rewrite <- E in H2|done..]. Qed.

(** Invariants of histories: of each state a crash may return to. *)
Lemma trace_invariant (P : list Event → MemoryState → Prop) :
  P [] store_empty →
  (∀ tr st e st', P tr st → store_step st e st' → P (tr ++ [e]) st') →
  (∀ tr st e, P tr st → is_ok (ev_out e) = false → P (tr ++ [e]) st) →
  (∀ tr st st', P tr st → revived st st' → P tr st') →
  ∀ tr vs v, store_trace tr vs → v ∈ vs → P tr v.
Proof.
  intros H0 H1 H2 H3 tr vs v Htr. revert v.
  induction Htr as [|tr st vs e st' _ IH Hs|tr vs v st' _ IH Hv Hr _]; intros w.
  - by intros ->%list_elem_of_singleton.
  - assert (Hnew : P (tr ++ [e]) st') by (eapply H1; [apply IH; by left|done]).
    destruct (is_ok (ev_out e)) eqn:Eo; [by intros ->%list_elem_of_singleton|].
    intros [->|Hw]%elem_of_cons; [done|]. apply H2; [by apply IH|done].
  - intros ->%list_elem_of_singleton. by eapply H3; [apply IH|].
Qed.

Lemma trace_nonempty tr vs : store_trace tr vs → ∃ v, v ∈ vs.
Proof.
  intros H. inversion H; subst; [eexists; by left| |eexists; by left].
  destruct (is_ok _); eexists; by left.
Qed.

Definition event_wf (e : Event) : Prop := op_wf (ev_op e).

(** Well-formed operations keep every state well formed. *)
Lemma trace_wf tr vs v : store_trace tr vs → Forall event_wf tr → v ∈ vs → state_wf v.
Proof.
  intros Htr. revert v. induction Htr as [|tr st vs e st' _ IH Hs|tr vs v st' _ IH Hv Hr Hw]; intros w.
  - intros _ ->%list_elem_of_singleton. apply store_empty_wf.
  - intros [Htr [He _]%Forall_cons]%Forall_app.
    assert (state_wf st') by (eapply allowed_wf; [apply IH; [done|by left]|exact He|exact Hs]).
    destruct (is_ok _); [by intros ->%list_elem_of_singleton|].
    intros [->|Hw]%elem_of_cons; [done|by apply IH].
  - by intros _ ->%list_elem_of_singleton.
Qed.

Lemma backend_events_wf {S} `{PortalStore S} tr (s : S) : backend_run tr s → Forall event_wf tr.
Proof.
  induction 1 as [| tr s R op io s' r _ IH Hop _ _|]; [constructor| |done].
  apply Forall_app. split; [done|]. by repeat constructor.
Qed.

Lemma drop_expired_mint_frame st key now :
  accounts (drop_expired_mint st key now) = accounts st ∧
  activation_results (drop_expired_mint st key now) = activation_results st ∧
  issuance_results (drop_expired_mint st key now) = issuance_results st ∧
  mint_quotas (drop_expired_mint st key now) = mint_quotas st.
Proof. unfold drop_expired_mint. repeat case_match; done. Qed.

(** *** One-shot issuance *)

(** A row of the issuance ledger never changes but to lose its signature. *)
Definition row_kept (old new : IssuanceResult) : Prop :=
  ir_request_hash new = ir_request_hash old ∧
  (ir_blind_sig new = ir_blind_sig old ∨ ir_blind_sig new = []).

Lemma issuance_kept {R} (op : StoreOp R) st st' r k row :
  allowed op st st' r → issuance_results st !! k = Some row →
  ∃ row', issuance_results st' !! k = Some row' ∧ row_kept row row'.
Proof.
  intros H Hk. assert (Hsame : row_kept row row) by (by split; [|left]).
  pattern st'. apply (allowed_ind _ _ _ _ _ H); [by eauto|]. clear H.
  destruct op; cbn [mem_op]; eauto.
  - unfold mem_insert. case_decide; cbn; eauto.
  - unfold mem_activate. repeat case_match; simplify_eq; cbn; eauto.
  - unfold mem_commit_issuance. destruct (_ || _); [cbn; eauto|].
    destruct (issuance_results st !! key) eqn:E; cbn; [eauto|].
    exists row. split; [|done]. rewrite lookup_insert_ne; [done|congruence].
  - cbn. rewrite lookup_fmap, Hk. eexists. split; [done|]. unfold scrub_issuance, row_kept.
    destruct (issuance_due now row); eauto.
  - cbn. unfold drop_expired_mint. repeat case_match; cbn; eauto.
  - unfold mem_commit_mint. destruct (_ <=? now); [cbn; eauto|].
    assert (Hd : issuance_results (drop_expired_mint st key now) = issuance_results st)
      by (unfold drop_expired_mint; repeat case_match; done).
    destruct (mint_results _ !! key); cbn; [by rewrite Hd; eauto|].
    destruct (charge_quota _ q now) as [[|]|]; cbn; rewrite Hd; eauto.
Qed.

(** The signature an operation hands out under [key], with the request it is for. *)
Definition handed_out (key : bytes) (e : Event) : option (bytes * bytes) :=
  match e with
  | @Ev _ op out =>
      match op in StoreOp R return result StoreError R → option (bytes * bytes) with
      | LookupIssuance k h _ => λ out,
          match out with
          | Ok (IssuanceReplay s) => if decide (k = key) then Some (h, s) else None
          | _ => None
          end
      | CommitIssuance k r _ => λ out,
          match out with
          | Ok IssuanceStored => if decide (k = key) then Some (ir_request_hash r, ir_blind_sig r) else None
          | Ok (IssuanceWinner s) => if decide (k = key) then Some (ir_request_hash r, s) else None
          | _ => None
          end
      | _ => λ _, None
      end out
  end.

Lemma issuance_live_iff r h now :
  issuance_live r h now = true ↔ ir_request_hash r = h ∧ now < ir_replay_until r ∧ ir_blind_sig r ≠ [].
Proof.
  unfold issuance_live.
  rewrite !andb_true_iff, negb_true_iff, bool_decide_eq_true, bool_decide_eq_false, Z.ltb_lt. tauto.
Qed.

(** Whoever gets a signature gets the one on record. *)
Lemma handed_out_recorded key st e st' h s :
  store_step st e st' → handed_out key e = Some (h, s) →
  s ≠ [] ∧ (∃ row, issuance_results st' !! key = Some row ∧ ir_request_hash row = h ∧ ir_blind_sig row = s) ∧
  (∀ row, issuance_results st !! key = Some row → ir_request_hash row = h ∧ ir_blind_sig row = s).
Proof.
  destruct e as [R op out]. unfold store_step. cbn [ev_op ev_out ev_res].
  intros Hs Hh. destruct op; try done; cbn [handed_out] in Hh.
  - destruct out as [[| s' |]|]; try done. case_decide as Hk; [|done]. subst key0. injection Hh as <- <-.
    destruct Hs as [Hs|[? _]]; [|done]. cbn in Hs. injection Hs as -> Hs.
    unfold mem_lookup_issuance in Hs. destruct (issuance_results st !! key) as [row|] eqn:E; [|done].
    destruct (issuance_live row request_hash now) eqn:El; [|done]. injection Hs as ->.
    apply issuance_live_iff in El as (? & ? & ?). split_and!; [done|by eauto|].
    intros row' [= <-]. done.
  - destruct Hs as [Hs|[-> _]]; [|done]. cbn [mem_op] in Hs. unfold mem_commit_issuance in Hs.
    destruct (_ || _) eqn:Eg; [by injection Hs as _ ->|]. apply orb_false_iff in Eg as [_ Hne].
    apply bool_decide_eq_false in Hne.
    destruct (issuance_results st !! key0) as [row|] eqn:E.
    + injection Hs as -> ->. destruct (issuance_live row (ir_request_hash r) now) eqn:El; [|done].
      case_decide as Hk; [|done]. subst key0. injection Hh as <- <-.
      apply issuance_live_iff in El as (? & ? & ?). split_and!; [done|by eauto|].
      intros row' Hr. by simplify_eq.
    + injection Hs as -> ->. case_decide as Hk; [|done]. subst key0. injection Hh as <- <-.
      split_and!; [done| |congruence]. cbn. rewrite lookup_insert_eq. eauto.
Qed.

Lemma handed_out_ok key e x : handed_out key e = Some x → is_ok (ev_out e) = true.
Proof. destruct e as [R op out]. destruct op; try done; by destruct out as [[]|]. Qed.

Definition commits (key : bytes) (e : Event) : option IssuanceResult :=
  match ev_op e with
  | CommitIssuance k r _ => if decide (k = key) then Some r else None
  | _ => None
  end.

(** A row of the ledger was proposed by some commit. *)
Definition proposed (tr : list Event) (key h s : bytes) : Prop :=
  ∃ e r, e ∈ tr ∧ commits key e = Some r ∧ ir_request_hash r = h ∧ ir_blind_sig r = s.

Lemma proposed_mono tr e key h s : proposed tr key h s → proposed (tr ++ [e]) key h s.
Proof. intros (e' & r & Hin & ?). exists e', r. rewrite elem_of_app. auto. Qed.

Lemma new_row_proposed {R} (op : StoreOp R) st st' out key row :
  allowed op st st' out → issuance_results st' !! key = Some row → ir_blind_sig row ≠ [] →
  issuance_results st !! key = Some row ∨ commits key (Ev op out) = Some row.
Proof.
  intros Ha. pattern st'. apply (allowed_ind _ _ _ _ _ Ha); [by left|]. clear Ha.
  destruct op; cbn [mem_op]; try (by left).
  - unfold mem_insert. case_decide; by left.
  - unfold mem_activate. repeat case_match; simplify_eq; by left.
  - unfold mem_commit_issuance. destruct (_ || _); [by left|].
    destruct (issuance_results st !! key0) eqn:E; [by left|]. cbn. intros [[-> ->]|[_ Hr]]%lookup_insert_Some _.
    + right. unfold commits. cbn. by rewrite decide_True.
    + by left.
  - cbn. rewrite lookup_fmap. intros Hr Hne. left. destruct (issuance_results st !! key) as [row'|]; [|done].
    injection Hr as <-. unfold scrub_issuance in *. by destruct (issuance_due now row').
  - cbn. destruct (drop_expired_mint_frame st key0 now) as (_ & _ & -> & _). by left.
  - unfold mem_commit_mint. destruct (_ <=? now); [by left|].
    destruct (drop_expired_mint_frame st key0 now) as (_ & _ & Hd & _).
    destruct (mint_results _ !! key0); cbn; [rewrite Hd; by left|].
    destruct (charge_quota _ q now) as [[|]|]; cbn; rewrite Hd; by left.
Qed.

(** Every signature handed out was proposed by a commit under the same key. *)
Lemma signature_origin tr vs key :
  store_trace tr vs → ∀ e h s, e ∈ tr → handed_out key e = Some (h, s) → proposed tr key h s.
Proof.
  intros Htr. destruct (trace_nonempty _ _ Htr) as [v Hv]. revert tr vs v Htr Hv.
  set (P := λ (tr : list Event) (st : MemoryState),
    (∀ e h s, e ∈ tr → handed_out key e = Some (h, s) → proposed tr key h s) ∧
    (∀ row, issuance_results st !! key = Some row → ir_blind_sig row ≠ [] →
       proposed tr key (ir_request_hash row) (ir_blind_sig row))).
  enough (∀ tr vs v, store_trace tr vs → v ∈ vs → P tr v) as HP
    by (intros tr vs v Htr Hv; exact (proj1 (HP tr vs v Htr Hv))).
  apply trace_invariant.
  - split; [intros e h s Hin; by apply elem_of_nil in Hin|done].
  - intros tr st [R op out] st' [IH1 IH2] Hs.
    assert (Hrows : ∀ row, issuance_results st' !! key = Some row → ir_blind_sig row ≠ [] →
      proposed (tr ++ [Ev op out]) key (ir_request_hash row) (ir_blind_sig row)).
    { intros row Hrow Hne. destruct (new_row_proposed _ _ _ _ _ _ Hs Hrow Hne) as [Hold|Hnew].
      - by apply proposed_mono, IH2.
      - eexists _, row. split_and!; [|exact Hnew|done..]. apply elem_of_app. right. by left. }
    split; [|done]. intros e h s [Hin| ->%list_elem_of_singleton]%elem_of_app Hh.
    + by eapply proposed_mono, IH1.
    + destruct (handed_out_recorded _ _ _ _ _ _ Hs Hh) as (Hne & (row & Hrow & <- & <-) & _). by apply Hrows.
  - intros tr st e [IH1 IH2] He. split.
    + intros e0 h s [Hin| ->%list_elem_of_singleton]%elem_of_app Hh; [by eapply proposed_mono, IH1|].
      apply handed_out_ok in Hh. congruence.
    + intros row Hr Hne. by apply proposed_mono, IH2.
  - intros tr st st' [IH1 IH2] Hr. split; [done|]. by rewrite (rv_issuances _ _ Hr).
Qed.

(** Over any history, all signatures handed out under one key are for the same request and
    are the same signature. *)
Lemma one_signature_per_key tr vs key :
  store_trace tr vs →
  ∀ e1 e2 x1 x2, e1 ∈ tr → e2 ∈ tr → handed_out key e1 = Some x1 → handed_out key e2 = Some x2 → x1 = x2.
Proof.
  intros Htr. destruct (trace_nonempty _ _ Htr) as [v Hv]. revert tr vs v Htr Hv.
  set (P := λ (tr : list Event) (st : MemoryState), (∀ e1 e2 x1 x2, e1 ∈ tr → e2 ∈ tr →
      handed_out key e1 = Some x1 → handed_out key e2 = Some x2 → x1 = x2) ∧
    (∀ e h s, e ∈ tr → handed_out key e = Some (h, s) → ∃ row, issuance_results st !! key = Some row ∧
       ir_request_hash row = h ∧ (ir_blind_sig row = s ∨ ir_blind_sig row = []))).
  enough (∀ tr vs v, store_trace tr vs → v ∈ vs → P tr v) as HP
    by (intros tr vs v Htr Hv; exact (proj1 (HP tr vs v Htr Hv))).
  apply trace_invariant.
  - split; [|intros e h s Hin]; [intros e1 e2 x1 x2 Hin|]; by apply elem_of_nil in Hin.
  - intros tr st e st' [IH1 IH2] Hs.
    assert (Hnew : ∀ e0 h0 s0 h s, e0 ∈ tr → handed_out key e0 = Some (h0, s0) →
      handed_out key e = Some (h, s) → (h0, s0) = (h, s)).
    { intros e0 h0 s0 h s Hin H0 H. destruct (IH2 _ _ _ Hin H0) as (row & Hrow & <- & Hsig).
      destruct (handed_out_recorded _ _ _ _ _ _ Hs H) as (Hne & _ & Hpre).
      destruct (Hpre _ Hrow) as [<- <-]. destruct Hsig as [<-|?]; [done|congruence]. }
    split.
    + intros e1 e2 [h1 s1] [h2 s2] [H1| ->%list_elem_of_singleton]%elem_of_app
        [H2| ->%list_elem_of_singleton]%elem_of_app E1 E2; [eauto..|symmetry; eauto|congruence].
    + intros e0 h s [Hin| ->%list_elem_of_singleton]%elem_of_app H0.
      * destruct (IH2 _ _ _ Hin H0) as (row & Hrow & <- & Hsig).
        destruct (issuance_kept _ _ _ _ _ _ Hs Hrow) as (row' & Hrow' & Hh & Hsg).
        exists row'. split_and!; [done|done|]. destruct Hsg as [->|?]; [done|by right].
      * destruct (handed_out_recorded _ _ _ _ _ _ Hs H0) as (_ & (row & ? & ? & ?) & _). eauto.
  - intros tr st e [IH1 IH2] He.
    assert (Hno : ∀ e', e' ∈ tr ++ [e] → ∀ x, handed_out key e' = Some x → e' ∈ tr).
    { intros e' [?| ->%list_elem_of_singleton]%elem_of_app x Hx; [done|].
      apply handed_out_ok in Hx. congruence. }
    split; [intros e1 e2 x1 x2 H1 H2 E1 E2|intros e0 h s H0 E0]; eauto.
  - intros tr st st' [IH1 IH2] Hr. split; [done|]. rewrite (rv_issuances _ _ Hr). done.
Qed.

(** *** Activations *)

Definition op_activates {R} (op : StoreOp R) : bool :=
  match op with ActivateSubscription _ _ _ _ => true | _ => false end.
Definition op_inserts {R} (op : StoreOp R) : bool :=
  match op with InsertAccount _ => true | _ => false end.

(** Only an activation touches the claimed keys and the entitlements. *)
Lemma activation_frame {R} (op : StoreOp R) st :
  op_activates op = false →
  activation_results (mem_op op st).1 = activation_results st ∧
  (op_inserts op = false → accounts (mem_op op st).1 = accounts st).
Proof.
  intros Ha. destruct op; try done; cbn [mem_op].
  - unfold mem_insert. by case_decide.
  - unfold mem_commit_issuance. by repeat case_match.
  - cbn. destruct (drop_expired_mint_frame st key now) as (? & ? & _). eauto.
  - unfold mem_commit_mint. destruct (drop_expired_mint_frame st key now) as (? & ? & _).
    repeat case_match; cbn; eauto.
Qed.

Definition activated (key : bytes) (e : Event) : option SubscriptionActivation :=
  match e with
  | @Ev _ op out =>
      match op in StoreOp R return result StoreError R → option SubscriptionActivation with
      | ActivateSubscription _ k _ _ => λ out,
          match out with Ok (Some a) => if decide (k = key) then Some a else None | _ => None end
      | _ => λ _, None
      end out
  end.

Lemma activation_kept {R} (op : StoreOp R) st st' r k u :
  allowed op st st' r → activation_results st !! k = Some u → activation_results st' !! k = Some u.
Proof.
  intros H Hk. pattern st'. apply (allowed_ind _ _ _ _ _ H); [done|].
  destruct (op_activates op) eqn:Eo; [|by rewrite (proj1 (activation_frame op st Eo))].
  destruct op; try done. cbn [mem_op]. unfold mem_activate.
  destruct (accounts st !! account); [|done].
  destruct (activation_results st !! activation_key) eqn:E'; [done|]. cbn.
  rewrite lookup_insert_ne; [done|congruence].
Qed.

Lemma activated_recorded key st e st' a :
  store_step st e st' → activated key e = Some a →
  activation_results st' !! key = Some (activation_until a) ∧
  (∀ u, activation_results st !! key = Some u → a = ActivationReplay u).
Proof.
  destruct e as [R op out]. unfold store_step. cbn [ev_op ev_out ev_res].
  intros Hs Ha. destruct op; try done. cbn [activated] in Ha.
  destruct out as [[a'|]|]; try done. case_decide as Hk; [|done]. subst activation_key. injection Ha as ->.
  destruct Hs as [Hs|[? _]]; [|done]. cbn [mem_op] in Hs. unfold mem_activate in Hs.
  destruct (accounts st !! account) as [rec|]; [|done].
  destruct (activation_results st !! key) as [u|] eqn:E; injection Hs as -> ->.
  - split; [done|]. by intros u' [= ->].
  - cbn. rewrite lookup_insert_eq. done.
Qed.

Lemma activated_ok key e a : activated key e = Some a → is_ok (ev_out e) = true.
Proof. destruct e as [R op out]. destruct op; try done. by destruct out as [[]|]. Qed.

Lemma lookup_snoc_cases {A} (l : list A) x i y :
  (l ++ [x]) !! i = Some y → l !! i = Some y ∨ i = length l ∧ y = x.
Proof.
  intros H. destruct (decide (i < length l)%nat).
  - left. by rewrite lookup_app_l in H.
  - right. pose proof (lookup_lt_Some _ _ _ H) as Hlt. rewrite length_app in Hlt. cbn in Hlt.
    assert (i = length l) as -> by lia. rewrite lookup_app_r, Nat.sub_diag in H by done.
    by injection H as ->.
Qed.

(** Over any history a payment key is answered with one expiry, and only its first answer
    can be the one that extended the account. *)
Lemma one_activation_per_key tr vs key :
  store_trace tr vs →
  ∀ i j e1 e2 a1 a2, (i < j)%nat → tr !! i = Some e1 → tr !! j = Some e2 →
    activated key e1 = Some a1 → activated key e2 = Some a2 →
    a2 = ActivationReplay (activation_until a1).
Proof.
  intros Htr. destruct (trace_nonempty _ _ Htr) as [v Hv]. revert tr vs v Htr Hv.
  set (P := λ (tr : list Event) (st : MemoryState), (∀ i j e1 e2 a1 a2, (i < j)%nat → tr !! i = Some e1 → tr !! j = Some e2 →
      activated key e1 = Some a1 → activated key e2 = Some a2 →
      a2 = ActivationReplay (activation_until a1)) ∧
    (∀ e a, e ∈ tr → activated key e = Some a → activation_results st !! key = Some (activation_until a))).
  enough (∀ tr vs v, store_trace tr vs → v ∈ vs → P tr v) as HP
    by (intros tr vs v Htr Hv; exact (proj1 (HP tr vs v Htr Hv))).
  apply trace_invariant.
  - split; [by intros [] j ? ? ? ? ? ?|]. intros e a Hin. by apply elem_of_nil in Hin.
  - intros tr st e st' [IH1 IH2] Hs. split.
    + intros i j e1 e2 a1 a2 Hij H1 [H2|[-> ->]]%lookup_snoc_cases Ha1 Ha2.
      * apply lookup_lt_Some in H2 as Hlt. rewrite lookup_app_l in H1 by lia. eauto.
      * rewrite lookup_app_l in H1 by lia. apply list_elem_of_lookup_2 in H1.
        specialize (IH2 _ _ H1 Ha1). by apply (activated_recorded _ _ _ _ _ Hs Ha2).
    + intros e0 a [Hin| ->%list_elem_of_singleton]%elem_of_app Ha.
      * eapply activation_kept; [exact Hs|]. by eapply IH2.
      * by apply (activated_recorded _ _ _ _ _ Hs Ha).
  - intros tr st e [IH1 IH2] He. split.
    + intros i j e1 e2 a1 a2 Hij H1 [H2|[-> ->]]%lookup_snoc_cases Ha1 Ha2.
      * apply lookup_lt_Some in H2 as Hlt. rewrite lookup_app_l in H1 by lia. eauto.
      * apply activated_ok in Ha2. congruence.
    + intros e0 a [Hin| ->%list_elem_of_singleton]%elem_of_app Ha; [eauto|].
      apply activated_ok in Ha. congruence.
  - intros tr st st' [IH1 IH2] Hr. split; [done|]. by rewrite (rv_activations _ _ Hr).
Qed.

(** *** Accounts keep the key they were registered with *)

Definition inserts (e : Event) : option AccountRecord :=
  match ev_op e with InsertAccount r => Some r | _ => None end.

Definition registered (tr : list Event) (account : bytes) (rec : AccountRecord) : Prop :=
  account_number rec = account ∧
  ∃ e r, e ∈ tr ∧ inserts e = Some r ∧ account_number r = account ∧ auth_pubkey r = auth_pubkey rec.

Lemma registered_mono tr e account rec : registered tr account rec → registered (tr ++ [e]) account rec.
Proof. intros (Hn & e' & r & Hin & ?). split; [done|]. exists e', r. rewrite elem_of_app. auto. Qed.

Lemma accounts_frame {R} (op : StoreOp R) st a rec :
  accounts (mem_op op st).1 !! a = Some rec →
  (∃ r, op_inserts op = true ∧ inserts (Ev op (Err Backend)) = Some r ∧ account_number r = a ∧ rec = r) ∨
  ∃ rec0, accounts st !! a = Some rec0 ∧ account_number rec = account_number rec0 ∧
          auth_pubkey rec = auth_pubkey rec0.
Proof.
  destruct (op_activates op) eqn:Ea; [|destruct (op_inserts op) eqn:Ei].
  - destruct op; try done. cbn [mem_op]. unfold mem_activate.
    destruct (accounts st !! account) as [rec0|] eqn:E; [|by cbn; right; eauto].
    destruct (activation_results st !! activation_key); [by cbn; right; eauto|]. cbn.
    intros [[<- <-]|[_ Hr]]%lookup_insert_Some; [|right; by eauto]. right. by exists rec0.
  - destruct op; try done. cbn [mem_op]. unfold mem_insert. case_decide; [by cbn; right; eauto|]. cbn.
    intros [[<- <-]|[_ Hr]]%lookup_insert_Some; [|right; by eauto]. left. by exists r.
  - destruct (activation_frame op st Ea) as [_ Hf]. rewrite (Hf Ei). right. by eauto.
Qed.

Definition got (account : bytes) (e : Event) : option AccountRecord :=
  match e with
  | @Ev _ op out =>
      match op in StoreOp R return result StoreError R → option AccountRecord with
      | Get a => λ out,
          match out with Ok (Some rec) => if decide (a = account) then Some rec else None | _ => None end
      | _ => λ _, None
      end out
  end.

Lemma got_registered tr vs account :
  store_trace tr vs → ∀ e rec, e ∈ tr → got account e = Some rec → registered tr account rec.
Proof.
  intros Htr. destruct (trace_nonempty _ _ Htr) as [v Hv]. revert tr vs v Htr Hv.
  set (P := λ (tr : list Event) (st : MemoryState),
    (∀ e rec, e ∈ tr → got account e = Some rec → registered tr account rec) ∧
    (∀ rec, accounts st !! account = Some rec → registered tr account rec)).
  enough (∀ tr vs v, store_trace tr vs → v ∈ vs → P tr v) as HP
    by (intros tr vs v Htr Hv; exact (proj1 (HP tr vs v Htr Hv))).
  apply trace_invariant.
  - split; [intros e rec Hin; by apply elem_of_nil in Hin|done].
  - intros tr st [R op out] st' [IH1 IH2] Hs. split.
    + intros e rec [Hin| ->%list_elem_of_singleton]%elem_of_app Hg; [by eapply registered_mono, IH1|].
      destruct op; try done. cbn in Hg. destruct out as [[rec'|]|]; try done. case_decide; [|done].
      injection Hg as <-. subst. destruct Hs as [Hs|[? _]]; [|done]. cbn in Hs. injection Hs as _ Hs.
      by apply registered_mono, IH2.
    + intros rec. pattern st'. apply (allowed_ind _ _ _ _ _ Hs); [intros Hrec; by apply registered_mono, IH2|].
      intros [(r & _ & Hi & Hn & ->)|(rec0 & Hrec & Hn & Hk)]%accounts_frame.
      * split; [done|]. exists (Ev op out), r. rewrite elem_of_app, list_elem_of_singleton. by split_and!; [right|..].
      * destruct (IH2 _ Hrec) as (Hnum & e & r & He & Hi & Hrn & Hkey).
        split; [congruence|]. exists e, r. rewrite elem_of_app. split_and!; [by left|done|done|congruence].
  - intros tr st e [IH1 IH2] He. split.
    + intros e0 rec [Hin| ->%list_elem_of_singleton]%elem_of_app Hg; [by eapply registered_mono, IH1|].
      destruct e as [R op out]. destruct op; try done. cbn in Hg, He. by destruct out.
    + intros rec Hr. by apply registered_mono, IH2.
  - intros tr st st' [IH1 IH2] Hr. split; [done|]. by rewrite (rv_accounts _ _ Hr).
Qed.

(** *** Entitlements are paid for *)

Definition attempt (account : bytes) (e : Event) : gset bytes :=
  match e with
  | @Ev _ op _ =>
      match op with
      | ActivateSubscription a k _ _ => if decide (a = account) then {[k]} else ∅
      | _ => ∅
      end
  end.

(** The payment keys presented for an account. *)
Definition attempted (account : bytes) (tr : list Event) : gset bytes := ⋃ (attempt account <$> tr).

Lemma attempted_snoc account tr e : attempted account (tr ++ [e]) = attempted account tr ∪ attempt account e.
Proof. unfold attempted. rewrite fmap_app, union_list_app_L. cbn. by rewrite (right_id_L ∅ (∪)). Qed.

(** Accounts start without entitlement; activations add [period] at a clock up to [T]. *)
Definition activation_ok (T period : Z) (e : Event) : Prop :=
  match ev_op e with
  | InsertAccount r => entitlement r = NoEntitlement
  | ActivateSubscription _ _ now by_secs => now ≤ T ∧ by_secs = period
  | _ => True
  end.

Definition claimed (account : bytes) (tr : list Event) (st : MemoryState) : gset bytes :=
  attempted account tr ∩ dom (activation_results st).

Lemma claimed_mono account tr st e st' :
  store_step st e st' → claimed account tr st ⊆ claimed account (tr ++ [e]) st'.
Proof.
  intros Hs k. unfold claimed. rewrite attempted_snoc, !elem_of_intersection, elem_of_union, !elem_of_dom.
  intros [Hk [u Hu]]. split; [by left|]. exists u. by eapply activation_kept.
Qed.

Definition paid_up (T period : Z) (tr : list Event) (st : MemoryState) : Prop :=
  ∀ account rec u, accounts st !! account = Some rec → entitlement rec = Active u →
    u ≤ T + period * Z.of_nat (size (claimed account tr st)).

(** Claiming a new key adds one period to one account. *)
Lemma paid_up_activate T period tr st account key now out st' :
  0 ≤ period → now ≤ T → paid_up T period tr st →
  let e := Ev (ActivateSubscription account key now period) out in
  store_step st e st' → st' = (mem_op (ev_op e) st).1 → paid_up T period (tr ++ [e]) st'.
Proof.
  intros Hp Hn H e Hs Hst. pose proof (λ a, subseteq_size _ _ (claimed_mono a tr st e st' Hs)) as Hmono.
  assert (Hkeep : accounts st' = accounts st → paid_up T period (tr ++ [e]) st').
  { intros Ha a rec u Hrec Hu. rewrite Ha in Hrec. specialize (H _ _ _ Hrec Hu). specialize (Hmono a). nia. }
  rewrite Hst in Hkeep |- *. rewrite Hst in Hmono. cbn [ev_op e mem_op] in *. unfold mem_activate in *.
  destruct (accounts st !! account) as [rec0|] eqn:Ea; [|by apply Hkeep].
  destruct (activation_results st !! key) as [u0|] eqn:Ek; [by apply Hkeep|].
  cbn [fst] in *. clear Hkeep Hst Hs. intros a rec u Hrec Hu. cbn in Hrec.
  destruct (decide (a = account)) as [->|Hne].
  - rewrite lookup_insert_eq in Hrec. injection Hrec as <-. cbn in Hu. injection Hu as <-.
    assert (Hsz : (size (claimed account tr st) < size (claimed account (tr ++ [e])
      (with_activations (with_accounts st (<[account := set_entitlement rec0
         (Active (u64_saturating_add (default now (active_until (entitlement rec0) now)) period))]>
         (accounts st))) (<[key := u64_saturating_add (default now (active_until (entitlement rec0) now))
         period]> (activation_results st)))))%nat).
    { apply subset_size. split.
      - intros k. unfold claimed. rewrite attempted_snoc. cbn. rewrite dom_insert_L. set_solver.
      - intros Hsub. assert (key ∈ claimed account tr st) as Hin.
        { apply Hsub. unfold claimed. rewrite attempted_snoc. cbn. rewrite decide_True by done.
          rewrite dom_insert_L. set_solver. }
        unfold claimed in Hin. apply elem_of_intersection in Hin as [_ Hin].
        apply elem_of_dom in Hin as [? ?]. congruence. }
    unfold u64_saturating_add in *.
    assert (Hbase : default now (active_until (entitlement rec0) now)
      ≤ T + period * Z.of_nat (size (claimed account tr st))).
    { unfold active_until. destruct (resolved _ _) as [|v|] eqn:Er; cbn; [nia| |nia].
      unfold resolved in Er. destruct (entitlement rec0) as [|v'|] eqn:Ee; try done.
      destruct (v' <=? now); [done|]. injection Er as ->. by eapply H. }
    nia.
  - rewrite lookup_insert_ne in Hrec by done. specialize (H _ _ _ Hrec Hu). specialize (Hmono a). nia.
Qed.

Lemma paid_up_step T period tr st e st' :
  0 ≤ period → activation_ok T period e → paid_up T period tr st → store_step st e st' →
  paid_up T period (tr ++ [e]) st'.
Proof.
  intros Hp He IH Hs.
  pose proof (λ a, subseteq_size _ _ (claimed_mono a tr st e st' Hs)) as Hmono.
  assert (Hkeep : (∀ a r v, accounts st' !! a = Some r → entitlement r = Active v →
      accounts st !! a = Some r) → paid_up T period (tr ++ [e]) st').
  { intros Ha a r v Hr Hv. specialize (IH _ _ _ (Ha _ _ _ Hr Hv) Hv). specialize (Hmono a). nia. }
  assert (Hst : st' = st ∨ st' = (mem_op (ev_op e) st).1).
  { destruct Hs as [E|[_ E]]; [right; by rewrite <- E|done]. }
  destruct Hst as [->|Hst]; [by apply Hkeep|].
  destruct e as [R op out]. cbn [ev_op ev_out ev_res] in *. unfold activation_ok in He. cbn in He.
  destruct (op_activates op) eqn:Eact.
  - destruct op; try done. destruct He as [He ->]. by eapply paid_up_activate.
  - destruct (activation_frame op st Eact) as [_ Hf]. apply Hkeep. intros a r v Hr Hv.
    destruct (op_inserts op) eqn:Ei; [|by rewrite <- Hf, <- Hst]. destruct op; try done.
    subst st'. cbn [mem_op] in Hr. unfold mem_insert in Hr. case_decide; [done|].
    cbn in Hr. apply lookup_insert_Some in Hr as [[_ <-]|[_ Hr]]; [congruence|done].
Qed.

(** No account is entitled beyond the latest clock plus one period per payment key that was
    presented for it. *)
Lemma entitlement_is_paid_for tr vs st T period account rec u :
  store_trace tr vs → st ∈ vs → 0 ≤ period → Forall (activation_ok T period) tr →
  accounts st !! account = Some rec → entitlement rec = Active u →
  u ≤ T + period * Z.of_nat (size (attempted account tr)).
Proof.
  intros Htr Hst Hp Hok Hrec Hu.
  assert (Hinv : Forall (activation_ok T period) tr → paid_up T period tr st).
  { clear Hok Hrec Hu. revert tr vs st Htr Hst.
    apply (trace_invariant (λ tr st, Forall (activation_ok T period) tr → paid_up T period tr st)).
    - by intros _ a r v Hr.
    - intros tr st e st' IH Hs [Hok [He _]%Forall_cons]%Forall_app. by eapply paid_up_step; [|done|apply IH|].
    - intros tr st e IH _ [Hok _]%Forall_app a r v Hr Hv. specialize (IH Hok _ _ _ Hr Hv).
      assert (size (claimed a tr st) ≤ size (claimed a (tr ++ [e]) st))%nat; [|nia].
      apply subseteq_size. unfold claimed. rewrite attempted_snoc. set_solver.
    - intros tr st st' IH Hr Hok a r v Ha Hv. rewrite (rv_accounts _ _ Hr) in Ha.
      unfold claimed. rewrite (rv_activations _ _ Hr). exact (IH Hok _ _ _ Ha Hv). }
  specialize (Hinv Hok _ _ _ Hrec Hu).
  assert (size (claimed account tr st) ≤ size (attempted account tr))%nat
    by (apply subseteq_size; unfold claimed; set_solver).
  nia.
Qed.

(** *** Mint quotas *)

Definition op_now {R} (op : StoreOp R) : option Z :=
  match op with
  | ActivateSubscription _ _ now _ | LookupIssuance _ _ now | CommitIssuance _ _ now
  | PruneIssuanceResults now | LookupMint _ _ now | CommitMint _ _ _ now
  | PruneMintResults now => Some now
  | InsertAccount _ | Get _ => None
  end.

Definition event_now (e : Event) : option Z := op_now (ev_op e).

(** The clocks of the requests, in the order of the history. *)
Definition times (tr : list Event) : list Z := omap event_now tr.

(** The units an operation charged for good to the window [w] of [key]. *)
Definition minted (key : bytes) (w : Z) (e : Event) : Z :=
  match e with
  | @Ev _ op out =>
      match op in StoreOp R return result StoreError R → Z with
      | CommitMint _ _ q _ => λ out,
          match out with
          | Ok MintStored => if decide (quota_key q = key ∧ window_start q = w) then cost q else 0
          | _ => 0
          end
      | _ => λ _, 0
      end out
  end.

Definition total_minted (key : bytes) (w : Z) (tr : list Event) : Z :=
  foldr (λ e n, minted key w e + n) 0 tr.

Lemma total_minted_snoc key w tr e :
  total_minted key w (tr ++ [e]) = total_minted key w tr + minted key w e.
Proof.
  unfold total_minted. rewrite foldr_app. cbn. induction tr as [|e' tr IH]; cbn; lia.
Qed.

(** All charges to this window carry the same end and the same cap. *)
Definition quota_fixed (key : bytes) (w we cap : Z) (e : Event) : Prop :=
  match ev_op e with
  | CommitMint _ _ q _ =>
      quota_key q = key → window_start q = w →
      window_end q = we ∧ max_units q = cap ∧ 0 ≤ cost q
  | _ => True
  end.

Definition prune_time (e : Event) : option Z :=
  match ev_op e with PruneMintResults t => Some t | _ => None end.

Definition charged_window (e : Event) : option (bytes * Z) :=
  match ev_op e with CommitMint _ _ q _ => Some (quota_key q, window_start q) | _ => None end.

(** No result of the window is committed after the window was pruned as past. *)
Definition no_late_commit (key : bytes) (w we : Z) (tr : list Event) : Prop :=
  ∀ i j e1 e2 t, (i < j)%nat → tr !! i = Some e1 → tr !! j = Some e2 →
    prune_time e1 = Some t → charged_window e2 = Some (key, w) → t < we.

Definition quota_inv (key : bytes) (w we cap : Z) (tr : list Event) (st : MemoryState) : Prop :=
  0 ≤ total_minted key w tr ≤ cap ∧
  match mint_quotas st !! (key, w) with
  | Some (we', used, cap') => we' = we ∧ cap' = cap ∧ total_minted key w tr ≤ used ≤ cap
  | None => total_minted key w tr = 0 ∨ ∃ e t, e ∈ tr ∧ prune_time e = Some t ∧ we ≤ t
  end.

Definition op_mints {R} (op : StoreOp R) : bool :=
  match op with CommitMint _ _ _ _ | PruneMintResults _ => true | _ => false end.

Lemma quota_frame {R} (op : StoreOp R) st :
  op_mints op = false → mint_quotas (mem_op op st).1 = mint_quotas st.
Proof.
  intros Ho. destruct op; try done; cbn [mem_op].
  - unfold mem_insert. by case_decide.
  - unfold mem_activate. by repeat case_match; simplify_eq.
  - unfold mem_commit_issuance. by repeat case_match.
  - cbn. apply drop_expired_mint_frame.
Qed.

Lemma minted_other key w e : op_mints (ev_op e) = false → minted key w e = 0.
Proof. destruct e as [R op out]. by destruct op. Qed.

Lemma minted_error {R} key w (op : StoreOp R) e : minted key w (Ev op (Err e)) = 0.
Proof. by destruct op. Qed.

(** A commit that is not stored leaves the quotas alone and charges nothing. *)
Lemma commit_mint_cases key w k r q now st :
  let '(st', out) := mem_commit_mint st k r q now in
  (mint_quotas st' = mint_quotas st ∧ minted key w (Ev (CommitMint k r q now) out) = 0) ∨
  (out = Ok MintStored ∧ window_start q ≤ now < window_end q ∧
   ∃ used, default (window_end q, 0, max_units q) (mint_quotas st !! (quota_key q, window_start q))
           = (window_end q, used, max_units q) ∧ used + cost q ≤ max_units q ∧
     mint_quotas st' = <[(quota_key q, window_start q) := (window_end q, used + cost q, max_units q)]>
                         (mint_quotas st)).
Proof.
  unfold mem_commit_mint. destruct (_ <=? now); [by left|].
  destruct (drop_expired_mint_frame st k now) as (_ & _ & _ & Hq).
  destruct (mint_results _ !! k) as [ex|]; [left; split; [done|]; by destruct (mint_matches _ _)|].
  destruct (charge_quota _ q now) as [[row|]|] eqn:E; [|by left..].
  apply charge_quota_Some in E as [Hw (used & Hd & -> & Hle)]. apply is_well_formed_iff in Hw.
  right. split_and!; [done|lia|lia|]. exists used. cbn. rewrite <- Hq. done.
Qed.

(** A step that charges nothing and keeps the row of the window. *)
Lemma quota_inv_keep key w we cap tr st e st' :
  quota_inv key w we cap tr st → minted key w e = 0 →
  mint_quotas st' !! (key, w) = mint_quotas st !! (key, w) → quota_inv key w we cap (tr ++ [e]) st'.
Proof.
  intros [Htot Hrow] Hm Hq. unfold quota_inv. rewrite total_minted_snoc, Hq, Hm, Z.add_0_r. split; [done|].
  destruct (mint_quotas st !! (key, w)) as [[[we' used] cap']|]; [done|].
  destruct Hrow as [?|(e' & t & He & ? & ?)]; [by left|right]. exists e', t.
  rewrite elem_of_app. auto.
Qed.

Lemma quota_commit key w we cap tr st st' k r q now out :
  store_step st (Ev (CommitMint k r q now) out) st' →
  quota_fixed key w we cap (Ev (CommitMint k r q now) out) →
  (quota_key q = key → window_start q = w → ∀ e t, e ∈ tr → prune_time e = Some t → t < we) →
  quota_inv key w we cap tr st →
  quota_inv key w we cap (tr ++ [Ev (CommitMint k r q now) out]) st'.
Proof.
  intros Hs Hfix Hord Hinv. unfold store_step in Hs. cbn [ev_op ev_out ev_res] in Hs.
  unfold quota_fixed in Hfix. cbn in Hfix. pose proof (commit_mint_cases key w k r q now st) as Hc.
  assert (Hst : (st' = st ∧ out = Err Backend) ∨
    (st' = (mem_commit_mint st k r q now).1 ∧
     (out = (mem_commit_mint st k r q now).2 ∨ out = Err Backend))).
  { destruct Hs as [E|[-> [->| ->]]]; [right|by left|by right; auto].
    cbn [mem_op] in E. rewrite <- E. auto. }
  destruct Hst as [[-> ->]|[Est Eout]]; [by apply (quota_inv_keep _ _ _ _ _ st)|].
  destruct (mem_commit_mint st k r q now) as [st1 out1]. cbn [fst snd] in *. subst st1.
  destruct Hc as [[Hq Hm]|(-> & Hw & used & Hd & Hle & Hq)].
  { apply (quota_inv_keep _ _ _ _ _ st); [done| |by rewrite Hq].
    destruct Eout as [->| ->]; [done|apply minted_error]. }
  assert (Hm : minted key w (Ev (CommitMint k r q now) out) =
    if decide (quota_key q = key ∧ window_start q = w)
    then match out with Ok _ => cost q | Err _ => 0 end else 0)
    by (destruct Eout as [->| ->]; cbn; case_decide; done).
  case_decide as Hk.
  - destruct Hk as [<- <-]. destruct (Hfix eq_refl eq_refl) as (<- & <- & Hc0).
    destruct Hinv as [Htot Hrow]. unfold quota_inv. rewrite total_minted_snoc, Hm, Hq, lookup_insert_eq.
    assert (total_minted (quota_key q) (window_start q) tr ≤ used) as Hused.
    { destruct (mint_quotas st !! _) as [row|]; cbn in Hd.
      - subst row. lia.
      - injection Hd as <-. destruct Hrow as [->|(e & t & He & Ht & Hle')]; [done|].
        specialize (Hord eq_refl eq_refl _ _ He Ht). lia. }
    destruct out; split; lia.
  - apply (quota_inv_keep _ _ _ _ _ st); [done|done|]. rewrite Hq, lookup_insert_ne; [done|].
    intros [= <- <-]. tauto.
Qed.

Lemma quota_prune key w we cap tr st st' now out :
  store_step st (Ev (PruneMintResults now) out) st' → quota_inv key w we cap tr st →
  quota_inv key w we cap (tr ++ [Ev (PruneMintResults now) out]) st'.
Proof.
  intros Hs Hinv. pattern st'. apply (allowed_ind _ _ _ _ _ Hs); [by apply (quota_inv_keep _ _ _ _ _ st)|].
  cbn. pose proof Hinv as [Htot Hrow].
  destruct (mint_quotas st !! (key, w)) as [[[we' used] cap']|] eqn:E.
  - destruct (decide (now < we')) as [Hl|Hl].
    + apply (quota_inv_keep _ _ _ _ _ st); [done|done|]. cbn. rewrite E.
      by apply map_lookup_filter_Some.
    + destruct Hrow as (-> & -> & Hu). unfold quota_inv. rewrite total_minted_snoc. cbn.
      rewrite (proj2 (map_lookup_filter_None _ _ _)), Z.add_0_r.
      2:{ right. intros x. rewrite E. intros [= <-]. cbn. lia. }
      split; [done|]. right. eexists _, now. rewrite elem_of_app, list_elem_of_singleton.
      split_and!; [by right|done|lia].
  - apply (quota_inv_keep _ _ _ _ _ st); [done|done|]. cbn. rewrite E.
    apply map_lookup_filter_None. by left.
Qed.

Lemma quota_step key w we cap tr st e st' :
  store_step st e st' → quota_fixed key w we cap e →
  (charged_window e = Some (key, w) → ∀ e' t, e' ∈ tr → prune_time e' = Some t → t < we) →
  quota_inv key w we cap tr st → quota_inv key w we cap (tr ++ [e]) st'.
Proof.
  intros Hs Hfix Hord Hinv. destruct (op_mints (ev_op e)) eqn:Eo.
  - destruct e as [R op out]. destruct op; try done.
    + apply quota_commit with st; try done. intros <- <-. by apply Hord.
    + by apply quota_prune with st.
  - apply (quota_inv_keep _ _ _ _ _ st); [done|by apply minted_other|]. f_equal. pattern st'.
    apply (allowed_ind _ _ _ _ _ Hs); [done|]. by apply quota_frame.
Qed.

Lemma times_snoc tr e t t' :
  StronglySorted Z.le (times (tr ++ [e])) → t ∈ times tr → event_now e = Some t' → t ≤ t'.
Proof.
  unfold times. rewrite omap_app. intros Hord Ht Ht'.
  eapply StronglySorted_app_1_elem_of; [exact Hord|exact Ht|]. cbn. rewrite Ht'. by left.
Qed.

Lemma times_prefix tr e : StronglySorted Z.le (times (tr ++ [e])) → StronglySorted Z.le (times tr).
Proof. unfold times. rewrite omap_app. apply StronglySorted_app_1_l. Qed.

Lemma minted_failed key w e : is_ok (ev_out e) = false → minted key w e = 0.
Proof. destruct e as [R op [|out]]; [done|]. intros _. apply minted_error. Qed.

Lemma no_late_commit_prefix key w we tr e : no_late_commit key w we (tr ++ [e]) → no_late_commit key w we tr.
Proof.
  intros H i j e1 e2 t Hij H1 H2. eapply H; [exact Hij|by apply lookup_app_l_Some..].
Qed.

(** The units minted in one window of an account never exceed its cap, as long as the window
    is not pruned before the last result of it is committed. *)
Lemma quota_never_exceeded tr vs key w we cap :
  store_trace tr vs → 0 ≤ cap → Forall (quota_fixed key w we cap) tr →
  no_late_commit key w we tr → total_minted key w tr ≤ cap.
Proof.
  intros Htr Hcap Hfix Hord. destruct (trace_nonempty _ _ Htr) as [v Hv].
  enough (Forall (quota_fixed key w we cap) tr → no_late_commit key w we tr →
          quota_inv key w we cap tr v) as HP
    by exact (proj2 (proj1 (HP Hfix Hord))).
  clear Hfix Hord. revert tr vs v Htr Hv.
  apply (trace_invariant (λ tr v, Forall (quota_fixed key w we cap) tr →
    no_late_commit key w we tr → quota_inv key w we cap tr v)).
  - intros _ _. split; [done|]. cbn. rewrite lookup_empty. by left.
  - intros tr st e st' IH Hs [Hfix [He _]%Forall_cons]%Forall_app Hord.
    apply (quota_step _ _ _ _ _ st); try done.
    + intros Hc e' t [i Hi]%list_elem_of_lookup Ht.
      apply (Hord i (length tr) e' e t); [by eapply lookup_lt_Some|by apply lookup_app_l_Some| |done..].
      by rewrite lookup_app_r, Nat.sub_diag.
    + apply IH; [done|]. by eapply no_late_commit_prefix.
  - intros tr st e IH He [Hfix _]%Forall_app Hord. apply (quota_inv_keep _ _ _ _ _ st); try done.
    + apply IH; [done|]. by eapply no_late_commit_prefix.
    + by apply minted_failed.
  - intros tr st st' IH Hr Hfix Hord. unfold quota_inv. rewrite (rv_quotas _ _ Hr). by apply IH.
Qed.

(** *** Mint replays *)

Lemma drop_expired_keeps st key now k row :
  mint_results st !! k = Some row → now < mr_expires_at row →
  mint_results (drop_expired_mint st key now) !! k = Some row.
Proof.
  intros Hk Hn. unfold drop_expired_mint. destruct (mint_results st !! key) as [r|] eqn:E; [|done].
  destruct (Z.leb_spec (mr_expires_at r) now); [|done]. cbn. rewrite lookup_delete_ne; [done|].
  intros ->. simplify_eq. lia.
Qed.

Lemma mint_row_kept {R} (op : StoreOp R) st st' r k row :
  allowed op st st' r → mint_results st !! k = Some row →
  (∀ t, op_now op = Some t → t < mr_expires_at row) → mint_results st' !! k = Some row.
Proof.
  intros H Hk Ht. pattern st'. apply (allowed_ind _ _ _ _ _ H); [done|]. clear H.
  destruct op; cbn [mem_op op_now] in *; try done.
  - unfold mem_insert. by case_decide.
  - unfold mem_activate. by repeat case_match; simplify_eq.
  - unfold mem_commit_issuance. by repeat case_match.
  - cbn. by apply drop_expired_keeps; [|apply Ht].
  - unfold mem_commit_mint. destruct (_ <=? now); [done|].
    assert (Hd : mint_results (drop_expired_mint st key now) !! k = Some row)
      by (by apply drop_expired_keeps; [|apply Ht]).
    destruct (mint_results (drop_expired_mint st key now) !! key) eqn:E; [done|].
    destruct (charge_quota _ q now) as [[|]|]; [|done..]. cbn. rewrite lookup_insert_ne; [done|congruence].
  - cbn. apply map_lookup_filter_Some. split; [done|]. by apply Ht.
Qed.

(** The signatures an operation returns for [key], with the request they are for. *)
Definition mint_answer (key : bytes) (e : Event) : option (bytes * list bytes) :=
  match e with
  | @Ev _ op out =>
      match op in StoreOp R return result StoreError R → option (bytes * list bytes) with
      | LookupMint k h _ => λ out,
          match out with
          | Ok (MintReplay s) => if decide (k = key) then Some (h, s) else None
          | _ => None
          end
      | CommitMint k r _ _ => λ out,
          match out with
          | Ok MintStored => if decide (k = key) then Some (mr_request_hash r, mr_blind_sigs r) else None
          | Ok (MintWinner s) => if decide (k = key) then Some (mr_request_hash r, s) else None
          | _ => None
          end
      | _ => λ _, None
      end out
  end.

Lemma mint_matches_iff r h :
  mint_matches r h = true ↔ mr_request_hash r = h ∧ mr_blind_sigs r ≠ [].
Proof.
  unfold mint_matches. rewrite andb_true_iff, negb_true_iff, bool_decide_eq_true, bool_decide_eq_false. tauto.
Qed.

Lemma mint_answer_recorded key st e st' h s row :
  store_step st e st' → mint_answer key e = Some (h, s) → mint_results st !! key = Some row →
  (∀ t, event_now e = Some t → t < mr_expires_at row) →
  h = mr_request_hash row ∧ s = mr_blind_sigs row.
Proof.
  destruct e as [R op out]. unfold store_step, event_now. cbn [ev_op ev_out ev_res].
  intros Hs Hh Hrow Ht. destruct op; try done; cbn [mint_answer op_now] in *.
  - destruct out as [[| s' |]|]; try done. case_decide as Hk; [|done]. subst key0. injection Hh as <- <-.
    destruct Hs as [Hs|[? _]]; [|done]. cbn in Hs. injection Hs as _ Hs.
    rewrite (drop_expired_keeps _ _ _ _ row) in Hs; [|done|by apply Ht].
    destruct (mint_matches row request_hash) eqn:E; [|done]. apply mint_matches_iff in E as [<- _].
    by injection Hs as ->.
  - destruct Hs as [Hs|[-> _]]; [|done]. cbn [mem_op] in Hs. unfold mem_commit_mint in Hs.
    destruct (_ <=? now); [by injection Hs as _ ->|]. destruct (decide (key0 = key)) as [->|].
    + rewrite (drop_expired_keeps _ _ _ _ row) in Hs; [|done|by apply Ht]. injection Hs as _ ->.
      destruct (mint_matches row _) eqn:E; [|done]. apply mint_matches_iff in E as [E _].
      injection Hh as <- <-. done.
    + by destruct out as [[]|].
Qed.

Lemma mint_answer_ok key e x : mint_answer key e = Some x → is_ok (ev_out e) = true.
Proof. destruct e as [R op out]. destruct op; try done; by destruct out as [[]|]. Qed.

Lemma mint_answer_timed key e x : mint_answer key e = Some x → is_Some (event_now e).
Proof. destruct e as [R op out]. destruct op; try done; intros _; by eexists. Qed.

Lemma stored_row key r q now st st' :
  store_step st (Ev (CommitMint key r q now) (Ok MintStored)) st' → mint_results st' !! key = Some r.
Proof.
  intros [Hs|[? _]]; [|done]. cbn [ev_op ev_out ev_res mem_op] in Hs. unfold mem_commit_mint in Hs.
  destruct (_ <=? now); [done|].
  destruct (mint_results _ !! key); [by destruct (mint_matches _ _)|].
  destruct (charge_quota _ q now) as [[|]|]; [|done..]. injection Hs as ->. cbn. apply lookup_insert_eq.
Qed.

(** A stored result is there until it has expired. *)
Lemma stored_result_kept tr vs v key i r q now :
  store_trace tr vs → v ∈ vs →
  tr !! i = Some (Ev (CommitMint key r q now) (Ok MintStored)) →
  (∃ t, t ∈ times tr ∧ mr_expires_at r ≤ t) ∨ mint_results v !! key = Some r.
Proof.
  revert tr vs v. apply (trace_invariant (λ tr v,
    tr !! i = Some (Ev (CommitMint key r q now) (Ok MintStored)) →
    (∃ t, t ∈ times tr ∧ mr_expires_at r ≤ t) ∨ mint_results v !! key = Some r)).
  - done.
  - intros tr st e st' IH Hs [Hi|[-> <-]]%lookup_snoc_cases; [|right; by eapply stored_row].
    unfold times. rewrite omap_app. setoid_rewrite elem_of_app.
    destruct (IH Hi) as [(t & Ht & Hle)|Hrow]; [left; eauto|].
    destruct (event_now e) as [t|] eqn:Ee.
    + destruct (decide (mr_expires_at r ≤ t)).
      * left. exists t. split; [|done]. right. cbn. rewrite Ee. by left.
      * right. eapply mint_row_kept; [exact Hs|done|]. unfold event_now in Ee. rewrite Ee.
        intros t' [= <-]. lia.
    + right. eapply mint_row_kept; [exact Hs|done|]. unfold event_now in Ee. by rewrite Ee.
  - intros tr st e IH He [Hi|[-> <-]]%lookup_snoc_cases; [|done].
    destruct (IH Hi) as [(t & Ht & Hle)|Hrow]; [|by right]. left. exists t. split; [|done].
    unfold times. rewrite omap_app, elem_of_app. by left.
  - intros tr st st' IH Hr Hi. destruct (IH Hi) as [?|Hrow]; [by left|right].
    eapply lookup_weaken; [exact Hrow|]. apply (rv_mints _ _ Hr).
Qed.

(** Every answer under a request's key, until the first result expires, is that result. *)
Lemma mint_replays tr vs key i j r q now e2 h s :
  store_trace tr vs → StronglySorted Z.le (times tr) →
  tr !! i = Some (Ev (CommitMint key r q now) (Ok MintStored)) → (i < j)%nat → tr !! j = Some e2 →
  mint_answer key e2 = Some (h, s) → (∀ t, event_now e2 = Some t → t < mr_expires_at r) →
  h = mr_request_hash r ∧ s = mr_blind_sigs r.
Proof.
  intros Htr. induction Htr as [|tr st vs e st' Htr IH Hs|tr vs v st' Htr IH Hv Hr _]; [done| |done].
  intros Hord Hi Hij [Hj|[-> ->]]%lookup_snoc_cases Ha Ht.
  - apply lookup_lt_Some in Hj as Hlt. rewrite lookup_app_l in Hi by lia.
    apply IH; try done. by eapply times_prefix.
  - rewrite lookup_app_l in Hi by lia. destruct (mint_answer_timed _ _ _ Ha) as [t' Ht'].
    destruct (stored_result_kept _ _ st _ _ _ _ _ Htr ltac:(by left) Hi) as [(t & Htt & Hle)|Hrow].
    + specialize (Ht _ Ht'). pose proof (times_snoc _ _ _ _ Hord Htt Ht'). lia.
    + by eapply mint_answer_recorded.
Qed.
