(* ===== verification/PortalFile.v ===== *)
(** * The portal's file store ([crates/nil-portal/src/store/file.rs])

    One JSON snapshot holds the whole state.  Every change is written under a temporary name,
    synced, renamed over the path, and the directory is synced; a rename whose directory sync
    failed leaves the store uncertain, and nothing is answered until a later sync succeeds.
    Opening the store syncs nothing, so what a killed process left unsynced may still be undone
    by a later power loss.  The store is proved to behave as the in-memory one, and to be crash
    safe; what the missing sync at the start costs is shown by a run. *)

From S2P Require Import Prelude.
From S2P Require Import Text.
From S2P Require Import Crypto.
From S2P Require Import Token.
From S2P Require Import PortalStore.
From S2P Require Import Codec.
From Stdlib Require Import Strings.Byte ZArith Lia.
From stdpp Require Import prelude gmap strings.

Local Open Scope Z_scope.

(** ** The snapshot *)

(** Fields that are read for compatibility and never written: [recovery_code_hash] is ignored
    outright and left out; the clear-text signatures of old rows only ask for a rewrite. *)
Record RecordDto := { rd_account_number : bytes; rd_entitlement : bytes; rd_auth_pubkey : bytes }.
Record IssuanceDto := {
  id_request_hash : bytes; id_result_blob : bytes; id_blind_sig : bytes; id_replay_until : Z }.
Record MintDto := {
  md_request_hash : bytes; md_result_blob : bytes; md_blind_sigs : list bytes; md_expires_at : Z }.
Record MintQuotaDto := {
  qd_quota_key : bytes; qd_window_start : Z; qd_window_end : Z; qd_used : Z; qd_max_value : Z }.

Record SnapshotDto := {
  sn_accounts : list RecordDto;
  sn_activation_results : gmap bytes Z;
  sn_issuance_results : gmap bytes IssuanceDto;
  sn_mint_results : gmap bytes MintDto;
  sn_mint_quotas : list MintQuotaDto;
}.

Inductive DiskDto := Snapshot (s : SnapshotDto) | LegacyAccounts (accounts : list RecordDto).

Definition from_record (r : AccountRecord) : RecordDto :=
  {| rd_account_number := hex32 (account_number r); rd_entitlement := ent_str (entitlement r);
     rd_auth_pubkey := auth_str (auth_pubkey r) |}.

Definition to_record (d : RecordDto) : option AccountRecord :=
  number ← unhex32 (rd_account_number d);
  ent ← ent_from (rd_entitlement d);
  pk ← auth_from (rd_auth_pubkey d);
  Some {| account_number := number; entitlement := ent; auth_pubkey := pk |}.

(** [serde_json] on these types. *)
Class SnapshotJson := {
  to_vec_pretty : SnapshotDto → option bytes;
  disk_from_slice : bytes → option DiskDto;
}.

(** A snapshot whose unwritten fields are empty is read back as written. *)
Definition unwritten_empty (s : SnapshotDto) : Prop :=
  map_Forall (λ _ d, id_blind_sig d = []) (sn_issuance_results s) ∧
  map_Forall (λ _ d, md_blind_sigs d = []) (sn_mint_results s).

Class SnapshotJsonLaws `{SnapshotJson} : Prop :=
  disk_roundtrip : ∀ s j, unwritten_empty s → to_vec_pretty s = Some j →
    j ≠ [] ∧ disk_from_slice j = Some (Snapshot s).

Definition unhex_bytes (value : bytes) : option bytes :=
  if negb (Nat.even (length value)) || negb (forallb is_lower_hex value) then None
  else decode_pairs lower_nib value.

(** ** Faults of one operation

    The random reads for the sealed rows, the sync of [ensure_durable], the write and rename of
    the snapshot, and the sync that follows it. *)
Record FileIo := {
  io_nonce : ResultKind → bytes → option bytes;
  io_resync : bool;
  io_write : bool;
  io_sync : bool;
}.

Definition file_io_ok (io : FileIo) : Prop :=
  ∀ kind key n, io_nonce io kind key = Some n → length n = RESULT_NONCE_LEN.

(** [pf_disk] is the file the path names, [pf_prior] the one it may still name after a power loss
    while the store is uncertain, [pf_stale] those it may still name because an earlier process
    was killed before it had synced the directory, and none has been synced since. *)
Record FileStore := {
  pf_state : MemoryState;
  pf_key : bytes;
  pf_uncertain : bool;
  pf_disk : option bytes;
  pf_prior : option (option bytes);
  pf_stale : list (option bytes);
}.

Definition pf_with (s : FileStore) (st : MemoryState) : FileStore :=
  {| pf_state := st; pf_key := pf_key s; pf_uncertain := pf_uncertain s; pf_disk := pf_disk s;
     pf_prior := pf_prior s; pf_stale := pf_stale s |}.

(** What the path may name after a power loss: the images this process knows of, and the stale
    ones. *)
Definition recent_images (s : FileStore) : list (option bytes) := pf_disk s :: option_list (pf_prior s).
Definition crash_images (s : FileStore) : list (option bytes) := recent_images s ++ pf_stale s.

(** What a killed process leaves unsynced. *)
Definition unsynced (s : FileStore) : list (option bytes) := option_list (pf_prior s) ++ pf_stale s.

Section FileStore.
Context `{Haead : Aead, Hjson : SnapshotJson}.

(** ** Reading a snapshot *)

Fixpoint load_rows {K A W} `{Countable K} (f : A → result StoreError (K * W)) (l : list A)
    (m : gmap K W) : result StoreError (gmap K W) :=
  match l with
  | [] => Ok m
  | a :: l => '(k, w) ← f a; load_rows f l (<[k := w]> m)
  end.

Definition load_account (d : RecordDto) : result StoreError (bytes * AccountRecord) :=
  r ← ok_or (to_record d) Backend; Ok (account_number r, r).

Definition load_activation (kv : bytes * Z) : result StoreError (bytes * Z) :=
  k ← ok_or (unhex32 kv.1) Backend; Ok (k, kv.2).

Definition load_issuance (key : bytes) (kd : bytes * IssuanceDto) :
    result StoreError (bytes * IssuanceResult) :=
  let d := kd.2 in
  k ← ok_or (unhex32 kd.1) Backend;
  h ← ok_or (unhex32 (id_request_hash d)) Backend;
  sig ← (if decide (id_result_blob d = []) then Ok []
         else
           stored ← ok_or (unhex_bytes (id_result_blob d)) Backend;
           Ok (match result_open key OneShot k h (id_replay_until d) stored with
               | Ok s => if (length s * 2 =? BLIND_TOKEN_HEX_LEN)%nat then s else []
               | Err _ => []
               end));
  Ok (k, {| ir_request_hash := h; ir_blind_sig := sig; ir_replay_until := id_replay_until d |}).

Definition load_mint (key : bytes) (kd : bytes * MintDto) : result StoreError (bytes * MintResult) :=
  let d := kd.2 in
  k ← ok_or (unhex32 kd.1) Backend;
  h ← ok_or (unhex32 (md_request_hash d)) Backend;
  sigs ← (if decide (md_result_blob d = []) then Ok []
          else
            stored ← ok_or (unhex_bytes (md_result_blob d)) Backend;
            Ok (match (payload ← result_open key SubscriptionMint k h (md_expires_at d) stored;
                       decode_mint_payload payload) with
                | Ok s => s
                | Err _ => []
                end));
  Ok (k, {| mr_request_hash := h; mr_blind_sigs := sigs; mr_expires_at := md_expires_at d |}).

Definition load_quota (d : MintQuotaDto) : result StoreError ((bytes * Z) * (Z * Z * Z)) :=
  k ← ok_or (unhex32 (qd_quota_key d)) Backend;
  _ ← ensure (qd_window_start d <? qd_window_end d) Backend;
  Ok ((k, qd_window_start d), (qd_window_end d, qd_used d, qd_max_value d)).

Definition load_snapshot (key : bytes) (s : SnapshotDto) : result StoreError MemoryState :=
  a ← load_rows load_account (sn_accounts s) ∅;
  v ← load_rows load_activation (map_to_list (sn_activation_results s)) ∅;
  i ← load_rows (load_issuance key) (map_to_list (sn_issuance_results s)) ∅;
  m ← load_rows (load_mint key) (map_to_list (sn_mint_results s)) ∅;
  q ← load_rows load_quota (sn_mint_quotas s) ∅;
  Ok {| accounts := a; activation_results := v; issuance_results := i; mint_results := m;
        mint_quotas := q |}.

Definition legacy_snapshot (l : list RecordDto) : SnapshotDto :=
  {| sn_accounts := l; sn_activation_results := ∅; sn_issuance_results := ∅; sn_mint_results := ∅;
     sn_mint_quotas := [] |}.

(** Whether rows with clear-text signatures ask for a rewrite. *)
Definition rewrite_needed (s : SnapshotDto) : bool :=
  negb (bool_decide (map_Forall (λ _ d, id_blind_sig d = []) (sn_issuance_results s)))
  || negb (bool_decide (map_Forall (λ _ d, md_blind_sigs d = []) (sn_mint_results s))).

(** The state of an image, and whether it must be rewritten. *)
Definition load_image (key : bytes) (image : option bytes) : result StoreError (MemoryState * bool) :=
  match image with
  | None | Some [] => Ok (store_empty, false)
  | Some j =>
      disk ← ok_or (disk_from_slice j) Backend;
      let s := match disk with Snapshot s => s | LegacyAccounts l => legacy_snapshot l end in
      st ← load_snapshot key s;
      Ok (st, rewrite_needed s)
  end.

(** ** Writing a snapshot *)

Definition write_issuance (key : bytes) (io : FileIo) (kr : bytes * IssuanceResult) :
    result StoreError (bytes * IssuanceDto) :=
  let '(k, r) := kr in
  blob ← (if decide (ir_blind_sig r = []) then Ok []
          else c ← result_seal key OneShot k (ir_request_hash r) (ir_replay_until r)
                     (io_nonce io OneShot k) (ir_blind_sig r);
               Ok (to_hex_fmt c));
  Ok (hex32 k, {| id_request_hash := hex32 (ir_request_hash r); id_result_blob := blob;
                  id_blind_sig := []; id_replay_until := ir_replay_until r |}).

Definition write_mint (key : bytes) (io : FileIo) (kr : bytes * MintResult) :
    result StoreError (bytes * MintDto) :=
  let '(k, r) := kr in
  blob ← (if decide (mr_blind_sigs r = []) then Ok []
          else payload ← encode_mint_payload (mr_blind_sigs r);
               c ← result_seal key SubscriptionMint k (mr_request_hash r) (mr_expires_at r)
                     (io_nonce io SubscriptionMint k) payload;
               Ok (to_hex_fmt c));
  Ok (hex32 k, {| md_request_hash := hex32 (mr_request_hash r); md_result_blob := blob;
                  md_blind_sigs := []; md_expires_at := mr_expires_at r |}).

Definition write_quota (kq : (bytes * Z) * (Z * Z * Z)) : MintQuotaDto :=
  let '((k, w), (we, used, m)) := kq in
  {| qd_quota_key := hex32 k; qd_window_start := w; qd_window_end := we; qd_used := used;
     qd_max_value := m |}.

Definition snapshot_of (key : bytes) (io : FileIo) (st : MemoryState) : result StoreError SnapshotDto :=
  i ← result_mapM (write_issuance key io) (map_to_list (issuance_results st));
  m ← result_mapM (write_mint key io) (map_to_list (mint_results st));
  Ok {| sn_accounts := from_record <$> (map_to_list (accounts st)).*2;
        sn_activation_results := list_to_map (prod_map hex32 id <$> map_to_list (activation_results st));
        sn_issuance_results := list_to_map i;
        sn_mint_results := list_to_map m;
        sn_mint_quotas := write_quota <$> map_to_list (mint_quotas st) |}.

(** The image of the state in memory, if the file was written and renamed. *)
Definition write_snapshot_and_rename (s : FileStore) (io : FileIo) : result StoreError bytes :=
  sn ← snapshot_of (pf_key s) io (pf_state s);
  j ← ok_or (to_vec_pretty sn) Backend;
  _ ← ensure (io_write io) Backend;
  Ok j.

(** The error of a failed write says whether the new file has the name already. *)
Inductive PersistError := { committed_to_path : bool }.

Definition persist (s : FileStore) (io : FileIo) : FileStore * result PersistError unit :=
  match write_snapshot_and_rename s io with
  | Err _ => (s, Err {| committed_to_path := false |})
  | Ok j =>
      if io_sync io
      then ({| pf_state := pf_state s; pf_key := pf_key s; pf_uncertain := false; pf_disk := Some j;
               pf_prior := None; pf_stale := [] |}, Ok tt)
      else ({| pf_state := pf_state s; pf_key := pf_key s; pf_uncertain := true; pf_disk := Some j;
               pf_prior := Some (pf_disk s); pf_stale := pf_stale s |}, Err {| committed_to_path := true |})
  end.

Definition ensure_durable (s : FileStore) (io : FileIo) : FileStore * result StoreError unit :=
  if negb (pf_uncertain s) then (s, Ok tt)
  else if io_resync io
  then ({| pf_state := pf_state s; pf_key := pf_key s; pf_uncertain := false; pf_disk := pf_disk s;
           pf_prior := None; pf_stale := [] |}, Ok tt)
  else (s, Err Backend).

(** The directory is not synced: the images in [stale] stay possible. *)
Definition open_with_result_key (image : option bytes) (stale : list (option bytes)) (key : bytes) (io : FileIo) :
    result StoreError FileStore :=
  '(st, rewrite) ← load_image key image;
  let s := {| pf_state := st; pf_key := key; pf_uncertain := false; pf_disk := image;
              pf_prior := None; pf_stale := stale |} in
  if rewrite : bool then
    let '(s, r) := persist s io in
    match r with Ok _ => Ok s | Err _ => Err Backend end
  else Ok s.

(** ** Operations *)

(** Persist the new state; if the file did not reach the path, put [rollback] back. *)
Definition persist_or_roll_back {R} (s : FileStore) (st rollback : MemoryState) (io : FileIo) (out : R) :
    FileStore * result StoreError R :=
  let '(s, r) := persist (pf_with s st) io in
  match r with
  | Ok _ => (s, Ok out)
  | Err e => (if committed_to_path e then s else pf_with s rollback, Err Backend)
  end.

Definition file_insert (s : FileStore) (r : AccountRecord) (io : FileIo) :
    FileStore * result StoreError unit :=
  let st := pf_state s in
  if decide (is_Some (accounts st !! account_number r)) then (s, Err Duplicate)
  else
    let st' := with_accounts st (<[account_number r := r]> (accounts st)) in
    persist_or_roll_back s st' (with_accounts st' (delete (account_number r) (accounts st'))) io tt.

Definition file_activate (s : FileStore) (account activation_key : bytes) (now by_secs : Z) (io : FileIo) :
    FileStore * result StoreError (option SubscriptionActivation) :=
  let st := pf_state s in
  match accounts st !! account with
  | None => (s, Ok None)
  | Some rec =>
      match activation_results st !! activation_key with
      | Some until => (s, Ok (Some (ActivationReplay until)))
      | None =>
          let previous := entitlement rec in
          let until := u64_saturating_add (default now (active_until (entitlement rec) now)) by_secs in
          let rec' := set_entitlement rec (Active until) in
          let st' := with_activations (with_accounts st (<[account := rec']> (accounts st)))
                       (<[activation_key := until]> (activation_results st)) in
          let back := with_activations
                        (with_accounts st' (<[account := set_entitlement rec' previous]> (accounts st')))
                        (delete activation_key (activation_results st')) in
          persist_or_roll_back s st' back io (Some (NewlyActivated until))
      end
  end.

Definition file_commit_issuance (s : FileStore) (key : bytes) (r : IssuanceResult) (now : Z) (io : FileIo) :
    FileStore * result StoreError IssuanceCommit :=
  let st := pf_state s in
  match issuance_results st !! key with
  | Some existing =>
      (s, Ok (if issuance_live existing (ir_request_hash r) now
              then IssuanceWinner (ir_blind_sig existing) else IssuanceClash))
  | None =>
      let st' := with_issuances st (<[key := r]> (issuance_results st)) in
      persist_or_roll_back s st' (with_issuances st' (delete key (issuance_results st'))) io IssuanceStored
  end.

Definition file_prune_issuance (s : FileStore) (now : Z) (io : FileIo) :
    FileStore * result StoreError nat :=
  let previous := issuance_results (pf_state s) in
  let '(st', removed) := mem_prune_issuance (pf_state s) now in
  if (removed =? 0)%nat then (pf_with s st', Ok 0%nat)
  else persist_or_roll_back s st' (with_issuances st' previous) io removed.

Definition file_lookup_mint (s : FileStore) (key request_hash : bytes) (now : Z) (io : FileIo) :
    FileStore * result StoreError MintLookup :=
  let st := pf_state s in
  let answer st' :=
    match mint_results st' !! key with
    | None => MintMissing
    | Some r => if mint_matches r request_hash then MintReplay (mr_blind_sigs r) else MintConflict
    end in
  match mint_results st !! key with
  | Some expired =>
      if mr_expires_at expired <=? now then
        let st' := with_mints st (delete key (mint_results st)) in
        persist_or_roll_back s st' (with_mints st' (<[key := expired]> (mint_results st'))) io (answer st')
      else (s, Ok (answer st))
  | None => (s, Ok (answer st))
  end.

Definition file_commit_mint (s : FileStore) (key : bytes) (r : MintResult) (q : MintQuota) (now : Z)
    (io : FileIo) : FileStore * result StoreError MintCommit :=
  let expired := match mint_results (pf_state s) !! key with
                 | Some e => if mr_expires_at e <=? now then Some e else None
                 | None => None
                 end in
  let st := drop_expired_mint (pf_state s) key now in
  let s := pf_with s st in
  match mint_results st !! key with
  | Some existing =>
      (s, Ok (if mint_matches existing (mr_request_hash r)
              then MintWinner (mr_blind_sigs existing) else MintClash))
  | None =>
      let qk := (quota_key q, window_start q) in
      let quota_previous := mint_quotas st !! qk in
      match charge_quota st q now with
      | Err e => (s, Err e)
      | Ok None => (s, Ok MintQuotaExceeded)
      | Ok (Some row) =>
          let st' := with_quotas (with_mints st (<[key := r]> (mint_results st)))
                       (<[qk := row]> (mint_quotas st)) in
          let back := with_quotas
            (with_mints st' (match expired with
                             | Some e => <[key := e]> (delete key (mint_results st'))
                             | None => delete key (mint_results st')
                             end))
            (match quota_previous with
             | Some p => <[qk := p]> (mint_quotas st')
             | None => delete qk (mint_quotas st')
             end) in
          persist_or_roll_back s st' back io MintStored
      end
  end.

Definition file_prune_mint (s : FileStore) (now : Z) (io : FileIo) : FileStore * result StoreError nat :=
  let previous_results := mint_results (pf_state s) in
  let previous_quotas := mint_quotas (pf_state s) in
  let '(st', removed) := mem_prune_mint (pf_state s) now in
  if (removed =? 0)%nat then (pf_with s st', Ok 0%nat)
  else persist_or_roll_back s st'
         (with_quotas (with_mints st' previous_results) previous_quotas) io removed.

(** Checks that precede the lock. *)
Definition refused {R} (op : StoreOp R) : bool :=
  match op with
  | CommitIssuance _ r now => (ir_replay_until r <=? now) || bool_decide (ir_blind_sig r = [])
  | CommitMint _ r _ now => mr_expires_at r <=? now
  | _ => false
  end.

Definition file_body {R} (op : StoreOp R) (io : FileIo) (s : FileStore) : FileStore * result StoreError R :=
  match op in StoreOp R return FileStore * result StoreError R with
  | InsertAccount r => file_insert s r io
  | Get account => (s, Ok (accounts (pf_state s) !! account))
  | ActivateSubscription account key now by_secs => file_activate s account key now by_secs io
  | LookupIssuance key h now => (s, Ok (mem_lookup_issuance (pf_state s) key h now))
  | CommitIssuance key r now => file_commit_issuance s key r now io
  | PruneIssuanceResults now => file_prune_issuance s now io
  | LookupMint key h now => file_lookup_mint s key h now io
  | CommitMint key r q now => file_commit_mint s key r q now io
  | PruneMintResults now => file_prune_mint s now io
  end.

Definition file_op {R} (op : StoreOp R) (io : FileIo) (s : FileStore) : FileStore * result StoreError R :=
  if refused op then (s, Err Backend)
  else
    let '(s, r) := ensure_durable s io in
    match r with
    | Err e => (s, Err e)
    | Ok _ => file_body op io s
    end.

End FileStore.

(** ** A snapshot is read back as written *)

Lemma unhex_bytes_to_hex c : unhex_bytes (to_hex_fmt c) = Some c.
Proof.
  unfold unhex_bytes. rewrite to_hex_fmt_eq, length_to_hex, Nat.even_mul, orb_true_r. cbn [negb].
  rewrite (proj2 (forallb_Forall_true _ _)) by apply to_hex_lower. cbn [negb orb].
  apply decode_pairs_to_hex. intros. by apply lower_nib_hex_digit.
Qed.

Lemma hex32_inj a b : hex32 a = hex32 b → a = b.
Proof.
  assert (∀ x, hex32 x = to_hex x) as H by (intros; apply to_hex_fmt_eq). rewrite !H. apply to_hex_inj.
Qed.

Lemma to_hex_fmt_nonempty c : c ≠ [] → to_hex_fmt c ≠ [].
Proof.
  intros Hc H. apply (f_equal length) in H. rewrite to_hex_fmt_eq, length_to_hex in H. by destruct c.
Qed.

(** Rows that each decode to a row of [m], and that cover it, load as [m]. *)
Lemma load_rows_spec {K A W} `{Countable K} (f : A → result StoreError (K * W)) (m acc : gmap K W) l :
  (∀ a, a ∈ l → ∃ k w, f a = Ok (k, w) ∧ m !! k = Some w) → acc ⊆ m →
  ∃ res, load_rows f l acc = Ok res ∧ acc ⊆ res ∧ res ⊆ m ∧
    (∀ a k w, a ∈ l → f a = Ok (k, w) → res !! k = Some w).
Proof.
  revert acc. induction l as [|a l IH]; intros acc Hl Hacc.
  - exists acc. split_and!; try done. intros a k w Ha. by apply elem_of_nil in Ha.
  - destruct (Hl a) as (k & w & Hf & Hk); [by left|]. cbn [load_rows]. rewrite Hf, Ok_bind.
    destruct (IH (<[k := w]> acc)) as (res & Hr & H1 & H2 & H3).
    { intros b Hb. apply Hl. by right. }
    { by apply insert_subseteq_l. }
    assert (Hkres : res !! k = Some w) by (eapply lookup_weaken; [apply lookup_insert_eq|exact H1]).
    exists res. split_and!; try done.
    + apply map_subseteq_spec. intros k' w' Hk'. destruct (decide (k' = k)) as [->|Hne].
      * eapply lookup_weaken in Hk'; [|exact Hacc]. congruence.
      * eapply lookup_weaken; [|exact H1]. by rewrite lookup_insert_ne.
    + intros b k' w' [->|Hb]%elem_of_cons Hf'; [congruence|by eapply H3].
Qed.

Lemma load_rows_all {K A W} `{Countable K} (f : A → result StoreError (K * W)) (m : gmap K W) l :
  (∀ a, a ∈ l → ∃ k w, f a = Ok (k, w) ∧ m !! k = Some w) →
  (∀ k w, m !! k = Some w → ∃ a, a ∈ l ∧ f a = Ok (k, w)) → load_rows f l ∅ = Ok m.
Proof.
  intros H1 H2. destruct (load_rows_spec f m ∅ l H1) as (res & Hr & _ & Hsub & Hin); [apply map_empty_subseteq|].
  rewrite Hr. f_equal. apply (anti_symm (⊆)); [done|]. apply map_subseteq_spec. intros k w Hk.
  destruct (H2 _ _ Hk) as (a & Ha & Hf). by eapply Hin.
Qed.

(** Rows written one by one under the text of their key. *)
Lemma load_written {V D} (write : bytes * V → result StoreError (bytes * D))
    (load : bytes * D → result StoreError (bytes * V)) (m : gmap bytes V) l :
  (∀ k v kd, m !! k = Some v → write (k, v) = Ok kd → kd.1 = hex32 k ∧ load kd = Ok (k, v)) →
  result_mapM write (map_to_list m) = Ok l → load_rows load (map_to_list (list_to_map l : gmap bytes D)) ∅ = Ok m.
Proof.
  intros Hw Hl. apply result_mapM_Ok in Hl.
  assert (Hin : ∀ kd, kd ∈ l ↔ ∃ k v, m !! k = Some v ∧ write (k, v) = Ok kd).
  { intros kd. split.
    - intros Hkd. destruct (Forall2_elem_r _ _ _ _ Hl Hkd) as ([k v] & Hkv & Hwr).
      exists k, v. split; [by apply elem_of_map_to_list|done].
    - intros (k & v & Hk & Hwr). apply elem_of_map_to_list in Hk.
      destruct (Forall2_elem_l _ _ _ _ Hl Hk) as (kd' & Hkd & Hwr'). congruence. }
  assert (Hnd : NoDup l.*1).
  { assert (Hnd : NoDup (hex32 <$> (map_to_list m).*1)).
    { apply NoDup_fmap_2_strong; [intros ????; apply hex32_inj|apply NoDup_fst_map_to_list]. }
    replace l.*1 with (hex32 <$> (map_to_list m).*1); [done|].
    assert (Hsub : ∀ kv, kv ∈ map_to_list m → m !! kv.1 = Some kv.2)
      by (intros [k v]; apply elem_of_map_to_list).
    clear Hin Hnd. induction Hl as [|[k v] kd l1 l2 Hwr _ IH]; [done|]. cbn. f_equal.
    - destruct (Hw k v kd) as [-> _]; [by apply (Hsub (k, v)); left|done|done].
    - apply IH. intros kv Hkv. apply Hsub. by right. }
  apply load_rows_all.
  - intros kd Hkd. assert (kd ∈ l) as (k & v & Hk & Hwr)%Hin.
    { destruct kd as [k d]. apply elem_of_map_to_list in Hkd. by apply elem_of_list_to_map in Hkd. }
    destruct (Hw _ _ _ Hk Hwr) as [_ Hload]. eauto.
  - intros k v Hk. assert (∃ kd, write (k, v) = Ok kd ∧ kd ∈ l) as (kd & Hwr & Hkd).
    { apply elem_of_map_to_list in Hk. destruct (Forall2_elem_l _ _ _ _ Hl Hk) as (kd & ? & ?). eauto. }
    exists kd. split; [|by eapply Hw]. destruct kd as [hk d]. apply elem_of_map_to_list.
    by apply elem_of_list_to_map.
Qed.

Section RoundTrip.
Context `{Haead : Aead, HaeadL : !AeadLaws, Hjson : SnapshotJson, HjsonL : !SnapshotJsonLaws}.
Variables (key : bytes) (io : FileIo).
Hypothesis Hio : file_io_ok io.

Lemma write_issuance_load k r kd :
  issuance_wf k r → write_issuance key io (k, r) = Ok kd →
  kd.1 = hex32 k ∧ id_blind_sig kd.2 = [] ∧ load_issuance key kd = Ok (k, r).
Proof.
  intros (Hk & Hh & _ & Hs) Hw. unfold write_issuance in Hw. apply bind_Ok in Hw as (blob & Hb & [= <-]).
  unfold load_issuance. cbn [fst snd id_request_hash id_result_blob id_blind_sig id_replay_until].
  split_and!; try done. rewrite !unhex32_hex32 by done. ok_step. cbn [fst snd].
  destruct (decide (ir_blind_sig r = [])) as [He|Hne].
  - injection Hb as <-. rewrite decide_True by done. ok_step. destruct r; cbn in *. by subst.
  - apply bind_Ok in Hb as (c & Hc & [= <-]).
    assert (c ≠ []) as Hcn.
    { intros ->. unfold result_seal in Hc. inv_ok Hc. injection Hc as Hc.
      apply app_eq_nil in Hc as [-> _]. by apply Hio in H0. }
    rewrite decide_False by (by apply to_hex_fmt_nonempty). rewrite unhex_bytes_to_hex. ok_step.
    rewrite (result_open_seal _ _ _ _ _ _ _ _ (Hio _ _) Hc).
    destruct Hs as [?|Hs]; [done|]. rewrite Hs. cbn. by destruct r.
Qed.

Lemma write_mint_load k r kd :
  mint_wf k r → write_mint key io (k, r) = Ok kd →
  kd.1 = hex32 k ∧ md_blind_sigs kd.2 = [] ∧ load_mint key kd = Ok (k, r).
Proof.
  intros (Hk & Hh & _ & Hs) Hw. unfold write_mint in Hw. apply bind_Ok in Hw as (blob & Hb & [= <-]).
  unfold load_mint. cbn [fst snd md_request_hash md_result_blob md_blind_sigs md_expires_at].
  split_and!; try done. rewrite !unhex32_hex32 by done. ok_step. cbn [fst snd].
  destruct (decide (mr_blind_sigs r = [])) as [He|Hne].
  - injection Hb as <-. rewrite decide_True by done. ok_step. destruct r; cbn in *. by subst.
  - apply bind_Ok in Hb as (p & Hp & Hb). apply bind_Ok in Hb as (c & Hc & [= <-]).
    assert (c ≠ []) as Hcn.
    { intros ->. unfold result_seal in Hc. inv_ok Hc. injection Hc as Hc.
      apply app_eq_nil in Hc as [-> _]. by apply Hio in H0. }
    rewrite decide_False by (by apply to_hex_fmt_nonempty). rewrite unhex_bytes_to_hex. ok_step.
    rewrite (result_open_seal _ _ _ _ _ _ _ _ (Hio _ _) Hc). ok_step.
    rewrite (proj1 (mint_payload_roundtrip _ _ Hp)). by destruct r.
Qed.

Lemma to_record_from r k : account_wf k r → to_record (from_record r) = Some r.
Proof.
  intros [Hk Hl Ha He]. unfold to_record, from_record. cbn.
  rewrite unhex32_hex32 by (by rewrite Hk). rewrite Some_bind, ent_from_str, Some_bind by done.
  rewrite auth_from_str, Some_bind by done. by destruct r.
Qed.

Lemma snapshot_roundtrip st sn :
  state_wf st → snapshot_of key io st = Ok sn → load_snapshot key sn = Ok st ∧ unwritten_empty sn.
Proof.
  intros [Ha Hv Hi Hm Hq] H. unfold snapshot_of in H.
  apply bind_Ok in H as (i & Ei & H). apply bind_Ok in H as (m & Em & [= <-]).
  split.
  - unfold load_snapshot.
    cbn [sn_accounts sn_activation_results sn_issuance_results sn_mint_results sn_mint_quotas].
    rewrite (load_rows_all load_account (accounts st)).
    2:{ intros d (r & -> & Hr)%list_elem_of_fmap. apply list_elem_of_fmap in Hr as ([k r'] & -> & Hr).
        apply elem_of_map_to_list in Hr. pose proof (Ha _ _ Hr) as Hw. exists k, r'. split; [|done].
        unfold load_account. cbn [snd]. rewrite (to_record_from r' k Hw). ok_step. by rewrite (aw_key _ _ Hw). }
    2:{ intros k r Hr. pose proof (Ha _ _ Hr) as Hw. exists (from_record r). split.
        - apply list_elem_of_fmap. exists r. split; [done|]. apply list_elem_of_fmap. exists (k, r).
          split; [done|]. by apply elem_of_map_to_list.
        - unfold load_account. rewrite (to_record_from r k Hw). ok_step. by rewrite (aw_key _ _ Hw). }
    rewrite Ok_bind, (load_written (λ kv, Ok (prod_map hex32 id kv)) load_activation (activation_results st)).
    2:{ intros k v kd Hk [= <-]. split; [done|]. unfold load_activation. cbn.
        rewrite unhex32_hex32 by (by apply Hv in Hk as []). done. }
    2:{ apply result_mapM_Ok. apply Forall2_fmap_r. apply Forall_Forall2_diag, Forall_true. done. }
    rewrite Ok_bind, (load_written (write_issuance key io) (load_issuance key) (issuance_results st)).
    2:{ intros k v kd Hk Hw. destruct (write_issuance_load k v kd) as (? & _ & ?); [by apply Hi|done..]. }
    2: done.
    rewrite Ok_bind, (load_written (write_mint key io) (load_mint key) (mint_results st)).
    2:{ intros k v kd Hk Hw. destruct (write_mint_load k v kd) as (? & _ & ?); [by apply Hm|done..]. }
    2: done.
    rewrite Ok_bind, (load_rows_all load_quota (mint_quotas st)).
    + rewrite Ok_bind. by destruct st.
    + intros d ([[k w] [[we used] cap]] & -> & Hin)%list_elem_of_fmap. apply elem_of_map_to_list in Hin.
      destruct (Hq _ _ Hin) as (Hk & _ & _ & Hlt & _). cbn in Hk, Hlt. eexists _, _. split; [|exact Hin].
      unfold load_quota. cbn. rewrite unhex32_hex32 by done. ok_step. by rewrite (proj2 (Z.ltb_lt _ _)).
    + intros [k w] [[we used] cap] Hin. destruct (Hq _ _ Hin) as (Hk & _ & _ & Hlt & _). cbn in Hk, Hlt.
      eexists. split.
      * apply list_elem_of_fmap. eexists. split; [done|]. by apply elem_of_map_to_list.
      * unfold load_quota. cbn. rewrite unhex32_hex32 by done. ok_step. by rewrite (proj2 (Z.ltb_lt _ _)).
  - apply result_mapM_Ok in Ei, Em. split; cbn; intros k d Hd; apply elem_of_list_to_map_2 in Hd.
    + destruct (Forall2_elem_r _ _ _ _ Ei Hd) as ([k' r] & Hk' & Hw). apply elem_of_map_to_list in Hk'.
      by apply (write_issuance_load k' r (k, d)); [apply Hi|].
    + destruct (Forall2_elem_r _ _ _ _ Em Hd) as ([k' r] & Hk' & Hw). apply elem_of_map_to_list in Hk'.
      by apply (write_mint_load k' r (k, d)); [apply Hm|].
Qed.

(** What a successful write leaves at the path loads as the state in memory. *)
Lemma written_loads s j :
  pf_key s = key → state_wf (pf_state s) → write_snapshot_and_rename s io = Ok j →
  load_image key (Some j) = Ok (pf_state s, false).
Proof.
  intros Hk Hwf H. unfold write_snapshot_and_rename in H. rewrite Hk in H.
  apply bind_Ok in H as (sn & Hsn & H). apply bind_Ok in H as (j' & Hj & H).
  apply ok_or_Ok in Hj. apply bind_Ok in H as (u1 & _ & [= <-]).
  destruct (snapshot_roundtrip _ _ Hwf Hsn) as [Hload Hun].
  destruct (disk_roundtrip _ _ Hun Hj) as [Hne Hd]. unfold load_image.
  destruct j' as [|b j']; [done|]. rewrite Hd. ok_step. rewrite Hload. ok_step. do 2 f_equal.
  unfold rewrite_needed. destruct Hun as [H1 H2]. by rewrite !bool_decide_true.
Qed.

End RoundTrip.

(** ** The operations against the in-memory store *)

Section Shape.
Context `{Haead : Aead, Hjson : SnapshotJson}.

Ltac open_state st :=
  destruct st as [acc act iss mnt quo];
  unfold with_accounts, with_activations, with_issuances, with_mints, with_quotas in *;
  cbn [accounts activation_results issuance_results mint_results mint_quotas] in *.

Lemma with_accounts_undo st k r :
  accounts st !! k = None →
  with_accounts (with_accounts st (<[k := r]> (accounts st))) (delete k (<[k := r]> (accounts st))) = st.
Proof. intros Hk. open_state st. by rewrite delete_insert_id. Qed.

Lemma activate_undo st account rec key e u :
  accounts st !! account = Some rec → activation_results st !! key = None →
  let rec' := set_entitlement rec e in
  let st' := with_activations (with_accounts st (<[account := rec']> (accounts st)))
               (<[key := u]> (activation_results st)) in
  with_activations
    (with_accounts st' (<[account := set_entitlement rec' (entitlement rec)]> (accounts st')))
    (delete key (activation_results st')) = st.
Proof.
  intros Ha Hk rec' st'. subst rec' st'. open_state st. destruct rec. f_equal.
  - cbn. rewrite insert_insert_eq. by apply insert_id.
  - by rewrite delete_insert_id.
Qed.

Lemma issuance_undo st k r :
  issuance_results st !! k = None →
  with_issuances (with_issuances st (<[k := r]> (issuance_results st)))
    (delete k (<[k := r]> (issuance_results st))) = st.
Proof. intros Hk. open_state st. by rewrite delete_insert_id. Qed.

Lemma mint_undo st key expired r qk row now :
  (match mint_results st !! key with
   | Some e => if mr_expires_at e <=? now then Some e else None
   | None => None
   end) = expired →
  mint_results (drop_expired_mint st key now) !! key = None →
  let st1 := drop_expired_mint st key now in
  let st' := with_quotas (with_mints st1 (<[key := r]> (mint_results st1)))
               (<[qk := row]> (mint_quotas st1)) in
  with_quotas
    (with_mints st' (match expired with
                     | Some e => <[key := e]> (delete key (mint_results st'))
                     | None => delete key (mint_results st')
                     end))
    (match mint_quotas st1 !! qk with
     | Some p => <[qk := p]> (mint_quotas st')
     | None => delete qk (mint_quotas st')
     end) = st.
Proof.
  intros He Hn st1 st'. subst st1 st'. unfold drop_expired_mint in *. destruct (mint_results st !! key) as [e|] eqn:E.
  - destruct (mr_expires_at e <=? now); [|congruence]. subst expired. open_state st. f_equal.
    + rewrite delete_insert_id by apply lookup_delete_eq. by rewrite insert_delete_id.
    + destruct (quo !! qk) eqn:Eq; [rewrite insert_insert_eq; by apply insert_id|by rewrite delete_insert_id].
  - subst expired. open_state st. f_equal.
    + by rewrite delete_insert_id.
    + destruct (quo !! qk) eqn:Eq; [rewrite insert_insert_eq; by apply insert_id|by rewrite delete_insert_id].
Qed.

(** Nothing to scrub, nothing to drop. *)
Lemma prune_issuance_none st now st' :
  mem_prune_issuance st now = (st', 0%nat) → st' = st.
Proof.
  unfold mem_prune_issuance. intros [= <- Hsz]. apply map_size_empty_inv in Hsz. open_state st.
  f_equal. apply map_eq. intros k. rewrite lookup_fmap.
  destruct (iss !! k) as [r|] eqn:E; [|done]. cbn. f_equal. unfold scrub_issuance.
  destruct (issuance_due now r) eqn:Ed; [|done]. exfalso.
  assert (filter (λ kr : bytes * IssuanceResult, issuance_due now kr.2 = true) iss !! k = Some r)
    as H by (by apply map_lookup_filter_Some).
  by rewrite Hsz, lookup_empty in H.
Qed.

Lemma filter_nothing {K V} `{Countable K} (P : K * V → Prop) `{!∀ x, Decision (P x)} (m : gmap K V) :
  (size m - size (filter P m) = 0)%nat → filter P m = m.
Proof.
  intros Hs. apply map_subseteq_size_eq; [apply map_filter_subseteq|lia].
Qed.

Lemma prune_mint_none st now st' : mem_prune_mint st now = (st', 0%nat) → st' = st.
Proof.
  unfold mem_prune_mint. intros [= <- Hsz].
  rewrite !filter_nothing by lia. by destruct st.
Qed.

(** Every operation either answers from memory - perhaps forgetting an expired row - or tries
    to persist the state of the in-memory store, with the old one to fall back to. *)
Lemma file_body_shape {R} (op : StoreOp R) io s s' r :
  refused op = false → file_body op io s = (s', r) →
  (∃ st, s' = pf_with s st ∧ (st, r) = mem_op op (pf_state s) ∧
     (st = pf_state s ∨
      ∃ key now, op_now op = Some now ∧ st = drop_expired_mint (pf_state s) key now)) ∨
  (∃ st out, mem_op op (pf_state s) = (st, Ok out) ∧
     persist_or_roll_back s st (pf_state s) io out = (s', r)).
Proof.
  assert (Hid : s = pf_with s (pf_state s)) by (by destruct s).
  assert (Hsame : ∀ (out : result StoreError R), (pf_state s, out) = mem_op op (pf_state s) → (s, out) = (s', r) →
    (∃ st, s' = pf_with s st ∧ (st, r) = mem_op op (pf_state s) ∧
     (st = pf_state s ∨ ∃ key now, op_now op = Some now ∧ st = drop_expired_mint (pf_state s) key now)) ∨
    (∃ st out, mem_op op (pf_state s) = (st, Ok out) ∧
     persist_or_roll_back s st (pf_state s) io out = (s', r))).
  { intros out Ho [= <- <-]. left. exists (pf_state s). split_and!; [done|done|by left]. }
  intros Href. destruct op; cbn [file_body refused] in *; intros Hb.
  - unfold file_insert in Hb. case_decide as Hd.
    + apply (Hsame (Err Duplicate)); [|done]. cbn [mem_op]. unfold mem_insert. by rewrite decide_True.
    + right. eexists _, tt. split; [cbn [mem_op]; unfold mem_insert; by rewrite decide_False|].
      cbn [accounts with_accounts] in Hb. rewrite with_accounts_undo in Hb; [done|].
      by apply eq_None_not_Some.
  - by apply (Hsame _ eq_refl).
  - unfold file_activate in Hb. cbn [mem_op] in *. unfold mem_activate in *.
    destruct (accounts (pf_state s) !! account) as [rec|] eqn:Ea; [|by eapply Hsame].
    destruct (activation_results (pf_state s) !! activation_key) as [u|] eqn:Ek; [by eapply Hsame|].
    right. eexists _, _. split; [done|]. rewrite activate_undo in Hb; done.
  - by apply (Hsame _ eq_refl).
  - unfold file_commit_issuance in Hb. cbn [mem_op] in *. unfold mem_commit_issuance in *. rewrite Href in *.
    destruct (issuance_results (pf_state s) !! key) as [ex|] eqn:Ek; [by eapply Hsame|].
    right. eexists _, _. split; [done|]. cbn [issuance_results with_issuances] in Hb.
    by rewrite issuance_undo in Hb.
  - unfold file_prune_issuance in Hb. cbn [mem_op] in *.
    destruct (mem_prune_issuance (pf_state s) now) as [st' n] eqn:Ep.
    destruct (Nat.eqb_spec n 0) as [->|Hn].
    + apply prune_issuance_none in Ep as ->. left. exists (pf_state s). injection Hb as <- <-.
      split_and!; [done|done|by left].
    + right. eexists _, _. split; [done|].
      assert (with_issuances st' (issuance_results (pf_state s)) = pf_state s) as Eb
        by (unfold mem_prune_issuance in Ep; injection Ep as <- _; by destruct (pf_state s)).
      by rewrite Eb in Hb.
  - unfold file_lookup_mint in Hb. cbn [mem_op] in *. unfold mem_lookup_mint, drop_expired_mint in *.
    destruct (mint_results (pf_state s) !! key) as [e|] eqn:Ek.
    + destruct (mr_expires_at e <=? now) eqn:Ee.
      * right. eexists _, _. split; [done|].
        assert (with_mints (with_mints (pf_state s) (delete key (mint_results (pf_state s))))
          (<[key := e]> (delete key (mint_results (pf_state s)))) = pf_state s) as Eb
          by (rewrite insert_delete_id by done; by destruct (pf_state s)).
        cbn [mint_results with_mints] in Hb. by rewrite Eb in Hb.
      * eapply Hsame; [|exact Hb]. by rewrite Ek.
    + eapply Hsame; [|exact Hb]. by rewrite Ek.
  - unfold file_commit_mint in Hb. cbn [mem_op] in *. unfold mem_commit_mint in *. rewrite Href in *.
    set (st1 := drop_expired_mint (pf_state s) key now) in *.
    destruct (mint_results st1 !! key) as [ex|] eqn:Ek.
    { injection Hb as <- <-. left. exists st1. split_and!; [done|done|right; by eexists _, _]. }
    destruct (charge_quota st1 q now) as [[row|]|e] eqn:Ec.
    + right. eexists _, _. split; [done|]. unfold st1 in *. rewrite (mint_undo _ _ _ _ _ _ _ eq_refl Ek) in Hb.
      done.
    + injection Hb as <- <-. left. exists st1. split_and!; [done|done|right; by eexists _, _].
    + injection Hb as <- <-. left. exists st1. split_and!; [done|done|right; by eexists _, _].
  - unfold file_prune_mint in Hb. cbn [mem_op] in *.
    destruct (mem_prune_mint (pf_state s) now) as [st' n] eqn:Ep.
    destruct (Nat.eqb_spec n 0) as [->|Hn].
    + apply prune_mint_none in Ep as ->. left. exists (pf_state s). injection Hb as <- <-.
      split_and!; [done|done|by left].
    + right. eexists _, _. split; [done|].
      assert (with_quotas (with_mints st' (mint_results (pf_state s))) (mint_quotas (pf_state s)) = pf_state s) as Eb
        by (unfold mem_prune_mint in Ep; injection Ep as <- _; by destruct (pf_state s)).
      by rewrite Eb in Hb.
Qed.

End Shape.

(** ** Crash safety *)

(** [old], as read from the disk, and [new] in memory: they differ at most in mint rows that
    had expired by [T]. *)
Record behind (T : Z) (old new : MemoryState) : Prop := {
  bh_revived : revived new old;
  bh_expired : ∀ k r, mint_results old !! k = Some r → mint_results new !! k = None → mr_expires_at r ≤ T;
}.

Lemma behind_refl T st : behind T st st.
Proof. split; [by split|]. intros k r. congruence. Qed.

Lemma behind_mono T T' old new : T ≤ T' → behind T old new → behind T' old new.
Proof. intros HT [H1 H2]. split; [done|]. intros k r Ho Hn. specialize (H2 k r Ho Hn). lia. Qed.

Lemma behind_drop T old new key now :
  now ≤ T → behind T old new → behind T old (drop_expired_mint new key now).
Proof.
  intros Hn [[H1 H2 H3 H4 H5] H6]. unfold drop_expired_mint.
  destruct (mint_results new !! key) as [r|] eqn:Er; [|by split].
  destruct (Z.leb_spec (mr_expires_at r) now) as [Hle|]; [|by split]. split.
  - split; cbn; try done. etrans; [apply delete_subseteq|done].
  - cbn. intros k r' Ho. destruct (decide (k = key)) as [->|Hne].
    + intros _. eapply lookup_weaken in Er; [|exact H4]. simplify_eq. lia.
    + rewrite lookup_delete_ne by done. by apply H6.
Qed.

Definition clock_ok {R} (T : Z) (op : StoreOp R) : Prop := ∀ t, op_now op = Some t → t ≤ T.

Section CrashSafety.
Context `{Haead : Aead, HaeadL : !AeadLaws, Hjson : SnapshotJson, HjsonL : !SnapshotJsonLaws}.

(** What an image holds, relative to one of [views]. *)
Definition image_ok (T : Z) (key : bytes) (image : option bytes) (v : MemoryState) : Prop :=
  ∃ st, load_image key image = Ok (st, false) ∧ state_wf st ∧ behind T st v.

Record file_inv (T : Z) (s : FileStore) (views : list MemoryState) : Prop := {
  fi_wf : state_wf (pf_state s);
  fi_head : ∃ vs, views = pf_state s :: vs;
  fi_disk : image_ok T (pf_key s) (pf_disk s) (pf_state s);
  fi_prior : ∀ p, pf_prior s = Some p →
    pf_uncertain s = true ∧ ∃ v, v ∈ views ∧ image_ok T (pf_key s) p v;
}.

Definition views_after {R} (r : result StoreError R) (st : MemoryState) (views : list MemoryState) :
    list MemoryState := if is_ok r then [st] else st :: views.

(** The outcome of trying to persist [st], when the store was certain. *)
Lemma persist_inv {R} T s st io (out : R) s' r views :
  file_io_ok io → pf_prior s = None → pf_uncertain s = false → state_wf st → file_inv T s views →
  persist_or_roll_back s st (pf_state s) io out = (s', r) →
  file_inv T s' (views_after r (pf_state s') views) ∧
  ((r = Ok out ∧ pf_state s' = st ∧ pf_uncertain s' = false) ∨
   (r = Err Backend ∧ (pf_state s' = pf_state s ∨ pf_state s' = st))).
Proof.
  intros Hio Hpr Hun Hwf [Hw (vs & Hv) Hd Hp]. unfold persist_or_roll_back, persist.
  destruct (write_snapshot_and_rename _ io) as [j|e] eqn:Ew.
  - pose proof (written_loads (pf_key s) io Hio (pf_with s st) j eq_refl Hwf Ew) as Hload. cbn [pf_state pf_with] in Hload.
    destruct (io_sync io); intros [= <- <-]; cbn [committed_to_path].
    + split; [|by left]. unfold views_after. cbn. split; cbn; [done|by eexists| |done].
      exists st. split_and!; [done|done|apply behind_refl].
    + split; [|right; auto]. unfold views_after. cbn. split; cbn; [done|by eexists| |].
      * exists st. split_and!; [done|done|apply behind_refl].
      * intros p [= <-]. split; [done|]. exists (pf_state s). split; [|done]. subst views. right. by left.
  - intros [= <- <-]. cbn [committed_to_path]. split; [|right; auto]. unfold views_after. cbn.
    split; cbn; [done|by eexists|done|]. intros p. by rewrite Hpr.
Qed.

Lemma ensure_durable_inv T s io views s' r :
  file_inv T s views → ensure_durable s io = (s', r) →
  pf_state s' = pf_state s ∧ pf_key s' = pf_key s ∧ file_inv T s' views ∧
  match r with
  | Ok _ => pf_uncertain s' = false ∧ pf_prior s' = None
  | Err e => e = Backend
  end.
Proof.
  intros Hinv. unfold ensure_durable. destruct (pf_uncertain s) eqn:Eu; cbn [negb].
  - destruct (io_resync io); intros [= <- <-]; cbn; [|done]. split_and!; try done.
    destruct Hinv as [Hw Hv Hd Hp]. by split.
  - intros [= <- <-]. split_and!; try done. destruct (pf_prior s) as [p|] eqn:Ep; [|done].
    destruct (fi_prior _ _ _ Hinv p Ep). congruence.
Qed.

Lemma file_op_inv {R} T (op : StoreOp R) io s s' r views :
  file_inv T s views → op_wf op → file_io_ok io → clock_ok T op → file_op op io s = (s', r) →
  file_inv T s' (views_after r (pf_state s') views) ∧
  allowed op (pf_state s) (pf_state s') r ∧ (is_ok r = true → pf_uncertain s' = false).
Proof.
  intros Hinv Hop Hio Hclk. unfold file_op.
  assert (Herr : ∀ s1, pf_state s1 = pf_state s → file_inv T s1 views → file_inv T s1 (pf_state s1 :: views)).
  { intros s1 _ [Hw Hv Hd Hp]. split; [done|by eexists|done|]. intros p Hpp. destruct (Hp p Hpp) as (? & v & ? & ?).
    split; [done|]. exists v. split; [by right|done]. }
  destruct (refused op) eqn:Eref.
  { intros [= <- <-]. split_and!; [by apply Herr| |done]. right. split; [done|by left]. }
  destruct (ensure_durable s io) as [s1 r1] eqn:Ee.
  destruct (ensure_durable_inv _ _ _ _ _ _ Hinv Ee) as (Hst & Hk & Hinv1 & Hr1).
  destruct r1 as [u1|e]; [destruct Hr1 as [Hun Hpr]|subst e].
  2:{ intros [= <- <-]. split_and!; [by apply Herr| |done]. right. split; [done|left; by rewrite Hst]. }
  intros Hb. rewrite <- Hst.
  destruct (file_body_shape op io s1 s' r Eref Hb) as [(st & -> & Hmem & Hsh)|(st & out & Hmem & Hp)].
  - cbn [pf_state pf_with]. split_and!; [|left; done|done].
    assert (Hwf : state_wf st).
    { pose proof (mem_op_wf op (pf_state s1) (fi_wf _ _ _ Hinv1) Hop) as H. by rewrite <- Hmem in H. }
    destruct Hinv1 as [Hw (vs & Hv) Hd Hp]. split; cbn; [done| | |].
    + unfold views_after. destruct (is_ok r); by eexists.
    + destruct Hd as (st0 & H1 & H2 & H3). exists st0. split_and!; try done.
      destruct Hsh as [->|(key & now & Hnow & ->)]; [done|]. apply behind_drop; [by apply Hclk|done].
    + intros p. by rewrite Hpr.
  - assert (Hwf : state_wf st).
    { pose proof (mem_op_wf op (pf_state s1) (fi_wf _ _ _ Hinv1) Hop) as H. by rewrite Hmem in H. }
    destruct (persist_inv T s1 st io out s' r views Hio Hpr Hun Hwf Hinv1 Hp) as [Hi Hc].
    split; [done|]. destruct Hc as [(-> & <- & Hu)|(-> & Hs)].
    + split; [by left|done].
    + split; [|done]. right. split; [done|]. by rewrite Hmem.
Qed.

(** Opening an image the store left behind needs no rewrite and no luck. *)
Lemma open_image T key image stale v io :
  image_ok T key image v →
  ∃ s, open_with_result_key image stale key io = Ok s ∧ file_inv T s [pf_state s] ∧
    pf_key s = key ∧ pf_stale s = stale ∧ behind T (pf_state s) v.
Proof.
  intros (st & Hl & Hwf & Hb). unfold open_with_result_key. rewrite Hl, Ok_bind. eexists. split; [done|].
  split_and!; try done. split; cbn; [done|by eexists| |done].
  exists st. split_and!; [done|done|apply behind_refl].
Qed.

(** ** Runs

    Operations with any faults, process kills and power losses at any point between them; a kill
    inside an operation is one after an operation whose sync failed and whose answer nobody got.
    [views] are the states since the last operation that reported success, [older] those that
    only stale images hold.  In a [sheltered] run no power loss brings back a stale image: the
    file system has synced the directory by itself before the power fails. *)

Definition older_after (s : FileStore) (older : list MemoryState) : list MemoryState :=
  if decide (pf_stale s = []) then [] else older.

Inductive file_run (sheltered : bool) (T : Z) (key : bytes) :
    list Event → FileStore → list MemoryState → list MemoryState → Prop :=
  | run_open io s :
      open_with_result_key None [] key io = Ok s → file_run sheltered T key [] s [pf_state s] []
  | run_op tr s views older R (op : StoreOp R) io s' r :
      file_run sheltered T key tr s views older → op_wf op → file_io_ok io → clock_ok T op →
      file_op op io s = (s', r) →
      file_run sheltered T key (tr ++ [Ev op r]) s' (views_after r (pf_state s') views) (older_after s' older)
  | run_kill tr s views older io s' :
      file_run sheltered T key tr s views older →
      open_with_result_key (pf_disk s) (unsynced s) key io = Ok s' →
      file_run sheltered T key tr s' [pf_state s'] (older_after s' (views ++ older))
  | run_power tr s views older image io s' :
      file_run sheltered T key tr s views older →
      image ∈ crash_images s → (sheltered = true → image ∈ recent_images s) →
      open_with_result_key image [] key io = Ok s' →
      file_run sheltered T key tr s' [pf_state s'] [].

Lemma file_inv_images T s views image :
  file_inv T s views → image ∈ recent_images s → ∃ v, v ∈ views ∧ image_ok T (pf_key s) image v.
Proof.
  intros [Hw (vs & Hv) Hd Hp] [->|Hin]%elem_of_cons.
  - exists (pf_state s). split; [subst views; by left|done].
  - destruct (pf_prior s) as [p|] eqn:Ep; [|by apply elem_of_nil in Hin].
    apply list_elem_of_singleton in Hin as ->. by destruct (Hp p eq_refl).
Qed.

(** What the stale images hold. *)
Definition stale_inv (T : Z) (s : FileStore) (older : list MemoryState) : Prop :=
  ∀ p, p ∈ pf_stale s → ∃ v, v ∈ older ∧ image_ok T (pf_key s) p v.

Lemma stale_inv_after T s s' older :
  (pf_stale s' = [] ∨ pf_stale s' = pf_stale s) → pf_key s' = pf_key s →
  stale_inv T s older → stale_inv T s' (older_after s' older).
Proof.
  unfold stale_inv, older_after. intros [E|E] Hk H; rewrite E, Hk.
  - intros p Hp. by apply elem_of_nil in Hp.
  - intros p Hp. destruct (decide _) as [E'|]; [rewrite E' in Hp; by apply elem_of_nil in Hp|by apply H].
Qed.

Lemma file_op_stale {R} (op : StoreOp R) io s :
  pf_stale (file_op op io s).1 = [] ∨ pf_stale (file_op op io s).1 = pf_stale s.
Proof.
  assert (Hpers : ∀ Q s st back (out : Q),
    pf_stale (persist_or_roll_back s st back io out).1 = [] ∨ pf_stale (persist_or_roll_back s st back io out).1 = pf_stale s).
  { intros. unfold persist_or_roll_back, persist. repeat case_match; simplify_eq; auto. }
  assert (Hbody : ∀ s, pf_stale (file_body op io s).1 = [] ∨ pf_stale (file_body op io s).1 = pf_stale s).
  { intros s1. destruct op; cbn [file_body]; auto;
      unfold file_insert, file_activate, file_commit_issuance, file_prune_issuance, file_lookup_mint,
        file_commit_mint, file_prune_mint;
      repeat case_match; simplify_eq; auto; apply (Hpers _ (pf_with s1 _)). }
  unfold file_op. destruct (refused op); [by right|]. unfold ensure_durable.
  destruct (negb (pf_uncertain s)); [apply Hbody|]. destruct (io_resync io); [|by right].
  destruct (Hbody {| pf_state := pf_state s; pf_key := pf_key s; pf_uncertain := false; pf_disk := pf_disk s;
    pf_prior := None; pf_stale := [] |}) as [->| ->]; by left.
Qed.

Lemma file_op_key {R} (op : StoreOp R) io s : pf_key (file_op op io s).1 = pf_key s.
Proof.
  assert (Hpers : ∀ Q s st back (out : Q), pf_key (persist_or_roll_back s st back io out).1 = pf_key s).
  { intros. unfold persist_or_roll_back, persist. repeat case_match; simplify_eq; done. }
  assert (Hens : ∀ s, pf_key (ensure_durable s io).1 = pf_key s)
    by (intros; unfold ensure_durable; repeat case_match; done).
  assert (Hbody : ∀ s, pf_key (file_body op io s).1 = pf_key s).
  { intros s1. destruct op; cbn [file_body]; try done;
      unfold file_insert, file_activate, file_commit_issuance, file_prune_issuance, file_lookup_mint,
        file_commit_mint, file_prune_mint;
      repeat case_match; simplify_eq; try done; by rewrite Hpers. }
  unfold file_op. destruct (refused op); [done|]. specialize (Hens s).
  destruct (ensure_durable s io) as [s1 [u|e]]; cbn in *; [by rewrite Hbody|done].
Qed.

Lemma open_empty key io s :
  open_with_result_key None [] key io = Ok s → ∀ T, file_inv T s [pf_state s] ∧ pf_key s = key ∧ pf_stale s = [] ∧ pf_state s = store_empty.
Proof.
  unfold open_with_result_key. cbn. intros [= <-] T. cbn. split_and!; try done.
  split; cbn; [apply store_empty_wf|by eexists| |done].
  exists store_empty. split_and!; [done|apply store_empty_wf|apply behind_refl].
Qed.

(** The disk of a run, whatever is lost. *)
Lemma file_run_inv sh T key tr s views older :
  file_run sh T key tr s views older → file_inv T s views ∧ pf_key s = key ∧ stale_inv T s older.
Proof.
  induction 1 as [io s Ho|tr s views older R op io s' r _ (Hinv & Hk & Hst) Hop Hio Hclk Hf
                 |tr s views older io s' _ (Hinv & Hk & Hst) Ho|tr s views older image io s' _ (Hinv & Hk & Hst) Him _ Ho].
  - destruct (open_empty _ _ _ Ho T) as (? & ? & E & _). split_and!; try done. intros p. rewrite E. intros Hp. by apply elem_of_nil in Hp.
  - pose proof (file_op_key op io s) as Hk'. pose proof (file_op_stale op io s) as Hs'. rewrite Hf in Hk', Hs'. cbn in Hk', Hs'.
    destruct (file_op_inv T op io s s' r views Hinv Hop Hio Hclk Hf) as (Hi & _ & _).
    split_and!; [done|congruence|by eapply stale_inv_after].
  - pose proof (fi_disk _ _ _ Hinv) as Hok. rewrite Hk in Hok.
    destruct (open_image _ _ _ (unsynced s) _ io Hok) as (s1 & Ho' & Hi & Hk' & Hs & _).
    rewrite Ho in Ho'. injection Ho' as <-. split_and!; [done|done|].
    unfold stale_inv, older_after. rewrite Hk', Hs. intros p Hp. destruct (decide _) as [E|_]; [rewrite E in Hp; by apply elem_of_nil in Hp|].
    apply elem_of_app in Hp as [Hp|Hp].
    + destruct (file_inv_images T s views p Hinv) as (v & ? & ?); [by right|]. exists v. rewrite Hk in *. split; [apply elem_of_app; by left|done].
    + destruct (Hst p Hp) as (v & ? & ?). exists v. rewrite Hk in *. split; [apply elem_of_app; by right|done].
  - assert (∃ v, image_ok T key image v) as (v & Hok).
    { rewrite <- Hk. apply elem_of_app in Him as [Him|Him]; [destruct (file_inv_images _ _ _ _ Hinv Him) as (v & _ & ?)|destruct (Hst _ Him) as (v & _ & ?)]; eauto. }
    destruct (open_image _ _ _ [] _ io Hok) as (s1 & Ho' & Hi & Hk' & Hs & _).
    rewrite Ho in Ho'. injection Ho' as <-. split_and!; [done|done|]. intros p. rewrite Hs. intros Hp. by apply elem_of_nil in Hp.
Qed.

Lemma file_run_trace T key tr s views older : file_run true T key tr s views older → store_trace tr views.
Proof.
  induction 1 as [io s Ho|tr s views older R op io s' r Hrun Htr Hop Hio Hclk Hf
                 |tr s views older io s' Hrun Htr Ho|tr s views older image io s' Hrun Htr _ Him Ho].
  - destruct (open_empty _ _ _ Ho 0) as (_ & _ & _ & ->). constructor.
  - destruct (file_run_inv _ _ _ _ _ _ _ Hrun) as (Hinv & _ & _).
    destruct (file_op_inv T op io s s' r views Hinv Hop Hio Hclk Hf) as (_ & Ha & _).
    destruct (fi_head _ _ _ Hinv) as [vs Hv]. subst views.
    exact (trace_step tr (pf_state s) vs (Ev op r) (pf_state s') Htr Ha).
  - destruct (file_run_inv _ _ _ _ _ _ _ Hrun) as (Hinv & Hk & _). pose proof (fi_disk _ _ _ Hinv) as Hok. rewrite Hk in Hok.
    destruct (open_image _ _ _ (unsynced s) _ io Hok) as (s1 & Ho' & Hi & _ & _ & Hb). rewrite Ho in Ho'. injection Ho' as <-.
    destruct (fi_head _ _ _ Hinv) as [vs Hv]. subst views. eapply trace_crash; [exact Htr|by left|apply Hb|apply Hi].
  - destruct (file_run_inv _ _ _ _ _ _ _ Hrun) as (Hinv & Hk & _).
    destruct (file_inv_images _ _ _ _ Hinv (Him eq_refl)) as (v & Hv & Hok). rewrite Hk in Hok.
    destruct (open_image _ _ _ [] _ io Hok) as (s1 & Ho' & Hi & _ & _ & Hb). rewrite Ho in Ho'. injection Ho' as <-.
    eapply trace_crash; [exact Htr|exact Hv|apply Hb|apply Hi].
Qed.

(** C26.  The file store implements the store specification: every history of operations, disk
    faults, process kills and power losses in which no power loss brings back a file that an
    earlier, killed process had already replaced is one the specification allows - each answer
    is the in-memory store's or a backend failure, and a restart returns to a state since the
    last success. *)
Theorem file_store_refines T key tr s views older :
  file_run true T key tr s views older → store_trace tr views ∧ head views = Some (pf_state s).
Proof.
  intros H. split; [by eapply file_run_trace|]. destruct (file_run_inv _ _ _ _ _ _ _ H) as (Hi & _).
  by destruct (fi_head _ _ _ Hi) as [vs ->].
Qed.

(** C27.  Crash safety: after any history of operations, disk faults, kills and power losses, the
    next start succeeds, whatever file the path names by then; what it finds is, up to mint
    results that had already expired, a state since the last operation that reported success -
    that very state, if that operation was the last - or, if a process was killed before it had
    synced a rename and nothing has been synced since, a state from before that kill.  A kill
    alone loses nothing: the next process finds the state of the one that died. *)
Theorem file_store_crash_safe sheltered T key tr s views older image stale io :
  file_run sheltered T key tr s views older → image ∈ crash_images s →
  ∃ s' v, open_with_result_key image stale key io = Ok s' ∧ behind T (pf_state s') v ∧
    v ∈ views ++ older ∧ (image ∈ recent_images s → ∃ w, w ∈ views ∧ behind T (pf_state s') w) ∧
    (image = pf_disk s → behind T (pf_state s') (pf_state s)) ∧ (pf_stale s = [] → v ∈ views).
Proof.
  intros H Him. destruct (file_run_inv _ _ _ _ _ _ _ H) as (Hi & Hk & Hst).
  assert (∃ v, v ∈ views ++ older ∧ image_ok T key image v ∧ (pf_stale s = [] → v ∈ views)) as (v & Hv & Hok & Hvs).
  { rewrite <- Hk. apply elem_of_app in Him as [Him|Him].
    - destruct (file_inv_images _ _ _ _ Hi Him) as (v & ? & ?). exists v. split_and!; [apply elem_of_app; by left|done|done].
    - destruct (Hst _ Him) as (v & ? & ?). exists v. split_and!; [apply elem_of_app; by right|done|].
      intros E. rewrite E in Him. by apply elem_of_nil in Him. }
  destruct (open_image _ _ _ stale _ io Hok) as (s' & Ho & _ & _ & _ & Hb). exists s', v. split_and!; try done.
  - intros Hr. destruct (file_inv_images _ _ _ _ Hi Hr) as (w & Hw & Hok'). rewrite Hk in Hok'.
    destruct (open_image _ _ _ stale _ io Hok') as (s1 & Ho' & _ & _ & _ & Hb'). rewrite Ho in Ho'. injection Ho' as <-. eauto.
  - intros ->. pose proof (fi_disk _ _ _ Hi) as Hok'. rewrite Hk in Hok'.
    destruct (open_image _ _ _ stale _ io Hok') as (s1 & Ho' & _ & _ & _ & Hb'). rewrite Ho in Ho'. by injection Ho' as <-.
Qed.

(** The file store under one key, as a backend: restarts after a kill, and after a power loss
    that brings back no stale image. *)
Definition file_store (key : bytes) : PortalStore FileStore := {|
  StoreIo := FileIo;
  store_io_ok := file_io_ok;
  store_op R op io s := file_op op io s;
  store_view := pf_state;
  store_init s := ∃ io, open_with_result_key None [] key io = Ok s;
  store_restart s s' := ∃ io, open_with_result_key (pf_disk s) (unsynced s) key io = Ok s' ∨
    ∃ image, image ∈ recent_images s ∧ open_with_result_key image [] key io = Ok s';
|}.

Lemma file_run_mono sh T T' key tr s views older :
  T ≤ T' → file_run sh T key tr s views older → file_run sh T' key tr s views older.
Proof.
  intros HT. induction 1 as [io s Ho|tr s views older R op io s' r _ IH Hop Hio Hc E|tr s views older io s' _ IH Ho
    |tr s views older image io s' _ IH Hi Hs Ho].
  - by econstructor.
  - econstructor; try done. intros t Ht. specialize (Hc t Ht). lia.
  - by econstructor.
  - by econstructor.
Qed.

Lemma file_store_laws key : @PortalStoreLaws FileStore (file_store key).
Proof.
  intros tr s H.
  assert (∃ T views older, file_run true T key tr s views older) as (T & views & older & Hrun).
  { induction H as [s (io & Ho)|tr s R op io s' r _ (T & views & older & IH) Hop Hio E
                   |tr s s' _ (T & views & older & IH) (io & [Ho|(image & Hi & Ho)])].
    - exists 0, [pf_state s], []. by econstructor.
    - set (T' := default T (Z.max T <$> op_now op)).
      assert (T ≤ T' ∧ clock_ok T' op) as [HT Hclk].
      { unfold T', clock_ok. destruct (op_now op) as [t|]; cbn; [|done]. split; [lia|]. intros ? [= <-]. lia. }
      exists T', (views_after r (pf_state s') views), (older_after s' older).
      apply (run_op _ _ _ _ s _ _ _ _ io); [by eapply file_run_mono|done..].
    - eexists T, _, _. by eapply run_kill.
    - eexists T, _, _. eapply run_power; [exact IH|apply elem_of_app; by left|done|exact Ho]. }
  destruct (file_run_inv _ _ _ _ _ _ _ Hrun) as (Hi & _ & _). pose proof (file_run_trace _ _ _ _ _ _ Hrun) as Htr.
  destruct (fi_head _ _ _ Hi) as [vs ->]. by exists vs.
Qed.

End CrashSafety.

(** ** An executable snapshot format and witnesses *)

Module ToySnapshot.

Import ToyCodec.

#[local] Program Instance codec_record : Codec RecordDto :=
  codec_iso (λ d, (rd_account_number d, rd_entitlement d, rd_auth_pubkey d))
    (λ '(a, b, c), {| rd_account_number := a; rd_entitlement := b; rd_auth_pubkey := c |}) _.
Next Obligation. by intros []. Qed.

#[local] Program Instance codec_issuance : Codec IssuanceDto :=
  codec_iso (λ d, (id_request_hash d, id_result_blob d, id_blind_sig d, id_replay_until d))
    (λ '(a, b, c, d), {| id_request_hash := a; id_result_blob := b; id_blind_sig := c;
                         id_replay_until := d |}) _.
Next Obligation. by intros []. Qed.

#[local] Program Instance codec_mint : Codec MintDto :=
  codec_iso (λ d, (md_request_hash d, md_result_blob d, md_blind_sigs d, md_expires_at d))
    (λ '(a, b, c, d), {| md_request_hash := a; md_result_blob := b; md_blind_sigs := c;
                         md_expires_at := d |}) _.
Next Obligation. by intros []. Qed.

#[local] Program Instance codec_quota : Codec MintQuotaDto :=
  codec_iso (λ d, (qd_quota_key d, qd_window_start d, qd_window_end d, qd_used d, qd_max_value d))
    (λ '(a, b, c, d, e), {| qd_quota_key := a; qd_window_start := b; qd_window_end := c;
                            qd_used := d; qd_max_value := e |}) _.
Next Obligation. by intros []. Qed.

#[local] Program Instance codec_snapshot : Codec SnapshotDto :=
  codec_iso (λ s, (sn_accounts s, sn_activation_results s, sn_issuance_results s,
                   sn_mint_results s, sn_mint_quotas s))
    (λ '(a, b, c, d, e), {| sn_accounts := a; sn_activation_results := b;
       sn_issuance_results := c; sn_mint_results := d; sn_mint_quotas := e |}) _.
Next Obligation. by intros []. Qed.

#[export] Instance toy_snapshot_json : SnapshotJson := {|
  to_vec_pretty s := Some (x00 :: put s);
  disk_from_slice j :=
    match j with
    | x00 :: r => (λ p, Snapshot p.1) <$> get (A := SnapshotDto) r
    | x01 :: r => (λ p, LegacyAccounts p.1) <$> get (A := list RecordDto) r
    | _ => None
    end;
|}.

#[export] Instance toy_snapshot_json_laws : SnapshotJsonLaws.
Proof.
  intros s j _ Hj. assert (j = x00 :: put s) as -> by (by injection Hj). split; [done|].
  pose proof (get_put (A := SnapshotDto) s []) as H. rewrite app_nil_r in H.
  change ((λ p, Snapshot p.1) <$> get (A := SnapshotDto) (put s) = Some (Snapshot s)).
  by rewrite H.
Qed.

End ToySnapshot.

Section Witnesses.
Import Toy ToySnapshot.

Definition w_portal_key : bytes := replicate 32 x5a.
Definition w_file_io (sync : bool) : FileIo :=
  {| io_nonce _ _ := Some (replicate 12 x07); io_resync := sync; io_write := true; io_sync := sync |}.

Lemma w_file_io_ok sync : file_io_ok (w_file_io sync).
Proof. intros kind key n [= <-]. reflexivity. Qed.

Definition w_account : AccountRecord :=
  {| account_number := replicate 32 x01; entitlement := NoEntitlement; auth_pubkey := replicate 32 x02 |}.
Definition w_mint_result : MintResult :=
  {| mr_request_hash := replicate 32 x03; mr_blind_sigs := [replicate 256 x04]; mr_expires_at := 9000 |}.
Definition w_quota : MintQuota :=
  {| quota_key := replicate 32 x05; window_start := 3600; window_end := 7200; cost := 1; max_units := 2 |}.

Definition w_fs0 : FileStore :=
  {| pf_state := store_empty; pf_key := w_portal_key; pf_uncertain := false; pf_disk := None; pf_prior := None;
     pf_stale := [] |}.
Definition w_fs1 : FileStore * result StoreError unit :=
  file_op (InsertAccount w_account) (w_file_io true) w_fs0.
(** The directory sync of the mint fails: its result may or may not survive. *)
Definition w_fs2 : FileStore * result StoreError MintCommit :=
  file_op (CommitMint (replicate 32 x06) w_mint_result w_quota 4000) (w_file_io false) w_fs1.1.

Definition reopened (image : option bytes) (stale : list (option bytes)) : FileStore :=
  match open_with_result_key image stale w_portal_key (w_file_io true) with Ok s => s | Err _ => w_fs0 end.

(** The process is killed then. *)
Definition w_fs3 : FileStore := reopened (pf_disk w_fs2.1) (unsynced w_fs2.1).

Definition w_views2 : list MemoryState :=
  views_after w_fs2.2 (pf_state w_fs2.1) (views_after w_fs1.2 (pf_state w_fs1.1) [store_empty]).
Definition w_older3 : list MemoryState := older_after w_fs3 (w_views2 ++ older_after w_fs2.1 (older_after w_fs1.1 [])).

Lemma w_file_run sheltered :
  file_run sheltered 5000 w_portal_key [Ev (InsertAccount w_account) w_fs1.2;
    Ev (CommitMint (replicate 32 x06) w_mint_result w_quota 4000) w_fs2.2] w_fs3 [pf_state w_fs3] w_older3.
Proof.
  refine (run_kill sheltered 5000 w_portal_key _ w_fs2.1 w_views2 _ (w_file_io true) w_fs3 _ _); [|vm_compute; reflexivity].
  refine (run_op sheltered 5000 w_portal_key [Ev (InsertAccount w_account) w_fs1.2] w_fs1.1 _ _ _ _ (w_file_io false)
    _ _ _ _ _ _ _).
  - refine (run_op sheltered 5000 w_portal_key [] w_fs0 _ _ _ _ (w_file_io true) _ _ _ _ _ _ _).
    + exact (run_open sheltered 5000 w_portal_key (w_file_io true) w_fs0 eq_refl).
    + by split.
    + apply w_file_io_ok.
    + by intros t.
    + apply surjective_pairing.
  - split_and!; try done; try (unfold_int; cbn; lia).
    split_and!; try done.
    right. split; [done|by repeat constructor].
  - apply w_file_io_ok.
  - intros t [= <-]. lia.
  - apply surjective_pairing.
Qed.

Lemma file_store_refines_witness :
  store_trace [Ev (InsertAccount w_account) w_fs1.2;
    Ev (CommitMint (replicate 32 x06) w_mint_result w_quota 4000) w_fs2.2] [pf_state w_fs3].
Proof. exact (proj1 (file_store_refines _ _ _ _ _ _ (w_file_run true))). Defined.

(** A power loss after the kill can bring back the file without the mint. *)
Lemma file_store_crash_safe_witness :
  pf_disk w_fs1.1 ∈ crash_images w_fs3 ∧
  ∃ s' v, open_with_result_key (pf_disk w_fs1.1) [] w_portal_key (w_file_io true) = Ok s' ∧
    behind 5000 (pf_state s') v ∧ v ∈ [pf_state w_fs3] ++ w_older3.
Proof.
  assert (Hin : pf_disk w_fs1.1 ∈ crash_images w_fs3) by (vm_compute; right; left). split; [exact Hin|].
  destruct (file_store_crash_safe false _ _ _ _ _ _ _ [] (w_file_io true) (w_file_run false) Hin) as (s' & v & H1 & H2 & H3 & _).
  exists s', v. split; [exact H1|]. split; [exact H2|exact H3].
Defined.

(** The run did what its comment says. *)
Lemma w_file_run_outcomes :
  is_ok w_fs1.2 = true ∧ is_ok w_fs2.2 = false ∧ pf_uncertain w_fs2.1 = true ∧
  length (crash_images w_fs2.1) = 2%nat ∧ pf_uncertain w_fs3 = false ∧ length (crash_images w_fs3) = 2%nat.
Proof. split_and!; vm_compute; reflexivity. Qed.

(** *** What the missing sync at the start costs *)

Definition w_issuance (h sig : byte) : IssuanceResult :=
  {| ir_request_hash := replicate 32 h; ir_blind_sig := replicate 256 sig; ir_replay_until := 9000 |}.
Definition w_payment : bytes := replicate 32 x08.

(** A signature is stored, but the process is killed before the directory is synced; the next
    process replays the signature; the power fails; the third process stores another. *)
Definition w_k1 := file_op (CommitIssuance w_payment (w_issuance x01 x0a) 4000) (w_file_io false) w_fs0.
Definition w_k2 : FileStore := reopened (pf_disk w_k1.1) (unsynced w_k1.1).
Definition w_k3 := file_op (LookupIssuance w_payment (replicate 32 x01) 4000) (w_file_io true) w_k2.
Definition w_k4 : FileStore := reopened None [].
Definition w_k5 := file_op (CommitIssuance w_payment (w_issuance x02 x0b) 4000) (w_file_io true) w_k4.

Definition w_e1 : Event := Ev (CommitIssuance w_payment (w_issuance x01 x0a) 4000) w_k1.2.
Definition w_e2 : Event := Ev (LookupIssuance w_payment (replicate 32 x01) 4000) w_k3.2.
Definition w_e3 : Event := Ev (CommitIssuance w_payment (w_issuance x02 x0b) 4000) w_k5.2.
Definition w_kill_trace : list Event := (([] ++ [w_e1]) ++ [w_e2]) ++ [w_e3].

Lemma w_issuance_wf h sig now : op_wf (CommitIssuance w_payment (w_issuance h sig) now).
Proof. split_and!; try done. by right. Qed.

Lemma w_clock_ok {R} (op : StoreOp R) : op_now op = Some 4000 → clock_ok 5000 op.
Proof. intros E t Ht. rewrite E in Ht. injection Ht as <-. lia. Qed.

Lemma w_kill_run : ∃ views older, file_run false 5000 w_portal_key w_kill_trace w_k5.1 views older.
Proof.
  assert (H0 : file_run false 5000 w_portal_key [] w_fs0 [store_empty] [])
    by exact (run_open false 5000 w_portal_key (w_file_io true) w_fs0 eq_refl).
  pose proof (run_op _ _ _ _ _ _ _ _ _ _ _ _ H0 (w_issuance_wf x01 x0a 4000) (w_file_io_ok false)
    (w_clock_ok (CommitIssuance w_payment (w_issuance x01 x0a) 4000) eq_refl) (surjective_pairing w_k1)) as H1.
  assert (E2 : open_with_result_key (pf_disk w_k1.1) (unsynced w_k1.1) w_portal_key (w_file_io true) = Ok w_k2)
    by (vm_compute; reflexivity).
  pose proof (run_kill _ _ _ _ _ _ _ _ _ H1 E2) as H2.
  pose proof (run_op _ _ _ _ _ _ _ _ (LookupIssuance w_payment (replicate 32 x01) 4000) _ _ _ H2 I (w_file_io_ok true)
    (w_clock_ok (LookupIssuance w_payment (replicate 32 x01) 4000) eq_refl) (surjective_pairing w_k3)) as H3.
  assert (E4 : open_with_result_key None [] w_portal_key (w_file_io true) = Ok w_k4) by (vm_compute; reflexivity).
  assert (Hin : None ∈ crash_images w_k3.1) by (vm_compute; right; left).
  assert (Hsh : false = true → None ∈ recent_images w_k3.1) by discriminate.
  pose proof (run_power _ _ _ _ _ _ _ _ _ _ H3 Hin Hsh E4) as H4.
  eexists _, _. exact (run_op _ _ _ _ _ _ _ _ _ _ _ _ H4 (w_issuance_wf x02 x0b 4000) (w_file_io_ok true)
    (w_clock_ok (CommitIssuance w_payment (w_issuance x02 x0b) 4000) eq_refl) (surjective_pairing w_k5)).
Qed.

(** The store can hand out two signatures for one payment: opening it does not sync the
    directory, so a row that a killed process renamed into place is served as if it were
    durable, and a power loss can still take it back.  The store specification does not allow
    this history. *)
Theorem killed_process_forgets_signature :
  (∃ views older, file_run false 5000 w_portal_key w_kill_trace w_k5.1 views older) ∧
  w_k3.2 = Ok (IssuanceReplay (replicate 256 x0a)) ∧ w_k5.2 = Ok IssuanceStored ∧
  ¬ ∃ views, store_trace w_kill_trace views.
Proof.
  assert (H3 : w_k3.2 = Ok (IssuanceReplay (replicate 256 x0a))) by (vm_compute; reflexivity).
  assert (H5 : w_k5.2 = Ok IssuanceStored) by (vm_compute; reflexivity).
  split; [exact w_kill_run|]. split; [exact H3|]. split; [exact H5|].
-   intros (views & Htr).
  assert (Hx : handed_out w_payment w_e2 = Some (replicate 32 x01, replicate 256 x0a)) by (vm_compute; reflexivity).
  assert (Hy : handed_out w_payment w_e3 = Some (replicate 32 x02, replicate 256 x0b)) by (vm_compute; reflexivity).
  assert (Hin2 : w_e2 ∈ w_kill_trace) by (apply elem_of_app; left; apply elem_of_app; right; left).
  assert (Hin3 : w_e3 ∈ w_kill_trace) by (apply elem_of_app; right; left).
  pose proof (one_signature_per_key _ _ w_payment Htr _ _ _ _ Hin2 Hin3 Hx Hy) as E. vm_compute in E. discriminate E.
Qed.

End Witnesses.
