(* ===== verification/Prog.v ===== *)
(** * Request handlers as programs

    An asynchronous handler runs from one shared resource to the next; between two of them any
    other handler may run.  [prog] is such a handler: a tree of actions on the resources, each
    followed by a continuation on its answer.  [rg] is a rely-guarantee judgement over it: what
    every action of the handler satisfies, and what its result does, given what the resources
    are known to answer.  [within] bounds the number of its actions. *)

From S2P Require Import Prelude.
From Stdlib Require Import Lia.
From stdpp Require Import prelude.

Section Prog.
Context {action : Type} {answer : action → Type}.

Inductive prog (A : Type) : Type :=
  | Ret (a : A)
  | Do (op : action) (k : answer op → prog A).
Arguments Ret {A}.
Arguments Do {A}.

Definition call (op : action) : prog (answer op) := Do op Ret.

Fixpoint prog_bind {A B} (p : prog A) (f : A → prog B) : prog B :=
  match p with
  | Ret a => f a
  | Do op k => Do op (λ r, prog_bind (k r) f)
  end.

(** The [?] operator. *)
Definition try_bind {E A B} (p : prog (result E A)) (f : A → prog (result E B)) : prog (result E B) :=
  prog_bind p (λ r, match r with Ok a => f a | Err e => Ret (Err e) end).

Definition lift {E A} (r : result E A) : prog (result E A) := Ret r.

Definition prog_map {A B} (f : A → B) (p : prog A) : prog B := prog_bind p (λ a, Ret (f a)).

(** ** What a program did *)

Record Act := Acted { act_op : action; act_out : answer act_op }.

Inductive trail {A} (p : prog A) : list Act → prog A → Prop :=
  | trail_nil : trail p [] p
  | trail_snoc l op k r : trail p l (Do op k) → trail p (l ++ [Acted op r]) (k r).

(** ** Rely and guarantee *)

Section Judgement.
Context (rely : Act → Prop) (guar : list Act → action → Prop).

Fixpoint rg {A} (l : list Act) (p : prog A) (Q : list Act → A → Prop) : Prop :=
  match p with
  | Ret a => Q l a
  | Do op k => guar l op ∧ ∀ r, rely (Acted op r) → rg (l ++ [Acted op r]) (k r) Q
  end.

Lemma rg_mono {A} (p : prog A) l (Q Q' : list Act → A → Prop) :
  (∀ l a, Q l a → Q' l a) → rg l p Q → rg l p Q'.
Proof.
  intros HQ. revert l. induction p as [a|op k IH]; cbn; intros l; [apply HQ|].
  intros [Hg Hk]. split; [done|]. intros r Hr. by apply IH, Hk.
Qed.

Lemma rg_call op l (Q : list Act → answer op → Prop) :
  guar l op → (∀ r, rely (Acted op r) → Q (l ++ [Acted op r]) r) → rg l (call op) Q.
Proof. by split. Qed.

Lemma rg_bind {A B} (p : prog A) (f : A → prog B) l Q :
  rg l p (λ l a, rg l (f a) Q) → rg l (prog_bind p f) Q.
Proof.
  revert l. induction p as [a|op k IH]; cbn; intros l; [done|].
  intros [Hg Hk]. split; [done|]. intros r Hr. by apply IH, Hk.
Qed.

Lemma rg_try {E A B} (p : prog (result E A)) (f : A → prog (result E B)) l Q :
  rg l p (λ l r, match r with Ok a => rg l (f a) Q | Err e => Q l (Err e) end) →
  rg l (try_bind p f) Q.
Proof. intros H. apply rg_bind. eapply rg_mono; [|exact H]. by intros l' [a|e]. Qed.

Lemma rg_map {A B} (p : prog A) (f : A → B) l Q :
  rg l p (λ l a, Q l (f a)) → rg l (prog_map f p) Q.
Proof. intros H. by apply rg_bind. Qed.

(** The judgement follows a program along its trail. *)
Lemma rg_trail {A} (p p' : prog A) l Q :
  rg [] p Q → trail p l p' → Forall rely l → rg l p' Q.
Proof.
  intros Hp Ht. induction Ht as [|l op k r _ IH]; [done|].
  intros [Hl [Hr _]%Forall_cons]%Forall_app. by apply IH.
Qed.

(** Every action of a trail met the guarantee, given what came before it. *)
Lemma rg_actions {A} (p p' : prog A) l Q i a :
  rg [] p Q → trail p l p' → Forall rely l → l !! i = Some a → guar (take i l) (act_op a).
Proof.
  intros Hp Ht. induction Ht as [|l op k r Ht IH]; [done|].
  intros [Hl _]%Forall_app. destruct (decide (i < length l)) as [Hi|Hi].
  - rewrite lookup_app_l, take_app_le by lia. by apply IH.
  - rewrite lookup_app_r by lia. intros Ha. assert (i = length l) as ->
      by (apply lookup_lt_Some in Ha; cbn in Ha; lia).
    rewrite Nat.sub_diag in Ha. injection Ha as <-. rewrite take_app_length. cbn.
    exact (proj1 (rg_trail _ _ _ _ Hp Ht Hl)).
Qed.

End Judgement.

Lemma rg_weaken {A} rely (g1 g2 : list Act → action → Prop) (p : prog A) l Q :
  (∀ l op, g1 l op → g2 l op) → rg rely g1 l p Q → rg rely g2 l p Q.
Proof.
  intros Hg. revert l. induction p as [a|op k IH]; cbn; intros l; [done|].
  intros [H1 K]. split; [by apply Hg|]. intros r Hr. by apply IH, K.
Qed.

(** A postcondition that always holds needs no look at the program. *)
Lemma rg_always {A} rely (p : prog A) l Q : (∀ l a, Q l a) → rg rely (λ _ _, True) l p Q.
Proof. intros HQ. revert l. induction p as [a|op k IH]; cbn; auto. Qed.

Lemma rg_conj {A} rely (g1 g2 : list Act → action → Prop) (p : prog A) l Q1 Q2 :
  rg rely g1 l p Q1 → rg rely g2 l p Q2 →
  rg rely (λ l op, g1 l op ∧ g2 l op) l p (λ l a, Q1 l a ∧ Q2 l a).
Proof.
  revert l. induction p as [a|op k IH]; cbn; intros l; [done|].
  intros [H1 K1] [H2 K2]. split; [done|]. intros r Hr. apply IH; auto.
Qed.

(** ** Bounded programs *)

Fixpoint within {A} (n : nat) (p : prog A) {struct p} : Prop :=
  match p, n with
  | Ret _, _ => True
  | Do _ _, 0 => False
  | Do op k, S n => ∀ r, within n (k r)
  end.

Lemma within_mono {A} (p : prog A) n m : n ≤ m → within n p → within m p.
Proof.
  revert n m. induction p as [a|op k IH]; intros [|n] [|m] Hle; cbn; try done; [lia|].
  intros H r. apply (IH r n m); [lia|done].
Qed.

Lemma within_bind {A B} (p : prog A) (f : A → prog B) n m :
  within n p → (∀ a, within m (f a)) → within (n + m) (prog_bind p f).
Proof.
  revert n. induction p as [a|op k IH]; intros n; cbn.
  - intros _ Hf. apply (within_mono _ m); [lia|done].
  - destruct n as [|n]; [done|]. intros H Hf r. apply IH; [apply H|done].
Qed.

Lemma within_call {B} op (f : answer op → prog B) n :
  (∀ r, within n (f r)) → within (S n) (prog_bind (call op) f).
Proof. done. Qed.

Lemma within_assoc {A B C} (p : prog A) (f : A → prog B) (g : B → prog C) n :
  within n (prog_bind p (λ a, prog_bind (f a) g)) → within n (prog_bind (prog_bind p f) g).
Proof.
  revert n. induction p as [a|op k IH]; intros n; cbn; [done|].
  destruct n as [|n]; [done|]. intros H r. by apply IH.
Qed.

Lemma within_try {E A B} (p : prog (result E A)) (f : A → prog (result E B)) n m :
  within n p → (∀ a, within m (f a)) → within (n + m) (try_bind p f).
Proof. intros Hp Hf. apply within_bind; [done|]. intros [a|e]; [done|]. done. Qed.

Lemma within_map {A B} (p : prog A) (f : A → B) n : within n p → within n (prog_map f p).
Proof.
  intros H. unfold prog_map. rewrite <- (Nat.add_0_r n). by apply within_bind.
Qed.

Lemma within_trail {A} (p p' : prog A) l n :
  within n p → trail p l p' → length l ≤ n ∧ within (n - length l) p'.
Proof.
  intros Hp Ht. induction Ht as [|l op k r _ [IH1 IH2]]; [cbn; rewrite Nat.sub_0_r; split; [lia|done]|].
  rewrite length_app. cbn. destruct (n - length l) as [|m] eqn:E; [done|].
  split; [lia|]. replace (n - (length l + 1)) with m by lia. apply IH2.
Qed.

End Prog.

Arguments prog {action} answer A.
Arguments Ret {action answer A}.
Arguments Do {action answer A}.
Arguments Act {action} answer.

Declare Scope prog_scope.
Delimit Scope prog_scope with prog.
Notation "'let*' x := p 'in' q" := (prog_bind p (λ x, q))
  (at level 200, x pattern, q at level 200) : prog_scope.
Notation "'let+' x := p 'in' q" := (try_bind p (λ x, q))
  (at level 200, x pattern, q at level 200) : prog_scope.

(** Follow a handler through its binds, branches and actions. *)
Ltac rg_step :=
  lazymatch goal with
  | |- @rg _ _ _ _ _ _ ?p _ =>
      lazymatch p with
      | @try_bind _ _ _ _ _ _ _ => apply rg_try
      | @prog_bind _ _ _ _ _ _ => apply rg_bind
      | @prog_map _ _ _ _ _ _ => apply rg_map
      | @call _ _ ?op => refine (rg_call _ _ op _ _ _ _); [|intros ?r ?Hr]
      | @lift _ _ _ _ _ => unfold lift; cbn [rg]
      | @Ret _ _ _ _ => cbn [rg]
      | let '(_, _) := ?x in _ => destruct x eqn:?
      | if ?b then _ else _ => destruct b eqn:?
      | match ?x with _ => _ end => destruct x eqn:?
      end
  | |- match ?x with _ => _ end => destruct x eqn:?
  end.

(** Count a handler's actions along every branch. *)
Ltac within_step :=
  lazymatch goal with
  | |- @within _ _ _ ?n ?p =>
      lazymatch p with
      | @Ret _ _ _ _ => done
      | @call _ _ _ => by cbn
      | @prog_map _ _ _ _ _ _ => unfold prog_map
      | @try_bind _ _ _ _ _ _ _ => unfold try_bind
      | @prog_bind _ _ _ _ ?q _ =>
          lazymatch q with
          | @Ret _ _ _ _ => cbn [prog_bind]
          | @lift _ _ _ _ _ => cbn [lift prog_bind]
          | @call _ _ ?op => refine (within_call op _ _ _); intros ?r
          | @prog_bind _ _ _ _ _ _ => apply within_assoc
          | @prog_map _ _ _ _ _ _ => unfold prog_map
          | @try_bind _ _ _ _ _ _ _ => unfold try_bind
          | if ?b then _ else _ => destruct b
          | match ?x with _ => _ end => destruct x
          end
      | let '(_, _) := ?x in _ => destruct x
      | if ?b then _ else _ => destruct b
      | match ?x with _ => _ end => destruct x
      end
  end.

(** Perform the next action, calling its answer [r]. *)
Tactic Notation "rg_ask" simple_intropattern(r) :=
  repeat lazymatch goal with
    | |- @rg _ _ _ _ _ _ ?p _ =>
        lazymatch p with
        | @try_bind _ _ _ _ _ _ _ => apply rg_try
        | @prog_bind _ _ _ _ _ _ => apply rg_bind
        | @prog_map _ _ _ _ _ _ => apply rg_map
        end
    end;
  lazymatch goal with
  | |- @rg _ _ _ _ _ _ (@call _ _ ?op) _ => refine (rg_call _ _ op _ _ _ _); [try done|intros r ?]
  end.
