(* ===== verification/Portal.v ===== *)
(** * The portal's request handlers ([crates/nil-portal/src])

    Accounts and challenges ([account/auth.rs], [account/handlers.rs]), subscriptions
    ([subscription.rs]), batch minting ([mint.rs]), one-shot issuance ([tokens.rs]), checkout
    ([billing.rs]), card payments ([cards.rs]), the Monero watcher ([monero.rs]) and the
    maintenance tasks of [main.rs].  Each handler is a [prog] over the shared resources
    ([Op]): the account store, the limiters, the challenge set, the durable sets, the payment
    sets, the clock, entropy and the signer.  One [Op] is one critical section of the source. *)

From S2P Require Import Prelude.
From S2P Require Import Text.
From S2P Require Import Net.
From S2P Require Import Env.
From S2P Require Import Crypto.
From S2P Require Import Durable.
From S2P Require Import Grant.
From S2P Require Import Token.
From S2P Require Import Retry.
From S2P Require Import RateLimit.
From S2P Require Import ClientIp.
From S2P Require Import PortalStore.
From S2P Require Import Prog.
From Stdlib Require Import Strings.Byte ZArith Lia.
From stdpp Require Import prelude gmap strings.

Local Open Scope Z_scope.
Local Open Scope prog_scope.

(** ** The shared resources *)

Inductive LimiterId :=
  | CreateLimiter | AuthLimiter | MintIpLimiter | MintAccountLimiter | SubLimiter | IssueLimiter
  | CheckoutLimiter.

#[global] Instance LimiterId_eq_dec : EqDecision LimiterId.
Proof. solve_decision. Defined.

(** [SubBindings] and [Pending] hold time stamps, [Revoked] does not; [LegacyActivated] and
    [LegacyIssued] are the read-only fences of older versions. *)
Inductive SetId := SubBindings | LegacyActivated | LegacyIssued | Pending | Revoked.

Inductive Op :=
  | Store {R} (op : StoreOp R)
  | CheckN (l : LimiterId) (key : bytes) (cost : Z)
  | ReserveN (key : bytes) (cost : Z)                 (* of the account limiter *)
  | DropReservation (r : RateLimitReservation)
  | Clock                                             (* [SystemTime::now] after the epoch *)
  | Random (n : nat)                                  (* [getrandom] *)
  | RecordChallenge (nonce : bytes) (now : Z)
  | Consume (nonce : bytes) (now : Z)
  | Contains (s : SetId) (key : bytes)
  | PendingLen
  | InsertBinding (key : bytes) (now : Z)
  | InsertPending (key : bytes) (now : Z) (max_entries : nat)
  | InsertRevoked (key : bytes)
  | PruneBindings (cutoff : Z)
  | PrunePending (cutoff : Z)
  | CardContains (id : bytes) | CardInsert (id : bytes) | CardRemove (id : bytes)
  | MoneroContains (id : bytes) | MoneroExtend (ids : gset bytes)
  | BlindSign (msg : bytes)
  | PublicDer.

Definition answer (op : Op) : Type :=
  match op with
  | @Store R _ => result StoreError R
  | CheckN _ _ _ | Consume _ _ | Contains _ _ | CardContains _ | MoneroContains _ => bool
  | ReserveN _ _ => option RateLimitReservation
  | DropReservation _ | RecordChallenge _ _ | CardInsert _ | CardRemove _ | MoneroExtend _ => unit
  | Clock => option Z
  | Random _ | BlindSign _ | PublicDer => option bytes
  | PendingLen => nat
  | InsertBinding _ _ | InsertRevoked _ => result LogError bool
  | InsertPending _ _ _ => result LogError TimedInsert
  | PruneBindings _ | PrunePending _ => result LogError nat
  end.

Notation action A := (prog answer A).
Notation perform op := (@call Op answer op).

(** ** Errors and messages *)

Inductive ApiError :=
  | NotImplemented | BadRequest (msg : bytes) | Unauthorized | TooManyRequests | PaymentRequired
  | Conflict | Internal.

Inductive AuthError := AuthMalformed | AuthUnauthorized | AuthBackend.

Inductive IssueError :=
  | UnknownReference | Unpaid | AlreadyIssued | IssueMalformed | Unavailable | IssuerFailed.

Record AccountAuth := {
  aa_account_number : bytes;
  aa_challenge : bytes;
  aa_signature : bytes;
}.

Inductive CreateAccountRequest :=
  | Anonymous (account_number auth_pubkey registration_signature : bytes)
  | Email (email : bytes).

Inductive EntitlementDto := DtoNone | DtoActive | DtoExpired.

Definition entitlement_dto (e : Entitlement) : EntitlementDto :=
  match e with NoEntitlement => DtoNone | Active _ => DtoActive | Expired => DtoExpired end.

Record AccountStatusResponse := { sr_entitlement : EntitlementDto; sr_until : option Z }.

Record WebhookEvent := {
  event_type : bytes;
  transaction_id : bytes;
  payment_reference : bytes;
}.

(** The JSON body of a payment event, as [serde_json] reads it. *)
Class WebhookJson := webhook_from_slice : bytes → option WebhookEvent.

(** A [String] is UTF-8. *)
Class WebhookJsonLaws `{WebhookJson} : Prop :=
  webhook_reference_utf8 : ∀ body event, webhook_from_slice body = Some event → is_utf8 (payment_reference event) = true.

(** A [get_transfers] reply of the wallet. *)
Record Transfer := { tr_payment_id : bytes; tr_confirmations : Z; tr_amount : Z; tr_subaddr : Z * Z }.

Class RpcJson := rpc_from_slice : bytes → option (option (list Transfer)).

Inductive Rail := MoneroRail | CardRail.

Record PortalConfig := {
  account_rate_max : Z;
  checkout_rate_max : Z;
  pending_checkout_max : nat;
  rails : list Rail;
  webhook_secret : bytes;
  min_confirmations : Z;
  min_atomic : Z;
  pending_ttl : Z;
}.

Section Handlers.
Context `{Sha256, Ed25519, WebhookJson, RpcJson} (cfg : PortalConfig).

(** ** Account keys ([nil-crypto/src/account/auth.rs]) *)

Definition AUTH_SIG_LEN : nat := 64.
Definition AUTH_PUBKEY_LEN : nat := 32.
Definition ACCOUNT_SCHEME_VERSION : byte := x02.
Definition REGISTRATION_DOMAIN : bytes := str "nil.account.registration-proof".

Definition registration_message (account_number public_key : bytes) : bytes :=
  REGISTRATION_DOMAIN ++ [ACCOUNT_SCHEME_VERSION] ++ account_number ++ public_key.

(** [Signature::from_bytes] takes any 64 bytes. *)
Definition verify_auth_signature (public_key challenge signature : bytes) : bool :=
  if decide (public_key = replicate AUTH_PUBKEY_LEN x00) then false
  else match vk_from_bytes public_key, sig_from_slice signature with
       | Some vk, Some s => vk_verify vk challenge s
       | _, _ => false
       end.

Definition verify_registration_signature (account_number public_key signature : bytes) : bool :=
  verify_auth_signature public_key (registration_message account_number public_key) signature.

(** ** Authentication ([account/auth.rs]) *)

Definition CHALLENGE_TTL_SECS : Z := 120.
Definition CHALLENGE_BYTES : nat := 32.

Definition issue_challenge (now : Z) : action (option bytes) :=
  let* raw := perform (Random CHALLENGE_BYTES) in
  match raw with
  | None => Ret None
  | Some raw =>
      let nonce := to_hex_fmt raw in
      let* _ := perform (RecordChallenge nonce now) in
      Ret (Some nonce)
  end.

Definition parse_sig (s : bytes) : option bytes :=
  if (length s =? AUTH_SIG_LEN * 2)%nat then decode_pairs nib s else None.

Definition authenticate (auth : AccountAuth) (now : Z) : action (result AuthError AccountRecord) :=
  match unhex32 (aa_account_number auth) with
  | None => Ret (Err AuthMalformed)
  | Some account_number =>
      match parse_sig (aa_signature auth) with
      | None => Ret (Err AuthMalformed)
      | Some signature =>
          let* live := perform (Consume (aa_challenge auth) now) in
          if negb live then Ret (Err AuthUnauthorized)
          else
            let* got := perform (Store (Get account_number)) in
            match got with
            | Err _ => Ret (Err AuthBackend)
            | Ok None => Ret (Err AuthUnauthorized)
            | Ok (Some record) =>
                if verify_auth_signature (auth_pubkey record) (aa_challenge auth) signature
                then Ret (Ok record) else Ret (Err AuthUnauthorized)
            end
      end
  end.

Definition map_auth_err (e : AuthError) : ApiError :=
  match e with
  | AuthMalformed => BadRequest (str "malformed authentication proof")
  | AuthUnauthorized => Unauthorized
  | AuthBackend => Internal
  end.

Definition authenticated (auth : AccountAuth) (now : Z) : action (result ApiError AccountRecord) :=
  prog_map (map_err map_auth_err) (authenticate auth now).

(** A guard of the form [if !limiter.check(..) { return Err(..) }]. *)
Definition limited {E} (l : LimiterId) (ip : IpAddr) (cost : Z) (e : E) : action (result E unit) :=
  let* admitted := perform (CheckN l (ip_to_string ip) cost) in
  Ret (ensure admitted e).

Definition now_for_expiry : action Z := prog_map now_unix_secs_for_expiry (perform Clock).
Definition now_for_issuance : action Z := prog_map now_unix_secs (perform Clock).

(** ** Accounts ([account/handlers.rs]) *)

Definition parse_lower_hex (n : nat) (s : bytes) : option bytes :=
  if negb ((length s =? n * 2)%nat && forallb is_lower_hex s) then None else decode_pairs lower_nib s.

Definition create_account (ip : IpAddr) (req : CreateAccountRequest) :
    action (result ApiError bytes) :=
  let+ _ := limited CreateLimiter ip 1 TooManyRequests in
  match req with
  | Email _ => Ret (Err NotImplemented)
  | Anonymous number pubkey signature =>
      let+ number := lift (ok_or (parse_lower_hex 32 number)
        (BadRequest (str "account_number must be 64 lowercase hex characters"))) in
      let+ pubkey := lift (ok_or (parse_lower_hex AUTH_PUBKEY_LEN pubkey)
        (BadRequest (str "auth_pubkey must be 64 lowercase hex characters"))) in
      let+ signature := lift (ok_or (parse_lower_hex AUTH_SIG_LEN signature)
        (BadRequest (str "registration_signature must be 128 lowercase hex characters"))) in
      if negb (verify_registration_signature number pubkey signature) then Ret (Err Unauthorized)
      else
        let* inserted := perform (Store (InsertAccount {| account_number := number;
                                 entitlement := NoEntitlement; auth_pubkey := pubkey |})) in
        match inserted with
        | Ok _ => Ret (Ok (hex32 number))
        | Err Duplicate => Ret (Err Conflict)
        | Err Backend => Ret (Err Internal)
        end
  end.

Definition account_challenge (ip : IpAddr) : action (result ApiError bytes) :=
  let+ _ := limited AuthLimiter ip 1 TooManyRequests in
  let* now := now_for_issuance in
  prog_map (λ c, ok_or c Internal) (issue_challenge now).

Definition status_of (e : Entitlement) (now : Z) : AccountStatusResponse :=
  {| sr_entitlement := entitlement_dto e; sr_until := active_until e now |}.

Definition account_status (ip : IpAddr) (auth : AccountAuth) :
    action (result ApiError AccountStatusResponse) :=
  let+ _ := limited AuthLimiter ip 1 TooManyRequests in
  let* now := now_for_expiry in
  let+ record := authenticated auth now in
  Ret (Ok (status_of (resolved (entitlement record) now) now)).

Definition get_account : action (result ApiError bytes) := Ret (Err NotImplemented).

(** ** Payment watchers ([monero.rs], [cards.rs]) *)

Definition NULL_PAYMENT_ID : bytes := str "0000000000000000".

Definition payment_counts (min_confirmations min_atomic : Z) (t : Transfer) : bool :=
  (min_confirmations <=? tr_confirmations t) && (min_atomic <=? tr_amount t) &&
  negb (bool_decide (tr_payment_id t = [])) && negb (bool_decide (tr_payment_id t = NULL_PAYMENT_ID)).

Definition parse_confirmed (body : bytes) (min_confirmations min_atomic : Z) : option (gset bytes) :=
  resp ← rpc_from_slice body;
  Some (match resp with
        | None => ∅
        | Some incoming => list_to_set (tr_payment_id <$> filter (payment_counts min_confirmations min_atomic) incoming)
        end).

(** One poll; [body] is what the wallet replied, if it did. *)
Definition poll_once (body : option bytes) : action unit :=
  match body ≫= λ b, parse_confirmed b (min_confirmations cfg) (min_atomic cfg) with
  | None => Ret tt
  | Some confirmed => perform (MoneroExtend confirmed)
  end.

Definition rail_confirmed (r : Rail) (id : bytes) : action bool :=
  match r with
  | MoneroRail => perform (MoneroContains id)
  | CardRail =>
      let* revoked := perform (Contains Revoked id) in
      if revoked then Ret false else perform (CardContains id)
  end.

Fixpoint any_confirmed (rs : list Rail) (id : bytes) : action bool :=
  match rs with
  | [] => Ret false
  | r :: rs =>
      let* b := rail_confirmed r id in
      if b then Ret true else any_confirmed rs id
  end.

Definition is_confirmed (id : bytes) : action bool := any_confirmed (rails cfg) id.

Definition card_confirm (reference : bytes) : action bool :=
  let* revoked := perform (Contains Revoked reference) in
  if revoked then Ret false
  else
    let* known := perform (Contains Pending reference) in
    if negb known then Ret false
    else let* _ := perform (CardInsert reference) in Ret true.

Definition card_revoke (reference : bytes) : action (result LogError unit) :=
  let+ _ := perform (InsertRevoked reference) in
  let* _ := perform (CardRemove reference) in
  Ret (Ok tt).

Definition verify_hmac (secret body sig_hex : bytes) : bool :=
  let expected := hmac_sha256 secret body in
  match Text.from_hex (trim sig_hex) with
  | None => false
  | Some provided => bool_decide (length provided = length expected) && bool_decide (expected = provided)
  end.

Definition is_confirm_event (t : bytes) : bool :=
  bool_decide (t ∈ [str "confirmed"; str "payment_succeeded"; str "order_completed";
                    str "subscription_payment_success"]).
Definition is_revoke_event (t : bytes) : bool :=
  bool_decide (t ∈ [str "refund"; str "refunded"; str "chargeback"; str "subscription_cancelled"]).

Inductive WebhookStatus := HookOk | HookBadRequest | HookForbidden | HookInternal.

Definition header_get (headers : list (bytes * bytes)) (name : bytes) : option bytes :=
  (λ p : nat * (bytes * bytes), p.2.2) <$> list_find (λ h : bytes * bytes, h.1 = name) headers.

(** The signature a payment event comes with. *)
Definition webhook_signature (headers : list (bytes * bytes)) : option bytes :=
  (match header_get headers (str "x-signature") with
   | Some v => Some v
   | None => header_get headers (str "paddle-signature")
   end) ≫= header_to_str.

Definition webhook (headers : list (bytes * bytes)) (body : bytes) : action WebhookStatus :=
  match webhook_signature headers with
  | None => Ret HookBadRequest
  | Some sig =>
      if negb (verify_hmac (webhook_secret cfg) body sig) then Ret HookForbidden
      else match webhook_from_slice body with
      | None => Ret HookBadRequest
      | Some event =>
          if is_confirm_event (event_type event) then
            let* _ := card_confirm (payment_reference event) in Ret HookOk
          else if is_revoke_event (event_type event) then
            let* r := card_revoke (payment_reference event) in
            Ret (match r with Ok _ => HookOk | Err _ => HookInternal end)
          else Ret HookOk
      end
  end.

(** ** Checkout ([billing.rs]) *)

Definition REFERENCE_BYTES : nat := 32.

Definition mint_reference : action (option bytes) :=
  prog_map (fmap to_hex_fmt) (perform (Random REFERENCE_BYTES)).

Inductive CheckoutError := CheckoutLimited | CheckoutUnavailable | CheckoutInternal.

Definition checkout (ip : IpAddr) : action (result CheckoutError bytes) :=
  let+ _ := limited CheckoutLimiter ip 1 CheckoutLimited in
  let* n := perform PendingLen in
  if (pending_checkout_max cfg <=? n)%nat then Ret (Err CheckoutUnavailable)
  else
    let* reference := mint_reference in
    match reference with
    | None => Ret (Err CheckoutInternal)
    | Some reference =>
        let* now := now_for_issuance in
        let* r := perform (InsertPending reference now (pending_checkout_max cfg)) in
        Ret (match r with
             | Ok Inserted => Ok reference
             | Ok AlreadyPresent => Err CheckoutInternal
             | Ok CapacityReached => Err CheckoutUnavailable
             | Err _ => Err CheckoutUnavailable
             end)
    end.

(** ** One-shot issuance ([tokens.rs]) *)

Definition ISSUANCE_RESULT_TTL_SECS : Z := V2_VALIDITY_SECS + V2_EPOCH_SECS.

Definition issuance_key (payment_id : bytes) : bytes :=
  sha256 (str "nil/one-shot-issuance/payment/v1" ++ [x00] ++ payment_id).

Definition issuance_request_hash (blind_msg : bytes) : bytes :=
  sha256 (str "nil/one-shot-issuance/blind-request/v1" ++ [x00] ++ blind_msg).

Definition is_blind_token_size (message : bytes) : bool := (length message * 2 =? BLIND_TOKEN_HEX_LEN)%nat.

Record IssueRequest := { iq_payment_id : bytes; iq_blind_msg : bytes }.

(** What follows a lookup that found nothing. *)
Definition issue_new (payment_id blind_msg key request_hash : bytes) (now : Z) :
    action (result IssueError bytes) :=
  let* known := perform (Contains Pending payment_id) in
  if negb known then Ret (Err UnknownReference)
  else
    let* fenced := perform (Contains LegacyIssued payment_id) in
    if fenced then Ret (Err AlreadyIssued)
    else
      let* paid := is_confirmed payment_id in
      if negb paid then Ret (Err Unpaid)
      else
        let* signed := perform (BlindSign blind_msg) in
        match signed with
        | None => Ret (Err IssuerFailed)
        | Some blind_sig =>
            if negb (is_blind_token_size blind_sig) then Ret (Err IssuerFailed)
            else
              let* committed := perform (Store (CommitIssuance key
                {| ir_request_hash := request_hash; ir_blind_sig := blind_sig;
                   ir_replay_until := u64_saturating_add now ISSUANCE_RESULT_TTL_SECS |} now)) in
              Ret (match committed with
                   | Ok IssuanceStored => Ok blind_sig
                   | Ok (IssuanceWinner blind_sig) => Ok blind_sig
                   | Ok IssuanceClash => Err AlreadyIssued
                   | Err _ => Err Unavailable
                   end)
        end.

Definition issue_logic (req : IssueRequest) : action (result IssueError bytes) :=
  match Text.from_hex (iq_blind_msg req) with
  | None => Ret (Err IssueMalformed)
  | Some blind_msg =>
      if negb (is_blind_token_size blind_msg) then Ret (Err IssueMalformed)
      else
        let key := issuance_key (iq_payment_id req) in
        let request_hash := issuance_request_hash blind_msg in
        let* now := now_for_expiry in
        let* found := perform (Store (LookupIssuance key request_hash now)) in
        match found with
        | Err _ => Ret (Err Unavailable)
        | Ok (IssuanceReplay blind_sig) => Ret (Ok blind_sig)
        | Ok IssuanceConflict => Ret (Err AlreadyIssued)
        | Ok IssuanceMissing => issue_new (iq_payment_id req) blind_msg key request_hash now
        end
  end.

Inductive IssueStatus :=
  | IssueTooMany | IssuePaymentRequired | IssueConflict | IssueBadRequest | IssueUnavailable | IssueInternal.

Definition issue_status (e : IssueError) : IssueStatus :=
  match e with
  | UnknownReference | Unpaid => IssuePaymentRequired
  | AlreadyIssued => IssueConflict
  | IssueMalformed => IssueBadRequest
  | Unavailable => IssueUnavailable
  | IssuerFailed => IssueInternal
  end.

Definition issue (ip : IpAddr) (req : IssueRequest) : action (result IssueStatus bytes) :=
  let+ _ := limited IssueLimiter ip 1 IssueTooMany in
  prog_map (λ r, match r with Ok sig => Ok (to_hex_fmt sig) | Err e => Err (issue_status e) end)
    (issue_logic req).

Definition pubkey : action (option bytes) := prog_map (fmap to_hex_fmt) (perform PublicDer).

(** ** Subscriptions ([subscription.rs]) *)

Definition THIRTY_DAYS_SECS : Z := 30 * 24 * 60 * 60.

Definition binding_key (reference account_number : bytes) : bytes * bytes :=
  let digest := sha256 (str "nil.subscription.v1.binding" ++ reference ++ account_number) in
  (digest, to_hex_fmt digest).

Definition subscribe (ip : IpAddr) (auth : AccountAuth) : action (result ApiError bytes) :=
  let+ _ := limited SubLimiter ip 1 TooManyRequests in
  let* now := now_for_expiry in
  let+ record := authenticated auth now in
  let* reference := mint_reference in
  match reference with
  | None => Ret (Err Internal)
  | Some reference =>
      let key := (binding_key reference (account_number record)).2 in
      let* now := now_for_issuance in
      let* r := perform (InsertBinding key now) in
      Ret (match r with Ok true => Ok reference | _ => Err Internal end)
  end.

Record ActivateRequest := { ar_auth : AccountAuth; ar_payment_reference : bytes }.

Definition activate (ip : IpAddr) (req : ActivateRequest) :
    action (result ApiError AccountStatusResponse) :=
  let+ _ := limited SubLimiter ip 1 TooManyRequests in
  let* now := now_for_expiry in
  let+ record := authenticated (ar_auth req) now in
  let account := account_number record in
  let '(activation_key, encoded_key) := binding_key (ar_payment_reference req) account in
  let* bound := perform (Contains SubBindings encoded_key) in
  if negb bound then Ret (Err Unauthorized)
  else
    let* paid := is_confirmed (ar_payment_reference req) in
    if negb paid then Ret (Err PaymentRequired)
    else
      let* mint_now := now_for_issuance in
      if mint_now =? 0 then Ret (Err Internal)
      else
        let* fenced := perform (Contains LegacyActivated encoded_key) in
        if fenced then Ret (Ok (status_of (resolved (entitlement record) mint_now) mint_now))
        else
          let* activation := perform (Store (ActivateSubscription account activation_key mint_now THIRTY_DAYS_SECS)) in
          Ret (match activation with
               | Ok (Some result) =>
                   Ok (status_of (resolved (Active (activation_until result)) mint_now) mint_now)
               | Ok None => Err Internal
               | Err _ => Err Internal
               end).
(** ** Batch minting ([mint.rs]) *)

Definition MINT_ACCOUNT_RATE_WINDOW : Z := 3600.
Definition MINT_RESULT_TTL_SECS : Z := V2_VALIDITY_SECS + V2_EPOCH_SECS.

Definition parse_request_id (value : bytes) : result ApiError bytes :=
  if negb ((length value =? 64)%nat && forallb is_lower_hex value)
  then Err (BadRequest (str "malformed mint request id"))
  else ok_or (decode_pairs lower_nib value) (BadRequest (str "malformed mint request id")).

Definition mint_request_key (request_id : bytes) : bytes :=
  sha256 (str "nil/subscription-mint/request-key/v2" ++ [x00] ++ request_id).

Definition mint_v1_request_key (account blind_message : bytes) : bytes :=
  sha256 (str "nil/subscription-mint/request-key/v1" ++ [x00] ++ account ++ blind_message).

Definition mint_request_hash (domain account : bytes) (blind_messages : list bytes) : bytes :=
  sha256 (domain ++ account ++ be_bytes 8 (Z.of_nat (length blind_messages)) ++
          (blind_messages ≫= λ m, be_bytes 8 (Z.of_nat (length m)) ++ m)).

Definition mint_quota_key (account : bytes) : bytes :=
  sha256 (str "nil/subscription-mint/quota/v1" ++ [x00] ++ account).

Definition mint_quota (account : bytes) (cost max now : Z) : result ApiError MintQuota :=
  let window_start := now - now mod MINT_ACCOUNT_RATE_WINDOW in
  window_end ← ok_or (u64_checked_add window_start MINT_ACCOUNT_RATE_WINDOW) Internal;
  Ok {| quota_key := mint_quota_key account; window_start := window_start; window_end := window_end;
        cost := cost; max_units := max |}.

Definition from_lower_hex_blind_message (s : bytes) : option bytes :=
  if negb (length s =? BLIND_TOKEN_HEX_LEN)%nat then None else decode_pairs lower_nib s.

Definition from_hex_blind_message (s : bytes) : option bytes :=
  if negb (length s =? BLIND_TOKEN_HEX_LEN)%nat then None else decode_pairs nib s.

Definition validate_blind_batch (messages : list bytes) : result ApiError (list bytes) :=
  if bool_decide (messages = []) || (MAX_MINT_BATCH_SIZE <? length messages)%nat
  then Err (BadRequest (str "invalid mint batch size"))
  else ok_or (mapM from_lower_hex_blind_message messages) (BadRequest (str "malformed blind message")).

Fixpoint sign_all (messages signatures : list bytes) : action (result ApiError (list bytes)) :=
  match messages with
  | [] => Ret (Ok signatures)
  | m :: messages =>
      let* signed := perform (BlindSign m) in
      match signed with
      | None => Ret (Err Internal)
      | Some s => if is_blind_token_size s then sign_all messages (signatures ++ [s]) else Ret (Err Internal)
      end
  end.

(** Leaving the scope of an uncommitted reservation. *)
Definition releasing {A} (admission : RateLimitReservation) (a : A) : action A :=
  let* _ := perform (DropReservation admission) in Ret a.

Definition mint_validated (record : AccountRecord) (request_key request_hash : bytes)
    (blind_messages : list bytes) (batch_cost now : Z) : action (result ApiError (list bytes)) :=
  let* found := perform (Store (LookupMint request_key request_hash now)) in
  match found with
  | Err _ => Ret (Err Internal)
  | Ok (MintReplay blind_sigs) => Ret (Ok blind_sigs)
  | Ok MintConflict => Ret (Err Conflict)
  | Ok MintMissing =>
      match active_until (entitlement record) now with
      | None => Ret (Err PaymentRequired)
      | Some _ =>
          let* reserved := perform (ReserveN (to_hex_fmt (account_number record)) batch_cost) in
          match reserved with
          | None => Ret (Err TooManyRequests)
          | Some admission =>
              let* signed := sign_all blind_messages [] in
              match signed with
              | Err e => releasing admission (Err e)
              | Ok signatures =>
                  match mint_quota (account_number record) batch_cost (account_rate_max cfg) now with
                  | Err e => releasing admission (Err e)
                  | Ok quota =>
                      let* commit := perform (Store (CommitMint request_key
                        {| mr_request_hash := request_hash; mr_blind_sigs := signatures;
                           mr_expires_at := u64_saturating_add now MINT_RESULT_TTL_SECS |} quota now)) in
                      match commit with
                      | Err _ => releasing admission (Err Internal)
                      | Ok MintStored => Ret (Ok signatures)
                      | Ok (MintWinner blind_sigs) => releasing admission (Ok blind_sigs)
                      | Ok MintClash => releasing admission (Err Conflict)
                      | Ok MintQuotaExceeded => Ret (Err TooManyRequests)
                      end
                  end
              end
          end
      end
  end.

Definition response_from_signatures (signatures : list bytes) : result ApiError Batch :=
  if forallb is_blind_token_size signatures
  then map_err (λ _, Internal) (batch_try_from (to_hex_fmt <$> signatures))
  else Err Internal.

Record MintBatchRequest := { mb_auth : AccountAuth; mb_request_id : bytes; mb_blind_msgs : Batch }.

Definition mint_v2_domain : bytes := str "nil/subscription-mint/request/v2" ++ [x00].
Definition mint_v1_domain : bytes := str "nil/subscription-mint/request/v1" ++ [x00].

Definition mint (ip : IpAddr) (req : MintBatchRequest) : action (result ApiError Batch) :=
  let msgs := batch_items (mb_blind_msgs req) in
  let batch_cost := Z.of_nat (length msgs) in
  if U32_MAX <? batch_cost then Ret (Err (BadRequest (str "invalid mint batch size")))
  else
    let+ _ := limited MintIpLimiter ip batch_cost TooManyRequests in
    let* now := now_for_expiry in
    let+ record := authenticated (mb_auth req) now in
    let+ blind_messages := lift (validate_blind_batch msgs) in
    let+ request_id := lift (parse_request_id (mb_request_id req)) in
    let request_hash := mint_request_hash mint_v2_domain (account_number record) blind_messages in
    let+ signatures :=
      mint_validated record (mint_request_key request_id) request_hash blind_messages batch_cost now in
    Ret (response_from_signatures signatures).

Record MintRequest := { mq_auth : AccountAuth; mq_blind_msg : bytes }.

Definition mint_v1 (ip : IpAddr) (req : MintRequest) : action (result ApiError bytes) :=
  let+ _ := limited MintIpLimiter ip 1 TooManyRequests in
  let* now := now_for_expiry in
  let+ record := authenticated (mq_auth req) now in
  let+ blind_message := lift (ok_or (from_hex_blind_message (mq_blind_msg req))
                                (BadRequest (str "malformed blind message"))) in
  let account := account_number record in
  let+ signatures :=
    mint_validated record (mint_v1_request_key account blind_message)
      (mint_request_hash mint_v1_domain account [blind_message]) [blind_message] 1 now in
  Ret (ok_or (to_hex_fmt <$> last signatures) Internal).

(** ** Maintenance ([main.rs]) *)

Definition prune_results : action unit :=
  let* now := now_for_expiry in
  let* _ := perform (Store (PruneIssuanceResults now)) in
  let* _ := perform (Store (PruneMintResults now)) in
  Ret tt.

Definition prune_pending : action unit :=
  let* now := now_for_issuance in
  let* _ := perform (PrunePending (u64_saturating_sub now (pending_ttl cfg))) in
  Ret tt.

Definition prune_bindings : action unit :=
  let* now := now_for_issuance in
  let* _ := perform (PruneBindings (u64_saturating_sub now (pending_ttl cfg))) in
  Ret tt.

(** ** Everything the process runs *)

Inductive Request :=
  | CreateAccount (req : CreateAccountRequest)
  | AccountChallenge
  | AccountStatus (auth : AccountAuth)
  | GetAccount
  | Subscribe (auth : AccountAuth)
  | Activate (req : ActivateRequest)
  | MintBatch (req : MintBatchRequest)
  | MintOne (req : MintRequest)
  | Checkout
  | Issue (req : IssueRequest)
  | PubKey
  | Webhook (body : bytes)
  (* background tasks *)
  | PruneResults | PrunePendingSet | PruneBindingSet | PollMonero (body : option bytes).

Inductive Response :=
  | RejectedIp (r : ClientIpRejection)
  | AccountReply (r : result ApiError bytes)
  | ChallengeReply (r : result ApiError bytes)
  | StatusReply (r : result ApiError AccountStatusResponse)
  | NoReply
  | ReferenceReply (r : result ApiError bytes)
  | MintReply (r : result ApiError Batch)
  | MintOneReply (r : result ApiError bytes)
  | CheckoutReply (r : result CheckoutError bytes)
  | IssueReply (r : result IssueStatus bytes)
  | PubKeyReply (r : option bytes)
  | WebhookReply (s : WebhookStatus).

(** A request as it comes from the listener; background tasks ignore the rest. *)
Record Incoming := {
  in_peer : IpAddr;
  in_headers : list (bytes * bytes);
  in_request : Request;
}.

(** The routers; the handlers with a [ClientIp] argument run only when it can be resolved. *)
Definition serve (policy : ClientIpPolicy) (i : Incoming) : action Response :=
  let with_ip h :=
    match resolve policy (in_peer i) (in_headers i) with
    | Ok ip => h ip
    | Err e => Ret (RejectedIp e)
    end in
  match in_request i with
  | CreateAccount req => with_ip (λ ip, prog_map AccountReply (create_account ip req))
  | AccountChallenge => with_ip (λ ip, prog_map ChallengeReply (account_challenge ip))
  | AccountStatus auth => with_ip (λ ip, prog_map StatusReply (account_status ip auth))
  | GetAccount => prog_map AccountReply get_account
  | Subscribe auth => with_ip (λ ip, prog_map ReferenceReply (subscribe ip auth))
  | Activate req => with_ip (λ ip, prog_map StatusReply (activate ip req))
  | MintBatch req => with_ip (λ ip, prog_map MintReply (mint ip req))
  | MintOne req => with_ip (λ ip, prog_map MintOneReply (mint_v1 ip req))
  | Checkout => with_ip (λ ip, prog_map CheckoutReply (checkout ip))
  | Issue req => with_ip (λ ip, prog_map IssueReply (issue ip req))
  | PubKey => prog_map PubKeyReply pubkey
  | Webhook body => prog_map WebhookReply (webhook (in_headers i) body)
  | PruneResults => prog_map (λ _, NoReply) prune_results
  | PrunePendingSet => prog_map (λ _, NoReply) prune_pending
  | PruneBindingSet => prog_map (λ _, NoReply) prune_bindings
  | PollMonero body => prog_map (λ _, NoReply) (poll_once body)
  end.

End Handlers.
