(* ===== verification/PortalRuns.v ===== *)
(** * Runs of the portal

    The shared resources ([Portal]) give each action of a handler its answer; a run interleaves
    any number of requests and background tasks, one action at a time, with crashes and
    restarts.  The history of a run records who did what. *)

From S2P Require Import Prelude.
From S2P Require Import Text.
From S2P Require Import Net.
From S2P Require Import Crypto.
From S2P Require Import Durable.
From S2P Require Import Grant.
From S2P Require Import Token.
From S2P Require Import RateLimit.
From S2P Require Import ClientIp.
From S2P Require Import PortalStore.
From S2P Require Import Prog.
From S2P Require Import Portal.
From Stdlib Require Import Strings.Byte ZArith Lia.
From stdpp Require Import functions prelude gmap strings.

Local Open Scope Z_scope.

(** ** The resources *)

Record Portal (S : Type) := {
  p_store : S;
  p_challenges : gmap bytes Z;
  p_limiters : LimiterId → RateLimiter;
  p_bindings : LogSet Z;
  p_pending : LogSet Z;
  p_revoked : LogSet unit;
  p_activated : gset bytes;
  p_issued : gset bytes;
  p_card : gset bytes;
  p_monero : gset bytes;
}.
Arguments Build_Portal {S}.
Arguments p_store {S}.
Arguments p_challenges {S}.
Arguments p_limiters {S}.
Arguments p_bindings {S}.
Arguments p_pending {S}.
Arguments p_revoked {S}.
Arguments p_activated {S}.
Arguments p_issued {S}.
Arguments p_card {S}.
Arguments p_monero {S}.

(** What the devices do during one action. *)
Record Devices (S : Type) `{PortalStore S} := {
  d_clock : option Z;
  d_instant : Z;
  d_entropy : nat → option bytes;
  d_store : StoreIo;
  d_append : AppendIo;
  d_compact : CompactIo;
  d_sign : option bytes;
  d_der : option bytes;
}.
Arguments d_clock {S _}.
Arguments d_instant {S _}.
Arguments d_entropy {S _}.
Arguments d_store {S _}.
Arguments d_append {S _}.
Arguments d_compact {S _}.
Arguments d_sign {S _}.
Arguments d_der {S _}.

Section Resources.
Context {S : Type} `{PortalStore S}.

Definition with_store (p : Portal S) (x : S) : Portal S :=
  {| p_store := x; p_challenges := p_challenges p; p_limiters := p_limiters p;
     p_bindings := p_bindings p; p_pending := p_pending p; p_revoked := p_revoked p;
     p_activated := p_activated p; p_issued := p_issued p; p_card := p_card p; p_monero := p_monero p |}.
Definition with_challenges (p : Portal S) x : Portal S :=
  {| p_store := p_store p; p_challenges := x; p_limiters := p_limiters p;
     p_bindings := p_bindings p; p_pending := p_pending p; p_revoked := p_revoked p;
     p_activated := p_activated p; p_issued := p_issued p; p_card := p_card p; p_monero := p_monero p |}.
Definition with_limiter (p : Portal S) (l : LimiterId) (x : RateLimiter) : Portal S :=
  {| p_store := p_store p; p_challenges := p_challenges p; p_limiters := <[l := x]> (p_limiters p);
     p_bindings := p_bindings p; p_pending := p_pending p; p_revoked := p_revoked p;
     p_activated := p_activated p; p_issued := p_issued p; p_card := p_card p; p_monero := p_monero p |}.
Definition with_bindings (p : Portal S) x : Portal S :=
  {| p_store := p_store p; p_challenges := p_challenges p; p_limiters := p_limiters p;
     p_bindings := x; p_pending := p_pending p; p_revoked := p_revoked p;
     p_activated := p_activated p; p_issued := p_issued p; p_card := p_card p; p_monero := p_monero p |}.
Definition with_pending (p : Portal S) x : Portal S :=
  {| p_store := p_store p; p_challenges := p_challenges p; p_limiters := p_limiters p;
     p_bindings := p_bindings p; p_pending := x; p_revoked := p_revoked p;
     p_activated := p_activated p; p_issued := p_issued p; p_card := p_card p; p_monero := p_monero p |}.
Definition with_revoked (p : Portal S) x : Portal S :=
  {| p_store := p_store p; p_challenges := p_challenges p; p_limiters := p_limiters p;
     p_bindings := p_bindings p; p_pending := p_pending p; p_revoked := x;
     p_activated := p_activated p; p_issued := p_issued p; p_card := p_card p; p_monero := p_monero p |}.
Definition with_card (p : Portal S) x : Portal S :=
  {| p_store := p_store p; p_challenges := p_challenges p; p_limiters := p_limiters p;
     p_bindings := p_bindings p; p_pending := p_pending p; p_revoked := p_revoked p;
     p_activated := p_activated p; p_issued := p_issued p; p_card := x; p_monero := p_monero p |}.
Definition with_monero (p : Portal S) x : Portal S :=
  {| p_store := p_store p; p_challenges := p_challenges p; p_limiters := p_limiters p;
     p_bindings := p_bindings p; p_pending := p_pending p; p_revoked := p_revoked p;
     p_activated := p_activated p; p_issued := p_issued p; p_card := p_card p; p_monero := x |}.

(** [ChallengeStore::issue], after the nonce is drawn. *)
Definition challenge_issue (m : gmap bytes Z) (nonce : bytes) (now : Z) : gmap bytes Z :=
  let cutoff := u64_saturating_sub now CHALLENGE_TTL_SECS in
  <[nonce := now]> (filter (λ kt : bytes * Z, cutoff ≤ kt.2) m).

(** [ChallengeStore::consume]. *)
Definition challenge_consume (m : gmap bytes Z) (nonce : bytes) (now : Z) : gmap bytes Z * bool :=
  (delete nonce m,
   match m !! nonce with
   | Some issued_at => u64_saturating_sub now issued_at <=? CHALLENGE_TTL_SECS
   | None => false
   end).

Definition set_contains (p : Portal S) (s : SetId) (key : bytes) : bool :=
  match s with
  | SubBindings => contains (p_bindings p) key
  | LegacyActivated => bool_decide (key ∈ p_activated p)
  | LegacyIssued => bool_decide (key ∈ p_issued p)
  | Pending => contains (p_pending p) key
  | Revoked => contains (p_revoked p) key
  end.

(** One action. *)
Definition op_run (op : Op) (d : Devices S) (p : Portal S) : Portal S * answer op :=
  match op as op return Portal S * answer op with
  | Store op => let '(s, r) := store_op op (d_store d) (p_store p) in (with_store p s, r)
  | CheckN l key cost =>
      let '(x, r) := check_n (p_limiters p l) key cost (d_instant d) in (with_limiter p l x, r)
  | ReserveN key cost =>
      let '(x, r) := reserve_n (p_limiters p MintAccountLimiter) key cost (d_instant d) in
      (with_limiter p MintAccountLimiter x, r)
  | DropReservation r =>
      (with_limiter p MintAccountLimiter (drop_reservation (p_limiters p MintAccountLimiter) r), tt)
  | Clock => (p, d_clock d)
  | Random n => (p, d_entropy d n)
  | RecordChallenge nonce now => (with_challenges p (challenge_issue (p_challenges p) nonce now), tt)
  | Consume nonce now =>
      let '(m, r) := challenge_consume (p_challenges p) nonce now in (with_challenges p m, r)
  | Contains s key => (p, set_contains p s key)
  | PendingLen => (p, len (p_pending p))
  | InsertBinding key now =>
      let '(x, r) := timed_insert (p_bindings p) key now (d_append d) in (with_bindings p x, r)
  | InsertPending key now max_entries =>
      let '(x, r) := insert_if_below_capacity (p_pending p) key now max_entries (d_append d) in
      (with_pending p x, r)
  | InsertRevoked key =>
      let '(x, r) := durable_insert (p_revoked p) key (d_append d) in (with_revoked p x, r)
  | PruneBindings cutoff =>
      let '(x, r) := prune_older_than (p_bindings p) cutoff (d_compact d) in (with_bindings p x, r)
  | PrunePending cutoff =>
      let '(x, r) := prune_older_than (p_pending p) cutoff (d_compact d) in (with_pending p x, r)
  | CardContains id => (p, bool_decide (id ∈ p_card p))
  | CardInsert id => (with_card p ({[id]} ∪ p_card p), tt)
  | CardRemove id => (with_card p (p_card p ∖ {[id]}), tt)
  | MoneroContains id => (p, bool_decide (id ∈ p_monero p))
  | MoneroExtend ids => (with_monero p (ids ∪ p_monero p), tt)
  | BlindSign _ => (p, d_sign d)
  | PublicDer => (p, d_der d)
  end.

(** Clocks and entropy have the shape the interfaces promise. *)
Definition devices_ok (d : Devices S) : Prop :=
  (∀ t, d_clock d = Some t → u64 t) ∧ (∀ n b, d_entropy d n = Some b → length b = n) ∧
  store_io_ok (d_store d).

(** ** Starting and restarting *)

Definition secs (n : Z) : Z := n * 1000000000.

Definition new_limiters (cfg : PortalConfig) (l : LimiterId) : RateLimiter :=
  match l with
  | CreateLimiter => limiter_new 10 (secs 60)
  | AuthLimiter => limiter_new 120 (secs 60)
  | MintIpLimiter => limiter_new 120 (secs 60)
  | MintAccountLimiter => limiter_new (account_rate_max cfg) (secs MINT_ACCOUNT_RATE_WINDOW)
  | SubLimiter => limiter_new 30 (secs 60)
  | IssueLimiter => limiter_new 30 (secs 60)
  | CheckoutLimiter => limiter_new (checkout_rate_max cfg) (secs 60)
  end.

(** A set that has no file yet, or none at all. *)
Definition set_new {V} (s : LogSet V) : Prop := s = in_memory ∨ s = Durable.fresh.

Definition set_reopened {V} `{EqDecision V} (F : LogFormat V) (s s' : LogSet V) : Prop :=
  if path s then ∃ io, log_open (F := F) (Some (disk s)) io = Ok s' else s' = in_memory.

(** What a start does to the volatile resources. *)
Record volatile_new (cfg : PortalConfig) (p : Portal S) : Prop := {
  vn_challenges : p_challenges p = ∅;
  vn_limiters : p_limiters p = new_limiters cfg;
  vn_card : p_card p = ∅;
  vn_monero : p_monero p = ∅;
}.

Record portal_init (cfg : PortalConfig) (p : Portal S) : Prop := {
  pi_store : store_init (p_store p);
  pi_volatile : volatile_new cfg p;
  pi_bindings : set_new (p_bindings p);
  pi_pending : set_new (p_pending p);
  pi_revoked : set_new (p_revoked p);
}.

Record portal_restart (cfg : PortalConfig) (p p' : Portal S) : Prop := {
  pr_store : store_restart (p_store p) (p_store p');
  pr_volatile : volatile_new cfg p';
  pr_bindings : set_reopened timed_format (p_bindings p) (p_bindings p');
  pr_pending : set_reopened timed_format (p_pending p) (p_pending p');
  pr_revoked : set_reopened durable_format (p_revoked p) (p_revoked p');
  pr_activated : p_activated p' = p_activated p;
  pr_issued : p_issued p' = p_issued p;
}.

End Resources.

(** ** Histories *)

Inductive Happening :=
  | Arrive (n : nat) (i : Incoming)
  | Acts (n : nat) (a : Act answer)
  | Reply (n : nat) (r : Response)
  | Abandon (n : nat)                                       (* the client hung up *)
  | Crash.

Abbreviation history := (list Happening).

Definition act_of (n : nat) (x : Happening) : option (Act answer) :=
  match x with Acts m a => if decide (m = n) then Some a else None | _ => None end.

(** What request [n] did. *)
Definition log (n : nat) (h : history) : list (Act answer) := omap (act_of n) h.

Definition event_of (a : Act answer) : option Event :=
  match a with
  | Acted op out =>
      match op as op return answer op → option Event with
      | Store op => λ out, Some (Ev op out)
      | _ => λ _, None
      end out
  end.

(** The operations on the account store among the actions [l], and in a history. *)
Definition store_events (l : list (Act answer)) : list Event := omap event_of l.

Definition acts (h : history) : list (Act answer) :=
  omap (λ x, match x with Acts _ a => Some a | _ => None end) h.

Definition arrived (n : nat) (h : history) : Prop := ∃ i, Arrive n i ∈ h.

(** The reservation a request holds: it is given back when the request is dropped. *)
Fixpoint held_reservation (l : list (Act answer)) (r : option RateLimitReservation) :
    option RateLimitReservation :=
  match l with
  | [] => r
  | a :: l =>
      held_reservation l
        (match a with
         | Acted op out =>
             match op as op return answer op → option RateLimitReservation with
             | ReserveN _ _ => λ out, out
             | DropReservation _ => λ _, None
             | Store op => λ out,
                 match op in StoreOp R return result StoreError R → option RateLimitReservation with
                 | CommitMint _ _ _ _ => λ out,
                     match out with Ok MintStored | Ok MintQuotaExceeded => None | _ => r end
                 | _ => λ _, r
                 end out
             | _ => λ _, r
             end out
         end)
  end.

Section Runs.
Context `{Hsha : Sha256, Hed : Ed25519, Hhook : WebhookJson, Hrpc : RpcJson}.
Context {S : Type} `{Hst : PortalStore S} (cfg : PortalConfig) (policy : ClientIpPolicy).

Definition give_back (p : Portal S) (l : list (Act answer)) : Portal S :=
  match held_reservation l None with
  | Some r => with_limiter p MintAccountLimiter (drop_reservation (p_limiters p MintAccountLimiter) r)
  | None => p
  end.

Inductive portal_run : history → Portal S → gmap nat (action Response) → Prop :=
  | pr_start p : portal_init cfg p → portal_run [] p ∅
  | pr_arrive h p live n i :
      portal_run h p live → ¬ arrived n h →
      portal_run (h ++ [Arrive n i]) p (<[n := serve cfg policy i]> live)
  | pr_act h p live n op k d p' r :
      portal_run h p live → live !! n = Some (Do op k) → devices_ok d → op_run op d p = (p', r) →
      portal_run (h ++ [Acts n (Acted op r)]) p' (<[n := k r]> live)
  | pr_reply h p live n r :
      portal_run h p live → live !! n = Some (Ret r) →
      portal_run (h ++ [Reply n r]) p (delete n live)
  | pr_abandon h p live n rest :
      portal_run h p live → live !! n = Some rest →
      portal_run (h ++ [Abandon n]) (give_back p (log n h)) (delete n live)
  | pr_crash h p live p' :
      portal_run h p live → portal_restart cfg p p' → portal_run (h ++ [Crash]) p' ∅.

(** What is known of every answer. *)
Definition plausible (a : Act answer) : Prop :=
  match a with
  | Acted op out =>
      match op as op return answer op → Prop with
      | Clock => λ out, ∀ t, out = Some t → u64 t
      | Random n => λ out, ∀ b, out = Some b → length b = n
      | _ => λ _, True
      end out
  end.

Lemma op_run_plausible op d p p' r :
  devices_ok d → op_run op d p = (p', r) → plausible (Acted op r).
Proof. intros (Hc & He & _). destruct op; cbn; try done; intros [= _ <-]; eauto. Qed.

Lemma log_app n h h' : log n (h ++ h') = log n h ++ log n h'.
Proof. apply omap_app. Qed.

Lemma log_act n a : log n [Acts n a] = [a].
Proof. cbn. by rewrite decide_True. Qed.

Lemma log_other n m a : m ≠ n → log n [Acts m a] = [].
Proof. intros Hne. cbn. by rewrite decide_False. Qed.

Lemma arrived_snoc n h x : arrived n (h ++ [x]) ↔ arrived n h ∨ ∃ i, x = Arrive n i.
Proof.
  unfold arrived. setoid_rewrite elem_of_app. setoid_rewrite list_elem_of_singleton.
  split; [intros (i & [Hi| <-])|intros [(i & Hi)|(i & ->)]]; eauto.
Qed.

(** Each request is somewhere along its handler, and its reply is the handler's. *)
Record followed (h : history) (live : gmap nat (action Response)) : Prop := {
  fo_trail : ∀ n i, Arrive n i ∈ h → ∃ p, trail (serve cfg policy i) (log n h) p ∧
    (∀ q, live !! n = Some q → q = p) ∧ (∀ r, Reply n r ∈ h → p = Ret r ∧ live !! n = None);
  fo_live : ∀ n q, live !! n = Some q → arrived n h;
  fo_acts : ∀ n a, Acts n a ∈ h → arrived n h;
  fo_replies : ∀ n r, Reply n r ∈ h → arrived n h;
  fo_once : ∀ n i j, Arrive n i ∈ h → Arrive n j ∈ h → i = j;
}.

Lemma log_nil n h : (∀ a, Acts n a ∉ h) → log n h = [].
Proof.
  intros Hn. induction h as [|x h IH]; [done|]. unfold log. cbn.
  assert (act_of n x = None) as ->; [|apply IH; intros a Ha; apply (Hn a); by right].
  destruct x as [|m a| | |]; try done. cbn. case_decide; [subst|done]. destruct (Hn a). by left.
Qed.

Lemma followed_snoc_other h live x live' :
  followed h live →
  (∀ n i, x ≠ Arrive n i) → (∀ n a, x ≠ Acts n a) → (∀ n r, x = Reply n r → live !! n = Some (Ret r)) →
  (∀ n r, x = Reply n r → live' !! n = None) → (∀ n q, live' !! n = Some q → live !! n = Some q) →
  followed (h ++ [x]) live'.
Proof.
  intros [Ht Hl Ha Hr Ho] Hx1 Hx2 Hx3 Hx4 Hsub.
  assert (Hin : ∀ y, y ∈ h ++ [x] ↔ y ∈ h ∨ y = x)
    by (intros y; by rewrite elem_of_app, list_elem_of_singleton).
  assert (Harr : ∀ n i, Arrive n i ∈ h ++ [x] → Arrive n i ∈ h)
    by (intros n i [?|E]%Hin; [done|by destruct (Hx1 n i)]).
  assert (Hup : ∀ n, arrived n h → arrived n (h ++ [x])) by (intros n Hn; rewrite arrived_snoc; by left).
  split.
  - intros n i Hi%Harr. destruct (Ht n i Hi) as (p & Htr & Hq & Hrep).
    exists p. rewrite log_app, (log_nil n [x]), app_nil_r.
    2:{ intros a E%list_elem_of_singleton. by destruct (Hx2 n a). }
    split_and!; [done|intros q Hqn; by apply Hq, Hsub|]. intros r [Hri|E]%Hin.
    + destruct (Hrep r Hri) as [-> Hn]. split; [done|]. destruct (live' !! n) as [q|] eqn:E; [|done].
      apply Hsub in E. congruence.
    + symmetry in E. specialize (Hx3 _ _ E). split; [|by apply Hx4 with r]. symmetry. by apply Hq.
  - intros n q Hq. by apply Hup, (Hl n q), Hsub.
  - intros n a [Hn|E]%Hin; [by eapply Hup, Ha|by destruct (Hx2 n a)].
  - intros n r [Hn|E]%Hin; [by eapply Hup, Hr|]. symmetry in E. apply Hup, (Hl n (Ret r)), (Hx3 _ _ E).
  - intros n i j Hi%Harr Hj%Harr. eauto.
Qed.

Lemma followed_arrive h live n i :
  followed h live → ¬ arrived n h → followed (h ++ [Arrive n i]) (<[n := serve cfg policy i]> live).
Proof.
  intros [Ht Hl Ha Hr Ho] Hn.
  assert (Hin : ∀ y, y ∈ h ++ [Arrive n i] ↔ y ∈ h ∨ y = Arrive n i)
    by (intros y; by rewrite elem_of_app, list_elem_of_singleton).
  assert (Hup : ∀ m, arrived m h → arrived m (h ++ [Arrive n i])) by (intros m Hm; rewrite arrived_snoc; by left).
  assert (Hnew : arrived n (h ++ [Arrive n i])) by (rewrite arrived_snoc; eauto).
  assert (Hlog : ∀ m, log m (h ++ [Arrive n i]) = log m h) by (intros m; by rewrite log_app, app_nil_r).
  split.
  - intros m j [Hj|[= -> ->]]%Hin.
    + assert (m ≠ n) by (intros ->; apply Hn; by exists j).
      destruct (Ht m j Hj) as (p & Htr & Hq & Hrep). exists p. rewrite Hlog, lookup_insert_ne by done.
      split_and!; [done..|]. intros r [Hri|?]%Hin; [by apply Hrep|done].
    + exists (serve cfg policy i). rewrite Hlog, log_nil, lookup_insert_eq.
      2:{ intros a Hin'. by apply Hn, (Ha n a). }
      split_and!; [constructor|by intros q [= <-]|].
      intros r [Hri|?]%Hin; [by destruct Hn; apply (Hr n r)|done].
  - intros m q Hq. destruct (decide (m = n)) as [->|]; [done|].
    rewrite lookup_insert_ne in Hq by done. by eapply Hup, Hl.
  - intros m a [Hm|?]%Hin; [by eapply Hup, Ha|done].
  - intros m r [Hm|?]%Hin; [by eapply Hup, Hr|done].
  - intros m j j' [Hj|[= -> ->]]%Hin [Hj'|E]%Hin; [by eauto|..].
    + injection E as -> ->. by destruct Hn; exists j.
    + by destruct Hn; exists j'.
    + by injection E as ->.
Qed.

Lemma followed_act h live n op k r :
  followed h live → live !! n = Some (Do op k) →
  followed (h ++ [Acts n (Acted op r)]) (<[n := k r]> live).
Proof.
  intros [Ht Hl Ha Hr Ho] Hn.
  assert (Hin : ∀ y, y ∈ h ++ [Acts n (Acted op r)] ↔ y ∈ h ∨ y = Acts n (Acted op r))
    by (intros y; by rewrite elem_of_app, list_elem_of_singleton).
  assert (Hup : ∀ m, arrived m h → arrived m (h ++ [Acts n (Acted op r)]))
    by (intros m Hm; rewrite arrived_snoc; by left).
  split.
  - intros m j [Hj|?]%Hin; [|done]. destruct (Ht m j Hj) as (p & Htr & Hq & Hrep).
    destruct (decide (m = n)) as [->|Hne].
    + exists (k r). rewrite log_app, log_act, lookup_insert_eq. specialize (Hq _ Hn). subst p.
      split_and!; [by constructor|by intros q [= <-]|].
      intros r' [Hri|?]%Hin; [|done]. by destruct (Hrep r' Hri).
    + exists p. rewrite log_app, log_other, app_nil_r, lookup_insert_ne by done. split_and!; [done..|].
      intros r' [Hri|?]%Hin; [by apply Hrep|done].
  - intros m q Hq. apply Hup. destruct (decide (m = n)) as [->|]; [by eapply Hl|].
    rewrite lookup_insert_ne in Hq by done. by eapply Hl.
  - intros m a [Hm|[= -> _]]%Hin; [by eapply Hup, Ha|by eapply Hup, Hl].
  - intros m r' [Hm|?]%Hin; [by eapply Hup, Hr|done].
  - intros m i j [Hi|?]%Hin [Hj|?]%Hin; [by eauto|done..].
Qed.

Lemma run_followed h p live : portal_run h p live → followed h live.
Proof.
  induction 1 as [p _|h p live n i _ IH Hn|h p live n op k d p' r _ IH Hn _ _|h p live n r _ IH Hn
                 |h p live n rest _ IH Hn|h p live p' _ IH _].
  - split; try by intros; set_solver.
  - by apply followed_arrive.
  - by apply followed_act.
  - apply (followed_snoc_other h live); try done.
    + by intros m r' [= <- <-].
    + intros m r' [= <- <-]. apply lookup_delete_eq.
    + intros m q [_ Hq]%lookup_delete_Some. done.
  - apply (followed_snoc_other h live); try done. by intros m q [_ Hq]%lookup_delete_Some.
  - by apply (followed_snoc_other h live).
Qed.

(** A request acts only after it has arrived. *)
Lemma run_order h p live :
  portal_run h p live →
  ∀ j k n a i, h !! j = Some (Acts n a) → h !! k = Some (Arrive n i) → (k < j)%nat.
Proof.
  assert (Hstep : ∀ h x, (∀ j k n a i, h !! j = Some (Acts n a) → h !! k = Some (Arrive n i) → (k < j)%nat) →
    (∀ n i a, x = Arrive n i → Acts n a ∉ h) →
    ∀ j k n a i, (h ++ [x]) !! j = Some (Acts n a) → (h ++ [x]) !! k = Some (Arrive n i) → (k < j)%nat).
  { intros h' x IH Hx j k n a i [Hj|[-> E1]]%lookup_snoc_cases [Hk|[-> E2]]%lookup_snoc_cases.
    - by eapply IH.
    - symmetry in E2. destruct (Hx _ _ a E2). by eapply list_elem_of_lookup_2.
    - by apply lookup_lt_Some in Hk.
    - congruence. }
  induction 1 as [p _|h p live n i Hr IH Hn|h p live n op k d p' r _ IH _ _ _|h p live n r _ IH _
                 |h p live n rest _ IH _|h p live p' _ IH _]; [done|..]; apply Hstep; try done.
  intros m i' a [= <- <-] Ha. apply Hn. by eapply (fo_acts _ _ (run_followed _ _ _ Hr)).
Qed.

(** ** The handlers' store operations are well formed *)

Definition op_sane (op : Op) : Prop := match op with Store op => op_wf op | _ => True end.

Definition config_ok : Prop := u32 (account_rate_max cfg).

Local Abbreviation sane := (λ (_ : list (Act answer)) op, op_sane op).

(** The signatures collected have the right size, one per message. *)
Lemma rg_sign_all (G : list (Act answer) → Op → Prop) l msgs sigs
    (Q : list (Act answer) → result ApiError (list bytes) → Prop) :
  (∀ l m, G l (BlindSign m)) → Forall (λ s, length s = RAW_SIGNATURE_BYTES) sigs →
  (∀ l' e, l ⊆ l' → Q l' (Err e)) →
  (∀ l' sigs', l ⊆ l' → length sigs' = (length sigs + length msgs)%nat →
     Forall (λ s, length s = RAW_SIGNATURE_BYTES) sigs' → Q l' (Ok sigs')) →
  rg plausible G l (sign_all msgs sigs) Q.
Proof.
  intros HG Hs He Hok. revert l sigs Hs He Hok.
  induction msgs as [|m msgs IH]; intros l sigs Hs He Hok; cbn [sign_all].
  - apply Hok; [done|cbn; lia|done].
  - rg_ask [s|]; [|apply He; set_solver].
    destruct (is_blind_token_size s) eqn:Es; [|apply He; set_solver]. apply IH.
    + apply Forall_app. split; [done|]. repeat constructor.
      unfold is_blind_token_size, BLIND_TOKEN_HEX_LEN in *. apply Nat.eqb_eq in Es. unfold RAW_SIGNATURE_BYTES. lia.
    + intros l' e Hsub. apply He. set_solver.
    + intros l' sigs' Hsub Hl. apply Hok; [set_solver|]. rewrite Hl, length_app. cbn. lia.
Qed.

Context `{!Sha256Laws}.

Lemma decode_pairs_len f n s out : length s = (n * 2)%nat → decode_pairs f s = Some out → length out = n.
Proof. intros Hs Hd. apply decode_pairs_length in Hd. by rewrite Hd, Hs, Nat.div_mul. Qed.

Lemma parse_lower_hex_len n s out : parse_lower_hex n s = Some out → length out = n.
Proof.
  unfold parse_lower_hex. destruct (_ && _) eqn:E; [|done]. cbn. apply andb_true_iff in E as [E%Nat.eqb_eq _].
  by apply decode_pairs_len.
Qed.

Lemma b32_sha m : b32 (sha256 m).
Proof. apply sha256_length. Qed.

Lemma clock_u64 r : (∀ t, r = Some t → u64 t) → u64 (now_unix_secs_for_expiry r) ∧ u64 (now_unix_secs r).
Proof. destruct r as [t|]; cbn; [|by intros _; unfold_int; lia]. intros Ht. by split; apply Ht. Qed.

Lemma saturating_add_u64 a b : u64 a → 0 ≤ b → u64 (u64_saturating_add a b).
Proof. unfold u64_saturating_add. unfold_int. lia. Qed.

Lemma mint_quota_wf account cost max now q :
  u64 now → mint_quota account cost max now = Ok q →
  b32 (quota_key q) ∧ u64 (window_start q) ∧ u64 (window_end q) ∧ PortalStore.cost q = cost ∧ max_units q = max.
Proof.
  unfold mint_quota. intros Hn. destruct (u64_checked_add _ _) as [we|] eqn:E; [|done]. cbn.
  intros [= <-]. cbn. unfold u64_checked_add in E. case_match; [|done]. injection E as <-.
  assert (0 ≤ now mod MINT_ACCOUNT_RATE_WINDOW ≤ now).
  { unfold MINT_ACCOUNT_RATE_WINDOW. unfold_int. split; [apply Z.mod_pos_bound; lia|]. apply Z.mod_le; lia. }
  unfold MINT_ACCOUNT_RATE_WINDOW in *. unfold_int. split_and!; try done; [apply b32_sha|lia..].
Qed.

Lemma sane_authenticated l auth now Q :
  (∀ l r, Q l r) → rg plausible sane l (authenticated auth now) Q.
Proof. intros HQ. unfold authenticated, authenticate. repeat rg_step; done || apply HQ. Qed.

Lemma sane_is_confirmed l id Q : (∀ l r, Q l r) → rg plausible sane l (is_confirmed cfg id) Q.
Proof.
  intros HQ. unfold is_confirmed. revert l. induction (rails cfg) as [|rail rs IH]; intros l; [apply HQ|].
  cbn [any_confirmed]. unfold rail_confirmed. repeat first [apply IH | rg_step]; done || apply HQ.
Qed.

Lemma sane_mint_validated l rec key hash msgs cost now Q :
  config_ok → b32 key → b32 hash → u64 now → u32 cost → (0 < length msgs ≤ MAX_MINT_BATCH_SIZE)%nat →
  (∀ l r, Q l r) → rg plausible sane l (mint_validated cfg rec key hash msgs cost now) Q.
Proof.
  intros Hcfg Hk Hh Hn Hc Hm HQ. unfold mint_validated, releasing.
  repeat (rg_step; try done); try apply HQ.
  apply rg_sign_all; [done|constructor|intros l' e _; repeat rg_step; done || apply HQ|].
  intros l' sigs _ Hlen Hsz. cbn in Hlen. repeat rg_step; try apply HQ; try done.
  destruct (mint_quota_wf _ _ _ _ _ Hn ltac:(eassumption)) as (? & ? & ? & Ec & Em). rewrite <- Ec in Hc.
  cbn [op_sane op_wf]. split_and!; try done; [|by rewrite Em].
  split_and!; cbn; try done.
  - apply saturating_add_u64; [done|]. unfold MINT_RESULT_TTL_SECS, V2_VALIDITY_SECS, V2_EPOCH_SECS. lia.
  - right. split; [|done]. apply batch_size_bound. by rewrite Hlen.
Qed.

(** Read the clock, and keep that it fits. *)
Lemma sane_clock {A} l (f : option Z → A) (Q : list (Act answer) → A → Prop) :
  (∀ l r, u64 (now_unix_secs_for_expiry r) → u64 (now_unix_secs r) → Q l (f r)) →
  rg plausible sane l (prog_map f (perform Clock)) Q.
Proof. intros HQ. do 2 rg_step; [done|]. by apply HQ; apply clock_u64. Qed.

Lemma sane_limited {E} l lim ip c (e : E) Q :
  (∀ l r, Q l r) → rg plausible sane l (limited lim ip c e) Q.
Proof. intros HQ. unfold limited. repeat rg_step; done || apply HQ. Qed.

Lemma sane_issue_logic l req Q : (∀ l r, Q l r) → rg plausible sane l (issue_logic cfg req) Q.
Proof.
  intros HQ. unfold issue_logic, issue_new, now_for_expiry.
  repeat first [apply sane_is_confirmed; intros ? ? | rg_step; try done]; try apply HQ.
  unfold plausible in *. cbn in *. unfold issuance_wf. cbn.
  match goal with H : ∀ t, _ = Some t → u64 t |- _ => destruct (clock_u64 _ H) as [Hn _] end.
  split_and!; try apply b32_sha.
  - apply saturating_add_u64; [done|]. unfold ISSUANCE_RESULT_TTL_SECS, V2_VALIDITY_SECS, V2_EPOCH_SECS. lia.
  - right. unfold is_blind_token_size, BLIND_TOKEN_HEX_LEN in *. unfold RAW_SIGNATURE_BYTES.
    match goal with H : negb (length ?s * 2 =? 512)%nat = false |- length ?s = _ =>
      apply negb_false_iff, Nat.eqb_eq in H end. lia.
Qed.

Lemma validate_blind_batch_len msgs out :
  validate_blind_batch msgs = Ok out → (0 < length out ≤ MAX_MINT_BATCH_SIZE)%nat ∧ length out = length msgs.
Proof.
  unfold validate_blind_batch. destruct (_ || _) eqn:E; [done|].
  apply orb_false_iff in E as [Hne%bool_decide_eq_false Hle%Nat.ltb_ge].
  destruct (mapM _ msgs) as [l|] eqn:Em; [|done]. intros [= <-].
  apply mapM_Some in Em as Hl%Forall2_length. destruct msgs; [done|]. cbn in *. lia.
Qed.

Lemma sane_mint l ip req Q : config_ok → (∀ l r, Q l r) → rg plausible sane l (mint cfg ip req) Q.
Proof.
  intros Hcfg HQ. unfold mint. rg_step; [apply HQ|]. rg_step. apply sane_limited. intros l1 [[]|e]; [|apply HQ].
  rg_step. apply sane_clock. intros l2 r Hn _. rg_step. apply sane_authenticated.
  intros l3 [rec|e]; [|apply HQ]. do 2 rg_step. rg_step; [|apply HQ]. do 2 rg_step. rg_step; [|apply HQ].
  rg_step.
  match goal with E : validate_blind_batch _ = Ok _ |- _ => destruct (validate_blind_batch_len _ _ E) as [Hl1 Hl2] end.
  apply sane_mint_validated; try apply b32_sha; try done.
  - unfold MAX_MINT_BATCH_SIZE in *. unfold_int. lia.
  - intros l4 [sigs|e]; apply HQ.
Qed.

Lemma sane_mint_v1 l ip req Q : config_ok → (∀ l r, Q l r) → rg plausible sane l (mint_v1 cfg ip req) Q.
Proof.
  intros Hcfg HQ. unfold mint_v1. rg_step. apply sane_limited. intros l1 [[]|e]; [|apply HQ].
  rg_step. apply sane_clock. intros l2 r Hn _. rg_step. apply sane_authenticated.
  intros l3 [rec|e]; [|apply HQ]. do 2 rg_step. rg_step; [|apply HQ]. rg_step.
  apply sane_mint_validated; try apply b32_sha; try done.
  - unfold MAX_MINT_BATCH_SIZE. cbn. lia.
  - intros l4 [sigs|e]; apply HQ.
Qed.

Lemma sane_activate l ip req Q : (∀ l r, Q l r) → rg plausible sane l (activate cfg ip req) Q.
Proof.
  intros HQ. unfold activate. rg_step. apply sane_limited. intros l1 [[]|e]; [|apply HQ].
  rg_step. apply sane_clock. intros l2 r Hn _. rg_step. apply sane_authenticated.
  intros l3 [rec|e]; [|apply HQ]. unfold binding_key. rg_step. rg_step; [done|].
  rg_step; [apply HQ|]. rg_step. apply sane_is_confirmed. intros l4 paid. rg_step; [apply HQ|].
  rg_step. apply sane_clock. intros l5 r' _ Hm. rg_step; [apply HQ|].
  repeat (rg_step; try done); try apply HQ. cbn [op_sane op_wf].
  split_and!; [apply b32_sha|done|unfold THIRTY_DAYS_SECS; lia].
Qed.

Lemma sane_create_account l ip req Q : (∀ l r, Q l r) → rg plausible sane l (create_account ip req) Q.
Proof.
  intros HQ. unfold create_account. rg_step. apply sane_limited. intros l1 [[]|e]; [|apply HQ].
  destruct req as [num pk sig|]; [|apply HQ].
  repeat (rg_step; try done); try apply HQ. cbn [op_sane op_wf].
  repeat match goal with E : ok_or _ _ = Ok _ |- _ => apply ok_or_Ok in E end.
  split; cbn; try done; by eapply parse_lower_hex_len.
Qed.

Lemma sane_subscribe l ip auth Q : (∀ l r, Q l r) → rg plausible sane l (subscribe ip auth) Q.
Proof.
  intros HQ. unfold subscribe. rg_step. apply sane_limited. intros l1 [[]|e]; [|apply HQ].
  rg_step. apply sane_clock. intros l2 r Hn _. rg_step. apply sane_authenticated.
  intros l3 [rec|e]; [|apply HQ]. unfold mint_reference, now_for_issuance. repeat (rg_step; try done); apply HQ.
Qed.

Lemma sane_webhook l hs body Q : (∀ l r, Q l r) → rg plausible sane l (webhook cfg hs body) Q.
Proof.
  intros HQ. unfold webhook, card_confirm, card_revoke. repeat (rg_step; try done); apply HQ.
Qed.

(** Every operation any handler performs is well formed. *)
Lemma serve_sane i : config_ok → rg plausible sane [] (serve cfg policy i) (λ _ _, True).
Proof.
  intros Hcfg. unfold serve. destruct (resolve policy (in_peer i) (in_headers i)) as [ip|e];
    destruct (in_request i); try done; rg_step;
    first [by apply sane_create_account | by apply sane_subscribe | by apply sane_activate
          | by apply sane_mint | by apply sane_mint_v1 | by apply sane_webhook | idtac].
  all: unfold account_challenge, account_status, checkout, issue, pubkey, prune_results, prune_pending,
    prune_bindings, poll_once, issue_challenge, mint_reference, limited, now_for_issuance, now_for_expiry.
  all: repeat first [done | apply sane_issue_logic; intros ? ? | apply sane_authenticated; intros ? ? | rg_step].
Qed.

(** ** Which handler may do what *)

Definition duty (req : Request) (op : Op) : bool :=
  match op with
  | CheckN _ _ _ | Clock | Random _ | Contains _ _ | PendingLen | CardContains _ | MoneroContains _
  | PublicDer => true
  | Store (Get _) | Consume _ _ =>
      match req with AccountStatus _ | Subscribe _ | Activate _ | MintBatch _ | MintOne _ => true | _ => false end
  | Store (InsertAccount _) => match req with CreateAccount _ => true | _ => false end
  | Store (ActivateSubscription _ _ _ _) => match req with Activate _ => true | _ => false end
  | Store (LookupIssuance _ _ _) | Store (CommitIssuance _ _ _) =>
      match req with Issue _ => true | _ => false end
  | Store (LookupMint _ _ _) | Store (CommitMint _ _ _ _) | ReserveN _ _ | DropReservation _ =>
      match req with MintBatch _ | MintOne _ => true | _ => false end
  | BlindSign _ => match req with Issue _ | MintBatch _ | MintOne _ => true | _ => false end
  | Store (PruneIssuanceResults _) | Store (PruneMintResults _) =>
      match req with PruneResults => true | _ => false end
  | RecordChallenge _ _ => match req with AccountChallenge => true | _ => false end
  | InsertBinding _ _ => match req with Subscribe _ => true | _ => false end
  | InsertPending _ _ _ => match req with Checkout => true | _ => false end
  | InsertRevoked _ | CardInsert _ | CardRemove _ => match req with Webhook _ => true | _ => false end
  | PruneBindings _ => match req with PruneBindingSet => true | _ => false end
  | PrunePending _ => match req with PrunePendingSet => true | _ => false end
  | MoneroExtend _ => match req with PollMonero _ => true | _ => false end
  end.

Lemma duty_is_confirmed req l id Q :
  (∀ l r, Q l r) → rg plausible (λ _ op, duty req op = true) l (is_confirmed cfg id) Q.
Proof.
  intros HQ. unfold is_confirmed. revert l. induction (rails cfg) as [|rail rs IH]; intros l; [apply HQ|].
  cbn [any_confirmed]. unfold rail_confirmed. repeat first [apply IH | rg_step]; done || apply HQ.
Qed.

Lemma serve_duty i :
  rg plausible (λ _ op, duty (in_request i) op = true) [] (serve cfg policy i) (λ _ _, True).
Proof.
  unfold serve. destruct (resolve policy (in_peer i) (in_headers i)) as [ip|e];
    destruct (in_request i); try done; rg_step;
    unfold create_account, account_challenge, account_status, subscribe, activate, mint, mint_v1, checkout,
      issue, issue_logic, issue_new, pubkey, webhook, card_confirm, card_revoke, prune_results, prune_pending,
      prune_bindings, poll_once, get_account, authenticated, authenticate, issue_challenge, mint_reference,
      mint_validated, releasing, binding_key, limited, now_for_issuance, now_for_expiry.
  all: repeat first [done | apply duty_is_confirmed; intros ? ?
                    | apply rg_sign_all; [done|constructor|intros ? ? _|intros ? ? _ _ _] | rg_step].
Qed.

(** ** Every handler ends *)

(** The most actions any request takes; the longest is a full batch. *)
Definition MAX_ACTIONS : nat := 24 + 2 * length (rails cfg).

Lemma within_is_confirmed id : within (2 * length (rails cfg)) (is_confirmed cfg id).
Proof.
  unfold is_confirmed. induction (rails cfg) as [|rail rs IH]; [done|]. cbn [any_confirmed length].
  replace (2 * Datatypes.S (length rs))%nat with (2 + 2 * length rs)%nat by lia.
  apply within_bind; [by unfold rail_confirmed; repeat within_step|]. intros [|]; [done|exact IH].
Qed.

Lemma within_sign_all msgs sigs : within (length msgs) (sign_all msgs sigs).
Proof. revert sigs. induction msgs as [|m msgs IH]; intros sigs; cbn [sign_all length]; repeat first [apply IH|within_step]. Qed.

Lemma within_authenticated auth now : within 2 (authenticated auth now).
Proof. unfold authenticated, authenticate. repeat within_step. Qed.

Lemma within_mint_validated rec key hash msgs c now :
  (length msgs ≤ MAX_MINT_BATCH_SIZE)%nat → within 20 (mint_validated cfg rec key hash msgs c now).
Proof.
  intros Hm. unfold mint_validated, releasing. within_step. repeat within_step. 
  apply (within_mono _ (MAX_MINT_BATCH_SIZE + 2)); [done|].
  apply within_bind; [|intros [sigs|e]; repeat within_step].
  eapply within_mono; [exact Hm|apply within_sign_all].
Qed.

(** A query of the payment rails in the middle of a handler. *)
Lemma within_confirmed_then {B} id (f : bool → action B) n m :
  (n + 2 * length (rails cfg) ≤ m)%nat → (∀ b, within n (f b)) → within m (prog_bind (is_confirmed cfg id) f).
Proof.
  intros Hm Hf. eapply within_mono; [exact Hm|]. rewrite Nat.add_comm.
  apply within_bind; [apply within_is_confirmed|done].
Qed.

Lemma within_issue ip req : within (7 + 2 * length (rails cfg)) (issue cfg ip req).
Proof.
  unfold issue, issue_logic, issue_new, limited, now_for_expiry.
  repeat first [apply (within_confirmed_then _ _ 2); [lia|intros [|]] | within_step].
Qed.

Lemma within_activate ip req : within (9 + 2 * length (rails cfg)) (activate cfg ip req).
Proof.
  unfold activate, limited, now_for_expiry, now_for_issuance, authenticated, authenticate, binding_key.
  repeat first [apply (within_confirmed_then _ _ 3); [lia|intros [|]] | within_step].
Qed.

Lemma within_mint ip req : within 24 (mint cfg ip req).
Proof.
  unfold mint, limited, now_for_expiry. within_step; [done|].
  change 24%nat with (1 + (1 + (2 + 20)))%nat.
  apply within_try; [by repeat within_step|intros _]. apply within_bind; [by repeat within_step|intros now].
  apply within_try; [apply within_authenticated|intros rec]. 
  do 2 within_step. destruct (validate_blind_batch _) as [msgs|e] eqn:Ev; [|done].
  destruct (parse_request_id _) as [rid|e]; [|done]. apply (within_bind _ _ 20 0); [|by intros []].
  apply within_mint_validated. destruct (validate_blind_batch_len _ _ Ev). lia.
Qed.

Lemma within_mint_v1 ip req : within 24 (mint_v1 cfg ip req).
Proof.
  unfold mint_v1, limited, now_for_expiry. change 24%nat with (1 + (1 + (2 + 20)))%nat.
  apply within_try; [by repeat within_step|intros _]. apply within_bind; [by repeat within_step|intros now].
  apply within_try; [apply within_authenticated|intros rec].
  do 2 within_step. destruct (ok_or _ _) as [msg|e] eqn:Ev; [|done]. apply (within_bind _ _ 20 0); [|by intros []].
  apply within_mint_validated. cbn. unfold MAX_MINT_BATCH_SIZE. lia.
Qed.

Lemma serve_within i : within MAX_ACTIONS (serve cfg policy i).
Proof.
  unfold MAX_ACTIONS, serve. destruct (resolve policy (in_peer i) (in_headers i)) as [ip|e];
    destruct (in_request i); try done; apply within_map.
  all: match goal with
       | |- within _ (issue _ _ _) => eapply within_mono; [|apply within_issue]; lia
       | |- within _ (activate _ _ _) => eapply within_mono; [|apply within_activate]; lia
       | |- within _ (mint _ _ _) => eapply within_mono; [|apply within_mint]; lia
       | |- within _ (mint_v1 _ _ _) => eapply within_mono; [|apply within_mint_v1]; lia
       | _ => apply (within_mono _ 24); [lia|]
       end.
  all: unfold create_account, account_challenge, account_status, subscribe, checkout, pubkey, webhook,
    card_confirm, card_revoke, prune_results, prune_pending, prune_bindings, poll_once, get_account,
    authenticated, authenticate, issue_challenge, mint_reference, binding_key, limited, now_for_issuance,
    now_for_expiry.
  all: repeat within_step.
Qed.

(** Running one request to its end, alone; [ds] is what the devices do at each action. *)
Fixpoint finish (fuel : nat) (ds : nat → Devices S) (p : Portal S) (q : action Response) :
    option (Portal S * Response) :=
  match q, fuel with
  | Ret r, _ => Some (p, r)
  | Do _ _, 0%nat => None
  | Do op k, Datatypes.S fuel =>
      let '(p, r) := op_run op (ds 0%nat) p in finish fuel (λ n, ds (Datatypes.S n)) p (k r)
  end.

Lemma within_finish n ds p q : within n q → ∃ p' r, finish n ds p q = Some (p', r).
Proof.
  revert ds p q. induction n as [|n IH]; intros ds p [a|op k] Hw; cbn; try done; [by eauto..|].
  destruct (op_run op (ds 0%nat) p) as [p1 r]. by apply IH.
Qed.

(** ** What the resources see of a run *)

Lemma acts_snoc h x :
  acts (h ++ [x]) = acts h ++ match x with Acts _ a => [a] | _ => [] end.
Proof. unfold acts. rewrite omap_app. by destruct x. Qed.

Lemma elem_of_acts h a : a ∈ acts h ↔ ∃ n, Acts n a ∈ h.
Proof.
  unfold acts. rewrite list_elem_of_omap. split.
  - intros (x & Hx & E). destruct x; try done. injection E as <-. by eexists.
  - intros (n & Hn). by exists (Acts n a).
Qed.

Lemma elem_of_log n h a : a ∈ log n h ↔ Acts n a ∈ h.
Proof.
  unfold log. rewrite list_elem_of_omap. split.
  - intros (x & Hx & E). destruct x as [|m b| | |]; try done. cbn in E. case_decide; [|done].
    simplify_eq. done.
  - intros Hn. exists (Acts n a). split; [done|]. cbn. by rewrite decide_True.
Qed.

Lemma run_plausible h p live : portal_run h p live → Forall plausible (acts h).
Proof.
  induction 1; rewrite ?acts_snoc, ?app_nil_r; try done. apply Forall_app. split; [done|].
  repeat constructor. by eapply op_run_plausible.
Qed.

Lemma run_log_plausible h p live n : portal_run h p live → Forall plausible (log n h).
Proof.
  intros Hr%run_plausible. rewrite list.Forall_forall in Hr |- *. intros a Ha%elem_of_log.
  apply Hr, elem_of_acts. eauto.
Qed.

(** The action a request is about to perform is one its handler may perform. *)
Lemma run_guar (G : list (Act answer) → Op → Prop) h p live n op k :
  portal_run h p live → live !! n = Some (Do op k) →
  (∀ i, Arrive n i ∈ h → rg plausible G [] (serve cfg policy i) (λ _ _, True)) → G (log n h) op.
Proof.
  intros Hr Hn HG. pose proof (run_followed _ _ _ Hr) as Hf.
  destruct (fo_live _ _ Hf _ _ Hn) as [i Hi]. destruct (fo_trail _ _ Hf _ _ Hi) as (q & Ht & Hq & _).
  apply Hq in Hn as <-. by destruct (rg_trail _ _ _ _ _ _ (HG _ Hi) Ht (run_log_plausible _ _ _ _ Hr)).
Qed.

(** A reply is what the handler's postcondition says of the request's own actions. *)
Lemma run_post (Q : Incoming → list (Act answer) → Response → Prop) h p live n r :
  portal_run h p live → Reply n r ∈ h →
  (∀ i, rg plausible (λ _ _, True) [] (serve cfg policy i) (Q i)) →
  ∃ i, Arrive n i ∈ h ∧ Q i (log n h) r.
Proof.
  intros Hr Hn HQ. pose proof (run_followed _ _ _ Hr) as Hf.
  destruct (fo_replies _ _ Hf _ _ Hn) as [i Hi]. exists i. split; [done|].
  destruct (fo_trail _ _ Hf _ _ Hi) as (q & Ht & _ & Hrep). destruct (Hrep _ Hn) as [-> _].
  exact (rg_trail _ _ _ _ _ _ (HQ i) Ht (run_log_plausible _ _ _ _ Hr)).
Qed.

(** Likewise every action that was performed. *)
Lemma run_did (G : Incoming → list (Act answer) → Op → Prop) h p live n a :
  portal_run h p live → Acts n a ∈ h →
  (∀ i, rg plausible (G i) [] (serve cfg policy i) (λ _ _, True)) →
  ∃ i k, Arrive n i ∈ h ∧ log n h !! k = Some a ∧ G i (take k (log n h)) (act_op a).
Proof.
  intros Hr Hn HG. pose proof (run_followed _ _ _ Hr) as Hf.
  destruct (fo_acts _ _ Hf _ _ Hn) as [i Hi]. destruct (fo_trail _ _ Hf _ _ Hi) as (q & Ht & _).
  apply elem_of_log, list_elem_of_lookup in Hn as [k Hk]. exists i, k. split_and!; [done..|].
  exact (rg_actions _ _ _ _ _ _ _ _ (HG i) Ht (run_log_plausible _ _ _ _ Hr) Hk).
Qed.

Definition history_events (h : history) : list Event := store_events (acts h).

Lemma run_backend h p live :
  config_ok → portal_run h p live → backend_run (history_events h) (p_store p).
Proof.
  intros Hcfg Hr. unfold history_events.
  induction Hr as [p Hi|h p live n i _ IH _|h p live n op k d p' r Hr IH Hn Hd E|h p live n r _ IH _
                  |h p live n rest _ IH _|h p live p' _ IH Hp]; rewrite ?acts_snoc, ?app_nil_r; try done.
  - constructor. apply Hi.
  - unfold store_events. rewrite omap_app. fold (store_events (acts h)).
    pose proof (run_guar sane _ _ _ _ _ _ Hr Hn (λ i _, serve_sane i Hcfg)) as Hs.
    destruct Hd as (_ & _ & Hio).
    destruct op; cbn [op_run] in E; repeat (case_match; simplify_eq);
      cbn; rewrite ?app_nil_r; try (by injection E as <- <-); try done.
    all: try (by eapply backend_op).
  - cbn. unfold give_back. case_match; done.
  - eapply backend_restart; [exact IH|]. apply Hp.
Qed.

End Runs.
