(* ===== verification/PortalSafety.v ===== *)
(** * What the portal guarantees, over every run

    Tokens are signed once per payment and only for confirmed payments, subscriptions last as
    long as they are paid for, a challenge authenticates one request, quotas hold and requests
    end - whatever the interleaving, whatever fails, across crashes and restarts. *)

From S2P Require Import Prelude.
From S2P Require Import Text.
From S2P Require Import Net.
From S2P Require Import Crypto.
From S2P Require Import Durable.
From S2P Require Import Grant.
From S2P Require Import Token.
From S2P Require Import RateLimit.
From S2P Require Import ClientIp.
From S2P Require Import PortalStore.
From S2P Require Import Prog.
From S2P Require Import Portal.
From S2P Require Import PortalRuns.
From Stdlib Require Import Strings.Byte ZArith Lia.
From stdpp Require Import functions prelude gmap strings.

Local Open Scope Z_scope.

Ltac unnegb := repeat match goal with H : negb _ = false |- _ => apply negb_false_iff in H end.

Section Safety.
Context `{Hsha : Sha256, !Sha256Laws, Hed : Ed25519, Hhook : WebhookJson, Hrpc : RpcJson}.
Context {S : Type} `{Hst : PortalStore S, !PortalStoreLaws S} (cfg : PortalConfig) (policy : ClientIpPolicy).

Local Abbreviation anything := (λ (_ : list (Act answer)) (_ : Op), True).
Local Abbreviation run := (portal_run cfg policy).

Lemma run_trace h (p : Portal S) live :
  config_ok cfg → run h p live → ∃ vs, store_trace (history_events h) (store_view (p_store p) :: vs).
Proof. intros Hcfg Hr. by eapply backend_refines, run_backend. Qed.

(** C37.  The account store only ever holds values of the widths the code declares: keys and
    hashes of 32 bytes, 64-bit times, quotas within their cap, sealed batches of one to sixteen
    signatures of 256 bytes, accounts under their own number. *)
Theorem portal_state_well_typed h p live :
  config_ok cfg → run h p live → state_wf (store_view (p_store p)).
Proof.
  intros Hcfg Hr. destruct (run_trace _ _ _ Hcfg Hr) as [vs Htr].
  eapply trace_wf; [exact Htr| |by left]. eapply backend_events_wf. by eapply run_backend.
Qed.

(** C38.  Every request ends: whatever the resources answer and however requests interleave, a
    request performs at most [MAX_ACTIONS] actions in all - sixteen signatures, two queries per
    payment rail and eight more - and one left to run on its own reaches its reply within what
    remains of them. *)
Theorem requests_terminate h p live n :
  run h p live →
  (length (log n h) ≤ MAX_ACTIONS cfg)%nat ∧
  ∀ q ds p', live !! n = Some q →
    ∃ p'' r, finish (MAX_ACTIONS cfg - length (log n h)) ds p' q = Some (p'', r).
Proof.
  intros Hr. pose proof (run_followed _ _ _ _ _ Hr) as Hf.
  assert (Hall : ∀ i, Arrive n i ∈ h → ∃ q, (length (log n h) ≤ MAX_ACTIONS cfg)%nat ∧
    within (MAX_ACTIONS cfg - length (log n h)) q ∧ ∀ q', live !! n = Some q' → q' = q).
  { intros i Hi. destruct (fo_trail _ _ _ _ Hf _ _ Hi) as (q & Ht & Hq & _). exists q.
    by destruct (within_trail _ _ _ _ (serve_within cfg policy i) Ht). }
  split.
  - destruct (log n h) as [|a l] eqn:El; [cbn; lia|]. rewrite <- El in *.
    destruct (fo_acts _ _ _ _ Hf n a) as [i Hi]; [apply elem_of_log; rewrite El; by left|].
    by destruct (Hall i Hi) as (q & ? & _).
  - intros q ds p' Hq. destruct (fo_live _ _ _ _ Hf _ _ Hq) as [i Hi].
    destruct (Hall i Hi) as (q' & _ & Hw & Heq). rewrite (Heq _ Hq). by apply within_finish.
Qed.

(** ** One-shot issuance *)

Lemma elem_of_store_events e l : e ∈ store_events l ↔ ∃ a, a ∈ l ∧ event_of a = Some e.
Proof. apply list_elem_of_omap. Qed.

Lemma history_event h n a e : Acts n a ∈ h → event_of a = Some e → e ∈ history_events h.
Proof. intros Hn He. apply elem_of_store_events. exists a. split; [|done]. apply elem_of_acts. eauto. Qed.

Lemma take_sub {A} k (l : list A) : take k l ⊆ l.
Proof. intros x (i & Hi & _)%elem_of_take. by eapply list_elem_of_lookup_2. Qed.

Lemma in_snoc {A} (x y : A) l : x ∈ l ++ [y] ↔ x ∈ l ∨ x = y.
Proof. by rewrite elem_of_app, list_elem_of_singleton. Qed.

(** The answer to an issue request is a signature the store handed out for it. *)
Definition issue_answered (req : IssueRequest) (l : list (Act answer)) (s : bytes) : Prop :=
  ∃ bm sig e, Text.from_hex (iq_blind_msg req) = Some bm ∧ s = to_hex_fmt sig ∧ e ∈ store_events l ∧
    handed_out (issuance_key (iq_payment_id req)) e = Some (issuance_request_hash bm, sig).

(** A payment counts as confirmed by what the rails answered. *)
Definition saw_payment (id : bytes) (l : list (Act answer)) : Prop :=
  Acted (MoneroContains id) true ∈ l ∨
  (Acted (Contains Revoked id) false ∈ l ∧ Acted (CardContains id) true ∈ l).

Definition is_query (op : Op) : bool :=
  match op with Contains _ _ | CardContains _ | MoneroContains _ => true | _ => false end.

Lemma rg_is_confirmed (G : list (Act answer) → Op → Prop) l id Q :
  (∀ l op, is_query op = true → G l op) →
  (∀ l' b, l ⊆ l' → (b = true → saw_payment id l') → Q l' b) →
  rg plausible G l (is_confirmed cfg id) Q.
Proof.
  intros HG. unfold is_confirmed. revert l. induction (rails cfg) as [|rail rs IH]; intros l HQ; [by apply HQ|].
  cbn [any_confirmed]. rg_step. unfold rail_confirmed.
  assert (Hrest : ∀ l', l ⊆ l' → rg plausible G l' (any_confirmed rs id) Q)
    by (intros l' Hsub; apply IH; intros l'' b Hsub'; apply HQ; set_solver).
  rg_step.
  - rg_ask b; [by apply HG|]. destruct b; [|apply Hrest; set_solver].
    apply HQ; [set_solver|]. left. set_solver.
  - rg_ask b; [by apply HG|]. destruct b; [apply Hrest; set_solver|].
    rg_ask b; [by apply HG|]. destruct b; [|apply Hrest; set_solver].
    apply HQ; [set_solver|]. right. set_solver.
Qed.

Ltac answered_by_last :=
  eexists _, _, _; split_and!; [eassumption|reflexivity|
    apply elem_of_store_events; eexists; split; [apply in_snoc; right; reflexivity|reflexivity]|
    cbn; by rewrite decide_True].

Lemma issue_post i :
  rg plausible anything [] (serve cfg policy i)
    (λ l r, ∀ req s, in_request i = Issue req → r = IssueReply (Ok s) → issue_answered req l s).
Proof.
  unfold serve. destruct (in_request i) as [| | | | | | | | |req| | | | | |]; try by apply rg_always.
  rg_step; [|by intros]. unfold issue, limited. rg_ask admitted. rg_step. rg_step; [|by intros]. rg_step.
  unfold issue_logic. rg_step; [|by intros]. rg_step; [by intros|].
  unfold now_for_expiry. rg_ask t. rg_ask [[|sig|]|e]; try (by intros).
  - unfold issue_new. rg_ask known. rg_step; [by intros|]. rg_ask fenced. rg_step; [by intros|].
    rg_step. apply rg_is_confirmed; [done|]. intros l' paid _ _. rg_step; [by intros|].
    rg_ask [sig|]; [|by intros]. rg_step; [by intros|].
    rg_ask [[|win|]|e]; try (by intros); intros req' s [= <-] [= <-]; answered_by_last.
  - intros req' s [= <-] [= <-]. answered_by_last.
Qed.

(** C4.  One payment, one token: all successful answers to issue requests for the same payment
    carry the same blind signature, and were given for the same blinded message - or for two
    messages that collide under SHA-256.  The store keeps the laws of [PortalStoreLaws]; the file
    store does as long as no power loss undoes a rename that a killed process left unsynced. *)
Theorem one_payment_one_token h p live n1 n2 i1 i2 q1 q2 s1 s2 :
  config_ok cfg → run h p live →
  Arrive n1 i1 ∈ h → Arrive n2 i2 ∈ h → in_request i1 = Issue q1 → in_request i2 = Issue q2 →
  iq_payment_id q1 = iq_payment_id q2 →
  Reply n1 (IssueReply (Ok s1)) ∈ h → Reply n2 (IssueReply (Ok s2)) ∈ h →
  s1 = s2 ∧ ∃ bm1 bm2, Text.from_hex (iq_blind_msg q1) = Some bm1 ∧ Text.from_hex (iq_blind_msg q2) = Some bm2 ∧
    issuance_request_hash bm1 = issuance_request_hash bm2.
Proof.
  intros Hcfg Hr Hi1 Hi2 E1 E2 Hid Hr1 Hr2. destruct (run_trace _ _ _ Hcfg Hr) as [vs Htr].
  assert (Hans : ∀ n i q s, Arrive n i ∈ h → in_request i = Issue q → Reply n (IssueReply (Ok s)) ∈ h →
    issue_answered q (log n h) s).
  { intros n i q s Hi E Hre. destruct (run_post _ _ _ _ _ _ _ _ Hr Hre issue_post) as (i' & Hi' & HQ).
    rewrite (fo_once _ _ _ _ (run_followed _ _ _ _ _ Hr) _ _ _ Hi' Hi) in HQ. by apply HQ. }
  destruct (Hans _ _ _ _ Hi1 E1 Hr1) as (bm1 & sig1 & e1 & Hb1 & -> & He1 & Hh1).
  destruct (Hans _ _ _ _ Hi2 E2 Hr2) as (bm2 & sig2 & e2 & Hb2 & -> & He2 & Hh2).
  assert (Hin : ∀ n e, e ∈ store_events (log n h) → e ∈ history_events h).
  { intros n e (a & Ha%elem_of_log & Hea)%elem_of_store_events. by eapply history_event. }
  rewrite <- Hid in Hh2.
  pose proof (one_signature_per_key _ _ _ Htr _ _ _ _ (Hin _ _ He1) (Hin _ _ He2) Hh1 Hh2) as [= Hh ->].
  split; [done|]. by exists bm1, bm2.
Qed.

(** *** Where confirmations come from *)

(** Reduce a guarantee about some handlers to those handlers. *)
Lemma by_duty (G : list (Act answer) → Op → Prop) i :
  (∀ l op, duty (in_request i) op = true → G l op) → rg plausible G [] (serve cfg policy i) (λ _ _, True).
Proof. intros HG. eapply rg_weaken; [|apply serve_duty]. exact HG. Qed.

(** A set that only grows by [adds] holds what was added, and a positive answer to [asks] means
    that it was. *)
Lemma membership_cause (members : Portal S → gset bytes) (adds asks : bytes → Act answer → Prop) h p live :
  run h p live →
  (∀ q, volatile_new cfg q → members q = ∅) →
  (∀ op d q q' r, op_run op d q = (q', r) → ∀ x, x ∈ members q' → x ∈ members q ∨ adds x (Acted op r)) →
  (∀ op d q q' r, op_run op d q = (q', r) → ∀ x, asks x (Acted op r) → x ∈ members q) →
  (∀ q l, members (give_back q l) = members q) →
  ∀ x, (x ∈ members p → ∃ a, a ∈ acts h ∧ adds x a) ∧
       (∀ b, b ∈ acts h → asks x b → ∃ a, a ∈ acts h ∧ adds x a).
Proof.
  intros Hr Hnew Hadd Hask Hgive.
  assert (Hsub : ∀ h y x, (∃ a, a ∈ acts h ∧ adds x a) → ∃ a, a ∈ acts (h ++ [y]) ∧ adds x a)
    by (intros h' y x (a & Ha & Hx); exists a; rewrite acts_snoc, elem_of_app; auto).
  induction Hr as [p Hi|h p live n i _ IH _|h p live n op k d p' r _ IH _ _ E|h p live n r _ IH _
                  |h p live n rest _ IH _|h p live p' _ IH Hp]; intros x.
  - rewrite (Hnew _ (pi_volatile _ _ Hi)). set_solver.
  - rewrite acts_snoc, app_nil_r. apply IH.
  - destruct (IH x) as [IH1 IH2]. split.
    + intros [Hx|Hx]%(Hadd _ _ _ _ _ E); [by apply Hsub, IH1|].
      exists (Acted op r). rewrite acts_snoc, in_snoc. auto.
    + rewrite acts_snoc. intros b [Hb| ->]%in_snoc Hq; rewrite <- acts_snoc with (x := Acts n (Acted op r)).
      * by eapply Hsub, IH2.
      * by apply Hsub, IH1, (Hask _ _ _ _ _ E).
  - rewrite acts_snoc, app_nil_r. apply IH.
  - rewrite acts_snoc, app_nil_r, Hgive. apply IH.
  - rewrite acts_snoc, app_nil_r, (Hnew _ (pr_volatile _ _ _ Hp)). split; [set_solver|apply IH].
Qed.

Lemma op_run_sets op d (q q' : Portal S) r :
  op_run op d q = (q', r) →
  (p_monero q' = match op with MoneroExtend ids => ids ∪ p_monero q | _ => p_monero q end) ∧
  (p_card q' = match op with
               | CardInsert id => {[id]} ∪ p_card q | CardRemove id => p_card q ∖ {[id]} | _ => p_card q end).
Proof. destruct op; cbn [op_run]; repeat case_match; intros; simplify_eq; done. Qed.

Lemma give_back_sets (q : Portal S) l : p_monero (give_back q l) = p_monero q ∧ p_card (give_back q l) = p_card q.
Proof. unfold give_back. by case_match. Qed.

Definition adds_monero (x : bytes) (a : Act answer) : Prop :=
  match act_op a with MoneroExtend ids => x ∈ ids | _ => False end.
Definition adds_card (x : bytes) (a : Act answer) : Prop :=
  match act_op a with CardInsert id => id = x | _ => False end.
Definition asks_monero (x : bytes) (a : Act answer) : Prop :=
  match a with
  | Acted op out =>
      match op return answer op → Prop with MoneroContains y => λ out, y = x ∧ out = true | _ => λ _, False end out
  end.
Definition asks_card (x : bytes) (a : Act answer) : Prop :=
  match a with
  | Acted op out =>
      match op return answer op → Prop with CardContains y => λ out, y = x ∧ out = true | _ => λ _, False end out
  end.

Lemma monero_cause h p live x :
  run h p live → Acted (MoneroContains x) true ∈ acts h → ∃ a, a ∈ acts h ∧ adds_monero x a.
Proof.
  intros Hr Ha. eapply (membership_cause p_monero adds_monero asks_monero); [exact Hr|..|exact Ha|done].
  - by intros q [].
  - intros op d q q' r E y. destruct (op_run_sets _ _ _ _ _ E) as [-> _]. unfold adds_monero.
    destruct op; cbn; set_solver.
  - intros op d q q' r E y. destruct op; try done. cbn in E. injection E as <- <-.
    intros [-> Hq%bool_decide_eq_true]. done.
  - intros q l. apply give_back_sets.
Qed.

Lemma card_cause h p live x :
  run h p live → Acted (CardContains x) true ∈ acts h → ∃ a, a ∈ acts h ∧ adds_card x a.
Proof.
  intros Hr Ha. eapply (membership_cause p_card adds_card asks_card); [exact Hr|..|exact Ha|done].
  - by intros q [].
  - intros op d q q' r E y. destruct (op_run_sets _ _ _ _ _ E) as [_ ->]. unfold adds_card.
    destruct op; cbn; set_solver.
  - intros op d q q' r E y. destruct op; try done. cbn in E. injection E as <- <-.
    intros [-> Hq%bool_decide_eq_true]. done.
  - intros q l. apply give_back_sets.
Qed.

(** What makes a payment confirmed: a transfer in a reply of the wallet, with the required
    confirmations and amount; or a payment event that arrived with a header that is its signature
    under the shared secret. *)
Definition payment_evidence (h : history) (id : bytes) : Prop :=
  (∃ n i body ids, Arrive n i ∈ h ∧ in_request i = PollMonero (Some body) ∧
     parse_confirmed body (min_confirmations cfg) (min_atomic cfg) = Some ids ∧ id ∈ ids) ∨
  (∃ n i body sig event, Arrive n i ∈ h ∧ in_request i = Webhook body ∧
     webhook_signature (in_headers i) = Some sig ∧ verify_hmac (webhook_secret cfg) body sig = true ∧ webhook_from_slice body = Some event ∧
     is_confirm_event (event_type event) = true ∧ payment_reference event = id).

Definition confirms (i : Incoming) (op : Op) : Prop :=
  match op with
  | MoneroExtend ids => ∃ body, in_request i = PollMonero (Some body) ∧
      parse_confirmed body (min_confirmations cfg) (min_atomic cfg) = Some ids
  | CardInsert id => ∃ body sig event, in_request i = Webhook body ∧
      webhook_signature (in_headers i) = Some sig ∧ verify_hmac (webhook_secret cfg) body sig = true ∧ webhook_from_slice body = Some event ∧
      is_confirm_event (event_type event) = true ∧ payment_reference event = id
  | _ => True
  end.

Lemma serve_confirms i : rg plausible (λ _, confirms i) [] (serve cfg policy i) (λ _ _, True).
Proof.
  destruct (in_request i) as [| | | | | | | | | | |body| | | |body] eqn:E;
    try (by apply by_duty; rewrite E; intros ? []).
  - unfold serve. rewrite E. rg_step. unfold webhook. rg_step; [|done]. rg_step; [done|].
    unnegb. rg_step; [|done]. rg_step.
    + unfold card_confirm. rg_ask revoked. rg_step; [done|]. rg_ask known. rg_step; [done|].
      rg_ask u; [|done]. cbn. rewrite E. by eexists _, _, _.
    + rg_step; [|done]. unfold card_revoke. rg_ask [b'|e]; [|done]. rg_ask u. done.
  - unfold serve. rewrite E. rg_step. unfold poll_once. destruct body as [body|]; [|done]. cbn.
    destruct (parse_confirmed _ _ _) as [ids|] eqn:Ep; [|done]. rg_ask u; [|done]. cbn. rewrite E. eauto.
Qed.

Lemma saw_payment_evidence h p live n id :
  run h p live → saw_payment id (log n h) → payment_evidence h id.
Proof.
  intros Hr Hs.
  assert (Hin : ∀ a, a ∈ log n h → a ∈ acts h) by (intros a Ha%elem_of_log; apply elem_of_acts; eauto).
  assert (Hconf : ∀ a, a ∈ acts h → ∃ m i, Arrive m i ∈ h ∧ confirms i (act_op a)).
  { intros a [m Hm]%elem_of_acts.
    destruct (run_did _ _ (λ i _, confirms i) _ _ _ _ _ Hr Hm serve_confirms) as (i & k & Hi & _ & Hc). eauto. }
  destruct Hs as [Hm|[_ Hc]].
  - destruct (monero_cause _ _ _ _ Hr (Hin _ Hm)) as ([op out] & Ha & Had).
    destruct (Hconf _ Ha) as (m & i & Hi & Hcf). unfold adds_monero in Had. cbn in Had, Hcf.
    destruct op; try done. destruct Hcf as (body & E & Hp). left. by exists m, i, body, ids.
  - destruct (card_cause _ _ _ _ Hr (Hin _ Hc)) as ([op out] & Ha & Had).
    destruct (Hconf _ Ha) as (m & i & Hi & Hcf). unfold adds_card in Had. cbn in Had, Hcf.
    destruct op; try done. subst id0. destruct Hcf as (body & sig & ev & E & ?). right. by exists m, i, body, sig, ev.
Qed.

(** A commit of an issuance was preceded by all of its checks. *)
Definition checked_issuance (i : Incoming) (l : list (Act answer)) (op : Op) : Prop :=
  match op with
  | Store (CommitIssuance key r _) =>
      ∃ req bm, in_request i = Issue req ∧ key = issuance_key (iq_payment_id req) ∧
        Text.from_hex (iq_blind_msg req) = Some bm ∧ ir_request_hash r = issuance_request_hash bm ∧
        Acted (Contains Pending (iq_payment_id req)) true ∈ l ∧
        Acted (Contains LegacyIssued (iq_payment_id req)) false ∈ l ∧
        saw_payment (iq_payment_id req) l ∧ Acted (BlindSign bm) (Some (ir_blind_sig r)) ∈ l
  | _ => True
  end.

Lemma saw_payment_mono id l l' : l ⊆ l' → saw_payment id l → saw_payment id l'.
Proof. unfold saw_payment. set_solver. Qed.

Lemma serve_checked_issuance i : rg plausible (checked_issuance i) [] (serve cfg policy i) (λ _ _, True).
Proof.
  destruct (in_request i) as [| | | | | | | | |req| | | | | |] eqn:E;
    try (by apply by_duty; rewrite E; intros ? [? []| | | | | | | | | | | | | | | | | | | | |]).
  unfold serve. rewrite E. rg_step; [|done]. unfold issue, limited. rg_ask admitted. rg_step. rg_step; [|done].
  rg_step. unfold issue_logic. rg_step; [|done]. rg_step; [done|].
  unfold now_for_expiry. rg_ask t. rg_ask [[|sig|]|e]; try done.
  unfold issue_new. rg_ask [|]; [|done]. cbn [negb]. rg_ask [|]; [done|].
  rg_step. apply rg_is_confirmed; [by intros ? []|]. intros l' paid Hsub Hpaid. rg_step; [done|].
  unnegb. rg_ask [sig|]; [|done]. rg_step; [done|]. rg_ask out; [|by destruct out as [[]|]].
  eexists req, _. split_and!; [done|done|eassumption|done|..]; cbn [ir_blind_sig].
  - apply in_snoc. left. apply Hsub. set_solver.
  - apply in_snoc. left. apply Hsub. set_solver.
  - eapply saw_payment_mono; [|by apply Hpaid]. set_solver.
  - apply in_snoc. by right.
Qed.

(** C5.  Every token issued was paid for: behind a successful answer there is a request - this
    one, or the first for the same payment key - that found the reference among those this
    portal handed out and not behind the fence of payments spent under the old scheme, saw the
    payment confirmed by a transfer, or by a payment event that arrived with its signature, in
    this very history, and had the returned signature from the signer for its own message. *)
Theorem token_is_paid_for h p live n i req s :
  config_ok cfg → run h p live → Arrive n i ∈ h → in_request i = Issue req →
  Reply n (IssueReply (Ok s)) ∈ h →
  ∃ m j req' bm sig, Arrive m j ∈ h ∧ in_request j = Issue req' ∧
    issuance_key (iq_payment_id req') = issuance_key (iq_payment_id req) ∧
    Acts m (Acted (Contains Pending (iq_payment_id req')) true) ∈ h ∧
    Acts m (Acted (Contains LegacyIssued (iq_payment_id req')) false) ∈ h ∧
    payment_evidence h (iq_payment_id req') ∧
    Text.from_hex (iq_blind_msg req') = Some bm ∧
    Acts m (Acted (BlindSign bm) (Some sig)) ∈ h ∧ s = to_hex_fmt sig.
Proof.
  intros Hcfg Hr Hi E Hre. destruct (run_trace _ _ _ Hcfg Hr) as [vs Htr].
  destruct (run_post _ _ _ _ _ _ _ _ Hr Hre issue_post) as (i' & Hi' & HQ).
  rewrite (fo_once _ _ _ _ (run_followed _ _ _ _ _ Hr) _ _ _ Hi' Hi) in HQ.
  destruct (HQ _ _ E eq_refl) as (bm & sig & e & _ & -> & (a & Ha%elem_of_log & Hea)%elem_of_store_events & Hh).
  destruct (signature_origin _ _ _ Htr _ _ _ (history_event _ _ _ _ Ha Hea) Hh) as (e' & r & He' & Hc & _ & <-).
  apply elem_of_store_events in He' as ([op out] & [m Hm]%elem_of_acts & Hop).
  destruct (run_did _ _ _ _ _ _ _ _ Hr Hm serve_checked_issuance) as (j & k & Hj & _ & Hg).
  destruct op; try done. cbn in Hop. injection Hop as <-. unfold commits in Hc. cbn in Hc, Hg.
  destruct op; try done. case_decide; [|done]. injection Hc as ->.
  destruct Hg as (req' & bm' & Ej & Hkey & Hhex & _ & Hpend & Hfence & Hsaw & Hsign).
  pose proof (take_sub k (log m h)) as Hsub.
  exists m, j, req', bm', (ir_blind_sig r). split_and!; try done.
  - congruence.
  - by apply elem_of_log, Hsub.
  - by apply elem_of_log, Hsub.
  - eapply saw_payment_evidence; [exact Hr|]. by eapply saw_payment_mono.
  - by apply elem_of_log, Hsub.
Qed.

End Safety.
