(* ===== verification/PortalAuth.v ===== *)
(** * Accounts, challenges and subscriptions, over every run

    Who may act for an account, how often a challenge can be used, what a subscription's end
    date is made of, and the mint quotas. *)

From S2P Require Import Prelude.
From S2P Require Import Text.
From S2P Require Import Net.
From S2P Require Import Crypto.
From S2P Require Import Durable.
From S2P Require Import Grant.
From S2P Require Import Token.
From S2P Require Import RateLimit.
From S2P Require Import ClientIp.
From S2P Require Import PortalStore.
From S2P Require Import Prog.
From S2P Require Import Portal.
From S2P Require Import PortalRuns.
From S2P Require Import PortalSafety.
From Stdlib Require Import Strings.Byte ZArith Lia.
From stdpp Require Import functions prelude gmap strings.

Local Open Scope Z_scope.

Section Auth.
Context `{Hsha : Sha256, !Sha256Laws, Hed : Ed25519, Hhook : WebhookJson, Hrpc : RpcJson}.
Context {S : Type} `{Hst : PortalStore S, !PortalStoreLaws S} (cfg : PortalConfig) (policy : ClientIpPolicy).

Local Abbreviation anything := (λ (_ : list (Act answer)) (_ : Op), True).
Local Abbreviation run := (portal_run cfg policy).

(** ** Authentication *)

(** The proof [auth] was accepted for the account [rec], at the time the request read. *)
Definition authentic (auth : AccountAuth) (rec : AccountRecord) (l : list (Act answer)) : Prop :=
  ∃ number sig now, unhex32 (aa_account_number auth) = Some number ∧
    parse_sig (aa_signature auth) = Some sig ∧
    (∃ clock, Acted Clock clock ∈ l ∧ now = now_unix_secs_for_expiry clock) ∧
    Acted (Consume (aa_challenge auth) now) true ∈ l ∧
    Acted (Store (Get number)) (Ok (Some rec)) ∈ l ∧
    verify_auth_signature (auth_pubkey rec) (aa_challenge auth) sig = true.

Lemma authentic_mono auth rec l l' : l ⊆ l' → authentic auth rec l → authentic auth rec l'.
Proof. intros Hs (num & sig & now & ? & ? & (c & ? & ?) & ? & ? & ?). exists num, sig, now. split_and!; eauto. Qed.

Lemma rg_authenticated (G : list (Act answer) → Op → Prop) l auth clock Q :
  Acted Clock clock ∈ l →
  (∀ l op, (∃ c t, op = Consume c t) ∨ (∃ a, op = Store (Get a)) → G l op) →
  (∀ l' e, l ⊆ l' → Q l' (Err e)) →
  (∀ l' rec, l ⊆ l' → authentic auth rec l' → Q l' (Ok rec)) →
  rg plausible G l (authenticated auth (now_unix_secs_for_expiry clock)) Q.
Proof.
  intros Hclk HG He Hok. unfold authenticated, authenticate.
  destruct (unhex32 _) as [num|] eqn:En; [|by apply He]. destruct (parse_sig _) as [sig|] eqn:Es; [|by apply He].
  rg_ask [|]; [apply HG; eauto| |apply He; set_solver]. cbn [negb].
  rg_ask [[rec|]|e]; [apply HG; eauto| |apply He; set_solver..].
  destruct (verify_auth_signature _ _ _) eqn:Ev; [|apply He; set_solver].
  apply Hok; [set_solver|]. exists num, sig, (now_unix_secs_for_expiry clock). split_and!; try done; [|set_solver..]. exists clock. split; [set_solver|done].
Qed.

(** Reaching a handler's body: its limiter, its clock and its proof have been checked. *)
Definition auth_of (req : Request) : option AccountAuth :=
  match req with
  | AccountStatus auth | Subscribe auth => Some auth
  | Activate req => Some (ar_auth req)
  | MintBatch req => Some (mb_auth req)
  | MintOne req => Some (mq_auth req)
  | _ => None
  end.

Definition granted (r : Response) : bool :=
  match r with
  | StatusReply (Ok _) | ReferenceReply (Ok _) | MintReply (Ok _) | MintOneReply (Ok _) => true
  | _ => false
  end.

(** After a fact about the log is established, it stays. *)
Lemma rg_keep {A} (p : action A) l (P : list (Act answer) → Prop) :
  (∀ l l', l ⊆ l' → P l → P l') → P l → rg plausible anything l p (λ l _, P l).
Proof.
  intros HP. revert l. induction p as [a|op k IH]; cbn; intros l Hl; [done|].
  split; [done|]. intros r _. apply IH, (HP l); [set_solver|done].
Qed.

Lemma granted_post i :
  rg plausible anything [] (serve cfg policy i)
    (λ l r, ∀ auth, auth_of (in_request i) = Some auth → granted r = true → ∃ rec, authentic auth rec l).
Proof.
  unfold serve. destruct (in_request i) as [| |auth| |auth|req|req|req| | | | | | | |]; try by apply rg_always.
  all: rg_step; [|by intros]; rg_step.
  all: unfold account_status, subscribe, activate, mint, mint_v1, limited, now_for_expiry.
  all: try (rg_step; [by intros|]).
  all: rg_ask admitted; rg_step; rg_step; [|by intros]; rg_ask t; rg_step.
  all: apply rg_authenticated; [set_solver|done|by intros|]; intros l' rec _ Hauth.
  all: match type of Hauth with authentic ?au _ _ => eapply rg_mono; [|apply (rg_keep _ _ (authentic au rec));
         [intros ? ?; apply authentic_mono|exact Hauth]] end.
  all: intros l0 r Hl auth' [= <-] _; exists rec; exact Hl.
Qed.

(** The account behind an accepted proof was registered, with the key that verified it. *)
Definition registration (h : history) (number key : bytes) : Prop :=
  ∃ n i nt kt st sig, Arrive n i ∈ h ∧ in_request i = CreateAccount (Anonymous nt kt st) ∧
    parse_lower_hex 32 nt = Some number ∧ parse_lower_hex AUTH_PUBKEY_LEN kt = Some key ∧
    parse_lower_hex AUTH_SIG_LEN st = Some sig ∧ verify_registration_signature number key sig = true.

Definition checked_registration (i : Incoming) (op : Op) : Prop :=
  match op with
  | Store (InsertAccount r) =>
      entitlement r = NoEntitlement ∧
      ∃ nt kt st sig, in_request i = CreateAccount (Anonymous nt kt st) ∧
        parse_lower_hex 32 nt = Some (account_number r) ∧
        parse_lower_hex AUTH_PUBKEY_LEN kt = Some (auth_pubkey r) ∧
        parse_lower_hex AUTH_SIG_LEN st = Some sig ∧
        verify_registration_signature (account_number r) (auth_pubkey r) sig = true
  | _ => True
  end.

Lemma serve_checked_registration i :
  rg plausible (λ _, checked_registration i) [] (serve cfg policy i) (λ _ _, True).
Proof.
  destruct (in_request i) as [req| | | | | | | | | | | | | | |] eqn:E;
    try (by apply by_duty; rewrite E; intros ? [? []| | | | | | | | | | | | | | | | | | | | |]).
  unfold serve. rewrite E. rg_step; [|done]. unfold create_account, limited. rg_ask admitted. rg_step.
  rg_step; [|done]. destruct req as [nt kt st|]; [|done].
  do 2 rg_step. rg_step; [|done]. do 2 rg_step. rg_step; [|done]. do 2 rg_step. rg_step; [|done].
  rg_step; [done|]. unnegb. rg_ask [|[]]; try done. cbn. split; [done|].
  repeat match goal with K : ok_or _ _ = Ok _ |- _ => apply ok_or_Ok in K end. eexists nt, kt, st, _. split_and!; [done|eassumption..].
Qed.

Lemma event_act h e : e ∈ history_events h → ∃ n a, Acts n a ∈ h ∧ event_of a = Some e.
Proof. intros (a & [n Hn]%elem_of_acts & He)%elem_of_store_events. eauto. Qed.

Lemma registered_by h p live account rec :
  config_ok cfg → run h p live → registered (history_events h) account rec →
  registration h account (auth_pubkey rec).
Proof.
  intros Hcfg Hr (Hn & e & r & He & Hi & Hrn & Hk). destruct (event_act _ _ He) as (n & [op out] & Ha & Hea).
  destruct (run_did _ _ _ _ _ _ _ _ Hr Ha serve_checked_registration) as (i & k & Harr & _ & Hc).
  destruct op; try done. cbn in Hea, Hc. injection Hea as <-. unfold inserts in Hi. cbn in Hi.
  destruct op; try done. injection Hi as ->. destruct Hc as (_ & nt & kt & st & sig & E & H1 & H2 & H3 & H4).
  exists n, i, nt, kt, st, sig. rewrite <- Hk, <- Hrn. done.
Qed.

Lemma authentic_account h p live n auth rec :
  config_ok cfg → run h p live → authentic auth rec (log n h) →
  unhex32 (aa_account_number auth) = Some (account_number rec) ∧
  registration h (account_number rec) (auth_pubkey rec).
Proof.
  intros Hcfg Hr (num & sig & now & Hnum & _ & _ & _ & Hget%elem_of_log & _).
  destruct (run_trace _ _ _ _ _ Hcfg Hr) as [vs Htr].
  assert (Hreg : registered (history_events h) num rec).
  { eapply (got_registered _ _ num Htr (Ev (Get num) (Ok (Some rec)))); [by eapply history_event|].
    cbn. by rewrite decide_True. }
  destruct Hreg as [Hn Hreg]. subst num. split; [done|]. eapply registered_by; try done.
Qed.

(** ** Challenges *)

Definition records (c : bytes) (a : Act answer) : bool :=
  match act_op a with RecordChallenge nonce _ => bool_decide (nonce = c) | _ => false end.

Definition consumes (c : bytes) (a : Act answer) : bool :=
  match a with
  | Acted op out =>
      match op return answer op → bool with
      | Consume nonce _ => λ out, out && bool_decide (nonce = c)
      | _ => λ _, false
      end out
  end.

Definition count {A} (f : A → bool) (l : list A) : nat := length (filter (λ a, f a = true) l).

Lemma count_app {A} (f : A → bool) l l' : count f (l ++ l') = (count f l + count f l')%nat.
Proof. unfold count. by rewrite list.filter_app, length_app. Qed.

Lemma count_one {A} (f : A → bool) a : count f [a] = if f a then 1%nat else 0%nat.
Proof. unfold count. rewrite list.filter_cons. case_decide as E; [by rewrite E|]. by destruct (f a). Qed.

Definition outstanding (c : bytes) (m : gmap bytes Z) : nat :=
  if decide (is_Some (m !! c)) then 1 else 0.

Lemma outstanding_empty c : outstanding c ∅ = 0%nat.
Proof. unfold outstanding. rewrite decide_False; [done|]. rewrite lookup_empty. by intros []. Qed.

Lemma challenge_step c op d (p p' : Portal S) r :
  op_run op d p = (p', r) →
  ((if consumes c (Acted op r) then 1 else 0) + outstanding c (p_challenges p') ≤
   (if records c (Acted op r) then 1 else 0) + outstanding c (p_challenges p))%nat.
Proof.
  assert (Hother : p_challenges p' = p_challenges p → consumes c (Acted op r) = false →
    ((if consumes c (Acted op r) then 1 else 0) + outstanding c (p_challenges p') ≤
     (if records c (Acted op r) then 1 else 0) + outstanding c (p_challenges p))%nat)
    by (intros -> ->; lia).
  destruct op; cbn [op_run]; intros E; try (apply Hother; [|done]; repeat case_match; by simplify_eq).
  - injection E as <- <-. unfold records, consumes, outstanding. cbn.
    destruct (decide (nonce = c)) as [->|Hne].
    + rewrite bool_decide_true by done. repeat case_decide; lia.
    + rewrite bool_decide_false by done. unfold challenge_issue. rewrite lookup_insert_ne by done.
      case_decide as H1; case_decide as H2; try lia. destruct H2. destruct H1 as [t Ht].
      apply map_lookup_filter_Some in Ht as [Ht _]. by exists t.
  - injection E as <- <-. unfold records, consumes, outstanding. cbn.
    destruct (decide (nonce = c)) as [->|Hne].
    + rewrite lookup_delete_eq, bool_decide_true, andb_true_r by done. rewrite decide_False by (by intros []).
      destruct (p_challenges p !! c); cbn; [|lia]. rewrite decide_True by done. destruct (_ <=? _); lia.
    + rewrite lookup_delete_ne by done. rewrite (bool_decide_false (nonce = c)), andb_false_r by done. lia.
Qed.

Lemma challenges_accounted h p live c :
  run h p live →
  (count (consumes c) (acts h) + outstanding c (p_challenges p) ≤ count (records c) (acts h))%nat.
Proof.
  induction 1 as [p Hi|h p live n i _ IH _|h p live n op k d p' r _ IH _ _ E|h p live n r _ IH _
                 |h p live n rest _ IH _|h p live p' _ IH Hp]; rewrite ?acts_snoc, ?app_nil_r; try done.
  - rewrite (vn_challenges _ _ (pi_volatile _ _ Hi)), outstanding_empty. done.
  - rewrite !count_app, !count_one. pose proof (challenge_step c _ _ _ _ _ E). lia.
  - unfold give_back. by case_match.
  - rewrite (vn_challenges _ _ (pr_volatile _ _ _ Hp)), outstanding_empty. lia.
Qed.

(** Distinct requests account for distinct actions. *)
Lemma count_logs (f : Act answer → bool) ns h :
  NoDup ns → (sum_list_with (λ n, count f (log n h)) ns ≤ count f (acts h))%nat.
Proof.
  intros Hnd. induction h as [|x h IH] using rev_ind.
  - clear Hnd. induction ns as [|n ns IHn]; cbn; [lia|]. unfold count in *. cbn in *. lia.
  - rewrite acts_snoc, count_app.
    assert (Hsum : (sum_list_with (λ n, count f (log n (h ++ [x]))) ns =
      sum_list_with (λ n, count f (log n h)) ns + sum_list_with (λ n, count f (log n [x])) ns)%nat).
    { clear. induction ns as [|n ns IHn]; cbn [sum_list_with]; [done|]. rewrite log_app, count_app. lia. }
    rewrite Hsum. enough (sum_list_with (λ n, count f (log n [x])) ns ≤
      count f match x with Acts _ a => [a] | _ => [] end)%nat by lia.
    clear IH Hsum. destruct x as [|m a| | |];
      try (clear; induction ns as [|k ns IHn]; [cbn; lia|]; cbn in *; lia).
    induction ns as [|n ns IHn]; [cbn; lia|]. apply list.NoDup_cons in Hnd as [Hn Hnd].
    cbn [sum_list_with]. destruct (decide (m = n)) as [->|Hne].
    + rewrite log_act. assert (sum_list_with (λ n0, count f (log n0 [Acts n a])) ns = 0%nat) as ->; [|lia].
      clear IHn Hnd. induction ns as [|n' ns IH']; [done|]. apply not_elem_of_cons in Hn as [? Hn].
      cbn [sum_list_with]. rewrite log_other by done. cbn. by apply IH'.
    + rewrite log_other by done. cbn. by apply IHn.
Qed.

(** A challenge authenticates one request: the requests that were granted with the same
    challenge are at most as many as the times that very challenge was drawn and issued. *)
Theorem challenge_authorises_once h p live c ns :
  run h p live → NoDup ns →
  (∀ n, n ∈ ns → ∃ i auth r, Arrive n i ∈ h ∧ auth_of (in_request i) = Some auth ∧ aa_challenge auth = c ∧
     Reply n r ∈ h ∧ granted r = true) →
  (length ns ≤ count (records c) (acts h))%nat.
Proof.
  intros Hr Hnd Hns. pose proof (challenges_accounted _ _ _ c Hr) as Hacc.
  pose proof (count_logs (consumes c) ns h Hnd) as Hsum.
  enough (length ns ≤ sum_list_with (λ n, count (consumes c) (log n h)) ns)%nat by lia.
  clear Hacc Hsum Hnd. induction ns as [|n ns IH]; [done|]. cbn [sum_list_with length].
  assert (1 ≤ count (consumes c) (log n h))%nat; [|specialize (IH ltac:(set_solver)); lia].
  destruct (Hns n) as (i & auth & r & Hi & Hau & Hc & Hre & Hg); [by left|].
  destruct (run_post _ _ _ _ _ _ _ _ Hr Hre granted_post) as (i' & Hi' & HQ).
  rewrite (fo_once _ _ _ _ (run_followed _ _ _ _ _ Hr) _ _ _ Hi' Hi) in HQ.
  destruct (HQ _ Hau Hg) as (rec & num & sig & now & _ & _ & _ & Hcons & _). rewrite Hc in Hcons.
  unfold count. destruct (filter _ (log n h)) eqn:Ef; [|cbn; lia].
  assert (Acted (Consume c now) true ∈ (filter (λ a, consumes c a = true) (log n h))) as Hin.
  { apply list_elem_of_filter. split; [|done]. cbn. by apply bool_decide_eq_true. }
  rewrite Ef in Hin. by apply elem_of_nil in Hin.
Qed.

(** A challenge was issued at [t], or recently enough for the time [now]. *)
Definition issued (h : history) (c : bytes) (t : Z) : Prop := ∃ m, Acts m (Acted (RecordChallenge c t) tt) ∈ h.
Definition issued_recently (h : history) (c : bytes) (now : Z) : Prop :=
  ∃ t, issued h c t ∧ u64_saturating_sub now t ≤ CHALLENGE_TTL_SECS.

Lemma challenges_grow op d (p p' : Portal S) r c t :
  op_run op d p = (p', r) → p_challenges p' !! c = Some t → p_challenges p !! c = Some t ∨ op = RecordChallenge c t.
Proof.
  assert (Hother : p_challenges p' = p_challenges p → p_challenges p' !! c = Some t → p_challenges p !! c = Some t ∨ op = RecordChallenge c t)
    by (intros ->; by left).
  destruct op; cbn [op_run]; intros E; try (apply Hother; repeat case_match; by simplify_eq).
  - injection E as <- <-. cbn. unfold challenge_issue. intros [[-> ->]|[_ [? _]%map_lookup_filter_Some]]%lookup_insert_Some; auto.
  - injection E as <- <-. cbn. intros [_ ?]%lookup_delete_Some. by left.
Qed.

Definition consumption (x : Happening) : option (bytes * Z * bool) :=
  match x with
  | Acts _ (Acted op out) =>
      match op return answer op → option (bytes * Z * bool) with Consume c t => λ out, Some (c, t, out) | _ => λ _, None end out
  | _ => None
  end.

(** A challenge that is consumed was issued before, not long ago. *)
Lemma consumed_was_issued h p live :
  run h p live →
  (∀ c t, p_challenges p !! c = Some t → issued h c t) ∧
  (∀ h1 n c now h2, h = h1 ++ Acts n (Acted (Consume c now) true) :: h2 → issued_recently h1 c now).
Proof.
  assert (Hkeep : ∀ h x c t, issued h c t → issued (h ++ [x]) c t) by (intros h0 x c t [m Hm]; exists m; apply elem_of_app; by left).
  assert (Hsnoc : ∀ h x, (∀ h1 n c now h2, h = h1 ++ Acts n (Acted (Consume c now) true) :: h2 → issued_recently h1 c now) →
    (∀ n c now, x = Acts n (Acted (Consume c now) true) → issued_recently h c now) →
    ∀ h1 n c now h2, h ++ [x] = h1 ++ Acts n (Acted (Consume c now) true) :: h2 → issued_recently h1 c now).
  { intros h0 x IH Hx h1 n c now h2 E. destruct h2 as [|y h2 _] using rev_ind.
    - apply app_inj_tail in E as [-> ->]. eauto.
    - rewrite app_comm_cons, app_assoc in E. apply app_inj_tail in E as [-> _]. eauto. }
  induction 1 as [p Hi|h p live n i _ IH _|h p live n op k d p' r _ IH _ _ E|h p live n r _ IH _
                 |h p live n rest _ IH _|h p live p' _ IH Hp]; [|destruct IH as [IH1 IH2]; split; [|apply Hsnoc; [exact IH2|]]..]; try done.
  - split; [|by intros []]. intros c t. rewrite (vn_challenges _ _ (pi_volatile _ _ Hi)). by rewrite lookup_empty.
  - eauto.
  - intros c t Hc. destruct (challenges_grow _ _ _ _ _ _ _ E Hc) as [Hold| ->]; [eauto|].
    exists n. destruct r. apply elem_of_app. right. by left.
  - intros n' c now Ex. apply (f_equal consumption) in Ex.
    destruct op; try done. injection Ex as -> -> ->. cbn in E. injection E as _ E. destruct (p_challenges p !! c) as [t|] eqn:Et; [|done]. apply Z.leb_le in E. exists t. eauto.
  - eauto.
  - unfold give_back. case_match; eauto.
  - intros c t. rewrite (vn_challenges _ _ (pr_volatile _ _ _ Hp)). by rewrite lookup_empty.
Qed.

(** C6.  Nobody acts for an account without its key: behind every successful answer to an
    authenticated request - status, subscription, activation or tokens - there is a
    registration of the account in this history, with a proof of possession of a public key,
    and a signature over the request's challenge that verifies under that very key.  The request
    itself consumed the challenge, which this process had issued at most two minutes before the
    time the request read; and of all requests that carry a challenge, no more are granted than
    the times it was drawn and issued. *)
Theorem only_the_key_holder h p live n i auth r :
  config_ok cfg → run h p live → Arrive n i ∈ h → auth_of (in_request i) = Some auth →
  Reply n r ∈ h → granted r = true →
  (∃ number key sig, unhex32 (aa_account_number auth) = Some number ∧ registration h number key ∧
     parse_sig (aa_signature auth) = Some sig ∧ verify_auth_signature key (aa_challenge auth) sig = true) ∧
  (∃ clock h1 h2, Acts n (Acted Clock clock) ∈ h ∧
     h = h1 ++ Acts n (Acted (Consume (aa_challenge auth) (now_unix_secs_for_expiry clock)) true) :: h2 ∧
     issued_recently h1 (aa_challenge auth) (now_unix_secs_for_expiry clock)) ∧
  (∀ ns, NoDup ns →
     (∀ m, m ∈ ns → ∃ j auth' r', Arrive m j ∈ h ∧ auth_of (in_request j) = Some auth' ∧ aa_challenge auth' = aa_challenge auth ∧
        Reply m r' ∈ h ∧ granted r' = true) →
     (length ns ≤ count (records (aa_challenge auth)) (acts h))%nat).
Proof.
  intros Hcfg Hr Hi Hau Hre Hg. destruct (run_post _ _ _ _ _ _ _ _ Hr Hre granted_post) as (i' & Hi' & HQ).
  rewrite (fo_once _ _ _ _ (run_followed _ _ _ _ _ Hr) _ _ _ Hi' Hi) in HQ.
  destruct (HQ _ Hau Hg) as [rec Hauth]. destruct (authentic_account _ _ _ _ _ _ Hcfg Hr Hauth) as [Hn Hreg].
  destruct Hauth as (num & sig & now & _ & Hs & (clock & Hclk & ->) & Hcons & _ & Hv). split_and!.
  - by eexists _, _, sig.
  - apply elem_of_log, list_elem_of_split in Hcons as (h1 & h2 & E). exists clock, h1, h2. split_and!; [by apply elem_of_log|done|].
    by eapply (proj2 (consumed_was_issued _ _ _ Hr)).
  - intros ns Hnd Hns. by eapply challenge_authorises_once.
Qed.

(** ** Subscriptions *)

(** An activation was preceded by all of its checks. *)
Definition checked_activation (i : Incoming) (l : list (Act answer)) (op : Op) : Prop :=
  match op with
  | Store (ActivateSubscription account key now by_secs) =>
      by_secs = THIRTY_DAYS_SECS ∧ Acted Clock (Some now) ∈ l ∧
      ∃ req rec, in_request i = Activate req ∧ authentic (ar_auth req) rec l ∧ account_number rec = account ∧
        key = (binding_key (ar_payment_reference req) account).1 ∧
        Acted (Contains SubBindings (binding_key (ar_payment_reference req) account).2) true ∈ l ∧
        saw_payment (ar_payment_reference req) l
  | _ => True
  end.

Lemma serve_checked_activation i : rg plausible (checked_activation i) [] (serve cfg policy i) (λ _ _, True).
Proof.
  destruct (in_request i) as [| | | | |req| | | | | | | | | |] eqn:E;
    try (by apply by_duty; rewrite E; intros ? [? []| | | | | | | | | | | | | | | | | | | | |]).
  unfold serve. rewrite E. rg_step; [|done]. unfold activate, limited, now_for_expiry. rg_ask admitted. rg_step.
  rg_step; [|done]. rg_ask t. rg_step. apply rg_authenticated; [set_solver|by intros ? ? [(? & ? & ->)|(? & ->)]|done|].
  intros l1 rec _ Hauth. unfold binding_key. cbn zeta. rg_ask [|]; [|done]. cbn [negb]. rg_step.
  apply rg_is_confirmed; [by intros ? []|]. intros l2 paid Hsub Hpaid. rg_step; [done|]. unnegb.
  unfold now_for_issuance. rg_ask clock. cbn zeta. rg_step; [done|]. rg_ask [|]; [done|].
  rg_ask out; [|by destruct out as [[]|]]. cbn. destruct clock as [m|]; [|done]. cbn in *.
  split_and!; [done|set_solver|]. exists req, rec. split_and!; try done.
  - eapply authentic_mono; [|exact Hauth]. set_solver.
  - set_solver.
  - eapply saw_payment_mono; [|by apply Hpaid]. set_solver.
Qed.

(** A guarantee over a request's past holds of its whole log, if it only looks for actions. *)
Lemma run_did_log (G : Incoming → list (Act answer) → Op → Prop) h p live n a :
  (∀ i l l' op, l ⊆ l' → G i l op → G i l' op) →
  (∀ i, rg plausible (G i) [] (serve cfg policy i) (λ _ _, True)) →
  run h p live → Acts n a ∈ h → ∃ i, Arrive n i ∈ h ∧ G i (log n h) (act_op a).
Proof.
  intros Hmono HG Hr Ha. destruct (run_did _ _ _ _ _ _ _ _ Hr Ha HG) as (i & k & Hi & _ & Hg).
  exists i. split; [done|]. eapply Hmono; [|exact Hg]. apply take_sub.
Qed.

Lemma checked_issuance_mono i l l' op : l ⊆ l' → checked_issuance i l op → checked_issuance i l' op.
Proof.
  intros Hsub. destruct op as [R [] | | | | | | | | | | | | | | | | | | | | |]; try done. cbn.
  intros (req & bm & ? & ? & ? & ? & ? & ? & ? & ?). exists req, bm.
  split_and!; try done; try (by apply Hsub). by eapply saw_payment_mono.
Qed.

Lemma checked_activation_mono i l l' op : l ⊆ l' → checked_activation i l op → checked_activation i l' op.
Proof.
  intros Hsub. destruct op as [R [] | | | | | | | | | | | | | | | | | | | | |]; try done. cbn.
  intros (-> & Hclk & req & rec & E & Hau & Hn & -> & Hb & Hs). split_and!; [done|by apply Hsub|].
  exists req, rec. split_and!; try done; [by eapply authentic_mono|by apply Hsub|by eapply saw_payment_mono].
Qed.

Lemma activations_checked h p live :
  run h p live → ∀ e, e ∈ history_events h → ∃ n i op out, event_of (Acted op out) = Some e ∧ Arrive n i ∈ h ∧
    checked_activation i (log n h) op ∧ checked_registration i op.
Proof.
  intros Hr e (n & [op out] & Ha & He)%event_act.
  destruct (run_did_log _ _ _ _ _ _ checked_activation_mono serve_checked_activation Hr Ha) as (i & Hi & Hc).
  destruct (run_did_log (λ i _, checked_registration i) _ _ _ _ _ ltac:(done) serve_checked_registration Hr Ha)
    as (i' & Hi' & Hc').
  rewrite (fo_once _ _ _ _ (run_followed _ _ _ _ _ Hr) _ _ _ Hi' Hi) in Hc'. by exists n, i, op, out.
Qed.

(** A payment for the account: bound to it, claimed with its key, and confirmed. *)
Definition paid_claim (h : history) (account key : bytes) : Prop :=
  ∃ n i req, Arrive n i ∈ h ∧ in_request i = Activate req ∧
    key = (binding_key (ar_payment_reference req) account).1 ∧
    Acts n (Acted (Contains SubBindings (binding_key (ar_payment_reference req) account).2) true) ∈ h ∧
    payment_evidence cfg h (ar_payment_reference req) ∧
    ∃ pk sig, registration h account pk ∧ parse_sig (aa_signature (ar_auth req)) = Some sig ∧
      verify_auth_signature pk (aa_challenge (ar_auth req)) sig = true.

(** C28.  A subscription lasts as long as it is paid for: no account is entitled beyond the
    latest clock reading plus thirty days for each of its distinct claims, and each of these
    was made with the account's key, for a reference bound to the account, whose payment was
    confirmed.  Retries, races, failed writes and restarts add nothing. *)
Theorem subscription_is_paid_for h p live account rec u T :
  config_ok cfg → run h p live →
  accounts (store_view (p_store p)) !! account = Some rec → entitlement rec = Active u →
  (∀ n t, Acts n (Acted Clock (Some t)) ∈ h → t ≤ T) →
  ∃ claims : gset bytes, u ≤ T + THIRTY_DAYS_SECS * Z.of_nat (size claims) ∧
    ∀ k, k ∈ claims → paid_claim h account k.
Proof.
  intros Hcfg Hr Hrec Hu HT. destruct (run_trace _ _ _ _ _ Hcfg Hr) as [vs Htr].
  pose proof (activations_checked _ _ _ Hr) as Hdid.
  exists (attempted account (history_events h)). split.
  - eapply entitlement_is_paid_for; [exact Htr|by left|unfold THIRTY_DAYS_SECS; lia| |exact Hrec|exact Hu].
    apply list.Forall_forall. intros e He. destruct (Hdid e He) as (n & i & op & out & Hev & Hi & Hc & Hreg).
    destruct op as [R sop| | | | | | | | | | | | | | | | | | | | |]; try done. cbn in Hev. injection Hev as <-.
    unfold activation_ok. cbn. destruct sop; try done; [by destruct Hreg|].
    destruct Hc as (-> & Hclk%elem_of_log & _). split; [by eapply HT|done].
  - intros k Hk. unfold attempted in Hk. apply elem_of_union_list in Hk as (X & HX & Hk).
    apply list_elem_of_fmap in HX as (e & -> & He). destruct (Hdid e He) as (n & i & op & out & Hev & Hi & Hc & _).
    destruct op as [R sop| | | | | | | | | | | | | | | | | | | | |]; try done. cbn in Hev. injection Hev as <-.
    cbn in Hk. destruct sop; try (by apply elem_of_empty in Hk). case_decide; [|by apply elem_of_empty in Hk].
    apply elem_of_singleton in Hk as ->. subst account0.
    destruct Hc as (_ & _ & req & rec' & E & Hau & Hn & -> & Hb%elem_of_log & Hs).
    destruct (authentic_account _ _ _ _ _ _ Hcfg Hr Hau) as [_ Hreg]. rewrite Hn in Hreg.
    destruct Hau as (num & sig & t & _ & Hsig & _ & _ & _ & Hv).
    exists n, i, req. split_and!; try done; [by eapply saw_payment_evidence|]. by eexists _, sig.
Qed.

(** ** Minting *)

(** A mint was preceded by all of its checks, and is charged to its own account. *)
Definition checked_mint (i : Incoming) (l : list (Act answer)) (op : Op) : Prop :=
  match op with
  | Store (CommitMint _ r q now) =>
      ∃ auth rec until, auth_of (in_request i) = Some auth ∧ authentic auth rec l ∧
        active_until (entitlement rec) now = Some until ∧
        mint_quota (account_number rec) (Z.of_nat (length (mr_blind_sigs r))) (account_rate_max cfg) now = Ok q
  | _ => True
  end.

Lemma checked_mint_mono i l l' op : l ⊆ l' → checked_mint i l op → checked_mint i l' op.
Proof.
  intros Hsub. destruct op as [R [] | | | | | | | | | | | | | | | | | | | | |]; try done. cbn.
  intros (auth & rec & until & E & Hau & Ha & Hq). exists auth, rec, until. split_and!; try done.
  by eapply authentic_mono.
Qed.

Lemma rg_mint_validated i l auth rec key hash msgs now Q :
  auth_of (in_request i) = Some auth → authentic auth rec l → (∀ l' r, Q l' r) →
  rg plausible (checked_mint i) l
    (mint_validated cfg rec key hash msgs (Z.of_nat (length msgs)) now) Q.
Proof.
  intros Hreq Hau HQ. unfold mint_validated. rg_ask [[|sigs|]|e]; try apply HQ.
  destruct (active_until _ _) as [until|] eqn:Ea; [|apply HQ]. rg_ask [adm|]; [|apply HQ].
  rg_step. apply rg_sign_all; [done|constructor| |].
  - intros l' e _. unfold releasing. rg_ask u. apply HQ.
  - intros l' sigs Hsub Hlen Hsz. cbn in Hlen. rg_step; [|unfold releasing; rg_ask u; apply HQ].
    rg_ask out; [|destruct out as [[]|]; unfold releasing; try (rg_ask u); apply HQ].
    exists auth, rec, until. split_and!; try done; [|cbn; by rewrite Hlen].
    eapply authentic_mono; [|exact Hau]. set_solver.
Qed.

Lemma serve_checked_mint i : rg plausible (checked_mint i) [] (serve cfg policy i) (λ _ _, True).
Proof.
  destruct (in_request i) as [| | | | | |req|req| | | | | | | |] eqn:E;
    try (by apply by_duty; rewrite E; intros ? [? []| | | | | | | | | | | | | | | | | | | | |]);
    unfold serve; rewrite E; (rg_step; [|done]); rg_step.
  all: unfold mint, mint_v1, limited, now_for_expiry; try (rg_step; [done|]).
  all: rg_ask admitted; rg_step; (rg_step; [|done]); rg_ask t; rg_step.
  all: apply rg_authenticated; [set_solver|by intros ? ? [(? & ? & ->)|(? & ->)]|done|]; intros l1 rec _ Hauth.
  all: do 2 rg_step; (rg_step; [|done]).
  - do 2 rg_step; (rg_step; [|done]). rg_step.
    match goal with K : validate_blind_batch _ = Ok _ |- _ =>
      destruct (validate_blind_batch_len _ _ K) as [_ <-] end.
    apply (rg_mint_validated _ _ (mb_auth req)); [by rewrite E|done|by intros ? []].
  - rg_step. apply (rg_mint_validated _ _ (mq_auth req) _ _ _ [_]); [by rewrite E|done|by intros ? []].
Qed.

(** The tokens of stored batches charged to the account for the hour starting at [w]. *)
Definition tokens_minted (account : bytes) (w : Z) (h : history) : Z :=
  total_minted (mint_quota_key account) w (history_events h).

(** C29.  The hourly quota: the tokens signed and stored for an account in one hour of its clock
    never exceed the configured maximum, however the requests interleave, as long as the hour
    is not pruned away before its last batch is stored.  And every batch that is stored was
    asked for with the key of an account that was subscribed at the time, and is charged in
    full to that account. *)
Theorem mint_within_quota h p live account w :
  config_ok cfg → run h p live →
  no_late_commit (mint_quota_key account) w (w + MINT_ACCOUNT_RATE_WINDOW) (history_events h) →
  tokens_minted account w h ≤ account_rate_max cfg ∧
  ∀ n key r q now out, Acts n (Acted (Store (CommitMint key r q now)) out) ∈ h →
    ∃ i auth rec until, Arrive n i ∈ h ∧ auth_of (in_request i) = Some auth ∧ authentic auth rec (log n h) ∧
      active_until (entitlement rec) now = Some until ∧ cost q = Z.of_nat (length (mr_blind_sigs r)) ∧
      quota_key q = mint_quota_key (account_number rec).
Proof.
  intros Hcfg Hr Hlate. destruct (run_trace _ _ _ _ _ Hcfg Hr) as [vs Htr].
  assert (Hq : ∀ a c m t q, mint_quota a c m t = Ok q → cost q = c ∧ max_units q = m ∧
    quota_key q = mint_quota_key a ∧ window_end q = window_start q + MINT_ACCOUNT_RATE_WINDOW).
  { intros a c m t q. unfold mint_quota. destruct (u64_checked_add _ _) as [we|] eqn:Ew; [|done]. cbn.
    intros [= <-]. unfold u64_checked_add in Ew. case_match; [|done]. by injection Ew as <-. }
  split.
  - eapply quota_never_exceeded; [exact Htr|by destruct Hcfg| |exact Hlate].
    apply list.Forall_forall. intros e (n & [op out] & Ha & He)%event_act.
    destruct (run_did_log _ _ _ _ _ _ checked_mint_mono serve_checked_mint Hr Ha) as (i & _ & Hc).
    destruct op as [R sop| | | | | | | | | | | | | | | | | | | | |]; try done. cbn in He. injection He as <-.
    unfold quota_fixed. cbn. destruct sop; try done. destruct Hc as (auth & rec & until & _ & _ & _ & Hmq).
    destruct (Hq _ _ _ _ _ Hmq) as (Hc1 & Hc2 & _ & Hc4). intros _ <-. split_and!; [done|done|lia].
  - intros n key r q now out Ha.
    destruct (run_did_log _ _ _ _ _ _ checked_mint_mono serve_checked_mint Hr Ha) as (i & Hi & Hc).
    destruct Hc as (auth & rec & until & E & Hau & Hact & Hmq).
    destruct (Hq _ _ _ _ _ Hmq) as (Hc1 & _ & Hc3 & _). by exists i, auth, rec, until.
Qed.

(** ** Refunds *)

(** The reference a refund recorded, whether it was new or not. *)
Definition revokes (ref : bytes) (x : Happening) : Prop :=
  match x with
  | Acts _ (Acted op out) =>
      match op return answer op → Prop with
      | InsertRevoked k => λ out, k = ref ∧ is_ok out = true
      | _ => λ _, False
      end out
  | _ => False
  end.

Definition finds_unrevoked (ref : bytes) (x : Happening) : Prop :=
  match x with
  | Acts _ (Acted op out) =>
      match op return answer op → Prop with
      | Contains Revoked k => λ out, k = ref ∧ out = false
      | _ => λ _, False
      end out
  | _ => False
  end.

Context `{!WebhookJsonLaws}.

Definition utf8_revocations (op : Op) : Prop :=
  match op with InsertRevoked k => is_utf8 k = true | _ => True end.

Lemma serve_utf8_revocations i : rg plausible (λ _, utf8_revocations) [] (serve cfg policy i) (λ _ _, True).
Proof.
  destruct (in_request i) as [| | | | | | | | | | |body| | | |] eqn:E;
    try (by apply by_duty; rewrite E; intros ? []).
  unfold serve. rewrite E. rg_step. unfold webhook. rg_step; [|done]. rg_step; [done|].
  destruct (webhook_from_slice body) as [ev|] eqn:Ew; [|done]. rg_step.
  - unfold card_confirm. rg_ask revoked. rg_step; [done|]. rg_ask known. rg_step; [done|]. by rg_ask u.
  - rg_step; [|done]. unfold card_revoke. rg_ask [b'|e]; [by eapply webhook_reference_utf8| |done]. by rg_ask u.
Qed.

Lemma op_run_revoked op d (p p' : Portal S) r :
  op_run op d p = (p', r) → (∀ k, op ≠ InsertRevoked k) → p_revoked p' = p_revoked p.
Proof.
  intros E Hop. revert E. destruct op; cbn [op_run]; repeat case_match; intros; simplify_eq; try done.
  by destruct (Hop key).
Qed.

(** One action on the set of refunds. *)
Lemma revoked_step op d (p p' : Portal S) r n :
  op_run op d p = (p', r) → utf8_revocations op → path (p_revoked p) = true →
  log_inv (F := durable_format) (val_ok := λ _, True) (seen (p_revoked p)) (p_revoked p) →
  path (p_revoked p') = true ∧
  log_inv (F := durable_format) (val_ok := λ _, True) (seen (p_revoked p')) (p_revoked p') ∧
  seen (p_revoked p) ⊆ seen (p_revoked p') ∧
  (∀ ref, revokes ref (Acts n (Acted op r)) → is_Some (seen (p_revoked p') !! ref)) ∧
  (∀ ref, finds_unrevoked ref (Acts n (Acted op r)) → seen (p_revoked p) !! ref = None).
Proof.
  intros E Hu Hp Hinv.
  assert (Hsame : p_revoked p' = p_revoked p → (∀ ref, ¬ revokes ref (Acts n (Acted op r))) →
    (∀ ref, finds_unrevoked ref (Acts n (Acted op r)) → seen (p_revoked p) !! ref = None) →
    path (p_revoked p') = true ∧
    log_inv (F := durable_format) (val_ok := λ _, True) (seen (p_revoked p')) (p_revoked p') ∧
    seen (p_revoked p) ⊆ seen (p_revoked p') ∧
    (∀ ref, revokes ref (Acts n (Acted op r)) → is_Some (seen (p_revoked p') !! ref)) ∧
    (∀ ref, finds_unrevoked ref (Acts n (Acted op r)) → seen (p_revoked p) !! ref = None)).
  { intros -> Hr Hc. split_and!; try done. intros ref Hx. by destruct (Hr ref). }
  pose proof (op_run_revoked _ _ _ _ _ E) as Hother.
  destruct op; try (apply Hsame; [by apply Hother|by intros ref []|by intros ref []]); cbn [op_run] in E; clear Hother.
  - injection E as <- <-. apply Hsame; [done|by intros ref []|].
    intros ref. cbn. destruct s; try done. intros [-> Hc]. cbn in Hc. unfold contains in Hc.
    apply bool_decide_eq_false in Hc. by apply eq_None_not_Some.
  - clear Hsame. unfold durable_insert, log_insert in E.
    destruct (insert_with_capacity _ _ _ _ _) as [s1 r1] eqn:Ei. cbn in E. injection E as <- <-. cbn [p_revoked with_revoked].
    destruct (log_insert_inv _ _ _ _ _ _ _ _ Hinv Hu I Ei) as [Hinv' _].
    assert (Hseen : seen s1 = match r1 with Ok Inserted => <[key := ()]> (seen (p_revoked p)) | _ => seen (p_revoked p) end ∧
      (is_ok r1 = true → r1 ≠ Ok CapacityReached → is_Some (seen s1 !! key)) ∧
      (r1 = Ok Inserted → seen (p_revoked p) !! key = None)).
    { unfold insert_with_capacity in Ei. repeat case_match; simplify_eq; cbn; split_and!; try done.
      all: first [intros _ _; rewrite lookup_insert_eq; by eauto | intros _; by apply eq_None_not_Some]. }
    destruct Hseen as (Hs & Hk & Hnew). split_and!.
    + apply Hinv'.
    + rewrite Hs. by destruct r1 as [[]|].
    + rewrite Hs. destruct r1 as [[]|]; try done. apply insert_subseteq. by apply Hnew.
    + intros ref. cbn. intros [<- Hok]. destruct r1 as [[]|]; try done; by apply Hk.
    + by intros ref [].
Qed.

Lemma revoked_restart p p' :
  set_reopened durable_format (p_revoked p) (p_revoked p') → path (p_revoked p) = true →
  log_inv (F := durable_format) (val_ok := λ _, True) (seen (p_revoked p)) (p_revoked (S := S) p) →
  path (p_revoked p') = true ∧
  log_inv (F := durable_format) (val_ok := λ _, True) (seen (p_revoked p')) (p_revoked (S := S) p') ∧
  seen (p_revoked p) ⊆ seen (p_revoked p').
Proof.
  intros Hre Hp Hinv. unfold set_reopened in Hre. rewrite Hp in Hre. destruct Hre as [io Ho].
  destruct (open_disk_inv _ _ _ _ Hinv Ho) as [Hi Hf]. split_and!; [apply Hi| |apply Hi]. by eapply held_inv.
Qed.

(** The references refunded so far are in the set, and were never found missing since. *)
Record refunds_kept (h : history) (p : Portal S) : Prop := {
  rk_inv : log_inv (F := durable_format) (val_ok := λ _, True) (seen (p_revoked p)) (p_revoked p);
  rk_kept : ∀ ref x, x ∈ h → revokes ref x → is_Some (seen (p_revoked p) !! ref);
  rk_found : ∀ i j ref x y, (i < j)%nat → h !! i = Some x → h !! j = Some y →
    revokes ref x → ¬ finds_unrevoked ref y;
}.

Lemma refunds_kept_snoc h p p' x :
  refunds_kept h p →
  log_inv (F := durable_format) (val_ok := λ _, True) (seen (p_revoked p')) (p_revoked p') →
  seen (p_revoked p) ⊆ seen (p_revoked p') →
  (∀ ref, revokes ref x → is_Some (seen (p_revoked p') !! ref)) →
  (∀ ref, finds_unrevoked ref x → seen (p_revoked p) !! ref = None) →
  refunds_kept (h ++ [x]) p'.
Proof.
  intros [Hi Hk Hf] Hi' Hsub Hnew Hmiss. split; [done| |].
  - intros ref y [Hy| ->]%in_snoc Hr; [|by apply Hnew]. destruct (Hk ref y Hy Hr) as [v Hv].
    exists v. by eapply lookup_weaken.
  - intros i j ref y z Hij Hy [Hz|[-> ->]]%lookup_snoc_cases Hr Hfind.
    + apply lookup_lt_Some in Hz as Hlt. rewrite lookup_app_l in Hy by lia. exact (Hf i j ref y z Hij Hy Hz Hr Hfind).
    + rewrite lookup_app_l in Hy by lia. apply list_elem_of_lookup_2 in Hy.
      destruct (Hk _ _ Hy Hr) as [v Hv]. rewrite Hmiss in Hv by done. done.
Qed.

Lemma run_refunds h p live : run h p live → path (p_revoked p) = true → refunds_kept h p.
Proof.
  induction 1 as [p Hi|h p live n i _ IH _|h p live n op k d p' r Hr IH Hn _ E|h p live n r _ IH _
                 |h p live n rest _ IH _|h p live p' _ IH Hp]; intros Hpath.
  - split; [|intros ref x []%elem_of_nil|done]. destruct (pi_revoked _ _ Hi) as [E|E]; rewrite E in *; [done|].
    apply fresh_inv.
  - specialize (IH Hpath). by apply (refunds_kept_snoc h p); [|apply IH|..|intros ? []|intros ? []].
  - assert (Hpath0 : path (p_revoked p) = true).
    { destruct op; try (by rewrite (op_run_revoked _ _ _ _ _ E) in Hpath).
      cbn [op_run] in E. unfold durable_insert, log_insert, insert_with_capacity in E.
      destruct (path (p_revoked p)) eqn:Ep; [done|]. repeat case_match; simplify_eq; cbn in Hpath; congruence. }
    specialize (IH Hpath0).
    pose proof (run_guar _ _ (λ _, utf8_revocations) _ _ _ _ _ _ Hr Hn (λ i _, serve_utf8_revocations i)) as Hu.
    destruct (revoked_step _ _ _ _ _ n E Hu Hpath0 (rk_inv _ _ IH)) as (_ & H2 & H3 & H4 & H5).
    by apply (refunds_kept_snoc h p).
  - specialize (IH Hpath). by apply (refunds_kept_snoc h p); [|apply IH|..|intros ? []|intros ? []].
  - assert (Hsame : p_revoked (give_back p (log n h)) = p_revoked p) by (unfold give_back; by case_match).
    rewrite Hsame in Hpath. specialize (IH Hpath).
    apply (refunds_kept_snoc h p); rewrite ?Hsame; [done|apply IH|done|intros ? []|intros ? []].
  - assert (Hpath0 : path (p_revoked p) = true).
    { pose proof (pr_revoked _ _ _ Hp) as Hre. unfold set_reopened in Hre.
      destruct (path (p_revoked p)); [done|]. by rewrite Hre in Hpath. }
    specialize (IH Hpath0).
    destruct (revoked_restart _ _ (pr_revoked _ _ _ Hp) Hpath0 (rk_inv _ _ IH)) as (_ & H2 & H3).
    by apply (refunds_kept_snoc h p); [..|intros ? []|intros ? []].
Qed.

(** A refund is final: once a refund or chargeback of a reference has been recorded, no
    token is issued and no subscription extended on the strength of its card payment by any
    request that arrives later, across restarts: such a request saw a Monero transfer. *)
Theorem refund_is_final h1 h2 p live n ref ok m i op out :
  run (h1 ++ Acts n (Acted (InsertRevoked ref) (Ok ok)) :: h2) p live → path (p_revoked p) = true →
  Arrive m i ∈ h2 → Acts m (Acted op out) ∈ h1 ++ Acts n (Acted (InsertRevoked ref) (Ok ok)) :: h2 →
  (∃ req key r now, in_request i = Issue req ∧ iq_payment_id req = ref ∧ op = Store (CommitIssuance key r now)) ∨
  (∃ req a key now s, in_request i = Activate req ∧ ar_payment_reference req = ref ∧
     op = Store (ActivateSubscription a key now s)) →
  Acts m (Acted (MoneroContains ref) true) ∈ h1 ++ Acts n (Acted (InsertRevoked ref) (Ok ok)) :: h2.
Proof.
  set (h := h1 ++ _). intros Hr Hpath Hi Ha Hop.
  assert (Hih : Arrive m i ∈ h) by (unfold h; rewrite elem_of_app, elem_of_cons; auto).
  assert (Hsaw : saw_payment ref (log m h)).
  { pose proof (fo_once _ _ _ _ (run_followed _ _ _ _ _ Hr)) as Honce.
    destruct Hop as [(req & key & r & now & E & <- & ->)|(req & a & key & now & s & E & <- & ->)].
    - destruct (run_did_log _ _ _ _ _ _ checked_issuance_mono (serve_checked_issuance cfg policy) Hr Ha)
        as (i' & Hi' & req' & bm & E' & _ & _ & _ & _ & _ & Hs & _).
      rewrite (Honce _ _ _ Hi' Hih), E in E'. by injection E' as <-.
    - destruct (run_did_log _ _ _ _ _ _ checked_activation_mono serve_checked_activation Hr Ha)
        as (i' & Hi' & _ & _ & req' & rec & E' & _ & _ & _ & _ & Hs).
      rewrite (Honce _ _ _ Hi' Hih), E in E'. by injection E' as <-. }
  destruct Hsaw as [Hm|[Hc _]]; [by apply elem_of_log|exfalso].
  apply elem_of_log, list_elem_of_lookup in Hc as [j Hj]. apply list_elem_of_lookup in Hi as [k Hk].
  assert (Hk' : h !! (length h1 + Datatypes.S k)%nat = Some (Arrive m i))
    by (unfold h; rewrite lookup_app_r by lia; by replace (_ - length h1)%nat with (Datatypes.S k) by lia).
  pose proof (run_order _ _ _ _ _ Hr _ _ _ _ _ Hj Hk') as Hlt.
  apply (rk_found _ _ (run_refunds _ _ _ Hr Hpath) (length h1) j ref
    (Acts n (Acted (InsertRevoked ref) (Ok ok))) (Acts m (Acted (Contains Revoked ref) false))); try done; [lia|].
  unfold h. by rewrite lookup_app_r, Nat.sub_diag by lia.
Qed.

End Auth.
