(* ===== verification/PortalLive.v ===== *)
(** * Executable schedules, and a portal at work

    [execute] runs a list of commands - arrivals, actions with given devices, replies - and
    yields a run; on it a concrete portal serves a customer from registration to tokens, and
    the theorems over runs are applied to that history.  The liveness theorem says when a
    customer who has paid gets a token. *)

From S2P Require Import Prelude.
From S2P Require Import Text.
From S2P Require Import Net.
From S2P Require Import Crypto.
From S2P Require Import Durable.
From S2P Require Import Grant.
From S2P Require Import Token.
From S2P Require Import Retry.
From S2P Require Import RateLimit.
From S2P Require Import ClientIp.
From S2P Require Import PortalStore.
From S2P Require Import Prog.
From S2P Require Import Portal.
From S2P Require Import PortalRuns.
From S2P Require Import PortalSafety.
From S2P Require Import PortalAuth.
From Stdlib Require Import Strings.Byte ZArith Lia.
From stdpp Require Import functions prelude gmap strings.

Local Open Scope Z_scope.

(** ** Schedules *)

Section Schedules.
Context `{Hsha : Sha256, Hed : Ed25519, Hhook : WebhookJson, Hrpc : RpcJson}.
Context {S : Type} `{Hst : PortalStore S} (cfg : PortalConfig) (policy : ClientIpPolicy).

Inductive Command :=
  | DoArrive (n : nat) (i : Incoming)
  | DoAct (n : nat) (d : Devices S)
  | DoReply (n : nat).

Record World := {
  w_history : list Happening;
  w_portal : Portal S;
  w_live : gmap nat (action Response);
}.

Definition has_arrived (n : nat) (h : history) : bool :=
  existsb (λ x, match x with Arrive m _ => bool_decide (m = n) | _ => false end) h.

(** A command that does not apply does nothing. *)
Definition command (w : World) (c : Command) : World :=
  match c with
  | DoArrive n i =>
      if has_arrived n (w_history w) then w
      else {| w_history := w_history w ++ [Arrive n i]; w_portal := w_portal w;
              w_live := <[n := serve cfg policy i]> (w_live w) |}
  | DoAct n d =>
      match w_live w !! n with
      | Some (Do op k) =>
          let '(p, r) := op_run op d (w_portal w) in
          {| w_history := w_history w ++ [Acts n (Acted op r)]; w_portal := p;
             w_live := <[n := k r]> (w_live w) |}
      | _ => w
      end
  | DoReply n =>
      match w_live w !! n with
      | Some (Ret r) =>
          {| w_history := w_history w ++ [Reply n r]; w_portal := w_portal w; w_live := delete n (w_live w) |}
      | _ => w
      end
  end.

Definition execute (p : Portal S) (cs : list Command) : World :=
  foldl command {| w_history := []; w_portal := p; w_live := ∅ |} cs.

Definition command_ok (c : Command) : Prop :=
  match c with DoAct _ d => devices_ok d | _ => True end.

Lemma has_arrived_false n h : has_arrived n h = false → ¬ arrived n h.
Proof.
  intros Hf [i Hi]. enough (has_arrived n h = true) by congruence. apply existsb_exists.
  exists (Arrive n i). split; [by apply list_elem_of_In|by apply bool_decide_eq_true].
Qed.

(** Every schedule is a run. *)
Lemma execute_run p cs :
  portal_init cfg p → Forall command_ok cs →
  portal_run cfg policy (w_history (execute p cs)) (w_portal (execute p cs)) (w_live (execute p cs)).
Proof.
  intros Hp. unfold execute. induction cs as [|c cs IH] using rev_ind; [by constructor|].
  intros [Hcs [Hc _]%Forall_cons]%Forall_app. rewrite foldl_app. cbn [foldl]. specialize (IH Hcs).
  set (w := foldl _ _ cs) in *. destruct c as [n i|n d|n]; cbn [command].
  - destruct (has_arrived n (w_history w)) eqn:E; [done|]. cbn. constructor; [done|by apply has_arrived_false].
  - destruct (w_live w !! n) as [[r|op k]|] eqn:E; try done. destruct (op_run op d (w_portal w)) as [p' r] eqn:Eo.
    cbn. by econstructor.
  - destruct (w_live w !! n) as [[r|op k]|] eqn:E; try done. cbn. by constructor.
Qed.

(** One request from its arrival to its reply, with the same devices throughout. *)
Definition serve_now (n : nat) (i : Incoming) (d : Devices S) : list Command :=
  DoArrive n i :: replicate (MAX_ACTIONS cfg) (DoAct n d) ++ [DoReply n].

End Schedules.

Arguments Command S {Hst}.
Arguments World S : clear implicits.

(** ** A concrete portal *)

Module Demo.
Import Toy.

(** A payment event is one byte for its class and the reference; a wallet reply is one
    payment identifier. *)
#[export] Instance toy_webhook : WebhookJson := λ body,
  match body with
  | t :: ref => if is_utf8 ref then Some {| event_type := if decide (t = x01) then str "refund" else str "confirmed";
                                            transaction_id := []; payment_reference := ref |} else None
  | [] => None
  end.

#[export] Instance toy_webhook_laws : WebhookJsonLaws.
Proof.
  intros [|t ref] event; [done|]. unfold webhook_from_slice, toy_webhook.
  destruct (is_utf8 ref) eqn:E; [|done]. by intros [= <-].
Qed.

#[export] Instance toy_rpc : RpcJson := λ body,
  Some (Some [{| tr_payment_id := body; tr_confirmations := 12; tr_amount := 500; tr_subaddr := (0, 0) |}]).

Definition cfg : PortalConfig := {|
  account_rate_max := 120; checkout_rate_max := 30; pending_checkout_max := 100;
  rails := [MoneroRail; CardRail]; webhook_secret := str "secret"; min_confirmations := 10;
  min_atomic := 100; pending_ttl := 3600 |}.

Definition start : Portal MemoryState := {|
  p_store := store_empty; p_challenges := ∅; p_limiters := new_limiters cfg;
  p_bindings := Durable.fresh; p_pending := Durable.fresh; p_revoked := Durable.fresh;
  p_activated := ∅; p_issued := ∅; p_card := ∅; p_monero := ∅ |}.

Definition device (clock : Z) (fill : byte) : Devices MemoryState := {|
  d_clock := Some clock; d_instant := clock * 1000000000;
  d_entropy n := Some (replicate n fill); d_store := (tt : StoreIo (S := MemoryState)); d_append := Appended; d_compact := Compacted;
  d_sign := Some (replicate 256 x05); d_der := None |}.

Definition ip : IpAddr := V4 (Ipv4 x7f x00 x00 x01).
Definition asks (r : Request) : Incoming := {| in_peer := ip; in_headers := []; in_request := r |}.

Definition secret_key : SigningKey := sk_from_bytes (replicate 32 x02).
Definition number : bytes := replicate 32 x0b.
Definition public_key : bytes := vk_to_bytes (verifying_key secret_key).
Definition signed (m : bytes) : bytes := to_hex_fmt (sig_to_bytes (ed_sign secret_key m)).

(** What the entropy of [device _ fill] becomes. *)
Definition drawn (fill : byte) : bytes := to_hex_fmt (replicate 32 fill).

Definition proof_for (nonce : bytes) : AccountAuth :=
  {| aa_account_number := to_hex_fmt number; aa_challenge := nonce; aa_signature := signed nonce |}.

Definition blinded : bytes := replicate 256 x42.

Definition registration_request : Request :=
  CreateAccount (Anonymous (to_hex_fmt number) (to_hex_fmt public_key)
                   (signed (registration_message number public_key))).
Definition mint_request : MintBatchRequest :=
  {| mb_auth := proof_for (drawn x13); mb_request_id := drawn x20;
     mb_blind_msgs := {| batch_items := [to_hex_fmt blinded; to_hex_fmt blinded] |} |}.
Definition activate_request : ActivateRequest :=
  {| ar_auth := proof_for (drawn x12); ar_payment_reference := drawn x21 |}.
Definition issue_request : IssueRequest := {| iq_payment_id := drawn x22; iq_blind_msg := to_hex_fmt blinded |}.

Definition refund_body : bytes := x01 :: drawn x22.
Definition refund : Incoming :=
  {| in_peer := ip; in_headers := [(str "x-signature", to_hex_fmt (hmac_sha256 (str "secret") refund_body))];
     in_request := Webhook refund_body |}.

Definition day : list (Command MemoryState) :=
  let serve n r t fill := serve_now cfg n (asks r) (device t fill) in
  serve 0%nat registration_request 1000 x00 ++
  serve 1%nat AccountChallenge 1001 x11 ++
  serve 2%nat (Subscribe (proof_for (drawn x11))) 1002 x21 ++
  serve 3%nat (PollMonero (Some (drawn x21))) 1003 x00 ++
  serve 4%nat AccountChallenge 1004 x12 ++
  serve 5%nat (Activate activate_request) 1005 x00 ++
  serve 6%nat AccountChallenge 1006 x13 ++
  serve 7%nat (MintBatch mint_request) 1007 x00 ++
  serve 8%nat Checkout 1008 x22 ++
  serve 9%nat (PollMonero (Some (drawn x22))) 1009 x00 ++
  serve_now cfg 10 refund (device 1010 x00) ++
  serve 11%nat (Issue issue_request) 1011 x00 ++
  serve 12%nat (Issue issue_request) 1012 x00 ++
  serve 13%nat PruneResults 1013 x00 ++
  [DoArrive 14%nat (asks (Issue issue_request)); DoAct 14%nat (device 1014 x00)].

Definition world : World MemoryState := execute cfg None start day.

Lemma device_ok t fill : u64 t → devices_ok (device t fill).
Proof.
  intros Ht. split_and!; cbn; [by intros ? [= <-]| |done]. intros n b [= <-]. apply length_replicate.
Qed.

Lemma start_ok : portal_init cfg start.
Proof. by split; [..|right|right|right]. Qed.

Lemma serve_now_ok n i t fill : u64 t → Forall command_ok (serve_now cfg n i (device t fill)).
Proof.
  intros Ht. unfold serve_now. constructor; [done|]. apply Forall_app. split; [|by repeat constructor].
  apply Forall_replicate. by apply device_ok.
Qed.

Lemma day_ok : Forall command_ok day.
Proof.
  unfold day. repeat (apply Forall_app; split; [apply serve_now_ok; unfold_int; lia|]).
  constructor; [done|]. constructor; [|constructor]. apply device_ok. unfold_int. lia.
Qed.

Lemma world_run : portal_run cfg None (w_history world) (w_portal world) (w_live world).
Proof. unfold world. exact (execute_run cfg None start day start_ok day_ok). Qed.

(** The replies of the day. *)
Definition replies (h : history) : list (nat * Response) :=
  omap (λ x, match x with Reply n r => Some (n, r) | _ => None end) h.

Lemma elem_of_replies n r h : (n, r) ∈ replies h → Reply n r ∈ h.
Proof.
  unfold replies. intros (x & Hx & E)%list_elem_of_omap. destruct x; try done. by injection E as -> ->.
Qed.

End Demo.
(** ** The theorems over runs, on this day *)

Section Witnesses.
Import Demo Toy.

Ltac by_index k := apply (list_elem_of_lookup_2 _ k); vm_compute; reflexivity.

Lemma cfg_ok : config_ok cfg.
Proof. unfold config_ok. cbn. unfold_int. lia. Qed.

Definition token : bytes := to_hex_fmt (replicate 256 x05).

Lemma portal_state_well_typed_witness : state_wf (store_view (p_store (w_portal world))).
Proof. exact (portal_state_well_typed cfg None _ _ _ cfg_ok world_run). Defined.

Lemma requests_terminate_witness :
  (length (log 14 (w_history world)) ≤ MAX_ACTIONS cfg)%nat ∧
  ∀ q ds p', w_live world !! 14%nat = Some q →
    ∃ p'' r, finish (MAX_ACTIONS cfg - length (log 14 (w_history world))) ds p' q = Some (p'', r).
Proof. exact (requests_terminate cfg None _ _ _ 14%nat world_run). Defined.

Lemma one_payment_one_token_witness :
  token = token ∧ ∃ bm1 bm2, Text.from_hex (iq_blind_msg issue_request) = Some bm1 ∧
    Text.from_hex (iq_blind_msg issue_request) = Some bm2 ∧
    issuance_request_hash bm1 = issuance_request_hash bm2.
Proof.
  apply (one_payment_one_token cfg None (w_history world) (w_portal world) (w_live world) 11%nat 12%nat
    (asks (Issue issue_request)) (asks (Issue issue_request)) issue_request issue_request token token cfg_ok world_run);
    try reflexivity; [by_index 70%nat|by_index 80%nat|by_index 79%nat|by_index 84%nat].
Defined.

Lemma token_is_paid_for_witness :
  ∃ m j req' bm sig, Arrive m j ∈ w_history world ∧ in_request j = Issue req' ∧
    issuance_key (iq_payment_id req') = issuance_key (iq_payment_id issue_request) ∧
    Acts m (Acted (Contains Pending (iq_payment_id req')) true) ∈ w_history world ∧
    Acts m (Acted (Contains LegacyIssued (iq_payment_id req')) false) ∈ w_history world ∧
    payment_evidence cfg (w_history world) (iq_payment_id req') ∧
    Text.from_hex (iq_blind_msg req') = Some bm ∧
    Acts m (Acted (BlindSign bm) (Some sig)) ∈ w_history world ∧ token = to_hex_fmt sig.
Proof.
  apply (token_is_paid_for cfg None (w_history world) (w_portal world) (w_live world) 12%nat
    (asks (Issue issue_request)) issue_request token cfg_ok world_run);
    [by_index 80%nat|reflexivity|by_index 84%nat].
Defined.

Lemma only_the_key_holder_witness :
  (∃ number' key sig, unhex32 (aa_account_number (mb_auth mint_request)) = Some number' ∧
     registration (w_history world) number' key ∧ parse_sig (aa_signature (mb_auth mint_request)) = Some sig ∧
     verify_auth_signature key (aa_challenge (mb_auth mint_request)) sig = true) ∧
  ∃ clock h1 h2, Acts 7 (Acted Clock clock) ∈ w_history world ∧
    w_history world =
      h1 ++ Acts 7 (Acted (Consume (aa_challenge (mb_auth mint_request)) (now_unix_secs_for_expiry clock)) true) :: h2 ∧
    issued_recently h1 (aa_challenge (mb_auth mint_request)) (now_unix_secs_for_expiry clock).
Proof.
  destruct (only_the_key_holder cfg None (w_history world) (w_portal world) (w_live world) 7%nat
    (asks (MintBatch mint_request)) (mb_auth mint_request)
    (MintReply (Ok {| batch_items := [token; token] |})) cfg_ok world_run) as (H1 & H2 & _);
    [by_index 45%nat|reflexivity|by_index 55%nat|reflexivity|].
  split; [exact H1|exact H2].
Defined.

Lemma challenge_authorises_once_witness : (length [7%nat] ≤ count (records (drawn x13)) (acts (w_history world)))%nat.
Proof.
  apply (challenge_authorises_once cfg None (w_history world) (w_portal world) (w_live world) (drawn x13) [7%nat] world_run).
  - apply NoDup_singleton.
  - intros n ->%list_elem_of_singleton.
    exists (asks (MintBatch mint_request)), (mb_auth mint_request), (MintReply (Ok {| batch_items := [token; token] |})).
    split_and!; [by_index 45%nat|reflexivity|reflexivity|by_index 55%nat|reflexivity].
Defined.

Definition clock_at_most (T : Z) (x : Happening) : bool :=
  match x with
  | Acts _ (Acted op out) =>
      match op return answer op → bool with
      | Clock => λ out, match out with Some t => t <=? T | None => true end
      | _ => λ _, true
      end out
  | _ => true
  end.

Lemma clocks_bounded n t : Acts n (Acted Clock (Some t)) ∈ w_history world → t ≤ 1014.
Proof.
  assert (Hall : forallb (clock_at_most 1014) (w_history world) = true) by (vm_compute; reflexivity).
  intros Hin%list_elem_of_In. rewrite forallb_forall in Hall. specialize (Hall _ Hin). cbn in Hall.
  by apply Z.leb_le.
Qed.

Lemma subscription_is_paid_for_witness :
  ∃ claims : gset bytes, 2593005 ≤ 1014 + THIRTY_DAYS_SECS * Z.of_nat (size claims) ∧
    ∀ k, k ∈ claims → paid_claim cfg (w_history world) number k.
Proof.
  apply (subscription_is_paid_for cfg None (w_history world) (w_portal world) (w_live world) number
    {| account_number := number; entitlement := Active 2593005; auth_pubkey := public_key |} 2593005 1014
    cfg_ok world_run); [vm_compute; reflexivity|reflexivity|exact clocks_bounded].
Defined.

Lemma nothing_pruned_early : no_late_commit (mint_quota_key number) 0 (0 + MINT_ACCOUNT_RATE_WINDOW) (history_events (w_history world)).
Proof.
  assert (Hall : forallb (λ e, match prune_time e with Some t => t <? 3600 | None => true end)
    (history_events (w_history world)) = true) by (vm_compute; reflexivity).
  intros i j e1 e2 t _ H1 _ Ht _. rewrite forallb_forall in Hall.
  apply list_elem_of_lookup_2, list_elem_of_In in H1. specialize (Hall _ H1). rewrite Ht in Hall.
  by apply Z.ltb_lt.
Qed.

Lemma mint_within_quota_witness : tokens_minted number 0 (w_history world) ≤ account_rate_max cfg.
Proof.
  exact (proj1 (mint_within_quota cfg None (w_history world) (w_portal world) (w_live world) number 0
    cfg_ok world_run nothing_pruned_early)).
Defined.

(** Two tokens were indeed charged. *)
Lemma two_tokens_minted : tokens_minted number 0 (w_history world) = 2.
Proof. vm_compute. reflexivity. Qed.

(** The refund is recorded before the request arrives that pays with Monero. *)
Definition before_refund : history := take 67 (w_history world).
Definition after_refund : history := drop 68 (w_history world).
Definition refunded : Happening := Acts 10%nat (Acted (InsertRevoked (drawn x22)) (Ok true)).

Lemma refund_splits_day : before_refund ++ refunded :: after_refund = w_history world.
Proof. apply (take_drop_middle (w_history world) 67 refunded). vm_compute. reflexivity. Qed.

Definition committed : Act answer :=
  Acted (Store (CommitIssuance (issuance_key (drawn x22))
    {| ir_request_hash := issuance_request_hash blinded; ir_blind_sig := replicate 256 x05;
       ir_replay_until := 1011 + 90000 |} 1011)) (Ok IssuanceStored).

Lemma refund_is_final_witness :
  Acts 11%nat (Acted (MoneroContains (drawn x22)) true) ∈ before_refund ++ refunded :: after_refund.
Proof.
  apply (refund_is_final cfg None before_refund after_refund (w_portal world) (w_live world) 10%nat (drawn x22) true
    11%nat (asks (Issue issue_request)) (act_op committed) (act_out committed)).
  - change (portal_run cfg None (before_refund ++ refunded :: after_refund) (w_portal world) (w_live world)).
    rewrite refund_splits_day. exact world_run.
  - vm_compute. reflexivity.
  - by_index 2%nat.
  - change (Acts 11%nat committed ∈ before_refund ++ refunded :: after_refund).
    rewrite refund_splits_day. by_index 78%nat.
  - left. by eexists issue_request, _, _, _.
Defined.

End Witnesses.
