(* ===== verification/Vault.v ===== *)
(** * The client's credential vault ([client/src-tauri/src/securestore.rs], [authstore.rs],
    [tokenstore.rs])

    One sealed file holds the account, the unspent passes, and every credential operation that
    is still in flight.  Each operation of the two facades is one transaction: read, decrypt,
    change, validate, encrypt, write beside and rename, sync the directory.  The mutex around it
    is not modelled: it is held for the whole transaction and no code under it panics. *)

From S2P Require Import Prelude.
From S2P Require Import Text.
From S2P Require Import Crypto.
From S2P Require Import Env.
From S2P Require Import Token.
From Stdlib Require Import Strings.Byte ZArith Lia.
From stdpp Require Import prelude gmap strings.

Local Open Scope Z_scope.

Definition VAULT_SCHEMA_V1 : Z := 1.
Definition VAULT_AAD : bytes := str "com.nilvpn.client/secure-vault/v1".
Definition FILE_MAGIC : bytes := str "NILVLT01".
Definition FILE_VERSION : byte := x01.
Definition FILE_HEADER_LEN : nat := 13.
Definition MAX_VAULT_FILE_BYTES : Z := 16 * 1024 * 1024.
Definition MAX_VAULT_PLAINTEXT_BYTES : Z := 8 * 1024 * 1024.
Definition MAX_STORED_TOKENS : Z := 16384.
Definition AUTH_HEX_LEN : nat := 64.
Definition TOKEN_MESSAGE_HEX_LEN : nat := 64.
Definition TOKEN_SIGNATURE_HEX_LEN : nat := 512.
Definition RESERVATION_ID_HEX_LEN : nat := 64.
Definition MAX_LEGACY_AUTH_BYTES : Z := 16 * 1024.

Inductive VaultError :=
  | Sealer | Authentication | VaultIoError | UnsafeFile | TooLarge | Envelope | EnvelopeVersion (v : byte)
  | SchemaVersion (v : Z) | VaultParse | Validation (field : bytes) | MigrationVerification
  | NoPendingReservation | ReservationMismatch | NoPendingMint | MintRequestMismatch
  | NoPendingPaidIssue | PaidIssueMismatch.

(** ** What the vault holds *)

Record AccountAuthMaterial := { am_account_number : bytes; am_auth_seed : bytes }.

Record StoredToken := { st_msg : bytes; st_token : bytes }.

(** [tokens.rs]: the client's half of an issuance that has not been answered. *)
Record PendingBlindRequest := {
  pb_blind_msg : bytes; pb_msg : bytes; pb_secret : bytes; pb_msg_randomizer : option bytes }.

Record PendingMintBatch := {
  pm_request_id : bytes; pm_account_number : bytes; pm_issuer_public_der : bytes;
  pm_requests : list PendingBlindRequest }.

Record PendingPaidIssue := {
  pp_payment_id : bytes; pp_issuer_public_der : bytes; pp_request : PendingBlindRequest }.

Record PendingRedemption := { pr_reservation_id : bytes; pr_token : StoredToken }.

Record VaultV1 := {
  v_schema : Z;
  v_auth : option AccountAuthMaterial;
  v_tokens : list StoredToken;
  v_pending_mint : option PendingMintBatch;
  v_pending_paid_issue : option PendingPaidIssue;
  v_last_paid_issue_hash : option bytes;
  v_pending_redemption : option PendingRedemption;
  v_last_redemption_id : option bytes;
}.

#[export] Instance auth_material_eq_dec : EqDecision AccountAuthMaterial.
Proof. solve_decision. Defined.
#[export] Instance stored_token_eq_dec : EqDecision StoredToken.
Proof. solve_decision. Defined.
#[export] Instance pending_blind_eq_dec : EqDecision PendingBlindRequest.
Proof. solve_decision. Defined.
#[export] Instance pending_mint_eq_dec : EqDecision PendingMintBatch.
Proof. solve_decision. Defined.
#[export] Instance pending_paid_eq_dec : EqDecision PendingPaidIssue.
Proof. solve_decision. Defined.
#[export] Instance pending_redemption_eq_dec : EqDecision PendingRedemption.
Proof. solve_decision. Defined.
#[export] Instance vault_eq_dec : EqDecision VaultV1.
Proof. solve_decision. Defined.

Definition vault_empty : VaultV1 := {|
  v_schema := VAULT_SCHEMA_V1; v_auth := None; v_tokens := []; v_pending_mint := None;
  v_pending_paid_issue := None; v_last_paid_issue_hash := None; v_pending_redemption := None;
  v_last_redemption_id := None |}.

Definition set_auth (v : VaultV1) (x : option AccountAuthMaterial) : VaultV1 := {|
  v_schema := v_schema v; v_auth := x; v_tokens := v_tokens v; v_pending_mint := v_pending_mint v;
  v_pending_paid_issue := v_pending_paid_issue v; v_last_paid_issue_hash := v_last_paid_issue_hash v;
  v_pending_redemption := v_pending_redemption v; v_last_redemption_id := v_last_redemption_id v |}.
Definition set_tokens (v : VaultV1) (x : list StoredToken) : VaultV1 := {|
  v_schema := v_schema v; v_auth := v_auth v; v_tokens := x; v_pending_mint := v_pending_mint v;
  v_pending_paid_issue := v_pending_paid_issue v; v_last_paid_issue_hash := v_last_paid_issue_hash v;
  v_pending_redemption := v_pending_redemption v; v_last_redemption_id := v_last_redemption_id v |}.
Definition set_mint (v : VaultV1) (x : option PendingMintBatch) : VaultV1 := {|
  v_schema := v_schema v; v_auth := v_auth v; v_tokens := v_tokens v; v_pending_mint := x;
  v_pending_paid_issue := v_pending_paid_issue v; v_last_paid_issue_hash := v_last_paid_issue_hash v;
  v_pending_redemption := v_pending_redemption v; v_last_redemption_id := v_last_redemption_id v |}.
Definition set_paid (v : VaultV1) (x : option PendingPaidIssue) (receipt : option bytes) : VaultV1 := {|
  v_schema := v_schema v; v_auth := v_auth v; v_tokens := v_tokens v; v_pending_mint := v_pending_mint v;
  v_pending_paid_issue := x; v_last_paid_issue_hash := receipt;
  v_pending_redemption := v_pending_redemption v; v_last_redemption_id := v_last_redemption_id v |}.
Definition set_redemption (v : VaultV1) (x : option PendingRedemption) (last : option bytes) : VaultV1 := {|
  v_schema := v_schema v; v_auth := v_auth v; v_tokens := v_tokens v; v_pending_mint := v_pending_mint v;
  v_pending_paid_issue := v_pending_paid_issue v; v_last_paid_issue_hash := v_last_paid_issue_hash v;
  v_pending_redemption := x; v_last_redemption_id := last |}.

(** [VaultV1::clear_sensitive]. *)
Definition clear_sensitive (v : VaultV1) : VaultV1 := {|
  v_schema := v_schema v; v_auth := None; v_tokens := []; v_pending_mint := None;
  v_pending_paid_issue := None; v_last_paid_issue_hash := None; v_pending_redemption := None;
  v_last_redemption_id := None |}.

(** ** Validation *)

Definition is_lower_hex_text (value : bytes) : bool := forallb is_lower_hex value.
Definition is_exact_lower_hex (value : bytes) (n : nat) : bool :=
  (length value =? n)%nat && is_lower_hex_text value.

Definition validate_lower_hex (value : bytes) (n : nat) (field : bytes) : result VaultError unit :=
  _ ← ensure (length value =? n)%nat (Validation field);
  ensure (is_lower_hex_text value) (Validation field).

Definition MAX_ISSUER_DER_HEX_LEN : nat := 8192.
Definition MAX_PAYMENT_REFERENCE_LEN : nat := 256.
Definition BLINDING_FACTOR_HEX_LEN : nat := 512.
Definition REQUEST_ID_HEX_LEN : nat := 64.
Definition ACCOUNT_NUMBER_HEX_LEN : nat := 64.

Definition is_ascii_control (b : byte) : bool := in_range 0 31 b || in_range 127 127 b.

Definition issuer_hex_ok (der : bytes) : bool :=
  negb (bool_decide (der = [])) && (length der <=? MAX_ISSUER_DER_HEX_LEN)%nat && Nat.even (length der)
  && is_lower_hex_text der.

Definition blind_request_ok (r : PendingBlindRequest) : bool :=
  is_exact_lower_hex (pb_blind_msg r) BLIND_TOKEN_HEX_LEN &&
  is_exact_lower_hex (pb_msg r) TOKEN_MESSAGE_HEX_LEN &&
  is_exact_lower_hex (pb_secret r) BLINDING_FACTOR_HEX_LEN &&
  match pb_msg_randomizer r with Some x => is_exact_lower_hex x TOKEN_MESSAGE_HEX_LEN | None => true end.

(** [PendingMintBatch::validate]: which of its complaints, or none. *)
Definition mint_batch_validate (p : PendingMintBatch) : result bytes unit :=
  _ ← ensure (is_exact_lower_hex (pm_request_id p) REQUEST_ID_HEX_LEN) (str "request_id");
  _ ← ensure (is_exact_lower_hex (pm_account_number p) ACCOUNT_NUMBER_HEX_LEN) (str "account_number");
  _ ← ensure (issuer_hex_ok (pm_issuer_public_der p)) (str "issuer key");
  _ ← ensure ((1 <=? length (pm_requests p))%nat && (length (pm_requests p) <=? MAX_MINT_BATCH_SIZE)%nat)
        (str "batch size");
  ensure (forallb blind_request_ok (pm_requests p)) (str "blinding state").

Definition payment_reference_ok (payment_id : bytes) : bool :=
  negb (bool_decide (payment_id = [])) && (length payment_id <=? MAX_PAYMENT_REFERENCE_LEN)%nat
  && negb (existsb is_ascii_control payment_id).

(** [PendingPaidIssue::validate]. *)
Definition paid_issue_validate (p : PendingPaidIssue) : result bytes unit :=
  _ ← ensure (payment_reference_ok (pp_payment_id p)) (str "reference");
  _ ← ensure (issuer_hex_ok (pp_issuer_public_der p)) (str "issuer key");
  ensure (blind_request_ok (pp_request p)) (str "blinding state").

(** The loop over the passes, with the set of messages met so far. *)
Fixpoint validate_tokens (seen : gset bytes) (tokens : list StoredToken) : result VaultError (gset bytes) :=
  match tokens with
  | [] => Ok seen
  | t :: tokens =>
      _ ← validate_lower_hex (st_msg t) TOKEN_MESSAGE_HEX_LEN (str "tokens.msg");
      _ ← validate_lower_hex (st_token t) TOKEN_SIGNATURE_HEX_LEN (str "tokens.token");
      _ ← ensure (negb (bool_decide (st_msg t ∈ seen))) (Validation (str "tokens.msg duplicates"));
      validate_tokens ({[st_msg t]} ∪ seen) tokens
  end.

Definition validate_opt {A} (x : option A) (f : A → result VaultError unit) : result VaultError unit :=
  match x with Some a => f a | None => Ok tt end.

(** [VaultV1::validate]. *)
Definition validate (v : VaultV1) : result VaultError unit :=
  _ ← ensure (v_schema v =? VAULT_SCHEMA_V1) (SchemaVersion (v_schema v));
  let credential_count :=
    Z.of_nat (length (v_tokens v)) + (if v_pending_redemption v then 1 else 0) in
  _ ← ensure (credential_count <=? MAX_STORED_TOKENS) (Validation (str "token count"));
  _ ← validate_opt (v_auth v) (λ a,
        _ ← validate_lower_hex (am_account_number a) AUTH_HEX_LEN (str "auth.account_number");
        validate_lower_hex (am_auth_seed a) AUTH_HEX_LEN (str "auth.auth_seed"));
  _ ← validate_opt (v_pending_mint v) (λ p, map_err Validation (mint_batch_validate p));
  _ ← validate_opt (v_pending_paid_issue v) (λ p, map_err Validation (paid_issue_validate p));
  _ ← validate_opt (v_last_paid_issue_hash v) (λ r, validate_lower_hex r 64 (str "last_paid_issue_hash"));
  messages ← validate_tokens ∅ (v_tokens v);
  _ ← validate_opt (v_pending_redemption v) (λ p,
        _ ← validate_lower_hex (pr_reservation_id p) RESERVATION_ID_HEX_LEN (str "reservation_id");
        _ ← validate_lower_hex (st_msg (pr_token p)) TOKEN_MESSAGE_HEX_LEN (str "pending.msg");
        _ ← validate_lower_hex (st_token (pr_token p)) TOKEN_SIGNATURE_HEX_LEN (str "pending.token");
        _ ← ensure (negb (bool_decide (st_msg (pr_token p) ∈ messages))) (Validation (str "pending.msg duplicates"));
        ensure (negb (bool_decide (v_last_redemption_id v = Some (pr_reservation_id p))))
          (Validation (str "pending and completed ids")));
  validate_opt (v_last_redemption_id v) (λ r, validate_lower_hex r RESERVATION_ID_HEX_LEN (str "last_redemption_id")).

(** ** The file *)

Definition encode_envelope (ciphertext : bytes) : result VaultError bytes :=
  _ ← ensure (negb (bool_decide (ciphertext = []))) Envelope;
  let n := Z.of_nat (length ciphertext) in
  _ ← ensure (negb ((MAX_VAULT_FILE_BYTES <? Z.of_nat FILE_HEADER_LEN + n) || (U32_MAX <? n))) TooLarge;
  Ok (FILE_MAGIC ++ [FILE_VERSION] ++ be_bytes 4 n ++ ciphertext).

Definition decode_envelope (file : bytes) : result VaultError bytes :=
  _ ← ensure (Z.of_nat (length file) <=? MAX_VAULT_FILE_BYTES) TooLarge;
  _ ← ensure (negb (length file <? FILE_HEADER_LEN)%nat) Envelope;
  _ ← ensure (bool_decide (take 8 file = FILE_MAGIC)) Envelope;
  let version := at_ file 8 in
  _ ← ensure (bool_decide (version = FILE_VERSION)) (EnvelopeVersion version);
  let declared := be_value (take 4 (drop 9 file)) in
  _ ← ensure (negb (declared =? 0)) Envelope;
  _ ← ensure (Z.of_nat FILE_HEADER_LEN + declared =? Z.of_nat (length file)) Envelope;
  Ok (drop FILE_HEADER_LEN file).

(** *** The plaintext *)

(** [StrictPendingWire]: the first vaults held the reserved pass without an identifier. *)
Inductive StrictPendingWire := Bound (p : PendingRedemption) | Legacy (t : StoredToken).

(** [StrictVaultWire], after the JSON reader. *)
Record StrictVaultWire := {
  w_schema : Z;
  w_auth : option AccountAuthMaterial;
  w_tokens : list StoredToken;
  w_pending_mint : option PendingMintBatch;
  w_pending_paid_issue : option PendingPaidIssue;
  w_last_paid_issue_hash : option bytes;
  w_pending_redemption : option StrictPendingWire;
  w_last_redemption_id : option bytes;
}.

Definition wire_of (v : VaultV1) : StrictVaultWire := {|
  w_schema := v_schema v; w_auth := v_auth v; w_tokens := v_tokens v; w_pending_mint := v_pending_mint v;
  w_pending_paid_issue := v_pending_paid_issue v; w_last_paid_issue_hash := v_last_paid_issue_hash v;
  w_pending_redemption := Bound <$> v_pending_redemption v; w_last_redemption_id := v_last_redemption_id v |}.

(** [serde_json] on the vault and on the two historical files. *)
Class VaultJson := {
  vault_to_vec : VaultV1 → option bytes;
  wire_from_slice : bytes → option StrictVaultWire;
  legacy_auth_from_slice : bytes → option AccountAuthMaterial;
  legacy_tokens_from_slice : bytes → option (list StoredToken);
}.

Class VaultJsonLaws `{VaultJson} : Prop :=
  vault_json_roundtrip : ∀ v j, vault_to_vec v = Some j → j ≠ [] ∧ wire_from_slice j = Some (wire_of v).

(** The trait [Sealer]: authenticated encryption under a key the platform keeps.  [nonce] is the
    fresh nonce of one call; each call may also fail. *)
Class PlatformSealer := {
  sealer_seal : bytes → bytes → bytes → bytes;              (* nonce, plaintext, aad *)
  sealer_open : bytes → bytes → option bytes;          (* ciphertext, aad *)
}.

Class PlatformSealerLaws `{PlatformSealer} : Prop :=
  open_seal : ∀ n p aad, sealer_open (sealer_seal n p aad) aad = Some p.

(** ** The disk *)

(** A directory entry: what it names, its permissions and its bytes. *)
Inductive EntryKind := RegularFile | SymbolicLink | OtherEntry.
Record PrivateFile := { e_kind : EntryKind; e_mode : Z; e_bytes : bytes }.

#[export] Instance entry_kind_eq_dec : EqDecision EntryKind.
Proof. solve_decision. Defined.

(** The entry of the vault's path, and those it may have again after a power loss: the ones
    replaced since the directory was last synced. *)
Record VaultDisk := { d_entry : option PrivateFile; d_prior : list (option PrivateFile) }.

(** What the outside does during one operation: whether each system call it makes succeeds, the
    nonce of the seal ([None]: it fails) and the draws of the entropy source until it fails. *)
Record VaultIo := {
  io_inspect : bool;                   (* open, metadata and read of the vault *)
  io_open : bool;                      (* the platform opens the ciphertext *)
  io_draws : list bytes;
  io_seal : option bytes;
  io_parent : bool;                    (* create and inspect the directory *)
  io_temp : bool;                      (* create, write, flush and sync the temporary file *)
  io_rename : bool;
  io_sync_parent : bool;
}.

Definition validate_private_regular_file (f : PrivateFile) : result VaultError unit :=
  _ ← ensure (negb (bool_decide (e_kind f = SymbolicLink))) UnsafeFile;
  _ ← ensure (bool_decide (e_kind f = RegularFile)) UnsafeFile;
  let mode := Z.land (e_mode f) 511 in
  ensure (negb (negb (Z.land mode 63 =? 0) || (Z.land mode 256 =? 0))) UnsafeFile.

Definition read_optional_private_file (entry : option PrivateFile) (max : Z) (io : VaultIo) :
    result VaultError (option bytes) :=
  match entry with
  | None => Ok None
  | Some f =>
      _ ← ensure (negb (bool_decide (e_kind f = SymbolicLink))) UnsafeFile;   (* O_NOFOLLOW *)
      _ ← ensure (io_inspect io) VaultIoError;
      _ ← validate_private_regular_file f;
      _ ← ensure (Z.of_nat (length (e_bytes f)) <=? max) TooLarge;
      Ok (Some (e_bytes f))
  end.

(** [inspected]: the metadata call gives an answer. *)
Definition regular_file_exists (entry : option PrivateFile) (inspected : bool) : result VaultError bool :=
  _ ← ensure inspected VaultIoError;
  match entry with
  | None => Ok false
  | Some f => _ ← validate_private_regular_file f; Ok true
  end.

(** [new_reservation_id]: one draw of 32 bytes. *)
Definition new_reservation_id (draws : list bytes) : result VaultError (bytes * list bytes) :=
  match draws with b :: draws => Ok (to_hex_fmt b, draws) | [] => Err Sealer end.

Definition into_pending (w : StrictPendingWire) (draws : list bytes) :
    result VaultError (PendingRedemption * list bytes) :=
  match w with
  | Bound p => Ok (p, draws)
  | Legacy t => '(id, draws) ← new_reservation_id draws; Ok ({| pr_reservation_id := id; pr_token := t |}, draws)
  end.

(** [StrictVaultWire::into_vault], with the draws that are left. *)
Definition into_vault (w : StrictVaultWire) (draws : list bytes) : result VaultError (VaultV1 * list bytes) :=
  '(pending, draws) ← match w_pending_redemption w with
                      | Some p => '(p, draws) ← into_pending p draws; Ok (Some p, draws)
                      | None => Ok (None, draws)
                      end;
  Ok ({| v_schema := w_schema w; v_auth := w_auth w; v_tokens := w_tokens w; v_pending_mint := w_pending_mint w;
         v_pending_paid_issue := w_pending_paid_issue w; v_last_paid_issue_hash := w_last_paid_issue_hash w;
         v_pending_redemption := pending; v_last_redemption_id := w_last_redemption_id w |}, draws).

Section File.
Context `{VaultJson, PlatformSealer}.

Definition load_locked (d : VaultDisk) (io : VaultIo) : result VaultError (VaultV1 * list bytes) :=
  file ← read_optional_private_file (d_entry d) MAX_VAULT_FILE_BYTES io;
  match file with
  | None => Ok (vault_empty, io_draws io)
  | Some file =>
      ciphertext ← decode_envelope file;
      _ ← ensure (io_open io) Sealer;
      plaintext ← ok_or (sealer_open ciphertext VAULT_AAD) Authentication;
      _ ← ensure (Z.of_nat (length plaintext) <=? MAX_VAULT_PLAINTEXT_BYTES) TooLarge;
      _ ← ensure (negb (bool_decide (plaintext = []))) Envelope;
      wire ← ok_or (wire_from_slice plaintext) VaultParse;
      '(v, draws) ← map_err (λ _, VaultParse) (into_vault wire (io_draws io));
      _ ← validate v;
      Ok (v, draws)
  end.

(** [atomic_write_private]: the entry changes at the rename; the last step makes it stay. *)
Definition atomic_write_private (d : VaultDisk) (body : bytes) (io : VaultIo) :
    VaultDisk * result VaultError unit :=
  match
    (_ ← ensure (Z.of_nat (length body) <=? MAX_VAULT_FILE_BYTES) TooLarge;
     _ ← ensure (io_parent io) VaultIoError;
     _ ← regular_file_exists (d_entry d) true;          (* [io_parent] covers its call *)
     _ ← ensure (io_temp io) VaultIoError;
     ensure (io_rename io) VaultIoError)
  with
  | Err e => (d, Err e)
  | Ok _ =>
      let entry := Some {| e_kind := RegularFile; e_mode := 384; e_bytes := body |} in
      if io_sync_parent io then ({| d_entry := entry; d_prior := [] |}, Ok tt)
      else ({| d_entry := entry; d_prior := d_entry d :: d_prior d |}, Err VaultIoError)
  end.

Definition persist_locked (d : VaultDisk) (v : VaultV1) (io : VaultIo) : VaultDisk * result VaultError unit :=
  match
    (_ ← validate v;
     plaintext ← ok_or (vault_to_vec v) VaultParse;
     _ ← ensure (Z.of_nat (length plaintext) <=? MAX_VAULT_PLAINTEXT_BYTES) TooLarge;
     nonce ← ok_or (io_seal io) Sealer;
     encode_envelope (sealer_seal nonce plaintext VAULT_AAD))
  with
  | Err e => (d, Err e)
  | Ok envelope => atomic_write_private d envelope io
  end.

(** [SecureVault::load]. *)
Definition vault_load (d : VaultDisk) (io : VaultIo) : result VaultError VaultV1 :=
  '(v, _) ← load_locked d io; Ok v.

(** [SecureVault::mutate]; the callback sees the entropy source. *)
Definition mutate {R} (mutation : list bytes → VaultV1 → result VaultError (VaultV1 * R)) (d : VaultDisk)
    (io : VaultIo) : VaultDisk * result VaultError R :=
  match ('(v, draws) ← load_locked d io; '(v', r) ← mutation draws v; _ ← validate v'; Ok (v', r)) with
  | Err e => (d, Err e)
  | Ok (v', r) => let '(d', w) := persist_locked d v' io in (d', _ ← w; Ok r)
  end.

(** [SecureVault::replace]. *)
Definition vault_replace (d : VaultDisk) (v : VaultV1) (io : VaultIo) : VaultDisk * result VaultError unit :=
  match validate v with Err e => (d, Err e) | Ok _ => persist_locked d v io end.

(** [SecureVault::destroy], past the destruction of the key. *)
Definition vault_destroy (d : VaultDisk) (key_destroyed removed : bool) (io : VaultIo) :
    VaultDisk * result VaultError unit :=
  match regular_file_exists (d_entry d) (io_inspect io) with
  | Err e => (d, Err e)
  | Ok exists_ =>
      if negb key_destroyed then (d, Err Sealer)
      else if negb exists_ then (d, Ok tt)
      else if negb removed then (d, Err VaultIoError)
      else if io_sync_parent io then ({| d_entry := None; d_prior := [] |}, Ok tt)
      else ({| d_entry := None; d_prior := d_entry d :: d_prior d |}, Err VaultIoError)
  end.

(** *** Migration of the plaintext stores *)

Inductive MigrationOutcome := NoLegacyData | VaultAlreadyPresent | Migrated (had_auth : bool) (token_count : nat).

Record LegacyDisk := { ld_vault : VaultDisk; ld_auth : option PrivateFile; ld_tokens : option PrivateFile }.

(** The calls of one removal. *)
Record RemoveIo := { rm_inspect : bool; rm_unlink : bool; rm_sync : bool }.

(** The calls of one migration: the vault's, the re-read that verifies it, and the removals. *)
Record MigrateIo := {
  mg_io : VaultIo;
  mg_verify : VaultIo;
  mg_unlink : bool;                                       (* the best-effort removal of a bad vault *)
  mg_remove_auth : RemoveIo;
  mg_remove_tokens : RemoveIo;
}.

Definition remove_legacy_if_present (entry : option PrivateFile) (io : RemoveIo) :
    option PrivateFile * result VaultError unit :=
  match regular_file_exists entry (rm_inspect io) with
  | Err e => (entry, Err e)
  | Ok false => (entry, Ok tt)
  | Ok true =>
      if rm_unlink io then (None, if rm_sync io then Ok tt else Err VaultIoError) else (entry, Err VaultIoError)
  end.

Definition remove_legacy (ld : LegacyDisk) (m : MigrateIo) (outcome : MigrationOutcome) :
    LegacyDisk * result VaultError MigrationOutcome :=
  let '(a, r) := remove_legacy_if_present (ld_auth ld) (mg_remove_auth m) in
  let ld := {| ld_vault := ld_vault ld; ld_auth := a; ld_tokens := ld_tokens ld |} in
  match r with
  | Err e => (ld, Err e)
  | Ok _ =>
      let '(t, r) := remove_legacy_if_present (ld_tokens ld) (mg_remove_tokens m) in
      ({| ld_vault := ld_vault ld; ld_auth := ld_auth ld; ld_tokens := t |}, _ ← r; Ok outcome)
  end.

Definition read_legacy_auth (entry : option PrivateFile) (io : VaultIo) :
    result VaultError (option AccountAuthMaterial) :=
  file ← read_optional_private_file entry MAX_LEGACY_AUTH_BYTES io;
  match file with
  | None => Ok None
  | Some b => a ← ok_or (legacy_auth_from_slice b) VaultParse; Ok (Some a)
  end.

Definition read_legacy_tokens (entry : option PrivateFile) (io : VaultIo) :
    result VaultError (option (list StoredToken)) :=
  file ← read_optional_private_file entry MAX_VAULT_PLAINTEXT_BYTES io;
  match file with
  | None => Ok None
  | Some b => t ← ok_or (legacy_tokens_from_slice b) VaultParse; Ok (Some t)
  end.

Definition unlink_vault (d : VaultDisk) (ok : bool) : VaultDisk :=
  if ok then {| d_entry := None; d_prior := d_entry d :: d_prior d |} else d.

Definition legacy_vault (auth : option AccountAuthMaterial) (tokens : list StoredToken) : VaultV1 := {|
  v_schema := VAULT_SCHEMA_V1; v_auth := auth; v_tokens := tokens; v_pending_mint := None;
  v_pending_paid_issue := None; v_last_paid_issue_hash := None; v_pending_redemption := None;
  v_last_redemption_id := None |}.

(** Write the vault, read it back, and only then remove the files. *)
Definition migrate_files (ld : LegacyDisk) (m : MigrateIo) (vault : VaultV1) (outcome : MigrationOutcome) :
    LegacyDisk * result VaultError MigrationOutcome :=
  let with_vault d' := {| ld_vault := d'; ld_auth := ld_auth ld; ld_tokens := ld_tokens ld |} in
  match validate vault with
  | Err e => (ld, Err e)
  | Ok _ =>
      match persist_locked (ld_vault ld) vault (mg_io m) with
      | (d', Err e) => (with_vault d', Err e)
      | (d', Ok _) =>
          match load_locked d' (mg_verify m) with
          | Err e => (with_vault (unlink_vault d' (mg_unlink m)), Err e)
          | Ok (verified, _) =>
              if bool_decide (verified = vault) then remove_legacy (with_vault d') m outcome
              else (with_vault (unlink_vault d' (mg_unlink m)), Err MigrationVerification)
          end
      end
  end.

Definition migrate_legacy (ld : LegacyDisk) (paths_distinct : bool) (m : MigrateIo) :
    LegacyDisk * result VaultError MigrationOutcome :=
  if negb paths_distinct then (ld, Err UnsafeFile)
  else
    match regular_file_exists (d_entry (ld_vault ld)) (io_inspect (mg_io m)) with
    | Err e => (ld, Err e)
    | Ok true =>
        match load_locked (ld_vault ld) (mg_io m) with
        | Err e => (ld, Err e)
        | Ok _ => remove_legacy ld m VaultAlreadyPresent
        end
    | Ok false =>
        match (a ← read_legacy_auth (ld_auth ld) (mg_io m); t ← read_legacy_tokens (ld_tokens ld) (mg_io m); Ok (a, t)) with
        | Err e => (ld, Err e)
        | Ok (None, None) => (ld, Ok NoLegacyData)
        | Ok (auth, tokens) =>
            let tokens := default [] tokens in
            migrate_files ld m (legacy_vault auth tokens) (Migrated (if auth then true else false) (length tokens))
        end
    end.

End File.

(** ** The facades *)

(** [constant_time_id_eq]: the differences of all bytes, or-ed together. *)
Definition constant_time_id_eq (left right : bytes) : bool :=
  (length left =? length right)%nat &&
  (foldl (λ difference lr, Z.lor difference (Z.lxor (b2z lr.1) (b2z lr.2))) 0 (zip left right) =? 0).

Definition some_id_eq (stored : option bytes) (id : bytes) : bool :=
  match stored with Some s => constant_time_id_eq s id | None => false end.

Definition valid_reservation_id (value : bytes) : bool := is_exact_lower_hex value RESERVATION_ID_HEX_LEN.

(** [tokens.rs]: [from_hex] slices the text in steps of two bytes.  A pair goes through
    [u8::from_str_radix], which takes a leading plus; a slice that ends inside a character
    panics. *)
Inductive HexText := Decoded (b : bytes) | NotHex | Panics.

Definition radix16_pair (a b : byte) : option byte :=
  if bool_decide (a = x2b) then z2b <$> nib b
  else hi ← nib a; lo ← nib b; Some (z2b (hi * 16 + lo)).

Definition inside_char (rest : bytes) : bool :=
  match rest with c :: _ => in_range 128 191 c | [] => false end.

Fixpoint decode_text (s : bytes) : HexText :=
  match s with
  | [] => Decoded []
  | [_] => NotHex
  | a :: b :: s =>
      if inside_char s then Panics
      else match radix16_pair a b with
           | None => NotHex
           | Some x => match decode_text s with Decoded l => Decoded (x :: l) | r => r end
           end
  end.

Definition text_from_hex (s : bytes) : HexText :=
  let s := trim s in if negb (Nat.even (length s)) then NotHex else decode_text s.

(** The decoded bytes, where the text is known to be ASCII. *)
Definition decoded (r : HexText) : option bytes := match r with Decoded b => Some b | _ => None end.

Section Facades.
Context `{Hsha : Sha256}.

Definition paid_issue_receipt (payment_id : bytes) : bytes :=
  to_hex_fmt (sha256 (str "nil/client/paid-issue-receipt/v1" ++ [x00] ++ payment_id)).

(** [StoredToken::is_redeemable_at]; the text in a vault is lowercase hex. *)
Definition is_redeemable_at (t : StoredToken) (now : Z) : bool :=
  match decoded (text_from_hex (st_msg t)) with
  | None => false
  | Some msg => if is_v2_message msg then v2_message_is_current msg now else (length msg =? 32)%nat
  end.

Definition request_recoverable_at (now : Z) (r : PendingBlindRequest) : bool :=
  match decoded (text_from_hex (pb_msg r)) with
  | Some msg => is_v2_message msg && v2_message_is_current msg now
  | None => false
  end.

Definition mint_recoverable_at (p : PendingMintBatch) (now : Z) : bool :=
  negb (bool_decide (pm_requests p = [])) && forallb (request_recoverable_at now) (pm_requests p).

Definition paid_recoverable_at (p : PendingPaidIssue) (now : Z) : bool := request_recoverable_at now (pp_request p).

Inductive PaidIssueBegin := PaidPending (p : PendingPaidIssue) | PaidCompleted (token_count : nat).

Record TokenReservation := { tr_reservation_id : bytes; tr_token : StoredToken }.

(** *** Transactions *)

Definition replace_account (m : AccountAuthMaterial) (v : VaultV1) : result VaultError (VaultV1 * unit) :=
  Ok (set_auth (clear_sensitive v) (Some m), tt).

Definition clear_all_credentials (v : VaultV1) : result VaultError (VaultV1 * unit) := Ok (clear_sensitive v, tt).

Definition keep_if {A} (p : A → bool) (x : option A) : option A * nat :=
  match x with Some a => if p a then (Some a, 0%nat) else (None, 1%nat) | None => (None, 0%nat) end.

(** [prune_expired]; the count is what the four parts drop. *)
Definition prune_expired (now : Z) (v : VaultV1) : result VaultError (VaultV1 * nat) :=
  let '(mint, _) := keep_if (λ p, mint_recoverable_at p now) (v_pending_mint v) in
  let removed_mint := match v_pending_mint v, mint with Some p, None => length (pm_requests p) | _, _ => 0%nat end in
  let '(paid, removed_paid) := keep_if (λ p, paid_recoverable_at p now) (v_pending_paid_issue v) in
  let tokens := filter (λ t, is_redeemable_at t now = true) (v_tokens v) in
  let '(redemption, removed_redemption) :=
    keep_if (λ p, is_redeemable_at (pr_token p) now) (v_pending_redemption v) in
  Ok ({| v_schema := v_schema v; v_auth := v_auth v; v_tokens := tokens; v_pending_mint := mint;
         v_pending_paid_issue := paid; v_last_paid_issue_hash := v_last_paid_issue_hash v;
         v_pending_redemption := redemption; v_last_redemption_id := v_last_redemption_id v |},
      (removed_mint + removed_paid + (length (v_tokens v) - length tokens) + removed_redemption)%nat).

Definition add_tokens (tokens : list StoredToken) (v : VaultV1) : result VaultError (VaultV1 * unit) :=
  Ok (set_tokens v (v_tokens v ++ tokens), tt).

Definition begin_mint (proposed : PendingMintBatch) (v : VaultV1) : result VaultError (VaultV1 * PendingMintBatch) :=
  let v := match v_pending_mint v with None => set_mint v (Some proposed) | Some _ => v end in
  p ← ok_or (v_pending_mint v) NoPendingMint;
  Ok (v, p).

Definition commit_mint (request_id : bytes) (tokens : list StoredToken) (v : VaultV1) :
    result VaultError (VaultV1 * nat) :=
  pending ← ok_or (v_pending_mint v) NoPendingMint;
  _ ← ensure (constant_time_id_eq (pm_request_id pending) request_id) MintRequestMismatch;
  Ok (set_mint (set_tokens v (v_tokens v ++ tokens)) None, length tokens).

Definition begin_paid_issue (proposed : PendingPaidIssue) (v : VaultV1) :
    result VaultError (VaultV1 * PaidIssueBegin) :=
  let receipt := paid_issue_receipt (pp_payment_id proposed) in
  if some_id_eq (v_last_paid_issue_hash v) receipt then Ok (v, PaidCompleted (length (v_tokens v)))
  else
    let v := match v_pending_paid_issue v with
             | None => set_paid v (Some proposed) (v_last_paid_issue_hash v)
             | Some _ => v
             end in
    p ← ok_or (v_pending_paid_issue v) NoPendingPaidIssue;
    Ok (v, PaidPending p).

Definition commit_paid_issue (payment_id : bytes) (token : StoredToken) (v : VaultV1) :
    result VaultError (VaultV1 * nat) :=
  let receipt := paid_issue_receipt payment_id in
  match v_pending_paid_issue v with
  | None =>
      if some_id_eq (v_last_paid_issue_hash v) receipt then Ok (v, length (v_tokens v)) else Err NoPendingPaidIssue
  | Some pending =>
      _ ← ensure (constant_time_id_eq (pp_payment_id pending) payment_id) PaidIssueMismatch;
      let v := set_paid (set_tokens v (v_tokens v ++ [token])) None (Some receipt) in
      Ok (v, length (v_tokens v))
  end.

(** The loop of [reserve_one]: draw until the identifier is not the last completed one. *)
Fixpoint fresh_reservation_id (last : option bytes) (draws : list bytes) : result VaultError bytes :=
  match draws with
  | [] => Err Sealer
  | b :: draws => if some_id_eq last (to_hex_fmt b) then fresh_reservation_id last draws else Ok (to_hex_fmt b)
  end.

Definition reserve_one (draws : list bytes) (v : VaultV1) : result VaultError (VaultV1 * option TokenReservation) :=
  v ← match v_pending_redemption v, v_tokens v with
      | None, t :: rest =>
          id ← fresh_reservation_id (v_last_redemption_id v) draws;
          Ok (set_redemption (set_tokens v rest) (Some {| pr_reservation_id := id; pr_token := t |})
                (v_last_redemption_id v))
      | _, _ => Ok v
      end;
  Ok (v, (λ p, {| tr_reservation_id := pr_reservation_id p; tr_token := pr_token p |}) <$> v_pending_redemption v).

Definition commit_redemption (reservation_id : bytes) (v : VaultV1) : result VaultError (VaultV1 * unit) :=
  match v_pending_redemption v with
  | None =>
      if some_id_eq (v_last_redemption_id v) reservation_id then Ok (v, tt) else Err NoPendingReservation
  | Some pending =>
      _ ← ensure (constant_time_id_eq (pr_reservation_id pending) reservation_id) ReservationMismatch;
      Ok (set_redemption v None (Some reservation_id), tt)
  end.

(** [TokenStore::clear]: everything but the account. *)
Definition clear_tokens (v : VaultV1) : result VaultError (VaultV1 * unit) :=
  Ok (set_auth (clear_sensitive v) (v_auth v), tt).

(** [AuthStore::save] and [AuthStore::clear]. *)
Definition save_auth (m : AccountAuthMaterial) (v : VaultV1) : result VaultError (VaultV1 * unit) :=
  Ok (set_auth v (Some m), tt).
Definition clear_auth (v : VaultV1) : result VaultError (VaultV1 * unit) := Ok (set_auth v None, tt).

(** *** Views *)

Definition count (v : VaultV1) : nat := length (v_tokens v) + (if v_pending_redemption v then 1 else 0).

Definition redeemable_count (now : Z) (v : VaultV1) : nat :=
  length (filter (λ t, is_redeemable_at t now = true) (v_tokens v)) +
  match v_pending_redemption v with Some p => if is_redeemable_at (pr_token p) now then 1 else 0 | None => 0 end.

Definition paid_issue_completed (payment_id : bytes) (v : VaultV1) : bool :=
  some_id_eq (v_last_paid_issue_hash v) (paid_issue_receipt payment_id).

(** One native lifecycle binding: the reservation, and whether it is still to be completed. *)
Record RedemptionBinding := { rb_reservation_id : bytes; rb_pending : bool }.

Definition redemption_binding (v : VaultV1) : option RedemptionBinding :=
  match v_pending_redemption v with
  | Some p => Some {| rb_reservation_id := pr_reservation_id p; rb_pending := true |}
  | None => (λ id, {| rb_reservation_id := id; rb_pending := false |}) <$> v_last_redemption_id v
  end.

End Facades.

(** ** Operations as transactions *)

(** The operations of the two facades, with what they return. *)
Inductive VaultOp : Type → Type :=
  | OpLoad : VaultOp VaultV1
  | OpReplaceAccount (m : AccountAuthMaterial) : VaultOp unit
  | OpClearAll : VaultOp unit
  | OpClearTokens : VaultOp unit
  | OpSaveAuth (m : AccountAuthMaterial) : VaultOp unit
  | OpClearAuth : VaultOp unit
  | OpPrune (now : Z) : VaultOp nat
  | OpAdd (tokens : list StoredToken) : VaultOp unit
  | OpBeginMint (proposed : PendingMintBatch) : VaultOp PendingMintBatch
  | OpCommitMint (request_id : bytes) (tokens : list StoredToken) : VaultOp nat
  | OpBeginPaid (proposed : PendingPaidIssue) : VaultOp PaidIssueBegin
  | OpCommitPaid (payment_id : bytes) (token : StoredToken) : VaultOp nat
  | OpReserve : VaultOp (option TokenReservation)
  | OpCommitRedemption (reservation_id : bytes) : VaultOp unit.

Section Operations.
Context `{Hsha : Sha256, Hjson : VaultJson, Hseal : PlatformSealer}.

(** What an operation does to the value in the vault. *)
Definition transaction {R} (op : VaultOp R) (draws : list bytes) (v : VaultV1) : result VaultError (VaultV1 * R) :=
  match op in VaultOp R return result VaultError (VaultV1 * R) with
  | OpLoad => Ok (v, v)
  | OpReplaceAccount m => replace_account m v
  | OpClearAll => clear_all_credentials v
  | OpClearTokens => clear_tokens v
  | OpSaveAuth m => save_auth m v
  | OpClearAuth => clear_auth v
  | OpPrune now => prune_expired now v
  | OpAdd tokens => add_tokens tokens v
  | OpBeginMint p => begin_mint p v
  | OpCommitMint id tokens => commit_mint id tokens v
  | OpBeginPaid p => begin_paid_issue p v
  | OpCommitPaid id token => commit_paid_issue id token v
  | OpReserve => reserve_one draws v
  | OpCommitRedemption id => commit_redemption id v
  end.

(** What it does to the disk.  A load writes nothing, and a malformed reservation identifier is
    refused before the vault is opened. *)
Definition vault_op {R} (op : VaultOp R) (d : VaultDisk) (io : VaultIo) : VaultDisk * result VaultError R :=
  match op in VaultOp R return VaultDisk * result VaultError R with
  | OpLoad => (d, vault_load d io)
  | OpCommitRedemption id =>
      if valid_reservation_id id then mutate (transaction (OpCommitRedemption id)) d io
      else (d, Err ReservationMismatch)
  | op => mutate (transaction op) d io
  end.

End Operations.
