(* ===== verification/VaultRuns.v ===== *)
(** * Runs of the credential vault

    The vault's file against its specification: a value that each operation changes at once or
    not at all, whatever the disk does, and what follows for the passes in it. *)

From S2P Require Import Prelude.
From S2P Require Import Text.
From S2P Require Import Crypto.
From S2P Require Import Env.
From S2P Require Import Token.
From S2P Require Import Vault.
From Stdlib Require Import Strings.Byte ZArith Lia.
From stdpp Require Import prelude gmap strings.

Local Open Scope Z_scope.

(** ** Comparison of identifiers *)

Lemma lor_zero a b : Z.lor a b = 0 ↔ a = 0 ∧ b = 0.
Proof. apply Z.lor_eq_0_iff. Qed.

Lemma fold_differences l acc :
  foldl (λ d (lr : byte * byte), Z.lor d (Z.lxor (b2z lr.1) (b2z lr.2))) acc l = 0 ↔
  acc = 0 ∧ Forall (λ lr, lr.1 = lr.2) l.
Proof.
  revert acc. induction l as [|[a b] l IH]; intros acc; cbn; [by split; [|intros [? _]]|].
  rewrite IH, lor_zero, Z.lxor_eq_0_iff, Forall_cons. cbn. split.
  - intros [[-> ->%b2z_inj] Hl]. done.
  - intros (-> & -> & Hl). done.
Qed.

(** The constant-time comparison is equality. *)
Lemma constant_time_id_eq_iff a b : constant_time_id_eq a b = true ↔ a = b.
Proof.
  unfold constant_time_id_eq. rewrite andb_true_iff, Nat.eqb_eq, Z.eqb_eq, fold_differences. split.
  - intros (Hl & _ & Hf). revert b Hl Hf. induction a as [|x a IH]; intros [|y b] Hl Hf; try done.
    cbn in Hf. apply Forall_cons in Hf as [Hxy Hf]. cbn in Hxy. subst y. f_equal.
    apply IH; [by injection Hl|done].
  - intros <-. split_and!; [done|done|]. induction a; cbn; constructor; done.
Qed.

Lemma some_id_eq_iff o a : some_id_eq o a = true ↔ o = Some a.
Proof. destruct o; cbn; [rewrite constant_time_id_eq_iff|]; naive_solver. Qed.

(** ** Validity *)

Definition hex_text (n : nat) (s : bytes) : Prop := length s = n ∧ is_lower_hex_text s = true.

Definition token_ok (t : StoredToken) : Prop :=
  hex_text TOKEN_MESSAGE_HEX_LEN (st_msg t) ∧ hex_text TOKEN_SIGNATURE_HEX_LEN (st_token t).

(** The passes of a vault: those waiting and the one reserved. *)
Definition passes (v : VaultV1) : list StoredToken :=
  v_tokens v ++ match v_pending_redemption v with Some p => [pr_token p] | None => [] end.

Record vault_ok (v : VaultV1) : Prop := {
  vo_schema : v_schema v = VAULT_SCHEMA_V1;
  vo_count : Z.of_nat (length (passes v)) ≤ MAX_STORED_TOKENS;
  vo_auth : ∀ a, v_auth v = Some a → hex_text AUTH_HEX_LEN (am_account_number a) ∧ hex_text AUTH_HEX_LEN (am_auth_seed a);
  vo_mint : ∀ p, v_pending_mint v = Some p → mint_batch_validate p = Ok tt;
  vo_paid : ∀ p, v_pending_paid_issue v = Some p → paid_issue_validate p = Ok tt;
  vo_receipt : ∀ r, v_last_paid_issue_hash v = Some r → hex_text 64 r;
  vo_tokens : Forall token_ok (passes v);
  vo_nodup : NoDup (st_msg <$> passes v);
  vo_reservation : ∀ p, v_pending_redemption v = Some p →
    hex_text RESERVATION_ID_HEX_LEN (pr_reservation_id p) ∧ v_last_redemption_id v ≠ Some (pr_reservation_id p);
  vo_last : ∀ r, v_last_redemption_id v = Some r → hex_text RESERVATION_ID_HEX_LEN r;
}.

Lemma unit_bind_Ok {E B} (m : result E unit) (f : unit → result E B) b :
  (m ≫= f) = Ok b ↔ m = Ok tt ∧ f tt = Ok b.
Proof. rewrite bind_Ok. split; [by intros ([] & ? & ?)|by intros []; exists tt]. Qed.

Lemma vault_hex_ok s n f : validate_lower_hex s n f = Ok tt ↔ hex_text n s.
Proof. unfold validate_lower_hex, hex_text. by rewrite unit_bind_Ok, !ensure_Ok, Nat.eqb_eq. Qed.

Lemma validate_opt_ok {A} (x : option A) f : validate_opt x f = Ok tt ↔ ∀ a, x = Some a → f a = Ok tt.
Proof. destruct x; cbn; [split; [by intros H a' [= <-]|by intros H; apply H]|done]. Qed.

Lemma validate_tokens_ok seen tokens out :
  validate_tokens seen tokens = Ok out ↔
  Forall token_ok tokens ∧ NoDup (st_msg <$> tokens) ∧ (∀ t, t ∈ tokens → st_msg t ∉ seen) ∧
  out = list_to_set (st_msg <$> tokens) ∪ seen.
Proof.
  revert seen. induction tokens as [|t tokens IH]; intros seen; cbn.
  - split; [intros [= <-]; split_and!; [done|constructor|set_solver|set_solver]|].
    intros (_ & _ & _ & ->). f_equal. set_solver.
  - rewrite !unit_bind_Ok, !vault_hex_ok, ensure_Ok, IH, negb_true_iff, bool_decide_eq_false, Forall_cons, NoDup_cons.
    split.
    + intros (Hm & Ht & Hs & Hf & Hn & Hd & ->). split_and!; [done|done| |done| |set_solver].
      * intros (t' & Heq & Hin)%list_elem_of_fmap. apply (Hd t' Hin). rewrite <- Heq. set_solver.
      * intros t' [->|Hin]%elem_of_cons; [done|]. specialize (Hd t' Hin). set_solver.
    + intros ([[Hm Ht] Hf] & [Hn Hn'] & Hd & ->). split; [done|]. split; [done|]. split; [apply Hd; left|].
      split; [done|]. split; [done|]. split.
      * intros t' Hin. apply not_elem_of_union. split; [|by apply Hd; right].
        rewrite elem_of_singleton. intros Heq. apply Hn. rewrite <- Heq. by apply list_elem_of_fmap_2.
      * set_solver.
Qed.

Lemma nodup_msgs_snoc ts t :
  NoDup (st_msg <$> ts ++ [t]) ↔ NoDup (st_msg <$> ts) ∧ st_msg t ∉ st_msg <$> ts.
Proof.
  rewrite fmap_app, NoDup_app. cbn. split.
  - intros (Hn & Hd & _). split; [done|]. intros Hin. by apply (Hd _ Hin), list_elem_of_singleton.
  - intros [Hn Hd]. split_and!; [done| |apply NoDup_singleton]. intros x Hx ->%list_elem_of_singleton. done.
Qed.

(** [validate] decides validity. *)
Lemma validate_ok v : validate v = Ok tt ↔ vault_ok v.
Proof.
  unfold validate. rewrite !unit_bind_Ok, !ensure_Ok, Z.eqb_eq, Z.leb_le, !validate_opt_ok. split.
  - intros (H1 & H2 & H3 & H4 & H5 & H6 & (messages & Ht & H7)%bind_Ok).
    apply validate_tokens_ok in Ht as (Hf & Hn & _ & ->). apply unit_bind_Ok in H7 as [H7 H8].
    rewrite validate_opt_ok in H7. rewrite validate_opt_ok in H8.
    assert (Hp : ∀ p, v_pending_redemption v = Some p → token_ok (pr_token p) ∧ st_msg (pr_token p) ∉ st_msg <$> v_tokens v ∧
      hex_text RESERVATION_ID_HEX_LEN (pr_reservation_id p) ∧ v_last_redemption_id v ≠ Some (pr_reservation_id p)).
    { intros p Hp. specialize (H7 p Hp). rewrite !unit_bind_Ok, !vault_hex_ok, !ensure_Ok, !negb_true_iff,
        !bool_decide_eq_false in H7. destruct H7 as (? & ? & ? & Hin & ?). split; [done|]. split; [|done].
      intros Hc. apply Hin. set_solver. }
    split; try done.
    + unfold passes. rewrite length_app. destruct (v_pending_redemption v); cbn in *; lia.
    + intros a Ha. specialize (H3 a Ha). by rewrite unit_bind_Ok, !vault_hex_ok in H3.
    + intros p Hm. specialize (H4 p Hm). by apply map_err_Ok in H4.
    + intros p Hm. specialize (H5 p Hm). by apply map_err_Ok in H5.
    + intros r Hr. by apply (vault_hex_ok _ _ (str "last_paid_issue_hash")), H6.
    + unfold passes. apply Forall_app_2; [done|]. destruct (v_pending_redemption v); [|done].
      apply Forall_singleton. by apply Hp.
    + unfold passes. destruct (v_pending_redemption v); [|by rewrite app_nil_r]. apply nodup_msgs_snoc. split; [done|].
      by apply Hp.
    + intros p Hm. by apply Hp.
    + intros r Hr. by apply (vault_hex_ok _ _ (str "last_redemption_id")), H8.
  - intros []. unfold passes in *. rewrite length_app in vo_count0.
    split_and!; [done| | | | | |].
    + destruct (v_pending_redemption v); cbn in *; lia.
    + intros a Ha. rewrite unit_bind_Ok, !vault_hex_ok. by apply vo_auth0.
    + intros p Hp. by rewrite vo_mint0.
    + intros p Hp. by rewrite vo_paid0.
    + intros r Hr. apply vault_hex_ok. auto.
    + apply Forall_app in vo_tokens0 as [Hf Hf'].
      assert (Hn : NoDup (st_msg <$> v_tokens v) ∧
        ∀ p, v_pending_redemption v = Some p → st_msg (pr_token p) ∉ st_msg <$> v_tokens v).
      { destruct (v_pending_redemption v) as [p|]; [|rewrite app_nil_r in vo_nodup0; by split].
        apply nodup_msgs_snoc in vo_nodup0 as [? ?]. by split; [|intros p' [= <-]]. }
      destruct Hn as [Hn Hd]. apply bind_Ok. eexists. split; [apply validate_tokens_ok; split_and!; try done; set_solver|].
      rewrite unit_bind_Ok, !validate_opt_ok. split.
      * intros p Hp. rewrite Hp in Hf'. apply Forall_singleton in Hf' as [Hm Ht].
        destruct (vo_reservation0 p Hp) as [Hid Hlast].
        rewrite !unit_bind_Ok, !vault_hex_ok, !ensure_Ok, !negb_true_iff, !bool_decide_eq_false.
        split; [done|]. split; [done|]. split; [done|]. split; [|done]. specialize (Hd p Hp). set_solver.
      * intros r Hr. apply vault_hex_ok. auto.
Qed.

(** ** The specification: a value that changes at once or not at all *)

(** The value now, and those a power loss may bring back. *)
Record VaultState := { vs_now : VaultV1; vs_prior : list VaultV1 }.

Definition vs_images (s : VaultState) : list VaultV1 := vs_now s :: vs_prior s.

Inductive VaultEvent :=
  | VEv {R} (op : VaultOp R) (r : result VaultError R)
  | PowerLoss.

Definition draws_ok (draws : list bytes) : Prop := Forall (λ b, length b = 32%nat) draws.

(** A load writes nothing. *)
Definition is_load {R} (op : VaultOp R) : bool := match op with OpLoad => true | _ => false end.

Section Spec.
Context `{Hsha : Sha256}.

Inductive spec_step (s : VaultState) : VaultEvent → VaultState → Prop :=
  (* reported done, and done for good *)
  | ss_done {R} (op : VaultOp R) draws v r :
      draws_ok draws → is_load op = false → transaction op draws (vs_now s) = Ok (v, r) → vault_ok v →
      spec_step s (VEv op (Ok r)) {| vs_now := v; vs_prior := [] |}
  | ss_load : spec_step s (VEv OpLoad (Ok (vs_now s))) s
  (* reported failed: not done, or done and not yet certain *)
  | ss_failed {R} (op : VaultOp R) e : spec_step s (VEv op (Err e)) s
  | ss_unconfirmed {R} (op : VaultOp R) draws v r e :
      draws_ok draws → is_load op = false → transaction op draws (vs_now s) = Ok (v, r) → vault_ok v →
      spec_step s (VEv op (Err e)) {| vs_now := v; vs_prior := vs_images s |}
  | ss_power v : v ∈ vs_images s → spec_step s PowerLoss {| vs_now := v; vs_prior := [] |}.

Inductive spec_run : VaultState → list VaultEvent → VaultState → Prop :=
  | sr_nil s : spec_run s [] s
  | sr_snoc s tr s' e s'' : spec_run s tr s' → spec_step s' e s'' → spec_run s (tr ++ [e]) s''.

End Spec.

(** ** The file *)

Section Disk.
Context `{Hsha : Sha256, Hjson : VaultJson, HjsonL : !VaultJsonLaws, Hseal : PlatformSealer, HsealL : !PlatformSealerLaws}.

(** One operation on the disk, or a power loss. *)
Inductive disk_step (d : VaultDisk) : VaultEvent → VaultDisk → Prop :=
  | ds_op {R} (op : VaultOp R) io d' r :
      draws_ok (io_draws io) → vault_op op d io = (d', r) → disk_step d (VEv op r) d'
  | ds_power e : e ∈ d_entry d :: d_prior d → disk_step d PowerLoss {| d_entry := e; d_prior := [] |}.

Inductive disk_run : VaultDisk → list VaultEvent → VaultDisk → Prop :=
  | dr_nil d : disk_run d [] d
  | dr_snoc d tr d' e d'' : disk_run d tr d' → disk_step d' e d'' → disk_run d (tr ++ [e]) d''.

(** The entry was written by [persist_locked] for this value, or there is none yet. *)
Inductive image_of : option PrivateFile → VaultV1 → Prop :=
  | io_none : image_of None vault_empty
  | io_file v nonce plaintext envelope :
      vault_ok v → vault_to_vec v = Some plaintext →
      Z.of_nat (length plaintext) ≤ MAX_VAULT_PLAINTEXT_BYTES →
      encode_envelope (sealer_seal nonce plaintext VAULT_AAD) = Ok envelope →
      image_of (Some {| e_kind := RegularFile; e_mode := 384; e_bytes := envelope |}) v.

Record represents (d : VaultDisk) (s : VaultState) : Prop := {
  rp_now : image_of (d_entry d) (vs_now s);
  rp_prior : Forall2 image_of (d_prior d) (vs_prior s);
}.

Lemma vault_empty_ok : vault_ok vault_empty.
Proof. split; cbn; try done; try constructor. Qed.

Lemma image_of_ok e v : image_of e v → vault_ok v.
Proof. destruct 1; [apply vault_empty_ok|done]. Qed.

(** The envelope says what it wraps. *)
Lemma envelope_roundtrip c f :
  encode_envelope c = Ok f → decode_envelope f = Ok c ∧ Z.of_nat (length f) ≤ MAX_VAULT_FILE_BYTES.
Proof.
  unfold encode_envelope. intros H. inv_ok H. reflect_bools. unfold FILE_HEADER_LEN in *.
  set (n := Z.of_nat (length c)) in *.
  assert (f = (FILE_MAGIC ++ [FILE_VERSION]) ++ be_bytes 4 n ++ c) as -> by (rewrite <- app_assoc; congruence). clear H.
  assert (Hl : length ((FILE_MAGIC ++ [FILE_VERSION]) ++ be_bytes 4 n ++ c) = (13 + length c)%nat).
  { rewrite !length_app, length_be_bytes. done. }
  assert (Hne : n ≠ 0) by (subst n; destruct c; cbn; [done|lia]).
  split; [|rewrite Hl; lia]. unfold decode_envelope. rewrite Hl. unfold FILE_HEADER_LEN.
  rewrite (proj2 (Z.leb_le _ _)) by lia. ok_step.
  assert (drop 9 ((FILE_MAGIC ++ [FILE_VERSION]) ++ be_bytes 4 n ++ c) = be_bytes 4 n ++ c) as -> by done.
  rewrite take_app_length' by (by rewrite length_be_bytes).
  rewrite be_value_be_bytes_small by (unfold_int; change (2 ^ (8 * Z.of_nat 4)) with 4294967296; lia).
  rewrite (proj2 (Z.eqb_neq n 0) Hne). cbn [negb]. ok_step.
  rewrite (proj2 (Z.eqb_eq _ _)) by lia. ok_step.
  by rewrite app_assoc, drop_app_length' by (rewrite length_app, length_be_bytes; done).
Qed.

(** An image loads as the value it was written for, or not at all. *)
Lemma load_image d v io :
  image_of (d_entry d) v →
  load_locked d io = Ok (v, io_draws io) ∨
  (io_inspect io && io_open io = false ∧ ∃ e, load_locked d io = Err e).
Proof.
  intros Hi. unfold load_locked. destruct Hi as [|v nonce plaintext envelope Hv Hj Hlp He]; [by left|].
  destruct (envelope_roundtrip _ _ He) as [Hd Hl]. destruct (vault_json_roundtrip _ _ Hj) as [Hne Hw].
  cbn [read_optional_private_file e_kind e_bytes]. rewrite bool_decide_false by done. cbn [negb]. ok_step.
  destruct (io_inspect io); [ok_step|right; by split; [|eexists]].
  assert (validate_private_regular_file {| e_kind := RegularFile; e_mode := 384; e_bytes := envelope |} = Ok tt) as -> by done.
  ok_step. rewrite (proj2 (Z.leb_le _ _)) by done. ok_step. rewrite Hd. ok_step.
  destruct (io_open io); [ok_step|right; by split; [|eexists]]. rewrite open_seal. ok_step.
  rewrite (proj2 (Z.leb_le _ _)) by done. ok_step. rewrite bool_decide_false by done. cbn [negb]. ok_step. rewrite Hw. ok_step.
  left. assert (into_vault (wire_of v) (io_draws io) = Ok (v, io_draws io)) as ->.
  { unfold into_vault. destruct v as [? ? ? ? ? ? [p|] ?]; done. }
  cbn [map_err]. ok_step. by rewrite (proj2 (validate_ok v) Hv).
Qed.

Definition calm : VaultIo := {|
  io_inspect := true; io_open := true; io_draws := []; io_seal := Some []; io_parent := true; io_temp := true;
  io_rename := true; io_sync_parent := true |}.

Lemma image_of_inj e v w : image_of e v → image_of e w → v = w.
Proof.
  intros Hv Hw. destruct (load_image {| d_entry := e; d_prior := [] |} v calm Hv) as [Ev|[? _]]; [|done].
  destruct (load_image {| d_entry := e; d_prior := [] |} w calm Hw) as [Ew|[? _]]; [|done]. congruence.
Qed.

(** A write replaces the image, keeps it, or leaves both possible. *)
Lemma persist_image d v io d' r :
  vault_ok v → persist_locked d v io = (d', r) →
  (d' = d ∧ ∃ e, r = Err e) ∨
  (∃ f, image_of (Some f) v ∧
     ((d' = {| d_entry := Some f; d_prior := [] |} ∧ r = Ok tt) ∨
      (d' = {| d_entry := Some f; d_prior := d_entry d :: d_prior d |} ∧ r = Err VaultIoError))).
Proof.
  intros Hv. unfold persist_locked. rewrite (proj2 (validate_ok v) Hv). ok_step.
  destruct (vault_to_vec v) as [plaintext|] eqn:Hj; [ok_step|intros [= <- <-]; left; eauto].
  destruct (Z.leb_spec (Z.of_nat (length plaintext)) MAX_VAULT_PLAINTEXT_BYTES); [ok_step|intros [= <- <-]; left; eauto].
  destruct (io_seal io) as [nonce|]; [ok_step|intros [= <- <-]; left; eauto].
  destruct (encode_envelope _) as [envelope|e] eqn:He; [|intros [= <- <-]; left; eauto].
  unfold atomic_write_private. match goal with |- context [match ?m with Ok _ => _ | Err _ => _ end] => destruct m end;
    [|intros [= <- <-]; left; eauto].
  destruct (io_sync_parent io); intros [= <- <-]; right; eexists; (split; [by econstructor|]); [by left|by right].
Qed.

(** ** The file implements the specification *)

Lemma mutate_step {R} (op : VaultOp R) d s io d' r :
  represents d s → draws_ok (io_draws io) → is_load op = false → mutate (transaction op) d io = (d', r) →
  ∃ s', spec_step s (VEv op r) s' ∧ represents d' s'.
Proof.
  intros [Hn Hp] Hdr Hl H. unfold mutate in H.
  destruct (load_image _ _ io Hn) as [Hv|(_ & e & He)]; [|rewrite He in H; injection H as <- <-; exists s; split; [constructor|done]].
  rewrite Hv in H. rewrite Ok_bind in H.
  destruct (transaction op (io_draws io) (vs_now s)) as [[v' x]|e] eqn:Et;
    [|injection H as <- <-; exists s; split; [constructor|done]].
  rewrite Ok_bind in H. destruct (validate v') as [[]|e] eqn:Evl; [|injection H as <- <-; exists s; split; [constructor|done]].
  apply validate_ok in Evl. rewrite Ok_bind in H. destruct (persist_locked d v' io) as [d1 w] eqn:Ep. injection H as <- <-.
  destruct (persist_image _ _ _ _ _ Evl Ep) as [[-> [e ->]]|(f & Hf & [[-> ->]|[-> ->]])].
  - exists s. split; [constructor|done].
  - eexists. split; [by econstructor|]. by split; cbn.
  - eexists. split; [by eapply ss_unconfirmed|]. split; cbn; [done|]. by constructor.
Qed.

Lemma vault_op_step {R} (op : VaultOp R) d s io d' r :
  represents d s → draws_ok (io_draws io) → vault_op op d io = (d', r) →
  ∃ s', spec_step s (VEv op r) s' ∧ represents d' s'.
Proof.
  intros Hr Hdr H. destruct op; try (by eapply mutate_step).
  - cbn in H. injection H as <- <-. exists s. split; [|done]. unfold vault_load.
    destruct (load_image _ _ io (rp_now _ _ Hr)) as [->|(_ & e & ->)]; [apply ss_load|constructor].
  - cbn in H. destruct (valid_reservation_id _); [by eapply mutate_step|].
    injection H as <- <-. exists s. by split; [constructor|].
Qed.

Lemma disk_step_refines d s e d' :
  represents d s → disk_step d e d' → ∃ s', spec_step s e s' ∧ represents d' s'.
Proof.
  intros Hr [R op io d1 r Hdr H|x Hx]; [by eapply vault_op_step|].
  destruct Hr as [Hn Hp]. apply elem_of_cons in Hx as [->|Hx].
  - exists {| vs_now := vs_now s; vs_prior := [] |}. split; [constructor; left|by split].
  - apply list_elem_of_lookup in Hx as [i Hi]. destruct (Forall2_lookup_l _ _ _ _ _ Hp Hi) as (v & Hv & Him).
    exists {| vs_now := v; vs_prior := [] |}. split; [|by split]. constructor. right. by eapply list_elem_of_lookup_2.
Qed.

Lemma disk_run_refines d s tr d' :
  represents d s → disk_run d tr d' → ∃ s', spec_run s tr s' ∧ represents d' s'.
Proof.
  intros Hr Hrun. induction Hrun as [|d tr d1 e d2 _ IH Hstep]; [exists s; by split; [constructor|]|].
  destruct (IH Hr) as (s1 & Hs1 & Hr1). destruct (disk_step_refines _ _ _ _ Hr1 Hstep) as (s2 & Hs2 & Hr2).
  exists s2. split; [by econstructor|done].
Qed.

End Disk.

(** ** What happens to a pass *)

(** The event ends the hold on a pass: it wipes the vault, prunes the pass as past its time, or
    completes the reservation [pending]. *)
Definition lets_go `{Sha256} (t : StoredToken) (pending : option PendingRedemption) (e : VaultEvent) : Prop :=
  match e with
  | VEv op _ =>
      match op with
      | OpReplaceAccount _ | OpClearAll | OpClearTokens => True
      | OpPrune now => is_redeemable_at t now = false
      | OpCommitRedemption id => pending = Some {| pr_reservation_id := id; pr_token := t |}
      | _ => False
      end
  | PowerLoss => False
  end.

(** Follow a successful transaction to the value it leaves, operation by operation. *)
Ltac op_cases op H :=
  destruct op; cbn in H;
  unfold prune_expired, begin_mint, commit_mint, begin_paid_issue, commit_paid_issue, reserve_one, commit_redemption in H;
  repeat lazymatch type of H with
    | context [keep_if ?p ?x] => let E := fresh "Ek" in destruct (keep_if p x) eqn:E
    | (if some_id_eq ?a ?b then _ else _) = _ => let E := fresh "Eid" in destruct (some_id_eq a b) eqn:E
    | (match ?x with Some _ => _ | None => _ end) = _ => let E := fresh "Eo" in destruct x eqn:E
    | context [ok_or (_ (match ?x with Some _ => _ | None => _ end))] => let E := fresh "Eo" in destruct x eqn:E
    | (_ ≫= _) = Ok _ => let a := fresh "a" in let Ha := fresh "Ha" in apply bind_Ok in H as (a & Ha & H)
    end;
  repeat match goal with
    | K : match ?x with Some _ => _ | None => _ end = Ok _ |- _ => let E := fresh "Eo" in destruct x eqn:E
    | K : match ?x with [] => _ | _ :: _ => _ end = Ok _ |- _ => let E := fresh "El" in destruct x eqn:E
    | K : (_ ≫= _) = Ok _ |- _ => let a := fresh "a" in let Ha := fresh "Ha" in apply bind_Ok in K as (a & Ha & K)
    | K : ensure _ _ = Ok _ |- _ => apply ensure_Ok in K
    | K : constant_time_id_eq _ _ = true |- _ => apply constant_time_id_eq_iff in K
    | K : ok_or _ _ = Ok _ |- _ => apply ok_or_Ok in K
    | K : some_id_eq _ _ = true |- _ => apply some_id_eq_iff in K
    | K : Ok _ = Ok ?x |- _ => is_var x; injection K as <-
    end;
  try discriminate H; try (injection H as <- ?); cbn in *; simplify_eq;
  repeat match goal with
    | E : ?f ?v = _ |- context [?f ?v] =>
        lazymatch f with v_pending_redemption => rewrite E | v_tokens => rewrite E end
    end.

Section Passes.
Context `{Hsha : Sha256}.

Implicit Types v : VaultV1.
Implicit Types s : VaultState.

Lemma elem_of_passes t v :
  t ∈ passes v ↔ t ∈ v_tokens v ∨ ∃ p, v_pending_redemption v = Some p ∧ pr_token p = t.
Proof.
  unfold passes. rewrite elem_of_app. destruct (v_pending_redemption v) as [p|].
  - rewrite list_elem_of_singleton. naive_solver.
  - rewrite elem_of_nil. naive_solver.
Qed.

Lemma keep_if_spec {A} (p : A → bool) x a : x = Some a → p a = true → (keep_if p x).1 = Some a.
Proof. by intros -> H; cbn; rewrite H. Qed.

(** What an operation leaves of the passes, of a reservation and of the operations begun. *)
Lemma transaction_keeps {R} (op : VaultOp R) draws v v' (r : R) t :
  transaction op draws v = Ok (v', r) → t ∈ passes v → ¬ lets_go t (v_pending_redemption v) (VEv op (Ok r)) →
  t ∈ passes v'.
Proof.
  rewrite !elem_of_passes. intros H Ht Hc. op_cases op H; try done; try (rewrite elem_of_app; naive_solver).
  - apply not_false_is_true in Hc. destruct Ht as [Ht|(p & Hp & <-)]; [left; by apply list_elem_of_filter|right].
    exists p. split; [|done]. apply (f_equal fst) in Ek1. cbn in Ek1. rewrite <- Ek1. by apply keep_if_spec.
  - destruct Ht as [[->|Ht]%elem_of_cons|(p & ? & _)]; [right; eauto|by left|congruence].
  - destruct Ht as [Ht|(p' & ? & <-)]; [by left|]. destruct Hc. simplify_eq. by destruct p'.
Qed.

(** A reservation stays until it is completed. *)
Lemma transaction_keeps_reservation {R} (op : VaultOp R) draws v v' (r : R) p :
  transaction op draws v = Ok (v', r) → v_pending_redemption v = Some p →
  ¬ lets_go (pr_token p) (Some p) (VEv op (Ok r)) → v_pending_redemption v' = Some p.
Proof.
  intros H Hp Hc. op_cases op H; try done.
  - apply not_false_is_true in Hc. apply (f_equal fst) in Ek1. cbn in Ek1. rewrite <- Ek1. by apply keep_if_spec.
  - destruct Hc. by destruct p.
Qed.

(** A property of the value that an event preserves holds of all images after it. *)
Lemma step_images (P : VaultV1 → Prop) s e s' :
  spec_step s e s' →
  (∀ R (op : VaultOp R) res draws v' r, e = VEv op res → P (vs_now s) → draws_ok draws → vault_ok v' →
     transaction op draws (vs_now s) = Ok (v', r) → P v') →
  Forall P (vs_images s) → Forall P (vs_images s').
Proof.
  intros Hstep HP Hs. pose proof (Forall_inv Hs) as Hn. unfold vs_images in *.
  destruct Hstep as [R op draws v r Hd Hl Ht Hv| |R op e|R op draws v r e Hd Hl Ht Hv|v Hv]; cbn; try done.
  - constructor; [by eapply HP|done].
  - constructor; [by eapply HP|done].
  - rewrite Forall_forall in Hs. constructor; [by apply Hs|done].
Qed.

End Passes.

Definition fresh_disk : VaultDisk := {| d_entry := None; d_prior := [] |}.
Definition fresh_state : VaultState := {| vs_now := vault_empty; vs_prior := [] |}.

(** The event reports the pass as stored.  A payment completed before is acknowledged again
    without storing anything. *)
Definition other_payment `{Sha256} (id : bytes) (e : VaultEvent) : Prop :=
  match e with
  | VEv op _ => match op with OpCommitPaid id' _ => paid_issue_receipt id' ≠ paid_issue_receipt id | _ => True end
  | PowerLoss => True
  end.

Definition stores `{Sha256} (t : StoredToken) (before : list VaultEvent) (e : VaultEvent) : Prop :=
  match e with
  | VEv op res =>
      match op in VaultOp R return result VaultError R → Prop with
      | OpAdd ts => λ res, is_ok res = true ∧ t ∈ ts
      | OpCommitMint _ ts => λ res, is_ok res = true ∧ t ∈ ts
      | OpCommitPaid id t' => λ res, is_ok res = true ∧ t' = t ∧ Forall (other_payment id) before
      | _ => λ _, False
      end res
  | PowerLoss => False
  end.

Definition pending_of (r : TokenReservation) : PendingRedemption :=
  {| pr_reservation_id := tr_reservation_id r; pr_token := tr_token r |}.

(** The event hands out this reservation. *)
Definition hands_out (r : TokenReservation) (e : VaultEvent) : Prop :=
  match e with
  | VEv op res =>
      match op in VaultOp R return result VaultError R → Prop with
      | OpReserve => λ res, res = Ok (Some r)
      | _ => λ _, False
      end res
  | PowerLoss => False
  end.

Section Runs.
Context `{Hsha : Sha256, Hjson : VaultJson, HjsonL : !VaultJsonLaws, Hseal : PlatformSealer, HsealL : !PlatformSealerLaws}.

Lemma disk_run_snoc d tr e d'' :
  disk_run d (tr ++ [e]) d'' → ∃ d', disk_run d tr d' ∧ disk_step d' e d''.
Proof.
  intros H. remember (tr ++ [e]) as tr' eqn:E. destruct H as [|d tr0 d' e0 d'' Hr Hs]; [by destruct tr|].
  apply app_inj_tail in E as [-> ->]. eauto.
Qed.

Lemma disk_run_trans d tr1 d' tr2 d'' : disk_run d tr1 d' → disk_run d' tr2 d'' → disk_run d (tr1 ++ tr2) d''.
Proof.
  intros H1 H2. induction H2 as [|d' tr d2 e d3 _ IH Hst]; [by rewrite app_nil_r|].
  rewrite app_assoc. econstructor; [by apply IH|done].
Qed.

Lemma disk_run_app d tr1 tr2 d'' :
  disk_run d (tr1 ++ tr2) d'' → ∃ d', disk_run d tr1 d' ∧ disk_run d' tr2 d''.
Proof.
  revert d''. induction tr2 as [|e tr2 IH] using rev_ind; intros d''.
  - rewrite app_nil_r. intros H. exists d''. by split; [|constructor].
  - rewrite app_assoc. intros (d1 & Hr & Hs)%disk_run_snoc. apply IH in Hr as (d2 & H1 & H2).
    exists d2. split; [done|]. by econstructor.
Qed.

Lemma fresh_represents : represents fresh_disk fresh_state.
Proof. split; cbn; constructor. Qed.

Lemma spec_step_valid s e s' :
  spec_step s e s' → Forall vault_ok (vs_images s) → Forall vault_ok (vs_images s').
Proof. intros H. apply (step_images vault_ok _ _ _ H). by intros. Qed.

(** C24.  The vault is transactional: over any history of its operations - with reads, seals,
    writes, renames and syncs failing at will and power lost in between - it behaves as a single
    value that each operation changes entirely or not at all; what was reported done survives
    every later power loss; the value always passes validation, and a vault that can be opened
    loads as that value. *)
Theorem vault_is_transactional tr d :
  disk_run fresh_disk tr d →
  ∃ s, spec_run fresh_state tr s ∧ represents d s ∧ Forall vault_ok (vs_images s) ∧
    (∀ io, io_inspect io = true → io_open io = true → vault_load d io = Ok (vs_now s)).
Proof.
  intros H. destruct (disk_run_refines _ _ _ _ fresh_represents H) as (s & Hs & Hr). exists s. split_and!; [done|done| |].
  - clear Hr H. remember fresh_state as s0 eqn:E0. induction Hs as [s|s tr s1 e s2 _ IH Hst].
    + subst. constructor; [apply vault_empty_ok|constructor].
    + eapply spec_step_valid; [exact Hst|by apply IH].
  - intros io H1 H2. unfold vault_load.
    destruct (load_image _ _ io (rp_now _ _ Hr)) as [->|[Hc _]]; [done|]. by rewrite H1, H2 in Hc.
Qed.

(** *** Passes *)

Lemma step_passes s e s' t :
  spec_step s e s' → Forall (λ v, t ∈ passes v) (vs_images s) → ¬ lets_go t (v_pending_redemption (vs_now s)) e →
  Forall (λ v, t ∈ passes v) (vs_images s').
Proof.
  intros H Hs Hn. eapply step_images; [exact H| |exact Hs]. intros R op res draws v' r -> Ht _ _ Htr.
  by eapply transaction_keeps.
Qed.

Lemma step_reservation s e s' p :
  spec_step s e s' → Forall (λ v, v_pending_redemption v = Some p) (vs_images s) → ¬ lets_go (pr_token p) (Some p) e →
  Forall (λ v, v_pending_redemption v = Some p) (vs_images s').
Proof.
  intros H Hs Hn. eapply step_images; [exact H| |exact Hs]. intros R op res draws v' r -> Ht _ _ Htr.
  by eapply transaction_keeps_reservation.
Qed.

(** The receipt of a payment is left only by its completion. *)
Lemma step_receipt s e s' id :
  spec_step s e s' → other_payment id e →
  Forall (λ v, v_last_paid_issue_hash v ≠ Some (paid_issue_receipt id)) (vs_images s) →
  Forall (λ v, v_last_paid_issue_hash v ≠ Some (paid_issue_receipt id)) (vs_images s').
Proof.
  intros H Ho. apply (step_images _ _ _ _ H). intros R op res draws v' r -> Hv _ _ Ht.
  op_cases op Ht; try done; congruence.
Qed.

Lemma run_receipt s tr s' id :
  spec_run s tr s' → Forall (other_payment id) tr →
  Forall (λ v, v_last_paid_issue_hash v ≠ Some (paid_issue_receipt id)) (vs_images s) →
  Forall (λ v, v_last_paid_issue_hash v ≠ Some (paid_issue_receipt id)) (vs_images s').
Proof.
  intros H. induction H as [|s tr s1 e s2 _ IH Hst]; [done|]. intros [Ho [He _]%Forall_cons]%Forall_app Hs.
  eapply step_receipt; [exact Hst|done|by apply IH].
Qed.

(** What is reported stored is in every image. *)
Lemma stored_everywhere tr s e s' t :
  spec_run fresh_state tr s → spec_step s e s' → stores t tr e → Forall (λ v, t ∈ passes v) (vs_images s').
Proof.
  intros Hrun Hstep Hst. destruct Hstep as [R op draws v r _ _ Ht _| |R op x|R op draws v r x _ _ Ht _|v Hv];
    try (destruct op; cbn in Hst; destruct Hst; done); try done.
  constructor; [|done]. cbn [vs_now]. apply elem_of_passes. left. destruct op; cbn in Hst; try done.
  - cbn in Ht. injection Ht as <- _. apply elem_of_app. right. apply Hst.
  - cbn in Ht. unfold commit_mint in Ht. inv_ok Ht. injection Ht as <- _. apply elem_of_app. right. apply Hst.
  - cbn in Ht. destruct Hst as (_ & -> & Ho). unfold commit_paid_issue in Ht.
    destruct (v_pending_paid_issue (vs_now s)); [inv_ok Ht; injection Ht as <- _; apply elem_of_app; right; by left|].
    destruct (some_id_eq _ _) eqn:E; [|done]. apply some_id_eq_iff in E.
    assert (Hr : Forall (λ v, v_last_paid_issue_hash v ≠ Some (paid_issue_receipt payment_id)) (vs_images s)).
    { eapply run_receipt; [exact Hrun|done|]. by constructor. }
    apply Forall_inv in Hr. done.
Qed.

#[local] Instance lets_go_dec t p e : Decision (lets_go t p e).
Proof. destruct e as [R op r|]; [destruct op|]; cbn; apply _. Defined.

(** No pass is lost: once the vault has reported a pass as stored, every later load shows
    it - through any operations, failed writes and power losses - unless an operation let go of
    it: the account was replaced or cleared, it was pruned at a time it could no longer be
    redeemed, or the very reservation it was handed out under was completed. *)
Theorem pass_leaves_for_a_reason tr1 e tr2 d t :
  disk_run fresh_disk (tr1 ++ e :: tr2) d → stores t tr1 e →
  (∀ io v, vault_load d io = Ok v → t ∈ passes v) ∨
  ∃ tr3 e' tr4 d' v, tr2 = tr3 ++ e' :: tr4 ∧ disk_run fresh_disk (tr1 ++ e :: tr3) d' ∧
    image_of (d_entry d') v ∧ lets_go t (v_pending_redemption v) e'.
Proof.
  intros H Hst.
  assert (Hk : (∃ s, represents d s ∧ Forall (λ v, t ∈ passes v) (vs_images s)) ∨
    ∃ tr3 e' tr4 d' v, tr2 = tr3 ++ e' :: tr4 ∧ disk_run fresh_disk (tr1 ++ e :: tr3) d' ∧
      image_of (d_entry d') v ∧ lets_go t (v_pending_redemption v) e').
  { revert d H. induction tr2 as [|x tr2 IH] using rev_ind; intros d H.
    - apply disk_run_snoc in H as (d1 & H1 & Hs). left.
      destruct (disk_run_refines _ _ _ _ fresh_represents H1) as (s1 & Hs1 & Hr1).
      destruct (disk_step_refines _ _ _ _ Hr1 Hs) as (s2 & Hs2 & Hr2). exists s2. split; [done|]. by eapply stored_everywhere.
    - rewrite app_comm_cons, app_assoc in H. apply disk_run_snoc in H as (d1 & H1 & Hs).
      destruct (IH d1 H1) as [(s1 & Hr1 & Hp)|(tr3 & e' & tr4 & d' & v & -> & Hrest)].
      + destruct (decide (lets_go t (v_pending_redemption (vs_now s1)) x)) as [Hl|Hl].
        * right. exists tr2, x, [], d1, (vs_now s1). split_and!; [done|done|apply Hr1|done].
        * left. destruct (disk_step_refines _ _ _ _ Hr1 Hs) as (s2 & Hs2 & Hr2). exists s2. split; [done|]. by eapply step_passes.
      + right. exists tr3, e', (tr4 ++ [x]), d', v. by rewrite <- app_assoc. }
  destruct Hk as [(s & Hr & Hp)|Hk]; [left|by right]. intros io v Hl. unfold vault_load in Hl.
  apply Forall_inv in Hp. destruct (load_image _ _ io (rp_now _ _ Hr)) as [E|(_ & x & E)]; rewrite E in Hl; [|done].
  by injection Hl as <-.
Qed.

(** *** Reservations *)

Lemma reserve_step s e s' r :
  spec_step s e s' → hands_out r e →
  Forall (λ v, v_pending_redemption v = Some (pending_of r)) (vs_images s') ∧
  ∀ p, v_pending_redemption (vs_now s) = Some p → p = pending_of r.
Proof.
  intros Hstep Hh. destruct Hstep as [R op draws v x _ _ Ht _| |R op x|R op draws v x y _ _ Ht _|v Hv];
    try (destruct op; cbn in Hh; done); try done.
  destruct op; cbn in Hh; try done. injection Hh as ->. cbn in Ht. unfold reserve_one in Ht.
  apply bind_Ok in Ht as (v1 & H1 & Ht). injection Ht as <- Hp. 
  assert (Hv1 : v_pending_redemption v1 = Some (pending_of r)).
  { destruct (v_pending_redemption v1) as [p|]; [|done]. injection Hp as <-. f_equal. by destruct p. }
  split; [by constructor|]. intros p Hp'. rewrite Hp' in H1. injection H1 as <-. congruence.
Qed.

(** A pass is tried until it is used: between two reservations that name different passes
    or identifiers, the first one was completed, wiped or pruned as expired; so a connection
    attempt that crashed, failed or lost its answer is repeated with the same pass, and no
    completion that arrives late for another reservation can remove it. *)
Theorem same_pass_until_completed tr1 e1 tr2 e2 d r1 r2 :
  disk_run fresh_disk (tr1 ++ e1 :: tr2 ++ [e2]) d → hands_out r1 e1 → hands_out r2 e2 →
  Forall (λ e, ¬ lets_go (tr_token r1) (Some (pending_of r1)) e) tr2 → r2 = r1.
Proof.
  intros H H1 H2 Hn. rewrite app_comm_cons, app_assoc in H. apply disk_run_snoc in H as (d2 & H & Hs2).
  assert (Hk : ∃ s, represents d2 s ∧ Forall (λ v, v_pending_redemption v = Some (pending_of r1)) (vs_images s)).
  { clear Hs2. revert d2 H. induction tr2 as [|x tr2 IH] using rev_ind; intros d2 H.
    - apply disk_run_snoc in H as (d1 & Hr & Hs).
      destruct (disk_run_refines _ _ _ _ fresh_represents Hr) as (s1 & Hs1 & Hr1).
      destruct (disk_step_refines _ _ _ _ Hr1 Hs) as (s2 & Hs2 & Hr2). exists s2. split; [done|].
      by eapply reserve_step.
    - apply Forall_app in Hn as [Hn [Hx _]%Forall_cons]. rewrite app_comm_cons, app_assoc in H.
      apply disk_run_snoc in H as (d1 & Hr & Hs). destruct (IH Hn d1 Hr) as (s1 & Hr1 & Hp).
      destruct (disk_step_refines _ _ _ _ Hr1 Hs) as (s2 & Hs2 & Hr2). exists s2. split; [done|].
      by eapply step_reservation. }
  destruct Hk as (s & Hr & Hp). destruct (disk_step_refines _ _ _ _ Hr Hs2) as (s' & Hs' & _).
  destruct (reserve_step _ _ _ _ Hs' H2) as [_ Hq]. apply Forall_inv in Hp. specialize (Hq _ Hp).
  destruct r1, r2. unfold pending_of in Hq. cbn in Hq. congruence.
Qed.

(** *** Completions that come too late *)

(** The event wiped the vault's passes and everything in flight, and said so. *)
Definition wiped (e : VaultEvent) : Prop :=
  match e with
  | VEv op r => is_ok r = true ∧ match op with OpReplaceAccount _ | OpClearAll | OpClearTokens => True | _ => False end
  | PowerLoss => False
  end.

Definition begins_mint (id : bytes) (b : VaultEvent) : Prop :=
  match b with VEv op _ => match op with OpBeginMint p => pm_request_id p = id | _ => False end | PowerLoss => False end.
Definition begins_paid (receipt : bytes) (b : VaultEvent) : Prop :=
  match b with
  | VEv op _ => match op with OpBeginPaid p => paid_issue_receipt (pp_payment_id p) = receipt | _ => False end
  | PowerLoss => False
  end.
Definition begins_redemption (id : bytes) (b : VaultEvent) : Prop :=
  ∃ r, hands_out r b ∧ tr_reservation_id r = id.

(** A reserve that reported an error after its write had been put in place: from then on, on the
    way from [d0] to [d], the file held this reservation. *)
Definition reserved_unconfirmed (d0 : VaultDisk) (tr : list VaultEvent) (d : VaultDisk) (id : bytes) : Prop :=
  ∃ tr1 x tr2 d1 v p, tr = tr1 ++ VEv OpReserve (Err x) :: tr2 ∧
    disk_run d0 (tr1 ++ [VEv OpReserve (Err x)]) d1 ∧ disk_run d1 tr2 d ∧
    image_of (d_entry d1) v ∧ v_pending_redemption v = Some p ∧ pr_reservation_id p = id.

(** The event is a completion that was accepted; [begun d0 tr d e]: on the way from [d0] to [d]
    was begun what [e] completes - the mint or the payment with this identifier, the reservation
    with this identifier. *)
Definition completed (e : VaultEvent) : Prop :=
  match e with
  | VEv op r =>
      is_ok r = true ∧ match op with OpCommitMint _ _ | OpCommitPaid _ _ | OpCommitRedemption _ => True | _ => False end
  | PowerLoss => False
  end.

Definition begun (d0 : VaultDisk) (tr : list VaultEvent) (d : VaultDisk) (e : VaultEvent) : Prop :=
  match e with
  | VEv op _ =>
      match op with
      | OpCommitMint id _ => Exists (begins_mint id) tr
      | OpCommitPaid id _ => Exists (begins_paid (paid_issue_receipt id)) tr
      | OpCommitRedemption id => Exists (begins_redemption id) tr ∨ reserved_unconfirmed d0 tr d id
      | _ => False
      end
  | PowerLoss => False
  end.

(** Everything in flight or just completed was begun within [tr]; the reservations are among
    [reserved]. *)
Record within_trace (tr : list VaultEvent) (reserved : bytes → Prop) (v : VaultV1) : Prop := {
  wt_mint : ∀ p, v_pending_mint v = Some p → Exists (begins_mint (pm_request_id p)) tr;
  wt_paid : ∀ p, v_pending_paid_issue v = Some p → Exists (begins_paid (paid_issue_receipt (pp_payment_id p))) tr;
  wt_receipt : ∀ h, v_last_paid_issue_hash v = Some h → Exists (begins_paid h) tr;
  wt_pending : ∀ p, v_pending_redemption v = Some p → reserved (pr_reservation_id p);
  wt_last : ∀ id, v_last_redemption_id v = Some id → reserved id;
}.

Lemma within_trace_mono tr e (R R' : bytes → Prop) v :
  (∀ id, R id → R' id) → within_trace tr R v → within_trace (tr ++ [e]) R' v.
Proof. intros HR []. split; intros; try (apply Exists_app; left); auto. Qed.

Lemma keep_if_Some {A} (p : A → bool) x y n a : keep_if p x = (y, n) → y = Some a → x = Some a.
Proof. destruct x as [b|]; cbn; [destruct (p b)|]; intros [= <- <-]; congruence. Qed.

Lemma transaction_within {R} (op : VaultOp R) draws v v' (r : R) tr res (Q Q' : bytes → Prop) :
  transaction op draws v = Ok (v', r) → (∀ id, Q id → Q' id) →
  match op with OpReserve => ∀ p, v_pending_redemption v' = Some p → Q' (pr_reservation_id p) | _ => True end →
  within_trace tr Q v → within_trace (tr ++ [VEv op res]) Q' v'.
Proof.
  intros H HQ Hnew Hw. apply (within_trace_mono _ (VEv op res) _ _ _ HQ) in Hw.
  assert (Hlast : ∀ P : VaultEvent → Prop, P (VEv op res) → Exists P (tr ++ [VEv op res])).
  { intros P HP. apply Exists_app. right. by constructor. }
  destruct op; cbn in H; try (injection H as <- _; destruct Hw; by split).
  - unfold prune_expired in H. destruct (keep_if _ (v_pending_mint v)) eqn:E1, (keep_if _ (v_pending_paid_issue v)) eqn:E2,
      (keep_if _ (v_pending_redemption v)) eqn:E3. injection H as <- _. destruct Hw as [Hm Hp Hr Hd Hl]. split; cbn; [| |done| |done].
    + intros p ->. eapply Hm, keep_if_Some; eauto.
    + intros p ->. eapply Hp, keep_if_Some; eauto.
    + intros p ->. eapply Hd, keep_if_Some; eauto.
  - unfold begin_mint in H. inv_ok H. injection H as <- _. destruct (v_pending_mint v) eqn:E; [by destruct Hw; split|].
    destruct Hw. split; cbn; try done. intros p [= <-]. by apply Hlast.
  - unfold commit_mint in H. inv_ok H. injection H as <- _. destruct Hw. by split.
  - unfold begin_paid_issue in H. destruct (some_id_eq _ _); [by injection H as <- _|].
    inv_ok H. injection H as <- _. destruct (v_pending_paid_issue v) eqn:E; [by destruct Hw; split|].
    destruct Hw. split; cbn; try done. intros p [= <-]. by apply Hlast.
  - unfold commit_paid_issue in H. destruct (v_pending_paid_issue v) as [p|] eqn:E.
    + inv_ok H. rename select (constant_time_id_eq _ _ = true) into Hid. apply constant_time_id_eq_iff in Hid as <-.
      injection H as <- _. destruct Hw as [Hm Hp Hr Hd Hl]. split; cbn; try done. intros h [= <-]. by apply Hp.
    + destruct (some_id_eq _ _); [by injection H as <- _|done].
  - unfold reserve_one in H. apply bind_Ok in H as (v1 & H1 & H). injection H as <- _.
    repeat case_match; try (by injection H1 as <-). inv_ok H1. injection H1 as <-.
    destruct Hw. by split.
  - unfold commit_redemption in H. destruct (v_pending_redemption v) as [p|] eqn:E.
    + inv_ok H. rename select (constant_time_id_eq _ _ = true) into Hid. apply constant_time_id_eq_iff in Hid as <-.
      injection H as <- _. destruct Hw as [Hm Hp Hr Hd Hl]. split; cbn; try done. intros id [= <-]. by apply Hd.
    + destruct (some_id_eq _ _); [by injection H as <- _|done].
Qed.

Lemma wipe_step s e s' : spec_step s e s' → wiped e → Forall (within_trace [] (λ _, False)) (vs_images s').
Proof.
  intros Hstep Hw. destruct Hstep as [R op draws v r _ _ Ht _| |R op x|R op draws v r x _ _ Ht _|v Hv];
    try (destruct Hw; done).
  destruct Hw as [_ Hw]. constructor; [|done]. cbn [vs_now].
  destruct op; try done; cbn in Ht; injection Ht as <- _; by split.
Qed.

(** The reservations made on the way from [d0] to [d]. *)
Definition reserved_since (d0 : VaultDisk) (tr : list VaultEvent) (d : VaultDisk) (id : bytes) : Prop :=
  Exists (begins_redemption id) tr ∨ reserved_unconfirmed d0 tr d id.

Lemma reserved_since_snoc d0 tr d e d' id :
  disk_step d e d' → reserved_since d0 tr d id → reserved_since d0 (tr ++ [e]) d' id.
Proof.
  intros Hst [Hb|(tr1 & x & tr2 & d1 & v & p & -> & H1 & H2 & Hi & Hp & Hid)]; [left; apply Exists_app; by left|right].
  exists tr1, x, (tr2 ++ [e]), d1, v, p. rewrite <- app_assoc. split_and!; [done|done|by econstructor|done..].
Qed.

Lemma run_within d0 s0 tr d :
  disk_run d0 tr d → represents d0 s0 → Forall (within_trace [] (λ _, False)) (vs_images s0) →
  ∃ s, represents d s ∧ Forall (within_trace tr (reserved_since d0 tr d)) (vs_images s).
Proof.
  intros H Hr0 H0. induction H as [d0|d0 tr d1 e d2 Hrun IH Hst].
  { exists s0. split; [done|]. eapply Forall_impl; [exact H0|]. intros v [Hm Hp Hr Hd Hl].
    split; intros ? E; [by apply Hm|by apply Hp|by apply Hr|by apply Hd in E|by apply Hl in E]. }
  destruct (IH Hr0) as (s1 & Hr1 & Hw). destruct (disk_step_refines _ _ _ _ Hr1 Hst) as (s2 & Hst2 & Hr2).
  exists s2. split; [done|]. pose proof (λ id, reserved_since_snoc d0 tr _ _ _ id Hst) as Hmono.
  assert (Hold : Forall (within_trace (tr ++ [e]) (reserved_since d0 (tr ++ [e]) d2)) (vs_images s1)).
  { eapply Forall_impl; [exact Hw|]. intros v. by apply within_trace_mono. }
  pose proof (Forall_inv Hw) as Hnow.
  destruct Hst2 as [R op draws v r _ _ Ht _| |R op x|R op draws v r x _ _ Ht _|v Hv]; try done.
  - constructor; [|done]. eapply transaction_within; [exact Ht|done| |exact Hnow].
    destruct op; try done. intros p Hp. left. apply Exists_app. right. constructor.
    cbn in Ht. unfold reserve_one in Ht. apply bind_Ok in Ht as (v1 & _ & Ht). injection Ht as -> <-.
    cbn [vs_now] in Hp. eexists. split; [cbn; rewrite Hp; done|done].
  - constructor; [|done]. eapply transaction_within; [exact Ht|done| |exact Hnow].
    destruct op; try done. intros p Hp. right. exists tr, x, [], d2, v, p. split_and!; [done| |constructor|apply Hr2|done|done].
    by econstructor.
  - constructor; [|done]. by eapply Forall_forall in Hold.
Qed.

Lemma complete_step d0 tr d s e s' :
  spec_step s e s' → completed e → within_trace tr (reserved_since d0 tr d) (vs_now s) → begun d0 tr d e.
Proof.
  intros Hstep Hc [Hm Hp Hr Hd Hl]. destruct Hstep as [R op draws v r _ _ Ht _| |R op x|R op draws v r x _ _ Ht _|v Hv];
    try (destruct Hc; done).
  destruct Hc as [_ Hc]. destruct op; try done; cbn in Ht.
  - unfold commit_mint in Ht. inv_ok Ht. rename select (constant_time_id_eq _ _ = true) into Hid.
    apply constant_time_id_eq_iff in Hid as <-. by apply Hm.
  - unfold commit_paid_issue in Ht. destruct (v_pending_paid_issue (vs_now s)) as [p|].
    + inv_ok Ht. rename select (constant_time_id_eq _ _ = true) into Hid. apply constant_time_id_eq_iff in Hid as <-. by apply Hp.
    + destruct (some_id_eq _ _) eqn:E; [|done]. apply some_id_eq_iff in E. by apply Hr.
  - unfold commit_redemption in Ht. destruct (v_pending_redemption (vs_now s)) as [p|].
    + inv_ok Ht. rename select (constant_time_id_eq _ _ = true) into Hid. apply constant_time_id_eq_iff in Hid as <-. by apply Hd.
    + destruct (some_id_eq _ _) eqn:E; [|done]. apply some_id_eq_iff in E. by apply Hl.
Qed.

(** C25.  Nothing from before a logout comes back: after the vault was wiped - log-out, or a switch
    of accounts - a completion of a mint, of a paid issue or of a redemption is accepted only if
    the request, the payment or the reservation with the completion's own identifier was begun
    after the wipe: for a redemption, a reserve since then handed out a reservation with this
    very identifier, or reported an error although the file held this reservation from then on.
    Answers still on their way are refused. *)
Theorem stale_completion_refused tr1 d0 e1 d1 tr2 d2 e2 d3 :
  disk_run fresh_disk tr1 d0 → disk_step d0 e1 d1 → disk_run d1 tr2 d2 → disk_step d2 e2 d3 →
  wiped e1 → completed e2 → begun d1 tr2 d2 e2.
Proof.
  intros H1 Hs1 H2 Hs2 Hw Hc.
  destruct (disk_run_refines _ _ _ _ fresh_represents H1) as (s0 & _ & Hr0).
  destruct (disk_step_refines _ _ _ _ Hr0 Hs1) as (s1 & Hst1 & Hr1).
  destruct (run_within _ _ _ _ H2 Hr1 (wipe_step _ _ _ Hst1 Hw)) as (s2 & Hr2 & Hf).
  destruct (disk_step_refines _ _ _ _ Hr2 Hs2) as (s3 & Hst2 & _).
  eapply complete_step; [exact Hst2|done|]. by apply Forall_inv in Hf.
Qed.

(** *** Requests in flight *)

Section Slot.
Context {P : Type} (slot : VaultV1 → option P) (drops : P → VaultEvent → Prop) (begins : VaultEvent → Prop).
Context (Hempty : slot vault_empty = None).
Context (Hkeeps : ∀ R (op : VaultOp R) draws v v' (r : R) res p,
  transaction op draws v = Ok (v', r) → slot v = Some p → ¬ drops p (VEv op res) → slot v' = Some p).
Context (Hsets : ∀ R (op : VaultOp R) draws v v' (r : R) res p,
  transaction op draws v = Ok (v', r) → slot v' = Some p → ¬ begins (VEv op res) → slot v = Some p).

Context `{Hdec : ∀ p e, Decision (drops p e), Heq : EqDecision P}.

Definition unconfirmed_begin (e : VaultEvent) : Prop :=
  begins e ∧ match e with VEv _ r => is_ok r = false | PowerLoss => False end.

(** On the way from [d0] to [d], the file held this record in the slot when an event that
    drops it came. *)
Definition dropped (d0 : VaultDisk) (p : P) (tr : list VaultEvent) (d : VaultDisk) : Prop :=
  ∃ tr1 e tr2 d1 v, tr = tr1 ++ e :: tr2 ∧ disk_run d0 tr1 d1 ∧ disk_run d1 (e :: tr2) d ∧
    image_of (d_entry d1) v ∧ slot v = Some p ∧ drops p e.

Lemma dropped_app d0 p tr1 d1 tr2 d2 : disk_run d1 tr2 d2 → dropped d0 p tr1 d1 → dropped d0 p (tr1 ++ tr2) d2.
Proof.
  intros H (ta & e & tb & d & v & -> & Ha & Hb & Hv). exists ta, e, (tb ++ tr2), d, v.
  rewrite <- app_assoc. split_and!; try done; try apply Hv. rewrite app_comm_cons. by eapply disk_run_trans.
Qed.

(** The record is in every image, or in none. *)
Definition settled (p : P) (s : VaultState) : Prop :=
  ∀ v, v ∈ vs_images s → slot v = Some p → Forall (λ v, slot v = Some p) (vs_images s).

Lemma step_settled p s e s' :
  spec_step s e s' → ¬ unconfirmed_begin e → ¬ (slot (vs_now s) = Some p ∧ drops p e) → settled p s → settled p s'.
Proof.
  intros Hstep Hb Hd Hs v Hv Hp.
  destruct Hstep as [R op draws v' r _ _ Ht _| |R op x|R op draws v' r x _ _ Ht _|v' Hv']; try by eapply Hs.
  - apply list_elem_of_singleton in Hv as ->. by constructor.
  - assert (Hn : ¬ begins (VEv op (Err x))) by (intros ?; by apply Hb).
    assert (Hold : Forall (λ v, slot v = Some p) (vs_images s)).
    { cbn in Hv. apply elem_of_cons in Hv as [->|Hv]; [|by eapply Hs].
      apply (Hs (vs_now s)); [left|by eapply Hsets]. }
    pose proof (Forall_inv Hold) as Hnow. constructor; [|done]. eapply Hkeeps; [exact Ht|done|]. naive_solver.
  - apply list_elem_of_singleton in Hv as ->. by constructor.
Qed.

Lemma step_kept p s e s' :
  spec_step s e s' → ¬ drops p e → Forall (λ v, slot v = Some p) (vs_images s) → Forall (λ v, slot v = Some p) (vs_images s').
Proof.
  intros Hst He Hs. apply (step_images _ _ _ _ Hst); [|done]. intros R op res draws v' r -> Hv _ _ Ht. by eapply Hkeeps.
Qed.

(** As long as a record is not dropped while it is there, it is settled... *)
Lemma run_settled p tr d :
  disk_run fresh_disk tr d → Forall (λ e, ¬ unconfirmed_begin e) tr →
  dropped fresh_disk p tr d ∨ ∃ s, represents d s ∧ settled p s.
Proof.
  intros H. remember fresh_disk as d0 eqn:E0. induction H as [d0|d0 tr d1 e d2 Hrun IH Hst].
  - intros _. right. exists fresh_state. subst. split; [apply fresh_represents|].
    intros v Hv Hp. apply list_elem_of_singleton in Hv as ->. cbn in Hp. congruence.
  - intros [Htr [He _]%Forall_cons]%Forall_app. assert (Hst' : disk_run d1 [e] d2) by exact (dr_snoc _ [] _ _ _ (dr_nil _) Hst).
    destruct (IH E0 Htr) as [Hd|(s1 & Hr1 & Hs)]; [left; by eapply dropped_app|].
    destruct (decide (slot (vs_now s1) = Some p ∧ drops p e)) as [[Hp Hd]|Hd].
    + left. exists tr, e, [], d1, (vs_now s1). split_and!; try done. apply Hr1.
    + right. destruct (disk_step_refines _ _ _ _ Hr1 Hst) as (s2 & Hst2 & Hr2). exists s2. split; [done|].
      by eapply step_settled.
Qed.

(** ... and, once in every image, stays there. *)
Lemma run_kept p d1 s1 tr d2 :
  disk_run d1 tr d2 → represents d1 s1 → Forall (λ v, slot v = Some p) (vs_images s1) →
  dropped d1 p tr d2 ∨ ∃ s, represents d2 s ∧ Forall (λ v, slot v = Some p) (vs_images s).
Proof.
  intros H Hr1 H1. induction H as [d1|d1 tr d2 e d3 Hrun IH Hst]; [right; by exists s1|].
  assert (Hst' : disk_run d2 [e] d3) by exact (dr_snoc _ [] _ _ _ (dr_nil _) Hst).
  destruct (IH Hr1) as [Hd|(s2 & Hr2 & Hs)]; [left; by eapply dropped_app|].
  destruct (decide (drops p e)) as [Hd|Hd].
  - left. exists tr, e, [], d2, (vs_now s2). apply Forall_inv in Hs. split_and!; try done. apply Hr2.
  - right. destruct (disk_step_refines _ _ _ _ Hr2 Hst) as (s3 & Hst2 & Hr3). exists s3. split; [done|].
    by eapply step_kept.
Qed.

(** The slot holds one record for as long as nothing drops it. *)
Lemma slot_stable d1 d2 tr1 tr2 v1 v2 p1 p2 :
  disk_run fresh_disk tr1 d1 → disk_run d1 tr2 d2 → Forall (λ e, ¬ unconfirmed_begin e) tr1 →
  image_of (d_entry d1) v1 → slot v1 = Some p1 → image_of (d_entry d2) v2 → slot v2 = Some p2 →
  p2 = p1 ∨ dropped fresh_disk p1 (tr1 ++ tr2) d2.
Proof.
  intros H1 H2 Hb Hi1 Hp1 Hi2 Hp2.
  destruct (run_settled p1 _ _ H1 Hb) as [Hd|(s1 & Hr1 & Hs)]; [right; by eapply dropped_app|].
  assert (v1 = vs_now s1) as -> by (eapply image_of_inj; [exact Hi1|apply Hr1]).
  destruct (run_kept p1 _ _ _ _ H2 Hr1 (Hs _ ltac:(left) Hp1)) as [(ta & e & tb & d & v & -> & Ha & Hb' & Hv)|(s2 & Hr2 & Hf)].
  - right. exists (tr1 ++ ta), e, tb, d, v. rewrite app_assoc. split_and!; try done; try apply Hv. by eapply disk_run_trans.
  - left. assert (v2 = vs_now s2) as -> by (eapply image_of_inj; [exact Hi2|apply Hr2]).
    apply Forall_inv in Hf. congruence.
Qed.

End Slot.

(** The two slots. *)

Definition drops_paid (p : PendingPaidIssue) (e : VaultEvent) : Prop :=
  match e with
  | VEv op _ =>
      match op with
      | OpReplaceAccount _ | OpClearAll | OpClearTokens => True
      | OpPrune now => paid_recoverable_at p now = false
      | OpCommitPaid id _ => id = pp_payment_id p
      | _ => False
      end
  | PowerLoss => False
  end.

Definition begins_any_paid (e : VaultEvent) : Prop :=
  match e with VEv op _ => match op with OpBeginPaid _ => True | _ => False end | PowerLoss => False end.

Lemma transaction_keeps_paid {R} (op : VaultOp R) draws v v' (r : R) res p :
  transaction op draws v = Ok (v', r) → v_pending_paid_issue v = Some p → ¬ drops_paid p (VEv op res) →
  v_pending_paid_issue v' = Some p.
Proof.
  intros H Hp Hd. op_cases op H; try done.
  apply not_false_is_true in Hd. apply (f_equal fst) in Ek0. cbn in Ek0. rewrite <- Ek0. by apply keep_if_spec.
Qed.

Lemma transaction_sets_paid {R} (op : VaultOp R) draws v v' (r : R) res p :
  transaction op draws v = Ok (v', r) → v_pending_paid_issue v' = Some p → ¬ begins_any_paid (VEv op res) →
  v_pending_paid_issue v = Some p.
Proof.
  intros H Hp Hd. op_cases op H; try done. by eapply keep_if_Some.
Qed.

Definition drops_mint (p : PendingMintBatch) (e : VaultEvent) : Prop :=
  match e with
  | VEv op _ =>
      match op with
      | OpReplaceAccount _ | OpClearAll | OpClearTokens => True
      | OpPrune now => mint_recoverable_at p now = false
      | OpCommitMint id _ => id = pm_request_id p
      | _ => False
      end
  | PowerLoss => False
  end.

Definition begins_any_mint (e : VaultEvent) : Prop :=
  match e with VEv op _ => match op with OpBeginMint _ => True | _ => False end | PowerLoss => False end.

Lemma transaction_keeps_mint {R} (op : VaultOp R) draws v v' (r : R) res p :
  transaction op draws v = Ok (v', r) → v_pending_mint v = Some p → ¬ drops_mint p (VEv op res) →
  v_pending_mint v' = Some p.
Proof.
  intros H Hp Hd. op_cases op H; try done.
  apply not_false_is_true in Hd. apply (f_equal fst) in Ek. cbn in Ek. rewrite <- Ek. by apply keep_if_spec.
Qed.

Lemma transaction_sets_mint {R} (op : VaultOp R) draws v v' (r : R) res p :
  transaction op draws v = Ok (v', r) → v_pending_mint v' = Some p → ¬ begins_any_mint (VEv op res) →
  v_pending_mint v = Some p.
Proof.
  intros H Hp Hd. op_cases op H; try done. by eapply keep_if_Some.
Qed.

(** *** Where passes come from *)

Definition offers (t : StoredToken) (e : VaultEvent) : Prop :=
  match e with
  | VEv op _ =>
      match op with
      | OpAdd ts | OpCommitMint _ ts => t ∈ ts
      | OpCommitPaid _ t' => t' = t
      | _ => False
      end
  | PowerLoss => False
  end.

Lemma transaction_origin {R} (op : VaultOp R) draws v v' (r : R) res t :
  transaction op draws v = Ok (v', r) → t ∈ passes v' → t ∈ passes v ∨ offers t (VEv op res).
Proof.
  rewrite !elem_of_passes. intros H Ht. op_cases op H; try (by left); try naive_solver;
    try (rewrite elem_of_app in Ht; naive_solver); try (by destruct Ht as [?%elem_of_nil|(? & ? & _)]).
  - left. destruct Ht as [[_ Ht]%list_elem_of_filter|(p & -> & <-)]; [by left|right].
    exists p. split; [by eapply keep_if_Some|done].
  - rewrite elem_of_app, list_elem_of_singleton in Ht. naive_solver.
  - left. by rewrite El, Eo in Ht.
  - left. left. destruct Ht as [Ht|(q & ? & <-)]; [by right|simplify_eq; by left].
Qed.

Lemma pass_origin tr d v t :
  disk_run fresh_disk tr d → image_of (d_entry d) v → t ∈ passes v → Exists (offers t) tr.
Proof.
  intros H Hi Ht. destruct (disk_run_refines _ _ _ _ fresh_represents H) as (s & Hs & Hr).
  assert (v = vs_now s) as -> by (eapply image_of_inj; [exact Hi|apply Hr]). clear Hi Hr H.
  assert (Hall : Forall (λ v, ∀ t, t ∈ passes v → Exists (offers t) tr) (vs_images s)).
  { clear Ht. remember fresh_state as s0 eqn:E0. induction Hs as [s|s tr s1 e s2 _ IH Hst].
    - subst. constructor; [|constructor]. intros x Hx. by apply elem_of_nil in Hx.
    - specialize (IH E0). apply (step_images _ _ _ _ Hst).
      + intros R op res draws v' r -> Hv _ _ Htr x Hx. apply Exists_app.
        destruct (transaction_origin _ _ _ _ _ res _ Htr Hx) as [Hx'|Ho].
        * apply Forall_inv in IH. left. by apply IH.
        * right. by constructor.
      + eapply Forall_impl; [exact IH|]. intros w Hw x Hx. apply Exists_app. left. auto. }
  apply Forall_inv in Hall. auto.
Qed.

(** *** Migration *)

Lemma regular_file_exists_false e b : regular_file_exists e b = Ok false → e = None.
Proof. destruct e as [f|]; [|done]. unfold regular_file_exists. intros H. inv_ok H. done. Qed.

Lemma remove_legacy_frame ld m out ld' r :
  remove_legacy ld m out = (ld', r) →
  ld_vault ld' = ld_vault ld ∧ (∀ o, r = Ok o → o = out ∧ ld_auth ld' = None ∧ ld_tokens ld' = None).
Proof.
  assert (Hone : ∀ e io e' r', remove_legacy_if_present e io = (e', r') → r' = Ok tt → e' = None).
  { intros e io e' r' H ->. unfold remove_legacy_if_present in H. destruct (regular_file_exists e _) as [[]|] eqn:E; [| |done].
    - destruct (rm_unlink io), (rm_sync io); by injection H as <-.
    - injection H as <-. by eapply regular_file_exists_false. }
  unfold remove_legacy. destruct (remove_legacy_if_present (ld_auth ld) _) as [a ra] eqn:Ea.
  destruct ra as [[]|e]; [|by intros [= <- <-]]. cbn.
  destruct (remove_legacy_if_present (ld_tokens ld) _) as [t rt] eqn:Et. intros [= <- <-]. split; [done|].
  intros o Ho. destruct rt as [[]|e]; [|done]. injection Ho as <-. split_and!; [done|by eapply Hone|by eapply Hone].
Qed.

Lemma migrate_files_frame ld m v out ld' r :
  migrate_files ld m v out = (ld', r) →
  ((ld_auth ld' = ld_auth ld ∧ ld_tokens ld' = ld_tokens ld) ∨
   (image_of (d_entry (ld_vault ld')) v ∧ d_prior (ld_vault ld') = [])) ∧
  (∀ o, r = Ok o → ld_auth ld' = None ∧ ld_tokens ld' = None).
Proof.
  intros H. unfold migrate_files in H.
  destruct (validate _) as [[]|] eqn:Ev; [apply validate_ok in Ev|injection H as <- <-; split; [by left|done]].
  destruct (persist_locked _ _ _) as [d' [[]|]] eqn:Ep; [|injection H as <- <-; split; [by left|done]].
  destruct (load_locked _ _) as [[w dr]|]; [|injection H as <- <-; split; [by left|done]].
  destruct (bool_decide_reflect (w = v)); [|injection H as <- <-; split; [by left|done]].
  destruct (remove_legacy_frame _ _ _ _ _ H) as [Hf Ho]. cbn in Hf.
  destruct (persist_image _ _ _ _ _ Ev Ep) as [[_ [? ?]]|(f & Hi & [[-> _]|[_ ?]])]; [done| |done]. split.
  - right. by rewrite Hf.
  - intros o ->. by destruct (Ho _ eq_refl) as [_ ?].
Qed.

(** Migration loses nothing: the two plaintext files of older clients are touched only once
    the vault durably holds exactly what they said, or when a vault that opens was there before;
    every other outcome, however it fails, leaves both as they were.  A migration reported done
    has removed both. *)
Theorem migration_keeps_credentials ld distinct m ld' r :
  migrate_legacy ld distinct m = (ld', r) →
  ((ld_auth ld' = ld_auth ld ∧ ld_tokens ld' = ld_tokens ld) ∨
   (∃ a t, read_legacy_auth (ld_auth ld) (mg_io m) = Ok a ∧ read_legacy_tokens (ld_tokens ld) (mg_io m) = Ok t ∧
      image_of (d_entry (ld_vault ld')) (legacy_vault a (default [] t)) ∧ d_prior (ld_vault ld') = []) ∨
   (∃ v, vault_load (ld_vault ld) (mg_io m) = Ok v ∧ is_Some (d_entry (ld_vault ld)) ∧ ld_vault ld' = ld_vault ld)) ∧
  (∀ auth n, r = Ok (Migrated auth n) → ld_auth ld' = None ∧ ld_tokens ld' = None).
Proof.
  unfold migrate_legacy. destruct distinct; cbn [negb]; [|intros [= <- <-]; split; [by left|done]].
  destruct (regular_file_exists (d_entry (ld_vault ld)) _) as [[]|] eqn:Ee; [| |intros [= <- <-]; split; [by left|done]].
  - destruct (load_locked _ _) as [[v draws]|] eqn:El; [|intros [= <- <-]; split; [by left|done]].
    intros H. destruct (remove_legacy_frame _ _ _ _ _ H) as [Hf Ho]. split.
    + right. right. exists v. unfold vault_load. rewrite El. split_and!; [done| |done].
      destruct (d_entry (ld_vault ld)); [by eexists|]. by destruct (io_inspect (mg_io m)).
    + intros a n ->. by destruct (Ho _ eq_refl) as [? _].
  - destruct (read_legacy_auth _ _) as [a|] eqn:Ea; [rewrite Ok_bind|intros [= <- <-]; split; [by left|done]].
    destruct (read_legacy_tokens _ _) as [t|] eqn:Et; [rewrite Ok_bind|intros [= <- <-]; split; [by left|done]].
    intros H. assert (Hw : (ld' = ld ∧ ∀ x n, r ≠ Ok (Migrated x n)) ∨ ∃ out, migrate_files ld m (legacy_vault a (default [] t)) out = (ld', r))
      by (destruct a, t; [right; by eexists..|injection H as <- <-; by left]).
    destruct Hw as [[-> Hr]|[out Hm]]; [split; [by left|by intros x n ?%Hr]|].
    destruct (migrate_files_frame _ _ _ _ _ _ Hm) as [[Hk|Hi] Ho]; (split; [|by intros x n ?%Ho]); [by left|].
    right. left. exists a, t. destruct Hi. by split_and!.
Qed.

End Runs.
