(* ===== verification/Interleave.v ===== *)
(** * Interleavings of commands

    Commands of one process ([Prog]) over resources [W]: they start, perform one action at a
    time in any order, end, are dropped, and are all lost when the process restarts.  A history
    records each action with the command that performed it and what that command had done
    before. *)

From S2P Require Import Prelude.
From S2P Require Import Prog.
From stdpp Require Import prelude gmap.

Section Interleave.
Context {action : Type} {answer : action → Type} {Res Cmd W : Type}.
Context (code : Cmd → prog answer Res).
Context (init : W → Prop) (perform : ∀ op, W → W → answer op → Prop) (restart : W → W → Prop).

Inductive Happened :=
  | Started (n : nat) (c : Cmd)
  | Performed (n : nat) (c : Cmd) (before : list (Act answer)) (a : Act answer)
  | Ended (n : nat) (r : Res)
  | Dropped (n : nat)
  | Restarted.

(** A command under way: what it is, what it did, what is left of it. *)
#[local] Abbreviation Live := (gmap nat (Cmd * list (Act answer) * prog answer Res)).

Inductive run : list Happened → W → Live → Prop :=
  | run_init w : init w → run [] w ∅
  | run_start h w live n c :
      run h w live → live !! n = None → run (h ++ [Started n c]) w (<[n := (c, [], code c)]> live)
  | run_act h w live n c l op k w' r :
      run h w live → live !! n = Some (c, l, Do op k) → perform op w w' r →
      run (h ++ [Performed n c l (Acted op r)]) w' (<[n := (c, l ++ [Acted op r], k r)]> live)
  | run_end h w live n c l r :
      run h w live → live !! n = Some (c, l, Ret r) → run (h ++ [Ended n r]) w (delete n live)
  | run_drop h w live n x :
      run h w live → live !! n = Some x → run (h ++ [Dropped n]) w (delete n live)
  | run_restart h w w' live : run h w live → restart w w' → run (h ++ [Restarted]) w' ∅.

(** What is left of a command follows from what it did. *)
Lemma run_trail h w live :
  run h w live →
  (∀ n c l p, live !! n = Some (c, l, p) → trail (code c) l p) ∧
  (∀ n c l a, Performed n c l a ∈ h → ∃ k, trail (code c) l (Do (act_op a) k)).
Proof.
  induction 1 as [w Hw|h w live n c _ [IHl IHh] Hn|h w live n c l op k w' r _ [IHl IHh] Hn Hp
                 |h w live n c l r _ [IHl IHh] Hn|h w live n x _ [IHl IHh] Hn|h w w' live _ [_ IHh] _]; split;
    try (intros m c' l' a [Hin|Hin%list_elem_of_singleton]%elem_of_app; [by eapply IHh|]; try done; simplify_eq; eauto);
    try (intros m c' l' q Hq%lookup_delete_Some; naive_solver);
    try (intros m c' l' q Hq; by rewrite lookup_empty in Hq);
    try (intros m c' l' a Ha; by apply elem_of_nil in Ha).
  - intros m c' l' q [[-> Heq]|[_ Hq]]%lookup_insert_Some; [simplify_eq; constructor|eauto].
  - intros m c' l' q [[-> Heq]|[_ Hq]]%lookup_insert_Some; [|eauto]. simplify_eq.
    apply trail_snoc, (IHl _ _ _ _ Hn).
Qed.

(** What a command did before is in the history before. *)
Lemma run_before h w live :
  run h w live →
  (∀ n c l p, live !! n = Some (c, l, p) → ∀ i a, l !! i = Some a → Performed n c (take i l) a ∈ h) ∧
  (∀ n c l a h1 h2, h = h1 ++ Performed n c l a :: h2 → ∀ i b, l !! i = Some b → Performed n c (take i l) b ∈ h1).
Proof.
  assert (Hsnoc : ∀ (h0 h1 h2 : list Happened) x y,
    h0 ++ [x] = h1 ++ y :: h2 → (h0 = h1 ∧ x = y ∧ h2 = []) ∨ ∃ h3, h2 = h3 ++ [x] ∧ h0 = h1 ++ y :: h3).
  { intros h0 h1 h2 x y E. destruct h2 as [|z h2 _] using rev_ind.
    - apply app_inj_tail in E as [-> ->]. by left.
    - right. exists h2. rewrite app_comm_cons, app_assoc in E. by apply app_inj_tail in E as [-> ->]. }
  induction 1 as [w Hw|h w live n c _ [IHl IHh] Hn|h w live n c l op k w' r _ [IHl IHh] Hn Hp
                 |h w live n c l r _ [IHl IHh] Hn|h w live n x _ [IHl IHh] Hn|h w w' live _ [_ IHh] _]; split;
    try (intros m c' l' a h1 h2 [(<- & ? & _)|(h3 & _ & E)]%Hsnoc; [simplify_eq; by eapply IHl|by eapply IHh]);
    try (intros m c' l' q Hq%lookup_delete_Some i a Hi; apply elem_of_app; left; naive_solver);
    try (intros m c' l' q Hq; by rewrite lookup_empty in Hq).
  - intros n c l a h1 h2 E. by destruct h1.
  - intros m c' l' q [[-> Heq]|[_ Hq]]%lookup_insert_Some i a Hi; apply elem_of_app; [by simplify_eq|left; eauto].
  - intros m c' l' q [[-> Heq]|[_ Hq]]%lookup_insert_Some i a Hi; apply elem_of_app; [simplify_eq|left; eauto].
    destruct (decide (i < length l)) as [Hlt|Hge].
    + rewrite lookup_app_l in Hi by done. rewrite take_app_le by lia. left. eauto.
    + rewrite lookup_app_r in Hi by lia. assert (i = length l) as ->
        by (apply lookup_lt_Some in Hi; cbn in Hi; lia).
      rewrite Nat.sub_diag in Hi. injection Hi as <-. rewrite take_app_length. right. by apply list_elem_of_singleton.
Qed.

(** A guarantee of every command, under what is known of every answer, holds of every action. *)
Lemma run_guarantee (rely : Act answer → Prop) (guar : Cmd → list (Act answer) → action → Prop) h w live :
  (∀ op w w' r, perform op w w' r → rely (Acted op r)) →
  (∀ c, rg rely (guar c) [] (code c) (λ _ _, True)) →
  run h w live → ∀ n c l a, Performed n c l a ∈ h → guar c l (act_op a) ∧ Forall rely l ∧ rely a.
Proof.
  intros Hrely Hcode Hrun.
  assert (Hr : ∀ n c l a, Performed n c l a ∈ h → rely a).
  { clear Hcode. induction Hrun as [|h w live n c _ IH Hn|h w live n c l op k w' r _ IH Hn Hp| | |]; intros m c' l' a;
      try (intros [Hin|Hin%list_elem_of_singleton]%elem_of_app; [by eapply IH|try done; try naive_solver]);
      try (intros Hin; by apply elem_of_nil in Hin); try (intros [Hin|Hin%list_elem_of_singleton]%elem_of_app; [eauto|done]). }
  destruct (run_trail _ _ _ Hrun) as [_ Ht]. destruct (run_before _ _ _ Hrun) as [_ Hb].
  intros n c l a Hin. destruct (Ht _ _ _ _ Hin) as [k Hk].
  assert (Hl : Forall rely l).
  { apply Forall_lookup. intros i b Hi. apply list_elem_of_split in Hin as (h1 & h2 & ->).
    eapply Hr. apply elem_of_app. left. by eapply Hb. }
  split_and!; [|done|by eapply Hr]. exact (proj1 (rg_trail _ _ _ _ _ _ (Hcode c) Hk Hl)).
Qed.

(** ** One command on its own *)

(** Run what is left of a command, answering each action from [env]. *)
Section Alone.
Context (env : ∀ op, W → W * answer op) (Henv : ∀ op w, perform op w (env op w).1 (env op w).2).

Fixpoint drive (n : nat) (c : Cmd) (l : list (Act answer)) (p : prog answer Res) (w : W) : list Happened * W * Res :=
  match p with
  | Ret r => ([Ended n r], w, r)
  | Do op k =>
      let a := env op w in
      let '(h, w', r) := drive n c (l ++ [Acted op a.2]) (k a.2) a.1 in
      (Performed n c l (Acted op a.2) :: h, w', r)
  end.

Lemma drive_run n c p l h w live h' w' r :
  run h w live → live !! n = Some (c, l, p) → drive n c l p w = (h', w', r) → run (h ++ h') w' (delete n live).
Proof.
  revert l h w live h'. induction p as [x|op k IH]; intros l h w live h' Hr Hn; cbn [drive].
  - intros [= <- <- <-]. by eapply run_end.
  - destruct (env op w) as [w1 a] eqn:Ee. cbn. pose proof (Henv op w) as Hp. rewrite Ee in Hp. cbn in Hp.
    destruct (drive n c (l ++ [Acted op a]) (k a) w1) as [[h1 w2] x] eqn:Ed. intros [= <- <- <-].
    rewrite cons_middle, app_assoc. rewrite <- (delete_insert_eq live n (c, l ++ [Acted op a], k a)).
    eapply IH; [by eapply run_act|by apply lookup_insert_eq|exact Ed].
Qed.

(** The history of a command run from its start. *)
Definition alone (n : nat) (c : Cmd) (w : W) : list Happened * W * Res :=
  let '(h, w', r) := drive n c [] (code c) w in (Started n c :: h, w', r).

Lemma alone_run n c h w h' w' r : run h w ∅ → alone n c w = (h', w', r) → run (h ++ h') w' ∅.
Proof.
  unfold alone. intros Hr. destruct (drive n c [] (code c) w) as [[h1 w1] x] eqn:E. intros [= <- <- <-].
  rewrite cons_middle, app_assoc. rewrite <- (delete_insert_id ∅ n (c, [], code c)) by apply lookup_empty.
  eapply drive_run; [by apply run_start; [|apply lookup_empty]|apply lookup_insert_eq|exact E].
Qed.

Lemma alone_run_eq n c h w : run h w ∅ → run (h ++ (alone n c w).1.1) (alone n c w).1.2 ∅.
Proof. intros Hr. destruct (alone n c w) as [[h' w'] r] eqn:E. by eapply alone_run. Qed.

End Alone.

End Interleave.

Arguments Happened {action} answer Res Cmd.
