(* ===== verification/Wallet.v ===== *)
(** * The client's wallet ([client/src-tauri/src/tokens.rs], [tokenrefill.rs], the credential
    commands of [lib.rs])

    Buying and minting passes, and spending one on a connection, as programs ([Prog]) over the
    vault ([Vault]), the portal's answers, the clock and the entropy source.  The mutex that
    serialises credential operations is an action without effect: what is proved holds of every
    interleaving, and so of those the mutex allows. *)

From S2P Require Import Prelude.
From S2P Require Import Text.
From S2P Require Import Crypto.
From S2P Require Import Env.
From S2P Require Import Token.
From S2P Require Import Prog.
From S2P Require Import Portal.
From S2P Require Import Vault.
From Stdlib Require Import Strings.Byte ZArith Lia.
From stdpp Require Import prelude gmap strings.

Local Open Scope Z_scope.
Local Open Scope prog_scope.

(** [TokenError], and the texts of [tokenrefill.rs] and [lib.rs] as constructors.  [Panicked] is an
    unwinding command: it ends there. *)
Inductive WalletError :=
  | PaymentNotConfirmed | IssuerRejected (code : Z) | NotSubscribed | UnexpectedIssuerKey | Unreachable | UnsafeUrl
  | BadCrypto | InvalidBatchSize (n : nat) | BatchLengthMismatch (expected actual : nat)
  | Storage (e : VaultError) | WrongMintRequest | WrongPaidIssue | Panicked
  | ClockUnavailable | ReferenceTooLong | NoPrivilege | PassesInPreparation | LeakGuardFailed
  | NoReservation | EngineFailed | CompletionNotStored (e : VaultError)
  | UnsupportedProfile | NoCoordinator | NoPath | NativeFailed | NativeBusy | NativeWasDead | NativeInvalid
  | NoConsent | NativeMismatch | NativeUnbound.

(** The answer to a request: no answer, a refusing status, a body that does not parse, a body. *)
Inductive Reply (A : Type) := NetDown | Status (code : Z) | BadBody | Body (a : A).
Arguments NetDown {A}.
Arguments Status {A}.
Arguments BadBody {A}.
Arguments Body {A}.

(** [net_err] after [error_for_status] and [json]. *)
Definition fetched {A} (r : Reply A) : result WalletError A :=
  match r with
  | NetDown | BadBody => Err Unreachable
  | Status code => Err (IssuerRejected code)
  | Body a => Ok a
  end.

(** A status the caller maps itself. *)
Definition answered {A} (refused : Z → WalletError) (r : Reply A) : result WalletError A :=
  match r with
  | NetDown | BadBody => Err Unreachable
  | Status code => Err (refused code)
  | Body a => Ok a
  end.

(** ** The issuer keys a client accepts ([trust.rs]) *)

Record IssuerPins := { ip_keys : list bytes; ip_required : bool }.

Definition trust_decode_hex (value : bytes) : option bytes :=
  if bool_decide (value = []) || negb (Nat.even (length value)) || negb (forallb (λ c, bool_decide (is_Some (nib c))) value)
  then None else decode_pairs nib value.

Definition keep_new (keys : list bytes) (k : option bytes) : list bytes :=
  match k with Some k => if bool_decide (k ∈ keys) then keys else keys ++ [k] | None => keys end.

Definition parse_hex_list_permissive (value : bytes) : list bytes :=
  foldl keep_new [] (trust_decode_hex <$> filter (λ s, s ≠ []) (trim <$> split_on x2c value)).

Definition intersection (embedded configured : list bytes) : list bytes :=
  filter (λ root, root ∈ configured) embedded.

(** [embedded] is the release bundle, [env_value] the variable [NW_TOKEN_ISSUER_PUBKEYS]. *)
Definition effective_issuer_pins (embedded : option (list bytes)) (env_value : option bytes) : IssuerPins :=
  let env_keys := match env_value with Some v => parse_hex_list_permissive v | None => [] end in
  match embedded with
  | None => {| ip_keys := env_keys; ip_required := negb (bool_decide (env_keys = [])) |}
  | Some roots =>
      if match env_value with Some v => bool_decide (trim v = []) | None => true end
      then {| ip_keys := roots; ip_required := true |}
      else {| ip_keys := intersection roots env_keys; ip_required := true |}
  end.

(** ** Actions *)

(** [NativeVpnStatus]. *)
Record NativeVpnStatus := { nv_state : bytes; nv_reservation_id : option bytes }.

Inductive WalletOp :=
  | OnVault {R} (op : VaultOp R)
  | Now
  | MessageEntropy                                  (* the clock and the draws of one batch of messages *)
  | BlindingEntropy
  | RequestId
  | GetPubkey
  | PostIssue (r : IssueRequest)
  | PostChallenge
  | PostStatus (a : AccountAuth)
  | PostMint (m : MintBatchRequest)
  | Preflight
  | ArmLeakGuard
  | EngineConnect (token : option StoredToken)
  | EngineDisconnect
  | NativeStatus
  | NativePrepare
  | NativeStart (reservation_id : bytes)
  | NativeStop
  | ResolveStart (token : StoredToken)              (* redeem it: [resolve_start_args] *)
  | LockLifecycle
  | LockGate
  | BumpGeneration
  | Generation.

Definition wanswer (op : WalletOp) : Type :=
  match op with
  | @OnVault R _ => result VaultError R
  | Now => option Z
  | MessageEntropy => option Z * (nat → option bytes)
  | BlindingEntropy => bytes
  | RequestId => option bytes
  | GetPubkey => Reply bytes
  | PostIssue _ => Reply bytes
  | PostChallenge => Reply bytes
  | PostStatus _ => Reply unit
  | PostMint _ => Reply (list bytes)
  | Preflight | ArmLeakGuard | EngineConnect _ | NativeStart _ | NativeStop | ResolveStart _ => bool
  | NativeStatus => option NativeVpnStatus
  | NativePrepare => option bool
  | EngineDisconnect | LockLifecycle | LockGate | BumpGeneration => unit
  | Generation => Z
  end.

Abbreviation wprog := (prog wanswer).
Definition ask (op : WalletOp) : wprog (wanswer op) := call op.

Definition stored {R} (op : VaultOp R) : wprog (result WalletError R) :=
  prog_map (map_err Storage) (ask (OnVault op)).

Section Wallet.
Context `{Hsha : Sha256, Hed : Ed25519, Hrsa : BlindRsa}.

(** [TokenClient]: whether the URL passes the policy, and the issuer pins. *)
Record TokenClient := {
  tc_url_safe : bool;
  tc_pinned_issuer_keys : list bytes;
  tc_issuer_pin_required : bool;
}.

(** [TokenClient::with_base_url]. *)
Definition with_base_url (url_safe : bool) (pins : IssuerPins) : TokenClient := {|
  tc_url_safe := url_safe; tc_pinned_issuer_keys := ip_keys pins; tc_issuer_pin_required := ip_required pins |}.

Context (tc : TokenClient).

Definition check_issuer_pubkey (pubkey_der : bytes) : result WalletError unit :=
  if negb (tc_issuer_pin_required tc) then Ok tt
  else ensure (bool_decide (pubkey_der ∈ tc_pinned_issuer_keys tc)) UnexpectedIssuerKey.

(** [from_hex(..).ok_or(..)?] on text from the network. *)
Definition hex_or_error (s : bytes) : result WalletError bytes :=
  match text_from_hex s with Decoded b => Ok b | NotHex => Err BadCrypto | Panics => Err Panicked end.

(** *** Blinding state and its stored form *)

Definition from_token_request (r : TokenRequest) : PendingBlindRequest :=
  let p := export_persisted r in
  {| pb_blind_msg := to_hex_fmt (p_blind_msg p); pb_msg := to_hex_fmt (p_msg p); pb_secret := to_hex_fmt (p_secret p);
     pb_msg_randomizer := to_hex_fmt <$> p_msg_randomizer p |}.

Definition token_request (r : PendingBlindRequest) : result WalletError TokenRequest :=
  randomizer ← match pb_msg_randomizer r with
               | None => Ok None
               | Some x => b ← hex_or_error x; _ ← ensure (length b =? 32)%nat BadCrypto; Ok (Some b)
               end;
  blind_msg ← hex_or_error (pb_blind_msg r);
  msg ← hex_or_error (pb_msg r);
  secret ← hex_or_error (pb_secret r);
  map_err (λ _, BadCrypto) (from_persisted
    {| p_blind_msg := blind_msg; p_msg := msg; p_secret := secret; p_msg_randomizer := randomizer |}).

Definition token_requests (p : PendingMintBatch) : result WalletError (list TokenRequest) :=
  result_mapM token_request (pm_requests p).

(** Fetch and check the issuer's key. *)
Definition fetch_pubkey : wprog (result WalletError bytes) :=
  let* r := ask GetPubkey in
  Ret (pk ← fetched r;
       pubkey_der ← hex_or_error pk;
       _ ← check_issuer_pubkey pubkey_der;
       Ok pubkey_der).

(** [messages.iter().map(blind).collect()]. *)
Fixpoint blind_all (pubkey_der : bytes) (messages : list bytes) : wprog (result WalletError (list TokenRequest)) :=
  match messages with
  | [] => Ret (Ok [])
  | m :: messages =>
      let* rnd := ask BlindingEntropy in
      match blind pubkey_der rnd m with
      | Err _ => Ret (Err BadCrypto)
      | Ok r => let+ rs := blind_all pubkey_der messages in Ret (Ok (r :: rs))
      end
  end.

(** [new_v2_message_batch(count)] and the blinding of each message. *)
Definition prepare (pubkey_der : bytes) (count : nat) : wprog (result WalletError (list TokenRequest)) :=
  let* drawn := ask MessageEntropy in
  let+ messages := lift (map_err (λ _, BadCrypto) (new_v2_message_batch drawn.1 drawn.2 count)) in
  blind_all pubkey_der messages.

(** *** One pass for one payment *)

Definition issue_refused (code : Z) : WalletError :=
  if code =? 402 then PaymentNotConfirmed else if code =? 409 then WrongPaidIssue else IssuerRejected code.

Definition pending_or_propose (payment_id : bytes) (existing : option PendingPaidIssue) :
    wprog (result WalletError PaidIssueBegin) :=
  match existing with
  | Some pending => Ret (Ok (PaidPending pending))
  | None =>
      let+ pubkey_der := fetch_pubkey in
      let+ requests := prepare pubkey_der 1 in
      match requests with
      | [request] =>
          let proposed := {| pp_payment_id := payment_id; pp_issuer_public_der := to_hex_fmt pubkey_der;
                             pp_request := from_token_request request |} in
          let+ _ := lift (map_err (λ _, BadCrypto) (paid_issue_validate proposed)) in
          stored (OpBeginPaid proposed)
      | _ => Ret (Err BadCrypto)
      end
  end.

Definition acquire_into_store (payment_id : bytes) : wprog (result WalletError nat) :=
  if negb (payment_reference_ok payment_id) then Ret (Err BadCrypto)
  else if negb (tc_url_safe tc) then Ret (Err UnsafeUrl)
  else
    let+ v := stored OpLoad in
    if paid_issue_completed payment_id v then let+ v := stored OpLoad in Ret (Ok (count v))
    else
      let+ v := stored OpLoad in
      let+ begun := pending_or_propose payment_id (v_pending_paid_issue v) in
      match begun with
      | PaidCompleted token_count => Ret (Ok token_count)
      | PaidPending pending =>
          if negb (constant_time_id_eq (pp_payment_id pending) payment_id) then Ret (Err WrongPaidIssue)
          else
            let+ _ := lift (map_err (λ _, BadCrypto) (paid_issue_validate pending)) in
            let+ pubkey_der := lift (hex_or_error (pp_issuer_public_der pending)) in
            let+ _ := lift (check_issuer_pubkey pubkey_der) in
            let+ request := lift (token_request (pp_request pending)) in
            let* reply := ask (PostIssue {| iq_payment_id := pp_payment_id pending;
                                            iq_blind_msg := pb_blind_msg (pp_request pending) |}) in
            let+ issued := lift (answered issue_refused reply) in
            let+ blind_sig := lift (hex_or_error issued) in
            let+ signature := lift (map_err (λ _, BadCrypto) (finalize pubkey_der request blind_sig)) in
            stored (OpCommitPaid payment_id {| st_msg := pb_msg (pp_request pending); st_token := to_hex_fmt signature |})
      end.

(** *** A batch for a subscription *)

(** [account.rs]: the proof of account ownership. *)
Definition parse_hex32 (s : bytes) : option bytes := if negb (length s =? 64)%nat then None else from_hex s.

Definition auth_proof (m : AccountAuthMaterial) : wprog (result WalletError AccountAuth) :=
  let* reply := ask PostChallenge in
  Ret (challenge ← answered (λ _, Unreachable) reply;
       seed ← ok_or (parse_hex32 (am_auth_seed m)) BadCrypto;
       Ok {| aa_account_number := am_account_number m; aa_challenge := challenge;
             aa_signature := to_hex_fmt (sig_to_bytes (ed_sign (sk_from_bytes seed) challenge)) |}).

Definition mint_refused (code : Z) : WalletError :=
  if code =? 402 then NotSubscribed else if code =? 409 then WrongMintRequest else IssuerRejected code.

(** The loop of [finalize_mint_batch]. *)
Fixpoint finalize_all (pubkey_der : bytes) (pairs : list (TokenRequest * bytes)) : result WalletError (list StoredToken) :=
  match pairs with
  | [] => Ok []
  | (request, sig_hex) :: pairs =>
      _ ← ensure (is_exact_lower_hex sig_hex BLIND_TOKEN_HEX_LEN) BadCrypto;
      blind_sig ← hex_or_error sig_hex;
      token ← map_err (λ _, BadCrypto) (finalize pubkey_der request blind_sig);
      rest ← finalize_all pubkey_der pairs;
      Ok ({| st_msg := to_hex_fmt (req_msg request); st_token := to_hex_fmt token |} :: rest)
  end.

Definition finalize_mint_batch (pubkey_der : bytes) (requests : list TokenRequest) (blind_sigs : list bytes) :
    result WalletError (list StoredToken) :=
  _ ← ensure (length blind_sigs =? length requests)%nat (BatchLengthMismatch (length requests) (length blind_sigs));
  finalize_all pubkey_der (zip requests blind_sigs).

Definition mint_pending (material : AccountAuthMaterial) (n : nat) (existing : option PendingMintBatch) :
    wprog (result WalletError PendingMintBatch) :=
  match existing with
  | Some pending => Ret (Ok pending)
  | None =>
      let+ pubkey_der := fetch_pubkey in
      let+ requests := prepare pubkey_der n in
      let* id := ask RequestId in
      let+ id := lift (ok_or id BadCrypto) in
      let proposed := {| pm_request_id := to_hex_fmt id; pm_account_number := am_account_number material;
                         pm_issuer_public_der := to_hex_fmt pubkey_der;
                         pm_requests := from_token_request <$> requests |} in
      let+ _ := lift (map_err (λ _, BadCrypto) (mint_batch_validate proposed)) in
      stored (OpBeginMint proposed)
  end.

(** The request identifier and the finished passes; the caller commits them. *)
Definition mint_batch_into_store (material : AccountAuthMaterial) (n : nat) :
    wprog (result WalletError (bytes * list StoredToken)) :=
  if negb ((1 <=? n)%nat && (n <=? MAX_MINT_BATCH_SIZE)%nat) then Ret (Err (InvalidBatchSize n))
  else if negb (tc_url_safe tc) then Ret (Err UnsafeUrl)
  else
    let+ v := stored OpLoad in
    let+ pending := mint_pending material n (v_pending_mint v) in
    if negb (bool_decide (pm_account_number pending = am_account_number material)) then Ret (Err WrongMintRequest)
    else
      let+ _ := lift (map_err (λ _, BadCrypto) (mint_batch_validate pending)) in
      let+ pubkey_der := lift (hex_or_error (pm_issuer_public_der pending)) in
      let+ _ := lift (check_issuer_pubkey pubkey_der) in
      let+ requests := lift (token_requests pending) in
      let+ blind_msgs := lift (map_err (λ _, InvalidBatchSize (length requests))
                               (batch_try_from ((λ r, to_hex_fmt (req_blind_msg r)) <$> requests))) in
      let+ auth := auth_proof material in
      let* reply := ask (PostMint {| mb_auth := auth; mb_request_id := pm_request_id pending; mb_blind_msgs := blind_msgs |}) in
      let+ issued := lift (answered mint_refused reply) in
      let+ tokens := lift (finalize_mint_batch pubkey_der requests issued) in
      Ret (Ok (pm_request_id pending, tokens)).

(** ** Commands *)

Definition REFILL_TARGET : nat := 8.
Definition REFILL_LOW_WATERMARK : nat := 3.

Definition refill_batch_size (current : nat) : option nat :=
  if (current <=? REFILL_LOW_WATERMARK)%nat then
    let n := (REFILL_TARGET - current)%nat in if (0 <? n)%nat then Some n else None
  else None.

(** [prune_expired(&store)] of [tokenrefill.rs]. *)
Definition prune_now : wprog (result WalletError nat) :=
  let* now := ask Now in
  let+ now := lift (ok_or now ClockUnavailable) in
  stored (OpPrune now).

Definition refill_once : wprog (result WalletError nat) :=
  let* _ := ask LockGate in
  let* generation := ask Generation in
  let+ _ := prune_now in
  let+ v := stored OpLoad in
  match refill_batch_size (count v) with
  | None => Ret (Ok 0%nat)
  | Some batch_size =>
      let+ v := stored OpLoad in
      match v_auth v with
      | None => Ret (Ok 0%nat)
      | Some material =>
          let+ minted := mint_batch_into_store material batch_size in
          let* g := ask Generation in
          if negb (g =? generation) then Ret (Ok 0%nat)
          else
            let+ v := stored OpLoad in
            if negb (bool_decide (v_auth v = Some material)) then Ret (Ok 0%nat)
            else stored (OpCommitMint minted.1 minted.2)
      end
  end.

Definition buy_tokens (payment_id : bytes) : wprog (result WalletError nat) :=
  if (MAX_PAYMENT_REFERENCE_LEN <? length payment_id)%nat then Ret (Err ReferenceTooLong)
  else
    let* _ := ask LockGate in
    let+ _ := prune_now in
    acquire_into_store payment_id.

(** [begin_account_change], then one transaction. *)
Definition change_account (op : VaultOp unit) : wprog (result WalletError nat) :=
  let* _ := ask BumpGeneration in
  let* _ := ask LockGate in
  let+ _ := stored op in
  Ret (Ok 0%nat).

Definition logout : wprog (result WalletError nat) := change_account OpClearAll.

(** [confirm_anonymous_account] and [recover_account], past the derivation from the phrase. *)
Definition confirm_account (m : AccountAuthMaterial) (account_number : bytes) : wprog (result WalletError nat) :=
  if negb (bool_decide (am_account_number m = account_number)) then Ret (Err BadCrypto)
  else change_account (OpReplaceAccount m).

Definition recover_account (m : AccountAuthMaterial) : wprog (result WalletError nat) :=
  if negb (tc_url_safe tc) then Ret (Err UnsafeUrl)
  else
    let+ auth := auth_proof m in
    let* reply := ask (PostStatus auth) in
    let+ _ := lift (answered (λ _, Unreachable) reply) in
    change_account (OpReplaceAccount m).

(** [connect], with what the configuration says. *)
Record ConnectConfig := {
  cf_coordinator_configured : bool;
  cf_coordinator_safe : bool;
  cf_datapath_configured : bool;
}.

Definition spend_reservation (reservation : option TokenReservation) : wprog (result WalletError nat) :=
  match reservation with
  | None => Ret (Err NoReservation)
  | Some r =>
      let* done_ := ask (OnVault (OpCommitRedemption (tr_reservation_id r))) in
      match done_ with
      | Err e => let* _ := ask EngineDisconnect in Ret (Err (CompletionNotStored e))
      | Ok _ => let* _ := ask (OnVault OpLoad) in Ret (Ok 0%nat)
      end
  end.

(** From the reservation on. *)
Definition connect_armed (cf : ConnectConfig) : wprog (result WalletError nat) :=
  let+ reservation := (if cf_coordinator_configured cf then stored OpReserve else Ret (Ok None)) in
  let* up := ask (EngineConnect (tr_token <$> reservation)) in
  if negb up then Ret (Err EngineFailed)
  else if cf_coordinator_configured cf then spend_reservation reservation
  else Ret (Ok 0%nat).

Definition no_pass_left (cf : ConnectConfig) : wprog (result WalletError bool) :=
  if cf_coordinator_configured cf then let+ v := stored OpLoad in Ret (Ok (count v =? 0)%nat) else Ret (Ok false).

Definition connect (cf : ConnectConfig) : wprog (result WalletError nat) :=
  if cf_coordinator_configured cf && negb (cf_coordinator_safe cf) then Ret (Err UnsafeUrl)
  else
    let* privileged := (if cf_datapath_configured cf then ask Preflight else Ret true) in
    if negb privileged then Ret (Err NoPrivilege)
    else
      let+ _ := prune_now in
      let+ empty := no_pass_left cf in
      if empty then Ret (Err PassesInPreparation)
      else
        let* armed := ask ArmLeakGuard in
        if negb armed then Ret (Err LeakGuardFailed) else connect_armed cf.

(** *** The native engines of the mobile clients *)

(** Completing the reservation the tunnel came up under; [request_refill_if_low_best_effort] reads
    the count and swallows an error. *)
Definition commit_native (reservation_id : bytes) : wprog (result WalletError nat) :=
  let* done_ := ask (OnVault (OpCommitRedemption reservation_id)) in
  match done_ with
  | Err e => let* _ := ask NativeStop in Ret (Err (CompletionNotStored e))
  | Ok _ => let* _ := ask (OnVault OpLoad) in Ret (Ok 1%nat)
  end.

Definition extension_connection_status (reservation_id : bytes) : wprog (result WalletError nat) :=
  let* _ := ask LockLifecycle in
  let* status := ask NativeStatus in
  match status with
  | None => Ret (Err NativeFailed)
  | Some status =>
      if bool_decide (nv_state status = str "connecting") || bool_decide (nv_state status = str "up") then
        if negb (bool_decide (nv_reservation_id status = Some reservation_id))
        then let* _ := ask NativeStop in Ret (Err NativeMismatch)
        else if bool_decide (nv_state status = str "connecting") then Ret (Ok 0%nat)
        else commit_native reservation_id
      else if bool_decide (nv_state status = str "down") || bool_decide (nv_state status = str "dead") then Ret (Ok 0%nat)
      else let* _ := ask NativeStop in Ret (Err NativeInvalid)
  end.

(** [extension_status]: what a restarted application finds. *)
Definition extension_status : wprog (result WalletError nat) :=
  let* _ := ask LockLifecycle in
  let* status := ask NativeStatus in
  match status with
  | None => Ret (Err NativeFailed)
  | Some status =>
      let bound := λ b, bool_decide (nv_reservation_id status = Some (rb_reservation_id b)) in
      if bool_decide (nv_state status = str "up") then
        let+ v := stored OpLoad in
        match redemption_binding v with
        | None => let* _ := ask NativeStop in Ret (Err NativeUnbound)
        | Some b =>
            if negb (bound b) then let* _ := ask NativeStop in Ret (Err NativeMismatch)
            else if rb_pending b then commit_native (rb_reservation_id b) else Ret (Ok 1%nat)
        end
      else if bool_decide (nv_state status = str "connecting") then
        let+ v := stored OpLoad in
        match redemption_binding v with
        | None => let* _ := ask NativeStop in Ret (Err NativeUnbound)
        | Some b =>
            if negb (rb_pending b) || negb (bound b) then let* _ := ask NativeStop in Ret (Err NativeMismatch)
            else Ret (Ok 0%nat)
        end
      else if bool_decide (nv_state status = str "down") || bool_decide (nv_state status = str "dead") then Ret (Ok 0%nat)
      else Ret (Err NativeInvalid)
  end.

Definition extension_disconnect : wprog (result WalletError nat) :=
  let* _ := ask LockLifecycle in
  let* stopped := ask NativeStop in
  Ret (if stopped then Ok 0%nat else Err NativeFailed).

(** [supported]: the build allows the single hop the native engines have. *)
Definition prepare_extension_start (cf : ConnectConfig) (supported : bool) : wprog (result WalletError bytes) :=
  if negb supported then Ret (Err UnsupportedProfile)
  else if negb (cf_coordinator_configured cf) then Ret (Err NoCoordinator)
  else if negb (cf_coordinator_safe cf) then Ret (Err UnsafeUrl)
  else
    let+ _ := prune_now in
    let+ reservation := stored OpReserve in
    match reservation with
    | None => Ret (Err PassesInPreparation)
    | Some r =>
        let* resolved := ask (ResolveStart (tr_token r)) in
        if negb resolved then Ret (Err NoPath) else Ret (Ok (tr_reservation_id r))
    end.

Definition extension_connect (cf : ConnectConfig) (supported : bool) : wprog (result WalletError nat) :=
  let* _ := ask LockLifecycle in
  let* current := ask NativeStatus in
  match current with
  | None => Ret (Err NativeFailed)
  | Some current =>
      if bool_decide (nv_state current = str "connecting") || bool_decide (nv_state current = str "up")
      then Ret (Err NativeBusy)
      else if bool_decide (nv_state current = str "dead")
      then let* stopped := ask NativeStop in Ret (Err (if stopped then NativeWasDead else NativeFailed))
      else if negb (bool_decide (nv_state current = str "down")) then Ret (Err NativeInvalid)
      else
        let* preparation := ask NativePrepare in
        match preparation with
        | None => Ret (Err NativeFailed)
        | Some false => Ret (Err NoConsent)
        | Some true =>
            let+ reservation_id := prepare_extension_start cf supported in
            let* started := ask (NativeStart reservation_id) in
            if started then Ret (Ok 0%nat) else let* _ := ask NativeStop in Ret (Err NativeFailed)
        end
  end.

Inductive Command :=
  | CBuy (payment_id : bytes)
  | CRefill
  | CLogout
  | CConfirm (m : AccountAuthMaterial) (account_number : bytes)
  | CRecover (m : AccountAuthMaterial)
  | CConnect (cf : ConnectConfig)
  | CExtensionConnect (cf : ConnectConfig) (supported : bool)
  | CExtensionStatus (reservation_id : bytes)
  | CExtensionReconcile
  | CExtensionDisconnect.

Definition command (c : Command) : wprog (result WalletError nat) :=
  match c with
  | CBuy payment_id => buy_tokens payment_id
  | CRefill => refill_once
  | CLogout => logout
  | CConfirm m account_number => confirm_account m account_number
  | CRecover m => recover_account m
  | CConnect cf => connect cf
  | CExtensionConnect cf supported => extension_connect cf supported
  | CExtensionStatus reservation_id => extension_connection_status reservation_id
  | CExtensionReconcile => extension_status
  | CExtensionDisconnect => extension_disconnect
  end.

End Wallet.
