(* ===== verification/WalletRuns.v ===== *)
(** * Runs of the wallet

    The commands of [Wallet] in every interleaving, over the vault's file: any network answer, any
    system call failing, commands abandoned, power lost.  A killed process is the abandonment of
    all its commands. *)

From S2P Require Import Prelude.
From S2P Require Import Text.
From S2P Require Import Crypto.
From S2P Require Import Env.
From S2P Require Import Token.
From S2P Require Import Prog.
From S2P Require Import Interleave.
From S2P Require Import Portal.
From S2P Require Import ClientPath.
From S2P Require Import Vault.
From S2P Require Import VaultRuns.
From S2P Require Import Wallet.
From Stdlib Require Import Strings.Byte ZArith Lia.
From stdpp Require Import prelude gmap strings.

Local Open Scope Z_scope.

(** ** Hex text *)

Lemma lower_not_plus c : is_lower_hex c = true → bool_decide (c = x2b) = false ∧ in_range 128 191 c = false.
Proof.
  unfold is_lower_hex, is_ascii_digit. rewrite orb_true_iff, !in_range_iff. intros Hc. split.
  - apply bool_decide_eq_false. intros ->. change (b2z x2b) with 43 in Hc. lia.
  - destruct (in_range 128 191 c) eqn:E; [|done]. apply in_range_iff in E. lia.
Qed.

Lemma decode_text_to_hex l : decode_text (to_hex l) = Decoded l.
Proof.
  induction l as [|b l IH]; [done|]. pose proof (to_hex_lower (b :: l)) as Hl. rewrite to_hex_cons in Hl |- *.
  apply Forall_cons in Hl as [Hx [Hy Hl]%Forall_cons]. cbn [decode_text]. rewrite IH.
  assert (inside_char (to_hex l) = false) as ->.
  { destruct (to_hex l) as [|c s]; [done|]. apply Forall_cons in Hl as [Hc _]. by apply lower_not_plus. }
  unfold radix16_pair. rewrite (proj1 (lower_not_plus _ Hx)). pose proof (b2z_range b).
  rewrite !nib_hex_digit by (split; [apply Z.div_pos || apply Z.mod_pos_bound|apply Z.div_lt_upper_bound || apply Z.mod_pos_bound]; lia).
  cbn [mbind option_bind]. rewrite Z.mul_comm, <- Z.div_mod by lia. by rewrite z2b_b2z.
Qed.

Lemma text_from_hex_to_hex l : text_from_hex (to_hex l) = Decoded l.
Proof.
  unfold text_from_hex. rewrite hex_trim, length_to_hex, Nat.mul_comm.
  rewrite (proj2 (Nat.even_spec _)) by (by exists (length l)). cbn [negb]. apply decode_text_to_hex.
Qed.

(** Lowercase text of a known length decodes, and back. *)
Lemma hex_text_decodes n s : hex_text (n * 2) s → ∃ b, s = to_hex b ∧ length b = n ∧ text_from_hex s = Decoded b.
Proof.
  intros [Hl Hs]. destruct (to_hex_from_hex s) as (b & _ & <-).
  - rewrite Hl, Nat.mul_comm. apply Nat.even_spec. by exists n.
  - by apply forallb_Forall_true.
  - rewrite length_to_hex in Hl. exists b. split_and!; [done|lia|apply text_from_hex_to_hex].
Qed.

Lemma hex_or_error_ok s b : hex_or_error s = Ok b ↔ text_from_hex s = Decoded b.
Proof. unfold hex_or_error. destruct (text_from_hex s); split; congruence. Qed.

(** ** Runs *)

Definition act_event (a : Act wanswer) : list VaultEvent :=
  match a with
  | Acted op r =>
      match op return wanswer op → list VaultEvent with @OnVault R op => λ r, [VEv op r] | _ => λ _, [] end r
  end.

Section Perform.
Context `{Hsha : Sha256, Hjson : VaultJson, Hseal : PlatformSealer}.

(** A vault operation is what it does to the file; everything else leaves the file alone and may
    answer anything. *)
Definition wallet_perform (op : WalletOp) (d d' : VaultDisk) : wanswer op → Prop :=
  match op return wanswer op → Prop with
  | @OnVault R op => λ r, ∃ io, draws_ok (io_draws io) ∧ vault_op op d io = (d', r)
  | _ => λ _, d' = d
  end.

Definition power_loss (d d' : VaultDisk) : Prop :=
  ∃ e, e ∈ d_entry d :: d_prior d ∧ d' = {| d_entry := e; d_prior := [] |}.

End Perform.

Abbreviation Event := (Happened wanswer (result WalletError nat) Command).
Abbreviation wallet_runs tc := (run (command tc) (λ d, d = fresh_disk) wallet_perform power_loss).

Section Runs.
Context `{Hsha : Sha256, Hed : Ed25519, Hrsa : BlindRsa}.
Context `{Hjson : VaultJson, HjsonL : !VaultJsonLaws, Hseal : PlatformSealer, HsealL : !PlatformSealerLaws}.
Context {Hrsal : BlindRsaLaws}.
Context (tc : TokenClient).

Abbreviation wallet_run := (wallet_runs tc).

(** What the vault saw of a history. *)
Definition event_trace (x : Event) : list VaultEvent :=
  match x with Performed _ _ _ a => act_event a | Restarted => [PowerLoss] | _ => [] end.

Lemma wallet_run_disk h d live : wallet_run h d live → disk_run fresh_disk (h ≫= event_trace) d.
Proof.
  induction 1 as [d ->|h d live n c _ IH _|h d live n c l op k d' r _ IH _ Hp|h d live n c l r _ IH _|h d live n x _ IH _
                 |h d d' live _ IH (e & He & ->)]; [constructor|rewrite bind_app; cbn; try by rewrite app_nil_r..].
  - rewrite app_nil_r. destruct op; cbn in Hp; try (subst; by rewrite app_nil_r).
    destruct Hp as (io & Hd & Hv). econstructor; [exact IH|by econstructor].
  - econstructor; [exact IH|by constructor].
Qed.

(** ** What every command guarantees *)

(** The text of a pass is the hex of a message and of a signature that verifies under a pinned key. *)
Definition pass_verifies (t : StoredToken) : Prop :=
  ∃ der key msg sig, der ∈ tc_pinned_issuer_keys tc ∧ rsa_pk_from_der der = Some key ∧
    st_msg t = to_hex msg ∧ st_token t = to_hex sig ∧ rsa_verify key sig msg = true.

(** The vault showed this request in flight. *)
Definition shows_paid (p : PendingPaidIssue) (e : VaultEvent) : Prop :=
  match e with
  | VEv op res =>
      match op in VaultOp R return result VaultError R → Prop with
      | OpLoad => λ res, ∃ v, res = Ok v ∧ v_pending_paid_issue v = Some p
      | OpBeginPaid _ => λ res, res = Ok (PaidPending p)
      | _ => λ _, False
      end res
  | PowerLoss => False
  end.

Definition shows_mint (p : PendingMintBatch) (e : VaultEvent) : Prop :=
  match e with
  | VEv op res =>
      match op in VaultOp R return result VaultError R → Prop with
      | OpLoad => λ res, ∃ v, res = Ok v ∧ v_pending_mint v = Some p
      | OpBeginMint _ => λ res, res = Ok p
      | _ => λ _, False
      end res
  | PowerLoss => False
  end.

(** What is sent for it. *)
Definition issue_request (p : PendingPaidIssue) : IssueRequest :=
  {| iq_payment_id := pp_payment_id p; iq_blind_msg := pb_blind_msg (pp_request p) |}.

Definition mint_request_of (p : PendingMintBatch) (m : MintBatchRequest) : Prop :=
  mb_request_id m = pm_request_id p ∧ batch_items (mb_blind_msgs m) = pb_blind_msg <$> pm_requests p ∧
  aa_account_number (mb_auth m) = pm_account_number p.

Definition seen (l : list (Act wanswer)) (P : VaultEvent → Prop) : Prop := Exists P (l ≫= act_event).

(** The native engine said it is up under the reservation [id]. *)
Definition native_up (id : bytes) (l : list (Act wanswer)) : Prop :=
  ∃ st, Acted NativeStatus (Some st) ∈ l ∧ nv_state st = str "up" ∧ nv_reservation_id st = Some id.

(** The tunnel the reservation [id] was made for is up. *)
Definition tunnel_up (c : Command) (id : bytes) (l : list (Act wanswer)) : Prop :=
  match c with
  | CConnect _ => ∃ r, tr_reservation_id r = id ∧ seen l (hands_out r) ∧ Acted (EngineConnect (Some (tr_token r))) true ∈ l
  | CExtensionStatus id' => id' = id ∧ native_up id l
  | CExtensionReconcile => native_up id l
  | _ => False
  end.

Definition guarantee (c : Command) (l : list (Act wanswer)) (op : WalletOp) : Prop :=
  match op with
  | OnVault op =>
      match op with
      | OpAdd _ => False
      | OpCommitMint _ ts => tc_issuer_pin_required tc = true → Forall pass_verifies ts
      | OpCommitPaid _ t => tc_issuer_pin_required tc = true → pass_verifies t
      | OpCommitRedemption id => tunnel_up c id l
      | _ => True
      end
  | PostIssue r => ∃ p, seen l (shows_paid p) ∧ r = issue_request p
  | PostMint m => ∃ p, seen l (shows_mint p) ∧ mint_request_of p m
  | EngineConnect (Some t) => ∃ r, seen l (hands_out r) ∧ t = tr_token r
  | ResolveStart t => ∃ r, seen l (hands_out r) ∧ t = tr_token r
  | _ => True
  end.

Lemma seen_app l1 l2 P : seen (l1 ++ l2) P ↔ seen l1 P ∨ seen l2 P.
Proof. unfold seen. by rewrite bind_app, Exists_app. Qed.

Lemma seen_last l {R} (op : VaultOp R) r (P : VaultEvent → Prop) : P (VEv op r) → seen (l ++ [Acted (OnVault op) r]) P.
Proof. intros H. apply seen_app. right. by constructor. Qed.

Lemma seen_more l l' P : l `prefix_of` l' → seen l P → seen l' P.
Proof. intros [k ->] H. apply seen_app. by left. Qed.

Hint Resolve prefix_app_r : wallet.
Hint Extern 0 (?l `prefix_of` ?l) => reflexivity : wallet.

Abbreviation keeps c := (rg (λ _, True) (guarantee c)).

Lemma rg_fetch c l Q :
  (∀ l' r, l `prefix_of` l' → (∀ pk, r = Ok pk → check_issuer_pubkey tc pk = Ok tt) → Q l' r) → keeps c l (fetch_pubkey tc) Q.
Proof.
  intros HQ. unfold fetch_pubkey, ask. rg_ask r. cbn. apply HQ; [auto with wallet|].
  intros pk Hp. inv_ok Hp. injection Hp as <-. rename select unit into u. by destruct u.
Qed.

Lemma rg_blind_all c l pk ms Q : (∀ l' r, l `prefix_of` l' → Q l' r) → keeps c l (blind_all pk ms) Q.
Proof.
  revert l Q. induction ms as [|m ms IH]; intros l Q HQ; cbn [blind_all]; [rg_step; auto with wallet|].
  unfold ask. rg_ask rnd. rg_step; [|rg_step; auto with wallet]. rg_step. apply IH. intros l' r Hl.
  assert (l `prefix_of` l') by (etrans; [|exact Hl]; auto with wallet). destruct r; [rg_step|]; auto.
Qed.

Lemma rg_prepare c l pk n Q : (∀ l' r, l `prefix_of` l' → Q l' r) → keeps c l (prepare pk n) Q.
Proof.
  intros HQ. unfold prepare, ask. rg_ask drawn. rg_step. rg_step. rg_step; [|auto with wallet].
  apply rg_blind_all. intros l' r Hl. apply HQ. etrans; [|exact Hl]. auto with wallet.
Qed.

Lemma rg_pending_or_propose c l id existing Q :
  (∀ p, existing = Some p → seen l (shows_paid p)) →
  (∀ l' r, (∀ p, r = Ok (PaidPending p) → seen l' (shows_paid p)) → Q l' r) →
  keeps c l (pending_or_propose tc id existing) Q.
Proof.
  intros He HQ. unfold pending_or_propose. destruct existing as [p|].
  { rg_step. apply HQ. intros p' [= <-]. by apply He. }
  rg_step. apply rg_fetch. intros l1 r _ _. destruct r; [|by apply HQ]. rg_step. apply rg_prepare. intros l2 r _.
  destruct r as [reqs|]; [|by apply HQ]. destruct reqs as [|req [|]]; try (rg_step; by apply HQ).
  rg_step. rg_step. rg_step; [|by apply HQ]. unfold stored, ask. rg_ask r. apply HQ. intros p.
  destruct r; cbn; [|done]. intros [= ->]. by apply seen_last.
Qed.

(** An accepted signature over a request is a pass that verifies. *)
Lemma finalize_verifies der req bs sig msg_text :
  tc_issuer_pin_required tc = true → check_issuer_pubkey tc der = Ok tt → finalize der req bs = Ok sig →
  msg_text = to_hex (req_msg req) → pass_verifies {| st_msg := msg_text; st_token := to_hex_fmt sig |}.
Proof.
  intros Hreq Hc Hf ->. unfold check_issuer_pubkey in Hc. rewrite Hreq in Hc. cbn in Hc.
  apply ensure_Ok, bool_decide_eq_true in Hc. unfold finalize in Hf. inv_ok Hf.
  rename select (rsa_pk_from_der _ = _) into Hk. apply rsa_finalize_verifies in Hf.
  eexists der, _, (req_msg req), sig. split_and!; [done|exact Hk|done|cbn; apply to_hex_fmt_eq|done].
Qed.

Lemma blind_request_text r :
  blind_request_ok r = true → hex_text (256 * 2) (pb_blind_msg r) ∧ hex_text (32 * 2) (pb_msg r).
Proof.
  unfold blind_request_ok, is_exact_lower_hex. rewrite !andb_true_iff, !Nat.eqb_eq.
  intros ((((Hb & Hb') & Hm & Hm') & _) & _). by split.
Qed.

(** What is rebuilt from the vault is what was stored. *)
Lemma token_request_text r req :
  blind_request_ok r = true → token_request r = Ok req →
  pb_msg r = to_hex (req_msg req) ∧ pb_blind_msg r = to_hex (req_blind_msg req).
Proof.
  intros [Hb Hm]%blind_request_text H. apply hex_text_decodes in Hb as (b & Eb & _ & Tb), Hm as (m & Em & _ & Tm).
  unfold token_request in H. apply bind_Ok in H as (rz & _ & H). apply bind_Ok in H as (b' & H1%hex_or_error_ok & H).
  apply bind_Ok in H as (m' & H2%hex_or_error_ok & H). apply bind_Ok in H as (s' & _ & H). apply map_err_Ok in H.
  unfold from_persisted in H. destruct (_ || _) in H; [done|]. injection H as <-. cbn. split; congruence.
Qed.

Lemma rg_acquire c l id : keeps c l (acquire_into_store tc id) (λ _ _, True).
Proof.
  unfold acquire_into_store, stored, ask. do 2 (rg_step; [by rg_step|]). rg_ask v0.
  destruct (map_err _ v0); [|done]. rg_step; [by rg_ask v1; destruct (map_err _ v1)|].
  rg_ask v1. destruct v1 as [v1|]; cbn [map_err]; [|done]. rg_step.
  apply rg_pending_or_propose; [intros p Hp; apply seen_last; cbn; eauto|]. intros l1 begun Hs.
  destruct begun as [[p|]|]; [|done|done]. specialize (Hs p eq_refl). rg_step; [done|].
  rg_step. rg_step. rg_step; [|done]. rename select unit into u. destruct u.
  rename select (map_err _ (paid_issue_validate p) = _) into Hval. apply map_err_Ok in Hval.
  unfold paid_issue_validate in Hval. rewrite !unit_bind_Ok, !ensure_Ok in Hval. destruct Hval as (_ & _ & Hb).
  rg_step. rg_step. rg_step; [|done]. rg_step. rg_step. rg_step; [|done]. rename select unit into u. destruct u.
  rg_step. rg_step. rg_step; [|done]. rename select (token_request _ = _) into Hreq.
  destruct (token_request_text _ _ Hb Hreq) as [Hm _]. rg_ask reply; [by exists p|].
  do 3 (rg_step; rg_step; rg_step; [|done]). rename select (map_err _ (finalize _ _ _) = _) into Hf. apply map_err_Ok in Hf.
  rg_ask r; [|done]. cbn. intros Hpin. by eapply finalize_verifies.
Qed.

Lemma finalize_all_verify der pairs ts :
  tc_issuer_pin_required tc = true → check_issuer_pubkey tc der = Ok tt → finalize_all der pairs = Ok ts →
  Forall pass_verifies ts.
Proof.
  intros Hreq Hc. revert ts. induction pairs as [|[req sig] pairs IH]; intros ts H; cbn in H; [by injection H as <-|].
  apply unit_bind_Ok in H as [_ H]. apply bind_Ok in H as (bs & _ & H). apply bind_Ok in H as (t & Ht & H).
  apply bind_Ok in H as (rest & Hr & H). injection H as <-. constructor; [|by apply IH].
  apply map_err_Ok in Ht. eapply finalize_verifies; [done|done|exact Ht|apply to_hex_fmt_eq].
Qed.

Lemma rg_mint_pending c l m n existing Q :
  (∀ p, existing = Some p → seen l (shows_mint p)) →
  (∀ l' r, (∀ p, r = Ok p → seen l' (shows_mint p)) → Q l' r) →
  keeps c l (mint_pending tc m n existing) Q.
Proof.
  intros He HQ. unfold mint_pending. destruct existing as [p|].
  { rg_step. apply HQ. intros p' [= <-]. by apply He. }
  rg_step. apply rg_fetch. intros l1 r _ _. destruct r; [|by apply HQ]. rg_step. apply rg_prepare. intros l2 r _.
  destruct r as [reqs|]; [|by apply HQ]. unfold ask. rg_ask i. rg_step. rg_step. rg_step; [|by apply HQ].
  rg_step. rg_step. rg_step; [|by apply HQ]. unfold stored, ask. rg_ask r. apply HQ. intros p.
  destruct r; cbn; [|done]. intros [= ->]. by apply seen_last.
Qed.

Lemma token_requests_text p rs :
  mint_batch_validate p = Ok tt → token_requests p = Ok rs →
  (λ r, to_hex_fmt (req_blind_msg r)) <$> rs = pb_blind_msg <$> pm_requests p.
Proof.
  unfold mint_batch_validate. rewrite !unit_bind_Ok, !ensure_Ok. intros (_ & _ & _ & _ & Hb) H.
  apply forallb_Forall_true in Hb. unfold token_requests in H. apply result_mapM_Ok in H.
  induction H as [|r req rs' reqs Hr _ IH]; [done|]. apply Forall_cons in Hb as [Hr' Hb]. cbn. f_equal; [|by apply IH].
  rewrite to_hex_fmt_eq. symmetry. by apply (token_request_text r).
Qed.

Lemma rg_auth_proof c l m Q :
  (∀ l' r, l `prefix_of` l' → (∀ a, r = Ok a → aa_account_number a = am_account_number m) → Q l' r) →
  keeps c l (auth_proof m) Q.
Proof.
  intros HQ. unfold auth_proof, ask. rg_ask r. cbn. apply HQ; [auto with wallet|]. intros a Ha. inv_ok Ha.
  by injection Ha as <-.
Qed.

Lemma rg_mint c l m n Q :
  (∀ l' r, (∀ id ts, r = Ok (id, ts) → tc_issuer_pin_required tc = true → Forall pass_verifies ts) → Q l' r) →
  keeps c l (mint_batch_into_store tc m n) Q.
Proof.
  intros HQ. unfold mint_batch_into_store, stored, ask. do 2 (rg_step; [rg_step; by apply HQ|]). rg_ask v.
  destruct v as [v|]; cbn [map_err]; [|by apply HQ]. rg_step.
  apply rg_mint_pending; [intros p Hp; apply seen_last; cbn; eauto|]. intros l1 r Hs. destruct r as [p|]; [|by apply HQ].
  specialize (Hs p eq_refl). rg_step; [rg_step; by apply HQ|].
  rename select (negb _ = false) into Hacc. apply negb_false_iff, bool_decide_eq_true in Hacc.
  rg_step. rg_step. rg_step; [|by apply HQ]. rename select unit into u. destruct u.
  rename select (map_err _ (mint_batch_validate p) = _) into Hval. apply map_err_Ok in Hval.
  rg_step. rg_step. rg_step; [|by apply HQ]. rg_step. rg_step. rg_step; [|by apply HQ]. rename select unit into u. destruct u.
  rename select (check_issuer_pubkey _ _ = _) into Hck.
  rg_step. rg_step. rg_step; [|by apply HQ]. rename select (token_requests _ = _) into Hreq.
  rg_step. rg_step. rg_step; [|by apply HQ]. rename select (map_err _ (batch_try_from _) = _) into Hbatch.
  apply map_err_Ok in Hbatch. unfold batch_try_from in Hbatch. destruct (_ || _) in Hbatch; [done|]. injection Hbatch as <-.
  rg_step. apply rg_auth_proof. intros l2 r Hl Ha. destruct r as [auth|]; [|by apply HQ]. rg_ask reply.
  { exists p. split; [by eapply seen_more|]. split_and!; [done|by apply token_requests_text|].
    cbn [mb_auth]. rewrite (Ha auth eq_refl). by symmetry. }
  do 2 (rg_step; rg_step; rg_step; [|by apply HQ]). apply HQ. intros id ts [= <- <-] Hpin.
  rename select (finalize_mint_batch _ _ _ = _) into Hf. unfold finalize_mint_batch in Hf. apply unit_bind_Ok in Hf as [_ Hf].
  by eapply finalize_all_verify.
Qed.

Lemma rg_prune c l Q : (∀ l' r, l `prefix_of` l' → Q l' r) → keeps c l prune_now Q.
Proof.
  intros HQ. unfold prune_now, stored, ask. rg_ask now. rg_step. rg_step. rg_step; [|auto with wallet].
  rg_ask r. auto with wallet.
Qed.

Lemma rg_refill c l : keeps c l (refill_once tc) (λ _ _, True).
Proof.
  unfold refill_once, stored, ask. rg_ask u. rg_ask g. rg_step. apply rg_prune. intros l1 r _. destruct r; [|done].
  rg_ask v. destruct (map_err _ v); [|done]. rg_step; [|done]. rg_ask v2. destruct (map_err _ v2); [|done].
  rg_step; [|done]. rg_step. apply rg_mint. intros l2 r Hts. destruct r as [[id ts]|]; [|done].
  rg_ask g'. rg_step; [done|]. rg_ask v3. destruct (map_err _ v3); [|done]. rg_step; [done|].
  rg_ask r; [|done]. cbn. by apply (Hts id ts).
Qed.

Lemma rg_change c l op :
  (∀ l, guarantee c l (OnVault op)) → keeps c l (change_account op) (λ _ _, True).
Proof. intros Hop. unfold change_account, stored, ask. rg_ask u. rg_ask u'. rg_ask r. by rg_step. Qed.

Lemma rg_connect_armed cf l : keeps (CConnect cf) l (connect_armed cf) (λ _ _, True).
Proof.
  unfold connect_armed, stored, ask. rg_step. destruct (cf_coordinator_configured cf).
  - rg_ask r. destruct r as [r|]; cbn [map_err]; [|done]. set (l1 := l ++ _).
    assert (Hs : ∀ x, r = Some x → seen l1 (hands_out x)) by (intros x ->; by apply seen_last).
    rg_ask up; [destruct r as [x|]; [|done]; exists x; split; [by apply Hs|done]|].
    rg_step; [done|]. rename select (negb up = false) into Hup. apply negb_false_iff in Hup as ->.
    unfold spend_reservation, ask. destruct r as [x|]; [|by rg_step]. rg_ask done_.
    { exists x. split_and!; [done|apply seen_app; left; by apply Hs|]. apply elem_of_app. right. by apply list_elem_of_singleton. }
    rg_step; by rg_ask u; rg_step.
  - rg_step. rg_ask up. rg_step; [done|]. by rg_step.
Qed.

Lemma rg_connect cf l : keeps (CConnect cf) l (connect cf) (λ _ _, True).
Proof.
  unfold connect. rg_step; [by rg_step|]. rg_step.
  eapply rg_mono; [|instantiate (1 := λ _ _, True)].
  - intros l1 privileged _. cbn beta. rg_step; [by rg_step|]. rg_step. apply rg_prune. intros l2 r _. destruct r; [|done].
    rg_step. unfold no_pass_left, stored, ask.
    eapply rg_mono; [|instantiate (1 := λ _ _, True)].
    + intros l3 [[]|] _; [by rg_step| |done]. rg_ask armed. rg_step; [by rg_step|]. apply rg_connect_armed.
    + rg_step; [|by rg_step]. rg_ask v. rg_step; [by rg_step|done].
  - unfold ask. rg_step; [by rg_ask p|by rg_step].
Qed.

Lemma rg_commit_native c id l : tunnel_up c id l → keeps c l (commit_native id) (λ _ _, True).
Proof. intros Hup. unfold commit_native, ask. rg_ask done_. rg_step; by rg_ask x; rg_step. Qed.

Lemma rg_reconcile l : keeps CExtensionReconcile l extension_status (λ _ _, True).
Proof.
  unfold extension_status, stored, ask. rg_ask u. rg_ask st. destruct st as [st|]; [|by rg_step]. cbn zeta.
  set (l1 := _ ++ [Acted NativeStatus _]).
  assert (Hin : Acted NativeStatus (Some st) ∈ l1) by (apply elem_of_app; right; by apply list_elem_of_singleton).
  rg_step; [rename select (bool_decide _ = true) into Hup; apply bool_decide_eq_true in Hup|].
  - rg_ask v. destruct v as [v|]; cbn [map_err]; [|done]. rg_step; [|by rg_ask x; rg_step].
    rg_step; [by rg_ask x; rg_step|]. rename select (negb _ = false) into Hid. apply negb_false_iff, bool_decide_eq_true in Hid.
    rg_step; [|by rg_step]. apply rg_commit_native. exists st. split_and!; [apply elem_of_app; by left|done|done].
  - rg_step; [|rg_step; by rg_step]. rg_ask v. destruct v as [v|]; cbn [map_err]; [|done]. rg_step; [|by rg_ask x; rg_step].
    rg_step; [by rg_ask x; rg_step|by rg_step].
Qed.

Lemma rg_extension_status id l : keeps (CExtensionStatus id) l (extension_connection_status id) (λ _ _, True).
Proof.
  unfold extension_connection_status, ask. rg_ask u. rg_ask st. destruct st as [st|]; [|by rg_step].
  set (l1 := _ ++ [Acted NativeStatus _]).
  assert (Hin : Acted NativeStatus (Some st) ∈ l1) by (apply elem_of_app; right; by apply list_elem_of_singleton).
  rg_step; [|rg_step; [by rg_step|by rg_ask x; rg_step]]. rename select (_ || _ = true) into Hor.
  rg_step; [by rg_ask x; rg_step|]. rename select (negb _ = false) into Hid.
  apply negb_false_iff, bool_decide_eq_true in Hid. rg_step; [by rg_step|]. rename select (bool_decide _ = false) into Hc.
  apply bool_decide_eq_false in Hc. rewrite orb_true_iff, !bool_decide_eq_true in Hor.
  assert (nv_state st = str "up") by naive_solver. apply rg_commit_native.
  by split; [|exists st].
Qed.

Lemma rg_extension_connect c cf supported l : keeps c l (extension_connect cf supported) (λ _ _, True).
Proof.
  unfold extension_connect, ask. rg_ask u. rg_ask st. rg_step; [|by rg_step]. do 3 (rg_step; [by try (rg_ask x; rg_step)|]).
  rg_ask p. destruct p as [[]|]; [|by rg_step|by rg_step]. rg_step. unfold prepare_extension_start, stored, ask.
  do 3 (rg_step; [by rg_step|]). rg_step. apply rg_prune. intros l1 r _. destruct r; [|done].
  rg_ask r. destruct r as [[x|]|]; cbn [map_err]; [|by rg_step|done].
  rg_ask ok; [exists x; split; [by apply seen_last|done]|]. rg_step; [by rg_step|]. rg_step.
  rg_ask started. rg_step; [by rg_step|]. by rg_ask y; rg_step.
Qed.

(** Every command keeps to the guarantee. *)
Lemma command_guarantee c : keeps c [] (command tc c) (λ _ _, True).
Proof.
  destruct c; cbn [command].
  - unfold buy_tokens, ask. rg_step; [by rg_step|]. rg_ask u. rg_step. apply rg_prune. intros l r _.
    destruct r; [apply rg_acquire|done].
  - apply rg_refill.
  - by apply rg_change.
  - unfold confirm_account. rg_step; [by rg_step|]. by apply rg_change.
  - unfold recover_account, ask. rg_step; [by rg_step|]. rg_step. apply rg_auth_proof. intros l r _ _. destruct r; [|done].
    rg_ask reply. rg_step. rg_step. rg_step; [|done]. by apply rg_change.
  - apply rg_connect.
  - apply rg_extension_connect.
  - apply rg_extension_status.
  - apply rg_reconcile.
  - unfold extension_disconnect, ask. rg_ask u. rg_ask x. by rg_step.
Qed.

(** ** What follows over every run *)

(** A vault event is an action of some command, and the command kept to its guarantee. *)
Lemma trace_event h d live e :
  wallet_run h d live → e ∈ h ≫= event_trace → e = PowerLoss ∨
  ∃ n c l R (op : VaultOp R) r, Performed n c l (Acted (OnVault op) r) ∈ h ∧ e = VEv op r ∧ guarantee c l (OnVault op).
Proof.
  intros Hr (x & He & Hx)%list_elem_of_bind. destruct x as [|n c l a| | |]; cbn in He; try (by apply elem_of_nil in He).
  - destruct a as [op r]. destruct op as [R op| | | | | | | | | | | | | | | | | | | | | |]; cbn in He;
      try (by apply elem_of_nil in He). apply list_elem_of_singleton in He as ->. right.
    exists n, c, l, R, op, r. split_and!; [done|done|].
    by apply (run_guarantee _ _ _ _ (λ _, True) guarantee _ _ _ (λ _ _ _ _ _, I) command_guarantee Hr _ _ _ _ Hx).
  - left. by apply list_elem_of_singleton in He.
Qed.

Lemma loaded_image tr d io v : disk_run fresh_disk tr d → vault_load d io = Ok v → image_of (d_entry d) v.
Proof.
  intros H Hl. destruct (disk_run_refines _ _ _ _ fresh_represents H) as (s & _ & Hr). unfold vault_load in Hl.
  destruct (load_image _ _ io (rp_now _ _ Hr)) as [E|(_ & x & E)]; rewrite E in Hl; [|done]. injection Hl as <-. apply Hr.
Qed.

(** Every pass a vault shows verifies under a pinned key. *)
Lemma shown_pass_verifies h d live io v t :
  tc_issuer_pin_required tc = true → wallet_run h d live → vault_load d io = Ok v → t ∈ passes v → pass_verifies t.
Proof.
  intros Hpin Hrun Hl Ht. pose proof (wallet_run_disk _ _ _ Hrun) as Hd.
  pose proof (pass_origin _ _ _ _ Hd (loaded_image _ _ _ _ Hd Hl) Ht) as Ho. apply Exists_exists in Ho as (e & He & Ho).
  destruct (trace_event _ _ _ _ Hrun He) as [->|(n & c & l & R & op & r & _ & -> & Hg)]; [done|].
  destruct op; try done; cbn in Ho, Hg; [specialize (Hg Hpin); by eapply Forall_forall in Hg|subst; by apply Hg].
Qed.

(** *** Retries *)

Section Shown.
Context {P : Type} (slot : VaultV1 → option P) (drops : P → VaultEvent → Prop) (begins : VaultEvent → Prop).
Context (shows : P → VaultEvent → Prop).
Context (Hempty : slot vault_empty = None).
Context (Hkeeps : ∀ R (op : VaultOp R) draws v v' (r : R) res p,
  transaction op draws v = Ok (v', r) → slot v = Some p → ¬ drops p (VEv op res) → slot v' = Some p).
Context (Hsets : ∀ R (op : VaultOp R) draws v v' (r : R) res p,
  transaction op draws v = Ok (v', r) → slot v' = Some p → ¬ begins (VEv op res) → slot v = Some p).
Context (Hshow : ∀ s e s' p, spec_step s e s' → shows p e → slot (vs_now s') = Some p).
Context `{Hdec : ∀ p e, Decision (drops p e), Heq : EqDecision P}.

(** What was shown at one point of a trace is in the slot there. *)
Lemma shown_at tr d i e p :
  disk_run fresh_disk tr d → tr !! i = Some e → shows p e →
  ∃ d' v, disk_run fresh_disk (take (S i) tr) d' ∧ disk_run d' (drop (S i) tr) d ∧ image_of (d_entry d') v ∧ slot v = Some p.
Proof.
  intros H Hi Hs. rewrite <- (take_drop (S i) tr) in H. apply disk_run_app in H as (d' & H1 & H2).
  pose proof H1 as H1'. rewrite (take_S_r _ _ _ Hi) in H1. apply disk_run_snoc in H1 as (d0 & H0 & Hst).
  destruct (disk_run_refines _ _ _ _ fresh_represents H0) as (s0 & _ & Hr0).
  destruct (disk_step_refines _ _ _ _ Hr0 Hst) as (s1 & Hst1 & Hr1).
  exists d', (vs_now s1). split_and!; [done|done|apply Hr1|by eapply Hshow].
Qed.

Lemma shown_in_order tr d i j e1 e2 p1 p2 :
  disk_run fresh_disk tr d → Forall (λ e, ¬ unconfirmed_begin begins e) tr →
  tr !! i = Some e1 → shows p1 e1 → tr !! j = Some e2 → shows p2 e2 → (i ≤ j)%nat →
  p2 = p1 ∨ dropped slot drops fresh_disk p1 tr d.
Proof.
  intros H Hu Hi Hs1 Hj Hs2 Hij. destruct (shown_at _ _ _ _ _ H Hj Hs2) as (d2 & v2 & Hr2 & Hrest & Hi2 & Hp2).
  assert (Hi' : take (S j) tr !! i = Some e1) by (rewrite lookup_take_lt by lia; done).
  destruct (shown_at _ _ _ _ _ Hr2 Hi' Hs1) as (d1 & v1 & Hr1 & Hr12 & Hi1 & Hp1).
  assert (Hu' : Forall (λ e, ¬ unconfirmed_begin begins e) (take (S i) (take (S j) tr))) by by apply Forall_take, Forall_take.
  destruct (slot_stable slot drops begins Hempty Hkeeps Hsets d1 d2 _ _ _ _ _ _ Hr1 Hr12 Hu' Hi1 Hp1 Hi2 Hp2) as [->|Hd]; [by left|right].
  rewrite take_drop in Hd. rewrite <- (take_drop (S j) tr). by eapply dropped_app.
Qed.

(** Two records shown differ only if one of them was dropped while it was stored. *)
Lemma shown_stable tr d p1 p2 :
  disk_run fresh_disk tr d → Forall (λ e, ¬ unconfirmed_begin begins e) tr → Exists (shows p1) tr → Exists (shows p2) tr →
  p1 = p2 ∨ dropped slot drops fresh_disk p1 tr d ∨ dropped slot drops fresh_disk p2 tr d.
Proof.
  intros H Hu (e1 & [i Hi]%list_elem_of_lookup & Hs1)%Exists_exists (e2 & [j Hj]%list_elem_of_lookup & Hs2)%Exists_exists.
  destruct (Nat.le_ge_cases i j).
  - destruct (shown_in_order _ _ _ _ _ _ _ _ H Hu Hi Hs1 Hj Hs2) as [->|?]; auto.
  - destruct (shown_in_order _ _ _ _ _ _ _ _ H Hu Hj Hs2 Hi Hs1) as [->|?]; auto.
Qed.

End Shown.

#[local] Instance drops_paid_dec p e : Decision (drops_paid p e).
Proof. destruct e as [R op r|]; [destruct op|]; cbn; apply _. Defined.
#[local] Instance drops_mint_dec p e : Decision (drops_mint p e).
Proof. destruct e as [R op r|]; [destruct op|]; cbn; apply _. Defined.

Lemma shows_paid_slot s e s' p : spec_step s e s' → shows_paid p e → v_pending_paid_issue (vs_now s') = Some p.
Proof.
  intros Hst Hs. destruct Hst as [R op draws v r _ _ Ht _| |R op x|R op draws v r x _ _ Ht _|v Hv];
    [|cbn in Hs; naive_solver|destruct op; cbn in Hs; naive_solver|destruct op; cbn in Hs; naive_solver|done].
  destruct op; cbn in Hs; try done; [naive_solver|]. injection Hs as ->. cbn in Ht. unfold begin_paid_issue in Ht.
  destruct (some_id_eq _ _); [done|]. inv_ok Ht. by simplify_eq.
Qed.

Lemma shows_mint_slot s e s' p : spec_step s e s' → shows_mint p e → v_pending_mint (vs_now s') = Some p.
Proof.
  intros Hst Hs. destruct Hst as [R op draws v r _ _ Ht _| |R op x|R op draws v r x _ _ Ht _|v Hv];
    [|cbn in Hs; naive_solver|destruct op; cbn in Hs; naive_solver|destruct op; cbn in Hs; naive_solver|done].
  destruct op; cbn in Hs; try done; [naive_solver|]. injection Hs as ->. cbn in Ht. unfold begin_mint in Ht.
  inv_ok Ht. by simplify_eq.
Qed.

Lemma performed_guarantee h d live n c l a :
  wallet_run h d live → Performed n c l a ∈ h → guarantee c l (act_op a).
Proof.
  intros Hr Hx. by apply (run_guarantee _ _ _ _ (λ _, True) guarantee _ _ _ (λ _ _ _ _ _, I) command_guarantee Hr _ _ _ _ Hx).
Qed.

(** What a command saw before an action is in the trace. *)
Lemma seen_in_trace h d live n c l a P :
  wallet_run h d live → Performed n c l a ∈ h → seen l P → Exists P (h ≫= event_trace).
Proof.
  intros Hr (h1 & h2 & ->)%list_elem_of_split (e & (b & He & [i Hi]%list_elem_of_lookup)%list_elem_of_bind & HP)%Exists_exists.
  destruct (run_before _ _ _ _ _ _ _ Hr) as [_ Hb]. specialize (Hb _ _ _ _ _ _ eq_refl _ _ Hi).
  apply Exists_exists. exists e. split; [|done]. rewrite bind_app. apply elem_of_app. left.
  apply list_elem_of_bind. eexists. by split; [|exact Hb].
Qed.

(** The request was sent in this event. *)
Definition sends (op : WalletOp) (x : Event) : Prop :=
  match x with Performed _ _ _ a => act_op a = op | _ => False end.

(** Nothing is sent before it is on record. *)
Lemma sent_on_record h d live op :
  wallet_run h d live → Exists (sends op) h →
  match op with
  | PostIssue r => ∃ p, Exists (shows_paid p) (h ≫= event_trace) ∧ r = issue_request p
  | PostMint m => ∃ p, Exists (shows_mint p) (h ≫= event_trace) ∧ mint_request_of p m
  | _ => True
  end.
Proof.
  intros Hr (x & Hx & Hs)%Exists_exists. destruct x as [|n c l a| | |]; try done. cbn in Hs. subst op.
  pose proof (performed_guarantee _ _ _ _ _ _ _ Hr Hx) as Hg. destruct (act_op a); try done; destruct Hg as (p & Hp & Heq);
    exists p; split; try done; by eapply seen_in_trace.
Qed.

Definition same_batch (m1 m2 : MintBatchRequest) : Prop :=
  mb_request_id m1 = mb_request_id m2 ∧ batch_items (mb_blind_msgs m1) = batch_items (mb_blind_msgs m2) ∧
  aa_account_number (mb_auth m1) = aa_account_number (mb_auth m2).

(** C22.  Retries are identical: over every run in which no beginning of a request was left
    unconfirmed, any two requests for a paid pass that commands ever send are the same request -
    same reference, same blinded message - and any two mint requests carry the same identifier, the
    same blinded messages in the same order and the same account, unless the record of one of
    them was stored in the vault when an operation came that drops it: that wipes it with the
    account, prunes it as expired, or completes it.  So a lost answer, a crash or a power loss
    never makes the client ask for a second batch, and never makes it send a reference the portal
    has bound to one message with another.  (For the run that ends with the second request, the
    drop came before that request.) *)
Theorem retries_are_identical h d live :
  wallet_run h d live →
  Forall (λ e, ¬ unconfirmed_begin begins_any_paid e ∧ ¬ unconfirmed_begin begins_any_mint e) (h ≫= event_trace) →
  (∀ r1 r2, Exists (sends (PostIssue r1)) h → Exists (sends (PostIssue r2)) h →
    r1 = r2 ∨ ∃ p, (r1 = issue_request p ∨ r2 = issue_request p) ∧
      dropped v_pending_paid_issue drops_paid fresh_disk p (h ≫= event_trace) d) ∧
  (∀ m1 m2, Exists (sends (PostMint m1)) h → Exists (sends (PostMint m2)) h →
    same_batch m1 m2 ∨ ∃ p, (mint_request_of p m1 ∨ mint_request_of p m2) ∧
      dropped v_pending_mint drops_mint fresh_disk p (h ≫= event_trace) d).
Proof.
  intros Hr Hu. pose proof (wallet_run_disk _ _ _ Hr) as Hd.
  assert (Hup : Forall (λ e, ¬ unconfirmed_begin begins_any_paid e) (h ≫= event_trace)) by (eapply Forall_impl; [exact Hu|]; by intros e []).
  assert (Hum : Forall (λ e, ¬ unconfirmed_begin begins_any_mint e) (h ≫= event_trace)) by (eapply Forall_impl; [exact Hu|]; by intros e []).
  split; intros r1 r2 H1 H2; apply (sent_on_record _ _ _ _ Hr) in H1 as (p1 & Hs1 & E1);
    apply (sent_on_record _ _ _ _ Hr) in H2 as (p2 & Hs2 & E2).
  - destruct (shown_stable v_pending_paid_issue drops_paid begins_any_paid shows_paid eq_refl (@transaction_keeps_paid _)
      (@transaction_sets_paid _) shows_paid_slot _ _ _ _ Hd Hup Hs1 Hs2) as [<-|[Hx|Hx]];
      [left; congruence|right; exists p1|right; exists p2]; auto.
  - destruct (shown_stable v_pending_mint drops_mint begins_any_mint shows_mint eq_refl (@transaction_keeps_mint _)
      (@transaction_sets_mint _) shows_mint_slot _ _ _ _ Hd Hum Hs1 Hs2) as [<-|[Hx|Hx]];
      [left|right; exists p1|right; exists p2]; auto.
    destruct E1 as (? & ? & ?), E2 as (? & ? & ?). split_and!; congruence.
Qed.

(** C23.  A pass is given up only for a tunnel: in every run, the vault is told that a reservation
    was used only by the command that was handed this very reservation and whose engine then
    came up with its pass, or after the native engine reported itself up under this very
    reservation; and a pass is presented to an engine or redeemed only after the vault has
    recorded its reservation. *)
Theorem pass_spent_only_on_tunnel h d live n c l op r :
  wallet_run h d live → Performed n c l (Acted op r) ∈ h →
  match op with
  | OnVault (OpCommitRedemption id) => tunnel_up c id l
  | EngineConnect (Some t) => ∃ res, seen l (hands_out res) ∧ tr_token res = t
  | ResolveStart t => ∃ res, seen l (hands_out res) ∧ tr_token res = t
  | _ => True
  end.
Proof.
  intros Hr Hp. pose proof (performed_guarantee _ _ _ _ _ _ _ Hr Hp) as Hg. cbn [act_op] in Hg.
  destruct op as [R vop| | | | | | | | | | | |t| | | | | |t| | | | ]; cbn in Hg |- *; try done.
  - by destruct vop.
  - destruct t as [t|]; [|done]. destruct Hg as (x & ? & ->). eauto.
  - destruct Hg as (x & ? & ->). eauto.
Qed.

End Runs.

(** ** Release clients *)

(** The environment narrows the embedded keys and never adds to them. *)
Lemma release_pins roots env :
  ip_required (effective_issuer_pins (Some roots) env) = true ∧
  ∀ der, der ∈ ip_keys (effective_issuer_pins (Some roots) env) → der ∈ roots.
Proof.
  unfold effective_issuer_pins. destruct (match env with Some _ => _ | None => _ end); cbn; [done|]. split; [done|].
  intros der. unfold intersection. by intros [_ ?]%list_elem_of_filter.
Qed.

Section Release.
Context `{Hsha : Sha256, Hed : Ed25519, Hrsa : BlindRsa}.
Context `{Hjson : VaultJson, HjsonL : !VaultJsonLaws, Hseal : PlatformSealer, HsealL : !PlatformSealerLaws}.
Context {Hrsal : BlindRsaLaws}.

(** C21.  A release wallet holds only passes that work: on an installation that starts with an empty
    vault and imports no plaintext file of an older client, whatever the environment says about
    issuer keys and whatever a portal answers, every pass the vault ever shows - however
    purchases, refills, connections, log-outs and power losses interleave - is one that a
    verifier holding the keys of the embedded trust bundle accepts. *)
Theorem wallet_passes_verify url_safe roots env verifier h d live io v t :
  from_public_ders roots = Ok verifier →
  wallet_runs (with_base_url url_safe (effective_issuer_pins (Some roots) env)) h d live →
  vault_load d io = Ok v → t ∈ passes v →
  ∃ msg sig, from_hex (st_msg t) = Some msg ∧ from_hex (st_token t) = Some sig ∧ verify verifier sig msg = true.
Proof.
  intros Hver Hrun Hl Ht. destruct (release_pins roots env) as [Hreq Hin].
  destruct (shown_pass_verifies (with_base_url url_safe _) _ _ _ _ _ _ Hreq Hrun Hl Ht) as (der & key & msg & sig & Hd & Hk & -> & -> & Hok).
  exists msg, sig. split_and!; [apply from_hex_to_hex..|]. eapply verify_held; [exact Hver|by apply Hin|exact Hk|exact Hok].
Qed.

End Release.
