(* ===== verification/WalletLive.v ===== *)
(** * The vault and the wallet at work

    Executable instances of the parameters - a vault codec, a sealer, signatures of the modulus'
    width - and one history of each kind, run through the definitions. *)

From S2P Require Import Prelude.
From S2P Require Import Text.
From S2P Require Import Crypto.
From S2P Require Import Env.
From S2P Require Import Token.
From S2P Require Import Codec.
From S2P Require Import Prog.
From S2P Require Import Interleave.
From S2P Require Import Portal.
From S2P Require Import Vault.
From S2P Require Import VaultRuns.
From S2P Require Import Wallet.
From S2P Require Import WalletRuns.
From Stdlib Require Import Strings.Byte ZArith Lia.
From stdpp Require Import prelude gmap strings.

Local Open Scope Z_scope.

Module ToyVault.
Import Toy ToyCodec.

#[local] Program Instance codec_auth : Codec AccountAuthMaterial :=
  codec_iso (λ a, (am_account_number a, am_auth_seed a)) (λ '(a, b), {| am_account_number := a; am_auth_seed := b |}) _.
Next Obligation. by intros []. Qed.

#[local] Program Instance codec_token : Codec StoredToken :=
  codec_iso (λ t, (st_msg t, st_token t)) (λ '(a, b), {| st_msg := a; st_token := b |}) _.
Next Obligation. by intros []. Qed.

#[local] Program Instance codec_blind : Codec PendingBlindRequest :=
  codec_iso (λ r, (pb_blind_msg r, pb_msg r, pb_secret r, pb_msg_randomizer r))
    (λ '(a, b, c, d), {| pb_blind_msg := a; pb_msg := b; pb_secret := c; pb_msg_randomizer := d |}) _.
Next Obligation. by intros []. Qed.

#[local] Program Instance codec_mint : Codec PendingMintBatch :=
  codec_iso (λ p, (pm_request_id p, pm_account_number p, pm_issuer_public_der p, pm_requests p))
    (λ '(a, b, c, d), {| pm_request_id := a; pm_account_number := b; pm_issuer_public_der := c; pm_requests := d |}) _.
Next Obligation. by intros []. Qed.

#[local] Program Instance codec_paid : Codec PendingPaidIssue :=
  codec_iso (λ p, (pp_payment_id p, pp_issuer_public_der p, pp_request p))
    (λ '(a, b, c), {| pp_payment_id := a; pp_issuer_public_der := b; pp_request := c |}) _.
Next Obligation. by intros []. Qed.

#[local] Program Instance codec_redemption : Codec PendingRedemption :=
  codec_iso (λ p, (pr_reservation_id p, pr_token p)) (λ '(a, b), {| pr_reservation_id := a; pr_token := b |}) _.
Next Obligation. by intros []. Qed.

#[local] Program Instance codec_vault : Codec VaultV1 :=
  codec_iso (λ v, (v_schema v, v_auth v, v_tokens v, v_pending_mint v, (v_pending_paid_issue v, v_last_paid_issue_hash v,
                   v_pending_redemption v, v_last_redemption_id v)))
    (λ '(a, b, c, d, (e, f, g, h)), {| v_schema := a; v_auth := b; v_tokens := c; v_pending_mint := d;
       v_pending_paid_issue := e; v_last_paid_issue_hash := f; v_pending_redemption := g; v_last_redemption_id := h |}) _.
Next Obligation. by intros []. Qed.

(** A leading byte, then the fields. *)
#[export] Instance toy_vault_json : VaultJson := {|
  vault_to_vec v := Some (x00 :: put v);
  wire_from_slice j := match j with x00 :: r => (λ p, wire_of p.1) <$> get (A := VaultV1) r | _ => None end;
  legacy_auth_from_slice j := fst <$> get (A := AccountAuthMaterial) j;
  legacy_tokens_from_slice j := fst <$> get (A := list StoredToken) j;
|}.

#[export] Instance toy_vault_json_laws : VaultJsonLaws.
Proof.
  intros v j Hj. assert (j = x00 :: put v) as -> by (by injection Hj). split; [done|].
  pose proof (get_put (A := VaultV1) v []) as H. rewrite app_nil_r in H.
  change ((λ p, wire_of p.1) <$> get (A := VaultV1) (put v) = Some (wire_of v)). by rewrite H.
Qed.

(** The nonce, a tag over nonce, text and context, and the text. *)
#[export] Instance toy_sealer : PlatformSealer := {|
  sealer_seal nonce p aad := put nonce ++ mac [] nonce aad p ++ p;
  sealer_open c aad :=
    '(nonce, r) ← get (A := bytes) c;
    let p := drop 16 r in if bool_decide (take 16 r = mac [] nonce aad p) then Some p else None;
|}.

#[export] Instance toy_sealer_laws : PlatformSealerLaws.
Proof.
  intros n p aad. cbv [sealer_open sealer_seal toy_sealer]. rewrite get_put, Some_bind.
  rewrite drop_app_length', take_app_length' by (by rewrite length_mac). by rewrite bool_decide_true.
Qed.

(** Signatures as wide as the modulus. *)
#[export] Instance wide_blind_rsa : BlindRsa := {|
  RsaPublicKey := bytes;
  RsaSecretKey := bytes;
  rsa_pk_from_der := λ d, Some d;
  rsa_pk_to_der := λ d, Some d;
  rsa_sk_from_der := λ d, Some d;
  rsa_public_key := λ d, Some d;
  rsa_verify := λ pk sig msg, bool_decide (sig = fit 256 (digest (pk ++ msg)));
  rsa_blind := λ pk rnd m, Some {| blind_message := fit 256 (digest (rnd ++ m)); secret := fit 256 rnd; msg_randomizer := None |};
  rsa_blind_sign := λ sk bm, Some (fit 256 (digest (sk ++ bm)));
  rsa_finalize := λ pk bs st m,
    if decide (bs = fit 256 (digest (pk ++ blind_message st))) then Some (fit 256 (digest (pk ++ m))) else None;
|}.

#[export] Instance wide_blind_rsa_laws : BlindRsaLaws.
Proof.
  split; cbn; intros.
  - case_decide; [|done]. apply bool_decide_eq_true. congruence.
  - simplify_eq. eexists _, _. split; [done|]. by rewrite decide_True.
Qed.

End ToyVault.

Section VaultWitnesses.
Import Toy ToyCodec ToyVault.

Definition w_pass (b : byte) : StoredToken :=
  {| st_msg := to_hex (replicate 32 b); st_token := to_hex (replicate 256 b) |}.

Definition w_io (sync : bool) : VaultIo := {|
  io_inspect := true; io_open := true; io_draws := [replicate 32 x07]; io_seal := Some [x05]; io_parent := true; io_temp := true;
  io_rename := true; io_sync_parent := sync |}.

(** Two passes are stored, one is reserved, and the power fails after a sync that did. *)
Definition w_stored : VaultDisk := (vault_op (OpAdd [w_pass x01; w_pass x02]) fresh_disk (w_io true)).1.
Definition w_reserved : VaultDisk := (vault_op OpReserve w_stored (w_io true)).1.
Definition w_reservation : TokenReservation :=
  {| tr_reservation_id := to_hex (replicate 32 x07); tr_token := w_pass x01 |}.
Definition w_unsynced : VaultDisk :=
  (vault_op (OpCommitRedemption (tr_reservation_id w_reservation)) w_reserved (w_io false)).1.

Lemma w_io_draws b : draws_ok (io_draws (w_io b)).
Proof. by repeat constructor. Qed.

Lemma w_run_stored : disk_run fresh_disk [VEv (OpAdd [w_pass x01; w_pass x02]) (Ok tt)] w_stored.
Proof.
  apply (dr_snoc _ [] fresh_disk); [constructor|]. apply (ds_op _ _ (w_io true)); [apply w_io_draws|].
  vm_compute. reflexivity.
Qed.

Lemma w_run_reserved :
  disk_run fresh_disk ([VEv (OpAdd [w_pass x01; w_pass x02]) (Ok tt)] ++ [VEv OpReserve (Ok (Some w_reservation))]) w_reserved.
Proof.
  apply (dr_snoc _ _ w_stored); [apply w_run_stored|]. apply (ds_op _ _ (w_io true)); [apply w_io_draws|].
  vm_compute. reflexivity.
Qed.

Definition w_add : VaultEvent := VEv (OpAdd [w_pass x01; w_pass x02]) (Ok tt).
Definition w_reserve : VaultEvent := VEv OpReserve (Ok (Some w_reservation)).
Definition w_commit (r : result VaultError unit) : VaultEvent := VEv (OpCommitRedemption (tr_reservation_id w_reservation)) r.

Definition w_back : VaultDisk := {| d_entry := d_entry w_reserved; d_prior := [] |}.

(** The completion is reported failed and lost with the power. *)
Lemma w_run_back : disk_run fresh_disk (([w_add] ++ [w_reserve]) ++ [w_commit (Err VaultIoError)] ++ [PowerLoss]) w_back.
Proof.
  rewrite (app_assoc _ [w_commit _]). apply (dr_snoc _ _ w_unsynced).
  - apply (dr_snoc _ _ w_reserved); [apply w_run_reserved|]. apply (ds_op _ _ (w_io false)); [apply w_io_draws|].
    vm_compute. reflexivity.
  - unfold w_back. apply ds_power. right. vm_compute. left.
Qed.

Lemma vault_is_transactional_witness :
  disk_run fresh_disk (([w_add] ++ [w_reserve]) ++ [w_commit (Err VaultIoError)] ++ [PowerLoss]) w_back ∧
  ∃ s, spec_run fresh_state (([w_add] ++ [w_reserve]) ++ [w_commit (Err VaultIoError)] ++ [PowerLoss]) s ∧ represents w_back s ∧
    Forall vault_ok (vs_images s) ∧ (∀ io, io_inspect io = true → io_open io = true → vault_load w_back io = Ok (vs_now s)).
Proof. split; [exact w_run_back|]. exact (vault_is_transactional _ _ w_run_back). Defined.

Lemma pass_leaves_for_a_reason_witness :
  stores (w_pass x02) [] w_add ∧
  ((∀ io v, vault_load w_reserved io = Ok v → w_pass x02 ∈ passes v) ∨
   ∃ tr3 e' tr4 d' v, [w_reserve] = tr3 ++ e' :: tr4 ∧ disk_run fresh_disk ([] ++ w_add :: tr3) d' ∧
     image_of (d_entry d') v ∧ lets_go (w_pass x02) (v_pending_redemption v) e').
Proof.
  assert (Hs : stores (w_pass x02) [] w_add) by (split; [reflexivity|right; left]).
  split; [exact Hs|]. exact (pass_leaves_for_a_reason [] w_add [w_reserve] w_reserved (w_pass x02) w_run_reserved Hs).
Defined.

Lemma same_pass_until_completed_witness :
  ∃ d, disk_run fresh_disk ([w_add] ++ w_reserve :: [PowerLoss] ++ [w_reserve]) d ∧ hands_out w_reservation w_reserve ∧
    w_reservation = w_reservation.
Proof.
  assert (Hr : disk_run fresh_disk ([w_add] ++ w_reserve :: [PowerLoss] ++ [w_reserve])
    (vault_op OpReserve {| d_entry := d_entry w_reserved; d_prior := [] |} (w_io true)).1).
  { change ([w_add] ++ w_reserve :: [PowerLoss] ++ [w_reserve]) with ((([w_add] ++ [w_reserve]) ++ [PowerLoss]) ++ [w_reserve]).
    eapply dr_snoc; [eapply dr_snoc; [exact w_run_reserved|apply ds_power; left]|].
    apply (ds_op _ _ (w_io true)); [apply w_io_draws|]. vm_compute. reflexivity. }
  eexists. split; [exact Hr|]. split; [reflexivity|].
  apply (same_pass_until_completed [w_add] w_reserve [PowerLoss] w_reserve _ w_reservation w_reservation Hr eq_refl eq_refl).
  constructor; [exact (λ H : False, H)|constructor].
Defined.

(** Log-out, another pass, its reservation and its completion. *)
Definition w_cleared : VaultDisk := (vault_op OpClearAll w_reserved (w_io true)).1.
Definition w_again : VaultDisk := (vault_op (OpAdd [w_pass x01; w_pass x02]) w_cleared (w_io true)).1.
Definition w_again_reserved : VaultDisk := (vault_op OpReserve w_again (w_io true)).1.
Definition w_completed : VaultDisk :=
  (vault_op (OpCommitRedemption (tr_reservation_id w_reservation)) w_again_reserved (w_io true)).1.

Lemma stale_completion_refused_witness :
  wiped (VEv OpClearAll (Ok tt)) ∧ completed (w_commit (Ok tt)) ∧
  begun w_cleared ([w_add] ++ [w_reserve]) w_again_reserved (w_commit (Ok tt)).
Proof.
  assert (H1 : disk_step w_reserved (VEv OpClearAll (Ok tt)) w_cleared).
  { apply (ds_op _ _ (w_io true)); [apply w_io_draws|]. vm_compute. reflexivity. }
  assert (H2 : disk_run w_cleared ([w_add] ++ [w_reserve]) w_again_reserved).
  { apply (dr_snoc _ _ w_again); [apply (dr_snoc _ [] w_cleared); [constructor|]|];
      apply (ds_op _ _ (w_io true)); try apply w_io_draws; vm_compute; reflexivity. }
  assert (H3 : disk_step w_again_reserved (w_commit (Ok tt)) w_completed).
  { apply (ds_op _ _ (w_io true)); [apply w_io_draws|]. vm_compute. reflexivity. }
  assert (Hw : wiped (VEv OpClearAll (Ok tt))) by (split; [reflexivity|exact I]).
  assert (Hc : completed (w_commit (Ok tt))) by (split; [reflexivity|exact I]).
  split; [exact Hw|]. split; [exact Hc|]. exact (stale_completion_refused _ _ _ _ _ _ _ _ w_run_reserved H1 H2 H3 Hw Hc).
Defined.

(** A failed write can stand: the directory's sync fails after the rename, the operation reports
    an error, and the next load shows its result. *)
Example failed_write_stands :
  (vault_op (OpCommitRedemption (tr_reservation_id w_reservation)) w_reserved (w_io false)).2 = Err VaultIoError ∧
  (v_last_redemption_id <$> vault_load w_unsynced (w_io true)) = Ok (Some (tr_reservation_id w_reservation)) ∧
  (v_last_redemption_id <$> vault_load w_reserved (w_io true)) = Ok None.
Proof. vm_compute. done. Qed.

(** Two plaintext files become a vault. *)
Definition w_account : AccountAuthMaterial :=
  {| am_account_number := to_hex (replicate 32 x0a); am_auth_seed := to_hex (replicate 32 x0b) |}.

Definition w_legacy_file (b : bytes) : option PrivateFile := Some {| e_kind := RegularFile; e_mode := 384; e_bytes := b |}.

Definition w_legacy : LegacyDisk := {|
  ld_vault := fresh_disk;
  ld_auth := w_legacy_file (put (am_account_number w_account, am_auth_seed w_account));
  ld_tokens := w_legacy_file (put [(st_msg (w_pass x01), st_token (w_pass x01))]) |}.

Definition w_migrate : MigrateIo := {|
  mg_io := w_io true; mg_verify := w_io true; mg_unlink := true; mg_remove_auth := {| rm_inspect := true; rm_unlink := true; rm_sync := true |};
  mg_remove_tokens := {| rm_inspect := true; rm_unlink := true; rm_sync := true |} |}.

Definition w_migrated : LegacyDisk := (migrate_legacy w_legacy true w_migrate).1.

Lemma migration_keeps_credentials_witness :
  migrate_legacy w_legacy true w_migrate = (w_migrated, Ok (Migrated true 1)) ∧
  ld_auth w_migrated = None ∧ ld_tokens w_migrated = None.
Proof.
  assert (H : migrate_legacy w_legacy true w_migrate = (w_migrated, Ok (Migrated true 1))) by (vm_compute; reflexivity).
  split; [exact H|]. exact (proj2 (migration_keeps_credentials _ _ _ _ _ H) true 1%nat eq_refl).
Defined.

End VaultWitnesses.

Section WalletWitnesses.
Import Toy ToyVault.

Definition w_key : bytes := replicate 8 x11.
Definition w_client : TokenClient := with_base_url true (effective_issuer_pins (Some [w_key]) None).
Definition w_clock : Z := 1000000.

(** A portal that has been paid signs what it is sent. *)
Definition w_portal (r : IssueRequest) : Reply bytes :=
  match from_hex (iq_blind_msg r) with
  | Some b => match rsa_blind_sign w_key b with Some s => Body (to_hex_fmt s) | None => Status 500 end
  | None => Status 400
  end.

(** Everything works, except that the portal's answer may be lost. *)
Definition w_env (lost : bool) (op : WalletOp) (d : VaultDisk) : VaultDisk * wanswer op :=
  match op return VaultDisk * wanswer op with
  | OnVault op => vault_op op d (w_io true)
  | Now => (d, Some w_clock)
  | MessageEntropy => (d, (Some w_clock, λ i, Some (replicate 20 (z2b (Z.of_nat i)))))
  | BlindingEntropy => (d, replicate 16 x2a)
  | RequestId => (d, Some (replicate 32 x0c))
  | GetPubkey => (d, Body (to_hex_fmt w_key))
  | PostIssue r => (d, if lost then NetDown else w_portal r)
  | PostChallenge => (d, NetDown)
  | PostStatus _ => (d, NetDown)
  | PostMint _ => (d, NetDown)
  | Preflight | ArmLeakGuard | EngineConnect _ | NativeStart _ | NativeStop | ResolveStart _ => (d, true)
  | NativeStatus => (d, None)
  | NativePrepare => (d, None)
  | EngineDisconnect | LockLifecycle | LockGate | BumpGeneration => (d, tt)
  | Generation => (d, 0)
  end.

Lemma w_env_ok lost op d : wallet_perform op d (w_env lost op d).1 (w_env lost op d).2.
Proof.
  destruct op; cbn; try reflexivity. exists (w_io true). split; [apply w_io_draws|apply surjective_pairing].
Qed.

Definition w_config : ConnectConfig :=
  {| cf_coordinator_configured := true; cf_coordinator_safe := true; cf_datapath_configured := true |}.

(** The purchase is tried twice, the first answer is lost; then the pass is spent. *)
Definition w_first := alone (command w_client) (w_env true) 1 (CBuy (str "order")) fresh_disk.
Definition w_second := alone (command w_client) (w_env false) 1 (CBuy (str "order")) w_first.1.2.
Definition w_third := alone (command w_client) (w_env false) 1 (CConnect w_config) w_second.1.2.

Definition w_bought : list Event := ([] ++ w_first.1.1) ++ w_second.1.1.
Definition w_spent : list Event := w_bought ++ w_third.1.1.

Lemma w_bought_run : wallet_runs w_client w_bought w_second.1.2 ∅.
Proof.
  refine (alone_run_eq _ _ _ _ _ (w_env_ok false) 1 (CBuy (str "order")) _ _ _).
  refine (alone_run_eq _ _ _ _ _ (w_env_ok true) 1 (CBuy (str "order")) _ _ _). by constructor.
Qed.

Lemma w_spent_run : wallet_runs w_client w_spent w_third.1.2 ∅.
Proof. exact (alone_run_eq _ _ _ _ _ (w_env_ok false) 1 (CConnect w_config) _ _ w_bought_run). Qed.

Example w_outcomes : w_first.2 = Err Unreachable ∧ w_second.2 = Ok 1%nat ∧ w_third.2 = Ok 0%nat.
Proof. vm_compute. done. Qed.

Definition loaded (r : result VaultError VaultV1) : VaultV1 := match r with Ok v => v | Err _ => vault_empty end.
Definition w_vault : VaultV1 := loaded (vault_load w_second.1.2 (w_io true)).
Definition w_held : StoredToken := hd (w_pass x00) (v_tokens w_vault).
Definition w_release_verifier : Verifier := {| vkeys := [(key_epoch w_key, w_key)] |}.

Lemma wallet_passes_verify_witness :
  from_public_ders [w_key] = Ok w_release_verifier ∧ vault_load w_second.1.2 (w_io true) = Ok w_vault ∧
  w_held ∈ passes w_vault ∧
  ∃ msg sig, from_hex (st_msg w_held) = Some msg ∧ from_hex (st_token w_held) = Some sig ∧
    verify w_release_verifier sig msg = true.
Proof.
  assert (H1 : from_public_ders [w_key] = Ok w_release_verifier) by reflexivity.
  assert (H2 : vault_load w_second.1.2 (w_io true) = Ok w_vault) by (vm_compute; reflexivity).
  assert (H3 : w_held ∈ passes w_vault) by (vm_compute; left).
  split; [exact H1|]. split; [exact H2|]. split; [exact H3|].
  exact (wallet_passes_verify true [w_key] None _ _ _ _ _ _ _ H1 w_bought_run H2 H3).
Defined.

(** No vault operation of the purchase failed. *)
Definition w_confirmed (e : VaultEvent) : bool := match e with VEv _ r => is_ok r | PowerLoss => true end.

Lemma w_all_confirmed :
  Forall (λ e, ¬ unconfirmed_begin begins_any_paid e ∧ ¬ unconfirmed_begin begins_any_mint e) (w_bought ≫= event_trace).
Proof.
  assert (H : forallb w_confirmed (w_bought ≫= event_trace) = true) by (vm_compute; reflexivity).
  apply forallb_Forall_true in H. eapply Forall_impl; [exact H|]. intros e He.
  split; intros [_ Hc]; (destruct e; [cbn in He; congruence|done]).
Qed.

Lemma retries_are_identical_witness :
  Forall (λ e, ¬ unconfirmed_begin begins_any_paid e ∧ ¬ unconfirmed_begin begins_any_mint e) (w_bought ≫= event_trace) ∧
  (∀ r1 r2, Exists (sends (PostIssue r1)) w_bought → Exists (sends (PostIssue r2)) w_bought →
    r1 = r2 ∨ ∃ p, (r1 = issue_request p ∨ r2 = issue_request p) ∧
      dropped v_pending_paid_issue drops_paid fresh_disk p (w_bought ≫= event_trace) w_second.1.2).
Proof.
  split; [exact w_all_confirmed|].
  exact (proj1 (retries_are_identical w_client w_bought _ _ w_bought_run w_all_confirmed)).
Defined.

Definition log_of (x : option Event) : list (Act wanswer) := match x with Some (Performed _ _ l _) => l | _ => [] end.
Definition w_log : list (Act wanswer) := log_of (w_third.1.1 !! 8%nat).

Lemma pass_spent_only_on_tunnel_witness :
  Performed 1 (CConnect w_config) w_log (Acted (OnVault (OpCommitRedemption (tr_reservation_id w_reservation))) (Ok tt)) ∈ w_spent ∧
  tunnel_up (CConnect w_config) (tr_reservation_id w_reservation) w_log.
Proof.
  assert (H : Performed 1 (CConnect w_config) w_log
    (Acted (OnVault (OpCommitRedemption (tr_reservation_id w_reservation))) (Ok tt)) ∈ w_spent).
  { apply elem_of_app. right. apply (list_elem_of_lookup_2 _ 8). vm_compute. reflexivity. }
  split; [exact H|]. exact (pass_spent_only_on_tunnel w_client _ _ _ _ _ _ _ _ w_spent_run H).
Defined.

End WalletWitnesses.
