(* ===== verification/World.v ===== *)
(** * Programs that change a world

    A program ([Prog]) run on its own over a world that its actions change.  [always I p w Q]:
    however the actions turn out, [I] holds of the world after each of them, and [Q] of the
    result and the world at the end. *)

From S2P Require Import Prelude.
From S2P Require Import Prog.
From stdpp Require Import prelude.

Section World.
Context {action : Type} {answer : action → Type} {W : Type}.
Context (perform : ∀ op, W → W → answer op → Prop).

Fixpoint always {A} (I : W → Prop) (p : prog answer A) (w : W) (Q : A → W → Prop) : Prop :=
  match p with
  | Ret a => Q a w
  | Do op k => ∀ w' r, perform op w w' r → I w' ∧ always I (k r) w' Q
  end.

(** The states a program goes through. *)
Inductive goes {A} : prog answer A → W → prog answer A → W → Prop :=
  | goes_here p w : goes p w p w
  | goes_on op k w w' r q w'' : perform op w w' r → goes (k r) w' q w'' → goes (Do op k) w q w''.

Lemma always_goes {A} I (p q : prog answer A) w w' Q :
  always I p w Q → goes p w q w' → always I q w' Q ∧ (I w → I w').
Proof.
  intros Hp Hg. induction Hg as [|op k w w1 r q w2 Hop _ IH]; [done|].
  destruct (Hp _ _ Hop) as [HI Hk]. destruct (IH Hk) as [Hq Hi]. split; [done|]. intros _. by apply Hi.
Qed.

Lemma always_mono {A} (I I' : W → Prop) (p : prog answer A) w (Q Q' : A → W → Prop) :
  (∀ w, I w → I' w) → (∀ a w, Q a w → Q' a w) → always I p w Q → always I' p w Q'.
Proof.
  intros HI HQ. revert w. induction p as [a|op k IH]; cbn; intros w; [apply HQ|].
  intros Hk w' r Hr. destruct (Hk _ _ Hr) as [? ?]. split; [by apply HI|by apply IH].
Qed.

Lemma always_post {A} (I : W → Prop) (p : prog answer A) w (Q Q' : A → W → Prop) :
  (∀ a w, Q a w → Q' a w) → always I p w Q → always I p w Q'.
Proof. intros HQ. by apply always_mono. Qed.

Lemma always_bind {A B} I (p : prog answer A) (f : A → prog answer B) w Q :
  always I p w (λ a w, always I (f a) w Q) → always I (prog_bind p f) w Q.
Proof.
  revert w. induction p as [a|op k IH]; cbn; intros w; [done|].
  intros Hk w' r Hr. destruct (Hk _ _ Hr) as [? ?]. split; [done|by apply IH].
Qed.

Lemma always_try {E A B} I (p : prog answer (result E A)) (f : A → prog answer (result E B)) w Q :
  always I p w (λ r w, match r with Ok a => always I (f a) w Q | Err e => Q (Err e) w end) →
  always I (try_bind p f) w Q.
Proof. intros H. apply always_bind. eapply always_post; [|exact H]. by intros [a|e]. Qed.

Lemma always_map {A B} I (p : prog answer A) (f : A → B) w Q :
  always I p w (λ a w, Q (f a) w) → always I (prog_map f p) w Q.
Proof. intros H. by apply always_bind. Qed.

Lemma always_call op I w (Q : answer op → W → Prop) :
  (∀ w' r, perform op w w' r → I w' ∧ Q r w') → always I (call op) w Q.
Proof. done. Qed.

(** What a step keeps and what it does can be shown apart. *)
Lemma always_and {A} I1 I2 (p : prog answer A) w Q1 Q2 :
  always I1 p w Q1 → always I2 p w Q2 → always (λ w, I1 w ∧ I2 w) p w (λ a w, Q1 a w ∧ Q2 a w).
Proof.
  revert w. induction p as [a|op k IH]; cbn; intros w; [done|].
  intros H1 H2 w' r Hr. destruct (H1 _ _ Hr), (H2 _ _ Hr). split; [done|]. by apply IH.
Qed.

Lemma always_inv {A} I (p : prog answer A) w Q :
  I w → always I p w Q → always I p w (λ a w, I w ∧ Q a w).
Proof.
  revert w. induction p as [a|op k IH]; cbn; intros w Hw; [done|].
  intros H w' r Hr. destruct (H _ _ Hr). split; [done|]. by apply IH.
Qed.

(** A postcondition that needs more than the invariant does. *)
Lemma always_when {A} (P : Prop) I I' (p : prog answer A) w Q Q' :
  always I p w Q → (P → always I' p w Q') → always I p w (λ a w, Q a w ∧ (P → Q' a w)).
Proof.
  revert w. induction p as [a|op k IH]; cbn; intros w; [done|].
  intros H1 H2 w' r Hr. destruct (H1 _ _ Hr). split; [done|]. apply IH; [done|].
  intros HP. by destruct (H2 HP _ _ Hr).
Qed.

End World.

(** Fewer ways for an action to turn out. *)
Lemma always_sub {action} {answer : action → Type} {W A} (fewer perform : ∀ op, W → W → answer op → Prop)
    I (p : prog answer A) w Q :
  (∀ op w w' r, fewer op w w' r → perform op w w' r) → always perform I p w Q → always fewer I p w Q.
Proof.
  intros Hs. revert w. induction p as [a|op k IH]; cbn; intros w H; [done|].
  intros w' r Hr. destruct (H _ _ (Hs _ _ _ _ Hr)). split; [done|]. by apply IH.
Qed.

(** Take a program apart at its binds. *)
Ltac always_step :=
  lazymatch goal with
  | |- @always _ _ _ _ _ _ ?p _ _ =>
      lazymatch p with
      | @try_bind _ _ _ _ _ _ _ => apply always_try
      | @prog_bind _ _ _ _ _ _ => apply always_bind
      | @prog_map _ _ _ _ _ _ => apply always_map
      | @lift _ _ _ _ _ => unfold lift; cbn [always]
      | @Ret _ _ _ _ => cbn [always]
      end
  end.
