(* ===== verification/HostNet.v ===== *)
(** * The client's host networking on Linux ([crates/nil-datapath/src/linux.rs])

    Routes, firewall and DNS are changed by running [ip] and [iptables] and by writing
    [/etc/resolv.conf].  The code is a program ([Prog]) over those actions; [LinuxNet], the
    journal of what was changed, is passed along.  The tools are the class [HostTools]: any
    command may fail to start, may fail with or without having had its effect, and if it exits
    with 0 has had the effect documented for it. *)

From S2P Require Import Prelude.
From S2P Require Import Text.
From S2P Require Import Net.
From S2P Require Import Env.
From S2P Require Import Prog.
From S2P Require Import Ledger.
From S2P Require Import Exit.
From Stdlib Require Import Strings.Byte ZArith Lia.
From stdpp Require Import prelude gmap strings.

(** ** [String::from_utf8_lossy] *)

(** The first character of a text: its bytes, or how many bytes of a broken one are replaced. *)
Definition utf8_next (s : bytes) : bool * nat :=
  match s with
  | [] => (true, 0)
  | a :: s =>
      if in_range 0 127 a then (true, 1)
      else if in_range 194 223 a then
        match s with b :: _ => if utf8_cont b then (true, 2) else (false, 1) | [] => (false, 1) end
      else if in_range 224 239 a then
        match s with
        | b :: s =>
            if (if (b2z a =? 224)%Z then in_range 160 191 b
                else if (b2z a =? 237)%Z then in_range 128 159 b else utf8_cont b)
            then match s with c :: _ => if utf8_cont c then (true, 3) else (false, 2) | [] => (false, 2) end
            else (false, 1)
        | [] => (false, 1)
        end
      else if in_range 240 244 a then
        match s with
        | b :: s =>
            if (if (b2z a =? 240)%Z then in_range 144 191 b
                else if (b2z a =? 244)%Z then in_range 128 143 b else utf8_cont b)
            then match s with
                 | c :: s =>
                     if utf8_cont c
                     then match s with d :: _ => if utf8_cont d then (true, 4) else (false, 3) | [] => (false, 3) end
                     else (false, 2)
                 | [] => (false, 2)
                 end
            else (false, 1)
        | [] => (false, 1)
        end
      else (false, 1)
  end.

Fixpoint lossy (fuel : nat) (s : bytes) : bytes :=
  match fuel, s with
  | 0, _ | _, [] => []
  | S fuel, _ =>
      let '(good, n) := utf8_next s in
      (if good then take n s else [xef; xbf; xbd]) ++ lossy fuel (drop n s)
  end.

(** Each step takes at least one byte. *)
Definition from_utf8_lossy (s : bytes) : bytes := lossy (length s) s.

(** ** The host *)

Definition Rule := list bytes.
Notation Chains := (gmap bytes (list Rule)).

(** A route as [ip route show] prints it: the words of its line, and of the lines of its further
    next hops if it has several. *)
Definition Route := list (list bytes).

Record Host := {
  iptables : Chains;
  ip6tables : Chains;
  (** by family ([-4], [-6]) and destination *)
  routes : gmap (bytes * bytes) (list Route);
  resolv_conf : bytes;
}.

Definition chains (v6 : bool) (h : Host) : Chains := if v6 then ip6tables h else iptables h.

Definition set_chains (v6 : bool) (cs : Chains) (h : Host) : Host :=
  {| iptables := if v6 then iptables h else cs; ip6tables := if v6 then cs else ip6tables h;
     routes := routes h; resolv_conf := resolv_conf h |}.

Definition set_routes (key : bytes * bytes) (rs : list Route) (h : Host) : Host :=
  {| iptables := iptables h; ip6tables := ip6tables h; routes := <[key := rs]> (routes h);
     resolv_conf := resolv_conf h |}.

Definition set_resolv (text : bytes) (h : Host) : Host :=
  {| iptables := iptables h; ip6tables := ip6tables h; routes := routes h; resolv_conf := text |}.

Definition routes_to (h : Host) (key : bytes * bytes) : list Route := routes h !!! key.

(** ** The commands of the tools *)

Inductive FwVerb :=
  | FwNew (chain : bytes) | FwFlush (chain : bytes) | FwDrop (chain : bytes) | FwList (chain : bytes)
  | FwAppend (chain : bytes) (rule : Rule) | FwInsert (chain : bytes) (rule : Rule)
  | FwDelete (chain : bytes) (rule : Rule) | FwCheck (chain : bytes) (rule : Rule).

Inductive Cmd :=
  | Fw (v6 : bool) (verb : FwVerb)
  | RtShow (family dest : bytes) | RtGet (family ip : bytes)
  | RtAdd (family : bytes) (words : list bytes) | RtReplace (family : bytes) (words : list bytes)
  | RtDel (family dest : bytes)
  | OtherCmd.

Definition parse_fw (v6 : bool) (args : list bytes) : Cmd :=
  match args with
  | verb :: chain :: rule =>
      if decide (verb = str "-N") then Fw v6 (FwNew chain)
      else if decide (verb = str "-F") then Fw v6 (FwFlush chain)
      else if decide (verb = str "-X") then Fw v6 (FwDrop chain)
      else if decide (verb = str "-L") then Fw v6 (FwList chain)
      else if decide (verb = str "-A") then Fw v6 (FwAppend chain rule)
      else if decide (verb = str "-D") then Fw v6 (FwDelete chain rule)
      else if decide (verb = str "-C") then Fw v6 (FwCheck chain rule)
      else if decide (verb = str "-I" ∧ head rule = Some (str "1")) then Fw v6 (FwInsert chain (tail rule))
      else OtherCmd
  | _ => OtherCmd
  end.

Definition parse_route (family : bytes) (args : list bytes) : Cmd :=
  match args with
  | obj :: verb :: words =>
      if decide (obj = str "route") then
        if decide (verb = str "show") then
          match words with
          | [dest] => RtShow family dest
          | [exact; dest] => if decide (exact = str "exact") then RtShow family dest else OtherCmd
          | _ => OtherCmd
          end
        else if decide (verb = str "get") then match words with [ip] => RtGet family ip | _ => OtherCmd end
        else if decide (verb = str "add") then RtAdd family words
        else if decide (verb = str "replace") then RtReplace family words
        else if decide (verb = str "del") then match words with [dest] => RtDel family dest | _ => OtherCmd end
        else OtherCmd
      else OtherCmd
  | _ => OtherCmd
  end.

(** IPv4 is what [ip route] works on when no family is given. *)
Definition parse_argv (argv : list bytes) : Cmd :=
  match argv with
  | prog :: args =>
      if decide (prog = str "iptables") then parse_fw false args
      else if decide (prog = str "ip6tables") then parse_fw true args
      else if decide (prog = str "ip") then
        match args with
        | fam :: args' =>
            if decide (fam = str "-4" ∨ fam = str "-6") then parse_route fam args' else parse_route (str "-4") args
        | [] => OtherCmd
        end
      else OtherCmd
  | [] => OtherCmd
  end.

(** ** What the commands do, as documented *)

Definition refers_to (c : bytes) (rule : Rule) : bool := bool_decide (option_value (str "-j") rule = Some c).

Definition remove_first (r : Rule) (l : list Rule) : list Rule :=
  (fix go l := match l with [] => [] | x :: l => if decide (x = r) then l else x :: go l end) l.

Definition has_rule (r : Rule) (l : list Rule) : bool := bool_decide (r ∈ l).

(** [None] when the command cannot succeed. *)
Definition fw_effect (verb : FwVerb) (cs : Chains) : option Chains :=
  match verb with
  | FwNew c => match cs !! c with Some _ => None | None => Some (<[c := []]> cs) end
  | FwFlush c => match cs !! c with Some _ => Some (<[c := []]> cs) | None => None end
  | FwDrop c =>
      match cs !! c with
      | Some [] =>
          if decide (Forall (λ r, refers_to c r = false) ((map_to_list cs).*2 ≫= id))
          then Some (delete c cs) else None
      | _ => None
      end
  | FwList c => match cs !! c with Some _ => Some cs | None => None end
  | FwAppend c r => rs ← cs !! c; Some (<[c := rs ++ [r]]> cs)
  | FwInsert c r => rs ← cs !! c; Some (<[c := r :: rs]> cs)
  | FwDelete c r => rs ← cs !! c; if has_rule r rs then Some (<[c := remove_first r rs]> cs) else None
  | FwCheck c r => rs ← cs !! c; if has_rule r rs then Some cs else None
  end.

Definition is_query (verb : FwVerb) : bool :=
  match verb with FwList _ | FwCheck _ _ => true | _ => false end.

Definition route_types : list bytes :=
  [str "unicast"; str "local"; str "broadcast"; str "multicast"; str "throw"; str "unreachable";
   str "prohibit"; str "blackhole"; str "nat"].

(** A host is its own prefix. *)
Definition dest_prefix (family w : bytes) : bytes :=
  if decide (w = str "default" ∨ x2f ∈ w) then w
  else w ++ (if decide (family = str "-4") then str "/32" else str "/128").

Definition route_dest (family : bytes) (words : list bytes) : bytes :=
  match words with
  | [] => []
  | w :: rest =>
      if decide (w ∈ route_types) then match rest with w' :: _ => dest_prefix family w' | [] => [] end
      else dest_prefix family w
  end.

(** Words of printable characters, as [ip] prints them: single spaces between them, perhaps one
    more at the end, and a tab before a further next hop. *)
Definition wordy (ws : list bytes) : Prop := ws ≠ [] ∧ Forall (λ w, plain w ∧ w ≠ []) ws.

Fixpoint join_words (ws : list bytes) : bytes :=
  match ws with
  | [] => []
  | [w] => w
  | w :: ws => w ++ SP :: join_words ws
  end.

Inductive prints : list (list bytes) → bytes → Prop :=
  | prints_nil : prints [] []
  | prints_line ws ls indent trail out :
      indent = [] ∨ indent = [x09] → trail = [] ∨ trail = [SP] → wordy ws → prints ls out →
      prints (ws :: ls) (indent ++ join_words ws ++ trail ++ x0a :: out).

(** A process that ran: its exit code, unless a signal ended it, and what it printed. *)
Record Exit := { code : option Z; stdout : bytes }.

Class HostTools := {
  (** what running a command can do to the host; [None]: it did not start *)
  tool : list bytes → Host → Host → option Exit → Prop;
  (** how the route that some words specify is printed *)
  shown : bytes → list bytes → list bytes → Prop;
  (** what tells apart the routes to one destination: its metric and type of service *)
  slot : bytes → list bytes → bytes;
  default_slot : bytes → bytes;
}.

Definition route_slot `{HostTools} (family : bytes) (r : Route) : bytes := slot family (default [] (head r)).

Inductive documented `{HostTools} (h : Host) : Cmd → Host → bytes → Prop :=
  | doc_fw v6 verb cs out :
      fw_effect verb (chains v6 h) = Some cs → documented h (Fw v6 verb) (set_chains v6 cs h) out
  | doc_show fam dest out :
      prints (mjoin (routes_to h (fam, dest))) out → documented h (RtShow fam dest) h out
  | doc_get fam ip out : documented h (RtGet fam ip) h out
  | doc_add fam words w rs out :
      let key := (fam, route_dest fam words) in
      shown fam words w → Forall (λ r, route_slot fam r ≠ slot fam words) (routes_to h key) →
      rs ≡ₚ [w] :: routes_to h key → documented h (RtAdd fam words) (set_routes key rs h) out
  | doc_replace_new fam words w rs out :
      let key := (fam, route_dest fam words) in
      shown fam words w → Forall (λ r, route_slot fam r ≠ slot fam words) (routes_to h key) →
      rs ≡ₚ [w] :: routes_to h key → documented h (RtReplace fam words) (set_routes key rs h) out
  | doc_replace fam words w r old rs out :
      let key := (fam, route_dest fam words) in
      shown fam words w → route_slot fam r = slot fam words →
      routes_to h key ≡ₚ r :: old → rs ≡ₚ [w] :: old →
      documented h (RtReplace fam words) (set_routes key rs h) out
  | doc_del fam dest r rs out :
      let key := (fam, dest_prefix fam dest) in
      routes_to h key ≡ₚ r :: rs → documented h (RtDel fam dest) (set_routes key rs h) out
  | doc_other out : documented h OtherCmd h out.

Class HostToolsLaws `{HostTools} : Prop := {
  tool_spawn argv h h' : tool argv h h' None → h' = h;
  tool_done argv h h' out :
    tool argv h h' (Some {| code := Some 0%Z; stdout := out |}) → documented h (parse_argv argv) h' out;
  (** a failure does not tell whether the command had its effect *)
  tool_failed argv h h' c out :
    c ≠ Some 0%Z → tool argv h h' (Some {| code := c; stdout := out |}) →
    h' = h ∨ ∃ out', documented h (parse_argv argv) h' out';
  (** [iptables] exits with 1 when what it was asked about is not there *)
  tool_absent argv h h' out v6 q :
    parse_argv argv = Fw v6 q → is_query q = true →
    tool argv h h' (Some {| code := Some 1%Z; stdout := out |}) →
    h' = h ∧ fw_effect q (chains v6 h) = None;
  shown_words fam ws w :
    shown fam ws w →
    wordy w ∧ 2 ≤ length w ∧ route_dest fam w = route_dest fam ws ∧ slot fam w = slot fam ws ∧
    (head ws = Some (str "default") → head w = Some (str "default"));
  (** the words a route is printed with specify it *)
  shown_again fam ws w w' : shown fam ws w → shown fam w w' ↔ w' = w;
  slot_unset fam dest gw dev :
    slot fam [dest; str "via"; gw; str "dev"; dev] = default_slot fam ∧
    slot fam [dest; str "dev"; dev] = default_slot fam;
}.

(** ** The code *)

Inductive NetOp :=
  | Run (argv : list bytes)
  | ReadResolv
  | WriteResolv (text : bytes).

Definition net_answer (op : NetOp) : Type :=
  match op with
  | Run _ => option Exit
  | ReadResolv => option bytes
  | WriteResolv _ => bool
  end.

Definition netprog := prog net_answer.

(** [std::fs::write] truncates the file and then writes; it may fail anywhere. *)
Definition net_perform `{HostTools} (op : NetOp) (h h' : Host) : net_answer op → Prop :=
  match op with
  | Run argv => tool argv h h'
  | ReadResolv => λ r, h' = h ∧ (r = Some (resolv_conf h) ∨ r = None)
  | WriteResolv text => λ r,
      if r : bool then h' = set_resolv text h
      else h' = h ∨ ∃ n, h' = set_resolv (take n text) h
  end.

Inductive NetError :=
  | AlreadyArmed
  | Spawn (cmd : list bytes)
  | Exited (cmd : list bytes)
  | TooManyDefaults | UnexpectedDefault | CleanupBound
  | MultipleExact (cidr : bytes)
  | NoDevice (ip : IpAddr)
  | ReadResolvFailed | WriteResolvFailed | BackupMissing
  | NoV6Drop (e : NetError)
  | RollbackIncomplete (steps : list (bytes * NetError)).

Definition succeeded (e : Exit) : bool := bool_decide (code e = Some 0%Z).

Local Open Scope prog_scope.

Definition output (argv : list bytes) : netprog (result NetError Exit) :=
  let* out := call (Run argv) in
  Ret match out with
      | None => Err (Spawn argv)
      | Some e => if succeeded e then Ok e else Err (Exited argv)
      end.

(** The same, with the output of the command left to the terminal. *)
Definition sh (argv : list bytes) : netprog (result NetError unit) :=
  let* status := call (Run argv) in
  Ret match status with
      | None => Err (Spawn argv)
      | Some e => if succeeded e then Ok tt else Err (Exited argv)
      end.

Definition command_present (argv : list bytes) : netprog (result NetError bool) :=
  let* out := call (Run argv) in
  Ret match out with
      | None => Err (Spawn argv)
      | Some e =>
          if bool_decide (code e = Some 0%Z) then Ok true
          else if bool_decide (code e = Some 1%Z) then Ok false
          else Err (Exited argv)
      end.

(** *** [CleanupErrors] ([lib.rs]) *)

Definition CleanupErrors := list (bytes * NetError).

Definition attempt (errors : CleanupErrors) (step : bytes) (r : result NetError unit) : CleanupErrors * bool :=
  match r with
  | Ok _ => (errors, true)
  | Err e => (errors ++ [(step, e)], false)
  end.

Definition is_empty (errors : CleanupErrors) : bool := match errors with [] => true | _ => false end.

Definition finish (errors : CleanupErrors) : result NetError unit :=
  if is_empty errors then Ok tt else Err (RollbackIncomplete errors).

(** *** Routes *)

Definition field (toks : list bytes) (key : bytes) : option bytes :=
  '(i, _) ← list_find (λ t, t = key) toks; toks !! S i.

Definition is_ipv4 (ip : IpAddr) : bool := match ip with V4 _ => true | V6 _ => false end.

Definition route_cidr (ip : IpAddr) : bytes :=
  ip_to_string ip ++ (if is_ipv4 ip then str "/32" else str "/128").

Definition route_family (ip : IpAddr) : bytes := if is_ipv4 ip then str "-4" else str "-6".

(** The non-blank lines of what a command printed. *)
Definition shown_lines (e : Exit) : list bytes := lines (from_utf8_lossy (stdout e)).

Definition capture_default_routes : netprog (result NetError (list bytes)) :=
  let+ out := output [str "ip"; str "-4"; str "route"; str "show"; str "default"] in
  let routes := filter (λ r, r ≠ []) (trim <$> shown_lines out) in
  if 64 <? length routes then lift (Err TooManyDefaults)
  else if existsb (λ r, negb (starts_with (str "default ") r)) routes then lift (Err UnexpectedDefault)
  else lift (Ok routes).

Fixpoint add_routes (original : list bytes) : netprog (result NetError unit) :=
  match original with
  | [] => lift (Ok tt)
  | route :: original =>
      let+ _ := sh ([str "ip"; str "-4"; str "route"; str "add"] ++ split_whitespace route) in
      add_routes original
  end.

(** [for _ in 0..n] *)
Fixpoint restore_loop (n : nat) (original : list bytes) : netprog (result NetError unit) :=
  match n with
  | 0 => lift (Err CleanupBound)
  | S n =>
      let+ current := capture_default_routes in
      if decide (current = []) then add_routes original
      else
        let+ _ := sh [str "ip"; str "-4"; str "route"; str "del"; str "default"] in
        restore_loop n original
  end.

Definition restore_default_routes (original : list bytes) : netprog (result NetError unit) :=
  restore_loop 65 original.

Record PinnedRoute := { pin_ip : IpAddr; pin_cidr : bytes; previous : option bytes }.

Definition prepare_node_route (node_ip : IpAddr) : netprog (result NetError PinnedRoute) :=
  let cidr := route_cidr node_ip in
  let+ out := output [str "ip"; route_family node_ip; str "route"; str "show"; str "exact"; cidr] in
  match filter (λ l, trim l ≠ []) (shown_lines out) with
  | [] => lift (Ok {| pin_ip := node_ip; pin_cidr := cidr; previous := None |})
  | [line] => lift (Ok {| pin_ip := node_ip; pin_cidr := cidr; previous := Some line |})
  | _ => lift (Err (MultipleExact cidr))
  end.

(** [u8::is_ascii_whitespace] *)
Definition is_ascii_whitespace (b : byte) : bool :=
  bool_decide (b ∈ [x20; x09; x0a; x0c; x0d]).

Definition remove_route_if_present (route : PinnedRoute) : netprog (result NetError unit) :=
  let fam := route_family (pin_ip route) in
  let+ out := output [str "ip"; fam; str "route"; str "show"; str "exact"; pin_cidr route] in
  if forallb is_ascii_whitespace (stdout out) then lift (Ok tt)
  else sh [str "ip"; fam; str "route"; str "del"; pin_cidr route].

Definition apply_node_route (node_ip : IpAddr) : netprog (result NetError unit) :=
  let fam := route_family node_ip in
  let+ out := output [str "ip"; fam; str "route"; str "get"; ip_to_string node_ip] in
  let toks := split_whitespace (from_utf8_lossy (stdout out)) in
  let+ dev := lift (ok_or (field toks (str "dev")) (NoDevice node_ip)) in
  let cidr := route_cidr node_ip in
  match field toks (str "via") with
  | Some gw => sh [str "ip"; fam; str "route"; str "replace"; cidr; str "via"; gw; str "dev"; dev]
  | None => sh [str "ip"; fam; str "route"; str "replace"; cidr; str "dev"; dev]
  end.

(** *** The kill switch *)

Definition CHAIN : bytes := str "NILVPN_OUTPUT".
Definition V6_CHAIN : bytes := str "NILVPN_OUTPUT6".

(** Make the chain, empty it, and jump to it from [OUTPUT] unless that is already there. *)
Definition own_chain (cmd chain : bytes) : netprog (result NetError unit) :=
  let* _ := sh [cmd; str "-N"; chain] in
  let+ _ := sh [cmd; str "-F"; chain] in
  let* present := sh [cmd; str "-C"; str "OUTPUT"; str "-j"; chain] in
  if is_ok present then lift (Ok tt)
  else sh [cmd; str "-I"; str "OUTPUT"; str "1"; str "-j"; chain].

Fixpoint except_nodes (ips : list IpAddr) : netprog (result NetError unit) :=
  match ips with
  | [] => lift (Ok tt)
  | ip :: ips =>
      let+ _ := sh [str "iptables"; str "-A"; CHAIN; str "-d"; ip_to_string ip; str "-j"; str "ACCEPT"] in
      except_nodes ips
  end.

Definition arm_kill_switch (node_ip : IpAddr) (also_except : list IpAddr) (tun : bytes) :
    netprog (result NetError unit) :=
  let ipt := str "iptables" in
  let+ _ := own_chain ipt CHAIN in
  let+ _ := sh [ipt; str "-A"; CHAIN; str "-o"; str "lo"; str "-j"; str "ACCEPT"] in
  let+ _ := sh [ipt; str "-A"; CHAIN; str "-o"; tun; str "-j"; str "ACCEPT"] in
  let node := ip_to_string node_ip in
  let+ _ := sh [ipt; str "-A"; CHAIN; str "-p"; str "udp"; str "-d"; node; str "--dport"; str "443"; str "-j"; str "ACCEPT"] in
  let+ _ := sh [ipt; str "-A"; CHAIN; str "-p"; str "tcp"; str "-d"; node; str "--dport"; str "443"; str "-j"; str "ACCEPT"] in
  let+ _ := except_nodes also_except in
  let+ _ := sh [ipt; str "-A"; CHAIN; str "-j"; str "DROP"] in
  let ipt6 := str "ip6tables" in
  let+ _ := own_chain ipt6 V6_CHAIN in
  let* _ := sh [ipt6; str "-A"; V6_CHAIN; str "-o"; str "lo"; str "-j"; str "ACCEPT"] in
  let* _ := sh [ipt6; str "-A"; V6_CHAIN; str "-o"; tun; str "-j"; str "ACCEPT"] in
  prog_map (map_err NoV6Drop) (sh [ipt6; str "-A"; V6_CHAIN; str "-j"; str "DROP"]).

Definition disarm_one (errors : CleanupErrors) (cmd chain : bytes) : netprog CleanupErrors :=
  let* jump := command_present [cmd; str "-C"; str "OUTPUT"; str "-j"; chain] in
  let* errors :=
    match jump with
    | Ok true =>
        let* r := sh [cmd; str "-D"; str "OUTPUT"; str "-j"; chain] in
        Ret (attempt errors (str "remove firewall jump") r).1
    | Ok false => Ret errors
    | Err e => Ret (attempt errors (str "inspect firewall jump") (Err e)).1
    end in
  let* listed := command_present [cmd; str "-L"; chain] in
  match listed with
  | Ok true =>
      let* r := sh [cmd; str "-F"; chain] in
      let flushed := attempt errors (str "flush firewall chain") r in
      if flushed.2 then
        let* r := sh [cmd; str "-X"; chain] in
        Ret (attempt flushed.1 (str "delete firewall chain") r).1
      else Ret flushed.1
  | Ok false => Ret errors
  | Err e => Ret (attempt errors (str "inspect firewall chain") (Err e)).1
  end.

Definition disarm_kill_switch : netprog (result NetError unit) :=
  let* errors := disarm_one [] (str "iptables") CHAIN in
  let* errors := disarm_one errors (str "ip6tables") V6_CHAIN in
  Ret (finish errors).

Definition dns_text (dns : list IpAddr) : bytes :=
  dns ≫= λ ip, str "nameserver " ++ ip_to_string ip ++ [x0a].

Definition write_resolv (text : bytes) : netprog (result NetError unit) :=
  let* ok := call (WriteResolv text) in Ret (if ok : bool then Ok tt else Err WriteResolvFailed).

Definition set_dns (dns : list IpAddr) : netprog (result NetError unit) := write_resolv (dns_text dns).

(** *** [LinuxNet] *)

Record LinuxNet := {
  armed : bool;
  orig_defaults : list bytes;
  default_changed : bool;
  resolv_backup : option bytes;
  dns_touched : bool;
  firewall_touched : bool;
  pinned_routes : list PinnedRoute;
}.

Definition linux_default : LinuxNet :=
  {| armed := false; orig_defaults := []; default_changed := false; resolv_backup := None;
     dns_touched := false; firewall_touched := false; pinned_routes := [] |}.

Definition set_armed b n := {| armed := b; orig_defaults := orig_defaults n; default_changed := default_changed n;
  resolv_backup := resolv_backup n; dns_touched := dns_touched n; firewall_touched := firewall_touched n;
  pinned_routes := pinned_routes n |}.
Definition set_orig_defaults l n := {| armed := armed n; orig_defaults := l; default_changed := default_changed n;
  resolv_backup := resolv_backup n; dns_touched := dns_touched n; firewall_touched := firewall_touched n;
  pinned_routes := pinned_routes n |}.
Definition set_default_changed b n := {| armed := armed n; orig_defaults := orig_defaults n; default_changed := b;
  resolv_backup := resolv_backup n; dns_touched := dns_touched n; firewall_touched := firewall_touched n;
  pinned_routes := pinned_routes n |}.
Definition set_resolv_backup o n := {| armed := armed n; orig_defaults := orig_defaults n; default_changed := default_changed n;
  resolv_backup := o; dns_touched := dns_touched n; firewall_touched := firewall_touched n;
  pinned_routes := pinned_routes n |}.
Definition set_dns_touched b n := {| armed := armed n; orig_defaults := orig_defaults n; default_changed := default_changed n;
  resolv_backup := resolv_backup n; dns_touched := b; firewall_touched := firewall_touched n;
  pinned_routes := pinned_routes n |}.
Definition set_firewall_touched b n := {| armed := armed n; orig_defaults := orig_defaults n; default_changed := default_changed n;
  resolv_backup := resolv_backup n; dns_touched := dns_touched n; firewall_touched := b;
  pinned_routes := pinned_routes n |}.
Definition set_pinned_routes l n := {| armed := armed n; orig_defaults := orig_defaults n; default_changed := default_changed n;
  resolv_backup := resolv_backup n; dns_touched := dns_touched n; firewall_touched := firewall_touched n;
  pinned_routes := l |}.

Record ArmParams := {
  node_ip : IpAddr;
  ap_tun_name : bytes;
  ap_dns : list IpAddr;
  ap_kill_switch : bool;
  ap_also_except : list IpAddr;
}.

Definition Armed := (LinuxNet * result NetError unit)%type.

(** [?] in a method: an error ends it, and what it had written to [self] stays. *)
Definition or_return {A} (self : LinuxNet) (p : netprog (result NetError A)) (f : A → netprog Armed) : netprog Armed :=
  let* r := p in match r with Ok a => f a | Err e => Ret (self, Err e) end.

Fixpoint pin_fallbacks (self : LinuxNet) (ips : list IpAddr) : netprog LinuxNet :=
  match ips with
  | [] => Ret self
  | ip :: ips =>
      let* r := prepare_node_route ip in
      match r with
      | Ok route =>
          let self := set_pinned_routes (pinned_routes self ++ [route]) self in
          let* _ := apply_node_route ip in pin_fallbacks self ips
      | Err _ => pin_fallbacks self ips
      end
  end.

Definition arm (p : ArmParams) (self : LinuxNet) : netprog Armed :=
  if armed self then Ret (self, Err AlreadyArmed)
  else
    let self := set_armed true self in
    let* _ := sh [str "ethtool"; str "-K"; ap_tun_name p; str "tx"; str "off"] in
    or_return self capture_default_routes (λ defaults,
    let self := set_orig_defaults defaults self in
    or_return self (prepare_node_route (node_ip p)) (λ node_route,
    let self := set_pinned_routes (pinned_routes self ++ [node_route]) self in
    or_return self (apply_node_route (node_ip p)) (λ _,
    let* self := pin_fallbacks self (ap_also_except p) in
    let self := if ap_kill_switch p then set_firewall_touched true self else self in
    or_return self
      (if ap_kill_switch p then arm_kill_switch (node_ip p) (ap_also_except p) (ap_tun_name p)
       else lift (Ok tt)) (λ _,
    let self := set_default_changed true self in
    or_return self (sh [str "ip"; str "route"; str "replace"; str "default"; str "dev"; ap_tun_name p]) (λ _,
    if decide (ap_dns p = []) then Ret (self, Ok tt)
    else
      let* read := call ReadResolv in
      or_return self (lift (ok_or (E := NetError) read ReadResolvFailed)) (λ original,
      let self := set_dns_touched true (set_resolv_backup (Some original) self) in
      or_return self (set_dns (ap_dns p)) (λ _, Ret (self, Ok tt)))))))).

(** *** [teardown] *)

Definition restore_dns (self : LinuxNet) (errors : CleanupErrors) : netprog (LinuxNet * CleanupErrors) :=
  if dns_touched self then
    let* r := match resolv_backup self with
              | Some orig => write_resolv orig
              | None => Ret (Err BackupMissing)
              end in
    let done := attempt errors (str "restore /etc/resolv.conf") r in
    Ret (if done.2 then set_dns_touched false self else self, done.1)
  else Ret (self, errors).

Definition restore_defaults (self : LinuxNet) (errors : CleanupErrors) : netprog (LinuxNet * CleanupErrors) :=
  if default_changed self then
    let* r := restore_default_routes (orig_defaults self) in
    let done := attempt errors (str "restore default route") r in
    Ret (if done.2 then set_default_changed false self else self, done.1)
  else Ret (self, errors).

Definition restore_pin (route : PinnedRoute) : netprog (result NetError unit) :=
  match previous route with
  | Some previous =>
      sh ([str "ip"; route_family (pin_ip route); str "route"; str "replace"] ++ split_whitespace previous)
  | None => remove_route_if_present route
  end.

(** The routes that could not be restored, last first. *)
Fixpoint restore_pins (routes failed : list PinnedRoute) (errors : CleanupErrors) :
    netprog (list PinnedRoute * CleanupErrors) :=
  match routes with
  | [] => Ret (failed, errors)
  | route :: routes =>
      let* r := restore_pin route in
      let done := attempt errors (str "restore pinned node route") r in
      restore_pins routes (if done.2 then failed else failed ++ [route]) done.1
  end.

Definition release_firewall (self : LinuxNet) (errors : CleanupErrors) : netprog (LinuxNet * CleanupErrors) :=
  if is_empty errors && firewall_touched self then
    let* r := disarm_kill_switch in
    let done := attempt errors (str "remove NIL firewall chains") r in
    Ret (if done.2 then set_firewall_touched false self else self, done.1)
  else Ret (self, errors).

Definition still_armed (n : LinuxNet) : bool :=
  dns_touched n || default_changed n || negb (bool_decide (pinned_routes n = [])) || firewall_touched n.

Definition teardown (self : LinuxNet) : netprog Armed :=
  if negb (armed self) then Ret (self, Ok tt)
  else
    let* s := restore_dns self [] in
    let* s := restore_defaults s.1 s.2 in
    let* pins := restore_pins (rev (pinned_routes s.1)) [] s.2 in
    let self := set_pinned_routes (rev pins.1) s.1 in
    let* s := release_firewall self pins.2 in
    Ret (set_armed (still_armed s.1) s.1, finish s.2).
