(* ===== verification/HostText.v ===== *)
(** * Reading back what the host's tools print

    [ip route show] prints a line of words per route.  The lemmas say what the text functions of
    [HostNet] make of such lines: how many there are, which words they hold. *)

From S2P Require Import Prelude.
From S2P Require Import Text.
From S2P Require Import Env.
From S2P Require Import Ledger.
From S2P Require Import HostNet.
From Stdlib Require Import Strings.Byte ZArith Lia.
From stdpp Require Import prelude strings.

(** ** ASCII is left alone *)

Definition is_ascii (b : byte) : bool := in_range 0 127 b.

Lemma lossy_ascii fuel s : length s ≤ fuel → Forall (λ b, is_ascii b = true) s → lossy fuel s = s.
Proof.
  revert fuel. induction s as [|b s IH]; intros [|fuel] Hf Hs; cbn in Hf; try done; [lia|].
  apply Forall_cons in Hs as [Hb Hs]. cbn [lossy utf8_next]. unfold is_ascii in Hb. rewrite Hb.
  cbn. f_equal. rewrite drop_0. apply IH; [lia|done].
Qed.

Lemma from_utf8_lossy_ascii s : Forall (λ b, is_ascii b = true) s → from_utf8_lossy s = s.
Proof. by apply lossy_ascii. Qed.

Lemma graphic_is_ascii b : graphic b = true → is_ascii b = true.
Proof. unfold graphic, is_ascii. rewrite !in_range_iff. lia. Qed.

(** ** One line *)

Lemma join_words_cons w ws : ws ≠ [] → join_words (w :: ws) = w ++ SP :: join_words ws.
Proof. by destruct ws. Qed.

(** Text that starts and ends with a printable character, with nothing but printable characters
    and spaces in it. *)
Record line_body (s : bytes) : Prop := {
  lb_first : ∃ b s', s = b :: s' ∧ graphic b = true;
  lb_last : ∃ s' b, s = s' ++ [b] ∧ graphic b = true;
  lb_all : Forall (λ b, graphic b = true ∨ b = SP) s;
}.

Lemma word_body w : plain w → w ≠ [] → line_body w.
Proof.
  intros Hw Hne. unfold plain in Hw. split.
  - destruct w as [|b w]; [done|]. apply Forall_cons in Hw as [Hb _]. eauto.
  - destruct w as [|b w _] using rev_ind; [done|]. apply Forall_app in Hw as [_ [Hb _]%Forall_cons]. eauto.
  - eapply Forall_impl; [exact Hw|]. by left.
Qed.

Lemma join_words_body ws : wordy ws → line_body (join_words ws).
Proof.
  intros [Hne Hws]. induction Hws as [|w ws [Hw Hn] Hws IH]; [done|].
  pose proof (word_body w Hw Hn) as Hb. destruct ws as [|w' ws]; [done|].
  destruct IH as [_ (s2 & b2 & E2 & G2) A2]; [done|]. destruct Hb as [(b1 & s1 & E1 & G1) _ A1].
  rewrite join_words_cons by done. split.
  - exists b1, (s1 ++ SP :: join_words (w' :: ws)). split; [|done]. by rewrite E1.
  - exists (w ++ SP :: s2), b2. split; [|done]. by rewrite E2, <- app_assoc.
  - apply Forall_app. split; [done|]. apply Forall_cons. split; [by right|done].
Qed.

Lemma split_ws_join fuel ws :
  wordy ws → length (join_words ws) ≤ fuel → split_ws fuel [] (join_words ws) = ws.
Proof.
  intros [Hne Hws]. revert fuel. induction Hws as [|w ws [Hw Hn] Hws IH]; intros fuel Hf; [done|].
  destruct ws as [|w' ws].
  - cbn in Hf |- *. replace fuel with (length w + (fuel - length w)) by lia. by apply split_ws_last.
  - rewrite join_words_cons in * by done. rewrite length_app in Hf. cbn [length] in Hf.
    replace fuel with (length w + S (fuel - S (length w))) by lia.
    rewrite split_ws_field by done. f_equal. apply IH; [done|lia].
Qed.

Lemma ws_len_one b s : bool_decide (b ∈ [SP; x09]) = true → ws_len (b :: s) = Some 1.
Proof. intros H%bool_decide_eq_true. set_unfold in H. destruct H as [->|[->|[]]]; reflexivity. Qed.


Lemma split_ws_join_trail fuel ws :
  wordy ws → length (join_words ws) < fuel → split_ws fuel [] (join_words ws ++ [SP]) = ws.
Proof.
  intros [Hne Hws]. revert fuel. induction Hws as [|w ws [Hw Hn] Hws IH]; intros fuel Hf; [done|].
  destruct ws as [|w' ws].
  - cbn in Hf |- *. replace fuel with (length w + S (fuel - S (length w))) by lia.
    rewrite split_ws_field by done. by destruct (fuel - S (length w)).
  - rewrite join_words_cons in * by done. rewrite length_app in Hf. cbn [length] in Hf.
    replace fuel with (length w + S (fuel - S (length w))) by lia.
    rewrite <- app_assoc. cbn [app]. rewrite split_ws_field by done. f_equal. apply IH; [done|lia].
Qed.

Definition padding (indent trail : bytes) : Prop :=
  (indent = [] ∨ indent = [x09]) ∧ (trail = [] ∨ trail = [SP]).

Lemma split_shown_line indent ws trail :
  wordy ws → padding indent trail → split_whitespace (indent ++ join_words ws ++ trail) = ws.
Proof.
  intros Hws [Hi Ht]. unfold split_whitespace.
  assert (H : ∀ fuel, length (join_words ws ++ trail) ≤ fuel → split_ws fuel [] (join_words ws ++ trail) = ws).
  { intros fuel Hf. destruct Ht as [->| ->].
    - rewrite app_nil_r in *. by apply split_ws_join.
    - rewrite length_app in Hf. cbn in Hf. apply split_ws_join_trail; [done|lia]. }
  destruct Hi as [->| ->]; cbn [app]; [by apply H|]. cbn [length split_ws].
  change (ws_len (x09 :: join_words ws ++ trail)) with (Some 1). cbn. rewrite drop_0. by apply H.
Qed.

Lemma split_words ws : wordy ws → split_whitespace (join_words ws) = ws.
Proof.
  intros Hws. pose proof (split_shown_line [] ws [] Hws) as H. rewrite app_nil_r in H. apply H. split; by left.
Qed.

Lemma trim_body s : line_body s → trim s = s.
Proof.
  intros [(b & s' & -> & Hb) (s2 & b2 & E & Hb2) _]. unfold trim.
  rewrite trim_front_graphic by (intros ? [= <-]; done).
  apply trim_end_graphic. rewrite E, last_snoc. by intros ? [= <-].
Qed.

Lemma trim_start_tab s : line_body s → trim_start (x09 :: s) = s.
Proof.
  intros Hs. unfold trim_start. cbn [length strip_front].
  change (find (λ w, starts_with w (x09 :: s)) whitespace) with (Some [x09]). cbn [length drop].
  rewrite drop_0. destruct Hs as [(b & s' & -> & Hb) _ _].
  apply (trim_front_graphic (b :: s')). by intros ? [= <-].
Qed.

Lemma trim_end_space s : line_body s → trim_end (s ++ [SP]) = s.
Proof.
  intros Hs. unfold trim_end. rewrite length_app, Nat.add_comm, rev_app_distr. cbn [length Nat.add rev app].
  change (rev (strip_front (map (@rev byte) whitespace) (length s) (rev s)) = s).
  destruct Hs as [_ (s2 & b2 & -> & Hb2) _]. apply (trim_end_graphic (s2 ++ [b2])).
  rewrite last_snoc. by intros ? [= <-].
Qed.

Lemma trim_line indent ws trail :
  wordy ws → padding indent trail → trim (indent ++ join_words ws ++ trail) = join_words ws.
Proof.
  intros Hws [Hi Ht]. pose proof (join_words_body ws Hws) as Hb. unfold trim.
  assert (E : trim_start (indent ++ join_words ws ++ trail) = join_words ws ++ trail).
  { assert (Hb' : line_body (join_words ws) → trim_start (join_words ws ++ trail) = join_words ws ++ trail).
    { intros [(b & s' & -> & Hg) _ _]. apply trim_front_graphic. by intros ? [= <-]. }
    destruct Hi as [->| ->]; [by apply Hb'|]. cbn [app]. destruct Ht as [->| ->].
    - rewrite app_nil_r. by apply trim_start_tab.
    - unfold trim_start. cbn [length strip_front].
      change (find (λ w, starts_with w (x09 :: join_words ws ++ [SP])) whitespace) with (Some [x09]).
      cbn [length drop]. rewrite drop_0. by apply Hb'. }
  rewrite E. destruct Ht as [->| ->]; [|by apply trim_end_space]. rewrite app_nil_r.
  destruct Hb as [_ (s2 & b2 & E2 & Hb2) _]. apply trim_end_graphic. rewrite E2, last_snoc. by intros ? [= <-].
Qed.

(** ** Many lines *)

(** The lines themselves: each its words, with some padding. *)
Inductive padded : list (list bytes) → list bytes → Prop :=
  | padded_nil : padded [] []
  | padded_cons ws ls indent trail texts :
      wordy ws → padding indent trail → padded ls texts →
      padded (ws :: ls) ((indent ++ join_words ws ++ trail) :: texts).

Lemma padded_line_clean indent ws trail :
  wordy ws → padding indent trail →
  x0a ∉ indent ++ join_words ws ++ trail ∧ strip_cr (indent ++ join_words ws ++ trail) = indent ++ join_words ws ++ trail
  ∧ Forall (λ b, is_ascii b = true) (indent ++ join_words ws ++ trail).
Proof.
  intros Hws Hp. destruct (join_words_body ws Hws) as [_ (s2 & b2 & E & Hg) Ha].
  assert (Hall : Forall (λ b, graphic b = true ∨ b = SP ∨ b = x09) (indent ++ join_words ws ++ trail)).
  { assert (Hbody : Forall (λ b, graphic b = true ∨ b = SP ∨ b = x09) (join_words ws))
      by (eapply Forall_impl; [exact Ha|]; naive_solver).
    rewrite !Forall_app. destruct Hp as [[->| ->] [->| ->]]; rewrite ?Forall_cons, ?Forall_nil; naive_solver. }
  split_and!.
  - intros Hin. rewrite Forall_forall in Hall. destruct (Hall _ Hin) as [?|[?|?]]; done.
  - unfold strip_cr. rewrite app_assoc, E. destruct Hp as [_ [->| ->]].
    + rewrite app_nil_r, app_assoc, last_snoc. rewrite decide_False; [done|]. intros ->. done.
    + by rewrite last_snoc.
  - eapply Forall_impl; [exact Hall|]. intros b [Hb|[->| ->]]; [by apply graphic_is_ascii|done|done].
Qed.

Lemma prints_padded ls out :
  prints ls out → padded ls (lines out) ∧ Forall (λ b, is_ascii b = true) out.
Proof.
  induction 1 as [|ws ls indent trail out Hi Ht Hws _ [IH1 IH2]]; [split; constructor|].
  assert (Hp : padding indent trail) by done. destruct (padded_line_clean _ _ _ Hws Hp) as (Hn & Hc & Ha).
  replace (indent ++ join_words ws ++ trail ++ x0a :: out) with ((indent ++ join_words ws ++ trail) ++ x0a :: out)
    by by rewrite <- !app_assoc.
  split; [|by apply Forall_app; split; [|apply Forall_cons]].
  unfold lines. rewrite split_on_app by done. cbn [lines_of].
  pose proof (split_on_nonempty x0a out) as Hne. destruct (split_on x0a out) as [|p ps] eqn:E; [done|].
  rewrite Hc. constructor; [done..|]. unfold lines in IH1. by rewrite E in IH1.
Qed.

Lemma prints_lines ls out e : prints ls out → stdout e = out → padded ls (shown_lines e).
Proof.
  intros Hp <-. destruct (prints_padded _ _ Hp) as [H1 H2]. unfold shown_lines.
  by rewrite from_utf8_lossy_ascii.
Qed.

Lemma padded_words ls texts : padded ls texts → split_whitespace <$> texts = ls.
Proof. induction 1; cbn; [done|]. f_equal; [by apply split_shown_line|done]. Qed.

Lemma join_words_nonempty ws : wordy ws → join_words ws ≠ [].
Proof. intros Hws. destruct (join_words_body ws Hws) as [(b & s & -> & _) _ _]. done. Qed.

Lemma padded_trim ls texts :
  padded ls texts → filter (λ r, r ≠ []) (trim <$> texts) = join_words <$> ls.
Proof.
  induction 1 as [|ws ls indent trail texts Hws Hp _ IH]; [done|]. cbn [fmap list_fmap].
  rewrite filter_cons, trim_line, decide_True by (try done; by apply join_words_nonempty).
  by f_equal.
Qed.

Lemma padded_nonblank ls texts : padded ls texts → filter (λ l, trim l ≠ []) texts = texts.
Proof.
  induction 1 as [|ws ls indent trail texts Hws Hp _ IH]; [done|].
  rewrite filter_cons, trim_line, decide_True by (try done; by apply join_words_nonempty). by f_equal.
Qed.

Lemma padded_length ls texts : padded ls texts → length ls = length texts.
Proof. induction 1; cbn; auto. Qed.

Lemma padded_wordy ls texts : padded ls texts → Forall wordy ls.
Proof. induction 1; by constructor. Qed.

(** Blank output is no routes at all. *)
Lemma prints_blank ls out : prints ls out → forallb is_ascii_whitespace out = bool_decide (ls = []).
Proof.
  intros [|ws ls' indent trail out' _ _ Hws _]; [done|]. rewrite (bool_decide_eq_false_2 _) by done.
  rewrite !forallb_app. destruct (join_words_body ws Hws) as [(b & s & -> & Hb) _ _].
  replace (forallb is_ascii_whitespace (b :: s)) with false; [by rewrite andb_false_r|].
  cbn. unfold is_ascii_whitespace. rewrite (bool_decide_eq_false_2 (b ∈ _)); [done|].
  intros Hin. set_unfold in Hin. destruct Hin as [->|[->|[->|[->|[->|[]]]]]]; done.
Qed.

Lemma starts_with_default ws :
  wordy ws → starts_with (str "default ") (join_words ws) = bool_decide (head ws = Some (str "default") ∧ 2 ≤ length ws).
Proof.
  intros [Hne Hws]. apply bool_decide_ext. destruct ws as [|w ws]; [done|]. cbn [head length].
  apply Forall_cons in Hws as [[Hw Hn] Hws]. destruct ws as [|w' ws].
  - cbn. split; [|intros [_ Hl]; lia]. intros E. exfalso.
    assert (Hin : SP ∈ w). { rewrite <- (take_drop 8 w), E. apply elem_of_app. left. do 7 right. left. }
    unfold plain in Hw. rewrite Forall_forall in Hw. by apply Hw in Hin.
  - rewrite join_words_cons by done. split.
    + intros E. split; [|cbn; lia]. f_equal. revert E. unfold plain in Hw.
      assert (Hsp : SP ∉ w). { intros Hin. rewrite Forall_forall in Hw. by apply Hw in Hin. }
      destruct (decide (length w ≤ 7)) as [Hl|Hl].
      * destruct (decide (length w = 7)) as [El|El].
        { change (str "default ") with (str "default" ++ [SP]). change (length (str "default" ++ [SP])) with 8.
          rewrite take_app_ge by lia. rewrite El. cbn [Nat.sub take]. intros E.
          by apply app_inj_tail in E as [-> _]. }
        intros E. exfalso. apply (f_equal (λ l, l !! length w)) in E.
        rewrite lookup_take in E. change (length (str "default ")) with 8 in E.
        rewrite decide_True in E by lia. rewrite lookup_app_r, Nat.sub_diag in E by lia. cbn [lookup list_lookup] in E.
        destruct w as [|? [|? [|? [|? [|? [|? [|? ?]]]]]]]; cbn in E, Hl, El; try done; lia.
      * rewrite take_app_le by (change (length (str "default ")) with 8; lia). intros E. exfalso. apply Hsp.
        rewrite <- (take_drop 8 w). change (length (str "default ")) with 8 in E. rewrite E. apply elem_of_app. left. do 7 right. left.
    + intros [[= ->] _]. reflexivity.
Qed.
