(* ===== verification/KillSwitch.v ===== *)
(** * The kill switch ([arm_kill_switch] and [disarm_kill_switch] of
    [crates/nil-datapath/src/linux.rs])

    What the firewall lets out of the host ([leaves]), as the packet filter is documented to
    decide; the states its two tables go through while the code arms and disarms; that armed
    means nothing leaves but to the tunnel and the nodes. *)

From S2P Require Import Prelude.
From S2P Require Import Text.
From S2P Require Import Net.
From S2P Require Import Prog.
From S2P Require Import World.
From S2P Require Import Exit.
From S2P Require Import HostNet.
From Stdlib Require Import Strings.Byte ZArith Lia.
From stdpp Require Import prelude gmap strings.

(** ** The packet filter, as documented *)

Inductive Proto := Udp | Tcp | OtherProto.

#[global] Instance Proto_eq_dec : EqDecision Proto.
Proof. solve_decision. Defined.

(** A packet the host sends. *)
Record Egress := { eg_if : bytes; eg_dst : IpAddr; eg_proto : Proto; eg_dport : Z }.

(** An interface name that ends in [+] stands for every name it starts. *)
Definition if_matches (value name : bytes) : bool :=
  match last value with
  | Some x2b => starts_with (removelast value) name
  | _ => bool_decide (name = value)
  end.

Definition egress_holds (p : Egress) (o : bytes * bytes) : bool :=
  let '(flag, value) := o in
  if decide (flag = str "-o") then if_matches value (eg_if p)
  else if decide (flag = str "-d") then bool_decide (value = ip_to_string (eg_dst p))
  else if decide (flag = str "-p") then
    (bool_decide (value = str "udp") && bool_decide (eg_proto p = Udp))
    || (bool_decide (value = str "tcp") && bool_decide (eg_proto p = Tcp))
  else if decide (flag = str "--dport") then
    match parse_uint 65535 value with Some n => (eg_dport p =? n)%Z | None => false end
  else true.

Definition egress_flags : list bytes := [str "-o"; str "-d"; str "-p"; str "--dport"; str "-j"].

Class EgressFilter := {
  rule_hits : Rule → Egress → bool;
  (** the verdict of a target that is neither [ACCEPT], [DROP] nor a chain *)
  extension : bytes → Egress → option bool;
}.

(** A rule made of these options matches exactly the packets for which all hold. *)
Class EgressFilterLaws `{EgressFilter} : Prop :=
  rule_hits_options : ∀ rule p,
    Forall (λ o : bytes * bytes, o.1 ∈ egress_flags) (options rule) →
    rule_hits rule p = forallb (egress_holds p) (options rule).

(** The verdict of a list of rules, if it gives one; [fuel] bounds the depth of jumps. *)
Fixpoint walk `{EgressFilter} (fuel : nat) (cs : Chains) (p : Egress) (rules : list Rule) : option bool :=
  match fuel with
  | 0 => None
  | S fuel =>
      (fix go rules :=
         match rules with
         | [] => None
         | r :: rules =>
             if rule_hits r p then
               match option_value (str "-j") r with
               | None => go rules
               | Some t =>
                   if decide (t = str "ACCEPT") then Some true
                   else if decide (t = str "DROP") then Some false
                   else
                     match (match cs !! t with Some rs => walk fuel cs p rs | None => extension t p end) with
                     | Some v => Some v
                     | None => go rules
                     end
               end
             else go rules
         end) rules
  end.

(** A packet leaves unless the [OUTPUT] chain drops it.  Jumps go no deeper than there are
    chains, since the kernel refuses loops. *)
Definition leaves `{EgressFilter} (cs : Chains) (p : Egress) : Prop :=
  walk (size cs) cs p (default [] (cs !! str "OUTPUT")) ≠ Some false.

(** ** What may leave while the switch is armed *)

Definition to_node (p : ArmParams) (pkt : Egress) : Prop :=
  (ip_to_string (eg_dst pkt) = ip_to_string (node_ip p) ∧ (eg_proto pkt = Udp ∨ eg_proto pkt = Tcp) ∧ eg_dport pkt = 443%Z) ∨
  ip_to_string (eg_dst pkt) ∈ ip_to_string <$> ap_also_except p.

Definition to_tunnel (p : ArmParams) (pkt : Egress) : Prop :=
  eg_if pkt = str "lo" ∨ if_matches (ap_tun_name p) (eg_if pkt) = true.

(** IPv6 only into the tunnel; IPv4 also to the nodes. *)
Definition shielded `{EgressFilter} (p : ArmParams) (h : Host) : Prop :=
  ∀ pkt, (leaves (ip6tables h) pkt → to_tunnel p pkt) ∧ (leaves (iptables h) pkt → to_tunnel p pkt ∨ to_node p pkt).

(** ** The states of the two tables *)

Definition tool_name (v6 : bool) : bytes := if v6 then str "ip6tables" else str "iptables".
Definition chain_of (v6 : bool) : bytes := if v6 then V6_CHAIN else CHAIN.
Definition jump_to (v6 : bool) : Rule := [str "-j"; chain_of v6].

(** No chain of ours, and no rule that refers to it. *)
Record clean (v6 : bool) (cs : Chains) : Prop := {
  clean_chain : cs !! chain_of v6 = None;
  clean_output : is_Some (cs !! str "OUTPUT");
  clean_rules : map_Forall (λ _ rs, Forall (λ r, refers_to (chain_of v6) r = false) rs) cs;
}.

(** What our commands make of a clean table: is the jump there, what is in our chain. *)
Definition FwState := (bool * option (list Rule))%type.

Definition build (v6 : bool) (s : FwState) (cs : Chains) : Chains :=
  let cs := <[str "OUTPUT" := (if s.1 then [jump_to v6] else []) ++ default [] (cs !! str "OUTPUT")]> cs in
  match s.2 with Some rs => <[chain_of v6 := rs]> cs | None => cs end.

Definition fw_host (h : Host) (s4 s6 : FwState) : Host :=
  {| iptables := build false s4 (iptables h); ip6tables := build true s6 (ip6tables h);
     routes := routes h; resolv_conf := resolv_conf h |}.

Definition no_fw : FwState := (false, None).

Definition fw_clean (h : Host) : Prop := clean false (iptables h) ∧ clean true (ip6tables h).

Lemma chain_not_output v6 : chain_of v6 ≠ str "OUTPUT".
Proof. by destruct v6. Qed.

Lemma jump_refers v6 : refers_to (chain_of v6) (jump_to v6) = true.
Proof. by destruct v6. Qed.

Section Effects.
Context (v6 : bool) (cs : Chains) (Hc : clean v6 cs).

Lemma build_chain s : build v6 s cs !! chain_of v6 = s.2.
Proof.
  unfold build. destruct s as [j [rs|]]; cbn [mbind option_bind fst snd]; [by rewrite lookup_insert_eq|].
  rewrite lookup_insert_ne by (apply not_eq_sym, chain_not_output). apply Hc.
Qed.

Lemma build_output s :
  build v6 s cs !! str "OUTPUT" = Some ((if s.1 then [jump_to v6] else []) ++ default [] (cs !! str "OUTPUT")).
Proof.
  unfold build. destruct s as [j [rs|]]; cbn [mbind option_bind fst snd]; [|by rewrite lookup_insert_eq].
  rewrite lookup_insert_ne by apply chain_not_output. by rewrite lookup_insert_eq.
Qed.

Lemma build_set s rs : <[chain_of v6 := rs]> (build v6 s cs) = build v6 (s.1, Some rs) cs.
Proof. unfold build. destruct s as [j [rs'|]]; cbn [mbind option_bind fst snd]; [by rewrite insert_insert_eq|done]. Qed.

Lemma build_jump s b :
  <[str "OUTPUT" := (if b : bool then [jump_to v6] else []) ++ default [] (cs !! str "OUTPUT")]> (build v6 s cs)
  = build v6 (b, s.2) cs.
Proof.
  unfold build. destruct s as [j [rs|]]; cbn [mbind option_bind fst snd]; [|by rewrite insert_insert_eq].
  rewrite insert_insert_ne by (apply not_eq_sym, chain_not_output). by rewrite insert_insert_eq.
Qed.

Lemma build_none : build v6 no_fw cs = cs.
Proof.
  unfold build, no_fw. cbn [fst snd default from_option mbind option_bind]. destruct (clean_output _ _ Hc) as [rs E]. rewrite E. cbn [fst snd default from_option mbind option_bind]. by apply insert_id.
Qed.

Lemma no_jump_in_output : jump_to v6 ∉ default [] (cs !! str "OUTPUT").
Proof.
  destruct (clean_output _ _ Hc) as [rs E]. rewrite E. cbn [fst snd default from_option mbind option_bind]. intros Hin.
  pose proof (clean_rules _ _ Hc _ _ E) as H. cbn in H. rewrite Forall_forall in H. apply H in Hin. by rewrite jump_refers in Hin.
Qed.

Lemma effect_new s : fw_effect (FwNew (chain_of v6)) (build v6 s cs) =
  match s.2 with Some _ => None | None => Some (build v6 (s.1, Some []) cs) end.
Proof. cbn [fw_effect]. rewrite build_chain. destruct s as [j [rs|]]; cbn [mbind option_bind fst snd]; [done|]. by rewrite build_set. Qed.

Lemma effect_flush s : fw_effect (FwFlush (chain_of v6)) (build v6 s cs) =
  match s.2 with Some _ => Some (build v6 (s.1, Some []) cs) | None => None end.
Proof. cbn [fw_effect]. rewrite build_chain. destruct s as [j [rs|]]; cbn [mbind option_bind fst snd]; [|done]. by rewrite build_set. Qed.

Lemma effect_append s r : fw_effect (FwAppend (chain_of v6) r) (build v6 s cs) =
  match s.2 with Some rs => Some (build v6 (s.1, Some (rs ++ [r])) cs) | None => None end.
Proof. cbn [fw_effect]. rewrite build_chain. destruct s as [j [rs|]]; cbn [mbind option_bind fst snd]; [|done]. by rewrite build_set. Qed.

Lemma effect_check s : fw_effect (FwCheck (str "OUTPUT") (jump_to v6)) (build v6 s cs) =
  if s.1 then Some (build v6 s cs) else None.
Proof.
  cbn [fw_effect]. rewrite build_output, Some_bind. pose proof no_jump_in_output. destruct s as [[] own]; cbn [fst].
  - unfold has_rule. rewrite bool_decide_eq_true_2; [done|]. apply list_elem_of_here.
  - unfold has_rule. by rewrite bool_decide_eq_false_2.
Qed.

Lemma effect_insert own : fw_effect (FwInsert (str "OUTPUT") (jump_to v6)) (build v6 (false, own) cs) =
  Some (build v6 (true, own) cs).
Proof. cbn [fw_effect]. rewrite build_output, Some_bind. f_equal. exact (build_jump (false, own) true). Qed.

Lemma effect_delete s : fw_effect (FwDelete (str "OUTPUT") (jump_to v6)) (build v6 s cs) =
  if s.1 then Some (build v6 (false, s.2) cs) else None.
Proof.
  cbn [fw_effect]. rewrite build_output, Some_bind. pose proof no_jump_in_output. destruct s as [[] own]; cbn [fst snd].
  - cbn [app]. unfold has_rule. rewrite bool_decide_eq_true_2 by apply list_elem_of_here. cbn [remove_first]. rewrite decide_True by done.
    f_equal. exact (build_jump (true, own) false).
  - unfold has_rule. by rewrite bool_decide_eq_false_2.
Qed.

Lemma effect_list s : fw_effect (FwList (chain_of v6)) (build v6 s cs) =
  match s.2 with Some _ => Some (build v6 s cs) | None => None end.
Proof. cbn [fw_effect]. rewrite build_chain. by destruct s as [j [rs|]]. Qed.

Lemma build_delete j rs : delete (chain_of v6) (build v6 (j, Some rs) cs) = build v6 (j, None) cs.
Proof.
  unfold build. cbn [fst snd default from_option mbind option_bind]. apply delete_insert_id. rewrite lookup_insert_ne by (apply not_eq_sym, chain_not_output). apply Hc.
Qed.

(** A chain that is still jumped to is not deleted. *)
Lemma effect_drop s cs' :
  fw_effect (FwDrop (chain_of v6)) (build v6 s cs) = Some cs' → cs' = build v6 (s.1, None) cs ∧ s.2 = Some [].
Proof.
  cbn [fw_effect]. rewrite build_chain. destruct s as [j [[|r rs]|]]; cbn [mbind option_bind fst snd]; try done. case_decide; [|done].
  intros [= <-]. by rewrite build_delete.
Qed.

Lemma effect_drop_clean : fw_effect (FwDrop (chain_of v6)) (build v6 (false, Some []) cs) = Some (build v6 no_fw cs).
Proof.
  cbn [fw_effect]. rewrite build_chain. cbn [snd]. rewrite build_delete. rewrite decide_True; [done|].
  apply Forall_forall. intros r (rs & Hr & Hrs)%list_elem_of_bind. apply list_elem_of_fmap in Hrs as ((c & rs') & -> & Hm).
  apply elem_of_map_to_list in Hm. unfold build in Hm. cbn [fst snd app] in Hm. unfold id in Hr. cbn [snd] in Hr.
  apply lookup_insert_Some in Hm as [[_ <-]|[_ Hm]]; [by apply elem_of_nil in Hr|].
  assert (HF : ∀ c rs, cs !! c = Some rs → r ∈ rs → refers_to (chain_of v6) r = false).
  { intros c' rs2 E Hin. pose proof (clean_rules _ _ Hc _ _ E) as H. cbn in H. rewrite Forall_forall in H. by apply H. }
  apply lookup_insert_Some in Hm as [[_ <-]|[_ Hm]]; [|by eapply HF].
  destruct (clean_output _ _ Hc) as [out E]. rewrite E in Hr. cbn in Hr. by eapply HF.
Qed.

End Effects.

(** ** Our commands on those states *)

Inductive OurVerb := ONew | OFlush | OAppend (r : Rule) | OCheck | OInsert | ODelete | OList | ODrop.

Definition verb_of (v6 : bool) (o : OurVerb) : FwVerb :=
  let c := chain_of v6 in
  match o with
  | ONew => FwNew c | OFlush => FwFlush c | OAppend r => FwAppend c r | OList => FwList c | ODrop => FwDrop c
  | OCheck => FwCheck (str "OUTPUT") (jump_to v6)
  | OInsert => FwInsert (str "OUTPUT") (jump_to v6)
  | ODelete => FwDelete (str "OUTPUT") (jump_to v6)
  end.

Definition fw_next (o : OurVerb) (s : FwState) : option FwState :=
  match o, s with
  | ONew, (j, None) => Some (j, Some [])
  | OFlush, (j, Some _) => Some (j, Some [])
  | OAppend r, (j, Some rs) => Some (j, Some (rs ++ [r]))
  | OCheck, (true, own) => Some (true, own)
  | OInsert, (false, own) => Some (true, own)
  | ODelete, (true, own) => Some (false, own)
  | OList, (j, Some rs) => Some (j, Some rs)
  | ODrop, (j, Some []) => Some (j, None)
  | _, _ => None
  end.

Lemma fw_effect_next v6 cs o s cs' :
  clean v6 cs → (o = OInsert → s.1 = false) →
  fw_effect (verb_of v6 o) (build v6 s cs) = Some cs' → ∃ s', fw_next o s = Some s' ∧ cs' = build v6 s' cs.
Proof.
  intros Hc Hi. destruct s as [j own]. destruct o; cbn [verb_of].
  - rewrite effect_new by done. destruct own; [done|]. intros [= <-]. by eexists.
  - rewrite effect_flush by done. destruct own; [|done]. intros [= <-]. by eexists.
  - rewrite effect_append by done. destruct own; [|done]. intros [= <-]. by eexists.
  - rewrite effect_check by done. destruct j; [|done]. intros [= <-]. by eexists.
  - destruct j; [by specialize (Hi eq_refl)|]. rewrite effect_insert by done. intros [= <-]. by eexists.
  - rewrite effect_delete by done. destruct j; [|done]. intros [= <-]. by eexists.
  - rewrite effect_list by done. destruct own; [|done]. intros [= <-]. by eexists.
  - intros H%effect_drop; [|done]. cbn in H. destruct H as [-> ->]. by eexists.
Qed.

Lemma fw_next_effect v6 cs o s s' :
  clean v6 cs → fw_next o s = Some s' → (o = ODrop → s.1 = false) →
  fw_effect (verb_of v6 o) (build v6 s cs) = Some (build v6 s' cs).
Proof.
  intros Hc Hn Hd. destruct s as [j own]. destruct o; cbn [verb_of].
  - rewrite effect_new by done. destruct own; [done|]. by injection Hn as <-.
  - rewrite effect_flush by done. destruct own; [|done]. by injection Hn as <-.
  - rewrite effect_append by done. destruct own; [|done]. by injection Hn as <-.
  - rewrite effect_check by done. destruct j; [|done]. by injection Hn as <-.
  - destruct j; [done|]. rewrite effect_insert by done. by injection Hn as <-.
  - rewrite effect_delete by done. destruct j; [|done]. by injection Hn as <-.
  - rewrite effect_list by done. destruct own; [|done]. by injection Hn as <-.
  - specialize (Hd eq_refl). cbn in Hd. subst j. destruct own as [[|? ?]|]; [|done|done].
    injection Hn as <-. by apply effect_drop_clean.
Qed.

Definition FwStates := (FwState * FwState)%type.
Definition fw_get (v6 : bool) (σ : FwStates) : FwState := if v6 then σ.2 else σ.1.
Definition fw_put (v6 : bool) (s : FwState) (σ : FwStates) : FwStates := if v6 then (σ.1, s) else (s, σ.2).
Definition with_fw (h : Host) (σ : FwStates) : Host := fw_host h σ.1 σ.2.

Lemma chains_with_fw v6 h σ : chains v6 (with_fw h σ) = build v6 (fw_get v6 σ) (chains v6 h).
Proof. by destruct v6. Qed.

Lemma set_chains_with_fw v6 h σ s : set_chains v6 (build v6 s (chains v6 h)) (with_fw h σ) = with_fw h (fw_put v6 s σ).
Proof. by destruct v6. Qed.

Lemma with_fw_none h : fw_clean h → with_fw h (no_fw, no_fw) = h.
Proof. intros [H4 H6]. destruct h as [c4 c6 rt rc]. unfold with_fw, fw_host. cbn [fst snd iptables ip6tables] in *. by rewrite !build_none. Qed.

Lemma fw_put_get v6 s σ : fw_get v6 (fw_put v6 s σ) = s.
Proof. by destruct v6. Qed.

(** ** Running a command *)

Section Rules.
Context `{Htools : HostTools, Hlaws : !HostToolsLaws}.

#[local] Notation always := (always net_perform).

Lemma always_run argv I h (Q : option HostNet.Exit → Host → Prop) :
  I h → Q None h → (∀ c out, c ≠ Some 0%Z → Q (Some {| code := c; stdout := out |}) h) →
  (∀ h' out, documented h (parse_argv argv) h' out →
     I h' ∧ ∀ c out', (c = Some 0%Z → out' = out) → Q (Some {| code := c; stdout := out' |}) h') →
  always I (call (Run argv)) h Q.
Proof.
  intros HI Hs Hf Hd h' [[c out]|] Ht; cbn in Ht.
  - destruct (decide (c = Some 0%Z)) as [->|Hc].
    + apply tool_done in Ht. destruct (Hd _ _ Ht) as [? HQ]. split; [done|by apply HQ].
    + apply tool_failed in Ht as [->|(out' & Ht)]; [| |done].
      * split; [done|by apply Hf].
      * destruct (Hd _ _ Ht) as [? HQ]. split; [done|]. by apply HQ.
  - apply tool_spawn in Ht as ->. done.
Qed.

Lemma always_sh argv I h Q :
  I h → (∀ e, Q (Err e) h) →
  (∀ h' out, documented h (parse_argv argv) h' out → I h' ∧ Q (Ok tt) h' ∧ ∀ e, Q (Err e) h') →
  always I (sh argv) h Q.
Proof.
  intros HI He Hd. apply always_bind, always_run; cbn; [done|done| |].
  - intros c out Hc. unfold succeeded. cbn. by rewrite bool_decide_eq_false_2.
  - intros h' out Hdoc. destruct (Hd _ _ Hdoc) as (? & ? & ?). split; [done|].
    intros c out' _. by destruct (succeeded _).
Qed.

Lemma always_output argv I h Q :
  I h → (∀ e, Q (Err e) h) →
  (∀ h' e, documented h (parse_argv argv) h' (stdout e) → I h' ∧ Q (Ok e) h' ∧ ∀ e, Q (Err e) h') →
  always I (output argv) h Q.
Proof.
  intros HI He Hd. apply always_bind, always_run; cbn; [done|done| |].
  - intros c out Hc. unfold succeeded. cbn. by rewrite bool_decide_eq_false_2.
  - intros h' out Hdoc. split; [by eapply (Hd h' {| code := None; stdout := out |})|].
    intros c out' Hc. unfold succeeded. cbn. case_bool_decide as Hc0.
    + rewrite (Hc Hc0). by apply (Hd h' {| code := c; stdout := out |}).
    + by apply (Hd h' {| code := None; stdout := out |}).
Qed.

Section Firewall.
Context (h : Host) (Hclean : fw_clean h).

Lemma fw_clean_chains v6 : clean v6 (chains v6 h).
Proof. destruct v6; apply Hclean. Qed.

Lemma always_fw v6 o argv I σ Q :
  parse_argv argv = Fw v6 (verb_of v6 o) → (o = OInsert → (fw_get v6 σ).1 = false) →
  I (with_fw h σ) → (∀ e, Q (Err e) (with_fw h σ)) →
  (∀ s', fw_next o (fw_get v6 σ) = Some s' →
     I (with_fw h (fw_put v6 s' σ)) ∧ Q (Ok tt) (with_fw h (fw_put v6 s' σ)) ∧ ∀ e, Q (Err e) (with_fw h (fw_put v6 s' σ))) →
  always I (sh argv) (with_fw h σ) Q.
Proof.
  intros Hp Hi HI He Hn. apply always_sh; [done..|]. intros h' out Hd. rewrite Hp in Hd.
  inversion Hd as [? ? cs ? Heff| | | | | | |]; subst. rewrite chains_with_fw in Heff.
  apply fw_effect_next in Heff as (s' & Hs & ->); [|apply fw_clean_chains|done].
  rewrite set_chains_with_fw. by apply Hn.
Qed.

Lemma with_fw_query v6 σ s : fw_get v6 σ = s → with_fw h (fw_put v6 s σ) = with_fw h σ.
Proof. destruct σ, v6; cbn; by intros ->. Qed.

(** Asking changes nothing, and a definite answer is the truth. *)
Lemma always_query v6 o argv (I : Host → Prop) σ Q :
  parse_argv argv = Fw v6 (verb_of v6 o) → o = OCheck ∨ o = OList →
  I (with_fw h σ) → (∀ e, Q (Err e) (with_fw h σ)) →
  (is_Some (fw_next o (fw_get v6 σ)) → Q (Ok true) (with_fw h σ)) →
  (fw_next o (fw_get v6 σ) = None → Q (Ok false) (with_fw h σ)) →
  always I (command_present argv) (with_fw h σ) Q.
Proof.
  intros Hp Ho HI He Ht Hf. apply always_bind.
  assert (Hid : ∀ s', fw_next o (fw_get v6 σ) = Some s' → s' = fw_get v6 σ).
  { destruct (fw_get v6 σ) as [[] [|]]; destruct Ho as [->| ->]; cbn; congruence. }
  assert (Hdoc : ∀ h' out, documented (with_fw h σ) (parse_argv argv) h' out →
    h' = with_fw h σ ∧ is_Some (fw_next o (fw_get v6 σ))).
  { intros h' out Hd. rewrite Hp in Hd. inversion Hd as [? ? cs ? Heff| | | | | | |]; subst.
    rewrite chains_with_fw in Heff. apply fw_effect_next in Heff as (s' & Hs & ->);
      [|apply fw_clean_chains|by destruct Ho as [->| ->]].
    rewrite set_chains_with_fw, with_fw_query by (symmetry; by apply Hid). by rewrite Hs. }
  intros h' [[c out]|] Hr; cbn in Hr; cbn [always].
  - destruct (decide (c = Some 0%Z)) as [->|Hc0].
    + apply tool_done, Hdoc in Hr as [-> Hs]. split; [done|]. cbn. by apply Ht.
    + destruct (decide (c = Some 1%Z)) as [->|Hc1].
      * eapply tool_absent in Hr as [-> Hn]; [|done|by destruct Ho as [->| ->]]. split; [done|]. cbn. apply Hf.
        rewrite chains_with_fw in Hn. destruct (fw_next o (fw_get v6 σ)) eqn:E; [|done].
        rewrite (fw_next_effect _ _ _ _ _ (fw_clean_chains v6) E) in Hn by (by destruct Ho as [->| ->]). done.
      * apply tool_failed in Hr as [->|(out' & Hr)]; [| |done].
        -- split; [done|]. cbn. rewrite !bool_decide_eq_false_2 by done. apply He.
        -- apply Hdoc in Hr as [-> _]. split; [done|]. cbn. rewrite !bool_decide_eq_false_2 by done. apply He.
  - apply tool_spawn in Hr as ->. split; [done|]. cbn. apply He.
Qed.

(** *** Arming *)

Definition ours (h' : Host) : Prop := ∃ σ, h' = with_fw h σ.

Lemma ours_with_fw σ : ours (with_fw h σ).
Proof. by exists σ. Qed.

Lemma own_chain_spec v6 σ :
  fw_get v6 σ = no_fw →
  always ours (own_chain (tool_name v6) (chain_of v6)) (with_fw h σ)
    (λ r h', match r with Ok _ => h' = with_fw h (fw_put v6 (true, Some []) σ) | Err _ => ours h' end).
Proof.
  intros Hσ. assert (Hpp : ∀ s s', fw_put v6 s (fw_put v6 s' σ) = fw_put v6 s σ) by by destruct v6.
  assert (Hpg : ∀ s, fw_get v6 (fw_put v6 s σ) = s) by by destruct v6.
  apply always_bind. eapply always_post with (Q := λ _ h', ∃ own, h' = with_fw h (fw_put v6 (false, own) σ)).
  2:{ apply (always_fw v6 ONew); [by destruct v6|done|apply ours_with_fw| |].
      - intros _. exists None. by rewrite with_fw_query.
      - rewrite Hσ. intros s' [= <-]. split_and!; [apply ours_with_fw|by eexists..]. }
  intros _ h' [own ->]. apply always_try.
  apply (always_fw v6 OFlush); [by destruct v6|done|apply ours_with_fw|intros; apply ours_with_fw|].
  rewrite Hpg. destruct own as [rs|]; [|done]. intros s' [= <-]. rewrite Hpp.
  split_and!; [apply ours_with_fw| |intros; apply ours_with_fw].
  apply always_bind. eapply always_post with (Q := λ r h', is_ok r = false ∧ h' = with_fw h (fw_put v6 (false, Some []) σ)).
  2:{ apply (always_fw v6 OCheck); [by destruct v6|done|apply ours_with_fw|done|]. rewrite Hpg. done. }
  intros r h' [Hr ->]. rewrite Hr.
  apply (always_fw v6 OInsert); [by destruct v6|by rewrite Hpg|apply ours_with_fw|intros; apply ours_with_fw|].
  rewrite Hpg. intros s' [= <-]. rewrite Hpp. split_and!; [apply ours_with_fw|done|intros; apply ours_with_fw].
Qed.

(** Appending a rule to a chain that is in place. *)
Lemma chain_append_spec v6 σ rs r Q :
  fw_get v6 σ = (true, Some rs) → (∀ e h', ours h' → Q (Err e) h') →
  Q (Ok tt) (with_fw h (fw_put v6 (true, Some (rs ++ [r])) σ)) →
  always ours (sh ([tool_name v6; str "-A"; chain_of v6] ++ r)) (with_fw h σ) Q.
Proof.
  intros Hσ He Hq. apply (always_fw v6 (OAppend r)); [by destruct v6|done|apply ours_with_fw| |].
  - intros. apply He, ours_with_fw.
  - rewrite Hσ. intros s' [= <-]. split_and!; [apply ours_with_fw|done|]. intros. apply He, ours_with_fw.
Qed.

Definition except_rule (ip : IpAddr) : Rule := [str "-d"; ip_to_string ip; str "-j"; str "ACCEPT"].
Definition if_rule (name : bytes) : Rule := [str "-o"; name; str "-j"; str "ACCEPT"].
Definition node_rule (proto : bytes) (ip : IpAddr) : Rule :=
  [str "-p"; proto; str "-d"; ip_to_string ip; str "--dport"; str "443"; str "-j"; str "ACCEPT"].
Definition drop_rule : Rule := [str "-j"; str "DROP"].

Lemma except_nodes_spec ips s6 rs :
  always ours (except_nodes ips) (with_fw h ((true, Some rs), s6))
    (λ r h', match r with
             | Ok _ => h' = with_fw h ((true, Some (rs ++ (except_rule <$> ips))), s6)
             | Err _ => ours h'
             end).
Proof.
  revert rs. induction ips as [|ip ips IH]; intros rs; cbn [except_nodes].
  - cbn. by rewrite app_nil_r.
  - apply always_try. apply (chain_append_spec false _ rs (except_rule ip)); [done|done|].
    eapply always_post; [|apply IH]. intros [u|e] h'; [|done]. intros ->. by rewrite <- app_assoc.
Qed.

Definition accepts4 (p : ArmParams) : list Rule :=
  [if_rule (str "lo"); if_rule (ap_tun_name p); node_rule (str "udp") (node_ip p); node_rule (str "tcp") (node_ip p)]
  ++ (except_rule <$> ap_also_except p).

(** The two tables, armed; an IPv6 exception may be missing. *)
Definition armed_state (p : ArmParams) (σ : FwStates) : Prop :=
  ∃ accepts6, σ = ((true, Some (accepts4 p ++ [drop_rule])), (true, Some (accepts6 ++ [drop_rule]))) ∧
    Forall (λ r, r = if_rule (str "lo") ∨ r = if_rule (ap_tun_name p)) accepts6.

(** A step that may fail: the rule is there or it is not. *)
Lemma try_append_spec v6 σ rs r :
  fw_get v6 σ = (true, Some rs) →
  always ours (sh ([tool_name v6; str "-A"; chain_of v6] ++ r)) (with_fw h σ)
    (λ _ h', h' = with_fw h σ ∨ h' = with_fw h (fw_put v6 (true, Some (rs ++ [r])) σ)).
Proof.
  intros Hσ. apply (always_fw v6 (OAppend r)); [by destruct v6|done|apply ours_with_fw|by left|].
  rewrite Hσ. intros s' [= <-]. split_and!; [apply ours_with_fw|by right..].
Qed.

Lemma arm_kill_switch_spec p :
  always ours (arm_kill_switch (node_ip p) (ap_also_except p) (ap_tun_name p)) (with_fw h (no_fw, no_fw))
    (λ r h', match r with Ok _ => ∃ σ, h' = with_fw h σ ∧ armed_state p σ | Err _ => ours h' end).
Proof.
  unfold arm_kill_switch. apply always_try. eapply always_post; [|by apply (own_chain_spec false)].
  intros [u|e] h'; [|done]. intros ->. cbn [fw_put snd].
  do 4 (apply always_try; eapply (chain_append_spec false); [done|done|]). cbn [fw_put snd app].
  apply always_try. eapply always_post; [|apply except_nodes_spec]. intros [u1|e] h'; [|done]. intros ->.
  apply always_try; eapply (chain_append_spec false _ _ drop_rule); [done|done|]. cbn [fw_put snd].
  apply always_try. eapply always_post; [|by apply (own_chain_spec true)].
  intros [u2|e] h'; [|done]. intros ->. cbn [fw_put fst]. apply always_bind.
  eapply always_post; [|exact (try_append_spec true (_, _) [] (if_rule (str "lo")) eq_refl)].
  set (good l := Forall (λ r, r = if_rule (str "lo") ∨ r = if_rule (ap_tun_name p)) l). cbn [fw_put fst app].
  intros _ h' Hh'. assert (∃ l, good l ∧ h' = with_fw h ((true, Some (accepts4 p ++ [drop_rule])), (true, Some l))) as (l & Hl & ->).
  { destruct Hh' as [->| ->]; eexists; (split; [|reflexivity]); repeat constructor; by left. }
  clear Hh'. apply always_bind. eapply always_post; [|exact (try_append_spec true (_, _) l (if_rule (ap_tun_name p)) eq_refl)].
  intros ? h' Hh'. assert (∃ l, good l ∧ h' = with_fw h ((true, Some (accepts4 p ++ [drop_rule])), (true, Some l))) as (l' & Hl' & ->).
  { destruct Hh' as [->| ->]; eexists; (split; [|reflexivity]); [done|].
    apply Forall_app. split; [done|]. apply Forall_cons. split; [by right|done]. }
  apply always_map. apply (chain_append_spec true _ l' drop_rule); [done|done|]. cbn. by eexists _; split; [|exists l'].
Qed.

(** *** Disarming *)

Lemma disarm_one_spec errors v6 σ :
  always ours (disarm_one errors (tool_name v6) (chain_of v6)) (with_fw h σ)
    (λ errors' h', ∃ s', h' = with_fw h (fw_put v6 s' σ) ∧ (errors' = [] → errors = [] ∧ s' = no_fw)).
Proof.
  assert (Hpp : ∀ s s', fw_put v6 s (fw_put v6 s' σ) = fw_put v6 s σ) by by destruct v6.
  assert (Hpg : ∀ s, fw_get v6 (fw_put v6 s σ) = s) by by destruct v6.
  assert (Hsnoc : ∀ (l : CleanupErrors) x, l ++ [x] ≠ []) by by destruct l.
  unfold disarm_one. apply always_bind.
  rewrite <- (with_fw_query v6 σ _ eq_refl). destruct (fw_get v6 σ) as [j own] eqn:Eσ.
  (* the jump *)
  eapply always_post with (Q := λ jump h', h' = with_fw h (fw_put v6 (j, own) σ) ∧ (jump = Ok false → j = false)
    ∧ (jump = Ok true → j = true)).
  2:{ apply (always_query v6 OCheck); rewrite ?Hpg; [by destruct v6|by left|apply ours_with_fw|done| |].
      - destruct j; [done|]. by intros [? ?].
      - destruct j; [done|]. done. }
  intros jump h' (-> & Hf & Ht). apply always_bind.
  eapply always_post with (Q := λ errs h', ∃ j', h' = with_fw h (fw_put v6 (j', own) σ) ∧ (errs = [] → errors = [] ∧ j' = false)).
  2:{ destruct jump as [[]|e]; cbn [always].
      - apply always_bind. apply (always_fw v6 ODelete); rewrite ?Hpg; [by destruct v6|done|apply ours_with_fw| |].
        + intros e. cbn. exists j. split; [done|]. by intros ?%Hsnoc.
        + rewrite (Ht eq_refl). intros s' [= <-]. rewrite Hpp. cbn. split_and!; [apply ours_with_fw|by exists false|].
          intros e. exists false. split; [done|]. by intros ?%Hsnoc.
      - exists j. split; [done|]. intros ->. split; [done|by apply Hf].
      - exists j. split; [done|]. cbn. by intros ?%Hsnoc. }
  clear jump Hf Ht. intros errs h' (j' & -> & Hj). apply always_bind.
  (* the chain *)
  eapply always_post with (Q := λ listed h', h' = with_fw h (fw_put v6 (j', own) σ) ∧ (listed = Ok false → own = None)).
  2:{ apply (always_query v6 OList); rewrite ?Hpg; [by destruct v6|by right|apply ours_with_fw|done|done|].
      by destruct own. }
  intros listed h' (-> & Hf). destruct listed as [[]|e]; cbn [always].
  - apply always_bind. apply (always_fw v6 OFlush); rewrite ?Hpg; [by destruct v6|done|apply ours_with_fw| |].
    + intros e. cbn. eexists. split; [done|]. by intros ?%Hsnoc.
    + destruct own as [rs|]; [|done]. intros s' [= <-]. rewrite Hpp. split_and!; [apply ours_with_fw| |].
      * cbn [attempt fst snd]. apply always_bind.
        apply (always_fw v6 ODrop); rewrite ?Hpg; [by destruct v6|done|apply ours_with_fw| |].
        -- intros e. cbn. eexists. split; [done|]. by intros ?%Hsnoc.
        -- intros s' [= <-]. rewrite Hpp. split_and!; [apply ours_with_fw| |].
           ++ cbn. eexists. split; [done|]. intros He. destruct (Hj He) as [? ->]. done.
           ++ intros e. cbn. eexists. split; [done|]. by intros ?%Hsnoc.
      * intros e. cbn. eexists. split; [done|]. by intros ?%Hsnoc.
  - eexists. split; [done|]. intros He. destruct (Hj He) as [? ->]. split; [done|]. by rewrite (Hf eq_refl).
  - eexists. split; [done|]. cbn. by intros ?%Hsnoc.
Qed.

Lemma disarm_kill_switch_spec σ :
  always ours disarm_kill_switch (with_fw h σ)
    (λ r h', match r with Ok _ => h' = h | Err _ => ours h' end).
Proof.
  unfold disarm_kill_switch. apply always_bind.
  eapply always_post; [|apply (disarm_one_spec [] false)]. intros errs h' (s4 & -> & H4).
  apply always_bind. eapply always_post; [|apply (disarm_one_spec errs true)].
  intros errs' h' (s6 & -> & H6). cbn. unfold finish. destruct errs'; [|apply ours_with_fw].
  destruct (H6 eq_refl) as [He ->]. destruct (H4 He) as [_ ->]. by apply with_fw_none.
Qed.

End Firewall.
End Rules.

(** ** Armed means shielded *)

Section Shield.
Context `{Hfilter : EgressFilter, Hflaws : !EgressFilterLaws}.

(** Rules that accept, and then a drop: what leaves is what some rule accepts. *)
Lemma walk_accepts fuel cs pkt rs :
  Forall (λ r, option_value (str "-j") r = Some (str "ACCEPT")) rs →
  walk (S fuel) cs pkt (rs ++ [drop_rule]) = Some (existsb (λ r, rule_hits r pkt) rs).
Proof.
  induction 1 as [|r rs Hr _ IH].
  - change (([] : list Rule) ++ [drop_rule]) with [drop_rule]. cbn [walk existsb].
    rewrite rule_hits_options by by (constructor; [set_solver|constructor]). reflexivity.
  - cbn [app existsb]. cbn [walk] in IH |- *. destruct (rule_hits r pkt); [by rewrite Hr|exact IH].
Qed.

Lemma map_size_two {K A} `{Countable K} (m : gmap K A) i j x y :
  i ≠ j → m !! i = Some x → m !! j = Some y → ∃ n, size m = S (S n).
Proof.
  intros Hij Hi Hj. rewrite <- (insert_delete_id m i x Hi).
  rewrite map_size_insert_None by apply lookup_delete_eq.
  rewrite <- (insert_delete_id (delete i m) j y) by (by rewrite lookup_delete_ne).
  rewrite map_size_insert_None by apply lookup_delete_eq. eauto.
Qed.

(** With the jump first, our chain decides. *)
Lemma leaves_armed v6 cs rs pkt :
  clean v6 cs → Forall (λ r, option_value (str "-j") r = Some (str "ACCEPT")) rs →
  leaves (build v6 (true, Some (rs ++ [drop_rule])) cs) pkt → Exists (λ r, rule_hits r pkt = true) rs.
Proof.
  intros Hc Hrs. pose proof (build_chain v6 cs Hc (true, Some (rs ++ [drop_rule]))) as Hown.
  pose proof (build_output v6 cs (true, Some (rs ++ [drop_rule]))) as Hout.
  destruct (map_size_two _ _ _ _ _ (chain_not_output v6) Hown Hout) as [n Hn].
  unfold leaves. rewrite Hn, Hout. cbn [default from_option id fst app walk].
  rewrite rule_hits_options by (destruct v6; by (constructor; [set_solver|constructor])).
  replace (forallb (egress_holds pkt) (options (jump_to v6))) with true by by destruct v6.
  replace (option_value (str "-j") (jump_to v6)) with (Some (chain_of v6)) by by destruct v6.
  rewrite !decide_False by by destruct v6.
  change (match (match build v6 (true, Some (rs ++ [drop_rule])) cs !! chain_of v6 with
    | Some rs' => walk (S n) (build v6 (true, Some (rs ++ [drop_rule])) cs) pkt rs'
    | None => extension (chain_of v6) pkt end) with Some v => Some v | None =>
    walk (S (S n)) (build v6 (true, Some (rs ++ [drop_rule])) cs) pkt (default [] (cs !! str "OUTPUT")) end ≠ Some false
    → Exists (λ r, rule_hits r pkt = true) rs).
  rewrite Hown. cbn [snd]. rewrite walk_accepts by done.
  intros H. destruct (existsb (λ r, rule_hits r pkt) rs) eqn:E; [|done].
  apply existsb_exists in E as (r & Hin & Hr). apply Exists_exists. exists r. split; [by apply list_elem_of_In|done].
Qed.

Lemma hits_if name pkt : rule_hits (if_rule name) pkt = if_matches name (eg_if pkt).
Proof.
  rewrite rule_hits_options by (repeat (constructor; [set_solver|]); constructor).
  cbn -[if_matches]. by rewrite andb_true_r.
Qed.

Lemma hits_except ip pkt : rule_hits (except_rule ip) pkt = bool_decide (ip_to_string ip = ip_to_string (eg_dst pkt)).
Proof.
  rewrite rule_hits_options by (repeat (constructor; [set_solver|]); constructor).
  cbn -[ip_to_string]. by rewrite andb_true_r.
Qed.

Lemma hits_node proto ip pkt :
  rule_hits (node_rule proto ip) pkt = true →
  ip_to_string (eg_dst pkt) = ip_to_string ip ∧ (eg_proto pkt = Udp ∨ eg_proto pkt = Tcp) ∧ eg_dport pkt = 443%Z.
Proof.
  rewrite rule_hits_options by (repeat (constructor; [set_solver|]); constructor).
  change (options (node_rule proto ip)) with
    [(str "-p", proto); (str "-d", ip_to_string ip); (str "--dport", str "443"); (str "-j", str "ACCEPT")].
  cbn [forallb]. change (egress_holds pkt (str "--dport", str "443")) with (eg_dport pkt =? 443)%Z.
  change (egress_holds pkt (str "-d", ip_to_string ip)) with (bool_decide (ip_to_string ip = ip_to_string (eg_dst pkt))).
  change (egress_holds pkt (str "-p", proto)) with
    ((bool_decide (proto = str "udp") && bool_decide (eg_proto pkt = Udp))
     || (bool_decide (proto = str "tcp") && bool_decide (eg_proto pkt = Tcp))).
  rewrite !andb_true_iff, !orb_true_iff, !andb_true_iff, !bool_decide_eq_true, Z.eqb_eq. naive_solver.
Qed.

Theorem armed_is_shielded h p σ : fw_clean h → armed_state p σ → shielded p (with_fw h σ).
Proof.
  intros [H4 H6] (l & -> & Hl) pkt. split; intros Hleave.
  - cbn [with_fw fw_host ip6tables fst snd] in Hleave. apply leaves_armed in Hleave; [|done|].
    + apply Exists_exists in Hleave as (r & Hin & Hr). rewrite Forall_forall in Hl.
      destruct (Hl _ Hin) as [->| ->]; rewrite hits_if in Hr; [left|right; done].
      unfold if_matches in Hr. cbn in Hr. by apply bool_decide_eq_true in Hr.
    + eapply Forall_impl; [exact Hl|]. by intros r [->| ->].
  - cbn [with_fw fw_host iptables fst snd] in Hleave. apply leaves_armed in Hleave; [|done|].
    + unfold accepts4 in Hleave. rewrite Exists_app, !Exists_cons, Exists_nil, !hits_if in Hleave.
      destruct Hleave as [[Hr|[Hr|[Hr|[Hr|[]]]]]|Hr].
      * left. left. unfold if_matches in Hr. cbn in Hr. by apply bool_decide_eq_true in Hr.
      * left. by right.
      * right. left. by eapply hits_node.
      * right. left. by eapply hits_node.
      * right. right. apply Exists_exists in Hr as (r & (ip & -> & Hin)%list_elem_of_fmap & Hr).
        rewrite hits_except in Hr. apply bool_decide_eq_true in Hr. rewrite <- Hr. by apply list_elem_of_fmap_2.
    + unfold accepts4. apply Forall_app. split; [by repeat constructor|].
      apply Forall_fmap, Forall_true. by intros ip.
Qed.

End Shield.
