(* ===== verification/HostRoutes.v ===== *)
(** * The host's routes ([crates/nil-datapath/src/linux.rs])

    What each routine that reads or changes routes does, whichever of its commands fail: it
    changes the routes to one destination and nothing else, and when it succeeds they are what it
    says. *)

From S2P Require Import Prelude.
From S2P Require Import Net.
From S2P Require Import Prog.
From S2P Require Import World.
From S2P Require Import Ledger.
From S2P Require Import HostNet.
From S2P Require Import HostText.
From S2P Require Import KillSwitch.
From Stdlib Require Import Strings.Byte ZArith Lia.
From stdpp Require Import prelude gmap strings.

Definition DEF : bytes * bytes := (str "-4", str "default").
Definition pin_key (ip : IpAddr) : bytes * bytes := (route_family ip, route_cidr ip).

(** Everything but the routes to one destination is as it was. *)
Record same_but (key : bytes * bytes) (h h' : Host) : Prop := {
  sb_v4 : iptables h' = iptables h;
  sb_v6 : ip6tables h' = ip6tables h;
  sb_resolv : resolv_conf h' = resolv_conf h;
  sb_routes k : k ≠ key → routes_to h' k = routes_to h k;
}.

#[export] Instance same_but_refl key : Reflexive (same_but key).
Proof. by split. Qed.

#[export] Instance same_but_trans key : Transitive (same_but key).
Proof.
  intros h1 h2 h3 [A1 B1 C1 D1] [A2 B2 C2 D2]. split; [congruence..|].
  intros k Hk. rewrite D2, D1; done.
Qed.

Lemma routes_to_set key rs h : routes_to (set_routes key rs h) key = rs.
Proof. apply lookup_total_insert_eq. Qed.

Lemma routes_to_set_ne key rs h k : k ≠ key → routes_to (set_routes key rs h) k = routes_to h k.
Proof. intros Hk. by apply lookup_total_insert_ne. Qed.

Lemma same_but_set key rs h : same_but key h (set_routes key rs h).
Proof. split; [done..|]. intros k Hk. by apply routes_to_set_ne. Qed.

(** ** Destinations *)

Lemma slash_not_type w : x2f ∈ w → w ∉ route_types.
Proof. intros Hw Hin. revert Hw. unfold route_types in Hin. set_unfold in Hin. naive_solver set_solver. Qed.

Lemma slash_in_cidr ip : x2f ∈ route_cidr ip.
Proof. unfold route_cidr. apply elem_of_app. right. destruct (is_ipv4 ip); left. Qed.

Lemma dest_prefix_cidr fam ip : dest_prefix fam (route_cidr ip) = route_cidr ip.
Proof. unfold dest_prefix. rewrite decide_True; [done|]. right. apply slash_in_cidr. Qed.

Lemma route_dest_cidr fam ip rest : route_dest fam (route_cidr ip :: rest) = route_cidr ip.
Proof.
  unfold route_dest. rewrite decide_False by apply slash_not_type, slash_in_cidr. apply dest_prefix_cidr.
Qed.

Lemma cidr_not_default ip : route_cidr ip ≠ str "default".
Proof. intros E. pose proof (slash_in_cidr ip) as H. rewrite E in H. revert H. vm_compute. set_solver. Qed.

Lemma pin_key_not_def ip : pin_key ip ≠ DEF.
Proof. unfold pin_key, DEF. intros [= _ E]. by apply cidr_not_default in E. Qed.

Section Routes.
Context `{Htools : HostTools, Hlaws : !HostToolsLaws}.

#[local] Notation always := (always net_perform).

(** ** Well-formed routes *)

(** A route is printed as a line that names its destination, and a line for each further hop. *)
Record wf_route (fam dest : bytes) (r : Route) : Prop := {
  wr_cons : r ≠ [];
  wr_dest : route_dest fam (default [] (head r)) = dest;
  wr_long : 2 ≤ length (default [] (head r));
  wr_words : Forall wordy r;
  wr_hops : Forall (λ l, head l = Some (str "nexthop")) (tail r);
  wr_shown ws : r = [ws] → shown fam ws ws;
}.

Definition wf_host (h : Host) : Prop := ∀ fam dest, Forall (wf_route fam dest) (routes_to h (fam, dest)).

Lemma shown_wf fam words w : shown fam words w → wf_route fam (route_dest fam words) [w].
Proof.
  intros Hs. destruct (shown_words _ _ _ Hs) as (H1 & H2 & H3 & _ & _). split; [done|done|done|by constructor|done|].
  intros ws [= <-]. by apply (shown_again _ _ _ _ Hs).
Qed.

Lemma wf_set_routes fam dest rs h :
  wf_host h → Forall (wf_route fam dest) rs → wf_host (set_routes (fam, dest) rs h).
Proof.
  intros Hh Hrs fam' dest'. destruct (decide ((fam', dest') = (fam, dest))) as [[= -> ->]|Hne].
  - by rewrite routes_to_set.
  - by rewrite routes_to_set_ne.
Qed.

(** What a route command can do. *)
Lemma doc_replace_inv h fam words h' out :
  documented h (RtReplace fam words) h' out →
  let key := (fam, route_dest fam words) in
  ∃ w old rs, shown fam words w ∧ rs ≡ₚ [w] :: old ∧ h' = set_routes key rs h ∧
    ((old = routes_to h key ∧ Forall (λ r, route_slot fam r ≠ slot fam words) (routes_to h key)) ∨
     ∃ r, routes_to h key ≡ₚ r :: old ∧ route_slot fam r = slot fam words).
Proof. inversion 1; subst; eexists _, _, _; (split_and!; [done|done|done|]); [by left|right; eauto]. Qed.

Lemma doc_wf h c h' out : documented h c h' out → wf_host h → wf_host h'.
Proof.
  intros Hd Hh. destruct Hd as [v6 verb cs out Heff| | |fam words w rs out key Hs Hf Hp
    |fam words w rs out key Hs Hf Hp|fam words w r old rs out key Hs Hsl Ho Hp|fam dest r rs out key Hp|]; try done.
  - apply wf_set_routes; [done|]. rewrite Hp. constructor; [by apply shown_wf|apply Hh].
  - apply wf_set_routes; [done|]. rewrite Hp. constructor; [by apply shown_wf|apply Hh].
  - apply wf_set_routes; [done|]. rewrite Hp. constructor; [by apply shown_wf|].
    pose proof (Hh fam (route_dest fam words)) as H. fold key in H. rewrite Ho in H. by apply Forall_cons in H as [_ H].
  - apply wf_set_routes; [done|]. pose proof (Hh fam (dest_prefix fam dest)) as H. fold key in H.
    rewrite Hp in H. by apply Forall_cons in H as [_ H].
Qed.

(** ** Reading the routes *)

Definition single (line : bytes) : Route := [split_whitespace line].

Lemma mjoin_nil (rs : list Route) fam dest : Forall (wf_route fam dest) rs → mjoin rs = [] → rs = [].
Proof. intros [|r rs' [Hc _ _ _ _ _] _]; [done|]. cbn. by destruct r. Qed.

Lemma mjoin_singleton (rs : list Route) fam dest ws :
  Forall (wf_route fam dest) rs → mjoin rs = [ws] → rs = [[ws]].
Proof.
  intros Hrs. destruct Hrs as [|r rs' [Hc _ _ _ _ _] Hrs']; [done|].
  destruct r as [|l r]; [done|]. cbn. intros [= -> E]. apply app_eq_nil in E as [-> E].
  by rewrite (mjoin_nil rs' fam dest Hrs' E).
Qed.

(** When every line names the default destination, every route is one line. *)
Lemma mjoin_defaults (rs : list Route) fam dest :
  Forall (wf_route fam dest) rs → Forall (λ l, head l = Some (str "default")) (mjoin rs) →
  rs = (λ l, [l]) <$> mjoin rs.
Proof.
  induction 1 as [|r rs [Hc _ _ _ Hh _] _ IH]; [done|]. destruct r as [|l r]; [done|].
  cbn. intros [Hl H]%Forall_cons. apply Forall_app in H as [Hr H]. cbn in Hh. destruct r as [|l' r].
  - cbn. f_equal. by apply IH.
  - exfalso. apply Forall_cons in Hh as [E1 _], Hr as [E2 _]. congruence.
Qed.

Lemma always_show argv fam dest (I : Host → Prop) h Q :
  parse_argv argv = RtShow fam dest → I h → (∀ e, Q (Err e) h) →
  (∀ e, padded (mjoin (routes_to h (fam, dest))) (shown_lines e) →
        prints (mjoin (routes_to h (fam, dest))) (stdout e) → Q (Ok e) h) →
  always I (output argv) h Q.
Proof.
  intros Hp HI He Hq. apply always_output; [done..|]. intros h' e Hd. rewrite Hp in Hd.
  inversion Hd; subst. split_and!; [done| |done]. apply Hq; [by eapply prints_lines|done].
Qed.

(** The snapshot: at most 64 routes, each on one line. *)
Definition captured (h : Host) (ds : list bytes) : Prop :=
  routes_to h DEF = single <$> ds ∧ length ds ≤ 64.

Definition capture_of (ls : list (list bytes)) : result NetError (list bytes) :=
  if 64 <? length ls then Err TooManyDefaults
  else if forallb (λ l, bool_decide (head l = Some (str "default") ∧ 2 ≤ length l)) ls
  then Ok (join_words <$> ls) else Err UnexpectedDefault.

Lemma capture_spec h (I : Host → Prop) Q :
  I h → (∀ e, Q (Err e) h) → Q (capture_of (mjoin (routes_to h DEF))) h →
  always I capture_default_routes h Q.
Proof.
  intros HI He Hq. unfold capture_default_routes. apply always_try.
  eapply (always_show _ (str "-4") (str "default")); [reflexivity|done|done|].
  intros e Hp _. fold DEF in Hp. rewrite (padded_trim _ _ Hp). unfold capture_of in Hq.
  revert Hq. rewrite length_fmap. destruct (64 <? _); [done|].
  replace (existsb (λ r, negb (starts_with (str "default ") r)) (join_words <$> mjoin (routes_to h DEF)))
    with (negb (forallb (λ l, bool_decide (head l = Some (str "default") ∧ 2 ≤ length l)) (mjoin (routes_to h DEF)))).
  { by destruct (forallb _ _). }
  apply padded_wordy in Hp. induction Hp as [|l ls Hl _ IH]; [done|]. cbn [fmap list_fmap existsb forallb].
  rewrite <- IH, starts_with_default by done. by destruct (bool_decide _).
Qed.

(** A route shown on one line that starts with [default]. *)
Definition default_line (r : Route) : Prop := ∃ ws, r = [str "default" :: ws].

Definition replayable (ds : list bytes) : Prop :=
  Forall (λ d, shown (str "-4") (split_whitespace d) (split_whitespace d) ∧
               route_dest (str "-4") (split_whitespace d) = str "default" ∧ default_line (single d)) ds.

Lemma capture_of_Ok h ds :
  wf_host h → capture_of (mjoin (routes_to h DEF)) = Ok ds →
  captured h ds ∧ replayable ds.
Proof.
  intros Hh. unfold capture_of. destruct (64 <? _) eqn:Hlen; [done|]. destruct (forallb _ _) eqn:Hall; [|done].
  intros [= <-]. apply forallb_Forall_true in Hall. pose proof (Hh (str "-4") (str "default")) as Hwf. fold DEF in Hwf.
  assert (E : routes_to h DEF = (λ l, [l]) <$> mjoin (routes_to h DEF)).
  { eapply mjoin_defaults; [done|]. eapply Forall_impl; [exact Hall|]. by intros l [? ?]%bool_decide_eq_true. }
  assert (Hw : Forall wordy (mjoin (routes_to h DEF))).
  { clear -Hwf. induction Hwf as [|r rs [] _ IH]; [done|]. cbn. by apply Forall_app. }
  assert (Hs : split_whitespace <$> (join_words <$> mjoin (routes_to h DEF)) = mjoin (routes_to h DEF)).
  { rewrite <- list_fmap_compose. rewrite <- (list_fmap_id (mjoin _)) at 2. apply list_fmap_ext.
    intros i l Hl. cbn. apply split_words. by eapply Forall_lookup_1. }
  split; [split|].
  - unfold single. rewrite E at 1. rewrite <- Hs at 1. by rewrite <- list_fmap_compose.
  - rewrite length_fmap. apply Nat.ltb_ge in Hlen. done.
  - apply Forall_fmap, Forall_forall. intros l Hl. cbn. rewrite Forall_forall in Hw.
    rewrite split_words by by apply Hw. rewrite E, Forall_fmap, Forall_forall in Hwf.
    destruct (Hwf l Hl) as [_ Hd _ _ _ Hsh]. split_and!; [by apply Hsh|done|].
    unfold single. rewrite split_words by by apply Hw.
    rewrite Forall_forall in Hall. apply Hall, bool_decide_eq_true in Hl as [Hhd _]. destruct l as [|w l]; [done|]. injection Hhd as ->. by eexists.
Qed.

(** ** Restoring the default routes *)

(** No more than [b] default routes, each on one line that starts with [default]. *)
Definition lean (b : nat) (h : Host) : Prop :=
  length (routes_to h DEF) ≤ b ∧ Forall default_line (routes_to h DEF).

Record by_default (b : nat) (h h' : Host) : Prop := {
  bd_same : same_but DEF h h';
  bd_wf : wf_host h';
  bd_lean : lean b h → lean b h';
}.

Lemma by_default_refl b h : wf_host h → by_default b h h.
Proof. by split. Qed.

Lemma by_default_trans b h1 h2 h3 : by_default b h1 h2 → by_default b h2 h3 → by_default b h1 h3.
Proof. intros [H1 _ L1] [H2 ? L2]. split; [by etrans|done|auto]. Qed.

Lemma add_routes_spec b ds h :
  wf_host h → replayable ds → length (routes_to h DEF) + length ds ≤ b →
  always (by_default b h) (add_routes ds) h
    (λ r h', by_default b h h' ∧ (r = Ok tt → routes_to h' DEF ≡ₚ routes_to h DEF ++ (single <$> ds))).
Proof.
  intros Hh Hds. revert h Hh. induction Hds as [|d ds (Hs & Hd & Hdl) _ IH]; intros h Hh Hlen; cbn [add_routes].
  { cbn. split; [by apply by_default_refl|]. intros _. by rewrite app_nil_r. }
  pose proof (by_default_refl b h Hh) as Hrefl.
  apply always_try, always_sh; [done|by intros|].
  change (parse_argv ([str "ip"; str "-4"; str "route"; str "add"] ++ split_whitespace d))
    with (RtAdd (str "-4") (split_whitespace d)).
  intros h' out Hdoc. pose proof (doc_wf _ _ _ _ Hdoc Hh) as Hh'.
  inversion Hdoc as [| | |fam words w rs out' key Hsh Hf Hp| | | |]; subst.
  subst key. rewrite Hd in *. fold DEF in *. cbn in Hlen. apply (shown_again _ _ _ _ Hs) in Hsh as ->.
  assert (by_default b h (set_routes DEF rs h)) as Hb.
  { split; [apply same_but_set|done|]. intros [_ Hl]. unfold lean. rewrite routes_to_set, Hp. split; [cbn; lia|by constructor]. }
  split_and!; [done| |by intros]. eapply always_mono; [| |apply IH; [done|rewrite routes_to_set, Hp; cbn; lia]].
  - intros h''. by apply by_default_trans.
  - intros r h'' [Hb' Hr]. split; [by eapply by_default_trans|]. intros Hok. rewrite (Hr Hok).
    rewrite routes_to_set, Hp. cbn [fmap list_fmap].
    unfold single at 2. by rewrite <- Permutation_middle.
Qed.

Lemma restore_loop_spec b fuel ds h :
  wf_host h → replayable ds → length ds ≤ b →
  always (by_default b h) (restore_loop fuel ds) h
    (λ r h', by_default b h h' ∧ (r = Ok tt → routes_to h' DEF ≡ₚ single <$> ds)).
Proof.
  intros Hh Hds Hb. revert h Hh. induction fuel as [|fuel IH]; intros h Hh; cbn [restore_loop].
  { split; [by apply by_default_refl|done]. }
  pose proof (by_default_refl b h Hh) as Hrefl.
  apply always_try, capture_spec; [done|by intros|].
  destruct (capture_of (mjoin (routes_to h DEF))) as [ds'|e] eqn:E; [|by split].
  apply capture_of_Ok in E as [[E _] _]; [|done]. case_decide as Hnil.
  - subst ds'. eapply always_post; [|apply (add_routes_spec b); [done|done|by rewrite E]].
    intros r h' [Hbd Hr]. split; [done|]. intros Hok. rewrite (Hr Hok), E. done.
  - apply always_try, always_sh; [done|by intros|].
    change (parse_argv [str "ip"; str "-4"; str "route"; str "del"; str "default"]) with (RtDel (str "-4") (str "default")).
    intros h' out Hdoc. pose proof (doc_wf _ _ _ _ Hdoc Hh) as Hh'.
    inversion Hdoc as [| | | | | |fam dest r rs out' key Hp|]; subst.
    change key with DEF in *. assert (by_default b h (set_routes DEF rs h)) as Hbd.
    { split; [apply same_but_set|done|]. unfold lean. rewrite routes_to_set, Hp. intros [Hl Ho]. cbn in Hl.
      apply Forall_cons in Ho as [_ Ho]. split; [lia|done]. }
    split_and!; [done| |by intros]. eapply always_mono; [| |by apply IH].
    + intros h''. by apply by_default_trans.
    + intros r' h'' [Hb' Hr]. split; [by eapply by_default_trans|done].
Qed.

(** ** Pins *)

Definition by_pin (ip : IpAddr) (h h' : Host) : Prop := same_but (pin_key ip) h h' ∧ wf_host h'.

(** The snapshot of a host route: there was none, or exactly this one. *)
Definition pinned_from (h : Host) (r : PinnedRoute) : Prop :=
  pin_cidr r = route_cidr (pin_ip r) ∧
  match previous r with
  | None => routes_to h (pin_key (pin_ip r)) = []
  | Some line => routes_to h (pin_key (pin_ip r)) = [single line]
  end.

Lemma prepare_spec h ip (I : Host → Prop) Q :
  wf_host h → I h → (∀ e, Q (Err e) h) → (∀ r, pin_ip r = ip → pinned_from h r → Q (Ok r) h) →
  always I (prepare_node_route ip) h Q.
Proof.
  intros Hh HI He Hq. unfold prepare_node_route. apply always_try.
  eapply (always_show _ (route_family ip) (route_cidr ip)); [by destruct ip|done|done|].
  intros e Hp _. rewrite (padded_nonblank _ _ Hp). pose proof (padded_words _ _ Hp) as Hw.
  pose proof (Hh (route_family ip) (route_cidr ip)) as Hwf. fold (pin_key ip) in *.
  destruct (shown_lines e) as [|line [|? ?]]; cbn [always lift]; [| |apply He].
  - apply Hq; [done|]. split; [done|]. cbn [previous pin_ip]. eapply mjoin_nil; [exact Hwf|exact (eq_sym Hw)].
  - apply Hq; [done|]. split; [done|]. cbn [previous pin_ip]. eapply mjoin_singleton; [exact Hwf|exact (eq_sym Hw)].
Qed.

(** Our pin is told apart from no other route but one with neither metric nor service. *)
Lemma apply_spec h ip :
  wf_host h → Forall (λ r, route_slot (route_family ip) r = default_slot (route_family ip)) (routes_to h (pin_key ip)) →
  length (routes_to h (pin_key ip)) ≤ 1 →
  let pinned h' := by_pin ip h h' ∧ (h' = h ∨ ∃ w, routes_to h' (pin_key ip) = [[w]] ∧
    slot (route_family ip) w = default_slot (route_family ip)) in
  always pinned (apply_node_route ip) h (λ _ h', pinned h').
Proof.
  intros Hh Hslot Hlen pinned. assert (Hrefl : pinned h) by (split; [by split|by left]).
  unfold apply_node_route. apply always_try, always_output; [done|by intros|].
  intros h' e Hd. replace (parse_argv _) with (RtGet (route_family ip) (ip_to_string ip)) in Hd by by destruct ip.
  inversion Hd; subst. split_and!; [done| |by intros]. apply always_try. cbn [always lift].
  destruct (ok_or _ _) as [dev|]; [|done].
  assert (Hrep : ∀ argv rest, parse_argv argv = RtReplace (route_family ip) (route_cidr ip :: rest) →
    slot (route_family ip) (route_cidr ip :: rest) = default_slot (route_family ip) →
    always pinned (sh argv) h' (λ _ h', pinned h')).
  { intros argv rest Hp Hsl. apply always_sh; [done..|]. rewrite Hp. intros h'' out Hdoc.
    pose proof (doc_wf _ _ _ _ Hdoc Hh) as Hh''. apply doc_replace_inv in Hdoc. cbv zeta in Hdoc.
    rewrite route_dest_cidr in Hdoc. fold (pin_key ip) in Hdoc. destruct Hdoc as (w & old & rs & Hs & Hrs & -> & Hold).
    assert (pinned (set_routes (pin_key ip) rs h')); [|by split_and!].
    split; [split; [apply same_but_set|done]|]. right. exists w. rewrite routes_to_set.
    assert (old = []) as ->.
    { destruct Hold as [[-> Hne]|(r & Ho & _)].
      - destruct (routes_to h' (pin_key ip)) as [|r l]; [done|]. apply Forall_cons in Hslot as [E _], Hne as [N _]. congruence.
      - rewrite Ho in Hlen. cbn in Hlen. destruct old; [done|cbn in Hlen; lia]. }
    split; [by apply Permutation_singleton_r in Hrs|]. destruct (shown_words _ _ _ Hs) as (_ & _ & _ & -> & _). done. }
  destruct (field _ (str "via")) as [gw|].
  - eapply Hrep; [by destruct ip|]. by destruct (slot_unset (route_family ip) (route_cidr ip) gw dev).
  - eapply Hrep; [by destruct ip|]. by destruct (slot_unset (route_family ip) (route_cidr ip) dev dev).
Qed.

(** A pin that names its own destination. *)
Definition pin_sane (r : PinnedRoute) : Prop :=
  pin_cidr r = route_cidr (pin_ip r) ∧
  ∀ line, previous r = Some line → route_dest (route_family (pin_ip r)) (split_whitespace line) = route_cidr (pin_ip r).

Lemma pinned_from_sane h r : wf_host h → pinned_from h r → pin_sane r.
Proof.
  intros Hh [Hc Hf]. split; [done|]. intros line E. rewrite E in Hf.
  pose proof (Hh (route_family (pin_ip r)) (route_cidr (pin_ip r))) as H. fold (pin_key (pin_ip r)) in H.
  rewrite Hf in H. apply Forall_cons in H as [H _]. exact (wr_dest _ _ _ H).
Qed.

(** A command that replaces or deletes the routes to a node touches no others. *)
Lemma sh_by_pin argv ip h :
  wf_host h →
  (∃ ws, parse_argv argv = RtReplace (route_family ip) ws ∧ route_dest (route_family ip) ws = route_cidr ip) ∨
  parse_argv argv = RtDel (route_family ip) (route_cidr ip) →
  always (by_pin ip h) (sh argv) h (λ _ h', by_pin ip h h').
Proof.
  intros Hh Hp. assert (by_pin ip h h) by by split. apply always_sh; [done|done|]. intros h' out Hd.
  assert (by_pin ip h h'); [|by split_and!]. split; [|by eapply doc_wf].
  destruct Hp as [(ws & E & Hw)|E]; rewrite E in Hd.
  - apply doc_replace_inv in Hd. cbv zeta in Hd. rewrite Hw in Hd. destruct Hd as (w & old & rs & _ & _ & -> & _).
    apply same_but_set.
  - inversion Hd as [| | | | | |fam dest r' rs out' key Hd'|]; subst. unfold key. rewrite dest_prefix_cidr. apply same_but_set.
Qed.

Lemma apply_by_pin h ip : wf_host h → always (by_pin ip h) (apply_node_route ip) h (λ _ h', by_pin ip h h').
Proof.
  intros Hh. assert (by_pin ip h h) by by split. unfold apply_node_route. apply always_try, always_output; [done|by intros|].
  intros h' e Hd. replace (parse_argv _) with (RtGet (route_family ip) (ip_to_string ip)) in Hd by by destruct ip.
  inversion Hd; subst. split_and!; [done| |by intros]. apply always_try. cbn [always lift].
  destruct (ok_or _ _) as [dev|]; [|done].
  destruct (field _ (str "via")) as [gw|]; (apply sh_by_pin; [done|]); left; eexists; (split; [by destruct ip|apply route_dest_cidr]).
Qed.

Lemma restore_by_pin h r :
  wf_host h → pin_sane r → always (by_pin (pin_ip r) h) (restore_pin r) h (λ _ h', by_pin (pin_ip r) h h').
Proof.
  intros Hh [Hc Hl]. assert (by_pin (pin_ip r) h h) by by split. unfold restore_pin. destruct (previous r) as [line|].
  - apply sh_by_pin; [done|]. left. exists (split_whitespace line). split; [by destruct (pin_ip r)|by apply Hl].
  - unfold remove_route_if_present. apply always_try, always_output; [done|by intros|].
    intros h' e Hd. replace (parse_argv _) with (RtShow (route_family (pin_ip r)) (pin_cidr r)) in Hd by by destruct (pin_ip r).
    inversion Hd; subst. split_and!; [done| |by intros]. destruct (forallb _ _); [by cbn|].
    apply sh_by_pin; [done|]. right. rewrite Hc. by destruct (pin_ip r).
Qed.

(** A pin in place: the snapshot tells how the host was, and the routes to the node now are that
    one or ours. *)
Definition plain_slots (ip : IpAddr) (rs : list Route) : Prop :=
  Forall (λ r, route_slot (route_family ip) r = default_slot (route_family ip)) rs.

Record pin_ok (h0 h : Host) (r : PinnedRoute) : Prop := {
  po_from : pinned_from h0 r;
  po_slots0 : plain_slots (pin_ip r) (routes_to h0 (pin_key (pin_ip r)));
  po_slots : plain_slots (pin_ip r) (routes_to h (pin_key (pin_ip r)));
  po_one : length (routes_to h (pin_key (pin_ip r))) ≤ 1;
  po_some : is_Some (previous r) → routes_to h (pin_key (pin_ip r)) ≠ [];
}.

Lemma pin_ok_ext h0 h h' r :
  routes_to h' (pin_key (pin_ip r)) = routes_to h (pin_key (pin_ip r)) → pin_ok h0 h r → pin_ok h0 h' r.
Proof. intros E []. split; rewrite ?E; done. Qed.

Lemma pin_ok_restored h0 h h' r :
  pin_ok h0 h r → routes_to h' (pin_key (pin_ip r)) = routes_to h0 (pin_key (pin_ip r)) → pin_ok h0 h' r.
Proof.
  intros [[Hc Hf] H0 _ _ Hs] E. split; rewrite ?E; [done|done|done| |].
  - destruct (previous r); rewrite Hf; cbn; lia.
  - destruct (previous r); rewrite Hf; [done|]. by intros [].
Qed.

Lemma restore_pin_spec h0 h r :
  wf_host h0 → wf_host h → pin_ok h0 h r →
  let J h' := by_pin (pin_ip r) h h' ∧ pin_ok h0 h' r in
  always J (restore_pin r) h
    (λ res h', J h' ∧ (res = Ok tt → routes_to h' (pin_key (pin_ip r)) = routes_to h0 (pin_key (pin_ip r)))).
Proof.
  intros H0 Hh Hp J. assert (Hrefl : J h) by (split; [by split|done]).
  assert (Hdone : ∀ rs, wf_host (set_routes (pin_key (pin_ip r)) rs h) → rs = routes_to h0 (pin_key (pin_ip r)) →
    J (set_routes (pin_key (pin_ip r)) rs h) ∧
    routes_to (set_routes (pin_key (pin_ip r)) rs h) (pin_key (pin_ip r)) = routes_to h0 (pin_key (pin_ip r))).
  { intros rs Hwf Hrs. assert (E := routes_to_set (pin_key (pin_ip r)) rs h). rewrite Hrs in E at 2.
    split; [|done]. split; [split; [apply same_but_set|done]|by eapply pin_ok_restored]. }
  pose proof (po_from _ _ _ Hp) as [Hcidr Hfrom]. unfold restore_pin. destruct (previous r) as [line|] eqn:Eprev.
  - (* there was a route: put it back *)
    assert (Hws : wf_route (route_family (pin_ip r)) (route_cidr (pin_ip r)) (single line)).
    { pose proof (H0 (route_family (pin_ip r)) (route_cidr (pin_ip r))) as H. fold (pin_key (pin_ip r)) in H.
      rewrite Hfrom in H. by apply Forall_cons in H as [H _]. }
    apply always_sh; [done|by intros|].
    replace (parse_argv _) with (RtReplace (route_family (pin_ip r)) (split_whitespace line)) by by destruct (pin_ip r).
    intros h' out Hdoc. pose proof (doc_wf _ _ _ _ Hdoc Hh) as Hh'. apply doc_replace_inv in Hdoc. cbv zeta in Hdoc.
    pose proof (wr_dest _ _ _ Hws) as Hd. cbn in Hd. rewrite Hd in Hdoc. fold (pin_key (pin_ip r)) in Hdoc.
    destruct Hdoc as (w & old & rs & Hs & Hrs & -> & Hold).
    apply (shown_again _ _ _ _ (wr_shown _ _ _ Hws _ eq_refl)) in Hs as ->.
    assert (old = []) as ->.
    { pose proof (po_slots _ _ _ Hp) as Hsl. pose proof (po_one _ _ _ Hp) as H1. destruct Hold as [[-> Hne]|(r' & Ho & _)].
      - pose proof (po_slots0 _ _ _ Hp) as Hsl0. rewrite Hfrom in Hsl0. apply Forall_cons in Hsl0 as [E0 _].
        destruct (routes_to h (pin_key (pin_ip r))) as [|x l]; [done|].
        apply Forall_cons in Hsl as [E _], Hne as [N _]. unfold route_slot, single in E0. cbn in E0. congruence.
      - rewrite Ho in H1. cbn in H1. destruct old; [done|cbn in H1; lia]. }
    apply Permutation_singleton_r in Hrs as ->. destruct (Hdone [[split_whitespace line]] Hh') as [HJ Hr]; [by rewrite Hfrom|].
    by split_and!.
  - (* there was none: take ours away *)
    unfold remove_route_if_present. rewrite Hcidr. apply always_try.
    eapply (always_show _ (route_family (pin_ip r)) (route_cidr (pin_ip r))); [by destruct (pin_ip r)|done|by intros|].
    intros e _ Hprint. rewrite (prints_blank _ _ Hprint). fold (pin_key (pin_ip r)).
    case_bool_decide as Hnil.
    + cbn [always lift]. split; [done|]. intros _. rewrite Hfrom. eapply mjoin_nil; [apply (Hh (route_family (pin_ip r)) (route_cidr (pin_ip r)))|done].
    + apply always_sh; [done|by intros|].
      replace (parse_argv _) with (RtDel (route_family (pin_ip r)) (route_cidr (pin_ip r))) by by destruct (pin_ip r).
      intros h' out Hdoc. pose proof (doc_wf _ _ _ _ Hdoc Hh) as Hh'.
      inversion Hdoc as [| | | | | |fam dest r' rs out' key Hd|]; subst. unfold key in *. clear key. rewrite dest_prefix_cidr in *. fold (pin_key (pin_ip r)) in *.
      assert (rs = []) as ->.
      { pose proof (po_one _ _ _ Hp) as H1. rewrite Hd in H1. cbn in H1. destruct rs; [done|cbn in H1; lia]. }
      destruct (Hdone [] Hh') as [HJ Hr]; [by rewrite Hfrom|]. by split_and!.
Qed.

End Routes.
