(* ===== verification/HostRuns.v ===== *)
(** * Arming and rolling back the host's networking

    [LinuxNet] over its whole life: one [arm], then any number of [teardown]s, with commands that
    fail anywhere.  [journal] ties the record the code keeps to what it has done to the host. *)

From S2P Require Import Prelude.
From S2P Require Import Net.
From S2P Require Import Prog.
From S2P Require Import World.
From S2P Require Import Ledger.
From S2P Require Import HostNet.
From S2P Require Import HostText.
From S2P Require Import KillSwitch.
From S2P Require Import HostRoutes.
From Stdlib Require Import Strings.Byte ZArith Lia.
From stdpp Require Import prelude gmap strings.

(** The host's default routes and resolver are as they were. *)
Definition untouched (h0 h : Host) : Prop :=
  routes_to h DEF ≡ₚ routes_to h0 DEF ∧ resolv_conf h = resolv_conf h0.

(** All of it is as it was. *)
Record restored (h0 h : Host) : Prop := {
  re_v4 : iptables h = iptables h0;
  re_v6 : ip6tables h = ip6tables h0;
  re_resolv : resolv_conf h = resolv_conf h0;
  re_routes key : routes_to h key ≡ₚ routes_to h0 key;
}.

Section Runs.
Context `{Htools : HostTools, Hlaws : !HostToolsLaws, Hfilter : EgressFilter, Hflaws : !EgressFilterLaws}.
Context (h0 : Host) (p : ArmParams).

#[local] Notation always := (always net_perform).

(** A host that nothing of ours was done to. *)
Record fresh_host : Prop := { fh_wf : wf_host h0; fh_fw : fw_clean h0 }.

(** Every node has its own host route, and none was told apart by a metric. *)
Record tame : Prop := {
  tame_distinct : NoDup (pin_key <$> node_ip p :: ap_also_except p);
  tame_slots : Forall (λ ip, plain_slots ip (routes_to h0 (pin_key ip))) (node_ip p :: ap_also_except p);
}.

(** Either nothing leaves but by the tunnel, or traffic goes where it went before. *)
Definition safe (h : Host) : Prop := ap_kill_switch p = true → shielded p h ∨ untouched h0 h.

Definition fw_is (h : Host) (σ : FwStates) : Prop :=
  iptables h = build false σ.1 (iptables h0) ∧ ip6tables h = build true σ.2 (ip6tables h0).

Definition keys_of (pins : list PinnedRoute) : list (bytes * bytes) := (λ r, pin_key (pin_ip r)) <$> pins.

Record pins_ok (pins : list PinnedRoute) (h : Host) : Prop := {
  pk_distinct : NoDup (keys_of pins);
  pk_ok : Forall (pin_ok h0 h) pins;
  pk_rest key : key ≠ DEF → key ∉ keys_of pins → routes_to h key = routes_to h0 key;
}.

Record journal (n : LinuxNet) (h : Host) : Prop := {
  j_wf : wf_host h;
  j_fw : ∃ σ, fw_is h σ;
  j_fw_clean : firewall_touched n = false → fw_is h (no_fw, no_fw);
  j_def : default_changed n = false → routes_to h DEF ≡ₚ routes_to h0 DEF;
  j_orig : default_changed n = true → captured h0 (orig_defaults n) ∧ replayable (orig_defaults n);
  j_lean : default_changed n = true → lean (S (length (routes_to h0 DEF))) h;
  j_dns : dns_touched n = false → resolv_conf h = resolv_conf h0;
  j_backup : dns_touched n = true → resolv_backup n = Some (resolv_conf h0);
  j_sane : Forall pin_sane (pinned_routes n);
  j_pins : tame → pins_ok (pinned_routes n) h;
  j_guard : ap_kill_switch p = true → shielded p h ∨ (default_changed n = false ∧ dns_touched n = false);
  j_armed : armed n = false → still_armed n = false;
}.

Ltac flags := cbn [armed default_changed dns_touched firewall_touched pinned_routes orig_defaults resolv_backup
  set_armed set_default_changed set_dns_touched set_firewall_touched set_pinned_routes set_orig_defaults set_resolv_backup].

Lemma journal_safe n h : journal n h → safe h.
Proof.
  intros J Hk. destruct (j_guard _ _ J Hk) as [?|[Hd Hr]]; [by left|]. right.
  split; [by apply (j_def _ _ J)|by apply (j_dns _ _ J)].
Qed.

Lemma shielded_ext h h' : iptables h' = iptables h → ip6tables h' = ip6tables h → shielded p h → shielded p h'.
Proof. intros E4 E6 H pkt. rewrite E4, E6. apply H. Qed.

Lemma fw_is_ext h h' σ : iptables h' = iptables h → ip6tables h' = ip6tables h → fw_is h σ → fw_is h' σ.
Proof. intros E4 E6 [? ?]. split; congruence. Qed.

(** The host without our rules. *)
Definition base (h : Host) : Host :=
  {| iptables := iptables h0; ip6tables := ip6tables h0; routes := routes h; resolv_conf := resolv_conf h |}.

Lemma fw_is_with h σ : fw_is h σ → h = with_fw (base h) σ.
Proof. destruct h as [c4 c6 rt rc]. intros [E4 E6]. unfold with_fw, fw_host. cbn in *. by subst. Qed.

Lemma with_fw_is h σ : fw_is (with_fw (base h) σ) σ.
Proof. done. Qed.

Lemma pins_ok_ext pins h h' :
  (∀ key, key ≠ DEF → routes_to h' key = routes_to h key) → pins_ok pins h → pins_ok pins h'.
Proof.
  intros E [H1 H2 H3]. split; [done| |].
  - eapply Forall_impl; [exact H2|]. intros r. apply pin_ok_ext, E, pin_key_not_def.
  - intros key Hd Hk. rewrite E by done. by apply H3.
Qed.

(** ** Arming *)

(** Until the switch is armed, only routes to nodes have changed. *)
Record arming (n : LinuxNet) (h : Host) : Prop := {
  ar_wf : wf_host h;
  ar_same : iptables h = iptables h0 ∧ ip6tables h = ip6tables h0 ∧ resolv_conf h = resolv_conf h0 ∧
            routes_to h DEF = routes_to h0 DEF;
  ar_flags : armed n = true ∧ default_changed n = false ∧ dns_touched n = false ∧ firewall_touched n = false;
  ar_sane : Forall pin_sane (pinned_routes n);
  ar_pins : tame → pins_ok (pinned_routes n) h;
}.

Lemma fw_none_is h : fresh_host → iptables h = iptables h0 → ip6tables h = ip6tables h0 → fw_is h (no_fw, no_fw).
Proof.
  intros [_ [H4 H6]] E4 E6. split; cbn [fst snd]; rewrite build_none by done; done.
Qed.

Lemma arming_journal n h : fresh_host → arming n h → journal n h.
Proof.
  intros Hf [Hw (E4 & E6 & Er & Ed) (Ha & Hdc & Hdt & Hft) Hs Hp].
  pose proof (fw_none_is h Hf E4 E6) as Hfw.
  split; try done; rewrite ?Hdc, ?Hdt, ?Ha; try done; [by eexists|by rewrite Ed|by right].
Qed.

Lemma arming_safe n h : arming n h → safe h.
Proof. intros [_ (_ & _ & Er & Ed) _ _ _] _. right. split; [by rewrite Ed|done]. Qed.

Lemma arming_by_pin n h ip h' :
  arming n h → by_pin ip h h' → (tame → pins_ok (pinned_routes n) h') → arming n h'.
Proof.
  intros [Hw (E4 & E6 & Er & Ed) Hfl Hs Hp] [[B4 B6 Br Bk] Hw'] Hp'. split; [done| |done|done|done].
  rewrite B4, B6, Br, Bk by (apply not_eq_sym, pin_key_not_def). done.
Qed.

Lemma arming_pin_safe n h ip h' : arming n h → by_pin ip h h' → safe h'.
Proof.
  intros [_ (_ & _ & Er & Ed) _ _ _] [[_ _ Br Bk] _] _. right.
  split; [by rewrite Bk, Ed by (apply not_eq_sym, pin_key_not_def)|by rewrite Br].
Qed.

(** A new pin: snapshot taken, then the route replaced, or not. *)
Lemma pins_ok_add pins h r :
  pins_ok pins h → pin_key (pin_ip r) ∉ keys_of pins → pinned_from h r →
  plain_slots (pin_ip r) (routes_to h0 (pin_key (pin_ip r))) → pins_ok (pins ++ [r]) h.
Proof.
  intros [H1 H2 H3] Hn [Hc Hf] Hs. pose proof (H3 _ (pin_key_not_def _) Hn) as E. split.
  - unfold keys_of. rewrite fmap_app. apply NoDup_app. split_and!; [done| |apply NoDup_singleton].
    intros k Hk Hk2%list_elem_of_singleton. by subst k.
  - apply Forall_app. split; [done|]. apply Forall_singleton. rewrite E in Hf. split; rewrite ?E; try done.
    + destruct (previous r); rewrite Hf; cbn; lia.
    + destruct (previous r); rewrite Hf; [done|]. by intros [].
  - intros key Hd Hk. apply H3; [done|]. unfold keys_of in Hk. rewrite fmap_app in Hk. set_solver.
Qed.

Lemma pins_ok_step pins h h' r :
  pins_ok (pins ++ [r]) h → by_pin (pin_ip r) h h' →
  (h' = h ∨ ∃ w, routes_to h' (pin_key (pin_ip r)) = [[w]] ∧
     slot (route_family (pin_ip r)) w = default_slot (route_family (pin_ip r))) →
  pins_ok (pins ++ [r]) h'.
Proof.
  intros [H1 H2 H3] [[_ _ _ B] _] [->|(w & Ew & Hw)]; [done|]. split; [done| |].
  - apply Forall_app in H2 as [H2 [Hr _]%Forall_cons]. apply Forall_app. split.
    + rewrite Forall_forall in H2 |- *. intros r' Hr'. eapply pin_ok_ext; [|by apply H2]. apply B.
      intros E. unfold keys_of in H1. rewrite fmap_app in H1. apply NoDup_app in H1 as (_ & H1 & _).
      apply (H1 (pin_key (pin_ip r'))); [apply list_elem_of_fmap; by exists r'|]. rewrite E. by apply list_elem_of_singleton.
    + apply Forall_singleton. destruct Hr as [Hf Hs0 _ _ _]. split; [done|done| | |]; rewrite Ew; [|cbn; lia|done].
      by apply Forall_singleton.
  - intros key Hd Hk. rewrite B; [by apply H3|]. intros ->. apply Hk. unfold keys_of. rewrite fmap_app. set_solver.
Qed.

(** Pin one node. *)
Lemma pin_node_spec ip n h :
  arming n h → (tame → pin_key ip ∉ keys_of (pinned_routes n) ∧ plain_slots ip (routes_to h0 (pin_key ip))) →
  always safe (prepare_node_route ip) h (λ res h', h' = h ∧ ∀ r, res = Ok r → pin_ip r = ip ∧
    let n' := set_pinned_routes (pinned_routes n ++ [r]) n in
    arming n' h ∧ always safe (apply_node_route ip) h (λ _ h', arming n' h')).
Proof.
  intros A Ht. apply prepare_spec; [apply A|by eapply arming_safe|done|].
  intros r Hip Hfrom. split; [done|]. intros ? [= <-]. split; [done|]. intros n'.
  assert (A' : arming n' h).
  { destruct A as [Hw Hsame Hfl Hs Hp]. split; [done..| |].
    - cbn. apply Forall_app. split; [done|]. apply Forall_singleton. by eapply pinned_from_sane.
    - intros T. destruct (Ht T) as [Hn Hsl]. rewrite <- Hip in *. apply pins_ok_add; auto. }
  split; [done|].
  eapply always_mono with (I := by_pin ip h); [by intros h' Hb; eapply arming_pin_safe| |].
  2:{ eapply (always_when _ tame); [by apply apply_by_pin, A|]. intros T.
      pose proof (pk_ok _ _ (ar_pins _ _ A' T)) as Hok. apply Forall_app in Hok as [_ [Hok _]%Forall_cons].
      destruct Hok as [_ _ Hsl Hone _]. rewrite Hip in *. by apply apply_spec; [apply A|..]. }
  intros _ h' [Hb Hpin]. eapply arming_by_pin; [done|done|]. intros T. eapply pins_ok_step; [by apply A'| |]; rewrite Hip; [done|].
  by destruct (Hpin T).
Qed.

(** Pin the fallback nodes, skipping those that cannot be. *)
Lemma pin_fallbacks_spec ips n h :
  arming n h →
  (tame → NoDup (keys_of (pinned_routes n) ++ (pin_key <$> ips)) ∧ Forall (λ ip, plain_slots ip (routes_to h0 (pin_key ip))) ips) →
  always safe (pin_fallbacks n ips) h (λ n' h', arming n' h' ∧ orig_defaults n' = orig_defaults n).
Proof.
  revert n h. induction ips as [|ip ips IH]; intros n h A Ht; cbn [pin_fallbacks]; [done|].
  apply always_bind. eapply always_post; [|apply (pin_node_spec ip n h); [done|]].
  2:{ intros T. destruct (Ht T) as [Hn [Hs _]%Forall_cons]. split; [|done]. intros Hin.
      apply NoDup_app in Hn as (_ & Hn & _). apply (Hn _ Hin). left. }
  intros res h' [-> Hres]. destruct res as [r|e].
  - destruct (Hres r eq_refl) as (Hip & A' & Happly). apply always_bind. eapply always_post; [|exact Happly].
    intros ? h' A''. eapply always_post; [|apply IH; [exact A''|]]; [by intros n' h'' [? ?]|].
    intros T. destruct (Ht T) as [Hn [_ Hs]%Forall_cons]. split; [|done]. cbn [pinned_routes set_pinned_routes].
    unfold keys_of in *. rewrite fmap_app. cbn. rewrite Hip, <- app_assoc. done.
  - apply IH; [done|]. intros T. destruct (Ht T) as [Hn [_ Hs]%Forall_cons]. split; [|done].
    eapply sublist_NoDup; [exact Hn|]. apply sublist_app; [done|]. by constructor.
Qed.

(** Ready to turn the default route: armed if it is to be, the originals recorded. *)
Record ready (n : LinuxNet) (h : Host) : Prop := {
  rd_journal : journal n h;
  rd_shield : ap_kill_switch p = true → shielded p h;
  rd_armed : armed n = true;
  rd_orig : captured h0 (orig_defaults n) ∧ replayable (orig_defaults n);
}.

Lemma kill_switch_spec n h :
  fresh_host → arming n h → captured h0 (orig_defaults n) → replayable (orig_defaults n) →
  let n' := if ap_kill_switch p then set_firewall_touched true n else n in
  always safe (if ap_kill_switch p then arm_kill_switch (node_ip p) (ap_also_except p) (ap_tun_name p) else lift (Ok tt)) h
    (λ r h', match r with Ok _ => ready n' h' | Err _ => journal n' h' end).
Proof.
  intros Hf A Hc Hr. destruct (ap_kill_switch p) eqn:Hk; cbn zeta.
  2:{ cbn. split; [by apply arming_journal|congruence|apply A|done]. }
  assert (Hb : fw_clean (base h)) by apply Hf.
  pose proof (fw_none_is h Hf (proj1 (ar_same _ _ A)) (proj1 (proj2 (ar_same _ _ A)))) as Hnone.
  assert (Hours : ∀ σ, journal (set_firewall_touched true n) (with_fw (base h) σ)).
  { intros σ. destruct A as [Hw (_ & _ & Er & Ed) (Ha & Hdc & Hdt & Hft) Hs Hp].
    split; flags; rewrite ?Ha, ?Hdc, ?Hdt; try done.
    - by exists σ.
    - intros _. change (routes_to h DEF ≡ₚ routes_to h0 DEF). by rewrite Ed.
    - intros T. by eapply pins_ok_ext, Hp.
    - by right. }
  rewrite (fw_is_with h _ Hnone) at 1. eapply always_mono; [| |by apply (arm_kill_switch_spec (base h))].
  - intros h' [σ ->]. by eapply journal_safe.
  - intros [u|e] h'; [|by intros [σ ->]]. intros (σ & -> & Hσ).
    split; [done| |apply A|done]. intros _. by apply armed_is_shielded.
Qed.

(** Changing the default routes behind the switch. *)
Lemma ready_default n h h' :
  ready n h → same_but DEF h h' → wf_host h' → lean (S (length (routes_to h0 DEF))) h' →
  ready (set_default_changed true n) h'.
Proof.
  intros [J Hsh Ha Ho] [B4 B6 Br Bk] Hw Hln. destruct J as [_ [σ Hfw] Hfc _ _ _ Hd Hb Hs Hp _ _].
  split; [|intros Hk; by eapply shielded_ext, Hsh|done|done].
  split; flags; rewrite ?Ha; try done.
  - exists σ. by eapply fw_is_ext.
  - intros Hft. eapply fw_is_ext; [done..|by apply Hfc].
  - by rewrite Br.
  - intros T. eapply pins_ok_ext; [|by apply Hp]. exact Bk.
  - intros Hk. left. by eapply shielded_ext, Hsh.
Qed.

Lemma ready_lean n h : ready n h → default_changed n = false → lean (length (routes_to h0 DEF)) h.
Proof.
  intros [J _ _ [[Hc _] Hr]] Hdc. pose proof (j_def _ _ J Hdc) as E. split; [by rewrite E|]. rewrite E, Hc.
  apply Forall_fmap. eapply Forall_impl; [exact Hr|]. by intros d (_ & _ & ?).
Qed.

Lemma default_spec n h :
  ready n h → default_changed n = false →
  always safe (sh [str "ip"; str "route"; str "replace"; str "default"; str "dev"; ap_tun_name p]) h
    (λ r h', ready (set_default_changed true n) h').
Proof.
  intros R Hdc. destruct (ready_lean n h R Hdc) as [Hlen Hone]. pose proof (j_wf _ _ (rd_journal _ _ R)) as Hw.
  assert (Hrefl : ready (set_default_changed true n) h) by (apply (ready_default n h); [done|done|done|split; [lia|done]]).
  apply always_sh; [by eapply journal_safe, R|done|]. intros h' out Hd.
  assert (ready (set_default_changed true n) h') as R'.
  { pose proof (doc_wf _ _ _ _ Hd Hw) as Hw'. apply doc_replace_inv in Hd as (w & old & rs & Hsw & Hrs & -> & Hold).
    assert (default_line [w]) as Hline.
    { destruct (shown_words _ _ _ Hsw) as (_ & _ & _ & _ & Hhd). specialize (Hhd eq_refl).
      destruct w as [|w0 w]; [done|]. injection Hhd as ->. by eexists. }
    apply (ready_default n h); [done|apply same_but_set|done|]. unfold lean. rewrite routes_to_set, Hrs.
    change (str "-4", route_dest (str "-4") [str "default"; str "dev"; ap_tun_name p]) with DEF in Hold.
    destruct Hold as [[-> _]|(r & E & _)]; [split; [cbn [length]; lia|by constructor]|]. rewrite E in Hlen, Hone. cbn [length] in Hlen.
    apply Forall_cons in Hone as [_ Hone]. split; [cbn [length]; lia|by constructor]. }
  split_and!; [by eapply journal_safe, R'|done|done].
Qed.

(** Pointing the resolver at the tunnel, with the original kept. *)
Lemma ready_dns n h text :
  ready n h → ready (set_dns_touched true (set_resolv_backup (Some (resolv_conf h0)) n)) (set_resolv text h).
Proof.
  intros [J Hsh Ha Ho]. destruct J as [Hw [σ Hfw] Hfc Hdef Hor Hln Hd Hb Hs Hp _ _].
  split; [|done|done|done]. split; flags; rewrite ?Ha; try done.
  - exists σ. exact Hfw.
  - intros T. by eapply pins_ok_ext, Hp.
  - intros Hk. left. by apply Hsh.
Qed.

Lemma dns_spec n h :
  ready n h → dns_touched n = false →
  always safe
    (let* read := call ReadResolv in
     or_return n (lift (ok_or (E := NetError) read ReadResolvFailed)) (λ original,
     let self := set_dns_touched true (set_resolv_backup (Some original) n) in
     or_return self (set_dns (ap_dns p)) (λ _, Ret (self, Ok tt))))%prog h
    (λ s h', journal s.1 h').
Proof.
  intros R Hdt. pose proof (j_dns _ _ (rd_journal _ _ R) Hdt) as Er.
  assert (Hs : ∀ n h, ready n h → safe h) by (intros ? ? R'; eapply journal_safe, R').
  intros h' r [-> Hread]. split; [by eapply Hs|]. destruct Hread as [->| ->]; cbn [prog_bind ok_or or_return lift]; [|by apply R].
  rewrite Er. unfold or_return, set_dns, write_resolv. cbn [prog_bind call].
  assert (R' : ∀ text, ready (set_dns_touched true (set_resolv_backup (Some (resolv_conf h0)) n)) (set_resolv text h)).
  { intros text. by apply ready_dns. }
  assert (R0 : ready (set_dns_touched true (set_resolv_backup (Some (resolv_conf h0)) n)) h).
  { specialize (R' (resolv_conf h)). by destruct h. }
  intros h' r Hr. cbn in Hr. destruct r.
  - subst h'. split; [by eapply Hs|]. cbn. apply R'.
  - destruct Hr as [->|[k ->]]; (split; [by eapply Hs|]); cbn; [apply R0|apply R'].
Qed.

Lemma always_or_return {A} I self (q : netprog (result NetError A)) f h Q :
  always I q h (λ r h', match r with Ok a => always I (f a) h' Q | Err e => Q (self, Err e) h' end) →
  always I (or_return self q f) h Q.
Proof. intros H. apply always_bind. eapply always_post; [|exact H]. by intros [a|e]. Qed.

Lemma arm_spec : fresh_host → always safe (arm p linux_default) h0 (λ s h, journal s.1 h).
Proof.
  intros Hf. unfold arm. cbn [armed linux_default]. set (n0 := set_armed true linux_default).
  assert (A0 : arming n0 h0).
  { split; [apply Hf|done|done|done|]. intros _. split; [constructor|constructor|done]. }
  pose proof (arming_safe _ _ A0) as Hs0. apply always_bind.
  eapply always_post with (Q := λ _ h, h = h0).
  2:{ apply always_sh; [done|done|]. intros h' out Hd. inversion Hd; subst. by split_and!. }
  intros ? h ->. apply always_or_return, capture_spec; [done|by intros; apply arming_journal|].
  destruct (capture_of _) as [ds|e] eqn:Ec; [|by apply arming_journal].
  apply capture_of_Ok in Ec as [Hcap Hrep]; [|apply Hf].
  assert (A1 : arming (set_orig_defaults ds n0) h0) by by destruct A0.
  apply always_or_return. eapply always_post; [|apply (pin_node_spec (node_ip p)); [exact A1|]].
  2:{ intros [Hd [Hsl _]%Forall_cons]. split; [apply not_elem_of_nil|done]. }
  intros [r|e] h [-> Hres]; [|by apply arming_journal]. destruct (Hres r eq_refl) as (Hip & A2 & Happly).
  apply always_or_return. eapply always_post; [|exact Happly]. intros [u|e] h A3; [|by apply arming_journal].
  apply always_bind. eapply always_post; [|apply pin_fallbacks_spec; [exact A3|]].
  2:{ intros [Hd [_ Hsl]%Forall_cons]. cbn. by rewrite Hip. }
  cbn beta. intros n h' [A4 Ho]. cbn in Ho. apply always_or_return.
  eapply always_post; [|apply (kill_switch_spec n); [done|done|by rewrite Ho..]].
  intros [v|e] h2 R; [|done]. set (n5 := if ap_kill_switch p then _ else _) in *.
  assert (Hdt : dns_touched n5 = false) by (subst n5; destruct (ap_kill_switch p); apply A4).
  assert (Hdc : default_changed n5 = false) by (subst n5; destruct (ap_kill_switch p); apply A4).
  apply always_or_return. eapply always_post; [|exact (default_spec n5 h2 R Hdc)].
  intros [v'|e] h3 R3; [|apply R3]. case_decide; [apply R3|]. by apply dns_spec.
Qed.

(** ** Rolling back *)

Lemma snoc_not_nil {A} (l : list A) x : l ++ [x] ≠ [].
Proof. by destruct l. Qed.

Lemma attempt_nil errors step r : (attempt errors step r).1 = [] → errors = [] ∧ r = Ok tt.
Proof. destruct r as [[]|e]; cbn; [done|]. by intros ?%snoc_not_nil. Qed.

Lemma attempt_ok errors step r : (attempt errors step r).2 = is_ok r.
Proof. by destruct r. Qed.

(** Nothing but the resolver. *)
Lemma journal_resolv n h text :
  journal n h → dns_touched n = true → journal n (set_resolv text h).
Proof.
  intros [Hw Hfw Hfc Hdef Hor Hln Hd Hb Hs Hp Hg Ha] Hdt. split; try done.
  - by rewrite Hdt.
  - intros T. by eapply pins_ok_ext, Hp.
Qed.

Lemma restore_dns_spec n errors h :
  journal n h →
  always safe (restore_dns n errors) h
    (λ s h', journal s.1 h' ∧ (s.2 = [] → errors = [] ∧ dns_touched s.1 = false) ∧ armed s.1 = armed n).
Proof.
  intros J. unfold restore_dns. destruct (dns_touched n) eqn:Hdt; [|cbn; by split_and!].
  rewrite (j_backup _ _ J Hdt). unfold write_resolv. cbn [call prog_bind].
  assert (Jr : ∀ text, journal n (set_resolv text h)) by (intros; by apply journal_resolv).
  intros h' r Hr. cbn in Hr. destruct r.
  - subst h'. split; [by eapply journal_safe, Jr|]. cbn. split_and!; [|done|done].
    destruct (Jr (resolv_conf h0)) as [Hw Hfw Hfc Hdef Hor Hln Hd Hb Hs Hp Hg Ha]. split; flags; try done.
    + intros Hk. destruct (Hg Hk) as [?|[? ?]]; [by left|by right].
    + intros ?%Ha. unfold still_armed in *. flags. by rewrite Hdt in *.
  - assert (journal n h') as J' by (destruct Hr as [->|[k ->]]; [done|apply Jr]).
    split; [by eapply journal_safe|]. cbn. split_and!; [done| |done]. by intros ?%snoc_not_nil.
Qed.

(** Nothing but the default routes, and those are recorded. *)
Lemma journal_default n h h' :
  journal n h → default_changed n = true → by_default (S (length (routes_to h0 DEF))) h h' → journal n h'.
Proof.
  intros [Hw [σ Hfw] Hfc Hdef Hor Hln Hd Hb Hs Hp Hg Ha] Hdc [[B4 B6 Br Bk] Hw' Hln']. split; try done.
  - exists σ. by eapply fw_is_ext.
  - intros ?%Hfc. by eapply fw_is_ext.
  - by rewrite Hdc.
  - intros ?%Hln. by apply Hln'.
  - by rewrite Br.
  - intros T. by eapply pins_ok_ext, Hp.
  - intros Hk. destruct (Hg Hk) as [?|[? ?]]; [left; by eapply shielded_ext|congruence].
Qed.

Lemma restore_defaults_spec n errors h :
  journal n h →
  always safe (restore_defaults n errors) h
    (λ s h', journal s.1 h' ∧ (s.2 = [] → errors = [] ∧ default_changed s.1 = false) ∧
             dns_touched s.1 = dns_touched n ∧ armed s.1 = armed n).
Proof.
  intros J. unfold restore_defaults. destruct (default_changed n) eqn:Hdc; [|cbn; by split_and!].
  destruct (j_orig _ _ J Hdc) as [[Ecap _] Hrep]. apply always_bind.
  eapply always_mono; [| |apply (restore_loop_spec (S (length (routes_to h0 DEF)))); [apply J|exact Hrep|]].
  3:{ rewrite Ecap, length_fmap. lia. }
  - intros h' Hb. eapply journal_safe, journal_default; done.
  - intros r h' [Hb Hr]. pose proof (journal_default _ _ _ J Hdc Hb) as J'. cbn [always].
    destruct r as [[]|e]; cbn.
    + split_and!; [|done|done|done]. destruct J' as [Hw Hfw Hfc Hdef Hor Hln Hd Hbk Hs Hp Hg Ha]. split; flags; try done.
      * intros _. by rewrite (Hr eq_refl), Ecap.
      * intros Hk. destruct (Hg Hk) as [?|[? ?]]; [by left|congruence].
      * intros ?%Ha. unfold still_armed in *. flags. by rewrite Hdc, orb_true_r in *.
    + split_and!; [done| |done|done]. by intros ?%snoc_not_nil.
Qed.

(** The order of the pins does not matter. *)
Lemma pins_ok_perm pins pins' h : pins ≡ₚ pins' → pins_ok pins h → pins_ok pins' h.
Proof.
  intros E [H1 H2 H3]. assert (Ek : keys_of pins ≡ₚ keys_of pins') by by apply fmap_Permutation.
  split; [by rewrite <- Ek|by rewrite <- E|]. intros key Hd Hk. apply H3; [done|]. by rewrite Ek.
Qed.

(** Nothing but the routes to a node that is still pinned. *)
Lemma pins_ok_move pins r h h' :
  pins_ok (r :: pins) h → by_pin (pin_ip r) h h' → pin_ok h0 h' r → pins_ok (r :: pins) h'.
Proof.
  intros [H1 H2 H3] [[_ _ _ B] _] Hr. split; [done| |].
  - apply Forall_cons in H2 as [_ H2]. constructor; [done|]. apply NoDup_cons in H1 as [Hn _].
    rewrite Forall_forall in H2 |- *. intros r' Hr'. eapply pin_ok_ext; [|by apply H2]. apply B.
    intros E. apply Hn. rewrite <- E. apply list_elem_of_fmap. by exists r'.
  - intros key Hd Hk. rewrite B; [by apply H3|]. intros ->. apply Hk. left.
Qed.

Lemma pins_ok_drop pins r h :
  pins_ok (r :: pins) h → routes_to h (pin_key (pin_ip r)) = routes_to h0 (pin_key (pin_ip r)) → pins_ok pins h.
Proof.
  intros [H1 H2 H3] E. apply NoDup_cons in H1 as [Hn H1]. apply Forall_cons in H2 as [_ H2]. split; [done|done|].
  intros key Hd Hk. destruct (decide (key = pin_key (pin_ip r))) as [->|Hne]; [done|].
  apply H3; [done|]. change (keys_of (r :: pins)) with (pin_key (pin_ip r) :: keys_of pins). set_solver.
Qed.

Lemma journal_pins n h h' pins ip :
  journal n h → armed n = true → by_pin ip h h' → Forall pin_sane pins → (tame → pins_ok pins h') →
  journal (set_pinned_routes pins n) h'.
Proof.
  intros [Hw [σ Hfw] Hfc Hdef Hor Hln Hd Hb Hs Hp Hg _] Ha [[B4 B6 Br Bk] Hw'] Hs' Hp'.
  split; flags; rewrite ?Ha; try done.
  - exists σ. by eapply fw_is_ext.
  - intros ?%Hfc. by eapply fw_is_ext.
  - intros ?%Hdef. by rewrite Bk by (apply not_eq_sym, pin_key_not_def).
  - intros ?%Hln. unfold lean. by rewrite Bk by (apply not_eq_sym, pin_key_not_def).
  - by rewrite Br.
  - intros Hk. destruct (Hg Hk) as [?|?]; [left; by eapply shielded_ext|by right].
Qed.

Lemma by_pin_safe ip h h' : safe h → by_pin ip h h' → safe h'.
Proof.
  intros Hs [[B4 B6 Br Bk] _] Hk. destruct (Hs Hk) as [Hsh|[Hd Hr]]; [left; by eapply shielded_ext|right].
  split; [by rewrite Bk by (apply not_eq_sym, pin_key_not_def)|by rewrite Br].
Qed.

Lemma restore_pins_spec n todo failed errors h :
  fresh_host → armed n = true → journal (set_pinned_routes (failed ++ todo) n) h →
  always safe (restore_pins todo failed errors) h
    (λ s h', journal (set_pinned_routes s.1 n) h' ∧ (s.2 = [] → errors = [] ∧ s.1 = failed)).
Proof.
  intros Hf Ha. revert failed errors h. induction todo as [|r todo IH]; intros failed errors h J; cbn [restore_pins].
  { rewrite app_nil_r in J. by cbn. }
  assert (Eperm : failed ++ r :: todo ≡ₚ r :: failed ++ todo) by by rewrite Permutation_middle.
  pose proof (j_sane _ _ J) as Hsane. cbn in Hsane. pose proof Hsane as Hsane2. rewrite Eperm in Hsane2.
  apply Forall_cons in Hsane2 as [Hr Hsane2]. apply always_bind.
  eapply always_mono with (I := by_pin (pin_ip r) h); [| |eapply (always_when _ tame); [by apply restore_by_pin; [apply J|]|]].
  3:{ intros T. pose proof (pk_ok _ _ (j_pins _ _ J T)) as Hok. cbn in Hok. rewrite Eperm in Hok.
      apply Forall_cons in Hok as [Hok _]. by apply restore_pin_spec; [apply Hf|apply J|]. }
  { intros h'. apply by_pin_safe. by eapply journal_safe. }
  intros res h' [Hb Hstrong]. cbn [always]. rewrite attempt_ok.
  assert (J' : ∀ pins, Forall pin_sane pins → (tame → pins_ok pins h') → journal (set_pinned_routes pins n) h').
  { intros pins Hs' Hp'. change (journal (set_pinned_routes pins (set_pinned_routes (failed ++ r :: todo) n)) h').
    by eapply journal_pins. }
  assert (Hmove : tame → pins_ok (r :: failed ++ todo) h').
  { intros T. destruct (Hstrong T) as [[_ Hok] _]. eapply pins_ok_move; [|done|done].
    eapply pins_ok_perm; [exact Eperm|]. exact (j_pins _ _ J T). }
  eapply always_post; [|apply IH].
  - intros s h'' [J'' Hs]. split; [done|]. intros [He Hs1]%Hs. apply attempt_nil in He as [-> ->].
    cbn in Hs1. by rewrite Hs1.
  - destruct res as [[]|e]; cbn [is_ok].
    + apply J'; [done|]. intros T. eapply pins_ok_drop; [by apply Hmove|]. by apply (Hstrong T).
    + rewrite <- app_assoc. apply J'; [done|]. intros T. eapply pins_ok_perm; [symmetry; exact Eperm|]. by apply Hmove.
Qed.

(** Disarming is what comes last: everything else is restored by then. *)
Lemma release_spec n errors h :
  fresh_host → journal n h → (errors = [] → default_changed n = false ∧ dns_touched n = false) →
  always safe (release_firewall n errors) h
    (λ s h', journal s.1 h' ∧ pinned_routes s.1 = pinned_routes n ∧ default_changed s.1 = default_changed n ∧
             dns_touched s.1 = dns_touched n ∧ (s.2 = [] → errors = [] ∧ firewall_touched s.1 = false)).
Proof.
  intros Hf J He. unfold release_firewall. destruct errors as [|e errors]; cbn [is_empty andb].
  2:{ cbn. by split_and!. }
  destruct (firewall_touched n) eqn:Hft; [|cbn; by split_and!].
  destruct (He eq_refl) as [Hdc Hdt]. destruct (j_fw _ _ J) as [σ Hσ].
  assert (Hb : fw_clean (base h)) by apply Hf.
  assert (Jσ : ∀ σ', journal n (with_fw (base h) σ')).
  { intros σ'. destruct J as [Hw _ _ Hdef Hor Hln Hd Hbk Hs Hp Hg Ha]. split; try done.
    - by exists σ'.
    - congruence.
    - intros T. by eapply pins_ok_ext, Hp.
    - by right. }
  apply always_bind. rewrite (fw_is_with h σ Hσ) at 1. eapply always_mono; [| |by apply (disarm_kill_switch_spec (base h))].
  - intros h' [σ' ->]. by eapply journal_safe.
  - intros [[]|e] h' Hr; cbn [attempt always fst snd].
    + subst h'. split_and!; [|done..]. rewrite <- (with_fw_none (base h)) by done.
      destruct (Jσ (no_fw, no_fw)) as [Hw Hfw Hfc Hdef Hor Hln Hd Hbk Hs Hp Hg Ha]. split; flags; try done.
      intros ?%Ha. unfold still_armed in *. flags. by rewrite Hft, orb_true_r in *.
    + destruct Hr as [σ' ->]. split_and!; [done..|]. by intros ?%snoc_not_nil.
Qed.

Lemma still_armed_false n :
  still_armed n = false →
  dns_touched n = false ∧ default_changed n = false ∧ pinned_routes n = [] ∧ firewall_touched n = false.
Proof.
  unfold still_armed. rewrite !orb_false_iff, negb_false_iff, bool_decide_eq_true. tauto.
Qed.

(** A journal with nothing left in it. *)
Lemma journal_restored n h : fresh_host → journal n h → tame → still_armed n = false → restored h0 h.
Proof.
  intros Hf J T (Hdt & Hdc & Hp & Hft)%still_armed_false. destruct (j_fw_clean _ _ J Hft) as [E4 E6].
  cbn [fst snd] in E4, E6. rewrite build_none in E4, E6 by apply Hf.
  split; [done|done|by apply (j_dns _ _ J)|]. intros key. destruct (decide (key = DEF)) as [->|Hne].
  - by apply (j_def _ _ J).
  - pose proof (j_pins _ _ J T) as Hpk. rewrite Hp in Hpk. rewrite (pk_rest _ _ Hpk); [done|done|].
    apply not_elem_of_nil.
Qed.

Lemma journal_reorder n h pins pins' :
  armed n = true → journal (set_pinned_routes pins n) h → pins ≡ₚ pins' → journal (set_pinned_routes pins' n) h.
Proof.
  intros Ha [Hw Hfw Hfc Hdef Hor Hln Hd Hb Hs Hp Hg _] E. split; flags; rewrite ?Ha; try done.
  - by rewrite <- E.
  - intros T. eapply pins_ok_perm; [exact E|]. by apply Hp.
Qed.

Lemma set_pinned_same n : set_pinned_routes (pinned_routes n) n = n.
Proof. by destruct n. Qed.

Lemma journal_settle n h : journal n h → journal (set_armed (still_armed n) n) h.
Proof. by intros [Hw Hfw Hfc Hdef Hor Hln Hd Hb Hs Hp Hg Ha]. Qed.

Lemma finish_ok errors : finish errors = Ok tt → errors = [].
Proof. by destruct errors. Qed.

Lemma teardown_spec n h :
  fresh_host → journal n h →
  always safe (teardown n) h (λ s h', journal s.1 h' ∧ (s.2 = Ok tt → still_armed s.1 = false ∧ armed s.1 = false)).
Proof.
  intros Hf J. unfold teardown. destruct (armed n) eqn:Ha; cbn [negb].
  2:{ cbn. split; [done|]. intros _. split; [by apply (j_armed _ _ J)|done]. }
  apply always_bind. eapply always_post; [|by apply restore_dns_spec]. cbn beta. intros s1 h1 (J1 & H1 & Ha1).
  apply always_bind. eapply always_post; [|by apply restore_defaults_spec]. cbn beta. intros s2 h2 (J2 & H2 & Hdt & Ha2).
  rewrite Ha1, Ha in Ha2. apply always_bind.
  eapply always_post; [|apply (restore_pins_spec s2.1); [done|done|]].
  2:{ apply (journal_reorder _ _ (pinned_routes s2.1)); [done|by rewrite set_pinned_same|apply Permutation_rev]. }
  cbn beta. intros s3 h3 [J3 H3]. set (n3 := set_pinned_routes (rev s3.1) s2.1).
  assert (J3' : journal n3 h3) by (eapply journal_reorder; [done|exact J3|apply Permutation_rev]).
  apply always_bind. eapply always_post; [|apply (release_spec n3); [done|done|]].
  2:{ intros [E2 _]%H3. destruct (H2 E2) as [E1 Hdc]. destruct (H1 E1) as [_ Hd1]. subst n3. flags. by rewrite Hdt. }
  cbn beta. intros s4 h4 (J4 & Ep & Edc & Edt & H4). cbn [always fst snd]. split; [by apply journal_settle|].
  intros Hok%finish_ok. destruct (H4 Hok) as [E3 Hft]. destruct (H3 E3) as [E2 Es3]. destruct (H2 E2) as [E1 Hdc].
  destruct (H1 E1) as [_ Hd1]. assert (Hstill : still_armed s4.1 = false); [|by split].
  unfold still_armed. rewrite Edt, Edc, Ep, Hft. subst n3. flags. rewrite Es3, Hdt, Hd1, Hdc. done.
Qed.

(** ** The life of a [LinuxNet] *)

(** It is armed once; whatever came of that, it can be torn down again and again.  The host is
    seen after every action. *)
Inductive Phase := Arming (q : netprog Armed) | Idle (n : LinuxNet) | Rolling (q : netprog Armed).

Inductive life : Phase → Host → Prop :=
  | life_start : life (Arming (arm p linux_default)) h0
  | life_arms op k h h' r : life (Arming (Do op k)) h → net_perform op h h' r → life (Arming (k r)) h'
  | life_armed n res h : life (Arming (Ret (n, res))) h → life (Idle n) h
  | life_down n h : life (Idle n) h → life (Rolling (teardown n)) h
  | life_rolls op k h h' r : life (Rolling (Do op k)) h → net_perform op h h' r → life (Rolling (k r)) h'
  | life_rolled n res h : life (Rolling (Ret (n, res))) h → life (Idle n) h.

Lemma life_inv ph h :
  fresh_host → life ph h →
  safe h ∧
  match ph with
  | Arming q => always safe q h (λ s h', journal s.1 h')
  | Idle n => journal n h
  | Rolling q => always safe q h (λ s h', journal s.1 h' ∧ (s.2 = Ok tt → still_armed s.1 = false ∧ armed s.1 = false))
  end.
Proof.
  intros Hf. induction 1 as [|op k h h' r _ [_ IH] Hp|n res h _ [Hs IH]|n h _ [Hs IH]|op k h h' r _ [_ IH] Hp|n res h _ [Hs IH]].
  - split; [|by apply arm_spec]. intros _. by right.
  - destruct (IH _ _ Hp) as [? ?]. by split.
  - by split.
  - split; [done|]. by apply teardown_spec.
  - destruct (IH _ _ Hp) as [? ?]. by split.
  - split; [done|]. apply IH.
Qed.

(** C13.  No leak window: with the kill switch asked for, and a host that has none of its firewall
    rules to begin with, at every moment from the first command of [arm] on, through failed commands and any number of roll-backs, either every packet that
    leaves the host goes into the tunnel or to a node (and no IPv6 packet but into the tunnel),
    or the host's default routes and resolver are those it had before. *)
Theorem no_leak_window ph h :
  fresh_host → ap_kill_switch p = true → life ph h → shielded p h ∨ untouched h0 h.
Proof. intros Hf Hk Hl. by apply (life_inv _ _ Hf Hl). Qed.

(** C14.  Roll-back is complete: whenever [teardown] reports success, firewall, resolver and every
    route are what they were before [arm], and the object can be armed again, provided that the
    host had none of the kill switch's rules, that the nodes' host routes are distinct and that
    none of the originals had a metric of its own. *)
Theorem rollback_restores n h :
  fresh_host → tame → life (Rolling (Ret (n, Ok tt))) h → restored h0 h ∧ armed n = false.
Proof.
  intros Hf T Hl. destruct (life_inv _ _ Hf Hl) as [_ [J Hok]]. destruct (Hok eq_refl) as [Hs Ha].
  split; [by eapply journal_restored|done].
Qed.

End Runs.
