(* ===== verification/HostHeal.v ===== *)
(** * Roll-back succeeds once the tools do

    [healthy]: a command that can have its documented effect has it and exits with 0, and files
    can be written.  Then [teardown] succeeds, whatever failed before. *)

From S2P Require Import Prelude.
From S2P Require Import Net.
From S2P Require Import Prog.
From S2P Require Import World.
From S2P Require Import Ledger.
From S2P Require Import HostNet.
From S2P Require Import HostText.
From S2P Require Import KillSwitch.
From S2P Require Import HostRoutes.
From S2P Require Import HostRuns.
From Stdlib Require Import Strings.Byte ZArith Lia.
From stdpp Require Import prelude gmap strings.

Definition exited (c : Z) (r : option HostNet.Exit) : Prop := ∃ out, r = Some {| code := Some c; stdout := out |}.

Definition healthy `{HostTools} (op : NetOp) (h h' : Host) : net_answer op → Prop :=
  match op with
  | Run argv => λ r,
      tool argv h h' r ∧
      ((∃ h'' out, documented h (parse_argv argv) h'' out) → exited 0 r) ∧
      (∀ v6 q, parse_argv argv = Fw v6 q → is_query q = true → fw_effect q (chains v6 h) = None → exited 1 r)
  | ReadResolv => λ r, h' = h ∧ r = Some (resolv_conf h)
  | WriteResolv text => λ r, h' = set_resolv text h ∧ r = true
  end.

Lemma healthy_perform `{HostTools} op h h' r : healthy op h h' r → net_perform op h h' r.
Proof. destruct op; cbn; [by intros [? _]|by intros [-> ->]; auto|by intros [-> ->]]. Qed.

Section Heal.
Context `{Htools : HostTools, Hlaws : !HostToolsLaws}.

#[local] Notation heals := (always healthy (λ _, True)).

Lemma heals_run argv h (Q : option HostNet.Exit → Host → Prop) :
  (∃ h' out, documented h (parse_argv argv) h' out) →
  (∀ h' out, documented h (parse_argv argv) h' out → Q (Some {| code := Some 0%Z; stdout := out |}) h') →
  heals (call (Run argv)) h Q.
Proof.
  intros Hex HQ h' r (Ht & H0 & _). split; [done|]. destruct (H0 Hex) as [out ->]. by apply HQ, tool_done.
Qed.

Lemma heals_sh argv h Q :
  (∃ h' out, documented h (parse_argv argv) h' out) →
  (∀ h' out, documented h (parse_argv argv) h' out → Q (Ok tt) h') → heals (sh argv) h Q.
Proof. intros Hex HQ. apply always_bind, heals_run; [done|]. intros h' out Hd. cbn. by eapply HQ. Qed.

Lemma heals_output argv h Q :
  (∃ h' out, documented h (parse_argv argv) h' out) →
  (∀ h' out, documented h (parse_argv argv) h' out → Q (Ok {| code := Some 0%Z; stdout := out |}) h') →
  heals (output argv) h Q.
Proof. intros Hex HQ. apply always_bind, heals_run; [done|]. intros h' out Hd. cbn. by eapply HQ. Qed.

(** ** The firewall *)

Section Firewall.
Context (h : Host) (Hclean : fw_clean h).

Lemma heals_fw v6 o argv σ s' Q :
  parse_argv argv = Fw v6 (verb_of v6 o) → fw_next o (fw_get v6 σ) = Some s' →
  (o = OInsert ∨ o = ODrop → (fw_get v6 σ).1 = false) →
  Q (Ok tt) (with_fw h (fw_put v6 s' σ)) → heals (sh argv) (with_fw h σ) Q.
Proof.
  intros Hp Hn Hs HQ. pose proof (fw_clean_chains h Hclean v6) as Hc. apply heals_sh; rewrite Hp.
  - eexists _, []. constructor. rewrite chains_with_fw. apply fw_next_effect; [done|done|auto].
  - intros h' out Hd. inversion Hd as [? ? cs ? Heff| | | | | | |]; subst. rewrite chains_with_fw in Heff.
    apply fw_effect_next in Heff as (s2 & Hs2 & ->); [|done|auto]. rewrite Hn in Hs2. injection Hs2 as <-.
    by rewrite set_chains_with_fw.
Qed.

Lemma heals_query v6 o argv σ Q :
  parse_argv argv = Fw v6 (verb_of v6 o) → o = OCheck ∨ o = OList →
  Q (Ok (bool_decide (is_Some (fw_next o (fw_get v6 σ))))) (with_fw h σ) →
  heals (command_present argv) (with_fw h σ) Q.
Proof.
  intros Hp Ho HQ. pose proof (fw_clean_chains h Hclean v6) as Hc. apply always_bind.
  intros h' r (Ht & H0 & H1). split; [done|]. cbn [always].
  assert (Hdrop : o ≠ ODrop ∧ o ≠ OInsert) by (destruct Ho as [->| ->]; done).
  assert (Hid : ∀ s', fw_next o (fw_get v6 σ) = Some s' → s' = fw_get v6 σ).
  { destruct (fw_get v6 σ) as [[] [|]]; destruct Ho as [->| ->]; cbn; congruence. }
  destruct (fw_next o (fw_get v6 σ)) as [s'|] eqn:E.
  - pose proof (Hid _ eq_refl) as ->. destruct H0 as [out ->].
    { eexists _, []. rewrite Hp. constructor. rewrite chains_with_fw. apply fw_next_effect; [done|exact E|naive_solver]. }
    apply tool_done in Ht. rewrite Hp in Ht. inversion Ht as [? ? cs ? Heff| | | | | | |]; subst.
    rewrite chains_with_fw in Heff. apply fw_effect_next in Heff as (s2 & Hs2 & ->); [|done|naive_solver].
    rewrite E in Hs2. injection Hs2 as <-. rewrite set_chains_with_fw, with_fw_query by done. exact HQ.
  - assert (Hnone : fw_effect (verb_of v6 o) (chains v6 (with_fw h σ)) = None).
    { rewrite chains_with_fw. destruct (fw_effect _ _) eqn:Ee; [|done].
      apply fw_effect_next in Ee as (s2 & Hs2 & _); [congruence|done|naive_solver]. }
    assert (Hq : is_query (verb_of v6 o) = true) by (destruct Ho as [->| ->]; done).
    destruct (H1 v6 (verb_of v6 o) Hp Hq Hnone) as [out ->].
    eapply tool_absent in Ht as [-> _]; [|exact Hp|exact Hq]. exact HQ.
Qed.

Lemma heals_disarm_one errors v6 σ :
  heals (disarm_one errors (tool_name v6) (chain_of v6)) (with_fw h σ)
    (λ errors' h', errors' = errors ∧ ∃ s', h' = with_fw h (fw_put v6 s' σ)).
Proof.
  assert (Hpp : ∀ s s', fw_put v6 s (fw_put v6 s' σ) = fw_put v6 s σ) by by destruct v6.
  assert (Hpg : ∀ s, fw_get v6 (fw_put v6 s σ) = s) by by destruct v6.
  rewrite <- (with_fw_query h v6 σ _ eq_refl). destruct (fw_get v6 σ) as [j own].
  unfold disarm_one. apply always_bind, (heals_query v6 OCheck); [by destruct v6|by left|]. rewrite Hpg.
  apply always_bind. eapply always_post with (Q := λ errs h', errs = errors ∧ h' = with_fw h (fw_put v6 (false, own) σ)).
  2:{ destruct j; [|by cbn]. rewrite bool_decide_eq_true_2 by by eexists. cbv match. apply always_bind.
      eapply (heals_fw v6 ODelete); [by destruct v6|by rewrite Hpg|naive_solver|]. by rewrite Hpp. }
  intros errs h' [-> ->]. apply always_bind, (heals_query v6 OList); [by destruct v6|by right|]. rewrite Hpg.
  destruct own as [rs|]; [|cbn; by eauto]. rewrite bool_decide_eq_true_2 by by eexists. cbv match. apply always_bind.
  eapply (heals_fw v6 OFlush); [by destruct v6|by rewrite Hpg|naive_solver|]. rewrite Hpp. cbn [attempt fst snd].
  apply always_bind. eapply (heals_fw v6 ODrop); [by destruct v6|by rewrite Hpg|by rewrite Hpg|]. rewrite Hpp. cbn. eauto.
Qed.

Lemma heals_disarm σ : heals disarm_kill_switch (with_fw h σ) (λ r _, r = Ok tt).
Proof.
  unfold disarm_kill_switch. apply always_bind. eapply always_post; [|apply (heals_disarm_one [] false)].
  intros errs h' [-> [s4 ->]]. apply always_bind. eapply always_post; [|apply (heals_disarm_one [] true)].
  by intros errs h' [-> _].
Qed.

End Firewall.

(** ** Routes *)

Lemma prints_exists ls : Forall wordy ls → ∃ out, prints ls out.
Proof.
  induction 1 as [|ws ls Hw _ [out IH]]; [by exists []; constructor|].
  eexists. eapply (prints_line ws ls [] [] out); auto.
Qed.

Lemma wf_lines h fam dest : wf_host h → Forall wordy (mjoin (routes_to h (fam, dest))).
Proof.
  intros Hh. specialize (Hh fam dest). induction Hh as [|r rs [] _ IH]; [done|]. cbn. by apply Forall_app.
Qed.

Lemma heals_show argv fam dest h Q :
  wf_host h → parse_argv argv = RtShow fam dest →
  (∀ e, padded (mjoin (routes_to h (fam, dest))) (shown_lines e) →
        prints (mjoin (routes_to h (fam, dest))) (stdout e) → Q (Ok e) h) →
  heals (output argv) h Q.
Proof.
  intros Hh Hp HQ. apply heals_output; rewrite Hp.
  - destruct (prints_exists _ (wf_lines h fam dest Hh)) as [out Ho]. exists h, out. by constructor.
  - intros h' out Hd. inversion Hd; subst. apply HQ; [by eapply prints_lines|done].
Qed.

Lemma mjoin_lean h : Forall default_line (routes_to h DEF) → length (mjoin (routes_to h DEF)) = length (routes_to h DEF).
Proof. induction 1 as [|r rs (ws & ->) _ IH]; [done|]. exact (f_equal S IH). Qed.

Lemma heals_capture b h Q :
  wf_host h → lean b h → b ≤ 64 → (∀ ds, captured h ds → Q (Ok ds) h) → heals capture_default_routes h Q.
Proof.
  intros Hh [Hlen Hone] Hb HQ. unfold capture_default_routes. apply always_try.
  eapply (heals_show _ (str "-4") (str "default")); [done|reflexivity|].
  intros e Hp _. fold DEF in Hp. rewrite (padded_trim _ _ Hp), length_fmap, mjoin_lean by done.
  rewrite (proj2 (Nat.ltb_ge _ _)) by lia.
  assert (Hall : forallb (λ l, bool_decide (head l = Some (str "default") ∧ 2 ≤ length l)) (mjoin (routes_to h DEF)) = true).
  { specialize (Hh (str "-4") (str "default")). fold DEF in Hh. revert Hh. clear -Hone.
    induction Hone as [|r rs (ws & ->) _ IH]; [done|]. intros [Hr Hrs]%Forall_cons. cbn [mjoin list_join app forallb].
    rewrite bool_decide_eq_true_2; [by apply IH|]. split; [done|]. apply Hr. }
  assert (Hcap : capture_of (mjoin (routes_to h DEF)) = Ok (join_words <$> mjoin (routes_to h DEF))).
  { unfold capture_of. rewrite mjoin_lean by done. rewrite (proj2 (Nat.ltb_ge _ _)) by lia. by rewrite Hall. }
  replace (existsb _ _) with false.
  - apply HQ. by apply capture_of_Ok in Hcap as [? _].
  - symmetry. apply padded_wordy in Hp. apply forallb_Forall_true in Hall. apply not_true_iff_false.
    rewrite existsb_exists. intros (x & Hin & Hx). apply list_elem_of_In, list_elem_of_fmap in Hin as (l & -> & Hl).
    rewrite Forall_forall in Hp, Hall. rewrite starts_with_default in Hx by by apply Hp. by rewrite Hall in Hx.
Qed.

(** Routes that may stand side by side. *)
Definition distinct_slots (ds : list bytes) : Prop := NoDup ((λ d, slot (str "-4") (split_whitespace d)) <$> ds).

Lemma heals_add ds done h :
  wf_host h → replayable ds → routes_to h DEF ≡ₚ single <$> done → distinct_slots (done ++ ds) →
  heals (add_routes ds) h (λ r _, r = Ok tt).
Proof.
  intros Hh Hds. revert done h Hh. induction Hds as [|d ds (Hs & Hd & _) _ IH]; intros done' h Hh Hr Hn; cbn [add_routes]; [by cbn|].
  apply always_try, heals_sh;
    change (parse_argv ([str "ip"; str "-4"; str "route"; str "add"] ++ split_whitespace d))
      with (RtAdd (str "-4") (split_whitespace d)).
  - eexists _, []. eapply (doc_add _ _ _ (split_whitespace d)); [done| |reflexivity]. rewrite Hd. fold DEF. rewrite Hr.
    apply Forall_fmap, Forall_forall. intros d' Hin. unfold distinct_slots in Hn. rewrite fmap_app in Hn.
    apply NoDup_app in Hn as (_ & Hn & _). intros E. eapply Hn; [apply list_elem_of_fmap; exists d'; split; [reflexivity|done]|].
    change (slot (str "-4") (split_whitespace d') = slot (str "-4") (split_whitespace d)) in E. rewrite E. left.
  - intros h' out Hdoc. pose proof (doc_wf _ _ _ _ Hdoc Hh) as Hh'.
    inversion Hdoc as [| | |fam words w rs out' key Hsh Hf Hp| | | |]; subst. subst key. rewrite Hd in *. fold DEF in *.
    apply (shown_again _ _ _ _ Hs) in Hsh as ->. apply (IH (done' ++ [d])); [done| |by rewrite <- app_assoc].
    rewrite routes_to_set, Hp, Hr, fmap_app. cbn. by rewrite <- Permutation_cons_append.
Qed.

Lemma heals_restore fuel b ds h :
  wf_host h → replayable ds → distinct_slots ds → lean b h → b ≤ 64 → length (routes_to h DEF) < fuel →
  heals (restore_loop fuel ds) h (λ r _, r = Ok tt).
Proof.
  intros Hh Hds Hn Hl Hb. revert h Hh Hl. induction fuel as [|fuel IH]; intros h Hh Hl Hf; [lia|]. cbn [restore_loop].
  apply always_try, (heals_capture b); [done|done|done|]. intros ds' [Hc _]. case_decide as Hnil.
  - subst ds'. apply (heals_add ds []); [done|done|by rewrite Hc|done].
  - apply always_try, heals_sh;
      change (parse_argv [str "ip"; str "-4"; str "route"; str "del"; str "default"]) with (RtDel (str "-4") (str "default")).
    + destruct ds' as [|d ds']; [done|]. eexists _, []. eapply doc_del. change (dest_prefix (str "-4") (str "default")) with (str "default").
      fold DEF. rewrite Hc, fmap_cons. reflexivity.
    + intros h' out Hdoc. pose proof (doc_wf _ _ _ _ Hdoc Hh) as Hh'.
      inversion Hdoc as [| | | | | |fam dest r rs out' key Hp|]; subst. change key with DEF in *.
      destruct Hl as [Hl1 Hl2]. rewrite Hp in Hl1, Hl2, Hf. cbn in Hl1, Hf. apply Forall_cons in Hl2 as [_ Hl2].
      apply IH; [done| |]; unfold lean; rewrite routes_to_set; [split; [lia|done]|lia].
Qed.

Lemma heals_pin h0 h r : wf_host h0 → wf_host h → pin_ok h0 h r → heals (restore_pin r) h (λ res _, res = Ok tt).
Proof.
  intros H0 Hh Hp. pose proof (po_from _ _ _ Hp) as [Hcidr Hfrom]. unfold restore_pin. destruct (previous r) as [line|] eqn:Eprev.
  - assert (Hws : wf_route (route_family (pin_ip r)) (route_cidr (pin_ip r)) (single line)).
    { pose proof (H0 (route_family (pin_ip r)) (route_cidr (pin_ip r))) as H. fold (pin_key (pin_ip r)) in H.
      rewrite Hfrom in H. by apply Forall_cons in H as [H _]. }
    apply heals_sh; [|done].
    replace (parse_argv _) with (RtReplace (route_family (pin_ip r)) (split_whitespace line)) by by destruct (pin_ip r).
    pose proof (wr_shown _ _ _ Hws _ eq_refl) as Hs. pose proof (wr_dest _ _ _ Hws) as Hd. cbn in Hd.
    pose proof (po_slots0 _ _ _ Hp) as Hsl0. rewrite Hfrom in Hsl0. apply Forall_cons in Hsl0 as [E0 _].
    pose proof (po_slots _ _ _ Hp) as Hsl. destruct (routes_to h (pin_key (pin_ip r))) as [|x l] eqn:El.
    { by destruct (po_some _ _ _ Hp); [rewrite Eprev|]. }
    apply Forall_cons in Hsl as [E _]. eexists _, []. eapply (doc_replace _ _ _ (split_whitespace line) x l); [done| | |reflexivity].
    + rewrite E. by symmetry.
    + rewrite Hd. fold (pin_key (pin_ip r)). by rewrite El.
  - unfold remove_route_if_present. rewrite Hcidr. apply always_try.
    eapply (heals_show _ (route_family (pin_ip r)) (route_cidr (pin_ip r))); [done|by destruct (pin_ip r)|].
    intros e _ Hprint. rewrite (prints_blank _ _ Hprint). case_bool_decide as Hnil; [done|]. apply heals_sh; [|done].
    replace (parse_argv _) with (RtDel (route_family (pin_ip r)) (route_cidr (pin_ip r))) by by destruct (pin_ip r).
    destruct (routes_to h (route_family (pin_ip r), route_cidr (pin_ip r))) as [|x l] eqn:El; [done|].
    eexists _, []. eapply (doc_del _ _ _ x l). by rewrite dest_prefix_cidr, El.
Qed.

End Heal.

(** ** Roll-back *)

Section Rollback.
Context `{Htools : HostTools, Hlaws : !HostToolsLaws, Hfilter : EgressFilter, Hflaws : !EgressFilterLaws}.
Context (h0 : Host) (p : ArmParams).

#[local] Notation heals := (always healthy (λ _, True)).

(** What holds however the commands turn out holds when they work. *)
Lemma heals_with {A} (I : Host → Prop) (q : netprog A) h Q1 Q2 :
  always net_perform I q h Q1 → heals q h Q2 → heals q h (λ a h', Q1 a h' ∧ Q2 a h').
Proof.
  intros H1 H2. apply (always_mono _ (λ w, I w ∧ True) _ _ _ (λ a w, Q1 a w ∧ Q2 a w)); [done|done|].
  apply always_and; [|exact H2]. eapply always_sub; [|exact H1]. intros. by apply healthy_perform.
Qed.

Lemma heals_dns n h : journal h0 p n h → heals (restore_dns n []) h (λ s _, s.2 = []).
Proof.
  intros J. unfold restore_dns. destruct (dns_touched n) eqn:E; [|done].
  rewrite (j_backup _ _ _ _ J E). intros h' r [-> ->]. done.
Qed.

(** Few enough default routes, that can stand side by side. *)
Record few_defaults : Prop := {
  few_count : length (routes_to h0 DEF) < 64;
  few_slots : NoDup (route_slot (str "-4") <$> routes_to h0 DEF);
}.

Lemma heals_defaults n h :
  few_defaults → journal h0 p n h → heals (restore_defaults n []) h (λ s _, s.2 = []).
Proof.
  intros [Hc Hn] J. unfold restore_defaults. destruct (default_changed n) eqn:E; [|done].
  destruct (j_orig _ _ _ _ J E) as [[Ecap _] Hrep]. pose proof (j_lean _ _ _ _ J E) as Hl. apply always_bind.
  eapply always_post; [|apply (heals_restore _ (S (length (routes_to h0 DEF))) _ _ (j_wf _ _ _ _ J) Hrep); [|exact Hl|lia|]].
  - by intros r h' ->.
  - rewrite Ecap, <- list_fmap_compose in Hn. exact Hn.
  - destruct Hl. lia.
Qed.

Lemma heals_pins n todo failed h :
  fresh_host h0 → tame h0 p → armed n = true → journal h0 p (set_pinned_routes (failed ++ todo) n) h →
  heals (restore_pins todo failed []) h (λ s _, s.2 = []).
Proof.
  intros Hf T Ha. revert failed h. induction todo as [|r todo IH]; intros failed h J; cbn [restore_pins]; [done|].
  assert (Eperm : failed ++ r :: todo ≡ₚ r :: failed ++ todo) by by rewrite Permutation_middle.
  pose proof (j_pins _ _ _ _ J T) as Hpk. cbn [pinned_routes set_pinned_routes] in Hpk.
  apply (pins_ok_perm _ _ _ _ Eperm) in Hpk. pose proof (pk_ok _ _ _ Hpk) as Hok. apply Forall_cons in Hok as [Hok _].
  pose proof (j_sane _ _ _ _ J) as Hsane. cbn in Hsane. rewrite Eperm in Hsane. apply Forall_cons in Hsane as [_ Hsane].
  apply always_bind. eapply always_post; [|eapply heals_with; [by apply restore_pin_spec; [apply Hf|apply J|exact Hok]|]].
  2:{ by eapply heals_pin; [apply Hf|apply J|]. }
  intros res h' [[[Hb Hok'] Hres] ->]. cbn [attempt fst snd]. apply IH.
  change (journal h0 p (set_pinned_routes (failed ++ todo) (set_pinned_routes (failed ++ r :: todo) n)) h').
  eapply journal_pins; [exact J|done|exact Hb|done|]. intros _. eapply pins_ok_drop; [|by apply Hres].
  by eapply pins_ok_move.
Qed.

Lemma heals_release n h : fresh_host h0 → journal h0 p n h → heals (release_firewall n []) h (λ s _, s.2 = []).
Proof.
  intros Hf J. unfold release_firewall. cbn [is_empty andb]. destruct (firewall_touched n); [|done].
  destruct (j_fw _ _ _ _ J) as [σ Hσ]. rewrite (fw_is_with h0 h σ Hσ). apply always_bind.
  eapply always_post; [|by apply (heals_disarm (base h0 h)); apply Hf]. by intros r h' ->.
Qed.

Lemma heals_teardown n h :
  fresh_host h0 → tame h0 p → few_defaults → journal h0 p n h → heals (teardown n) h (λ s _, s.2 = Ok tt).
Proof.
  intros Hf T Hfew J. unfold teardown. destruct (armed n) eqn:Ha; cbn [negb]; [|done].
  apply always_bind. eapply always_post; [|eapply heals_with; [by apply restore_dns_spec|by apply heals_dns]].
  cbn beta. intros s1 h1 [(J1 & H1 & Ha1) E1]. rewrite E1. apply always_bind.
  eapply always_post; [|eapply heals_with; [by apply restore_defaults_spec|by apply heals_defaults]].
  cbn beta. intros s2 h2 [(J2 & H2 & Hdt & Ha2) E2]. rewrite E2. rewrite Ha1, Ha in Ha2.
  assert (J2' : journal h0 p (set_pinned_routes ([] ++ rev (pinned_routes s2.1)) s2.1) h2).
  { apply (journal_reorder _ _ _ _ (pinned_routes s2.1)); [done|by rewrite set_pinned_same|apply Permutation_rev]. }
  apply always_bind. eapply always_post; [|eapply heals_with; [by apply (restore_pins_spec h0 p s2.1)|by apply (heals_pins s2.1)]].
  cbn beta. intros s3 h3 [[J3 H3] E3]. rewrite E3. apply always_bind.
  eapply always_post; [|apply heals_release; [done|by eapply journal_reorder; [|exact J3|apply Permutation_rev]]].
  by intros s4 h4 ->.
Qed.

(** C15.  Roll-back gets there: after an [arm] that succeeded or failed at any command, and any
    number of failed roll-backs, one more [teardown] during which the tools work reports
    success and restores the host, if the host had none of the kill switch's rules and fewer than
    64 default routes that can stand side by side, and if the nodes' host routes are distinct and
    none of the originals had a metric of its own. *)
Theorem rollback_succeeds n h :
  fresh_host h0 → tame h0 p → few_defaults → life h0 p (Idle n) h →
  always healthy (λ _, True) (teardown n) h (λ s h', s.2 = Ok tt ∧ restored h0 h').
Proof.
  intros Hf T Hfew Hl. destruct (life_inv _ _ _ _ Hf Hl) as [_ J].
  eapply always_post; [|eapply heals_with; [by apply teardown_spec|by apply heals_teardown]].
  intros s h' [[J' Hok] E]. split; [done|]. destruct (Hok E) as [Hs _]. by eapply journal_restored.
Qed.

End Rollback.
