(* ===== verification/HostLive.v ===== *)
(** * The host's networking, run

    Executable tools that satisfy the laws of [HostTools], hosts, and runs of the code on them:
    the theorems of [HostRuns] and [HostHeal] at work, and what happens outside their
    hypotheses. *)

From S2P Require Import Prelude.
From S2P Require Import Text.
From S2P Require Import Net.
From S2P Require Import Prog.
From S2P Require Import World.
From S2P Require Import Ledger.
From S2P Require Import Exit.
From S2P Require Import HostNet.
From S2P Require Import HostText.
From S2P Require Import KillSwitch.
From S2P Require Import HostRoutes.
From S2P Require Import HostRuns.
From S2P Require Import HostHeal.
From Stdlib Require Import Strings.Byte ZArith Lia.
From stdpp Require Import prelude gmap strings.

(** ** Outside the hypotheses *)

Section Limits.
Context `{Htools : HostTools, Hlaws : !HostToolsLaws, Hfilter : EgressFilter, Hflaws : !EgressFilterLaws}.
Context (h0 : Host) (p : ArmParams).

(** A default route with several next hops is not captured: the host is left alone and the
    tunnel does not come up. *)
Theorem multipath_refused :
  wf_host h0 → Exists (λ r, length r ≠ 1) (routes_to h0 DEF) →
  always net_perform (λ h, h = h0) (arm p linux_default) h0 (λ s h, h = h0 ∧ is_ok s.2 = false).
Proof.
  intros Hw Hex. unfold arm. cbn [armed linux_default]. apply always_bind.
  eapply always_post with (Q := λ _ h, h = h0).
  2:{ apply always_sh; [done|done|]. intros h' out Hd. inversion Hd; subst. by split_and!. }
  intros ? h ->. apply always_or_return, capture_spec; [done|done|].
  destruct (capture_of _) as [ds|e] eqn:Ec; [|done]. apply capture_of_Ok in Ec as [[Hc _] _]; [|done].
  rewrite Hc in Hex. apply Exists_exists in Hex as (r & (d & -> & _)%list_elem_of_fmap & Hr). done.
Qed.

Lemma restore_dns_routes n errors h :
  always net_perform (λ _, True) (restore_dns n errors) h
    (λ s h', routes h' = routes h ∧ default_changed s.1 = default_changed n).
Proof.
  unfold restore_dns. destruct (dns_touched n); [|done]. destruct (resolv_backup n); [|done].
  intros h' [] Hr; cbn in Hr; (split; [done|]); [by subst|]. by destruct Hr as [->|[k ->]].
Qed.

Lemma restore_defaults_full n errors h :
  default_changed n = true → 64 < length (mjoin (routes_to h DEF)) →
  always net_perform (λ _, True) (restore_defaults n errors) h (λ s _, s.2 ≠ []).
Proof.
  intros Hdc Hmany. unfold restore_defaults. rewrite Hdc. apply always_bind. unfold restore_default_routes.
  cbn [restore_loop]. apply always_try, capture_spec; [done|by intros; apply snoc_not_nil|].
  unfold capture_of. rewrite (proj2 (Nat.ltb_lt _ _)) by done. apply snoc_not_nil.
Qed.

(** More default routes than a snapshot may hold: every roll-back fails, and the kill switch
    stays. *)
Theorem too_many_defaults_stuck n h :
  fresh_host h0 → life h0 p (Idle n) h → default_changed n = true → 64 < length (mjoin (routes_to h DEF)) →
  always net_perform (safe h0 p) (teardown n) h (λ s _, is_ok s.2 = false).
Proof.
  intros Hf Hl Hdc Hmany. destruct (life_inv _ _ _ _ Hf Hl) as [_ J]. unfold teardown. destruct (armed n) eqn:Ha; cbn [negb].
  2:{ apply (j_armed _ _ _ _ J), still_armed_false in Ha. destruct Ha as (_ & ? & _). congruence. }
  apply always_bind. eapply always_post; [|eapply (always_when _ True); [by apply restore_dns_spec|intros _; apply restore_dns_routes]].
  cbn beta. intros s1 h1 [(J1 & _ & Ha1) Hk]. destruct (Hk I) as [Er Ed]. apply always_bind.
  eapply always_post; [|eapply (always_when _ True); [by apply restore_defaults_spec|intros _; apply restore_defaults_full]].
  2: congruence. 2: by unfold routes_to in *; rewrite Er.
  cbn beta. intros s2 h2 [(J2 & _ & _ & Ha2) Hne]. rewrite Ha1, Ha in Ha2. apply always_bind.
  eapply always_post; [|apply (restore_pins_spec h0 p s2.1); [done|done|]].
  2:{ apply (journal_reorder _ _ _ _ (pinned_routes s2.1)); [done|by rewrite set_pinned_same|apply Permutation_rev]. }
  cbn beta. intros s3 h3 [J3 H3]. assert (E3 : s3.2 ≠ []) by (intros E; apply (Hne I), (H3 E)). apply always_bind.
  eapply always_post; [|apply (release_spec h0 p); [done|by eapply journal_reorder; [|exact J3|apply Permutation_rev]|done]].
  cbn beta. intros s4 h4 (_ & _ & _ & _ & H4). cbn. unfold finish.
  destruct s4.2; [by destruct (H4 eq_refl)|done].
Qed.

End Limits.

(** ** Tools that run *)

Definition word_ok (w : bytes) : bool := negb (bool_decide (w = [])) && forallb (λ b, in_range 33 126 b) w.
Definition words_ok (ws : list bytes) : bool := (2 <=? length ws) && forallb word_ok ws.

Definition toy_shown (fam : bytes) (ws w : list bytes) : Prop := words_ok ws = true ∧ w = ws.
Definition toy_slot (fam : bytes) (ws : list bytes) : bytes :=
  default [x30] (snd <$> find (λ o, bool_decide (o.1 = str "metric")) (options (tail ws))).

Definition toy_print (ls : list (list bytes)) : bytes := ls ≫= λ ws, join_words ws ++ [x0a].

Fixpoint replace_slot (fam : bytes) (ws : list bytes) (rs : list Route) : list Route :=
  match rs with
  | [] => [[ws]]
  | r :: rs =>
      if decide (toy_slot fam (default [] (head r)) = toy_slot fam ws) then [ws] :: rs
      else r :: replace_slot fam ws rs
  end.

Definition toy_exec (c : Cmd) (h : Host) : option (Host * bytes) :=
  match c with
  | Fw v6 verb => cs ← fw_effect verb (chains v6 h); Some (set_chains v6 cs h, [])
  | RtShow fam dest =>
      let ls := mjoin (routes_to h (fam, dest)) in
      if forallb words_ok ls then Some (h, toy_print ls) else None
  | RtGet fam ip => Some (h, ip ++ str " via 192.0.2.1 dev eth0 src 192.0.2.7 uid 0 ")
  | RtAdd fam ws =>
      let key := (fam, route_dest fam ws) in
      if words_ok ws && forallb (λ r, negb (bool_decide (toy_slot fam (default [] (head r)) = toy_slot fam ws))) (routes_to h key)
      then Some (set_routes key ([ws] :: routes_to h key) h, []) else None
  | RtReplace fam ws =>
      let key := (fam, route_dest fam ws) in
      if words_ok ws then Some (set_routes key (replace_slot fam ws (routes_to h key)) h, []) else None
  | RtDel fam dest =>
      let key := (fam, dest_prefix fam dest) in
      match routes_to h key with _ :: rs => Some (set_routes key rs h, []) | [] => None end
  | OtherCmd => Some (h, [])
  end.

Definition asks (c : Cmd) : bool := match c with Fw _ q => is_query q | _ => false end.

Definition toy_tool (argv : list bytes) (h h' : Host) (r : option HostNet.Exit) : Prop :=
  match r with
  | None => h' = h
  | Some e =>
      if decide (code e = Some 0%Z) then toy_exec (parse_argv argv) h = Some (h', stdout e)
      else if decide (code e = Some 1%Z ∧ asks (parse_argv argv) = true)
      then h' = h ∧ toy_exec (parse_argv argv) h = None
      else h' = h ∨ ∃ out, toy_exec (parse_argv argv) h = Some (h', out)
  end.

Module Toy.
#[export] Instance toy_tools : HostTools :=
  {| tool := toy_tool; shown := toy_shown; slot := toy_slot; default_slot := λ _, [x30] |}.

#[export] Instance toy_filter : EgressFilter :=
  {| rule_hits := λ r p, forallb (egress_holds p) (options r); extension := λ _ _, None |}.

#[export] Instance toy_filter_laws : EgressFilterLaws.
Proof. done. Qed.
End Toy.
Import Toy.

Lemma words_ok_wordy ws : words_ok ws = true → wordy ws ∧ 2 ≤ length ws.
Proof.
  unfold words_ok. intros [Hl H]%andb_true_iff. apply Nat.leb_le in Hl. split; [|done]. split; [by intros ->; cbn in Hl; lia|].
  apply forallb_Forall_true in H. eapply Forall_impl; [exact H|]. intros w [Hn Hw]%andb_true_iff.
  apply negb_true_iff, bool_decide_eq_false in Hn. split; [|done]. by apply forallb_Forall_true in Hw.
Qed.

Lemma toy_print_prints ls : forallb words_ok ls = true → prints ls (toy_print ls).
Proof.
  induction ls as [|ws ls IH]; cbn [forallb]; [constructor|]. intros [Hw Hl]%andb_true_iff.
  apply words_ok_wordy in Hw as [Hw _]. change (toy_print (ws :: ls)) with ((join_words ws ++ [x0a]) ++ toy_print ls).
  rewrite <- app_assoc. apply (prints_line ws ls [] []); auto.
Qed.

Lemma replace_slot_cases fam ws rs :
  (Forall (λ r, toy_slot fam (default [] (head r)) ≠ toy_slot fam ws) rs ∧ replace_slot fam ws rs ≡ₚ [ws] :: rs) ∨
  ∃ r old, rs ≡ₚ r :: old ∧ toy_slot fam (default [] (head r)) = toy_slot fam ws ∧ replace_slot fam ws rs ≡ₚ [ws] :: old.
Proof.
  induction rs as [|r rs IH]; cbn [replace_slot]; [by left|]. case_decide as E; [right; by exists r, rs|].
  destruct IH as [[Hf Hp]|(r' & old & H1 & H2 & H3)].
  - left. split; [by constructor|]. rewrite Hp. apply Permutation_swap.
  - right. exists r', (r :: old). split_and!; [rewrite H1; apply Permutation_swap|done|rewrite H3; apply Permutation_swap].
Qed.

Lemma toy_exec_documented c h h' out : toy_exec c h = Some (h', out) → documented h c h' out.
Proof.
  destruct c as [v6 verb|fam dest|fam ip|fam ws|fam ws|fam dest|]; cbn [toy_exec].
  - destruct (fw_effect verb (chains v6 h)) eqn:E; [|done]. intros [= <- <-]. by constructor.
  - destruct (forallb words_ok _) eqn:E; [|done]. intros [= <- <-]. constructor. by apply toy_print_prints.
  - intros [= <- <-]. constructor.
  - destruct (_ && _) eqn:E; [|done]. apply andb_true_iff in E as [Hw Hs]. intros [= <- <-].
    eapply doc_add; [by split| |reflexivity]. apply forallb_Forall_true in Hs. eapply Forall_impl; [exact Hs|].
    intros r Hr%negb_true_iff. by apply bool_decide_eq_false in Hr.
  - destruct (words_ok ws) eqn:Hw; [|done]. intros [= <- <-].
    destruct (replace_slot_cases fam ws (routes_to h (fam, route_dest fam ws))) as [[Hf Hp]|(r & old & H1 & H2 & H3)].
    + by eapply doc_replace_new.
    + by eapply doc_replace.
  - destruct (routes_to h (fam, dest_prefix fam dest)) as [|r rs] eqn:E; [done|]. intros [= <- <-].
    eapply (doc_del _ _ _ r). by rewrite E.
  - intros [= <- <-]. constructor.
Qed.

#[export] Instance toy_laws : HostToolsLaws.
Proof.
  split.
  - done.
  - intros argv h h' out Ht. cbn in Ht. by apply toy_exec_documented.
  - intros argv h h' c out Hc Ht. cbn in Ht. rewrite decide_False in Ht by done. case_decide.
    + left. apply Ht.
    + destruct Ht as [->|(out' & Ht)]; [by left|right]. exists out'. by apply toy_exec_documented.
  - intros argv h h' out v6 q Hp Hq Ht. cbn in Ht. rewrite decide_False in Ht by done.
    rewrite decide_True in Ht by (rewrite Hp; done). rewrite Hp in Ht. destruct Ht as [-> Ht]. split; [done|].
    cbn in Ht. by destruct (fw_effect q (chains v6 h)).
  - intros fam ws w [Hw ->]. apply words_ok_wordy in Hw as [? ?]. by split_and!.
  - intros fam ws w w' [Hw ->]. split; [by intros [_ ->]|by intros ->].
  - by intros fam dest gw dev.
Qed.

(** ** Running the code *)

(** Commands that match [bad] fail without effect; everything else works. *)
Definition env (bad : list bytes → bool) (op : NetOp) (h : Host) : Host * net_answer op :=
  match op with
  | Run argv =>
      if bad argv then (h, Some {| code := Some 2%Z; stdout := [] |})
      else match toy_exec (parse_argv argv) h with
           | Some (h', out) => (h', Some {| code := Some 0%Z; stdout := out |})
           | None => (h, Some {| code := Some 1%Z; stdout := [] |})
           end
  | ReadResolv => (h, Some (resolv_conf h))
  | WriteResolv text => (set_resolv text h, true)
  end.

Lemma env_perform bad op h : net_perform op h (env bad op h).1 (env bad op h).2.
Proof.
  destruct op as [argv| |text]; cbn; [|by auto|done]. destruct (bad argv); cbn.
  - rewrite decide_False by done. rewrite decide_False by (by intros [? _]). by left.
  - destruct (toy_exec (parse_argv argv) h) as [[h' out]|] eqn:E; cbn; [done|].
    rewrite decide_False by done. case_decide; [done|]. by left.
Qed.

Fixpoint runp {A} (bad : list bytes → bool) (q : netprog A) (h : Host) : A * Host :=
  match q with
  | Ret a => (a, h)
  | Do op k => let r := env bad op h in runp bad (k r.2) r.1
  end.

Lemma runp_goes {A} bad (q : netprog A) h : goes net_perform q h (Ret (runp bad q h).1) (runp bad q h).2.
Proof.
  revert h. induction q as [a|op k IH]; intros h; cbn [runp]; [constructor|].
  eapply goes_on; [apply env_perform|apply IH].
Qed.

Lemma life_arm_goes h0 p q h q' h' : life h0 p (Arming q) h → goes net_perform q h q' h' → life h0 p (Arming q') h'.
Proof. intros Hl Hg. revert Hl. induction Hg; [done|]. intros Hl. apply IHHg. by eapply life_arms. Qed.

Lemma life_roll_goes h0 p q h q' h' : life h0 p (Rolling q) h → goes net_perform q h q' h' → life h0 p (Rolling q') h'.
Proof. intros Hl Hg. revert Hl. induction Hg; [done|]. intros Hl. apply IHHg. by eapply life_rolls. Qed.

Definition arm_run (bad : list bytes → bool) (p : ArmParams) (h0 : Host) : Armed * Host := runp bad (arm p linux_default) h0.
Definition down_run (bad : list bytes → bool) (s : Armed * Host) : Armed * Host := runp bad (teardown s.1.1) s.2.

Lemma life_up bad p h0 : life h0 p (Idle (arm_run bad p h0).1.1) (arm_run bad p h0).2.
Proof.
  apply (life_armed _ _ _ (arm_run bad p h0).1.2). eapply life_arm_goes; [apply life_start|].
  rewrite <- surjective_pairing. apply runp_goes.
Qed.

Lemma life_down_runs bad p h0 s : life h0 p (Idle s.1.1) s.2 → life h0 p (Rolling (Ret (down_run bad s).1)) (down_run bad s).2.
Proof. intros Hl. eapply life_roll_goes; [by apply HostRuns.life_down|apply runp_goes]. Qed.

Lemma life_down_idle bad p h0 s : life h0 p (Idle s.1.1) s.2 → life h0 p (Idle (down_run bad s).1.1) (down_run bad s).2.
Proof.
  intros Hl. apply (life_rolled _ _ _ (down_run bad s).1.2). rewrite <- surjective_pairing. by apply life_down_runs.
Qed.

(** ** Hosts *)

(** One-line routes, checked by evaluation. *)
Definition wf_routeb (fam dest : bytes) (r : Route) : bool :=
  match r with [ws] => words_ok ws && bool_decide (route_dest fam ws = dest) | _ => false end.

Lemma wf_hostb h :
  forallb (λ kr, forallb (wf_routeb kr.1.1 kr.1.2) kr.2) (map_to_list (routes h)) = true → wf_host h.
Proof.
  rewrite forallb_forall. intros H fam dest. unfold routes_to. rewrite lookup_total_alt.
  destruct (routes h !! (fam, dest)) as [rs|] eqn:E; cbn; [|constructor].
  apply elem_of_map_to_list, list_elem_of_In, H, forallb_Forall_true in E. cbn in E. eapply Forall_impl; [exact E|].
  intros r Hr. destruct r as [|ws [|? ?]]; [done| |done]. cbn in Hr. apply andb_true_iff in Hr as [Hw Hd%bool_decide_eq_true].
  destruct (words_ok_wordy _ Hw) as [H1 H2]. split; [done|done|done|by constructor|constructor|].
  intros ? [= <-]. by split.
Qed.

Definition w_output : Chains := {[ str "OUTPUT" := [[str "-o"; str "docker0"; str "-j"; str "ACCEPT"]] ]}.
Definition w_words (s : string) : list bytes := split_whitespace (str s).

Definition w_node : IpAddr := V4 (Ipv4 xcb x00 x71 x05).
Definition w_fallback : IpAddr := V4 (Ipv4 xcb x00 x71 x09).

Definition w_host_with (rs : list (bytes * bytes * list Route)) : Host :=
  {| iptables := w_output; ip6tables := w_output; routes := list_to_map rs;
     resolv_conf := str "nameserver 192.0.2.53" |}.

Definition w_default : Route := [w_words "default via 192.0.2.1 dev eth0 proto dhcp metric 100"].

Definition w_host : Host :=
  w_host_with [(DEF, [w_default]); (pin_key w_fallback, [[w_words "203.0.113.9 via 192.0.2.2 dev eth0"]])].

Definition w_params : ArmParams :=
  {| node_ip := w_node; ap_tun_name := str "nil0"; ap_dns := [V4 (Ipv4 x0a x4a x00 x01)]; ap_kill_switch := true;
     ap_also_except := [w_fallback] |}.

Lemma w_output_clean v6 : clean v6 w_output.
Proof.
  unfold w_output. split; [by destruct v6|by eexists|]. apply map_Forall_singleton. by destruct v6; repeat constructor.
Qed.

Lemma w_host_fresh rs :
  forallb (λ kr, forallb (wf_routeb kr.1.1 kr.1.2) kr.2) (map_to_list (routes (w_host_with rs))) = true →
  fresh_host (w_host_with rs).
Proof. intros H. split; [by apply wf_hostb|split; apply w_output_clean]. Qed.

Lemma w_fresh : fresh_host w_host.
Proof. apply w_host_fresh. vm_compute. reflexivity. Qed.

Lemma w_tame : tame w_host w_params.
Proof.
  split; [by apply (bool_decide_unpack _); vm_compute|]. repeat constructor.
Qed.

Definition works (argv : list bytes) : bool := false.
Definition no_add (argv : list bytes) : bool := bool_decide (str "add" ∈ argv).

Definition w_up : Armed * Host := arm_run works w_params w_host.
Definition w_failed : Armed * Host := down_run no_add w_up.
Definition w_down : Armed * Host := down_run works w_failed.

Lemma no_leak_window_witness :
  routes_to w_up.2 DEF = [w_default; [w_words "default dev nil0"]] ∧ w_up.1.2 = Ok tt ∧
  (shielded w_params w_up.2 ∨ untouched w_host w_up.2).
Proof.
  split_and!; [vm_compute; reflexivity..|].
  exact (no_leak_window w_host w_params _ _ w_fresh eq_refl (life_up works w_params w_host)).
Defined.

Lemma w_failed_life : life w_host w_params (Idle w_failed.1.1) w_failed.2.
Proof. apply life_down_idle, life_up. Qed.

Lemma rollback_restores_witness :
  is_ok w_failed.1.2 = false ∧ w_down.1.2 = Ok tt ∧ restored w_host w_down.2 ∧ armed w_down.1.1 = false.
Proof.
  assert (E : w_down.1 = (w_down.1.1, Ok tt)) by (vm_compute; reflexivity).
  pose proof (life_down_runs works _ _ _ w_failed_life) as Hl. fold w_down in Hl. rewrite E in Hl.
  split_and!; [vm_compute; reflexivity..| |];
    apply (rollback_restores w_host w_params w_down.1.1 w_down.2 w_fresh w_tame Hl).
Defined.

Lemma rollback_succeeds_witness :
  few_defaults w_host ∧
  always healthy (λ _, True) (teardown w_failed.1.1) w_failed.2 (λ s h', s.2 = Ok tt ∧ restored w_host h').
Proof.
  assert (Hfew : few_defaults w_host) by (split; [by apply Nat.ltb_lt; vm_compute|by apply (bool_decide_unpack _); vm_compute]).
  split; [exact Hfew|]. exact (rollback_succeeds w_host w_params _ _ w_fresh w_tame Hfew w_failed_life).
Defined.

(** ** What the hypotheses keep out *)

(** The fallback of a cascade is the node itself, as it is when no host is configured for it. *)
Definition twice_params : ArmParams :=
  {| node_ip := w_node; ap_tun_name := str "nil0"; ap_dns := []; ap_kill_switch := true; ap_also_except := [w_node] |}.

Definition no_replace (argv : list bytes) : bool := bool_decide (str "replace" ∈ argv).

(** A node pinned twice: the second pin recorded the first as what was there before.  If restoring
    that fails once, the retry brings our route back after the original state was restored, and
    reports success. *)
Example retry_reinstates_pin :
  let s := down_run works (down_run no_replace (arm_run works twice_params w_host)) in
  life w_host twice_params (Rolling (Ret s.1)) s.2 ∧ s.1.2 = Ok tt ∧
  routes_to w_host (pin_key w_node) = [] ∧
  routes_to s.2 (pin_key w_node) = [[w_words "203.0.113.5/32 via 192.0.2.1 dev eth0"]].
Proof.
  split; [apply life_down_runs, life_down_idle, life_up|]. vm_compute. split_and!; reflexivity.
Qed.

(** The host route to the node had a metric: [ip route replace] put ours beside it, and restoring
    the old one does not take ours away. *)
Definition metric_host : Host :=
  w_host_with [(DEF, [w_default]); (pin_key w_node, [[w_words "203.0.113.5 via 192.0.2.2 dev eth0 metric 50"]])].

Example metric_pin_stays :
  let s := down_run works (arm_run works w_params metric_host) in
  life metric_host w_params (Rolling (Ret s.1)) s.2 ∧ s.1.2 = Ok tt ∧
  length (routes_to metric_host (pin_key w_node)) = 1 ∧ length (routes_to s.2 (pin_key w_node)) = 2.
Proof.
  split; [apply life_down_runs, life_up|]. vm_compute. split_and!; reflexivity.
Qed.

(** As many default routes as a snapshot holds: arming adds one more. *)
Definition full_host : Host :=
  w_host_with [(DEF, (λ i, [w_words "default via 192.0.2.1 dev eth0 metric" ++ [uint_to_string (Z.of_nat (S i))]]) <$> seq 0 64)].

Example sixty_four_defaults_stuck :
  let s := arm_run works w_params full_host in
  life full_host w_params (Idle s.1.1) s.2 ∧ s.1.2 = Ok tt ∧
  always net_perform (safe full_host w_params) (teardown s.1.1) s.2 (λ s' _, is_ok s'.2 = false).
Proof.
  assert (Hl : life full_host w_params (Idle (arm_run works w_params full_host).1.1) (arm_run works w_params full_host).2) by apply life_up.
  split_and!; [exact Hl|vm_compute; reflexivity|].
  apply (too_many_defaults_stuck full_host w_params); [|exact Hl|vm_compute; reflexivity|apply Nat.ltb_lt; vm_compute; reflexivity].
  apply w_host_fresh. vm_compute. reflexivity.
Qed.

(** The rules of a process that died are still in force.  Arming again empties its chain first,
    and until the last rule is back anything may leave, by the default route the host has. *)
Definition stale_state : FwStates :=
  ((true, Some (accepts4 w_params ++ [drop_rule])), (true, Some [drop_rule])).

Definition stale_host : Host := with_fw w_host stale_state.

Definition plain_packet : Egress :=
  {| eg_if := str "eth0"; eg_dst := V4 (Ipv4 x08 x08 x08 x08); eg_proto := Udp; eg_dport := 53%Z |}.

(** The host after the first [n] actions. *)
Fixpoint after {A} (n : nat) (q : netprog A) (h : Host) : netprog A * Host :=
  match n, q with
  | S n, Do op k => let r := env works op h in after n (k r.2) r.1
  | _, _ => (q, h)
  end.

Lemma after_goes {A} n (q : netprog A) h : goes net_perform q h (after n q h).1 (after n q h).2.
Proof.
  revert q h. induction n as [|n IH]; intros [a|op k] h; cbn [after]; try constructor.
  eapply goes_on; [apply env_perform|apply IH].
Qed.

Example rearming_opens_a_window :
  shielded w_params stale_host ∧ ¬ to_tunnel w_params plain_packet ∧ ¬ to_node w_params plain_packet ∧
  ∃ q h, goes net_perform (arm w_params linux_default) stale_host q h ∧ leaves (iptables h) plain_packet.
Proof.
  split_and!.
  - apply armed_is_shielded; [apply w_fresh|]. exists []. by split.
  - intros [H|H]; by vm_compute in H.
  - intros [[H _]|H]; [by vm_compute in H|]. cbn in H. apply list_elem_of_singleton in H. by vm_compute in H.
  - exists (after 10 (arm w_params linux_default) stale_host).1, (after 10 (arm w_params linux_default) stale_host).2.
    split; [apply after_goes|]. vm_compute. done.
Qed.
