(* ===== verification/Onion.v ===== *)
(** * Transports and the onion ([crates/nil-transport/src/transport.rs], [path.rs])

    The [Transport] trait as a record of programs, with the contract its users rely on as a
    class: which sessions are open, and that none is left behind.  [PathTransport] dials its hops
    each through the one before, wraps those that have a WireGuard key, and takes the whole onion
    down again when a step fails. *)

From S2P Require Import Prelude.
From S2P Require Import Net.
From S2P Require Import Prog.
From S2P Require Import World.
From S2P Require Import Grant.
From S2P Require Import ClientPath.
From Stdlib Require Import Strings.Byte ZArith Lia.
From stdpp Require Import prelude gmap sets strings.

(** ** Sessions and the transports underneath *)

(** [SessionId] of the MASQUE transport and of the WireGuard wrapper: each counts its own. *)
Inductive HopHandle := Pq (id : Z) | Plain (id : Z).

#[global] Instance HopHandle_eq_dec : EqDecision HopHandle.
Proof. solve_decision. Defined.

Definition is_pq (h : HopHandle) : bool := match h with Pq _ => true | Plain _ => false end.
Definition session_id (h : HopHandle) : Z := match h with Pq id | Plain id => id end.

Inductive LinkOp :=
  | MqConnect (hop : NodeEndpoint) (grant : Grant) (carrier : option HopHandle)
  | MqClose (id : Z)
  | PqWrap (id : Z) (wg_pub : bytes)
  | PqClose (id : Z)
  | MqAssigned (id : Z)
  | MqMtu (id : Z) | PqMtu (id : Z)
  | Entropy (len : nat).

Definition link_answer (op : LinkOp) : Type :=
  match op with
  | MqConnect _ _ _ | PqWrap _ _ => option Z
  | MqClose _ | PqClose _ => bool
  | MqAssigned _ => option Ipv4Addr
  | MqMtu _ | PqMtu _ => option Z
  | Entropy _ => option bytes
  end.

(** The open MASQUE sessions, and which of them each WireGuard session wraps. *)
Record Links := { open_mq : gset Z; open_pq : gmap Z Z }.

(** A dial that fails leaves nothing open, and so does a handshake that fails; closing closes,
    whatever it reports; a WireGuard session takes the session it wraps with it. *)
Definition link_perform (op : LinkOp) (w w' : Links) : link_answer op → Prop :=
  match op with
  | MqConnect _ _ _ => λ r,
      match r with
      | Some id => id ∉ open_mq w ∧ w' = {| open_mq := {[id]} ∪ open_mq w; open_pq := open_pq w |}
      | None => w' = w
      end
  | MqClose id => λ _, w' = {| open_mq := open_mq w ∖ {[id]}; open_pq := open_pq w |}
  | PqWrap id _ => λ r,
      match r with
      | Some q => open_pq w !! q = None ∧ w' = {| open_mq := open_mq w; open_pq := <[q := id]> (open_pq w) |}
      | None => w' = w
      end
  | PqClose q => λ _,
      w' = match open_pq w !! q with
           | Some id => {| open_mq := open_mq w ∖ {[id]}; open_pq := delete q (open_pq w) |}
           | None => w
           end
  | MqAssigned _ | MqMtu _ | PqMtu _ | Entropy _ => λ _, w' = w
  end.

Definition linkprog := prog link_answer.

Inductive TransportError := NoHops | PathEntropy | HopRefused (i : nat) | PqRefused (i : nat) | CloseFailed | TransportFailed.

(** ** The [Transport] trait *)

(** A session as the datapath holds it: its id.  [state] is what the implementation keeps behind
    its mutexes; no code panics while it holds one. *)
Record Transport := {
  state : Type;
  connect : state → NodeEndpoint → Grant → linkprog (state * result TransportError Z);
  close : state → Z → linkprog (state * result TransportError unit);
  assigned_ip : state → Z → linkprog (option Ipv4Addr);
  tunnel_mtu : state → Z → linkprog (option Z);
}.

(** The defaulted method. *)
Definition assigned_ip_default {S} (st : S) (session : Z) : linkprog (option Ipv4Addr) := Ret None.

(** What a transport promises: [t_inv st w live] - [live] are the sessions it has handed out, and
    with none of them left nothing is open. *)
Class TransportSpec (t : Transport) := {
  t_start : state t;
  t_inv : state t → Links → gset Z → Prop;
  t_quiet st w : t_inv st w ∅ → open_mq w = ∅ ∧ open_pq w = ∅;
  t_begin w : open_mq w = ∅ → open_pq w = ∅ → t_inv t_start w ∅;
  t_connect st w live node grant :
    t_inv st w live →
    always link_perform (λ _, True) (connect t st node grant) w (λ s w',
      match s.2 with
      | Ok id => id ∉ live ∧ t_inv s.1 w' ({[id]} ∪ live)
      | Err _ => t_inv s.1 w' live
      end);
  t_close st w live id :
    t_inv st w live → id ∈ live →
    always link_perform (λ _, True) (close t st id) w (λ s w', t_inv s.1 w' (live ∖ {[id]}));
  t_ask st w live id :
    t_inv st w live →
    always link_perform (λ _, True) (assigned_ip t st id) w (λ _ w', t_inv st w' live) ∧
    always link_perform (λ _, True) (tunnel_mtu t st id) w (λ _ w', t_inv st w' live);
}.

Local Open Scope prog_scope.

(** ** One MASQUE hop *)

Definition ok_if (b : bool) : result TransportError unit := if b then Ok tt else Err CloseFailed.

Definition MasqueTransport : Transport :=
  {| state := unit;
     connect st node grant :=
       let* r := call (MqConnect node grant None) in Ret (st, ok_or r TransportFailed);
     close st id := let* r := call (MqClose id) in Ret (st, ok_if r);
     assigned_ip st id := call (MqAssigned id);
     tunnel_mtu st id := call (MqMtu id) |}.

(** ** [PathTransport] *)

Record PathState := { onion : gmap Z (list HopHandle); pq_exits : gset Z }.

Section Path.
Context (hops : list NodeEndpoint).

Definition fresh_grant (base : Grant) : linkprog (result TransportError Grant) :=
  let* nonce := call (Entropy 32) in
  Ret match nonce with
      | Some nonce => Ok {| g_token := g_token base; g_nonce := nonce |}
      | None => Err PathEntropy
      end.

Definition grant_for (hop : NodeEndpoint) (fallback : Grant) : linkprog (result TransportError Grant) :=
  match ep_grant hop with
  | Some grant => Ret (Ok grant)
  | None => fresh_grant fallback
  end.

(** Each hop closes through its own transport. *)
Definition close_hop (h : HopHandle) : linkprog bool :=
  match h with Pq id => call (PqClose id) | Plain id => call (MqClose id) end.

(** Close hops in the order given; the first error is kept. *)
Fixpoint teardown_in (hops : list HopHandle) (first_err : result TransportError unit) : linkprog (result TransportError unit) :=
  match hops with
  | [] => Ret first_err
  | h :: hops =>
      let* r := close_hop h in
      teardown_in hops (if is_ok first_err then ok_if r else first_err)
  end.

Definition path_teardown (hops : list HopHandle) : linkprog (result TransportError unit) := teardown_in (rev hops) (Ok tt).

(** The loop over the hops: [done] is established, [last done] carries the next dial. *)
Fixpoint dial (todo : list NodeEndpoint) (i : nat) (done : list HopHandle) (creds : Grant) :
    linkprog (result TransportError (list HopHandle)) :=
  match todo with
  | [] => Ret (Ok done)
  | hop :: todo =>
      let+ grant := grant_for hop creds in
      let* masque := call (MqConnect hop grant (last done)) in
      match masque with
      | None => let* _ := path_teardown done in Ret (Err (HopRefused i))
      | Some s =>
          match ep_wg_pub hop with
          | Some wg_pub =>
              let* pq := call (PqWrap s wg_pub) in
              match pq with
              | Some q => dial todo (S i) (done ++ [Pq q]) creds
              | None =>
                  let* _ := call (MqClose s) in
                  let* _ := path_teardown done in
                  Ret (Err (PqRefused i))
              end
          | None => dial todo (S i) (done ++ [Plain s]) creds
          end
      end
  end.

Definition path_connect (st : PathState) (target : NodeEndpoint) (creds : Grant) :
    linkprog (PathState * result TransportError Z) :=
  match hops with
  | [] => Ret (st, Err NoHops)
  | _ =>
      let* r := dial hops 0 [] creds in
      match r with
      | Err e => Ret (st, Err e)
      | Ok established =>
          match last established with
          | None => Ret (st, Err NoHops)
          | Some exit =>
              let id := session_id exit in
              Ret ({| onion := <[id := established]> (onion st);
                      pq_exits := if is_pq exit then {[id]} ∪ pq_exits st else pq_exits st |}, Ok id)
          end
      end
  end.

Definition path_close (st : PathState) (id : Z) : linkprog (PathState * result TransportError unit) :=
  let hops := default [] (onion st !! id) in
  let st := {| onion := delete id (onion st); pq_exits := pq_exits st ∖ {[id]} |} in
  let* r := path_teardown hops in Ret (st, r).

Definition path_tunnel_mtu (st : PathState) (id : Z) : linkprog (option Z) :=
  if decide (id ∈ pq_exits st) then call (PqMtu id) else call (MqMtu id).

Definition PathTransport : Transport :=
  {| state := PathState; connect := path_connect; close := path_close; assigned_ip := assigned_ip_default;
     tunnel_mtu := path_tunnel_mtu |}.

End Path.

(** ** Which sessions are whose *)

Definition mid (w : Links) (h : HopHandle) : option Z :=
  match h with Plain id => Some id | Pq q => open_pq w !! q end.

(** The open sessions are exactly those of these hops, one each. *)
Record held (w : Links) (hs : list HopHandle) : Prop := {
  held_some : Forall is_Some (mid w <$> hs);
  held_distinct : NoDup (mid w <$> hs);
  held_open x : x ∈ open_mq w ↔ Some x ∈ mid w <$> hs;
  held_pq q : is_Some (open_pq w !! q) → Pq q ∈ hs;
}.

Lemma held_perm w hs hs' : hs ≡ₚ hs' → held w hs → held w hs'.
Proof.
  intros E [H1 H2 H3 H4]. assert (E' : mid w <$> hs ≡ₚ mid w <$> hs') by by apply fmap_Permutation.
  split; [by rewrite <- E'|by rewrite <- E'| |].
  - intros x. by rewrite H3, E'.
  - intros q Hq. rewrite <- E. auto.
Qed.

Lemma held_nodup w hs : held w hs → NoDup hs.
Proof. intros H. eapply NoDup_fmap_1, H. Qed.

Lemma held_nothing w : open_mq w = ∅ → open_pq w = ∅ → held w [].
Proof.
  intros E1 E2. split; [done|constructor| |].
  - intros x. rewrite E1. cbn. split; [set_solver|]. by intros ?%elem_of_nil.
  - intros q [s Hs]. by rewrite E2, lookup_empty in Hs.
Qed.

Lemma held_none w : held w [] → open_mq w = ∅ ∧ open_pq w = ∅.
Proof.
  intros [_ _ H3 H4]. split.
  - apply set_eq. intros x. rewrite H3. cbn. split; [by intros ?%elem_of_nil|set_solver].
  - apply map_empty. intros q. destruct (open_pq w !! q) eqn:E; [|done].
    assert (Pq q ∈ ([] : list HopHandle)) as H by (apply H4; by eexists). by apply elem_of_nil in H.
Qed.

(** Two worlds that wrap the same for these hops. *)
Lemma mid_ext w w' (hs : list HopHandle) : (∀ q, Pq q ∈ hs → open_pq w' !! q = open_pq w !! q) → mid w' <$> hs = mid w <$> hs.
Proof.
  intros H. apply list_fmap_ext. intros i [q|id] Hi; [|done]. cbn. apply H. by eapply list_elem_of_lookup_2.
Qed.

Lemma held_dial w hs id :
  held w hs → id ∉ open_mq w → held {| open_mq := {[id]} ∪ open_mq w; open_pq := open_pq w |} (Plain id :: hs).
Proof.
  intros [H1 H2 H3 H4] Hn. set (w' := Build_Links _ _). assert (E : mid w' <$> hs = mid w <$> hs) by by apply mid_ext.
  split.
  - rewrite fmap_cons, E. constructor; [by eexists|exact H1].
  - rewrite fmap_cons, E. constructor; [|done]. change (Some id ∉ mid w <$> hs). by rewrite <- H3.
  - intros x. rewrite fmap_cons, E, elem_of_cons, <- H3. cbn. set_solver.
  - intros q Hq. right. auto.
Qed.

Lemma held_wrap w hs id q :
  held w (Plain id :: hs) → open_pq w !! q = None →
  held {| open_mq := open_mq w; open_pq := <[q := id]> (open_pq w) |} (Pq q :: hs).
Proof.
  intros [H1 H2 H3 H4] Hn. set (w' := Build_Links _ _). rewrite fmap_cons in H1. apply Forall_cons in H1 as [_ H1].
  assert (Hne : Pq q ∉ hs).
  { intros Hin. rewrite Forall_fmap, Forall_forall in H1. apply H1 in Hin as [s Hs]. cbn in Hs. congruence. }
  assert (E : mid w' <$> hs = mid w <$> hs).
  { apply mid_ext. intros q' Hin. cbn. apply lookup_insert_ne. congruence. }
  assert (Eq : mid w' (Pq q) = Some id) by apply lookup_insert_eq.
  split.
  - rewrite fmap_cons, Eq, E. constructor; [by eexists|done].
  - by rewrite fmap_cons, Eq, E.
  - intros x. by rewrite fmap_cons, Eq, E.
  - intros q' Hq'. destruct (decide (q' = q)) as [->|Hne']; [left|right]. cbn in Hq'. rewrite lookup_insert_ne in Hq' by done.
    apply H4 in Hq'. by apply elem_of_cons in Hq' as [?|?].
Qed.

(** Taking one hop away, with what it wraps. *)
Lemma held_drop w hs h id pq' :
  held w (h :: hs) → mid w h = Some id → (∀ q, Pq q ∈ hs → pq' !! q = open_pq w !! q) →
  (∀ q, is_Some (pq' !! q) → Pq q ∈ hs) → held {| open_mq := open_mq w ∖ {[id]}; open_pq := pq' |} hs.
Proof.
  intros [H1 H2 H3 _] Hm Hsame Hpq. set (w' := Build_Links _ _). pose proof (mid_ext w w' hs Hsame) as E.
  rewrite fmap_cons, Hm in H1, H2. apply Forall_cons in H1 as [_ H1]. apply NoDup_cons in H2 as [Hn H2].
  split; rewrite ?E; [done|done| |done].
  intros x. cbn [open_mq w']. rewrite elem_of_difference, H3, fmap_cons, Hm, elem_of_cons, elem_of_singleton. split; [naive_solver|].
  intros Hx. split; [by right|]. intros ->. done.
Qed.

Lemma held_unplain w hs id :
  held w (Plain id :: hs) → held {| open_mq := open_mq w ∖ {[id]}; open_pq := open_pq w |} hs.
Proof.
  intros H. eapply held_drop; [done|done|done|]. intros q Hq. apply (held_pq _ _ H) in Hq. by apply elem_of_cons in Hq as [?|?].
Qed.

Lemma held_unpq w hs q id :
  held w (Pq q :: hs) → open_pq w !! q = Some id →
  held {| open_mq := open_mq w ∖ {[id]}; open_pq := delete q (open_pq w) |} hs.
Proof.
  intros H Hq. pose proof (held_nodup _ _ H) as Hnd. apply NoDup_cons in Hnd as [Hnq _].
  eapply held_drop; [done|done| |].
  - intros q' Hin. apply lookup_delete_ne. congruence.
  - intros q' [s [Hne Hs]%lookup_delete_Some]. assert (Pq q' ∈ Pq q :: hs) as Hin by (apply (held_pq _ _ H); by eexists).
    apply elem_of_cons in Hin as [[= ->]|?]; done.
Qed.

(** ** The programs *)

#[local] Notation leads := (always link_perform (λ _, True)).

Lemma close_hop_spec w h hs : held w (h :: hs) → leads (close_hop h) w (λ _ w', held w' hs).
Proof.
  intros H. destruct h as [q|id]; intros w' r Hr; cbn in Hr; [|subst; by split; [|apply held_unplain]].
  pose proof (held_some _ _ H) as Hs. rewrite fmap_cons in Hs. apply Forall_cons in Hs as [[id Hid] _]. cbn in Hid. rewrite Hid in Hr. subst w'.
  split; [done|]. by apply held_unpq.
Qed.

Lemma teardown_in_spec l e w hs : held w (l ++ hs) → leads (teardown_in l e) w (λ _ w', held w' hs).
Proof.
  revert e w. induction l as [|h l IH]; intros e w H; cbn [teardown_in]; [done|].
  apply always_bind. eapply always_post; [|by apply (close_hop_spec w h (l ++ hs))]. intros r w' H'. by apply IH.
Qed.

Lemma path_teardown_spec l w hs : held w (l ++ hs) → leads (path_teardown l) w (λ _ w', held w' hs).
Proof. intros H. apply teardown_in_spec. eapply held_perm; [|exact H]. by rewrite <- Permutation_rev. Qed.

(** A hop as it was established. *)
Definition hop_shape (hop : NodeEndpoint) (h : HopHandle) : Prop := is_pq h = bool_decide (is_Some (ep_wg_pub hop)).

Lemma dial_spec todo i done creds w hs :
  Forall (λ hop, is_Some (ep_grant hop)) todo → held w (done ++ hs) →
  leads (dial todo i done creds) w (λ r w',
    match r with
    | Ok all => held w' (all ++ hs) ∧ ∃ new, all = done ++ new ∧ Forall2 hop_shape todo new
    | Err _ => held w' hs
    end).
Proof.
  intros Hg. revert i done w. induction Hg as [|hop todo [g Hgr] _ IH]; intros i done w H; cbn [dial].
  { cbn. split; [done|]. exists []. by rewrite app_nil_r. }
  unfold grant_for. rewrite Hgr. apply always_try. cbn [always]. apply always_bind. intros w1 r Hr. split; [done|]. cbn [always].
  destruct r as [s|]; cbn in Hr.
  2:{ subst w1. apply always_bind. eapply always_post; [|by apply path_teardown_spec]. done. }
  destruct Hr as [Hn ->]. pose proof (held_dial _ _ _ H Hn) as H1. set (w1 := Build_Links _ _) in *.
  assert (Hnext : ∀ h w2, held w2 (h :: done ++ hs) → hop_shape hop h →
    leads (dial todo (S i) (done ++ [h]) creds) w2 (λ r w', match r with
      | Ok all => held w' (all ++ hs) ∧ ∃ new, all = done ++ new ∧ Forall2 hop_shape (hop :: todo) new
      | Err _ => held w' hs end)).
  { intros h w2 H2 Hs. eapply always_post; [|apply IH].
    - intros [all|e] w3; [|done]. intros [H3 (new & -> & Hnew)]. split; [done|]. exists (h :: new).
      rewrite <- app_assoc. split; [done|by constructor].
    - eapply held_perm; [|exact H2]. rewrite <- app_assoc. cbn. apply Permutation_middle. }
  destruct (ep_wg_pub hop) as [k|] eqn:Ek.
  - apply always_bind. intros w2 r Hr. split; [done|]. cbn [always]. destruct r as [q|]; cbn in Hr.
    + destruct Hr as [Hq ->]. apply Hnext; [by apply (held_wrap w1)|]. unfold hop_shape. by rewrite Ek.
    + subst w2. apply always_bind. intros w2 r Hr. split; [done|]. cbn in Hr. subst w2. cbn [always]. apply always_bind.
      apply held_unplain in H1. eapply always_post; [|apply path_teardown_spec; exact H1]. done.
  - apply Hnext; [done|]. unfold hop_shape. by rewrite Ek.
Qed.

(** ** The contract, met *)

(** One MASQUE hop: what it hands out is what is open. *)
#[export] Instance masque_spec : TransportSpec MasqueTransport.
Proof.
  refine {| t_start := tt : state MasqueTransport; t_inv st w live := open_mq w = live ∧ open_pq w = ∅ |}; cbn.
  - done.
  - done.
  - intros st w live node grant [<- Hq] w' r Hr. split; [done|]. destruct r as [id|]; cbn in *; [|by subst].
    destruct Hr as [Hn ->]. done.
  - intros st w live id [<- Hq] Hin w' r ->. done.
  - intros st w live id [<- Hq]. split; intros w' r ->; done.
Defined.

Definition all_hops (m : gmap Z (list HopHandle)) : list HopHandle := mjoin (map_to_list m).*2.

Lemma all_hops_insert m id hs : m !! id = None → all_hops (<[id := hs]> m) ≡ₚ hs ++ all_hops m.
Proof. intros Hm. unfold all_hops. by rewrite map_to_list_insert. Qed.

Lemma all_hops_delete m id hs : m !! id = Some hs → all_hops m ≡ₚ hs ++ all_hops (delete id m).
Proof. intros Hm. rewrite <- all_hops_insert by apply lookup_delete_eq. by rewrite insert_delete_id. Qed.

Lemma all_hops_in m id hs h : m !! id = Some hs → h ∈ hs → h ∈ all_hops m.
Proof. intros Hm Hh. rewrite (all_hops_delete _ _ _ Hm). set_solver. Qed.

Section PathSpec.
Context (hops : list NodeEndpoint) (Hgrants : Forall (λ hop, is_Some (ep_grant hop)) hops).

(** Every path ends in the same kind of session, and is kept under its id. *)
Definition exit_is (h : HopHandle) : Prop := ∃ hop, last hops = Some hop ∧ hop_shape hop h.

Record path_inv (st : PathState) (w : Links) (live : gset Z) : Prop := {
  pi_live : live = dom (onion st);
  pi_held : held w (all_hops (onion st));
  pi_exit id hs : onion st !! id = Some hs → ∃ h, last hs = Some h ∧ session_id h = id ∧ exit_is h;
}.

Lemma exit_unique h h' : exit_is h → exit_is h' → session_id h = session_id h' → h = h'.
Proof.
  intros (hop & E & Hs) (hop' & E' & Hs') Hid. rewrite E in E'. injection E' as <-. unfold hop_shape in *.
  rewrite <- Hs' in Hs. destruct h, h'; cbn in *; congruence.
Qed.

Lemma Forall2_last {A B} (P : A → B → Prop) l k y :
  Forall2 P l k → last k = Some y → ∃ x, last l = Some x ∧ P x y.
Proof.
  intros H. revert y. induction H as [|x y' l k Hp Hl IH]; [done|]. intros y. destruct Hl as [|x2 y2 l k Hp2 Hl].
  - intros [= <-]. by exists x.
  - intros Hy. apply IH in Hy as (z & Hz & Hpz). by exists z.
Qed.

Lemma path_connect_spec st w live node creds :
  path_inv st w live →
  leads (path_connect hops st node creds) w (λ s w',
    match s.2 with
    | Ok id => id ∉ live ∧ path_inv s.1 w' ({[id]} ∪ live)
    | Err _ => path_inv s.1 w' live
    end).
Proof.
  intros [-> Hh He]. unfold path_connect. destruct hops as [|hop0 hops'] eqn:Ehops; [done|]. rewrite <- Ehops in *.
  apply always_bind. eapply always_post; [|apply (dial_spec hops 0 [] creds w (all_hops (onion st))); [done|done]].
  intros [all|e] w'; [|done]. intros [H' (new & -> & Hnew)]. cbn [app] in *. destruct (last new) as [h|] eqn:El.
  2:{ apply last_None in El. subst new. by inversion Hnew; congruence. }
  assert (Hex : exit_is h) by (eapply Forall2_last in El as (x & ? & ?); [by exists x|done]).
  assert (Hfresh : onion st !! session_id h = None).
  { destruct (onion st !! session_id h) as [hs'|] eqn:E; [|done]. exfalso.
    destruct (He _ _ E) as (h' & El' & Hid & Hex'). assert (h' = h) as -> by by apply exit_unique.
    apply held_nodup, NoDup_app in H' as (_ & Hd & _). apply (Hd h).
    - by apply last_Some_elem_of.
    - eapply all_hops_in; [done|]. by apply last_Some_elem_of. }
  cbn. split; [by apply not_elem_of_dom|]. split; cbn [onion].
  - rewrite dom_insert_L. set_solver.
  - eapply held_perm; [|exact H']. by rewrite all_hops_insert.
  - intros id hs [[<- <-]|[_ Hs]]%lookup_insert_Some; [by exists h|by apply He].
Qed.

Lemma path_close_spec st w live id :
  path_inv st w live → id ∈ live → leads (path_close st id) w (λ s w', path_inv s.1 w' (live ∖ {[id]})).
Proof.
  intros [-> Hh He] [hs Hs]%elem_of_dom. unfold path_close. rewrite Hs. apply always_bind.
  eapply always_post; [|apply path_teardown_spec; eapply held_perm; [|exact Hh]; by apply all_hops_delete].
  intros r w' H'. split; cbn; [by rewrite dom_delete_L|done|]. intros id' hs' [_ Hs']%lookup_delete_Some. by apply He.
Qed.

(** With a grant for every hop, a path keeps the contract: a connect that fails leaves nothing
    open, and closing a path closes every one of its hops. *)
#[export] Instance path_spec : TransportSpec (PathTransport hops).
Proof using Hgrants.
  refine {| t_start := {| onion := ∅; pq_exits := ∅ |} : state (PathTransport hops); t_inv := path_inv |}; cbn.
  - intros st w [Hl Hh _]. apply held_none. symmetry in Hl. apply dom_empty_inv_L in Hl. by rewrite Hl in Hh.
  - intros w E1 E2. split; cbn; [by rewrite dom_empty_L|by apply held_nothing|]. intros id hs Hs. by rewrite lookup_empty in Hs.
  - intros. by apply path_connect_spec.
  - intros. by apply path_close_spec.
  - intros st w live id Hi. split; [done|]. unfold path_tunnel_mtu. case_decide; intros w' r ->; done.
Defined.

End PathSpec.
