(* ===== verification/Datapath.v ===== *)
(** * The tunnel controller ([crates/nil-datapath/src/lib.rs])

    [Tunnel::up] and [Tunnel::down] over any transport that keeps its contract ([Onion]) and over
    the host's networking ([HostNet]).  The theorems of [HostRuns] on the host's networking and of
    [Onion] on sessions are put together: what holds of a tunnel from [up] to [down].  The packet
    pumps are in [Pumps]. *)

From S2P Require Import Prelude.
From S2P Require Import Net.
From S2P Require Import Prog.
From S2P Require Import World.
From S2P Require Import Checksum.
From S2P Require Import Grant.
From S2P Require Import ClientPath.
From S2P Require Import Onion.
From S2P Require Import HostNet.
From S2P Require Import KillSwitch.
From S2P Require Import HostRoutes.
From S2P Require Import HostRuns.
From Stdlib Require Import Strings.Byte ZArith Lia.
From stdpp Require Import prelude gmap sets strings.

(** ** Actions *)

Inductive TunOp :=
  | OnLink (op : LinkOp)
  | OnNet (op : NetOp)
  | Resolve (host : bytes)
  | OpenTun (client_ip : Ipv4Addr) (prefix : Z) (peer_ip : Ipv4Addr) (mtu : Z) (name : bytes)
  | TunName (tun : Z).

Definition tun_answer (op : TunOp) : Type :=
  match op with
  | OnLink op => link_answer op
  | OnNet op => net_answer op
  | Resolve _ => option IpAddr
  | OpenTun _ _ _ _ _ => option Z
  | TunName _ => option bytes
  end.

Definition tunprog := prog tun_answer.

Fixpoint on_link {A} (q : linkprog A) : tunprog A :=
  match q with Ret a => Ret a | Do op k => Do (OnLink op) (λ r, on_link (k r)) end.

Fixpoint on_net {A} (q : netprog A) : tunprog A :=
  match q with Ret a => Ret a | Do op k => Do (OnNet op) (λ r, on_net (k r)) end.

(** The world of a tunnel: the sessions, the host's networking, the addresses a name has, and the
    TUN devices that were opened, with their names. *)
Record Device := { links : Links; host : Host; names : bytes → IpAddr → Prop; tuns : gmap Z bytes }.

Definition set_links (l : Links) (w : Device) : Device := {| links := l; host := host w; names := names w; tuns := tuns w |}.
Definition set_host (h : Host) (w : Device) : Device := {| links := links w; host := h; names := names w; tuns := tuns w |}.
Definition add_tun (id : Z) (name : bytes) (w : Device) : Device :=
  {| links := links w; host := host w; names := names w; tuns := <[id := name]> (tuns w) |}.

Definition tun_perform `{HostTools} (op : TunOp) (w w' : Device) : tun_answer op → Prop :=
  match op with
  | OnLink op => λ r, ∃ l, link_perform op (links w) l r ∧ w' = set_links l w
  | OnNet op => λ r, ∃ h, net_perform op (host w) h r ∧ w' = set_host h w
  | Resolve name => λ r, w' = w ∧ ∀ ip, r = Some ip → names w name ip
  | OpenTun _ _ _ _ _ => λ r,
      match r with
      | Some id => tuns w !! id = None ∧ ∃ name, w' = add_tun id name w
      | None => w' = w
      end
  | TunName id => λ r, w' = w ∧ ∀ name, r = Some name → tuns w !! id = Some name
  end.

(** ** The code *)

Record TunnelConfig := {
  node : NodeEndpoint;
  tun_name : bytes;
  client_ip : Ipv4Addr;
  peer_ip : Ipv4Addr;
  prefix : Z;
  mtu : Z;
  dns : list IpAddr;
  kill_switch : bool;
  also_except : list bytes;
}.

Inductive TunnelError :=
  | ResolveFailed | NonceEntropy | ConnectFailed (e : TransportError) | OpenTunFailed | TunNameFailed
  | ArmFailed (e : NetError) | ArmAndRollbackFailed (e rollback : NetError).

Definition apply_assigned_ip (configured : Ipv4Addr) (assigned : option Ipv4Addr) : option Ipv4Addr :=
  match assigned with
  | Some ip => if decide (ip ≠ configured) then Some ip else None
  | None => None
  end.

Definition clamp_mtu (configured : Z) (negotiated : option Z) : option Z :=
  n ← negotiated;
  let m := Z.min n U16_MAX in
  if (m <? configured)%Z then Some m else None.

Local Open Scope prog_scope.

Fixpoint resolve_all (hosts : list bytes) : tunprog (list IpAddr) :=
  match hosts with
  | [] => Ret []
  | h :: hosts =>
      let* r := call (Resolve h : TunOp) in
      let* rest := resolve_all hosts in
      Ret match r with Some ip => ip :: rest | None => rest end
  end.

(** The pumps are apart ([Pumps]). *)
Record Tunnel := { session : option Z; net : LinuxNet; tun : Z }.

Section Tunnel.
Context (t : Transport).

Definition up (st : state t) (cfg : TunnelConfig) : tunprog (state t * result TunnelError Tunnel) :=
  let* node_ip := call (Resolve (ep_host (node cfg)) : TunOp) in
  match node_ip with
  | None => Ret (st, Err ResolveFailed)
  | Some node_ip =>
  let* also := resolve_all (also_except cfg) in
  let* nonce := on_link (call (Entropy 32)) in
  match nonce with
  | None => Ret (st, Err NonceEntropy)
  | Some nonce =>
  let grant := default {| g_token := []; g_nonce := nonce |} (ep_grant (node cfg)) in
  let* connected := on_link (connect t st (node cfg) grant) in
  let st := connected.1 in
  match connected.2 with
  | Err e => Ret (st, Err (ConnectFailed e))
  | Ok session =>
  let* assigned := on_link (assigned_ip t st session) in
  let client_ip := default (client_ip cfg) (apply_assigned_ip (client_ip cfg) assigned) in
  let* negotiated := on_link (tunnel_mtu t st session) in
  let mtu := default (mtu cfg) (clamp_mtu (mtu cfg) negotiated) in
  let* opened := call (OpenTun client_ip (prefix cfg) (peer_ip cfg) mtu (tun_name cfg)) in
  match opened with
  | None => Ret (st, Err OpenTunFailed)
  | Some tun =>
  let* name := call (TunName tun) in
  match name with
  | None => Ret (st, Err TunNameFailed)
  | Some name =>
  let p := {| HostNet.node_ip := node_ip; ap_tun_name := name; ap_dns := dns cfg; ap_kill_switch := kill_switch cfg;
              ap_also_except := also |} in
  let* armed := on_net (arm p linux_default) in
  match armed.2 with
  | Ok _ => Ret (st, Ok {| session := Some session; net := armed.1; tun := tun |})
  | Err e =>
      let* rollback := on_net (teardown armed.1) in
      let* closed := on_link (close t st session) in
      Ret (closed.1, Err match rollback.2 with Ok _ => ArmFailed e | Err r => ArmAndRollbackFailed e r end)
  end end end end end end.

(** The pumps are told to stop and awaited before this; they hold nothing of the host's. *)
Definition down (st : state t) (self : Tunnel) : tunprog (state t * Tunnel * result NetError unit) :=
  let* rollback := on_net (teardown (net self)) in
  match session self with
  | Some s =>
      let* closed := on_link (close t st s) in
      Ret (closed.1, {| session := None; net := rollback.1; tun := tun self |}, rollback.2)
  | None => Ret (st, {| session := None; net := rollback.1; tun := tun self |}, rollback.2)
  end.

End Tunnel.

(** [up], and [down] when it came up. *)
Definition cycle (t : Transport) (st : state t) (cfg : TunnelConfig) : tunprog (result TunnelError (result NetError unit)) :=
  let* s := up t st cfg in
  match s.2 with
  | Ok tn => let* d := down t s.1 tn in Ret (Ok d.2)
  | Err e => Ret (Err e)
  end.

(** ** Sessions *)

Section Sessions.
Context `{Htools : HostTools} {t : Transport} `{Hspec : !TransportSpec t}.

#[local] Notation leads := (always tun_perform (λ _, True)).

Lemma leads_link {A} (q : linkprog A) w Q :
  always link_perform (λ _, True) q (links w) Q →
  leads (on_link q) w (λ a w', Q a (links w') ∧ w' = set_links (links w') w).
Proof.
  revert w. induction q as [a|op k IH]; intros w; cbn [on_link]; [by destruct w|]. intros H w' r (l & Hr & ->). split; [done|].
  destruct (H _ _ Hr) as [_ Hk]. eapply always_post; [|by apply IH]. intros a w'' [? E]. split; [done|]. rewrite E. by destruct w.
Qed.

Lemma leads_net {A} I (q : netprog A) w Q :
  always net_perform I q (host w) Q →
  always tun_perform (λ w', I (host w') ∧ w' = set_host (host w') w) (on_net q) w (λ a w', Q a (host w') ∧ w' = set_host (host w') w).
Proof.
  revert w. induction q as [a|op k IH]; intros w; cbn [on_net]; [by destruct w|]. intros H w' r (h & Hr & ->).
  destruct (H _ _ Hr) as [HI Hk]. split; [done|]. eapply always_mono; [| |by apply IH].
  - intros w'' [? E]. split; [done|]. rewrite E. by destruct w.
  - intros a w'' [? E]. split; [done|]. rewrite E. by destruct w.
Qed.

Lemma always_trivial {A} (q : netprog A) h : always net_perform (λ _, True) q h (λ _ _, True).
Proof. revert h. induction q as [a|op k IH]; cbn; auto. Qed.

Lemma leads_net_any {A} (q : netprog A) w : leads (on_net q) w (λ _ w', links w' = links w).
Proof. eapply always_mono; [| |apply leads_net, always_trivial]; [done|]. by intros a w' [_ ->]. Qed.

(** One address of each name that resolved. *)
Definition known (w : Device) (hosts : list bytes) (ips : list IpAddr) : Prop :=
  ∃ found, found `sublist_of` hosts ∧ Forall2 (names w) found ips.

Lemma resolve_all_spec I hosts w : I w → always tun_perform I (resolve_all hosts) w (λ ips w', w' = w ∧ known w hosts ips).
Proof.
  intros HI. induction hosts as [|h hosts IH]; cbn [resolve_all]; [cbn; split; [done|]; by exists []|].
  apply always_bind. intros w' r [-> Hr]. split; [done|]. cbn [always]. apply always_bind. eapply always_post; [|exact IH].
  intros rest ? [-> (found & Hs & Hf)]. cbn [always]. split; [done|].
  destruct r as [ip|]; [exists (h :: found)|exists found; by split; [constructor|]].
  split; [by constructor|]. constructor; [by apply Hr|done].
Qed.

(** An error from before the device was there or after it was named. *)
Definition not_the_device (e : TunnelError) : Prop := e ≠ OpenTunFailed ∧ e ≠ TunNameFailed.

Lemma up_spec st w cfg :
  t_inv st (links w) ∅ →
  leads (up t st cfg) w (λ s w',
    match s.2 with
    | Ok tn => ∃ id, session tn = Some id ∧ t_inv s.1 (links w') {[id]}
    | Err e => not_the_device e → t_inv s.1 (links w') ∅
    end).
Proof.
  intros Hi. unfold up. apply always_bind. intros w1 r [-> _]. split; [done|]. cbn [always]. destruct r as [ip|]; [|by intros _].
  apply always_bind. eapply always_post; [|by apply resolve_all_spec]. intros also ? [-> _]. apply always_bind.
  eapply always_post; [|apply (leads_link (call (Entropy 32)) w (λ _ l, l = links w)); intros l r ->; by split].
  intros nonce w1 [El _]. rewrite <- El in Hi. destruct nonce as [nonce|]; [|by intros _].
  apply always_bind. eapply always_post; [|by apply leads_link, t_connect].
  intros [st1 r] w2 [Hc _]. cbn [fst snd] in *. destruct r as [id|e]; [|by intros _]. destruct Hc as [_ Hi2].
  rewrite union_empty_r_L in Hi2. apply always_bind. eapply always_post; [|apply leads_link, (t_ask st1 _ _ id Hi2)].
  intros assigned w3 [Hi3 _]. apply always_bind. eapply always_post; [|apply leads_link, (t_ask st1 _ _ id Hi3)].
  intros negotiated w4 [Hi4 _]. apply always_bind. intros w5 opened Ho. split; [done|]. cbn [always].
  destruct opened as [tn|]; [|by intros []]. destruct Ho as (_ & nm & ->). apply always_bind. intros w5 name [-> _]. split; [done|].
  cbn [always]. destruct name as [name|]; [|by intros []]. apply always_bind. eapply always_post; [|apply leads_net_any].
  intros armed w5 E5. cbn [links add_tun] in E5. rewrite <- E5 in Hi4. destruct armed.2 as [u|e]; [by exists id|].
  apply always_bind. eapply always_post; [|apply leads_net_any]. intros rollback w6 E6. rewrite <- E6 in Hi4.
  apply always_bind. eapply always_post; [|apply leads_link, (t_close st1 _ {[id]} id Hi4); set_solver].
  intros closed w7 [Hi7 _] _. cbn. by rewrite difference_diag_L in Hi7.
Qed.

Lemma down_spec st w tn live :
  t_inv st (links w) live → live = match session tn with Some id => {[id]} | None => ∅ end →
  leads (down t st tn) w (λ s w', session s.1.2 = None ∧ t_inv s.1.1 (links w') ∅).
Proof.
  intros Hi El. unfold down. apply always_bind. eapply always_post; [|apply leads_net_any].
  intros rollback w1 E1. rewrite <- E1 in Hi. destruct (session tn) as [id|]; subst live; [|done].
  apply always_bind. eapply always_post; [|apply leads_link, (t_close st _ {[id]} id Hi); set_solver].
  intros closed w2 [Hi2 _]. cbn. by rewrite difference_diag_L in Hi2.
Qed.

(** C16.  No session outlives its tunnel: over any transport that keeps the contract, [up] that
    fails after the TUN device was opened and named leaves no session open, and [up] followed by
    [down] leaves none either, even when the host's networking could not be restored.  A single
    MASQUE hop keeps the contract, and so does a path whose hops all carry a grant. *)
Theorem no_session_outlives_tunnel w cfg :
  open_mq (links w) = ∅ → open_pq (links w) = ∅ →
  leads (cycle t t_start cfg) w
    (λ r w', match r with Err e => not_the_device e | Ok _ => True end → open_mq (links w') = ∅ ∧ open_pq (links w') = ∅).
Proof.
  intros E1 E2. unfold cycle. apply always_bind. eapply always_post; [|by apply up_spec, t_begin].
  intros s w1 H1. cbn beta in H1. destruct s.2 as [tn|e]; [|intros He; by eapply t_quiet, H1].
  destruct H1 as (id & Es & Hi). apply always_bind. eapply always_post; [|apply (down_spec s.1 w1 tn {[id]}); [done|by rewrite Es]].
  intros d w2 [_ Hi2] _. by eapply t_quiet.
Qed.

End Sessions.

(** ** The host's networking *)

Section Host.
Context `{Htools : HostTools, Hlaws : !HostToolsLaws, Hfilter : EgressFilter, Hflaws : !EgressFilterLaws}.
Context (t : Transport) (cfg : TunnelConfig) (h0 : Host).

(** What [up] arms with: the node and the fallbacks as the system resolves them, a device that was
    opened. *)
Record arms_with (w : Device) (p : ArmParams) : Prop := {
  aw_node : names w (ep_host (node cfg)) (HostNet.node_ip p);
  aw_also : known w (also_except cfg) (ap_also_except p);
  aw_tun : ∃ id, tuns w !! id = Some (ap_tun_name p);
  aw_dns : ap_dns p = dns cfg;
  aw_switch : ap_kill_switch p = kill_switch cfg;
}.

(** The two worlds name and open alike. *)
Definition same_names (w w' : Device) : Prop := names w' = names w ∧ tuns w' = tuns w.

Lemma arms_with_same w w' p : same_names w w' → arms_with w p → arms_with w' p.
Proof. intros [En Et] [H1 H2 H3 H4 H5]. split; unfold known in *; by rewrite ?En, ?Et. Qed.

Definition guarded (w : Device) : Prop :=
  kill_switch cfg = true → untouched h0 (host w) ∨ ∃ p, arms_with w p ∧ shielded p (host w).

Lemma guarded_here w : host w = h0 → guarded w.
Proof. intros E _. left. by rewrite E. Qed.

Lemma guarded_safe w p : arms_with w p → safe h0 p (host w) → guarded w.
Proof. intros Hp Hs Hk. destruct Hs as [?|?]; [by rewrite (aw_switch _ _ Hp)|right; by exists p|by left]. Qed.

Lemma guarded_set_links l w : guarded w → guarded (set_links l w).
Proof. intros G Hk. destruct (G Hk) as [?|(p & Hp & ?)]; [by left|right]. exists p. split; [by apply (arms_with_same w)|done]. Qed.

(** Actions that leave the host alone. *)
Lemma guarded_link {A} (q : linkprog A) w : guarded w → always tun_perform guarded (on_link q) w (λ _ w', ∃ l, w' = set_links l w).
Proof.
  revert w. induction q as [a|op k IH]; intros w G; cbn [on_link].
  { exists (links w). by destruct w. }
  intros w' r (l & _ & ->). split; [by apply guarded_set_links|]. eapply always_post; [|by apply IH, guarded_set_links].
  intros a w'' [l' ->]. by exists l'.
Qed.

Lemma guarded_net {A} p (q : netprog A) w Q :
  arms_with w p → always net_perform (safe h0 p) q (host w) Q →
  always tun_perform guarded (on_net q) w (λ a w', Q a (host w') ∧ arms_with w' p).
Proof.
  intros Hp H. assert (Hset : ∀ h, arms_with (set_host h w) p) by (intros h; by apply (arms_with_same w)).
  eapply always_mono; [| |by apply leads_net].
  - intros w' [Hs E]. eapply guarded_safe; [|exact Hs]. rewrite E. apply Hset.
  - intros a w' [? E]. split; [done|]. rewrite E. apply Hset.
Qed.

(** What [up] leaves behind: a journal of what is to be undone, or a host that was not touched,
    or one that [teardown] has gone over. *)
Definition left_by_up (r : result TunnelError Tunnel) (w : Device) : Prop :=
  match r with
  | Ok tn => ∃ p, arms_with w p ∧ journal h0 p (net tn) (host w)
  | Err (ArmFailed _) => ∃ p, arms_with w p ∧ (tame h0 p → restored h0 (host w))
  | Err (ArmAndRollbackFailed _ _) => True
  | Err _ => host w = h0
  end.

(** From the device on. *)
Lemma arm_guarded st id tn p w :
  fresh_host h0 → host w = h0 → arms_with w p →
  always tun_perform guarded
    (let* armed := on_net (arm p linux_default) in
     match armed.2 with
     | Ok _ => Ret (st, Ok {| session := Some id; net := armed.1; tun := tn |})
     | Err e =>
         let* rollback := on_net (teardown armed.1) in
         let* closed := on_link (close t st id) in
         Ret (closed.1, Err match rollback.2 with Ok _ => ArmFailed e | Err r => ArmAndRollbackFailed e r end)
     end) w (λ s w', left_by_up s.2 w').
Proof.
  intros Hf E Hp. apply always_bind. eapply always_post; [|apply (guarded_net p); [done|]; rewrite E; by apply arm_spec].
  intros armed w5 [J Hp5]. cbn beta in J. destruct armed.2 as [u|e]; [by exists p|]. apply always_bind.
  eapply always_post; [|apply (guarded_net p); [done|]; by apply teardown_spec]. intros rb w6 [[J6 H6] Hp6].
  assert (G6 : guarded w6) by (eapply guarded_safe; [done|by eapply journal_safe]). apply always_bind.
  eapply always_post; [|by apply guarded_link]. intros cl w7 [l ->]. cbn [always fst snd].
  destruct rb.2 as [[]|e']; [|done]. exists p. split; [by apply (arms_with_same w6)|]. intros T.
  eapply journal_restored; [done|exact J6|done|]. by apply H6.
Qed.

Lemma up_guarded st w :
  fresh_host h0 → host w = h0 → always tun_perform guarded (up t st cfg) w (λ s w', left_by_up s.2 w').
Proof.
  intros Hf E. unfold up. pose proof (guarded_here w E) as G. apply always_bind. intros w1 r [-> Hn]. split; [done|]. cbn [always].
  destruct r as [ip|]; [|done]. apply always_bind. eapply always_post; [|by apply resolve_all_spec]. intros also ? [-> Hk].
  assert (Gl : ∀ l, guarded (set_links l w)) by (intros l; by apply guarded_set_links).
  apply always_bind. eapply always_post; [|by apply guarded_link]. intros nonce w1 [l1 ->]. destruct nonce as [nonce|]; [|done].
  apply always_bind. eapply always_post; [|apply guarded_link; exact (Gl _)]. intros conn w2 [l2 ->]. destruct conn.2 as [id|e]; [|done].
  apply always_bind. eapply always_post; [|apply guarded_link; exact (Gl _)]. intros assigned w3 [l3 ->].
  apply always_bind. eapply always_post; [|apply guarded_link; exact (Gl _)]. intros m w4 [l4 ->].
  apply always_bind. intros w5 opened Ho. destruct opened as [tn|].
  2:{ cbn in Ho. subst w5. split; [exact (Gl _)|exact E]. }
  destruct Ho as (_ & nm & ->). split; [apply guarded_here; exact E|]. cbn [always].
  apply always_bind. intros w5 name [-> Hnm]. split; [apply guarded_here; exact E|]. cbn [always]. destruct name as [name|]; [|done].
  apply (arm_guarded conn.1 id tn); [done|exact E|]. split; cbn; try done; [by apply Hn|]. exists tn. by apply Hnm.
Qed.

Lemma down_guarded p st w tn :
  fresh_host h0 → arms_with w p → journal h0 p (net tn) (host w) →
  always tun_perform guarded (down t st tn) w
    (λ s w', arms_with w' p ∧ journal h0 p (net s.1.2) (host w') ∧ (s.2 = Ok tt → tame h0 p → restored h0 (host w'))).
Proof.
  intros Hf Hp J. unfold down. apply always_bind. eapply always_post; [|apply (guarded_net p); [done|]; by apply teardown_spec].
  intros rb w1 [[J1 H1] Hp1]. assert (G1 : guarded w1) by (eapply guarded_safe; [done|by eapply journal_safe]).
  assert (R : rb.2 = Ok tt → tame h0 p → restored h0 (host w1)) by (intros E T; eapply journal_restored; try done; by apply H1).
  destruct (session tn) as [id|]; [|done]. apply always_bind. eapply always_post; [|by apply guarded_link].
  intros cl w2 [l ->]. cbn [always fst snd net]. split_and!; [by apply (arms_with_same w1)|done|done].
Qed.

(** C12.  A tunnel fails closed from beginning to end: with the kill switch configured, and none of
    its firewall rules on the host to begin with, at every moment of [up] and [down] - names being resolved, the session dialled, commands of the set-up
    or the roll-back failing, the session closed - either every packet that leaves the host goes
    into the TUN device or to a node that was resolved, or the default routes and the resolver are
    those it had before.  When [down] reports success, and the nodes' host routes are distinct and
    had no metric of their own, the host is as it was. *)
Theorem tunnel_fails_closed st w :
  fresh_host h0 → host w = h0 → kill_switch cfg = true →
  always tun_perform (λ w', untouched h0 (host w') ∨ ∃ p, arms_with w' p ∧ shielded p (host w')) (cycle t st cfg) w
    (λ r w', r = Ok (Ok tt) → (∀ p, arms_with w' p → tame h0 p) → restored h0 (host w')).
Proof.
  intros Hf E Hk. eapply always_mono with (I := guarded); [|exact (λ _ _ H, H)|].
  { intros w' G. by apply G. }
  unfold cycle. apply always_bind. eapply always_post; [|by apply up_guarded]. intros s w1 HL. cbn beta in HL.
  destruct s.2 as [tn|e]; [|done]. destruct HL as (p & Hp & J). apply always_bind.
  eapply always_post; [|by apply (down_guarded p)]. intros d w2 (Hp2 & _ & R). cbn [always]. intros [= Ed] T. auto.
Qed.

End Host.
