(* ===== verification/TunnelRuns.v ===== *)
(** * The tunnel controller, run

    [Tunnel::up] and [Tunnel::down] over a MASQUE hop and over a path of two hops, on the hosts of
    [HostLive]: the theorem of [Datapath] at work, and where the code leaves a session behind or
    an address unused. *)

From S2P Require Import Prelude.
From S2P Require Import Net.
From S2P Require Import Prog.
From S2P Require Import World.
From S2P Require Import Grant.
From S2P Require Import ClientPath.
From S2P Require Import Onion.
From S2P Require Import HostNet.
From S2P Require Import KillSwitch.
From S2P Require Import HostRoutes.
From S2P Require Import HostRuns.
From S2P Require Import HostLive.
From S2P Require Import Datapath.
From Stdlib Require Import Strings.Byte ZArith Lia.
From stdpp Require Import prelude gmap sets strings.

Import Toy.

(** ** An environment *)

Definition next_id (used : gset Z) : Z := 1 + set_fold Z.max 0%Z used.

Definition take_link (fails : LinkOp → bool) (op : LinkOp) (w : Links) : Links * link_answer op :=
  let mq id := {| open_mq := open_mq w ∖ {[id]}; open_pq := open_pq w |} in
  match op with
  | MqConnect h g c =>
      let id := next_id (open_mq w) in
      if fails (MqConnect h g c) || bool_decide (id ∈ open_mq w) then (w, None)
      else ({| open_mq := {[id]} ∪ open_mq w; open_pq := open_pq w |}, Some id)
  | MqClose id => (mq id, true)
  | PqWrap id k =>
      let q := next_id (dom (open_pq w)) in
      if fails (PqWrap id k) || bool_decide (is_Some (open_pq w !! q)) then (w, None)
      else ({| open_mq := open_mq w; open_pq := <[q := id]> (open_pq w) |}, Some q)
  | PqClose q =>
      (match open_pq w !! q with
       | Some id => {| open_mq := open_mq w ∖ {[id]}; open_pq := delete q (open_pq w) |}
       | None => w
       end, true)
  | MqAssigned _ => (w, Some (Ipv4 x0a x4a x00 x09))
  | MqMtu _ | PqMtu _ => (w, Some 1232%Z)
  | Entropy n => (w, if fails (Entropy n) then None else Some (replicate n x07))
  end.

Lemma take_link_perform fails op w : link_perform op w (take_link fails op w).1 (take_link fails op w).2.
Proof.
  destruct op as [h g c|id|id k|q|id|id|id|n]; cbn; try done.
  - destruct (fails _); cbn; [done|]. by case_bool_decide.
  - destruct (fails _); cbn; [done|]. case_bool_decide as H; [done|]. split; [|done]. by apply eq_None_not_Some.
Qed.

Definition next_tun (w : Device) : Z := next_id (dom (tuns w)).

Definition take_tun (fails : LinkOp → bool) (device : bool) (op : TunOp) (w : Device) : Device * tun_answer op :=
  match op with
  | OnLink op => let r := take_link fails op (links w) in (set_links r.1 w, r.2)
  | OnNet op => let r := env works op (host w) in (set_host r.1 w, r.2)
  | Resolve _ => (w, Some w_node)
  | OpenTun _ _ _ _ name =>
      if device && bool_decide (tuns w !! next_tun w = None) then (add_tun (next_tun w) name w, Some (next_tun w)) else (w, None)
  | TunName id => (w, tuns w !! id)
  end.

(** Every name has the node's address. *)
Definition knows_node (w : Device) : Prop := ∀ name, names w name w_node.

Lemma take_tun_perform fails device op w :
  knows_node w → tun_perform op w (take_tun fails device op w).1 (take_tun fails device op w).2 ∧ knows_node (take_tun fails device op w).1.
Proof.
  intros Hn. destruct op as [op|op|h|ip pre peer m name|tn]; cbn.
  - split; [|done]. eexists. split; [apply take_link_perform|done].
  - split; [|done]. eexists. split; [apply env_perform|done].
  - split; [|done]. split; [done|]. intros ip [= <-]. apply Hn.
  - destruct device; cbn; [|done]. case_bool_decide; cbn; [|done]. split; [|done]. split; [done|]. by eexists.
  - done.
Qed.

Fixpoint takes {A} (fails : LinkOp → bool) (device : bool) (q : tunprog A) (w : Device) : A * Device :=
  match q with
  | Ret a => (a, w)
  | Do op k => let r := take_tun fails device op w in takes fails device (k r.2) r.1
  end.

Lemma takes_goes {A} fails device (q : tunprog A) w :
  knows_node w → goes tun_perform q w (Ret (takes fails device q w).1) (takes fails device q w).2.
Proof.
  revert w. induction q as [a|op k IH]; intros w Hn; cbn [takes]; [constructor|].
  destruct (take_tun_perform fails device op w Hn) as [Hp Hn']. eapply goes_on; [exact Hp|by apply IH].
Qed.

(** ** Where the session stays *)

Definition hop_at (grant : option Grant) (wg : option bytes) : NodeEndpoint :=
  {| ep_host := str "203.0.113.5"; ep_port := 443%Z; ep_kind := KMasque; ep_wg_pub := wg; ep_expected := None; ep_grant := grant |}.

Definition a_grant : Grant := {| g_token := str "token"; g_nonce := replicate 32 x05 |}.

Definition two_hops : list NodeEndpoint := [hop_at (Some a_grant) (Some (replicate 32 x01)); hop_at (Some a_grant) (Some (replicate 32 x02))].

Definition w_cfg : TunnelConfig :=
  {| node := hop_at (Some a_grant) (Some (replicate 32 x01)); tun_name := str "nil0"; client_ip := Ipv4 x0a x4a x00 x02;
     peer_ip := Ipv4 x0a x4a x00 x01; Datapath.prefix := 24; mtu := 1280; dns := [V4 (Ipv4 x0a x4a x00 x01)]; kill_switch := true;
     also_except := [] |}.

Definition quiet_device : Device := {| links := {| open_mq := ∅; open_pq := ∅ |}; host := w_host; names := λ _ ip, ip = w_node; tuns := ∅ |}.

Lemma two_hops_grants : Forall (λ hop, is_Some (ep_grant hop)) two_hops.
Proof. repeat constructor; by eexists. Qed.

Definition all_well (op : LinkOp) : bool := false.

(** A path of two hops, both with a WireGuard key. *)
Lemma no_session_outlives_tunnel_witness :
  open_mq (links (takes all_well true (up (PathTransport two_hops) {| onion := ∅; pq_exits := ∅ |} w_cfg) quiet_device).2) = {[1; 2]}%Z ∧
  always tun_perform (λ _, True) (cycle (PathTransport two_hops) {| onion := ∅; pq_exits := ∅ |} w_cfg) quiet_device
    (λ r w', match r with Err e => not_the_device e | Ok _ => True end → open_mq (links w') = ∅ ∧ open_pq (links w') = ∅).
Proof.
  split; [vm_compute; reflexivity|].
  exact (no_session_outlives_tunnel (t := PathTransport two_hops) (Hspec := path_spec two_hops two_hops_grants)
    quiet_device w_cfg eq_refl eq_refl).
Defined.

(** One node and no fallbacks. *)
Lemma lone_node_tame cfg w p : also_except cfg = [] → names w = names quiet_device → arms_with cfg w p → tame w_host p.
Proof.
  intros Ea En [H1 (found & Hs & Hf) _ _ _]. rewrite En in H1. cbn in H1. rewrite Ea in Hs. apply sublist_nil_r in Hs as ->. apply Forall2_nil_inv_l in Hf.
  destruct p as [ip tn ds ks also]. cbn [ap_also_except HostNet.node_ip] in *. subst.
  split; cbn [ap_also_except HostNet.node_ip fmap list_fmap]; [apply NoDup_singleton|]. repeat constructor.
Qed.

Definition w_cycle : result TunnelError (result NetError unit) * Device := takes all_well true (cycle MasqueTransport tt w_cfg) quiet_device.

Lemma tunnel_fails_closed_witness : w_cycle.1 = Ok (Ok tt) ∧ restored w_host (host w_cycle.2).
Proof.
  assert (E : w_cycle.1 = Ok (Ok tt)) by (vm_compute; reflexivity). split; [exact E|].
  assert (Hg : goes tun_perform (cycle MasqueTransport tt w_cfg) quiet_device (Ret w_cycle.1) w_cycle.2)
    by exact (takes_goes all_well true (cycle MasqueTransport tt w_cfg) quiet_device (λ _, eq_refl)).
  pose proof (tunnel_fails_closed MasqueTransport w_cfg w_host tt quiet_device w_fresh eq_refl eq_refl) as H.
  apply (proj1 (always_goes _ _ _ _ _ _ _ H Hg)); [exact E|]. intros p. apply lone_node_tame; vm_compute; reflexivity.
Defined.

(** The TUN device cannot be opened: [up] fails, and the session it connected stays open. *)
Example device_failure_leaves_session :
  let s := takes all_well false (up MasqueTransport tt w_cfg) quiet_device in
  goes tun_perform (up MasqueTransport tt w_cfg) quiet_device (Ret s.1) s.2 ∧
  s.1.2 = Err OpenTunFailed ∧ open_mq (links s.2) = {[1%Z]}.
Proof. split; [by apply takes_goes|]. vm_compute. split; reflexivity. Qed.

(** The second hop has no grant and the system no entropy left: [connect] fails, and the first hop
    stays open. *)
Definition half_granted : list NodeEndpoint := [hop_at (Some a_grant) None; hop_at None None].

Definition no_path_entropy (op : LinkOp) : bool := match op with Entropy _ => true | _ => false end.

Example entropy_failure_leaves_hop :
  let q := on_link (path_connect half_granted {| onion := ∅; pq_exits := ∅ |} (hop_at None None) a_grant) in
  let s := takes no_path_entropy true q quiet_device in
  goes tun_perform q quiet_device (Ret s.1) s.2 ∧
  s.1.2 = Err PathEntropy ∧ open_mq (links s.2) = {[1%Z]} ∧ onion s.1.1 = ∅.
Proof. split; [by apply takes_goes|]. vm_compute. split_and!; reflexivity. Qed.

(** ** The address of a path *)

Definition configured_address (cfg : TunnelConfig) (_ : list (Act tun_answer)) (op : TunOp) : Prop :=
  match op with OpenTun ip _ _ _ _ => ip = client_ip cfg | _ => True end.

Lemma rg_on_link {A} cfg (q : linkprog A) l Q : (∀ l a, Q l a) → rg (λ _, True) (configured_address cfg) l (on_link q) Q.
Proof. intros HQ. revert l. induction q as [a|op k IH]; intros l; cbn [on_link rg]; [done|]. split; [done|]. auto. Qed.

Lemma rg_on_net {A} cfg (q : netprog A) l Q : (∀ l a, Q l a) → rg (λ _, True) (configured_address cfg) l (on_net q) Q.
Proof. intros HQ. revert l. induction q as [a|op k IH]; intros l; cbn [on_net rg]; [done|]. split; [done|]. auto. Qed.

Lemma rg_resolve_all cfg hosts l Q : (∀ l a, Q l a) → rg (λ _, True) (configured_address cfg) l (resolve_all hosts) Q.
Proof.
  revert l Q. induction hosts as [|h hosts IH]; intros l Q HQ; cbn [resolve_all]; [apply HQ|].
  apply rg_bind. apply rg_call; [done|]. intros r _. apply rg_bind, IH. intros. apply HQ.
Qed.

(** A path says nothing of the address its exit assigned: whatever the hops answer, the TUN device
    of a tunnel over a path has the configured address. *)
Theorem path_keeps_configured_address hops st cfg :
  rg (λ _, True) (configured_address cfg) [] (up (PathTransport hops) st cfg) (λ _ _, True).
Proof.
  unfold up. apply rg_bind, rg_call; [done|]. intros [ip|] _; [|done].
  apply rg_bind, rg_resolve_all. intros l1 also. apply rg_bind, rg_on_link. intros l2 [nonce|]; [|done].
  apply rg_bind, rg_on_link. intros l3 [st1 [id|e]]; [|done]. cbn [fst snd assigned_ip PathTransport assigned_ip_default on_link prog_bind].
  apply rg_bind, rg_on_link. intros l4 m. apply rg_bind, rg_call; [done|]. intros [tn|] _; [|done].
  apply rg_bind, rg_call; [done|]. intros [name|] _; [|done]. apply rg_bind, rg_on_net. intros l5 [net [u|e]]; [done|].
  cbn [fst snd]. apply rg_bind, rg_on_net. intros l6 r. apply rg_bind, rg_on_link. done.
Qed.
