(* ===== verification/Pumps.v ===== *)
(** * The packet pumps ([crates/nil-datapath/src/lib.rs], [spawn_pumps])

    Two tasks move packets between the TUN device and the transport; they share a token that
    [Tunnel::down] or a dying pump cancels, and a token that tells the engine that a pump died.
    The tasks run interleaved with each other and with the engine, one await at a time. *)

From S2P Require Import Prelude.
From S2P Require Import Net.
From S2P Require Import Checksum.
From Stdlib Require Import Strings.Byte ZArith Lia.
From stdpp Require Import prelude strings.

(** ** State *)

(** [Await]: in [select!].  [Handing pkt]: in the [send] of the branch taken, where cancellation
    is not looked at.  [Dying], [Telling]: out of the loop, before [dead.cancel()] and before
    [cancel.cancel()]. *)
Inductive PumpPhase := Await | Handing (pkt : bytes) | Dying | Telling | Finished.

(** A pump, with the packets it took and those it handed on. *)
Record Pump := { phase : PumpPhase; taken : list bytes; handed : list bytes }.

Inductive Side := ToWire | FromWire.

#[global] Instance Side_eq_dec : EqDecision Side.
Proof. solve_decision. Defined.

(** [Tunnel::down]: cancels, awaits the pumps, and goes on to the roll-back. *)
Inductive Owner := Running | Joining | Joined.

Record Pumps := { pump : Side → Pump; cancel : bool; pump_dead : bool; owner : Owner }.

Definition is_up (s : Pumps) : bool := negb (pump_dead s).

Definition new_pump : Pump := {| phase := Await; taken := []; handed := [] |}.
Definition spawn_pumps : Pumps := {| pump := λ _, new_pump; cancel := false; pump_dead := false; owner := Running |}.

(** ** The code *)

(** What a pump does to a packet between its two ends. *)
Definition prepare (side : Side) (pkt : bytes) : bytes :=
  match side with ToWire => fix_l4_checksums pkt | FromWire => pkt end.

(** The TUN side reads into a buffer of 65535 bytes. *)
Definition fits (side : Side) (pkt : bytes) : bool :=
  match side with ToWire => (length pkt <=? 65535)%nat | FromWire => true end.

(** What the awaited futures of a pump come to. *)
Inductive Event := Cancelled | Received (pkt : bytes) | ReceiveFailed | HandedOn | HandFailed | Goes.

Record PumpStep := { next : Pump; sets_dead : bool; sets_cancel : bool }.

Definition quietly (p : Pump) : option PumpStep := Some {| next := p; sets_dead := false; sets_cancel := false |}.
Definition at_phase (ph : PumpPhase) (p : Pump) : Pump := {| phase := ph; taken := taken p; handed := handed p |}.

Definition pump_step (side : Side) (cancel : bool) (p : Pump) (ev : Event) : option PumpStep :=
  match phase p, ev with
  | Await, Cancelled => if cancel then quietly (at_phase Finished p) else None
  | Await, Received pkt =>
      if fits side pkt
      then quietly {| phase := Handing (prepare side pkt); taken := taken p ++ [pkt]; handed := handed p |}
      else None
  | Await, ReceiveFailed => quietly (at_phase Dying p)
  | Handing pkt, HandedOn => quietly {| phase := Await; taken := taken p; handed := handed p ++ [pkt] |}
  | Handing _, HandFailed => quietly (at_phase Dying p)
  | Dying, Goes => Some {| next := at_phase Telling p; sets_dead := true; sets_cancel := false |}
  | Telling, Goes => Some {| next := at_phase Finished p; sets_dead := false; sets_cancel := true |}
  | _, _ => None
  end.

Definition set_pump (side : Side) (p : Pump) (f : Side → Pump) : Side → Pump :=
  λ s, if decide (s = side) then p else f s.

(** ** Interleavings *)

Inductive step : Pumps → Pumps → Prop :=
  | step_pump s side ev st :
      pump_step side (cancel s) (pump s side) ev = Some st →
      step s {| pump := set_pump side (next st) (pump s); cancel := cancel s || sets_cancel st;
                pump_dead := pump_dead s || sets_dead st; owner := owner s |}
  | step_down s :
      owner s = Running → step s {| pump := pump s; cancel := true; pump_dead := pump_dead s; owner := Joining |}
  | step_joined s :
      owner s = Joining → (∀ side, phase (pump s side) = Finished) →
      step s {| pump := pump s; cancel := cancel s; pump_dead := pump_dead s; owner := Joined |}.

Definition reachable (s : Pumps) : Prop := rtc step spawn_pumps s.

(** ** Invariant *)

(** Of the packets taken all were handed on, in order, but for the last of them at most. *)
Definition in_order (side : Side) (p : Pump) : Prop :=
  ∃ rest, prepare side <$> taken p = handed p ++ rest ∧
    match phase p with Await => rest = [] | Handing pkt => rest = [pkt] | _ => length rest ≤ 1 end.

(** A pump that ended, ended because it was told to. *)
Definition told (s : Pumps) (p : Pump) : Prop :=
  match phase p with Telling => pump_dead s = true | Finished => cancel s = true | _ => True end.

Record pumps_inv (s : Pumps) : Prop := {
  pi_order side : in_order side (pump s side);
  pi_told side : told s (pump s side);
  pi_cancel : cancel s = true → pump_dead s = true ∨ owner s ≠ Running;
  pi_joined : owner s = Joined → ∀ side, phase (pump s side) = Finished;
  pi_joining : owner s ≠ Running → cancel s = true;
}.

Lemma pump_step_order side c p ev st : pump_step side c p ev = Some st → in_order side p → in_order side (next st).
Proof.
  intros Hs (rest & E & Hr). unfold pump_step, quietly in Hs. unfold in_order.
  destruct (phase p) as [|pkt| | |], ev as [|q| | | |]; try discriminate.
  - destruct c; [|done]. injection Hs as <-. exists rest. split; [done|]. subst rest. cbn. lia.
  - destruct (fits side q); [|done]. injection Hs as <-. exists [prepare side q]. cbn. rewrite fmap_app, E, Hr, app_nil_r. done.
  - injection Hs as <-. exists rest. split; [done|]. subst rest. cbn. lia.
  - injection Hs as <-. exists []. cbn. by rewrite E, Hr, app_nil_r.
  - injection Hs as <-. exists rest. split; [done|]. subst rest. cbn. lia.
  - injection Hs as <-. by exists rest.
  - injection Hs as <-. by exists rest.
Qed.

Lemma pump_step_told side s p ev st :
  pump_step side (cancel s) p ev = Some st → told s p →
  match phase (next st) with
  | Telling => sets_dead st = true
  | Finished => cancel s || sets_cancel st = true
  | _ => True
  end ∧ (sets_cancel st = true → pump_dead s = true).
Proof.
  unfold pump_step, quietly, told. destruct (phase p) as [|pkt| | |], ev as [|q| | | |]; try discriminate.
  - destruct (cancel s); [|done]. by intros [= <-].
  - destruct (fits side q); [|done]. by intros [= <-].
  - by intros [= <-].
  - by intros [= <-].
  - by intros [= <-].
  - by intros [= <-].
  - intros [= <-] H. cbn. by rewrite orb_true_r.
Qed.

Lemma finished_stays side c p ev st : pump_step side c p ev = Some st → phase p ≠ Finished.
Proof. unfold pump_step. by destruct (phase p). Qed.

Lemma set_pump_ind (P : Side → Pump → Prop) side p f : P side p → (∀ s, s ≠ side → P s (f s)) → ∀ s, P s (set_pump side p f s).
Proof. intros H1 H2 s. unfold set_pump. case_decide; [by subst|auto]. Qed.

Lemma step_inv s s' : step s s' → pumps_inv s → pumps_inv s'.
Proof.
  intros Hs [Ho Ht Hc Hj Hg]. destruct Hs as [s side ev st Hst|s Hr|s Hr Hall].
  - destruct (pump_step_told _ _ _ _ _ Hst (Ht side)) as [Hnew Hsc].
    split; cbn [pump cancel pump_dead owner].
    + apply set_pump_ind; [by eapply pump_step_order|auto].
    + apply (set_pump_ind (λ _, told _)); unfold told; cbn [cancel pump_dead].
      * destruct (phase (next st)); try done. by rewrite Hnew, orb_true_r.
      * intros s2 _. pose proof (Ht s2) as H2. unfold told in H2. by destruct (phase (pump s s2)); rewrite ?H2.
    + intros [Hcs|Hsets]%orb_true_iff; [destruct (Hc Hcs) as [->|?]; auto|]. left. by rewrite Hsc.
    + intros Hown. by destruct (finished_stays _ _ _ _ _ Hst), (Hj Hown side).
    + intros Hown. by rewrite Hg.
  - split; cbn [pump cancel pump_dead owner]; try done.
    + intros side. pose proof (Ht side) as H. unfold told in *. cbn. by destruct (phase (pump s side)).
    + by right.
  - split; cbn [pump cancel pump_dead owner]; try done.
    + by right.
    + intros _. apply Hg. congruence.
Qed.

Lemma pumps_reachable_inv s : reachable s → pumps_inv s.
Proof.
  apply (rtc_ind_r pumps_inv); [|intros s1 s2 _ Hs; by apply step_inv].
  split; cbn; try done. intros side. by exists [].
Qed.

(** ** What the engine relies on *)

(** C39.  The pumps keep packets and their order: each side has handed on exactly the packets it
    took, finalised, in the order it took them, but for at most the one it is handing on or failed
    to; and a pump that ended while nobody took the tunnel down has told the engine. *)
Theorem pumps_keep_order_and_tell s :
  reachable s →
  (∀ side, ∃ rest, length rest ≤ 1 ∧ prepare side <$> taken (pump s side) = handed (pump s side) ++ rest) ∧
  (owner s = Running → (∃ side, phase (pump s side) = Finished) → is_up s = false).
Proof.
  intros Hr%pumps_reachable_inv. split.
  - intros side. destruct (pi_order _ Hr side) as (rest & E & Hrest). exists rest. split; [|done].
    by destruct (phase _); subst; cbn; try lia.
  - intros Hown (side & Hf). pose proof (pi_told _ Hr side) as Ht. unfold told in Ht. rewrite Hf in Ht.
    unfold is_up. by destruct (pi_cancel _ Hr Ht) as [->|?].
Qed.

(** *** Ending *)

Definition rank (p : Pump) : nat :=
  match phase p with Handing _ | Dying => 2 | Await | Telling => 1 | Finished => 0 end.

(** A pump that looks at the token next has an event that takes it nearer to its end. *)
Lemma pump_heeds side p : 0 < rank p → ∃ ev st, pump_step side true p ev = Some st ∧ rank (next st) < rank p.
Proof.
  unfold rank, pump_step. destruct (phase p) as [|pkt| | |] eqn:Hp; intros Hr.
  - exists Cancelled. eexists. split; [done|]. cbn. lia.
  - exists HandedOn. eexists. split; [done|]. cbn. lia.
  - exists Goes. eexists. split; [done|]. cbn. lia.
  - exists Goes. eexists. split; [done|]. cbn. lia.
  - lia.
Qed.

Definition ranks (s : Pumps) : nat := rank (pump s ToWire) + rank (pump s FromWire).

Lemma pumps_heed s : cancel s = true → 0 < ranks s → ∃ s', step s s' ∧ cancel s' = true ∧ owner s' = owner s ∧ ranks s' < ranks s.
Proof.
  intros Hc Hr. assert (∃ side, 0 < rank (pump s side)) as [side Hside].
  { unfold ranks in Hr. destruct (rank (pump s ToWire)) eqn:E; [exists FromWire|exists ToWire]; lia. }
  destruct (pump_heeds side _ Hside) as (ev & st & Hst & Hlt). eexists. split_and!.
  - apply (step_pump s side ev st). by rewrite Hc.
  - cbn. by rewrite Hc.
  - done.
  - unfold ranks in *. cbn [pump]. unfold set_pump. destruct side; cbn [decide Side_eq_dec decide_rel]; simplify_option_eq; lia.
Qed.

Lemma pumps_join s : cancel s = true → owner s = Joining → ∃ s', rtc step s s' ∧ owner s' = Joined.
Proof.
  remember (ranks s) as n eqn:En. revert s En. induction (lt_wf n) as [n _ IH]. intros s -> Hc Ho.
  destruct (decide (ranks s = 0)) as [Hz|Hn].
  - eexists. split; [apply rtc_once, step_joined; [done|]|done]. intros side. unfold ranks, rank in Hz.
    destruct side; destruct (phase (pump s ToWire)), (phase (pump s FromWire)); done || lia.
  - destruct (pumps_heed s Hc) as (s1 & Hs1 & Hc1 & Ho1 & Hlt); [lia|].
    destruct (IH _ Hlt s1) as (s' & Hr & Hj); [done|done|congruence|]. exists s'. split; [by eapply rtc_l|done].
Qed.

(** Taking a tunnel down never gets stuck on its pumps: from every state the pumps and the
    engine can be in, [down] can be called, the pumps end and [down] goes on to the roll-back; and
    it does not go on before both have ended. *)
Theorem down_joins_the_pumps s :
  reachable s →
  (∃ s', rtc step s s' ∧ owner s' = Joined) ∧ (owner s = Joined → ∀ side, phase (pump s side) = Finished).
Proof.
  intros Hr%pumps_reachable_inv. split; [|by apply pi_joined]. destruct (owner s) eqn:Ho.
  - destruct (pumps_join {| pump := pump s; cancel := true; pump_dead := pump_dead s; owner := Joining |}) as (s' & Hs & Hj); [done..|].
    exists s'. split; [|done]. eapply rtc_l; [|exact Hs]. by apply step_down.
  - apply pumps_join; [|done]. apply (pi_joining _ Hr). by rewrite Ho.
  - by exists s.
Qed.

(** ** A run *)

Fixpoint play (evs : list (Side * Event)) (s : Pumps) : option Pumps :=
  match evs with
  | [] => Some s
  | (side, ev) :: evs =>
      st ← pump_step side (cancel s) (pump s side) ev;
      play evs {| pump := set_pump side (next st) (pump s); cancel := cancel s || sets_cancel st;
                  pump_dead := pump_dead s || sets_dead st; owner := owner s |}
  end.

Lemma play_steps evs s s' : play evs s = Some s' → rtc step s s'.
Proof.
  revert s. induction evs as [|[side ev] evs IH]; intros s; cbn [play]; [by intros [= ->]|].
  destruct (pump_step side (cancel s) (pump s side) ev) as [st|] eqn:E; [|done]. cbn [mbind option_bind].
  intros H. eapply rtc_l; [by apply (step_pump s side ev)|by apply IH].
Qed.

(** A packet each way, then the transport fails the sender and the other pump follows. *)
Definition sender_dies : list (Side * Event) :=
  [(ToWire, Received (str "one")); (FromWire, Received (str "two")); (ToWire, HandedOn); (ToWire, Received (str "three"));
   (FromWire, HandedOn); (ToWire, HandFailed); (ToWire, Goes); (ToWire, Goes); (FromWire, Cancelled)].

Definition after_death : Pumps := default spawn_pumps (play sender_dies spawn_pumps).

Lemma after_death_reachable : reachable after_death.
Proof. apply (play_steps sender_dies). vm_compute. reflexivity. Qed.

Lemma pumps_keep_order_and_tell_witness :
  taken (pump after_death ToWire) = [str "one"; str "three"] ∧ handed (pump after_death ToWire) = [str "one"] ∧
  is_up after_death = false.
Proof.
  split_and!; [vm_compute; reflexivity..|].
  apply (pumps_keep_order_and_tell after_death after_death_reachable); [vm_compute; reflexivity|].
  exists FromWire. vm_compute. reflexivity.
Defined.

Lemma down_joins_the_pumps_witness : ∃ s', rtc step after_death s' ∧ owner s' = Joined.
Proof. exact (proj1 (down_joins_the_pumps after_death after_death_reachable)). Defined.
