(* ===== verification/Nested.v ===== *)
(** * Nested hops ([crates/nil-transport/src/udpip.rs], [masque/mod.rs], [pqwg.rs])

    How the QUIC packets of an inner hop ride an outer tunnel: the IPv4/UDP wrapping, the packet
    channel over it, the size budget of each hop, and what a relaying node makes of such a
    packet. *)

From S2P Require Import Prelude.
From S2P Require Import Net.
From S2P Require Import ConnectIp.
From S2P Require Import Checksum.
From S2P Require Import NodeServer.
From S2P Require Import NodeGate.
From Stdlib Require Import Strings.Byte ZArith Lia.
From stdpp Require Import prelude gmap.

Local Open Scope Z_scope.

(** ** [udpip.rs] *)

Definition IPV4_HDR : nat := 20.
Definition UDP_HDR : nat := 8.
Definition PROTO_UDP : Z := 17.

(** [as u16] on both lengths. *)
Definition as_u16 (n : nat) : Z := Z.of_nat n mod 2 ^ 16.

(** The packet before its checksums. *)
Definition unsummed (src dst : SocketAddrV4) (payload : bytes) : bytes :=
  [x45; x00] ++ be_bytes 2 (as_u16 (IPV4_HDR + UDP_HDR + length payload)) ++ [x00; x00; x40; x00; x40; z2b PROTO_UDP; x00; x00]
  ++ octets (sa_ip src) ++ octets (sa_ip dst)
  ++ be_bytes 2 (sa_port src) ++ be_bytes 2 (sa_port dst) ++ be_bytes 2 (as_u16 (UDP_HDR + length payload)) ++ [x00; x00]
  ++ payload.

Definition wrap (src dst : SocketAddrV4) (payload : bytes) : bytes := fix_ipv4_checksums (unsummed src dst payload).

Definition unwrap (pkt : bytes) : option (SocketAddrV4 * SocketAddrV4 * bytes) :=
  if (length pkt <? IPV4_HDR)%nat || negb (Z.shiftr (b2z (at_ pkt 0)) 4 =? 4) then None
  else
    let ihl := (Z.to_nat (Z.land (b2z (at_ pkt 0)) 0x0f) * 4)%nat in
    if (ihl <? IPV4_HDR)%nat || negb (b2z (at_ pkt 9) =? PROTO_UDP) || (length pkt <? ihl + UDP_HDR)%nat then None
    else
      let src_ip := Ipv4 (at_ pkt 12) (at_ pkt 13) (at_ pkt 14) (at_ pkt 15) in
      let dst_ip := Ipv4 (at_ pkt 16) (at_ pkt 17) (at_ pkt 18) (at_ pkt 19) in
      let udp_len := Z.to_nat (u16_at pkt (ihl + 4)) in
      if (udp_len <? UDP_HDR)%nat || (length pkt <? ihl + udp_len)%nat then None
      else
        Some ({| sa_ip := src_ip; sa_port := u16_at pkt ihl |}, {| sa_ip := dst_ip; sa_port := u16_at pkt (ihl + 2) |},
              take (udp_len - UDP_HDR) (drop (ihl + UDP_HDR) pkt)).

(** ** The packet channel ([TunnelChannel]) *)

Record TunnelChannel := { ch_local : SocketAddrV4; ch_peer : SocketAddrV4 }.

(** [recv]: the packets the outer tunnel delivers, until one comes from the next hop; what it
    yields, cut to the buffer, and the packets not yet looked at. *)
Fixpoint channel_recv (ch : TunnelChannel) (buf_len : nat) (incoming : list bytes) :
    option (bytes * SocketAddrV4 * list bytes) :=
  match incoming with
  | [] => None
  | ip :: incoming =>
      match unwrap ip with
      | None => channel_recv ch buf_len incoming
      | Some (src, _, payload) =>
          if decide (src = ch_peer ch) then Some (take (length payload `min` buf_len) payload, src, incoming)
          else channel_recv ch buf_len incoming
      end
  end.

Definition channel_send_to (ch : TunnelChannel) (pkt : bytes) (dst : SocketAddr) : bytes :=
  let dst := match dst with SaV4 v4 => v4 | SaV6 _ => ch_peer ch end in
  wrap (ch_local ch) dst pkt.

(** ** Sizes *)

Definition MAX_UDP_PAYLOAD : nat := 1420.
Definition UDPIP_OVERHEAD : nat := 28.
Definition MIN_QUIC_UDP_PAYLOAD : nat := 1200.
Definition DEFAULT_NESTED_CLIENT_IP : Ipv4Addr := Ipv4 x0a x4a x00 x02.
Definition NESTED_CLIENT_PORT : Z := 51820.

(** [MasqueTransport::tunnel_mtu] of a session, from its largest datagram payload. *)
Definition masque_tunnel_mtu (max_dgram_payload : nat) : nat := (max_dgram_payload - MAX_FRAMING_OVERHEAD)%nat.

(** [PqWgTransport::tunnel_mtu], from that of the session it wraps. *)
Definition pqwg_tunnel_mtu (inner : nat) : nat := (inner - 32)%nat.

Inductive NestedError := NotIpv4 | NoMtu | TooDeep.

(** The QUIC payload a nested hop may use. *)
Definition nested_payload (outer_mtu : nat) : result NestedError nat :=
  if (outer_mtu <? UDPIP_OVERHEAD)%nat then Err TooDeep
  else
    let m := (outer_mtu - UDPIP_OVERHEAD)%nat in
    if (MIN_QUIC_UDP_PAYLOAD <=? m)%nat then Ok m else Err TooDeep.

Definition nested_source_ip (assigned configured : option Ipv4Addr) : Ipv4Addr :=
  match assigned with
  | Some ip => ip
  | None => default DEFAULT_NESTED_CLIENT_IP configured
  end.

(** [connect_nested], up to the driver it spawns: the channel and its payload limit. *)
Definition nested_channel (peer : SocketAddr) (outer_mtu : option nat) (outer_assigned nested_client_ip : option Ipv4Addr) :
    result NestedError (TunnelChannel * nat) :=
  match peer with
  | SaV6 _ => Err NotIpv4
  | SaV4 peer_v4 =>
      outer_mtu ← ok_or outer_mtu NoMtu;
      max_udp_payload ← nested_payload outer_mtu;
      let inner_ip := nested_source_ip outer_assigned nested_client_ip in
      Ok ({| ch_local := {| sa_ip := inner_ip; sa_port := NESTED_CLIENT_PORT |}; ch_peer := peer_v4 |}, max_udp_payload)
  end.

(** The payload limit of the next hop, over hops already dialled, outermost first; [true] for a
    hop under WireGuard.  [dgram] is the largest datagram QUIC packs into a payload. *)
Definition hop_mtu (dgram : nat → nat) (pq : bool) (payload : nat) : nat :=
  let m := masque_tunnel_mtu (dgram payload) in if pq then pqwg_tunnel_mtu m else m.

Fixpoint nest (dgram : nat → nat) (dialled : list bool) (payload : nat) : result NestedError nat :=
  match dialled with
  | [] => Ok payload
  | pq :: dialled => payload ← nested_payload (hop_mtu dgram pq payload); nest dgram dialled payload
  end.

(** ** A wrapped packet *)

Definition fits_ipv4 (payload : bytes) : Prop := Z.of_nat (length payload) ≤ 65507.

(** The packet, field by field, as the relay's specification has it. *)
Definition wrapped (src dst : SocketAddrV4) (payload hcsum ucsum : bytes) : UdpPacket :=
  {| up_tos := x00; up_id := [x00; x00]; up_df := true; up_ttl := x40; up_hcsum := hcsum; up_src := octets (sa_ip src);
     up_dst := dst; up_options := []; up_sport := be_bytes 2 (sa_port src); up_ucsum := ucsum; up_payload := payload |}.

Lemma as_u16_small n : Z.of_nat n ≤ 65535 → as_u16 n = Z.of_nat n.
Proof. intros. unfold as_u16. change (2 ^ 16) with 65536. apply Z.mod_small. lia. Qed.

Lemma unsummed_is src dst payload : fits_ipv4 payload → unsummed src dst payload = up_encode (wrapped src dst payload [x00; x00] [x00; x00]).
Proof.
  intros Hf. unfold unsummed, up_encode, up_total, fits_ipv4 in *.
  rewrite !as_u16_small by (unfold IPV4_HDR, UDP_HDR; lia). destruct src as [[a b c d] sp], dst as [[e f g h] dp].
  reflexivity.
Qed.

Lemma wrapped_ok src dst payload hcsum ucsum :
  fits_ipv4 payload → u16 (sa_port dst) → length hcsum = 2%nat → length ucsum = 2%nat → up_ok (wrapped src dst payload hcsum ucsum).
Proof.
  intros Hf Hp Hh Hu. split; cbn; try done.
  - by destruct (sa_ip src).
  - exists 0%nat. split; [done|lia].
  - unfold fits_ipv4 in Hf. unfold_int. unfold up_total. cbn. lia.
Qed.

(** What the checksum routine sees of it. *)
Lemma wrapped_segment src dst payload hcsum ucsum :
  fits_ipv4 payload → length hcsum = 2%nat → length ucsum = 2%nat →
  let p := up_encode (wrapped src dst payload hcsum ucsum) in
  v4_ihl p = Some 20%nat ∧ v4_segment p 20 = Some (8 + length payload, 6)%nat.
Proof.
  intros Hf Hh Hu. cbv zeta. destruct hcsum as [|h1 [|h2 []]], ucsum as [|u1 [|u2 []]]; try discriminate.
  destruct src as [[a b c d] sp], dst as [[e f g h] dp].
  unfold up_encode, wrapped, up_total. cbn [up_tos up_id up_df up_ttl up_hcsum up_src up_dst up_options up_sport up_ucsum up_payload
    sa_ip sa_port octets]. rewrite !be_bytes_2. cbn [app length].
  unfold fits_ipv4 in Hf. set (T := (20 + 0 + 8 + length payload)%nat).
  assert (HT : be_value [z2b (Z.shiftr (Z.of_nat T) 8); z2b (Z.of_nat T)] = Z.of_nat T) by (apply word_of_set; lia).
  match goal with |- v4_ihl ?p = _ ∧ _ => set (P := p) end.
  assert (Hl : length P = T) by done.
  split.
  - unfold v4_ihl. rewrite Hl. change (at_ P 0) with x45. change (negb (Z.shiftr (b2z x45) 4 =? 4)) with false.
    change (Z.to_nat (Z.land (b2z x45) 0x0f) * 4)%nat with 20%nat. by rewrite (proj2 (Nat.ltb_ge T 20)) by lia.
  - unfold v4_segment. rewrite Hl. change (at_ P 9) with x11. change (u16_at P 2) with (be_value [z2b (Z.shiftr (Z.of_nat T) 8); z2b (Z.of_nat T)]).
    rewrite HT, Nat2Z.id, Nat.min_id. rewrite (proj2 (Nat.leb_gt T 20)) by lia. cbn [mbind option_bind csum_off_v4 b2z].
    change (csum_off_v4 (b2z x11)) with (Some 6%nat). cbn [mbind option_bind]. rewrite (proj2 (Nat.ltb_ge _ _)) by lia.
    do 2 f_equal.
Qed.

(** Writing a checksum field of it. *)
Lemma wrapped_set_hcsum src dst payload hcsum ucsum v :
  length hcsum = 2%nat → set16 (up_encode (wrapped src dst payload hcsum ucsum)) 10 v = up_encode (wrapped src dst payload (be_bytes 2 v) ucsum).
Proof.
  intros Hh. destruct hcsum as [|h1 [|h2 []]]; try discriminate. destruct src as [[a b c d] sp], dst as [[e f g h] dp]. reflexivity.
Qed.

Lemma wrapped_set_ucsum src dst payload hcsum ucsum v :
  length hcsum = 2%nat → length ucsum = 2%nat →
  set16 (up_encode (wrapped src dst payload hcsum ucsum)) 26 v = up_encode (wrapped src dst payload hcsum (be_bytes 2 v)).
Proof.
  intros Hh Hu. destruct hcsum as [|h1 [|h2 []]], ucsum as [|u1 [|u2 []]]; try discriminate.
  destruct src as [[a b c d] sp], dst as [[e f g h] dp]. reflexivity.
Qed.

Lemma wrap_is src dst payload :
  fits_ipv4 payload → ∃ hcsum ucsum, length hcsum = 2%nat ∧ length ucsum = 2%nat ∧
    wrap src dst payload = up_encode (wrapped src dst payload hcsum ucsum) ∧ checksums_verify (wrap src dst payload).
Proof.
  intros Hf. unfold wrap. rewrite unsummed_is by done. set (p := up_encode _).
  destruct (wrapped_segment src dst payload [x00; x00] [x00; x00] Hf eq_refl eq_refl) as [Hi Hs].
  fold p in Hi. destruct (fix_ipv4_cases p 20 Hi) as (c1 & _ & _ & Hc). fold p in Hs. rewrite Hs in Hc. destruct Hc as (c2 & Hc & _).
  exists (be_bytes 2 c1), (be_bytes 2 c2). split_and!; [done|done| |].
  - rewrite Hc. unfold p. rewrite wrapped_set_hcsum by done. by apply (wrapped_set_ucsum).
  - rewrite <- (fix_l4_v4 p 20 Hi). apply fix_l4_checksums_correct.
Qed.

(** The address in a wrapped packet's header. *)
Lemma wrapped_src src dst payload hcsum ucsum :
  length hcsum = 2%nat → length ucsum = 2%nat → packet_src_ip (up_encode (wrapped src dst payload hcsum ucsum)) = Some (V4 (sa_ip src)).
Proof.
  intros Hh Hu. destruct hcsum as [|h1 [|h2 []]], ucsum as [|u1 [|u2 []]]; try discriminate.
  destruct src as [[a b c d] sp], dst as [[e f g h] dp]. reflexivity.
Qed.

Lemma unwrap_wrapped src dst payload hcsum ucsum :
  fits_ipv4 payload → u16 (sa_port src) → u16 (sa_port dst) → length hcsum = 2%nat → length ucsum = 2%nat →
  unwrap (up_encode (wrapped src dst payload hcsum ucsum)) = Some (src, dst, payload).
Proof.
  intros Hf Hs Hd Hh Hu. destruct hcsum as [|h1 [|h2 []]], ucsum as [|u1 [|u2 []]]; try discriminate.
  destruct src as [[a b c d] sp], dst as [[e f g h] dp]. cbn [sa_port] in *.
  unfold up_encode, wrapped, up_total. cbn [up_tos up_id up_df up_ttl up_hcsum up_src up_dst up_options up_sport up_ucsum up_payload
    sa_ip sa_port octets]. rewrite !be_bytes_2. cbn [app length].
  match goal with |- unwrap ?p = _ => set (P := p) end.
  assert (Hl : length P = (28 + length payload)%nat) by done.
  unfold unwrap. rewrite Hl. change (at_ P 0) with x45. change (negb (Z.shiftr (b2z x45) 4 =? 4)) with false.
  change (Z.to_nat (Z.land (b2z x45) 0x0f) * 4)%nat with 20%nat. change (at_ P 9) with x11.
  change (negb (b2z x11 =? PROTO_UDP)) with false. unfold IPV4_HDR, UDP_HDR.
  change (u16_at P (20 + 4)) with (be_value [z2b (Z.shiftr (Z.of_nat (8 + length payload)) 8); z2b (Z.of_nat (8 + length payload))]).
  change (u16_at P 20) with (be_value [z2b (Z.shiftr sp 8); z2b sp]).
  change (u16_at P (20 + 2)) with (be_value [z2b (Z.shiftr dp 8); z2b dp]).
  unfold fits_ipv4 in Hf. rewrite !word_bytes by (unfold_int; lia). rewrite Nat2Z.id.
  rewrite (proj2 (Nat.ltb_ge _ 20)), (proj2 (Nat.ltb_ge _ (20 + 8))), (proj2 (Nat.ltb_ge _ 8)), (proj2 (Nat.ltb_ge _ (20 + _))) by lia.
  cbn [orb]. change (drop (20 + 8) P) with payload. rewrite take_ge by lia. reflexivity.
Qed.

Lemma length_wrapped src dst payload hcsum ucsum :
  length hcsum = 2%nat → length ucsum = 2%nat → length (up_encode (wrapped src dst payload hcsum ucsum)) = (28 + length payload)%nat.
Proof.
  intros Hh Hu. destruct hcsum as [|h1 [|h2 []]], ucsum as [|u1 [|u2 []]]; try discriminate.
  destruct src as [[a b c d] sp], dst as [[e f g h] dp]. reflexivity.
Qed.

(** Unwrapping gives back what was wrapped. *)
Lemma unwrap_wrap src dst payload :
  fits_ipv4 payload → u16 (sa_port src) → u16 (sa_port dst) → unwrap (wrap src dst payload) = Some (src, dst, payload).
Proof. intros Hf Hs Hd. destruct (wrap_is src dst payload Hf) as (hc & uc & Hh & Hu & -> & _). by apply unwrap_wrapped. Qed.

Lemma length_wrap src dst payload : fits_ipv4 payload → length (wrap src dst payload) = (28 + length payload)%nat.
Proof. intros Hf. destruct (wrap_is src dst payload Hf) as (hc & uc & Hh & Hu & -> & _). by apply length_wrapped. Qed.

(** ** Hop to hop *)

(** A packet for another client's address, or none at all, is what stops a client from sending. *)
Definition owns (routes : gmap IpAddr bytes) (client_id : bytes) (ip : Ipv4Addr) : Prop :=
  routes !! V4 ip = None ∨ routes !! V4 ip = Some client_id.

Lemma nested_channel_Ok peer outer_mtu assigned configured ch m :
  nested_channel peer outer_mtu assigned configured = Ok (ch, m) →
  ∃ mtu, outer_mtu = Some mtu ∧ (m + UDPIP_OVERHEAD = mtu)%nat ∧ (MIN_QUIC_UDP_PAYLOAD ≤ m)%nat ∧
    peer = SaV4 (ch_peer ch) ∧ ch_local ch = {| sa_ip := nested_source_ip assigned configured; sa_port := NESTED_CLIENT_PORT |}.
Proof.
  unfold nested_channel. destruct peer as [p|]; [|done]. destruct outer_mtu as [mtu|]; [|done]. cbn [ok_or mbind result_bind].
  unfold nested_payload. destruct (Nat.ltb_spec mtu UDPIP_OVERHEAD); [done|]. destruct (Nat.leb_spec MIN_QUIC_UDP_PAYLOAD (mtu - UDPIP_OVERHEAD)); [|done].
  intros [= <- <-]. exists mtu. split_and!; try done. unfold UDPIP_OVERHEAD in *. lia.
Qed.

(** *** Depth *)

Section Depth.
Context (dgram : nat → nat) (Hdgram : ∀ p, (dgram p ≤ p)%nat).

Definition hop_cost (pq : bool) : nat := if pq then 69 else 37.

Lemma nested_payload_cost pq payload m :
  nested_payload (hop_mtu dgram pq payload) = Ok m → (MIN_QUIC_UDP_PAYLOAD ≤ m ∧ m + hop_cost pq ≤ payload)%nat.
Proof using Hdgram.
  pose proof (Hdgram payload). unfold nested_payload. destruct (Nat.ltb_spec (hop_mtu dgram pq payload) UDPIP_OVERHEAD); [done|].
  destruct (Nat.leb_spec MIN_QUIC_UDP_PAYLOAD (hop_mtu dgram pq payload - UDPIP_OVERHEAD)); [|done]. intros [= <-].
  unfold hop_mtu, pqwg_tunnel_mtu, masque_tunnel_mtu, MAX_FRAMING_OVERHEAD, UDPIP_OVERHEAD, MIN_QUIC_UDP_PAYLOAD, hop_cost in *.
  destruct pq; lia.
Qed.

Lemma nest_cost dialled payload m :
  (MIN_QUIC_UDP_PAYLOAD ≤ payload)%nat → nest dgram dialled payload = Ok m →
  (MIN_QUIC_UDP_PAYLOAD ≤ m ∧ m + sum_list (hop_cost <$> dialled) ≤ payload)%nat.
Proof using Hdgram.
  revert payload. induction dialled as [|pq dialled IH]; intros payload Hp; cbn [nest].
  { intros [= <-]. cbn. lia. }
  destruct (nested_payload (hop_mtu dgram pq payload)) as [p|] eqn:E; [|done]. cbn [mbind result_bind]. intros Hn.
  apply nested_payload_cost in E as [Hmin Hc]. apply IH in Hn as [? ?]; [|done]. cbn [fmap list_fmap sum_list sum_list_with]. cbn in *. lia.
Qed.

(** C40.  How deep a path can be: whatever QUIC's own overhead, every hop dialled leaves the next
    one at least the QUIC minimum and costs 37 bytes of the 1420, 69 under WireGuard; so no path
    has more than six hops, and none of more than four whose hops are all wrapped. *)
Theorem path_depth_bound dialled m :
  nest dgram dialled MAX_UDP_PAYLOAD = Ok m →
  (MIN_QUIC_UDP_PAYLOAD ≤ m ∧ m + sum_list (hop_cost <$> dialled) ≤ MAX_UDP_PAYLOAD ∧
   length dialled ≤ 5 ∧ (Forall (eq true) dialled → length dialled ≤ 3))%nat.
Proof using Hdgram.
  intros Hn. apply nest_cost in Hn as [Hmin Hc]; [|unfold MIN_QUIC_UDP_PAYLOAD, MAX_UDP_PAYLOAD; lia].
  assert (Hall : (37 * length dialled ≤ sum_list (hop_cost <$> dialled))%nat).
  { clear. induction dialled as [|[] l IH]; cbn in *; lia. }
  assert (Hpq : Forall (eq true) dialled → (69 * length dialled ≤ sum_list (hop_cost <$> dialled))%nat).
  { clear. induction 1 as [|b l <- _ IH]; cbn in *; lia. }
  unfold MIN_QUIC_UDP_PAYLOAD, MAX_UDP_PAYLOAD in *. split_and!; [done|done|lia|]. intros H%Hpq. lia.
Qed.

End Depth.

Lemma path_depth_bound_witness :
  nest (λ p, p - 35)%nat [true; true] MAX_UDP_PAYLOAD = Ok 1212%nat ∧ (1212 + sum_list (hop_cost <$> [true; true]) ≤ MAX_UDP_PAYLOAD)%nat.
Proof.
  assert (E : nest (λ p, p - 35)%nat [true; true] MAX_UDP_PAYLOAD = Ok 1212%nat) by (vm_compute; reflexivity). split; [exact E|].
  exact (proj1 (proj2 (path_depth_bound (λ p, p - 35)%nat (λ p, Nat.le_sub_l p 35) _ _ E))).
Defined.

(** *** Across a relay *)

Section Relay.
Context `{Hpq : PqWg}.

(** C19.  A nested QUIC packet crosses its relay: wrapped for the channel a client was given, with
    any payload within the channel's limit, it fits one datagram of the outer session; the relay
    that assigned the client its address forwards it, to the next hop and only there, with valid
    checksums; the next hop finds the same QUIC packet in it; and the channel delivers a packet the
    next hop sends back, whatever else the outer tunnel delivers before it. *)
Theorem nested_packet_crosses_relay peer max_dgram outer_ip configured ch m routes client_id (c : Client) payload flow noise reply buf_len rest :
  nested_channel peer (Some (masque_tunnel_mtu max_dgram)) (Some outer_ip) configured = Ok (ch, m) →
  u16 (sa_port (ch_peer ch)) → (length payload ≤ m)%nat → Z.of_nat max_dgram ≤ 65535 → 0 ≤ flow ≤ MAX_VARINT →
  packet_policy c = Some (PolicyRelay (ch_peer ch)) → assigned_ip c = Some outer_ip → owns routes client_id outer_ip →
  Forall (λ ip, ∀ src dst p, unwrap ip = Some (src, dst, p) → src ≠ ch_peer ch) noise → fits_ipv4 reply → (length reply ≤ buf_len)%nat →
  let pkt := channel_send_to ch payload peer in
  (length (encode_datagram flow pkt) ≤ max_dgram)%nat ∧
  decode_datagram (encode_datagram flow pkt) = Ok (flow, Ip pkt) ∧
  forward_packet routes client_id c pkt = (<[V4 outer_ip := client_id]> routes, [ToTun client_id pkt]) ∧
  relay_packet_targets pkt (ch_peer ch) = true ∧ checksums_verify pkt ∧
  unwrap pkt = Some (ch_local ch, ch_peer ch, payload) ∧
  channel_recv ch buf_len (noise ++ wrap (ch_peer ch) (ch_local ch) reply :: rest) = Some (reply, ch_peer ch, rest).
Proof.
  intros Hch Hport Hlen Hm Hflow Hpol Has Hown Hnoise Hreply Hbuf. cbv zeta.
  destruct (nested_channel_Ok _ _ _ _ _ _ Hch) as (mtu & [= <-] & Hmtu & Hmin & -> & Hloc).
  assert (Hf : fits_ipv4 payload) by (unfold fits_ipv4, masque_tunnel_mtu, MAX_FRAMING_OVERHEAD, UDPIP_OVERHEAD in *; lia). unfold channel_send_to.
  assert (Hlp : u16 (sa_port (ch_local ch))) by (rewrite Hloc; cbn [sa_port]; unfold NESTED_CLIENT_PORT; unfold_int; lia).
  destruct (datagram_roundtrip flow (wrap (ch_local ch) (ch_peer ch) payload) 0 Hflow) as (Hdec & _ & Hsize).
  destruct (wrap_is (ch_local ch) (ch_peer ch) payload Hf) as (hc & uc & Hh & Hu & E & Hck).
  assert (Hrel : relay_packet_targets (wrap (ch_local ch) (ch_peer ch) payload) (ch_peer ch) = true).
  { rewrite E. apply (relay_encodes (wrapped (ch_local ch) (ch_peer ch) payload hc uc)). by apply wrapped_ok. }
  split_and!; try done.
  - rewrite length_wrap in Hsize by done. unfold masque_tunnel_mtu, UDPIP_OVERHEAD, MIN_QUIC_UDP_PAYLOAD in *. lia.
  - unfold forward_packet. rewrite Hpol. cbn [policy_allows]. rewrite Hrel. unfold learn_client_route.
    rewrite E, wrapped_src by done. rewrite Hloc. cbn [sa_ip nested_source_ip]. rewrite Has.
    destruct Hown as [-> | Hr]; [by rewrite decide_True|]. rewrite Hr, bool_decide_true by done. by rewrite insert_id.
  - by apply unwrap_wrap.
  - induction Hnoise as [|ip noise Hip _ IH]; cbn [app channel_recv].
    + rewrite unwrap_wrap, decide_True by done. rewrite take_ge by lia. done.
    + destruct (unwrap ip) as [[[src d] p]|] eqn:Eu; [|done]. rewrite decide_False by by eapply Hip. done.
Qed.

End Relay.

(** ** A packet on its way *)

#[local] Instance no_wg : PqWg :=
  {| ClientPqWg := unit; pq_default := tt; on_control_bytes s _ := s; established _ := false;
     decapsulate s _ := (s, WgDone); encapsulate s _ := (s, None) |}.

Definition w_next_hop : SocketAddrV4 := {| sa_ip := Ipv4 xcb x00 x71 x09; sa_port := 443 |}.
Definition w_my_ip : Ipv4Addr := Ipv4 x0a x4a x00 x07.

Definition w_relayed : Client :=
  {| peer_ip := V4 (Ipv4 xc0 x00 x02 x01); h3 := true; ci_stream := Some 0; flow_id := 0; tunnel_up := true;
     packet_policy := Some (PolicyRelay w_next_hop); assigned_ip := Some w_my_ip; pqwg := None |}.

Definition w_my_channel : TunnelChannel :=
  {| ch_local := {| sa_ip := w_my_ip; sa_port := NESTED_CLIENT_PORT |}; ch_peer := w_next_hop |}.

Lemma nested_packet_crosses_relay_witness :
  nested_channel (SaV4 w_next_hop) (Some (masque_tunnel_mtu 1390)) (Some w_my_ip) None = Ok (w_my_channel, 1353%nat) ∧
  forward_packet ∅ [x01] w_relayed (channel_send_to w_my_channel [xde; xad] (SaV4 w_next_hop)) =
    ({[ V4 w_my_ip := [x01] ]}, [ToTun [x01] (channel_send_to w_my_channel [xde; xad] (SaV4 w_next_hop))]).
Proof.
  assert (E : nested_channel (SaV4 w_next_hop) (Some (masque_tunnel_mtu 1390)) (Some w_my_ip) None = Ok (w_my_channel, 1353%nat))
    by (vm_compute; reflexivity).
  split; [exact E|].
  destruct (nested_packet_crosses_relay (SaV4 w_next_hop) 1390 w_my_ip None w_my_channel 1353 ∅ [x01] w_relayed [xde; xad] 0 [[x00]] [xbe] 64 [] E)
    as (_ & _ & H & _).
  all: try done; try (cbn; lia).
  - left. apply lookup_empty.
  - constructor; [by vm_compute|constructor].
Defined.
