(* ===== verification/PqExchange.v ===== *)
(** * The post-quantum key exchange ([nil-crypto/src/psk.rs], [nil-transport/src/pqwg.rs], [nil-node/src/pqwg.rs])

    How a client and a node agree on the pre-shared key of their WireGuard session: the hybrid
    derivation, the messages and their framing, the reassembly of the control stream on both
    sides.  The two KEMs and HKDF are parameters. *)

From S2P Require Import Prelude.
From S2P Require Import Crypto.
From Stdlib Require Import Strings.Byte ZArith Lia.
From stdpp Require Import prelude strings.

(** ** Primitives *)

(** A key encapsulation mechanism as the code calls it; what the implementations draw from the
    system's generator is an argument. *)
Class Kem := {
  kem_dk : Type;
  kem_pk_len : nat;
  kem_ct_len : nat;
  kem_generate : bytes → kem_dk * bytes;
  kem_valid_pk : bytes → bool;
  kem_encapsulate : bytes → bytes → bytes * bytes;
  kem_decapsulate : kem_dk → bytes → bytes;
}.

(** Correctness is idealised: ML-KEM's decapsulation disagrees with negligible probability. *)
Class KemLaws `{Kem} : Prop := {
  kem_pk_length seed : length (kem_generate seed).2 = kem_pk_len;
  kem_pk_valid seed : kem_valid_pk (kem_generate seed).2 = true;
  kem_ct_length pk r : length (kem_encapsulate pk r).1 = kem_ct_len;
  kem_correct seed r :
    let '(dk, pk) := kem_generate seed in
    let '(ct, ss) := kem_encapsulate pk r in kem_decapsulate dk ct = ss;
}.

(** The two in use, and HKDF-SHA256 with a 32-byte output. *)
Class PqPrimitives := { mlkem : Kem; mceliece : Kem; hkdf : bytes → bytes → bytes → bytes }.

(** ML-KEM-1024 rejects a key or ciphertext of another length, and a key whose coefficients are
    out of range; Classic McEliece takes any key of its length.  The sizes leave room in the
    frames. *)
Class PqLaws `{PqPrimitives} : Prop := {
  pq_mlkem : KemLaws (H := mlkem);
  pq_mceliece : KemLaws (H := mceliece);
  pq_mlkem_sizes : kem_pk_len (Kem := mlkem) = Z.to_nat 1568 ∧ kem_ct_len (Kem := mlkem) = Z.to_nat 1568;
  pq_mceliece_sizes : (Z.of_nat (kem_pk_len (Kem := mceliece)) ≤ 2 ^ 24 ∧ Z.of_nat (kem_ct_len (Kem := mceliece)) ≤ 4096)%Z;
}.

(** ** The hybrid key ([psk.rs]) *)

Section Psk.
Context `{Hsha : Sha256, Hpq : PqPrimitives}.

Definition MLKEM_EK_LEN : nat := Z.to_nat 1568.
Definition MLKEM_CT_LEN : nat := Z.to_nat 1568.
Definition MCELIECE_PK_LEN : nat := kem_pk_len (Kem := mceliece).
Definition MCELIECE_CT_LEN : nat := kem_ct_len (Kem := mceliece).

Definition PSK_SALT : bytes := str "nil.psk.v2.hkdf-salt".
Definition PSK_INFO : bytes := str "nil.psk.v2.wireguard-preshared-key".
Definition PSK_TRANSCRIPT_LABEL : bytes := str "nil.psk.v2.kem-transcript".

Inductive PskError := BadPublicKey (what : bytes) | BadCiphertext (what : bytes).

Record PqOffer := { mlkem_ek : bytes; mceliece_pk : bytes }.
Record PqCiphertexts := { mlkem_ct : bytes; mceliece_ct : bytes }.

(** A part with its length in front, as a [u32]. *)
Definition lengthed (part : bytes) : bytes := be_bytes 4 (Z.of_nat (length part)) ++ part.

Definition transcript_bytes (offer : PqOffer) (cts : PqCiphertexts) : bytes :=
  PSK_TRANSCRIPT_LABEL ++ lengthed (mlkem_ek offer) ++ lengthed (mlkem_ct cts) ++ lengthed (mceliece_pk offer) ++ lengthed (mceliece_ct cts).

Definition combine (ss_mlkem ss_mceliece : bytes) (offer : PqOffer) (cts : PqCiphertexts) : bytes :=
  hkdf PSK_SALT (ss_mlkem ++ ss_mceliece) (PSK_INFO ++ sha256 (transcript_bytes offer cts)).

Record PqInitiator := {
  pi_mlkem_dk : kem_dk (Kem := mlkem);
  pi_mceliece_sk : kem_dk (Kem := mceliece);
  pi_mlkem_ek : bytes;
  pi_mceliece_pk : bytes;
}.

Definition offer_of (i : PqInitiator) : PqOffer := {| mlkem_ek := pi_mlkem_ek i; mceliece_pk := pi_mceliece_pk i |}.

(** [seeds]: what the two key generators draw. *)
Definition generate (seeds : bytes * bytes) : PqInitiator * PqOffer :=
  let m := kem_generate (Kem := mlkem) seeds.1 in
  let c := kem_generate (Kem := mceliece) seeds.2 in
  ({| pi_mlkem_dk := m.1; pi_mceliece_sk := c.1; pi_mlkem_ek := m.2; pi_mceliece_pk := c.2 |},
   {| mlkem_ek := m.2; mceliece_pk := c.2 |}).

Definition decapsulate_slice (dk : kem_dk (Kem := mlkem)) (ct : bytes) : option bytes :=
  if decide (length ct = MLKEM_CT_LEN) then Some (kem_decapsulate (Kem := mlkem) dk ct) else None.

Definition mceliece_ct_from_bytes (b : bytes) : result PskError bytes :=
  if decide (length b = MCELIECE_CT_LEN) then Ok b else Err (BadCiphertext (str "mceliece ciphertext length")).

Definition mceliece_pk_from_bytes (b : bytes) : result PskError bytes :=
  if decide (length b = MCELIECE_PK_LEN) then Ok b else Err (BadPublicKey (str "mceliece public-key length")).

Definition finish (self : PqInitiator) (cts : PqCiphertexts) : result PskError bytes :=
  ss_mlkem ← ok_or (decapsulate_slice (pi_mlkem_dk self) (mlkem_ct cts)) (BadCiphertext (str "ml-kem ciphertext length"));
  mc_ct ← mceliece_ct_from_bytes (mceliece_ct cts);
  let ss_mc := kem_decapsulate (Kem := mceliece) (pi_mceliece_sk self) mc_ct in
  Ok (combine ss_mlkem ss_mc (offer_of self) cts).

Definition new_from_slice (ek : bytes) : option bytes :=
  if decide (length ek = MLKEM_EK_LEN) then if kem_valid_pk (Kem := mlkem) ek then Some ek else None else None.

Definition responder_encapsulate (offer : PqOffer) (draws : bytes * bytes) : result PskError (PqCiphertexts * bytes) :=
  ek ← ok_or (new_from_slice (mlkem_ek offer)) (BadPublicKey (str "ml-kem encapsulation key"));
  let m := kem_encapsulate (Kem := mlkem) ek draws.1 in
  mc_pk ← mceliece_pk_from_bytes (mceliece_pk offer);
  let c := kem_encapsulate (Kem := mceliece) mc_pk draws.2 in
  let cts := {| mlkem_ct := m.1; mceliece_ct := c.1 |} in
  Ok (cts, combine m.2 c.2 offer cts).

(** ** Messages ([nil-transport/src/pqwg.rs]) *)

Definition encode_parts (parts : list bytes) : bytes := parts ≫= lengthed.

Definition MAX_PART : nat := MCELIECE_PK_LEN + Z.to_nat 4096.

(** At least four bytes are consumed per turn. *)
Fixpoint decode_loop (fuel : nat) (b : bytes) : option (list bytes) :=
  match fuel, b with
  | _, [] => Some []
  | 0, _ => None
  | S fuel, _ =>
      if (length b <? 4)%nat then None
      else
        let len := Z.to_nat (be_value (take 4 b)) in
        if (MAX_PART <? len)%nat then None
        else
          let b := drop 4 b in
          if (length b <? len)%nat then None
          else parts ← decode_loop fuel (drop len b); Some (take len b :: parts)
  end.

Definition decode_parts (b : bytes) : option (list bytes) := decode_loop (length b) b.

(** ** The control stream *)

(** The reassembly loop of both ends: the complete frames of a buffer, what is left of it, and
    whether a length above the cap made the loop throw the buffer away. *)
Fixpoint frames (cap fuel : nat) (buf : bytes) : list bytes * bytes * bool :=
  match fuel with
  | 0 => ([], buf, false)
  | S fuel =>
      if (length buf <? 4)%nat then ([], buf, false)
      else
        let len := Z.to_nat (be_value (take 4 buf)) in
        if (cap <? len)%nat then ([], [], true)
        else if (length buf <? 4 + len)%nat then ([], buf, false)
        else
          let r := frames cap fuel (drop (4 + len) buf) in
          (take len (drop 4 buf) :: r.1.1, r.1.2, r.2)
  end.

Definition reassemble (cap : nat) (buf : bytes) : list bytes * bytes * bool := frames cap (length buf) buf.

(** *** The node ([nil-node/src/pqwg.rs]) *)

Definition NODE_MAX_CTRL_FRAME : nat := MCELIECE_PK_LEN + MLKEM_EK_LEN + Z.to_nat 4096.

(** One end of a WireGuard tunnel, as [PqWgCore::new] is given it. *)
Record PqWgCore := { my_secret : bytes; peer_public : bytes; psk : bytes; index : Z }.

(** [drawn]: how many encapsulations have drawn from the generator. *)
Record ClientPqWg := { ctrl_in : bytes; ctrl_out : bytes; tunn : option PqWgCore; drawn : nat }.

Definition pqwg_default : ClientPqWg := {| ctrl_in := []; ctrl_out := []; tunn := None; drawn := 0 |}.

Section Node.
Context (node_secret : bytes) (draws : nat → bytes * bytes).

Definition handle_offer (self : ClientPqWg) (offer_msg : bytes) : ClientPqWg * option bytes :=
  match decode_parts offer_msg with
  | Some [client_wg_pub; ek; pk] =>
      if decide (length client_wg_pub = 32) then
        let self := {| ctrl_in := ctrl_in self; ctrl_out := ctrl_out self; tunn := tunn self; drawn := S (drawn self) |} in
        match responder_encapsulate {| mlkem_ek := ek; mceliece_pk := pk |} (draws (pred (drawn self))) with
        | Ok (cts, key) =>
            ({| ctrl_in := ctrl_in self; ctrl_out := ctrl_out self;
                tunn := Some {| my_secret := node_secret; peer_public := client_wg_pub; psk := key; index := 2 |}; drawn := drawn self |},
             Some (encode_parts [mlkem_ct cts; mceliece_ct cts]))
        | Err _ => (self, None)
        end
      else (self, None)
  | _ => (self, None)
  end.

(** One frame: the offer is handled and the answer, if any, queued. *)
Definition on_frame (self : ClientPqWg) (msg : bytes) : ClientPqWg :=
  let r := handle_offer self msg in
  match r.2 with
  | Some cts_msg => {| ctrl_in := ctrl_in r.1; ctrl_out := ctrl_out r.1 ++ lengthed cts_msg; tunn := tunn r.1; drawn := drawn r.1 |}
  | None => r.1
  end.

Definition on_control_bytes (self : ClientPqWg) (b : bytes) : ClientPqWg :=
  let r := reassemble NODE_MAX_CTRL_FRAME (ctrl_in self ++ b) in
  let self := foldl on_frame self r.1.1 in
  {| ctrl_in := r.1.2; ctrl_out := ctrl_out self; tunn := tunn self; drawn := drawn self |}.

End Node.

(** *** The client ([masque/mod.rs], [pqwg.rs]) *)

Definition CLIENT_MAX_CTRL_FRAME : nat := Z.to_nat (8 * 1024).
Definition CONTROL_QUEUE : nat := 16.

(** The driver's buffer and the queue to the application, which drops what does not fit. *)
Record ClientCtrl := { cc_in : bytes; cc_queue : list bytes }.

Definition try_send (queue : list bytes) (msg : bytes) : list bytes :=
  if (length queue <? CONTROL_QUEUE)%nat then queue ++ [msg] else queue.

Definition on_body (self : ClientCtrl) (b : bytes) : ClientCtrl :=
  let r := reassemble CLIENT_MAX_CTRL_FRAME (cc_in self ++ b) in
  {| cc_in := r.1.2; cc_queue := foldl try_send (cc_queue self) r.1.1 |}.

(** [wrap_session], up to the Noise handshake: the offer message, and what is made of the answer. *)
Definition offer_msg (client_pub : bytes) (offer : PqOffer) : bytes := encode_parts [client_pub; mlkem_ek offer; mceliece_pk offer].

Definition client_core (initiator : PqInitiator) (client_secret node_wg_pub cts_msg : bytes) : option PqWgCore :=
  match decode_parts cts_msg with
  | Some [m; c] =>
      match finish initiator {| mlkem_ct := m; mceliece_ct := c |} with
      | Ok key => Some {| my_secret := client_secret; peer_public := node_wg_pub; psk := key; index := 1 |}
      | Err _ => None
      end
  | _ => None
  end.

End Psk.

(** ** Framing *)

Section Framing.
Context (cap : nat).

Lemma frames_fuel n m buf : length buf ≤ n → length buf ≤ m → frames cap n buf = frames cap m buf.
Proof.
  revert m buf. induction n as [|n IH]; intros [|m] buf Hn Hm; cbn [frames]; try done.
  - by destruct buf; [|cbn in *; lia].
  - by destruct buf; [|cbn in *; lia].
  - destruct (Nat.ltb_spec (length buf) 4); [done|]. destruct (cap <? _)%nat; [done|].
    destruct (Nat.ltb_spec (length buf) (4 + Z.to_nat (be_value (take 4 buf)))); [done|].
    by rewrite (IH m) by (rewrite length_drop; lia).
Qed.

Lemma reassemble_unfold buf :
  reassemble cap buf =
  if (length buf <? 4)%nat then ([], buf, false)
  else
    let len := Z.to_nat (be_value (take 4 buf)) in
    if (cap <? len)%nat then ([], [], true)
    else if (length buf <? 4 + len)%nat then ([], buf, false)
    else
      let r := reassemble cap (drop (4 + len) buf) in
      (take len (drop 4 buf) :: r.1.1, r.1.2, r.2).
Proof.
  unfold reassemble at 1. destruct buf as [|b buf]; [done|]. cbn [length frames]. set (l := b :: buf).
  change (S (length buf)) with (length l). destruct (Nat.ltb_spec (length l) 4); [done|]. destruct (cap <? _)%nat; [done|].
  destruct (Nat.ltb_spec (length l) (4 + Z.to_nat (be_value (take 4 l)))); [done|]. cbv zeta.
  unfold reassemble. by rewrite (frames_fuel (length buf) (length (drop (4 + Z.to_nat (be_value (take 4 l))) l)))
    by (rewrite length_drop; subst l; cbn in *; lia).
Qed.

(** Induction along the frames of a buffer. *)
Lemma reassemble_ind (P : bytes → Prop) :
  (∀ buf, (∀ k, 4 ≤ k ≤ length buf → P (drop k buf)) → P buf) → ∀ buf, P buf.
Proof.
  intros H buf. remember (length buf) as n eqn:En. revert buf En. induction (lt_wf n) as [n _ IH]. intros buf ->.
  apply H. intros k Hk. eapply IH; [|done]. rewrite length_drop. lia.
Qed.

(** What is left is shorter than a frame may be, and has no frame in it. *)
Lemma reassemble_rest buf :
  length (reassemble cap buf).1.2 < 4 + cap ∨ length (reassemble cap buf).1.2 < 4.
Proof.
  induction buf as [buf IH] using reassemble_ind. rewrite reassemble_unfold.
  destruct (Nat.ltb_spec (length buf) 4); [by right|]. cbv zeta. destruct (Nat.ltb_spec cap (Z.to_nat (be_value (take 4 buf)))).
  { right. cbn. lia. }
  destruct (Nat.ltb_spec (length buf) (4 + Z.to_nat (be_value (take 4 buf)))); [left; cbn; lia|]. cbn [fst snd]. apply IH. lia.
Qed.

(** A buffer that is continued. *)
Lemma reassemble_app a b fs rest :
  reassemble cap a = (fs, rest, false) →
  reassemble cap (a ++ b) =
    (fs ++ (reassemble cap (rest ++ b)).1.1, (reassemble cap (rest ++ b)).1.2, (reassemble cap (rest ++ b)).2).
Proof.
  revert fs rest. induction a as [a IH] using reassemble_ind. intros fs rest. rewrite (reassemble_unfold a).
  destruct (Nat.ltb_spec (length a) 4) as [H4|H4]; cbv zeta.
  { intros [= <- <-]. cbn [app]. by destruct (reassemble cap (a ++ b)) as [[? ?] ?]. }
  set (len := Z.to_nat (be_value (take 4 a))). destruct (Nat.ltb_spec cap len) as [Hc|Hc]; [done|].
  destruct (Nat.ltb_spec (length a) (4 + len)) as [Hl|Hl].
  { intros [= <- <-]. cbn [app]. by destruct (reassemble cap (a ++ b)) as [[? ?] ?]. }
  destruct (reassemble cap (drop (4 + len) a)) as [[fs1 rest1] c1] eqn:E1. cbn [fst snd]. intros [= <- <- ->].
  rewrite (reassemble_unfold (a ++ b)). rewrite (proj2 (Nat.ltb_ge _ 4)) by (rewrite length_app; lia).
  cbv zeta. rewrite take_app_le by lia. fold len. rewrite (proj2 (Nat.ltb_ge cap len)) by lia.
  rewrite (proj2 (Nat.ltb_ge _ (4 + len))) by (rewrite length_app; lia).
  rewrite !drop_app_le by lia. rewrite take_app_le by (rewrite length_drop; lia).
  by rewrite (IH (4 + len)%nat ltac:(lia) _ _ E1).
Qed.

(** An oversized length is met in any continuation too. *)
Lemma reassemble_cleared a b : (reassemble cap a).2 = true → (reassemble cap (a ++ b)).2 = true.
Proof.
  induction a as [a IH] using reassemble_ind. rewrite (reassemble_unfold a).
  destruct (Nat.ltb_spec (length a) 4) as [H4|H4]; [done|]. cbv zeta. set (len := Z.to_nat (be_value (take 4 a))).
  rewrite (reassemble_unfold (a ++ b)). rewrite (proj2 (Nat.ltb_ge _ 4)) by (rewrite length_app; lia).
  cbv zeta. rewrite take_app_le by lia. fold len. destruct (Nat.ltb_spec cap len) as [Hc|Hc]; [done|].
  destruct (Nat.ltb_spec (length a) (4 + len)) as [Hl|Hl]; [done|]. cbn [fst snd]. intros H.
  rewrite (proj2 (Nat.ltb_ge _ (4 + len))) by (rewrite length_app; lia). cbn [snd]. rewrite drop_app_le by lia. apply IH; [lia|done].
Qed.

Lemma lengthed_value (p r : bytes) : (Z.of_nat (length p) ≤ U32_MAX)%Z → be_value (take 4 (lengthed p ++ r)) = Z.of_nat (length p).
Proof.
  intros Hp. unfold lengthed. rewrite <- app_assoc, take_app_length' by (symmetry; apply length_be_bytes).
  apply be_value_be_bytes_small. change (2 ^ (8 * Z.of_nat 4))%Z with (U32_MAX + 1)%Z. unfold U32_MAX in *. lia.
Qed.

Lemma length_lengthed p : length (lengthed p) = 4 + length p.
Proof. unfold lengthed. by rewrite length_app, length_be_bytes. Qed.

Lemma drop_lengthed (p r : bytes) : drop 4 (lengthed p ++ r) = p ++ r.
Proof. unfold lengthed. rewrite <- app_assoc. by rewrite drop_app_length' by (symmetry; apply length_be_bytes). Qed.

(** A stream of frames is reassembled as those frames. *)
Lemma reassemble_frames fs :
  (Z.of_nat cap ≤ U32_MAX)%Z → Forall (λ f, length f ≤ cap) fs → reassemble cap (fs ≫= lengthed) = (fs, [], false).
Proof.
  intros Hcap. induction 1 as [|f fs Hf _ IH]; [done|]. rewrite bind_cons, reassemble_unfold.
  rewrite (proj2 (Nat.ltb_ge _ 4)) by (rewrite length_app, length_lengthed; lia). cbv zeta.
  rewrite lengthed_value, Nat2Z.id by lia. rewrite (proj2 (Nat.ltb_ge cap _)) by done.
  rewrite (proj2 (Nat.ltb_ge _ (4 + _))) by (rewrite length_app, length_lengthed; lia).
  rewrite <- drop_drop, !drop_lengthed, drop_app_length, take_app_length, IH. done.
Qed.

(** A stream taken in pieces, each complete frame given to [f]. *)
Definition feed {S} (f : S → bytes → S) (bs : bytes * S) (b : bytes) : bytes * S :=
  let r := reassemble cap (bs.1 ++ b) in (r.1.2, foldl f bs.2 r.1.1).

(** However the stream is cut, as long as no length in it is above the cap. *)
Lemma feed_stream {S} (f : S → bytes → S) buf s chunks fs rest :
  reassemble cap buf = ([], buf, false) → reassemble cap (buf ++ mjoin chunks) = (fs, rest, false) →
  foldl (feed f) (buf, s) chunks = (rest, foldl f s fs).
Proof.
  revert buf s fs. induction chunks as [|c chunks IH]; intros buf s fs Hin Hall; cbn [foldl].
  { change (mjoin []) with ([] : bytes) in Hall. rewrite app_nil_r, Hin in Hall. by injection Hall as <- <-. }
  change (mjoin (c :: chunks)) with (c ++ mjoin chunks) in Hall. rewrite app_assoc in Hall.
  destruct (reassemble cap (buf ++ c)) as [[fs1 rest1] cl] eqn:E1.
  assert (cl = false) as ->.
  { destruct cl; [|done]. pose proof (reassemble_cleared (buf ++ c) (mjoin chunks)) as Hc.
    rewrite E1 in Hc. specialize (Hc eq_refl). by rewrite Hall in Hc. }
  rewrite (reassemble_app _ _ _ _ E1) in Hall. injection Hall as <- <- Hcl.
  unfold feed at 2. cbn [fst snd]. rewrite E1. cbn [fst snd].
  pose proof (reassemble_app _ [] _ _ E1) as Hid. rewrite !app_nil_r, E1 in Hid.
  rewrite (IH _ _ (reassemble cap (rest1 ++ mjoin chunks)).1.1); [by rewrite foldl_app| |].
  - destruct (reassemble cap rest1) as [[f' r] c'] eqn:Er. cbn [fst snd] in Hid. injection Hid as Hf -> ->.
    apply (f_equal length) in Hf. rewrite length_app in Hf. by destruct f'; [|cbn in Hf; lia].
  - rewrite <- Hcl. by destruct (reassemble cap (rest1 ++ mjoin chunks)) as [[? ?] ?].
Qed.

(** A stream of frames, cut anywhere. *)
Lemma feed_frames {S} (f : S → bytes → S) s chunks fs :
  (Z.of_nat cap ≤ U32_MAX)%Z → Forall (λ m, length m ≤ cap) fs → mjoin chunks = fs ≫= lengthed →
  foldl (feed f) ([], s) chunks = ([], foldl f s fs).
Proof. intros Hcap Hfs E. apply feed_stream; [done|]. cbn [app]. rewrite E. by apply reassemble_frames. Qed.

End Framing.

(** ** The exchange *)

Section Exchange.
Context `{Hsha : Sha256, Hpq : PqPrimitives, Hlaws : !PqLaws}.

Lemma max_part_u32 : (Z.of_nat MAX_PART ≤ U32_MAX)%Z.
Proof. unfold MAX_PART, MCELIECE_PK_LEN. pose proof (proj1 pq_mceliece_sizes). unfold U32_MAX. lia. Qed.

Lemma decode_loop_encode fuel parts :
  length (encode_parts parts) ≤ fuel → Forall (λ p, length p ≤ MAX_PART) parts → decode_loop fuel (encode_parts parts) = Some parts.
Proof.
  intros Hf H. revert fuel Hf. pose proof max_part_u32 as Hmax. induction H as [|p parts Hp _ IH]; intros fuel Hf; [by destruct fuel|].
  unfold encode_parts in *. rewrite bind_cons in *. rewrite length_app, length_lengthed in Hf.
  destruct fuel as [|fuel]; [lia|]. cbn [decode_loop].
  destruct (lengthed p ++ (parts ≫= lengthed)) as [|b l] eqn:El.
  { apply (f_equal length) in El. rewrite length_app, length_lengthed in El. cbn in El. lia. }
  rewrite <- El. rewrite (proj2 (Nat.ltb_ge _ 4)) by (rewrite length_app, length_lengthed; lia).
  rewrite lengthed_value, Nat2Z.id by lia. rewrite (proj2 (Nat.ltb_ge MAX_PART _)) by done.
  rewrite drop_lengthed, (proj2 (Nat.ltb_ge _ (length p))) by (rewrite length_app; lia).
  rewrite drop_app_length, take_app_length, IH by lia. done.
Qed.

Lemma decode_encode parts : Forall (λ p, length p ≤ MAX_PART) parts → decode_parts (encode_parts parts) = Some parts.
Proof. by apply decode_loop_encode. Qed.

Definition set_in (b : bytes) (s : ClientPqWg) : ClientPqWg := {| ctrl_in := b; ctrl_out := ctrl_out s; tunn := tunn s; drawn := drawn s |}.

Section Node.
Context (node_secret : bytes) (draws : nat → bytes * bytes).

#[local] Notation on_frame := (on_frame node_secret draws).
#[local] Notation on_control_bytes := (on_control_bytes node_secret draws).

Lemma on_frame_in b s msg : on_frame (set_in b s) msg = set_in b (on_frame s msg).
Proof.
  unfold PqExchange.on_frame, handle_offer. cbn [ctrl_in ctrl_out tunn drawn set_in].
  destruct (decode_parts msg) as [[|p1 [|p2 [|p3 [|p4 ps]]]]|]; try done. case_decide; [|done].
  by destruct (responder_encapsulate _ _) as [[cts key]|].
Qed.

Lemma on_frames_in b s msgs : foldl on_frame (set_in b s) msgs = set_in b (foldl on_frame s msgs).
Proof. revert s. induction msgs as [|m msgs IH]; intros s; [done|]. cbn [foldl]. by rewrite on_frame_in, IH. Qed.

Lemma on_control_bytes_is s b :
  on_control_bytes s b =
    set_in (reassemble NODE_MAX_CTRL_FRAME (ctrl_in s ++ b)).1.2 (foldl on_frame s (reassemble NODE_MAX_CTRL_FRAME (ctrl_in s ++ b)).1.1).
Proof. done. Qed.

Lemma on_control_feed s chunks :
  foldl on_control_bytes s chunks =
    let r := foldl (feed NODE_MAX_CTRL_FRAME on_frame) (ctrl_in s, s) chunks in set_in r.1 r.2.
Proof.
  cbv zeta. assert (H : ∀ buf, foldl on_control_bytes (set_in buf s) chunks =
    set_in (foldl (feed NODE_MAX_CTRL_FRAME on_frame) (buf, s) chunks).1 (foldl (feed NODE_MAX_CTRL_FRAME on_frame) (buf, s) chunks).2).
  { revert s. induction chunks as [|c chunks IH]; intros s buf; [done|]. cbn [foldl]. unfold feed at 2 4.
    rewrite <- IH, on_control_bytes_is, on_frames_in. done. }
  rewrite <- H. by destruct s.
Qed.

(** The buffer is bounded whatever the client sends. *)
Lemma node_buffer_bounded s b : length (ctrl_in (on_control_bytes s b)) < 4 + NODE_MAX_CTRL_FRAME.
Proof. rewrite on_control_bytes_is. cbn [ctrl_in set_in]. destruct (reassemble_rest NODE_MAX_CTRL_FRAME (ctrl_in s ++ b)); lia. Qed.

End Node.

(** *** Both ends agree *)

Lemma generate_lengths seeds :
  length (mlkem_ek (generate seeds).2) = MLKEM_EK_LEN ∧ length (mceliece_pk (generate seeds).2) = MCELIECE_PK_LEN.
Proof.
  cbn [generate snd mlkem_ek mceliece_pk]. split; [|apply pq_mceliece]. rewrite (kem_pk_length (KemLaws := pq_mlkem)). apply pq_mlkem_sizes.
Qed.

(** The node's answer to an offer, and what the client makes of it. *)
Lemma exchange_agrees seeds d :
  ∃ cts key, responder_encapsulate (generate seeds).2 d = Ok (cts, key) ∧ finish (generate seeds).1 cts = Ok key ∧
    length (mlkem_ct cts) = MLKEM_CT_LEN ∧ length (mceliece_ct cts) = MCELIECE_CT_LEN.
Proof.
  destruct (generate_lengths seeds) as [Hek Hpk]. unfold responder_encapsulate, new_from_slice, mceliece_pk_from_bytes.
  rewrite (decide_True _ _ Hek), (decide_True _ _ Hpk). cbn [generate snd mlkem_ek mceliece_pk].
  rewrite (kem_pk_valid (KemLaws := pq_mlkem)). cbn [ok_or mbind result_bind]. eexists _, _. split; [done|].
  pose proof (kem_ct_length (KemLaws := pq_mlkem) (kem_generate (Kem := mlkem) seeds.1).2 d.1) as Hl1.
  pose proof (kem_ct_length (KemLaws := pq_mceliece) (kem_generate (Kem := mceliece) seeds.2).2 d.2) as Hl2.
  rewrite (proj2 pq_mlkem_sizes) in Hl1. fold MLKEM_CT_LEN in Hl1. fold MCELIECE_CT_LEN in Hl2.
  unfold finish, decapsulate_slice, mceliece_ct_from_bytes. cbn [mlkem_ct mceliece_ct].
  rewrite (decide_True _ _ Hl1), (decide_True _ _ Hl2). cbn [ok_or mbind result_bind generate fst pi_mlkem_dk pi_mceliece_sk].
  split; [|done]. f_equal. unfold offer_of. cbn [pi_mlkem_ek pi_mceliece_pk].
  pose proof (kem_correct (KemLaws := pq_mlkem) seeds.1 d.1) as C1. pose proof (kem_correct (KemLaws := pq_mceliece) seeds.2 d.2) as C2.
  destruct (kem_generate (Kem := mlkem) seeds.1) as [dk ek], (kem_generate (Kem := mceliece) seeds.2) as [sk pk]. cbn [fst snd] in *.
  destruct (kem_encapsulate ek d.1) as [ct ss], (kem_encapsulate pk d.2) as [ct2 ss2]. cbn [fst snd] in *. by rewrite C1, C2.
Qed.

Lemma on_body_feed c chunks :
  foldl on_body c chunks =
    let r := foldl (feed CLIENT_MAX_CTRL_FRAME try_send) (cc_in c, cc_queue c) chunks in {| cc_in := r.1; cc_queue := r.2 |}.
Proof. revert c. induction chunks as [|b chunks IH]; intros c; [by destruct c|]. cbn [foldl]. by rewrite IH. Qed.

(** C18.  Client and node agree on the key: however the streams of both directions are cut into
    pieces, the node ends with one session for the client's WireGuard key, the client receives one
    answer, and from it derives the same pre-shared key for the node's; nothing is left in either
    buffer. *)
Theorem handshake_agrees seeds client_secret client_pub node_secret node_wg_pub draws up down :
  length client_pub = 32 →
  mjoin up = lengthed (offer_msg client_pub (generate seeds).2) →
  let node := foldl (on_control_bytes node_secret draws) pqwg_default up in
  mjoin down = ctrl_out node →
  let client := foldl on_body {| cc_in := []; cc_queue := [] |} down in
  ∃ key cts_msg,
    tunn node = Some {| my_secret := node_secret; peer_public := client_pub; psk := key; index := 2 |} ∧
    cc_queue client = [cts_msg] ∧
    client_core (generate seeds).1 client_secret node_wg_pub cts_msg =
      Some {| my_secret := client_secret; peer_public := node_wg_pub; psk := key; index := 1 |} ∧
    ctrl_in node = [] ∧ cc_in client = [].
Proof.
  intros Hpub Hup. destruct (generate_lengths seeds) as [Hek Hpk]. destruct (exchange_agrees seeds (draws 0)) as (cts & key & Hr & Hfin & Hl1 & Hl2).
  pose proof pq_mceliece_sizes as [Hs1 Hs2]. fold MCELIECE_PK_LEN in Hs1. fold MCELIECE_CT_LEN in Hs2.
  set (offer := (generate seeds).2) in *. set (cts_msg := encode_parts [mlkem_ct cts; mceliece_ct cts]).
  assert (Hoffer : decode_parts (offer_msg client_pub offer) = Some [client_pub; mlkem_ek offer; mceliece_pk offer]).
  { apply decode_encode. unfold MAX_PART. rewrite !Forall_cons, Hpub, Hek, Hpk. unfold MLKEM_EK_LEN. split_and!; [lia..|done]. }
  assert (Hreply : decode_parts cts_msg = Some [mlkem_ct cts; mceliece_ct cts]).
  { apply decode_encode. unfold MAX_PART. rewrite !Forall_cons, Hl1, Hl2. unfold MLKEM_CT_LEN. split_and!; [lia..|done]. }
  assert (Hframe : on_frame node_secret draws pqwg_default (offer_msg client_pub offer) =
    {| ctrl_in := []; ctrl_out := lengthed cts_msg; tunn := Some {| my_secret := node_secret; peer_public := client_pub; psk := key; index := 2 |};
       drawn := 1 |}).
  { unfold on_frame, handle_offer. rewrite Hoffer, decide_True by done. cbn [drawn pqwg_default pred].
    replace {| mlkem_ek := mlkem_ek offer; mceliece_pk := mceliece_pk offer |} with offer by (by destruct offer). by rewrite Hr. }
  assert (Hnode : foldl (on_control_bytes node_secret draws) pqwg_default up = on_frame node_secret draws pqwg_default (offer_msg client_pub offer)).
  { rewrite on_control_feed. cbn [ctrl_in pqwg_default]. rewrite (feed_frames _ _ _ _ [offer_msg client_pub offer]).
    - cbn [foldl fst snd]. rewrite Hframe. done.
    - unfold NODE_MAX_CTRL_FRAME, MLKEM_EK_LEN, U32_MAX. lia.
    - apply Forall_singleton. unfold offer_msg, encode_parts. rewrite !bind_cons, !length_app, !length_lengthed. cbn [mbind list_bind length].
      unfold NODE_MAX_CTRL_FRAME. rewrite Hpub, Hek, Hpk. lia.
    - rewrite Hup. cbn [mbind list_bind]. by rewrite app_nil_r. }
  cbv zeta. rewrite Hnode, Hframe. cbn [ctrl_out tunn ctrl_in]. intros Hdown. exists key, cts_msg.
  rewrite on_body_feed. cbn [cc_in cc_queue]. rewrite (feed_frames _ _ _ _ [cts_msg]).
  - cbn [foldl fst snd]. split_and!; try done. unfold client_core. rewrite Hreply.
    replace {| mlkem_ct := mlkem_ct cts; mceliece_ct := mceliece_ct cts |} with cts by (by destruct cts). by rewrite Hfin.
  - unfold CLIENT_MAX_CTRL_FRAME, U32_MAX. lia.
  - apply Forall_singleton. unfold cts_msg, encode_parts. rewrite !bind_cons, !length_app, !length_lengthed. cbn [mbind list_bind length].
    rewrite Hl1, Hl2. unfold MLKEM_CT_LEN, CLIENT_MAX_CTRL_FRAME. lia.
  - rewrite Hdown. cbn [mbind list_bind]. by rewrite app_nil_r.
Qed.

(** *** The key commits to the exchange *)

Definition hkdf_collision : Prop := ∃ x y : bytes * bytes * bytes, x ≠ y ∧ hkdf x.1.1 x.1.2 x.2 = hkdf y.1.1 y.1.2 y.2.

Lemma lengthed_inj (a b r r' : bytes) :
  (Z.of_nat (length a) ≤ U32_MAX)%Z → (Z.of_nat (length b) ≤ U32_MAX)%Z → lengthed a ++ r = lengthed b ++ r' → a = b ∧ r = r'.
Proof.
  intros Ha Hb E. assert (Hl : length a = length b).
  { apply (f_equal (λ l, be_value (take 4 l))) in E. rewrite !lengthed_value in E by done. lia. }
  apply (f_equal (drop 4)) in E. rewrite !drop_lengthed in E. by apply app_inj_1 in E.
Qed.

Definition sized (offer : PqOffer) (cts : PqCiphertexts) : Prop :=
  Forall (λ p, Z.of_nat (length p) ≤ U32_MAX)%Z [mlkem_ek offer; mlkem_ct cts; mceliece_pk offer; mceliece_ct cts].

Lemma transcript_inj offer cts offer' cts' :
  sized offer cts → sized offer' cts' → transcript_bytes offer cts = transcript_bytes offer' cts' → offer = offer' ∧ cts = cts'.
Proof.
  destruct offer as [e p], cts as [m c], offer' as [e' p'], cts' as [m' c']. unfold sized, transcript_bytes. cbn [mlkem_ek mlkem_ct mceliece_pk mceliece_ct].
  rewrite !Forall_cons. intros (? & ? & ? & ? & _) (? & ? & ? & ? & _) E. apply app_inv_head in E.
  apply lengthed_inj in E as [-> E]; [|done..]. apply lengthed_inj in E as [-> E]; [|done..]. apply lengthed_inj in E as [-> E]; [|done..].
  rewrite <- (app_nil_r (lengthed c)), <- (app_nil_r (lengthed c')) in E. by apply lengthed_inj in E as [-> _].
Qed.

(** C20.  The key commits to the exchange it came from: if a node that took any offer and a client
    that took any answer end with the same key, the offer was the client's and the answer the
    node's, to the last byte - or a collision of SHA-256 or HKDF is at hand. *)
Theorem same_key_same_exchange seeds offer d cts key cts' :
  responder_encapsulate offer d = Ok (cts, key) → finish (generate seeds).1 cts' = Ok key →
  (offer = (generate seeds).2 ∧ cts' = cts) ∨ sha256_collision ∨ hkdf_collision.
Proof.
  intros Hr Hf. destruct (generate_lengths seeds) as [Hek Hpk]. pose proof pq_mceliece_sizes as [Hs1 Hs2].
  pose proof (kem_ct_length (KemLaws := pq_mlkem) (mlkem_ek offer) d.1) as Hl1. rewrite (proj2 pq_mlkem_sizes) in Hl1.
  pose proof (kem_ct_length (KemLaws := pq_mceliece) (mceliece_pk offer) d.2) as Hl2.
  unfold responder_encapsulate, new_from_slice, mceliece_pk_from_bytes in Hr.
  destruct (decide (length (mlkem_ek offer) = MLKEM_EK_LEN)) as [Ho1|]; [|done]. destruct (kem_valid_pk (mlkem_ek offer)); [|done].
  cbn [ok_or mbind result_bind] in Hr. destruct (decide (length (mceliece_pk offer) = MCELIECE_PK_LEN)) as [Ho2|]; [|done].
  cbn [mbind result_bind] in Hr. injection Hr as <- Hkey. set (cts := Build_PqCiphertexts _ _) in *.
  unfold finish, decapsulate_slice, mceliece_ct_from_bytes in Hf.
  destruct (decide (length (mlkem_ct cts') = MLKEM_CT_LEN)) as [Hc1|]; [|done]. cbn [ok_or mbind result_bind] in Hf.
  destruct (decide (length (mceliece_ct cts') = MCELIECE_CT_LEN)) as [Hc2|]; [|done]. cbn [mbind result_bind] in Hf. injection Hf as Hkey'.
  rewrite <- Hkey' in Hkey. unfold combine in Hkey.
  match type of Hkey with hkdf ?s ?i ?f = hkdf ?s' ?i' ?f' => destruct (decide ((s, i, f) = (s', i', f'))) as [E|Hne] end.
  2:{ right; right. by eexists _, _. }
  injection E as _ E. apply sha256_eq in E as [E|E]; [|by right; left]. left.
  apply transcript_inj in E as [-> ->]; [done| |]; unfold MLKEM_EK_LEN, MLKEM_CT_LEN, MCELIECE_PK_LEN, MCELIECE_CT_LEN in *.
  - unfold sized, cts. cbn [mlkem_ct mceliece_ct]. unfold U32_MAX. rewrite !Forall_cons. split_and!; [lia..|done].
  - change (sized (generate seeds).2 cts'). unfold sized. rewrite !Forall_cons, Hek, Hpk, Hc1, Hc2. unfold U32_MAX. split_and!; [lia..|done].
Qed.

End Exchange.

(** ** An instance *)

Module ToyPq.
Import Toy.

(** A mechanism whose keys are cut from the seed and whose secret is the digest of key and
    ciphertext. *)
Definition toy_kem (pk_len ct_len : nat) : Kem := {|
  kem_dk := bytes;
  kem_pk_len := pk_len;
  kem_ct_len := ct_len;
  kem_generate := λ seed, (seed, Toy.fit pk_len seed);
  kem_valid_pk := λ _, true;
  kem_encapsulate := λ pk r, let ct := Toy.fit ct_len r in (ct, Toy.digest (pk ++ ct));
  kem_decapsulate := λ dk ct, Toy.digest (Toy.fit pk_len dk ++ ct);
|}.

Lemma toy_kem_laws n m : KemLaws (H := toy_kem n m).
Proof. split; intros; [apply Toy.length_fit|done|apply Toy.length_fit|done]. Qed.

#[export] Instance toy_pq : PqPrimitives := {|
  mlkem := toy_kem (Z.to_nat 1568) (Z.to_nat 1568);
  mceliece := toy_kem 64 48;
  hkdf := λ salt ikm info, Toy.digest (salt ++ ikm ++ info);
|}.

#[export] Instance toy_pq_laws : PqLaws.
Proof. split; [apply toy_kem_laws..|done|by vm_compute]. Qed.

Definition seeds : bytes * bytes := (str "mlkem seed", str "mceliece seed").
Definition draws (n : nat) : bytes * bytes := (str "mlkem draw", str "mceliece draw").
Definition client_pub : bytes := Toy.fit 32 (str "client wg").

(** The offer in three pieces. *)
Definition offered : list bytes :=
  let m := lengthed (offer_msg client_pub (generate seeds).2) in [take 3 m; take 700 (drop 3 m); drop 703 m].
Definition node : ClientPqWg := foldl (on_control_bytes (str "node wg") draws) pqwg_default offered.

End ToyPq.

Import Toy ToyPq.

Lemma handshake_agrees_witness :
  ∃ key, psk <$> tunn ToyPq.node = Some key ∧ length (cc_queue (foldl on_body {| cc_in := []; cc_queue := [] |} [ctrl_out ToyPq.node])) = 1.
Proof.
  destruct (handshake_agrees ToyPq.seeds (str "client secret") ToyPq.client_pub (str "node wg") (str "node pub") ToyPq.draws ToyPq.offered
    [ctrl_out ToyPq.node]) as (key & cts & Ht & Hq & _).
  - apply Toy.length_fit.
  - unfold ToyPq.offered. cbv zeta. cbn [mjoin list_join]. by rewrite app_nil_r, <- (drop_drop _ 700 3), !take_drop.
  - apply app_nil_r.
  - exists key. split; [exact (f_equal (fmap psk) Ht)|].
    apply (f_equal length) in Hq. exact Hq.
Defined.

Lemma same_key_same_exchange_witness :
  ∃ cts key, responder_encapsulate (generate ToyPq.seeds).2 (ToyPq.draws 0) = Ok (cts, key) ∧
    (((generate ToyPq.seeds).2 = (generate ToyPq.seeds).2 ∧ cts = cts) ∨ sha256_collision ∨ hkdf_collision).
Proof.
  destruct (exchange_agrees ToyPq.seeds (ToyPq.draws 0)) as (cts & key & Hr & Hf & _). exists cts, key. split; [exact Hr|].
  exact (same_key_same_exchange _ _ _ _ _ _ Hr Hf).
Defined.
