(* ===== verification/Launch.v ===== *)
(** * Launching a tunnel ([crates/nil-datapath/src/launch.rs])

    From the environment, the trust roots a caller supplies and a redeemed or static path to a
    transport and a [TunnelConfig].  Builds without the development fallbacks are modelled: every
    release build, and a debug build that does not ask for them. *)

From S2P Require Import Prelude.
From S2P Require Import Text.
From S2P Require Import Net.
From S2P Require Import Env.
From S2P Require Import Crypto.
From S2P Require Import TransLog.
From S2P Require Import Grant.
From S2P Require Import Registry.
From S2P Require Import Attest.
From S2P Require Import NodeServer.
From S2P Require Import Coordinator.
From S2P Require Import ClientPath.
From S2P Require Import HostNet.
From S2P Require Import Datapath.
From Stdlib Require Import Strings.Byte ZArith Lia.
From stdpp Require Import prelude gmap strings.

Local Open Scope Z_scope.

(** ** Reading the environment *)

Inductive LaunchError :=
  | NotHex (var : bytes) | Not32 (var : bytes) | BadNumber (var : bytes) | BadAddress (var : bytes) | BadTee | BadFloor
  | PolicyWithoutMeasurement | FloorOnTdx | PolicyUnreadable | PolicyInvalid (why : HopFault) | PolicyMissing | PolicyNotUtf8
  | PolicyOnSnp | PinNotHex (i : nat) | BadHop (i : nat) | NoHopsListed | NoPins | NoSelection | NotEmbedded | OneHop | FallbacksUnavailable
  | CoordinatorConfigured | ExchangeFailed | Panicked | RedeemRefused (why : PathFault).

(** [serde_json::from_str] at the policy type. *)
Class PolicyJson := policy_from_str : bytes → option Wire.TdxPolicy.

Section Launch.
Context `{Hjson : PathJson, Hpolicy : PolicyJson} (debug : bool) (env : Env).

Definition env_or (key default : bytes) : bytes := match env_var_ok env key with Some v => v | None => default end.

Definition is_configured : bool :=
  bool_decide (is_Some (env_var_ok env (str "NW_NODE_HOST"))) || bool_decide (is_Some (env_var_ok env (str "NW_PATH"))) ||
  bool_decide (is_Some (env_var_ok env (str "NW_COORDINATOR_URL"))).

(** A 32-byte value in hex, if the variable is set: the body of four readers. *)
Definition hex32_from_env (var : bytes) : result LaunchError (option bytes) :=
  match env_var_ok env var with
  | None => Ok None
  | Some hex =>
      b ← ok_or (from_hex (trim hex)) (NotHex var);
      _ ← ensure (length b =? 32)%nat (Not32 var);
      Ok (Some b)
  end.

Definition tls_spki_sha256_from_env : result LaunchError (option bytes) := hex32_from_env (str "NW_EXPECTED_TLS_SPKI_SHA256").
Definition transparency_log_key_from_env : result LaunchError (option bytes) := hex32_from_env (str "NW_TRANSPARENCY_LOG_KEY").
Definition wg_pub_from_env : result LaunchError (option bytes) := hex32_from_env (str "NW_NODE_WG_PUB").

Definition floor_byte (s : bytes) : result LaunchError Z := ok_or (parse_uint 255 s) BadFloor.

Definition min_tcb_sevsnp_from_env : result LaunchError (option SevSnpTcbFloor) :=
  match env_var_ok env (str "NW_MIN_TCB_SEVSNP") with
  | None => Ok None
  | Some raw =>
      match split_on x2e (trim raw) with
      | [b; t; s; m] =>
          b ← floor_byte b; t ← floor_byte t; s ← floor_byte s; m ← floor_byte m;
          Ok (Some {| fl_fmc := None; fl_bootloader := b; fl_tee := t; fl_snp := s; fl_microcode := m |})
      | _ => Err BadFloor
      end
  end.

Definition tdx_policy_from_env (tee : Tee) : result LaunchError (option Core.TdxPolicy) :=
  match tee, env_var env (str "NW_TDX_POLICY_JSON") with
  | Tdx, Present raw =>
      wire ← ok_or (policy_from_str raw) PolicyUnreadable;
      p ← map_err PolicyInvalid (tdx_policy_from_wire wire);
      Ok (Some p)
  | Tdx, NotPresent => Err PolicyMissing
  | Tdx, NotUnicode _ => Err PolicyNotUtf8
  | SevSnp, Present _ => Err PolicyOnSnp
  | SevSnp, NotUnicode _ => Err PolicyNotUtf8
  | SevSnp, NotPresent => Ok None
  end.

Definition tee_from_env : result LaunchError Tee :=
  let t := env_or (str "NW_EXPECTED_TEE") (str "sev-snp") in
  if decide (t = str "tdx") then Ok Tdx else if decide (t = str "sev-snp") then Ok SevSnp else Err BadTee.

Definition expected_from_env : result LaunchError (option AttestExpectation) :=
  match env_var_ok env (str "NW_EXPECTED_MEASUREMENT") with
  | None =>
      match env_var_os env (str "NW_TDX_POLICY_JSON") with
      | Some _ => Err PolicyWithoutMeasurement
      | None => Ok None
      end
  | Some hex =>
      m ← ok_or (from_hex (trim hex)) (NotHex (str "NW_EXPECTED_MEASUREMENT"));
      tee ← tee_from_env;
      floor ← min_tcb_sevsnp_from_env;
      _ ← ensure (negb (bool_decide (tee = Tdx) && bool_decide (is_Some floor))) FloorOnTdx;
      policy ← tdx_policy_from_env tee;
      spki ← tls_spki_sha256_from_env;
      log_key ← transparency_log_key_from_env;
      Ok (Some {| ae_tee := tee; ae_measurement := m; ae_tls_spki_sha256 := spki; ae_min_tcb_sevsnp := floor;
                  ae_tdx_policy := policy; ae_transparency_log_key := log_key |})
  end.

(** The items of a comma-separated list, trimmed, without empty ones. *)
Definition items (list : bytes) : List.list bytes := filter (λ s, s ≠ []) (trim <$> split_on x2c list).

Fixpoint push_pins (i : nat) (items : list bytes) (pins : list bytes) : result LaunchError (list bytes) :=
  match items with
  | [] => Ok pins
  | item :: items =>
      b ← ok_or (from_hex item) (PinNotHex i);
      push_pins (S i) items (if decide (b ∈ pins) then pins else pins ++ [b])
  end.

Definition pinned_measurements_from_env : result LaunchError (list bytes) :=
  pins ← match env_var_ok env (str "NW_EXPECTED_MEASUREMENT") with
         | Some hex => b ← ok_or (from_hex (trim hex)) (NotHex (str "NW_EXPECTED_MEASUREMENT")); Ok [b]
         | None => Ok []
         end;
  match env_var_ok env (str "NW_PINNED_MEASUREMENTS") with
  | Some list => push_pins 0 (items list) pins
  | None => Ok pins
  end.

(** [str::rsplit_once]. *)
Definition rsplit_once (c : byte) (s : bytes) : option (bytes * bytes) :=
  (λ lr, (rev lr.2, rev lr.1)) <$> split_once c (rev s).

Definition parse_nw_path_hop (item : bytes) : option (bytes * Z * option bytes) :=
  hk ← match split_once x40 item with
       | Some (hp, key_hex) =>
           b ← from_hex (trim key_hex);
           if (length b =? 32)%nat then Some (hp, Some b) else None
       | None => Some (item, None)
       end;
  hp ← rsplit_once x3a hk.1;
  port ← parse_uint U16_MAX hp.2;
  Some (hp.1, port, hk.2).

Fixpoint parse_hops (expected : option AttestExpectation) (i : nat) (items : list bytes) : result LaunchError (list NodeEndpoint) :=
  match items with
  | [] => Ok []
  | item :: items =>
      h ← ok_or (parse_nw_path_hop item) (BadHop i);
      rest ← parse_hops expected (S i) items;
      Ok ({| ep_host := h.1.1; ep_port := h.1.2; ep_kind := KMasque; ep_wg_pub := h.2; ep_expected := expected; ep_grant := None |} :: rest)
  end.

Definition path_from_env (expected : option AttestExpectation) : result LaunchError (option (list NodeEndpoint)) :=
  match env_var_ok env (str "NW_PATH") with
  | None => Ok None
  | Some spec =>
      hops ← parse_hops expected 0 (items spec);
      _ ← ensure (negb (bool_decide (hops = []))) NoHopsListed;
      Ok (Some hops)
  end.

Record TunnelParams := {
  p_host : bytes; p_port : Z; p_tun_name : bytes; p_client_ip : Ipv4Addr; p_peer_ip : Ipv4Addr; p_dns : list IpAddr;
  p_kill_switch : bool; p_allow_unattested : bool; p_expected : option AttestExpectation; p_wg_pub : option bytes;
}.

Fixpoint parse_dns (servers : list bytes) : result LaunchError (list IpAddr) :=
  match servers with
  | [] => Ok []
  | s :: servers => ip ← ok_or (parse_ip (trim s)) (BadAddress (str "NW_DNS")); rest ← parse_dns servers; Ok (ip :: rest)
  end.

Definition params_from_env : result LaunchError TunnelParams :=
  let host := env_or (str "NW_NODE_HOST") (str "node") in
  port ← ok_or (parse_uint U16_MAX (env_or (str "NW_NODE_PORT") (str "443"))) (BadNumber (str "NW_NODE_PORT"));
  let tun_name := env_or (str "NW_TUN") (str "nil0") in
  client_ip ← ok_or (parse_ipv4 (env_or (str "NW_CLIENT_IP") (str "10.74.0.2"))) (BadAddress (str "NW_CLIENT_IP"));
  peer_ip ← ok_or (parse_ipv4 (env_or (str "NW_PEER_IP") (str "10.74.0.1"))) (BadAddress (str "NW_PEER_IP"));
  dns ← parse_dns (filter (λ s, s ≠ []) (split_on x2c (env_or (str "NW_DNS") (str "1.1.1.1"))));
  let kill_switch := negb (bool_decide (env_or (str "NW_KILLSWITCH") (str "1") = str "0")) in
  let allow_unattested := dev_env_flag debug env (str "NW_ALLOW_UNATTESTED") in
  expected ← expected_from_env;
  wg_pub ← wg_pub_from_env;
  Ok {| p_host := host; p_port := port; p_tun_name := tun_name; p_client_ip := client_ip; p_peer_ip := peer_ip; p_dns := dns;
        p_kill_switch := kill_switch; p_allow_unattested := allow_unattested; p_expected := expected; p_wg_pub := wg_pub |}.

(** ** Trust and assembly *)

Definition apply_direct_trust (params : TunnelParams) (client_pins : list bytes) (client_log_key : bytes) : result LaunchError TunnelParams :=
  _ ← ensure (negb (bool_decide (client_pins = []))) NoPins;
  e ← ok_or (p_expected params) NoSelection;
  _ ← ensure (bool_decide (ae_measurement e ∈ client_pins)) NotEmbedded;
  let e := {| ae_tee := ae_tee e; ae_measurement := ae_measurement e; ae_tls_spki_sha256 := ae_tls_spki_sha256 e;
              ae_min_tcb_sevsnp := ae_min_tcb_sevsnp e; ae_tdx_policy := ae_tdx_policy e;
              ae_transparency_log_key := Some client_log_key |} in
  Ok {| p_host := p_host params; p_port := p_port params; p_tun_name := p_tun_name params; p_client_ip := p_client_ip params;
        p_peer_ip := p_peer_ip params; p_dns := p_dns params; p_kill_switch := p_kill_switch params; p_allow_unattested := false;
        p_expected := Some e; p_wg_pub := p_wg_pub params |}.

Definition is_single_hop (path : option (list NodeEndpoint)) : bool :=
  match path with Some hops => (length hops <? 2)%nat | None => true end.

(** Which transport was built, and the parts of its configuration that matter. *)
Inductive Assembled :=
  | OverPath (hops : list NodeEndpoint) (nested_client_ip : Ipv4Addr) (allow_unattested : bool)
  | OverPqWg (allow_unattested : bool)
  | OverMasque (allow_unattested : bool).

(** The transport, the node its packets are routed to, and the inner MTU; [hops[0]] of an empty
    path panics. *)
Definition build_transport (p : TunnelParams) (path : option (list NodeEndpoint)) : result LaunchError (Assembled * NodeEndpoint * Z) :=
  match path with
  | Some ((entry :: _) as hops) => Ok (OverPath hops (p_client_ip p) (p_allow_unattested p), entry, 1280)
  | Some [] => Err Panicked
  | None =>
      let node := {| ep_host := p_host p; ep_port := p_port p; ep_kind := KMasque; ep_wg_pub := p_wg_pub p;
                     ep_expected := p_expected p; ep_grant := None |} in
      match p_wg_pub p with
      | Some _ => Ok (OverPqWg (p_allow_unattested p), node, 1232)
      | None => Ok (OverMasque (p_allow_unattested p), node, 1280)
      end
  end.

Definition tunnel_config (p : TunnelParams) (routing_node : NodeEndpoint) (mtu : Z) : TunnelConfig :=
  {| node := routing_node; tun_name := p_tun_name p; client_ip := p_client_ip p; Datapath.peer_ip := p_peer_ip p;
     Datapath.prefix := 24; mtu := mtu; dns := p_dns p; kill_switch := p_kill_switch p; also_except := [] |}.

Definition assemble (p : TunnelParams) (path : option (list NodeEndpoint)) : result LaunchError (Assembled * TunnelConfig) :=
  _ ← ensure (debug || negb (is_single_hop path)) OneHop;
  _ ← ensure (bool_decide (env_var_os env (str "NW_CASCADE") = None) && bool_decide (env_var_os env (str "NW_SELECTOR") = None))
        FallbacksUnavailable;
  built ← build_transport p path;
  let '(transport, routing_node, mtu) := built in
  Ok (transport, tunnel_config p routing_node mtu).

(** ** The launchers *)

(** [redeem_path]: the exchange with the Coordinator, then what is made of its answer. *)
Definition redeemed (exchange : option (Z * list bytes)) (client_pins : list bytes) (client_log_key : option bytes) :
    result LaunchError (list NodeEndpoint) :=
  answer ← ok_or exchange ExchangeFailed;
  map_err RedeemRefused (redeem_response (negb debug) answer.1 answer.2 client_pins client_log_key).

Definition from_env_with_token_and_trust (exchange : option (Z * list bytes)) (client_pins : list bytes) (client_log_key : option bytes) :
    result LaunchError (Assembled * TunnelConfig) :=
  p ← params_from_env;
  hops ← redeemed exchange client_pins client_log_key;
  assemble p (Some hops).

Definition from_env_with_token (exchange : option (Z * list bytes)) : result LaunchError (Assembled * TunnelConfig) :=
  client_pins ← pinned_measurements_from_env;
  client_log_key ← transparency_log_key_from_env;
  from_env_with_token_and_trust exchange client_pins client_log_key.

Definition from_env (exchange : option (Z * list bytes)) : result LaunchError (Assembled * TunnelConfig) :=
  p ← params_from_env;
  path ← match env_var_ok env (str "NW_COORDINATOR_URL") with
         | Some _ =>
             client_pins ← pinned_measurements_from_env;
             client_log_key ← transparency_log_key_from_env;
             Some <$> redeemed exchange client_pins client_log_key
         | None => path_from_env (p_expected p)
         end;
  assemble p path.

Definition from_env_with_direct_trust (client_pins : list bytes) (client_log_key : bytes) : result LaunchError (Assembled * TunnelConfig) :=
  _ ← ensure (bool_decide (env_var_ok env (str "NW_COORDINATOR_URL") = None)) CoordinatorConfigured;
  p ← params_from_env;
  p ← apply_direct_trust p client_pins client_log_key;
  path ← path_from_env (p_expected p);
  assemble p path.

End Launch.

(** ** The release posture *)

Section Posture.
Context `{Hjson : PathJson, Hpolicy : PolicyJson}.

(** A hop the client's own roots vouch for. *)
Definition rooted (pins : list bytes) (log_key : bytes) (ep : NodeEndpoint) : Prop :=
  ∃ e, ep_expected ep = Some e ∧ ae_measurement e ∈ pins ∧ ae_transparency_log_key e = Some log_key.

Lemma parse_hops_expected expected i items hops :
  parse_hops expected i items = Ok hops → Forall (λ ep, ep_expected ep = expected) hops.
Proof.
  revert i hops. induction items as [|item items IH]; intros i hops; cbn [parse_hops]; [by intros [= <-]|].
  intros H. inv_ok H. injection H as <-. constructor; [done|]. by eapply IH.
Qed.

Lemma path_from_env_expected env expected hops :
  path_from_env env expected = Ok (Some hops) → Forall (λ ep, ep_expected ep = expected) hops.
Proof.
  unfold path_from_env. destruct (env_var_ok env (str "NW_PATH")); [|done]. intros H. inv_ok H. injection H as <-.
  by eapply parse_hops_expected.
Qed.

Lemma assemble_release env p path a cfg :
  assemble false env p path = Ok (a, cfg) →
  ∃ entry second rest, path = Some (entry :: second :: rest) ∧
    a = OverPath (entry :: second :: rest) (p_client_ip p) (p_allow_unattested p) ∧
    node cfg = entry ∧ also_except cfg = [] ∧ kill_switch cfg = p_kill_switch p.
Proof.
  unfold assemble. destruct path as [[|entry [|second rest]]|]; try done. cbn [is_single_hop length Nat.ltb Nat.leb orb negb ensure mbind result_bind].
  intros (_ & _ & [= <- <-])%bind_Ok.
  by exists entry, second, rest.
Qed.

Lemma params_release env p :
  params_from_env false env = Ok p →
  p_allow_unattested p = false ∧ p_kill_switch p = negb (bool_decide (env_var_ok env (str "NW_KILLSWITCH") = Some (str "0"))).
Proof.
  unfold params_from_env. intros H. inv_ok H. injection H as <-. cbn [p_allow_unattested p_kill_switch]. split; [done|].
  unfold env_or. f_equal. destruct (env_var_ok env (str "NW_KILLSWITCH")); apply bool_decide_ext; naive_solver.
Qed.

Lemma redeemed_rooted exchange pins key hops :
  pins ≠ [] → redeemed false exchange pins (Some key) = Ok hops → Forall (rooted pins key) hops.
Proof.
  intros Hp. unfold redeemed. destruct exchange as [[status chunks]|]; [|done]. cbn [ok_or mbind result_bind fst snd negb].
  destruct (redeem_response true status chunks pins (Some key)) as [eps|] eqn:E; [|done]. intros [= ->].
  apply redeem_response_ok in E as (wire & _ & _ & _ & Hl & Hhop). apply Forall_lookup. intros i ep Hi.
  destruct (lookup_lt_is_Some_2 wire i) as [h Hh]; [apply lookup_lt_Some in Hi; lia|].
  destruct (Hhop i h Hh) as (ep' & Hi' & He & Hc). assert (ep' = ep) as -> by congruence.
  destruct (hop_to_endpoint_release _ _ _ _ He Hc) as [e Hok]. exists e. destruct Hok. auto.
Qed.

(** The two launchers of a release client. *)
Definition release_launch (env : Env) (pins : list bytes) (key : bytes) (exchange : option (Z * list bytes)) (direct : bool) :
    result LaunchError (Assembled * TunnelConfig) :=
  if direct then from_env_with_direct_trust false env pins key
  else from_env_with_token_and_trust false env exchange pins (Some key).

Lemma release_launch_spec env pins key exchange direct a cfg :
  pins ≠ [] → release_launch env pins key exchange direct = Ok (a, cfg) →
  ∃ entry second rest ip, a = OverPath (entry :: second :: rest) ip false ∧
    node cfg = entry ∧ also_except cfg = [] ∧
    kill_switch cfg = negb (bool_decide (env_var_ok env (str "NW_KILLSWITCH") = Some (str "0"))) ∧
    Forall (rooted pins key) (entry :: second :: rest).
Proof.
  intros Hp. unfold release_launch. destruct direct.
  - unfold from_env_with_direct_trust.
    intros (_ & _ & (p & [_ Hks]%params_release & (p' & Hd & (path & Hpf & H)%bind_Ok)%bind_Ok)%bind_Ok)%bind_Ok.
    unfold apply_direct_trust in Hd. inv_ok Hd. reflect_bools. injection Hd as <-.
    apply assemble_release in H as (entry & second & rest & -> & -> & Hn & Ha & Hk). apply path_from_env_expected in Hpf.
    exists entry, second, rest. eexists. cbn [p_allow_unattested p_kill_switch p_expected] in *. split_and!; try done; [by rewrite Hk|].
    eapply Forall_impl; [exact Hpf|]. intros ep Hep. eexists. split; [exact Hep|]. cbn [ae_measurement ae_transparency_log_key]. done.
  - unfold from_env_with_token_and_trust. intros (p & [Hua Hks]%params_release & (hops & Hr & H)%bind_Ok)%bind_Ok.
    apply assemble_release in H as (entry & second & rest & [= ->] & -> & Hn & Ha & Hk).
    rewrite Hua. exists entry, second, rest, (p_client_ip p). split_and!; try done; [by rewrite Hk|]. by eapply redeemed_rooted.
Qed.

End Posture.

(** ** To the gate *)

Section Gate.
Context `{Hjson : PathJson, Hpolicy : PolicyJson, Hsha : Sha256, H384 : Sha384, H512 : Sha512, Hb64 : Base64, Hed : Ed25519,
  Hsev : SevCrate, Hdcap : DcapCrate, Hx509 : X509}.

(** A tunnel to a hop the client's roots vouch for. *)
Lemma rooted_gate pins key ep cert headers nonce clock r :
  rooted pins key ep → on_connect_response true cert headers (policy_for ep) false nonce clock = Ok r →
  ∃ policy c spki evidence, policy_for ep = Some policy ∧ expected_measurement policy ∈ pins ∧
    ap_transparency_log_key policy = Some key ∧ cert = Some c ∧ spki_of c = Some spki ∧
    ap_tls_spki_sha256 policy = Some (sha256 spki) ∧ acceptable evidence spki policy nonce clock UpToDate.
Proof.
  intros (e & He & Hm & Hl) Hg.
  apply on_connect_response_release in Hg as (p & pin & c & spki & hex & ev & code & st & Hpol & Hsp & -> & Hs & _ & _ & _ & _ & Hacc & _).
  pose proof Hpol as Hpol'. unfold policy_for in Hpol'. rewrite He in Hpol'. injection Hpol' as <-.
  assert (st = UpToDate) as -> by (by destruct (ac_status _ _ _ _ _ _ Hacc)).
  eexists _, c, spki, ev. split_and!; [exact Hpol|exact Hm|exact Hl|done|exact Hs| |exact Hacc].
  rewrite Hsp. f_equal. symmetry. by apply (ac_spki _ _ _ _ _ _ Hacc).
Qed.

(** C17.  What a release client launches is split and pinned: whatever its environment holds and
    whatever the Coordinator answers, a launch that succeeds is a path of at least two hops; only
    the entry is reached beside the tunnel; the kill switch is on unless the environment turns it
    off in so many words; and a tunnel to a hop comes up only on evidence for the live key of the
    node, under a measurement of the embedded bundle and its transparency log. *)
Theorem release_launch_pinned env pins key exchange direct a cfg :
  pins ≠ [] → release_launch env pins key exchange direct = Ok (a, cfg) →
  ∃ entry second rest ip, a = OverPath (entry :: second :: rest) ip false ∧
    node cfg = entry ∧ also_except cfg = [] ∧
    kill_switch cfg = negb (bool_decide (env_var_ok env (str "NW_KILLSWITCH") = Some (str "0"))) ∧
    ∀ ep cert headers nonce clock r,
      ep ∈ entry :: second :: rest → on_connect_response true cert headers (policy_for ep) false nonce clock = Ok r →
      ∃ policy c spki evidence, policy_for ep = Some policy ∧ expected_measurement policy ∈ pins ∧
        ap_transparency_log_key policy = Some key ∧ cert = Some c ∧ spki_of c = Some spki ∧
        ap_tls_spki_sha256 policy = Some (sha256 spki) ∧ acceptable evidence spki policy nonce clock UpToDate.
Proof.
  intros Hp H. apply release_launch_spec in H as (entry & second & rest & ip & -> & Hn & Ha & Hk & Hr); [|done].
  exists entry, second, rest, ip. do 4 (split; [done|]). intros ep cert headers nonce clock r Hep Hg.
  rewrite Forall_forall in Hr. by eapply rooted_gate; [apply Hr|].
Qed.

End Gate.

(** ** A launch *)

Section Witnesses.
Import Toy ToyLog ToyAttest ToyJson.

#[local] Instance launch_x509 : X509 := Some.
#[local] Instance no_policies : PolicyJson := λ _, None.

Definition w_log_key : bytes := vk_to_bytes (verifying_key log_sk).
Definition w_exchange : option (Z * list bytes) := Some (200, w_chunks).

Definition w_launched : result LaunchError (Assembled * TunnelConfig) := release_launch ∅ w_client_pins w_log_key w_exchange false.

Lemma release_launch_pinned_witness :
  is_ok w_launched = true ∧
  ∃ a cfg entry second rest ip, w_launched = Ok (a, cfg) ∧ a = OverPath (entry :: second :: rest) ip false ∧ kill_switch cfg = true.
Proof.
  assert (E : is_ok w_launched = true) by (vm_compute; reflexivity). split; [exact E|].
  destruct w_launched as [[a cfg]|e] eqn:El; [|discriminate E].
  destruct (release_launch_pinned ∅ w_client_pins w_log_key w_exchange false a cfg) as (entry & second & rest & ip & Ha & _ & _ & Hk & _);
    [discriminate|exact El|].
  exists a, cfg, entry, second, rest, ip. split_and!; [reflexivity|exact Ha|exact Hk].
Defined.

End Witnesses.

(** Without a path of two hops a release build launches nothing. *)
Example single_node_refused `{PathJson, PolicyJson} env p : assemble false env p None = Err OneHop.
Proof. done. Qed.
