(* ===== verification/Settings.v ===== *)
(** * Settings and trust roots of the desktop client ([client/src-tauri])

    The bundle of trust roots a client is built with ([trust_bundle.rs]) and what is left of it
    under the environment ([trust.rs]); the settings file and how it becomes the environment the
    tunnel is launched from ([config.rs]); the guards on control-plane addresses
    ([netpolicy.rs], [nil-core/src/net.rs]). *)

From S2P Require Import Prelude.
From S2P Require Import Text.
From S2P Require Import Net.
From S2P Require Import Env.
From S2P Require Import Crypto.
From S2P Require Import Token.
From S2P Require Import Wallet.
From Stdlib Require Import Strings.Byte ZArith Lia.
From stdpp Require Import prelude gmap strings.

Local Open Scope Z_scope.

(** ** Addresses of the control plane *)

(** What the url crate makes of an address. *)
Inductive UrlHost := Domain (name : bytes) | HostV4 (ip : Ipv4Addr) | HostV6 (ip : Ipv6Addr).
Record Url := { url_scheme : bytes; url_host : option UrlHost }.
Class UrlCrate := url_parse : bytes → option Url.

Inductive UrlError := BadUrl | NoHost | BadScheme | Plaintext.

Section Urls.
Context `{Hurl : UrlCrate} (debug : bool).

Definition parse_network_url (raw : bytes) : result UrlError Url :=
  parsed ← ok_or (url_parse (trim raw)) BadUrl;
  _ ← ensure (bool_decide (is_Some (url_host parsed))) NoHost;
  Ok parsed.

Definition url_is_loopback (url : Url) : bool :=
  match url_host url with
  | Some (Domain host) => eq_ignore_ascii_case host (str "localhost")
  | Some (HostV4 ip) => ip_is_loopback (V4 ip)
  | Some (HostV6 ip) => ip_is_loopback (V6 ip)
  | None => false
  end.

Definition require_https_or_debug_loopback (url : bytes) : result UrlError unit :=
  parsed ← parse_network_url url;
  if bool_decide (url_scheme parsed = str "https") then Ok tt
  else if negb (bool_decide (url_scheme parsed = str "http")) then Err BadScheme
  else if debug && url_is_loopback parsed then Ok tt
  else Err Plaintext.

Definition require_tls_or_loopback (url : bytes) : result UrlError unit :=
  parsed ← parse_network_url url;
  if bool_decide (url_scheme parsed = str "https") then Ok tt
  else if negb (bool_decide (url_scheme parsed = str "http")) then Err BadScheme
  else if url_is_loopback parsed then Ok tt
  else Err Plaintext.

Definition require_safe_control_url (env : Env) (url : bytes) : result UrlError unit :=
  if dev_env_flag debug env (str "NW_INSECURE_CONTROL_PLANE") then Ok tt
  else require_https_or_debug_loopback url.

End Urls.

(** ** The bundle ([trust_bundle.rs]) *)

Definition TRUST_BUNDLE_VERSION : Z := 1.

Record TrustBundleV1 := {
  tb_version : Z;
  tb_issuer_public_keys_der : list bytes;
  tb_node_measurements : list bytes;
  tb_transparency_log_ed25519_key : bytes;
}.

Record ValidatedTrustBundle := {
  vb_issuer_public_keys_der : list bytes;
  vb_node_measurements : list bytes;
  vb_transparency_log_ed25519_key : bytes;
}.

(** [serde_json::from_str] at the bundle type. *)
Class BundleJson := bundle_from_str : bytes → option TrustBundleV1.

Inductive BundleError :=
  | BundleJsonInvalid | BundleVersion | NoIssuerKeys | NoMeasurements | NotLowerHex | NotDer (i : nat) | DuplicateKey (i : nat)
  | MeasurementLength (i : nat) | DuplicateMeasurement (i : nat) | LogKeyLength | UnusableKey.

Definition decode_lower_hex (value : bytes) : result BundleError bytes :=
  if bool_decide (value = []) || negb (Nat.even (length value)) then Err NotLowerHex
  else if negb (forallb is_lower_hex value) then Err NotLowerHex
  else ok_or (decode_pairs lower_nib value) NotLowerHex.

(** The length bytes of the long form, on 64-bit [usize]. *)
Fixpoint der_length (acc : Z) (octets : bytes) : option Z :=
  match octets with
  | [] => Some acc
  | b :: octets =>
      let next := acc * 256 + b2z b in
      if U64_MAX <? next then None else der_length next octets
  end.

Definition is_complete_der_sequence (der : bytes) : bool :=
  match der with
  | tag :: first :: body =>
      if negb (bool_decide (tag = x30)) then false
      else if Z.land (b2z first) 0x80 =? 0 then (2 + b2z first =? Z.of_nat (length der))
      else
        let count := Z.to_nat (Z.land (b2z first) 0x7f) in
        if (count =? 0)%nat || (8 <? count)%nat || (length der <? 2 + count)%nat then false
        else if bool_decide (head body = Some x00) then false
        else
          match der_length 0 (take count body) with
          | None => false
          | Some len => if len <? 128 then false else (Z.of_nat (2 + count) + len =? Z.of_nat (length der))
          end
  | _ => false
  end.

Fixpoint push_issuer_keys (i : nat) (values keys : list bytes) : result BundleError (list bytes) :=
  match values with
  | [] => Ok keys
  | value :: values =>
      der ← decode_lower_hex value;
      _ ← ensure (negb (bool_decide (der = [])) && is_complete_der_sequence der) (NotDer i);
      _ ← ensure (negb (bool_decide (der ∈ keys))) (DuplicateKey i);
      push_issuer_keys (S i) values (keys ++ [der])
  end.

Fixpoint push_measurements (i : nat) (values ms : list bytes) : result BundleError (list bytes) :=
  match values with
  | [] => Ok ms
  | value :: values =>
      m ← decode_lower_hex value;
      _ ← ensure (length m =? 48)%nat (MeasurementLength i);
      _ ← ensure (negb (bool_decide (m ∈ ms))) (DuplicateMeasurement i);
      push_measurements (S i) values (ms ++ [m])
  end.

Section Bundle.
Context `{Hjson : BundleJson}.

(** The canonical text it also returns is for the build script. *)
Definition validate_trust_bundle_json (raw : bytes) : result BundleError ValidatedTrustBundle :=
  bundle ← ok_or (bundle_from_str raw) BundleJsonInvalid;
  _ ← ensure (tb_version bundle =? TRUST_BUNDLE_VERSION) BundleVersion;
  _ ← ensure (negb (bool_decide (tb_issuer_public_keys_der bundle = []))) NoIssuerKeys;
  _ ← ensure (negb (bool_decide (tb_node_measurements bundle = []))) NoMeasurements;
  issuer_public_keys_der ← push_issuer_keys 0 (tb_issuer_public_keys_der bundle) [];
  node_measurements ← push_measurements 0 (tb_node_measurements bundle) [];
  transparency ← decode_lower_hex (tb_transparency_log_ed25519_key bundle);
  _ ← ensure (length transparency =? 32)%nat LogKeyLength;
  Ok {| vb_issuer_public_keys_der := issuer_public_keys_der; vb_node_measurements := node_measurements;
        vb_transparency_log_ed25519_key := transparency |}.

(** ** The roots ([trust.rs]) *)

Record TrustRoots := { tr_issuer_public_keys_der : list bytes; tr_node_measurements : list bytes; tr_log_key : bytes }.

Context `{Hrsa : BlindRsa, Hsha : Sha256}.

Definition parse_roots (raw : bytes) : result BundleError TrustRoots :=
  validated ← validate_trust_bundle_json raw;
  _ ← map_err (λ _, UnusableKey) (from_public_ders (vb_issuer_public_keys_der validated));
  Ok {| tr_issuer_public_keys_der := vb_issuer_public_keys_der validated; tr_node_measurements := vb_node_measurements validated;
        tr_log_key := vb_transparency_log_ed25519_key validated |}.

(** [raw]: the text the build embedded; [expect] panics on one that does not parse. *)
Definition load_embedded (raw : bytes) : result BundleError (option TrustRoots) :=
  if bool_decide (raw = []) then Ok None else Some <$> parse_roots raw.

End Bundle.

Inductive TrustError := PinNotHex (var : bytes) | PinLength (var : bytes) | PinsDisjoint | LogKeyNotHex | LogKeyNot32 | LogKeyDiffers.

Section Roots.
Context (embedded : option TrustRoots) (env : Env).

Definition push_measurement (strict : bool) (var : bytes) (values : list bytes) (value : bytes) : result TrustError (list bytes) :=
  match trust_decode_hex value with
  | None => if strict then Err (PinNotHex var) else Ok values
  | Some b =>
      _ ← ensure (negb strict || (length b =? 48)%nat) (PinLength var);
      Ok (if bool_decide (b ∈ values) then values else values ++ [b])
  end.

Fixpoint push_pinned (strict : bool) (items values : list bytes) : result TrustError (list bytes) :=
  match items with
  | [] => Ok values
  | value :: items => values ← push_measurement strict (str "NW_PINNED_MEASUREMENTS") values value; push_pinned strict items values
  end.

Definition configured_measurements (strict : bool) : result TrustError (list bytes) :=
  values ← match env_var_ok env (str "NW_EXPECTED_MEASUREMENT") with
           | Some value =>
               if bool_decide (trim value = []) then Ok []
               else push_measurement strict (str "NW_EXPECTED_MEASUREMENT") [] (trim value)
           | None => Ok []
           end;
  match env_var_ok env (str "NW_PINNED_MEASUREMENTS") with
  | Some list => push_pinned strict (filter (λ s, s ≠ []) (trim <$> split_on x2c list)) values
  | None => Ok values
  end.

Definition effective_node_measurements_from_env : result TrustError (list bytes) :=
  configured ← configured_measurements (bool_decide (is_Some embedded));
  match embedded with
  | None => Ok configured
  | Some roots =>
      if bool_decide (configured = []) then Ok (tr_node_measurements roots)
      else
        let effective := Wallet.intersection (tr_node_measurements roots) configured in
        if bool_decide (effective = []) then Err PinsDisjoint else Ok effective
  end.

Definition decode_fixed_32 (value : bytes) : result TrustError bytes :=
  b ← ok_or (trust_decode_hex value) LogKeyNotHex;
  _ ← ensure (length b =? 32)%nat LogKeyNot32;
  Ok b.

Definition effective_transparency_log_key_from_env : result TrustError (option bytes) :=
  configured ← match env_var_ok env (str "NW_TRANSPARENCY_LOG_KEY") with
               | Some value => if bool_decide (trim value = []) then Ok None else Some <$> decode_fixed_32 (trim value)
               | None => Ok None
               end;
  match embedded with
  | None => Ok configured
  | Some roots =>
      match configured with
      | Some key => if bool_decide (key ≠ tr_log_key roots) then Err LogKeyDiffers else Ok (Some (tr_log_key roots))
      | None => Ok (Some (tr_log_key roots))
      end
  end.

End Roots.

(** ** Settings ([config.rs]) *)

Definition DEFAULT_PORTAL_URL : bytes := str "https://api.nilvpn.net".
Definition DEFAULT_COORDINATOR_URL : bytes := str "https://ctrl.nilvpn.net".

Record ClientConfig := {
  portal_url : bytes;
  coordinator_url : bytes;
  monero_address : bytes;
  expected_measurement_hex : bytes;
  expected_tee : bytes;
  cc_kill_switch : bool;
  node_host : bytes;
}.

Definition live_defaults : ClientConfig :=
  {| portal_url := DEFAULT_PORTAL_URL; coordinator_url := DEFAULT_COORDINATOR_URL; monero_address := []; expected_measurement_hex := [];
     expected_tee := str "sev-snp"; cc_kill_switch := true; node_host := [] |}.

Class ConfigJson := { config_from_slice : bytes → option ClientConfig; config_to_vec : ClientConfig → option bytes }.
Class ConfigJsonLaws `{ConfigJson} : Prop := config_json_roundtrip cfg body : config_to_vec cfg = Some body → config_from_slice body = Some cfg.

Definition set_or_clear (key val : bytes) (env : Env) : Env := if bool_decide (val = []) then delete key env else <[key := val]> env.

Definition seeded (env : Env) (key dflt : bytes) : bytes :=
  match env_var_ok env key with Some s => if bool_decide (s = []) then dflt else s | None => dflt end.

Definition config_from_env (env : Env) : ClientConfig :=
  let d := live_defaults in
  {| portal_url := seeded env (str "PORTAL_URL") (portal_url d);
     coordinator_url := seeded env (str "NW_COORDINATOR_URL") (coordinator_url d);
     monero_address := seeded env (str "NW_MONERO_ADDRESS") (monero_address d);
     expected_measurement_hex := seeded env (str "NW_EXPECTED_MEASUREMENT") (expected_measurement_hex d);
     expected_tee := seeded env (str "NW_EXPECTED_TEE") (expected_tee d);
     cc_kill_switch := match env_var_ok env (str "NW_KILLSWITCH") with
                       | Some v => negb (bool_decide (v = str "0"))
                       | None => cc_kill_switch d
                       end;
     node_host := seeded env (str "NW_NODE_HOST") (node_host d) |}.

Definition apply_env (self : ClientConfig) (env : Env) : Env :=
  let env := set_or_clear (str "PORTAL_URL") (portal_url self) env in
  let env := set_or_clear (str "NW_COORDINATOR_URL") (coordinator_url self) env in
  let env := set_or_clear (str "NW_NODE_HOST") (node_host self) env in
  let env := set_or_clear (str "NW_EXPECTED_MEASUREMENT") (expected_measurement_hex self) env in
  let env := set_or_clear (str "NW_EXPECTED_TEE") (expected_tee self) env in
  <[str "NW_KILLSWITCH" := if cc_kill_switch self then str "1" else str "0"]> env.

(** The settings file, [None] when there is none, and the process environment. *)
Record Desk := { file : option bytes; environ : Env }.

Record ConfigState := { cfg : ClientConfig }.

Section Config.
Context `{Hjson : ConfigJson}.

Definition load (d : Desk) : ClientConfig :=
  match file d with
  | Some bytes => match config_from_slice bytes with Some cfg => cfg | None => config_from_env (environ d) end
  | None => config_from_env (environ d)
  end.

(** [fails]: a step up to the rename failed, and the file is what it was; a directory that cannot
    be synced is not reported. *)
Definition write_private_atomic (fails : bool) (body : bytes) (d : Desk) : Desk * bool :=
  if fails then (d, false) else ({| file := Some body; environ := environ d |}, true).

Definition save (fails : bool) (self : ClientConfig) (d : Desk) : Desk * bool :=
  match config_to_vec self with
  | None => (d, false)
  | Some body => write_private_atomic fails body d
  end.

Definition config_new (d : Desk) : ConfigState * Desk :=
  let cfg := load d in ({| cfg := cfg |}, {| file := file d; environ := apply_env cfg (environ d) |}).

Definition update (fails : bool) (f : ClientConfig → ClientConfig) (self : ConfigState) (d : Desk) : ConfigState * Desk * bool :=
  let new := f (cfg self) in
  let saved := save fails new d in
  if saved.2 then ({| cfg := new |}, {| file := file saved.1; environ := apply_env new (environ saved.1) |}, true)
  else (self, saved.1, false).

Definition set (fails : bool) (new : ClientConfig) (self : ConfigState) (d : Desk) : ConfigState * Desk * bool :=
  let saved := save fails new d in
  if saved.2 then ({| cfg := new |}, {| file := file saved.1; environ := apply_env new (environ saved.1) |}, true)
  else (self, saved.1, false).

Definition reapply_env (self : ConfigState) (d : Desk) : Desk :=
  {| file := file d; environ := apply_env (cfg self) (environ d) |}.

End Config.

(** ** Lemmas *)

Section RootsLemmas.
Context `{Hjson : BundleJson, Hrsa : BlindRsa, Hsha : Sha256}.

Lemma push_measurements_ok i values ms out :
  push_measurements i values ms = Ok out → NoDup ms → Forall (λ m, length m = 48%nat) ms →
  NoDup out ∧ Forall (λ m, length m = 48%nat) out ∧ ms `prefix_of` out ∧ length out = (length ms + length values)%nat.
Proof.
  revert i ms. induction values as [|v values IH]; intros i ms; cbn [push_measurements].
  { intros [= <-] ??. split_and!; [done|done|done|cbn; lia]. }
  intros (m & _ & (_ & Hl%ensure_Ok & (_ & Hd%ensure_Ok & H)%bind_Ok)%bind_Ok)%bind_Ok Hnd Hf.
  apply Nat.eqb_eq in Hl. apply negb_true_iff, bool_decide_eq_false in Hd.
  apply IH in H as (H1 & H2 & H3 & H4).
  - split_and!; [done|done| |rewrite H4, length_app; cbn; lia]. etrans; [|exact H3]. by apply prefix_app_r.
  - apply NoDup_app. split_and!; [done|set_solver|by apply NoDup_singleton].
  - apply Forall_app. split; [done|by constructor].
Qed.

(** What a client can be built with. *)
Record sound_roots (roots : TrustRoots) : Prop := {
  sr_measured : tr_node_measurements roots ≠ [];
  sr_distinct : NoDup (tr_node_measurements roots);
  sr_length : Forall (λ m, length m = 48%nat) (tr_node_measurements roots);
  sr_log_key : length (tr_log_key roots) = 32%nat;
}.

Lemma parse_roots_sound raw roots : parse_roots raw = Ok roots → sound_roots roots.
Proof.
  unfold parse_roots, validate_trust_bundle_json.
  intros (v & (b & _ & (_ & _ & (_ & _ & (_ & Hne%ensure_Ok & (ks & _ & (ms & Hms & (k & _ & (_ & Hk%ensure_Ok &
    [= <-])%bind_Ok)%bind_Ok)%bind_Ok)%bind_Ok)%bind_Ok)%bind_Ok)%bind_Ok)%bind_Ok & (_ & _ & [= <-])%bind_Ok)%bind_Ok.
  apply push_measurements_ok in Hms as (H1 & H2 & _ & Hl); [|constructor|constructor]. apply Nat.eqb_eq in Hk.
  apply negb_true_iff, bool_decide_eq_false in Hne.
  split; cbn; [|done..]. intros ->. destruct (tb_node_measurements b); [done|]. cbn in Hl. lia.
Qed.

End RootsLemmas.

(** Whatever the environment asks for, what is left of the roots is part of them, and is not
    nothing. *)
Lemma effective_measurements_spec roots env ms :
  sound_roots roots → effective_node_measurements_from_env (Some roots) env = Ok ms → ms ≠ [] ∧ ms ⊆ tr_node_measurements roots.
Proof.
  intros [Hne _ _ _]. unfold effective_node_measurements_from_env. intros (configured & _ & H)%bind_Ok.
  case_bool_decide; [by injection H as <-|]. case_bool_decide; [done|]. injection H as <-. split; [done|].
  intros m Hm. unfold Wallet.intersection in Hm. by apply list_elem_of_filter in Hm as [_ ?].
Qed.

(** A pin in the environment is not ignored. *)
Lemma effective_measurements_configured roots env ms configured :
  configured_measurements env true = Ok configured → configured ≠ [] →
  effective_node_measurements_from_env (Some roots) env = Ok ms → ms ⊆ configured.
Proof.
  intros Hc Hne. unfold effective_node_measurements_from_env. rewrite bool_decide_eq_true_2 by done. rewrite Hc. cbn [mbind result_bind].
  rewrite bool_decide_eq_false_2 by done. case_bool_decide; [done|]. intros [= <-] m Hm. unfold Wallet.intersection in Hm.
  by apply list_elem_of_filter in Hm as [? _].
Qed.

Lemma effective_log_key_spec roots env key :
  effective_transparency_log_key_from_env (Some roots) env = Ok key → key = Some (tr_log_key roots).
Proof.
  unfold effective_transparency_log_key_from_env. intros (configured & _ & H)%bind_Ok.
  destruct configured as [k|]; [case_bool_decide; [done|]|]; by injection H as <-.
Qed.

(** *** Settings and environment *)

Lemma lookup_set_or_clear key val env : set_or_clear key val env !! key = if bool_decide (val = []) then None else Some val.
Proof. unfold set_or_clear. case_bool_decide; [apply lookup_delete_eq|apply lookup_insert_eq]. Qed.

Lemma lookup_set_or_clear_ne key key' val env : key ≠ key' → set_or_clear key val env !! key' = env !! key'.
Proof. intros. unfold set_or_clear. case_bool_decide; [by apply lookup_delete_ne|by apply lookup_insert_ne]. Qed.

(** The variables [apply_env] is in charge of. *)
Definition setting (self : ClientConfig) (key : bytes) : option (option bytes) :=
  let value v := Some (if bool_decide (v = []) then None else Some v) in
  if decide (key = str "NW_KILLSWITCH") then Some (Some (if cc_kill_switch self then str "1" else str "0"))
  else if decide (key = str "NW_EXPECTED_TEE") then value (expected_tee self)
  else if decide (key = str "NW_EXPECTED_MEASUREMENT") then value (expected_measurement_hex self)
  else if decide (key = str "NW_NODE_HOST") then value (node_host self)
  else if decide (key = str "NW_COORDINATOR_URL") then value (coordinator_url self)
  else if decide (key = str "PORTAL_URL") then value (portal_url self)
  else None.

Lemma lookup_apply_env self env key : apply_env self env !! key = default (env !! key) (setting self key).
Proof.
  unfold apply_env, setting, Env in *. cbv zeta.
  repeat (case_decide; [subst; try (rewrite lookup_insert_ne by done); repeat (rewrite lookup_set_or_clear_ne by done);
    by rewrite ?lookup_insert_eq, ?lookup_set_or_clear|]).
  rewrite lookup_insert_ne by congruence. by rewrite !lookup_set_or_clear_ne by congruence.
Qed.

(** Applying settings twice, or over others, is applying them once. *)
Lemma apply_env_over self other env : apply_env self (apply_env other env) = apply_env self env.
Proof.
  apply map_eq. intros key. rewrite !lookup_apply_env. destruct (setting self key) as [v|] eqn:E; [done|]. cbn [default].
  destruct (setting other key) as [v|] eqn:E'; [|done]. exfalso. revert E E'. unfold setting. cbv zeta. by repeat case_decide.
Qed.

(** Settings are all or nothing and survive a restart: when a change could not be saved,
    settings, file and environment are what they were; when it was, the client restarted over the
    file, in whatever environment, has the same settings and launches tunnels from the same
    variables. *)
Theorem settings_survive_restart `{Hlaws : ConfigJsonLaws} fails f state d env :
  let '(state', d', saved) := update fails f state d in
  if saved then
    cfg state' = f (cfg state) ∧ environ d' = apply_env (cfg state') (environ d) ∧
    let '(again, d'') := config_new {| file := file d'; environ := env |} in
    again = state' ∧ ∀ key, is_Some (setting (cfg state') key) → environ d'' !! key = environ d' !! key
  else state' = state ∧ d' = d.
Proof.
  unfold update, save. destruct (config_to_vec (f (cfg state))) as [body|] eqn:E; [|done]. unfold write_private_atomic.
  destruct fails; [done|]. cbn [fst snd file environ cfg]. split_and!; [done|done|]. unfold config_new, load. cbn [file environ].
  rewrite (config_json_roundtrip _ _ E). cbn [cfg environ]. split; [done|]. intros key [v Hv]. by rewrite !lookup_apply_env, Hv.
Qed.

(** ** An instance *)

Module ToySettings.

(** A codec for the default settings, with the kill switch on or off. *)
Definition toggled (b : bool) : ClientConfig :=
  {| portal_url := DEFAULT_PORTAL_URL; coordinator_url := DEFAULT_COORDINATOR_URL; monero_address := []; expected_measurement_hex := [];
     expected_tee := str "sev-snp"; cc_kill_switch := b; node_host := [] |}.

#[export] Instance ClientConfig_eq_dec : EqDecision ClientConfig.
Proof. solve_decision. Defined.

#[export] Instance toy_config_json : ConfigJson := {|
  config_to_vec cfg := if decide (cfg = toggled true) then Some [x01] else if decide (cfg = toggled false) then Some [x00] else None;
  config_from_slice b := if decide (b = [x01]) then Some (toggled true) else if decide (b = [x00]) then Some (toggled false) else None;
|}.

#[export] Instance toy_config_laws : ConfigJsonLaws.
Proof.
  intros cfg body. cbn [config_to_vec config_from_slice toy_config_json]. case_decide; [by intros [= <-]; subst|].
  case_decide; [by intros [= <-]; subst|done].
Qed.

Definition switched_off : ConfigState * Desk * bool :=
  update false (λ _, toggled false) {| cfg := live_defaults |} {| file := None; environ := ∅ |}.

End ToySettings.

Import ToySettings.

Lemma settings_survive_restart_witness :
  switched_off.2 = true ∧ environ switched_off.1.2 !! str "NW_KILLSWITCH" = Some (str "0") ∧
  cfg (config_new {| file := file switched_off.1.2; environ := ∅ |}).1 = toggled false.
Proof.
  pose proof (settings_survive_restart false (λ _, toggled false) {| cfg := live_defaults |} {| file := None; environ := ∅ |} ∅) as H.
  change (update false _ _ _) with switched_off in H. assert (E : switched_off.2 = true) by (vm_compute; reflexivity).
  destruct switched_off as [[state d] saved] eqn:Es. cbn [fst snd] in *. subst saved. destruct H as (Hc & He & H).
  destruct (config_new _) as [again d'']. destruct H as [-> _]. split_and!; [reflexivity| |exact Hc].
  rewrite He, Hc. vm_compute. reflexivity.
Defined.
