(* ===== verification/Engine.v ===== *)
(** * The connection engine of the desktop client ([client/src-tauri/src/engine.rs])

    The state machine behind the connect and disconnect commands of a release build: what it
    launches from settings, environment and embedded trust roots, and how its states follow the
    tunnel ([Datapath]).  A mutex is held for a whole command.  Loopback and static paths exist
    only with debug assertions. *)

From S2P Require Import Prelude.
From S2P Require Import Text.
From S2P Require Import Net.
From S2P Require Import Env.
From S2P Require Import Prog.
From S2P Require Import World.
From S2P Require Import Crypto.
From S2P Require Import TransLog.
From S2P Require Import Token.
From S2P Require Import Grant.
From S2P Require Import Attest.
From S2P Require Import Coordinator.
From S2P Require Import ClientPath.
From S2P Require Import Vault.
From S2P Require Import Onion.
From S2P Require Import HostNet.
From S2P Require Import KillSwitch.
From S2P Require Import HostRoutes.
From S2P Require Import HostRuns.
From S2P Require Import HostHeal.
From S2P Require Import Datapath.
From S2P Require Import Launch.
From S2P Require Import Settings.
From Stdlib Require Import Strings.Byte ZArith Lia.
From stdpp Require Import prelude gmap sets strings.

(** ** One node under WireGuard ([pqwg.rs]) *)

Local Open Scope prog_scope.

(** The sessions map: which MASQUE session each wraps. *)
Definition PqWgTransport : Transport :=
  {| state := gmap Z Z;
     connect st node creds :=
       match ep_wg_pub node with
       | None => Ret (st, Err TransportFailed)
       | Some node_wg_pub =>
           let* inner := call (MqConnect node creds None) in
           match inner with
           | None => Ret (st, Err TransportFailed)
           | Some s =>
               let* wrapped := call (PqWrap s node_wg_pub) in
               match wrapped with
               | Some id => Ret (<[id := s]> st, Ok id)
               | None => Ret (st, Err TransportFailed)
               end
           end
       end;
     close st id :=
       match st !! id with
       | None => Ret (st, Err CloseFailed)
       | Some _ => let* r := call (PqClose id) in Ret (delete id st, ok_if r)
       end;
     assigned_ip st id := match st !! id with Some s => call (MqAssigned s) | None => Ret None end;
     tunnel_mtu st id := match st !! id with Some _ => call (PqMtu id) | None => Ret None end |}.

(** ** The engine *)

Inductive ConnState := Disconnected | Connecting | Connected | Disconnecting.

#[global] Instance ConnState_eq_dec : EqDecision ConnState.
Proof. solve_decision. Defined.

(** What the message of a transport error is made from. *)
Inductive EngineCause :=
  | UnsafeUrl (e : UrlError) | BadRoots (e : TrustError) | LaunchFailed (e : LaunchError) | UpFailed (e : TunnelError) | DownFailed (e : NetError).

Inductive EngineError :=
  | NotDisconnected (s : ConnState) | NotConnected (s : ConnState) | TransportError (why : EngineCause) | NoTokens | NoProductionPath.

Inductive Active := NoTunnel | ATunnel (t : Transport) (st : state t) (tunnel : Tunnel).

Record EngineInner := { eng_state : ConnState; eng_active : Active }.

Definition engine_new : EngineInner := {| eng_state := Disconnected; eng_active := NoTunnel |}.

Record Started := { s_transport : Transport; s_state : state s_transport }.

(** The transport a launch built, as it starts. *)
Definition started (a : Assembled) : Started :=
  match a with
  | OverPath hops _ _ => {| s_transport := PathTransport hops; s_state := {| onion := ∅; pq_exits := ∅ |} |}
  | OverPqWg _ => {| s_transport := PqWgTransport; s_state := (∅ : gmap Z Z) |}
  | OverMasque _ => {| s_transport := MasqueTransport; s_state := tt |}
  end.

Section Engine.
Context `{Hjson : PathJson, Hpolicy : PolicyJson, Hurl : UrlCrate} (embedded : option TrustRoots).

(** What a connect brings: the environment, the reserved pass, and the Coordinator's answer to it. *)
Record Request := { rq_env : Env; rq_token : option StoredToken; rq_exchange : bytes → StoredToken → option (Z * list bytes) }.

Definition coordinator_of (env : Env) : option bytes :=
  match env_var_ok env (str "NW_COORDINATOR_URL") with
  | Some url => if bool_decide (trim url = []) then None else Some url
  | None => None
  end.

(** [bring_up_configured], up to the tunnel. *)
Definition plan (rq : Request) : result EngineError (Assembled * TunnelConfig) :=
  match coordinator_of (rq_env rq) with
  | None => Err NoProductionPath
  | Some coord =>
      _ ← map_err (λ e, TransportError (UnsafeUrl e)) (require_safe_control_url false (rq_env rq) coord);
      tok ← ok_or (rq_token rq) NoTokens;
      measurements ← map_err (λ e, TransportError (BadRoots e)) (effective_node_measurements_from_env embedded (rq_env rq));
      transparency_key ← map_err (λ e, TransportError (BadRoots e)) (effective_transparency_log_key_from_env embedded (rq_env rq));
      map_err (λ e, TransportError (LaunchFailed e))
        (from_env_with_token_and_trust false (rq_env rq) (rq_exchange rq coord tok) measurements transparency_key)
  end.

Definition bring_up_configured (rq : Request) : tunprog (result EngineError Active) :=
  match plan rq with
  | Err e => Ret (Err e)
  | Ok (a, cfg) =>
      let* r := up (s_transport (started a)) (s_state (started a)) cfg in
      Ret match r.2 with
          | Ok tunnel => Ok (ATunnel (s_transport (started a)) r.1 tunnel)
          | Err e => Err (TransportError (UpFailed e))
          end
  end.

Definition engine_connect (rq : Request) (self : EngineInner) : tunprog (EngineInner * result EngineError ConnState) :=
  if decide (eng_state self ≠ Disconnected) then Ret (self, Err (NotDisconnected (eng_state self)))
  else if bool_decide (is_Some (coordinator_of (rq_env rq))) then
    let* r := bring_up_configured rq in
    Ret match r with
        | Ok active => ({| eng_state := Connected; eng_active := active |}, Ok Connected)
        | Err e => ({| eng_state := Disconnected; eng_active := eng_active self |}, Err e)
        end
  else Ret ({| eng_state := Disconnected; eng_active := eng_active self |}, Err NoProductionPath).

Definition engine_disconnect (self : EngineInner) : tunprog (EngineInner * result EngineError ConnState) :=
  if decide (eng_state self = Connected ∨ eng_state self = Disconnecting) then
    match eng_active self with
    | ATunnel t st tunnel =>
        let* d := down t st tunnel in
        Ret match d.2 with
            | Err e => ({| eng_state := Disconnecting; eng_active := ATunnel t d.1.1 d.1.2 |}, Err (TransportError (DownFailed e)))
            | Ok _ => ({| eng_state := Disconnected; eng_active := NoTunnel |}, Ok Disconnected)
            end
    | NoTunnel => Ret ({| eng_state := Disconnected; eng_active := NoTunnel |}, Ok Disconnected)
    end
  else Ret (self, Err (NotConnected (eng_state self))).

Inductive Command := Connect (rq : Request) | Disconnect.

Definition command (c : Command) (self : EngineInner) : tunprog (EngineInner * result EngineError ConnState) :=
  match c with Connect rq => engine_connect rq self | Disconnect => engine_disconnect self end.

(** Commands, one after another, until the engine is off again; with the last answer. *)
Fixpoint until_off (self : EngineInner) (answer : result EngineError ConnState) (cs : list Command) :
    tunprog (EngineInner * result EngineError ConnState) :=
  match cs with
  | [] => Ret (self, answer)
  | c :: cs =>
      let* r := command c self in
      if decide (eng_state r.1 = Disconnected) then Ret r else until_off r.1 r.2 cs
  end.

End Engine.

(** ** What is launched *)

Section Trust.
Context `{Hjson : PathJson, Hpolicy : PolicyJson, Hurl : UrlCrate, Hbundle : BundleJson, Hrsa : BlindRsa, Hcfg : ConfigJson}.

Lemma safe_url_release env url :
  require_safe_control_url false env url = Ok tt → ∃ u, url_parse (trim url) = Some u ∧ url_scheme u = str "https" ∧ is_Some (url_host u).
Proof.
  unfold require_safe_control_url, require_https_or_debug_loopback, parse_network_url. cbn [dev_env_flag].
  intros (u & (u' & Hu%ok_or_Ok & (_ & Hh%ensure_Ok%bool_decide_eq_true & [= ->])%bind_Ok)%bind_Ok & H)%bind_Ok.
  exists u. case_bool_decide as Hs; [done|]. by case_bool_decide.
Qed.

Lemma plan_ok (Hsha : Sha256) raw roots rq a cfg :
  parse_roots raw = Ok roots → plan (Some roots) rq = Ok (a, cfg) →
  ∃ url tok pins u, coordinator_of (rq_env rq) = Some url ∧ url_parse (trim url) = Some u ∧ url_scheme u = str "https" ∧
    rq_token rq = Some tok ∧ pins ≠ [] ∧ pins ⊆ tr_node_measurements roots ∧
    (∀ configured, configured_measurements (rq_env rq) true = Ok configured → configured ≠ [] → pins ⊆ configured) ∧
    release_launch (rq_env rq) pins (tr_log_key roots) (rq_exchange rq url tok) false = Ok (a, cfg).
Proof.
  intros Hraw%parse_roots_sound. unfold plan. destruct (coordinator_of (rq_env rq)) as [url|]; [|done].
  intros ([] & Hu%map_err_Ok & (tok & Ht%ok_or_Ok & (pins & Hp%map_err_Ok & (key & Hk%map_err_Ok & H%map_err_Ok)%bind_Ok)%bind_Ok)%bind_Ok)%bind_Ok.
  apply safe_url_release in Hu as (u & Hu & Hs & _). apply effective_log_key_spec in Hk as ->.
  destruct (effective_measurements_spec _ _ _ Hraw Hp) as [Hne Hsub].
  exists url, tok, pins, u. split_and!; try done. intros configured Hc Hcne. by eapply effective_measurements_configured.
Qed.

Context `{Hsha : Sha256, H384 : Sha384, H512 : Sha512, Hb64 : Base64, Hed : Ed25519, Hsev : SevCrate, Hdcap : DcapCrate, Hx509 : X509}.

(** What the desktop client connects to: whatever its settings, its environment and the
    Coordinator's answer, a release client with a bundle of trust roots dials only when the
    configured Coordinator is behind HTTPS and a pass was reserved; then it dials a path of at
    least two hops, with the kill switch as the settings have it and no exception but the entry;
    and a tunnel to a hop comes up only on evidence for the live key of its node, under a
    measurement and the transparency log of the bundle, and under one of the measurements the
    settings or the environment pin, if they pin any. *)
Theorem desktop_connect_pinned raw roots settings d rq a cfg :
  parse_roots raw = Ok roots → rq_env rq = environ (reapply_env settings d) → plan (Some roots) rq = Ok (a, cfg) →
  is_Some (rq_token rq) ∧
  (∃ u, url_parse (trim (coordinator_url (Settings.cfg settings))) = Some u ∧ url_scheme u = str "https") ∧
  kill_switch cfg = cc_kill_switch (Settings.cfg settings) ∧
  ∃ entry second rest ip, a = OverPath (entry :: second :: rest) ip false ∧ node cfg = entry ∧ also_except cfg = [] ∧
    ∀ ep cert headers nonce clock r,
      ep ∈ entry :: second :: rest → on_connect_response true cert headers (policy_for ep) false nonce clock = Ok r →
      ∃ policy c spki evidence, policy_for ep = Some policy ∧ expected_measurement policy ∈ tr_node_measurements roots ∧
        (∀ configured, configured_measurements (rq_env rq) true = Ok configured → configured ≠ [] → expected_measurement policy ∈ configured) ∧
        ap_transparency_log_key policy = Some (tr_log_key roots) ∧ cert = Some c ∧ spki_of c = Some spki ∧
        ap_tls_spki_sha256 policy = Some (sha256 spki) ∧ acceptable evidence spki policy nonce clock UpToDate.
Proof.
  intros Hraw Henv Hp. apply (plan_ok _ raw) in Hp as (url & tok & pins & u & Hc & Hu & Hs & Ht & Hne & Hsub & Hconf & Hl); [|done].
  apply release_launch_spec in Hl as (entry & second & rest & ip & -> & Hn & Ha & Hk & Hr); [|done].
  unfold coordinator_of, env_var_ok, env_var in Hc. rewrite Henv in Hc, Hk. cbn [environ reapply_env] in Hc, Hk.
  rewrite lookup_apply_env in Hc. change (setting _ (str "NW_COORDINATOR_URL")) with
    (Some (if bool_decide (coordinator_url (Settings.cfg settings) = []) then None else Some (coordinator_url (Settings.cfg settings)))) in Hc.
  split; [by rewrite Ht|]. split.
  { clear Hk. cbn [default from_option id] in Hc. destruct (decide (coordinator_url (Settings.cfg settings) = [])) as [E|E];
      [by rewrite bool_decide_eq_true_2 in Hc by done|rewrite bool_decide_eq_false_2 in Hc by done].
    destruct (is_utf8 _); [|done]. case_bool_decide; [done|]. injection Hc as ->. eauto. }
  split.
  { rewrite Hk. unfold env_var_ok, env_var. rewrite lookup_apply_env.
    change (setting _ (str "NW_KILLSWITCH")) with (Some (Some (if cc_kill_switch (Settings.cfg settings) then str "1" else str "0"))).
    by destruct (cc_kill_switch (Settings.cfg settings)). }
  exists entry, second, rest, ip. split_and!; try done. intros ep cert headers nonce clock r Hep Hg. rewrite Forall_forall in Hr.
  destruct (rooted_gate _ _ _ _ _ _ _ _ (Hr _ Hep) Hg) as (policy & c & spki & evidence & H1 & H2 & H3).
  exists policy, c, spki, evidence. split_and!; [done|by apply Hsub| |by apply H3..]. intros configured Hcf Hcne. by apply (Hconf configured).
Qed.

End Trust.

(** ** The engine and the host *)

Section Host.
Context `{Hjson : PathJson, Hpolicy : PolicyJson, Hurl : UrlCrate}.
Context `{Htools : HostTools, Hlaws : !HostToolsLaws, Hfilter : EgressFilter, Hflaws : !EgressFilterLaws}.
Context (embedded : option TrustRoots) (rq : Request) (a : Assembled) (cfg : TunnelConfig) (h0 : Host).
Context (Hplan : plan embedded rq = Ok (a, cfg)) (Hfresh : fresh_host h0).

#[local] Notation guarded := (guarded cfg h0).

(** The engine's state is that of its tunnel, and a tunnel comes with the journal of what is to
    be undone. *)
Definition consistent (self : EngineInner) (w : Device) : Prop :=
  match eng_active self with
  | NoTunnel => eng_state self = Disconnected
  | ATunnel _ _ tn =>
      (eng_state self = Connected ∨ eng_state self = Disconnecting) ∧ ∃ p, arms_with cfg w p ∧ journal h0 p (net tn) (host w)
  end.

(** What an answer promises about the host. *)
Definition promised (r : EngineInner * result EngineError ConnState) (w : Device) : Prop :=
  consistent r.1 w ∧
  (r.2 = Ok Disconnected → (∀ p, arms_with cfg w p → tame h0 p) → restored h0 (host w)).

Lemma connect_spec w :
  host w = h0 → always tun_perform guarded (engine_connect embedded rq engine_new) w promised.
Proof using Hplan Hfresh Hlaws Hflaws.
  intros E. unfold engine_connect. rewrite decide_False by (cbn; tauto).
  assert (Hc : is_Some (coordinator_of (rq_env rq))) by (unfold plan in Hplan; by destruct (coordinator_of (rq_env rq))).
  rewrite bool_decide_eq_true_2 by done. unfold bring_up_configured. rewrite Hplan. apply always_bind, always_bind.
  eapply always_post; [|by apply up_guarded]. intros s w' Hs. cbn beta in Hs. cbn [always]. unfold promised. destruct s.2 as [tn|e]; cbn [fst snd].
  - split; [|done]. split; [by left|]. exact Hs.
  - by split.
Qed.

(** While a tunnel is there, a command keeps it or takes it down; a second connect is refused. *)
Lemma command_spec c self w :
  eng_state self ≠ Disconnected → consistent self w → guarded w → always tun_perform guarded (command embedded c self) w promised.
Proof using Hfresh Hlaws Hflaws.
  intros Hs Hc G. destruct c as [rq'|]; cbn [command].
  { unfold engine_connect. rewrite decide_True by done. split; [done|]. by cbn. }
  unfold engine_disconnect, consistent in *. destruct (eng_active self) as [|t st tn] eqn:Ea; [done|]. destruct Hc as [Hst (p & Hp & J)].
  rewrite decide_True by done. apply always_bind. eapply always_post; [|by eapply down_guarded].
  intros d w' (Hp' & J' & Hr). cbn [always]. destruct d.2 as [[]|e]; unfold promised, consistent; cbn [fst snd eng_active eng_state].
  - split; [done|]. intros _ T. by apply Hr, T.
  - split; [|done]. split; [by right|]. by exists p.
Qed.

Lemma until_off_spec cs self ans w :
  eng_state self ≠ Disconnected → promised (self, ans) w → guarded w →
  always tun_perform guarded (until_off embedded self ans cs) w promised.
Proof using Hfresh Hlaws Hflaws.
  revert self ans w. induction cs as [|c cs IH]; intros self ans w Hs Hp G; cbn [until_off]; [done|].
  apply always_bind. eapply always_post; [|apply always_inv; [exact G|]; apply command_spec; [done|apply Hp|done]].
  intros r w' [G' Hr]. cbn beta in *. case_decide; [done|]. apply IH; [done| |done]. by destruct r.
Qed.

(** The desktop client fails closed: connect, then any commands until it is off again -
    disconnects that fail and are repeated, connects in between - over a host whose every command
    may fail.  At every moment, with the kill switch configured, nothing leaves but into the TUN
    device or to the entry node, or the default routes and the resolver are the original ones.
    The engine reports a tunnel exactly when it holds one, with the journal of what is still to be
    undone; once it answers that it is disconnected, the host is as it was. *)
Theorem engine_fails_closed w cs :
  host w = h0 → kill_switch cfg = true →
  always tun_perform (λ w', untouched h0 (host w') ∨ ∃ p, arms_with cfg w' p ∧ shielded p (host w'))
    (until_off embedded engine_new (Ok Disconnected) (Connect rq :: cs)) w
    (λ r w', consistent r.1 w' ∧
      (r.2 = Ok Disconnected → (∀ p, arms_with cfg w' p → tame h0 p) → restored h0 (host w'))).
Proof using Hplan Hfresh Hlaws Hflaws.
  intros E Hk. eapply always_mono with (I := guarded); [intros w' G; by apply G|exact (λ _ _ H, H)|]. cbn [until_off command].
  apply always_bind. eapply always_post; [|apply always_inv; [by apply guarded_here|by apply connect_spec]].
  intros r w' [G Hr]. cbn beta in *. case_decide; [done|]. apply until_off_spec; [done| |done]. by destruct r.
Qed.

(** *** Recovery *)

(** The tools work; everything else may still go either way. *)
Definition tun_healthy (op : TunOp) (w w' : Device) : tun_answer op → Prop :=
  match op with
  | OnNet op => λ r, ∃ h, healthy op (host w) h r ∧ w' = set_host h w
  | op => tun_perform op w w'
  end.

Lemma heals_net {A} (q : netprog A) w Q :
  always healthy (λ _, True) q (host w) Q →
  always tun_healthy (λ _, True) (on_net q) w (λ a w', Q a (host w') ∧ w' = set_host (host w') w).
Proof.
  revert w. induction q as [x|op k IH]; intros w; cbn [on_net]; [by destruct w|]. intros H w' r (h & Hr & ->). split; [done|].
  destruct (H _ _ Hr) as [_ Hk]. eapply always_post; [|by apply IH]. intros x w'' [? E]. split; [done|]. rewrite E. by destruct w.
Qed.

Lemma heals_link {A} (q : linkprog A) w : always tun_healthy (λ _, True) (on_link q) w (λ _ w', host w' = host w).
Proof.
  revert w. induction q as [x|op k IH]; intros w; cbn [on_link]; [done|]. intros w' r (l & _ & ->). split; [done|].
  eapply always_post; [|apply IH]. by intros x w'' ->.
Qed.

Lemma heals_down t st tn p w :
  tame h0 p → few_defaults h0 → journal h0 p (net tn) (host w) →
  always tun_healthy (λ _, True) (down t st tn) w (λ d w', d.2 = Ok tt ∧ restored h0 (host w')).
Proof using Hfresh Hlaws Hflaws.
  intros T Hfew J. unfold down. apply always_bind.
  eapply always_post; [|apply heals_net; eapply heals_with; [by eapply teardown_spec|by eapply heals_teardown]].
  intros rb w1 [[[J1 Hok] Eok] _]. destruct (Hok Eok) as [Hs _].
  assert (R : restored h0 (host w1)) by by eapply journal_restored. destruct (session tn); [|done].
  apply always_bind. eapply always_post; [|apply heals_link]. intros cl w2 E2. cbn [always fst snd]. by rewrite E2.
Qed.

(** A disconnect gets there: in whatever state a connect and the commands after it left the
    engine, while it reports a tunnel or one that could not be taken down, one disconnect during
    which the tools work answers that it is disconnected and leaves the host as it was. *)
Theorem disconnect_recovers w cs :
  host w = h0 → kill_switch cfg = true → few_defaults h0 →
  always tun_perform (λ _, True) (until_off embedded engine_new (Ok Disconnected) (Connect rq :: cs)) w
    (λ r w', eng_state r.1 ≠ Disconnected → (∀ p, arms_with cfg w' p → tame h0 p) →
      always tun_healthy (λ _, True) (engine_disconnect r.1) w' (λ s w'', s.2 = Ok Disconnected ∧ eng_state s.1 = Disconnected ∧ restored h0 (host w''))).
Proof using Hplan Hfresh Hlaws Hflaws.
  intros E Hk Hfew. eapply always_mono with (I := guarded); [done| |].
  2:{ cbn [until_off command]. apply always_bind. eapply always_post; [|apply always_inv; [by apply guarded_here|by apply connect_spec]].
      intros r w' [G Hr]. cbn beta in *. case_decide; [exact Hr|]. apply until_off_spec; [done| |done]. by destruct r. }
  intros r w' [Hc _] Hs T. unfold engine_disconnect, consistent in *. destruct (eng_active r.1) as [|t st tn]; [done|].
  destruct Hc as [Hst (p & Hp & J)]. rewrite decide_True by done. apply always_bind.
  eapply always_post; [|by eapply heals_down; [apply T| |]]. intros d w'' [Ed R]. rewrite Ed. by cbn.
Qed.

End Host.
