(* ===== verification/EngineRuns.v ===== *)
(** * The desktop client, run

    A bundle of trust roots, settings as they are shipped, the Coordinator's answer of
    [ClientPath] and the hosts of [HostLive]: the theorems of [Engine] at work. *)

From S2P Require Import Prelude.
From S2P Require Import Text.
From S2P Require Import Net.
From S2P Require Import Env.
From S2P Require Import Prog.
From S2P Require Import World.
From S2P Require Import Crypto.
From S2P Require Import TransLog.
From S2P Require Import Token.
From S2P Require Import Attest.
From S2P Require Import Coordinator.
From S2P Require Import ClientPath.
From S2P Require Import Vault.
From S2P Require Import HostRuns.
From S2P Require Import HostHeal.
From S2P Require Import HostLive.
From S2P Require Import Datapath.
From S2P Require Import TunnelRuns.
From S2P Require Import Launch.
From S2P Require Import Settings.
From S2P Require Import Engine.
From Stdlib Require Import Strings.Byte ZArith Lia.
From stdpp Require Import prelude gmap sets strings.

Import Crypto.Toy ToyLog ToyAttest ToyJson HostLive.Toy ToySettings.

#[local] Instance desk_x509 : X509 := Some.
#[local] Instance desk_policies : PolicyJson := λ _, None.

(** Any address is an HTTPS one. *)
#[local] Instance desk_urls : UrlCrate := λ url, Some {| url_scheme := str "https"; url_host := Some (Domain url) |}.

Definition w_roots : TrustRoots :=
  {| tr_issuer_public_keys_der := [[x30; x00]]; tr_node_measurements := w_client_pins; tr_log_key := w_log_key |}.

#[local] Instance desk_bundles : BundleJson := λ _,
  Some {| tb_version := 1; tb_issuer_public_keys_der := [to_hex [x30; x00]]; tb_node_measurements := to_hex <$> w_client_pins;
          tb_transparency_log_ed25519_key := to_hex w_log_key |}.

Definition w_settings : ConfigState := {| Settings.cfg := live_defaults |}.
Definition w_desk : Desk := {| file := None; environ := ∅ |}.
Definition w_request : Request :=
  {| rq_env := environ (reapply_env w_settings w_desk); rq_token := Some {| st_msg := str "00"; st_token := str "00" |};
     rq_exchange := λ _ _, w_exchange |}.
Definition w_plan : result EngineError (Assembled * TunnelConfig) := plan (Some w_roots) w_request.

Lemma w_roots_parse : parse_roots (str "bundle") = Ok w_roots.
Proof. vm_compute. reflexivity. Qed.

Lemma desktop_connect_pinned_witness :
  is_ok w_plan = true ∧
  ∃ a cfg entry second rest ip, w_plan = Ok (a, cfg) ∧ a = OverPath (entry :: second :: rest) ip false ∧ kill_switch cfg = true.
Proof.
  assert (E : is_ok w_plan = true) by (vm_compute; reflexivity). split; [exact E|].
  destruct w_plan as [[a cfg]|e] eqn:Ep; [|discriminate E].
  destruct (desktop_connect_pinned (str "bundle") w_roots w_settings w_desk w_request a cfg w_roots_parse eq_refl Ep)
    as (_ & _ & Hk & entry & second & rest & ip & Ha & _).
  exists a, cfg, entry, second, rest, ip. split_and!; [reflexivity|exact Ha|exact Hk].
Defined.

(** *** Connected and disconnected *)

Definition w_launch : Assembled * TunnelConfig := match w_plan with Ok p => p | Err _ => (OverMasque true, w_cfg) end.

Lemma w_plan_ok : plan (Some w_roots) w_request = Ok (w_launch.1, w_launch.2).
Proof. vm_compute. reflexivity. Qed.

Lemma w_launch_cfg : kill_switch w_launch.2 = true ∧ also_except w_launch.2 = [].
Proof. vm_compute. split; reflexivity. Qed.

Definition w_session (cs : list Command) : tunprog (EngineInner * result EngineError ConnState) :=
  until_off (Some w_roots) engine_new (Ok Disconnected) (Connect w_request :: cs).

(** The answer of a session and the device after it. *)
Definition w_run (cs : list Command) : (EngineInner * result EngineError ConnState) * Device := takes all_well true (w_session cs) quiet_device.

Lemma w_run_goes cs :
  goes tun_perform (until_off (Some w_roots) engine_new (Ok Disconnected) (Connect w_request :: cs)) quiet_device (Ret (w_run cs).1) (w_run cs).2.
Proof. exact (takes_goes all_well true (w_session cs) quiet_device (λ _, eq_refl)). Qed.

Lemma engine_fails_closed_witness :
  (w_run []).1.2 = Ok Connected ∧ (w_run [Connect w_request; Disconnect]).1.2 = Ok Disconnected ∧
  restored w_host (host (w_run [Connect w_request; Disconnect]).2).
Proof.
  split; [vm_compute; reflexivity|].
  assert (E : (w_run [Connect w_request; Disconnect]).1.2 = Ok Disconnected) by (vm_compute; reflexivity). split; [exact E|].
  pose proof (engine_fails_closed (Some w_roots) w_request w_launch.1 w_launch.2 w_host w_plan_ok w_fresh quiet_device
    [Connect w_request; Disconnect] eq_refl (proj1 w_launch_cfg)) as H.
  pose proof (proj2 (proj1 (always_goes _ _ _ _ _ _ _ H (w_run_goes [Connect w_request; Disconnect])))) as Hend. cbn beta in Hend.
  assert (En : names (w_run [Connect w_request; Disconnect]).2 = names quiet_device) by (vm_compute; reflexivity).
  revert E En Hend. generalize (w_run [Connect w_request; Disconnect]). intros [[i x] w] E En Hend. cbn [fst snd] in *.
  apply (Hend E). intros p. apply lone_node_tame; [exact (proj2 w_launch_cfg)|exact En].
Defined.

Lemma disconnect_recovers_witness :
  eng_state (w_run []).1.1 = Connected ∧
  always tun_healthy (λ _, True) (engine_disconnect (w_run []).1.1) (w_run []).2
    (λ s w'', s.2 = Ok Disconnected ∧ eng_state s.1 = Disconnected ∧ restored w_host (host w'')).
Proof.
  assert (E : eng_state (w_run []).1.1 = Connected) by (vm_compute; reflexivity). split; [exact E|].
  assert (Hfew : few_defaults w_host) by (split; [by apply Nat.ltb_lt; vm_compute|by apply (bool_decide_unpack _); vm_compute]).
  pose proof (disconnect_recovers (Some w_roots) w_request w_launch.1 w_launch.2 w_host w_plan_ok w_fresh quiet_device []
    eq_refl (proj1 w_launch_cfg) Hfew) as H.
  pose proof (proj1 (always_goes _ _ _ _ _ _ _ H (w_run_goes []))) as Hend. cbn beta in Hend.
  assert (En : names (w_run []).2 = names quiet_device) by (vm_compute; reflexivity).
  revert E En Hend. generalize (w_run []). intros [[i x] w] E En Hend. cbn [fst snd] in *. apply Hend.
  - intros Ed. cbn [fst] in Ed. congruence.
  - intros p. apply lone_node_tame; [exact (proj2 w_launch_cfg)|exact En].
Defined.
