(* ===== verification/EndToEnd.v ===== *)
(** * From a token to the tunnels of its path

    The coordinator's redemption composed with the gate of the nodes: what a redeemed path
    promises, and when redemption cannot fail for want of grants. *)

From S2P Require Import Prelude.
From S2P Require Import Text.
From S2P Require Import Net.
From S2P Require Import Crypto.
From S2P Require Import Env.
From S2P Require Import Grant.
From S2P Require Import GrantReplay.
From S2P Require Import Registry.
From S2P Require Import PathSel.
From S2P Require Import Token.
From S2P Require Import Ledger.
From S2P Require Import Nullifier.
From S2P Require Import ConnectIp.
From S2P Require Import NodeConfig.
From S2P Require Import NodeServer.
From S2P Require Import NodeGate.
From S2P Require Import CoordConfig.
From S2P Require Import Coordinator.
From S2P Require Import TransLog.
From S2P Require Import Attest.
From S2P Require Import ClientPath.
From Stdlib Require Import Strings.Byte ZArith Lia.
From stdpp Require Import prelude gmap strings.

Local Open Scope Z_scope.

Section Attach.
Context `{Hsha : Sha256, Hed : Ed25519}.

(** What one hop of a granted path went through. *)
Lemma attach_grants_hop path signer realm ttl now nonces path' i s :
  attach_grants path signer realm ttl now nonces = Ok path' → path !! i = Some s →
  length path' = length path ∧
  ∃ nb s', path' !! i = Some s' ∧ path_neighbors path i s = Ok nb ∧
    attach_grant signer realm ttl now (nonces i) s nb = Ok s'.
Proof.
  unfold attach_grants. intros (nbs & Hn & Ha)%bind_Ok Hi.
  apply mapi_Ok in Hn as [Hlen Hn], Ha as [Hlen' Ha].
  destruct (Hn i s Hi) as (nb & Hnb & Hpn).
  destruct (Ha i (s, nb)) as (s' & Hs' & Hg); [by apply lookup_zip_with_Some; eauto|].
  rewrite length_zip_with in Hlen'. split; [lia|]. by exists nb, s'.
Qed.

Lemma attach_grant_Ok signer realm ttl now nonce s nb s' :
  attach_grant signer realm ttl now nonce s nb = Ok s' →
  ∃ m t n g,
    from_hex (trim (Wire.hop_measurement (hop s))) = Some m ∧ length m = 48%nat ∧
    Wire.hop_tls_spki_sha256 (hop s) ≫= from_hex = Some t ∧ length t = 32%nat ∧ nonce = Some n ∧
    let a := {| node := {| Grant.realm := realm; Grant.node_id := sel_node_id s;
                           Grant.role := grant_role_of (intended_role s); transport := Masque;
                           tee := core_tee (Wire.hop_tee (hop s)); measurement := m;
                           tls_spki_sha256 := t |};
                previous_hop := nb.1; next_hop := nb.2 |} in
    identifier_ok realm ∧ identifier_ok (sel_node_id s) ∧
    hop_policy (grant_role_of (intended_role s)) nb.1 nb.2 = true ∧
    mint signer a n ttl now = Ok g ∧
    hop s' = set_grant (hop s) (to_hex (g_token g)) (to_hex (g_nonce g)).
Proof.
  unfold attach_grant. intros H. inv_ok H. injection H as <-.
  rename select (GrantAudience_new _ _ _ _ _ _ _ _ _ = _) into Ha.
  apply GrantAudience_new_ok in Ha as (Hr & Hi & Hp & ->).
  reflect_bools. eexists _, _, _, _. split_and!; try eassumption; try done.
  rename select (Wire.hop_tls_spki_sha256 _ = Some _) into Ht. by rewrite Ht.
Qed.

End Attach.

(** ** Neighbours *)

(** The address a connection to hop [i] comes from. *)
Definition reached_from (path : list RegistryNode) (i : nat) (peer : IpAddr) : Prop :=
  match i with
  | 0%nat => True
  | S j => ∃ n ip, path !! j = Some n ∧ parse_ipv4 (host n) = Some ip ∧ peer = V4 ip
  end.

(** Where the packets of hop [i] may go. *)
Definition leads_on (path : list RegistryNode) (i : nat) (policy : PacketPolicy) : Prop :=
  match path !! S i with
  | Some n => ∃ ip, parse_ipv4 (host n) = Some ip ∧
      policy = PolicyRelay {| sa_ip := ip; sa_port := port n |}
  | None => policy = PolicyExit
  end.

(** The node of the registry runs with this configuration and certificate. *)
Definition runs_as `{Sha256, Ed25519} (realm : bytes) (hops i : nat) (n : RegistryNode)
    (cfg : NodeConfig) (spki : bytes) : Prop :=
  ∃ m, to_hex m = reg_measurement n ∧ reg_tls_spki_sha256 n = Some (to_hex (sha256 spki)) ∧
    node_identity cfg spki =
      Some {| Grant.realm := realm; Grant.node_id := id n;
              Grant.role := grant_role_of (Role.for_position i hops); transport := Masque;
              tee := core_tee (reg_tee n); measurement := m; tls_spki_sha256 := sha256 spki |}.

Lemma selected_lookup hops path i n :
  path !! i = Some n → imap (selected hops) path !! i = Some (selected hops i n).
Proof. intros H. by rewrite list_lookup_imap, H. Qed.

Lemma selected_lookup_None hops path i :
  path !! i = None → imap (selected hops) path !! i = None.
Proof. intros H. by rewrite list_lookup_imap, H. Qed.

(** The neighbours a grant is bound to are those of the path. *)
Lemma path_neighbors_spec hops path i n nb :
  path !! i = Some n →
  path_neighbors (imap (selected hops) path) i (selected hops i n) = Ok nb →
  (∀ ip peer, nb.1 = Some ip → reached_from path i peer → peer = V4 ip) ∧
  leads_on path i match nb.2 with Some e => PolicyRelay e | None => PolicyExit end ∧
  (∀ e, nb.2 = Some e → ∃ m, m ∈ path ∧ sa_port e = port m).
Proof.
  intros Hi H. unfold path_neighbors in H.
  apply bind_Ok in H as (prev & Hprev & (next & Hnext & H)%bind_Ok).
  assert (Hnb : nb = (prev, next)).
  { destruct (intended_role _), prev, next; try done; by injection H as <-. }
  subst nb. cbn [fst snd]. clear H. split_and!.
  - intros ip peer ->. destruct i as [|j]; [done|]. intros (m & ip' & Hj & Hip & ->).
    rewrite (selected_lookup _ _ _ _ Hj) in Hprev. inv_ok Hprev. cbn in *. congruence.
  - unfold leads_on. destruct (path !! S i) as [m|] eqn:Em.
    + rewrite (selected_lookup _ _ _ _ Em) in Hnext. inv_ok Hnext. injection Hnext as <-. eauto.
    + rewrite (selected_lookup_None _ _ _ Em) in Hnext. by injection Hnext as <-.
  - intros e ->. destruct (path !! S i) as [m|] eqn:Em.
    + rewrite (selected_lookup _ _ _ _ Em) in Hnext. inv_ok Hnext. injection Hnext as <-.
      exists m. split; [by eapply list_elem_of_lookup_2|done].
    + by rewrite (selected_lookup_None _ _ _ Em) in Hnext.
Qed.

(** ** Redemption *)

Section Redemption.
Context `{Hsha : Sha256, HshaL : !Sha256Laws, Hed : Ed25519, HedL : !Ed25519Laws, Hrsa : BlindRsa}.
Context `{Hjson : PathJson, HjsonL : !PathJsonLaws}.

(** The gate looks at two headers. *)
Lemma authorize_connect_ext b h h' ncfg spki peer now rc :
  unique_header_value h ATTEST_NONCE_HEADER = unique_header_value h' ATTEST_NONCE_HEADER →
  unique_header_value h TUNNEL_GRANT_HEADER = unique_header_value h' TUNNEL_GRANT_HEADER →
  authorize_connect b h ncfg spki peer now rc = authorize_connect b h' ncfg spki peer now rc.
Proof. intros H1 H2. unfold authorize_connect, check_connect. by rewrite H1, H2. Qed.

(** A grant that opens the tunnel of hop [i] at its node, for a client that presents it. *)
Definition opens_tunnel (realm : bytes) (ttl issued : Z) (hops : nat) (path : list RegistryNode) (i : nat)
    (n : RegistryNode) (signer : GrantSigningKey) (g : Grant) : Prop :=
  ∀ b ncfg spki v peer started cap rc now headers,
    runs_as realm hops i n ncfg spki → grant_verifier ncfg = Some v →
    keys v !! sk_key_id signer = Some (verifying_key (signing_key signer)) →
    reached_from path i peer → cache_new started cap = Some rc → started ≤ issued →
    issued ≤ now < issued + ttl → u64 now →
    unique_header_value headers ATTEST_NONCE_HEADER = Ok (Some (to_hex (g_nonce g))) →
    unique_header_value headers TUNNEL_GRANT_HEADER = Ok (Some (to_hex (g_token g))) →
    ∃ rc' policy, authorize_connect b headers ncfg spki peer now rc = (rc', Ok policy) ∧ leads_on path i policy.

(** One hop of a granted path opens the tunnel at the node it names. *)
Lemma granted_hop_opens realm hops path i n signer ttl issued nonce nb s' :
  path !! i = Some n → Forall (λ m, u16 (port m)) path →
  path_neighbors (imap (selected hops) path) i (selected hops i n) = Ok nb →
  attach_grant signer realm ttl issued nonce (selected hops i n) nb = Ok s' →
  (∀ x, nonce = Some x → length x = NONCE_LEN) →
  vk_is_weak (verifying_key (signing_key signer)) = false → u64 issued →
  is_Some (reg_tls_spki_sha256 n) ∧
  ∃ g, hop s' = set_grant (to_hop n) (to_hex (g_token g)) (to_hex (g_nonce g)) ∧ g_token g ≠ [] ∧
    length (g_nonce g) = NONCE_LEN ∧ opens_tunnel realm (as_secs ttl) issued hops path i n signer g.
Proof.
  intros Hi Hports Hnb Ha Hx Hweak Hiss.
  destruct (path_neighbors_spec _ _ _ _ _ Hi Hnb) as (Hprev & Hnext & Hport).
  apply attach_grant_Ok in Ha as (m & t & x & g & Hm & Hlm & Ht & Hlt & Hnx & Hr & Hid & Hpol & Hmint & Hs').
  cbn [selected hop to_hop Wire.hop_measurement Wire.hop_tls_spki_sha256 sel_node_id
    intended_role Wire.hop_tee] in *. set (a := {| node := _ |}) in Hmint. specialize (Hx _ Hnx).
  pose proof (proj1 (mint_ok_iff _ _ _ _ _ _) Hmint) as (_ & _ & _ & _ & _ & Hg).
  assert (Hgn : g_nonce g = x) by by rewrite Hg.
  split; [destruct (reg_tls_spki_sha256 n); [by eexists|done]|].
  exists g. rewrite Hs'. split_and!; [done|by rewrite Hg|by rewrite Hgn|].
  intros b ncfg spki v peer started cap rc now headers (m' & Hm' & Ht' & Hident) Hv Hk Hpeer Hc Hst Hnow Hu H1 H2.
  assert (m' = m) as ->.
  { rewrite <- Hm', hex_trim, from_hex_to_hex in Hm. congruence. }
  assert (t = sha256 spki) as ->.
  { rewrite Ht' in Ht. cbn in Ht. rewrite from_hex_to_hex in Ht. congruence. }
  destruct (minted_opens b ncfg spki signer a x ttl issued g v now started cap rc peer) as [rc' Hrc];
    try done.
  - split; try done. cbn. intros e He. destruct (Hport e He) as (q & Hq & ->).
    rewrite Forall_forall in Hports. auto.
  - intros ip Hip. eapply Hprev; [exact Hip|exact Hpeer].
  - exists rc'. eexists. split; [|exact Hnext]. etrans; [|exact Hrc]. apply authorize_connect_ext; [rewrite H1, Hgn|rewrite H2]; done.
Qed.

Context {S : Type} `{Hstore : NullifierStore S, Hslaws : !NullifierStoreLaws S}.

(** The path a proposal carries. *)
Lemma propose_path cfg am req p signer :
  propose cfg am req = Ok p → grant_signer cfg = Some signer →
  ∃ path path', trust_split (registry cfg) (path_hops cfg) path ∧
    attach_grants (imap (selected (path_hops cfg)) path) signer (cc_grant_realm cfg) (grant_ttl cfg)
      (now_unix_secs (am_clock_grant am)) (am_nonces am) = Ok path' ∧
    json_to_vec (hop <$> path') = Some (pr_json p).
Proof.
  intros H Hs. unfold propose in H. rewrite Hs in H. inv_ok H. injection H as <-.
  rename select (select_path _ _ _ = _) into Hsel. cbn [pr_json].
  pose proof (select_path_spec (am_shuffle am) (registry cfg) (path_hops cfg)) as Hsp.
  rewrite Hsel in Hsp. destruct Hsp as (path & Hts & ->). exists path. by eexists.
Qed.

(** The path of a first redemption, hop by hop. *)
Lemma redeemed_path cfg s am req s' resp msg signer :
  config_ok cfg → ambient_ok am → store_inv s → grant_signer cfg = Some signer →
  vk_is_weak (verifying_key (signing_key signer)) = false →
  (∀ i x, am_nonces am i = Some x → length x = NONCE_LEN) →
  from_hex req.1 = Some msg → store_ledger s !! to_hex_fmt msg = None →
  redeem_logic cfg s am req = (s', Ok resp) →
  let issued := now_unix_secs (am_clock_grant am) in
  ∃ path, trust_split (registry cfg) (path_hops cfg) path ∧ length resp = length path ∧
    ∀ i n h, path !! i = Some n → resp !! i = Some h →
      is_Some (reg_tls_spki_sha256 n) ∧
      ∃ g, h = set_grant (to_hop n) (to_hex (g_token g)) (to_hex (g_nonce g)) ∧ g_token g ≠ [] ∧
        length (g_nonce g) = NONCE_LEN ∧
        opens_tunnel (cc_grant_realm cfg) (as_secs (grant_ttl cfg)) issued (path_hops cfg) path i n signer g.
Proof.
  intros Hcfg Ham Hinv Hsig Hweak Hx Hm Hfresh H issued. unfold redeem_logic in H.
  destruct (propose cfg am req) as [p|e] eqn:Ep; [|done].
  pose proof (propose_op_ok _ _ _ _ Hcfg Ham Ep) as Hop.
  destruct (propose_key _ _ _ _ Ep) as (msg' & Hm' & Hkey). assert (msg' = msg) as -> by congruence.
  destruct (commit_or_replay _ _ _ _ _ _ _) as [s1 [out|err]] eqn:Ec; [|done].
  apply commit_ok in Ec as [_ Ec]; [|apply Hinv|apply Hop..]. unfold Spec.commit in Ec.
  rewrite Hkey, Hfresh in Ec. injection Ec as _ ->.
  destruct (propose_path _ _ _ _ _ Ep Hsig) as (path & path' & Hts & Hat & Hj).
  cbn in H. rewrite (json_roundtrip _ _ Hj) in H. cbn in H. injection H as _ <-.
  assert (Hlen : length path' = length path).
  { destruct path as [|n0 path0].
    - unfold attach_grants in Hat. cbn in Hat. by injection Hat as <-.
    - destruct (attach_grants_hop _ _ _ _ _ _ _ 0 _ Hat eq_refl) as [-> _].
      by rewrite length_imap. }
  exists path. rewrite length_fmap. split_and!; [done|done|].
  intros i n h Hi (sel & -> & Hsel)%list_lookup_fmap_Some.
  destruct (attach_grants_hop _ _ _ _ _ _ _ i _ Hat (selected_lookup _ _ _ _ Hi))
    as (_ & nb & s2 & Hs2 & Hnb & Hag).
  assert (s2 = sel) as -> by congruence.
  eapply granted_hop_opens; try done.
  - destruct Hcfg as (_ & _ & Hp). rewrite Forall_forall in Hp. apply Forall_forall.
    intros q Hq. apply Hp. by apply (ts_live _ _ _ Hts).
  - intros y. apply Hx.
  - destruct Ham as (_ & _ & Hclk). unfold issued, now_unix_secs.
    destruct (am_clock_grant am); [by apply Hclk|cbn; unfold_int; lia].
Qed.

(** ** A release coordinator always has grants to give *)

Lemma release_neighbors hops path i n :
  length path = hops → (2 ≤ hops)%nat → path !! i = Some n →
  Forall (λ m, nested_ipv4_endpoint m = true) path →
  ∃ nb, path_neighbors (imap (selected hops) path) i (selected hops i n) = Ok nb ∧
    hop_policy (grant_role_of (Role.for_position i hops)) nb.1 nb.2 = true.
Proof.
  intros Hlen Hh Hi Hn.
  assert (Hip : ∀ j m, path !! j = Some m → ∃ ip, parse_ipv4 (host m) = Some ip ∧ port m = 443).
  { intros j m Hj. eapply Forall_lookup_1 in Hn; [|exact Hj]. unfold nested_ipv4_endpoint in Hn.
    apply andb_true_iff in Hn as [Hp Hv]. apply Z.eqb_eq in Hp.
    destruct (parse_ipv4 (host m)) as [ip|]; [by exists ip|done]. }
  pose proof (lookup_lt_Some _ _ _ Hi) as Hlt.
  unfold path_neighbors. cbn [selected intended_role]. unfold Role.for_position.
  destruct (Nat.eqb_spec (i + 1) hops) as [Hlast|Hlast].
  - rewrite (selected_lookup_None hops path (Datatypes.S i)) by (apply lookup_ge_None_2; lia).
    destruct i as [|j]; [lia|].
    destruct (lookup_lt_is_Some_2 path j) as [m Hm]; [lia|]. destruct (Hip _ _ Hm) as (ip & Hp & _).
    rewrite (selected_lookup _ _ _ _ Hm). cbn [selected hop to_hop Wire.hop_host]. rewrite Hp.
    rewrite ok_or_Some, !Ok_bind. by eexists.
  - destruct (lookup_lt_is_Some_2 path (Datatypes.S i)) as [m' Hm']; [lia|].
    destruct (Hip _ _ Hm') as (ip' & Hp' & Hport). rewrite (selected_lookup _ _ _ _ Hm').
    cbn [selected hop to_hop Wire.hop_host Wire.hop_port]. rewrite Hp', Hport, ok_or_Some.
    destruct i as [|j].
    + cbn [Nat.eqb]. rewrite !Ok_bind. by eexists.
    + destruct (lookup_lt_is_Some_2 path j) as [m Hm]; [lia|]. destruct (Hip _ _ Hm) as (ip & Hp & _).
      rewrite (selected_lookup _ _ _ _ Hm). cbn [selected hop to_hop Wire.hop_host Nat.eqb].
      rewrite Hp, ok_or_Some, !Ok_bind. by eexists.
Qed.

Lemma release_attach realm hops i n signer ttl now x nb :
  identifier_ok realm → node_ok n → is_Some (reg_tls_spki_sha256 n) →
  hop_policy (grant_role_of (Role.for_position i hops)) nb.1 nb.2 = true →
  1 ≤ as_secs ttl ≤ MAX_GRANT_TTL_SECS → subsec_nanos ttl = 0 → now + as_secs ttl ≤ U64_MAX →
  ∃ s', attach_grant signer realm ttl now (Some x) (selected hops i n) nb = Ok s'.
Proof.
  intros Hr Hn [t Ht] Hpol Httl Hns Hu. unfold attach_grant. cbn [selected hop to_hop
    Wire.hop_measurement Wire.hop_tls_spki_sha256 sel_node_id intended_role Wire.hop_tee].
  destruct (no_measurement _ Hn) as (m & Hlm & ->). destruct (no_spki _ Hn _ Ht) as (tb & Hlt & ->).
  rewrite hex_trim, from_hex_to_hex. ok_step. rewrite Hlm, Ht. cbn [Nat.eqb]. ok_step.
  rewrite from_hex_to_hex. ok_step. rewrite Hlt. cbn [Nat.eqb]. ok_step.
  erewrite (proj2 (GrantAudience_new_ok _ _ _ _ _ _ _ _ _ _)); [|split_and!; [done|apply Hn|done|done]].
  cbn [map_err]. ok_step.
  erewrite (proj2 (mint_ok_iff _ _ _ _ _ _)); [|split_and!; [done|apply Hn|done|lia|lia|done|done]].
  cbn [map_err]. ok_step. by eexists.
Qed.

(** The entropy source has a nonce for every hop. *)
Definition nonces_for (cfg : CoordConfig) (nonces : nat → option bytes) : Prop :=
  ∀ i, (i < path_hops cfg)%nat → is_Some (nonces i).

Lemma release_attach_all open cfg path nonces signer t :
  release_ready open cfg → trust_split (registry cfg) (path_hops cfg) path →
  t + as_secs (grant_ttl cfg) ≤ U64_MAX → nonces_for cfg nonces →
  ∃ path', attach_grants (imap (selected (path_hops cfg)) path) signer
    (cc_grant_realm cfg) (grant_ttl cfg) t nonces = Ok path'.
Proof.
  intros Hr Hts Hu Hx. destruct (rr_ttl _ _ Hr) as [Httl Hns].
  destruct (rr_nodes _ _ Hr) as [Hok _].
  assert (Hin : ∀ j n, path !! j = Some n → n ∈ nodes (registry cfg)).
  { intros j n Hjn. apply (ts_live _ _ _ Hts). by eapply list_elem_of_lookup_2. }
  assert (Hnb : ∀ i n, path !! i = Some n →
    ∃ nb, path_neighbors (imap (selected (path_hops cfg)) path) i (selected (path_hops cfg) i n) = Ok nb ∧
      hop_policy (grant_role_of (Role.for_position i (path_hops cfg))) nb.1 nb.2 = true).
  { intros i n Hi. apply release_neighbors; [apply Hts|apply Hr|done|].
    apply Forall_lookup. intros j m Hjm. pose proof (rr_nested _ _ Hr) as Hne.
    rewrite Forall_forall in Hne. eauto. }
  unfold attach_grants.
  destruct (mapi_total (path_neighbors (imap (selected (path_hops cfg)) path)) 0
              (imap (selected (path_hops cfg)) path)) as [nbs Hnbs].
  { intros j s Hs. rewrite list_lookup_imap in Hs. apply fmap_Some in Hs as (n & Hn & ->).
    destruct (Hnb _ _ Hn) as (nb & ? & _). eauto. }
  rewrite Hnbs, Ok_bind. apply mapi_total. intros j [s nb] Hz.
  apply lookup_zip_with_Some in Hz as (s0 & nb0 & [= <- <-] & Hs & Hnb0).
  rewrite list_lookup_imap in Hs. apply fmap_Some in Hs as (n & Hn & ->). cbn [fst snd].
  apply mapi_Ok in Hnbs as [_ Hnbs].
  destruct (Hnbs j _ (selected_lookup (path_hops cfg) path j n Hn)) as (nb1 & Hnb1 & Hpn).
  assert (nb1 = nb) as -> by congruence.
  destruct (Hnb _ _ Hn) as (nb2 & Hpn2 & Hpol). 
  assert (nb2 = nb) as -> by (change (0 + j)%nat with j in Hpn; congruence).
  destruct (Hx j) as [x Hxj].
  { rewrite <- (ts_length _ _ _ Hts). by eapply lookup_lt_Some. }
  cbn [Nat.add]. rewrite Hxj. apply release_attach; try done; [apply Hr| |].
  - rewrite Forall_forall in Hok. eauto.
  - pose proof (rr_pinned _ _ Hr) as Hpin. rewrite Forall_forall in Hpin. eauto.
Qed.

(** A release coordinator never turns a good token away for want of a path or a grant:
    with a configuration it starts with, a well-formed request whose token is current and
    verifies always reaches the single-use commit, given a clock, nonces for the hops and a
    serialisable response; what the store then answers is what the client gets. *)
Theorem release_redemption_proceeds open cfg am req msg token v epoch t :
  release_ready open cfg → cc_verifier cfg = Some v →
  from_hex req.1 = Some msg → from_hex req.2 = Some token →
  message_acceptable (am_env am) msg (now_unix_secs_for_expiry (am_clock_expiry am)) = true →
  verify_with_epoch v token msg = Some epoch →
  am_clock_grant am = Some t → 0 < t → t + as_secs (grant_ttl cfg) ≤ U64_MAX →
  nonces_for cfg (am_nonces am) → (∀ p, is_Some (json_to_vec p)) →
  ∃ json, propose cfg am req =
      Ok {| pr_epoch := epoch; pr_key := to_hex_fmt msg; pr_until := t + as_secs (grant_ttl cfg);
            pr_json := json; pr_now := t |} ∧
    ∀ s s' out, commit_or_replay s (am_io am) epoch (to_hex_fmt msg) (t + as_secs (grant_ttl cfg))
      json t = (s', Ok out) → redeem_logic cfg s am req = (s', outcome_response out).
Proof.
  intros Hr Hv Hm Htok Hacc Hep Hclk Ht Hu Hx Hj.
  destruct (rr_signer _ _ Hr) as (_ & _ & seed & _ & _ & Hsig).
  destruct (rr_feasible _ _ Hr) as [p0 Hp0].
  pose proof (select_path_spec (am_shuffle am) (registry cfg) (path_hops cfg)) as Hsel.
  destruct (select_path (am_shuffle am) (registry cfg) (path_hops cfg)) as [sel|] eqn:Es;
    [|by destruct (Hsel p0)].
  destruct Hsel as (path & Hts & ->).
  destruct (release_attach_all open cfg path (am_nonces am) (from_seed seed) t Hr Hts Hu Hx)
    as [path' Hat].
  destruct (Hj (hop <$> path')) as [json Hjson'].
  assert (Hprop : propose cfg am req =
    Ok {| pr_epoch := epoch; pr_key := to_hex_fmt msg; pr_until := t + as_secs (grant_ttl cfg);
          pr_json := json; pr_now := t |}).
  { unfold propose. rewrite Hv. ok_step. rewrite Hm. ok_step. rewrite Htok. ok_step.
    rewrite Hacc. ok_step. rewrite Hep. ok_step. rewrite Es, Hclk. ok_step.
    change (now_unix_secs (Some t)) with t. rewrite (proj2 (Z.eqb_neq _ _)) by lia.
    cbn [negb]. ok_step. unfold u64_checked_add. rewrite (proj2 (Z.leb_le _ _)) by done. ok_step.
    rewrite Hsig, Hat. cbn [map_err]. ok_step. by rewrite Hjson', ok_or_Some, Ok_bind. }
  exists json. split; [done|]. intros s s' out Hc. unfold redeem_logic. rewrite Hprop.
  cbn [pr_epoch pr_key pr_until pr_json pr_now]. by rewrite Hc.
Qed.

(** ** The client at the door of a node *)

Lemma ipv4_graphic ip : Forall (λ b, graphic b = true) (ipv4_to_string ip).
Proof.
  assert (Hd : ∀ b, Forall (λ c, graphic c = true) (uint_to_string (b2z b))).
  { intros b. pose proof (b2z_range b). eapply Forall_impl; [apply uint_to_string_digits; lia|].
    intros c Hc. apply in_range_iff in Hc. apply in_range_iff. lia. }
  destruct ip. cbn [ipv4_to_string]. repeat (apply Forall_app_2; [done|]; apply Forall_cons_2; [done|]); done.
Qed.

Lemma graphic_ascii s : Forall (λ b, graphic b = true) s → ascii s.
Proof. intros H. eapply Forall_impl; [exact H|]. intros c Hc%in_range_iff. apply in_range_iff. lia. Qed.

(** What the client sends is what the gate of the node looks for. *)
Lemma connect_ip_headers_nonce authority g :
  unique_header_value (connect_ip_headers authority g) ATTEST_NONCE_HEADER = Ok (Some (to_hex (g_nonce g))).
Proof. apply unique_header_value_Some. unfold carries, connect_ip_headers. by case_bool_decide. Qed.

Lemma connect_ip_headers_grant authority g :
  g_token g ≠ [] →
  unique_header_value (connect_ip_headers authority g) TUNNEL_GRANT_HEADER = Ok (Some (to_hex (g_token g))).
Proof.
  intros Hne. apply unique_header_value_Some. unfold carries, connect_ip_headers.
  by rewrite (bool_decide_false _ Hne).
Qed.

(** What the node answers is what the client looks for. *)
Lemma ok_response_headers evidence authority g assigned spki att :
  length (g_nonce g) = NONCE_LEN →
  let r := build_connect_ok_response evidence (connect_ip_headers authority g) assigned spki att in
  status_of r = Some 200 ∧ assigned_ip_of r = assigned ∧
  header_value r ATTEST_REPORT_HEADER = report_hex evidence spki att (g_nonce g).
Proof.
  intros Hl. unfold build_connect_ok_response. rewrite connect_ip_headers_nonce, length_to_hex, Hl. unfold all_lower_hex.
  rewrite (proj2 (forallb_Forall_true _ _) (to_hex_lower _)). cbn [Nat.eqb NONCE_LEN Nat.mul Nat.add andb].
  rewrite from_hex_to_hex, Hl. cbn [Nat.eqb NONCE_LEN].
  assert (Hip : ∀ ip, (if is_utf8 (ipv4_to_string ip) then parse_ipv4 (trim (ipv4_to_string ip)) else None) = Some ip).
  { intros ip. pose proof (ipv4_graphic ip) as Hg. rewrite (ascii_is_utf8 _ (graphic_ascii _ Hg)), (trim_graphic _ Hg).
    apply parse_ipv4_to_string. }
  split_and!; destruct (report_hex evidence spki att (g_nonce g)); destruct assigned as [ip|]; try done;
    exact (Hip ip).
Qed.

End Redemption.

Section Reach.
Context `{Hsha : Sha256, HshaL : !Sha256Laws, Hed : Ed25519, HedL : !Ed25519Laws, Hrsa : BlindRsa}.
Context `{Hjson : PathJson, HjsonL : !PathJsonLaws}.
Context `{H384 : Sha384, H512 : Sha512, Hb64 : Base64, Hsev : SevCrate, Hdcap : DcapCrate, Hx509 : X509}.
Context {S : Type} `{Hstore : NullifierStore S, Hslaws : !NullifierStoreLaws S}.

(** The tunnel comes up: the answer of the node satisfies the client exactly when the node's
    evidence does, and the client then has the address the node gave it. *)
Definition comes_up (ncfg : NodeConfig) (spki authority : bytes) (ep : NodeEndpoint) (g : Grant) : Prop :=
  ∀ evidence assigned cert clock a, spki_of cert = Some spki →
    on_connect_response true (Some cert)
      (build_connect_ok_response evidence (connect_ip_headers authority g) assigned spki (attest ncfg))
      (policy_for ep) false (g_nonce g) clock = Ok a ↔
    a = assigned ∧ ∃ p att e st, policy_for ep = Some p ∧ attest ncfg = Some att ∧
      evidence att spki (g_nonce g) = Some e ∧ acceptable e spki p (g_nonce g) clock st.

Lemma report_hex_Some evidence spki att nonce hex :
  report_hex evidence spki att nonce = Some hex ↔ ∃ a e, att = Some a ∧ evidence a spki nonce = Some e ∧ hex = to_hex e.
Proof.
  unfold report_hex. destruct att as [a|]; cbn; [|naive_solver].
  destruct (evidence a spki nonce) eqn:E; cbn; naive_solver.
Qed.

Lemma described_comes_up n g ep ncfg spki authority :
  describes n g ep → is_Some (reg_tls_spki_sha256 n) → length (g_nonce g) = NONCE_LEN →
  comes_up ncfg spki authority ep g.
Proof.
  intros [_ _ _ _ (e0 & He0 & _ & _ & Hpin & _)] [h Hs] Hl evidence assigned cert clock a Hc.
  rewrite on_connect_response_release.
  destruct (ok_response_headers evidence authority g assigned spki (attest ncfg) Hl) as (-> & -> & ->).
  setoid_rewrite report_hex_Some. split.
  - intros (p & pin & c & k & hex & ev & code & st & Hp & _ & [= <-] & Hk & _ & _ & (att & e & Hat & He & ->) & Hx & Hacc & ->).
    rewrite from_hex_to_hex in Hx. injection Hx as <-. assert (k = spki) as -> by congruence.
    split; [done|]. by exists p, att, e, st.
  - intros (-> & p & att & e & st & Hp & Hat & He & Hacc).
    assert (∃ pin, ap_tls_spki_sha256 p = Some pin) as [pin Hpn].
    { unfold policy_for in Hp. rewrite He0 in Hp. injection Hp as <-. cbn. rewrite Hs in Hpin.
      destruct (ae_tls_spki_sha256 e0); [by eexists|done]. }
    exists p, pin, cert, spki, (to_hex e), e, 200, st. split_and!; try done; [by exists att, e|apply from_hex_to_hex].
Qed.

(** C1.  From a token to working tunnels, across all three programs: when a coordinator that
    passed its release checks redeems a token its ledger does not know, and the answer is within
    the size a client reads, a release client whose pins agree with every node of the registry
    accepts it, and there is a trust-split path such that every endpoint the client gets
    describes the registry node at that position; presenting the grant it carries within its
    lifetime, from where the path puts the client, to a node that holds the issuer's key, runs
    as registered and has an empty replay cache older than the grant, the node's gate opens the
    tunnel towards exactly the next hop (the exit's, to the Internet); and the node's answer
    brings the client's tunnel up, with the address the node assigned, exactly when the node's
    evidence for this connection is acceptable under the hop's policy. *)
Theorem client_reaches_every_hop open cfg s am req s' resp msg signer chunks pins log_key :
  release_ready open cfg → config_ok cfg → ambient_ok am → store_inv s → grant_signer cfg = Some signer →
  vk_is_weak (verifying_key (signing_key signer)) = false →
  (∀ i x, am_nonces am i = Some x → length x = NONCE_LEN) →
  from_hex req.1 = Some msg → store_ledger s !! to_hex_fmt msg = None →
  redeem_logic cfg s am req = (s', Ok resp) →
  json_to_vec resp = Some (concat chunks) → Z.of_nat (length (concat chunks)) ≤ MAX_BODY →
  Forall (pins_agree pins log_key) (nodes (registry cfg)) →
  let issued := now_unix_secs (am_clock_grant am) in
  ∃ path eps, trust_split (registry cfg) (path_hops cfg) path ∧ length eps = length path ∧
    redeem_response true 200 chunks pins log_key = Ok eps ∧
    ∀ i n ep, path !! i = Some n → eps !! i = Some ep → ∃ g, describes n g ep ∧
      ∀ b ncfg spki v peer started cap rc now authority,
        runs_as (cc_grant_realm cfg) (path_hops cfg) i n ncfg spki → grant_verifier ncfg = Some v →
        keys v !! sk_key_id signer = Some (verifying_key (signing_key signer)) →
        reached_from path i peer → cache_new started cap = Some rc → started ≤ issued →
        issued ≤ now < issued + as_secs (grant_ttl cfg) → u64 now →
        comes_up ncfg spki authority ep g ∧
        ∃ rc' policy, authorize_connect b (connect_ip_headers authority g) ncfg spki peer now rc = (rc', Ok policy) ∧
          leads_on path i policy.
Proof.
  intros Hr Hcfg Ham Hinv Hsig Hweak Hx Hm Hfresh H Hj Hb Hpins issued.
  destruct (redeemed_path _ _ _ _ _ _ _ _ Hcfg Ham Hinv Hsig Hweak Hx Hm Hfresh H) as (path & Hts & Hlen & Hhop).
  assert (Hin : ∀ i n, path !! i = Some n → node_ok n ∧ pins_agree pins log_key n).
  { intros i n Hi. destruct (ts_live _ _ _ Hts n) as [Hn _]; [by eapply list_elem_of_lookup_2|].
    destruct (rr_nodes _ _ Hr) as [Hok _]. rewrite Forall_forall in Hok, Hpins. auto. }
  assert (Hep : ∀ i n h, path !! i = Some n → resp !! i = Some h →
    ∃ ep g, hop_to_endpoint true h = Ok ep ∧ describes n g ep ∧ cross_check_hop pins log_key ep = Ok tt ∧
      is_Some (reg_tls_spki_sha256 n) ∧ g_token g ≠ [] ∧ length (g_nonce g) = NONCE_LEN ∧
      opens_tunnel (cc_grant_realm cfg) (as_secs (grant_ttl cfg)) issued (path_hops cfg) path i n signer g).
  { intros i n h Hi Hh. destruct (Hin _ _ Hi) as [Hn Hag].
    destruct (Hhop i n h Hi Hh) as (Hspki & g & -> & Hne & Hl & Hopen).
    destruct (hop_describes n g Hn Hspki Hl) as (ep & He & Hd). exists ep, g. split_and!; try done.
    by eapply describes_cross_check. }
  assert (Hpl : ∀ i h, resp !! i = Some h → ∃ n, path !! i = Some n).
  { intros i h Hh. apply lookup_lt_is_Some_2. apply lookup_lt_Some in Hh. lia. }
  destruct (redeem_response_total 200 chunks pins log_key resp) as [eps Heps].
  - lia.
  - by apply json_roundtrip.
  - done.
  - rewrite Hlen, (ts_length _ _ _ Hts). apply Hr.
  - intros i h Hh. destruct (Hpl _ _ Hh) as [n Hi]. destruct (Hep i n h Hi Hh) as (ep & g & ? & _ & ? & _). eauto.
  - pose proof (redeem_response_ok _ _ _ _ _ _ Heps) as (hops & Hjs & _ & _ & Hle & Hpt).
    rewrite (json_roundtrip _ _ Hj) in Hjs. injection Hjs as <-.
    exists path, eps. split_and!; [done|lia|done|]. intros i n ep Hi Hepi.
    destruct (lookup_lt_is_Some_2 resp i) as [h Hh]; [apply lookup_lt_Some in Hi; lia|].
    destruct (Hep i n h Hi Hh) as (ep' & g & He & Hd & _ & Hspki & Hne & Hl & Hopen).
    destruct (Hpt i h Hh) as (ep2 & Hep2 & He2 & _). assert (ep' = ep) as -> by congruence.
    exists g. split; [done|]. intros b ncfg spki v peer started cap rc now authority Hrun Hv Hk Hpeer Hc Hst Hnow Hu.
    split; [by eapply described_comes_up|].
    eapply Hopen; try done; [apply connect_ip_headers_nonce|by apply connect_ip_headers_grant].
Qed.

End Reach.

(** ** Witnesses *)

Section Witnesses.
Import Toy ToyJson.

Definition w_issuers : Verifier :=
  {| vkeys := [(key_epoch (str "issuer-new"), str "issuer-new");
               (key_epoch (str "issuer-old"), str "issuer-old")] |}.

Lemma w_issuers_held : cc_verifier w_coord_config = Some w_issuers.
Proof.
  assert (H : match cc_verifier w_coord_config with
              | Some v => bool_decide ((vkeys v : list (Z * bytes)) = vkeys w_issuers)
              | None => false
              end = true) by (vm_compute; reflexivity).
  destruct (cc_verifier w_coord_config) as [[ks]|]; [|discriminate H].
  apply bool_decide_eq_true in H. f_equal. unfold w_issuers. by f_equal.
Qed.

Lemma release_redemption_proceeds_witness :
  ∃ json, propose w_coord_config w_ambient w_body =
    Ok {| pr_epoch := key_epoch (str "issuer-new"); pr_key := to_hex_fmt w_token_msg;
          pr_until := 1000000 + as_secs (grant_ttl w_coord_config); pr_json := json;
          pr_now := 1000000 |}.
Proof.
  destruct (release_redemption_proceeds (S := MemoryNullifierStore) w_open w_coord_config w_ambient
    w_body w_token_msg w_token_sig w_issuers (key_epoch (str "issuer-new")) 1000000) as (json & H & _).
  - exact w_coord_ready.
  - exact w_issuers_held.
  - exact (from_hex_to_hex w_token_msg).
  - exact (from_hex_to_hex w_token_sig).
  - vm_compute. reflexivity.
  - vm_compute. reflexivity.
  - reflexivity.
  - lia.
  - apply Z.leb_le. vm_compute. reflexivity.
  - intros i _. by eexists.
  - intros p. by eexists.
  - exists json. exact H.
Defined.

(** The registry the witness configuration was loaded from. *)
Definition w_node_of (nid nhost op jur : bytes) (r : Role.t) : RegistryNode := {|
  id := nid; host := nhost; port := 443; reg_tee := Wire.SevSnp;
  reg_measurement := to_hex (replicate 48 x07);
  reg_tls_spki_sha256 := Some (to_hex (sha256 (str "certificate")));
  operator := op; jurisdiction := jur; wg_pub := None; reg_role := r;
  min_tcb_sevsnp := Some w_floor; tdx_policy := None;
  transparency_log_key := Some (to_hex (replicate 32 x0b)) |}.

Definition w_n_entry := w_node_of (str "entry-1") (str "192.0.2.7") (str "op-a") (str "US") Role.Entry.
Definition w_n_middle := w_node_of (str "middle-1") (str "203.0.113.9") (str "op-b") (str "DE") Role.Middle.
Definition w_n_exit := w_node_of (str "exit-1") (str "198.51.100.20") (str "op-c") (str "CH") Role.Exit.

Lemma w_coord_nodes : nodes (registry w_coord_config) = [w_n_entry; w_n_middle; w_n_exit].
Proof. vm_compute. reflexivity. Qed.

Lemma w_coord_hops : path_hops w_coord_config = 3%nat.
Proof. vm_compute. reflexivity. Qed.

Lemma w_position path i n :
  trust_split (registry w_coord_config) (path_hops w_coord_config) path → (i < 3)%nat →
  [w_n_entry; w_n_middle; w_n_exit] !! i = Some n → path !! i = Some n.
Proof.
  intros Hts Hi Hn. destruct (lookup_lt_is_Some_2 path i) as [m Hm].
  { by rewrite (ts_length _ _ _ Hts), w_coord_hops. }
  pose proof (ts_roles _ _ _ Hts _ _ Hm) as Hr. rewrite w_coord_hops in Hr.
  destruct (ts_live _ _ _ Hts m) as [Hin _]; [by eapply list_elem_of_lookup_2|].
  rewrite w_coord_nodes, !elem_of_cons, elem_of_nil in Hin.
  rewrite Hm. destruct i as [|[|[|]]]; [| | |lia]; injection Hn as <-;
    destruct Hin as [->|[->|[->|[]]]]; done.
Qed.

Local Notation w_redeemed :=
  (redeem_logic w_coord_config (st_nullifiers w_state) w_ambient w_body) (only parsing).

Lemma w_redeems : is_ok w_redeemed.2 = true.
Proof. vm_compute. reflexivity. Qed.

Lemma w_signer_held : grant_signer w_coord_config = Some w_key.
Proof.
  assert (H : match grant_signer w_coord_config with
              | Some k => bool_decide (fixed_bytes (signing_key k : fixed 32) =
                                       fixed_bytes (signing_key w_key : fixed 32))
              | None => false
              end = true) by (vm_compute; reflexivity).
  destruct (grant_signer w_coord_config) as [[k]|]; [|discriminate H].
  apply bool_decide_eq_true, fixed_eq in H. f_equal. unfold w_key, from_seed. by f_equal.
Qed.

Definition w_pins : list bytes := [replicate 48 x09; replicate 48 x07].
Definition w_log_key : bytes := replicate 32 x0b.

Lemma w_pins_agree : Forall (pins_agree w_pins (Some w_log_key)) (nodes (registry w_coord_config)).
Proof.
  assert (Hn : ∀ nid nhost op jur r, pins_agree w_pins (Some w_log_key) (w_node_of nid nhost op jur r)).
  { intros. split; [right; exists (replicate 48 x07); split; [by right; left|done]|by intros k [= <-]]. }
  rewrite w_coord_nodes. repeat (apply Forall_cons_2; [apply Hn|]). by apply Forall_nil_2.
Qed.

(** The client of the witness: the answer's bytes in one chunk. *)
Lemma w_answer resp :
  ok w_redeemed.2 = Some resp →
  ∃ body, json_to_vec resp = Some (concat [body]) ∧ Z.of_nat (length (concat [body])) ≤ MAX_BODY.
Proof.
  assert (H : match ok w_redeemed.2 ≫= json_to_vec with
              | Some body => Z.of_nat (length body) <=? MAX_BODY | None => false end = true)
    by (vm_compute; reflexivity).
  intros Hr. rewrite Hr in H. cbn [mbind option_bind] in H.
  destruct (json_to_vec resp) as [body|]; [|discriminate H].
  exists body. cbn [concat]. rewrite app_nil_r. split; [reflexivity|]. by apply Z.leb_le.
Qed.

#[local] Existing Instances ToyAttest.toy_sha384 ToyAttest.toy_sha512 ToyLog.toy_base64 ToyAttest.toy_sev
  ToyAttest.toy_dcap.
#[local] Instance toy_x509 : X509 := Some.

(** The middle hop's grant opens the tunnel at the middle node. *)
Lemma client_reaches_every_hop_witness :
  ∃ chunks eps ep g rc' policy,
    redeem_response true 200 chunks w_pins (Some w_log_key) = Ok eps ∧ eps !! 1%nat = Some ep ∧
    ep_grant ep = Some g ∧ comes_up w_cfg w_spki (str "203.0.113.9:443") ep g ∧
    authorize_connect w_gate_build (connect_ip_headers (str "203.0.113.9:443") g)
      w_cfg w_spki w_peer 1000100 w_rc0 = (rc', Ok policy) ∧
    policy = PolicyRelay {| sa_ip := Ipv4 xc6 x33 x64 x14; sa_port := 443 |}.
Proof.
  pose proof w_redeems as Hok. pose proof w_answer as Hans.
  destruct w_redeemed as [s' [resp|e]] eqn:E; [|discriminate Hok]. clear Hok.
  destruct (Hans resp eq_refl) as (body & Hj & Hb).
  destruct (client_reaches_every_hop w_open w_coord_config (st_nullifiers w_state) w_ambient w_body s'
    resp w_token_msg w_key [body] w_pins (Some w_log_key)) as (path & eps & Hts & Hlen & Hr & Hhop).
  - exact w_coord_ready.
  - exact w_config_ok.
  - split_and!; [by intros n [= <-]| |]; intros t [= <-]; unfold_int; lia.
  - exact w_store_inv.
  - exact w_signer_held.
  - reflexivity.
  - intros i x [= <-]. reflexivity.
  - exact (from_hex_to_hex w_token_msg).
  - reflexivity.
  - exact E.
  - exact Hj.
  - exact Hb.
  - exact w_pins_agree.
  - pose proof (w_position path 0 _ Hts ltac:(lia) eq_refl) as H0.
    pose proof (w_position path 1 _ Hts ltac:(lia) eq_refl) as H1.
    pose proof (w_position path 2 _ Hts ltac:(lia) eq_refl) as H2.
    destruct (lookup_lt_is_Some_2 eps 1) as [ep Hep].
    { rewrite Hlen, (ts_length _ _ _ Hts), w_coord_hops. lia. }
    destruct (Hhop 1%nat _ ep H1 Hep) as (g & Hd & Hauth).
    destruct (Hauth w_gate_build w_cfg w_spki w_verifier w_peer 900 64%nat w_rc0 1000100 (str "203.0.113.9:443"))
      as (Hup & rc' & policy & Hc & Hl).
    + exists (replicate 48 x07). split_and!; reflexivity.
    + reflexivity.
    + reflexivity.
    + eexists _, _. split_and!; [exact H0|reflexivity|reflexivity].
    + exact w_cache_new.
    + cbn. lia.
    + assert (Ht' : as_secs (grant_ttl w_coord_config) = 300) by (vm_compute; reflexivity).
      rewrite Ht'. cbn. lia.
    + unfold_int. lia.
    + exists [body], eps, ep, g, rc', policy. split_and!; [exact Hr|exact Hep|apply Hd|exact Hup|exact Hc|].
      unfold leads_on in Hl. rewrite H2 in Hl. destruct Hl as (ip & Hip & ->).
      assert (ip = Ipv4 xc6 x33 x64 x14) as -> by (vm_compute in Hip; congruence). reflexivity.
Defined.

End Witnesses.
